(* ===== verification/_CoqProject ===== *)
-Q . S2P
Prelude.v
Utils.v
Str.v
Path.v
BytesBuffer.v
MemoryPool.v
DataArray.v
ArrayList.v
Stack.v
Heap.v
Sort.v
Nodes.v
LinkedList.v
Queue.v
PointerSlot.v
SowrPool.v
RingPool.v
TsPool.v
OrderedMap.v
AvlShape.v
AvlTree.v
AvlUpdate.v
AvlMap.v
HashTable.v
Trie.v
TimeCounter.v
FlowController.v
TimeWheel.v
RingBuffer.v
SyncLock.v
RefCnt.v
Monitor.v
BlockingQueue.v
DoubleBuffer.v
Channel.v
ShmRing.v
MaRing.v
EventLoop.v
EventPoll.v
EventSelect.v
EventEpoll.v
EventExit.v
Modes.v
Aes.v
Lanes.v
OpensslAes.v
Parity.v
XorLinear.v
Des.v
OpensslDes.v
DesSpec.v
DesModes.v
Tdes.v
Hex.v
