(* ===== verification/Prelude.v ===== *)
(** * A verification development for mugglec

    mugglec is a C library of containers, memory pools, block ciphers and
    concurrency, event and network utilities.  This library models the parts
    that carry its algorithms, function by function, and proves what makes
    each of them correct.

    ** The program and its parts

    - [base/utils], [dsaa/dsaa_utils]: bit tricks on machine words, used by
      the containers and the ciphers.  [base/str]: comparison and search of
      strings, and parsing of integers.  [os/path]: paths as text.
    - [memory]: the memory pool (blocks handed out from a ring of pointers,
      growing on demand), the pools for one writer and one reader, for one
      allocating thread ([ring_memory_pool]) and for many
      ([threadsafe_memory_pool]), the table of pointers [pointer_slot], and the
      bytes buffer (a ring of bytes with a truncation mark).
    - [dsaa]: array list, stack, heap, linked list, queue, AVL tree, hash table,
      trie, time wheel and the sorts; the heap sort calls the heap, the quick
      sort the insertion sort, linked list, queue, AVL tree, hash table and
      trie take their nodes from a memory pool, and the time wheel reads a time
      counter.
    - [time]: the time counter and the two flow controllers, which limit the
      rate of calls.
    - [sync]: what threads exchange messages through - the ring buffer, the
      channel, the shared-memory ring, the rings of a thread each with one
      backend ([ma_ring]), the array blocking queue and the double buffer -
      and the lock on a futex and the reference counts.
    - [event]: the event loop, over [poll], [select] or [epoll]; it keeps its
      contexts in a linked list and other threads wake it by a signal.
    - [crypt]: AES, DES and triple DES, each with five block cipher modes, and
      parity bits; the block functions have a portable version and the one of
      the default build; [encoding]: hexadecimal text.
    - log, net and the rest of os, sync, memory, event and time: see "Not
      modelled".

    ** Files

    - [Prelude]: machine integers, arrays, loops, comparison functions, and
      the hint database [muggle].
    - [Utils]: [utils.c], [utils.h], [dsaa_utils.h].  [Str]: [str.c].
      [Path]: [path.c].
    - [BytesBuffer]: [bytes_buffer.c].  [MemoryPool]: [memory_pool.c].
    - [DataArray]: the array of data nodes that [array_list.c] and [stack.c]
      both keep.  [ArrayList], [Stack], [Heap], [Sort]: the files of [dsaa].
    - [Nodes]: doubly linked nodes between two sentinels, with the class
      [NodeAllocator], the interface between the containers of nodes and the
      memory pool or [malloc].  [LinkedList], [Queue]: the files of [dsaa].
    - [OrderedMap]: the specification of a search tree.  [AvlShape]: balanced
      trees without pointers.  [AvlTree]: the functions of [avl_tree.c] on nodes
      in memory, and that the rotations do what those of [AvlShape] do;
      [AvlUpdate]: the same of the loops; [AvlMap]: the theorems.
      [HashTable]: [hash_table.c].  [Trie]: [trie.c].
    - [TimeCounter]: [time_counter.c].  [FlowController]: [flow_controller.c]
      and [fast_flow_controller.c], with the class [FlowControl] that both
      implement.  [TimeWheel]: [time_wheel.c].
    - [PointerSlot], [SowrPool], [RingPool], [TsPool]: the files of [memory];
      the last three as steps of threads.
    - [RingBuffer]: [ring_buffer.c] and [spinlock.c], as steps of threads.
      [SyncLock]: [synclock.c].  [RefCnt]: [ref_cnt.c].  [Channel]: [channel.c].
      [ShmRing]: [shm_ring_buffer.c].  [MaRing]: [ma_ring.c].
    - [Monitor]: threads that call operations under a mutex and wait on condition
      variables.  [BlockingQueue], [DoubleBuffer]: [array_blocking_queue.c] and
      [double_buffer.c], as instances of it.
    - [EventLoop]: what the implementations of the loop share, with the class
      [EvImpl] of an implementation and the laws [EvLaws] it promises.
      [EventPoll], [EventSelect], [EventEpoll]: the files [event_loop_*.c], with
      their instances.  [EventExit]: the end of the loop, as steps of threads.
    - [Modes]: the loops of the five modes, over a block function, with the
      class [BlockCipher], the interface between a cipher and its modes.
    - [Aes]: [aes.c] and [internal_aes.c].  [Lanes]: 64-bit words as eight
      bytes that do not mix.  [OpensslAes]: [openssl_aes.c] and the key setting
      of [aes.c].  [XorLinear]: functions on words that commute with the
      exclusive or.  [Des]: [internal_des.c].  [OpensslDes]: [openssl_des.c].
      [DesSpec]: the standard FIPS 46-3, and that the optimised code implements
      it.  [DesModes]: [des.c].  [Tdes]: [tdes.c].
    - [Hex]: [hex.c].  [Parity]: [parity.c].

    ** How the code is modelled

    A C integer of width [w] is a [Z]; unsigned arithmetic wraps with [u8],
    [u32], [u64] where the C expression can wrap.  An array is a list, read and
    written with [rd] and [wr], which give [None] outside of it; a cell that may
    be uninitialised is an [option].  A [None] result of a function is thus a
    fault (an access outside of memory, or a read of an uninitialised cell),
    and every theorem that gives a [Some] result says that there is none.  A
    struct is a [Record], an operation a function from the state before to the
    results and the state after.  Signed arithmetic that can overflow is
    checked ([i64]): an overflow is a fault, too.  The clock is an input.
    [malloc] and [mmap] are inputs: each
    operation that allocates takes the answers the allocator gives, and the
    theorems hold for all answers.  A comparison callback is a section
    variable with the laws [CmpLaws] of a total preorder.  Threads are program
    counters over a shared state, with a relation that lets any of them take
    the next step; where the code relies on the order of memory accesses of an
    architecture, the model is sequentially consistent, but for [SowrPool], whose
    loads may return old values.  A callback of the event loop is a script of
    what it does to the loop.  A [for] loop is
    [for_up] or [for_down]; a [while] loop is a [Fixpoint] with fuel, started
    with the length of the array (plus one where the loop tests at the end),
    and its lemmas prove that this fuel is never used up, so that the results
    are those of the loop.  The loop of the field multiplication of AES runs
    at most 8 times, once per bit ([galois_loop_fuel]).

    ** What the theorems show

    - [MemoryPool]: alloc, free and ensure_space implement a queue of free
      blocks; in any run of a client that frees only what it holds, and calls
      ensure_space only while a block is in use, alloc never returns a block that
      overlaps one in use; the results of init.
    - [BytesBuffer]: the ring refines a byte queue; write succeeds exactly when
      there is room; the accounting of readable and writable bytes.
    - [ArrayList], [Stack], [Heap]: every sequence of calls, with any allocator
      answers, returns what the abstract list, stack or priority queue
      returns.
    - [LinkedList], [Queue]: each call acts on the sequence of nodes, or on the
      first-in first-out queue of data, as specified, and exactly the nodes of
      the sequence stay allocated.
    - [AvlMap]: each call acts on the nodes in memory as on an ordered map; in
      every state that insert and remove reach from init the tree is balanced,
      ordered and consistently linked and no call faults; find compares at most
      2 log2(n+1) + 1 keys.  [HashTable]: each call acts on the chains as on a
      map of entries with distinct keys.  [Trie]: each call acts as on a map
      from strings to data, for keys whose characters are not negative.
    - [FlowController]: a call passes exactly when the n-th last recorded one is
      a time range ago, so that any interval of that length has at most n calls
      that pass.  [TimeWheel]: the wheel is a ring of lists; an update calls
      the callback once for each node of the slots it turns.
    - [Str]: search gives the least position and the number of occurrences;
      the parsers accept exactly the numerals in the ranges that they check.
    - [Path]: normalisation, join and split of paths, and their errors.
    - [PointerSlot], [SowrPool], [RingPool], [TsPool]: the table returns what was
      stored; under every interleaving the pools hand out only blocks that are
      not in use - [RingPool] with memory of less than 4 GB, [TsPool] with
      allocations that do not overlap -, and an allocation of [RingPool] returns.
    - [RingBuffer]: under every interleaving, mutual exclusion of the writers,
      readers that are not lapped get the messages they ask for, no step
      faults, no wake-up is lost, and messages read once are taken in order.
    - [Channel], [ShmRing], [MaRing], [BlockingQueue], [DoubleBuffer]: messages
      are delivered once and in order, no access leaves the memory or reads what
      was not written - with sizes that fit in 32 bits for [ShmRing], whose
      messages are not empty, and [MaRing]; a sleeper that can proceed is woken.
    - [SyncLock], [RefCnt]: mutual exclusion without lost wake-ups; the counter
      is linearizable and exactly one release returns zero.
    - [EventPoll], [EventSelect], [EventEpoll]: for every answer of the system
      call and all callbacks (of which those of [EventSelect] add descriptors
      below [FD_SETSIZE]), a round accesses no freed context, calls the
      callbacks of the ready contexts, and closes each context exactly when it
      leaves the loop.  [EventExit]: a request to end the loop is not lost.
    - [Sort]: each sort terminates within the array and gives a sorted
      permutation of its input, for any total preorder.
    - [Aes], [Des], [Tdes]: each block function is inverted by its decryption,
      and each mode gives the message back, for all keys, messages, IVs and
      offsets; the checks of the arguments.  [OpensslAes]: the block function
      and the key expansion of the default build are those of the portable
      code, so that all of this holds of them too.  [DesModes], [Tdes]: DES
      and triple DES of the default build are those of FIPS 46-3.
    - [Hex], [Parity]: round trips and exact acceptance.
    - Theorems whose names end in [_defect], [des_not_standard],
      [tdes_equal_keys_not_des], [channel_of_two_is_full] and
      [channel_init_reports_no_error] state, as closed facts about the model,
      behaviour of the code that departs from what it is for.

    ** Not modelled

    The portable AES key expansion does not compile (its table is commented
    out); it is modelled with that table, as the reference of the other one.
    The floating point parsers of [str.c] return what the C library returns.
    Shared memory segments, clocks, threads, mutexes and the wrappers of system
    calls are input and output, without logic of their own to prove.  Logging
    (its formats and the rotation of its files) and the sockets (with the handle
    that connects them to the event loop) are left out, and so are the branches
    for Windows.  Of the event loop, its creation, and
    the signal on a pipe where there is no [eventfd]; of [ma_ring], the sleeps
    and the creation of the backend thread. *)

From stdpp Require Export base list list_numbers option numbers gmap sorting.
From Stdlib Require Export ZArith Lia.

#[global] Open Scope Z_scope.

(** ** Machine integers

    A [w]-bit unsigned value is a [Z] in [0, 2^w); the wrap-around of C's
    unsigned arithmetic is written out with [wrap]. *)

Definition wrap (w x : Z) : Z := x mod 2 ^ w.

Declare Scope muggle_scope.
Delimit Scope muggle_scope with mgl.
Notation "'u8' x" := (wrap 8 x) (at level 10, x at level 9) : muggle_scope.
Notation "'u32' x" := (wrap 32 x) (at level 10, x at level 9) : muggle_scope.
Notation "'u64' x" := (wrap 64 x) (at level 10, x at level 9) : muggle_scope.
#[global] Open Scope muggle_scope.

(** The value of a [w]-bit two's complement word. *)
Definition swrap (w x : Z) : Z := (x + 2 ^ (w - 1)) mod 2 ^ w - 2 ^ (w - 1).

Definition in_width (w x : Z) : Prop := 0 <= x < 2 ^ w.

Create HintDb muggle.

Lemma wrap_small w x : in_width w x -> wrap w x = x.
Proof. unfold in_width, wrap; intros; by apply Z.mod_small. Qed.

Lemma wrap_range w x : 0 <= w -> in_width w (wrap w x).
Proof. intros; unfold in_width, wrap; apply Z.mod_pos_bound; lia. Qed.

#[export] Hint Resolve wrap_range : muggle.

Lemma swrap_small w x : 0 < w -> - 2 ^ (w - 1) <= x < 2 ^ (w - 1) -> swrap w x = x.
Proof.
  intros Hw Hx; unfold swrap; rewrite Z.mod_small; [lia|].
  replace (2 ^ w) with (2 * 2 ^ (w - 1)); [lia|].
  rewrite <- Z.pow_succ_r by lia; f_equal; lia.
Qed.

(** Fewer than [m] apart, and in the same place of the ring. *)
Lemma mod_window m a b : 0 < m -> a <= b < a + m -> a mod m = b mod m -> a = b.
Proof.
  intros Hm Hab Heq; pose proof (Z.div_mod a m); pose proof (Z.div_mod b m).
  assert (b / m = a / m \/ b / m > a / m \/ b / m < a / m) as [H1|[H1|H1]] by lia; nia.
Qed.

(** ** Arrays

    An array is a list; reading or writing outside of it has no meaning in
    C, which the model renders as [None].  An array of possibly
    uninitialised cells is a list of options ([None] is an indeterminate
    value), whose reads use [rdi]. *)

Section Arrays.
Context {A : Type}.
Implicit Types (l : list A) (i : Z).

Definition rd l i : option A :=
  if decide (0 <= i) then l !! Z.to_nat i else None.

Definition wr l i (x : A) : option (list A) :=
  if decide (0 <= i < Z.of_nat (length l)) then Some (<[Z.to_nat i := x]> l)
  else None.

Lemma rd_Some l i x : rd l i = Some x -> 0 <= i < Z.of_nat (length l).
Proof.
  unfold rd; case_decide; [|done]; intros E%lookup_lt_Some; lia.
Qed.

Lemma rd_nat l (n : nat) : rd l (Z.of_nat n) = l !! n.
Proof. unfold rd; rewrite decide_True by lia; by rewrite Nat2Z.id. Qed.

Lemma rd_is_Some l i :
  0 <= i < Z.of_nat (length l) -> is_Some (rd l i).
Proof.
  intros; unfold rd; rewrite decide_True by lia.
  apply lookup_lt_is_Some; lia.
Qed.

Lemma wr_Some l i x :
  0 <= i < Z.of_nat (length l) -> wr l i x = Some (<[Z.to_nat i := x]> l).
Proof. intros; unfold wr; by rewrite decide_True. Qed.

Lemma wr_inv l i x l' :
  wr l i x = Some l' ->
  0 <= i < Z.of_nat (length l) /\ l' = <[Z.to_nat i := x]> l.
Proof. unfold wr; case_decide; by intros; simplify_eq. Qed.

Lemma wr_nat l (n : nat) x :
  (n < length l)%nat -> wr l (Z.of_nat n) x = Some (<[n := x]> l).
Proof. intros; rewrite wr_Some by lia; by rewrite Nat2Z.id. Qed.

Lemma wr_length l i x l' : wr l i x = Some l' -> length l' = length l.
Proof. intros [_ ->]%wr_inv; apply length_insert. Qed.

Lemma rd_wr_eq l i x l' : wr l i x = Some l' -> rd l' i = Some x.
Proof.
  intros [? ->]%wr_inv; unfold rd; rewrite decide_True by lia.
  apply list_lookup_insert_eq; lia.
Qed.

Lemma rd_wr_ne l i j x l' : wr l i x = Some l' -> i <> j -> rd l' j = rd l j.
Proof.
  intros [? ->]%wr_inv Hne; unfold rd; case_decide; [|done].
  apply list_lookup_insert_ne; lia.
Qed.
End Arrays.

#[export] Hint Resolve rd_is_Some : muggle.

(** Arrays of cells that may be uninitialised. *)
Definition rdi {A} (l : list (option A)) (i : Z) : option A := rd l i ≫= id.

Definition uninit {A} (n : Z) : list (option A) := replicate (Z.to_nat n) None.

(** ** Blocks of memory: [memcpy]

    [slice l i n] are the [n] elements of [l] from index [i] on and
    [blit l i bs] is [l] with [bs] copied to index [i].  [copy_out] and
    [copy_in] are the two directions of a [memcpy] with its bounds: a range
    that leaves the block (or a negative length, which [size_t] turns into a
    huge one) is [None]. *)

Section Blocks.
Context {A : Type}.
Implicit Types (l bs : list A) (i n : Z).

Definition slice l i n : list A := take (Z.to_nat n) (drop (Z.to_nat i) l).

Definition blit l i bs : list A :=
  take (Z.to_nat i) l ++ bs ++ drop (Z.to_nat i + length bs) l.

Definition copy_out l i n : option (list A) :=
  if decide (0 <= i /\ 0 <= n /\ i + n <= Z.of_nat (length l))
  then Some (slice l i n) else None.

Definition copy_in l i bs : option (list A) :=
  if decide (0 <= i /\ i + Z.of_nat (length bs) <= Z.of_nat (length l))
  then Some (blit l i bs) else None.

Lemma copy_out_Some l i n :
  0 <= i -> 0 <= n -> i + n <= Z.of_nat (length l) ->
  copy_out l i n = Some (slice l i n).
Proof. intros; unfold copy_out; by rewrite decide_True. Qed.

Lemma copy_in_Some l i bs :
  0 <= i -> i + Z.of_nat (length bs) <= Z.of_nat (length l) ->
  copy_in l i bs = Some (blit l i bs).
Proof. intros; unfold copy_in; by rewrite decide_True. Qed.

Lemma slice_length l i n :
  0 <= i -> 0 <= n -> i + n <= Z.of_nat (length l) ->
  Z.of_nat (length (slice l i n)) = n.
Proof. intros; unfold slice; rewrite length_take, length_drop; lia. Qed.

Lemma slice_nil l i n : n <= 0 -> slice l i n = [].
Proof. intros; unfold slice; by replace (Z.to_nat n) with 0%nat by lia. Qed.

Lemma slice_all l n : n = Z.of_nat (length l) -> slice l 0 n = l.
Proof. intros ->; unfold slice; rewrite Nat2Z.id; apply firstn_all. Qed.

Lemma slice_add l i n m :
  0 <= i -> 0 <= n -> 0 <= m ->
  slice l i (n + m) = slice l i n ++ slice l (i + n) m.
Proof.
  intros; unfold slice; rewrite !Z2Nat.inj_add by lia.
  rewrite <- drop_drop; by rewrite take_take_drop.
Qed.

Lemma slice_split l k n :
  0 <= k <= n -> n = Z.of_nat (length l) -> slice l 0 k ++ slice l k (n - k) = l.
Proof.
  intros Hk Hn; rewrite <- (slice_all l n) at 3 by done.
  replace n with (k + (n - k)) at 2 by lia; by rewrite slice_add by lia.
Qed.

Lemma slice_slice l i n j m :
  0 <= i -> 0 <= j -> 0 <= m -> j + m <= n ->
  slice (slice l i n) j m = slice l (i + j) m.
Proof.
  intros; unfold slice; rewrite skipn_firstn_comm, take_take, drop_drop.
  f_equal; [lia|f_equal; lia].
Qed.

Lemma take_slice l i n m :
  0 <= n <= m -> take (Z.to_nat n) (slice l i m) = slice l i n.
Proof. intros; unfold slice; rewrite take_take; f_equal; lia. Qed.

Lemma drop_slice l i n m :
  0 <= i -> 0 <= n <= m -> drop (Z.to_nat n) (slice l i m) = slice l (i + n) (m - n).
Proof.
  intros; unfold slice; rewrite skipn_firstn_comm, drop_drop.
  f_equal; [lia|f_equal; lia].
Qed.

Lemma blit_length l i bs :
  0 <= i -> i + Z.of_nat (length bs) <= Z.of_nat (length l) ->
  length (blit l i bs) = length l.
Proof.
  intros; unfold blit; rewrite !length_app, length_take, length_drop; lia.
Qed.

Lemma slice_blit_eq l i bs n :
  0 <= i -> i + Z.of_nat (length bs) <= Z.of_nat (length l) ->
  n = Z.of_nat (length bs) -> slice (blit l i bs) i n = bs.
Proof.
  intros ? ? ->; unfold slice, blit.
  rewrite drop_app_length' by (rewrite length_take; lia).
  rewrite Nat2Z.id; apply take_app_length.
Qed.

Lemma slice_blit_before l i bs j n :
  0 <= i <= Z.of_nat (length l) -> 0 <= j -> j + n <= i ->
  slice (blit l i bs) j n = slice l j n.
Proof.
  intros; unfold slice, blit; destruct (decide (0 <= n)) as [|].
  2:{ by replace (Z.to_nat n) with 0%nat by lia. }
  rewrite drop_app_le by (rewrite length_take; lia).
  rewrite take_app_le by (rewrite length_drop, length_take; lia).
  rewrite skipn_firstn_comm, take_take; f_equal; lia.
Qed.

Lemma slice_blit_after l i bs j n :
  0 <= i -> i + Z.of_nat (length bs) <= j ->
  i + Z.of_nat (length bs) <= Z.of_nat (length l) ->
  slice (blit l i bs) j n = slice l j n.
Proof.
  intros; unfold slice, blit; f_equal.
  rewrite app_assoc, drop_app_ge by (rewrite length_app, length_take; lia).
  rewrite drop_drop; f_equal; rewrite length_app, length_take; lia.
Qed.
End Blocks.

Lemma list_snoc_case {A} (l : list A) : l = [] \/ exists l0 x, l = l0 ++ [x].
Proof. induction l using rev_ind; eauto. Qed.

(** Writing and reading behind a prefix. *)
Lemma rd_mid {A} (pre : list A) x (rest : list A) i :
  i = Z.of_nat (length pre) -> rd (pre ++ x :: rest) i = Some x.
Proof. intros ->; by rewrite rd_nat, lookup_app_r, Nat.sub_diag by lia. Qed.

Lemma wr_mid {B} (pre : list B) x y (rest : list B) i :
  i = Z.of_nat (length pre) -> wr (pre ++ x :: rest) i y = Some (pre ++ y :: rest).
Proof.
  intros ->; rewrite wr_nat by (rewrite length_app; simpl; lia).
  by rewrite insert_app_r_alt, Nat.sub_diag by lia.
Qed.

(** ** Replacing elements, up to permutation *)

Lemma insert_perm {A} (l : list A) i x o : l !! i = Some o -> o :: <[i:=x]> l ≡ₚ x :: l.
Proof.
  intros H; pose proof (lookup_lt_Some _ _ _ H).
  rewrite insert_take_drop by done; rewrite <- (take_drop_middle l i o) at 3 by done.
  rewrite <- !Permutation_middle; apply perm_swap.
Qed.

Lemma swap_perm {A} (l : list A) i j x y :
  i <> j -> (i < length l)%nat -> l !! j = Some y -> <[j:=x]> (<[i:=y]> l) ≡ₚ <[i:=x]> l.
Proof.
  intros Hne Hi Hj; destruct (lookup_lt_is_Some_2 l i Hi) as [o Ho].
  apply (Permutation_cons_inv (a := o)), (Permutation_cons_inv (a := y)).
  assert (<[i:=y]> l !! j = Some y) as Hj' by (by rewrite list_lookup_insert_ne).
  rewrite (perm_swap o y), (insert_perm _ _ x _ Hj'), (perm_swap x o), (insert_perm _ _ y _ Ho).
  by rewrite (insert_perm _ _ x _ Ho), (perm_swap x y).
Qed.

(** ** Loops

    [for_up n i body] runs [body] at [i], [i+1], ..., [i+n-1];
    [for_down n i body] runs it at [i], [i-1], ..., [i-n+1]. *)

Section Loops.
Context {S : Type} (body : Z -> S -> option S).

Fixpoint for_up (n : nat) (i : Z) (s : S) : option S :=
  match n with
  | O => Some s
  | Datatypes.S n' => s' ← body i s; for_up n' (i + 1) s'
  end.

Fixpoint for_down (n : nat) (i : Z) (s : S) : option S :=
  match n with
  | O => Some s
  | Datatypes.S n' => s' ← body i s; for_down n' (i - 1) s'
  end.

(** Invariant rule of a counting loop. *)
Lemma for_up_inv (P : Z -> S -> Prop) n i s :
  P i s ->
  (forall j t, i <= j < i + Z.of_nat n -> P j t ->
     exists t', body j t = Some t' /\ P (j + 1) t') ->
  exists s', for_up n i s = Some s' /\ P (i + Z.of_nat n) s'.
Proof.
  revert i s; induction n as [|n IH]; intros i s Hi Hstep; simpl.
  { exists s; split; [done|]; by rewrite Z.add_0_r. }
  destruct (Hstep i s) as (t & -> & Ht); [lia|done|]; simpl.
  destruct (IH (i + 1) t Ht) as (s' & -> & Hs').
  { intros j u Hj Hu; apply Hstep; [lia|done]. }
  exists s'; split; [done|].
  by replace (i + Z.of_nat (Datatypes.S n)) with (i + 1 + Z.of_nat n) by lia.
Qed.

Lemma for_down_inv (P : Z -> S -> Prop) n i s :
  P i s ->
  (forall j t, i - Z.of_nat n < j <= i -> P j t ->
     exists t', body j t = Some t' /\ P (j - 1) t') ->
  exists s', for_down n i s = Some s' /\ P (i - Z.of_nat n) s'.
Proof.
  revert i s; induction n as [|n IH]; intros i s Hi Hstep; simpl.
  { exists s; split; [done|]; by rewrite Z.sub_0_r. }
  destruct (Hstep i s) as (t & -> & Ht); [lia|done|]; simpl.
  destruct (IH (i - 1) t Ht) as (s' & -> & Hs').
  { intros j u Hj Hu; apply Hstep; [lia|done]. }
  exists s'; split; [done|].
  by replace (i - Z.of_nat (Datatypes.S n)) with (i - 1 - Z.of_nat n) by lia.
Qed.
End Loops.

(** Cases of a lookup in an updated map: the new entry, or an old one. *)
Ltac upd := repeat match goal with
  | H : <[?t:=?p]> ?m !! ?t' = Some ?q |- _ =>
      first [apply lookup_insert_Some in H as [[<- <-]|[? H]] | apply lookup_insert_Some in H as [[? ?]|[? H]]; simplify_eq]
  end.

(** ** The null pointer; user data is an opaque pointer. *)
Definition NULL : Z := 0.

(** ** Comparison functions [muggle_dsaa_data_cmp]: what every ordered
    container relies on. *)
Class CmpLaws (cmp : Z -> Z -> Z) : Prop := {
  cmp_flip : forall a b, cmp a b < 0 <-> cmp b a > 0;
  cmp_trans : forall a b c, cmp a b <= 0 -> cmp b c <= 0 -> cmp a c <= 0
}.

Section Cmp.
Context `{!CmpLaws cmp}.

Lemma cmp_refl a : cmp a a <= 0.
Proof.
  destruct (decide (cmp a a <= 0)); [done|].
  pose proof (proj2 (cmp_flip a a)); lia.
Qed.

Lemma cmp_le_of_ge a b : cmp a b >= 0 -> cmp b a <= 0.
Proof.
  intros H; destruct (decide (cmp b a <= 0)) as [|Hn]; [done|].
  pose proof (proj2 (cmp_flip a b)); lia.
Qed.

Lemma cmp_lt_le a b c : cmp a b < 0 -> cmp b c <= 0 -> cmp a c < 0.
Proof.
  intros Hab Hbc; destruct (decide (cmp a c < 0)) as [|Hn]; [done|].
  assert (cmp c a <= 0) by (apply cmp_le_of_ge; lia).
  assert (cmp b a <= 0) by (eapply cmp_trans; eauto).
  apply cmp_flip in Hab; lia.
Qed.


Definition cmp_le (a b : Z) : Prop := cmp a b <= 0.

#[export] Instance cmp_le_total : Total cmp_le.
Proof.
  intros a b; unfold cmp_le; destruct (decide (cmp a b <= 0)); [by left|right].
  apply cmp_le_of_ge; lia.
Qed.

#[export] Instance cmp_le_trans : Transitive cmp_le.
Proof. intros a b c; apply cmp_trans. Qed.

#[export] Instance cmp_le_dec a b : Decision (cmp_le a b).
Proof. unfold cmp_le; apply _. Defined.
End Cmp.

(** Integers compared by subtraction. *)
#[export] Instance sub_cmp_laws : CmpLaws Z.sub.
Proof. split; intros; lia. Qed.
Arguments cmp_le cmp : clear implicits.
