(* ===== verification/Utils.v ===== *)
(** * Base utilities: the bit tricks of [base/utils.h], [base/utils.c] and
    [base/macro.h], the error codes of [base/err.h], and the capacity check
    of [dsaa/dsaa_utils.h].

    Values are unsigned words of an explicit width ([uint64_t] for
    [muggle_next_pow_of_2]); the lemmas relate each trick to the arithmetic
    it stands for. *)
From S2P Require Import Prelude.

(** The error codes that the modelled functions return. *)
Definition MUGGLE_OK : Z := 0.
Definition MUGGLE_ERR_UNKNOWN : Z := 1.
Definition MUGGLE_ERR_TODO : Z := 2.
Definition MUGGLE_ERR_MEM_ALLOC : Z := 3.
Definition MUGGLE_ERR_MEM_DUPLICATE_FREE : Z := 4.
Definition MUGGLE_ERR_NULL_PARAM : Z := 5.
Definition MUGGLE_ERR_INVALID_PARAM : Z := 6.
Definition MUGGLE_ERR_ACQ_LOCK : Z := 7.
Definition MUGGLE_ERR_SYS_CALL : Z := 8.
Definition MUGGLE_ERR_INTERRUPT : Z := 9.
Definition MUGGLE_ERR_BEYOND_RANGE : Z := 10.
Definition MUGGLE_ERR_FULL : Z := 11.
Definition MUGGLE_ERR_CRYPT_KEY_SIZE : Z := 13.

(** [#define MUGGLE_IS_POW_OF_2(x) (!((x)&((x)-1)))] at [uint64_t]. *)
Definition MUGGLE_IS_POW_OF_2 (x : Z) : bool :=
  Z.land x (u64 (x - 1)) =? 0.

(** [muggle_next_pow_of_2]. *)
Definition muggle_next_pow_of_2 (x : Z) : Z :=
  if MUGGLE_IS_POW_OF_2 x then x
  else
    let x := Z.lor x (Z.shiftr x 1) in
    let x := Z.lor x (Z.shiftr x 2) in
    let x := Z.lor x (Z.shiftr x 4) in
    let x := Z.lor x (Z.shiftr x 8) in
    let x := Z.lor x (Z.shiftr x 16) in
    u64 (x + 1).

(** [MUGGLE_ROUND_UP_POW_OF_2_MUL(x,n)] at an unsigned type of width [w]. *)
Definition MUGGLE_ROUND_UP_POW_OF_2_MUL (w x n : Z) : Z :=
  Z.land (wrap w (x + n - 1)) (wrap w (Z.lnot (wrap w (n - 1)))).

(** [MUGGLE_IDX_IN_POW_OF_2_RING(idx, capacity)] for unsigned operands. *)
Definition MUGGLE_IDX_IN_POW_OF_2_RING (idx capacity : Z) : Z :=
  Z.land idx (capacity - 1).

Definition MUGGLE_CACHE_LINE_SIZE : Z := 64.
Definition MUGGLE_CACHE_LINE_X2_SIZE : Z := 128.

(** [MUGGLE_ALIGN_TRUE_SHARING(n)] at [uint32_t]. *)
Definition MUGGLE_ALIGN_TRUE_SHARING (n : Z) : Z :=
  u32 (MUGGLE_ROUND_UP_POW_OF_2_MUL 32 n MUGGLE_CACHE_LINE_SIZE + MUGGLE_CACHE_LINE_X2_SIZE).

(** [MUGGLE_DS_CAP_IS_VALID(capacity)]. *)
Definition MUGGLE_DS_CAP_IS_VALID (capacity : Z) : bool :=
  negb (Z.shiftl 1 31 <=? u64 capacity).

(** ** Powers of two *)

Lemma ones_pow2 k : 2 ^ k - 1 = Z.ones k.
Proof. rewrite Z.ones_equiv; lia. Qed.

Lemma land_pow2_pred x k : 0 <= k -> Z.land x (2 ^ k - 1) = x mod 2 ^ k.
Proof. intros; by rewrite ones_pow2, Z.land_ones. Qed.

Lemma pow2_log2_bounds x : 0 < x -> 2 ^ Z.log2 x <= x < 2 ^ (Z.log2 x + 1).
Proof. intros; rewrite Z.add_1_r; by apply Z.log2_spec. Qed.

Lemma testbit_top k x : 0 <= k -> 2 ^ k <= x < 2 ^ (k + 1) -> Z.testbit x k = true.
Proof.
  intros Hk Hx.
  assert (Z.log2 x = k) as <- by (apply Z.log2_unique; rewrite ?Z.add_1_r in *; lia).
  apply Z.bit_log2; lia.
Qed.

(** The test [x & (x-1) == 0] holds of zero and the powers of two only. *)
Lemma MUGGLE_IS_POW_OF_2_spec x :
  in_width 64 x ->
  MUGGLE_IS_POW_OF_2 x = true <-> x = 0 \/ exists k, 0 <= k < 64 /\ x = 2 ^ k.
Proof.
  intros [Hx0 Hx]; unfold MUGGLE_IS_POW_OF_2; rewrite Z.eqb_eq.
  destruct (decide (x = 0)) as [->|Hne]; [by intuition|].
  rewrite wrap_small by (split; lia).
  split.
  - intros Hland; right; exists (Z.log2 x).
    pose proof (pow2_log2_bounds x ltac:(lia)) as [Hlo Hhi].
    assert (Hk : 0 <= Z.log2 x < 64).
    { split; [apply Z.log2_nonneg|]; apply Z.log2_lt_pow2; lia. }
    split; [done|].
    destruct (decide (x = 2 ^ Z.log2 x)) as [|Hn]; [done|exfalso].
    assert (Hb : Z.testbit (Z.land x (x - 1)) (Z.log2 x) = true).
    { rewrite Z.land_spec, !testbit_top; [done|lia..]. }
    rewrite Hland, Z.testbit_0_l in Hb; done.
  - intros [->|(k & Hk & ->)]; [done|].
    rewrite land_pow2_pred by lia; apply Z_mod_same_full.
Qed.

(** ** The smearing sequence of [muggle_next_pow_of_2]

    [smeared k m x]: [x] has its top bit at [k] and the [m] bits from there
    down are set. *)
Definition smeared (k m x : Z) : Prop :=
  0 <= x < 2 ^ (k + 1) /\
  forall i, 0 <= i -> k - m < i <= k -> Z.testbit x i = true.

Lemma bits_above x k i : 0 <= k -> 0 <= x < 2 ^ k -> k <= i -> Z.testbit x i = false.
Proof.
  intros Hk Hx Hi; rewrite <- (Z.mod_small x (2 ^ k)) by lia.
  apply Z.mod_pow2_bits_high; lia.
Qed.

Lemma lt_pow2_of_bits x k :
  0 <= x -> 0 <= k -> (forall i, k <= i -> Z.testbit x i = false) -> x < 2 ^ k.
Proof.
  intros Hx Hk Hb; destruct (decide (x = 0)) as [->|]; [lia|].
  apply Z.log2_lt_pow2; [lia|].
  destruct (decide (k <= Z.log2 x)) as [Hle|]; [|lia].
  pose proof (Z.bit_log2 x ltac:(lia)) as Ht; rewrite Hb in Ht by done; done.
Qed.

Lemma smear_step k m m' x :
  0 <= k -> 0 < m -> m' = 2 * m -> smeared k m x ->
  smeared k m' (Z.lor x (Z.shiftr x m)).
Proof.
  intros Hk Hm -> [Hx Hbits]; split.
  - split; [apply Z.lor_nonneg; rewrite Z.shiftr_nonneg; lia|].
    apply lt_pow2_of_bits; [apply Z.lor_nonneg; rewrite Z.shiftr_nonneg; lia|lia|].
    intros i Hi; rewrite Z.lor_spec, Z.shiftr_spec by lia.
    by rewrite !(bits_above x (k + 1)) by lia.
  - intros i Hi0 Hi; rewrite Z.lor_spec, Z.shiftr_spec by lia.
    destruct (decide (k - m < i)) as [|]; [by rewrite Hbits by lia|].
    rewrite (Hbits (i + m)) by lia; apply orb_true_r.
Qed.

Lemma smeared_full k m x : 0 <= k < m -> smeared k m x -> x = 2 ^ (k + 1) - 1.
Proof.
  intros Hk [Hx Hbits]; rewrite ones_pow2; apply Z.bits_inj'; intros i Hi.
  destruct (decide (i <= k)) as [|].
  - rewrite Hbits, Z.ones_spec_low by lia; done.
  - rewrite (bits_above x (k + 1)), Z.ones_spec_high by lia; done.
Qed.

(** The round-up on the range the five shifts cover. *)
Lemma next_pow_of_2_non_pow x :
  0 < x < 2 ^ 32 -> MUGGLE_IS_POW_OF_2 x = false ->
  muggle_next_pow_of_2 x = 2 ^ (Z.log2 x + 1).
Proof.
  intros Hx Hnp; unfold muggle_next_pow_of_2; rewrite Hnp; cbv zeta.
  set (k := Z.log2 x).
  assert (Hk : 0 <= k < 32).
  { split; [apply Z.log2_nonneg|]; apply Z.log2_lt_pow2; lia. }
  assert (H1 : smeared k 1 x).
  { pose proof (pow2_log2_bounds x ltac:(lia)); fold k in H.
    split; [lia|]; intros i Hi0 Hi; assert (i = k) as -> by lia.
    by apply testbit_top. }
  apply (smear_step k 1 2), (smear_step k 2 4), (smear_step k 4 8),
    (smear_step k 8 16), (smear_step k 16 32) in H1; [|lia..].
  apply smeared_full in H1; [|lia]; rewrite H1.
  rewrite wrap_small; [lia|].
  assert (2 ^ (k + 1) <= 2 ^ 32) by (apply Z.pow_le_mono_r; lia).
  split; lia.
Qed.

Lemma next_pow_of_2_pow k : 0 <= k < 64 -> muggle_next_pow_of_2 (2 ^ k) = 2 ^ k.
Proof.
  intros Hk; unfold muggle_next_pow_of_2.
  assert (Hw : 2 ^ k < 2 ^ 64) by (apply Z.pow_lt_mono_r; lia).
  destruct (MUGGLE_IS_POW_OF_2 (2 ^ k)) eqn:E; [done|].
  rewrite (proj2 (MUGGLE_IS_POW_OF_2_spec (2 ^ k) ltac:(split; lia))) in E; [done|].
  right; eauto.
Qed.

(** ** Rounding up to a multiple of a power of two *)

Lemma land_lnot_ones x k : 0 <= k -> Z.land x (Z.lnot (Z.ones k)) = x - x mod 2 ^ k.
Proof.
  intros Hk; rewrite <- Z.ldiff_land, Z.ldiff_ones_r by lia.
  rewrite Z.shiftl_mul_pow2, Z.shiftr_div_pow2 by lia.
  pose proof (Z.div_mod x (2 ^ k)); lia.
Qed.

Lemma land_wrap_r w x y : 0 <= w -> in_width w x -> Z.land x (wrap w y) = Z.land x y.
Proof.
  intros Hw Hx; unfold wrap; rewrite <- Z.land_ones by lia.
  rewrite (Z.land_comm y), Z.land_assoc, Z.land_ones by lia.
  f_equal; by apply Z.mod_small.
Qed.

Lemma round_up_spec w x k :
  0 <= k -> 0 <= x -> x + 2 ^ k - 1 < 2 ^ w -> 0 <= w ->
  MUGGLE_ROUND_UP_POW_OF_2_MUL w x (2 ^ k) = (x + 2 ^ k - 1) / 2 ^ k * 2 ^ k.
Proof.
  intros Hk Hx Hlt Hw; unfold MUGGLE_ROUND_UP_POW_OF_2_MUL.
  rewrite (wrap_small w (x + 2 ^ k - 1)) by (split; lia).
  rewrite (wrap_small w (2 ^ k - 1)) by (split; lia).
  rewrite land_wrap_r by (try split; lia).
  rewrite ones_pow2, land_lnot_ones by lia.
  pose proof (Z.div_mod (x + 2 ^ k - 1) (2 ^ k)); lia.
Qed.

(** The divisibility test of the block cipher modes:
    [ROUND_UP(x, n) == x] exactly when [n] divides [x]. *)
Lemma round_up_fix w x k :
  0 <= k -> 0 <= x -> x + 2 ^ k - 1 < 2 ^ w -> 0 <= w ->
  MUGGLE_ROUND_UP_POW_OF_2_MUL w x (2 ^ k) = x <-> (2 ^ k | x).
Proof.
  intros Hk Hx Hlt Hw; rewrite round_up_spec by done.
  assert (0 < 2 ^ k) by lia; split.
  - intros <-; by exists ((x + 2 ^ k - 1) / 2 ^ k).
  - intros [q ->]; f_equal.
    symmetry; apply (Z.div_unique_pos _ _ _ (2 ^ k - 1)); lia.
Qed.

Lemma align_true_sharing_spec n : 0 <= n < 2 ^ 32 - 192 -> n + 128 <= MUGGLE_ALIGN_TRUE_SHARING n < 2 ^ 32.
Proof.
  intros Hn; unfold MUGGLE_ALIGN_TRUE_SHARING, MUGGLE_CACHE_LINE_SIZE, MUGGLE_CACHE_LINE_X2_SIZE.
  change 64 with (2 ^ 6); rewrite round_up_spec by lia; change (2 ^ 6) with 64.
  pose proof (Z.div_mod (n + 64 - 1) 64 ltac:(lia)); pose proof (Z.mod_pos_bound (n + 64 - 1) 64 ltac:(lia)).
  rewrite wrap_small by (unfold in_width; lia); lia.
Qed.

Lemma ring_idx_mod idx k :
  0 <= k -> MUGGLE_IDX_IN_POW_OF_2_RING idx (2 ^ k) = idx mod 2 ^ k.
Proof. intros; by apply land_pow2_pred. Qed.

Lemma ds_cap_valid_spec c :
  in_width 64 c -> MUGGLE_DS_CAP_IS_VALID c = true <-> c < 2 ^ 31.
Proof.
  intros Hc; unfold MUGGLE_DS_CAP_IS_VALID; rewrite wrap_small by done.
  change (Z.shiftl 1 31) with (2 ^ 31).
  rewrite negb_true_iff, Z.leb_gt; done.
Qed.

Lemma next_pow_of_2_exp x : 1 <= x <= 2 ^ 32 ->
  exists k, 0 <= k <= 32 /\ muggle_next_pow_of_2 x = 2 ^ k /\ x <= 2 ^ k /\
    forall j, 0 <= j -> x <= 2 ^ j -> k <= j.
Proof.
  intros Hx; destruct (MUGGLE_IS_POW_OF_2 x) eqn:E.
  - assert (Hw : in_width 64 x) by (split; lia).
    apply MUGGLE_IS_POW_OF_2_spec in E as [->|(k & Hk & ->)]; [lia| |done].
    exists k; rewrite next_pow_of_2_pow by done.
    assert (k <= 32) by (apply (Z.pow_le_mono_r_iff 2); lia).
    repeat split; try lia; intros j Hj Hle; apply (Z.pow_le_mono_r_iff 2); lia.
  - assert (x <> 2 ^ 32) by (intros ->; vm_compute in E; done).
    exists (Z.log2 x + 1); rewrite next_pow_of_2_non_pow by (try lia; done).
    pose proof (pow2_log2_bounds x ltac:(lia)).
    assert (0 <= Z.log2 x < 32).
    { split; [apply Z.log2_nonneg|]; apply Z.log2_lt_pow2; lia. }
    repeat split; try lia; intros j Hj Hle.
    assert (x <> 2 ^ j).
    { intros ->. rewrite (proj2 (MUGGLE_IS_POW_OF_2_spec (2 ^ j) ltac:(split; lia))) in E; [done|].
      right; exists j; split; [|done]; split; [done|].
      apply (Z.pow_lt_mono_r_iff 2); lia. }
    enough (Z.log2 x < j) by lia; apply (Z.pow_lt_mono_r_iff 2); lia.
Qed.

(** ** Properties *)

(** C40: [muggle_next_pow_of_2] returns the least power of two that is not
    below its argument, for every argument from 1 to 2^32. *)
Theorem next_pow_of_2_least (x : Z) (Hx : 1 <= x <= 2 ^ 32) :
  exists k, 0 <= k <= 32 /\ muggle_next_pow_of_2 x = 2 ^ k /\ x <= 2 ^ k /\
    forall j, 0 <= j -> x <= 2 ^ j -> k <= j.
Proof. by apply next_pow_of_2_exp. Qed.

Lemma next_pow_of_2_least_witness :
  exists k, 0 <= k <= 32 /\ muggle_next_pow_of_2 1000 = 2 ^ k /\ 1000 <= 2 ^ k /\
    forall j, 0 <= j -> 1000 <= 2 ^ j -> k <= j.
Proof. apply (next_pow_of_2_least 1000); lia. Defined.
