(* ===== verification/Str.v ===== *)
(** * Strings: [base/str.c]

    A string is the list of its characters, without the terminating zero,
    which [str\[i\]] reads at the end; reading elsewhere has no meaning.  The
    functions of the C library that the code calls ([strlen], [strstr],
    [isspace], [strtol] and [strtoul]) are modelled first.  A null pointer is
    [None].  The parsers of floating point numbers are not modelled. *)
From S2P Require Import Prelude.

Abbreviation text := (list Z).

(** ** The C library *)

Definition isspace (c : Z) : bool := (c =? 32) || ((9 <=? c) && (c <=? 13)).

Definition strlen (s : text) : Z := Z.of_nat (length s).

(** [str\[i\]]. *)
Definition char_at (s : text) (i : Z) : option Z := rd (s ++ [0]) i.

(** The offset of the first occurrence; [None] is a null pointer. *)
Fixpoint strstr (s sub : text) : option nat :=
  if decide (sub `prefix_of` s) then Some 0%nat
  else match s with [] => None | _ :: s => S <$> strstr s sub end.

(** The longest prefix of characters with [p], and the rest. *)
Fixpoint span (p : Z -> bool) (s : text) : text * text :=
  match s with
  | c :: s' => if p c then let '(a, b) := span p s' in (c :: a, b) else ([], s)
  | [] => ([], [])
  end.

Definition digit_value (c : Z) : Z :=
  if (48 <=? c) && (c <=? 57) then c - 48
  else if (97 <=? c) && (c <=? 122) then c - 97 + 10
  else if (65 <=? c) && (c <=? 90) then c - 65 + 10
  else 36.

Definition is_digit (base c : Z) : bool := digit_value c <? base.

Definition digits_value (base : Z) (ds : text) : Z := fold_left (fun v c => v * base + digit_value c) ds 0.

(** The sign, and the rest. *)
Definition strto_sign (s : text) : bool * text :=
  match s with 45 :: s' => (true, s') | 43 :: s' => (false, s') | _ => (false, s) end.

(** The base, and the text without a hexadecimal prefix. *)
Definition strto_base (base : Z) (s : text) : Z * text :=
  match s with
  | 48 :: x :: h :: s' =>
      if ((base =? 0) || (base =? 16)) && ((x =? 120) || (x =? 88)) && is_digit 16 h then (16, h :: s')
      else (if base =? 0 then 8 else base, s)
  | 48 :: _ => (if base =? 0 then 8 else base, s)
  | _ => (if base =? 0 then 10 else base, s)
  end.

(** White space, a sign and digits: sign, magnitude and what follows.  [None]
    is no number at all, when [endptr] is the start of the text. *)
Definition strto_parse (s : text) (base : Z) : option (bool * Z * text) :=
  let '(neg, s) := strto_sign (span isspace s).2 in
  let '(base, s) := strto_base base s in
  let '(ds, rest) := span (is_digit base) s in
  if decide (ds = []) then None else Some (neg, digits_value base ds, rest).

Definition LONG_MAX : Z := 2 ^ 63 - 1.
Definition LONG_MIN : Z := - 2 ^ 63.
Definition ULONG_MAX : Z := 2 ^ 64 - 1.
Definition INT_MAX : Z := 2 ^ 31 - 1.
Definition INT_MIN : Z := - 2 ^ 31.

Definition valid_base (base : Z) : bool := (base =? 0) || ((2 <=? base) && (base <=? 36)).

(** The value, whether [errno] is [ERANGE], and [endptr].  Another base leaves
    [endptr] as it was: [None]. *)
Definition strtol (s : text) (base : Z) : option (Z * bool * option text) :=
  if negb (valid_base base) then None
  else match strto_parse s base with
  | None => Some (0, false, None)
  | Some (neg, m, rest) =>
      let v := if neg then - m else m in
      if v >? LONG_MAX then Some (LONG_MAX, true, Some rest)
      else if v <? LONG_MIN then Some (LONG_MIN, true, Some rest)
      else Some (v, false, Some rest)
  end.

Definition strtoul (s : text) (base : Z) : option (Z * bool * option text) :=
  if negb (valid_base base) then None
  else match strto_parse s base with
  | None => Some (0, false, None)
  | Some (neg, m, rest) =>
      if m >? ULONG_MAX then Some (ULONG_MAX, true, Some rest)
      else Some (u64 (if neg then - m else m), false, Some rest)
  end.

(** ** Comparison *)

(** The loops return early on the first difference. *)
Fixpoint same_chars (n : nat) (i : Z) (f g : Z -> option Z) : option bool :=
  match n with
  | O => Some true
  | S n => a ← f i; b ← g i; if a =? b then same_chars n (i + 1) f g else Some false
  end.

Definition muggle_str_startswith (str prefix : option text) : option bool :=
  match str, prefix with
  | Some s, Some p =>
      let str_len := strlen s in let prefix_len := strlen p in
      if str_len <? prefix_len then Some false
      else
        same ← same_chars (Z.to_nat prefix_len) 0 (char_at s) (char_at p);
        if negb same then Some false
        else if negb (str_len =? 0) && (prefix_len =? 0) then Some false
        else Some true
  | _, _ => Some false
  end.

Definition muggle_str_endswith (str suffix : option text) : option bool :=
  match str, suffix with
  | Some s, Some p =>
      let str_len := strlen s in let suffix_len := strlen p in
      if str_len <? suffix_len then Some false
      else
        same ← same_chars (Z.to_nat suffix_len) 0
          (fun i => char_at s (str_len - 1 - i)) (fun i => char_at p (suffix_len - 1 - i));
        if negb same then Some false
        else if negb (str_len =? 0) && (suffix_len =? 0) then Some false
        else Some true
  | _, _ => Some false
  end.

(** ** Search *)

(** The range that [start] and [end] give, or no range. *)
Definition search_range (s : text) (start stop : Z) : option Z :=
  let str_len := swrap 32 (strlen s) in
  if (start <? 0) || (stop <? 0) then None
  else if start >=? str_len then None
  else
    let stop := if stop =? 0 then str_len else stop in
    let stop := if stop >? str_len then str_len else stop in
    if stop <=? start then None else Some stop.

(** [pos] and [end_pos] are offsets into the string. *)
Fixpoint count_loop (fuel : nat) (s sub : text) (pos end_pos cnt : Z) : option Z :=
  match fuel with
  | O => None
  | S fuel =>
      match strstr (drop (Z.to_nat pos) s) sub with
      | Some k =>
          let pos := pos + Z.of_nat k in
          if pos + strlen sub >? end_pos then Some cnt
          else
            let cnt := cnt + 1 in
            let pos := pos + strlen sub in
            if pos >=? end_pos then Some cnt else count_loop fuel s sub pos end_pos cnt
      | None => Some cnt
      end
  end.

(** A turn of the loop takes at least one character of the string. *)
Definition muggle_str_count (str sub : option text) (start stop : Z) : option Z :=
  match str, sub with
  | Some s, Some sub =>
      match search_range s start stop with
      | None => Some 0
      | Some stop => count_loop (length s) s sub start stop 0
      end
  | _, _ => Some 0
  end.

Definition muggle_str_find (str sub : option text) (start stop : Z) : Z :=
  match str, sub with
  | Some s, Some sub =>
      match search_range s start stop with
      | None => -1
      | Some stop =>
          match strstr (drop (Z.to_nat start) s) sub with
          | None => -1
          | Some k =>
              let pos := start + Z.of_nat k in
              if pos + strlen sub >? stop then -1 else swrap 32 pos
          end
      end
  | _, _ => -1
  end.

(** ** Stripping *)

Fixpoint lstrip_loop (fuel : nat) (s : text) (str_len idx : Z) : option Z :=
  match fuel with
  | O => None
  | S fuel =>
      c ← char_at s idx;
      if isspace c then
        let idx := idx + 1 in
        if idx >=? str_len then Some (-1) else lstrip_loop fuel s str_len idx
      else Some idx
  end.

Definition muggle_str_lstrip_idx (str : option text) : option Z :=
  match str with
  | None => Some (-1)
  | Some s => lstrip_loop (S (length s)) s (swrap 32 (strlen s)) 0
  end.

Fixpoint rstrip_loop (fuel : nat) (s : text) (idx : Z) : option Z :=
  match fuel with
  | O => None
  | S fuel =>
      c ← char_at s idx;
      if isspace c then
        let idx := idx - 1 in
        if idx <? 0 then Some (-1) else rstrip_loop fuel s idx
      else Some idx
  end.

Definition muggle_str_rstrip_idx (str : option text) : option Z :=
  match str with
  | None => Some (-1)
  | Some s => rstrip_loop (S (length s)) s (swrap 32 (strlen s) - 1)
  end.

(** ** Numbers

    [pval] tells whether the pointer to the result is not null; the second
    part of a result is what is stored there, if anything. *)

(** [( *endptr == '\0' || muggle_str_lstrip_idx(endptr) == -1)]. *)
Definition only_space (rest : text) : option bool :=
  if decide (rest = []) then Some true
  else i ← muggle_str_lstrip_idx (Some rest); Some (i =? -1).

Definition muggle_str_toi (str : option text) (pval : bool) (base : Z) : option (bool * option Z) :=
  match str with
  | Some s =>
      if negb pval then Some (false, None)
      else
        '(ret, erange, endptr) ← strtol s base;
        match endptr with
        | None => Some (false, None)
        | Some rest =>
            if decide (rest = []) then
              if ((ret =? LONG_MAX) || (ret =? LONG_MIN)) && erange then Some (false, None)
              else if (ret >? INT_MAX) || (ret <? INT_MIN) then Some (false, None)
              else Some (true, Some (swrap 32 ret))
            else
              ok ← only_space rest;
              if negb ok then Some (false, None) else Some (true, Some (swrap 32 ret))
        end
  | None => Some (false, None)
  end.

Definition muggle_str_tou (str : option text) (pval : bool) (base : Z) : option (bool * option Z) :=
  match str with
  | Some s =>
      if negb pval then Some (false, None)
      else
        '(ret, _, endptr) ← strtoul s base;
        match endptr with
        | None => Some (false, None)
        | Some rest =>
            ok ← only_space rest;
            if negb ok then Some (false, None)
            else if ret =? ULONG_MAX then Some (false, None)
            else Some (true, Some (u32 ret))
        end
  | None => Some (false, None)
  end.

(** [muggle_str_tol] and [muggle_str_toll]: [long] and [long long] have 64 bits. *)
Definition muggle_str_tol (str : option text) (pval : bool) (base : Z) : option (bool * option Z) :=
  match str with
  | Some s =>
      if negb pval then Some (false, None)
      else
        '(v, _, endptr) ← strtol s base;
        match endptr with
        | None => Some (false, Some v)
        | Some rest =>
            ok ← only_space rest;
            if negb ok then Some (false, Some v)
            else if (v =? LONG_MAX) || (v =? LONG_MIN) then Some (false, Some v)
            else Some (true, Some v)
        end
  | None => Some (false, None)
  end.

Definition muggle_str_toll (str : option text) (pval : bool) (base : Z) : option (bool * option Z) :=
  muggle_str_tol str pval base.

Definition muggle_str_toul (str : option text) (pval : bool) (base : Z) : option (bool * option Z) :=
  match str with
  | Some s =>
      if negb pval then Some (false, None)
      else
        '(v, _, endptr) ← strtoul s base;
        match endptr with
        | None => Some (false, Some v)
        | Some rest =>
            ok ← only_space rest;
            if negb ok then Some (false, Some v)
            else if v =? ULONG_MAX then Some (false, Some v)
            else Some (true, Some v)
        end
  | None => Some (false, None)
  end.

Definition muggle_str_toull (str : option text) (pval : bool) (base : Z) : option (bool * option Z) :=
  muggle_str_toul str pval base.

(** ** Comparison: prefixes and suffixes *)

Lemma same_chars_spec n i f g :
  (forall j, i <= j < i + Z.of_nat n -> is_Some (f j) /\ is_Some (g j)) ->
  exists b, same_chars n i f g = Some b /\ (b = true <-> forall j, i <= j < i + Z.of_nat n -> f j = g j).
Proof.
  revert i; induction n as [|n IH]; intros i Hd; cbn [same_chars].
  { exists true; split; [done|]; split; [lia|done]. }
  destruct (Hd i) as [[a Ha] [b Hb]]; [lia|]; rewrite Ha, Hb; cbn [mbind option_bind].
  destruct (Z.eqb_spec a b) as [->|Hne].
  - destruct (IH (i + 1)) as (r & -> & Hr); [intros j Hj; apply Hd; lia|].
    exists r; split; [done|]; rewrite Hr; split; intros H j Hj; [|apply H; lia].
    destruct (decide (j = i)) as [->|]; [congruence|apply H; lia].
  - exists false; split; [done|]; split; [done|]; intros H; specialize (H i ltac:(lia)); congruence.
Qed.

Lemma char_at_lookup s i : 0 <= i < strlen s -> char_at s i = s !! Z.to_nat i /\ is_Some (char_at s i).
Proof.
  unfold strlen; intros Hi; unfold char_at; rewrite <- (Z2Nat.id i), rd_nat, Nat2Z.id by lia.
  rewrite lookup_app_l by lia; split; [done|]; apply lookup_lt_is_Some_2; lia.
Qed.

Lemma char_at_eq s i : 0 <= i < strlen s -> char_at s i = s !! Z.to_nat i.
Proof. apply char_at_lookup. Qed.

Lemma prefix_take (p s : text) : p `prefix_of` s <-> take (length p) s = p.
Proof.
  split; [intros [k ->]; by rewrite take_app_length|intros H; exists (drop (length p) s); by rewrite <- H at 1; rewrite take_drop].
Qed.

Lemma prefix_lookup (p s : text) : (length p <= length s)%nat ->
  (p `prefix_of` s <-> forall j, (j < length p)%nat -> s !! j = p !! j).
Proof.
  intros Hl; rewrite prefix_take; split.
  - intros E j Hj; transitivity (take (length p) s !! j); [by rewrite lookup_take_lt|by rewrite E].
  - intros H; apply list_eq; intros j; destruct (decide (j < length p)%nat) as [Hj|Hj].
    + rewrite lookup_take_lt by done; by apply H.
    + rewrite lookup_take_ge, (lookup_ge_None_2 p) by lia; done.
Qed.

Lemma suffix_lookup (p s : text) : (length p <= length s)%nat ->
  (p `suffix_of` s <-> forall j, (j < length p)%nat -> s !! (length s - 1 - j)%nat = p !! (length p - 1 - j)%nat).
Proof.
  intros Hl; rewrite suffix_prefix_reverse, prefix_lookup by (rewrite !length_reverse; lia).
  rewrite length_reverse; split; intros H j Hj; specialize (H j Hj).
  - rewrite !reverse_lookup in H by lia; by replace (length s - 1 - j)%nat with (length s - S j)%nat by lia;
      replace (length p - 1 - j)%nat with (length p - S j)%nat by lia.
  - rewrite !reverse_lookup by lia; replace (length s - S j)%nat with (length s - 1 - j)%nat by lia;
      by replace (length p - S j)%nat with (length p - 1 - j)%nat by lia.
Qed.

(** [startswith] and [endswith] decide prefix and suffix; the empty string
    is one of the empty string only. *)
Lemma str_affix_correct (s p : text) :
  exists a b, muggle_str_startswith (Some s) (Some p) = Some a /\ muggle_str_endswith (Some s) (Some p) = Some b /\
    (a = true <-> p `prefix_of` s /\ (p = [] -> s = [])) /\ (b = true <-> p `suffix_of` s /\ (p = [] -> s = [])).
Proof.
  assert (forall (c : bool), (if negb c then Some false else if negb (strlen s =? 0) && (strlen p =? 0) then Some false else Some true)
    = Some (c && negb (negb (strlen s =? 0) && (strlen p =? 0)))) as Hif.
  { intros c; by destruct c, (strlen s =? 0), (strlen p =? 0). }
  assert (negb (negb (strlen s =? 0) && (strlen p =? 0)) = true <-> (p = [] -> s = [])) as He.
  { unfold strlen; destruct s, p; simpl; split; intros; try done; by specialize (H eq_refl). }
  unfold muggle_str_startswith, muggle_str_endswith; destruct (Z.ltb_spec (strlen s) (strlen p)) as [Hlt|Hge]; unfold strlen in Hlt || unfold strlen in Hge.
  { exists false, false; split; [done|]; split; [done|]; split; (split; [done|]).
    - intros [H%prefix_length _]; lia.
    - intros [H%suffix_length _]; lia. }
  destruct (same_chars_spec (Z.to_nat (strlen p)) 0 (char_at s) (char_at p)) as (a & -> & Ha).
  { intros j Hj; unfold strlen in Hj; split; apply char_at_lookup; unfold strlen; lia. }
  destruct (same_chars_spec (Z.to_nat (strlen p)) 0 (fun i => char_at s (strlen s - 1 - i)) (fun i => char_at p (strlen p - 1 - i)))
    as (b & -> & Hb).
  { intros j Hj; unfold strlen in Hj; split; apply char_at_lookup; unfold strlen; lia. }
  cbn [mbind option_bind]; rewrite !Hif; do 2 eexists; split; [done|]; split; [done|]; unfold strlen in Ha, Hb.
  split; rewrite andb_true_iff, He; apply and_iff_compat_r.
  - rewrite Ha, prefix_lookup by lia; split; intros H j Hj.
    + specialize (H (Z.of_nat j) ltac:(lia)); rewrite !char_at_eq, Nat2Z.id in H by (unfold strlen; lia); done.
    + rewrite !char_at_eq by (unfold strlen; lia); apply H; lia.
  - rewrite Hb, suffix_lookup by lia; split; intros H j Hj.
    + specialize (H (Z.of_nat j) ltac:(lia)); rewrite !char_at_eq in H by (unfold strlen; lia); unfold strlen in H.
      replace (length s - 1 - j)%nat with (Z.to_nat (Z.of_nat (length s) - 1 - Z.of_nat j)) by lia.
      by replace (length p - 1 - j)%nat with (Z.to_nat (Z.of_nat (length p) - 1 - Z.of_nat j)) by lia.
    + rewrite !char_at_eq by (unfold strlen; lia); unfold strlen.
      replace (Z.to_nat (Z.of_nat (length s) - 1 - j)) with (length s - 1 - Z.to_nat j)%nat by lia.
      replace (Z.to_nat (Z.of_nat (length p) - 1 - j)) with (length p - 1 - Z.to_nat j)%nat by lia; apply H; lia.
Qed.

(** ** Search *)

(** [strstr] gives the first offset at which the text occurs. *)
Definition first_at (s sub : text) (k : nat) : Prop :=
  sub `prefix_of` drop k s /\ forall j, (j < k)%nat -> ~ sub `prefix_of` drop j s.

Lemma strstr_Some s sub k : strstr s sub = Some k -> first_at s sub k.
Proof.
  revert k; induction s as [|c s IH]; intros k; cbn [strstr]; case_decide as Hp; try done.
  - intros [= <-]; split; [done|lia].
  - intros [= <-]; split; [done|lia].
  - destruct (strstr s sub) as [k'|]; [|done]; intros [= <-]; destruct (IH k' eq_refl) as [H1 H2].
    split; [done|]; intros [|j] Hj; [done|]; apply (H2 j); lia.
Qed.

Lemma strstr_None s sub j : strstr s sub = None -> ~ sub `prefix_of` drop j s.
Proof.
  revert j; induction s as [|c s IH]; intros j; cbn [strstr]; case_decide as Hp; try done.
  - intros _; by rewrite drop_nil.
  - destruct (strstr s sub); [done|]; intros _; destruct j as [|j]; [done|]; by apply IH.
Qed.

Lemma strstr_first s sub k : first_at s sub k -> strstr s sub = Some k.
Proof.
  intros [H1 H2]; destruct (strstr s sub) as [k'|] eqn:E; [|by destruct (strstr_None s sub k E)].
  apply strstr_Some in E as [G1 G2]; destruct (lt_eq_lt_dec k' k) as [[Hlt| ->]|Hlt]; [|done|].
  - by destruct (H2 k' Hlt).
  - by destruct (G2 k Hlt).
Qed.

Lemma first_at_length s sub k : first_at s sub k -> (0 < length sub)%nat -> (k + length sub <= length s)%nat.
Proof. intros [H _] Hl; apply prefix_length in H; rewrite length_drop in H; lia. Qed.

Lemma prefix_of_take (sub s : text) n : sub `prefix_of` take n s <-> sub `prefix_of` s /\ (length sub <= n)%nat.
Proof.
  split.
  - intros H; split; [|apply prefix_length in H; rewrite length_take in H; lia].
    etrans; [exact H|]; exists (drop n s); by rewrite take_drop.
  - intros [[k ->] Hl]; rewrite take_app_ge by done; by eexists.
Qed.

(** Searching in the first [n] characters. *)
Lemma strstr_take s sub n : (0 < length sub)%nat ->
  strstr (take n s) sub = match strstr s sub with
                          | Some k => if decide (k + length sub <= n)%nat then Some k else None
                          | None => None
                          end.
Proof.
  intros Hl.
  assert (forall j, sub `prefix_of` drop j (take n s) <-> sub `prefix_of` drop j s /\ (j + length sub <= n)%nat) as Hd.
  { intros j; rewrite skipn_firstn_comm, prefix_of_take.
    split; intros [H1 H2]; (split; [done|lia]). }
  assert ((forall j, ~ sub `prefix_of` drop j (take n s)) -> strstr (take n s) sub = None) as Hnone.
  { intros H; destruct (strstr (take n s) sub) as [k|] eqn:E; [|done]; apply strstr_Some in E as [E _]; by destruct (H k). }
  destruct (strstr s sub) as [k|] eqn:E; [apply strstr_Some in E as [H1 H2]; case_decide as Hk|].
  - apply strstr_first; split; [by apply Hd|]; intros j Hj [Hp _]%Hd; by apply (H2 j).
  - apply Hnone; intros j [Hp Hj]%Hd; apply (H2 j); [lia|done].
  - apply Hnone; intros j [Hp _]%Hd; by apply (strstr_None s sub j E).
Qed.

(** The number of occurrences that do not overlap, taken from the left. *)
Inductive occurrences (sub : text) : text -> Z -> Prop :=
  | occ_none t : strstr t sub = None -> occurrences sub t 0
  | occ_some t k n : strstr t sub = Some k -> occurrences sub (drop (k + length sub) t) n -> occurrences sub t (n + 1).

Lemma count_loop_ok fuel s sub pos stop cnt :
  (0 < length sub)%nat -> 0 <= pos < stop -> stop <= strlen s -> stop - pos <= Z.of_nat fuel ->
  exists n, count_loop fuel s sub pos stop cnt = Some (cnt + n) /\
    occurrences sub (take (Z.to_nat (stop - pos)) (drop (Z.to_nat pos) s)) n.
Proof.
  intros Hl; revert pos cnt; induction fuel as [|fuel IH]; intros pos cnt Hp Hs Hf; [lia|]; cbn [count_loop].
  pose proof (strstr_take (drop (Z.to_nat pos) s) sub (Z.to_nat (stop - pos)) Hl) as Ht.
  destruct (strstr (drop (Z.to_nat pos) s) sub) as [k|] eqn:E.
  2:{ exists 0; split; [f_equal; lia|by constructor]. }
  unfold strlen; destruct (Z.gtb_spec (pos + Z.of_nat k + Z.of_nat (length sub)) stop) as [Hgt|Hle].
  { rewrite decide_False in Ht by lia; exists 0; split; [f_equal; lia|by constructor]. }
  rewrite decide_True in Ht by lia.
  assert (drop (k + length sub) (take (Z.to_nat (stop - pos)) (drop (Z.to_nat pos) s))
    = take (Z.to_nat (stop - (pos + Z.of_nat k + Z.of_nat (length sub)))) (drop (Z.to_nat (pos + Z.of_nat k + Z.of_nat (length sub))) s)) as Hd.
  { rewrite skipn_firstn_comm, drop_drop; f_equal; [lia|f_equal; lia]. }
  rewrite Z.geb_leb; destruct (Z.leb_spec stop (pos + Z.of_nat k + Z.of_nat (length sub))) as [Hge|Hlt].
  - exists 1; split; [f_equal; lia|]; change 1 with (0 + 1); eapply occ_some; [exact Ht|]; rewrite Hd; constructor.
    replace (Z.to_nat (stop - (pos + Z.of_nat k + Z.of_nat (length sub)))) with 0%nat by lia; simpl.
    case_decide as H; [apply prefix_length in H; simpl in H; lia|done].
  - destruct (IH (pos + Z.of_nat k + Z.of_nat (length sub)) (cnt + 1)) as (n & -> & Hn); [lia|done|lia|].
    exists (n + 1); split; [f_equal; lia|]; eapply occ_some; [exact Ht|]; by rewrite Hd.
Qed.

(** The range [start, stop) that is searched. *)
Definition range_of (s : text) (start stop : Z) : Z := if (stop =? 0) || (stop >? strlen s) then strlen s else stop.

Lemma search_range_ok s start stop : strlen s < 2 ^ 31 -> 0 <= start -> 0 <= stop ->
  search_range s start stop = if start <? range_of s start stop then Some (range_of s start stop) else None.
Proof.
  intros Hl H1 H2; unfold search_range, range_of; rewrite swrap_small by (unfold strlen in *; simpl; lia).
  assert (0 <= strlen s) by (unfold strlen; lia).
  rewrite (proj2 (Z.ltb_ge start 0)), (proj2 (Z.ltb_ge stop 0)) by lia; cbn [orb].
  rewrite Z.geb_leb; destruct (Z.leb_spec (strlen s) start) as [Hle|Hgt];
    destruct (Z.eqb_spec stop 0) as [->|Hne]; cbn [orb].
  - by rewrite (proj2 (Z.ltb_ge _ _)) by lia.
  - destruct (Z.gtb_spec stop (strlen s)); by rewrite (proj2 (Z.ltb_ge _ _)) by lia.
  - destruct (Z.gtb_spec (strlen s) (strlen s)); [lia|].
    rewrite (proj2 (Z.leb_gt _ _)), (proj2 (Z.ltb_lt _ _)) by lia; done.
  - destruct (Z.gtb_spec stop (strlen s)).
    + rewrite (proj2 (Z.leb_gt _ _)), (proj2 (Z.ltb_lt _ _)) by lia; done.
    + destruct (Z.leb_spec stop start); [rewrite (proj2 (Z.ltb_ge _ _)) by lia|rewrite (proj2 (Z.ltb_lt _ _)) by lia]; done.
Qed.

(** An empty text is found again and again at the same place. *)
Lemma str_count_empty_defect fuel s pos stop cnt : 0 <= pos < stop -> count_loop fuel s [] pos stop cnt = None.
Proof.
  intros Hp; revert cnt; induction fuel as [|fuel IH]; intros cnt; [done|]; cbn [count_loop].
  assert (strstr (drop (Z.to_nat pos) s) [] = Some 0%nat) as -> by (apply strstr_first; split; [apply prefix_nil|lia]).
  unfold strlen; cbn [length Z.of_nat]; rewrite !Z.add_0_r.
  destruct (Z.gtb_spec pos stop); [lia|]; rewrite Z.geb_leb, (proj2 (Z.leb_gt _ _)) by lia; apply IH.
Qed.

(** ** Stripping *)

Definition blank (s : text) : Prop := Forall (fun c => isspace c = true) s.

Lemma char_at_mid pre c t : char_at (pre ++ c :: t) (Z.of_nat (length pre)) = Some c.
Proof. unfold char_at; rewrite rd_nat, <- app_assoc, lookup_app_r, Nat.sub_diag by lia; done. Qed.

Lemma lstrip_loop_ok fuel pre t n : n = strlen (pre ++ t) -> (length t <= fuel)%nat -> t <> [] ->
  lstrip_loop fuel (pre ++ t) n (strlen pre)
  = Some (if decide ((span isspace t).2 = []) then -1 else strlen pre + strlen (span isspace t).1).
Proof.
  intros Hn; revert pre Hn fuel; induction t as [|c t IH]; intros pre Hn fuel Hf Ht; [done|].
  destruct fuel as [|fuel]; [simpl in Hf; lia|]; cbn [lstrip_loop span].
  unfold strlen at 1; rewrite char_at_mid; cbn [mbind option_bind]; destruct (isspace c) eqn:Ec.
  2:{ rewrite decide_False by done; f_equal; unfold strlen; simpl; lia. }
  assert (strlen (pre ++ c :: t) = strlen pre + 1 + strlen t) as El by (unfold strlen; rewrite length_app; simpl; lia).
  rewrite Z.geb_leb; destruct t as [|e t].
  - rewrite (proj2 (Z.leb_le _ _)) by (unfold strlen in *; simpl in *; lia); done.
  - rewrite (proj2 (Z.leb_gt _ _)) by (unfold strlen in *; simpl in *; lia).
    replace (strlen pre + 1) with (strlen (pre ++ [c])) by (unfold strlen; rewrite length_app; simpl; lia).
    replace (pre ++ c :: e :: t) with ((pre ++ [c]) ++ e :: t) in * by (by rewrite <- app_assoc).
    rewrite (IH (pre ++ [c]) Hn fuel) by (done || (simpl in *; lia)).
    destruct (span isspace (e :: t)) as [a b]; cbn [fst snd]; destruct (decide (b = [])) as [->|Hb]; [done|].
    f_equal; unfold strlen; rewrite length_app; simpl; lia.
Qed.

Lemma span_spec p s : s = (span p s).1 ++ (span p s).2 /\ Forall (fun c => p c = true) (span p s).1 /\
  (forall c r, (span p s).2 = c :: r -> p c = false).
Proof.
  induction s as [|c s (IH1 & IH2 & IH3)]; [done|]; cbn [span]; destruct (p c) eqn:Ec.
  - destruct (span p s) as [a b]; cbn [fst snd] in *; split; [by rewrite IH1 at 1|]; split; [by constructor|done].
  - split; [done|]; split; [constructor|]; cbn [fst snd]; by intros c' r [= <- <-].
Qed.

Lemma span_app p a b : Forall (fun c => p c = true) a -> (forall c r, b = c :: r -> p c = false) -> span p (a ++ b) = (a, b).
Proof.
  induction 1 as [|c a Hc _ IH]; intros Hb; cbn [app span].
  - destruct b as [|c b]; [done|]; cbn [span]; by rewrite (Hb c b eq_refl).
  - by rewrite Hc, IH.
Qed.

Lemma span_all p s : (span p s).2 = [] <-> Forall (fun c => p c = true) s.
Proof.
  destruct (span_spec p s) as (H1 & H2 & H3); split; intros H.
  - rewrite H, app_nil_r in H1; by rewrite H1.
  - pose proof (span_app p s [] H ltac:(done)) as E; rewrite app_nil_r in E; by rewrite E.
Qed.

(** The first character that is no white space; [-1] when there is none. *)
Lemma lstrip_correct s : strlen s < 2 ^ 31 ->
  muggle_str_lstrip_idx (Some s) = Some (if decide (s <> [] /\ blank s) then -1 else strlen (span isspace s).1).
Proof.
  intros Hl; unfold muggle_str_lstrip_idx; rewrite swrap_small by (unfold strlen in *; simpl; lia).
  destruct s as [|c s]; [rewrite decide_False by naive_solver; done|].
  pose proof (lstrip_loop_ok (S (length (c :: s))) [] (c :: s) _ eq_refl ltac:(lia) ltac:(done)) as E.
  cbn [app] in E; change (strlen []) with 0 in E; rewrite E; f_equal.
  destruct (decide ((span isspace (c :: s)).2 = [])) as [H|H].
  - rewrite decide_True; [done|]; split; [done|]; by apply span_all.
  - rewrite decide_False; [lia|]; intros [_ Hb]; by apply H, span_all.
Qed.

Lemma rstrip_loop_ok fuel t post : (length t <= fuel)%nat -> t <> [] ->
  exists r, rstrip_loop fuel (t ++ post) (strlen t - 1) = Some r /\
    ((r = -1 /\ blank t) \/ (0 <= r < strlen t /\ exists a c b, t = a ++ c :: b /\ isspace c = false /\ blank b /\ r = strlen a)).
Proof.
  revert post fuel; induction t as [|c t IH] using rev_ind; intros post fuel Hf Ht; [done|].
  rewrite length_app in Hf; simpl in Hf; destruct fuel as [|fuel]; [lia|]; cbn [rstrip_loop].
  assert (strlen (t ++ [c]) - 1 = strlen t) as El by (unfold strlen; rewrite length_app; simpl; lia).
  rewrite El, <- app_assoc; cbn [app]; unfold strlen at 1; rewrite char_at_mid; cbn [mbind option_bind].
  destruct (isspace c) eqn:Ec.
  2:{ exists (strlen t); split; [done|]; right; split; [unfold strlen in *; lia|]; exists t, c, []; split_and!; done || constructor. }
  destruct (list_snoc_case t) as [->|(t0 & x & Et)].
  { exists (-1); split; [done|]; left; split; [done|]; by constructor. }
  assert (t <> []) as Hne by (rewrite Et; by destruct t0).
  rewrite (proj2 (Z.ltb_ge _ _)) by (rewrite Et; unfold strlen; rewrite length_app; simpl; lia).
  destruct (IH (c :: post) fuel) as (r & -> & Hr); [lia|done|]; exists r; split; [done|].
  destruct Hr as [[-> Hb]|(Hr & a & d & b & -> & Hd & Hb & ->)].
  - left; split; [done|]; apply Forall_app; split; [done|by constructor].
  - right; split; [unfold strlen in *; lia|]; exists a, d, (b ++ [c]); split; [by rewrite <- app_assoc|]; split; [done|].
    split; [|done]; apply Forall_app; split; [done|by constructor].
Qed.

(** The last character that is no white space, or [-1], of a text that is not
    empty; on the empty one the code reads before it. *)
Lemma rstrip_correct s : strlen s < 2 ^ 31 ->
  match s with
  | [] => muggle_str_rstrip_idx (Some s) = None
  | _ => exists r, muggle_str_rstrip_idx (Some s) = Some r /\
      ((r = -1 /\ blank s) \/ (0 <= r < strlen s /\ exists a c b, s = a ++ c :: b /\ isspace c = false /\ blank b /\ r = strlen a))
  end.
Proof.
  intros Hl; destruct (decide (s = [])) as [->|Hne]; [done|].
  enough (exists r, muggle_str_rstrip_idx (Some s) = Some r /\
    ((r = -1 /\ blank s) \/ (0 <= r < strlen s /\ exists a c b, s = a ++ c :: b /\ isspace c = false /\ blank b /\ r = strlen a)))
    by (by destruct s).
  unfold muggle_str_rstrip_idx; rewrite swrap_small by (unfold strlen in *; simpl; lia).
  destruct (rstrip_loop_ok (S (length s)) s []) as (r & E & Hr); [lia|done|].
  rewrite app_nil_r in E; by exists r.
Qed.

(** ** Numbers *)

Definition is_sign (sg : text) (neg : bool) : Prop := (sg = [] /\ neg = false) \/ (sg = [43] /\ neg = false) \/ (sg = [45] /\ neg = true).

(** White space, a sign, digits of the base and a rest that does not go on
    with a digit. *)
Definition numeral (base : Z) (s : text) (neg : bool) (ds rest : text) : Prop :=
  exists ws sg, s = ws ++ sg ++ ds ++ rest /\ blank ws /\ is_sign sg neg /\ ds <> [] /\
    Forall (fun c => is_digit base c = true) ds /\ (forall c r, rest = c :: r -> is_digit base c = false).

(** Bases without a prefix. *)
Definition plain_base (base : Z) : Prop := 2 <= base <= 36 /\ base <> 16.

Lemma strto_base_plain base s : plain_base base -> strto_base base s = (base, s).
Proof.
  intros [H1 H2]; unfold strto_base; rewrite (proj2 (Z.eqb_neq base 0)), (proj2 (Z.eqb_neq base 16)) by lia; cbn [orb andb].
  repeat case_match; done.
Qed.

Lemma digit_char base c : base <= 36 -> is_digit base c = true -> isspace c = false /\ c <> 43 /\ c <> 45.
Proof.
  unfold is_digit, digit_value, isspace; intros Hb Hc; apply Z.ltb_lt in Hc.
  destruct (Z.leb_spec 48 c); cbn [andb] in Hc.
  - destruct (Z.eqb_spec c 32); [lia|]; destruct (Z.leb_spec c 13); [lia|]; rewrite andb_false_r; cbn [orb]; lia.
  - destruct (Z.leb_spec 97 c), (Z.leb_spec 65 c); cbn [andb] in Hc; lia.
Qed.

Lemma strto_sign_spec s neg s1 : strto_sign s = (neg, s1) -> exists sg, s = sg ++ s1 /\ is_sign sg neg.
Proof.
  unfold strto_sign, is_sign; intros H.
  assert (s = 45 :: s1 /\ neg = true \/ s = 43 :: s1 /\ neg = false \/ s = s1 /\ neg = false) as [[-> ->]|[[-> ->]|[-> ->]]].
  { destruct s as [|c s]; [naive_solver|]; repeat case_match; simplify_eq; naive_solver. }
  - exists [45]; naive_solver.
  - exists [43]; naive_solver.
  - exists []; naive_solver.
Qed.

Lemma strto_sign_app sg neg d s : is_sign sg neg -> d <> 43 -> d <> 45 -> strto_sign (sg ++ d :: s) = (neg, d :: s).
Proof.
  intros [[-> ->]|[[-> ->]|[-> ->]]] H1 H2; [|done|done]; unfold strto_sign; cbn [app]; repeat case_match; simplify_eq; done.
Qed.

Lemma strto_parse_spec base s neg m rest : plain_base base ->
  strto_parse s base = Some (neg, m, rest) <-> exists ds, numeral base s neg ds rest /\ m = digits_value base ds.
Proof.
  intros Hb; unfold strto_parse; split.
  - destruct (span_spec isspace s) as (Hs & Hws & _); destruct (strto_sign (span isspace s).2) as [neg' s1] eqn:E1.
    rewrite strto_base_plain by done; destruct (span (is_digit base) s1) as [ds r] eqn:E2.
    case_decide as Hne; [done|]; intros [= -> <- ->]; exists ds; split; [|done].
    destruct (strto_sign_spec _ _ _ E1) as (sg & Hsg & Hn); pose proof (span_spec (is_digit base) s1) as (Hs1 & Hds & Hr).
    rewrite E2 in Hs1, Hds, Hr; cbn [fst snd] in *; exists (span isspace s).1, sg; split_and!; try done.
    by rewrite <- Hs1, <- Hsg.
  - intros (ds & (ws & sg & -> & Hws & Hn & Hne & Hds & Hr) & ->); destruct ds as [|d ds]; [done|].
    pose proof Hds as [Hd _]%Forall_cons; destruct (digit_char base d ltac:(unfold plain_base in *; lia) Hd) as (D1 & D2 & D3).
    rewrite span_app; [|done|].
    2:{ intros c r; destruct Hn as [[-> _]|[[-> _]|[-> _]]]; cbn [app]; intros [= <- _]; done. }
    cbn [snd app]; rewrite (strto_sign_app _ neg) by done; rewrite strto_base_plain by done.
    replace (d :: ds ++ rest) with ((d :: ds) ++ rest) by done; by rewrite span_app, decide_False.
Qed.

Lemma only_space_ok rest : strlen rest < 2 ^ 31 -> exists b, only_space rest = Some b /\ (b = true <-> blank rest).
Proof.
  intros Hl; unfold only_space; case_decide as H; [exists true; subst; split; [done|]; split; [constructor|done]|].
  rewrite lstrip_correct by done; cbn [mbind option_bind]; eexists; split; [done|].
  destruct (decide (rest <> [] /\ blank rest)) as [[_ Hb]|Hn]; [by split|].
  rewrite Z.eqb_eq; unfold strlen; split; [lia|]; intros Hb; by destruct Hn.
Qed.

Definition signed (neg : bool) (m : Z) : Z := if neg then - m else m.

(** What [strtol] and [strtoul] return for a numeral, and that they return
    nothing else. *)
Lemma strto_cases base s : plain_base base ->
  (exists neg ds rest, numeral base s neg ds rest /\ strto_parse s base = Some (neg, digits_value base ds, rest)) \/
  ((forall neg ds rest, ~ numeral base s neg ds rest) /\ strto_parse s base = None).
Proof.
  intros Hb; destruct (strto_parse s base) as [[[neg m] rest]|] eqn:E.
  - apply strto_parse_spec in E as (ds & Hn & ->); [|done]; left; by exists neg, ds, rest.
  - right; split; [|done]; intros neg ds rest Hn.
    assert (strto_parse s base = Some (neg, digits_value base ds, rest)) as E' by (apply strto_parse_spec; eauto); congruence.
Qed.

Lemma numeral_fun base s neg ds rest neg' ds' rest' : plain_base base ->
  numeral base s neg ds rest -> numeral base s neg' ds' rest' ->
  neg = neg' /\ digits_value base ds = digits_value base ds' /\ rest = rest'.
Proof.
  intros Hb H1 H2; assert (strto_parse s base = Some (neg, digits_value base ds, rest)) as E1 by (apply strto_parse_spec; eauto).
  assert (strto_parse s base = Some (neg', digits_value base ds', rest')) as E2 by (apply strto_parse_spec; eauto).
  rewrite E1 in E2; by injection E2.
Qed.

Lemma numeral_rest_length base s neg ds rest : numeral base s neg ds rest -> strlen rest <= strlen s.
Proof. intros (ws & sg & -> & _); unfold strlen; rewrite !length_app; lia. Qed.

Lemma plain_valid base : plain_base base -> valid_base base = true.
Proof.
  intros [H _]; unfold valid_base; rewrite (proj2 (Z.leb_le 2 base)), (proj2 (Z.leb_le base 36)) by lia; apply orb_true_r.
Qed.

Lemma strtol_numeral base s neg ds rest : plain_base base -> numeral base s neg ds rest ->
  let z := signed neg (digits_value base ds) in
  strtol s base = Some (Z.max LONG_MIN (Z.min LONG_MAX z), (z >? LONG_MAX) || (z <? LONG_MIN), Some rest).
Proof.
  intros Hb Hn z; unfold strtol; rewrite plain_valid by done; cbn [negb].
  rewrite (proj2 (strto_parse_spec base s neg (digits_value base ds) rest Hb)) by eauto; fold (signed neg (digits_value base ds)).
  fold z; destruct (Z.gtb_spec z LONG_MAX), (Z.ltb_spec z LONG_MIN); cbn [orb]; unfold LONG_MAX, LONG_MIN in *; repeat f_equal; lia.
Qed.

Lemma strtoul_numeral base s neg ds rest : plain_base base -> numeral base s neg ds rest ->
  let m := digits_value base ds in
  strtoul s base = Some (if m >? ULONG_MAX then ULONG_MAX else u64 (signed neg m), m >? ULONG_MAX, Some rest).
Proof.
  intros Hb Hn m; unfold strtoul; rewrite plain_valid by done; cbn [negb].
  rewrite (proj2 (strto_parse_spec base s neg m rest Hb)) by eauto; by destruct (m >? ULONG_MAX).
Qed.

Lemma strto_no_numeral base s : plain_base base -> (forall neg ds rest, ~ numeral base s neg ds rest) ->
  strtol s base = Some (0, false, None) /\ strtoul s base = Some (0, false, None).
Proof.
  intros Hb Hn; unfold strtol, strtoul; rewrite plain_valid by done; cbn [negb].
  destruct (strto_cases base s Hb) as [(neg & ds & rest & H & _)|[_ ->]]; [by destruct (Hn neg ds rest)|done].
Qed.

(** A parser that accepts the numerals with [ok], followed by white space only. *)
Definition parses (base : Z) (s : text) (ok : Z -> bool -> text -> bool) (value : Z -> bool -> Z)
    (res : option (bool * option Z)) : Prop :=
  exists b r, res = Some (b, r) /\
    (b = true <-> exists neg ds rest, numeral base s neg ds rest /\ blank rest /\ ok (digits_value base ds) neg rest = true) /\
    (b = true -> forall neg ds rest, numeral base s neg ds rest -> r = Some (value (digits_value base ds) neg)).

Lemma parses_intro base s ok value res : plain_base base -> strlen s < 2 ^ 31 ->
  ((forall neg ds rest, ~ numeral base s neg ds rest) -> exists r, res = Some (false, r)) ->
  (forall neg ds rest sp, numeral base s neg ds rest -> only_space rest = Some sp ->
     exists r, res = Some (sp && ok (digits_value base ds) neg rest, r) /\
       (sp && ok (digits_value base ds) neg rest = true -> r = Some (value (digits_value base ds) neg))) ->
  parses base s ok value res.
Proof.
  intros Hb Hl Hno Hyes; destruct (strto_cases base s Hb) as [(neg & ds & rest & Hn & _)|[Hn _]].
  - destruct (only_space_ok rest) as (sp & Hsp & Hblank); [pose proof (numeral_rest_length _ _ _ _ _ Hn); lia|].
    destruct (Hyes neg ds rest sp Hn Hsp) as (r & -> & Hr); exists (sp && ok (digits_value base ds) neg rest), r.
    split; [done|]; split.
    + rewrite andb_true_iff, Hblank; split; [intros [H1 H2]; by exists neg, ds, rest|].
      intros (neg' & ds' & rest' & Hn' & H1 & H2); destruct (numeral_fun _ _ _ _ _ _ _ _ Hb Hn Hn') as (-> & -> & ->); done.
    + intros H neg' ds' rest' Hn'; destruct (numeral_fun _ _ _ _ _ _ _ _ Hb Hn Hn') as (-> & <- & _); by apply Hr.
  - destruct (Hno Hn) as [r ->]; exists false, r; split; [done|]; split; [|done]; split; [done|].
    intros (neg & ds & rest & H & _); by destruct (Hn neg ds rest).
Qed.

Lemma wrap_wrap_le v w x : 0 <= v <= w -> wrap v (wrap w x) = wrap v x.
Proof.
  intros H; unfold wrap; rewrite <- Znumtheory.Zmod_div_mod; [done|lia|lia|].
  exists (2 ^ (w - v)); rewrite <- Z.pow_add_r by lia; f_equal; lia.
Qed.

(** The values of [strtol] and [strtoul] are the numbers in range. *)
Definition in_long (m : Z) (neg : bool) (_ : text) : bool := (LONG_MIN <? signed neg m) && (signed neg m <? LONG_MAX).
Definition in_ulong (m : Z) (neg : bool) (_ : text) : bool := (m <=? ULONG_MAX) && negb (u64 (signed neg m) =? ULONG_MAX).

Lemma in_long_iff m neg rest : let v := Z.max LONG_MIN (Z.min LONG_MAX (signed neg m)) in
  ((v =? LONG_MAX) || (v =? LONG_MIN)) = negb (in_long m neg rest) /\ (in_long m neg rest = true -> v = signed neg m).
Proof.
  intros v; unfold in_long, LONG_MIN, LONG_MAX in *; set (z := signed neg m) in *.
  destruct (Z.ltb_spec (- 2 ^ 63) z), (Z.ltb_spec z (2 ^ 63 - 1)); cbn [andb negb].
  - rewrite !(proj2 (Z.eqb_neq _ _)) by (unfold v; lia); split; [done|]; unfold v; lia.
  - rewrite (proj2 (Z.eqb_eq v (2 ^ 63 - 1))) by (unfold v; lia); done.
  - rewrite (proj2 (Z.eqb_eq v (- 2 ^ 63))) by (unfold v; lia); by rewrite orb_true_r.
  - lia.
Qed.

Lemma in_ulong_iff m neg rest : let v := if m >? ULONG_MAX then ULONG_MAX else u64 (signed neg m) in
  (v =? ULONG_MAX) = negb (in_ulong m neg rest) /\ (in_ulong m neg rest = true -> v = u64 (signed neg m)).
Proof.
  unfold in_ulong; destruct (Z.gtb_spec m ULONG_MAX), (Z.leb_spec m ULONG_MAX); cbn [andb]; cbv zeta; try lia;
    by rewrite ?Z.eqb_refl, ?negb_involutive.
Qed.

Section Parsers.
Context (base : Z) (s : text) (Hbase : plain_base base) (Hlen : strlen s < 2 ^ 31).

(** The start of a parser: what follows the number is white space, or not. *)
Local Ltac parse_number Hn Hsp :=
  cbn [negb]; first [rewrite (strtol_numeral _ _ _ _ _ Hbase Hn)|rewrite (strtoul_numeral _ _ _ _ _ Hbase Hn)];
  cbn [mbind option_bind]; rewrite Hsp; cbn [mbind option_bind].

Lemma tol_parses : parses base s in_long (fun m neg => signed neg m) (muggle_str_tol (Some s) true base).
Proof.
  apply parses_intro; [done|done| |]; unfold muggle_str_tol.
  - intros Hn; rewrite (proj1 (strto_no_numeral _ _ Hbase Hn)); by eexists.
  - intros neg ds rest [] Hn Hsp; parse_number Hn Hsp; cbn [negb andb]; [|by eexists].
    destruct (in_long_iff (digits_value base ds) neg rest) as [-> Hv].
    destruct (in_long _ neg rest); cbn [negb]; eexists; (split; [done|]); [|done].
    intros _; by rewrite Hv.
Qed.

Lemma toul_parses : parses base s in_ulong (fun m neg => u64 (signed neg m)) (muggle_str_toul (Some s) true base).
Proof.
  apply parses_intro; [done|done| |]; unfold muggle_str_toul.
  - intros Hn; rewrite (proj2 (strto_no_numeral _ _ Hbase Hn)); by eexists.
  - intros neg ds rest [] Hn Hsp; parse_number Hn Hsp; cbn [negb andb]; [|by eexists].
    destruct (in_ulong_iff (digits_value base ds) neg rest) as [-> Hv].
    destruct (in_ulong _ neg rest); cbn [negb]; eexists; (split; [done|]); [|done].
    intros _; by rewrite Hv.
Qed.

Lemma tou_parses : parses base s in_ulong (fun m neg => u32 (signed neg m)) (muggle_str_tou (Some s) true base).
Proof.
  apply parses_intro; [done|done| |]; unfold muggle_str_tou.
  - intros Hn; rewrite (proj2 (strto_no_numeral _ _ Hbase Hn)); by eexists.
  - intros neg ds rest [] Hn Hsp; parse_number Hn Hsp; cbn [negb andb]; [|by eexists].
    destruct (in_ulong_iff (digits_value base ds) neg rest) as [-> Hv].
    destruct (in_ulong _ neg rest); cbn [negb]; eexists; (split; [done|]); [|done].
    intros _; rewrite Hv by done; f_equal; apply wrap_wrap_le; lia.
Qed.

(** The range of [int] is checked at the end of the text only. *)
Definition in_int_at_end (m : Z) (neg : bool) (rest : text) : bool :=
  if decide (rest = []) then (INT_MIN <=? signed neg m) && (signed neg m <=? INT_MAX) else true.

Lemma toi_range z : let v := Z.max LONG_MIN (Z.min LONG_MAX z) in
  (((v =? LONG_MAX) || (v =? LONG_MIN)) && ((z >? LONG_MAX) || (z <? LONG_MIN)) || ((v >? INT_MAX) || (v <? INT_MIN)))
  = negb ((INT_MIN <=? z) && (z <=? INT_MAX)).
Proof.
  intros v; unfold LONG_MIN, LONG_MAX, INT_MIN, INT_MAX in *.
  destruct (Z.leb_spec (- 2 ^ 31) z), (Z.leb_spec z (2 ^ 31 - 1)); cbn [andb negb].
  - assert (v = z) as -> by (unfold v; lia).
    rewrite !(proj2 (Z.eqb_neq _ _)) by lia; cbn [andb orb].
    destruct (Z.gtb_spec z (2 ^ 31 - 1)), (Z.ltb_spec z (- 2 ^ 31)); done || lia.
  - destruct (Z.gtb_spec v (2 ^ 31 - 1)); [by rewrite orb_true_r|unfold v in *; lia].
  - destruct (Z.ltb_spec v (- 2 ^ 31)); [by rewrite !orb_true_r|unfold v in *; lia].
  - lia.
Qed.

Lemma toi_parses : parses base s in_int_at_end
  (fun m neg => swrap 32 (Z.max LONG_MIN (Z.min LONG_MAX (signed neg m)))) (muggle_str_toi (Some s) true base).
Proof.
  apply parses_intro; [done|done| |]; unfold muggle_str_toi; cbn [negb].
  - intros Hn; rewrite (proj1 (strto_no_numeral _ _ Hbase Hn)); by eexists.
  - intros neg ds rest sp Hn Hsp; rewrite (strtol_numeral _ _ _ _ _ Hbase Hn); cbn [mbind option_bind].
    unfold in_int_at_end; destruct (decide (rest = [])) as [->|Hne].
    + unfold only_space in Hsp; rewrite decide_True in Hsp by done; injection Hsp as <-; cbn [andb].
      set (z := signed neg _); pose proof (toi_range z) as Hr; cbv zeta in Hr.
      destruct (_ && (_ || _)); cbn [orb] in Hr.
      * destruct ((INT_MIN <=? z) && (z <=? INT_MAX)); [done|]; by eexists.
      * rewrite Hr; destruct ((INT_MIN <=? z) && (z <=? INT_MAX)); cbn [negb]; by eexists.
    + rewrite Hsp; cbn [mbind option_bind]; destruct sp; by eexists.
Qed.
End Parsers.

(** ** Properties *)

(** Substring search.  For every text shorter than [2^31], every non-empty
    substring and all start and end positions that are not negative (0 and
    positions beyond the text stand for its end): [find] returns the least
    position of an occurrence within the range, or -1 when there is none, and
    [count] ends and returns the number of occurrences in the range that do
    not overlap, taken from the left. *)
Theorem str_search_correct s sub start stop
    (Hlen : strlen s < 2 ^ 31) (Hsub : sub <> []) (Hstart : 0 <= start) (Hstop : 0 <= stop) :
  let e := range_of s start stop in
  let occurs j := sub `prefix_of` drop (Z.to_nat j) s /\ j + strlen sub <= e in
  (exists r, muggle_str_find (Some s) (Some sub) start stop = r /\
     ((r = -1 /\ forall j, start <= j -> ~ occurs j) \/
      (start <= r /\ occurs r /\ forall j, start <= j < r -> ~ occurs j))) /\
  (exists n, muggle_str_count (Some s) (Some sub) start stop = Some n /\
     occurrences sub (take (Z.to_nat (e - start)) (drop (Z.to_nat start) s)) n).
Proof.
  intros e occurs; assert (0 < length sub)%nat as Hl by (destruct sub; [done|simpl; lia]).
  assert (e <= strlen s) as He by (unfold e, range_of; repeat case_match; lia).
  unfold muggle_str_find, muggle_str_count; rewrite search_range_ok by done; fold e.
  destruct (Z.ltb_spec start e) as [Hlt|Hge].
  2:{ split; [exists (-1); split; [done|]; left; split; [done|]; intros j Hj [_ H]; unfold strlen in H; lia|].
      exists 0; split; [done|]; constructor; replace (Z.to_nat (e - start)) with 0%nat by lia; simpl.
      case_decide as H; [apply prefix_length in H; simpl in H; lia|done]. }
  split.
  - eexists; split; [done|].
    assert (forall j, start <= j -> drop (Z.to_nat j) s = drop (Z.to_nat (j - start)) (drop (Z.to_nat start) s)) as Hd
      by (intros j Hj; rewrite drop_drop; f_equal; lia).
    destruct (strstr (drop (Z.to_nat start) s) sub) as [k|] eqn:E.
    + apply strstr_Some in E as Hf; destruct Hf as [H1 H2].
      pose proof (first_at_length _ _ _ (conj H1 H2) Hl) as Hk; rewrite length_drop in Hk.
      unfold strlen in *; destruct (Z.gtb_spec (start + Z.of_nat k + Z.of_nat (length sub)) e) as [Hgt|Hle].
      * left; split; [done|]; intros j Hj [Hp Hj2]; rewrite Hd in Hp by done; apply (H2 (Z.to_nat (j - start))); [lia|done].
      * rewrite swrap_small by (simpl; lia); right; split; [lia|]; split.
        { split; [|done]; rewrite Hd by lia; by replace (Z.to_nat (start + Z.of_nat k - start)) with k by lia. }
        intros j Hj [Hp _]; rewrite Hd in Hp by lia; apply (H2 (Z.to_nat (j - start))); [lia|done].
    + left; split; [done|]; intros j Hj [Hp _]; rewrite Hd in Hp by done; by apply (strstr_None _ _ _ E) in Hp.
  - destruct (count_loop_ok (length s) s sub start e 0 Hl) as (n & E & Hn); [lia|done|unfold strlen in *; lia|].
    by exists n.
Qed.

Lemma str_search_correct_witness :
  let e := range_of [97; 98; 97; 98] 1 0 in
  let occurs j := [97; 98] `prefix_of` drop (Z.to_nat j) [97; 98; 97; 98] /\ j + strlen [97; 98] <= e in
  (exists r, muggle_str_find (Some [97; 98; 97; 98]) (Some [97; 98]) 1 0 = r /\
     ((r = -1 /\ forall j, 1 <= j -> ~ occurs j) \/ (1 <= r /\ occurs r /\ forall j, 1 <= j < r -> ~ occurs j))) /\
  (exists n, muggle_str_count (Some [97; 98; 97; 98]) (Some [97; 98]) 1 0 = Some n /\
     occurrences [97; 98] (take (Z.to_nat (e - 1)) (drop 1 [97; 98; 97; 98])) n).
Proof. apply (str_search_correct [97; 98; 97; 98] [97; 98] 1 0); [vm_compute; done|done|lia|lia]. Defined.

(** C39: the integer parsers.  In every base from 2 to 36 but 16, a text is
    accepted exactly when it is white space, an optional sign, digits and
    white space, with a value in range: [tol] and [toll] accept the values
    strictly between the least and the greatest [long] and store them; [toul]
    and [toull] accept magnitudes that fit, store them modulo [2^64] when
    they are negated, and refuse those that give [ULONG_MAX], also "-1"; [tou] stores the lower 32 bits of
    the same; [toi] checks the range of [int] only when no white space follows
    the number, and stores the lower 32 bits of the value limited to [long]. *)
Theorem str_number_parsers_correct base s (Hbase : plain_base base) (Hlen : strlen s < 2 ^ 31) :
  parses base s in_long (fun m neg => signed neg m) (muggle_str_tol (Some s) true base) /\
  parses base s in_ulong (fun m neg => u64 (signed neg m)) (muggle_str_toul (Some s) true base) /\
  parses base s in_ulong (fun m neg => u32 (signed neg m)) (muggle_str_tou (Some s) true base) /\
  parses base s in_int_at_end (fun m neg => swrap 32 (Z.max LONG_MIN (Z.min LONG_MAX (signed neg m))))
    (muggle_str_toi (Some s) true base).
Proof. split; [|split; [|split]]; auto using tol_parses, toul_parses, tou_parses, toi_parses. Qed.

(** "-42 " in base ten. *)
Definition minus_42 : text := [45; 52; 50; 32].

Lemma str_number_parsers_correct_witness :
  muggle_str_toi (Some minus_42) true 10 = Some (true, Some (-42)) /\
  parses 10 minus_42 in_int_at_end (fun m neg => swrap 32 (Z.max LONG_MIN (Z.min LONG_MAX (signed neg m))))
    (muggle_str_toi (Some minus_42) true 10).
Proof.
  split; [vm_compute; done|].
  apply (str_number_parsers_correct 10 minus_42); [split; lia|vm_compute; done].
Defined.

(** The parsers for 32 bits accept numbers that do not fit: "4294967301 "
    with a blank is 5 for [toi], "4294967301" is 5 for [tou], and "-2" is
    4294967294. *)
Lemma str_32_bit_range_defect :
  muggle_str_toi (Some [52; 50; 57; 52; 57; 54; 55; 51; 48; 49; 32]) true 10 = Some (true, Some 5) /\
  muggle_str_toi (Some [52; 50; 57; 52; 57; 54; 55; 51; 48; 49]) true 10 = Some (false, None) /\
  muggle_str_tou (Some [52; 50; 57; 52; 57; 54; 55; 51; 48; 49]) true 10 = Some (true, Some 5) /\
  muggle_str_tou (Some [45; 50]) true 10 = Some (true, Some 4294967294).
Proof. repeat split. Qed.
