(* ===== verification/Path.v ===== *)
(** * Paths: [os/path.c]

    A path is a text; a buffer of the caller is a list of cells that may be
    uninitialised, of which the functions write [size] at most, and a write or
    read elsewhere is a fault, as is a [strlen] that finds no zero.  What
    [getcwd] answers is an input. *)
From S2P Require Import Prelude Utils Str.

Abbreviation buffer := (list (option Z)).

(** ** The C library *)

(** The string at the beginning of a buffer. *)
Fixpoint c_string (b : buffer) : option text :=
  match b with
  | Some c :: b => if c =? 0 then Some [] else t ← c_string b; Some (c :: t)
  | _ => None
  end.

(** [strncpy(ret + pos, src, n)]: filled up with zeros, not closed by one. *)
Definition strncpy (ret : buffer) (pos : Z) (src : text) (n : Z) : option buffer :=
  copy_in ret pos (Some <$> take (Z.to_nat n) (src ++ replicate (Z.to_nat n) 0)).

(** The characters from [i] on. *)
Definition memcpy (ret : buffer) (src : text) (i n : Z) : option buffer :=
  if decide (0 <= n) then s ← copy_out src i n; copy_in ret 0 (Some <$> s) else None.

(** ** The operations *)

(** ['/'], ['\\'], [':'] and ['.']. *)
Definition slash : Z := 47.
Definition backslash : Z := 92.
Definition dot : Z := 46.
Definition is_sep (c : Z) : bool := (c =? slash) || (c =? backslash).

Definition muggle_path_isabs (path : text) : option bool :=
  let len := strlen path in
  first ← char_at path 0;
  if (1 <? len) && (first =? slash) then Some true
  else if negb (2 <? len) then Some false
  else
    c1 ← char_at path 1; c2 ← char_at path 2;
    Some (((97 <=? first) && (first <=? 122) || (65 <=? first) && (first <=? 90)) && (c1 =? 58) && is_sep c2).

(** The loop of [basename] and [dirname] from [n - 1] down to the last separator,
    or to -1. *)
Fixpoint last_sep (path : text) (n : nat) : option Z :=
  match n with
  | O => Some (-1)
  | S m => c ← char_at path (Z.of_nat m); if is_sep c then Some (Z.of_nat m) else last_sep path m
  end.

Definition muggle_path_basename (path : text) (ret : buffer) (size : Z) : option (Z * buffer) :=
  if size <=? 1 then Some (MUGGLE_ERR_INVALID_PARAM, ret)
  else
    let total_len := swrap 32 (strlen path) in
    if total_len <=? 0 then Some (MUGGLE_ERR_INVALID_PARAM, ret)
    else
      pos ← last_sep path (Z.to_nat total_len);
      if pos <? 0 then
        if size - 1 <? u32 total_len then Some (MUGGLE_ERR_INVALID_PARAM, ret)
        else ret ← strncpy ret 0 path (size - 1); Some (MUGGLE_OK, ret)
      else
        let len := total_len - 1 - pos in
        if len <=? 0 then Some (MUGGLE_ERR_INVALID_PARAM, ret)
        else
          let len := if size <=? u32 len then swrap 32 (size - 1) else len in
          ret ← memcpy ret path (pos + 1) len; ret ← wr ret len (Some 0); Some (MUGGLE_OK, ret).

Definition muggle_path_dirname (path : text) (ret : buffer) (size : Z) : option (Z * buffer) :=
  if size <=? 1 then Some (MUGGLE_ERR_INVALID_PARAM, ret)
  else
    let total_len := swrap 32 (strlen path) in
    if total_len <=? 0 then Some (MUGGLE_ERR_INVALID_PARAM, ret)
    else
      pos ← last_sep path (Z.to_nat total_len);
      if pos <? 0 then Some (MUGGLE_ERR_INVALID_PARAM, ret)
      else
        let pos := if pos =? 0 then 1 else pos in
        drive ← (if 0 <? pos - 1 then c ← char_at path (pos - 1); Some (c =? 58) else Some false);
        let pos := if drive : bool then pos + 1 else pos in
        if swrap 32 size <=? pos then Some (MUGGLE_ERR_INVALID_PARAM, ret)
        else ret ← memcpy ret path 0 pos; ret ← wr ret pos (Some 0); Some (MUGGLE_OK, ret).

(** The end of [join]: what is appended at [pos]. *)
Definition join_tail (path2 : text) (max_len : Z) (ret : buffer) (pos len_path1 len_path2 : Z) : option (Z * buffer) :=
  c ← char_at path2 0;
  if (c =? slash) && (len_path2 =? 1) then Some (MUGGLE_ERR_INVALID_PARAM, ret)
  else
    let '(p, len_path2) := if c =? slash then (drop 1 path2, len_path2 - 1) else (path2, len_path2) in
    if max_len <? u32 (len_path1 + len_path2) then Some (MUGGLE_ERR_INVALID_PARAM, ret)
    else
      ret ← strncpy ret pos p len_path2;
      ret ← wr ret (len_path1 + len_path2) (Some 0); Some (MUGGLE_OK, ret).

Definition muggle_path_join (path1 path2 : text) (ret : buffer) (size : Z) : option (Z * buffer) :=
  let max_len := u32 (size - 1) in
  if max_len <=? 0 then Some (MUGGLE_ERR_INVALID_PARAM, ret)
  else
    let len_path1 := swrap 32 (strlen path1) in
    let len_path2 := swrap 32 (strlen path2) in
    if (len_path1 <=? 0) || (len_path2 <=? 0) then Some (MUGGLE_ERR_INVALID_PARAM, ret)
    else if max_len <? u32 len_path1 then Some (MUGGLE_ERR_INVALID_PARAM, ret)
    else
      ret ← strncpy ret 0 path1 max_len;
      c ← char_at path2 0;
      if c =? 0 then ret ← wr ret len_path1 (Some 0); Some (MUGGLE_OK, ret)
      else
        let pos := len_path1 in
        s ← c_string ret;
        e1 ← muggle_str_endswith (Some s) (Some [slash]);
        e2 ← muggle_str_endswith (Some s) (Some [backslash]);
        if negb e1 && negb e2 then
          if size <=? u32 pos then Some (MUGGLE_ERR_INVALID_PARAM, ret)
          else ret ← wr ret pos (Some slash); join_tail path2 max_len ret (pos + 1) (len_path1 + 1) len_path2
        else join_tail path2 max_len ret pos len_path1 len_path2.

(** *** [normpath] *)

(** [ret[pos-3]] to [ret[pos-1]] are two dots and a separator. *)
Definition ends_dotdot (ret : buffer) (pos : Z) : option bool :=
  if negb (3 <=? pos) then Some false
  else
    a ← rdi ret (pos - 3);
    if negb (a =? dot) then Some false
    else
      b ← rdi ret (pos - 2);
      if negb (b =? dot) then Some false else c ← rdi ret (pos - 1); Some (is_sep c).

(** The inner loop: from [n - 1] down to a separator, or to -1. *)
Fixpoint back_sep (ret : buffer) (n : nat) : option Z :=
  match n with
  | O => Some (-1)
  | S m => c ← rdi ret (Z.of_nat m); if is_sep c then Some (Z.of_nat m) else back_sep ret m
  end.

Definition write3 (ret : buffer) (pos c : Z) : option buffer :=
  ret ← wr ret pos (Some dot); ret ← wr ret (pos + 1) (Some dot); wr ret (pos + 2) (Some c).

(** After two dots and the character [c]: the position and the buffer; an
    error of the function is [inl]. *)
Definition norm_dotdot (ret : buffer) (pos c : Z) : option ((Z + Z) * buffer) :=
  if pos =? 0 then ret ← write3 ret pos c; Some (inr (pos + 3), ret)
  else
    e ← ends_dotdot ret pos;
    if e : bool then ret ← write3 ret pos c; Some (inr (pos + 3), ret)
    else
      d ← rdi ret (pos - 1);
      if negb (is_sep d) then Some (inl MUGGLE_ERR_INVALID_PARAM, ret)
      else if pos - 2 <? 0 then Some (inl MUGGLE_ERR_INVALID_PARAM, ret)
      else i ← back_sep ret (Z.to_nat (pos - 2 + 1)); Some (inr (i + 1), ret).

Fixpoint norm_loop (fuel : nat) (path : text) (cursor pos : Z) (ret : buffer) : option ((Z + Z) * buffer) :=
  match fuel with
  | O => None
  | S fuel =>
      c ← char_at path cursor;
      if c =? 0 then Some (inr pos, ret)
      else
        dots ← (if c =? dot then c1 ← char_at path (cursor + 1); Some (c1 =? dot) else Some false);
        if dots : bool then
          c2 ← char_at path (cursor + 2);
          if negb (c2 =? 0) && negb (is_sep c2) then Some (inl MUGGLE_ERR_INVALID_PARAM, ret)
          else
            '(r, ret) ← norm_dotdot ret pos c2;
            match r with
            | inl err => Some (inl err, ret)
            | inr pos => norm_loop fuel path (if c2 =? 0 then cursor + 2 else cursor + 3) pos ret
            end
        else ret ← wr ret pos (Some c); norm_loop fuel path (cursor + 1) (pos + 1) ret
  end.

Definition muggle_path_normpath (path : text) (ret : buffer) (size : Z) : option (Z * buffer) :=
  let len := swrap 32 (strlen path) in
  if size <=? u32 len then Some (MUGGLE_ERR_INVALID_PARAM, ret)
  else
    isabs ← muggle_path_isabs path;
    s1 ← muggle_str_startswith (Some path) (Some [dot; slash]);
    s2 ← muggle_str_startswith (Some path) (Some [dot; backslash]);
    let cursor := if negb isabs && (s1 || s2) then 2 else 0 in
    '(r, ret) ← norm_loop (S (length path)) path cursor 0 ret;
    match r with
    | inl err => Some (err, ret)
    | inr pos =>
        if pos =? 0 then
          if size <=? 2 then Some (MUGGLE_ERR_INVALID_PARAM, ret)
          else
            ret ← wr ret 0 (Some dot); ret ← wr ret 1 (Some slash);
            ret ← wr ret 2 (Some 0); Some (MUGGLE_OK, ret)
        else ret ← wr ret pos (Some 0); Some (MUGGLE_OK, ret)
    end.

(** [MUGGLE_MAX_PATH] on the hosts that are not Windows. *)
Definition MUGGLE_MAX_PATH : Z := 1024.

(** [cur_dir]: the directory that [muggle_os_curdir] stores, or its error. *)
Definition muggle_path_abspath (path : text) (ret : buffer) (size : Z) (cur_dir : Z + text) : option (Z * buffer) :=
  if size <=? 1 then Some (MUGGLE_ERR_INVALID_PARAM, ret)
  else
    isabs ← muggle_path_isabs path;
    if isabs : bool then
      if size - 1 <? strlen path then Some (MUGGLE_ERR_INVALID_PARAM, ret)
      else ret ← strncpy ret 0 path (size - 1); Some (MUGGLE_OK, ret)
    else
      match cur_dir with
      | inl err => Some (err, ret)
      | inr dir =>
          '(r, full_path) ← muggle_path_join dir path (uninit MUGGLE_MAX_PATH) MUGGLE_MAX_PATH;
          if negb (r =? MUGGLE_OK) then Some (r, ret)
          else s ← c_string full_path; muggle_path_normpath s ret size
      end.

(** ** Texts in buffers *)

Section Buffers.
Implicit Types (t : text) (b rest : buffer).

Lemma c_string_app t rest : Forall (fun c => c <> 0) t -> c_string ((Some <$> t) ++ Some 0 :: rest) = Some t.
Proof.
  induction 1 as [|c t Hc Ht IH]; [done|]; simpl; rewrite (proj2 (Z.eqb_neq _ _) Hc).
  change (list_fmap Z (option Z) Some t) with (Some <$> t); by rewrite IH.
Qed.

Lemma rdi_text t rest i : 0 <= i < Z.of_nat (length t) -> rdi ((Some <$> t) ++ rest) i = rd t i.
Proof.
  intros Hi; unfold rdi, rd; rewrite decide_True by lia.
  destruct (lookup_lt_is_Some_2 t (Z.to_nat i)) as [c Hc]; [lia|].
  rewrite lookup_app_l by (rewrite length_fmap; lia); rewrite list_lookup_fmap, Hc. by rewrite decide_True by lia.
Qed.

(** One more character. *)
Lemma wr_text t rest c : rest <> [] ->
  wr ((Some <$> t) ++ rest) (Z.of_nat (length t)) (Some c) = Some ((Some <$> (t ++ [c])) ++ drop 1 rest).
Proof.
  destruct rest as [|x rest]; [done|]; intros _; simpl; rewrite fmap_app, <- app_assoc; simpl.
  apply wr_mid; by rewrite length_fmap.
Qed.

Lemma char_at_app pre c post : char_at (pre ++ c :: post) (Z.of_nat (length pre)) = Some c.
Proof. unfold char_at; rewrite <- app_assoc; simpl; by apply rd_mid. Qed.

Lemma char_at_end t : char_at t (Z.of_nat (length t)) = Some 0.
Proof. unfold char_at; by apply rd_mid. Qed.

(** The character after [pre], or the zero at the end. *)
Definition head_char post : Z := match post with c :: _ => c | [] => 0 end.

Lemma char_at_head pre post : char_at (pre ++ post) (Z.of_nat (length pre)) = Some (head_char post).
Proof. destruct post; [rewrite app_nil_r; apply char_at_end|apply char_at_app]. Qed.

Lemma strncpy_text t rest src n : 0 <= n <= Z.of_nat (length rest) ->
  exists rest', strncpy ((Some <$> t) ++ rest) (Z.of_nat (length t)) src n =
    Some ((Some <$> t) ++ (Some <$> take (Z.to_nat n) (src ++ replicate (Z.to_nat n) 0)) ++ rest') /\
    Z.of_nat (length rest') = Z.of_nat (length rest) - n.
Proof.
  intros Hn; unfold strncpy; set (w := take _ _).
  assert (length w = Z.to_nat n) as Ew by (unfold w; rewrite length_take, length_app, length_replicate; lia).
  rewrite copy_in_Some by (rewrite ?length_app, ?length_fmap, ?Ew; lia).
  exists (drop (Z.to_nat n) rest); split; [|rewrite length_drop; lia]; f_equal; unfold blit.
  rewrite Nat2Z.id, length_fmap, Ew, take_app_le, take_ge by (rewrite length_fmap; lia).
  do 2 f_equal; rewrite drop_app_ge by (rewrite length_fmap; lia); rewrite length_fmap; f_equal; lia.
Qed.
End Buffers.

(** ** The reference: components

    A path is a sequence of components, each with the separator that ends it,
    and a last one. *)

Fixpoint split_path (p : text) : list (text * Z) * text :=
  match p with
  | [] => ([], [])
  | c :: p =>
      let '(l, e) := split_path p in
      if is_sep c then (([], c) :: l, e)
      else match l with
      | [] => ([], c :: e)
      | (d, x) :: l => ((c :: d, x) :: l, e)
      end
  end.

Definition flat (l : list (text * Z)) : text := concat ((fun x => x.1 ++ [x.2]) <$> l).

Definition dotdot : text := [dot; dot].

(** Two dots anywhere. *)
Fixpoint has_dotdot (c : text) : bool :=
  match c with
  | a :: c' => (a =? dot) && (match c' with b :: _ => b =? dot | [] => false end) || has_dotdot c'
  | [] => false
  end.

(** The components that are left, the last first, as they are written. *)
Fixpoint render (st : list (text * Z)) : text :=
  match st with
  | [] => []
  | (d, x) :: st => render st ++ d ++ [x]
  end.

(** [..] takes one component away, unless there is none or it is [..], too;
    not the empty one before the first separator of the path.  Two dots are not
    allowed in another component. *)
Definition norm_component (st : list (text * Z)) (c : text) (x : Z) : option (list (text * Z)) :=
  if decide (c = dotdot) then
    match st with
    | [] => Some [(c, x)]
    | (d, _) :: st' =>
        if decide (d = dotdot) then Some ((c, x) :: st)
        else if decide (length (render st) = 1%nat) then None else Some st'
    end
  else if has_dotdot c then None else Some ((c, x) :: st).

Fixpoint norm_components (st : list (text * Z)) (l : list (text * Z)) : option (list (text * Z)) :=
  match l with
  | [] => Some st
  | (c, x) :: l => st' ← norm_component st c x; norm_components st' l
  end.

(** The last component is written without a separator. *)
Definition norm_last (st : list (text * Z)) (e : text) : option text :=
  if decide (e = dotdot) then
    match st with
    | [] => Some e
    | (d, _) :: st' =>
        if decide (d = dotdot) then Some (render st ++ e)
        else if decide (length (render st) = 1%nat) then None else Some (render st')
    end
  else if has_dotdot e then None else Some (render st ++ e).

(** Without a component [.] at the beginning. *)
Definition norm_path (path : text) : option text :=
  let '(l, e) := split_path path in
  let l := match l with (d, _) :: l' => if decide (d = [dot]) then l' else l | [] => [] end in
  st ← norm_components [] l;
  t ← norm_last st e;
  Some (if decide (t = []) then [dot; slash] else t).

Section Reference.
Implicit Types (l st : list (text * Z)) (p c d e t : text).

Definition no_sep c : Prop := Forall (fun x => is_sep x = false) c.
Definition ended (x : text * Z) : Prop := no_sep x.1 /\ is_sep x.2 = true.

Lemma split_path_spec p l e : split_path p = (l, e) -> p = flat l ++ e /\ Forall ended l /\ no_sep e.
Proof.
  revert l e; induction p as [|c p IH]; intros l e; simpl; [intros [=<- <-]; by repeat constructor|].
  destruct (split_path p) as [l0 e0]; destruct (IH l0 e0 eq_refl) as (-> & Hl & He).
  destruct (is_sep c) eqn:Ec; [intros [=<- <-]; split; [done|]; split; [|done]; constructor; [|done]; split; [constructor|done]|].
  destruct l0 as [|[d x] l0]; intros [=<- <-].
  - split; [done|]; split; [done|by constructor].
  - inversion_clear Hl as [|? ? [Hd Hx] Hl0]; split; [done|]; split; [|done]; constructor; [|done]; split; [by constructor|done].
Qed.

(** What is on the stack. *)
Definition kept (x : text * Z) : Prop := ended x /\ (x.1 = dotdot \/ has_dotdot x.1 = false).

Lemma has_dotdot_app u v : has_dotdot (u ++ dot :: dot :: v) = true.
Proof. induction u as [|a u IH]; [done|]; simpl; rewrite IH; apply orb_true_r. Qed.

Lemma render_last st : Forall kept st -> st = [] \/ exists u x, render st = u ++ [x] /\ is_sep x = true.
Proof.
  intros H; destruct st as [|[d x] st]; [by left|right]; inversion_clear H as [|? ? [[_ Hx] _] _].
  exists (render st ++ d), x; simpl; by rewrite <- app_assoc.
Qed.

Lemma sep_not_dot x : is_sep x = true -> x <> dot.
Proof. unfold is_sep, slash, backslash, dot; rewrite orb_true_iff, !Z.eqb_eq; lia. Qed.

(** Two dots before the last separator are the component [..]. *)
Lemma render_dotdot st d x u y : Forall kept ((d, x) :: st) -> render ((d, x) :: st) = u ++ [dot; dot; y] -> d = dotdot.
Proof.
  intros H E; inversion_clear H as [|? ? [[Hd Hx] Hdd] Hst]; simpl in *.
  rewrite app_assoc in E; change [dot; dot; y] with ([dot; dot] ++ [y]) in E; rewrite app_assoc in E.
  apply app_inj_tail in E as [E _]; destruct Hdd as [|Hdd]; [done|exfalso].
  destruct (list_snoc_case d) as [->|(d0 & a & ->)].
  - rewrite app_nil_r in E; destruct (render_last st Hst) as [->|(v & z & Ev & Hz)]; [by destruct u|].
    rewrite Ev in E; change [dot; dot] with ([dot] ++ [dot]) in E; rewrite app_assoc in E.
    apply app_inj_tail in E as [_ ->]; by apply sep_not_dot in Hz.
  - rewrite app_assoc in E; change [dot; dot] with ([dot] ++ [dot]) in E; rewrite app_assoc in E.
    apply app_inj_tail in E as [E ->]; destruct (list_snoc_case d0) as [->|(d1 & b & ->)].
    + rewrite app_nil_r in E; destruct (render_last st Hst) as [->|(v & z & Ev & Hz)]; [by destruct u|].
      rewrite Ev in E; apply app_inj_tail in E as [_ ->]; by apply sep_not_dot in Hz.
    + rewrite app_assoc in E; apply app_inj_tail in E as [_ ->].
      rewrite <- app_assoc in Hdd; simpl in Hdd; by rewrite has_dotdot_app in Hdd.
Qed.

Lemma rd_app_l {A} (t u : list A) i : i < Z.of_nat (length t) -> rd (t ++ u) i = rd t i.
Proof. intros Hi; unfold rd; case_decide; [|done]; apply lookup_app_l; lia. Qed.

Lemma rd_snoc {A} (t : list A) x i : i = Z.of_nat (length t) -> rd (t ++ [x]) i = Some x.
Proof. intros ->; by apply rd_mid. Qed.

Lemma ends_dotdot_spec st d x rest : Forall kept ((d, x) :: st) ->
  ends_dotdot ((Some <$> render ((d, x) :: st)) ++ rest) (Z.of_nat (length (render ((d, x) :: st)))) = Some (bool_decide (d = dotdot)).
Proof.
  intros H; set (t := render ((d, x) :: st)); pose proof (render_dotdot st d x) as Hr; fold t in Hr.
  assert (d = dotdot -> exists u, t = u ++ [dot; dot; x]) as Hd.
  { intros E; exists (render st); unfold t; simpl; rewrite E; done. }
  assert (is_sep x = true) as Hx by (by inversion_clear H as [|? ? [[_ Hx] _] _]).
  unfold ends_dotdot; destruct (Z.leb_spec 3 (Z.of_nat (length t))) as [Hle|Hlt]; simpl.
  2:{ rewrite bool_decide_eq_false_2; [done|]; intros E; destruct (Hd E) as [u Eu]; rewrite Eu, length_app in Hlt; simpl in Hlt; lia. }
  destruct (list_snoc_case t) as [E|(t1 & y & E1)]; [rewrite E in Hle; simpl in Hle; lia|].
  destruct (list_snoc_case t1) as [E|(t2 & b & E2)]; [rewrite E1, E in Hle; simpl in Hle; lia|].
  destruct (list_snoc_case t2) as [E|(t3 & a & E3)]; [rewrite E1, E2, E in Hle; simpl in Hle; lia|].
  assert (t = t3 ++ [a; b; y]) as Et by (rewrite E1, E2, E3, <- !app_assoc; done); clear E1 E2 E3.
  assert (y = x) as -> by (unfold t in Et; simpl in Et; rewrite app_assoc in Et; change [a; b; y] with ([a; b] ++ [y]) in Et;
    rewrite app_assoc in Et; by apply app_inj_tail in Et as [_ ->]).
  assert (Z.of_nat (length t) = Z.of_nat (length t3) + 3) as El by (rewrite Et, length_app; simpl; lia).
  rewrite !rdi_text by lia; rewrite El.
  assert (rd t (Z.of_nat (length t3) + 3 - 3) = Some a) as -> by (rewrite Et; apply rd_mid; lia).
  assert (rd t (Z.of_nat (length t3) + 3 - 2) = Some b) as ->.
  { rewrite Et; change [a; b; x] with ([a] ++ [b; x]); rewrite app_assoc; apply rd_mid; rewrite length_app; simpl; lia. }
  assert (rd t (Z.of_nat (length t3) + 3 - 1) = Some x) as ->.
  { rewrite Et; change [a; b; x] with ([a; b] ++ [x]); rewrite app_assoc; apply rd_mid; rewrite length_app; simpl; lia. }
  simpl; rewrite Hx; destruct (Z.eqb_spec a dot) as [->|Ha]; simpl.
  2:{ rewrite bool_decide_eq_false_2; [done|]; intros E; destruct (Hd E) as [u Eu]; rewrite Et in Eu; apply Ha.
      by apply app_inj_2 in Eu as [_ [=]]. }
  destruct (Z.eqb_spec b dot) as [->|Hb]; simpl.
  2:{ rewrite bool_decide_eq_false_2; [done|]; intros E; destruct (Hd E) as [u Eu]; rewrite Et in Eu; apply Hb.
      by apply app_inj_2 in Eu as [_ [=]]. }
  rewrite bool_decide_eq_true_2; [done|]; by eapply Hr.
Qed.

Lemma back_sep_spec ret u d : (forall i, 0 <= i < Z.of_nat (length (u ++ d)) -> rdi ret i = rd (u ++ d) i) -> no_sep d ->
  u = [] \/ (exists v x, u = v ++ [x] /\ is_sep x = true) ->
  back_sep ret (length (u ++ d)) = Some (Z.of_nat (length u) - 1).
Proof.
  intros Hret Hd Hu; induction d as [|a d IH] using rev_ind.
  - rewrite app_nil_r in *; destruct Hu as [->|(v & x & -> & Hx)]; [done|].
    rewrite length_app, Nat.add_1_r; simpl; rewrite Hret by (rewrite length_app; simpl; lia).
    rewrite rd_snoc by done; simpl; rewrite Hx; f_equal; lia.
  - apply Forall_app in Hd as [Hd Ha]; inversion_clear Ha as [|? ? Ha' _]; rewrite app_assoc in *.
    rewrite length_app, Nat.add_1_r; simpl; rewrite Hret by (rewrite (length_app (u ++ d)); simpl; lia).
    rewrite rd_snoc by done; simpl; rewrite Ha'; apply IH; [|done].
    intros i Hi; rewrite Hret by (rewrite (length_app (u ++ d)); simpl; lia).
    apply rd_app_l; lia.
Qed.

Lemma length_pos {A} (l : list A) : (0 < length l)%nat -> l <> [].
Proof. by destruct l; [simpl; lia|]. Qed.

Lemma write3_text t rest (c : Z) : (3 <= length rest)%nat ->
  write3 ((Some <$> t) ++ rest) (Z.of_nat (length t)) c = Some ((Some <$> (t ++ [dot; dot; c])) ++ drop 3 rest).
Proof.
  intros Hl; unfold write3; rewrite wr_text by (apply length_pos; lia); simpl.
  replace (Z.of_nat (length t) + 1) with (Z.of_nat (length (t ++ [dot]))) by (rewrite length_app; simpl; lia).
  rewrite wr_text by (apply length_pos; rewrite ?length_drop; lia); simpl.
  replace (Z.of_nat (length t) + 2) with (Z.of_nat (length ((t ++ [dot]) ++ [dot]))) by (rewrite !length_app; simpl; lia).
  rewrite wr_text by (apply length_pos; rewrite ?length_drop; lia).
  rewrite !drop_drop, <- !app_assoc; done.
Qed.

(** Two dots that are a component: [norm_component]. *)
Lemma norm_dotdot_spec st rest (c : Z) : Forall kept st -> (3 <= length rest)%nat ->
  let t := render st in
  norm_dotdot ((Some <$> t) ++ rest) (Z.of_nat (length t)) c =
  match st with
  | (d, x) :: st' =>
      if decide (d = dotdot) then Some (inr (Z.of_nat (length t) + 3), (Some <$> (t ++ [dot; dot; c])) ++ drop 3 rest)
      else if decide (length t = 1%nat) then Some (inl MUGGLE_ERR_INVALID_PARAM, (Some <$> t) ++ rest)
      else Some (inr (Z.of_nat (length (render st'))), (Some <$> t) ++ rest)
  | [] => Some (inr (Z.of_nat (length t) + 3), (Some <$> (t ++ [dot; dot; c])) ++ drop 3 rest)
  end.
Proof.
  intros Hst Hl t; unfold norm_dotdot; destruct st as [|[d x] st].
  - pose proof (write3_text [] rest c Hl) as H; simpl in H; unfold t; simpl; by rewrite H.
  - assert (t = (render st ++ d) ++ [x]) as Et by (unfold t; simpl; by rewrite app_assoc).
    assert (length t = S (length (render st ++ d))) as El by (rewrite Et, length_app; simpl; lia).
    pose proof (ends_dotdot_spec st d x rest Hst) as He; fold t in He; rewrite (proj2 (Z.eqb_neq _ _)) by lia; rewrite He; simpl.
    case_bool_decide as Hd; [rewrite decide_True by done; by rewrite (write3_text t rest c Hl)|rewrite decide_False by done].
    inversion_clear Hst as [|? ? [[Hdn Hx] _] Hst']; simpl in Hx, Hdn.
    rewrite rdi_text by lia; rewrite Et at 1; rewrite rd_snoc by (rewrite El; lia); simpl; rewrite Hx; simpl.
    destruct (decide (length t = 1%nat)) as [E1|Hne].
    + rewrite E1; done.
    + rewrite (proj2 (Z.ltb_ge _ _)) by lia.
      replace (Z.to_nat (Z.of_nat (length t) - 2 + 1)) with (length (render st ++ d)) by lia.
      rewrite (back_sep_spec _ (render st) d); [simpl; do 3 f_equal; lia| |done|destruct (render_last st Hst') as [->|H]; [by left|by right]].
      intros i Hi; rewrite rdi_text by lia; rewrite Et; apply rd_app_l; lia.
Qed.

(** Two dots after a character that is no separator. *)
Lemma norm_dotdot_bad t y rest (c : Z) : is_sep y = false ->
  norm_dotdot ((Some <$> (t ++ [y])) ++ rest) (Z.of_nat (length (t ++ [y]))) c =
  Some (inl MUGGLE_ERR_INVALID_PARAM, (Some <$> (t ++ [y])) ++ rest).
Proof.
  intros Hy; unfold norm_dotdot; set (u := t ++ [y]).
  assert (length u = S (length t)) as El by (unfold u; rewrite length_app; simpl; lia).
  rewrite (proj2 (Z.eqb_neq _ _)) by lia.
  assert (rdi ((Some <$> u) ++ rest) (Z.of_nat (length u) - 1) = Some y) as Ey by (rewrite rdi_text by lia; apply rd_snoc; lia).
  assert (forall i, 0 <= i < Z.of_nat (length u) -> is_Some (rdi ((Some <$> u) ++ rest) i)) as Hin.
  { intros i Hi; rewrite rdi_text by done; by apply rd_is_Some. }
  assert (ends_dotdot ((Some <$> u) ++ rest) (Z.of_nat (length u)) = Some false) as ->.
  { unfold ends_dotdot; destruct (Z.leb_spec 3 (Z.of_nat (length u))); [|done]; simpl.
    destruct (Hin (Z.of_nat (length u) - 3)) as [a ->]; [lia|]; simpl; destruct (negb _); [done|].
    destruct (Hin (Z.of_nat (length u) - 2)) as [b ->]; [lia|]; simpl; destruct (negb _); [done|].
    rewrite Ey; simpl; by rewrite Hy. }
  simpl; rewrite Ey; simpl; by rewrite Hy.
Qed.

(** Characters that are copied. *)
Lemma norm_copy c : forall pre post t rest fuel, has_dotdot (c ++ [head_char post]) = false -> Forall (fun x => x <> 0) c ->
  (length c <= length rest)%nat ->
  norm_loop (length c + fuel) (pre ++ c ++ post) (Z.of_nat (length pre)) (Z.of_nat (length t)) ((Some <$> t) ++ rest) =
  norm_loop fuel (pre ++ c ++ post) (Z.of_nat (length (pre ++ c))) (Z.of_nat (length (t ++ c))) ((Some <$> (t ++ c)) ++ drop (length c) rest).
Proof.
  induction c as [|a c IH]; intros pre post t rest fuel Hd Hz Hl.
  - simpl; by rewrite !app_nil_r.
  - inversion_clear Hz as [|? ? Ha Hz']; simpl in Hl; simpl (length (a :: c)); cbn [Nat.add norm_loop].
    simpl app; rewrite (char_at_app pre a (c ++ post)); cbn [mbind option_bind]; rewrite (proj2 (Z.eqb_neq _ _) Ha).
    assert (char_at (pre ++ a :: c ++ post) (Z.of_nat (length pre) + 1) = Some (head_char (c ++ post))) as Enext.
    { pose proof (char_at_head (pre ++ [a]) (c ++ post)) as H; rewrite length_app in H; simpl in H; rewrite <- app_assoc in H; simpl in H.
      rewrite <- H; f_equal; lia. }
    simpl in Hd; apply orb_false_iff in Hd as [Hd1 Hd2]; rewrite Enext.
    assert ((if a =? dot then c1 ← Some (head_char (c ++ post)); Some (c1 =? dot) else Some false) = Some false) as ->.
    { destruct (a =? dot); [|done]; simpl in *; destruct c; simpl in *; by rewrite Hd1. }
    simpl; rewrite wr_text by (apply length_pos; lia); simpl.
    pose proof (IH (pre ++ [a]) post (t ++ [a]) (drop 1 rest) fuel Hd2 Hz') as H; rewrite length_drop in H; specialize (H ltac:(lia)).
    rewrite <- !app_assoc in H; simpl in H; rewrite drop_drop in H; simpl in H.
    replace (Z.of_nat (length pre) + 1) with (Z.of_nat (length (pre ++ [a]))) by (rewrite length_app; simpl; lia).
    replace (Z.of_nat (length t) + 1) with (Z.of_nat (length (t ++ [a]))) by (rewrite length_app; simpl; lia).
    exact H.
Qed.

Lemma norm_dots pre post fuel pos ret :
  norm_loop (S fuel) (pre ++ dot :: dot :: post) (Z.of_nat (length pre)) pos ret =
  let h := head_char post in
  if negb (h =? 0) && negb (is_sep h) then Some (inl MUGGLE_ERR_INVALID_PARAM, ret)
  else
    '(r, ret) ← norm_dotdot ret pos h;
    match r with
    | inl err => Some (inl err, ret)
    | inr pos => norm_loop fuel (pre ++ dot :: dot :: post) (if h =? 0 then Z.of_nat (length pre) + 2 else Z.of_nat (length pre) + 3) pos ret
    end.
Proof.
  cbn [norm_loop]; rewrite (char_at_app pre dot (dot :: post)); cbn [mbind option_bind].
  assert (char_at (pre ++ dot :: dot :: post) (Z.of_nat (length pre) + 1) = Some dot) as ->.
  { pose proof (char_at_app (pre ++ [dot]) dot post) as H; rewrite length_app, <- app_assoc in H; simpl in H; rewrite <- H; f_equal; lia. }
  assert (char_at (pre ++ dot :: dot :: post) (Z.of_nat (length pre) + 2) = Some (head_char post)) as ->; [|done].
  pose proof (char_at_head (pre ++ [dot; dot]) post) as H; rewrite length_app, <- app_assoc in H; simpl in H; rewrite <- H; f_equal; lia.
Qed.

Lemma has_dotdot_first c : has_dotdot c = true -> exists u v, c = u ++ dot :: dot :: v /\ has_dotdot (u ++ [dot]) = false.
Proof.
  induction c as [|a c IH]; [done|]; simpl; intros [H|H]%orb_true_iff.
  - apply andb_true_iff in H as [->%Z.eqb_eq H]; destruct c as [|b c]; [done|]; apply Z.eqb_eq in H as ->; by exists [], c.
  - destruct ((a =? dot) && match c with b :: _ => b =? dot | [] => false end) eqn:E.
    { apply andb_true_iff in E as [->%Z.eqb_eq E]; destruct c as [|b c]; [done|]; apply Z.eqb_eq in E as ->; by exists [], c. }
    destruct (IH H) as (u & v & -> & Hu); exists (a :: u), v; split; [done|]; simpl; rewrite Hu, orb_false_r.
    by destruct u.
Qed.

Lemma has_dotdot_snoc c x : has_dotdot c = false -> x <> dot -> has_dotdot (c ++ [x]) = false.
Proof.
  intros Hc Hx; induction c as [|a c IH]; simpl in *; [by rewrite andb_false_r|].
  apply orb_false_iff in Hc as [H1 H2]; rewrite (IH H2), orb_false_r.
  destruct c; simpl; [|done]; rewrite (proj2 (Z.eqb_neq _ _) Hx); apply andb_false_r.
Qed.

Definition ends_component post : Prop := post = [] \/ is_sep (head_char post) = true.

Lemma ends_head post : ends_component post -> negb (head_char post =? 0) && negb (is_sep (head_char post)) = false /\ head_char post <> dot.
Proof.
  intros [->|H]; [done|]; split; [rewrite H; apply andb_false_r|by apply sep_not_dot].
Qed.

(** A component in which two dots are not allowed. *)
Lemma norm_bad c pre post t rest fuel : has_dotdot c = true -> c <> dotdot -> no_sep c -> Forall (fun x => x <> 0) c ->
  ends_component post -> (length c <= length rest)%nat -> (length c < fuel)%nat ->
  exists ret, norm_loop fuel (pre ++ c ++ post) (Z.of_nat (length pre)) (Z.of_nat (length t)) ((Some <$> t) ++ rest) =
    Some (inl MUGGLE_ERR_INVALID_PARAM, ret).
Proof.
  intros Hd Hne Hns Hz Hp Hl Hf; destruct (has_dotdot_first c Hd) as (u & v & -> & Hu).
  apply Forall_app in Hns as [Hnu Hnv]; apply Forall_app in Hz as [Hzu Hzv]; rewrite length_app in Hl, Hf; simpl in Hl, Hf.
  replace fuel with (length u + S (fuel - length u - 1))%nat by lia.
  rewrite <- app_assoc, norm_copy by (try done; lia).
  change ((dot :: dot :: v) ++ post) with (dot :: dot :: (v ++ post)); rewrite (app_assoc pre u); rewrite norm_dots; cbv zeta.
  inversion_clear Hnv as [|? ? _ Hnv']; inversion_clear Hnv' as [|? ? _ Hnv]; inversion_clear Hzv as [|? ? _ Hzv']; inversion_clear Hzv' as [|? ? _ Hzv].
  destruct v as [|y v].
  - change ([] ++ post) with post; rewrite (proj1 (ends_head post Hp)); destruct (list_snoc_case u) as [->|(u0 & y & ->)]; [done|].
    apply Forall_app in Hnu as [_ Hy]; inversion_clear Hy as [|? ? Hy' _]; simpl.
    rewrite (app_assoc t), norm_dotdot_bad by done; by eexists.
  - inversion_clear Hnv as [|? ? Hy _]; inversion_clear Hzv as [|? ? Hy0 _]; simpl.
    rewrite Hy, (proj2 (Z.eqb_neq _ _) Hy0); by eexists.
Qed.

Lemma has_dotdot_sep c x y : has_dotdot c = false -> x <> dot -> has_dotdot (c ++ [x; y]) = false.
Proof.
  intros Hc Hx; induction c as [|a c IH]; simpl in *.
  - by rewrite (proj2 (Z.eqb_neq _ _) Hx), andb_false_r.
  - apply orb_false_iff in Hc as [H1 H2]; rewrite (IH H2), orb_false_r.
    destruct c; simpl; [|done]; rewrite (proj2 (Z.eqb_neq _ _) Hx); apply andb_false_r.
Qed.

Lemma norm_end path fuel pos ret : (0 < fuel)%nat -> norm_loop fuel path (Z.of_nat (length path)) pos ret = Some (inr pos, ret).
Proof. destruct fuel; [lia|]; intros _; cbn [norm_loop]; by rewrite char_at_end. Qed.

(** What the loop leaves: an error, or the text, with a zero after it or not. *)
Definition norm_result (r : option ((Z + Z) * buffer)) (n : nat) (o : option text) : Prop :=
  match o with
  | None => exists ret, r = Some (inl MUGGLE_ERR_INVALID_PARAM, ret)
  | Some t => exists t' rest', r = Some (inr (Z.of_nat (length t')), (Some <$> t') ++ rest') /\
      (t' = t \/ t <> [] /\ t' = t ++ [0]) /\ rest' <> [] /\ length ((Some <$> t') ++ rest') = n
  end.

Lemma popped st d x rest : (Some <$> render ((d, x) :: st)) ++ rest = (Some <$> render st) ++ ((Some <$> (d ++ [x])) ++ rest).
Proof. simpl; by rewrite fmap_app, <- app_assoc. Qed.

Lemma norm_loop_last e st pre rest fuel : Forall kept st -> no_sep e -> Forall (fun x => x <> 0) e ->
  (length e < fuel)%nat -> (length e + 2 <= length rest)%nat ->
  norm_result (norm_loop fuel (pre ++ e) (Z.of_nat (length pre)) (Z.of_nat (length (render st))) ((Some <$> render st) ++ rest))
    (length ((Some <$> render st) ++ rest)) (norm_last st e).
Proof.
  intros Hst Hne Hz Hf Hl; unfold norm_last; destruct (decide (e = dotdot)) as [->|Hd].
  - destruct fuel as [|fuel]; [lia|]; simpl in Hf, Hl; unfold dotdot at 2; rewrite (norm_dots pre []); cbv zeta; simpl.
    replace (Z.of_nat (length pre) + 2) with (Z.of_nat (length (pre ++ dotdot))) by (rewrite length_app; simpl; lia).
    rewrite norm_dotdot_spec by (done || lia); cbv zeta.
    assert (forall z : Z, (Z.of_nat (length (render st)) + 3) = Z.of_nat (length (render st ++ [dot; dot; z]))) as E3
      by (intros; rewrite length_app; simpl; lia).
    assert (norm_result (Some (inr (Z.of_nat (length (render st)) + 3), (Some <$> render st ++ [dot; dot; 0]) ++ drop 3 rest))
      (length ((Some <$> render st) ++ rest)) (Some (render st ++ dotdot))) as Hpush.
    { exists (render st ++ [dot; dot; 0]), (drop 3 rest); rewrite <- E3; split; [done|]; split.
      - right; split; [by destruct (render st)|]; by rewrite <- app_assoc.
      - split; [apply length_pos; rewrite length_drop; lia|]; rewrite !length_app, !length_fmap, length_app, length_drop; simpl; lia. }
    destruct st as [|[d x] st]; [simpl; rewrite norm_end by lia; exact Hpush|].
    destruct (decide (d = dotdot)); [simpl; rewrite norm_end by lia; exact Hpush|].
    destruct (decide (length (render ((d, x) :: st)) = 1%nat)); [by eexists|]; simpl mbind; cbv beta iota.
    cbn [mbind option_bind]; rewrite norm_end by lia; exists (render st), ((Some <$> (d ++ [x])) ++ rest); rewrite <- popped.
    split; [done|]; split; [by left|]; split; [|done]; apply length_pos; rewrite length_app; lia.
  - destruct (has_dotdot e) eqn:Eh.
    + pose proof (norm_bad e pre [] (render st) rest fuel Eh Hd Hne Hz (or_introl eq_refl)) as H; rewrite app_nil_r in H; apply H; lia.
    + replace fuel with (length e + (fuel - length e))%nat by lia.
      pose proof (norm_copy e pre [] (render st) rest (fuel - length e)) as H; rewrite app_nil_r in H.
      rewrite H by (try done; try lia; by apply has_dotdot_snoc); rewrite norm_end by lia.
      exists (render st ++ e), (drop (length e) rest); split; [done|]; split; [by left|]; split; [apply length_pos; rewrite length_drop; lia|].
      rewrite !length_app, !length_fmap, length_app, length_drop; lia.
Qed.

Lemma norm_loop_spec l e : forall st pre rest fuel, Forall kept st -> Forall ended l -> no_sep e -> Forall (fun x => x <> 0) (flat l ++ e) ->
  (length (flat l ++ e) < fuel)%nat -> (length (flat l ++ e) + 2 <= length rest)%nat ->
  norm_result (norm_loop fuel (pre ++ flat l ++ e) (Z.of_nat (length pre)) (Z.of_nat (length (render st))) ((Some <$> render st) ++ rest))
    (length ((Some <$> render st) ++ rest)) (st' ← norm_components st l; norm_last st' e).
Proof.
  induction l as [|[c x] l IH]; intros st pre rest fuel Hst Hl Hne Hz Hf Hr; [by apply norm_loop_last|].
  inversion_clear Hl as [|? ? [Hcn Hx] Hl']; simpl in Hcn, Hx; pose proof (sep_not_dot x Hx) as Hxd.
  assert (flat ((c, x) :: l) ++ e = c ++ x :: (flat l ++ e)) as Ef by (unfold flat; simpl; by rewrite <- !app_assoc).
  rewrite Ef in *; rewrite length_app in Hf, Hr; simpl in Hf, Hr; apply Forall_app in Hz as [Hzc Hz]; inversion_clear Hz as [|? ? Hzx Hz'].
  simpl; unfold norm_component; destruct (decide (c = dotdot)) as [->|Hd].
  - destruct fuel as [|fuel]; [lia|]; simpl in Hf, Hr; change (dotdot ++ x :: flat l ++ e) with (dot :: dot :: x :: flat l ++ e).
    rewrite norm_dots; cbv zeta; simpl head_char; rewrite Hx, andb_false_r.
    rewrite norm_dotdot_spec by (done || lia); cbv zeta; rewrite (proj2 (Z.eqb_neq _ _) Hzx).
    assert (forall pos ret n o, norm_result (norm_loop fuel ((pre ++ [dot; dot; x]) ++ flat l ++ e) (Z.of_nat (length (pre ++ [dot; dot; x]))) pos ret) n o ->
      norm_result (norm_loop fuel (pre ++ dot :: dot :: x :: flat l ++ e) (Z.of_nat (length pre) + 3) pos ret) n o) as Hpre.
    { intros pos ret n o; rewrite length_app, <- app_assoc; simpl.
      by replace (Z.of_nat (length pre + 3)) with (Z.of_nat (length pre) + 3) by lia. }
    assert (st = [] \/ (exists d y st', st = (d, y) :: st' /\ d = dotdot) ->
      norm_result (norm_loop fuel (pre ++ dot :: dot :: x :: flat l ++ e) (Z.of_nat (length pre) + 3)
        (Z.of_nat (length (render st)) + 3) ((Some <$> (render st ++ [dot; dot; x])) ++ drop 3 rest))
        (length ((Some <$> render st) ++ rest)) (st' ← norm_components ((dotdot, x) :: st) l; norm_last st' e)) as Hpush.
    { intros _; apply Hpre; pose proof (IH ((dotdot, x) :: st) (pre ++ [dot; dot; x]) (drop 3 rest) fuel) as H.
      change (render ((dotdot, x) :: st)) with (render st ++ [dot; dot; x]) in H.
      assert (length ((Some <$> (render st ++ [dot; dot; x])) ++ drop 3 rest) = length ((Some <$> render st) ++ rest)) as El.
      { rewrite !length_app, !length_fmap, length_app, length_drop; simpl; lia. }
      rewrite El in H; rewrite (length_app (render st)) in H; simpl (length [dot; dot; x]) in H; rewrite Nat2Z.inj_add in H.
      apply H; try done; [constructor; [split; [done|by left]|done]|lia|rewrite length_drop; lia]. }
    destruct st as [|[d y] st]; [apply Hpush; by left|].
    destruct (decide (d = dotdot)) as [->|Hdd]; [apply Hpush; right; by eexists _, _, _|].
    destruct (decide (length (render ((d, y) :: st)) = 1%nat)); [by eexists|]; cbn [mbind option_bind]; apply Hpre.
    rewrite popped; apply IH; try done; [by inversion_clear Hst|lia|rewrite (length_app (Some <$> (d ++ [y]))); lia].
  - destruct (has_dotdot c) eqn:Eh.
    + eapply norm_bad; try done; [by right|lia|lia].
    + pose proof (norm_copy (c ++ [x]) pre (flat l ++ e) (render st) rest (fuel - length (c ++ [x]))) as H.
      rewrite length_app in H; simpl in H; replace (length c + 1 + (fuel - (length c + 1)))%nat with fuel in H by lia.
      rewrite <- !app_assoc in H; simpl in H; rewrite H; [|by apply has_dotdot_sep|apply Forall_app; by repeat constructor|lia].
      pose proof (IH ((c, x) :: st) (pre ++ c ++ [x]) (drop (length c + 1) rest) (fuel - (length c + 1))%nat) as H2.
      assert (length ((Some <$> (render ((c, x) :: st))) ++ drop (length c + 1) rest) = length ((Some <$> render st) ++ rest)) as El.
      { simpl; rewrite !length_app, !length_fmap, !length_app, length_drop; simpl; lia. }
      rewrite El in H2; simpl in H2; rewrite <- !app_assoc in H2; simpl in H2; apply H2; try done.
      * constructor; [split; [done|by right]|done].
      * lia.
      * rewrite length_drop; lia.
Qed.
End Reference.

(** ** [normpath] *)

Section Normpath.
Implicit Types (l st : list (text * Z)) (p c d e t path : text) (ret : buffer).

Definition nonzero (t : text) : Prop := Forall (fun x => x <> 0) t.

Lemma norm_components_nonzero l st st' : nonzero (render st) -> nonzero (flat l) -> norm_components st l = Some st' -> nonzero (render st').
Proof.
  unfold nonzero; revert st; induction l as [|[c x] l IH]; intros st Hs Hl; simpl; [by intros [=<-]|].
  unfold flat in Hl; simpl in Hl; apply Forall_app in Hl as [Hc Hl].
  unfold norm_component; destruct (decide _) as [->|Hd].
  - destruct st as [|[d y] st]; [apply IH; [done|done]|].
    destruct (decide _); [apply IH; [simpl; by apply Forall_app_2|done]|]; destruct (decide _); [done|].
    apply IH; [simpl in Hs; by apply Forall_app in Hs as [Hs _]|done].
  - destruct (has_dotdot c); [done|]; apply IH; [simpl; by apply Forall_app_2|done].
Qed.

Lemma norm_last_nonzero st e t : nonzero (render st) -> nonzero e -> norm_last st e = Some t -> nonzero t.
Proof.
  unfold nonzero, norm_last; intros Hs He; destruct (decide _).
  - destruct st as [|[d y] st]; [by intros [=<-]|]; destruct (decide _); [intros [=<-]; by apply Forall_app_2|].
    destruct (decide _); [done|]; intros [=<-]; simpl in Hs; by apply Forall_app in Hs as [Hs _].
  - destruct (has_dotdot e); [done|]; intros [=<-]; by apply Forall_app_2.
Qed.

Lemma isabs_total path : exists a, muggle_path_isabs path = Some a.
Proof.
  unfold muggle_path_isabs; assert (forall i, 0 <= i <= strlen path -> is_Some (char_at path i)) as Hin.
  { intros i Hi; unfold char_at, strlen in *; apply rd_is_Some; rewrite length_app; simpl; lia. }
  destruct (Hin 0) as [c ->]; [unfold strlen; lia|]; cbn [mbind option_bind]; destruct (_ && _); [by eexists|].
  destruct (Z.ltb_spec 2 (strlen path)); cbn [negb]; [|by eexists].
  destruct (Hin 1) as [c1 ->]; [lia|]; destruct (Hin 2) as [c2 ->]; [lia|]; by eexists.
Qed.

Lemma isabs_dot p : muggle_path_isabs (dot :: p) = Some false.
Proof.
  destruct (isabs_total (dot :: p)) as [a Ha]; rewrite Ha; f_equal; unfold muggle_path_isabs in Ha.
  change (char_at (dot :: p) 0) with (Some dot) in Ha; cbn [mbind option_bind] in Ha; cbv zeta in Ha.
  change (dot =? slash) with false in Ha; rewrite andb_false_r in Ha; destruct (negb _); [by simplify_eq|].
  destruct (char_at _ 1); [|done]; cbn [mbind option_bind] in Ha; destruct (char_at _ 2); [|done]; by injection Ha as <-.
Qed.

Lemma startswith_spec path q : q <> [] -> exists b, muggle_str_startswith (Some path) (Some q) = Some b /\ (b = true <-> q `prefix_of` path).
Proof.
  intros Hq; destruct (str_affix_correct path q) as (a & b & E & _ & H & _); exists a; split; [done|]; rewrite H; tauto.
Qed.

(** Whether [./] is skipped. *)
Definition skips path : bool := match path with a :: x :: _ => (a =? dot) && is_sep x | _ => false end.

Lemma skip_dot path : exists a s1 s2, muggle_path_isabs path = Some a /\
  muggle_str_startswith (Some path) (Some [dot; slash]) = Some s1 /\
  muggle_str_startswith (Some path) (Some [dot; backslash]) = Some s2 /\ negb a && (s1 || s2) = skips path.
Proof.
  destruct (isabs_total path) as [a Ha].
  destruct (startswith_spec path [dot; slash]) as (s1 & E1 & H1); [done|].
  destruct (startswith_spec path [dot; backslash]) as (s2 & E2 & H2); [done|].
  exists a, s1, s2; split; [done|]; split; [done|]; split; [done|].
  assert (forall y, [dot; y] `prefix_of` path <-> exists p, path = dot :: y :: p) as Hp by (intros; split; intros [p ->]; by exists p).
  rewrite Hp in H1, H2; apply eq_true_iff_eq; rewrite andb_true_iff, orb_true_iff, negb_true_iff, H1, H2; split.
  - intros [_ [[p ->]|[p ->]]]; done.
  - unfold skips; destruct path as [|c [|x p]]; try done; rewrite andb_true_iff, Z.eqb_eq; intros [-> Hx].
    rewrite isabs_dot in Ha; injection Ha as <-; split; [done|].
    unfold is_sep in Hx; apply orb_true_iff in Hx as [->%Z.eqb_eq| ->%Z.eqb_eq]; [left|right]; by exists p.
Qed.

(** The components after that. *)
Lemma skips_split path l e : split_path path = (l, e) ->
  exists pre l', path = pre ++ flat l' ++ e /\ Forall ended l' /\ Z.of_nat (length pre) = (if skips path then 2 else 0) /\
    l' = match l with (d, _) :: l' => if decide (d = [dot]) then l' else l | [] => [] end.
Proof.
  intros Hs; destruct (split_path_spec path l e Hs) as (Ep & Hl & He).
  destruct (skips path) eqn:Ek.
  - destruct path as [|c [|x p]]; simpl in Ek; try done; apply andb_true_iff in Ek as [->%Z.eqb_eq Hx].
    simpl in Hs; destruct (split_path p) as [l0 e0] eqn:Es; rewrite Hx in Hs; simpl in Hs; simplify_eq.
    exists [dot; x], l0; destruct (split_path_spec p l0 e Es) as (-> & Hl0 & _); done.
  - exists [], l; split; [done|]; split; [done|]; destruct l as [|[d x] l]; [done|]; rewrite decide_False; [done|].
    intros ->; inversion_clear Hl as [|? ? [_ Hx] _]; simpl in Hx; rewrite Ep in Ek; simpl in Ek; by rewrite Hx in Ek.
Qed.

(** C29: [normpath] is the normalisation of the components, for every path and
    every buffer that has two bytes more than the path: [./] at the beginning is
    dropped, [..] takes the component before it, if there is one, and the text
    is closed by a zero; two dots elsewhere, and a [..] above the root, are
    errors.  No access is outside of the buffer. *)
Theorem path_normpath_correct (path : text) (ret : buffer) (size : Z) (Hz : Forall (fun x => x <> 0) path)
  (Hs : Z.of_nat (length path) + 2 <= size) (Hs3 : 3 <= size < 2 ^ 31) (Hr : Z.of_nat (length ret) = size) :
  exists ret', match norm_path path with
  | Some t => muggle_path_normpath path ret size = Some (MUGGLE_OK, ret') /\ c_string ret' = Some t /\ length ret' = length ret
  | None => muggle_path_normpath path ret size = Some (MUGGLE_ERR_INVALID_PARAM, ret')
  end.
Proof.
  unfold muggle_path_normpath, norm_path; rewrite swrap_small, wrap_small by (unfold strlen, in_width; lia).
  rewrite (proj2 (Z.leb_gt _ _)) by (unfold strlen; lia).
  destruct (skip_dot path) as (a & s1 & s2 & -> & -> & -> & Ek); cbn [mbind option_bind]; cbv zeta; rewrite Ek.
  destruct (split_path path) as [l e] eqn:Es; destruct (skips_split path l e Es) as (pre & l' & Ep & Hl & Epre & El').
  destruct (split_path_spec path l e Es) as (_ & _ & He); rewrite <- El', <- Epre; clear El' Epre Ek Es l.
  rewrite Ep in Hz |- *; rewrite Ep in Hs; apply Forall_app in Hz as [_ Hz].
  pose proof (norm_loop_spec l' e [] pre ret (S (length (pre ++ flat l' ++ e)))) as H.
  change ((Some <$> render []) ++ ret) with ret in H; change (Z.of_nat (length (render []))) with 0 in H.
  set (run := norm_loop _ _ _ _ _) in H |- *.
  rewrite (length_app pre) in *; specialize (H ltac:(constructor) Hl He Hz ltac:(lia) ltac:(lia)).
  destruct (st ← norm_components [] l'; norm_last st e) as [t|] eqn:Et; cbn [norm_result] in H.
  2:{ destruct H as [ret' ->]; exists ret'; destruct (norm_components [] l') as [st|]; [|done]; simpl in Et |- *; by rewrite Et. }
  assert (nonzero t) as Hnt.
  { apply Forall_app in Hz as [Hzl Hze]; destruct (norm_components [] l') as [st|] eqn:Ec; [|done]; simpl in Et.
    eapply norm_last_nonzero; [|exact Hze|exact Et]; eapply norm_components_nonzero; [|exact Hzl|exact Ec]; constructor. }
  destruct H as (t' & rest' & -> & Ht & Hrest & Hlen); cbn [mbind option_bind].
  assert (norm_path_out : (st ← norm_components [] l'; t ← norm_last st e; Some (if decide (t = []) then [dot; slash] else t)) =
    Some (if decide (t = []) then [dot; slash] else t)).
  { destruct (norm_components [] l') as [st|]; [|done]; simpl in Et |- *; by rewrite Et. }
  rewrite norm_path_out; clear norm_path_out Et.
  destruct (decide (t = [])) as [->|Hne].
  - assert (t' = []) as -> by (destruct Ht as [|[? _]]; done); simpl in Hlen |- *.
    rewrite (proj2 (Z.leb_gt _ _)) by lia; destruct rest' as [|x [|y [|z rest']]]; simpl in Hlen; try lia.
    exists (Some dot :: Some slash :: Some 0 :: rest').
    assert (wr (x :: y :: z :: rest') 0 (Some dot) = Some (Some dot :: y :: z :: rest')) as -> by (by apply (wr_mid [])); cbn [mbind option_bind].
    assert (wr (Some dot :: y :: z :: rest') 1 (Some slash) = Some (Some dot :: Some slash :: z :: rest')) as -> by (by apply (wr_mid [_])); cbn [mbind option_bind].
    assert (wr (Some dot :: Some slash :: z :: rest') 2 (Some 0) = Some (Some dot :: Some slash :: Some 0 :: rest')) as -> by (by apply (wr_mid [_; _])).
    done.
  - assert (t' <> []) as Hne' by (destruct Ht as [->|[_ ->]]; [done|by destruct t]).
    rewrite (proj2 (Z.eqb_neq _ _)) by (destruct t'; [done|simpl; lia]); rewrite wr_text by done; cbn [mbind option_bind].
    eexists; split; [done|]; split.
    + destruct Ht as [->|[_ ->]]; rewrite !fmap_app, <- !app_assoc; by apply c_string_app.
    + rewrite <- Hlen, !length_app, !length_fmap, length_app, length_drop; simpl; destruct rest'; [done|simpl; lia].
Qed.
End Normpath.

(** ** [join], [dirname] and [basename] *)

Section Join.
Implicit Types (p d e t path : text) (ret rest : buffer).

(** The first part with a separator at its end, the second without one at its
    beginning. *)
Definition ends_sep p : bool := match last p with Some x => is_sep x | None => false end.
Definition join_left p : text := if ends_sep p then p else p ++ [slash].
Definition join_right p : text := match p with x :: p' => if x =? slash then p' else p | [] => [] end.

Lemma ends_sep_suffix p : ends_sep p = true <-> [slash] `suffix_of` p \/ [backslash] `suffix_of` p.
Proof.
  unfold ends_sep; destruct (list_snoc_case p) as [->|(p0 & x & ->)].
  - split; [done|]; intros [H%suffix_length|H%suffix_length]; simpl in H; lia.
  - rewrite last_snoc; unfold is_sep; rewrite orb_true_iff, !Z.eqb_eq; split.
    + intros [->| ->]; [left|right]; by apply suffix_app_r.
    + intros [[l E]|[l E]]; apply app_inj_tail in E as [_ ->]; tauto.
Qed.

Lemma endswith_spec path q : q <> [] -> exists b, muggle_str_endswith (Some path) (Some q) = Some b /\ (b = true <-> q `suffix_of` path).
Proof.
  intros Hq; destruct (str_affix_correct path q) as (a & b & _ & E & _ & H); exists b; split; [done|]; rewrite H; tauto.
Qed.

(** A copy that is closed by the zeros that fill it up. *)
Lemma strncpy_closed ret src n : Z.of_nat (length src) < n <= Z.of_nat (length ret) ->
  exists rest, strncpy ret 0 src n = Some ((Some <$> src) ++ Some 0 :: rest) /\ length ((Some <$> src) ++ Some 0 :: rest) = length ret.
Proof.
  intros Hn; destruct (strncpy_text [] ret src n) as (rest & E & Hl); [lia|]; simpl in E; change (Z.of_nat 0) with 0 in E.
  rewrite take_app_ge, take_replicate, Nat.min_l, fmap_app in E by lia.
  destruct (Z.to_nat n - length src)%nat as [|m] eqn:Em; [lia|]; simpl in E.
  eexists; rewrite E, <- app_assoc; simpl; split; [done|].
  rewrite !length_app; simpl; rewrite length_app, !length_fmap, length_replicate; lia.
Qed.

(** A copy of all characters, and a zero. *)
Lemma append_closed t rest src : nonzero (t ++ src) -> Z.of_nat (length src) < Z.of_nat (length rest) ->
  exists ret ret', strncpy ((Some <$> t) ++ rest) (Z.of_nat (length t)) src (Z.of_nat (length src)) = Some ret /\
    wr ret (Z.of_nat (length t) + Z.of_nat (length src)) (Some 0) = Some ret' /\ c_string ret' = Some (t ++ src).
Proof.
  intros Hz Hl; destruct (strncpy_text t rest src (Z.of_nat (length src))) as (rest' & E & Hr); [lia|].
  rewrite Nat2Z.id, take_app_length in E; rewrite app_assoc, <- fmap_app in E.
  eexists _, _; split; [done|]; split.
  - replace (Z.of_nat (length t) + Z.of_nat (length src)) with (Z.of_nat (length (t ++ src))) by (rewrite length_app; lia).
    apply wr_text, length_pos; lia.
  - rewrite fmap_app, <- app_assoc; by apply c_string_app.
Qed.

(** OK with the text [t] in the buffer if [P], or the error. *)
Definition outcome (P : Prop) `{!Decision P} (r : option (Z * buffer)) t : Prop :=
  if decide P then exists ret', r = Some (MUGGLE_OK, ret') /\ c_string ret' = Some t
  else exists ret', r = Some (MUGGLE_ERR_INVALID_PARAM, ret').

Lemma outcome_error (P : Prop) `{!Decision P} r t : ~ P -> (exists ret', r = Some (MUGGLE_ERR_INVALID_PARAM, ret')) -> outcome P r t.
Proof. intros H Hr; unfold outcome; by rewrite decide_False. Qed.

Lemma outcome_ok (P : Prop) `{!Decision P} r t : P -> (exists ret', r = Some (MUGGLE_OK, ret') /\ c_string ret' = Some t) -> outcome P r t.
Proof. intros H Hr; unfold outcome; by rewrite decide_True. Qed.

(** The copy and the zero at the end, if they fit. *)
Lemma join_copy t rest q size : nonzero (t ++ q) -> 1 < size < 2 ^ 31 -> Z.of_nat (length t) + Z.of_nat (length rest) = size ->
  Z.of_nat (length q) < 2 ^ 31 ->
  outcome (Z.of_nat (length (t ++ q)) < size)
    (if size - 1 <? u32 (Z.of_nat (length t) + Z.of_nat (length q)) then Some (MUGGLE_ERR_INVALID_PARAM, (Some <$> t) ++ rest)
     else ret ← strncpy ((Some <$> t) ++ rest) (Z.of_nat (length t)) q (Z.of_nat (length q));
       ret ← wr ret (Z.of_nat (length t) + Z.of_nat (length q)) (Some 0); Some (MUGGLE_OK, ret)) (t ++ q).
Proof.
  intros Hz Hs Hl Hq; rewrite wrap_small by (unfold in_width; lia).
  destruct (decide (Z.of_nat (length (t ++ q)) < size)) as [Hfit|Hno]; rewrite length_app in *.
  - apply outcome_ok; [lia|]; rewrite (proj2 (Z.ltb_ge _ _)) by lia.
    destruct (append_closed t rest q) as (r1 & r2 & E1 & E2 & E3); [done|lia|].
    exists r2; rewrite E1; cbn [mbind option_bind]; rewrite E2; done.
  - apply outcome_error; [lia|]; rewrite (proj2 (Z.ltb_lt _ _)) by lia; by eexists.
Qed.

Lemma join_tail_spec t rest path2 size : nonzero t -> nonzero path2 -> path2 <> [] -> 1 < size < 2 ^ 31 ->
  Z.of_nat (length t) + Z.of_nat (length rest) = size -> Z.of_nat (length path2) < 2 ^ 31 ->
  outcome (join_right path2 <> [] /\ Z.of_nat (length (t ++ join_right path2)) < size)
    (join_tail path2 (size - 1) ((Some <$> t) ++ rest) (Z.of_nat (length t)) (Z.of_nat (length t)) (Z.of_nat (length path2)))
    (t ++ join_right path2).
Proof.
  intros Hzt Hz2 Hne Hsize Hlen Hl2; destruct path2 as [|x p]; [done|]; unfold join_tail.
  change (char_at (x :: p) 0) with (Some x); cbn [mbind option_bind].
  assert (Hcopy : forall q, q <> [] -> nonzero q -> Z.of_nat (length q) < 2 ^ 31 -> forall r,
    outcome (Z.of_nat (length (t ++ q)) < size) r (t ++ q) -> outcome (q <> [] /\ Z.of_nat (length (t ++ q)) < size) r (t ++ q)).
  { intros q Hq _ _ r Ho; unfold outcome in *; destruct (decide (Z.of_nat (length (t ++ q)) < size)).
    - by rewrite decide_True by done.
    - by rewrite decide_False by tauto. }
  unfold join_right; destruct (Z.eqb_spec x slash) as [->|Hx]; cbn [andb].
  - inversion_clear Hz2 as [|? ? _ Hzp]; destruct p as [|y p]; [apply outcome_error; [tauto|]; by eexists|].
    rewrite (proj2 (Z.eqb_neq _ _)) by (simpl; lia).
    replace (Z.of_nat (length (slash :: y :: p)) - 1) with (Z.of_nat (length (y :: p))) by (simpl; lia).
    change (drop 1 (slash :: y :: p)) with (y :: p); simpl in Hl2.
    apply Hcopy; [done|done|simpl; lia|]; apply join_copy; try done; [by apply Forall_app_2|simpl; lia].
  - apply Hcopy; [done..|]; apply join_copy; try done; by apply Forall_app_2.
Qed.

(** [join] puts exactly one separator between two paths, takes one away at
    the beginning of the second, and closes the text: it fails exactly when a
    path is empty, nothing is left of the second one, or the text does not fit;
    this for a first path of at most [size - 2] characters. *)
Theorem path_join_correct (path1 path2 : text) (ret : buffer) (size : Z) (H1 : nonzero path1) (H2 : nonzero path2)
  (Hsize : 1 < size < 2 ^ 31) (Hret : Z.of_nat (length ret) = size) (Hl1 : Z.of_nat (length path1) + 1 < size)
  (Hl2 : Z.of_nat (length path2) < 2 ^ 31) :
  outcome (path1 <> [] /\ join_right path2 <> [] /\ Z.of_nat (length (join_left path1 ++ join_right path2)) < size)
    (muggle_path_join path1 path2 ret size) (join_left path1 ++ join_right path2).
Proof.
  unfold muggle_path_join; rewrite wrap_small by (unfold in_width; lia); rewrite (proj2 (Z.leb_gt _ _)) by lia.
  unfold strlen; rewrite !swrap_small by lia; cbv zeta.
  destruct path1 as [|a path1]; [apply outcome_error; [tauto|]; by eexists|]; destruct path2 as [|b path2].
  { apply outcome_error; [simpl; tauto|]; rewrite orb_true_r; by eexists. }
  rewrite (proj2 (Z.leb_gt (Z.of_nat (length (a :: path1))) 0)) by (simpl; lia).
  rewrite (proj2 (Z.leb_gt (Z.of_nat (length (b :: path2))) 0)) by (simpl; lia); cbn [orb].
  assert (b <> 0) as Hb by (by inversion_clear H2); assert (char_at (b :: path2) 0 = Some b) as Ec by done.
  assert (a :: path1 <> [] /\ b :: path2 <> []) as [Hne1 Hne2] by done.
  revert Hl1 Hl2 H1 H2 Ec Hne1 Hne2; generalize (a :: path1) (b :: path2); clear path1 path2; intros p1 p2 Hl1 Hl2 H1 H2 Ec Hne1 Hne2.
  rewrite wrap_small by (unfold in_width; lia); rewrite (proj2 (Z.ltb_ge _ _)) by lia.
  destruct (strncpy_closed ret p1 (size - 1)) as (rest & -> & Hlen); [lia|]; cbn [mbind option_bind]; rewrite Ec.
  cbn [mbind option_bind]; rewrite (proj2 (Z.eqb_neq _ _) Hb), c_string_app by done; cbn [mbind option_bind].
  destruct (endswith_spec p1 [slash]) as (e1 & -> & He1); [done|]; destruct (endswith_spec p1 [backslash]) as (e2 & -> & He2); [done|].
  cbn [mbind option_bind]; pose proof (ends_sep_suffix p1) as He; rewrite <- He1, <- He2 in He.
  rewrite length_app, length_fmap in Hlen; simpl in Hlen.
  assert (Hjoin : forall t rest, t = join_left p1 -> Z.of_nat (length t) + Z.of_nat (length rest) = size ->
    outcome (p1 <> [] /\ join_right p2 <> [] /\ Z.of_nat (length (join_left p1 ++ join_right p2)) < size)
      (join_tail p2 (size - 1) ((Some <$> t) ++ rest) (Z.of_nat (length t)) (Z.of_nat (length t)) (Z.of_nat (length p2)))
      (join_left p1 ++ join_right p2)).
  { intros t rest' Et Hlt; rewrite <- Et; assert (nonzero t) as Hzt.
    { rewrite Et; unfold join_left; destruct (ends_sep p1); [done|]; by apply Forall_app_2; [|repeat constructor]. }
    pose proof (join_tail_spec t rest' p2 size Hzt H2 Hne2 Hsize Hlt Hl2) as Ho; unfold outcome in Ho |- *.
    destruct (decide (join_right p2 <> [] /\ Z.of_nat (length (t ++ join_right p2)) < size)).
    - by rewrite decide_True by tauto.
    - by rewrite decide_False by tauto. }
  unfold join_left in Hjoin at 1; destruct (ends_sep p1) eqn:Es.
  - assert (negb e1 && negb e2 = false) as -> by (destruct (proj1 He eq_refl) as [->| ->]; [done|by rewrite andb_false_r]).
    apply (Hjoin p1 (Some 0 :: rest)); [done|simpl; lia].
  - assert (e1 = false /\ e2 = false) as [-> ->].
    { destruct e1, e2; try done; by assert (false = true) by (apply He; tauto). }
    cbn [negb andb]; rewrite (proj2 (Z.leb_gt _ _)) by lia; rewrite wr_text by done; cbn [mbind option_bind drop].
    replace (Z.of_nat (length p1) + 1) with (Z.of_nat (length (p1 ++ [slash]))) by (rewrite length_app; simpl; lia).
    apply (Hjoin (p1 ++ [slash]) rest); [done|rewrite length_app; simpl; lia].
Qed.

(** [dir], which is empty or ends with a separator, and [base] without one. *)
Lemma last_sep_spec (dir base rest : text) : no_sep base -> dir = [] \/ ends_sep dir = true ->
  last_sep (dir ++ base ++ rest) (length (dir ++ base)) = Some (Z.of_nat (length dir) - 1).
Proof.
  intros Hb Hd; revert rest; induction base as [|a base IH] using rev_ind; intros rest.
  - rewrite app_nil_r; destruct (list_snoc_case dir) as [->|(d & x & ->)]; [done|].
    destruct Hd as [Hd|Hd]; [by destruct d|]; unfold ends_sep in Hd; rewrite last_snoc in Hd.
    rewrite length_app, Nat.add_1_r, <- app_assoc; simpl; rewrite char_at_app; simpl; rewrite Hd; f_equal; lia.
  - apply Forall_app in Hb as [Hb Ha]; inversion_clear Ha as [|? ? Ha' _].
    replace (length (dir ++ base ++ [a])) with (S (length (dir ++ base))) by (rewrite !length_app; simpl; lia); cbn [last_sep].
    replace (dir ++ (base ++ [a]) ++ rest) with ((dir ++ base) ++ a :: rest) by (rewrite <- !app_assoc; done).
    rewrite char_at_app; cbn [mbind option_bind]; rewrite Ha', <- app_assoc; by apply (IH Hb).
Qed.

(** A closed copy of [n] characters. *)
Lemma memcpy_closed ret path i n : 0 <= i -> 0 <= n -> i + n <= Z.of_nat (length path) -> n < Z.of_nat (length ret) -> nonzero path ->
  exists r1 r2, memcpy ret path i n = Some r1 /\ wr r1 n (Some 0) = Some r2 /\ c_string r2 = Some (slice path i n).
Proof.
  intros Hi Hn Hl Hr Hz; unfold memcpy; rewrite decide_True, copy_out_Some by done; cbn [mbind option_bind].
  pose proof (slice_length path i n Hi Hn Hl) as El; set (s := slice path i n) in *.
  rewrite copy_in_Some by (rewrite ?length_fmap; lia); unfold blit; rewrite length_fmap; simpl.
  eexists _, _; split; [done|]; split.
  - rewrite <- El; apply wr_text, length_pos; rewrite length_drop; lia.
  - rewrite fmap_app, <- app_assoc; apply c_string_app; unfold s, slice; by apply Forall_take, Forall_drop.
Qed.

(** [basename]: the characters after the last separator, as many as fit. *)
Lemma basename_spec dir base ret size : nonzero (dir ++ base) -> no_sep base -> dir = [] \/ ends_sep dir = true ->
  1 < size < 2 ^ 31 -> Z.of_nat (length ret) = size -> Z.of_nat (length (dir ++ base)) < 2 ^ 31 ->
  (dir = [] -> Z.of_nat (length base) <> size - 1) ->
  outcome (base <> [] /\ (dir <> [] \/ Z.of_nat (length base) < size)) (muggle_path_basename (dir ++ base) ret size) (take (Z.to_nat (size - 1)) base).
Proof.
  intros Hz Hb Hd Hs Hr Hl Hne; unfold muggle_path_basename; rewrite (proj2 (Z.leb_gt _ _)) by lia.
  unfold strlen; rewrite swrap_small by lia; cbv zeta; rewrite length_app in Hl.
  destruct (decide (dir ++ base = [])) as [E|Hnil].
  { apply app_eq_nil in E as [-> ->]; apply outcome_error; [tauto|]; by eexists. }
  rewrite (proj2 (Z.leb_gt (Z.of_nat (length (dir ++ base))) 0)) by (destruct (dir ++ base); [done|simpl; lia]); rewrite Nat2Z.id.
  pose proof (last_sep_spec dir base [] Hb Hd) as El; rewrite app_nil_r in El; rewrite El; cbn [mbind option_bind].
  destruct dir as [|x dir].
  - simpl (Z.of_nat (length []) - 1 <? 0); cbv iota; simpl app in *; simpl in Hl; rewrite wrap_small by (unfold in_width; lia).
    specialize (Hne eq_refl); destruct (Z.ltb_spec (size - 1) (Z.of_nat (length base))) as [Hbig|Hfit].
    + apply outcome_error; [intros [_ [H|H]]; [done|lia]|]; by eexists.
    + apply outcome_ok; [split; [done|right; lia]|]; destruct (strncpy_closed ret base (size - 1)) as (rest & -> & _); [lia|].
      eexists; split; [done|]; rewrite c_string_app, take_ge by (done || lia); done.
  - rewrite (proj2 (Z.ltb_ge _ 0)) by (simpl; lia); rewrite !length_app in *.
    replace (Z.of_nat (length (x :: dir) + length base) - 1 - (Z.of_nat (length (x :: dir)) - 1)) with (Z.of_nat (length base)) by lia.
    destruct base as [|b base]; [apply outcome_error; [tauto|]; by eexists|]; rewrite (proj2 (Z.leb_gt (Z.of_nat (length (b :: base))) 0)) by (simpl; lia).
    apply outcome_ok; [split; [done|by left]|]; rewrite wrap_small by (unfold in_width; lia).
    assert (exists n, (if size <=? Z.of_nat (length (b :: base)) then swrap 32 (size - 1) else Z.of_nat (length (b :: base))) = n /\
      0 <= n < size /\ n <= Z.of_nat (length (b :: base)) /\ take (Z.to_nat n) (b :: base) = take (Z.to_nat (size - 1)) (b :: base)) as (n & -> & Hn1 & Hn2 & En).
    { rewrite swrap_small by lia; destruct (Z.leb_spec size (Z.of_nat (length (b :: base)))) as [Hbig|Hfit].
      - exists (size - 1); split_and!; try done; lia.
      - exists (Z.of_nat (length (b :: base))); split_and!; try lia; rewrite !take_ge by lia; done. }
    replace (Z.of_nat (length (x :: dir)) - 1 + 1) with (Z.of_nat (length (x :: dir))) by lia.
    destruct (memcpy_closed ret ((x :: dir) ++ b :: base) (Z.of_nat (length (x :: dir))) n) as (r1 & r2 & -> & E2 & E3);
      [lia|lia|rewrite length_app; lia|lia|done|].
    cbn [mbind option_bind]; rewrite E2; cbn [mbind option_bind]; exists r2; split; [done|]; rewrite E3, <- En; unfold slice.
    by rewrite Nat2Z.id, drop_app_length.
Qed.

(** [dirname]: what is before the last separator, and the separator where it is
    the root. *)
Definition dir_of (d : text) (x : Z) : text :=
  if decide (d = [] \/ (2 <= length d)%nat /\ last d = Some 58) then d ++ [x] else d.

Lemma dirname_spec d x base ret size : nonzero (d ++ x :: base) -> no_sep base -> is_sep x = true ->
  1 < size < 2 ^ 31 -> Z.of_nat (length ret) = size -> Z.of_nat (length (d ++ x :: base)) < 2 ^ 31 ->
  outcome (Z.of_nat (length (dir_of d x)) < size) (muggle_path_dirname (d ++ x :: base) ret size) (dir_of d x).
Proof.
  intros Hz Hb Hx Hs Hr Hl; unfold muggle_path_dirname; rewrite (proj2 (Z.leb_gt size 1)) by lia.
  unfold strlen; rewrite swrap_small by lia; cbv zeta; rewrite length_app in Hl; simpl in Hl.
  rewrite (proj2 (Z.leb_gt _ 0)) by (rewrite length_app; simpl; lia); rewrite Nat2Z.id.
  assert (last_sep (d ++ x :: base) (length (d ++ x :: base)) = Some (Z.of_nat (length d))) as ->.
  { pose proof (last_sep_spec (d ++ [x]) base [] Hb) as El; rewrite app_nil_r, <- app_assoc in El; simpl in El.
    rewrite El, (length_app d [x]); [simpl; f_equal; lia|]; right; unfold ends_sep; by rewrite last_snoc. }
  cbn [mbind option_bind]; rewrite (proj2 (Z.ltb_ge _ 0)) by lia.
  assert (exists pos, Z.of_nat (length (dir_of d x)) = pos /\ slice (d ++ x :: base) 0 pos = dir_of d x /\ pos <= Z.of_nat (length (d ++ x :: base)) /\
    forall (K : Z -> option (Z * buffer)),
      (drive ← (if 0 <? (if Z.of_nat (length d) =? 0 then 1 else Z.of_nat (length d)) - 1
                then c ← char_at (d ++ x :: base) ((if Z.of_nat (length d) =? 0 then 1 else Z.of_nat (length d)) - 1); Some (c =? 58)
                else Some false);
       K (if drive : bool then (if Z.of_nat (length d) =? 0 then 1 else Z.of_nat (length d)) + 1
          else (if Z.of_nat (length d) =? 0 then 1 else Z.of_nat (length d)))) = K pos) as (pos & Epos & Esl & Hpos & HK).
  { assert (forall n, slice (d ++ x :: base) 0 n = take (Z.to_nat n) (d ++ x :: base)) as Hsl by done.
    assert (take (Z.to_nat (Z.of_nat (length d) + 1)) (d ++ x :: base) = d ++ [x]) as Htake.
    { replace (d ++ x :: base) with ((d ++ [x]) ++ base) by (rewrite <- app_assoc; done).
      apply take_app_length'; rewrite length_app; simpl; lia. }
    unfold dir_of; destruct (list_snoc_case d) as [->|(d0 & y & ->)].
    - rewrite decide_True by tauto; exists 1; split_and!; try done; simpl; lia.
    - rewrite (proj2 (Z.eqb_neq (Z.of_nat (length (d0 ++ [y]))) 0)) by (rewrite length_app; simpl; lia).
      assert (Z.of_nat (length (d0 ++ [y])) - 1 = Z.of_nat (length d0)) as -> by (rewrite length_app; simpl; lia).
      rewrite last_snoc; destruct (Z.ltb_spec 0 (Z.of_nat (length d0))) as [Hd0|Hd0].
      + assert (char_at ((d0 ++ [y]) ++ x :: base) (Z.of_nat (length d0)) = Some y) as -> by (rewrite <- app_assoc; apply char_at_app).
        cbn [mbind option_bind]; destruct (Z.eqb_spec y 58) as [->|Hy].
        * rewrite decide_True by (right; rewrite length_app; simpl; split; [lia|done]).
          exists (Z.of_nat (length (d0 ++ [58])) + 1); split_and!; try done; [rewrite length_app; simpl; lia|rewrite (length_app (d0 ++ [58])); simpl; lia].
        * rewrite decide_False by (intros [H|[_ H]]; [by destruct d0|congruence]).
          exists (Z.of_nat (length (d0 ++ [y]))); split_and!; try done; [rewrite Hsl, Nat2Z.id; apply take_app_length|rewrite (length_app (d0 ++ [y])); lia].
      + rewrite decide_False by (rewrite length_app; simpl; intros [H|[H _]]; [by destruct d0|lia]).
        exists (Z.of_nat (length (d0 ++ [y]))); split_and!; try done; [rewrite Hsl, Nat2Z.id; apply take_app_length|rewrite (length_app (d0 ++ [y])); lia]. }
  rewrite (HK (fun pos => if swrap 32 size <=? pos then Some (MUGGLE_ERR_INVALID_PARAM, ret)
    else ret ← memcpy ret (d ++ x :: base) 0 pos; ret ← wr ret pos (Some 0); Some (MUGGLE_OK, ret))).
  rewrite swrap_small by lia; destruct (Z.leb_spec size pos) as [Hbig|Hfit].
  - apply outcome_error; [lia|]; by eexists.
  - apply outcome_ok; [lia|]; destruct (memcpy_closed ret (d ++ x :: base) 0 pos) as (r1 & r2 & -> & E2 & E3); [lia|lia|lia|lia|done|].
    cbn [mbind option_bind]; rewrite E2; cbn [mbind option_bind]; exists r2; split; [done|]; by rewrite E3, Esl.
Qed.

(** A path whose last separator is a single slash is what [join] makes of
    its [dirname] and its [basename]. *)
Theorem path_split_join (d base : text) (r1 r2 r3 : buffer) (size : Z)
  (Hz : nonzero (d ++ slash :: base)) (Hd : ends_sep d = false) (Hb : no_sep base) (Hne : base <> [])
  (Hsize : size < 2 ^ 31) (Hfit : Z.of_nat (length (d ++ slash :: base)) + 1 < size)
  (H1 : Z.of_nat (length r1) = size) (H2 : Z.of_nat (length r2) = size) (H3 : Z.of_nat (length r3) = size) :
  exists b1 b2 b3 dir, muggle_path_dirname (d ++ slash :: base) r1 size = Some (MUGGLE_OK, b1) /\ c_string b1 = Some dir /\
    muggle_path_basename (d ++ slash :: base) r2 size = Some (MUGGLE_OK, b2) /\ c_string b2 = Some base /\
    muggle_path_join dir base r3 size = Some (MUGGLE_OK, b3) /\ c_string b3 = Some (d ++ slash :: base).
Proof.
  assert (Z.of_nat (length (d ++ slash :: base)) = Z.of_nat (length d) + 1 + Z.of_nat (length base)) as El by (rewrite length_app; simpl; lia).
  assert (0 < Z.of_nat (length base)) as Hb0 by (destruct base; [done|simpl; lia]).
  pose proof Hz as Hz'; apply Forall_app in Hz as [Hzd Hzb]; inversion_clear Hzb as [|? ? _ Hzb'].
  assert (Z.of_nat (length (dir_of d slash)) <= Z.of_nat (length d) + 1 /\ nonzero (dir_of d slash)) as [Hdl Hdz].
  { unfold dir_of; destruct (decide _); rewrite ?length_app; simpl; split; try done; try lia; by apply Forall_app_2; [|repeat constructor]. }
  pose proof (dirname_spec d slash base r1 size Hz' Hb eq_refl ltac:(lia) H1 ltac:(lia)) as Ho; unfold outcome in Ho; rewrite decide_True in Ho by lia.
  destruct Ho as (b1 & E1 & F1).
  replace (d ++ slash :: base) with ((d ++ [slash]) ++ base) in * by (rewrite <- app_assoc; done).
  pose proof (basename_spec (d ++ [slash]) base r2 size Hz' Hb) as Ho; unfold outcome in Ho; rewrite decide_True, take_ge in Ho.
  2:{ lia. }
  2:{ split; [done|]; left; by destruct d. }
  destruct Ho as (b2 & E2 & F2); [right; unfold ends_sep; by rewrite last_snoc|lia|done|lia|by destruct d|].
  pose proof (path_join_correct (dir_of d slash) base r3 size Hdz Hzb' ltac:(lia) H3 ltac:(lia) ltac:(lia)) as Ho.
  assert (join_left (dir_of d slash) = d ++ [slash]) as Ej.
  { unfold join_left, dir_of; destruct (decide _); [unfold ends_sep; by rewrite last_snoc|by rewrite Hd]. }
  assert (join_right base = base) as Er.
  { destruct base as [|x base]; [done|]; inversion_clear Hb as [|? ? Hx _]; simpl; unfold is_sep in Hx; by apply orb_false_iff in Hx as [-> _]. }
  rewrite Ej, Er in Ho; unfold outcome in Ho; rewrite decide_True in Ho.
  2:{ split; [|split; [done|lia]]; apply length_pos; unfold dir_of; destruct d as [|y d]; [simpl; lia|]; simpl; clear; destruct (decide _); simpl; lia. }
  destruct Ho as (b3 & E3 & F3); by exists b1, b2, b3, (dir_of d slash).
Qed.
End Join.

(** A relative path: [join] with the current directory, and [normpath]. *)
Lemma path_abspath_relative path dir ret size : muggle_path_isabs path = Some false -> nonzero path -> nonzero dir ->
  path <> [] -> dir <> [] -> join_right path <> [] -> Z.of_nat (length dir) + 1 < MUGGLE_MAX_PATH ->
  Z.of_nat (length path) < 2 ^ 31 ->
  let full := join_left dir ++ join_right path in
  Z.of_nat (length full) < MUGGLE_MAX_PATH -> Z.of_nat (length full) + 2 <= size -> 3 <= size < 2 ^ 31 -> Z.of_nat (length ret) = size ->
  outcome (norm_path full <> None) (muggle_path_abspath path ret size (inr dir)) (default [] (norm_path full)).
Proof.
  intros Ha Hzp Hzd Hp Hd Hj Hld Hlp full Hlf Hs Hs3 Hr; unfold muggle_path_abspath; rewrite (proj2 (Z.leb_gt _ _)), Ha by lia.
  cbn [mbind option_bind].
  pose proof (path_join_correct dir path (uninit MUGGLE_MAX_PATH) MUGGLE_MAX_PATH Hzd Hzp ltac:(unfold MUGGLE_MAX_PATH; lia)) as Ho.
  unfold uninit at 1 in Ho; rewrite length_replicate in Ho; specialize (Ho ltac:(done) Hld Hlp); unfold outcome in Ho.
  rewrite decide_True in Ho by done; destruct Ho as (b & -> & Eb); cbn [mbind option_bind]; fold full in Eb |- *.
  change (negb (MUGGLE_OK =? MUGGLE_OK)) with false; cbv iota; rewrite Eb; cbn [mbind option_bind].
  assert (nonzero full) as Hzf.
  { apply Forall_app_2; [unfold join_left; destruct (ends_sep dir); [done|]; by apply Forall_app_2; [|repeat constructor]|].
    destruct path as [|x p]; [done|]; inversion_clear Hzp as [|? ? Hx Hzp']; simpl; destruct (x =? slash); [done|by constructor]. }
  destruct (path_normpath_correct full ret size Hzf Hs Hs3 Hr) as (ret' & H); unfold outcome.
  destruct (norm_path full) as [t|]; [rewrite decide_True by done|rewrite decide_False by tauto]; exists ret'; [|done].
  split; apply H.
Qed.

(** ** Witnesses *)

(** ["./a/b/../c"]. *)
Definition sample_path : text := [46; 47; 97; 47; 98; 47; 46; 46; 47; 99].

Lemma path_normpath_correct_witness :
  exists ret', muggle_path_normpath sample_path (uninit 12) 12 = Some (MUGGLE_OK, ret') /\ c_string ret' = Some [97; 47; 99].
Proof.
  destruct (path_normpath_correct sample_path (uninit 12) 12) as (ret' & H).
  - repeat constructor; discriminate.
  - vm_compute; discriminate.
  - lia.
  - reflexivity.
  - exists ret'; replace (norm_path sample_path) with (Some [97; 47; 99]) in H by (vm_compute; reflexivity).
    destruct H as (H1 & H2 & _); split; [exact H1|exact H2].
Defined.

(** ["b/"] and ["/c"]. *)
Lemma path_join_correct_witness :
  outcome True (muggle_path_join [98; 47] [47; 99] (uninit 8) 8) [98; 47; 99].
Proof.
  assert (H : outcome ([98; 47] <> [] /\ join_right [47; 99] <> [] /\ Z.of_nat (length (join_left [98; 47] ++ join_right [47; 99])) < 8)
    (muggle_path_join [98; 47] [47; 99] (uninit 8) 8) (join_left [98; 47] ++ join_right [47; 99])).
  { apply path_join_correct; [repeat constructor; discriminate|repeat constructor; discriminate|lia|reflexivity|simpl; lia|simpl; lia]. }
  unfold outcome in *; rewrite decide_True in H by (split; [discriminate|split; [discriminate|vm_compute; reflexivity]]).
  rewrite decide_True by exact I; exact H.
Defined.

(** ["/a/b"]. *)
Lemma path_split_join_witness :
  exists b1 b2 b3 dir, muggle_path_dirname [47; 97; 47; 98] (uninit 8) 8 = Some (MUGGLE_OK, b1) /\ c_string b1 = Some dir /\
    muggle_path_basename [47; 97; 47; 98] (uninit 8) 8 = Some (MUGGLE_OK, b2) /\ c_string b2 = Some [98] /\
    muggle_path_join dir [98] (uninit 8) 8 = Some (MUGGLE_OK, b3) /\ c_string b3 = Some [47; 97; 47; 98].
Proof.
  apply (path_split_join [47; 97] [98]); try reflexivity; try (simpl; lia); try discriminate; repeat constructor; discriminate.
Defined.

(** ** What modelling showed *)

(** [".."] and a buffer of three bytes, one more than the path: the fourth byte
    is written. *)
Theorem path_normpath_overflow_defect : muggle_path_normpath dotdot (uninit 3) 3 = None.
Proof. reflexivity. Qed.

(** A name that fills the buffer but for one byte is not closed: in [basename],
    in [abspath], and in [join], which then reads behind the buffer. *)
Theorem path_unterminated_defect :
  (exists b, muggle_path_basename [97; 98] (uninit 3) 3 = Some (MUGGLE_OK, b) /\ c_string b = None) /\
  (exists b, muggle_path_abspath [47; 98] (uninit 3) 3 (inl 0) = Some (MUGGLE_OK, b) /\ c_string b = None) /\
  muggle_path_join [97; 98] [99] (uninit 3) 3 = None.
Proof. split; [eexists; split; reflexivity|]; split; [eexists; split; reflexivity|reflexivity]. Qed.

(** The root is no absolute path, and has none: ["/"] in ["/a"]. *)
Theorem path_root_defect : muggle_path_isabs [slash] = Some false /\
  muggle_path_abspath [slash] (uninit 8) 8 (inr [47; 97]) = Some (MUGGLE_ERR_INVALID_PARAM, uninit 8).
Proof. split; vm_compute; reflexivity. Qed.

(** ["././a"] has the normal form ["./a"], and that the normal form ["a"];
    ["a..b"], a name, has none. *)
Theorem path_normpath_not_idempotent_defect :
  norm_path [46; 47; 46; 47; 97] = Some [46; 47; 97] /\ norm_path [46; 47; 97] = Some [97] /\
  norm_path [97; 46; 46; 98] = None.
Proof. repeat split; vm_compute; reflexivity. Qed.
