(* ===== verification/BytesBuffer.v ===== *)
(** * The bytes buffer of [memory/bytes_buffer.c]

    A ring of bytes with a read cursor [r], a write cursor [w], a capacity
    [c] and a truncation position [t].  The operations below follow the C
    functions one by one; [None] stands for undefined behaviour (a [memcpy]
    that leaves its block), [Some] for a call that returns.  The buffer is
    specified by the FIFO of its bytes, [content]. *)
From S2P Require Import Prelude.

(** [muggle_bytes_buffer_t]; the buffer is [None] when it is NULL. *)
Record muggle_bytes_buffer := BB {
  bb_c : Z;
  bb_w : Z;
  bb_r : Z;
  bb_t : Z;
  bb_buffer : option (list Z)
}.

Definition set_w b w := BB (bb_c b) w (bb_r b) (bb_t b) (bb_buffer b).
Definition set_r b r := BB (bb_c b) (bb_w b) r (bb_t b) (bb_buffer b).
Definition set_t b t := BB (bb_c b) (bb_w b) (bb_r b) t (bb_buffer b).
Definition set_buffer b m := BB (bb_c b) (bb_w b) (bb_r b) (bb_t b) m.

(** [memcpy(dst, b->buffer + off, n)]: the bytes that land in [dst]. *)
Definition memcpy_from (b : muggle_bytes_buffer) (off n : Z) : option (list Z) :=
  m ← bb_buffer b; copy_out m off n.

(** [memcpy(b->buffer + off, src + soff, n)]. *)
Definition memcpy_to (b : muggle_bytes_buffer) (off : Z) (src : list Z) (soff n : Z)
  : option muggle_bytes_buffer :=
  bs ← copy_out src soff n;
  m ← bb_buffer b;
  m' ← copy_in m off bs;
  Some (set_buffer b (Some m')).

(** ** Operations *)

Definition muggle_bytes_buffer_contiguous_writable (b : muggle_bytes_buffer) : Z :=
  if bb_w b >=? bb_r b then
    if negb (bb_r b =? 0) then bb_c b - bb_w b
    else bb_c b - bb_w b - 1
  else bb_r b - bb_w b - 1.

Definition muggle_bytes_buffer_jump_writable (b : muggle_bytes_buffer) : Z :=
  if bb_w b >=? bb_r b then
    if negb (bb_r b =? 0) then bb_r b - 1 else 0
  else 0.

Definition muggle_bytes_buffer_jump_readable (b : muggle_bytes_buffer) : Z :=
  if bb_w b >=? bb_r b then 0 else bb_w b.

Definition muggle_bytes_buffer_clear (b : muggle_bytes_buffer) : muggle_bytes_buffer :=
  BB (bb_c b) 0 0 (bb_c b) (bb_buffer b).

Definition muggle_bytes_buffer_refresh (b : muggle_bytes_buffer) : muggle_bytes_buffer :=
  if bb_w b =? bb_r b then muggle_bytes_buffer_clear b else b.

(** [malloc] is the argument [mem]: the block it returns, [None] for NULL. *)
Definition muggle_bytes_buffer_init (capacity : Z) (mem : option (list Z))
  : bool * muggle_bytes_buffer :=
  match mem with
  | None => (false, BB 0 0 0 0 None)
  | Some m => (true, BB capacity 0 0 capacity (Some m))
  end.

Definition muggle_bytes_buffer_destroy (b : muggle_bytes_buffer) : muggle_bytes_buffer :=
  match bb_buffer b with
  | Some _ => set_buffer b None
  | None => b
  end.

Definition muggle_bytes_buffer_contiguous_readable (b : muggle_bytes_buffer) : Z :=
  if bb_w b >=? bb_r b then bb_w b - bb_r b else bb_t b - bb_r b.

Definition muggle_bytes_buffer_writable (b : muggle_bytes_buffer) : Z :=
  let cw := muggle_bytes_buffer_contiguous_writable b in
  let jw := muggle_bytes_buffer_jump_writable b in
  cw + jw.

Definition muggle_bytes_buffer_readable (b : muggle_bytes_buffer) : Z :=
  let cr := muggle_bytes_buffer_contiguous_readable b in
  let jr := muggle_bytes_buffer_jump_readable b in
  cr + jr.

(** The result is [Some dst] when the call returns true and has filled
    [dst], [None] when it returns false. *)
Definition muggle_bytes_buffer_fetch (b : muggle_bytes_buffer) (num_bytes : Z)
  : option (option (list Z)) :=
  let cr := muggle_bytes_buffer_contiguous_readable b in
  if cr >=? num_bytes then
    dst ← memcpy_from b (bb_r b) num_bytes; Some (Some dst)
  else
    let jr := muggle_bytes_buffer_jump_readable b in
    if cr + jr <? num_bytes then Some None
    else
      dst1 ← (if cr >? 0 then memcpy_from b (bb_r b) cr else Some []);
      let remain := num_bytes - cr in
      dst2 ← memcpy_from b 0 remain;
      Some (Some (dst1 ++ dst2)).

Definition muggle_bytes_buffer_read (b : muggle_bytes_buffer) (num_bytes : Z)
  : option (option (list Z) * muggle_bytes_buffer) :=
  let cr := muggle_bytes_buffer_contiguous_readable b in
  if cr >=? num_bytes then
    dst ← memcpy_from b (bb_r b) num_bytes;
    let b := set_r b (bb_r b + num_bytes) in
    let b := if bb_r b =? bb_t b then set_r b 0 else b in
    Some (Some dst, muggle_bytes_buffer_refresh b)
  else
    let jr := muggle_bytes_buffer_jump_readable b in
    if cr + jr <? num_bytes then Some (None, b)
    else
      dst1 ← (if cr >? 0 then memcpy_from b (bb_r b) cr else Some []);
      let remain := num_bytes - cr in
      dst2 ← memcpy_from b 0 remain;
      let b := set_r b remain in
      Some (Some (dst1 ++ dst2), muggle_bytes_buffer_refresh b).

Definition muggle_bytes_buffer_write (b : muggle_bytes_buffer) (num_bytes : Z) (src : list Z)
  : option (bool * muggle_bytes_buffer) :=
  let cw := muggle_bytes_buffer_contiguous_writable b in
  if cw >=? num_bytes then
    b ← memcpy_to b (bb_w b) src 0 num_bytes;
    let b := set_w b (bb_w b + num_bytes) in
    let b := if bb_t b <? bb_w b then set_t b (bb_c b) else b in
    let b := if bb_w b =? bb_c b then set_w b 0 else b in
    Some (true, b)
  else
    let jw := muggle_bytes_buffer_jump_writable b in
    if cw + jw <? num_bytes then Some (false, b)
    else if jw >=? num_bytes then
      let b := set_t b (bb_w b) in
      b ← memcpy_to b 0 src 0 num_bytes;
      Some (true, set_w b num_bytes)
    else
      let b := set_t b (bb_c b) in
      b ← (if cw >? 0 then memcpy_to b (bb_w b) src 0 cw else Some b);
      let remain := num_bytes - cw in
      b ← memcpy_to b 0 src cw remain;
      Some (true, set_w b remain).

(** The returned pointer is an offset into the buffer, [None] is NULL. *)
Definition muggle_bytes_buffer_writer_fc (b : muggle_bytes_buffer) (num_bytes : Z)
  : option Z :=
  let cw := muggle_bytes_buffer_contiguous_writable b in
  if cw >=? num_bytes then Some (bb_w b)
  else
    let jw := muggle_bytes_buffer_jump_writable b in
    if jw >=? num_bytes then Some 0 else None.

Definition muggle_bytes_buffer_writer_move (b : muggle_bytes_buffer) (num_bytes : Z)
  : bool * muggle_bytes_buffer :=
  let cw := muggle_bytes_buffer_contiguous_writable b in
  if cw >=? num_bytes then
    let b := set_w b (bb_w b + num_bytes) in
    let b := if bb_t b <? bb_w b then set_t b (bb_c b) else b in
    let b := if bb_w b =? bb_c b then set_w b 0 else b in
    (true, b)
  else
    let jw := muggle_bytes_buffer_jump_writable b in
    if jw >=? num_bytes then
      let b := set_t b (bb_w b) in
      (true, set_w b num_bytes)
    else (false, b).

Definition muggle_bytes_buffer_writer_move_n (b : muggle_bytes_buffer) (ptr num_bytes : Z)
  : bool * muggle_bytes_buffer :=
  if ptr =? 0 then
    let b := if bb_w b >? 0 then set_t b (bb_w b) else b in
    (true, set_w b num_bytes)
  else
    let b := set_w b (bb_w b + num_bytes) in
    let b := if bb_t b <? bb_w b then set_t b (bb_c b) else b in
    let b := if bb_w b =? bb_c b then set_w b 0 else b in
    (true, b).

Definition muggle_bytes_buffer_reader_fc (b : muggle_bytes_buffer) (num_bytes : Z)
  : option Z :=
  let cr := muggle_bytes_buffer_contiguous_readable b in
  if cr >=? num_bytes then Some (bb_r b) else None.

Definition muggle_bytes_buffer_reader_move (b : muggle_bytes_buffer) (num_bytes : Z)
  : bool * muggle_bytes_buffer :=
  let cr := muggle_bytes_buffer_contiguous_readable b in
  if cr >=? num_bytes then
    let b := set_r b (bb_r b + num_bytes) in
    (true, muggle_bytes_buffer_refresh b)
  else (false, b).

(** ** The FIFO the buffer stands for *)

Definition bytes_of (b : muggle_bytes_buffer) : list Z := default [] (bb_buffer b).

Definition content (b : muggle_bytes_buffer) : list Z :=
  if decide (bb_r b <= bb_w b) then slice (bytes_of b) (bb_r b) (bb_w b - bb_r b)
  else slice (bytes_of b) (bb_r b) (bb_t b - bb_r b) ++ slice (bytes_of b) 0 (bb_w b).

(** The states the operations keep the buffer in: the cursors are ordered
    either [r <= w <= t] or [w < r <= t], and an empty contiguous buffer is
    the cleared one. *)
Definition bb_inv (b : muggle_bytes_buffer) : Prop :=
  bb_buffer b <> None /\
  Z.of_nat (length (bytes_of b)) = bb_c b /\
  0 <= bb_r b /\ 0 <= bb_w b < bb_c b /\ 0 < bb_t b <= bb_c b /\
  (if decide (bb_r b <= bb_w b) then bb_w b <= bb_t b else bb_r b <= bb_t b) /\
  (bb_r b = bb_w b -> bb_w b = 0 /\ bb_t b = bb_c b).

(** The one state in which draining the buffer with [read] goes wrong: the
    write cursor has come to rest exactly on a truncation position left
    over from an earlier jump. *)
Definition bb_stale (b : muggle_bytes_buffer) : Prop :=
  bb_r b < bb_w b /\ bb_w b = bb_t b.

(** ** Proof support *)

Ltac bb_simpl :=
  simpl in *;
  repeat match goal with
  | H : context [?x >=? ?y] |- _ => rewrite (Z.geb_leb x y) in H
  | |- context [?x >=? ?y] => rewrite (Z.geb_leb x y)
  | H : context [?x >? ?y] |- _ => rewrite (Z.gtb_ltb x y) in H
  | |- context [?x >? ?y] => rewrite (Z.gtb_ltb x y)
  end.

(** Case analysis on the integer comparisons of the code, closing the
    impossible branches. *)
Ltac bb_cases :=
  repeat (bb_simpl; match goal with
  | |- context [Z.leb ?x ?y] => destruct (Z.leb_spec x y); try lia
  | |- context [Z.ltb ?x ?y] => destruct (Z.ltb_spec x y); try lia
  | |- context [Z.eqb ?x ?y] => destruct (Z.eqb_spec x y); try lia
  | |- context [decide ?P] => destruct (decide P); try lia
  end); bb_simpl; try lia.

Lemma bb_inv_intro c w r t m :
  Z.of_nat (length m) = c -> 0 <= r -> 0 <= w < c -> 0 < t <= c ->
  (r <= w -> w <= t) -> (w < r -> r <= t) -> (r = w -> w = 0 /\ t = c) ->
  bb_inv (BB c w r t (Some m)).
Proof.
  intros; unfold bb_inv, bytes_of; simpl; case_decide; split_and!; try done; auto with lia.
Qed.

Lemma bb_inv_elim b :
  bb_inv b -> exists c w r t m, b = BB c w r t (Some m) /\
    Z.of_nat (length m) = c /\ 0 <= r /\ 0 <= w < c /\ 0 < t <= c /\
    (r <= w -> w <= t) /\ (w < r -> r <= t) /\ (r = w -> w = 0 /\ t = c).
Proof.
  destruct b as [c w r t [m|]]; unfold bb_inv, bytes_of; simpl.
  - intros (_ & ? & ? & ? & ? & Hd & ?); exists c, w, r, t, m.
    split; [done|]; case_decide; split_and!; try done; try lia.
  - intros [? _]; congruence.
Qed.

Ltac bb_open H :=
  apply bb_inv_elim in H as (c & w & r & t & m & -> & Hlen & Hr & Hw & Ht & Hrw & Hwr & Heq).

Lemma content_contiguous c w r t m :
  r <= w -> content (BB c w r t (Some m)) = slice m r (w - r).
Proof. intros; unfold content, bytes_of; simpl; by rewrite decide_True. Qed.

Lemma content_wrapped c w r t m :
  w < r -> content (BB c w r t (Some m)) = slice m r (t - r) ++ slice m 0 w.
Proof. intros; unfold content, bytes_of; simpl; by rewrite decide_False by lia. Qed.

(** The two shapes of the contents and of their prefixes and suffixes. *)
Lemma readable_content b :
  bb_inv b -> muggle_bytes_buffer_readable b = Z.of_nat (length (content b)).
Proof.
  intros Hb; bb_open Hb.
  unfold muggle_bytes_buffer_readable, muggle_bytes_buffer_contiguous_readable,
    muggle_bytes_buffer_jump_readable; bb_cases.
  - rewrite content_contiguous, slice_length by lia; lia.
  - rewrite content_wrapped, length_app, Nat2Z.inj_add, !slice_length by lia; lia.
Qed.

Lemma take_wrapped (m : list Z) r t w n :
  0 <= r <= t -> t <= Z.of_nat (length m) -> t - r <= n <= t - r + w -> 
  take (Z.to_nat n) (slice m r (t - r) ++ slice m 0 w)
  = slice m r (t - r) ++ slice m 0 (n - (t - r)).
Proof.
  intros; rewrite take_app_ge by (pose proof (slice_length m r (t - r)); lia).
  f_equal; rewrite <- (take_slice m 0 (n - (t - r)) w) by lia; f_equal.
  pose proof (slice_length m r (t - r)); lia.
Qed.

Lemma drop_wrapped (m : list Z) r t w n :
  0 <= r <= t -> t <= Z.of_nat (length m) -> t - r <= n <= t - r + w -> 
  drop (Z.to_nat n) (slice m r (t - r) ++ slice m 0 w)
  = slice m (n - (t - r)) (w - (n - (t - r))).
Proof.
  intros; rewrite drop_app_ge by (pose proof (slice_length m r (t - r)); lia).
  replace (Z.to_nat n - length (slice m r (t - r)))%nat with (Z.to_nat (n - (t - r)))
    by (pose proof (slice_length m r (t - r)); lia).
  by rewrite drop_slice by lia.
Qed.

Lemma take_wrapped_low (m : list Z) r t w n :
  0 <= r <= t -> t <= Z.of_nat (length m) -> 0 <= n <= t - r ->
  take (Z.to_nat n) (slice m r (t - r) ++ slice m 0 w) = slice m r n.
Proof.
  intros; rewrite take_app_le by (pose proof (slice_length m r (t - r)); lia).
  by rewrite take_slice by lia.
Qed.

Lemma drop_wrapped_low (m : list Z) r t w n :
  0 <= r <= t -> t <= Z.of_nat (length m) -> 0 <= n <= t - r ->
  drop (Z.to_nat n) (slice m r (t - r) ++ slice m 0 w)
  = slice m (r + n) (t - (r + n)) ++ slice m 0 w.
Proof.
  intros; rewrite drop_app_le by (pose proof (slice_length m r (t - r)); lia).
  rewrite drop_slice by lia; do 2 f_equal; lia.
Qed.

Lemma fetch_content b n :
  bb_inv b -> 0 <= n ->
  muggle_bytes_buffer_fetch b n = Some (
    if decide (n <= Z.of_nat (length (content b)))
    then Some (take (Z.to_nat n) (content b)) else None).
Proof.
  intros Hb Hn; rewrite <- readable_content by done; bb_open Hb.
  unfold muggle_bytes_buffer_fetch, muggle_bytes_buffer_readable,
    muggle_bytes_buffer_contiguous_readable, muggle_bytes_buffer_jump_readable,
    memcpy_from; bb_cases; try done; rewrite !copy_out_Some by lia; simpl.
  - by rewrite content_contiguous, take_slice by lia.
  - by rewrite content_wrapped, take_wrapped_low by lia.
  - by rewrite content_wrapped, take_wrapped by lia.
  - rewrite content_wrapped, take_wrapped by lia; by rewrite (slice_nil m r) by lia.
Qed.

(** [refresh] keeps the contents and restores the cleared empty state. *)
Lemma refresh_spec c w r t m :
  Z.of_nat (length m) = c -> 0 <= r -> 0 <= w < c -> 0 < t <= c ->
  (r <= w -> w <= t) -> (w < r -> r <= t) ->
  let b := BB c w r t (Some m) in
  let b' := muggle_bytes_buffer_refresh b in
  bb_inv b' /\ bb_c b' = c /\ content b' = content b.
Proof.
  intros Hl Hr Hw Ht H1 H2 b b'; subst b b'; unfold muggle_bytes_buffer_refresh; bb_cases.
  - split; [apply bb_inv_intro; simpl; lia|]; split; [done|].
    unfold muggle_bytes_buffer_clear; simpl.
    rewrite !content_contiguous, !slice_nil by lia; done.
  - split; [apply bb_inv_intro; simpl; lia|done].
Qed.

Ltac bb_refresh :=
  match goal with
  | |- context [muggle_bytes_buffer_refresh (BB ?c ?w ?r ?t (Some ?m))] =>
      destruct (refresh_spec c w r t m) as (? & ? & ->); [lia..|]
  end.

Lemma read_content b n :
  bb_inv b -> 0 <= n ->
  ~ (bb_stale b /\ n = Z.of_nat (length (content b))) ->
  exists b', muggle_bytes_buffer_read b n = Some (
      if decide (n <= Z.of_nat (length (content b)))
      then Some (take (Z.to_nat n) (content b)) else None, b') /\
    bb_inv b' /\ bb_c b' = bb_c b /\
    content b' = if decide (n <= Z.of_nat (length (content b)))
                 then drop (Z.to_nat n) (content b) else content b.
Proof.
  intros Hb Hn Hns; pose proof Hb as Hinv; rewrite <- readable_content in * by done.
  bb_open Hb; revert Hns.
  unfold bb_stale, muggle_bytes_buffer_read, muggle_bytes_buffer_readable,
    muggle_bytes_buffer_contiguous_readable, muggle_bytes_buffer_jump_readable,
    memcpy_from, set_r; intros Hns; bb_cases; simpl;
    rewrite ?copy_out_Some by lia; simpl; eexists;
    (split; [f_equal; f_equal|try bb_refresh; split_and!; try done]).
  - by rewrite content_contiguous, take_slice by lia.
  - rewrite !content_contiguous, drop_slice by lia; f_equal; lia.
  - by rewrite content_wrapped, take_wrapped_low by lia.
  - rewrite content_contiguous, content_wrapped, drop_wrapped_low by lia.
    rewrite (slice_nil m (r + n)) by lia; simpl; f_equal; lia.
  - by rewrite content_wrapped, take_wrapped_low by lia.
  - by rewrite !content_wrapped, drop_wrapped_low by lia.
  - by rewrite content_wrapped, take_wrapped by lia.
  - by rewrite content_contiguous, content_wrapped, drop_wrapped by lia.
  - by rewrite content_wrapped, take_wrapped, (slice_nil m r) by lia.
  - by rewrite content_contiguous, content_wrapped, drop_wrapped by lia.
Qed.

(** ** Writing *)

Lemma memcpy_to_Some c w r t m off src soff n :
  0 <= off -> 0 <= n -> off + n <= Z.of_nat (length m) ->
  0 <= soff -> soff + n <= Z.of_nat (length src) ->
  memcpy_to (BB c w r t (Some m)) off src soff n =
  Some (BB c w r t (Some (blit m off (slice src soff n)))).
Proof.
  intros; unfold memcpy_to; rewrite copy_out_Some by lia; simpl.
  rewrite copy_in_Some by (rewrite ?slice_length; lia); done.
Qed.

(** Storing [bs] at the write cursor and moving the cursor past it: the
    contiguous step shared by [write] and [writer_move_n]. *)
Definition advance (b : muggle_bytes_buffer) (n : Z) : muggle_bytes_buffer :=
  let b := set_w b (bb_w b + n) in
  let b := if bb_t b <? bb_w b then set_t b (bb_c b) else b in
  if bb_w b =? bb_c b then set_w b 0 else b.

Lemma slice_blit_grow (m bs : list Z) i w :
  0 <= i <= w -> w + Z.of_nat (length bs) <= Z.of_nat (length m) ->
  slice (blit m w bs) i (w + Z.of_nat (length bs) - i) = slice m i (w - i) ++ bs.
Proof.
  intros; replace (w + Z.of_nat (length bs) - i) with (w - i + Z.of_nat (length bs)) by lia.
  rewrite slice_add by lia; f_equal.
  - apply slice_blit_before; lia.
  - replace (i + (w - i)) with w by lia; apply slice_blit_eq; lia.
Qed.

Lemma advance_spec b bs :
  bb_inv b ->
  Z.of_nat (length bs) <= muggle_bytes_buffer_contiguous_writable b ->
  let b' := advance (set_buffer b (Some (blit (bytes_of b) (bb_w b) bs)))
              (Z.of_nat (length bs)) in
  bb_inv b' /\ bb_c b' = bb_c b /\ content b' = content b ++ bs.
Proof.
  intros Hb; bb_open Hb; unfold bytes_of; simpl.
  unfold advance, muggle_bytes_buffer_contiguous_writable, set_w, set_t.
  assert (Hbl : 0 <= w -> w + Z.of_nat (length bs) <= Z.of_nat (length m) ->
    length (blit m w bs) = length m) by (intros; by apply blit_length).
  bb_cases; intros Hle; bb_cases; split; try (apply bb_inv_intro; lia); split; try done.
  all: first
    [ rewrite !content_contiguous, slice_blit_grow by lia; done
    | rewrite content_wrapped, content_contiguous, (slice_nil _ 0), app_nil_r by lia;
      rewrite <- (slice_blit_grow m bs r w) by lia; f_equal; lia
    | rewrite !content_wrapped, slice_blit_after, <- app_assoc by lia; f_equal;
      pose proof (slice_blit_grow m bs 0 w) as E; rewrite !Z.sub_0_r in E; apply E; lia ].
Qed.

(** Jumping over the tail of the ring: [bs] goes to the start of the buffer
    and the truncation position remembers where the contents end. *)
Lemma jump_spec b bs :
  bb_inv b -> bb_r b <= bb_w b -> Z.of_nat (length bs) < bb_r b ->
  let b' := BB (bb_c b) (Z.of_nat (length bs)) (bb_r b) (bb_w b)
              (Some (blit (bytes_of b) 0 bs)) in
  bb_inv b' /\ bb_c b' = bb_c b /\ content b' = content b ++ bs.
Proof.
  intros Hb; bb_open Hb; unfold bytes_of; simpl; intros H1 H2.
  assert (Hbl : length (blit m 0 bs) = length m) by (apply blit_length; lia).
  split; [apply bb_inv_intro; lia|]; split; [done|].
  rewrite content_wrapped, content_contiguous by lia.
  by rewrite slice_blit_after, slice_blit_eq by lia.
Qed.

(** Filling the tail of the ring and continuing at its start. *)
Lemma wrap_spec b bs1 bs2 :
  bb_inv b -> bb_r b <= bb_w b ->
  bb_w b + Z.of_nat (length bs1) = bb_c b -> Z.of_nat (length bs2) < bb_r b ->
  let b' := BB (bb_c b) (Z.of_nat (length bs2)) (bb_r b) (bb_c b)
              (Some (blit (blit (bytes_of b) (bb_w b) bs1) 0 bs2)) in
  bb_inv b' /\ bb_c b' = bb_c b /\ content b' = content b ++ bs1 ++ bs2.
Proof.
  intros Hb; bb_open Hb; unfold bytes_of; simpl; intros H1 H2 H3.
  assert (Hbl : length (blit m w bs1) = length m) by (apply blit_length; lia).
  assert (Hbl2 : length (blit (blit m w bs1) 0 bs2) = length m)
    by (rewrite blit_length; lia).
  split; [apply bb_inv_intro; lia|]; split; [done|].
  rewrite content_wrapped, content_contiguous, app_assoc by lia.
  rewrite slice_blit_after, slice_blit_eq by lia; f_equal.
  rewrite <- (slice_blit_grow m bs1 r w) by lia; f_equal; lia.
Qed.

Lemma write_content b n src :
  bb_inv b -> 0 <= n -> Z.of_nat (length src) = n ->
  exists b', muggle_bytes_buffer_write b n src =
      Some (bool_decide (n <= muggle_bytes_buffer_writable b), b') /\
    bb_inv b' /\ bb_c b' = bb_c b /\
    content b' = if decide (n <= muggle_bytes_buffer_writable b)
                 then content b ++ src else content b.
Proof.
  intros Hb Hn Hsrc; pose proof Hb as Hinv; bb_open Hb.
  set (b := BB c w r t (Some m)) in *.
  unfold muggle_bytes_buffer_write, muggle_bytes_buffer_writable.
  destruct (Z.geb_spec (muggle_bytes_buffer_contiguous_writable b) n) as [Hcw|Hcw].
  { assert (0 <= muggle_bytes_buffer_jump_writable b) as Hj
      by (unfold b, muggle_bytes_buffer_jump_writable; bb_cases).
    assert (w + n <= c) as Hfit
      by (revert Hcw; unfold b, muggle_bytes_buffer_contiguous_writable; bb_cases).
    unfold b at 1 2; rewrite memcpy_to_Some by (simpl; lia); simpl.
    eexists; split; [rewrite bool_decide_true by lia; reflexivity|].
    rewrite decide_True by lia; rewrite slice_all by lia; subst n.
    apply (advance_spec b src Hinv Hcw). }
  destruct (Z.ltb_spec (muggle_bytes_buffer_contiguous_writable b +
    muggle_bytes_buffer_jump_writable b) n) as [Hno|Hok].
  { exists b; rewrite bool_decide_false, decide_False by lia; done. }
  assert (Hj : r <= w /\ 0 < r /\ muggle_bytes_buffer_jump_writable b = r - 1 /\
    muggle_bytes_buffer_contiguous_writable b = c - w).
  { revert Hcw Hok; unfold b, muggle_bytes_buffer_contiguous_writable,
      muggle_bytes_buffer_jump_writable; bb_cases. }
  destruct Hj as (Hrw' & Hr0 & Hje & Hcwe); rewrite Hje, Hcwe in *.
  rewrite bool_decide_true, decide_True by lia.
  destruct (Z.geb_spec (r - 1) n) as [Hjw|Hjw].
  - unfold b; simpl; unfold set_t; simpl; rewrite memcpy_to_Some by lia; simpl.
    eexists; split; [reflexivity|]; rewrite slice_all by lia; subst n.
    apply (jump_spec b src Hinv); simpl; lia.
  - unfold b; simpl; unfold set_t; simpl.
    rewrite (proj2 (Z.gtb_lt _ _)) by lia.
    rewrite memcpy_to_Some by lia; simpl.
    rewrite memcpy_to_Some; rewrite ?blit_length, ?slice_length; try lia.
    2:{ rewrite slice_length by lia. lia. }
    simpl; eexists; split; [reflexivity|].
    pose proof (wrap_spec b (slice src 0 (c - w)) (slice src (c - w) (n - (c - w))) Hinv) as Hws.
    rewrite slice_split, !slice_length in Hws by lia; apply Hws; simpl; lia.
Qed.

(** ** The pointer interface

    [writer_fc] hands out a place in the buffer, the caller stores at most
    as many bytes as it asked for, and [writer_move_n] publishes them;
    [reader_fc] and [reader_move] are the reading side. *)

Definition produce (b : muggle_bytes_buffer) (n : Z) (bs : list Z)
  : option (bool * muggle_bytes_buffer) :=
  match muggle_bytes_buffer_writer_fc b n with
  | None => Some (false, b)
  | Some p =>
      m ← bb_buffer b;
      m' ← copy_in m p bs;
      Some (muggle_bytes_buffer_writer_move_n (set_buffer b (Some m')) p
              (Z.of_nat (length bs)))
  end.

Definition consume (b : muggle_bytes_buffer) (n : Z)
  : option (option (list Z) * muggle_bytes_buffer) :=
  match muggle_bytes_buffer_reader_fc b n with
  | None => Some (None, b)
  | Some p =>
      bs ← memcpy_from b p n;
      Some (Some bs, snd (muggle_bytes_buffer_reader_move b n))
  end.

Lemma writer_fc_room b n p :
  bb_inv b -> muggle_bytes_buffer_writer_fc b n = Some p ->
  (p = bb_w b /\ n <= muggle_bytes_buffer_contiguous_writable b) \/
  (p = 0 /\ 0 < bb_w b /\ bb_r b <= bb_w b /\ n < bb_r b).
Proof.
  intros Hb; bb_open Hb.
  unfold muggle_bytes_buffer_writer_fc, muggle_bytes_buffer_contiguous_writable,
    muggle_bytes_buffer_jump_writable; bb_cases; intros; simplify_eq; try lia; auto.
Qed.

Lemma move_n_start b bs :
  bb_inv b -> bb_w b = 0 ->
  Z.of_nat (length bs) <= muggle_bytes_buffer_contiguous_writable b ->
  let b' := set_w (set_buffer b (Some (blit (bytes_of b) 0 bs))) (Z.of_nat (length bs)) in
  bb_inv b' /\ bb_c b' = bb_c b /\ content b' = content b ++ bs.
Proof.
  intros Hb H0 Hle; pose proof (advance_spec b bs Hb Hle) as Ha; bb_open Hb.
  simpl in H0; subst w; unfold bytes_of in *; simpl in *.
  revert Ha Hle; unfold advance, set_w, set_t, set_buffer,
    muggle_bytes_buffer_contiguous_writable; simpl; rewrite Z.add_0_l; bb_cases; done.
Qed.

Lemma produce_content b n bs :
  bb_inv b -> 0 <= n -> Z.of_nat (length bs) <= n ->
  exists ok b', produce b n bs = Some (ok, b') /\
    bb_inv b' /\ bb_c b' = bb_c b /\
    content b' = (if ok : bool then content b ++ bs else content b) /\
    (ok = false -> muggle_bytes_buffer_contiguous_writable b < n /\
                   muggle_bytes_buffer_jump_writable b < n).
Proof.
  intros Hb Hn Hbs; unfold produce.
  destruct (muggle_bytes_buffer_writer_fc b n) as [p|] eqn:E.
  2:{ exists false, b; split_and!; try done; intros _; revert E.
      unfold muggle_bytes_buffer_writer_fc; bb_cases; done. }
  apply (writer_fc_room b n p Hb) in E.
  assert (Hbuf : bb_buffer b = Some (bytes_of b)).
  { destruct Hb as [Hb _]; unfold bytes_of; by destruct (bb_buffer b). }
  assert (Hin : copy_in (bytes_of b) p bs = Some (blit (bytes_of b) p bs)).
  { bb_open Hb; unfold bytes_of; simpl in *; apply copy_in_Some; revert E;
      unfold muggle_bytes_buffer_contiguous_writable; bb_cases. }
  rewrite Hbuf; simpl; rewrite Hin; simpl; unfold muggle_bytes_buffer_writer_move_n.
  assert (Hdone : forall b', bb_inv b' /\ bb_c b' = bb_c b /\ content b' = content b ++ bs ->
    exists ok b'', Some (true, b') = Some (ok, b'') /\ bb_inv b'' /\ bb_c b'' = bb_c b /\
      content b'' = (if ok : bool then content b ++ bs else content b) /\
      (ok = false -> muggle_bytes_buffer_contiguous_writable b < n /\
                     muggle_bytes_buffer_jump_writable b < n)).
  { intros b' (? & ? & ?); exists true, b'; split_and!; done. }
  destruct (decide (bb_w b = 0)) as [Hw0|Hw0].
  - destruct E as [[-> E]|(_ & ? & _)]; [|lia]; simpl.
    rewrite Hw0; simpl; apply Hdone, move_n_start; [done..|lia].
  - assert (0 < bb_w b) by (bb_open Hb; simpl in *; lia).
    destruct E as [[-> E]|(-> & _ & Hrw & E)].
    + rewrite (proj2 (Z.eqb_neq _ 0)) by done.
      apply Hdone, advance_spec; [done|lia].
    + simpl; rewrite (proj2 (Z.gtb_lt (bb_w b) 0)) by done.
      apply Hdone, jump_spec; [done..|lia].
Qed.

Lemma consume_content b n :
  bb_inv b -> 0 <= n ->
  exists b', consume b n = Some (
      if decide (n <= muggle_bytes_buffer_contiguous_readable b)
      then Some (take (Z.to_nat n) (content b)) else None, b') /\
    bb_inv b' /\ bb_c b' = bb_c b /\
    content b' = if decide (n <= muggle_bytes_buffer_contiguous_readable b)
                 then drop (Z.to_nat n) (content b) else content b.
Proof.
  intros Hb Hn; pose proof Hb as Hinv; bb_open Hb.
  unfold consume, muggle_bytes_buffer_reader_fc, muggle_bytes_buffer_reader_move,
    muggle_bytes_buffer_contiguous_readable, memcpy_from, set_r;
    bb_cases; simpl; rewrite ?copy_out_Some by lia; simpl; eexists;
    (split; [f_equal; f_equal|try bb_refresh; split_and!; try done]).
  - by rewrite content_contiguous, take_slice by lia.
  - rewrite !content_contiguous, drop_slice by lia; f_equal; lia.
  - by rewrite content_wrapped, take_wrapped_low by lia.
  - by rewrite !content_wrapped, drop_wrapped_low by lia.
Qed.

(** ** Runs of operations against the FIFO specification *)

Inductive bb_op :=
  | OpWrite (src : list Z)
  | OpRead (n : Z)
  | OpFetch (n : Z)
  | OpProduce (n : Z) (bs : list Z)
  | OpConsume (n : Z)
  | OpClear.

Inductive bb_out :=
  | OutBool (ok : bool)
  | OutBytes (dst : option (list Z)).

Definition bb_exec (o : bb_op) (b : muggle_bytes_buffer)
  : option (bb_out * muggle_bytes_buffer) :=
  match o with
  | OpWrite src =>
      '(ok, b') ← muggle_bytes_buffer_write b (Z.of_nat (length src)) src;
      Some (OutBool ok, b')
  | OpRead n => '(d, b') ← muggle_bytes_buffer_read b n; Some (OutBytes d, b')
  | OpFetch n => d ← muggle_bytes_buffer_fetch b n; Some (OutBytes d, b)
  | OpProduce n bs => '(ok, b') ← produce b n bs; Some (OutBool ok, b')
  | OpConsume n => '(d, b') ← consume b n; Some (OutBytes d, b')
  | OpClear => Some (OutBool true, muggle_bytes_buffer_clear b)
  end.

(** What a FIFO of bytes may answer: an insertion either appends all of its
    bytes or changes nothing, a removal delivers the oldest bytes. *)
Inductive fifo_step (q : list Z) : bb_op -> bb_out -> list Z -> Prop :=
  | fifo_write src : fifo_step q (OpWrite src) (OutBool true) (q ++ src)
  | fifo_write_full src : fifo_step q (OpWrite src) (OutBool false) q
  | fifo_read n : n <= Z.of_nat (length q) ->
      fifo_step q (OpRead n) (OutBytes (Some (take (Z.to_nat n) q))) (drop (Z.to_nat n) q)
  | fifo_read_short n : Z.of_nat (length q) < n ->
      fifo_step q (OpRead n) (OutBytes None) q
  | fifo_fetch n : n <= Z.of_nat (length q) ->
      fifo_step q (OpFetch n) (OutBytes (Some (take (Z.to_nat n) q))) q
  | fifo_fetch_short n : Z.of_nat (length q) < n ->
      fifo_step q (OpFetch n) (OutBytes None) q
  | fifo_produce n bs : fifo_step q (OpProduce n bs) (OutBool true) (q ++ bs)
  | fifo_produce_full n bs : fifo_step q (OpProduce n bs) (OutBool false) q
  | fifo_consume n :
      fifo_step q (OpConsume n) (OutBytes (Some (take (Z.to_nat n) q))) (drop (Z.to_nat n) q)
  | fifo_consume_none n : fifo_step q (OpConsume n) (OutBytes None) q
  | fifo_clear : fifo_step q OpClear (OutBool true) [].

Definition op_valid (o : bb_op) : bool :=
  match o with
  | OpRead n | OpFetch n | OpConsume n => 0 <=? n
  | OpProduce n bs => Z.of_nat (length bs) <=? n
  | OpWrite _ | OpClear => true
  end.

(** A [read] that empties a buffer in the [bb_stale] state. *)
Definition drains_stale (o : bb_op) (b : muggle_bytes_buffer) : bool :=
  match o with
  | OpRead n => (bb_r b <? bb_w b) && (bb_w b =? bb_t b)
                && (n =? muggle_bytes_buffer_readable b)
  | _ => false
  end.

Fixpoint bb_run (os : list bb_op) (b : muggle_bytes_buffer)
  : option (list bb_out * muggle_bytes_buffer) :=
  match os with
  | [] => Some ([], b)
  | o :: os' =>
      '(out, b') ← bb_exec o b;
      '(outs, b'') ← bb_run os' b';
      Some (out :: outs, b'')
  end.

(** No operation of the run drains a stale buffer. *)
Fixpoint run_avoids_stale (os : list bb_op) (b : muggle_bytes_buffer) : bool :=
  match os with
  | [] => true
  | o :: os' =>
      negb (drains_stale o b) &&
      match bb_exec o b with
      | Some (_, b') => run_avoids_stale os' b'
      | None => true
      end
  end.

Inductive fifo_run : list Z -> list bb_op -> list bb_out -> list Z -> Prop :=
  | fifo_run_nil q : fifo_run q [] [] q
  | fifo_run_cons q o out q' os outs q'' :
      fifo_step q o out q' -> fifo_run q' os outs q'' ->
      fifo_run q (o :: os) (out :: outs) q''.

Lemma drains_stale_spec b n :
  bb_inv b -> drains_stale (OpRead n) b = false ->
  ~ (bb_stale b /\ n = Z.of_nat (length (content b))).
Proof.
  intros Hb Hd [[H1 H2] Hn]; rewrite <- readable_content in Hn by done.
  simpl in Hd; rewrite (proj2 (Z.ltb_lt _ _)), !(proj2 (Z.eqb_eq _ _)) in Hd by done; done.
Qed.

Lemma clear_spec b :
  bb_inv b -> bb_inv (muggle_bytes_buffer_clear b) /\
    content (muggle_bytes_buffer_clear b) = [].
Proof.
  intros Hb; bb_open Hb; unfold muggle_bytes_buffer_clear; simpl; split.
  - apply bb_inv_intro; lia.
  - rewrite content_contiguous, slice_nil by lia; done.
Qed.

(** One step of the simulation. *)
Lemma bb_exec_refines o b :
  bb_inv b -> op_valid o = true -> drains_stale o b = false ->
  exists out b', bb_exec o b = Some (out, b') /\ bb_inv b' /\
    fifo_step (content b) o out (content b').
Proof.
  intros Hb Hv Hd; destruct o as [src|n|n|n bs|n|]; simpl in Hv.
  - destruct (write_content b (Z.of_nat (length src)) src Hb) as (b' & E & Hi & _ & Hc);
      [lia|done|]; simpl; rewrite E; simpl; eexists _, b'; split; [done|]; split; [done|].
    rewrite Hc; case_decide; [rewrite bool_decide_true by done|rewrite bool_decide_false by done];
      constructor.
  - apply Z.leb_le in Hv; pose proof (drains_stale_spec b n Hb Hd) as Hns.
    destruct (read_content b n Hb Hv Hns) as (b' & E & Hi & _ & Hc).
    simpl; rewrite E; simpl; eexists _, b'; split; [done|]; split; [done|].
    rewrite Hc; case_decide; constructor; lia.
  - apply Z.leb_le in Hv; simpl; rewrite fetch_content by done; simpl.
    eexists _, b; split; [done|]; split; [done|]; case_decide; constructor; lia.
  - apply Z.leb_le in Hv.
    destruct (produce_content b n bs Hb) as (ok & b' & E & Hi & _ & Hc & _); [lia..|].
    simpl; rewrite E; simpl; eexists _, b'; split; [done|]; split; [done|].
    rewrite Hc; destruct ok; constructor.
  - apply Z.leb_le in Hv; destruct (consume_content b n Hb Hv) as (b' & E & Hi & _ & Hc).
    simpl; rewrite E; simpl; eexists _, b'; split; [done|]; split; [done|].
    rewrite Hc; case_decide; constructor.
  - destruct (clear_spec b Hb) as [Hi Hc]; simpl; eexists _, _; split; [done|].
    split; [done|]; rewrite Hc; constructor.
Qed.

Lemma bb_run_refines os b :
  bb_inv b -> forallb op_valid os = true -> run_avoids_stale os b = true ->
  exists outs b', bb_run os b = Some (outs, b') /\ bb_inv b' /\
    fifo_run (content b) os outs (content b').
Proof.
  revert b; induction os as [|o os IH]; intros b Hb Hv Hs; simpl in *.
  { exists [], b; split; [done|]; split; [done|constructor]. }
  apply andb_true_iff in Hv as [Hv Hvs]; apply andb_true_iff in Hs as [Hd Hs].
  apply negb_true_iff in Hd.
  destruct (bb_exec_refines o b Hb Hv Hd) as (out & b' & E & Hi & Hstep).
  rewrite E in *; simpl.
  destruct (IH b' Hi Hvs Hs) as (outs & b'' & -> & Hi' & Hrun); simpl.
  exists (out :: outs), b''; split; [done|]; split; [done|by econstructor].
Qed.

Lemma init_spec capacity mem :
  0 < capacity -> Z.of_nat (length mem) = capacity ->
  let b := snd (muggle_bytes_buffer_init capacity (Some mem)) in
  bb_inv b /\ content b = [].
Proof.
  intros H1 H2 b; subst b; simpl; split; [apply bb_inv_intro; lia|].
  rewrite content_contiguous, slice_nil by lia; done.
Qed.

(** ** Properties *)

(** C32: every run of valid operations on a freshly initialised buffer that
    never drains a stale buffer with [read] completes without undefined
    behaviour, keeps the cursor invariant, and answers exactly as a FIFO
    queue of bytes. *)
Theorem bytes_buffer_refines_fifo (capacity : Z) (mem : list Z) (os : list bb_op)
  (Hcap : 0 < capacity) (Hmem : Z.of_nat (length mem) = capacity)
  (Hvalid : forallb op_valid os = true)
  (Hstale : run_avoids_stale os (snd (muggle_bytes_buffer_init capacity (Some mem))) = true) :
  exists outs b', bb_run os (snd (muggle_bytes_buffer_init capacity (Some mem))) = Some (outs, b') /\
    bb_inv b' /\ fifo_run [] os outs (content b').
Proof.
  destruct (init_spec capacity mem Hcap Hmem) as [Hi Hc]; rewrite <- Hc.
  by apply bb_run_refines.
Qed.

Lemma bytes_buffer_refines_fifo_witness :
  exists outs b', bb_run [OpWrite [1; 2; 3]; OpRead 2; OpProduce 3 [4; 5]; OpConsume 1; OpRead 2]
      (snd (muggle_bytes_buffer_init 4 (Some [0; 0; 0; 0]))) = Some (outs, b') /\
    bb_inv b' /\
    fifo_run [] [OpWrite [1; 2; 3]; OpRead 2; OpProduce 3 [4; 5]; OpConsume 1; OpRead 2]
      outs (content b').
Proof. apply bytes_buffer_refines_fifo; [lia|reflexivity|reflexivity|reflexivity]. Defined.

(** [write] succeeds exactly when [writable] says there is room for all
    of the bytes, appends them to the contents, and changes nothing when it
    fails. *)
Theorem bytes_buffer_write_spec (b : muggle_bytes_buffer) (src : list Z) (Hb : bb_inv b) :
  exists b', muggle_bytes_buffer_write b (Z.of_nat (length src)) src =
      Some (bool_decide (Z.of_nat (length src) <= muggle_bytes_buffer_writable b), b') /\
    bb_inv b' /\
    content b' = if decide (Z.of_nat (length src) <= muggle_bytes_buffer_writable b)
                 then content b ++ src else content b.
Proof.
  destruct (write_content b (Z.of_nat (length src)) src Hb) as (b' & ? & ? & _ & ?);
    [lia|done|]; eauto.
Qed.

Lemma bytes_buffer_write_spec_witness :
  exists b', muggle_bytes_buffer_write (BB 4 3 2 4 (Some [9; 9; 7; 9])) 2 [5; 6] =
      Some (true, b') /\ content b' = [7; 5; 6].
Proof.
  destruct (bytes_buffer_write_spec (BB 4 3 2 4 (Some [9; 9; 7; 9])) [5; 6])
    as (b' & E & _ & Hc).
  { apply bb_inv_intro; simpl; lia. }
  exists b'; split; [exact E|exact Hc].
Defined.

(** the room for writing and the unread bytes always add up to one less
    than the part of the ring in use: the capacity, or the truncation
    position while the contents wrap around. *)
Theorem bytes_buffer_accounting (b : muggle_bytes_buffer) (Hb : bb_inv b) :
  muggle_bytes_buffer_writable b + muggle_bytes_buffer_readable b =
    (if decide (bb_r b <= bb_w b) then bb_c b else bb_t b) - 1 /\
  0 <= muggle_bytes_buffer_writable b /\
  muggle_bytes_buffer_readable b = Z.of_nat (length (content b)).
Proof.
  pose proof (readable_content b Hb) as Hrc; split_and!; try done; bb_open Hb;
    unfold muggle_bytes_buffer_writable, muggle_bytes_buffer_readable,
      muggle_bytes_buffer_contiguous_writable, muggle_bytes_buffer_jump_writable,
      muggle_bytes_buffer_contiguous_readable, muggle_bytes_buffer_jump_readable;
    clear Hrc; bb_cases.
Qed.

Lemma bytes_buffer_accounting_witness :
  muggle_bytes_buffer_writable (BB 8 2 5 7 (Some (replicate 8 0)))
  + muggle_bytes_buffer_readable (BB 8 2 5 7 (Some (replicate 8 0))) = 6.
Proof.
  destruct (bytes_buffer_accounting (BB 8 2 5 7 (Some (replicate 8 0)))) as [H _].
  { apply bb_inv_intro; simpl; lia. }
  exact H.
Defined.

(** The stale truncation position: after a jump, a run of reads and
    writes on a 10-byte buffer brings the write cursor to rest on the old
    truncation position, and the [read] that takes the last seven bytes
    leaves a buffer that reports nine bytes to read, although every byte
    written has been read. *)
Theorem bytes_buffer_stale_truncation_defect :
  exists outs b', bb_run
      [OpWrite [1; 2; 3; 4; 5; 6; 7; 8; 9]; OpRead 8; OpWrite [10; 11; 12; 13; 14];
       OpRead 3; OpWrite [15; 16; 17; 18]; OpRead 7]
      (snd (muggle_bytes_buffer_init 10 (Some (replicate 10 0)))) = Some (outs, b') /\
    outs = [OutBool true; OutBytes (Some [1; 2; 3; 4; 5; 6; 7; 8]); OutBool true;
            OutBytes (Some [9; 10; 11]); OutBool true;
            OutBytes (Some [12; 13; 14; 15; 16; 17; 18])] /\
    muggle_bytes_buffer_readable b' = 9.
Proof.
  eexists _, (BB 10 9 0 9 (Some [10; 11; 12; 13; 14; 15; 16; 17; 18; 0])).
  split; [|split; reflexivity]; vm_compute; reflexivity.
Qed.
