(* ===== verification/MemoryPool.v ===== *)
(** * The fixed-size block pool of [memory/memory_pool.c]

    The pool keeps the addresses of its blocks in a ring
    ([memory_pool_ptr_buf]): [alloc_index] is where the next block is taken,
    [free_index] where the next returned block is put.  The outcome of every
    allocation is an argument of the operation that makes it, so that all of
    the error paths are reachable in the model; [None] as the result of an
    operation is undefined behaviour (an access outside the ring, or to a
    cell that was never written).

    Modelled for a 64-bit [size_t]; the two [sizeof(size_t) < 8] guards are
    then constantly false. *)
From S2P Require Import Prelude Utils.

Definition MUGGLE_MEMPOOL_SIZE_2MB : Z := 2 * 1024 * 1024.
Definition MUGGLE_MEMPOOL_SIZE_2GB : Z := 2 * 1024 * 1024 * 1024.

Definition MUGGLE_MEMORY_POOL_CONSTANT_SIZE : Z := 1.
Definition MUGGLE_MEMORY_POOL_THP : Z := 2.

(** [muggle_memory_pool_t]; the two arrays are [None] when they are NULL.
    The cells of the pointer ring may be uninitialised. *)
Record muggle_memory_pool := MP {
  memory_pool_data_bufs : option (list Z);
  memory_pool_ptr_buf : option (list (option Z));
  alloc_index : Z;
  free_index : Z;
  capacity : Z;
  used : Z;
  block_size : Z;
  num_buf : Z;
  flag : Z;
  max_delta_cap : Z;
  peak : Z
}.

Definition mp_zero : muggle_memory_pool := MP None None 0 0 0 0 0 0 0 0 0.

(** What the system answers to the allocations of one call: whether the
    buffer table and the pointer ring could be allocated, the address of the
    data block (0 for NULL) and, for transparent huge pages, whether the two
    [madvise] calls succeeded. *)
Record mem_answers := MA {
  ma_bufs : bool;
  ma_ptr : bool;
  ma_data : Z;
  ma_advise_ptr : bool;
  ma_advise_data : bool
}.

(** [for (i = 0; i < n; ++i) ptr[offset + i] = base + i * block_size]. *)
Definition fill_blocks (base bsize offset n : Z) (cells : list (option Z))
  : option (list (option Z)) :=
  for_up (fun i l => wr l (offset + i) (Some (base + i * bsize))) (Z.to_nat n) 0 cells.

(** The pool after a successful initialisation. *)
Definition mp_ready (ini bsize fl base : Z) (cells : list (option Z)) : muggle_memory_pool :=
  MP (Some [base]) (Some cells) 0 0 ini 0 bsize 1 fl
    (u32 (MUGGLE_MEMPOOL_SIZE_2GB / bsize)) 0.

Definition muggle_memory_pool_init (a : mem_answers) (init_capacity bsize : Z)
  : option (bool * muggle_memory_pool) :=
  let init_capacity := if init_capacity =? 0 then 8 else init_capacity in
  if bsize =? 0 then Some (false, mp_zero)
  else if negb (ma_bufs a) then Some (false, mp_zero)
  else if negb (ma_ptr a) then Some (false, mp_zero)
  else if ma_data a =? NULL then Some (false, mp_zero)
  else
    cells ← fill_blocks (ma_data a) bsize 0 init_capacity (uninit init_capacity);
    Some (true, mp_ready init_capacity bsize 0 (ma_data a) cells).

(** The Linux build with [aligned_alloc] and [MADV_HUGEPAGE]; the sizes
    only bound the allocations. *)
Definition muggle_memory_pool_init_thp (a : mem_answers) (init_capacity bsize : Z)
  : option (bool * muggle_memory_pool) :=
  let init_capacity := if init_capacity =? 0 then 8 else init_capacity in
  if bsize =? 0 then Some (false, mp_zero)
  else if negb (ma_ptr a) then Some (false, mp_zero)
  else if negb (ma_bufs a) then Some (false, mp_zero)
  else if ma_data a =? NULL then Some (false, mp_zero)
  else if negb (ma_advise_ptr a) then Some (false, mp_zero)
  else if negb (ma_advise_data a) then Some (false, mp_zero)
  else
    cells ← fill_blocks (ma_data a) bsize 0 init_capacity (uninit init_capacity);
    Some (true, mp_ready init_capacity bsize MUGGLE_MEMORY_POOL_THP (ma_data a) cells).

(** [destroy]: the buffers freed, in order, and the zeroed pool. *)
Definition muggle_memory_pool_destroy (p : muggle_memory_pool)
  : option (list Z * muggle_memory_pool) :=
  freed ← (match memory_pool_data_bufs p with
           | Some bufs => copy_out bufs 0 (num_buf p)
           | None => if num_buf p =? 0 then Some [] else None
           end);
  Some (freed, mp_zero).

(** The sections of the ring that [ensure_space] copies: the cells of blocks
    in use, then the cells of free blocks. *)
Record mp_sections := MS {
  free_section1 : Z * Z;
  free_section2 : Z * Z;
  alloc_section1 : Z * Z;
  alloc_section2 : Z * Z
}.

(** [(start, number)] of each section; [(0, 0)] where the code leaves NULL. *)
Definition get_sections (p : muggle_memory_pool) : mp_sections :=
  if used p =? capacity p then
    MS (free_index p, capacity p - free_index p) (0, free_index p) (0, 0) (0, 0)
  else if alloc_index p >? free_index p then
    MS (free_index p, alloc_index p - free_index p) (0, 0)
       (alloc_index p, capacity p - alloc_index p) (0, free_index p)
  else
    MS (free_index p, capacity p - free_index p) (0, alloc_index p)
       (alloc_index p, free_index p - alloc_index p) (0, 0).

(** [memcpy(&new[offset], &old[start], sizeof(void* ) * n)]. *)
Definition copy_section (old new : list (option Z)) (offset : Z) (s : Z * Z)
  : option (list (option Z)) :=
  bs ← copy_out old (fst s) (snd s); copy_in new offset bs.

(** The data blocks for [delta_cap] new cells: address or failure. *)
Definition alloc_space (p : muggle_memory_pool) (a : mem_answers) : option Z :=
  if negb (ma_bufs a) then None
  else if ma_data a =? NULL then None
  else if negb (ma_ptr a) then None
  else if negb (Z.land (flag p) MUGGLE_MEMORY_POOL_THP =? 0) then
    if negb (ma_advise_ptr a) then None
    else if negb (ma_advise_data a) then None
    else Some (ma_data a)
  else Some (ma_data a).

(** The rearranged ring: cells of used blocks, cells of free blocks, new
    blocks; with the new [alloc_index]. *)
Definition rebuild_ring (p : muggle_memory_pool) (old : list (option Z)) (cap base : Z)
  : option (list (option Z) * Z) :=
  let s := get_sections p in
  let new := uninit cap in
  let offset := 0 in
  new ← copy_section old new offset (free_section1 s);
  let offset := offset + snd (free_section1 s) in
  '(new, offset) ← (if snd (free_section2 s) >? 0 then
      new ← copy_section old new offset (free_section2 s);
      Some (new, offset + snd (free_section2 s))
    else Some (new, offset));
  let alloc := offset in
  '(new, offset) ← (if snd (alloc_section1 s) >? 0 then
      new ← copy_section old new offset (alloc_section1 s);
      let offset := offset + snd (alloc_section1 s) in
      if snd (alloc_section2 s) >? 0 then
        new ← copy_section old new offset (alloc_section2 s);
        Some (new, offset + snd (alloc_section2 s))
      else Some (new, offset)
    else Some (new, offset));
  new ← fill_blocks base (block_size p) offset (cap - capacity p) new;
  Some (new, alloc).

Definition muggle_memory_pool_ensure_space (p : muggle_memory_pool) (a : mem_answers) (cap : Z)
  : option (bool * muggle_memory_pool) :=
  if cap <=? capacity p then Some (true, p)
  else if negb (Z.land (flag p) MUGGLE_MEMORY_POOL_CONSTANT_SIZE =? 0) then Some (false, p)
  else match alloc_space p a with
  | None => Some (false, p)
  | Some base =>
      bufs ← memory_pool_data_bufs p;
      old ← memory_pool_ptr_buf p;
      kept ← copy_out bufs 0 (num_buf p);
      '(new, alloc) ← rebuild_ring p old cap base;
      Some (true, MP (Some (kept ++ [base])) (Some new) alloc 0 cap (used p)
        (block_size p) (u32 (num_buf p + 1)) (flag p) (max_delta_cap p) (peak p))
  end.

(** Taking the block at [alloc_index]. *)
Definition take_block (debug : bool) (p : muggle_memory_pool)
  : option (Z * muggle_memory_pool) :=
  let u := u32 (used p + 1) in
  let pk := if debug && (peak p <? u) then u else peak p in
  cells ← memory_pool_ptr_buf p;
  ret ← rdi cells (alloc_index p);
  let ai := u32 (alloc_index p + 1) in
  let ai := if ai =? capacity p then 0 else ai in
  Some (ret, MP (memory_pool_data_bufs p) (memory_pool_ptr_buf p) ai (free_index p)
    (capacity p) u (block_size p) (num_buf p) (flag p) (max_delta_cap p) pk).

(** The capacity asked for when every block is in use. *)
Definition grow_cap (p : muggle_memory_pool) : Z :=
  let delta_cap := capacity p in
  let delta_cap := if (max_delta_cap p >? 0) && (delta_cap >? max_delta_cap p)
                   then max_delta_cap p else delta_cap in
  u32 (capacity p + delta_cap).

(** [alloc]: the returned pointer (NULL is 0) and the pool; [debug] is
    [MUGGLE_DEBUG]. *)
Definition muggle_memory_pool_alloc (debug : bool) (p : muggle_memory_pool) (a : mem_answers)
  : option (Z * muggle_memory_pool) :=
  if used p =? capacity p then
    let new_cap := grow_cap p in
    if new_cap <=? capacity p then Some (NULL, p)
    else
      '(ok, p') ← muggle_memory_pool_ensure_space p a new_cap;
      if negb ok then Some (NULL, p') else take_block debug p'
  else take_block debug p.

Definition muggle_memory_pool_free (p : muggle_memory_pool) (p_data : Z)
  : option muggle_memory_pool :=
  cells ← memory_pool_ptr_buf p;
  cells' ← wr cells (free_index p) (Some p_data);
  let fi := u32 (free_index p + 1) in
  let fi := if fi =? capacity p then 0 else fi in
  Some (MP (memory_pool_data_bufs p) (Some cells') (alloc_index p) fi (capacity p)
    (u32 (used p - 1)) (block_size p) (num_buf p) (flag p) (max_delta_cap p) (peak p)).

Definition muggle_memory_pool_get_flag (p : muggle_memory_pool) : Z := flag p.

Definition muggle_memory_pool_set_flag (p : muggle_memory_pool) (f : Z) : muggle_memory_pool :=
  MP (memory_pool_data_bufs p) (memory_pool_ptr_buf p) (alloc_index p) (free_index p)
    (capacity p) (used p) (block_size p) (num_buf p) (Z.lor (flag p) f)
    (max_delta_cap p) (peak p).

Definition muggle_memory_pool_set_max_delta_cap (p : muggle_memory_pool) (d : Z)
  : muggle_memory_pool :=
  MP (memory_pool_data_bufs p) (memory_pool_ptr_buf p) (alloc_index p) (free_index p)
    (capacity p) (used p) (block_size p) (num_buf p) (flag p) d (peak p).

(** ** The ring of free blocks

    [rot l a] is the ring read from index [a] on; the free blocks are the
    first [capacity - used] cells of it. *)

Definition rot {A} (l : list A) (a : nat) : list A := drop a l ++ take a l.

Lemma rot_wrap {A} (l : list A) : rot l (length l) = rot l 0.
Proof. unfold rot; by rewrite drop_all, firstn_all, app_nil_r. Qed.

Lemma rot_length {A} (l : list A) a : length (rot l a) = length l.
Proof. unfold rot; rewrite length_app, length_drop, length_take; lia. Qed.

(** Taking the first cell of the ring. *)
Lemma rot_pop {A} (l : list A) a n x xs :
  (a < length l)%nat -> (S n <= length l)%nat -> take (S n) (rot l a) = x :: xs ->
  l !! a = Some x /\ take n (rot l (S a)) = xs.
Proof.
  intros Ha Hn Hrot; destruct (lookup_lt_is_Some_2 l a Ha) as [y Hy].
  unfold rot in *; rewrite (drop_S _ _ _ Hy) in Hrot; simpl in Hrot.
  injection Hrot as -> <-; split; [done|].
  rewrite (take_S_r _ _ _ Hy), app_assoc, take_app_le; [done|].
  rewrite length_app, length_drop, length_take; lia.
Qed.

Definition ring_pos (cap a n : nat) : nat :=
  if decide (a + n < cap)%nat then (a + n)%nat else (a + n - cap)%nat.

Lemma rot_insert {A} (l : list A) a n (x : A) :
  (a < length l)%nat -> (n < length l)%nat ->
  rot (<[ring_pos (length l) a n := x]> l) a = <[n := x]> (rot l a).
Proof.
  intros Ha Hn; unfold rot, ring_pos; case_decide.
  - rewrite drop_insert_ge, take_insert_ge by lia.
    rewrite insert_app_l by (rewrite length_drop; lia); do 2 f_equal; lia.
  - rewrite drop_insert_lt, take_insert_lt by lia.
    rewrite insert_app_r_alt by (rewrite length_drop; lia).
    by rewrite length_drop; do 2 f_equal; lia.
Qed.

(** Putting a cell behind the last one. *)
Lemma rot_push {A} (l : list A) a n (x : A) :
  (a < length l)%nat -> (n < length l)%nat ->
  take (S n) (rot (<[ring_pos (length l) a n := x]> l) a) = take n (rot l a) ++ [x].
Proof.
  intros Ha Hn; rewrite rot_insert by done.
  rewrite (take_S_r _ n x).
  - by rewrite take_insert_ge.
  - apply list_lookup_insert_eq; by rewrite rot_length.
Qed.

(** ** Filling and copying *)

Definition blocks (base bsize n : Z) : list Z := (fun i => base + i * bsize) <$> seqZ 0 n.

Lemma blocks_length base bsize n : length (blocks base bsize n) = Z.to_nat n.
Proof. unfold blocks; by rewrite length_fmap, length_seqZ. Qed.

Lemma blocks_elem base bsize n x :
  x ∈ blocks base bsize n <-> exists i, x = base + i * bsize /\ 0 <= i < n.
Proof.
  unfold blocks; rewrite list_elem_of_fmap; split; intros (i & -> & Hi); exists i;
    (split; [done|]); rewrite ?elem_of_seqZ in *; lia.
Qed.

Lemma fill_from base bsize (A : list (option Z)) off (n : nat) i (R : list (option Z)) :
  Z.of_nat (length A) = off + i -> 0 <= i -> 0 <= off ->
  (n <= length R)%nat ->
  for_up (fun i l => wr l (off + i) (Some (base + i * bsize))) n i (A ++ R)
  = Some (A ++ (Some <$> ((fun i => base + i * bsize) <$> seqZ i (Z.of_nat n))) ++ drop n R).
Proof.
  revert A i R; induction n as [|n IH]; intros A i R HA Hi Hoff HR; simpl; [done|].
  destruct R as [|r R]; simpl in HR; [lia|].
  rewrite wr_Some by (rewrite length_app; simpl; lia); simpl.
  replace (Z.to_nat (off + i)) with (length A + 0)%nat by lia.
  rewrite insert_app_r; simpl; rewrite cons_middle, app_assoc, IH; try lia.
  2:{ rewrite length_app; simpl; lia. }
  rewrite <- app_assoc; do 2 f_equal.
  rewrite (seqZ_cons i) by lia; simpl.
  do 2 f_equal; do 3 f_equal; lia.
Qed.

Lemma fill_blocks_uninit base bsize (A : list (option Z)) off n :
  Z.of_nat (length A) = off -> 0 <= n ->
  fill_blocks base bsize off n (A ++ uninit n) = Some (A ++ (Some <$> blocks base bsize n)).
Proof.
  intros HA Hn; unfold fill_blocks, uninit.
  rewrite fill_from by (rewrite ?length_replicate; lia).
  rewrite drop_replicate, Nat.sub_diag, app_nil_r; by rewrite Z2Nat.id by lia.
Qed.

(** Copying a section behind the cells already copied. *)
Lemma copy_section_uninit old (A : list (option Z)) k off s n :
  Z.of_nat (length A) = off -> 0 <= s -> 0 <= n <= k -> s + n <= Z.of_nat (length old) ->
  copy_section old (A ++ uninit k) off (s, n) = Some ((A ++ slice old s n) ++ uninit (k - n)).
Proof.
  intros HA Hs Hn Hold; unfold copy_section; simpl.
  rewrite copy_out_Some by lia; simpl.
  assert (Z.of_nat (length (slice old s n)) = n) by (rewrite slice_length; lia).
  rewrite copy_in_Some by (unfold uninit; rewrite ?length_app, ?length_replicate; lia).
  f_equal; unfold blit; rewrite take_app_length', drop_app_ge by lia.
  rewrite <- app_assoc; do 2 f_equal; unfold uninit; rewrite drop_replicate.
  f_equal; lia.
Qed.

(** ** The invariant: [F] are the free blocks, oldest first *)
Definition pool_inv (p : muggle_memory_pool) (F : list Z) : Prop :=
  exists cells bufs,
    memory_pool_ptr_buf p = Some cells /\ memory_pool_data_bufs p = Some bufs /\
    Z.of_nat (length cells) = capacity p /\ num_buf p = Z.of_nat (length bufs) /\
    num_buf p <= capacity p /\ 0 < capacity p < 2 ^ 32 /\
    0 <= alloc_index p < capacity p /\ 0 <= used p <= capacity p /\
    Z.of_nat (length F) = capacity p - used p /\
    free_index p = Z.of_nat (ring_pos (length cells) (Z.to_nat (alloc_index p)) (length F)) /\
    take (length F) (rot cells (Z.to_nat (alloc_index p))) = Some <$> F.

Ltac pool_open H :=
  destruct H as (cells & bufs & Hptr & Hbufs & Hlen & Hnum & Hnumle & Hcap & Hai & Hused
                 & HF & Hfi & Hring).

(** Moving an index of the ring one cell on. *)
Lemma index_next cap i :
  0 <= i < cap -> cap < 2 ^ 32 ->
  (if u32 (i + 1) =? cap then 0 else u32 (i + 1)) = (if i + 1 =? cap then 0 else i + 1) /\
  0 <= (if i + 1 =? cap then 0 else i + 1) < cap.
Proof.
  intros; rewrite wrap_small by (unfold in_width; lia).
  split; [done|]; destruct (Z.eqb_spec (i + 1) cap); lia.
Qed.

Lemma ring_next_fi cap (a n : nat) (i : Z) :
  0 <= i < cap -> Z.to_nat i = ring_pos (Z.to_nat cap) a n -> (a < Z.to_nat cap)%nat ->
  (n < Z.to_nat cap)%nat ->
  (if i + 1 =? cap then 0 else i + 1) = Z.of_nat (ring_pos (Z.to_nat cap) a (S n)).
Proof.
  unfold ring_pos; intros Hi Hf Ha Hn; repeat case_decide;
    destruct (Z.eqb_spec (i + 1) cap); lia.
Qed.

Lemma ring_next_ai cap (n : nat) (i : Z) :
  0 <= i < cap -> (S n <= Z.to_nat cap)%nat ->
  ring_pos (Z.to_nat cap) (Z.to_nat (if i + 1 =? cap then 0 else i + 1)) n
  = ring_pos (Z.to_nat cap) (Z.to_nat i) (S n).
Proof.
  unfold ring_pos; intros Hi Hn; destruct (Z.eqb_spec (i + 1) cap);
    repeat case_decide; lia.
Qed.

Lemma rot_next {A} (l : list A) i :
  0 <= i < Z.of_nat (length l) ->
  rot l (Z.to_nat (if i + 1 =? Z.of_nat (length l) then 0 else i + 1)) = rot l (S (Z.to_nat i)).
Proof.
  intros Hi; destruct (Z.eqb_spec (i + 1) (Z.of_nat (length l))).
  - rewrite <- rot_wrap; f_equal; lia.
  - f_equal; lia.
Qed.

Definition same_shape (p p' : muggle_memory_pool) : Prop :=
  block_size p' = block_size p /\ flag p' = flag p /\ max_delta_cap p' = max_delta_cap p.

Lemma take_block_spec debug p b F :
  pool_inv p (b :: F) ->
  exists p', take_block debug p = Some (b, p') /\ pool_inv p' F /\
    used p' = used p + 1 /\ capacity p' = capacity p /\ same_shape p p'.
Proof.
  intros Hinv; pool_open Hinv; simpl in HF.
  destruct (rot_pop cells (Z.to_nat (alloc_index p)) (length F) (Some b) (Some <$> F))
    as [Hhd Htl]; [lia|lia|done|].
  destruct (index_next (capacity p) (alloc_index p)) as [Hi Hi']; [lia|lia|].
  unfold take_block, rdi, rd; rewrite Hptr; simpl.
  rewrite decide_True, Hhd by lia; simpl.
  eexists; split; [done|]; simpl; rewrite Hi.
  rewrite (wrap_small 32 (used p + 1)) by (unfold in_width; lia).
  split; [|done]; exists cells, bufs; simpl.
  assert (Hc : length cells = Z.to_nat (capacity p)) by lia.
  split_and!; try done; try lia.
  - rewrite Hc, ring_next_ai by lia; rewrite <- Hc; exact Hfi.
  - by rewrite <- Hlen, rot_next by lia.
Qed.

Lemma free_spec p F d :
  pool_inv p F -> 0 < used p ->
  exists p', muggle_memory_pool_free p d = Some p' /\ pool_inv p' (F ++ [d]) /\
    used p' = used p - 1 /\ capacity p' = capacity p /\ same_shape p p'.
Proof.
  intros Hinv Hpos; pool_open Hinv.
  assert (Hc : length cells = Z.to_nat (capacity p)) by lia.
  assert (Hf : 0 <= free_index p < capacity p)
    by (rewrite Hfi; unfold ring_pos; case_decide; lia).
  destruct (index_next (capacity p) (free_index p)) as [Hi Hi']; [lia|lia|].
  unfold muggle_memory_pool_free; rewrite Hptr; simpl.
  rewrite wr_Some by lia; simpl; rewrite Hi.
  rewrite (wrap_small 32 (used p - 1)) by (unfold in_width; lia).
  eexists; split; [done|]; split; [|done].
  exists (<[Z.to_nat (free_index p) := Some d]> cells), bufs; simpl.
  rewrite length_insert, length_app; simpl; rewrite Nat.add_1_r.
  split_and!; try done; try lia.
  - rewrite Hc; apply ring_next_fi; rewrite <- ?Hc; lia.
  - replace (Z.to_nat (free_index p)) with
      (ring_pos (length cells) (Z.to_nat (alloc_index p)) (length F)) by lia.
    rewrite rot_push by lia; by rewrite Hring, fmap_app.
Qed.

(** *** Growing: used cells first, then free cells, then the new blocks *)
Definition copied (old : list (option Z)) (s : mp_sections) : list (option Z) * list (option Z) :=
  (slice old (fst (free_section1 s)) (snd (free_section1 s)) ++
   slice old (fst (free_section2 s)) (snd (free_section2 s)),
   slice old (fst (alloc_section1 s)) (snd (alloc_section1 s)) ++
   slice old (fst (alloc_section2 s)) (snd (alloc_section2 s))).

Definition section_ok (n : Z) (s : Z * Z) : Prop := 0 <= fst s /\ 0 <= snd s /\ fst s + snd s <= n.

Lemma copy_section_opt old A k off s :
  section_ok (Z.of_nat (length old)) s -> Z.of_nat (length A) = off -> snd s <= k ->
  (if snd s >? 0 then new ← copy_section old (A ++ uninit k) off s; Some (new, off + snd s)
   else Some (A ++ uninit k, off))
  = Some ((A ++ slice old (fst s) (snd s)) ++ uninit (k - snd s), off + snd s).
Proof.
  destruct s as [s n]; unfold section_ok; simpl; intros (H1 & H2 & H3) HA Hk.
  rewrite Z.gtb_ltb; destruct (Z.ltb_spec 0 n).
  - by rewrite copy_section_uninit by lia.
  - assert (n = 0) as -> by lia; by rewrite slice_nil, app_nil_r, Z.sub_0_r, Z.add_0_r.
Qed.

Lemma rebuild_ring_spec p old cap base :
  let s := get_sections p in
  Z.of_nat (length old) = capacity p -> capacity p <= cap ->
  section_ok (capacity p) (free_section1 s) -> section_ok (capacity p) (free_section2 s) ->
  section_ok (capacity p) (alloc_section1 s) -> section_ok (capacity p) (alloc_section2 s) ->
  (snd (alloc_section1 s) = 0 -> snd (alloc_section2 s) = 0) ->
  snd (free_section1 s) + snd (free_section2 s) + snd (alloc_section1 s)
    + snd (alloc_section2 s) = capacity p ->
  rebuild_ring p old cap base =
  Some ((fst (copied old s) ++ snd (copied old s)) ++
        (Some <$> blocks base (block_size p) (cap - capacity p)),
        snd (free_section1 s) + snd (free_section2 s)).
Proof.
  intros s Hold Hcap H1 H2 H3 H4 Hnone Hsum; unfold rebuild_ring; fold s; cbv zeta.
  pose proof H1 as (? & ? & ?); pose proof H2 as (? & ? & ?).
  pose proof H3 as (? & ? & ?); pose proof H4 as (? & ? & ?).
  rewrite <- Hold in H1, H2, H3, H4.
  rewrite (surjective_pairing (free_section1 s)) at 1.
  rewrite (copy_section_uninit old [] cap 0) by (simpl; lia); simpl.
  rewrite copy_section_opt by (rewrite ?slice_length; auto; lia); simpl.
  assert (Z.of_nat (length (slice old (fst (free_section1 s)) (snd (free_section1 s)) ++
   slice old (fst (free_section2 s)) (snd (free_section2 s)))) =
    snd (free_section1 s) + snd (free_section2 s)) as HA
    by (rewrite length_app, Nat2Z.inj_add, !slice_length; lia).
  set (A := slice old _ _ ++ slice old _ _) in *.
  assert (forall k off, off = snd (free_section1 s) + snd (free_section2 s) ->
    k = cap - snd (free_section1 s) - snd (free_section2 s) ->
    (if snd (alloc_section1 s) >? 0 then
      new ← copy_section old (A ++ uninit k) off (alloc_section1 s);
      if snd (alloc_section2 s) >? 0 then
        new ← copy_section old new (off + snd (alloc_section1 s)) (alloc_section2 s);
        Some (new, off + snd (alloc_section1 s) + snd (alloc_section2 s))
      else Some (new, off + snd (alloc_section1 s))
    else Some (A ++ uninit k, off))
    = Some ((A ++ snd (copied old s)) ++ uninit (cap - capacity p), capacity p)) as Halloc.
  { intros k off Hoff Hk; unfold copied; simpl; rewrite Z.gtb_ltb.
    destruct (Z.ltb_spec 0 (snd (alloc_section1 s))).
    - rewrite (surjective_pairing (alloc_section1 s)) at 1.
      rewrite copy_section_uninit by lia; simpl.
      rewrite copy_section_opt by (rewrite ?length_app, ?Nat2Z.inj_add, ?slice_length; auto; lia).
      rewrite <- (app_assoc A); f_equal; f_equal; [do 2 f_equal; lia|lia].
    - rewrite !slice_nil, app_nil_r by lia; f_equal; f_equal; [do 2 f_equal; lia|lia]. }
  rewrite Halloc by lia; simpl.
  rewrite fill_blocks_uninit; [done| |lia].
  unfold copied; simpl; fold A; rewrite !length_app, !Nat2Z.inj_add, HA, !slice_length; lia.
Qed.

Lemma sections_of_inv p F old :
  pool_inv p F -> memory_pool_ptr_buf p = Some old -> 0 < used p ->
  let s := get_sections p in
  (section_ok (capacity p) (free_section1 s) /\ section_ok (capacity p) (free_section2 s) /\
   section_ok (capacity p) (alloc_section1 s) /\ section_ok (capacity p) (alloc_section2 s)) /\
  (snd (alloc_section1 s) = 0 -> snd (alloc_section2 s) = 0) /\
  snd (free_section1 s) + snd (free_section2 s) = used p /\
  snd (alloc_section1 s) + snd (alloc_section2 s) = capacity p - used p /\
  snd (copied old s) = Some <$> F.
Proof.
  intros Hinv E Hpos; pool_open Hinv; rewrite Hptr in E; injection E as <-; cbv zeta.
  assert (Hc : length cells = Z.to_nat (capacity p)) by lia.
  unfold get_sections, copied, section_ok; rewrite <- Hring.
  unfold rot, slice; rewrite Z.gtb_ltb.
  destruct (Z.eqb_spec (used p) (capacity p)) as [Eu|Nu]; simpl.
  { replace (length F) with 0%nat in * by lia; revert Hfi; unfold ring_pos.
    rewrite decide_True by lia; intros Hfi; split_and!; try lia; done. }
  unfold ring_pos in Hfi; destruct (Z.ltb_spec (free_index p) (alloc_index p)); simpl;
    case_decide; try lia; split_and!; try lia.
  - rewrite take_app, length_drop.
    rewrite (take_ge _ (Z.to_nat (capacity p - alloc_index p))), (take_ge _ (length F))
      by (rewrite length_drop; lia).
    rewrite take_take; do 2 f_equal; lia.
  - rewrite app_nil_r, take_app_le by (rewrite length_drop; lia).
    f_equal; lia.
Qed.

Lemma ensure_space_spec p F a cap base :
  pool_inv p F -> 0 < used p -> capacity p < cap < 2 ^ 32 ->
  Z.land (flag p) MUGGLE_MEMORY_POOL_CONSTANT_SIZE = 0 -> alloc_space p a = Some base ->
  exists p', muggle_memory_pool_ensure_space p a cap = Some (true, p') /\
    pool_inv p' (F ++ blocks base (block_size p) (cap - capacity p)) /\
    used p' = used p /\ capacity p' = cap /\ same_shape p p'.
Proof.
  intros Hinv Hpos Hcap' Hflag Hspace; pose proof Hinv as Hinv'; pool_open Hinv.
  destruct (sections_of_inv p F cells Hinv' Hptr Hpos) as ((? & ? & ? & ?) & ? & Hs1 & Hs2 & HF').
  unfold muggle_memory_pool_ensure_space; rewrite Hflag, Hspace, Hbufs, Hptr; simpl.
  destruct (Z.leb_spec cap (capacity p)); [lia|].
  rewrite copy_out_Some by lia; simpl; rewrite slice_all by done.
  rewrite rebuild_ring_spec by (done || lia).
  assert (Hl1 : Z.of_nat (length (fst (copied cells (get_sections p)))) = used p).
  { unfold section_ok in *; unfold copied; simpl.
    rewrite length_app, Nat2Z.inj_add, !slice_length; lia. }
  destruct (copied cells (get_sections p)) as [U V]; simpl in HF', Hl1 |- *; subst V.
  eexists; split; [done|]; split; [|done].
  rewrite <- app_assoc, <- fmap_app, Hs1.
  set (G := F ++ blocks base (block_size p) (cap - capacity p)).
  assert (Z.of_nat (length G) = cap - used p) as HG
    by (unfold G; rewrite length_app, blocks_length; lia).
  exists (U ++ (Some <$> G)), (bufs ++ [base]); simpl.
  rewrite !length_app, length_fmap; simpl.
  split_and!; try done; try lia.
  - rewrite wrap_small; unfold in_width; lia.
  - rewrite wrap_small; unfold in_width; lia.
  - unfold ring_pos; rewrite decide_False by lia; lia.
  - unfold rot; rewrite drop_app_length' by lia.
    by rewrite take_app_length' by (rewrite length_fmap; lia).
Qed.

(** The block that [alloc] returns and the free blocks it leaves: the oldest
    free block; if there is none, the first block of the new buffer, or NULL
    when the pool may not or cannot grow. *)
Definition can_grow (p : muggle_memory_pool) (a : mem_answers) : option Z :=
  if grow_cap p <=? capacity p then None
  else if negb (Z.land (flag p) MUGGLE_MEMORY_POOL_CONSTANT_SIZE =? 0) then None
  else alloc_space p a.

Definition fifo_alloc (p : muggle_memory_pool) (a : mem_answers) (F : list Z) : Z * list Z :=
  match F with
  | b :: F' => (b, F')
  | [] => match can_grow p a with
          | None => (NULL, [])
          | Some base =>
              (base, tail (blocks base (block_size p) (grow_cap p - capacity p)))
          end
  end.

Lemma blocks_head base bsize n :
  0 < n -> blocks base bsize n = base :: tail (blocks base bsize n).
Proof.
  intros; unfold blocks; rewrite seqZ_cons by lia; simpl; f_equal; lia.
Qed.

Lemma alloc_grow_fail debug p a :
  used p = capacity p -> can_grow p a = None ->
  muggle_memory_pool_alloc debug p a = Some (NULL, p).
Proof.
  unfold can_grow, muggle_memory_pool_alloc, muggle_memory_pool_ensure_space; intros -> Hg.
  rewrite Z.eqb_refl; destruct (_ <=? _) eqn:E; [done|].
  by destruct (negb _); [|rewrite Hg].
Qed.

Lemma alloc_grow debug p a base :
  pool_inv p [] -> used p = capacity p -> can_grow p a = Some base ->
  exists p', muggle_memory_pool_alloc debug p a = Some (base, p') /\
    pool_inv p' (tail (blocks base (block_size p) (grow_cap p - capacity p))) /\
    used p' = used p + 1 /\ capacity p' = grow_cap p /\ same_shape p p'.
Proof.
  intros Hinv Hfull; unfold can_grow, muggle_memory_pool_alloc.
  destruct (Z.leb_spec (grow_cap p) (capacity p)); [done|].
  destruct (Z.eqb_spec (Z.land (flag p) MUGGLE_MEMORY_POOL_CONSTANT_SIZE) 0) as [Hfl|];
    [|done]; intros Hsp; simpl in Hsp.
  pose proof (wrap_range 32 (capacity p + (if (max_delta_cap p >? 0) &&
    (capacity p >? max_delta_cap p) then max_delta_cap p else capacity p)) ltac:(lia)) as Hw.
  change (in_width 32 (grow_cap p)) in Hw; unfold in_width in Hw.
  rewrite Hfull, Z.eqb_refl.
  destruct (ensure_space_spec p [] a (grow_cap p) base) as (p1 & -> & Hi1 & Hu1 & Hc1 & Hsh);
    try done; [pool_open Hinv; lia|lia|]; simpl.
  rewrite app_nil_l, blocks_head in Hi1 by lia.
  destruct (take_block_spec debug p1 _ _ Hi1) as (p2 & -> & Hi2 & Hu2 & Hc2 & Hsh2).
  exists p2; unfold same_shape in *; intuition congruence.
Qed.

(** [alloc] and [free] are the two ends of the queue of free blocks. *)
Lemma alloc_fifo debug p a F :
  pool_inv p F ->
  exists p', muggle_memory_pool_alloc debug p a = Some (fst (fifo_alloc p a F), p') /\
    pool_inv p' (snd (fifo_alloc p a F)) /\ same_shape p p' /\
    capacity p' = (if used p =? capacity p then
                     if can_grow p a is Some _ then grow_cap p else capacity p
                   else capacity p) /\
    used p' = (if (used p =? capacity p) && negb (bool_decide (is_Some (can_grow p a)))
               then used p else used p + 1).
Proof.
  intros Hinv; destruct (Z.eqb_spec (used p) (capacity p)) as [Hfull|Hne]; simpl.
  - assert (F = []) as -> by (pool_open Hinv; destruct F; simpl in HF; [done|lia]).
    unfold fifo_alloc; destruct (can_grow p a) as [base|] eqn:Hg; simpl.
    + destruct (alloc_grow debug p a base Hinv Hfull Hg) as (p' & ? & ? & ? & ? & ?).
      exists p'; eauto 10.
    + exists p; rewrite alloc_grow_fail by done; unfold same_shape; eauto 10.
  - destruct F as [|b F]; [pool_open Hinv; simpl in HF; lia|]; simpl.
    destruct (take_block_spec debug p b F Hinv) as (p' & Ht & ? & ? & ? & ?).
    exists p'; unfold muggle_memory_pool_alloc.
    destruct (Z.eqb_spec (used p) (capacity p)); [done|]; eauto 10.
Qed.

(** ** Ownership of blocks

    A client's view of the pool: the blocks it holds ([live]) and, as a
    ghost, all blocks of the pool's buffers ([owned]). *)

(** Blocks of [bsize] bytes that do not overlap. *)
Definition apart (bsize : Z) (l : list Z) : Prop :=
  NoDup l /\ (forall x, x ∈ l -> 0 < x) /\
  forall x y, x ∈ l -> y ∈ l -> x <> y -> x + bsize <= y \/ y + bsize <= x.

(** What the system's allocator promises of a buffer of [n] blocks: it is
    NULL or does not overlap a block of the pool. *)
Definition fresh_region (bsize n base : Z) (l : list Z) : Prop :=
  base = NULL \/
  0 < base /\ forall x, x ∈ l -> x + bsize <= base \/ base + n * bsize <= x.

Lemma apart_perm bsize l l' : l ≡ₚ l' -> apart bsize l -> apart bsize l'.
Proof.
  intros Hp (Hnd & Hpos & Hap); split_and!; [by rewrite <- Hp| |];
    setoid_rewrite <- Hp; done.
Qed.

Lemma blocks_NoDup base bsize n : 0 < bsize -> NoDup (blocks base bsize n).
Proof.
  intros Hb; apply NoDup_fmap_2_strong; [|apply NoDup_seqZ].
  intros i j _ _ E; nia.
Qed.

Lemma block_bounds bsize n i :
  0 < bsize -> 0 <= i < n -> 0 <= i * bsize /\ i * bsize + bsize <= n * bsize.
Proof. nia. Qed.

Lemma apart_app bsize l base n :
  0 < bsize -> 0 < base -> apart bsize l -> fresh_region bsize n base l ->
  apart bsize (l ++ blocks base bsize n).
Proof.
  intros Hb Hbase (Hnd & Hpos & Hap) [->|[_ Hfr]]; [unfold NULL in Hbase; lia|].
  split_and!.
  - apply NoDup_app; split_and!; [done| |by apply blocks_NoDup].
    intros x Hx (i & -> & Hi)%blocks_elem.
    specialize (Hfr _ Hx); pose proof (block_bounds bsize n i Hb Hi); lia.
  - intros x [Hx|(i & -> & Hi)%blocks_elem]%elem_of_app; [auto|nia].
  - intros x y [Hx|(i & -> & Hi)%blocks_elem]%elem_of_app
      [Hy|(j & -> & Hj)%blocks_elem]%elem_of_app Hne; [auto| | |].
    + specialize (Hfr _ Hx); pose proof (block_bounds bsize n j Hb Hj); lia.
    + specialize (Hfr _ Hy); pose proof (block_bounds bsize n i Hb Hi); lia.
    + assert (i <> j) by congruence; destruct (decide (i < j)); [left|right].
      * pose proof (block_bounds bsize j i); lia.
      * pose proof (block_bounds bsize i j); lia.
Qed.

Definition mp_state : Type := muggle_memory_pool * list Z * list Z.

(** The blocks added by a call that changed the capacity. *)
Definition added (p p' : muggle_memory_pool) (a : mem_answers) : list Z :=
  blocks (ma_data a) (block_size p) (capacity p' - capacity p).

Inductive mp_step : mp_state -> mp_state -> Prop :=
| step_alloc debug p live owned a r p' :
    fresh_region (block_size p) (grow_cap p - capacity p) (ma_data a) owned ->
    muggle_memory_pool_alloc debug p a = Some (r, p') ->
    mp_step (p, live, owned)
      (p', (if r =? NULL then live else r :: live), owned ++ added p p' a)
| step_free p live live' owned d p' :
    live ≡ₚ d :: live' -> muggle_memory_pool_free p d = Some p' ->
    mp_step (p, live, owned) (p', live', owned)
| step_ensure p live owned a cap ok p' :
    0 <= cap < 2 ^ 32 -> 0 < used p ->
    fresh_region (block_size p) (cap - capacity p) (ma_data a) owned ->
    muggle_memory_pool_ensure_space p a cap = Some (ok, p') ->
    mp_step (p, live, owned) (p', live, owned ++ added p p' a)
| step_set_flag p live owned f :
    mp_step (p, live, owned) (muggle_memory_pool_set_flag p f, live, owned)
| step_set_max p live owned d :
    mp_step (p, live, owned) (muggle_memory_pool_set_max_delta_cap p d, live, owned).

Inductive mp_start : mp_state -> Prop :=
| start_init a n bsize p :
    0 <= n < 2 ^ 32 -> 0 < bsize < 2 ^ 32 -> 0 <= ma_data a ->
    muggle_memory_pool_init a n bsize = Some (true, p) ->
    mp_start (p, [], blocks (ma_data a) bsize (capacity p))
| start_init_thp a n bsize p :
    0 <= n < 2 ^ 32 -> 0 < bsize < 2 ^ 32 -> 0 <= ma_data a ->
    muggle_memory_pool_init_thp a n bsize = Some (true, p) ->
    mp_start (p, [], blocks (ma_data a) bsize (capacity p)).

Definition mp_reachable (s : mp_state) : Prop := exists s0, mp_start s0 /\ rtc mp_step s0 s.

Definition mp_wf (s : mp_state) : Prop :=
  let '(p, live, owned) := s in
  exists F, pool_inv p F /\ F ++ live ≡ₚ owned /\ Z.of_nat (length owned) = capacity p /\
    apart (block_size p) owned /\ 0 < block_size p.

Lemma ready_inv n bsize fl base :
  0 < n < 2 ^ 32 ->
  exists cells, fill_blocks base bsize 0 n (uninit n) = Some cells /\
    pool_inv (mp_ready n bsize fl base cells) (blocks base bsize n).
Proof.
  intros Hn; pose proof (fill_blocks_uninit base bsize [] 0 n) as E.
  simpl in E; rewrite E by lia; eexists; split; [done|].
  exists (Some <$> blocks base bsize n), [base]; simpl.
  rewrite length_fmap, blocks_length; split_and!; try done; try lia.
  - unfold ring_pos; rewrite decide_False; lia.
  - unfold rot; rewrite drop_0, take_0, app_nil_r.
    apply take_ge; by rewrite length_fmap, blocks_length.
Qed.

Lemma ready_wf n bsize fl base :
  0 < n < 2 ^ 32 -> 0 < bsize -> 0 < base ->
  exists cells, fill_blocks base bsize 0 n (uninit n) = Some cells /\
    mp_wf (mp_ready n bsize fl base cells, [], blocks base bsize n).
Proof.
  intros Hn Hb Hbase; destruct (ready_inv n bsize fl base Hn) as (cells & Hf & Hinv).
  exists cells; split; [done|]; exists (blocks base bsize n).
  rewrite app_nil_r, blocks_length; split_and!; try done; [simpl; lia|].
  apply (apart_app bsize []); try done; [|right; split; [done|set_solver]].
  split_and!; [constructor|set_solver|set_solver].
Qed.

(** Both initialisers end in the same pool when they succeed. *)
Definition initial_capacity (n : Z) : Z := if n =? 0 then 8 else n.

Lemma init_success a n bsize p :
  muggle_memory_pool_init a n bsize = Some (true, p) ->
  ma_data a <> NULL /\ exists cells,
    fill_blocks (ma_data a) bsize 0 (initial_capacity n) (uninit (initial_capacity n))
      = Some cells /\ p = mp_ready (initial_capacity n) bsize 0 (ma_data a) cells.
Proof.
  unfold muggle_memory_pool_init; fold (initial_capacity n).
  destruct (bsize =? 0), (ma_bufs a), (ma_ptr a), (Z.eqb_spec (ma_data a) NULL);
    try discriminate; cbn [negb].
  intros (cells & Hf & E)%bind_Some; injection E as <-; eauto.
Qed.

Lemma init_thp_success a n bsize p :
  muggle_memory_pool_init_thp a n bsize = Some (true, p) ->
  ma_data a <> NULL /\ exists cells,
    fill_blocks (ma_data a) bsize 0 (initial_capacity n) (uninit (initial_capacity n))
      = Some cells /\
    p = mp_ready (initial_capacity n) bsize MUGGLE_MEMORY_POOL_THP (ma_data a) cells.
Proof.
  unfold muggle_memory_pool_init_thp; fold (initial_capacity n).
  destruct (bsize =? 0), (ma_bufs a), (ma_ptr a), (Z.eqb_spec (ma_data a) NULL),
    (ma_advise_ptr a), (ma_advise_data a); try discriminate; cbn [negb].
  intros (cells & Hf & E)%bind_Some; injection E as <-; eauto.
Qed.

Lemma start_wf s : mp_start s -> mp_wf s.
Proof.
  intros Hs; destruct Hs as [a n bsize p Hn Hb Ha Hi|a n bsize p Hn Hb Ha Hi];
    [apply init_success in Hi|apply init_thp_success in Hi];
    destruct Hi as (Hd & cells & Hf & ->); unfold NULL in Hd;
    (assert (0 < initial_capacity n < 2 ^ 32)
       by (unfold initial_capacity; destruct (Z.eqb_spec n 0); lia)).
  - destruct (ready_wf (initial_capacity n) bsize 0 (ma_data a))
      as (cells' & Hf' & Hwf); try lia; rewrite Hf in Hf'; by injection Hf' as ->.
  - destruct (ready_wf (initial_capacity n) bsize MUGGLE_MEMORY_POOL_THP (ma_data a))
      as (cells' & Hf' & Hwf); try lia; rewrite Hf in Hf'; by injection Hf' as ->.
Qed.

Lemma alloc_space_data p a base :
  alloc_space p a = Some base -> base = ma_data a /\ base <> NULL.
Proof.
  unfold alloc_space; destruct (ma_bufs a), (Z.eqb_spec (ma_data a) NULL), (ma_ptr a);
    try discriminate; cbn [negb];
    destruct (negb _), (ma_advise_ptr a), (ma_advise_data a); try discriminate; cbn [negb];
    intros E; injection E as <-; done.
Qed.

Lemma can_grow_data p a base :
  can_grow p a = Some base -> base = ma_data a /\ base <> NULL /\ capacity p < grow_cap p.
Proof.
  unfold can_grow; destruct (Z.leb_spec (grow_cap p) (capacity p)); [done|].
  destruct (negb _); [done|]; intros [? ?]%alloc_space_data; auto.
Qed.

(** Every outcome of [ensure_space] on a pool with a block in use. *)
Lemma ensure_cases p F a cap :
  pool_inv p F -> 0 < used p -> 0 <= cap < 2 ^ 32 ->
  exists ok p', muggle_memory_pool_ensure_space p a cap = Some (ok, p') /\
    (p' = p \/
     ma_data a <> NULL /\ capacity p < cap /\
     pool_inv p' (F ++ blocks (ma_data a) (block_size p) (cap - capacity p)) /\
     used p' = used p /\ capacity p' = cap /\ same_shape p p').
Proof.
  intros Hinv Hu Hc.
  destruct (Z.leb_spec cap (capacity p)) as [Hle|Hlt].
  { exists true, p; unfold muggle_memory_pool_ensure_space; split; [|auto].
    by destruct (Z.leb_spec cap (capacity p)); [|lia]. }
  destruct (Z.eqb_spec (Z.land (flag p) MUGGLE_MEMORY_POOL_CONSTANT_SIZE) 0) as [Hf|Hf].
  2:{ exists false, p; unfold muggle_memory_pool_ensure_space; split; [|auto].
      destruct (Z.leb_spec cap (capacity p)); [lia|].
      by destruct (Z.eqb_spec (Z.land (flag p) MUGGLE_MEMORY_POOL_CONSTANT_SIZE) 0). }
  destruct (alloc_space p a) as [base|] eqn:Hs.
  - destruct (ensure_space_spec p F a cap base) as (p' & He & ?); try done; try lia.
    destruct (alloc_space_data _ _ _ Hs) as [-> ?]; exists true, p'; intuition.
  - exists false, p; unfold muggle_memory_pool_ensure_space; rewrite Hs, Hf; split; [|auto].
    by destruct (Z.leb_spec cap (capacity p)); [lia|].
Qed.

Lemma added_none p p' a : capacity p' = capacity p -> added p p' a = [].
Proof. intros E; unfold added; by rewrite E, Z.sub_diag. Qed.

Lemma pool_inv_length p F :
  pool_inv p F -> Z.of_nat (length F) = capacity p - used p /\ 0 <= used p <= capacity p.
Proof. intros Hinv; pool_open Hinv; done. Qed.

(** What [alloc] returns on a well-formed state, and that the state stays
    well formed. *)
Lemma wf_alloc debug p live owned a :
  mp_wf (p, live, owned) ->
  fresh_region (block_size p) (grow_cap p - capacity p) (ma_data a) owned ->
  exists r p', muggle_memory_pool_alloc debug p a = Some (r, p') /\
    mp_wf (p', (if r =? NULL then live else r :: live), owned ++ added p p' a) /\
    (used p < capacity p -> r <> NULL).
Proof.
  intros (F & Hinv & Hperm & Hlen & Hap & Hb) Hfr.
  destruct (alloc_fifo debug p a F Hinv) as (p' & Ha & Hinv' & (Hbs & _ & _) & Hc' & Hu').
  destruct (pool_inv_length p F Hinv) as [HF Hu]; eexists _, p'; split; [exact Ha|].
  destruct F as [|b F]; cbn [fifo_alloc fst snd] in *.
  - assert (used p = capacity p) as Hfull by (simpl in HF; lia).
    rewrite Hfull, Z.eqb_refl in Hc'; split; [|lia].
    destruct (can_grow p a) as [base|] eqn:Hg; cbn [fst snd] in *.
    + destruct (can_grow_data _ _ _ Hg) as (-> & Hnn & Hlt).
      rewrite (proj2 (Z.eqb_neq _ _) Hnn).
      destruct Hfr as [?|Hfr]; [done|]; exists (tail (added p p' a)).
      unfold added; rewrite Hc', Hbs; split_and!; try done.
      * rewrite <- Permutation_middle, <- Hperm, app_nil_l.
        rewrite (blocks_head (ma_data a)) at 2 by lia; simpl.
        by rewrite Permutation_app_comm, <- Permutation_middle, Permutation_app_comm.
      * rewrite length_app, blocks_length; lia.
      * apply apart_app; [done|tauto|done|by right].
    + rewrite added_none, app_nil_r, Z.eqb_refl by done.
      exists []; rewrite Hbs, Hc'; done.
  - assert (b ∈ owned) as Hbin by (rewrite <- Hperm; set_solver).
    assert (b <> NULL) as Hnn by (apply Hap in Hbin; unfold NULL; lia).
    rewrite (proj2 (Z.eqb_neq _ _) Hnn); split; [|done].
    rewrite (proj2 (Z.eqb_neq _ _)) in Hc' by (simpl in HF; lia).
    rewrite added_none, app_nil_r by done; exists F; rewrite Hbs, Hc'.
    split_and!; try done; by rewrite <- Permutation_middle.
Qed.

Lemma wf_free p live live' owned d :
  mp_wf (p, live, owned) -> live ≡ₚ d :: live' ->
  exists p', muggle_memory_pool_free p d = Some p' /\ mp_wf (p', live', owned).
Proof.
  intros (F & Hinv & Hperm & Hlen & Hap & Hb) Hd.
  destruct (pool_inv_length p F Hinv) as [HF Hu].
  assert (0 < used p) as Hpos.
  { apply Permutation_length in Hperm, Hd; rewrite length_app in Hperm; simpl in Hd; lia. }
  destruct (free_spec p F d Hinv Hpos) as (p' & Hf & Hinv' & _ & Hc & (Hbs & _)).
  exists p'; split; [done|]; exists (F ++ [d]); rewrite Hc, Hbs; split_and!; try done.
  by rewrite <- app_assoc, <- Hperm, Hd.
Qed.

Lemma wf_step s s' : mp_wf s -> mp_step s s' -> mp_wf s'.
Proof.
  intros Hwf Hstep; destruct Hstep as
    [debug p live owned a r p' Hfr Ha|p live live' owned d p' Hd Hf
    |p live owned a cap ok p' Hc Hu Hfr He|p live owned f|p live owned d].
  - destruct (wf_alloc debug p live owned a Hwf Hfr) as (r' & q & Ha' & ? & _).
    rewrite Ha in Ha'; by injection Ha' as -> ->.
  - destruct (wf_free p live live' owned d Hwf Hd) as (q & Hf' & ?).
    rewrite Hf in Hf'; by injection Hf' as ->.
  - destruct Hwf as (F & Hinv & Hperm & Hlen & Hap & Hb).
    destruct (ensure_cases p F a cap Hinv Hu Hc) as (ok' & q & He' & Hcase).
    rewrite He in He'; injection He' as <- <-.
    destruct Hcase as [->|(Hnn & Hlt & Hinv' & Hu' & Hc' & (Hbs & _))].
    + rewrite added_none, app_nil_r by done; exists F; done.
    + destruct Hfr as [?|Hfr]; [done|]; unfold added; rewrite Hc'.
      exists (F ++ blocks (ma_data a) (block_size p) (cap - capacity p)).
      rewrite Hbs, Hc', length_app, blocks_length; split_and!; try done; try lia.
      * by rewrite <- Hperm, <- !app_assoc, (Permutation_app_comm live).
      * apply apart_app; [done|tauto|done|by right].
  - exact Hwf.
  - exact Hwf.
Qed.

Lemma reachable_wf s : mp_reachable s -> mp_wf s.
Proof.
  intros (s0 & H0%start_wf & Hr); induction Hr; eauto using wf_step.
Qed.

(** [destroy] frees every data buffer. *)
Lemma destroy_outcome p F : pool_inv p F ->
  exists bufs, memory_pool_data_bufs p = Some bufs /\
    muggle_memory_pool_destroy p = Some (bufs, mp_zero).
Proof.
  intros Hinv; pool_open Hinv; exists bufs; split; [done|].
  unfold muggle_memory_pool_destroy; rewrite Hbufs, Hnum.
  unfold copy_out, slice; rewrite decide_True by lia; cbn [mbind option_bind].
  by rewrite !Nat2Z.id, drop_0, firstn_all.
Qed.

(** The outcome of [init]. *)
Lemma init_outcome a n bsize :
  0 <= n < 2 ^ 32 -> 0 < ma_data a \/ ma_data a = NULL ->
  exists ok p, muggle_memory_pool_init a n bsize = Some (ok, p) /\
    (ok = true <-> bsize <> 0 /\ ma_bufs a = true /\ ma_ptr a = true /\ ma_data a <> NULL) /\
    (ok = false -> p = mp_zero) /\
    (ok = true -> 0 < bsize ->
     pool_inv p (blocks (ma_data a) bsize (initial_capacity n)) /\
     capacity p = initial_capacity n /\ used p = 0 /\
     mp_wf (p, [], blocks (ma_data a) bsize (initial_capacity n))).
Proof.
  intros Hn Hd.
  assert (0 < initial_capacity n < 2 ^ 32)
    by (unfold initial_capacity; destruct (Z.eqb_spec n 0); lia).
  unfold muggle_memory_pool_init; fold (initial_capacity n).
  destruct (Z.eqb_spec bsize 0), (ma_bufs a), (ma_ptr a), (Z.eqb_spec (ma_data a) NULL);
    cbn [negb];
    try (exists false, mp_zero; split; [done|]; split; [|done];
         split; [done|intros (? & ? & ? & ?); congruence]).
  destruct (ready_inv (initial_capacity n) bsize 0 (ma_data a)) as (cells & E & Hinv); [lia|].
  rewrite E; eexists true, _; split; [done|]; split; [done|]; split; [done|].
  intros _ Hb; split; [done|]; split; [done|]; split; [done|].
  destruct (ready_wf (initial_capacity n) bsize 0 (ma_data a)) as (cells' & E' & Hwf);
    [done|done|by destruct Hd|]; rewrite E in E'; by injection E' as <-.
Qed.

(** ** Properties *)

(** C1: Safety of the pool against any well-behaved client.  After any
    sequence of allocations (with growth), frees of blocks that are held, and
    explicit [ensure_space] calls on a pool with a block in use, [alloc] does
    not fault and returns NULL or a block that overlaps no block still held;
    it returns a block whenever fewer than [capacity] blocks are in use; and
    every held block can be freed without a fault. *)
Theorem memory_pool_never_reuses_live_block debug p live owned a :
  mp_reachable (p, live, owned) ->
  fresh_region (block_size p) (grow_cap p - capacity p) (ma_data a) owned ->
  (exists r p', muggle_memory_pool_alloc debug p a = Some (r, p') /\
     (used p < capacity p -> r <> NULL) /\
     (r = NULL \/
      forall y, y ∈ live -> r + block_size p <= y \/ y + block_size p <= r)) /\
  used p = Z.of_nat (length live) /\
  (forall d, d ∈ live -> is_Some (muggle_memory_pool_free p d)).
Proof.
  intros Hwf%reachable_wf Hfr; split_and!.
  - destruct (wf_alloc debug p live owned a Hwf Hfr) as (r & p' & Ha & Hwf' & Hn).
    exists r, p'; split_and!; [done|done|].
    destruct (Z.eqb_spec r NULL) as [|Hr]; [by left|right; intros y Hy].
    destruct Hwf' as (F' & _ & Hperm & _ & Hap & _).
    assert (block_size p' = block_size p) as Hbs.
    { destruct Hwf as (F & Hinv & _); destruct (alloc_fifo debug p a F Hinv)
        as (q & Ha' & _ & (Hb & _) & _); rewrite Ha in Ha'; by injection Ha' as _ ->. }
    rewrite Hbs in Hap; apply (apart_perm _ _ _ (symmetry Hperm)) in Hap.
    destruct Hap as ((_ & _ & Hnd)%NoDup_app & _ & Hap).
    apply NoDup_cons in Hnd as [Hni _]; apply Hap; [set_solver..|].
    intros ->; done.
  - destruct Hwf as (F & Hinv & Hperm & Hlen & _).
    apply pool_inv_length in Hinv as [HF _]; apply Permutation_length in Hperm.
    rewrite length_app in Hperm; lia.
  - intros d (l1 & l2 & ->)%list_elem_of_split.
    destruct (wf_free p (l1 ++ d :: l2) (l1 ++ l2) owned d Hwf) as (p' & -> & _); [|done].
    by rewrite Permutation_middle.
Qed.

(** A pool of two blocks at addresses 1000 and 1016, one of them taken. *)
Definition sample_answers : mem_answers := MA true true 1000 true true.
Definition no_memory : mem_answers := MA false false NULL false false.

Definition sample_pool : muggle_memory_pool :=
  MP (Some [1000]) (Some [Some 1000; Some 1016]) 1 0 2 1 16 1 0 134217728 0.

Lemma sample_pool_reachable : mp_reachable (sample_pool, [1000], [1000; 1016]).
Proof.
  exists (mp_ready 2 16 0 1000 [Some 1000; Some 1016], [], [1000; 1016]); split.
  - apply (start_init sample_answers 2 16); [lia|lia|simpl; lia|vm_compute; reflexivity].
  - eapply rtc_l; [|apply rtc_refl].
    exact (step_alloc false (mp_ready 2 16 0 1000 [Some 1000; Some 1016]) [] [1000; 1016]
      no_memory 1000 sample_pool (or_introl eq_refl) eq_refl).
Qed.

Lemma memory_pool_never_reuses_live_block_witness :
  exists r p', muggle_memory_pool_alloc false sample_pool no_memory = Some (r, p') /\
    (r = NULL \/ forall y, y ∈ [1000] -> r + 16 <= y \/ y + 16 <= r).
Proof.
  destruct (memory_pool_never_reuses_live_block false sample_pool [1000] [1000; 1016]
    no_memory sample_pool_reachable (or_introl eq_refl)) as ((r & p' & Ha & _ & Hr) & _ & _).
  exists r, p'; split; [exact Ha|exact Hr].
Defined.

(** The pool refines a queue of free blocks.  Whenever [F] are its free
    blocks, oldest first, [alloc] returns the oldest of them and leaves the
    rest; with none left it returns the first block of the new buffer and
    leaves the others, or returns NULL and changes nothing if it may not grow
    or memory is refused; [free] appends the returned block; and
    [ensure_space] appends the new blocks or changes nothing. *)
Theorem memory_pool_refines_queue debug p a F :
  pool_inv p F ->
  (exists p', muggle_memory_pool_alloc debug p a = Some (fst (fifo_alloc p a F), p') /\
     pool_inv p' (snd (fifo_alloc p a F))) /\
  (forall d, 0 < used p ->
     exists p', muggle_memory_pool_free p d = Some p' /\ pool_inv p' (F ++ [d])) /\
  (forall cap, 0 < used p -> 0 <= cap < 2 ^ 32 ->
     exists ok p', muggle_memory_pool_ensure_space p a cap = Some (ok, p') /\
       (p' = p \/
        pool_inv p' (F ++ blocks (ma_data a) (block_size p) (cap - capacity p)))).
Proof.
  intros Hinv; split_and!.
  - destruct (alloc_fifo debug p a F Hinv) as (p' & ? & ? & _); eauto.
  - intros d Hu; destruct (free_spec p F d Hinv Hu) as (p' & ? & ? & _); eauto.
  - intros cap Hu Hc; destruct (ensure_cases p F a cap Hinv Hu Hc)
      as (ok & p' & ? & [?|(_ & _ & ? & _)]); eauto 10.
Qed.

Lemma memory_pool_refines_queue_witness :
  exists p', muggle_memory_pool_alloc false sample_pool no_memory
    = Some (fst (fifo_alloc sample_pool no_memory [1016]), p') /\
    pool_inv p' (snd (fifo_alloc sample_pool no_memory [1016])).
Proof.
  refine (proj1 (memory_pool_refines_queue false sample_pool no_memory [1016] _)).
  exists [Some 1000; Some 1016], [1000]; split_and!; vm_compute; congruence.
Defined.

(** [init] succeeds exactly when the block size is not zero and the three
    allocations succeed; then the free blocks are all blocks of the buffer,
    in address order, and otherwise the pool is left zeroed. *)
Theorem memory_pool_init_result a n bsize :
  0 <= n < 2 ^ 32 -> 0 < ma_data a \/ ma_data a = NULL ->
  exists ok p, muggle_memory_pool_init a n bsize = Some (ok, p) /\
    (ok = true <-> bsize <> 0 /\ ma_bufs a = true /\ ma_ptr a = true /\ ma_data a <> NULL) /\
    (ok = false -> p = mp_zero) /\
    (ok = true -> 0 < bsize ->
     pool_inv p (blocks (ma_data a) bsize (initial_capacity n)) /\
     capacity p = initial_capacity n /\ used p = 0).
Proof.
  intros Hn Hd; destruct (init_outcome a n bsize Hn Hd) as (ok & p & H1 & H2 & H3 & H4).
  exists ok, p; split_and?; try done; intros Hok Hb; by destruct (H4 Hok Hb) as (? & ? & ? & _).
Qed.

Lemma memory_pool_init_result_witness :
  exists ok p, muggle_memory_pool_init sample_answers 0 16 = Some (ok, p) /\
    (ok = true -> 0 < 16 -> pool_inv p (blocks 1000 16 8) /\ capacity p = 8 /\ used p = 0).
Proof.
  destruct (memory_pool_init_result sample_answers 0 16) as (ok & p & Hi & _ & _ & Hinv);
    [lia|left; simpl; lia|].
  exists ok, p; split; [exact Hi|exact Hinv].
Defined.

(** A client's calls on one pool, with the blocks they return. *)
Inductive mp_call :=
| CallAlloc
| CallFree (d : Z)
| CallEnsure (a : mem_answers) (cap : Z).

Fixpoint mp_calls (p : muggle_memory_pool) (cs : list mp_call) : option (list Z) :=
  match cs with
  | [] => Some []
  | CallAlloc :: cs =>
      '(r, p') ← muggle_memory_pool_alloc false p no_memory; rs ← mp_calls p' cs; Some (r :: rs)
  | CallFree d :: cs => p' ← muggle_memory_pool_free p d; mp_calls p' cs
  | CallEnsure a cap :: cs =>
      '(_, p') ← muggle_memory_pool_ensure_space p a cap; mp_calls p' cs
  end.

(** [ensure_space] on a pool with no block in use takes the cells of free
    blocks for cells of used ones.  A client that grows a fresh pool of two
    blocks to four, takes a block, returns it and takes four blocks receives
    the block at 2000 twice, although it holds it already. *)
Theorem memory_pool_ensure_space_empty_defect :
  (p ← (muggle_memory_pool_init sample_answers 2 16 ≫= fun r => Some (snd r));
   mp_calls p [CallEnsure (MA true true 2000 true true) 4; CallAlloc; CallFree 2000;
               CallAlloc; CallAlloc; CallAlloc; CallAlloc])
  = Some [2000; 2016; 2000; 1016; 2000].
Proof. vm_compute; reflexivity. Qed.
