(* ===== verification/DataArray.v ===== *)
(** * Node arrays of the containers of [dsaa/]

    Array list, stack and heap keep their elements in the first cells of a
    [malloc]ed array of nodes and share four loops: copying the nodes to a
    larger array, freeing the data of every node, and moving nodes one cell
    up or down.  [holds cells xs] says that the first cells are initialised
    and hold [xs]. *)
From S2P Require Import Prelude Utils.

Section NodeArrays.
Context {A : Type}.
Implicit Types (cells : list (option A)) (xs : list A).

(** [for (i = 0; i < n; i++) new[i] = old[i]]. *)
Definition copy_nodes (old new : list (option A)) (n : Z) : option (list (option A)) :=
  for_up (fun i new => x ← rdi old i; wr new i (Some x)) (Z.to_nat n) 0 new.

(** [for (i = n - 1; i >= idx; i--) nodes[i + 1] = nodes[i]]. *)
Definition shift_up cells (n idx : Z) : option (list (option A)) :=
  for_down (fun i l => x ← rdi l i; wr l (i + 1) (Some x)) (Z.to_nat (n - idx)) (n - 1) cells.

(** [for (i = idx; i < n - 1; i++) nodes[i] = nodes[i + 1]]. *)
Definition shift_down cells (n idx : Z) : option (list (option A)) :=
  for_up (fun i l => x ← rdi l (i + 1); wr l i (Some x)) (Z.to_nat (n - 1 - idx)) idx cells.

(** The calls of [func_free] on the nodes below [n], in order; [value] is
    the data of a node, which is freed unless it is NULL. *)
Definition free_nodes (value : A -> Z) cells (n : Z) : option (list Z) :=
  for_up (fun i tr => x ← rdi cells i;
                      Some (if value x =? NULL then tr else tr ++ [value x])) (Z.to_nat n) 0 [].

Definition holds cells xs : Prop := exists rest, cells = (Some <$> xs) ++ rest.

Lemma holds_length cells xs : holds cells xs -> (length xs <= length cells)%nat.
Proof. intros [rest ->]; rewrite length_app, length_fmap; lia. Qed.

Lemma holds_nil cells : holds cells [].
Proof. by exists cells. Qed.

Lemma holds_take cells xs n : holds cells xs -> holds cells (take n xs).
Proof.
  intros [rest ->]; exists ((Some <$> drop n xs) ++ rest).
  by rewrite app_assoc, <- fmap_app, take_drop.
Qed.

Lemma rdi_app_l xs (rest : list (option A)) i :
  rdi ((Some <$> xs) ++ rest) i = rd xs i \/ Z.of_nat (length xs) <= i.
Proof.
  destruct (decide (Z.of_nat (length xs) <= i)) as [|Hlt]; [by right|left].
  unfold rdi, rd; case_decide; [|done]; simpl.
  rewrite lookup_app_l by (rewrite length_fmap; lia); rewrite list_lookup_fmap.
  by destruct (xs !! Z.to_nat i).
Qed.

Lemma holds_rdi cells xs i :
  holds cells xs -> i < Z.of_nat (length xs) -> rdi cells i = rd xs i.
Proof. intros [rest ->] Hi; destruct (rdi_app_l xs rest i); [done|lia]. Qed.

Lemma rdi_mid (pre : list (option A)) x (rest : list (option A)) i :
  i = Z.of_nat (length pre) -> rdi (pre ++ Some x :: rest) i = Some x.
Proof.
  intros ->; unfold rdi; rewrite rd_nat, lookup_app_r, Nat.sub_diag by lia; done.
Qed.

Lemma holds_wr_end cells xs x :
  holds cells xs -> (length xs < length cells)%nat ->
  exists cells', wr cells (Z.of_nat (length xs)) (Some x) = Some cells' /\
    holds cells' (xs ++ [x]) /\ length cells' = length cells.
Proof.
  intros [rest ->] Hlt; destruct rest as [|r rest].
  { rewrite app_nil_r, length_fmap in Hlt; lia. }
  rewrite wr_mid by (by rewrite length_fmap).
  eexists; split; [done|]; split.
  - exists rest; by rewrite fmap_app, <- app_assoc.
  - rewrite !length_app; simpl; lia.
Qed.

Lemma copy_nodes_spec old xs m :
  holds old xs -> Z.of_nat (length xs) <= m ->
  exists new, copy_nodes old (uninit m) (Z.of_nat (length xs)) = Some new /\
    holds new xs /\ Z.of_nat (length new) = m.
Proof.
  intros Hold Hm; unfold copy_nodes; rewrite Nat2Z.id.
  destruct (for_up_inv (fun i new => x ← rdi old i; wr new i (Some x))
    (fun i new => holds new (take (Z.to_nat i) xs) /\ Z.of_nat (length new) = m)
    (length xs) 0 (uninit m)) as (new & -> & Hn & Hl).
  - split; [apply holds_nil|]; unfold uninit; rewrite length_replicate; lia.
  - intros j new Hj [Hn Hl]; rewrite (holds_rdi old xs) by (done || lia).
    destruct (rd_is_Some xs j) as [x Hx]; [lia|]; rewrite Hx; simpl.
    assert (Hj' : length (take (Z.to_nat j) xs) = Z.to_nat j) by (rewrite length_take; lia).
    destruct (holds_wr_end new (take (Z.to_nat j) xs) x Hn) as (new' & Hw & Hn' & Hl'); [lia|].
    rewrite Hj', Z2Nat.id in Hw by lia; exists new'; split; [done|]; split; [|lia].
    replace (Z.to_nat (j + 1)) with (S (Z.to_nat j)) by lia.
    rewrite (take_S_r _ _ x); [done|].
    unfold rd in Hx; by rewrite decide_True in Hx by lia.
  - exists new; split; [done|]; split; [|done].
    by rewrite Z.add_0_l, Nat2Z.id, firstn_all in Hn.
Qed.

Lemma shift_up_aux (pre : list (option A)) (suf : list A) c rest :
  exists c',
    for_down (fun i l => x ← rdi l i; wr l (i + 1) (Some x)) (length suf)
      (Z.of_nat (length pre + length suf) - 1) (pre ++ (Some <$> suf) ++ c :: rest)
    = Some (pre ++ c' :: (Some <$> suf) ++ rest).
Proof.
  revert c rest; induction suf as [|y suf IH] using rev_ind; intros c rest; simpl.
  { by exists c. }
  rewrite length_app, Nat.add_1_r; simpl.
  rewrite fmap_app; cbn [fmap list_fmap]; rewrite <- app_assoc, app_assoc; simpl.
  rewrite rdi_mid by (rewrite length_app, length_fmap; lia); simpl.
  rewrite cons_middle, app_assoc, wr_mid
    by (rewrite !length_app, length_fmap; simpl; lia); simpl.
  rewrite <- !app_assoc; simpl; destruct (IH (Some y) (Some y :: rest)) as [c' E].
  exists c'; rewrite <- E; f_equal; lia.
Qed.

(** Making room at [idx]. *)
Lemma shift_up_spec cells xs idx x :
  holds cells xs -> (length xs < length cells)%nat -> 0 <= idx <= Z.of_nat (length xs) ->
  exists cells1 cells2,
    shift_up cells (Z.of_nat (length xs)) idx = Some cells1 /\
    wr cells1 idx (Some x) = Some cells2 /\
    holds cells2 (take (Z.to_nat idx) xs ++ x :: drop (Z.to_nat idx) xs) /\
    length cells2 = length cells.
Proof.
  intros [rest ->] Hlt Hi; destruct rest as [|r rest].
  { rewrite app_nil_r, length_fmap in Hlt; lia. }
  set (pre := take (Z.to_nat idx) xs); set (suf := drop (Z.to_nat idx) xs).
  assert (Hx : xs = pre ++ suf) by (symmetry; apply take_drop).
  assert (Hp : length pre = Z.to_nat idx) by (unfold pre; rewrite length_take; lia).
  clearbody pre suf; subst xs; destruct (shift_up_aux (Some <$> pre) suf r rest) as [c' E].
  unfold shift_up; rewrite length_app, fmap_app, <- app_assoc.
  rewrite length_fmap in E.
  replace (Z.to_nat (Z.of_nat (length pre + length suf) - idx)) with (length suf) by lia.
  rewrite E; eexists _, _; split; [done|].
  split; [apply wr_mid; rewrite length_fmap; lia|]; split.
  - exists rest; by rewrite fmap_app, <- app_assoc.
  - rewrite !length_app; simpl; rewrite !length_app, !length_fmap; simpl; lia.
Qed.

Lemma shift_down_aux (pre : list (option A)) x (suf : list A) (rest : list (option A)) :
  exists c,
    for_up (fun i l => x ← rdi l (i + 1); wr l i (Some x)) (length suf)
      (Z.of_nat (length pre)) (pre ++ x :: (Some <$> suf) ++ rest)
    = Some (pre ++ (Some <$> suf) ++ c :: rest).
Proof.
  revert pre x; induction suf as [|y suf IH]; intros pre x; simpl; [by exists x|].
  rewrite cons_middle, app_assoc, rdi_mid by (rewrite length_app; simpl; lia); simpl.
  rewrite <- app_assoc; simpl; rewrite wr_mid by done; simpl.
  destruct (IH (pre ++ [Some y]) (Some y)) as [c E]; exists c.
  rewrite length_app in E; simpl in E; rewrite <- !app_assoc in E; simpl in E.
  etrans; [|exact E]; f_equal; lia.
Qed.

(** Closing the gap at [idx]. *)
Lemma shift_down_spec cells xs idx :
  holds cells xs -> 0 <= idx < Z.of_nat (length xs) ->
  exists cells', shift_down cells (Z.of_nat (length xs)) idx = Some cells' /\
    holds cells' (delete (Z.to_nat idx) xs) /\ length cells' = length cells.
Proof.
  intros [rest ->] Hi.
  destruct (lookup_lt_is_Some_2 xs (Z.to_nat idx)) as [x Hx]; [lia|].
  rewrite delete_take_drop.
  set (pre := take (Z.to_nat idx) xs); set (suf := drop (S (Z.to_nat idx)) xs).
  assert (Hxs : xs = pre ++ x :: suf) by (symmetry; by apply take_drop_middle).
  assert (Hp : length pre = Z.to_nat idx) by (unfold pre; rewrite length_take; lia).
  clearbody pre suf; subst xs; clear Hx.
  destruct (shift_down_aux (Some <$> pre) (Some x) suf rest) as [c E].
  rewrite length_fmap, Hp, Z2Nat.id in E by lia.
  unfold shift_down; rewrite length_app, fmap_app, <- app_assoc; simpl.
  replace (Z.to_nat (Z.of_nat (length pre + S (length suf)) - 1 - idx)) with (length suf) by lia.
  eexists; split; [exact E|]; split.
  - exists (c :: rest); by rewrite fmap_app, <- app_assoc.
  - rewrite !length_app; simpl; rewrite !length_app, !length_fmap; simpl; lia.
Qed.

(** What [func_free] is called with. *)
Definition freed (value : A -> Z) xs : list Z := filter (fun v => v <> NULL) (value <$> xs).

Lemma free_nodes_spec (value : A -> Z) cells xs :
  holds cells xs -> free_nodes value cells (Z.of_nat (length xs)) = Some (freed value xs).
Proof.
  intros Hold; unfold free_nodes; rewrite Nat2Z.id.
  destruct (for_up_inv (fun i tr => x ← rdi cells i;
      Some (if value x =? NULL then tr else tr ++ [value x]))
    (fun i tr => tr = freed value (take (Z.to_nat i) xs)) (length xs) 0 []) as (tr & -> & Ht).
  - done.
  - intros j tr Hj ->; rewrite (holds_rdi cells xs) by (done || lia).
    destruct (rd_is_Some xs j) as [x Hx]; [lia|]; rewrite Hx; simpl.
    unfold rd in Hx; rewrite decide_True in Hx by lia.
    eexists; split; [done|]; replace (Z.to_nat (j + 1)) with (S (Z.to_nat j)) by lia.
    rewrite (take_S_r _ _ x) by done; unfold freed; rewrite fmap_app, filter_app.
    cbn [fmap list_fmap]; rewrite filter_cons, filter_nil.
    destruct (Z.eqb_spec (value x) NULL); case_decide; try done; by rewrite app_nil_r.
  - by rewrite Ht, Z.add_0_l, Nat2Z.id, firstn_all.
Qed.
End NodeArrays.

(** The capacity after [ensure_capacity], and its result. *)
Definition spec_ensure (cap : Z) (mem : bool) (c : Z) : bool * Z :=
  if decide (c <= cap) then (true, cap)
  else if decide (c < 2 ^ 31) then if mem then (true, c) else (false, cap)
  else (false, cap).

Lemma spec_ensure_double cap mem :
  0 < cap -> fst (spec_ensure cap mem (cap * 2)) = true ->
  snd (spec_ensure cap mem (cap * 2)) = cap * 2 /\ mem = true /\ cap * 2 < 2 ^ 31.
Proof.
  unfold spec_ensure; intros Hc; rewrite decide_False by lia.
  case_decide; [|done]; by destruct mem.
Qed.
