(* ===== verification/ArrayList.v ===== *)
(** * The array list of [dsaa/array_list.c]

    A growing array of data pointers.  Positions given to the operations are
    C [int]s; negative ones count from the end.  [mem] is the answer of
    [malloc] in operations that may allocate; a node pointer returned by the
    code is the node's index, NULL is [None]; the outer [None] is undefined
    behaviour.  The function [func_free] is present or NULL ([ff]); the
    calls made to it are returned in order. *)
From S2P Require Import Prelude Utils DataArray.

Record muggle_array_list := AL {
  al_nodes : option (list (option Z));
  al_capacity : Z;
  al_size : Z
}.

Definition al_zero : muggle_array_list := AL None 0 0.

Definition INT_MIN : Z := - 2 ^ 31.
Definition INT_MAX : Z := 2 ^ 31 - 1.

(** [-index] overflows for [INT_MIN]. *)
Definition muggle_array_list_get_index (l : muggle_array_list) (index : Z) : option Z :=
  if index >=? 0 then
    Some (if u64 index >=? al_size l then -1 else index)
  else if index =? INT_MIN then None
  else
    Some (if u64 (- index) >? al_size l then -1
          else swrap 32 (u64 (al_size l - u64 (- index)))).

Definition muggle_array_list_init (mem : bool) (capacity : Z) : bool * muggle_array_list :=
  let capacity := if capacity =? 0 then 8 else capacity in
  if negb (MUGGLE_DS_CAP_IS_VALID capacity) then (false, al_zero)
  else if negb mem then (false, al_zero)
  else (true, AL (Some (uninit capacity)) capacity 0).

Definition muggle_array_list_is_empty (l : muggle_array_list) : bool := al_size l =? 0.

Definition muggle_array_list_clear (l : muggle_array_list) (ff : bool)
  : option (list Z * muggle_array_list) :=
  tr ← (if ff then
          match al_nodes l with
          | Some cells => free_nodes id cells (al_size l)
          | None => if al_size l =? 0 then Some [] else None
          end
        else Some []);
  Some (tr, AL (al_nodes l) (al_capacity l) 0).

Definition muggle_array_list_destroy (l : muggle_array_list) (ff : bool)
  : option (list Z * muggle_array_list) :=
  '(tr, l) ← muggle_array_list_clear l ff;
  Some (tr, AL None 0 (al_size l)).

Definition muggle_array_list_size (l : muggle_array_list) : Z := al_size l.

Definition muggle_array_list_ensure_capacity (mem : bool) (l : muggle_array_list) (capacity : Z)
  : option (bool * muggle_array_list) :=
  if al_capacity l >=? u64 capacity then Some (true, l)
  else if negb (MUGGLE_DS_CAP_IS_VALID capacity) then Some (false, l)
  else if negb mem then Some (false, l)
  else
    new ← (match al_nodes l with
           | Some cells => copy_nodes cells (uninit capacity) (al_size l)
           | None => if al_size l =? 0 then Some (uninit capacity) else None
           end);
    Some (true, AL (Some new) capacity (al_size l)).

(** The node at a position: its index, or NULL. *)
Definition muggle_array_list_index (l : muggle_array_list) (index : Z) : option (option Z) :=
  idx ← muggle_array_list_get_index l index;
  Some (if idx <? 0 then None else Some idx).

(** The search loop of [find]: from [i] up to the size. *)
Fixpoint find_from (cmp : Z -> Z -> Z) (cells : list (option Z)) (data : Z) (n : nat) (i : Z)
  : option Z :=
  match n with
  | O => Some (-1)
  | S n' =>
      x ← rdi cells i;
      if cmp x data =? 0 then Some (swrap 32 i) else find_from cmp cells data n' (i + 1)
  end.

Definition muggle_array_list_find (cmp : Z -> Z -> Z) (l : muggle_array_list) (index data : Z)
  : option Z :=
  index ← muggle_array_list_get_index l index;
  if index <? 0 then Some (-1)
  else cells ← al_nodes l;
       find_from cmp cells data (Z.to_nat (al_size l - index)) index.

(** The position at which [insert] and [append] work; [None] is their early
    return of NULL. *)
Definition target_index (l : muggle_array_list) (index : Z) : option (option Z) :=
  idx ← muggle_array_list_get_index l index;
  Some (if idx <? 0 then
          if ((index =? 0) || (index =? -1)) && (al_size l =? 0) then Some 0 else None
        else Some idx).

(** The growth step at the head of [insert] and [append]. *)
Definition grow_if_full (mem : bool) (l : muggle_array_list) : option (bool * muggle_array_list) :=
  if al_size l =? al_capacity l then
    muggle_array_list_ensure_capacity mem l (u64 (al_capacity l * 2))
  else Some (true, l).

Definition muggle_array_list_insert (mem : bool) (l : muggle_array_list) (index data : Z)
  : option (option Z * muggle_array_list) :=
  '(ok, l) ← grow_if_full mem l;
  if negb ok then Some (None, l)
  else
    idx ← target_index l index;
    match idx with
    | None => Some (None, l)
    | Some idx =>
        cells ← al_nodes l;
        cells ← shift_up cells (al_size l) idx;
        cells ← wr cells idx (Some data);
        Some (Some idx, AL (Some cells) (al_capacity l) (u64 (al_size l + 1)))
    end.

Definition muggle_array_list_append (mem : bool) (l : muggle_array_list) (index data : Z)
  : option (option Z * muggle_array_list) :=
  '(ok, l) ← grow_if_full mem l;
  if negb ok then Some (None, l)
  else
    idx ← target_index l index;
    match idx with
    | None => Some (None, l)
    | Some idx =>
        cells ← al_nodes l;
        cells ← shift_up cells (al_size l) (idx + 1);
        let idx := if al_size l =? 0 then 0 else idx + 1 in
        cells ← wr cells idx (Some data);
        Some (Some idx, AL (Some cells) (al_capacity l) (u64 (al_size l + 1)))
    end.

Definition muggle_array_list_remove (l : muggle_array_list) (index : Z) (ff : bool)
  : option (bool * list Z * muggle_array_list) :=
  index ← muggle_array_list_get_index l index;
  if index <? 0 then Some (false, [], l)
  else
    cells ← al_nodes l;
    tr ← (if ff then x ← rdi cells index; Some [x] else Some []);
    cells ← shift_down cells (al_size l) index;
    Some (true, tr, AL (Some cells) (al_capacity l) (u64 (al_size l - 1))).

(** ** The abstract list *)

(** The position that [index] denotes in a list of [n] elements. *)
Definition position (n index : Z) : option Z :=
  if decide (0 <= index < n) then Some index
  else if decide (- n <= index < 0) then Some (n + index) else None.

(** Inserting [x] at position [k]. *)
Definition list_insert_at (xs : list Z) (k x : Z) : list Z :=
  take (Z.to_nat k) xs ++ x :: drop (Z.to_nat k) xs.

Definition al_spec : Type := list Z * Z.

(** The capacity after the growth step; [None] when it fails. *)
Definition spec_grow (s : al_spec) (mem : bool) : option Z :=
  let '(xs, cap) := s in
  if decide (Z.of_nat (length xs) = cap) then
    if decide (cap * 2 < 2 ^ 31) then if mem then Some (cap * 2) else None else None
  else Some cap.

Inductive al_op :=
| AInsert (mem : bool) (index data : Z)
| AAppend (mem : bool) (index data : Z)
| ARemove (index : Z) (ff : bool)
| AClear (ff : bool)
| AEnsure (mem : bool) (capacity : Z)
| AIndex (index : Z)
| AFind (index data : Z)
| ASize.

Inductive al_out :=
| ONode (node : option Z)
| OBool (ok : bool) (freed : list Z)
| ONum (n : Z).

Section Operations.
Variable cmp : Z -> Z -> Z.

Definition al_exec (l : muggle_array_list) (op : al_op) : option (al_out * muggle_array_list) :=
  match op with
  | AInsert mem i d => '(r, l) ← muggle_array_list_insert mem l i d; Some (ONode r, l)
  | AAppend mem i d => '(r, l) ← muggle_array_list_append mem l i d; Some (ONode r, l)
  | ARemove i ff => '(ok, tr, l) ← muggle_array_list_remove l i ff; Some (OBool ok tr, l)
  | AClear ff => '(tr, l) ← muggle_array_list_clear l ff; Some (OBool true tr, l)
  | AEnsure mem c => '(ok, l) ← muggle_array_list_ensure_capacity mem l c; Some (OBool ok [], l)
  | AIndex i => r ← muggle_array_list_index l i; Some (ONode r, l)
  | AFind i d => r ← muggle_array_list_find cmp l i d; Some (ONum r, l)
  | ASize => Some (ONum (muggle_array_list_size l), l)
  end.

Definition al_op_ok (op : al_op) : Prop :=
  match op with
  | AInsert _ i _ | AAppend _ i _ | ARemove i _ | AIndex i | AFind i _ =>
      INT_MIN < i <= INT_MAX
  | AEnsure _ c => in_width 64 c
  | _ => True
  end.

(** Insertion before or after a position, growing when the array is full. *)
Definition spec_add (s : al_spec) (mem : bool) (index data after : Z) : al_out * al_spec :=
  let '(xs, cap) := s in
  match spec_grow s mem with
  | None => (ONode None, s)
  | Some cap' =>
      match position (Z.of_nat (length xs)) index with
      | Some k => (ONode (Some (k + after)), (list_insert_at xs (k + after) data, cap'))
      | None =>
          if decide (xs = [] /\ (index = 0 \/ index = -1))
          then (ONode (Some 0), ([data], cap')) else (ONode None, (xs, cap'))
      end
  end.

Definition spec_find (xs : list Z) (index data : Z) : Z :=
  match position (Z.of_nat (length xs)) index with
  | None => -1
  | Some k =>
      match list_find (fun x => cmp x data = 0) (drop (Z.to_nat k) xs) with
      | Some (j, _) => k + Z.of_nat j
      | None => -1
      end
  end.

Definition al_spec_step (s : al_spec) (op : al_op) : al_out * al_spec :=
  let '(xs, cap) := s in
  match op with
  | AInsert mem i d => spec_add s mem i d 0
  | AAppend mem i d => spec_add s mem i d 1
  | ARemove i ff =>
      match position (Z.of_nat (length xs)) i with
      | Some k => (OBool true (if ff then slice xs k 1 else []), (delete (Z.to_nat k) xs, cap))
      | None => (OBool false [], s)
      end
  | AClear ff => (OBool true (if ff then freed id xs else []), ([], cap))
  | AEnsure mem c =>
      if decide (c <= cap) then (OBool true [], s)
      else if decide (c < 2 ^ 31) then
        if mem then (OBool true [], (xs, c)) else (OBool false [], s)
      else (OBool false [], s)
  | AIndex i => (ONode (position (Z.of_nat (length xs)) i), s)
  | AFind i d => (ONum (spec_find xs i d), s)
  | ASize => (ONum (Z.of_nat (length xs)), s)
  end.

Definition al_inv (l : muggle_array_list) (s : al_spec) : Prop :=
  let '(xs, cap) := s in
  exists cells, l = AL (Some cells) cap (Z.of_nat (length xs)) /\ holds cells xs /\
    Z.of_nat (length cells) = cap /\ 0 < cap < 2 ^ 31.

#[local] Arguments al_inv : simpl never.
#[local] Arguments spec_grow : simpl never.

(** ** Each operation against the abstract list *)

Lemma position_range n i k : position n i = Some k -> 0 <= k < n.
Proof. unfold position; repeat case_decide; intros; simplify_eq; lia. Qed.

Lemma get_index_spec l s i :
  al_inv l s -> INT_MIN < i <= INT_MAX ->
  muggle_array_list_get_index l i = Some (default (-1) (position (Z.of_nat (length (fst s))) i)).
Proof.
  destruct s as [xs cap]; intros (cells & -> & Hh%holds_length & Hl & Hc) Hi.
  unfold INT_MIN, INT_MAX in Hi; unfold muggle_array_list_get_index, position; simpl.
  rewrite !Z.geb_leb, Z.gtb_ltb.
  destruct (Z.leb_spec 0 i).
  - rewrite wrap_small by (unfold in_width; lia).
    destruct (Z.leb_spec (Z.of_nat (length xs)) i); repeat case_decide; simpl; try lia; done.
  - destruct (Z.eqb_spec i INT_MIN); [unfold INT_MIN in *; lia|].
    rewrite (wrap_small 64 (- i)) by (unfold in_width; lia).
    destruct (Z.ltb_spec (Z.of_nat (length xs)) (- i)); repeat case_decide; simpl; try lia; [done|].
    rewrite wrap_small by (unfold in_width; lia); f_equal; rewrite swrap_small; lia.
Qed.

Lemma ensure_spec mem l xs cap c :
  al_inv l (xs, cap) -> in_width 64 c ->
  exists l', muggle_array_list_ensure_capacity mem l c
    = Some (match al_spec_step (xs, cap) (AEnsure mem c) with
            | (OBool ok _, _) => ok | _ => true end, l') /\
    al_inv l' (snd (al_spec_step (xs, cap) (AEnsure mem c))).
Proof.
  intros Hinv Hw; pose proof Hinv as (cells & -> & Hh & Hl & Hc).
  unfold muggle_array_list_ensure_capacity; simpl; rewrite Z.geb_leb, wrap_small by done.
  case_decide; destruct (Z.leb_spec c cap); try lia; [eauto|].
  destruct (MUGGLE_DS_CAP_IS_VALID c) eqn:Hv; simpl.
  - apply ds_cap_valid_spec in Hv; [|done]; rewrite decide_True by done.
    destruct mem; simpl; [|eauto].
    destruct (copy_nodes_spec cells xs c Hh) as (new & -> & Hn & Hln).
    { apply holds_length in Hh; lia. }
    simpl; eexists; split; [done|]; exists new; split_and!; try done; lia.
  - rewrite decide_False; [eauto|]; rewrite <- ds_cap_valid_spec by done; congruence.
Qed.

Lemma grow_spec mem l xs cap :
  al_inv l (xs, cap) ->
  exists l', grow_if_full mem l = Some (bool_decide (is_Some (spec_grow (xs, cap) mem)), l') /\
    al_inv l' (xs, default cap (spec_grow (xs, cap) mem)) /\
    (is_Some (spec_grow (xs, cap) mem) -> Z.of_nat (length xs) < default cap (spec_grow (xs, cap) mem)).
Proof.
  intros Hinv; pose proof Hinv as (cells & El & Hh & Hl & Hc).
  assert (al_size l = Z.of_nat (length xs) /\ al_capacity l = cap) as [Hsz Hcp] by (by subst l).
  unfold grow_if_full; rewrite Hsz, Hcp; unfold spec_grow; clear El Hsz Hcp.
  apply holds_length in Hh; case_decide as Hfull.
  - rewrite (proj2 (Z.eqb_eq _ _) Hfull), wrap_small by (unfold in_width; lia).
    destruct (ensure_spec mem l xs cap (cap * 2) Hinv) as (l' & -> & Hinv');
      [unfold in_width; lia|]; exists l'; revert Hinv'; cbn [al_spec_step].
    rewrite decide_False by lia; case_decide; [|by intros; split_and!; [| |intros []]].
    destruct mem; intros; split_and!; try done; simpl; lia.
  - rewrite (proj2 (Z.eqb_neq _ _) Hfull); exists l; simpl; split_and!; try done; lia.
Qed.

(** The common tail of [insert] and [append]. *)
Lemma add_at l xs cap k data :
  al_inv l (xs, cap) -> Z.of_nat (length xs) < cap -> 0 <= k <= Z.of_nat (length xs) ->
  exists cells1 cells2, (cells ← al_nodes l; shift_up cells (al_size l) k) = Some cells1 /\
    wr cells1 k (Some data) = Some cells2 /\
    al_inv (AL (Some cells2) (al_capacity l) (u64 (al_size l + 1))) (list_insert_at xs k data, cap).
Proof.
  intros (cells & -> & Hh & Hl & Hc) Hlt Hk; simpl.
  destruct (shift_up_spec cells xs k data Hh) as (c1 & c2 & H1 & H2 & Hh2 & Hl2); [lia|lia|].
  exists c1, c2; split; [done|]; split; [done|]; exists c2; split_and!; try done; try lia.
  rewrite wrap_small by (unfold in_width; lia); f_equal; unfold list_insert_at.
  rewrite length_app; simpl; rewrite length_take, length_drop; lia.
Qed.

Lemma target_index_spec l s i :
  al_inv l s -> INT_MIN < i <= INT_MAX ->
  target_index l i = Some (match position (Z.of_nat (length (fst s))) i with
    | Some k => Some k
    | None => if decide (fst s = [] /\ (i = 0 \/ i = -1)) then Some 0 else None
    end).
Proof.
  intros Hinv Hi; unfold target_index; rewrite (get_index_spec l s i Hinv Hi).
  cbn [mbind option_bind]; f_equal; destruct (position _ i) as [k|] eqn:Hp; cbn [from_option id].
  { apply position_range in Hp; destruct (Z.ltb_spec k 0); [lia|done]. }
  destruct s as [xs cap], Hinv as (cells & -> & _); cbn [fst al_size].
  case_decide as Hd; destruct (Z.eqb_spec i 0), (Z.eqb_spec i (-1)), xs; simpl; try done;
    naive_solver.
Qed.

Lemma insert_spec mem l xs cap i d :
  al_inv l (xs, cap) -> INT_MIN < i <= INT_MAX ->
  exists r l', muggle_array_list_insert mem l i d = Some (r, l') /\
    spec_add (xs, cap) mem i d 0 = (ONode r, snd (spec_add (xs, cap) mem i d 0)) /\
    al_inv l' (snd (spec_add (xs, cap) mem i d 0)).
Proof.
  intros Hinv Hi; destruct (grow_spec mem l xs cap Hinv) as (l1 & Hg & Hinv1 & Hroom).
  unfold muggle_array_list_insert, spec_add; rewrite Hg; simpl.
  destruct (spec_grow (xs, cap) mem) as [cap'|]; simpl in *; [|eauto].
  specialize (Hroom (mk_is_Some _ _ eq_refl)).
  rewrite (target_index_spec _ _ i Hinv1 Hi); simpl.
  assert (Hadd : forall k, 0 <= k <= Z.of_nat (length xs) ->
    exists l', (cells ← al_nodes l1; cells ← shift_up cells (al_size l1) k;
      cells ← wr cells k (Some d);
      Some (Some k, AL (Some cells) (al_capacity l1) (u64 (al_size l1 + 1)))) = Some (Some k, l') /\
      al_inv l' (list_insert_at xs k d, cap')).
  { intros k Hk; destruct (add_at l1 xs cap' k d Hinv1 Hroom Hk) as (c1 & c2 & H1 & H2 & Hi2).
    destruct (al_nodes l1); simpl in *; [|done]; rewrite H1; simpl; rewrite H2; eauto. }
  destruct (position _ i) as [k|] eqn:Hp; simpl.
  - apply position_range in Hp; rewrite Z.add_0_r.
    destruct (Hadd k) as (l' & -> & ?); [lia|]; by exists (Some k), l'.
  - case_decide as Hd; simpl; [|eauto]; destruct Hd as [-> _].
    destruct (Hadd 0) as (l' & -> & ?); [simpl; lia|]; by exists (Some 0), l'.
Qed.

Lemma append_spec mem l xs cap i d :
  al_inv l (xs, cap) -> INT_MIN < i <= INT_MAX ->
  exists r l', muggle_array_list_append mem l i d = Some (r, l') /\
    spec_add (xs, cap) mem i d 1 = (ONode r, snd (spec_add (xs, cap) mem i d 1)) /\
    al_inv l' (snd (spec_add (xs, cap) mem i d 1)).
Proof.
  intros Hinv Hi; destruct (grow_spec mem l xs cap Hinv) as (l1 & Hg & Hinv1 & Hroom).
  unfold muggle_array_list_append, spec_add; rewrite Hg; simpl.
  destruct (spec_grow (xs, cap) mem) as [cap'|]; simpl in *; [|eauto].
  specialize (Hroom (mk_is_Some _ _ eq_refl)).
  rewrite (target_index_spec _ _ i Hinv1 Hi); simpl.
  assert (Hsz : al_size l1 = Z.of_nat (length xs)) by (by destruct Hinv1 as (? & -> & _)).
  destruct (position _ i) as [k|] eqn:Hp; simpl.
  - apply position_range in Hp.
    destruct (add_at l1 xs cap' (k + 1) d Hinv1 Hroom) as (c1 & c2 & H1 & H2 & Hi2); [lia|].
    destruct (al_nodes l1); simpl in *; [|done]; rewrite H1; simpl.
    destruct (Z.eqb_spec (al_size l1) 0); [lia|]; rewrite H2; simpl; eauto.
  - case_decide as Hd; simpl; [|eauto]; destruct Hd as [-> _].
    destruct (add_at l1 [] cap' 0 d Hinv1 Hroom) as (c1 & c2 & H1 & H2 & Hi2); [simpl; lia|].
    destruct Hinv1 as (cells & -> & _); simpl in *; injection H1 as <-.
    rewrite H2; simpl; eauto.
Qed.

Lemma find_from_spec cells xs d (n : nat) k :
  holds cells xs -> 0 <= k -> k + Z.of_nat n = Z.of_nat (length xs) ->
  Z.of_nat (length xs) < 2 ^ 31 ->
  find_from cmp cells d n k =
  Some (match list_find (fun x => cmp x d = 0) (drop (Z.to_nat k) xs) with
        | Some (j, _) => k + Z.of_nat j | None => -1 end).
Proof.
  intros Hh; revert k; induction n as [|n IH]; intros k Hk Hn Hlt; simpl.
  { by rewrite drop_ge by lia. }
  rewrite (holds_rdi cells xs) by (done || lia).
  destruct (lookup_lt_is_Some_2 xs (Z.to_nat k)) as [x Hx]; [lia|].
  unfold rd; rewrite decide_True, Hx by lia; simpl; rewrite (drop_S _ _ _ Hx); simpl.
  destruct (Z.eqb_spec (cmp x d) 0); case_decide; try done; simpl.
  - rewrite swrap_small by lia; f_equal; lia.
  - rewrite IH by lia; replace (Z.to_nat (k + 1)) with (S (Z.to_nat k)) by lia.
    destruct (list_find _ _) as [[j y]|]; simpl; [f_equal; lia|done].
Qed.

Lemma remove_spec l xs cap i ff :
  al_inv l (xs, cap) -> INT_MIN < i <= INT_MAX ->
  exists ok tr l', muggle_array_list_remove l i ff = Some (ok, tr, l') /\
    al_spec_step (xs, cap) (ARemove i ff) = (OBool ok tr, snd (al_spec_step (xs, cap) (ARemove i ff))) /\
    al_inv l' (snd (al_spec_step (xs, cap) (ARemove i ff))).
Proof.
  intros Hinv Hi; unfold muggle_array_list_remove; rewrite (get_index_spec l _ i Hinv Hi); simpl.
  destruct (position _ i) as [k|] eqn:Hp; simpl; [|eauto 10].
  apply position_range in Hp; destruct (Z.ltb_spec k 0); [lia|].
  destruct Hinv as (cells & -> & Hh & Hl & Hc); simpl.
  destruct (shift_down_spec cells xs k Hh) as (c' & Hs & Hh' & Hl'); [lia|].
  destruct (lookup_lt_is_Some_2 xs (Z.to_nat k)) as [x Hx]; [lia|].
  assert (rdi cells k = Some x) as Hrd.
  { rewrite (holds_rdi cells xs) by (done || lia); unfold rd; by rewrite decide_True by lia. }
  assert ((if ff then x0 ← rdi cells k; Some [x0] else Some []) =
          Some (if ff then slice xs k 1 else [])) as ->.
  { destruct ff; [|done]; rewrite Hrd; unfold slice; by rewrite (drop_S _ _ _ Hx). }
  simpl; rewrite Hs; simpl; eexists _, _, _; split; [done|]; split; [done|].
  apply holds_length in Hh; exists c'; split_and!; try done; try lia.
  rewrite wrap_small by (unfold in_width; lia); f_equal.
  rewrite length_delete by (by eexists); lia.
Qed.

(** Every operation refines its abstract counterpart. *)
Lemma al_exec_spec l s op :
  al_inv l s -> al_op_ok op ->
  exists l', al_exec l op = Some (fst (al_spec_step s op), l') /\
    al_inv l' (snd (al_spec_step s op)).
Proof.
  destruct s as [xs cap]; intros Hinv Hok; destruct op as
    [mem i d|mem i d|i ff|ff|mem c|i|i d|]; cbn [al_exec].
  - destruct (insert_spec mem l xs cap i d Hinv Hok) as (r & l' & -> & E & ?).
    exists l'; cbn [al_spec_step]; split; [by rewrite E|done].
  - destruct (append_spec mem l xs cap i d Hinv Hok) as (r & l' & -> & E & ?).
    exists l'; cbn [al_spec_step]; split; [by rewrite E|done].
  - destruct (remove_spec l xs cap i ff Hinv Hok) as (ok & tr & l' & -> & E & ?).
    exists l'; split; [by rewrite E|done].
  - destruct Hinv as (cells & -> & Hh & Hl & Hc); unfold muggle_array_list_clear; simpl.
    rewrite (free_nodes_spec id cells xs Hh).
    assert (al_inv (AL (Some cells) cap 0) ([], cap)).
    { exists cells; split; [done|]; split; [apply holds_nil|done]. }
    destruct ff; simpl; eauto.
  - destruct (ensure_spec mem l xs cap c Hinv Hok) as (l' & -> & Hinv'); exists l'.
    split; [|done]; simpl; repeat case_decide; try done; by destruct mem.
  - unfold muggle_array_list_index; rewrite (get_index_spec l _ i Hinv Hok); simpl.
    exists l; split; [|done]; destruct (position _ i) as [k|] eqn:Hp; [|done].
    apply position_range in Hp; simpl; destruct (Z.ltb_spec k 0); [lia|done].
  - unfold muggle_array_list_find; rewrite (get_index_spec l _ i Hinv Hok); simpl.
    exists l; split; [|done]; unfold spec_find; destruct (position _ i) as [k|] eqn:Hp; [|done].
    apply position_range in Hp; simpl; destruct (Z.ltb_spec k 0); [lia|].
    destruct Hinv as (cells & -> & Hh & Hl & Hc); pose proof (holds_length _ _ Hh); simpl.
    by rewrite (find_from_spec cells xs) by (done || lia).
  - exists l; split; [|done]; by destruct Hinv as (cells & -> & _).
Qed.

(** Runs of operations. *)
Fixpoint al_run (l : muggle_array_list) (ops : list al_op) : option (list al_out * muggle_array_list) :=
  match ops with
  | [] => Some ([], l)
  | op :: ops => '(o, l) ← al_exec l op; '(os, l) ← al_run l ops; Some (o :: os, l)
  end.

Fixpoint al_spec_run (s : al_spec) (ops : list al_op) : list al_out * al_spec :=
  match ops with
  | [] => ([], s)
  | op :: ops =>
      let '(o, s) := al_spec_step s op in
      let '(os, s) := al_spec_run s ops in (o :: os, s)
  end.

Lemma al_run_spec ops l s :
  al_inv l s -> Forall al_op_ok ops ->
  exists l', al_run l ops = Some (fst (al_spec_run s ops), l') /\
    al_inv l' (snd (al_spec_run s ops)).
Proof.
  revert l s; induction ops as [|op ops IH]; intros l s Hinv Hok; simpl; [eauto|].
  apply Forall_cons in Hok as [Hop Hok].
  destruct (al_exec_spec l s op Hinv Hop) as (l1 & -> & Hinv1); simpl.
  destruct (al_spec_step s op) as [o s1]; simpl in *.
  destruct (IH l1 s1 Hinv1 Hok) as (l2 & -> & Hinv2); simpl.
  destruct (al_spec_run s1 ops) as [os s2]; simpl in *; eauto.
Qed.
End Operations.

Lemma al_init_spec mem n :
  in_width 64 n ->
  let c := if n =? 0 then 8 else n in
  (fst (muggle_array_list_init mem n) = true <-> mem = true /\ c < 2 ^ 31) /\
  (fst (muggle_array_list_init mem n) = true -> al_inv (snd (muggle_array_list_init mem n)) ([], c)).
Proof.
  intros Hn c; unfold muggle_array_list_init; fold c.
  assert (in_width 64 c /\ 0 < c) as [Hw Hpos]
    by (unfold c, in_width in *; destruct (Z.eqb_spec n 0); lia).
  pose proof (ds_cap_valid_spec c Hw) as Hv.
  destruct (MUGGLE_DS_CAP_IS_VALID c), mem; simpl; split; try done; try naive_solver.
  intros _; exists (uninit c); split; [done|]; split; [apply holds_nil|].
  unfold uninit; rewrite length_replicate; intuition lia.
Qed.

(** ** Properties *)

(** The array list refines an abstract list with a capacity.  From a
    successful [init], any sequence of calls (insert and append at positive
    and negative positions, remove, clear, ensure_capacity, index, find,
    size), with any outcome of each [malloc], runs without undefined
    behaviour and returns, call by call, exactly what the same calls on a
    functional list return; the array then holds that list. *)
Theorem array_list_refines_list cmp mem n ops l :
  in_width 64 n -> muggle_array_list_init mem n = (true, l) -> Forall al_op_ok ops ->
  let s0 := ([], if n =? 0 then 8 else n) in
  exists l', al_run cmp l ops = Some (fst (al_spec_run cmp s0 ops), l') /\
    al_inv l' (snd (al_spec_run cmp s0 ops)).
Proof.
  intros Hn Hi Hops s0; apply al_run_spec; [|done].
  destruct (al_init_spec mem n Hn) as [_ Hinv]; rewrite Hi in Hinv; by apply Hinv.
Qed.

Definition sample_ops : list al_op :=
  [AInsert true 0 10; AAppend true (-1) 20; AInsert true 0 5; AAppend true 0 7;
   ARemove (-2) true; AFind 0 20; AIndex (-3); AInsert true 9 1; AClear true].

Lemma array_list_refines_list_witness :
  exists l', al_run Z.sub (AL (Some (uninit 2)) 2 0) sample_ops
    = Some ([ONode (Some 0); ONode (Some 1); ONode (Some 0); ONode (Some 1);
             OBool true [10]; ONum 2; ONode (Some 0); ONode None; OBool true [5; 7; 20]], l') /\
    al_inv l' ([], 4).
Proof.
  refine (array_list_refines_list Z.sub true 2 sample_ops (AL (Some (uninit 2)) 2 0) _ _ _).
  - split; lia.
  - vm_compute; reflexivity.
  - unfold sample_ops; repeat constructor; done.
Defined.
