(* ===== verification/Stack.v ===== *)
(** * The stack of [dsaa/stack.c]

    The conventions are those of the array list: [mem] is the answer of
    [malloc], [ff] whether [func_free] is given, a node is its index, the
    outer [None] is undefined behaviour. *)
From S2P Require Import Prelude Utils DataArray.

Record muggle_stack := ST {
  st_nodes : option (list (option Z));
  st_capacity : Z;
  st_top : Z
}.

Definition st_zero : muggle_stack := ST None 0 0.

Definition muggle_stack_init (mem : bool) (capacity : Z) : bool * muggle_stack :=
  let capacity := if capacity =? 0 then 8 else capacity in
  if negb (MUGGLE_DS_CAP_IS_VALID capacity) then (false, st_zero)
  else if negb mem then (false, st_zero)
  else (true, ST (Some (uninit capacity)) capacity 0).

Definition muggle_stack_is_empty (s : muggle_stack) : bool := st_top s =? 0.

Definition muggle_stack_clear (s : muggle_stack) (ff : bool) : option (list Z * muggle_stack) :=
  tr ← (if ff then
          match st_nodes s with
          | Some cells => free_nodes id cells (st_top s)
          | None => if st_top s =? 0 then Some [] else None
          end
        else Some []);
  Some (tr, ST (st_nodes s) (st_capacity s) 0).

Definition muggle_stack_destroy (s : muggle_stack) (ff : bool) : option (list Z * muggle_stack) :=
  '(tr, s) ← muggle_stack_clear s ff; Some (tr, ST None 0 (st_top s)).

Definition muggle_stack_size (s : muggle_stack) : Z := st_top s.

Definition muggle_stack_ensure_capacity (mem : bool) (s : muggle_stack) (capacity : Z)
  : option (bool * muggle_stack) :=
  if st_capacity s >=? capacity then Some (true, s)
  else if negb (MUGGLE_DS_CAP_IS_VALID capacity) then Some (false, s)
  else if negb mem then Some (false, s)
  else
    new ← (match st_nodes s with
           | Some cells => copy_nodes cells (uninit capacity) (st_top s)
           | None => if st_top s =? 0 then Some (uninit capacity) else None
           end);
    Some (true, ST (Some new) capacity (st_top s)).

Definition muggle_stack_push (mem : bool) (s : muggle_stack) (data : Z)
  : option (option Z * muggle_stack) :=
  '(ok, s) ← (if st_top s =? st_capacity s then
                muggle_stack_ensure_capacity mem s (u64 (st_capacity s * 2))
              else Some (true, s));
  if negb ok then Some (None, s)
  else
    cells ← st_nodes s;
    cells ← wr cells (st_top s) (Some data);
    Some (Some (st_top s), ST (Some cells) (st_capacity s) (u64 (st_top s + 1))).

Definition muggle_stack_top (s : muggle_stack) : option Z :=
  if st_top s =? 0 then None else Some (swrap 64 (st_top s) - 1).

Definition muggle_stack_pop (s : muggle_stack) (ff : bool) : option (list Z * muggle_stack) :=
  if st_top s =? 0 then Some ([], s)
  else
    let s := ST (st_nodes s) (st_capacity s) (u64 (st_top s - 1)) in
    tr ← (if ff then
            cells ← st_nodes s;
            x ← rdi cells (st_top s);
            Some (if x =? NULL then [] else [x])
          else Some []);
    Some (tr, s).

(** The value a caller reads through the node that [top] returns. *)
Definition top_value (s : muggle_stack) : option (option Z) :=
  match muggle_stack_top s with
  | None => Some None
  | Some i => cells ← st_nodes s; x ← rdi cells i; Some (Some x)
  end.

(** ** The abstract stack: elements from bottom to top, and the capacity *)

Definition st_inv (s : muggle_stack) (xs : list Z) (cap : Z) : Prop :=
  exists cells, s = ST (Some cells) cap (Z.of_nat (length xs)) /\ holds cells xs /\
    Z.of_nat (length cells) = cap /\ 0 < cap < 2 ^ 31.

Lemma st_ensure_spec mem s xs cap c :
  st_inv s xs cap -> in_width 64 c ->
  exists s', muggle_stack_ensure_capacity mem s c = Some (fst (spec_ensure cap mem c), s') /\
    st_inv s' xs (snd (spec_ensure cap mem c)).
Proof.
  intros Hinv Hw; pose proof Hinv as (cells & -> & Hh & Hl & Hc).
  unfold muggle_stack_ensure_capacity, spec_ensure; simpl; rewrite Z.geb_leb.
  case_decide; destruct (Z.leb_spec c cap); try lia; [eauto|].
  destruct (MUGGLE_DS_CAP_IS_VALID c) eqn:Hv; simpl.
  - apply ds_cap_valid_spec in Hv; [|done]; rewrite decide_True by done.
    destruct mem; simpl; [|eauto].
    destruct (copy_nodes_spec cells xs c Hh) as (new & -> & Hn & Hln).
    { apply holds_length in Hh; lia. }
    simpl; eexists; split; [done|]; exists new; split_and!; try done; lia.
  - rewrite decide_False; [eauto|]; rewrite <- ds_cap_valid_spec by done; congruence.
Qed.

Lemma push_room s xs cap data :
  st_inv s xs cap -> Z.of_nat (length xs) < cap ->
  exists cells cells', st_nodes s = Some cells /\
    wr cells (st_top s) (Some data) = Some cells' /\
    st_inv (ST (Some cells') (st_capacity s) (u64 (st_top s + 1))) (xs ++ [data]) cap.
Proof.
  intros (cells & -> & Hh & Hl & Hc) Hlt; simpl.
  destruct (holds_wr_end cells xs data Hh) as (cells' & Hw & Hh' & Hl'); [lia|].
  exists cells, cells'; split; [done|]; split; [done|].
  exists cells'; split_and!; try done; try lia.
  rewrite length_app, wrap_small by (unfold in_width; lia); simpl; f_equal; lia.
Qed.

(** What [push] does: it fails only if the array is full and cannot grow. *)
Definition spec_push (xs : list Z) (cap : Z) (mem : bool) (data : Z)
  : option Z * list Z * Z :=
  let '(ok, cap') :=
    if decide (Z.of_nat (length xs) = cap) then spec_ensure cap mem (cap * 2) else (true, cap) in
  if ok then (Some (Z.of_nat (length xs)), xs ++ [data], cap') else (None, xs, cap').

Lemma st_push_spec mem s xs cap data :
  st_inv s xs cap ->
  let '(r, xs', cap') := spec_push xs cap mem data in
  exists s', muggle_stack_push mem s data = Some (r, s') /\ st_inv s' xs' cap'.
Proof.
  intros Hinv; pose proof Hinv as (cells & El & Hh%holds_length & Hl & Hc).
  assert (st_top s = Z.of_nat (length xs) /\ st_capacity s = cap) as [Ht Hcp] by (by subst s).
  assert (exists ok cap' s', (if st_top s =? st_capacity s then
      muggle_stack_ensure_capacity mem s (u64 (st_capacity s * 2)) else Some (true, s))
      = Some (ok, s') /\ st_inv s' xs cap' /\
    (if decide (Z.of_nat (length xs) = cap) then spec_ensure cap mem (cap * 2) else (true, cap))
      = (ok, cap') /\ (ok = true -> Z.of_nat (length xs) < cap'))
    as (ok & cap' & s' & Hg & Hinv' & Hs & Hroom).
  { rewrite Ht, Hcp; case_decide as Hf.
    - rewrite (proj2 (Z.eqb_eq _ _) Hf), wrap_small by (unfold in_width; lia).
      destruct (st_ensure_spec mem s xs cap (cap * 2) Hinv) as (s' & -> & Hi);
        [unfold in_width; lia|].
      destruct (spec_ensure cap mem (cap * 2)) as [ok cap'] eqn:Hs; simpl in *.
      exists ok, cap', s'; split_and!; try done; intros ->; revert Hs; unfold spec_ensure.
      repeat case_decide; destruct mem; intros; simplify_eq; lia.
    - rewrite (proj2 (Z.eqb_neq _ _) Hf); exists true, cap, s; split_and!; try done; lia. }
  unfold spec_push, muggle_stack_push; rewrite Hs, Hg; simpl; destruct ok; simpl; [|eauto].
  destruct (push_room s' xs cap' data Hinv' (Hroom eq_refl)) as (c & c' & Hn & Hw & Hi).
  rewrite Hn; simpl; rewrite Hw; simpl; eexists; split; [|exact Hi].
  by destruct Hinv' as (? & -> & _).
Qed.

Lemma st_pop_spec s xs x cap ff :
  st_inv s (xs ++ [x]) cap ->
  exists s', muggle_stack_pop s ff = Some (if ff then freed id [x] else [], s') /\ st_inv s' xs cap.
Proof.
  intros (cells & -> & Hh & Hl & Hc); unfold muggle_stack_pop; simpl.
  pose proof (holds_length _ _ Hh) as Hlen; rewrite length_app in *; simpl in *.
  destruct (Z.eqb_spec (Z.of_nat (length xs + 1)) 0); [lia|].
  rewrite wrap_small by (unfold in_width; lia).
  replace (Z.of_nat (length xs + 1) - 1) with (Z.of_nat (length xs)) by lia.
  rewrite (holds_rdi cells (xs ++ [x])) by (rewrite ?length_app; simpl; done || lia).
  rewrite rd_nat, lookup_app_r, Nat.sub_diag by lia; simpl.
  assert (st_inv (ST (Some cells) cap (Z.of_nat (length xs))) xs cap).
  { exists cells; split; [done|]; split; [|done].
    rewrite <- (take_app_length xs [x]); by apply holds_take. }
  destruct ff; [|eauto]; simpl; unfold freed; cbn [fmap list_fmap id].
  rewrite filter_cons, filter_nil; destruct (Z.eqb_spec x NULL); case_decide; try done; eauto.
Qed.

(** ** Properties *)

(** The stack is last-in first-out.  A successful [push] makes [top] read
    the pushed value and the following [pop] gives the stack back, freeing
    exactly the pushed value (unless it is NULL or no [func_free] is given);
    [push] fails only when the array is full and cannot be doubled, and then
    leaves the elements as they were. *)
Theorem stack_push_top_pop mem s xs cap data ff :
  st_inv s xs cap ->
  let '(r, xs', cap') := spec_push xs cap mem data in
  exists s', muggle_stack_push mem s data = Some (r, s') /\ st_inv s' xs' cap' /\
    (r = None -> xs' = xs) /\
    (r <> None -> xs' = xs ++ [data] /\ top_value s' = Some (Some data) /\
       muggle_stack_size s' = muggle_stack_size s + 1 /\
       exists s'', muggle_stack_pop s' ff = Some (if ff then freed id [data] else [], s'') /\
         st_inv s'' xs cap').
Proof.
  intros Hinv; pose proof (st_push_spec mem s xs cap data Hinv) as Hp; unfold spec_push in *.
  destruct (if decide _ then _ else _) as [[] cap'];
    destruct Hp as (s' & Hp & Hinv'); exists s'; split_and!; try done; intros _.
  split; [done|]; pose proof (st_pop_spec s' xs data cap' ff Hinv') as Hpop.
  destruct Hinv as (? & -> & _), Hinv' as (cells & -> & Hh & Hl & Hc).
  unfold top_value, muggle_stack_top; simpl; rewrite length_app in *; simpl in *.
  destruct (Z.eqb_spec (Z.of_nat (length xs + 1)) 0); [lia|].
  apply holds_length in Hh as Hlen; rewrite length_app in Hlen; simpl in Hlen.
  rewrite swrap_small by (simpl; lia).
  replace (Z.of_nat (length xs + 1) - 1) with (Z.of_nat (length xs)) by lia.
  rewrite (holds_rdi cells (xs ++ [data])) by (rewrite ?length_app; simpl; done || lia).
  rewrite rd_nat, lookup_app_r, Nat.sub_diag by lia; simpl.
  split_and!; [done|lia|done].
Qed.

Lemma stack_push_top_pop_witness :
  exists s', muggle_stack_push true (ST (Some [Some 7]) 1 1) 9 = Some (Some 1, s') /\
    top_value s' = Some (Some 9) /\
    exists s'', muggle_stack_pop s' true = Some ([9], s'') /\ st_inv s'' [7] 2.
Proof.
  destruct (stack_push_top_pop true (ST (Some [Some 7]) 1 1) [7] 1 9 true)
    as (s' & Hp & _ & _ & Hok).
  - exists [Some 7]; split; [done|]; split; [by exists []|simpl; lia].
  - exists s'; split; [exact Hp|].
    destruct Hok as (_ & Ht & _ & Hpop); [done|]; split; [exact Ht|exact Hpop].
Defined.
