(* ===== verification/Heap.v ===== *)
(** * The binary min-heap of [dsaa/heap.c]

    Node 1 is the root and cell 0 of the array is never used.  A node is a
    key and a value.  Sifting moves a hole: nodes are copied into it until
    the place of the waiting node is found; the model has the same loops,
    with fuel, and the theorems show that the fuel given is enough.
    [mem] is the answer of [malloc]; [None] is undefined behaviour. *)
From S2P Require Import Prelude Utils DataArray.

#[local] Ltac Zify.zify_post_hook ::= Z.div_mod_to_equations.

(** [muggle_heap_node_t]: key and value. *)
Abbreviation muggle_heap_node := (Z * Z)%type.

Record muggle_heap := HP {
  hp_capacity : Z;
  hp_size : Z;
  hp_nodes : option (list (option muggle_heap_node))
}.

(** A call of [key_func_free] or [value_func_free]. *)
Inductive heap_free := FreeKey (p : Z) | FreeValue (p : Z).

(** Freeing the key and the value of a node, each only if not NULL; the
    fields are set to NULL. *)
Definition free_node (kf vf : bool) (x : muggle_heap_node) : list heap_free :=
  (if negb (fst x =? NULL) && kf then [FreeKey (fst x)] else []) ++
  (if negb (snd x =? NULL) && vf then [FreeValue (snd x)] else []).

Section Heap.
Variable cmp : Z -> Z -> Z.

(** [has_cmp] is [cmp != NULL]; on the early failures the heap is left as
    it was. *)
Definition muggle_heap_init (mem has_cmp : bool) (h0 : muggle_heap) (capacity : Z)
  : bool * muggle_heap :=
  if negb has_cmp then (false, h0)
  else
    let capacity := if capacity =? 0 then 8 else capacity in
    if negb (MUGGLE_DS_CAP_IS_VALID capacity) then (false, h0)
    else if negb mem then (false, HP 0 0 None)
    else (true, HP capacity 0 (Some (uninit (capacity + 1)))).

Definition muggle_heap_clear (h : muggle_heap) (kf vf : bool)
  : option (list heap_free * muggle_heap) :=
  match hp_nodes h with
  | None => if hp_size h =? 0 then Some ([], HP (hp_capacity h) 0 None) else None
  | Some cells =>
      '(tr, cells) ← for_up (fun i '(tr, cells) =>
          x ← rdi cells i;
          cells ← wr cells i (Some (NULL, NULL));
          Some (tr ++ free_node kf vf x, cells)) (Z.to_nat (hp_size h)) 1 ([], cells);
      Some (tr, HP (hp_capacity h) 0 (Some cells))
  end.

Definition muggle_heap_destroy (h : muggle_heap) (kf vf : bool)
  : option (list heap_free * muggle_heap) :=
  '(tr, h) ← muggle_heap_clear h kf vf;
  Some (tr, HP (hp_capacity h) (hp_size h) None).

Definition muggle_heap_is_empty (h : muggle_heap) : bool := hp_size h =? 0.

Definition muggle_heap_ensure_capacity (mem : bool) (h : muggle_heap) (capacity : Z)
  : option (bool * muggle_heap) :=
  if hp_capacity h >=? capacity then Some (true, h)
  else if negb (MUGGLE_DS_CAP_IS_VALID capacity) then Some (false, h)
  else if negb mem then Some (false, h)
  else
    old ← hp_nodes h;
    new ← for_up (fun i new => x ← rdi old (i + 1); wr new (i + 1) (Some x))
            (Z.to_nat (hp_size h)) 0 (uninit (capacity + 1));
    Some (true, HP capacity (hp_size h) (Some new)).

(** The loop of [insert]: the hole goes up while the parent's key is
    greater. *)
Fixpoint sift_up (fuel : nat) (cells : list (option muggle_heap_node)) (idx key : Z)
  : option (list (option muggle_heap_node) * Z) :=
  match fuel with
  | O => None
  | S fuel =>
      let parent_idx := idx / 2 in
      if parent_idx =? 0 then Some (cells, idx)
      else
        parent ← rdi cells parent_idx;
        if cmp (fst parent) key <=? 0 then Some (cells, idx)
        else cells ← wr cells idx (Some parent); sift_up fuel cells (idx / 2) key
  end.

Definition muggle_heap_insert (mem : bool) (h : muggle_heap) (key value : Z)
  : option (bool * muggle_heap) :=
  '(ok, h) ← (if hp_capacity h =? hp_size h then
                muggle_heap_ensure_capacity mem h (u64 (hp_capacity h * 2))
              else Some (true, h));
  if negb ok then Some (false, h)
  else
    let size := u64 (hp_size h + 1) in
    cells ← hp_nodes h;
    '(cells, idx) ← sift_up (S (Z.to_nat size)) cells size key;
    cells ← wr cells idx (Some (key, value));
    Some (true, HP (hp_capacity h) size (Some cells)).

Definition muggle_heap_root (h : muggle_heap) : option Z :=
  if muggle_heap_is_empty h then None else Some 1.

(** The smaller child of a node whose first child is [child]; [more] says
    that there is a second one. *)
Definition smaller_child (cells : list (option muggle_heap_node)) (child : Z) (more : bool)
  : option Z :=
  if more then
    y ← rdi cells (child + 1);
    x ← rdi cells child;
    Some (if cmp (fst y) (fst x) <? 0 then child + 1 else child)
  else Some child.

(** The loop of [extract]: the hole goes down while the last node's key is
    not less than the smaller child's. *)
Fixpoint sift_down (fuel : nat) (cells : list (option muggle_heap_node)) (size i last : Z)
  : option (list (option muggle_heap_node) * Z) :=
  match fuel with
  | O => None
  | S fuel =>
      if i * 2 <=? size then
        child ← smaller_child cells (i * 2) (negb (i * 2 =? size));
        x ← rdi cells child;
        if cmp last (fst x) >=? 0 then
          cells ← wr cells i (Some x); sift_down fuel cells size child last
        else Some (cells, i)
      else Some (cells, i)
  end.

(** The extracted node, or [None] when the heap is empty. *)
Definition muggle_heap_extract (h : muggle_heap)
  : option (option muggle_heap_node * muggle_heap) :=
  if muggle_heap_is_empty h then Some (None, h)
  else
    cells ← hp_nodes h;
    node ← rdi cells 1;
    last ← rdi cells (hp_size h);
    let size := u64 (hp_size h - 1) in
    '(cells, i) ← sift_down (S (Z.to_nat (hp_size h))) cells size 1 (fst last);
    cells ← wr cells i (Some last);
    Some (Some node, HP (hp_capacity h) size (Some cells)).

Fixpoint heap_find_from (cells : list (option muggle_heap_node)) (data : Z) (n : nat) (i : Z)
  : option (option Z) :=
  match n with
  | O => Some None
  | S n =>
      x ← rdi cells i;
      if cmp (fst x) data =? 0 then Some (Some i) else heap_find_from cells data n (i + 1)
  end.

Definition muggle_heap_find (h : muggle_heap) (data : Z) : option (option Z) :=
  if hp_size h =? 0 then Some None
  else cells ← hp_nodes h; heap_find_from cells data (Z.to_nat (hp_size h)) 1.

(** The loop of [remove]: the hole goes up or down. *)
Fixpoint sift (fuel : nat) (cells : list (option muggle_heap_node)) (size idx last : Z)
  : option (list (option muggle_heap_node) * Z) :=
  match fuel with
  | O => None
  | S fuel =>
      let parent_idx := idx / 2 in
      up ← (if parent_idx =? 0 then Some None
            else parent ← rdi cells parent_idx;
                 Some (if cmp last (fst parent) <? 0 then Some parent else None));
      match up with
      | Some parent => cells ← wr cells idx (Some parent); sift fuel cells size parent_idx last
      | None =>
          if idx * 2 <=? size then
            child ← smaller_child cells (idx * 2) (idx * 2 <? size);
            x ← rdi cells child;
            if cmp last (fst x) >=? 0 then
              cells ← wr cells idx (Some x); sift fuel cells size child last
            else Some (cells, idx)
          else Some (cells, idx)
      end
  end.

(** [remove] of the node at distance [tmp] from the start of the array. *)
Definition muggle_heap_remove (h : muggle_heap) (tmp : Z) (kf vf : bool)
  : option (bool * list heap_free * muggle_heap) :=
  if muggle_heap_is_empty h then Some (false, [], h)
  else if (tmp <=? 0) || (u64 tmp >? hp_size h) then Some (false, [], h)
  else
    cells ← hp_nodes h;
    node ← rdi cells tmp;
    cells ← wr cells tmp (Some (NULL, NULL));
    let tr := free_node kf vf node in
    let idx := u64 tmp in
    if idx =? hp_size h then
      Some (true, tr, HP (hp_capacity h) (u64 (hp_size h - 1)) (Some cells))
    else
      last ← rdi cells (hp_size h);
      let size := u64 (hp_size h - 1) in
      '(cells, idx) ← sift (S (Z.to_nat (hp_size h))) cells size idx (fst last);
      cells ← wr cells idx (Some last);
      Some (true, tr, HP (hp_capacity h) size (Some cells)).

(** ** Order with a hole

    [kat h i] is the key of node [i] of the elements [h] (node [i] is
    element [i - 1]). *)
Definition kat (h : list muggle_heap_node) (i : Z) : Z := fst (h !!! Z.to_nat (i - 1)).
Definition upd (h : list muggle_heap_node) (i : Z) (x : muggle_heap_node) :=
  <[Z.to_nat (i - 1) := x]> h.
Definition hlen (h : list muggle_heap_node) : Z := Z.of_nat (length h).

Definition heap_ordered (h : list muggle_heap_node) : Prop :=
  forall c, 2 <= c <= hlen h -> cmp (kat h (c / 2)) (kat h c) <= 0.

(** The order of all nodes but the one at [idx]. *)
Definition hole_ok (h : list muggle_heap_node) (idx : Z) : Prop :=
  (forall c, 2 <= c <= hlen h -> c <> idx -> c / 2 <> idx ->
     cmp (kat h (c / 2)) (kat h c) <= 0) /\
  (forall c, 2 <= c <= hlen h -> c / 2 = idx -> 2 <= idx ->
     cmp (kat h (idx / 2)) (kat h c) <= 0).

Lemma hlen_upd h i x : hlen (upd h i x) = hlen h.
Proof. unfold hlen, upd; by rewrite length_insert. Qed.

Lemma kat_upd_eq h i x : 1 <= i <= hlen h -> kat (upd h i x) i = fst x.
Proof.
  intros Hi; unfold kat, upd; rewrite list_lookup_total_insert_eq; [done|].
  unfold hlen in Hi; lia.
Qed.

Lemma kat_upd_ne h i j x : 1 <= i -> 1 <= j -> i <> j -> kat (upd h i x) j = kat h j.
Proof. intros; unfold kat, upd; rewrite list_lookup_total_insert_ne; [done|lia]. Qed.

Context `{!CmpLaws cmp}.

(** Filling the hole. *)
Lemma fill_hole h idx x :
  hole_ok h idx -> 1 <= idx <= hlen h ->
  (2 <= idx -> cmp (kat h (idx / 2)) (fst x) <= 0) ->
  (forall c, 2 <= c <= hlen h -> c / 2 = idx -> cmp (fst x) (kat h c) <= 0) ->
  heap_ordered (upd h idx x).
Proof.
  intros [H1 H2] Hi Hp Hc c Hcr; rewrite hlen_upd in Hcr.
  destruct (decide (c = idx)) as [->|Hne].
  - rewrite kat_upd_eq, kat_upd_ne by lia; apply Hp; lia.
  - rewrite (kat_upd_ne h idx c) by lia; destruct (decide (c / 2 = idx)) as [E|Hn].
    + rewrite E, kat_upd_eq by lia; by apply Hc.
    + rewrite kat_upd_ne by lia; by apply H1.
Qed.

Lemma hole_up h idx y :
  hole_ok h idx -> 2 <= idx <= hlen h -> fst y = kat h (idx / 2) ->
  hole_ok (upd h idx y) (idx / 2).
Proof.
  intros [H1 H2] Hi Hy; split; rewrite hlen_upd; intros c Hc.
  - intros Hn1 Hn2; rewrite (kat_upd_ne h idx c) by lia.
    destruct (decide (c / 2 = idx)) as [E|].
    + rewrite E, kat_upd_eq, Hy by lia; apply H2; [lia|done|lia].
    + rewrite kat_upd_ne by lia; apply H1; [lia| |done]; intros ->; done.
  - intros E Hp; rewrite (kat_upd_ne h idx (idx / 2 / 2)) by lia.
    assert (cmp (kat h (idx / 2 / 2)) (kat h (idx / 2)) <= 0) by (apply H1; lia).
    destruct (decide (c = idx)) as [->|]; [by rewrite kat_upd_eq, Hy by lia|].
    rewrite kat_upd_ne by lia; eapply cmp_trans; [done|].
    rewrite <- E; apply H1; lia.
Qed.

Lemma hole_up_children h idx y x c :
  hole_ok h idx -> 2 <= idx <= hlen h -> fst y = kat h (idx / 2) -> cmp x (fst y) < 0 ->
  2 <= c <= hlen h -> c / 2 = idx / 2 -> cmp x (kat (upd h idx y) c) < 0.
Proof.
  intros [H1 H2] Hi Hy Hx Hc E; destruct (decide (c = idx)) as [->|].
  - by rewrite kat_upd_eq by lia.
  - rewrite kat_upd_ne by lia; eapply cmp_lt_le; [done|].
    rewrite Hy, <- E; apply H1; lia.
Qed.

Lemma hole_down h idx m y :
  hole_ok h idx -> 1 <= idx -> 2 <= m <= hlen h -> m / 2 = idx -> fst y = kat h m ->
  (forall c, 2 <= c <= hlen h -> c / 2 = idx -> cmp (kat h m) (kat h c) <= 0) ->
  hole_ok (upd h idx y) m.
Proof.
  intros [H1 H2] Hi Hm E Hy Hmin; split; rewrite hlen_upd; intros c Hc.
  - intros Hn1 Hn2; destruct (decide (c = idx)) as [->|].
    + rewrite kat_upd_eq, kat_upd_ne, Hy by lia; apply H2; lia.
    + rewrite (kat_upd_ne h idx c) by lia; destruct (decide (c / 2 = idx)) as [E'|].
      * rewrite E', kat_upd_eq, Hy by lia; apply Hmin; [lia|done].
      * rewrite kat_upd_ne by lia; apply H1; [lia|done|done].
  - intros E' Hm2; rewrite E, kat_upd_eq, kat_upd_ne, Hy by lia.
    rewrite <- E'; apply H1; lia.
Qed.

(** ** The array and its elements *)

Definition at_node (h : list muggle_heap_node) (i : Z) : option muggle_heap_node :=
  h !! Z.to_nat (i - 1).

(** The cells hold [h], except possibly at [idx]. *)
Definition hole_cells (cells : list (option muggle_heap_node)) h (idx : Z) : Prop :=
  hlen h < Z.of_nat (length cells) /\
  forall i, 1 <= i <= hlen h -> i <> idx -> rdi cells i = at_node h i.

Definition heap_cells (cells : list (option muggle_heap_node)) h : Prop :=
  hlen h < Z.of_nat (length cells) /\
  forall i, 1 <= i <= hlen h -> rdi cells i = at_node h i.

Lemma heap_hole cells h idx : heap_cells cells h -> hole_cells cells h idx.
Proof. intros [H1 H2]; split; auto. Qed.

Lemma at_node_Some h i : 1 <= i <= hlen h -> exists x, at_node h i = Some x /\ fst x = kat h i.
Proof.
  intros Hi; unfold at_node, kat, hlen in *.
  destruct (lookup_lt_is_Some_2 h (Z.to_nat (i - 1))) as [x Hx]; [lia|].
  exists x; split; [done|]; by rewrite (list_lookup_total_correct _ _ _ Hx).
Qed.

Lemma hole_cells_rdi cells h idx i :
  hole_cells cells h idx -> 1 <= i <= hlen h -> i <> idx ->
  exists x, rdi cells i = Some x /\ at_node h i = Some x /\ fst x = kat h i.
Proof.
  intros [_ H] Hi Hne; destruct (at_node_Some h i Hi) as (x & Hx & Hk).
  exists x; rewrite H by done; auto.
Qed.

Lemma rdi_wr_eq {A} (l l' : list (option A)) i x : wr l i (Some x) = Some l' -> rdi l' i = Some x.
Proof. intros H%rd_wr_eq; unfold rdi; by rewrite H. Qed.

Lemma rdi_wr_ne {A} (l l' : list (option A)) i j x :
  wr l i x = Some l' -> i <> j -> rdi l' j = rdi l j.
Proof. intros H Hne; unfold rdi; by rewrite (rd_wr_ne _ _ _ _ _ H Hne). Qed.

(** Writing the hole's cell. *)
Lemma hole_cells_wr cells h idx x :
  hole_cells cells h idx -> 1 <= idx <= hlen h ->
  exists cells', wr cells idx (Some x) = Some cells' /\ heap_cells cells' (upd h idx x) /\
    length cells' = length cells.
Proof.
  intros [Hl H] Hi; eexists; rewrite wr_Some by lia; split; [done|].
  rewrite length_insert; split; [|done]; split; [by rewrite hlen_upd, length_insert|].
  intros i; rewrite hlen_upd; intros Hir; unfold at_node, upd.
  destruct (decide (i = idx)) as [->|Hne].
  - rewrite list_lookup_insert_eq by (unfold hlen in *; lia).
    eapply rdi_wr_eq, wr_Some; lia.
  - rewrite list_lookup_insert_ne by lia.
    erewrite rdi_wr_ne; [apply H; [lia|done]|apply wr_Some; lia|done].
Qed.

Lemma upd_swap h i j x y :
  i <> j -> 1 <= i <= hlen h -> 1 <= j -> at_node h j = Some y ->
  upd (upd h i y) j x ≡ₚ upd h i x.
Proof.
  intros Hne Hi Hj Hy; unfold upd, hlen in *; apply swap_perm; [lia|lia|done].
Qed.

(** ** Sifting *)

(** What a sifting loop leaves: a hole whose filling with [x] gives a heap
    of the same nodes. *)
Definition sifted (cells : list (option muggle_heap_node)) h (idx : Z) (x : muggle_heap_node)
    (r : option (list (option muggle_heap_node) * Z)) : Prop :=
  exists cells' idx' h', r = Some (cells', idx') /\ hole_cells cells' h' idx' /\
    length cells' = length cells /\ hlen h' = hlen h /\ 1 <= idx' <= hlen h' /\
    upd h' idx' x ≡ₚ upd h idx x /\ heap_ordered (upd h' idx' x).

Lemma sifted_stop cells h idx x :
  hole_cells cells h idx -> hole_ok h idx -> 1 <= idx <= hlen h ->
  (2 <= idx -> cmp (kat h (idx / 2)) (fst x) <= 0) ->
  (forall c, 2 <= c <= hlen h -> c / 2 = idx -> cmp (fst x) (kat h c) <= 0) ->
  sifted cells h idx x (Some (cells, idx)).
Proof.
  intros; exists cells, idx, h.
  split; [done|]; split; [done|]; split; [done|]; split; [done|]; split; [done|].
  split; [done|]; by apply fill_hole.
Qed.

Lemma sifted_move cells h idx x j y cells1 r :
  at_node h j = Some y -> j <> idx -> 1 <= idx <= hlen h -> 1 <= j ->
  length cells1 = length cells -> sifted cells1 (upd h idx y) j x r -> sifted cells h idx x r.
Proof.
  intros Hy Hne Hi Hj Hl (c & i & h' & -> & Hc & Hlc & Hh & Hi' & Hp & Ho).
  exists c, i, h'; rewrite hlen_upd in Hh; split_and!; try done; try lia; try apply Hc.
  by rewrite Hp; apply upd_swap.
Qed.

Lemma sift_up_spec fuel cells h idx x :
  hole_cells cells h idx -> hole_ok h idx -> 1 <= idx <= hlen h -> idx <= Z.of_nat fuel ->
  (forall c, 2 <= c <= hlen h -> c / 2 = idx -> cmp (fst x) (kat h c) <= 0) ->
  sifted cells h idx x (sift_up fuel cells idx (fst x)).
Proof.
  revert cells h idx; induction fuel as [|fuel IH]; intros cells h idx Hc Hok Hi Hf Hch; [lia|].
  simpl; destruct (Z.eqb_spec (idx / 2) 0); [apply sifted_stop; auto; lia|].
  destruct (hole_cells_rdi cells h idx (idx / 2) Hc) as (y & -> & Hy & Hk); [lia|lia|]; simpl.
  destruct (Z.leb_spec (cmp (fst y) (fst x)) 0) as [Hle|Hgt].
  { apply sifted_stop; auto; intros; by rewrite <- Hk. }
  assert (cmp (fst x) (fst y) < 0) as Hlt by (apply cmp_flip; lia).
  destruct (hole_cells_wr cells h idx y Hc Hi) as (cells1 & -> & Hc1 & Hl1); simpl.
  eapply sifted_move; [exact Hy|lia|lia|lia|exact Hl1|].
  apply IH; [by apply heap_hole|apply hole_up; auto; lia|rewrite hlen_upd; lia|lia|].
  rewrite hlen_upd; intros c Hcr E.
  pose proof (hole_up_children h idx y (fst x) c Hok); lia.
Qed.

Lemma smaller_child_spec cells h idx (more : bool) :
  hole_cells cells h idx -> 1 <= idx -> 2 * idx <= hlen h ->
  (more = true <-> 2 * idx < hlen h) ->
  exists m y, smaller_child cells (idx * 2) more = Some m /\ rdi cells m = Some y /\
    at_node h m = Some y /\ fst y = kat h m /\ 2 <= m <= hlen h /\ m / 2 = idx /\
    forall c, 2 <= c <= hlen h -> c / 2 = idx -> cmp (kat h m) (kat h c) <= 0.
Proof.
  intros Hc Hi Hl Hmore; unfold smaller_child.
  destruct (hole_cells_rdi cells h idx (idx * 2) Hc) as (y1 & E1 & Hy1 & Hk1); [lia|lia|].
  destruct more.
  - destruct (hole_cells_rdi cells h idx (idx * 2 + 1) Hc) as (y2 & E2 & Hy2 & Hk2);
      [lia|lia|]; rewrite E2, E1; simpl.
    destruct (Z.ltb_spec (cmp (fst y2) (fst y1)) 0) as [Hlt|Hge].
    + exists (idx * 2 + 1), y2; split_and!; try done; try lia.
      intros c Hcr E; assert (c = idx * 2 \/ c = idx * 2 + 1) as [-> | ->] by lia;
        rewrite <- Hk2, <- ?Hk1; [lia|apply cmp_refl].
    + exists (idx * 2), y1; split_and!; try done; try lia.
      intros c Hcr E; assert (c = idx * 2 \/ c = idx * 2 + 1) as [-> | ->] by lia;
        rewrite <- Hk1, <- ?Hk2; [apply cmp_refl|apply cmp_le_of_ge; lia].
  - exists (idx * 2), y1; split_and!; try done; try lia.
    assert (~ 2 * idx < hlen h) by (rewrite <- Hmore; done).
    intros c Hcr E; assert (c = idx * 2) as -> by lia; apply cmp_refl.
Qed.

(** One step down, shared by the loops of [extract] and [remove]. *)
Lemma sift_step_down cells h idx x (more : bool) (loop : list (option muggle_heap_node) -> Z ->
    option (list (option muggle_heap_node) * Z)) :
  hole_cells cells h idx -> hole_ok h idx -> 1 <= idx <= hlen h ->
  (2 * idx <= hlen h -> more = true <-> 2 * idx < hlen h) ->
  (2 <= idx -> cmp (kat h (idx / 2)) (fst x) <= 0) ->
  (forall cells1 h1 m, hole_cells cells1 h1 m -> hole_ok h1 m -> hlen h1 = hlen h ->
     idx < m <= hlen h -> cmp (kat h1 (m / 2)) (fst x) <= 0 ->
     sifted cells1 h1 m x (loop cells1 m)) ->
  sifted cells h idx x
    (if idx * 2 <=? hlen h then
       child ← smaller_child cells (idx * 2) more;
       y ← rdi cells child;
       if cmp (fst x) (fst y) >=? 0 then cells ← wr cells idx (Some y); loop cells child
       else Some (cells, idx)
     else Some (cells, idx)).
Proof.
  intros Hc Hok Hi Hmore Hpar Hloop.
  destruct (Z.leb_spec (idx * 2) (hlen h)); [|apply sifted_stop; auto; intros; lia].
  destruct (smaller_child_spec cells h idx more Hc) as (m & y & -> & E & Hy & Hk & Hm & Em & Hmin);
    [lia|lia|apply Hmore; lia|]; simpl; rewrite E; simpl.
  rewrite Z.geb_leb; destruct (Z.leb_spec 0 (cmp (fst x) (fst y))) as [Hge|Hlt].
  - destruct (hole_cells_wr cells h idx y Hc Hi) as (cells1 & -> & Hc1 & Hl1); simpl.
    eapply sifted_move; [exact Hy|lia|lia|lia|exact Hl1|].
    apply Hloop; [by apply heap_hole|apply hole_down; auto; lia|apply hlen_upd|lia|].
    rewrite Em, kat_upd_eq by lia; apply cmp_le_of_ge; lia.
  - apply sifted_stop; auto; intros c Hcr Ec.
    apply Z.lt_le_incl; eapply cmp_lt_le; [exact Hlt|]; rewrite Hk; by apply Hmin.
Qed.

Lemma sift_down_spec fuel cells h idx x :
  hole_cells cells h idx -> hole_ok h idx -> 1 <= idx <= hlen h ->
  hlen h - idx < Z.of_nat fuel ->
  (2 <= idx -> cmp (kat h (idx / 2)) (fst x) <= 0) ->
  sifted cells h idx x (sift_down fuel cells (hlen h) idx (fst x)).
Proof.
  revert cells h idx; induction fuel as [|fuel IH]; intros cells h idx Hc Hok Hi Hf Hpar; [lia|].
  simpl; apply (sift_step_down cells h idx x _
    (fun cells child => sift_down fuel cells (hlen h) child (fst x))); auto.
  - intros; destruct (Z.eqb_spec (idx * 2) (hlen h)); simpl; split; try done; lia.
  - intros cells1 h1 m Hc1 Hok1 Hl1 Hm Hp; rewrite <- Hl1; apply IH; auto; lia.
Qed.

Lemma sift_down_phase fuel cells h idx x :
  hole_cells cells h idx -> hole_ok h idx -> 1 <= idx <= hlen h ->
  hlen h - idx < Z.of_nat fuel ->
  (2 <= idx -> cmp (kat h (idx / 2)) (fst x) <= 0) ->
  sifted cells h idx x (sift fuel cells (hlen h) idx (fst x)).
Proof.
  revert cells h idx; induction fuel as [|fuel IH]; intros cells h idx Hc Hok Hi Hf Hpar; [lia|].
  simpl.
  assert ((if idx / 2 =? 0 then Some None else parent ← rdi cells (idx / 2);
    Some (if cmp (fst x) (fst parent) <? 0 then Some parent else None)) = Some None) as ->.
  { destruct (Z.eqb_spec (idx / 2) 0); [done|].
    destruct (hole_cells_rdi cells h idx (idx / 2) Hc) as (y & -> & Hy & Hk); [lia|lia|]; simpl.
    destruct (Z.ltb_spec (cmp (fst x) (fst y)) 0) as [Hlt|]; [|done].
    apply cmp_flip in Hlt; rewrite <- Hk in Hpar; lia. }
  simpl; apply (sift_step_down cells h idx x _
    (fun cells child => sift fuel cells (hlen h) child (fst x))); auto.
  - intros; destruct (Z.ltb_spec (idx * 2) (hlen h)); split; try done; lia.
  - intros cells1 h1 m Hc1 Hok1 Hl1 Hm Hp; rewrite <- Hl1; apply IH; auto; lia.
Qed.

(** When the children are greater, the loop of [remove] does not go down. *)
Lemma sift_no_down cells h idx x (loop : list (option muggle_heap_node) -> Z ->
    option (list (option muggle_heap_node) * Z)) :
  hole_cells cells h idx -> hole_ok h idx -> 1 <= idx <= hlen h ->
  (2 <= idx -> cmp (kat h (idx / 2)) (fst x) <= 0) ->
  (forall c, 2 <= c <= hlen h -> c / 2 = idx -> cmp (fst x) (kat h c) < 0) ->
  sifted cells h idx x
    (if idx * 2 <=? hlen h then
       child ← smaller_child cells (idx * 2) (idx * 2 <? hlen h);
       y ← rdi cells child;
       if cmp (fst x) (fst y) >=? 0 then cells ← wr cells idx (Some y); loop cells child
       else Some (cells, idx)
     else Some (cells, idx)).
Proof.
  intros Hc Hok Hi Hpar Hch.
  assert (sifted cells h idx x (Some (cells, idx))).
  { apply sifted_stop; auto; intros; apply Z.lt_le_incl; auto. }
  destruct (Z.leb_spec (idx * 2) (hlen h)); [|done].
  destruct (smaller_child_spec cells h idx (idx * 2 <? hlen h) Hc)
    as (m & y & -> & E & Hy & Hk & Hm & Em & Hmin); [lia|lia| |].
  { destruct (Z.ltb_spec (idx * 2) (hlen h)); split; try done; lia. }
  simpl; rewrite E; simpl; rewrite Hk, Z.geb_leb.
  pose proof (Hch m Hm Em); by destruct (Z.leb_spec 0 (cmp (fst x) (kat h m))); [lia|].
Qed.

Lemma sift_up_phase fuel cells h idx x :
  hole_cells cells h idx -> hole_ok h idx -> 1 <= idx <= hlen h -> idx <= Z.of_nat fuel ->
  (forall c, 2 <= c <= hlen h -> c / 2 = idx -> cmp (fst x) (kat h c) < 0) ->
  sifted cells h idx x (sift fuel cells (hlen h) idx (fst x)).
Proof.
  revert cells h idx; induction fuel as [|fuel IH]; intros cells h idx Hc Hok Hi Hf Hch; [lia|].
  simpl; destruct (Z.eqb_spec (idx / 2) 0); simpl.
  { apply (sift_no_down cells h idx x); auto; lia. }
  destruct (hole_cells_rdi cells h idx (idx / 2) Hc) as (y & -> & Hy & Hk); [lia|lia|]; simpl.
  destruct (Z.ltb_spec (cmp (fst x) (fst y)) 0) as [Hlt|Hge]; simpl.
  - destruct (hole_cells_wr cells h idx y Hc Hi) as (cells1 & -> & Hc1 & Hl1); simpl.
    eapply sifted_move; [exact Hy|lia|lia|lia|exact Hl1|].
    rewrite <- (hlen_upd h idx y); apply IH;
      [by apply heap_hole|apply hole_up; auto; lia|rewrite hlen_upd; lia|lia|].
    rewrite hlen_upd; intros c Hcr E; apply hole_up_children; auto; lia.
  - apply (sift_no_down cells h idx x); auto; intros _; rewrite <- Hk; apply cmp_le_of_ge; lia.
Qed.

(** The loop of [remove] first decides in which direction it goes. *)
Lemma sift_spec fuel cells h idx x :
  hole_cells cells h idx -> hole_ok h idx -> 1 <= idx <= hlen h -> hlen h < Z.of_nat fuel ->
  sifted cells h idx x (sift fuel cells (hlen h) idx (fst x)).
Proof.
  intros Hc Hok Hi Hf.
  destruct (decide (2 <= idx -> cmp (kat h (idx / 2)) (fst x) <= 0)) as [Hd|Hu].
  { apply sift_down_phase; auto; lia. }
  assert (2 <= idx /\ cmp (fst x) (kat h (idx / 2)) < 0) as [Hi2 Hlt].
  { destruct (decide (2 <= idx)); [|exfalso; apply Hu; lia].
    split; [done|]; apply cmp_flip.
    destruct (decide (cmp (kat h (idx / 2)) (fst x) <= 0)); [exfalso; auto|lia]. }
  destruct fuel as [|fuel]; [lia|]; simpl; destruct (Z.eqb_spec (idx / 2) 0); [lia|].
  destruct (hole_cells_rdi cells h idx (idx / 2) Hc) as (y & -> & Hy & Hk); [lia|lia|]; simpl.
  rewrite <- Hk in Hlt; rewrite (proj2 (Z.ltb_lt _ _) Hlt).
  destruct (hole_cells_wr cells h idx y Hc Hi) as (cells1 & -> & Hc1 & Hl1); simpl.
  eapply sifted_move; [exact Hy|lia|lia|lia|exact Hl1|].
  rewrite <- (hlen_upd h idx y); apply sift_up_phase;
    [by apply heap_hole|apply hole_up; auto; lia|rewrite hlen_upd; lia|lia|].
  rewrite hlen_upd; intros c Hcr E; apply hole_up_children; auto; lia.
Qed.

(** ** Operations *)

#[local] Arguments sift_up : simpl never.
#[local] Arguments sift_down : simpl never.
#[local] Arguments sift : simpl never.

Definition heap_inv (H : muggle_heap) (h : list muggle_heap_node) (cap : Z) : Prop :=
  exists cells, H = HP cap (hlen h) (Some cells) /\ heap_cells cells h /\
    Z.of_nat (length cells) = cap + 1 /\ 0 < cap < 2 ^ 31 /\ heap_ordered h.

Lemma hlen_app h x : hlen (h ++ [x]) = hlen h + 1.
Proof. unfold hlen; rewrite length_app; simpl; lia. Qed.

Lemma at_node_app h x i : 1 <= i <= hlen h -> at_node (h ++ [x]) i = at_node h i.
Proof. intros Hi; unfold at_node, hlen in *; rewrite lookup_app_l; [done|lia]. Qed.

Lemma kat_app h x i : 1 <= i <= hlen h -> kat (h ++ [x]) i = kat h i.
Proof.
  intros Hi; destruct (at_node_Some h i Hi) as (y & Hy & <-).
  rewrite <- (at_node_app h x i Hi) in Hy; unfold at_node in Hy; unfold kat.
  by rewrite (list_lookup_total_correct _ _ _ Hy).
Qed.

Lemma at_node_last h x : at_node (h ++ [x]) (hlen h + 1) = Some x.
Proof.
  unfold at_node, hlen; rewrite lookup_app_r by lia.
  by replace (Z.to_nat _ - length h)%nat with 0%nat by lia.
Qed.

Lemma upd_last h x : upd (h ++ [x]) (hlen h + 1) x = h ++ [x].
Proof. unfold upd; apply list_insert_id; apply at_node_last. Qed.

Lemma ordered_prefix h x : heap_ordered (h ++ [x]) -> heap_ordered h.
Proof.
  intros Ho c Hc; specialize (Ho c); rewrite hlen_app, !kat_app in Ho by lia; apply Ho; lia.
Qed.

Lemma ordered_hole h idx : heap_ordered h -> hole_ok h idx.
Proof.
  intros Ho; split; [auto|]; intros c Hc <- H2; eapply cmp_trans; apply Ho; lia.
Qed.

Lemma new_hole h x : heap_ordered h -> hole_ok (h ++ [x]) (hlen h + 1).
Proof.
  intros Ho; split; rewrite hlen_app; [|lia].
  intros c Hc Hne _; rewrite !kat_app by lia; apply Ho; lia.
Qed.

Lemma root_min h i : heap_ordered h -> 1 <= i <= hlen h -> cmp (kat h 1) (kat h i) <= 0.
Proof.
  intros Ho; induction (Z.lt_wf 0 i) as [i _ IH]; intros Hi.
  destruct (decide (i = 1)) as [->|]; [apply cmp_refl|].
  eapply cmp_trans; [apply (IH (i / 2)); lia|apply Ho; lia].
Qed.

Lemma root_min_all h : heap_ordered h -> Forall (fun y => cmp (kat h 1) (fst y) <= 0) h.
Proof.
  intros Ho; apply Forall_lookup; intros i y Hy.
  pose proof (lookup_lt_Some _ _ _ Hy).
  replace (fst y) with (kat h (Z.of_nat i + 1)); [apply root_min; [done|unfold hlen; lia]|].
  unfold kat; replace (Z.to_nat _) with i by lia; by rewrite (list_lookup_total_correct _ _ _ Hy).
Qed.

Lemma heap_cells_prefix cells h x : heap_cells cells (h ++ [x]) -> heap_cells cells h.
Proof.
  intros [Hl H]; split; rewrite hlen_app in *; [lia|].
  intros i Hi; rewrite H by lia; by apply at_node_app.
Qed.

Lemma heap_ensure_spec mem H h cap c :
  heap_inv H h cap -> hlen h <= c -> in_width 64 c ->
  exists H', muggle_heap_ensure_capacity mem H c = Some (fst (spec_ensure cap mem c), H') /\
    heap_inv H' h (snd (spec_ensure cap mem c)).
Proof.
  intros Hinv Hle Hw; pose proof Hinv as (cells & -> & Hc & Hl & Hcap & Ho).
  unfold muggle_heap_ensure_capacity, spec_ensure; simpl; rewrite Z.geb_leb.
  case_decide; destruct (Z.leb_spec c cap); try lia; [eauto|].
  destruct (MUGGLE_DS_CAP_IS_VALID c) eqn:Hv; simpl.
  2:{ rewrite decide_False; [eauto|]; rewrite <- ds_cap_valid_spec by done; congruence. }
  apply ds_cap_valid_spec in Hv; [|done]; rewrite decide_True by done.
  destruct mem; simpl; [|eauto].
  destruct (for_up_inv (fun i new => x ← rdi cells (i + 1); wr new (i + 1) (Some x))
    (fun i new => Z.of_nat (length new) = c + 1 /\
       forall j, 1 <= j <= i -> rdi new j = at_node h j)
    (Z.to_nat (hlen h)) 0 (uninit (c + 1))) as (new & -> & Hln & Hn).
  - split; [unfold uninit; rewrite length_replicate; lia|lia].
  - intros i new Hi [Hln Hn]; destruct (at_node_Some h (i + 1)) as (x & Hx & _); [lia|].
    destruct Hc as [_ Hc]; rewrite Hc, Hx by lia; simpl.
    rewrite wr_Some by lia; eexists; split; [done|]; rewrite length_insert; split; [done|].
    intros j Hj; destruct (decide (j = i + 1)) as [->|].
    + rewrite Hx; eapply rdi_wr_eq, wr_Some; lia.
    + rewrite <- Hn by lia; eapply rdi_wr_ne; [apply wr_Some; lia|lia].
  - simpl; eexists; split; [done|]; exists new; split; [done|]; split; [|split; [done|split; [lia|done]]].
    split; [lia|]; intros i Hi; apply Hn; unfold hlen in *; lia.
Qed.

(** [insert] into a heap with room. *)
Lemma insert_room H h cap key value :
  heap_inv H h cap -> hlen h < cap ->
  exists cells h', (cells ← hp_nodes H;
      '(cells, idx) ← sift_up (S (Z.to_nat (u64 (hp_size H + 1)))) cells (u64 (hp_size H + 1)) key;
      wr cells idx (Some (key, value))) = Some cells /\
    heap_inv (HP (hp_capacity H) (u64 (hp_size H + 1)) (Some cells)) h' cap /\
    h' ≡ₚ (key, value) :: h.
Proof.
  intros (cells & -> & [Hlc Hc] & Hl & Hcap & Ho) Hroom.
  cbn [hp_nodes hp_size hp_capacity mbind option_bind].
  rewrite wrap_small by (unfold in_width, hlen in *; lia).
  set (x := (key, value)); set (h1 := h ++ [x]).
  assert (Hh1 : hlen h1 = hlen h + 1) by apply hlen_app.
  assert (0 <= hlen h) by (unfold hlen; lia).
  destruct (sift_up_spec (S (Z.to_nat (hlen h + 1))) cells h1 (hlen h + 1) x)
    as (c' & idx & h' & E & Hc' & Hlc' & Hh' & Hidx & Hp & Ho').
  - split; [lia|]; intros i Hi Hne; unfold h1; rewrite at_node_app by lia; apply Hc; lia.
  - by apply new_hole.
  - lia.
  - lia.
  - intros c Hcr; lia.
  - destruct (hole_cells_wr c' h' idx x Hc' Hidx) as (c2 & Hw & Hc2 & Hl2).
    exists c2, (upd h' idx x); change key with (fst x) in |- * at 1; rewrite E; split; [done|].
    split; [|rewrite Hp; unfold h1; rewrite upd_last; by rewrite Permutation_app_comm].
    exists c2; rewrite hlen_upd, Hh', Hh1; split; [done|]; split; [done|]; split; [lia|done].
Qed.

Definition spec_grow_heap (h : list muggle_heap_node) (cap : Z) (mem : bool) : bool * Z :=
  if decide (cap = hlen h) then spec_ensure cap mem (cap * 2) else (true, cap).

Lemma heap_insert_spec mem H h cap key value :
  heap_inv H h cap -> hlen h <= cap ->
  let '(ok, cap') := spec_grow_heap h cap mem in
  exists H' h', muggle_heap_insert mem H key value = Some (ok, H') /\ heap_inv H' h' cap' /\
    hlen h' <= cap' /\ (if ok then h' ≡ₚ (key, value) :: h else h' = h).
Proof.
  intros Hinv Hle; pose proof Hinv as (cells & EH & _ & Hl & Hcap & _).
  assert (hp_capacity H = cap /\ hp_size H = hlen h) as [Hcp Hsz] by (by subst H).
  assert (0 <= hlen h) by (unfold hlen; lia).
  unfold spec_grow_heap, muggle_heap_insert; rewrite Hcp, Hsz.
  assert (exists ok cap' H', (if cap =? hlen h then
      muggle_heap_ensure_capacity mem H (u64 (cap * 2)) else Some (true, H)) = Some (ok, H') /\
    (if decide (cap = hlen h) then spec_ensure cap mem (cap * 2) else (true, cap)) = (ok, cap') /\
    heap_inv H' h cap' /\ (if ok then hlen h < cap' else hlen h <= cap'))
    as (ok & cap' & H' & -> & -> & Hinv' & Hroom).
  { case_decide as Hf.
    - rewrite (proj2 (Z.eqb_eq _ _) Hf), wrap_small by (unfold in_width; lia).
      destruct (heap_ensure_spec mem H h cap (cap * 2)) as (H' & -> & Hi);
        [done|lia|unfold in_width; lia|].
      destruct (spec_ensure cap mem (cap * 2)) as [ok cap'] eqn:E; exists ok, cap', H'.
      split; [done|]; split; [done|]; split; [done|].
      revert E; unfold spec_ensure; repeat case_decide; destruct mem; intros; simplify_eq; lia.
    - rewrite (proj2 (Z.eqb_neq _ _) Hf); exists true, cap, H.
      split; [done|]; split; [done|]; split; [done|lia]. }
  destruct ok; simpl; [|exists H', h; eauto].
  destruct (insert_room H' h cap' key value Hinv' Hroom) as (c & h' & E & Hi & Hp).
  destruct (hp_nodes H') as [c0|]; simpl in *; [|done].
  destruct (sift_up (S _) _ _ _) as [[c1 idx]|]; simpl in *; [|done]; rewrite E; simpl.
  exists (HP (hp_capacity H') (u64 (hp_size H' + 1)) (Some c)), h'.
  split; [done|]; split; [done|]; split; [|done].
  unfold hlen in *; rewrite (Permutation_length Hp); simpl; lia.
Qed.

Lemma heap_inv_le H h cap : heap_inv H h cap -> 0 <= hlen h <= cap.
Proof. intros (cells & _ & [Hl _] & Hlc & _); unfold hlen in *; lia. Qed.

(** The node that leaves and the nodes that stay, when the last node takes
    the place of node [idx]. *)
Lemma replace_perm h last idx x :
  at_node h idx = Some x -> x :: upd h idx last ≡ₚ h ++ [last].
Proof.
  intros Hx; unfold upd; rewrite (insert_perm _ _ last _ Hx).
  by rewrite Permutation_app_comm.
Qed.

Lemma heap_extract_spec H h cap :
  heap_inv H h cap ->
  (h = [] /\ muggle_heap_extract H = Some (None, H)) \/
  exists x H' h', muggle_heap_extract H = Some (Some x, H') /\ heap_inv H' h' cap /\
    h ≡ₚ x :: h' /\ Forall (fun y => cmp (fst x) (fst y) <= 0) h.
Proof.
  intros (cells & -> & Hc & Hl & Hcap & Ho).
  destruct (list_snoc_case h) as [->|(h0 & last & ->)]; [by left|right].
  unfold muggle_heap_extract, muggle_heap_is_empty; cbn [hp_size hp_nodes hp_capacity].
  rewrite hlen_app; assert (0 <= hlen h0) by (unfold hlen; lia).
  destruct (Z.eqb_spec (hlen h0 + 1) 0); [lia|].
  destruct (at_node_Some (h0 ++ [last]) 1) as (x & Hx & Hkx); [rewrite hlen_app; lia|].
  pose proof Hc as [Hlc Hcr]; rewrite hlen_app in *.
  cbn [mbind option_bind]; rewrite !Hcr, Hx, at_node_last by lia; cbn [mbind option_bind].
  rewrite wrap_small by (unfold in_width; lia).
  replace (hlen h0 + 1 - 1) with (hlen h0) by lia.
  assert (Hmin : Forall (fun y => cmp (fst x) (fst y) <= 0) (h0 ++ [last]))
    by (rewrite Hkx; by apply root_min_all).
  destruct (decide (hlen h0 = 0)) as [Hz|Hnz].
  - assert (h0 = []) as -> by (unfold hlen in Hz; destruct h0; [done|simpl in Hz; lia]).
    unfold sift_down; simpl; rewrite wr_Some by (simpl in *; lia); simpl.
    simpl in Hx; injection Hx as <-; eexists last, _, []; split; [done|]; split; [|done].
    eexists; split; [done|]; rewrite length_insert; split.
    + split; rewrite ?length_insert; simpl in *; lia.
    + split; [lia|]; split; [lia|]; intros c Hcx; simpl in Hcx; lia.
  - destruct (sift_down_spec (S (Z.to_nat (hlen h0 + 1))) cells h0 1 last)
      as (c' & idx & h' & -> & Hc' & Hlc' & Hh' & Hidx & Hp & Ho').
    + by apply heap_hole, (heap_cells_prefix _ _ last).
    + by apply ordered_hole, (ordered_prefix _ last).
    + lia.
    + lia.
    + lia.
    + simpl; destruct (hole_cells_wr c' h' idx last Hc' Hidx) as (c2 & -> & Hc2 & Hl2); simpl.
      rewrite at_node_app in Hx by lia.
      eexists x, _, (upd h' idx last); split; [done|]; split; [|split; [|done]].
      * exists c2; rewrite hlen_upd, Hh'; split; [done|]; split; [done|]; split; [lia|done].
      * rewrite Hp; symmetry; by apply replace_perm.
Qed.

Lemma heap_remove_spec H h cap tmp kf vf :
  heap_inv H h cap -> - 2 ^ 63 <= tmp < 2 ^ 63 ->
  (~ 1 <= tmp <= hlen h /\ muggle_heap_remove H tmp kf vf = Some (false, [], H)) \/
  exists x H' h', 1 <= tmp <= hlen h /\ at_node h tmp = Some x /\
    muggle_heap_remove H tmp kf vf = Some (true, free_node kf vf x, H') /\
    heap_inv H' h' cap /\ h ≡ₚ x :: h'.
Proof.
  intros (cells & -> & Hc & Hl & Hcap & Ho) Htmp.
  unfold muggle_heap_remove, muggle_heap_is_empty; cbn [hp_size hp_nodes hp_capacity].
  destruct (decide (1 <= tmp <= hlen h)) as [Hin|Hout]; [right|left].
  2:{ split; [done|]; destruct (Z.eqb_spec (hlen h) 0); [done|].
      rewrite Z.gtb_ltb; destruct (Z.leb_spec tmp 0); simpl; [done|].
      rewrite wrap_small by (unfold in_width; lia); destruct (Z.ltb_spec (hlen h) tmp); [done|lia]. }
  destruct (Z.eqb_spec (hlen h) 0); [lia|].
  rewrite Z.gtb_ltb, wrap_small by (unfold in_width; lia).
  destruct (Z.leb_spec tmp 0), (Z.ltb_spec (hlen h) tmp); try lia; cbn [orb].
  destruct (at_node_Some h tmp Hin) as (x & Hx & Hkx).
  pose proof Hc as [Hlc Hcr]; cbn [mbind option_bind]; rewrite Hcr, Hx by lia.
  cbn [mbind option_bind].
  destruct (hole_cells_wr cells h tmp (NULL, NULL)) as (c1 & -> & Hc1 & Hl1);
    [by apply heap_hole|lia|]; cbn [mbind option_bind].
  destruct (list_snoc_case h) as [->|(h0 & last & ->)]; [done|].
  pose proof (ordered_prefix _ _ Ho) as Ho0; rewrite hlen_app in *.
  rewrite (wrap_small 64 (hlen h0 + 1 - 1)) by (unfold in_width; lia).
  replace (hlen h0 + 1 - 1) with (hlen h0) by lia.
  destruct (Z.eqb_spec tmp (hlen h0 + 1)) as [->|Hne].
  - rewrite at_node_last in Hx; injection Hx as <-.
    eexists last, _, h0; split; [lia|]; split; [done|]; split; [done|].
    split; [|by rewrite Permutation_app_comm].
    exists c1; split; [done|]; split; [|split; [lia|done]].
    split; [lia|]; intros i Hi; destruct Hc1 as [_ Hc1].
    rewrite Hc1 by (rewrite hlen_upd, hlen_app; lia); unfold at_node, upd.
    rewrite list_lookup_insert_ne by lia; fold (at_node (h0 ++ [last]) i).
    by apply at_node_app.
  - rewrite at_node_app in Hx by lia.
    assert (Hr1 : forall i, 1 <= i <= hlen h0 + 1 -> i <> tmp ->
      rdi c1 i = at_node (h0 ++ [last]) i).
    { intros i Hi Hni; destruct Hc1 as [_ Hc1].
      rewrite Hc1 by (rewrite hlen_upd, hlen_app; lia); unfold at_node, upd.
      by rewrite list_lookup_insert_ne by lia. }
    rewrite Hr1, at_node_last by lia; cbn [mbind option_bind].
    destruct (sift_spec (S (Z.to_nat (hlen h0 + 1))) c1 h0 tmp last)
      as (c' & idx & h' & -> & Hc' & Hlc' & Hh' & Hidx & Hp & Ho').
    + split; [lia|]; intros i Hi Hni; rewrite Hr1 by lia; by apply at_node_app.
    + by apply ordered_hole.
    + lia.
    + lia.
    + simpl; destruct (hole_cells_wr c' h' idx last Hc' Hidx) as (c2 & -> & Hc2 & Hl2); simpl.
      eexists x, _, (upd h' idx last); split; [lia|]; split; [by rewrite ?at_node_app by lia|].
      split; [done|]; split.
      * exists c2; rewrite hlen_upd, Hh'; split; [done|]; split; [done|]; split; [lia|done].
      * rewrite Hp; symmetry; by apply replace_perm.
Qed.

Lemma heap_clear_spec H h cap kf vf :
  heap_inv H h cap ->
  exists H', muggle_heap_clear H kf vf = Some (concat (free_node kf vf <$> h), H') /\
    heap_inv H' [] cap.
Proof.
  intros (cells & -> & [Hlc Hc] & Hl & Hcap & Ho); unfold muggle_heap_clear; simpl.
  set (body := fun (i : Z) '(tr, cells) => _).
  destruct (for_up_inv body (fun i '(tr, cells') =>
      tr = concat (free_node kf vf <$> take (Z.to_nat (i - 1)) h) /\
      length cells' = length cells /\
      forall j, i <= j <= hlen h -> rdi cells' j = rdi cells j)
    (Z.to_nat (hlen h)) 1 ([], cells)) as ([tr c'] & -> & -> & Hl' & _).
  - done.
  - intros i [tr c'] Hi (-> & Hl' & Hr); unfold body.
    destruct (at_node_Some h i) as (x & Hx & _); [unfold hlen in *; lia|].
    rewrite Hr, Hc, Hx by (unfold hlen in *; lia); simpl.
    rewrite wr_Some by (unfold hlen in *; lia); simpl; eexists; split; [done|].
    simpl; rewrite length_insert; split_and!; [|done|].
    + replace (Z.to_nat (i + 1 - 1)) with (S (Z.to_nat (i - 1))) by lia.
      rewrite (take_S_r _ _ x) by done; rewrite fmap_app, concat_app; simpl.
      by rewrite app_nil_r.
    + intros j Hj; rewrite <- Hr by lia; eapply rdi_wr_ne; [apply wr_Some|lia].
      unfold hlen in *; lia.
  - simpl; eexists; split.
    + rewrite take_ge by (unfold hlen; lia); done.
    + exists c'; split; [done|]; split; [|split; [lia|]].
      * split; unfold hlen; simpl; lia.
      * split; [lia|]; intros c Hcx; unfold hlen in Hcx; simpl in Hcx; lia.
Qed.

(** [find] returns the first node whose key compares equal. *)
Lemma heap_find_spec H h cap data :
  heap_inv H h cap ->
  muggle_heap_find H data =
    Some (match list_find (fun x => cmp (fst x) data = 0) h with
          | Some (j, _) => Some (Z.of_nat j + 1) | None => None end).
Proof.
  intros (cells & -> & [Hlc Hc] & Hl & Hcap & _); unfold muggle_heap_find; simpl.
  assert (forall n i, 1 <= i -> i + Z.of_nat n = hlen h + 1 ->
    heap_find_from cells data n i =
      Some (match list_find (fun x => cmp (fst x) data = 0) (drop (Z.to_nat (i - 1)) h) with
            | Some (j, _) => Some (Z.of_nat j + i) | None => None end)) as Hfrom.
  { induction n as [|n IH]; intros i Hi Hn; simpl.
    { rewrite drop_ge by (unfold hlen in *; lia); done. }
    destruct (at_node_Some h i) as (x & Hx & _); [lia|].
    rewrite Hc, Hx by lia; simpl; rewrite (drop_S _ _ _ Hx); simpl.
    destruct (Z.eqb_spec (cmp (fst x) data) 0); case_decide; try done; simpl.
    rewrite IH by lia; replace (Z.to_nat (i + 1 - 1)) with (S (Z.to_nat (i - 1))) by lia.
    destruct (list_find _ _) as [[j y]|]; simpl; [do 2 f_equal; lia|done]. }
  destruct (Z.eqb_spec (hlen h) 0) as [Hz|Hnz].
  - by assert (h = []) as -> by (unfold hlen in Hz; destruct h; [done|simpl in Hz; lia]).
  - rewrite Hfrom by (unfold hlen in *; lia); by rewrite drop_0.
Qed.

(** ** The abstract priority queue *)

Inductive pq_op :=
| PInsert (mem : bool) (key value : Z)
| PExtract
| PRemove (data : Z) (kf vf : bool)
| PClear (kf vf : bool).

Inductive pq_out :=
| PBool (ok : bool)
| PNode (node : option muggle_heap_node)
| PFreed (ok : bool) (calls : list heap_free).

(** Removing by key is a [find] followed by a [remove] of the node found. *)
Definition heap_exec (H : muggle_heap) (op : pq_op) : option (pq_out * muggle_heap) :=
  match op with
  | PInsert mem k v => '(ok, H) ← muggle_heap_insert mem H k v; Some (PBool ok, H)
  | PExtract => '(r, H) ← muggle_heap_extract H; Some (PNode r, H)
  | PRemove d kf vf =>
      r ← muggle_heap_find H d;
      match r with
      | None => Some (PFreed false [], H)
      | Some i => '(ok, tr, H) ← muggle_heap_remove H i kf vf; Some (PFreed ok tr, H)
      end
  | PClear kf vf => '(tr, H) ← muggle_heap_clear H kf vf; Some (PFreed true tr, H)
  end.

(** A priority queue is a bag of nodes with a capacity. *)
Inductive pq_step : list muggle_heap_node * Z -> pq_op -> pq_out -> list muggle_heap_node * Z -> Prop :=
| pq_insert h h' cap cap' mem k v :
    spec_grow_heap h cap mem = (true, cap') -> h' ≡ₚ (k, v) :: h ->
    pq_step (h, cap) (PInsert mem k v) (PBool true) (h', cap')
| pq_insert_full h cap cap' mem k v :
    spec_grow_heap h cap mem = (false, cap') ->
    pq_step (h, cap) (PInsert mem k v) (PBool false) (h, cap')
| pq_extract_none cap :
    pq_step ([], cap) PExtract (PNode None) ([], cap)
| pq_extract h h' cap x :
    h ≡ₚ x :: h' -> Forall (fun y => cmp (fst x) (fst y) <= 0) h ->
    pq_step (h, cap) PExtract (PNode (Some x)) (h', cap)
| pq_remove_none h cap d kf vf :
    Forall (fun y => cmp (fst y) d <> 0) h ->
    pq_step (h, cap) (PRemove d kf vf) (PFreed false []) (h, cap)
| pq_remove h h' cap d kf vf x :
    h ≡ₚ x :: h' -> cmp (fst x) d = 0 ->
    pq_step (h, cap) (PRemove d kf vf) (PFreed true (free_node kf vf x)) (h', cap)
| pq_clear h cap kf vf :
    pq_step (h, cap) (PClear kf vf) (PFreed true (concat (free_node kf vf <$> h))) ([], cap).

Lemma heap_exec_step H h cap op :
  heap_inv H h cap ->
  exists out H' h' cap', heap_exec H op = Some (out, H') /\ heap_inv H' h' cap' /\
    pq_step (h, cap) op out (h', cap').
Proof.
  intros Hinv; pose proof (heap_inv_le _ _ _ Hinv) as Hle.
  destruct op as [mem k v| |d kf vf|kf vf]; cbn [heap_exec].
  - pose proof (heap_insert_spec mem H h cap k v Hinv ltac:(lia)) as Hs.
    destruct (spec_grow_heap h cap mem) as [ok cap'] eqn:E.
    destruct Hs as (H' & h' & -> & Hi & _ & Hp); simpl.
    exists (PBool ok), H', h', cap'; split; [done|]; split; [done|].
    destruct ok; [by constructor|subst h'; by constructor].
  - destruct (heap_extract_spec H h cap Hinv) as [[-> ->]|(x & H' & h' & -> & Hi & Hp & Hm)]; simpl.
    + exists (PNode None), H, [], cap; split; [done|]; split; [done|constructor].
    + exists (PNode (Some x)), H', h', cap; split; [done|]; split; [done|by constructor].
  - rewrite (heap_find_spec H h cap d Hinv); simpl.
    destruct (list_find _ h) as [[j x]|] eqn:Ef.
    + apply list_find_Some in Ef as (Hj & Heq & _).
      assert (at_node h (Z.of_nat j + 1) = Some x) as Hx
        by (unfold at_node; by replace (Z.to_nat _) with j by lia).
      pose proof (lookup_lt_Some _ _ _ Hj).
      pose proof Hinv as (? & _ & _ & _ & Hcap & _).
      destruct (heap_remove_spec H h cap (Z.of_nat j + 1) kf vf Hinv)
        as [[Hn _]|(y & H' & h' & _ & Hy & -> & Hi & Hp)];
        [unfold hlen in *; lia|exfalso; apply Hn; unfold hlen; lia|].
      rewrite Hx in Hy; injection Hy as <-; simpl.
      exists (PFreed true (free_node kf vf x)), H', h', cap; split; [done|]; split; [done|].
      by constructor.
    + apply list_find_None in Ef.
      exists (PFreed false []), H, h, cap; split; [done|]; split; [done|by constructor].
  - destruct (heap_clear_spec H h cap kf vf Hinv) as (H' & -> & Hi); simpl.
    eexists _, H', [], cap; split; [done|]; split; [done|constructor].
Qed.

Fixpoint heap_run (H : muggle_heap) (ops : list pq_op) : option (list pq_out * muggle_heap) :=
  match ops with
  | [] => Some ([], H)
  | op :: ops => '(o, H) ← heap_exec H op; '(os, H) ← heap_run H ops; Some (o :: os, H)
  end.

Inductive pq_run : list muggle_heap_node * Z -> list pq_op -> list pq_out ->
    list muggle_heap_node * Z -> Prop :=
| pq_run_nil s : pq_run s [] [] s
| pq_run_cons s s' s'' op ops o os :
    pq_step s op o s' -> pq_run s' ops os s'' -> pq_run s (op :: ops) (o :: os) s''.

Lemma heap_run_spec ops H h cap :
  heap_inv H h cap ->
  exists outs H' h' cap', heap_run H ops = Some (outs, H') /\ heap_inv H' h' cap' /\
    pq_run (h, cap) ops outs (h', cap').
Proof.
  revert H h cap; induction ops as [|op ops IH]; intros H h cap Hinv.
  { exists [], H, h, cap; split; [done|]; split; [done|constructor]. }
  destruct (heap_exec_step H h cap op Hinv) as (o & H1 & h1 & c1 & E1 & Hi1 & Hs1).
  destruct (IH H1 h1 c1 Hi1) as (os & H2 & h2 & c2 & E2 & Hi2 & Hs2).
  exists (o :: os), H2, h2, c2; simpl; rewrite E1; simpl; rewrite E2; simpl.
  split; [done|]; split; [done|]; by econstructor.
Qed.

Lemma heap_init_inv mem h0 n H :
  in_width 64 n -> muggle_heap_init mem true h0 n = (true, H) ->
  heap_inv H [] (if n =? 0 then 8 else n).
Proof.
  intros Hn; unfold muggle_heap_init; simpl.
  set (c := if n =? 0 then 8 else n).
  assert (in_width 64 c /\ 0 < c) as [Hw Hpos]
    by (unfold c, in_width in *; destruct (Z.eqb_spec n 0); lia).
  pose proof (ds_cap_valid_spec c Hw) as Hv.
  destruct (MUGGLE_DS_CAP_IS_VALID c), mem; simpl; try done.
  intros E; injection E as <-; exists (uninit (c + 1)).
  assert (Z.of_nat (length (uninit (A := Z * Z) (c + 1))) = c + 1)
    by (unfold uninit; rewrite length_replicate; lia).
  split; [done|]; split; [split; unfold hlen; simpl; lia|]; split; [done|].
  split; [split; [done|by apply Hv]|]; intros i Hi; unfold hlen in Hi; simpl in Hi; lia.
Qed.
End Heap.

(** ** Properties *)

(** C2: The heap refines a priority queue.  For a comparison that is a total
    preorder, any sequence of inserts, extracts, removals by key and clears
    on an initialised heap runs without undefined behaviour and within the
    fuel of its loops; every extracted node has a least key among the nodes
    present, every removal takes one node with an equal key (or none when
    there is none) and frees that node's key and value, and the nodes present
    are always those inserted and not yet taken. *)
Theorem heap_refines_priority_queue cmp `{!CmpLaws cmp} mem h0 n H ops :
  in_width 64 n -> muggle_heap_init mem true h0 n = (true, H) ->
  exists outs H' h' cap', heap_run cmp H ops = Some (outs, H') /\ heap_inv cmp H' h' cap' /\
    pq_run cmp ([], if n =? 0 then 8 else n) ops outs (h', cap').
Proof. intros Hn Hi; apply heap_run_spec; [done|]; by apply (heap_init_inv cmp mem h0). Qed.

Lemma heap_refines_priority_queue_witness :
  exists outs H' h' cap',
    heap_run Z.sub (HP 2 0 (Some (uninit 3)))
      [PInsert true 5 50; PInsert true 3 30; PInsert true 4 40; PExtract; PRemove 5 true true]
    = Some (outs, H') /\ heap_inv Z.sub H' h' cap' /\
    pq_run Z.sub ([], 2)
      [PInsert true 5 50; PInsert true 3 30; PInsert true 4 40; PExtract; PRemove 5 true true]
      outs (h', cap').
Proof.
  apply (heap_refines_priority_queue Z.sub true (HP 0 0 None) 2); [split; lia|].
  vm_compute; reflexivity.
Defined.
