(* ===== verification/Sort.v ===== *)
(** * The sorting functions of [dsaa/sort.c]

    An array of data pointers is a list of pointers; [None] is an access
    outside of it (or the use of an uninitialised cell of the merge buffer).
    Loops that are not counting loops have fuel; the theorems show that the
    fuel the models use is enough.  [size_t] arithmetic that can wrap in the
    code ([count - 1] for an empty array) wraps in the model. *)
From S2P Require Import Prelude Utils Heap.

Section Sort.
Variable cmp : Z -> Z -> Z.

(** ** Insertion sort *)

(** [for (j = i; j > 0; j--)]: shifts greater elements up, returns the place
    of [tmp]. *)
Fixpoint insertion_inner (ptr : list Z) (j : nat) (tmp : Z) : option (list Z * Z) :=
  match j with
  | O => Some (ptr, 0)
  | S j' =>
      x ← rd ptr (Z.of_nat j - 1);
      if cmp x tmp >? 0 then
        ptr ← wr ptr (Z.of_nat j) x; insertion_inner ptr j' tmp
      else Some (ptr, Z.of_nat j)
  end.

Definition insertion_body (i : Z) (ptr : list Z) : option (list Z) :=
  tmp ← rd ptr i;
  '(ptr, j) ← insertion_inner ptr (Z.to_nat i) tmp;
  wr ptr j tmp.

Definition muggle_insertion_sort (ptr : list Z) (count : Z) : option (list Z) :=
  for_up insertion_body (Z.to_nat (count - 1)) 1 ptr.

(** ** Shell sort *)

(** [for (j = i; j >= increment; j -= increment)]. *)
Fixpoint shell_inner (fuel : nat) (ptr : list Z) (increment j tmp : Z) : option (list Z * Z) :=
  match fuel with
  | O => None
  | S fuel =>
      if j >=? increment then
        x ← rd ptr (j - increment);
        if cmp tmp x <? 0 then
          ptr ← wr ptr j x; shell_inner fuel ptr increment (j - increment) tmp
        else Some (ptr, j)
      else Some (ptr, j)
  end.

Definition shell_body (increment i : Z) (ptr : list Z) : option (list Z) :=
  tmp ← rd ptr i;
  '(ptr, j) ← shell_inner (S (Z.to_nat i)) ptr increment i tmp;
  wr ptr j tmp.

Definition shell_pass (ptr : list Z) (count increment : Z) : option (list Z) :=
  for_up (shell_body increment) (Z.to_nat (count - increment)) increment ptr.

Fixpoint shell_loop (fuel : nat) (ptr : list Z) (count increment : Z) : option (list Z) :=
  match fuel with
  | O => None
  | S fuel =>
      if increment >? 0 then
        ptr ← shell_pass ptr count increment; shell_loop fuel ptr count (increment / 2)
      else Some ptr
  end.

Definition muggle_shell_sort (ptr : list Z) (count : Z) : option (list Z) :=
  shell_loop (S (Z.to_nat count)) ptr count (count / 2).

(** ** Heap sort

    The results of the insertions are not tested by the code; [mem] answers
    the allocation of the heap, [mem'] those an insertion could make. *)
Definition muggle_heap_sort (mem mem' : bool) (ptr : list Z) (count : Z)
  : option (bool * list Z) :=
  match muggle_heap_init mem true (HP 0 0 None) (u32 (u32 count + 1)) with
  | (false, _) => Some (false, ptr)
  | (true, heap) =>
      heap ← for_up (fun i heap =>
               x ← rd ptr i; '(_, heap) ← muggle_heap_insert cmp mem' heap x NULL; Some heap)
             (Z.to_nat count) 0 heap;
      '(ptr, heap) ← for_up (fun i '(ptr, heap) =>
               '(node, heap) ← muggle_heap_extract cmp heap;
               node ← node;
               ptr ← wr ptr i (fst node); Some (ptr, heap))
             (Z.to_nat count) 0 (ptr, heap);
      _ ← muggle_heap_destroy heap false false;
      Some (true, ptr)
  end.

(** ** Merge sort *)

(** [while (l <= center && r <= right)]. *)
Fixpoint merge_both (fuel : nat) (ptr : list Z) (arr : list (option Z)) (center right l r idx : Z)
  : option (list (option Z) * Z * Z * Z) :=
  match fuel with
  | O => None
  | S fuel =>
      if (l <=? center) && (r <=? right) then
        x ← rd ptr l;
        y ← rd ptr r;
        if cmp x y <=? 0 then
          arr ← wr arr idx (Some x); merge_both fuel ptr arr center right (l + 1) r (idx + 1)
        else
          arr ← wr arr idx (Some y); merge_both fuel ptr arr center right l (r + 1) (idx + 1)
      else Some (arr, l, r, idx)
  end.

(** [while (l <= last) arr[idx++] = ptr[l++]], returning [idx]. *)
Fixpoint merge_rest (fuel : nat) (ptr : list Z) (arr : list (option Z)) (last l idx : Z)
  : option (list (option Z) * Z) :=
  match fuel with
  | O => None
  | S fuel =>
      if l <=? last then
        x ← rd ptr l; arr ← wr arr idx (Some x); merge_rest fuel ptr arr last (l + 1) (idx + 1)
      else Some (arr, idx)
  end.

(** The merge of [left..center] and [center+1..right] through [arr]. *)
Definition merge_halves (ptr : list Z) (arr : list (option Z)) (left center right : Z)
  : option (list Z * list (option Z)) :=
  let fuel := S (Z.to_nat (right - left + 1)) in
  '(arr, l, r, idx) ← merge_both fuel ptr arr center right left (center + 1) left;
  '(arr, idx) ← merge_rest fuel ptr arr center l idx;
  '(arr, idx) ← merge_rest fuel ptr arr right r idx;
  ptr ← for_up (fun i ptr => x ← rdi arr i; wr ptr i x) (Z.to_nat (right - left + 1)) left ptr;
  Some (ptr, arr).

Fixpoint muggle_merge_sort_recursive (fuel : nat) (ptr : list Z) (arr : list (option Z))
    (left right : Z) : option (list Z * list (option Z)) :=
  match fuel with
  | O => None
  | S fuel =>
      if left <? right then
        let center := u64 (left + right) / 2 in
        '(ptr, arr) ← muggle_merge_sort_recursive fuel ptr arr left center;
        '(ptr, arr) ← muggle_merge_sort_recursive fuel ptr arr (center + 1) right;
        merge_halves ptr arr left center right
      else Some (ptr, arr)
  end.

Definition muggle_merge_sort (mem : bool) (ptr : list Z) (count : Z) : option (bool * list Z) :=
  if negb mem then Some (false, ptr)
  else
    '(ptr, _) ← muggle_merge_sort_recursive (S (Z.to_nat count)) ptr (uninit count)
                  0 (u64 (count - 1));
    Some (true, ptr).

(** ** Quick sort *)

(** [tmp = ptr[a]; ptr[a] = ptr[b]; ptr[b] = tmp]. *)
Definition swap (ptr : list Z) (a b : Z) : option (list Z) :=
  tmp ← rd ptr a; y ← rd ptr b; ptr ← wr ptr a y; wr ptr b tmp.

(** [if (cmp(ptr[a], ptr[b]) > 0)] swap them. *)
Definition order2 (ptr : list Z) (a b : Z) : option (list Z) :=
  x ← rd ptr a; y ← rd ptr b;
  if cmp x y >? 0 then swap ptr a b else Some ptr.

Definition muggle_quick_sort_median3 (ptr : list Z) (left right : Z) : option (list Z * Z) :=
  let center := u64 (left + right) / 2 in
  ptr ← order2 ptr left center;
  ptr ← order2 ptr left right;
  ptr ← order2 ptr center right;
  ptr ← swap ptr center (right - 1);
  pivot ← rd ptr (right - 1);
  Some (ptr, pivot).

(** [while (cmp(ptr[++i], pivot) < 0) {}]. *)
Fixpoint scan_up (fuel : nat) (ptr : list Z) (i pivot : Z) : option Z :=
  match fuel with
  | O => None
  | S fuel =>
      let i := i + 1 in
      x ← rd ptr i; if cmp x pivot <? 0 then scan_up fuel ptr i pivot else Some i
  end.

(** [while (cmp(ptr[--j], pivot) > 0) {}]. *)
Fixpoint scan_down (fuel : nat) (ptr : list Z) (j pivot : Z) : option Z :=
  match fuel with
  | O => None
  | S fuel =>
      let j := j - 1 in
      x ← rd ptr j; if cmp x pivot >? 0 then scan_down fuel ptr j pivot else Some j
  end.

(** [while (true)]: the array and the final [i]. *)
Fixpoint partition_loop (fuel : nat) (ptr : list Z) (i j pivot : Z) : option (list Z * Z) :=
  match fuel with
  | O => None
  | S fuel =>
      i ← scan_up (S (length ptr)) ptr i pivot;
      j ← scan_down (S (length ptr)) ptr j pivot;
      if i <? j then ptr ← swap ptr i j; partition_loop fuel ptr i j pivot
      else Some (ptr, i)
  end.

Definition QUICK_SORT_CUTOFF : Z := 10.

(** [muggle_insertion_sort(ptr + left, n, cmp)]: the call sees the part of
    the array from [left] on. *)
Definition insertion_sort_at (ptr : list Z) (left n : Z) : option (list Z) :=
  part ← copy_out ptr left n;
  part ← muggle_insertion_sort part n;
  copy_in ptr left part.

Fixpoint muggle_quick_sort_recursive (fuel : nat) (ptr : list Z) (left right : Z)
  : option (list Z) :=
  match fuel with
  | O => None
  | S fuel =>
      if u64 (left + QUICK_SORT_CUTOFF) <=? right then
        '(ptr, pivot) ← muggle_quick_sort_median3 ptr left right;
        '(ptr, i) ← partition_loop (S (length ptr)) ptr left (right - 1) pivot;
        ptr ← swap ptr i (right - 1);
        ptr ← muggle_quick_sort_recursive fuel ptr left (i - 1);
        muggle_quick_sort_recursive fuel ptr (i + 1) right
      else insertion_sort_at ptr left (u64 (right + 1 - left))
  end.

Definition muggle_quick_sort (ptr : list Z) (count : Z) : option (list Z) :=
  muggle_quick_sort_recursive (S (Z.to_nat count)) ptr 0 (u64 (count - 1)).

(** ** What it means to sort *)
Context `{!CmpLaws cmp}.

#[local] Abbreviation le := (cmp_le cmp).

Definition sorts (xs ys : list Z) : Prop := StronglySorted le ys /\ ys ≡ₚ xs.

Lemma sorted_insert pre1 pre2 tmp :
  StronglySorted le (pre1 ++ pre2) ->
  Forall (fun x => cmp x tmp > 0) pre2 ->
  (forall p0 x, pre1 = p0 ++ [x] -> cmp x tmp <= 0) ->
  StronglySorted le (pre1 ++ tmp :: pre2).
Proof.
  rewrite !StronglySorted_app, StronglySorted_cons; intros (H12 & H1 & H2) Hgt Hle.
  assert (Hp1 : forall x, x ∈ pre1 -> le x tmp).
  { destruct (list_snoc_case pre1) as [->|(p0 & y & ->)]; [set_solver|].
    pose proof (Hle p0 y eq_refl) as Hy; intros x [Hx|Hx]%elem_of_app.
    - apply (transitivity (R := le) (y := y)); [|done].
      by eapply StronglySorted_app_1_elem_of; [exact H1| |apply list_elem_of_singleton].
    - by apply list_elem_of_singleton in Hx as ->. }
  assert (Hp2 : Forall (le tmp) pre2).
  { eapply Forall_impl; [exact Hgt|]; intros x Hx; unfold cmp_le.
    by apply Z.lt_le_incl, cmp_flip. }
  split_and!; try done; intros x y Hx [->|Hy]%elem_of_cons; [by apply Hp1|by apply H12].
Qed.

(** ** Insertion sort *)

Lemma insertion_inner_spec pre c rest tmp :
  exists pre1 pre2 c', pre = pre1 ++ pre2 /\
    insertion_inner (pre ++ c :: rest) (length pre) tmp
      = Some (pre1 ++ c' :: pre2 ++ rest, Z.of_nat (length pre1)) /\
    Forall (fun x => cmp x tmp > 0) pre2 /\
    (forall p0 x, pre1 = p0 ++ [x] -> cmp x tmp <= 0).
Proof.
  revert c rest; induction pre as [|y pre IH] using rev_ind; intros c rest.
  { exists [], [], c; split; [done|]; split; [done|]; split; [done|].
    intros [] ? E; discriminate E. }
  rewrite length_app, Nat.add_1_r; cbn [insertion_inner].
  rewrite <- app_assoc; simpl; rewrite rd_mid by lia; cbn [mbind option_bind].
  rewrite Z.gtb_ltb; destruct (Z.ltb_spec 0 (cmp y tmp)).
  - replace (pre ++ y :: c :: rest) with ((pre ++ [y]) ++ c :: rest) by (by rewrite <- app_assoc).
    rewrite wr_mid by (rewrite length_app; simpl; lia).
    cbn [mbind option_bind]; rewrite <- app_assoc; simpl.
    destruct (IH y (y :: rest)) as (pre1 & pre2 & c' & -> & E & Hf & Hl).
    exists pre1, (pre2 ++ [y]), c'; rewrite E, <- !app_assoc; split; [done|]; split; [done|].
    split; [|done]; apply Forall_app; split; [done|]; constructor; [lia|done].
  - exists (pre ++ [y]), [], c; rewrite app_nil_r, <- app_assoc, length_app; split; [done|].
    split; [simpl; do 2 f_equal; lia|]; split; [done|].
    intros p0 x E; apply app_inj_tail in E as [_ <-]; lia.
Qed.

Lemma insertion_body_spec pre x rest :
  StronglySorted le pre ->
  exists pre', insertion_body (Z.of_nat (length pre)) (pre ++ x :: rest) = Some (pre' ++ rest) /\
    StronglySorted le pre' /\ pre' ≡ₚ pre ++ [x].
Proof.
  intros Hs; unfold insertion_body; rewrite rd_mid, Nat2Z.id by done; cbn [mbind option_bind].
  destruct (insertion_inner_spec pre x rest x) as (p1 & p2 & c & -> & -> & Hf & Hl).
  cbn [mbind option_bind]; rewrite wr_mid by done.
  exists (p1 ++ x :: p2); rewrite <- app_assoc; split; [done|]; split.
  - by apply sorted_insert.
  - by rewrite <- app_assoc, <- !Permutation_middle, app_nil_r.
Qed.

Lemma insertion_loop pre rest :
  StronglySorted le pre ->
  exists ys, for_up (insertion_body) (length rest) (Z.of_nat (length pre)) (pre ++ rest)
    = Some ys /\ sorts (pre ++ rest) ys.
Proof.
  revert pre; induction rest as [|x rest IH]; intros pre Hs; simpl.
  { exists (pre ++ []); split; [done|]; split; [by rewrite app_nil_r|done]. }
  destruct (insertion_body_spec pre x rest Hs) as (pre' & -> & Hs' & Hp); simpl.
  destruct (IH pre' Hs') as (ys & E & Hys1 & Hys2); exists ys.
  rewrite (Permutation_length Hp), length_app in E; simpl in E.
  replace (Z.of_nat (length pre) + 1) with (Z.of_nat (length pre + 1)) by lia.
  split; [done|]; split; [done|]; rewrite Hys2, Hp, <- app_assoc; done.
Qed.

Lemma insertion_sort_sorts xs :
  exists ys, muggle_insertion_sort xs (Z.of_nat (length xs)) = Some ys /\ sorts xs ys.
Proof.
  unfold muggle_insertion_sort; destruct xs as [|x xs].
  { exists []; split; [done|]; split; [constructor|done]. }
  destruct (insertion_loop [x] xs) as (ys & E & Hs); [repeat constructor|].
  exists ys; split; [|done]; simpl length in *.
  by replace (Z.to_nat (Z.of_nat (S (length xs)) - 1)) with (length xs) by lia.
Qed.

(** ** Shell sort *)

Lemma shell_inner_perm fuel ptr inc j tmp :
  0 < inc -> 0 <= j < Z.of_nat (length ptr) -> j < Z.of_nat fuel ->
  exists ptr' j', shell_inner fuel ptr inc j tmp = Some (ptr', j') /\
    0 <= j' < Z.of_nat (length ptr') /\ length ptr' = length ptr /\
    <[Z.to_nat j' := tmp]> ptr' ≡ₚ <[Z.to_nat j := tmp]> ptr.
Proof.
  intros Hinc; revert ptr j; induction fuel as [|fuel IH]; intros ptr j Hj Hf; [lia|]; simpl.
  rewrite Z.geb_leb; destruct (Z.leb_spec inc j); [|eauto 10].
  destruct (rd_is_Some ptr (j - inc)) as [x Hx]; [lia|]; rewrite Hx; simpl.
  destruct (Z.ltb_spec (cmp tmp x) 0); [|eauto 10].
  rewrite wr_Some by lia; simpl.
  destruct (IH (<[Z.to_nat j := x]> ptr) (j - inc)) as (p' & j' & -> & Hj' & Hl & Hp);
    [rewrite length_insert; lia|lia|].
  rewrite length_insert in Hl; exists p', j'; split; [done|]; split; [done|]; split; [done|].
  rewrite Hp; apply swap_perm; [lia|lia|].
  unfold rd in Hx; by rewrite decide_True in Hx by lia.
Qed.

Lemma shell_body_perm inc i ptr :
  0 < inc -> 0 <= i < Z.of_nat (length ptr) ->
  exists ptr', shell_body inc i ptr = Some ptr' /\ ptr' ≡ₚ ptr.
Proof.
  intros Hinc Hi; unfold shell_body.
  destruct (rd_is_Some ptr i Hi) as [x Hx]; rewrite Hx; cbn [mbind option_bind].
  destruct (shell_inner_perm (S (Z.to_nat i)) ptr inc i x) as (p' & j & -> & Hj & Hl & Hp);
    [done|lia|lia|]; cbn [mbind option_bind].
  rewrite wr_Some by lia; eexists; split; [done|]; rewrite Hp, list_insert_id; [done|].
  unfold rd in Hx; by rewrite decide_True in Hx by lia.
Qed.

Lemma shell_pass_perm ptr inc :
  0 < inc -> exists ptr', shell_pass ptr (Z.of_nat (length ptr)) inc = Some ptr' /\ ptr' ≡ₚ ptr.
Proof.
  intros Hinc; unfold shell_pass.
  destruct (for_up_inv (shell_body inc) (fun _ p => p ≡ₚ ptr)
    (Z.to_nat (Z.of_nat (length ptr) - inc)) inc ptr) as (p' & -> & Hp); [done| |eauto].
  intros i p Hi Hp; destruct (shell_body_perm inc i p) as (p' & -> & Hp'); [done| |].
  - rewrite (Permutation_length Hp); lia.
  - exists p'; split; [done|]; by rewrite Hp'.
Qed.

(** With increment 1 the inner loop is that of the insertion sort. *)
Lemma shell_inner_1 fuel ptr j tmp :
  (j < fuel)%nat ->
  shell_inner fuel ptr 1 (Z.of_nat j) tmp = insertion_inner ptr j tmp.
Proof.
  revert fuel ptr; induction j as [|j IH]; intros fuel ptr Hf;
    (destruct fuel as [|fuel]; [lia|]); cbn [shell_inner insertion_inner]; [done|].
  rewrite Z.geb_leb; destruct (Z.leb_spec 1 (Z.of_nat (S j))); [|lia].
  destruct (rd ptr _) as [x|]; cbn [mbind option_bind]; [|done].
  assert ((cmp tmp x <? 0) = (cmp x tmp >? 0)) as ->.
  { rewrite Z.gtb_ltb; pose proof (cmp_flip tmp x).
    destruct (Z.ltb_spec (cmp tmp x) 0), (Z.ltb_spec 0 (cmp x tmp)); try done; lia. }
  destruct (cmp x tmp >? 0); [|done]; destruct (wr ptr _ x); cbn [mbind option_bind]; [|done].
  rewrite <- (IH fuel) by lia; f_equal; lia.
Qed.

Lemma shell_body_1 i ptr : 0 <= i -> shell_body 1 i ptr = insertion_body i ptr.
Proof.
  intros Hi; unfold shell_body, insertion_body.
  destruct (rd ptr i) as [x|]; cbn [mbind option_bind]; [|done].
  rewrite <- (shell_inner_1 (S (Z.to_nat i)) ptr (Z.to_nat i)) by lia.
  by rewrite Z2Nat.id by lia.
Qed.

Lemma for_up_ext {S} (f g : Z -> S -> option S) n i s :
  (forall j t, i <= j -> f j t = g j t) -> for_up f n i s = for_up g n i s.
Proof.
  revert i s; induction n as [|n IH]; intros i s H; simpl; [done|].
  rewrite H by lia; destruct (g i s); simpl; [|done]; apply IH; intros; apply H; lia.
Qed.

Lemma shell_pass_1 ptr count : shell_pass ptr count 1 = muggle_insertion_sort ptr count.
Proof. apply for_up_ext; intros; apply shell_body_1; lia. Qed.

Lemma shell_loop_sorts fuel ptr inc :
  0 < inc -> inc < Z.of_nat fuel ->
  exists ys, shell_loop fuel ptr (Z.of_nat (length ptr)) inc = Some ys /\ sorts ptr ys.
Proof.
  revert ptr inc; induction fuel as [|fuel IH]; intros ptr inc Hinc Hf; [lia|]; simpl.
  rewrite Z.gtb_ltb; destruct (Z.ltb_spec 0 inc); [|lia].
  destruct (decide (inc = 1)) as [->|Hne].
  - rewrite shell_pass_1; destruct (insertion_sort_sorts ptr) as (ys & -> & Hs); simpl.
    destruct fuel; [lia|]; simpl; eauto.
  - destruct (shell_pass_perm ptr inc Hinc) as (p' & -> & Hp); simpl.
    rewrite <- (Permutation_length Hp).
    assert (1 <= inc / 2 < inc) by (split; [apply Z.div_le_lower_bound|apply Z.div_lt]; lia).
    destruct (IH p' (inc / 2)) as (ys & -> & Hs1 & Hs2); [lia|lia|].
    exists ys; split; [done|]; split; [done|by rewrite Hs2].
Qed.

Lemma shell_sort_sorts xs :
  exists ys, muggle_shell_sort xs (Z.of_nat (length xs)) = Some ys /\ sorts xs ys.
Proof.
  unfold muggle_shell_sort; destruct (decide (length xs < 2)%nat) as [Hlt|].
  - exists xs; split; [by destruct xs as [|? []]; simpl in Hlt; try lia|].
    split; [|done]; destruct xs as [|? []]; simpl in Hlt; try lia; repeat constructor.
  - assert (1 <= Z.of_nat (length xs) / 2 < Z.of_nat (length xs))
      by (split; [apply Z.div_le_lower_bound|apply Z.div_lt]; lia).
    apply shell_loop_sorts; lia.
Qed.

(** ** Heap sort *)

Definition hnode (x : Z) : Z * Z := (x, NULL).

Lemma heap_sort_fill mem' xs heap :
  heap_inv cmp heap [] (Z.of_nat (length xs) + 1) ->
  exists heap' h, for_up (fun i heap =>
      x ← rd xs i; '(_, heap) ← muggle_heap_insert cmp mem' heap x NULL; Some heap)
      (length xs) 0 heap = Some heap' /\
    heap_inv cmp heap' h (Z.of_nat (length xs) + 1) /\ h ≡ₚ hnode <$> xs.
Proof.
  intros H0; match goal with |- exists _ _, for_up ?body _ _ _ = _ /\ _ =>
    destruct (for_up_inv body (fun i heap => exists h,
      heap_inv cmp heap h (Z.of_nat (length xs) + 1) /\ h ≡ₚ hnode <$> take (Z.to_nat i) xs)
      (length xs) 0 heap) as (heap' & -> & h & Hi & Hp) end.
  - exists []; split; done.
  - intros i hp Hi (h & Hinv & Hp); destruct (rd_is_Some xs i) as [x Hx]; [lia|].
    rewrite Hx; cbn [mbind option_bind].
    assert (Hlen : hlen h = i).
    { unfold hlen; rewrite (Permutation_length Hp), length_fmap, length_take; lia. }
    pose proof (heap_insert_spec cmp mem' hp h _ x NULL Hinv ltac:(lia)) as Hs.
    unfold spec_grow_heap in Hs; rewrite decide_False in Hs by lia.
    destruct Hs as (H' & h' & -> & Hinv' & _ & Hp'); cbn [mbind option_bind].
    exists H'; split; [done|]; exists h'; split; [done|].
    replace (Z.to_nat (i + 1)) with (S (Z.to_nat i)) by lia.
    unfold rd in Hx; rewrite decide_True in Hx by lia.
    rewrite (take_S_r _ _ _ Hx), Hp', Hp, fmap_app; simpl; by rewrite Permutation_app_comm.
  - exists heap', h; split; [done|]; split; [done|].
    by rewrite Z.add_0_l, Nat2Z.id, firstn_all in Hp.
Qed.

Lemma heap_sort_drain xs heap h cap :
  heap_inv cmp heap h cap -> h ≡ₚ hnode <$> xs ->
  exists ys heap', for_up (fun i '(ptr, heap) =>
      '(node, heap) ← muggle_heap_extract cmp heap;
      node ← node;
      ptr ← wr ptr i (fst node); Some (ptr, heap)) (length xs) 0 (xs, heap) = Some (ys, heap') /\
    sorts xs ys /\ exists h', heap_inv cmp heap' h' cap.
Proof.
  intros Hinv Hh; match goal with |- exists _ _, for_up ?body _ _ _ = _ /\ _ =>
    destruct (for_up_inv body (fun i '(ptr, hp) => exists done h rest, heap_inv cmp hp h cap /\
        ptr = done ++ rest /\ Z.of_nat (length done) = i /\ StronglySorted le done /\
        length h = length rest /\ done ++ (fst <$> h) ≡ₚ xs /\
        forall d y, d ∈ done -> y ∈ h -> le d (fst y))
      (length xs) 0 (xs, heap)) as ([ys hp] & -> & dn & h' & rest & Hi & -> & Hl & Hs & Hr & Hp & _)
    end.
  - exists [], h, xs; rewrite (Permutation_length Hh), length_fmap.
    split_and!; try done; [constructor| |set_solver].
    rewrite app_nil_l, Hh, <- list_fmap_compose; by rewrite list_fmap_id.
  - intros i [ptr hp] Hi (dn & h1 & rest & Hinv1 & -> & Hl & Hs & Hr & Hp & Hle).
    assert (length dn + length h1 = length xs)%nat as Hlen.
    { by rewrite <- (Permutation_length Hp), length_app, length_fmap. }
    destruct (heap_extract_spec cmp hp h1 cap Hinv1)
      as [[-> _]|(x & hp' & h2 & -> & Hinv2 & Hp2 & Hmin)]; [simpl in Hlen; lia|].
    cbn [mbind option_bind].
    destruct rest as [|r rest]; [simpl in Hr; lia|].
    rewrite wr_mid by done; cbn [mbind option_bind]; eexists; split; [done|].
    exists (dn ++ [fst x]), h2, rest; rewrite length_app, <- app_assoc; simpl.
    apply Permutation_length in Hp2 as Hlen2; simpl in Hlen2, Hr.
    split_and!; [done|done|lia| |lia| |].
    + apply StronglySorted_app_2; [|done|repeat constructor].
      intros a b Ha ->%list_elem_of_singleton; apply Hle; [done|rewrite Hp2; left].
    + rewrite <- Hp, Hp2; by rewrite <- app_assoc.
    + intros d y [Hd|Hd]%elem_of_app Hy.
      * apply Hle; [done|rewrite Hp2; by right].
      * apply list_elem_of_singleton in Hd as ->; rewrite Forall_forall in Hmin; apply Hmin; rewrite Hp2; by right.
  - assert (length dn + length h' = length xs)%nat as Hlen.
    { by rewrite <- (Permutation_length Hp), length_app, length_fmap. }
    assert (h' = []) as -> by (destruct h'; simpl in *; [done|lia]).
    assert (rest = []) as -> by (destruct rest; simpl in *; [done|lia]).
    rewrite app_nil_r in *; exists dn, hp; split; [done|]; split; [by split|eauto].
Qed.

Lemma heap_sort_sorts mem' xs :
  Z.of_nat (length xs) < 2 ^ 31 - 1 ->
  exists ys, muggle_heap_sort true mem' xs (Z.of_nat (length xs)) = Some (true, ys) /\
    sorts xs ys.
Proof.
  intros Hlt; unfold muggle_heap_sort.
  rewrite (wrap_small 32 (Z.of_nat _)), wrap_small by (unfold in_width; lia).
  destruct (muggle_heap_init true true _ _) as [ok heap] eqn:Hinit.
  assert (ok = true) as ->.
  { revert Hinit; unfold muggle_heap_init; simpl.
    destruct (Z.eqb_spec (Z.of_nat (length xs) + 1) 0); [lia|].
    rewrite (proj2 (ds_cap_valid_spec (Z.of_nat (length xs) + 1) ltac:(split; lia))) by lia.
    simpl; congruence. }
  apply (heap_init_inv cmp) in Hinit; [|split; lia].
  destruct (Z.eqb_spec (Z.of_nat (length xs) + 1) 0) in Hinit; [lia|].
  rewrite Nat2Z.id; destruct (heap_sort_fill mem' xs heap Hinit) as (hp & h & -> & Hi & Hp).
  cbn [mbind option_bind].
  destruct (heap_sort_drain xs hp h _ Hi Hp) as (ys & hp' & -> & Hs & h' & Hi').
  cbn [mbind option_bind]; unfold muggle_heap_destroy.
  destruct (heap_clear_spec cmp hp' h' _ false false Hi') as (hp2 & -> & _).
  cbn [mbind option_bind]; eauto.
Qed.

(** ** Merge sort *)

Lemma rd_slice (ptr : list Z) i k x :
  0 <= i -> slice ptr i k = x :: slice ptr (i + 1) (k - 1) ->
  rd ptr i = Some x.
Proof.
  intros Hi E; unfold rd; rewrite decide_True by lia.
  assert (Hh : slice ptr i k !! 0%nat = Some x) by (by rewrite E).
  unfold slice in Hh; rewrite lookup_take_Some, lookup_drop in Hh.
  destruct Hh as [Hh _]; by rewrite Nat.add_0_r in Hh.
Qed.

Lemma slice_cons {A} (l : list A) i k :
  0 <= i -> 0 < k -> i + k <= Z.of_nat (length l) ->
  exists x, rd l i = Some x /\ slice l i k = x :: slice l (i + 1) (k - 1).
Proof.
  intros Hi Hk Hl; destruct (rd_is_Some l i) as [x Hx]; [lia|]; exists x; split; [done|].
  unfold rd in Hx; rewrite decide_True in Hx by lia; unfold slice.
  rewrite (drop_S _ _ _ Hx); replace (Z.to_nat k) with (S (Z.to_nat (k - 1))) by lia; simpl.
  do 3 f_equal; lia.
Qed.

Lemma blit_cons {A} (l : list A) i x bs :
  0 <= i -> i + 1 + Z.of_nat (length bs) <= Z.of_nat (length l) ->
  blit (<[Z.to_nat i := x]> l) (i + 1) bs = blit l i (x :: bs).
Proof.
  intros Hi Hl; unfold blit; simpl.
  replace (Z.to_nat (i + 1)) with (S (Z.to_nat i)) by lia.
  rewrite (take_S_r _ _ x) by (apply list_lookup_insert_eq; lia).
  rewrite take_insert_ge, drop_insert_lt, <- app_assoc by lia; simpl.
  do 4 f_equal; lia.
Qed.

Lemma blit_nil {A} (l : list A) i : blit l i [] = l.
Proof. unfold blit; simpl; rewrite Nat.add_0_r; apply take_drop. Qed.

(** Copying a run of [ptr]. *)
Lemma merge_rest_spec fuel ptr (arr : list (option Z)) last l idx :
  0 <= l -> l <= last + 1 -> last < Z.of_nat (length ptr) -> 0 <= idx ->
  idx + (last + 1 - l) <= Z.of_nat (length arr) -> last + 1 - l < Z.of_nat fuel ->
  merge_rest fuel ptr arr last l idx =
    Some (blit arr idx (Some <$> slice ptr l (last + 1 - l)), idx + (last + 1 - l)).
Proof.
  revert arr l idx; induction fuel as [|fuel IH]; intros arr l idx Hl Hle Hp Hi Ha Hf; [lia|].
  simpl; destruct (Z.leb_spec l last).
  - destruct (slice_cons ptr l (last + 1 - l)) as (x & -> & ->); [lia|lia|lia|]; simpl.
    rewrite wr_Some by lia; simpl.
    rewrite IH by (rewrite ?length_insert; lia).
    replace (last + 1 - (l + 1)) with (last + 1 - l - 1) by lia.
    rewrite blit_cons by (rewrite ?length_fmap, ?slice_length; lia).
    f_equal; f_equal; lia.
  - rewrite slice_nil by lia; simpl; rewrite blit_nil; do 2 f_equal; lia.
Qed.

(** The three loops of the merge, as one function. *)
Definition merge_all (fuel1 fuel2 : nat) (ptr : list Z) (arr : list (option Z))
    (center right l r idx : Z) : option (list (option Z)) :=
  '(arr, l, r, idx) ← merge_both fuel1 ptr arr center right l r idx;
  '(arr, idx) ← merge_rest fuel2 ptr arr center l idx;
  '(arr, idx) ← merge_rest fuel2 ptr arr right r idx;
  Some arr.

Lemma blit_app {A} (l : list A) i b1 b2 :
  0 <= i -> i + Z.of_nat (length b1) + Z.of_nat (length b2) <= Z.of_nat (length l) ->
  blit (blit l i b1) (i + Z.of_nat (length b1)) b2 = blit l i (b1 ++ b2).
Proof.
  revert l i; induction b1 as [|x b1 IH]; intros l i Hi Hl; simpl in *.
  - by rewrite blit_nil, Z.add_0_r.
  - rewrite <- blit_cons, <- blit_cons by (rewrite ?length_app; lia).
    rewrite <- IH by (rewrite ?length_insert; lia); f_equal; lia.
Qed.

Lemma merge_all_spec fuel1 fuel2 ptr arr center right l r idx :
  0 <= l <= center + 1 -> center < r <= right + 1 -> right < Z.of_nat (length ptr) ->
  0 <= idx -> idx + (center + 1 - l) + (right + 1 - r) <= Z.of_nat (length arr) ->
  (center + 1 - l) + (right + 1 - r) < Z.of_nat fuel1 ->
  (center + 1 - l) + (right + 1 - r) < Z.of_nat fuel2 ->
  merge_all fuel1 fuel2 ptr arr center right l r idx =
  Some (blit arr idx (Some <$> list_merge le (slice ptr l (center + 1 - l))
                                           (slice ptr r (right + 1 - r)))).
Proof.
  revert arr l r idx; induction fuel1 as [|fuel1 IH];
    intros arr l r idx Hl Hr Hp Hi Ha Hf1 Hf2; [lia|]; unfold merge_all; simpl.
  destruct (Z.leb_spec l center) as [Hlc|Hlc], (Z.leb_spec r right) as [Hrr|Hrr]; simpl.
  - destruct (slice_cons ptr l (center + 1 - l)) as (x & -> & Ex); [lia|lia|lia|].
    destruct (slice_cons ptr r (right + 1 - r)) as (y & -> & Ey); [lia|lia|lia|]; simpl.
    rewrite Ex, Ey, list_merge_cons; unfold cmp_le at 1.
    assert (Hm : forall L R, Z.of_nat (length (list_merge le L R)) =
      Z.of_nat (length L) + Z.of_nat (length R)).
    { intros; rewrite (Permutation_length (merge_Permutation le _ _)), length_app; lia. }
    destruct (Z.leb_spec (cmp x y) 0); case_decide; try lia.
    + rewrite wr_Some by lia; cbn [mbind option_bind]; fold (merge_all fuel1 fuel2 ptr
        (<[Z.to_nat idx := Some x]> arr) center right (l + 1) r (idx + 1)).
      rewrite IH by (rewrite ?length_insert; lia).
      rewrite <- Ey, blit_cons; [cbn [fmap list_fmap]; do 6 f_equal; lia|done|].
      rewrite length_fmap, Hm, !slice_length; lia.
    + rewrite wr_Some by lia; cbn [mbind option_bind]; fold (merge_all fuel1 fuel2 ptr
        (<[Z.to_nat idx := Some y]> arr) center right l (r + 1) (idx + 1)).
      rewrite IH by (rewrite ?length_insert; lia).
      rewrite <- Ex, blit_cons; [cbn [fmap list_fmap]; do 6 f_equal; lia|done|].
      rewrite length_fmap, Hm, !slice_length; lia.
  - rewrite merge_rest_spec by lia; simpl.
    assert (Z.of_nat (length (slice ptr l (center + 1 - l))) = center + 1 - l)
      by (rewrite slice_length; lia).
    rewrite merge_rest_spec by (rewrite ?blit_length; rewrite ?length_fmap; lia); simpl.
    rewrite (slice_nil _ r) by lia; simpl; by rewrite blit_nil, list_merge_nil_r.
  - rewrite merge_rest_spec by lia; simpl; rewrite (slice_nil _ l) by lia; simpl.
    rewrite blit_nil, list_merge_nil_l, merge_rest_spec by lia; simpl.
    do 3 f_equal; lia.
  - rewrite merge_rest_spec by lia; simpl; rewrite (slice_nil _ l) by lia; simpl.
    rewrite blit_nil, merge_rest_spec by lia; simpl; rewrite (slice_nil _ r) by lia.
    simpl; do 2 f_equal; lia.
Qed.

Lemma slice_mid {A} (pre mid post : list A) i n :
  i = Z.of_nat (length pre) -> n = Z.of_nat (length mid) -> slice (pre ++ mid ++ post) i n = mid.
Proof.
  intros -> ->; unfold slice; rewrite !Nat2Z.id, drop_app_length; apply take_app_length.
Qed.

Lemma blit_mid {A} (pre mid mid' post : list A) i :
  i = Z.of_nat (length pre) -> length mid' = length mid ->
  blit (pre ++ mid ++ post) i mid' = pre ++ mid' ++ post.
Proof.
  intros -> Hl; unfold blit; rewrite Nat2Z.id, take_app_length, Hl.
  by rewrite drop_app_add, drop_app_length.
Qed.

(** The copy back from the merge buffer. *)
Lemma copy_back (arr : list (option Z)) i (M ptr : list Z) :
  0 <= i -> slice arr i (Z.of_nat (length M)) = Some <$> M ->
  i + Z.of_nat (length M) <= Z.of_nat (length ptr) ->
  i + Z.of_nat (length M) <= Z.of_nat (length arr) ->
  for_up (fun i ptr => x ← rdi arr i; wr ptr i x) (length M) i ptr = Some (blit ptr i M).
Proof.
  revert i ptr; induction M as [|m M IH]; intros i ptr Hi HM Hp Ha; simpl in *.
  { by rewrite blit_nil. }
  destruct (slice_cons arr i (Z.of_nat (S (length M)))) as (x & Hx & E); [lia|lia|lia|].
  rewrite E in HM; injection HM as -> HM.
  assert (rdi arr i = Some m) as -> by (unfold rdi; by rewrite Hx); simpl; rewrite wr_Some by lia; simpl.
  rewrite IH; [|lia| |rewrite length_insert; lia|lia].
  - by rewrite blit_cons by lia.
  - etrans; [|exact HM]; f_equal; lia.
Qed.

Lemma merge_halves_spec A B1 B2 C arr :
  (0 < length B1)%nat -> (0 < length B2)%nat ->
  length arr = length (A ++ (B1 ++ B2) ++ C) ->
  exists arr', length arr' = length arr /\
    merge_halves (A ++ (B1 ++ B2) ++ C) arr (Z.of_nat (length A))
      (Z.of_nat (length A + length B1) - 1) (Z.of_nat (length A + length B1 + length B2) - 1)
    = Some (A ++ list_merge le B1 B2 ++ C, arr').
Proof.
  intros H1 H2 Harr; rewrite !length_app in Harr; unfold merge_halves.
  set (left := Z.of_nat (length A)); set (center := Z.of_nat (length A + length B1) - 1).
  set (right := Z.of_nat (length A + length B1 + length B2) - 1).
  set (ptr := A ++ (B1 ++ B2) ++ C); set (fuel := S (Z.to_nat (right - left + 1))).
  assert (Hlp : length ptr = (length A + (length B1 + length B2) + length C)%nat)
    by (unfold ptr; rewrite !length_app; lia).
  assert (Hml : length (list_merge le B1 B2) = (length B1 + length B2)%nat)
    by (by rewrite (Permutation_length (merge_Permutation le _ _)), length_app).
  pose proof (merge_all_spec fuel fuel ptr arr center right left (center + 1) left
    ltac:(unfold center, left; lia) ltac:(unfold center, right; lia)
    ltac:(unfold right; lia) ltac:(unfold left; lia) ltac:(unfold left, center, right; lia)
    ltac:(unfold fuel, left, center, right; lia)
    ltac:(unfold fuel, left, center, right; lia)) as Hall.
  assert (slice ptr left (center + 1 - left) = B1) as E1.
  { unfold ptr; rewrite <- app_assoc; apply slice_mid; unfold center, left; lia. }
  assert (slice ptr (center + 1) (right + 1 - (center + 1)) = B2) as E2.
  { unfold ptr; rewrite <- app_assoc, app_assoc; apply slice_mid;
      rewrite ?length_app; unfold center, right; lia. }
  rewrite E1, E2 in Hall; unfold merge_all in Hall.
  destruct (merge_both _ _ _ _ _ _ _ _) as [[[[a1 l1] r1] i1]|]; cbn [mbind option_bind] in Hall; [|discriminate].
  cbn [mbind option_bind]; destruct (merge_rest _ _ a1 _ _ _) as [[a2 i2]|]; cbn [mbind option_bind] in Hall; [|discriminate].
  cbn [mbind option_bind]; destruct (merge_rest _ _ a2 _ _ _) as [[a3 i3]|]; cbn [mbind option_bind] in Hall; [|discriminate].
  cbn [mbind option_bind]; injection Hall as ->.
  assert (Hbl : length (blit arr left (Some <$> list_merge le B1 B2)) = length arr).
  { apply blit_length; [unfold left; lia|]; rewrite length_fmap, Hml; unfold left; lia. }
  exists (blit arr left (Some <$> list_merge le B1 B2)); split; [done|].
  replace (Z.to_nat (right - left + 1)) with (length (list_merge le B1 B2))
    by (rewrite Hml; unfold left, right; lia).
  rewrite copy_back; [|unfold left; lia| |rewrite Hml, Hlp; unfold left; lia|].
  - cbn [mbind option_bind]; unfold ptr; by rewrite blit_mid by (rewrite ?length_app; done).
  - apply slice_blit_eq; rewrite ?length_fmap; rewrite ?Hml; unfold left; lia.
  - rewrite Hbl, Hml; unfold left; lia.
Qed.

Lemma merge_recursive_spec fuel A B C arr :
  (0 < length B <= fuel)%nat -> length arr = length (A ++ B ++ C) ->
  Z.of_nat (length (A ++ B ++ C)) < 2 ^ 62 ->
  exists B' arr', muggle_merge_sort_recursive fuel (A ++ B ++ C) arr (Z.of_nat (length A))
      (Z.of_nat (length A + length B) - 1) = Some (A ++ B' ++ C, arr') /\
    sorts B B' /\ length arr' = length arr.
Proof.
  revert A B C arr; induction fuel as [|fuel IH]; intros A B C arr HB Harr Hsz; [lia|].
  cbn [muggle_merge_sort_recursive]; rewrite !length_app in Hsz.
  destruct (Z.ltb_spec (Z.of_nat (length A)) (Z.of_nat (length A + length B) - 1)) as [Hlt|Hge].
  2:{ exists B, arr; split; [done|]; split; [|done].
      destruct B as [|b [|]]; simpl in *; try lia; split; [repeat constructor|done]. }
  rewrite wrap_small by (unfold in_width; lia).
  set (s := Z.of_nat (length A) + (Z.of_nat (length A + length B) - 1)).
  pose proof (Z.div_mod s 2 ltac:(lia)); pose proof (Z.mod_pos_bound s 2 ltac:(lia)).
  set (k := Z.to_nat (s / 2 - Z.of_nat (length A) + 1)).
  assert (Hk : (0 < k < length B)%nat) by (unfold k, s in *; lia).
  rewrite <- (take_drop k B) in Harr |- *.
  set (B1 := take k B) in *; set (B2 := drop k B) in *.
  assert (HB1 : length B1 = k) by (unfold B1; rewrite length_take; lia).
  assert (HB2 : length B2 = (length B - k)%nat) by (unfold B2; by rewrite length_drop).
  assert (Hc : s / 2 = Z.of_nat (length A + length B1) - 1) by (unfold k, s in *; lia).
  rewrite Hc, <- app_assoc.
  destruct (IH A B1 (B2 ++ C) arr) as (B1' & arr1 & -> & [Hs1 Hp1] & Ha1);
    [lia|by rewrite Harr, <- app_assoc|rewrite !length_app; lia|].
  cbn [mbind option_bind].
  assert (HB1' : length B1' = length B1) by (by apply Permutation_length).
  replace (A ++ B1' ++ B2 ++ C) with ((A ++ B1') ++ B2 ++ C) by (by rewrite <- app_assoc).
  replace (Z.of_nat (length A + length B1) - 1 + 1) with (Z.of_nat (length (A ++ B1')))
    by (rewrite length_app; lia).
  replace (Z.of_nat (length A + length (B1 ++ B2)) - 1)
    with (Z.of_nat (length (A ++ B1') + length B2) - 1) by (rewrite !length_app; lia).
  destruct (IH (A ++ B1') B2 C arr1) as (B2' & arr2 & -> & [Hs2 Hp2] & Ha2);
    [lia|rewrite Ha1, Harr, !length_app; lia|rewrite !length_app; lia|].
  cbn [mbind option_bind].
  assert (HB2' : length B2' = length B2) by (by apply Permutation_length).
  destruct (merge_halves_spec A B1' B2' C arr2) as (arr3 & Ha3 & E);
    [lia|lia|rewrite Ha2, Ha1, Harr, !length_app; lia|].
  replace ((A ++ B1') ++ B2' ++ C) with (A ++ (B1' ++ B2') ++ C) by (by rewrite <- !app_assoc).
  rewrite length_app, HB1'; rewrite HB1', HB2' in E; rewrite E.
  exists (list_merge le B1' B2'), arr3; split; [done|]; split; [|congruence].
  split.
  - apply Sorted_StronglySorted; [apply _|].
    apply Sorted_list_merge; [apply _|by apply StronglySorted_Sorted..].
  - by rewrite merge_Permutation, Hp1, Hp2.
Qed.

Lemma merge_sort_sorts xs :
  0 < Z.of_nat (length xs) < 2 ^ 62 ->
  exists ys, muggle_merge_sort true xs (Z.of_nat (length xs)) = Some (true, ys) /\ sorts xs ys.
Proof.
  intros Hl; unfold muggle_merge_sort; cbn [negb].
  destruct (merge_recursive_spec (S (Z.to_nat (Z.of_nat (length xs)))) [] xs []
    (uninit (Z.of_nat (length xs)))) as (ys & arr & E & Hs & _).
  - lia.
  - simpl; rewrite app_nil_r; unfold uninit; rewrite length_replicate; lia.
  - simpl; rewrite app_nil_r; lia.
  - rewrite !app_nil_l, !app_nil_r in E; cbn [length Nat.add] in E.
    rewrite wrap_small by (unfold in_width; lia); change 0 with (Z.of_nat 0); rewrite E.
    cbn [mbind option_bind]; eauto.
Qed.

(** ** Quick sort *)

Definition at_ (p : list Z) (k : Z) : Z := p !!! Z.to_nat k.

(** [p'] is [p] with the elements of [left..right] permuted. *)
Definition seg_perm (p p' : list Z) (left right : Z) : Prop :=
  p' ≡ₚ p /\ forall k : nat, Z.of_nat k < left \/ right < Z.of_nat k -> p' !! k = p !! k.

Lemma seg_perm_refl p left right : seg_perm p p left right.
Proof. split; done. Qed.

Lemma seg_perm_trans p1 p2 p3 left right :
  seg_perm p1 p2 left right -> seg_perm p2 p3 left right -> seg_perm p1 p3 left right.
Proof.
  intros [H1 F1] [H2 F2]; split; [by rewrite H2|]; intros k Hk; by rewrite F2, F1.
Qed.

Lemma seg_perm_weaken p p' l r l' r' :
  seg_perm p p' l r -> l' <= l -> r <= r' -> seg_perm p p' l' r'.
Proof. intros [H F] Hl Hr; split; [done|]; intros k Hk; apply F; lia. Qed.

Lemma seg_perm_length p p' l r : seg_perm p p' l r -> length p' = length p.
Proof. intros [H _]; by apply Permutation_length. Qed.

Lemma seg_perm_at p p' l r k :
  seg_perm p p' l r -> 0 <= k -> k < l \/ r < k -> at_ p' k = at_ p k.
Proof.
  intros [_ F] H0 Hk; unfold at_; rewrite !list_lookup_total_alt; rewrite F by lia; done.
Qed.

Lemma rd_at p k : 0 <= k < Z.of_nat (length p) -> rd p k = Some (at_ p k).
Proof.
  intros Hk; unfold rd, at_; rewrite decide_True by lia.
  apply list_lookup_lookup_total_lt; lia.
Qed.

Lemma swap_spec p a b :
  0 <= a < Z.of_nat (length p) -> 0 <= b < Z.of_nat (length p) ->
  exists p', swap p a b = Some p' /\ at_ p' a = at_ p b /\ at_ p' b = at_ p a /\
    (forall k, 0 <= k -> k <> a -> k <> b -> at_ p' k = at_ p k) /\
    (forall l r, l <= a <= r -> l <= b <= r -> seg_perm p p' l r).
Proof.
  intros Ha Hb; unfold swap; rewrite !rd_at by done; cbn [mbind option_bind].
  rewrite wr_Some by done; cbn [mbind option_bind].
  rewrite wr_Some by (by rewrite length_insert).
  eexists; split; [done|]; unfold at_; split_and!.
  - destruct (decide (a = b)) as [->|].
    + rewrite list_lookup_total_insert_eq by (rewrite length_insert; lia); done.
    + rewrite list_lookup_total_insert_ne, list_lookup_total_insert_eq by lia; done.
  - rewrite list_lookup_total_insert_eq by (rewrite length_insert; lia); done.
  - intros; by rewrite !list_lookup_total_insert_ne by lia.
  - intros l r Hl Hr; split.
    + destruct (decide (a = b)) as [->|].
      * rewrite list_insert_insert_eq, list_insert_id; [done|].
        apply list_lookup_lookup_total_lt; lia.
      * rewrite swap_perm by (try lia; apply list_lookup_lookup_total_lt; lia).
        rewrite list_insert_id; [done|]; apply list_lookup_lookup_total_lt; lia.
    + intros k Hk; by rewrite !list_lookup_insert_ne by lia.
Qed.

Lemma order2_spec p a b :
  0 <= a < Z.of_nat (length p) -> 0 <= b < Z.of_nat (length p) -> a <> b ->
  exists p', order2 p a b = Some p' /\ le (at_ p' a) (at_ p' b) /\
    ((at_ p' a = at_ p a /\ at_ p' b = at_ p b) \/
     (at_ p' a = at_ p b /\ at_ p' b = at_ p a /\ le (at_ p b) (at_ p a))) /\
    (forall k, 0 <= k -> k <> a -> k <> b -> at_ p' k = at_ p k) /\
    (forall l r, l <= a <= r -> l <= b <= r -> seg_perm p p' l r).
Proof.
  intros Ha Hb Hne; unfold order2; rewrite !rd_at by done; cbn [mbind option_bind].
  rewrite Z.gtb_ltb; destruct (Z.ltb_spec 0 (cmp (at_ p a) (at_ p b))) as [Hgt|Hle].
  - destruct (swap_spec p a b Ha Hb) as (p' & -> & E1 & E2 & F & S).
    assert (le (at_ p b) (at_ p a)).
    { unfold cmp_le; apply Z.lt_le_incl, cmp_flip; lia. }
    exists p'; rewrite E1, E2; split_and!; auto 10.
  - exists p; split_and!; auto; intros; apply seg_perm_refl.
Qed.

Lemma median3_spec p left right :
  0 <= left -> left + 10 <= right -> right < Z.of_nat (length p) -> right < 2 ^ 62 ->
  exists p' pivot, muggle_quick_sort_median3 p left right = Some (p', pivot) /\
    seg_perm p p' left right /\ at_ p' (right - 1) = pivot /\
    le (at_ p' left) pivot /\ le pivot (at_ p' right).
Proof.
  intros Hl Hlr Hr Hb; unfold muggle_quick_sort_median3.
  rewrite wrap_small by (unfold in_width; lia).
  pose proof (Z.div_mod (left + right) 2 ltac:(lia)).
  pose proof (Z.mod_pos_bound (left + right) 2 ltac:(lia)).
  set (c := (left + right) / 2) in *; cbv zeta.
  destruct (order2_spec p left c) as (p1 & -> & O1 & _ & F1 & S1); [lia|lia|lia|].
  cbn [mbind option_bind]; pose proof (S1 left right ltac:(lia) ltac:(lia)) as S1'.
  assert (L1 := seg_perm_length _ _ _ _ S1').
  destruct (order2_spec p1 left right) as (p2 & -> & O2 & C2 & F2 & S2); [lia|lia|lia|].
  cbn [mbind option_bind]; pose proof (S2 left right ltac:(lia) ltac:(lia)) as S2'.
  assert (L2 := seg_perm_length _ _ _ _ S2').
  assert (O2c : le (at_ p2 left) (at_ p2 c)).
  { rewrite (F2 c) by lia; destruct C2 as [[-> _]|(-> & _ & Hle)]; [done|].
    eapply cmp_le_trans; eauto. }
  destruct (order2_spec p2 c right) as (p3 & -> & O3 & C3 & F3 & S3); [lia|lia|lia|].
  cbn [mbind option_bind]; pose proof (S3 left right ltac:(lia) ltac:(lia)) as S3'.
  assert (L3 := seg_perm_length _ _ _ _ S3').
  assert (O3l : le (at_ p3 left) (at_ p3 c)).
  { rewrite (F3 left) by lia; destruct C3 as [[-> _]|(-> & _ & _)]; done. }
  destruct (swap_spec p3 c (right - 1)) as (p4 & -> & E1 & E2 & F4 & S4); [lia|lia|].
  cbn [mbind option_bind]; pose proof (S4 left right ltac:(lia) ltac:(lia)) as S4'.
  assert (L4 := seg_perm_length _ _ _ _ S4').
  rewrite rd_at by lia; cbn [mbind option_bind]; exists p4, (at_ p4 (right - 1)).
  split; [done|]; split; [eauto using seg_perm_trans|]; split; [done|].
  rewrite E2, (F4 left), (F4 right) by lia; done.
Qed.

Lemma scan_up_spec fuel p i m pivot :
  0 <= i < m -> m < Z.of_nat (length p) -> cmp (at_ p m) pivot >= 0 -> m - i <= Z.of_nat fuel ->
  exists k, scan_up fuel p i pivot = Some k /\ i < k <= m /\ le pivot (at_ p k) /\
    forall q, i < q < k -> le (at_ p q) pivot.
Proof.
  revert i; induction fuel as [|fuel IH]; intros i Hi Hm Hs Hf; [lia|]; simpl.
  rewrite rd_at by lia; simpl; destruct (Z.ltb_spec (cmp (at_ p (i + 1)) pivot) 0) as [Hlt|Hge].
  - assert (i + 1 <> m) by (intros E; rewrite E in Hlt; lia).
    destruct (IH (i + 1)) as (k & -> & Hk & Hp & Hq); [lia|lia|done|lia|].
    exists k; split_and!; [done|lia|lia|done|]; intros q Hqr.
    destruct (decide (q = i + 1)) as [->|]; [unfold cmp_le; lia|apply Hq; lia].
  - exists (i + 1); split_and!; [done|lia|lia| |intros; lia].
    apply cmp_le_of_ge; lia.
Qed.

Lemma scan_down_spec fuel p j m pivot :
  0 <= m < j -> j <= Z.of_nat (length p) -> cmp (at_ p m) pivot <= 0 -> j - m <= Z.of_nat fuel ->
  exists k, scan_down fuel p j pivot = Some k /\ m <= k < j /\ le (at_ p k) pivot /\
    forall q, k < q < j -> le pivot (at_ p q).
Proof.
  revert j; induction fuel as [|fuel IH]; intros j Hi Hm Hs Hf; [lia|]; simpl.
  rewrite rd_at by lia; simpl; rewrite Z.gtb_ltb.
  destruct (Z.ltb_spec 0 (cmp (at_ p (j - 1)) pivot)) as [Hgt|Hle].
  - assert (j - 1 <> m) by (intros E; rewrite E in Hgt; lia).
    destruct (IH (j - 1)) as (k & -> & Hk & Hp & Hq); [lia|lia|done|lia|].
    exists k; split_and!; [done|lia|lia|done|]; intros q Hqr.
    destruct (decide (q = j - 1)) as [->|]; [|apply Hq; lia].
    unfold cmp_le; apply Z.lt_le_incl, cmp_flip; lia.
  - exists (j - 1); split_and!; [done|lia|lia|done|intros; lia].
Qed.

Lemma partition_spec fuel p left right i j pivot :
  0 <= left <= i -> i < j <= right - 1 -> right < Z.of_nat (length p) -> j - i <= Z.of_nat fuel ->
  (forall k, left <= k <= i -> le (at_ p k) pivot) ->
  (forall k, j <= k <= right -> le pivot (at_ p k)) ->
  exists p' i', partition_loop fuel p i j pivot = Some (p', i') /\
    seg_perm p p' left (right - 2) /\ left < i' <= right - 1 /\
    (forall k, left <= k < i' -> le (at_ p' k) pivot) /\
    (forall k, i' <= k <= right -> le pivot (at_ p' k)).
Proof.
  revert p i j; induction fuel as [|fuel IH]; intros p i j Hl Hij Hr Hf HL HR; [lia|].
  cbn [partition_loop].
  assert (cmp (at_ p j) pivot >= 0).
  { pose proof (HR j ltac:(lia)) as Hj; unfold cmp_le in Hj.
    pose proof (cmp_flip (at_ p j) pivot); lia. }
  destruct (scan_up_spec (S (length p)) p i j pivot) as (i1 & -> & Hi1 & Hp1 & Hq1);
    [lia|lia|done|lia|]; cbn [mbind option_bind].
  destruct (scan_down_spec (S (length p)) p j i pivot) as (j1 & -> & Hj1 & Hp2 & Hq2);
    [lia|lia|apply HL; lia|lia|]; cbn [mbind option_bind].
  assert (HL1 : forall k, left <= k < i1 -> le (at_ p k) pivot).
  { intros k Hk; destruct (decide (k <= i)); [apply HL; lia|apply Hq1; lia]. }
  assert (HR1 : forall k, j1 < k <= right -> le pivot (at_ p k)).
  { intros k Hk; destruct (decide (j <= k)); [apply HR; lia|apply Hq2; lia]. }
  destruct (Z.ltb_spec i1 j1).
  - destruct (swap_spec p i1 j1) as (p1 & -> & E1 & E2 & F & Sp); [lia|lia|].
    cbn [mbind option_bind]; pose proof (Sp left (right - 2) ltac:(lia) ltac:(lia)) as S1.
    assert (L1 := seg_perm_length _ _ _ _ S1).
    destruct (IH p1 i1 j1) as (p' & i' & -> & S2 & Hi' & HL' & HR'); [lia|lia|lia|lia| | |].
    + intros k Hk; destruct (decide (k = i1)) as [->|]; [by rewrite E1|].
      rewrite F by lia; apply HL1; lia.
    + intros k Hk; destruct (decide (k = j1)) as [->|]; [by rewrite E2|].
      rewrite F by lia; apply HR1; lia.
    + exists p', i'; split_and!; eauto using seg_perm_trans; lia.
  - exists p, i1; split_and!; [done|apply seg_perm_refl|lia|lia|done|].
    intros k Hk; destruct (decide (k = i1)) as [->|]; [done|apply HR1; lia].
Qed.

(** An array permuted within a segment, split at the segment. *)
Lemma seg_split A B C p :
  (0 < length B)%nat ->
  seg_perm (A ++ B ++ C) p (Z.of_nat (length A)) (Z.of_nat (length A + length B) - 1) ->
  exists B', p = A ++ B' ++ C /\ B' ≡ₚ B.
Proof.
  intros HB Hs; assert (Hl := seg_perm_length _ _ _ _ Hs); destruct Hs as [Hp F].
  rewrite !length_app in Hl.
  exists (slice p (Z.of_nat (length A)) (Z.of_nat (length B))).
  assert (E : p = A ++ slice p (Z.of_nat (length A)) (Z.of_nat (length B)) ++ C).
  { rewrite <- (take_drop (length A) p) at 1.
    assert (take (length A) p = A) as ->.
    { apply list_eq; intros k; destruct (decide (k < length A)%nat) as [Hk|Hk].
      - rewrite lookup_take_lt, F, lookup_app_l by lia; done.
      - rewrite !lookup_ge_None_2; [done|lia|rewrite length_take; lia]. }
    f_equal; unfold slice; rewrite !Nat2Z.id.
    rewrite <- (take_drop (length B) (drop (length A) p)) at 1; f_equal.
    apply list_eq; intros k; rewrite !lookup_drop, F by lia.
    rewrite lookup_app_r, lookup_app_r by lia; f_equal; lia. }
  split; [done|]; rewrite E in Hp; by apply Permutation_app_inv_l, Permutation_app_inv_r in Hp.
Qed.

Lemma at_app A B C k x :
  B !! k = Some x -> at_ (A ++ B ++ C) (Z.of_nat (length A + k)) = x.
Proof.
  intros Hx; unfold at_; rewrite Nat2Z.id; apply list_lookup_total_correct.
  rewrite lookup_app_r by lia; replace (length A + k - length A)%nat with k by lia.
  by apply lookup_app_l_Some.
Qed.

(** Median of three, partition and restoring the pivot, on a segment. *)
Lemma partition_segment A B C :
  (10 < length B)%nat -> Z.of_nat (length (A ++ B ++ C)) < 2 ^ 62 ->
  let left := Z.of_nat (length A) in
  let right := Z.of_nat (length A + length B) - 1 in
  exists B1 pivot B2 p1 p2,
    muggle_quick_sort_median3 (A ++ B ++ C) left right = Some (p1, pivot) /\
    partition_loop (S (length p1)) p1 left (right - 1) pivot
      = Some (p2, Z.of_nat (length A + length B1)) /\
    swap p2 (Z.of_nat (length A + length B1)) (right - 1) = Some (A ++ (B1 ++ pivot :: B2) ++ C) /\
    B1 ++ pivot :: B2 ≡ₚ B /\ (0 < length B1)%nat /\ (0 < length B2)%nat /\
    Forall (fun x => le x pivot) B1 /\ Forall (le pivot) B2.
Proof.
  intros HB Hsz left right; rewrite !length_app in Hsz.
  destruct (median3_spec (A ++ B ++ C) left right) as (p1 & pivot & E1 & S1 & Hpv & Hpl & Hpr);
    [unfold left; lia|unfold left, right; lia|rewrite !length_app; unfold right; lia
    |unfold right; lia|].
  assert (L1 := seg_perm_length _ _ _ _ S1); rewrite !length_app in L1.
  destruct (partition_spec (S (length p1)) p1 left right left (right - 1) pivot)
    as (p2 & i & E2 & S2 & Hi & HL & HR); try (unfold left, right; lia).
  { intros k Hk; replace k with left by lia; done. }
  { intros k Hk; assert (k = right - 1 \/ k = right) as [-> | ->] by lia; [|done].
    rewrite Hpv; apply cmp_refl. }
  assert (L2 := seg_perm_length _ _ _ _ S2).
  destruct (swap_spec p2 i (right - 1)) as (p3 & E3 & A1 & A2 & F3 & S3);
    [unfold left, right in *; lia..|].
  assert (Hpv2 : at_ p2 (right - 1) = pivot)
    by (rewrite (seg_perm_at _ _ _ _ (right - 1) S2); [done|unfold right; lia|lia]).
  assert (S13 : seg_perm (A ++ B ++ C) p3 left right).
  { eapply seg_perm_trans; [exact S1|]; eapply seg_perm_trans;
      [eapply seg_perm_weaken; [exact S2|lia|lia]|apply S3; lia]. }
  destruct (seg_split A B C p3) as (B' & -> & HB'); [lia|exact S13|].
  assert (LB := Permutation_length HB').
  set (m := Z.to_nat (i - left)).
  assert (Hm : (m < length B')%nat /\ i = Z.of_nat (length A + m))
    by (unfold m, left, right in *; lia); destruct Hm as [Hm Ei].
  destruct (lookup_lt_is_Some_2 B' m Hm) as [y Hy].
  assert (y = pivot) as -> by (rewrite <- Hpv2, <- A1, Ei; symmetry; by apply at_app).
  assert (HB3 : B' = take m B' ++ pivot :: drop (S m) B') by (symmetry; by apply take_drop_middle).
  exists (take m B'), pivot, (drop (S m) B'), p1, p2.
  rewrite length_take, length_drop, Nat.min_l by lia; rewrite <- Ei, <- HB3.
  split_and!; try done; try (unfold left, right in *; lia).
  - apply Forall_lookup; intros q x [Hx Hq]%lookup_take_Some.
    rewrite <- (at_app A B' C q x Hx), F3 by (unfold right; lia); apply HL; unfold left; lia.
  - apply Forall_lookup; intros q x Hx; rewrite lookup_drop in Hx.
    pose proof (lookup_lt_Some _ _ _ Hx) as Hlt; rewrite <- (at_app A B' C (S m + q) x Hx).
    destruct (decide (Z.of_nat (length A + (S m + q)) = right - 1)) as [->|].
    + rewrite A2; apply HR; lia.
    + rewrite F3 by lia; apply HR; unfold right in *; lia.
Qed.

Lemma quick_recursive_spec fuel A B C :
  (0 < length B <= fuel)%nat -> Z.of_nat (length (A ++ B ++ C)) < 2 ^ 62 ->
  exists B', muggle_quick_sort_recursive fuel (A ++ B ++ C) (Z.of_nat (length A))
      (Z.of_nat (length A + length B) - 1) = Some (A ++ B' ++ C) /\ sorts B B'.
Proof.
  revert A B C; induction fuel as [|fuel IH]; intros A B C HB Hsz; [lia|].
  pose proof Hsz as Hsz'; rewrite !length_app in Hsz'.
  cbn [muggle_quick_sort_recursive]; unfold QUICK_SORT_CUTOFF.
  rewrite (wrap_small 64 (Z.of_nat (length A) + 10)) by (unfold in_width; lia).
  destruct (Z.leb_spec (Z.of_nat (length A) + 10) (Z.of_nat (length A + length B) - 1)) as [Hge|Hlt].
  - destruct (partition_segment A B C) as
      (B1 & pv & B2 & p1 & p2 & E1 & E2 & E3 & HP & H1 & H2 & F1 & F2); [lia|done|].
    assert (Hl := Permutation_length HP); rewrite length_app in Hl; simpl in Hl.
    rewrite E1; cbn [mbind option_bind]; rewrite E2; cbn [mbind option_bind]; rewrite E3.
    cbn [mbind option_bind].
    replace (A ++ (B1 ++ pv :: B2) ++ C) with (A ++ B1 ++ (pv :: B2 ++ C))
      by (by rewrite <- !app_assoc).
    destruct (IH A B1 (pv :: B2 ++ C)) as (B1' & -> & Hs1 & Hp1);
      [lia|rewrite !length_app; simpl; rewrite length_app; lia|]; cbn [mbind option_bind].
    assert (Hl1 := Permutation_length Hp1).
    replace (A ++ B1' ++ pv :: B2 ++ C) with ((A ++ B1' ++ [pv]) ++ B2 ++ C)
      by (by rewrite <- !app_assoc).
    destruct (IH (A ++ B1' ++ [pv]) B2 C) as (B2' & E & Hs2 & Hp2);
      [lia|rewrite !length_app; simpl; lia|].
    rewrite !length_app in E; simpl in E.
    replace (Z.of_nat (length A + length B1) + 1) with (Z.of_nat (length A + (length B1' + 1)))
      by lia.
    replace (Z.of_nat (length A + length B) - 1)
      with (Z.of_nat (length A + (length B1' + 1) + length B2) - 1) by lia.
    rewrite E; exists (B1' ++ pv :: B2'); rewrite <- !app_assoc; split; [done|]; split.
    + rewrite <- Hp1 in F1; rewrite <- Hp2 in F2.
      apply StronglySorted_app_2; [|done|by apply StronglySorted_cons].
      rewrite Forall_forall in F1, F2; intros x y Hx [->|Hy]%elem_of_cons; [by apply F1|].
      eapply cmp_le_trans; [by apply F1|by apply F2].
    + by rewrite Hp1, Hp2.
  - unfold insertion_sort_at.
    replace (Z.of_nat (length A + length B) - 1 + 1 - Z.of_nat (length A))
      with (Z.of_nat (length B)) by lia.
    rewrite wrap_small by (unfold in_width; lia).
    rewrite copy_out_Some, slice_mid by (rewrite ?length_app; done || lia).
    cbn [mbind option_bind]; destruct (insertion_sort_sorts B) as (ys & -> & Hs & Hp).
    cbn [mbind option_bind]; assert (Hl := Permutation_length Hp).
    rewrite copy_in_Some, blit_mid by (rewrite ?length_app; done || lia).
    exists ys; split; [done|by split].
Qed.

Lemma quick_sort_sorts xs :
  0 < Z.of_nat (length xs) < 2 ^ 62 ->
  exists ys, muggle_quick_sort xs (Z.of_nat (length xs)) = Some ys /\ sorts xs ys.
Proof.
  intros Hl; unfold muggle_quick_sort.
  destruct (quick_recursive_spec (S (Z.to_nat (Z.of_nat (length xs)))) [] xs [])
    as (ys & E & Hs); [lia|rewrite app_nil_l, app_nil_r; lia|].
  rewrite !app_nil_l, !app_nil_r in E; cbn [length Nat.add] in E.
  rewrite wrap_small by (unfold in_width; lia); change 0 with (Z.of_nat 0); eauto.
Qed.
End Sort.

(** ** Properties *)

(** Quick sort (median of three, sentinel scans, insertion sort below the
    cutoff) terminates without leaving the array and returns a sorted
    permutation of it, for every non-empty array. *)
Theorem quick_sort_correct cmp `{!CmpLaws cmp} xs :
  0 < Z.of_nat (length xs) < 2 ^ 62 ->
  exists ys, muggle_quick_sort cmp xs (Z.of_nat (length xs)) = Some ys /\
    StronglySorted (cmp_le cmp) ys /\ ys ≡ₚ xs.
Proof. intros; by apply quick_sort_sorts. Qed.

Definition sample_array : list Z := [5; 3; 9; 1; 1; 7; 20; 14; 2; 8; 11; 30].

Lemma quick_sort_correct_witness :
  exists ys, muggle_quick_sort Z.sub sample_array 12 = Some ys /\
    StronglySorted (cmp_le Z.sub) ys /\ ys ≡ₚ sample_array.
Proof. apply (quick_sort_correct Z.sub sample_array); vm_compute; split; reflexivity. Defined.

(** Merge sort terminates without leaving the array or reading an
    uninitialised cell of its buffer, and returns a sorted permutation, for
    every non-empty array; without memory for the buffer it reports failure
    and leaves the array as it was. *)
Theorem merge_sort_correct cmp `{!CmpLaws cmp} (mem : bool) xs :
  0 < Z.of_nat (length xs) < 2 ^ 62 ->
  if mem then
    exists ys, muggle_merge_sort cmp mem xs (Z.of_nat (length xs)) = Some (true, ys) /\
      StronglySorted (cmp_le cmp) ys /\ ys ≡ₚ xs
  else muggle_merge_sort cmp mem xs (Z.of_nat (length xs)) = Some (false, xs).
Proof. intros; destruct mem; [by apply merge_sort_sorts|done]. Qed.

Lemma merge_sort_correct_witness :
  exists ys, muggle_merge_sort Z.sub true sample_array 12 = Some (true, ys) /\
    StronglySorted (cmp_le Z.sub) ys /\ ys ≡ₚ sample_array.
Proof. apply (merge_sort_correct Z.sub true sample_array); vm_compute; split; reflexivity. Defined.

(** Heap sort returns a sorted permutation: the heap it builds is large
    enough for all elements, so that no insertion allocates or fails and the
    results it does not test are always true. *)
Theorem heap_sort_correct cmp `{!CmpLaws cmp} mem' xs :
  Z.of_nat (length xs) < 2 ^ 31 - 1 ->
  exists ys, muggle_heap_sort cmp true mem' xs (Z.of_nat (length xs)) = Some (true, ys) /\
    StronglySorted (cmp_le cmp) ys /\ ys ≡ₚ xs.
Proof. intros; by apply heap_sort_sorts. Qed.

Lemma heap_sort_correct_witness :
  exists ys, muggle_heap_sort Z.sub true false sample_array 12 = Some (true, ys) /\
    StronglySorted (cmp_le Z.sub) ys /\ ys ≡ₚ sample_array.
Proof. apply (heap_sort_correct Z.sub false sample_array); vm_compute; reflexivity. Defined.

(** Insertion sort and shell sort return a sorted permutation of every
    array, within the bounds of the array. *)
Theorem insertion_and_shell_sort_correct cmp `{!CmpLaws cmp} xs :
  (exists ys, muggle_insertion_sort cmp xs (Z.of_nat (length xs)) = Some ys /\
     StronglySorted (cmp_le cmp) ys /\ ys ≡ₚ xs) /\
  (exists ys, muggle_shell_sort cmp xs (Z.of_nat (length xs)) = Some ys /\
     StronglySorted (cmp_le cmp) ys /\ ys ≡ₚ xs).
Proof. split; [apply insertion_sort_sorts|apply shell_sort_sorts]; done. Qed.

Lemma insertion_and_shell_sort_correct_witness :
  exists ys, muggle_shell_sort Z.sub sample_array 12 = Some ys /\
    StronglySorted (cmp_le Z.sub) ys /\ ys ≡ₚ sample_array.
Proof. apply (insertion_and_shell_sort_correct Z.sub sample_array). Defined.

(** On an empty array quick sort takes [count - 1], which wraps to the
    greatest [size_t], for the last index, and reads outside the array. *)
Theorem quick_sort_empty_defect cmp : muggle_quick_sort cmp [] 0 = None.
Proof. vm_compute; reflexivity. Qed.
