(* ===== verification/Nodes.v ===== *)
(** * Doubly linked nodes

    The node structure that [dsaa/linked_list.c] and [dsaa/queue.c] share: a
    list between two sentinels, [head] and [tail], whose nodes come from a
    memory pool or from [malloc].

    A pointer to a node is [PHead] or [PTail] for the sentinels inside the
    container, or the address of an allocated node; [n_nodes] is the memory of
    the nodes allocated and not yet freed, and an access through any other
    pointer is [None].  [NodeAllocator] is what the containers rely on of
    the allocator of their nodes; the memory pool and [malloc] implement it. *)
From S2P Require Import Prelude Utils MemoryPool.

Inductive ptr := PNull | PHead | PTail | PNode (addr : Z).

#[global] Instance ptr_eq_dec : EqDecision ptr.
Proof. solve_decision. Defined.

Record node := ND { prev : ptr; next : ptr; data : Z }.

(** [muggle_linked_list_t] and [muggle_queue_t]; [S] is the type of the pool. *)
Record node_list (S : Type) := NL {
  n_head : node; n_tail : node; n_pool : S; n_size : Z; n_nodes : gmap Z node
}.
Arguments NL {S}. Arguments n_head {S}. Arguments n_tail {S}.
Arguments n_pool {S}. Arguments n_size {S}. Arguments n_nodes {S}.

(** ** The allocator of the nodes *)

(** [live] are the addresses in use, [owned] all memory the allocator has;
    [fresh] is what the system promises of its answers [a]. *)
Class NodeAllocator (S A : Type) (alloc : S -> A -> option (Z * S)) (free : S -> Z -> option S) := {
  na_wf : S -> list Z -> list Z -> Prop;
  na_fresh : S -> list Z -> A -> Prop;
  na_alloc_spec s live owned a :
    na_wf s live owned -> na_fresh s owned a ->
    exists r s' owned', alloc s a = Some (r, s') /\
      na_wf s' (if r =? NULL then live else r :: live) owned';
  na_free_spec s live live' owned d :
    na_wf s live owned -> live ≡ₚ d :: live' ->
    exists s' owned', free s d = Some s' /\ na_wf s' live' owned';
  na_perm s live live' owned : live ≡ₚ live' -> na_wf s live owned -> na_wf s live' owned;
  na_live s live owned :
    na_wf s live owned -> NoDup live /\ (NULL ∉ live) /\ Z.of_nat (length live) < 2 ^ 64
}.

(** What [malloc(sizeof(node))] and the pool's own allocations return. *)
Record node_answers := NA { na_malloc : Z; na_pool : mem_answers }.

(** [if (pool) muggle_memory_pool_alloc(pool) else malloc(...)]. *)
Definition node_alloc (debug : bool) (pool : option muggle_memory_pool) (a : node_answers)
  : option (Z * option muggle_memory_pool) :=
  match pool with
  | Some p => '(r, p) ← muggle_memory_pool_alloc debug p (na_pool a); Some (r, Some p)
  | None => Some (na_malloc a, None)
  end.

Definition node_free (pool : option muggle_memory_pool) (addr : Z)
  : option (option muggle_memory_pool) :=
  match pool with
  | Some p => p ← muggle_memory_pool_free p addr; Some (Some p)
  | None => Some None
  end.

(** ** Access through pointers *)
Section Store.
Context {S : Type}.

Definition get (l : node_list S) (p : ptr) : option node :=
  match p with
  | PNull => None
  | PHead => Some (n_head l)
  | PTail => Some (n_tail l)
  | PNode a => n_nodes l !! a
  end.

Definition put (l : node_list S) (p : ptr) (n : node) : option (node_list S) :=
  match p with
  | PNull => None
  | PHead => Some (NL n (n_tail l) (n_pool l) (n_size l) (n_nodes l))
  | PTail => Some (NL (n_head l) n (n_pool l) (n_size l) (n_nodes l))
  | PNode a =>
      if decide (is_Some (n_nodes l !! a))
      then Some (NL (n_head l) (n_tail l) (n_pool l) (n_size l) (<[a := n]> (n_nodes l)))
      else None
  end.

Definition set_prev (l : node_list S) (p x : ptr) : option (node_list S) :=
  n ← get l p; put l p (ND x (next n) (data n)).
Definition set_next (l : node_list S) (p x : ptr) : option (node_list S) :=
  n ← get l p; put l p (ND (prev n) x (data n)).
Definition set_data (l : node_list S) (p : ptr) (x : Z) : option (node_list S) :=
  n ← get l p; put l p (ND (prev n) (next n) x).

Definition get_prev (l : node_list S) (p : ptr) : option ptr := prev <$> get l p.
Definition get_next (l : node_list S) (p : ptr) : option ptr := next <$> get l p.
Definition get_data (l : node_list S) (p : ptr) : option Z := data <$> get l p.

Definition set_pool (l : node_list S) (s : S) : node_list S :=
  NL (n_head l) (n_tail l) s (n_size l) (n_nodes l).
Definition set_size (l : node_list S) (n : Z) : node_list S :=
  NL (n_head l) (n_tail l) (n_pool l) n (n_nodes l).

(** The memory of a node appears; its fields hold nothing yet. *)
Definition new_node (l : node_list S) (a : Z) : node_list S :=
  NL (n_head l) (n_tail l) (n_pool l) (n_size l) (<[a := ND PNull PNull NULL]> (n_nodes l)).
Definition drop_node (l : node_list S) (a : Z) : node_list S :=
  NL (n_head l) (n_tail l) (n_pool l) (n_size l) (delete a (n_nodes l)).

(** ** What the updates change *)

Lemma put_get l p n n0 : get l p = Some n0 ->
  exists l', put l p n = Some l' /\ (forall q, get l' q = if decide (q = p) then Some n else get l q) /\
    n_pool l' = n_pool l /\ n_size l' = n_size l /\ dom (n_nodes l') = dom (n_nodes l).
Proof.
  intros Hg; destruct p as [| | |a]; simpl in *; [done| | |].
  - eexists; split; [done|]; split; [|done]; by intros [].
  - eexists; split; [done|]; split; [|done]; by intros [].
  - rewrite decide_True by eauto; eexists; split; [done|]; split.
    + intros [| | |b]; [done|done|done|]; cbn [get n_nodes].
      destruct (decide (PNode b = PNode a)) as [E|Hne].
      * injection E as ->; by rewrite lookup_insert_eq.
      * rewrite lookup_insert_ne by congruence; done.
    + split; [done|]; split; [done|]; simpl; apply dom_insert_lookup_L; eauto.
Qed.

(** A pointer that can be followed. *)
Definition valid (l : node_list S) (p : ptr) : Prop := is_Some (get l p).

Definition same_but_links (l l' : node_list S) : Prop :=
  (forall q, get_data l' q = get_data l q) /\ (forall q, valid l q -> valid l' q) /\
  n_pool l' = n_pool l /\ n_size l' = n_size l /\ dom (n_nodes l') = dom (n_nodes l).

Lemma set_prev_spec l p x : valid l p ->
  exists l', set_prev l p x = Some l' /\
    (forall q, get_prev l' q = if decide (q = p) then Some x else get_prev l q) /\
    (forall q, get_next l' q = get_next l q) /\ same_but_links l l'.
Proof.
  intros [n Hn]; unfold set_prev, same_but_links, valid, get_prev, get_next, get_data; rewrite Hn.
  destruct (put_get l p (ND x (next n) (data n)) n Hn) as (l' & E & Hg & Hp & Hs & Hd).
  exists l'; split; [done|].
  split_and!; try done; intros q; rewrite Hg; destruct (decide (q = p)) as [->|]; try done;
    rewrite ?Hn; eauto.
Qed.

Lemma set_next_spec l p x : valid l p ->
  exists l', set_next l p x = Some l' /\
    (forall q, get_next l' q = if decide (q = p) then Some x else get_next l q) /\
    (forall q, get_prev l' q = get_prev l q) /\ same_but_links l l'.
Proof.
  intros [n Hn]; unfold set_next, same_but_links, valid, get_prev, get_next, get_data; rewrite Hn.
  destruct (put_get l p (ND (prev n) x (data n)) n Hn) as (l' & E & Hg & Hp & Hs & Hd).
  exists l'; split; [done|].
  split_and!; try done; intros q; rewrite Hg; destruct (decide (q = p)) as [->|]; try done;
    rewrite ?Hn; eauto.
Qed.

Lemma same_but_links_trans l1 l2 l3 :
  same_but_links l1 l2 -> same_but_links l2 l3 -> same_but_links l1 l3.
Proof.
  intros (D1 & V1 & P1 & S1 & N1) (D2 & V2 & P2 & S2 & N2); split_and!; try congruence; auto.
Qed.
End Store.

(** ** Chains of pointers *)
Section Chains.
Context {P : Type} `{!EqDecision P}.
Implicit Types (nx pv : P -> option P) (L R : list P) (p q n : P).

(** Each pointer of the list leads to the next one and back. *)
Fixpoint linked nx pv (ps : list P) : Prop :=
  match ps with
  | p :: ((q :: _) as rest) => nx p = Some q /\ pv q = Some p /\ linked nx pv rest
  | _ => True
  end.

Lemma linked_app nx pv L p q R :
  linked nx pv (L ++ p :: q :: R) <->
  linked nx pv (L ++ [p]) /\ nx p = Some q /\ pv q = Some p /\ linked nx pv (q :: R).
Proof.
  induction L as [|x [|y L] IH]; simpl in *; [tauto|tauto|]; rewrite IH; tauto.
Qed.

Lemma linked_ext_l nx pv nx' pv' L p :
  (forall x, x ∈ L -> nx' x = nx x) -> (forall x, x ∈ L ++ [p] -> pv' x = pv x) ->
  linked nx pv (L ++ [p]) -> linked nx' pv' (L ++ [p]).
Proof.
  induction L as [|x [|y L] IH]; intros Hn Hp; simpl in *; [done| |].
  - rewrite Hn, Hp by set_solver; done.
  - intros (H1 & H2 & H3); rewrite Hn, Hp by set_solver; split; [done|]; split; [done|].
    apply IH; [intros z Hz; apply Hn; set_solver|intros z Hz; apply Hp; set_solver|done].
Qed.

Lemma linked_ext_r nx pv nx' pv' q R :
  (forall x, x ∈ q :: R -> nx' x = nx x) -> (forall x, x ∈ R -> pv' x = pv x) ->
  linked nx pv (q :: R) -> linked nx' pv' (q :: R).
Proof.
  revert q; induction R as [|y R IH]; intros q Hn Hp; simpl; [done|].
  intros (H1 & H2 & H3); rewrite Hn, Hp by set_solver; split; [done|]; split; [done|].
  apply IH; [intros z Hz; apply Hn; set_solver|intros z Hz; apply Hp; set_solver|done].
Qed.

(** A chain depends on its own pointers only. *)
Lemma linked_frame nx pv nx' pv' L :
  (forall x, x ∈ L -> nx' x = nx x /\ pv' x = pv x) -> linked nx pv L -> linked nx' pv' L.
Proof.
  induction L as [|x [|y L] IH]; [done|done|]; intros Hf (H1 & H2 & H3); cbn [linked].
  destruct (Hf x) as [-> _]; [set_solver|]; destruct (Hf y) as [_ ->]; [set_solver|].
  split; [done|]; split; [done|]; apply IH; [intros z Hz; apply Hf; set_solver|exact H3].
Qed.

(** A pointer [n] put between [p] and [q]. *)
Lemma linked_insert nx pv nx' pv' L p q R n :
  NoDup (L ++ p :: q :: R) -> n ∉ L ++ p :: q :: R ->
  (forall x, nx' x = if decide (x = p) then Some n else if decide (x = n) then Some q else nx x) ->
  (forall x, pv' x = if decide (x = q) then Some n else if decide (x = n) then Some p else pv x) ->
  linked nx pv (L ++ p :: q :: R) -> linked nx' pv' (L ++ p :: n :: q :: R).
Proof.
  intros Hnd Hn Hnx Hpv (H1 & H2 & H3 & H4)%linked_app.
  assert (Hnd' := Hnd); apply NoDup_app in Hnd' as (_ & HL & HR).
  apply NoDup_cons in HR as [Hp HR]; apply NoDup_cons in HR as [Hq HR].
  assert (n <> p /\ n <> q) as [Hnp Hnq] by set_solver.
  apply linked_app; split_and!.
  - apply (linked_ext_l nx pv); [intros x Hx|intros x Hx|done].
    + rewrite Hnx, !decide_False; [done|set_solver|].
      intros ->; apply (HL p); set_solver.
    + rewrite Hpv, !decide_False; [done|set_solver|].
      intros ->; apply elem_of_app in Hx as [Hx|Hx]; [apply (HL q Hx); set_solver|set_solver].
  - by rewrite Hnx, decide_True.
  - rewrite Hpv, decide_False, decide_True by done; done.
  - change (n :: q :: R) with ([] ++ n :: q :: R); apply linked_app; split_and!; [done| | |].
    + rewrite Hnx, decide_False, decide_True by done; done.
    + by rewrite Hpv, decide_True.
    + apply (linked_ext_r nx pv); [intros x Hx|intros x Hx|done].
      * rewrite Hnx, !decide_False; [done|set_solver|set_solver].
      * rewrite Hpv, !decide_False; [done|set_solver|set_solver].
Qed.

(** The pointer between [p] and [q] taken out. *)
Lemma linked_remove nx pv nx' pv' L p q R n :
  NoDup (L ++ p :: n :: q :: R) ->
  (forall x, nx' x = if decide (x = p) then Some q else nx x) ->
  (forall x, pv' x = if decide (x = q) then Some p else pv x) ->
  linked nx pv (L ++ p :: n :: q :: R) -> linked nx' pv' (L ++ p :: q :: R).
Proof.
  intros Hnd Hnx Hpv (H1 & H2 & H3 & H4)%linked_app.
  apply (linked_app _ _ []) in H4 as (_ & H5 & H6 & H7).
  apply NoDup_app in Hnd as (_ & HL & HR).
  apply NoDup_cons in HR as [Hp HR]; apply NoDup_cons in HR as [Hn HR].
  apply NoDup_cons in HR as [Hq HR].
  apply linked_app; split_and!.
  - apply (linked_ext_l nx pv); [intros x Hx|intros x Hx|done].
    + rewrite Hnx, decide_False; [done|]; intros ->; apply (HL p); set_solver.
    + rewrite Hpv, decide_False; [done|].
      intros ->; apply elem_of_app in Hx as [Hx|Hx]; [apply (HL q Hx); set_solver|set_solver].
  - by rewrite Hnx, decide_True.
  - by rewrite Hpv, decide_True.
  - apply (linked_ext_r nx pv); [intros x Hx|intros x Hx|done].
    + rewrite Hnx, decide_False; [done|set_solver].
    + rewrite Hpv, decide_False; [done|set_solver].
Qed.
End Chains.

(** ** The lists of the slots of a table *)
Section Concat.
Implicit Types (bs : list (list Z)) (xs : list Z).

Lemma concat_insert bs i xs xs' : bs !! i = Some xs -> concat (<[i:=xs']> bs) ++ xs ≡ₚ concat bs ++ xs'.
Proof.
  revert i; induction bs as [|y bs IH]; intros [|i] H; simpl in *; [done|done| |].
  - injection H as ->; solve_Permutation.
  - rewrite <- !app_assoc, IH by done; done.
Qed.

Lemma concat_remove bs i ys zs a :
  bs !! i = Some (ys ++ a :: zs) -> concat bs ≡ₚ a :: concat (<[i:=ys ++ zs]> bs).
Proof.
  intros Hi; apply (Permutation_app_inv_r (ys ++ zs)); rewrite <- (concat_insert bs i _ (ys ++ zs) Hi).
  simpl; rewrite <- !Permutation_middle; by rewrite app_assoc.
Qed.

Lemma concat_elem bs i xs a : bs !! i = Some xs -> a ∈ xs -> a ∈ concat bs.
Proof.
  intros H Ha; apply list_elem_of_In, in_concat; exists xs; split; apply list_elem_of_In; [|done].
  by eapply list_elem_of_lookup_2.
Qed.

Lemma concat_disjoint bs i j xs ys a :
  NoDup (concat bs) -> bs !! i = Some xs -> bs !! j = Some ys -> a ∈ xs -> a ∈ ys -> i = j.
Proof.
  revert i j; induction bs as [|z bs IH]; intros [|i] [|j] Hnd Hi Hj Hx Hy; simpl in *; try done.
  - injection Hi as ->; apply NoDup_app in Hnd as (_ & Hd & _); destruct (Hd a Hx); by eapply concat_elem.
  - injection Hj as ->; apply NoDup_app in Hnd as (_ & Hd & _); destruct (Hd a Hy); by eapply concat_elem.
  - apply NoDup_app in Hnd as (_ & _ & Hnd); f_equal; by apply (IH i j).
Qed.

Lemma concat_NoDup bs i xs : NoDup (concat bs) -> bs !! i = Some xs -> NoDup xs.
Proof.
  revert i; induction bs as [|z bs IH]; intros [|i] Hnd Hi; simpl in *; try done.
  - injection Hi as ->; by apply NoDup_app in Hnd as (? & _ & _).
  - apply (IH i); [by apply NoDup_app in Hnd as (_ & _ & ?)|done].
Qed.
End Concat.

(** ** Linking and unlinking a node *)
Section Linking.
Context {S : Type}.
Implicit Types l : node_list S.

(** The four assignments of [insert], [node] being the successor. *)
Definition link_before l (node new : ptr) : option (node_list S) :=
  pv ← get_prev l node; l ← set_next l pv new;
  pv ← get_prev l node; l ← set_prev l new pv;
  l ← set_next l new node;
  set_prev l node new.

(** The four assignments of [append] and [enqueue], [node] being the
    predecessor. *)
Definition link_after l (node new : ptr) : option (node_list S) :=
  nx ← get_next l node; l ← set_prev l nx new;
  nx ← get_next l node; l ← set_next l new nx;
  l ← set_prev l new node;
  set_next l node new.

(** [node->prev->next = node->next; node->next->prev = node->prev]. *)
Definition unlink l (node : ptr) : option (node_list S) :=
  pv ← get_prev l node; nx ← get_next l node; l ← set_next l pv nx;
  nx ← get_next l node; pv ← get_prev l node; set_prev l nx pv.

Definition linked_in l l' (p q n : ptr) : Prop :=
  (forall x, get_next l' x
     = if decide (x = p) then Some n else if decide (x = n) then Some q else get_next l x) /\
  (forall x, get_prev l' x
     = if decide (x = q) then Some n else if decide (x = n) then Some p else get_prev l x) /\
  same_but_links l l'.

Lemma link_before_spec l p q n :
  valid l p -> valid l q -> valid l n -> n <> p -> n <> q -> p <> q ->
  get_prev l q = Some p ->
  exists l', link_before l q n = Some l' /\ linked_in l l' p q n.
Proof.
  intros Vp Vq Vn Hnp Hnq Hpq Hq; unfold link_before; rewrite Hq; simpl.
  destruct (set_next_spec l p n Vp) as (l1 & -> & N1 & P1 & S1); simpl.
  rewrite P1, Hq; simpl.
  destruct (set_prev_spec l1 n p) as (l2 & -> & P2 & N2 & S2); [by apply S1|]; simpl.
  destruct (set_next_spec l2 n q) as (l3 & -> & N3 & P3 & S3); [by apply S2, S1|]; simpl.
  destruct (set_prev_spec l3 q n) as (l4 & -> & P4 & N4 & S4); [by apply S3, S2, S1|].
  exists l4; split; [done|]; split_and!.
  - intros x; rewrite N4, N3, N2, N1; by repeat case_decide; subst.
  - intros x; rewrite P4, P3, P2, P1; by repeat case_decide; subst.
  - by repeat (eapply same_but_links_trans; [eassumption|]).
Qed.

Lemma link_after_spec l p q n :
  valid l p -> valid l q -> valid l n -> n <> p -> n <> q -> p <> q ->
  get_next l p = Some q ->
  exists l', link_after l p n = Some l' /\ linked_in l l' p q n.
Proof.
  intros Vp Vq Vn Hnp Hnq Hpq Hq; unfold link_after; rewrite Hq; simpl.
  destruct (set_prev_spec l q n Vq) as (l1 & -> & P1 & N1 & S1); simpl.
  rewrite N1, Hq; simpl.
  destruct (set_next_spec l1 n q) as (l2 & -> & N2 & P2 & S2); [by apply S1|]; simpl.
  destruct (set_prev_spec l2 n p) as (l3 & -> & P3 & N3 & S3); [by apply S2, S1|]; simpl.
  destruct (set_next_spec l3 p n) as (l4 & -> & N4 & P4 & S4); [by apply S3, S2, S1|].
  exists l4; split; [done|]; split_and!.
  - intros x; rewrite N4, N3, N2, N1; by repeat case_decide; subst.
  - intros x; rewrite P4, P3, P2, P1; by repeat case_decide; subst.
  - by repeat (eapply same_but_links_trans; [eassumption|]).
Qed.

Lemma unlink_spec l p q n :
  valid l p -> valid l q -> n <> p -> n <> q ->
  get_prev l n = Some p -> get_next l n = Some q ->
  exists l', unlink l n = Some l' /\
    (forall x, get_next l' x = if decide (x = p) then Some q else get_next l x) /\
    (forall x, get_prev l' x = if decide (x = q) then Some p else get_prev l x) /\
    same_but_links l l'.
Proof.
  intros Vp Vq Hnp Hnq Hp Hq; unfold unlink; rewrite Hp, Hq; simpl.
  destruct (set_next_spec l p q Vp) as (l1 & -> & N1 & P1 & S1); simpl.
  rewrite N1, decide_False, Hq, P1, Hp by done; simpl.
  destruct (set_prev_spec l1 q p) as (l2 & -> & P2 & N2 & S2); [by apply S1|].
  exists l2; split; [done|]; split_and!.
  - intros x; by rewrite N2, N1.
  - intros x; by rewrite P2, P1.
  - by eapply same_but_links_trans.
Qed.

(** ** The abstraction: the addresses and data of the nodes, in order *)

Definition ptrs (ns : list (Z * Z)) : list ptr := (fun x => PNode x.1) <$> ns.
Definition spine (ns : list (Z * Z)) : list ptr := PHead :: ptrs ns ++ [PTail].

Record dll l (ns : list (Z * Z)) : Prop := {
  dll_linked : linked (get_next l) (get_prev l) (spine ns);
  dll_NoDup : NoDup (ns.*1);
  dll_dom : dom (n_nodes l) = list_to_set (C := gset Z) (ns.*1);
  dll_data : forall a d, (a, d) ∈ ns -> get_data l (PNode a) = Some d
}.

(** The pointers around a position. *)
Definition last_ptr (xs : list (Z * Z)) : ptr :=
  match last xs with Some x => PNode x.1 | None => PHead end.
Definition first_ptr (ys : list (Z * Z)) : ptr :=
  match ys with [] => PTail | y :: _ => PNode y.1 end.

Lemma spine_split xs ys : exists L R,
  PHead :: ptrs xs = L ++ [last_ptr xs] /\ ptrs ys ++ [PTail] = first_ptr ys :: R /\
  spine (xs ++ ys) = L ++ last_ptr xs :: first_ptr ys :: R.
Proof.
  assert (exists L, PHead :: ptrs xs = L ++ [last_ptr xs]) as [L EL].
  { destruct xs as [|x xs _] using rev_ind; [by exists []|].
    exists (PHead :: ptrs xs); unfold last_ptr, ptrs; by rewrite last_snoc, fmap_app. }
  assert (exists R, ptrs ys ++ [PTail] = first_ptr ys :: R) as [R ER].
  { destruct ys as [|y ys]; [by exists []|by eexists]. }
  exists L, R; split; [done|]; split; [done|].
  unfold spine, ptrs in *; rewrite fmap_app, <- app_assoc, ER, app_comm_cons, EL, <- app_assoc; done.
Qed.

Lemma spine_elem ns p :
  p ∈ spine ns <-> p = PHead \/ p = PTail \/ exists a, p = PNode a /\ a ∈ ns.*1.
Proof.
  unfold spine, ptrs; rewrite elem_of_cons, elem_of_app, list_elem_of_singleton, list_elem_of_fmap.
  setoid_rewrite list_elem_of_fmap; naive_solver.
Qed.

Lemma spine_NoDup ns : NoDup (ns.*1) -> NoDup (spine ns).
Proof.
  intros Hnd; unfold spine, ptrs; apply NoDup_cons; split.
  - rewrite elem_of_app, list_elem_of_fmap, list_elem_of_singleton; naive_solver.
  - apply NoDup_app; split_and!.
    + replace ((fun x : Z * Z => PNode x.1) <$> ns) with (PNode <$> ns.*1)
        by (rewrite <- list_fmap_compose; done).
      apply NoDup_fmap_2; [by intros ? ? [= ->]|done].
    + intros p Hp; rewrite list_elem_of_fmap in Hp; destruct Hp as (x & -> & _); set_solver.
    + apply NoDup_singleton.
Qed.

Lemma dll_valid l ns p : dll l ns -> p ∈ spine ns -> valid l p.
Proof.
  intros Hd; rewrite spine_elem; intros [->|[->|(a & -> & Ha)]]; [by eexists|by eexists|].
  unfold valid; simpl; apply elem_of_dom; rewrite (dll_dom _ _ Hd); set_solver.
Qed.

(** The neighbours read from the memory are those of the list. *)
Lemma dll_around l xs ys : dll l (xs ++ ys) ->
  get_next l (last_ptr xs) = Some (first_ptr ys) /\ get_prev l (first_ptr ys) = Some (last_ptr xs) /\
  valid l (last_ptr xs) /\ valid l (first_ptr ys) /\ last_ptr xs <> first_ptr ys.
Proof.
  intros Hd; destruct (spine_split xs ys) as (L & R & _ & _ & E).
  pose proof (dll_linked _ _ Hd) as Hl; rewrite E, linked_app in Hl; destruct_and! Hl.
  pose proof (spine_NoDup _ (dll_NoDup _ _ Hd)) as Hnd; rewrite E in Hnd.
  split; [done|]; split; [done|]; split_and!.
  - eapply dll_valid; [done|]; rewrite E; set_solver.
  - eapply dll_valid; [done|]; rewrite E; set_solver.
  - apply NoDup_app in Hnd as (_ & _ & Hnd); apply NoDup_cons in Hnd as [Hnd _]; set_solver.
Qed.

Lemma last_ptr_elem xs ys : last_ptr xs ∈ spine (xs ++ ys).
Proof. destruct (spine_split xs ys) as (L & R & _ & _ & ->); set_solver. Qed.

Lemma first_ptr_elem xs ys : first_ptr ys ∈ spine (xs ++ ys).
Proof. destruct (spine_split xs ys) as (L & R & _ & _ & ->); set_solver. Qed.

Lemma node_not_in_spine ns r : r ∉ ns.*1 -> PNode r ∉ spine ns.
Proof. rewrite spine_elem; naive_solver. Qed.

(** Memory for a new node, with its data written. *)
Lemma new_node_spec l r d : r ∉ dom (n_nodes l) ->
  exists l1, set_data (new_node l r) (PNode r) d = Some l1 /\
    (forall x, x <> PNode r -> get l1 x = get l x) /\
    get l1 (PNode r) = Some (ND PNull PNull d) /\
    n_pool l1 = n_pool l /\ n_size l1 = n_size l /\ dom (n_nodes l1) = {[r]} ∪ dom (n_nodes l).
Proof.
  intros Hr; unfold set_data; cbn [get new_node n_nodes]; rewrite lookup_insert_eq.
  cbn [mbind option_bind put n_nodes prev next].
  rewrite decide_True by (simpl; rewrite lookup_insert_eq; eauto); eexists; split; [done|].
  split_and!; try done.
  - intros [| | |b] Hb; simpl; try done; rewrite !lookup_insert_ne by congruence; done.
  - simpl; by rewrite lookup_insert_eq.
  - simpl; rewrite !dom_insert_L; set_solver.
Qed.

Lemma dll_link l l1 l' xs ys r d :
  dll l (xs ++ ys) -> r ∉ (xs ++ ys).*1 ->
  (forall x, x <> PNode r -> get l1 x = get l x) -> get l1 (PNode r) = Some (ND PNull PNull d) ->
  dom (n_nodes l1) = {[r]} ∪ dom (n_nodes l) ->
  linked_in l1 l' (last_ptr xs) (first_ptr ys) (PNode r) ->
  dll l' (xs ++ (r, d) :: ys).
Proof.
  intros Hd Hr Hg Hgr Hdom (Hn & Hp & Hdata & _ & _ & _ & Hdom').
  pose proof (node_not_in_spine _ _ Hr) as Hout; pose proof (dll_NoDup _ _ Hd) as Hnd.
  split.
  - destruct (spine_split xs ys) as (L & R & EL & ER & E).
    destruct (spine_split xs ((r, d) :: ys)) as (L2 & R2 & EL2 & ER2 & E2).
    rewrite EL in EL2; apply app_inj_tail in EL2 as [<- _].
    cbn [ptrs fmap list_fmap first_ptr app fst] in ER2; injection ER2 as <-.
    rewrite E2; cbn [first_ptr fst]; unfold ptrs in ER; rewrite ER.
    pose proof (dll_linked _ _ Hd) as Hl; rewrite E in Hl, Hout.
    pose proof (spine_NoDup _ Hnd) as Hs; rewrite E in Hs.
    apply (linked_insert (get_next l) (get_prev l)); try done.
    + intros x; rewrite Hn; destruct (decide (x = last_ptr xs)); [done|].
      destruct (decide (x = PNode r)); [done|]; unfold get_next; by rewrite Hg.
    + intros x; rewrite Hp; destruct (decide (x = first_ptr ys)); [done|].
      destruct (decide (x = PNode r)); [done|]; unfold get_prev; by rewrite Hg.
  - rewrite fmap_app; cbn [fmap list_fmap]; rewrite fmap_app in Hnd, Hr.
    rewrite <- Permutation_middle; by apply NoDup_cons.
  - rewrite Hdom', Hdom, (dll_dom _ _ Hd), !fmap_app; cbn [fmap list_fmap fst]; set_solver.
  - intros a e Ha; rewrite Hdata; unfold get_data.
    destruct (decide (a = r)) as [->|Hne].
    + rewrite Hgr; apply elem_of_app in Ha as [Ha|Ha]; [|apply elem_of_cons in Ha as [Ha|Ha]].
      * destruct Hr; apply list_elem_of_fmap; exists (r, e); set_solver.
      * by injection Ha as ->.
      * destruct Hr; apply list_elem_of_fmap; exists (r, e); set_solver.
    + rewrite Hg by congruence; apply (dll_data _ _ Hd).
      apply elem_of_app in Ha as [Ha|Ha]; [set_solver|].
      apply elem_of_cons in Ha as [[=]|Ha]; [done|set_solver].
Qed.

Lemma dll_unlink l xs ys a d :
  dll l (xs ++ (a, d) :: ys) ->
  exists l', unlink l (PNode a) = Some l' /\ dll (drop_node l' a) (xs ++ ys) /\
    n_pool l' = n_pool l /\ n_size l' = n_size l.
Proof.
  intros Hd; pose proof (dll_NoDup _ _ Hd) as Hnd.
  destruct (dll_around l xs ((a, d) :: ys) Hd) as (N1 & P1 & V1 & V2 & Hne1).
  assert (xs ++ (a, d) :: ys = (xs ++ [(a, d)]) ++ ys) as E0 by (by rewrite <- app_assoc).
  pose proof Hd as Hd2; rewrite E0 in Hd2.
  destruct (dll_around l (xs ++ [(a, d)]) ys Hd2) as (N2 & P2 & V3 & V4 & Hne2).
  assert (last_ptr (xs ++ [(a, d)]) = PNode a) as EL by (unfold last_ptr; by rewrite last_snoc).
  rewrite EL in *; cbn [first_ptr fst] in *.
  destruct (unlink_spec l (last_ptr xs) (first_ptr ys) (PNode a)) as (l' & E & Hn & Hp & Hs); try done.
  exists l'; split; [done|]; destruct Hs as (Hdata & _ & Hpool & Hsize & Hdom).
  split; [|done].
  rewrite fmap_app in Hnd; cbn [fmap list_fmap fst] in Hnd.
  rewrite <- Permutation_middle in Hnd; apply NoDup_cons in Hnd as [Ha Hnd].
  assert (PNode a ∉ spine (xs ++ ys)) as Hout by (apply node_not_in_spine; by rewrite fmap_app).
  assert (forall x, x <> PNode a -> get (drop_node l' a) x = get l' x) as Hget.
  { intros [| | |b] Hb; simpl; try done; by rewrite lookup_delete_ne by congruence. }
  split.
  - destruct (spine_split xs ys) as (L & R & EL1 & ER1 & E1).
    destruct (spine_split xs ((a, d) :: ys)) as (L2 & R2 & EL2 & ER2 & E2).
    rewrite EL1 in EL2; apply app_inj_tail in EL2 as [<- _].
    cbn [ptrs fmap list_fmap first_ptr app fst] in ER2; injection ER2 as <-.
    cbn [first_ptr fst] in E2; unfold ptrs in ER1; rewrite ER1 in E2.
    pose proof (dll_linked _ _ Hd) as Hl; rewrite E2 in Hl.
    pose proof (spine_NoDup _ (dll_NoDup _ _ Hd)) as Hs; rewrite E2 in Hs.
    assert (linked (get_next l') (get_prev l') (spine (xs ++ ys))) as Hl'.
    { rewrite E1; by apply (linked_remove (get_next l) (get_prev l) _ _ L _ _ R (PNode a)). }
    eapply linked_frame; [|exact Hl']; intros x Hx; unfold get_next, get_prev; rewrite Hget; [done|].
    intros ->; by apply Hout.
  - by rewrite fmap_app.
  - simpl; rewrite dom_delete_L, Hdom, (dll_dom _ _ Hd), !fmap_app; cbn [fmap list_fmap fst].
    set_solver.
  - intros b e Hb; unfold get_data; rewrite Hget.
    + change (data <$> get l' (PNode b)) with (get_data l' (PNode b)); rewrite Hdata.
      apply (dll_data _ _ Hd); set_solver.
    + intros [= ->]; apply Ha; rewrite <- fmap_app; apply list_elem_of_fmap; by exists (a, e).
Qed.

(** Overwriting the data of a node. *)
Lemma dll_set_data l xs ys a d x :
  dll l (xs ++ (a, d) :: ys) ->
  exists l', set_data l (PNode a) x = Some l' /\ dll l' (xs ++ (a, x) :: ys) /\
    (forall p, get_next l' p = get_next l p) /\ (forall p, get_prev l' p = get_prev l p) /\
    n_pool l' = n_pool l /\ n_size l' = n_size l.
Proof.
  intros Hd; assert (valid l (PNode a)) as [n Hn].
  { eapply dll_valid; [done|]; rewrite spine_elem; right; right; exists a; split; [done|].
    rewrite fmap_app; set_solver. }
  unfold set_data; rewrite Hn; cbn [mbind option_bind].
  destruct (put_get l (PNode a) (ND (prev n) (next n) x) n Hn) as (l' & E & Hg & Hp & Hs & Hdom).
  exists l'; split; [done|].
  assert (forall p, get_next l' p = get_next l p) as HN.
  { intros p; unfold get_next; rewrite Hg; destruct (decide (p = PNode a)) as [->|]; [by rewrite Hn|done]. }
  assert (forall p, get_prev l' p = get_prev l p) as HP.
  { intros p; unfold get_prev; rewrite Hg; destruct (decide (p = PNode a)) as [->|]; [by rewrite Hn|done]. }
  split; [|done]; pose proof (dll_NoDup _ _ Hd) as Hnd.
  assert ((xs ++ (a, x) :: ys).*1 = (xs ++ (a, d) :: ys).*1) as E1 by (by rewrite !fmap_app).
  split.
  - assert (spine (xs ++ (a, x) :: ys) = spine (xs ++ (a, d) :: ys)) as ->
      by (unfold spine, ptrs; by rewrite !fmap_app).
    eapply linked_frame; [|apply (dll_linked _ _ Hd)]; intros y _; by split.
  - by rewrite E1.
  - by rewrite E1, Hdom, (dll_dom _ _ Hd).
  - rewrite fmap_app in Hnd; cbn [fmap list_fmap fst] in Hnd.
    rewrite <- Permutation_middle in Hnd; apply NoDup_cons in Hnd as [Ha _].
    intros b e Hb; unfold get_data; rewrite Hg; destruct (decide (PNode b = PNode a)) as [[= ->]|Hne].
    + apply elem_of_app in Hb as [Hb|Hb]; [|apply elem_of_cons in Hb as [[= ->]|Hb]]; [|done|];
        destruct Ha; apply elem_of_app; [left|right]; apply list_elem_of_fmap; by exists (a, e).
    + apply (dll_data _ _ Hd); apply elem_of_app in Hb as [Hb|Hb]; [set_solver|].
      apply elem_of_cons in Hb as [[= -> ->]|Hb]; [done|set_solver].
Qed.

(** Pool and size are not part of the chain. *)
Lemma dll_same l l' ns : (forall p, get l' p = get l p) -> dom (n_nodes l') = dom (n_nodes l) ->
  dll l ns -> dll l' ns.
Proof.
  intros Hg Hdom Hd; split; [|apply Hd|rewrite Hdom; apply Hd|].
  - eapply linked_frame; [|apply (dll_linked _ _ Hd)]; intros x _.
    unfold get_next, get_prev; by rewrite Hg.
  - intros a d Ha; unfold get_data; rewrite Hg; by apply (dll_data _ _ Hd).
Qed.

(** The number of steps of a walk over the nodes. *)
Lemma dll_size l ns : dll l ns -> size (n_nodes l) = length ns.
Proof.
  intros Hd; rewrite <- size_dom, (dll_dom _ _ Hd), size_list_to_set by apply Hd.
  by rewrite length_fmap.
Qed.
End Linking.

(** ** The memory pool and [malloc] implement the interface *)

Definition node_wf (pool : option muggle_memory_pool) (live owned : list Z) : Prop :=
  match pool with
  | Some p => mp_wf (p, live, owned)
  | None => live ≡ₚ owned /\ NoDup owned /\ Forall (fun a => 0 < a < 2 ^ 64) owned
  end.

(** The pool grows into memory it does not have; [malloc] gives an address
    that is not in use. *)
Definition node_fresh (pool : option muggle_memory_pool) (owned : list Z) (a : node_answers) : Prop :=
  match pool with
  | Some p => fresh_region (block_size p) (grow_cap p - capacity p) (ma_data (na_pool a)) owned
  | None => na_malloc a = NULL \/ (0 < na_malloc a < 2 ^ 64 /\ na_malloc a ∉ owned)
  end.

Lemma bounded_length (l : list Z) (b : Z) :
  0 < b -> NoDup l -> Forall (fun a => 0 < a < b) l -> Z.of_nat (length l) < b.
Proof.
  intros Hb Hnd Hf; enough (length l <= length (seqZ 1 (b - 1)))%nat as H
    by (rewrite length_seqZ in H; lia).
  apply submseteq_length, NoDup_submseteq; [done|]; intros x Hx.
  rewrite Forall_forall in Hf; specialize (Hf x Hx); apply elem_of_seqZ; lia.
Qed.

#[global] Program Instance pool_allocator (debug : bool) :
  NodeAllocator (option muggle_memory_pool) node_answers (node_alloc debug) node_free :=
  {| na_wf := node_wf; na_fresh := node_fresh |}.
Next Obligation.
  intros debug [p|] live owned a Hwf Hfr; simpl in *.
  - destruct (wf_alloc debug p live owned (na_pool a) Hwf Hfr) as (r & p' & -> & Hwf' & _).
    exists r, (Some p'); eexists; split; [done|exact Hwf'].
  - destruct Hwf as (Hp & Hnd & Hf).
    exists (na_malloc a), None; destruct Hfr as [->|[Hr Hn]].
    + exists owned; split; [done|]; by rewrite Z.eqb_refl.
    + exists (na_malloc a :: owned); split; [done|].
      replace (na_malloc a =? NULL) with false by (unfold NULL; lia).
      split; [by rewrite Hp|]; split; [by apply NoDup_cons|by constructor].
Qed.
Next Obligation.
  intros debug [p|] live live' owned d Hwf Hd; simpl in *.
  - destruct (wf_free p live live' owned d Hwf Hd) as (p' & -> & Hwf'); by exists (Some p'), owned.
  - destruct Hwf as (Hp & Hnd & Hf); exists None, live'; split; [done|]; split; [done|].
    rewrite <- Hp, Hd in Hnd, Hf; apply NoDup_cons in Hnd as [_ Hnd]; by apply Forall_cons in Hf as [_ Hf].
Qed.
Next Obligation.
  intros debug [p|] live live' owned Hp Hwf; simpl in *.
  - destruct Hwf as (F & Hinv & Hperm & H); exists F; split; [done|]; split; [by rewrite <- Hp|done].
  - by rewrite <- Hp.
Qed.
Next Obligation.
  intros debug [p|] live owned Hwf; simpl in *.
  - destruct Hwf as (F & Hinv & Hperm & Hown & (Hnd & Hpos & _) & _).
    assert (NoDup (F ++ live)) as Hnd' by (by rewrite Hperm); apply NoDup_app in Hnd' as (_ & _ & Hnd').
    split; [done|]; split.
    + intros Hin; assert (NULL ∈ owned) as Hin' by (rewrite <- Hperm; set_solver).
      specialize (Hpos _ Hin'); unfold NULL in Hpos; lia.
    + apply Permutation_length in Hperm; rewrite length_app in Hperm.
      pool_open Hinv; lia.
  - destruct Hwf as (Hp & Hnd & Hf); rewrite <- Hp in Hnd, Hf; split; [done|]; split.
    + intros Hin; rewrite Forall_forall in Hf; specialize (Hf _ Hin); unfold NULL in Hf; lia.
    + by apply bounded_length.
Qed.
