(* ===== verification/LinkedList.v ===== *)
(** * The linked list: [dsaa/linked_list.c]

    The operations on the nodes of [Nodes], over an allocator of nodes
    ([alloc] and [free], the memory pool or [malloc] in the code).  The data
    given to [func_free] are returned as a list, in the order of the calls;
    [ff] says whether [func_free] is not [NULL].  [find] takes the comparison
    as a test [eq] of the data. *)
From S2P Require Import Prelude Utils MemoryPool Nodes.

Section LinkedList.
Context {S A : Type} (alloc : S -> A -> option (Z * S)) (free : S -> Z -> option S).

Definition muggle_linked_list : Type := node_list S.
Implicit Types l : node_list S.

(** The new node's address, or [NULL]. *)
Definition muggle_linked_list_allocate_node l (a : A) : option (Z * node_list S) :=
  '(r, s) ← alloc (n_pool l) a;
  let l := set_pool l s in
  if r =? NULL then Some (NULL, l)
  else Some (r, new_node (set_size l (u64 (n_size l + 1))) r).

Definition muggle_linked_list_free_node l (node : ptr) : option (node_list S) :=
  l ← unlink l node;
  match node with
  | PNode addr =>
      s ← free (n_pool l) addr;
      let l := drop_node (set_pool l s) addr in
      Some (set_size l (u64 (n_size l - 1)))
  | _ => None
  end.

Definition muggle_linked_list_free_data l (node : ptr) (ff : bool)
  : option (list Z * node_list S) :=
  d ← get_data l node;
  if d =? NULL then Some ([], l)
  else l ← set_data l node NULL; Some (if ff then [d] else [], l).

Definition muggle_linked_list_is_empty l : bool := bool_decide (next (n_head l) = PTail).

(** The loop of [clear]. *)
Fixpoint clear_loop (fuel : nat) l (node : ptr) (ff : bool) : option (list Z * node_list S) :=
  match fuel with
  | O => None
  | Datatypes.S fuel =>
      if decide (node = PTail) then Some ([], l)
      else
        next_node ← get_next l node;
        '(tr, l) ← muggle_linked_list_free_data l node ff;
        l ← muggle_linked_list_free_node l node;
        '(tr', l) ← clear_loop fuel l next_node ff;
        Some (tr ++ tr', l)
  end.

Definition muggle_linked_list_clear l (ff : bool) : option (list Z * node_list S) :=
  '(tr, l) ← clear_loop (Datatypes.S (size (n_nodes l))) l (next (n_head l)) ff;
  Some (tr, set_size l 0).

Definition muggle_linked_list_size l : Z := n_size l.

Fixpoint find_loop (fuel : nat) l (node : ptr) (eq : Z -> bool) : option ptr :=
  match fuel with
  | O => None
  | Datatypes.S fuel =>
      if decide (node = PTail) then Some PNull
      else
        d ← get_data l node;
        if eq d then Some node else node ← get_next l node; find_loop fuel l node eq
  end.

Definition muggle_linked_list_find l (node : ptr) (eq : Z -> bool) : option ptr :=
  let node := if decide (node = PNull) then next (n_head l) else node in
  find_loop (Datatypes.S (size (n_nodes l))) l node eq.

Definition muggle_linked_list_next l (node : ptr) : option ptr :=
  next_node ← get_next l node; Some (if decide (next_node = PTail) then PNull else next_node).

Definition muggle_linked_list_prev l (node : ptr) : option ptr :=
  prev_node ← get_prev l node; Some (if decide (prev_node = PHead) then PNull else prev_node).

Definition muggle_linked_list_first l : ptr :=
  let node := next (n_head l) in if decide (node = PTail) then PNull else node.

Definition muggle_linked_list_last l : ptr :=
  let node := prev (n_tail l) in if decide (node = PHead) then PNull else node.

Definition muggle_linked_list_insert l (node : ptr) (data : Z) (a : A)
  : option (ptr * node_list S) :=
  '(r, l) ← muggle_linked_list_allocate_node l a;
  if r =? NULL then Some (PNull, l)
  else
    l ← set_data l (PNode r) data;
    let node := if decide (node = PNull) then next (n_head l) else node in
    l ← link_before l node (PNode r);
    Some (PNode r, l).

Definition muggle_linked_list_append l (node : ptr) (data : Z) (a : A)
  : option (ptr * node_list S) :=
  '(r, l) ← muggle_linked_list_allocate_node l a;
  if r =? NULL then Some (PNull, l)
  else
    l ← set_data l (PNode r) data;
    let node := if decide (node = PNull) then prev (n_tail l) else node in
    l ← link_after l node (PNode r);
    Some (PNode r, l).

Definition muggle_linked_list_remove l (node : ptr) (ff : bool)
  : option (ptr * list Z * node_list S) :=
  next_node ← muggle_linked_list_next l node;
  '(tr, l) ← muggle_linked_list_free_data l node ff;
  l ← muggle_linked_list_free_node l node;
  Some (next_node, tr, l).
End LinkedList.

(** [sizeof(muggle_linked_list_node_t)] on a 64-bit host. *)
Definition sizeof_node : Z := 24.

(** [p] tells whether the [malloc] of the pool succeeds. *)
Definition muggle_linked_list_init (capacity : Z) (p : bool) (a : mem_answers)
  : option (bool * node_list (option muggle_memory_pool)) :=
  let l := NL (ND PNull PTail NULL) (ND PHead PNull NULL) None 0 ∅ in
  if capacity >? 0 then
    if negb (MUGGLE_DS_CAP_IS_VALID capacity) then Some (false, l)
    else if negb p then Some (false, l)
    else
      '(ok, q) ← muggle_memory_pool_init a capacity sizeof_node;
      Some (ok, set_pool l (Some q))
  else Some (true, l).

(** The pool is destroyed with its buffers. *)
Definition muggle_linked_list_destroy (l : node_list (option muggle_memory_pool)) (ff : bool)
  : option (list Z * node_list (option muggle_memory_pool)) :=
  '(tr, l) ← muggle_linked_list_clear node_free l ff;
  match n_pool l with
  | Some p => '(_, p) ← muggle_memory_pool_destroy p; Some (tr, set_pool l (Some p))
  | None => Some (tr, l)
  end.

(** ** Correctness over any allocator *)
Section Correct.
Context {S A : Type} (alloc : S -> A -> option (Z * S)) (free : S -> Z -> option S).
Context `{NA : !NodeAllocator S A alloc free}.
Implicit Types l : node_list S.

(** The list holds the nodes [ns], which are what it has allocated. *)
Definition ll_ok l (ns : list (Z * Z)) (owned : list Z) : Prop :=
  dll l ns /\ n_size l = Z.of_nat (length ns) /\ na_wf (n_pool l) (ns.*1) owned.

Lemma ll_ok_perm l ns live owned :
  ns.*1 ≡ₚ live -> dll l ns -> n_size l = Z.of_nat (length ns) -> na_wf (n_pool l) live owned ->
  ll_ok l ns owned.
Proof. intros Hp Hd Hs Hw; split; [done|]; split; [done|]; by eapply na_perm. Qed.

Lemma allocate_node_spec l ns owned a :
  ll_ok l ns owned -> na_fresh (n_pool l) owned a ->
  exists r l1 owned', muggle_linked_list_allocate_node alloc l a = Some (r, l1) /\
    (r = NULL /\ ll_ok l1 ns owned' \/
     exists l0, r <> NULL /\ l1 = new_node l0 r /\ dll l0 ns /\ r ∉ ns.*1 /\
       n_size l0 = Z.of_nat (length ns) + 1 /\ na_wf (n_pool l0) (r :: ns.*1) owned').
Proof.
  intros (Hd & Hs & Hw) Hf; unfold muggle_linked_list_allocate_node.
  destruct (na_alloc_spec _ _ _ _ Hw Hf) as (r & s & owned' & -> & Hw'); simpl.
  destruct (Z.eqb_spec r NULL) as [->|Hr].
  - do 3 eexists; split; [done|]; left; split; [done|]; split; [by apply (dll_same l)|done].
  - do 3 eexists; split; [done|]; right; eexists; split; [done|]; split; [done|].
    destruct (na_live _ _ _ Hw') as (Hnd & _ & Hlen); apply NoDup_cons in Hnd as [Hni _].
    split; [by apply (dll_same l)|]; split; [done|]; split; [|done].
    simpl in *; rewrite length_fmap in Hlen; rewrite Hs, wrap_small; [done|unfold in_width; lia].
Qed.

(** What [insert] and [append] do once the neighbours [p] and [q] are known. *)
Lemma linked_node_ok l0 l1 l' xs ys r d owned :
  dll l0 (xs ++ ys) -> r ∉ (xs ++ ys).*1 -> n_size l0 = Z.of_nat (length (xs ++ ys)) + 1 ->
  na_wf (n_pool l0) (r :: (xs ++ ys).*1) owned ->
  set_data (new_node l0 r) (PNode r) d = Some l1 ->
  linked_in l1 l' (last_ptr xs) (first_ptr ys) (PNode r) ->
  ll_ok l' (xs ++ (r, d) :: ys) owned.
Proof.
  intros Hd Hr Hs Hw E Hin.
  destruct (new_node_spec l0 r d) as (l2 & E2 & Hg & Hgr & Hpool & Hsize & Hdom).
  { rewrite (dll_dom _ _ Hd); set_solver. }
  rewrite E in E2; injection E2 as <-.
  pose proof Hin as (_ & _ & _ & _ & Hpool' & Hsize' & _).
  apply (ll_ok_perm _ _ (r :: (xs ++ ys).*1)).
  - rewrite !fmap_app; cbn [fmap list_fmap fst]; by rewrite <- Permutation_middle.
  - by eapply dll_link.
  - rewrite Hsize', Hsize, Hs, !length_app; simpl; lia.
  - by rewrite Hpool', Hpool.
Qed.

(** The pointers of the neighbours stay valid when a node is made. *)
Lemma around_new l0 l1 xs ys r d :
  dll l0 (xs ++ ys) -> r ∉ (xs ++ ys).*1 -> set_data (new_node l0 r) (PNode r) d = Some l1 ->
  get_next l1 (last_ptr xs) = Some (first_ptr ys) /\ get_prev l1 (first_ptr ys) = Some (last_ptr xs) /\
  valid l1 (last_ptr xs) /\ valid l1 (first_ptr ys) /\ valid l1 (PNode r) /\
  PNode r <> last_ptr xs /\ PNode r <> first_ptr ys /\ last_ptr xs <> first_ptr ys /\
  n_head l1 = n_head l0 /\ n_tail l1 = n_tail l0.
Proof.
  intros Hd Hr E; destruct (dll_around l0 xs ys Hd) as (N1 & P1 & V1 & V2 & Hne).
  destruct (new_node_spec l0 r d) as (l2 & E2 & Hg & Hgr & _).
  { rewrite (dll_dom _ _ Hd); set_solver. }
  rewrite E in E2; injection E2 as <-.
  pose proof (node_not_in_spine _ _ Hr) as Hout.
  assert (PNode r <> last_ptr xs) as H1 by (intros E'; apply Hout; rewrite E'; apply last_ptr_elem).
  assert (PNode r <> first_ptr ys) as H2 by (intros E'; apply Hout; rewrite E'; apply first_ptr_elem).
  unfold get_next, get_prev, valid; rewrite !Hg by done.
  split_and!; try done; try (by eexists).
  - assert (get l1 PHead = get l0 PHead) as H by (by apply Hg); by injection H.
  - assert (get l1 PTail = get l0 PTail) as H by (by apply Hg); by injection H.
Qed.

Lemma dll_head l ns : dll l ns -> next (n_head l) = first_ptr ns.
Proof. intros Hd; destruct (dll_around l [] ns Hd) as (H & _); by injection H. Qed.

Lemma dll_tail l ns : dll l ns -> prev (n_tail l) = last_ptr ns.
Proof.
  intros Hd; rewrite <- (app_nil_r ns) in Hd; destruct (dll_around l ns [] Hd) as (_ & H & _).
  by injection H.
Qed.

(** Where [insert] puts the node: before [node], or first. *)
Definition before (node : ptr) (xs ys : list (Z * Z)) : Prop :=
  (node = PNull /\ xs = []) \/ exists b d ys', node = PNode b /\ ys = (b, d) :: ys'.

(** Where [append] puts it: after [node], or last. *)
Definition after (node : ptr) (xs ys : list (Z * Z)) : Prop :=
  (node = PNull /\ ys = []) \/ exists b d xs', node = PNode b /\ xs = xs' ++ [(b, d)].

(** The outcome of adding a node between [xs] and [ys]. *)
Definition added_between (res : option (ptr * node_list S)) (xs ys : list (Z * Z)) (data : Z) : Prop :=
  exists r l' owned', res = Some (r, l') /\
    (r = PNull /\ ll_ok l' (xs ++ ys) owned' \/
     exists b, r = PNode b /\ b ∉ (xs ++ ys).*1 /\ ll_ok l' (xs ++ (b, data) :: ys) owned').

Lemma linked_list_insert_spec l xs ys owned node data a :
  ll_ok l (xs ++ ys) owned -> na_fresh (n_pool l) owned a -> before node xs ys ->
  added_between (muggle_linked_list_insert alloc l node data a) xs ys data.
Proof.
  intros Hok Hf Hb; unfold muggle_linked_list_insert.
  destruct (allocate_node_spec l _ owned a Hok Hf)
    as (r & l1 & owned' & -> & [(-> & Hok')|(l0 & Hr & -> & Hd & Hni & Hs & Hw)]);
    cbn [mbind option_bind].
  { rewrite Z.eqb_refl; do 3 eexists; split; [done|]; by left. }
  rewrite (proj2 (Z.eqb_neq _ _) Hr).
  destruct (new_node_spec l0 r data) as (l2 & E & _); [rewrite (dll_dom _ _ Hd); set_solver|].
  destruct (around_new l0 l2 xs ys r data Hd Hni E) as (N & P & V1 & V2 & V3 & H1 & H2 & H3 & Eh & _).
  rewrite E; cbn [mbind option_bind].
  assert ((if decide (node = PNull) then next (n_head l2) else node) = first_ptr ys) as ->.
  { rewrite Eh, (dll_head _ _ Hd); destruct Hb as [[-> ->]|(b & d & ys' & -> & ->)]; done. }
  destruct (link_before_spec l2 (last_ptr xs) (first_ptr ys) (PNode r)) as (l' & -> & Hin); try done.
  exists (PNode r), l', owned'; split; [done|]; right; exists r; split; [done|]; split; [done|].
  by eapply linked_node_ok.
Qed.

Lemma linked_list_append_spec l xs ys owned node data a :
  ll_ok l (xs ++ ys) owned -> na_fresh (n_pool l) owned a -> after node xs ys ->
  added_between (muggle_linked_list_append alloc l node data a) xs ys data.
Proof.
  intros Hok Hf Hb; unfold muggle_linked_list_append.
  destruct (allocate_node_spec l _ owned a Hok Hf)
    as (r & l1 & owned' & -> & [(-> & Hok')|(l0 & Hr & -> & Hd & Hni & Hs & Hw)]);
    cbn [mbind option_bind].
  { rewrite Z.eqb_refl; do 3 eexists; split; [done|]; by left. }
  rewrite (proj2 (Z.eqb_neq _ _) Hr).
  destruct (new_node_spec l0 r data) as (l2 & E & _); [rewrite (dll_dom _ _ Hd); set_solver|].
  destruct (around_new l0 l2 xs ys r data Hd Hni E) as (N & P & V1 & V2 & V3 & H1 & H2 & H3 & _ & Et).
  rewrite E; cbn [mbind option_bind].
  assert ((if decide (node = PNull) then prev (n_tail l2) else node) = last_ptr xs) as ->.
  { rewrite Et, (dll_tail _ _ Hd); destruct Hb as [[-> ->]|(b & d & xs' & -> & ->)].
    - by rewrite app_nil_r.
    - rewrite decide_False by done; unfold last_ptr; by rewrite last_snoc. }
  destruct (link_after_spec l2 (last_ptr xs) (first_ptr ys) (PNode r)) as (l' & -> & Hin); try done.
  exists (PNode r), l', owned'; split; [done|]; right; exists r; split; [done|]; split; [done|].
  by eapply linked_node_ok.
Qed.

(** The calls of [func_free] for one node. *)
Definition freed_data (ff : bool) (d : Z) : list Z := if ff && negb (d =? NULL) then [d] else [].

Lemma free_data_spec l xs ys b d ff :
  dll l (xs ++ (b, d) :: ys) ->
  exists l1 d1, muggle_linked_list_free_data l (PNode b) ff = Some (freed_data ff d, l1) /\
    dll l1 (xs ++ (b, d1) :: ys) /\ n_pool l1 = n_pool l /\ n_size l1 = n_size l.
Proof.
  intros Hd; unfold muggle_linked_list_free_data, freed_data.
  rewrite (dll_data _ _ Hd b d) by set_solver; cbn [mbind option_bind].
  destruct (d =? NULL); [rewrite andb_false_r; by exists l, d|].
  destruct (dll_set_data l xs ys b d NULL Hd) as (l1 & -> & Hd1 & _ & _ & Hp & Hs).
  exists l1, NULL; rewrite andb_true_r; done.
Qed.

Lemma free_node_spec l xs ys b d owned :
  dll l (xs ++ (b, d) :: ys) -> n_size l = Z.of_nat (length (xs ++ (b, d) :: ys)) ->
  na_wf (n_pool l) ((xs ++ (b, d) :: ys).*1) owned ->
  exists l' owned', muggle_linked_list_free_node free l (PNode b) = Some l' /\
    ll_ok l' (xs ++ ys) owned'.
Proof.
  intros Hd Hs Hw; unfold muggle_linked_list_free_node.
  destruct (dll_unlink l xs ys b d Hd) as (l1 & -> & Hd1 & Hp & Hsz); cbn [mbind option_bind].
  destruct (na_live _ _ _ Hw) as (_ & _ & Hlen); rewrite length_fmap in Hlen.
  rewrite Hp; destruct (na_free_spec _ _ ((xs ++ ys).*1) _ b Hw) as (s & owned' & -> & Hw').
  { rewrite !fmap_app; cbn [fmap list_fmap fst]; by rewrite <- Permutation_middle. }
  do 2 eexists; split; [done|]; split; [by apply (dll_same (drop_node l1 b))|]; split; [|exact Hw'].
  simpl; rewrite Hsz, Hs, wrap_small by (rewrite length_app in *; unfold in_width; simpl in *; lia).
  rewrite !length_app; simpl; lia.
Qed.

Definition null_if (p q : ptr) : ptr := if decide (q = p) then PNull else q.

Lemma linked_list_next_spec l xs ys b d :
  dll l (xs ++ (b, d) :: ys) ->
  muggle_linked_list_next l (PNode b) = Some (null_if PTail (first_ptr ys)).
Proof.
  intros Hd; rewrite cons_middle, app_assoc in Hd.
  destruct (dll_around l (xs ++ [(b, d)]) ys Hd) as (H & _).
  unfold last_ptr in H; rewrite last_snoc in H; cbn [fst] in H.
  unfold muggle_linked_list_next; by rewrite H.
Qed.

Lemma linked_list_prev_spec l xs ys b d :
  dll l (xs ++ (b, d) :: ys) ->
  muggle_linked_list_prev l (PNode b) = Some (null_if PHead (last_ptr xs)).
Proof.
  intros Hd; destruct (dll_around l xs ((b, d) :: ys) Hd) as (_ & H & _).
  unfold muggle_linked_list_prev; cbn [first_ptr fst] in H; by rewrite H.
Qed.

Lemma linked_list_remove_spec l xs ys b d owned ff :
  ll_ok l (xs ++ (b, d) :: ys) owned ->
  exists l' owned', muggle_linked_list_remove free l (PNode b) ff
    = Some (null_if PTail (first_ptr ys), freed_data ff d, l') /\ ll_ok l' (xs ++ ys) owned'.
Proof.
  intros (Hd & Hs & Hw); unfold muggle_linked_list_remove.
  rewrite (linked_list_next_spec l xs ys b d Hd); cbn [mbind option_bind].
  destruct (free_data_spec l xs ys b d ff Hd) as (l1 & d1 & -> & Hd1 & Hp & Hs1); cbn [mbind option_bind].
  destruct (free_node_spec l1 xs ys b d1 owned) as (l' & owned' & -> & Hok); cbn [mbind option_bind].
  - done.
  - rewrite Hs1, Hs, !length_app; done.
  - rewrite Hp; by rewrite !fmap_app in *.
  - by exists l', owned'.
Qed.

(** [clear] walks over all the nodes. *)
Lemma clear_loop_spec fuel l ns owned ff :
  ll_ok l ns owned -> (length ns < fuel)%nat ->
  exists l' owned', clear_loop free fuel l (first_ptr ns) ff
    = Some (ns.*2 ≫= freed_data ff, l') /\ ll_ok l' [] owned'.
Proof.
  revert l ns owned; induction fuel as [|fuel IH]; intros l ns owned Hok Hf; [lia|].
  destruct ns as [|[b d] ns]; cbn [clear_loop first_ptr].
  { rewrite decide_True by done; by exists l, owned. }
  rewrite decide_False by done; destruct Hok as (Hd & Hs & Hw).
  destruct (dll_around l [(b, d)] ns Hd) as (Hn & _); unfold last_ptr in Hn; cbn [last fst] in *.
  rewrite Hn; cbn [mbind option_bind].
  destruct (free_data_spec l [] ns b d ff Hd) as (l1 & d1 & -> & Hd1 & Hp & Hs1); cbn [mbind option_bind].
  destruct (free_node_spec l1 [] ns b d1 owned Hd1) as (l2 & owned2 & -> & Hok); cbn [mbind option_bind app].
  - by rewrite Hs1, Hs.
  - by rewrite Hp.
  - destruct (IH l2 ns owned2 Hok) as (l3 & owned3 & -> & Hok3); [simpl in Hf; lia|].
    by exists l3, owned3.
Qed.

Lemma linked_list_clear_spec l ns owned ff :
  ll_ok l ns owned ->
  exists l' owned', muggle_linked_list_clear free l ff = Some (ns.*2 ≫= freed_data ff, l') /\
    ll_ok l' [] owned'.
Proof.
  intros Hok; pose proof Hok as (Hd & _); unfold muggle_linked_list_clear.
  rewrite (dll_head _ _ Hd), (dll_size _ _ Hd).
  destruct (clear_loop_spec (Datatypes.S (length ns)) l ns owned ff Hok) as (l1 & owned' & -> & Hok1);
    [lia|]; cbn [mbind option_bind].
  destruct Hok1 as (Hd1 & Hs1 & Hw1).
  do 2 eexists; split; [done|]; split; [by apply (dll_same l1)|done].
Qed.

(** [find] returns the first node from the start that satisfies the test. *)
Definition found (ns : list (Z * Z)) (eq : Z -> bool) : ptr :=
  match list_find (fun x => eq x.2 = true) ns with Some (_, (b, _)) => PNode b | None => PNull end.

Lemma found_cons b d ns eq : found ((b, d) :: ns) eq = if eq d then PNode b else found ns eq.
Proof.
  unfold found; cbn [list_find snd]; destruct (eq d) eqn:E.
  - by rewrite decide_True.
  - rewrite decide_False by congruence; by destruct (list_find _ ns) as [[i [x y]]|].
Qed.

Lemma find_loop_spec fuel l xs ys eq :
  dll l (xs ++ ys) -> (length ys < fuel)%nat -> find_loop fuel l (first_ptr ys) eq = Some (found ys eq).
Proof.
  revert xs ys; induction fuel as [|fuel IH]; intros xs ys Hd Hf; [lia|].
  destruct ys as [|[b d] ys]; cbn [find_loop first_ptr fst].
  { by rewrite decide_True. }
  rewrite decide_False, (dll_data _ _ Hd b d) by (done || set_solver); cbn [mbind option_bind fst].
  rewrite found_cons; destruct (eq d); [done|].
  rewrite cons_middle, app_assoc in Hd; destruct (dll_around l (xs ++ [(b, d)]) ys Hd) as (H & _).
  unfold last_ptr in H; rewrite last_snoc in H; cbn [fst] in H; rewrite H; cbn [mbind option_bind].
  apply (IH (xs ++ [(b, d)])); [done|simpl in Hf; lia].
Qed.

(** From [node], or from the first node. *)
Definition from (node : ptr) (xs ys : list (Z * Z)) : Prop :=
  (node = PNull /\ xs = []) \/ exists b d ys', node = PNode b /\ ys = (b, d) :: ys'.

Lemma linked_list_find_spec l xs ys node eq :
  dll l (xs ++ ys) -> from node xs ys -> muggle_linked_list_find l node eq = Some (found ys eq).
Proof.
  intros Hd Hb; unfold muggle_linked_list_find; rewrite (dll_size _ _ Hd).
  assert ((if decide (node = PNull) then next (n_head l) else node) = first_ptr ys) as ->.
  { rewrite (dll_head _ _ Hd); destruct Hb as [[-> ->]|(b & d & ys' & -> & ->)]; done. }
  apply (find_loop_spec _ l xs); [done|rewrite length_app; lia].
Qed.

Lemma linked_list_ends l ns owned :
  ll_ok l ns owned ->
  muggle_linked_list_first l = null_if PTail (first_ptr ns) /\
  muggle_linked_list_last l = null_if PHead (last_ptr ns) /\
  muggle_linked_list_size l = Z.of_nat (length ns) /\
  (muggle_linked_list_is_empty l = true <-> ns = []).
Proof.
  intros (Hd & Hs & _); unfold muggle_linked_list_first, muggle_linked_list_last,
    muggle_linked_list_size, muggle_linked_list_is_empty.
  rewrite (dll_head _ _ Hd), (dll_tail _ _ Hd), bool_decide_eq_true; split_and!; try done.
  by destruct ns.
Qed.
End Correct.

(** ** Initialisation with the memory pool *)

Definition pool_list_ok (debug : bool) := ll_ok (node_alloc debug) node_free.

Definition empty_list (s : option muggle_memory_pool) : node_list (option muggle_memory_pool) :=
  NL (ND PNull PTail NULL) (ND PHead PNull NULL) s 0 ∅.

Lemma empty_list_ok debug s owned : node_wf s [] owned -> pool_list_ok debug (empty_list s) [] owned.
Proof.
  intros Hw; split; [|by split]; split; simpl; [done|constructor|set_solver|set_solver].
Qed.

Lemma linked_list_destroy_spec debug l ns owned ff :
  pool_list_ok debug l ns owned ->
  exists l', muggle_linked_list_destroy l ff = Some (ns.*2 ≫= freed_data ff, l').
Proof.
  intros Hok; unfold muggle_linked_list_destroy.
  destruct (linked_list_clear_spec _ _ l ns owned ff Hok) as (l1 & owned' & -> & (_ & _ & Hw)).
  cbn [mbind option_bind]; destruct (n_pool l1) as [p|]; [|by eexists].
  destruct Hw as (F & Hinv & _); destruct (destroy_outcome p F Hinv) as (bufs & _ & ->); by eexists.
Qed.

Lemma malloc_wf : node_wf None [] [].
Proof. split; [done|split; constructor]. Qed.

(** The outcome of [init]. *)
Lemma list_init_outcome debug capacity p a :
  0 <= capacity < 2 ^ 64 -> 0 < ma_data a \/ ma_data a = NULL ->
  exists ok l, muggle_linked_list_init capacity p a = Some (ok, l) /\
    (ok = true <-> capacity = 0 \/
       (capacity < 2 ^ 31 /\ p = true /\ ma_bufs a = true /\ ma_ptr a = true /\ ma_data a <> NULL)) /\
    (ok = true -> exists owned, pool_list_ok debug l [] owned /\
       (capacity > 0 -> Z.of_nat (length owned) = capacity)).
Proof.
  intros Hc Hd; unfold muggle_linked_list_init; destruct (Z.gtb_spec capacity 0) as [Hpos|Hz].
  2:{ assert (capacity = 0) as -> by lia; do 2 eexists; split; [done|]; split; [by split; auto|].
      intros _; exists []; split; [apply empty_list_ok, malloc_wf|lia]. }
  pose proof (ds_cap_valid_spec capacity Hc) as Hv.
  destruct (MUGGLE_DS_CAP_IS_VALID capacity); cbn [negb].
  2:{ do 2 eexists; split; [done|]; split; [|done].
      split; [done|]; intros [->|[H _]]; [done|by apply Hv in H]. }
  destruct p; cbn [negb].
  2:{ do 2 eexists; split; [done|]; split; [|done]; split; [done|]; intros [->|(_ & H & _)]; done. }
  assert (capacity < 2 ^ 31) as Hlt by (by apply Hv).
  destruct (init_outcome a capacity sizeof_node) as (ok & q & -> & Hiff & _ & Hq);
    [lia|done|]; cbn [mbind option_bind].
  do 2 eexists; split; [done|]; split.
  - rewrite Hiff; unfold sizeof_node; split; [intros (_ & H); right; done|].
    intros [->|(_ & _ & H)]; [done|by split].
  - intros ->; destruct (Hq eq_refl ltac:(done)) as (_ & Hcap & _ & Hwf).
    eexists; split; [by apply empty_list_ok|intros _].
    rewrite blocks_length; unfold initial_capacity in *.
    replace (capacity =? 0) with false in * by lia; lia.
Qed.

(** ** Properties *)

(** C33: the linked list implements a sequence.  For every list reached with
    nodes [xs ++ ys] in this order (addresses and data), with any answers of
    the allocator that are not memory in use, and without a fault:
    [insert] before a node (or first) and [append] after a node (or last) add
    one new node there or return NULL and change nothing; [remove] takes out
    exactly its node, gives its data to [func_free] unless it is NULL and
    returns the following node; [next], [prev], [first], [last], [size] and
    [is_empty] agree with the sequence; [find] returns the first match from
    its start; [clear] frees all data in order and leaves the empty list,
    and [destroy] frees them and the pool.
    Every resulting list is again well formed, with exactly the nodes of the
    sequence allocated. *)
Theorem linked_list_refines_sequence debug l xs ys owned (Hok : pool_list_ok debug l (xs ++ ys) owned) :
  (forall node data a, node_fresh (n_pool l) owned a -> before node xs ys ->
     added_between (node_alloc debug) node_free
       (muggle_linked_list_insert (node_alloc debug) l node data a) xs ys data) /\
  (forall node data a, node_fresh (n_pool l) owned a -> after node xs ys ->
     added_between (node_alloc debug) node_free
       (muggle_linked_list_append (node_alloc debug) l node data a) xs ys data) /\
  (forall b d ys' ff, ys = (b, d) :: ys' ->
     muggle_linked_list_next l (PNode b) = Some (null_if PTail (first_ptr ys')) /\
     muggle_linked_list_prev l (PNode b) = Some (null_if PHead (last_ptr xs)) /\
     exists l' owned', muggle_linked_list_remove node_free l (PNode b) ff
       = Some (null_if PTail (first_ptr ys'), freed_data ff d, l') /\
       pool_list_ok debug l' (xs ++ ys') owned') /\
  (forall node eq, from node xs ys -> muggle_linked_list_find l node eq = Some (found ys eq)) /\
  (forall ff, exists l' owned', muggle_linked_list_clear node_free l ff
     = Some ((xs ++ ys).*2 ≫= freed_data ff, l') /\ pool_list_ok debug l' [] owned') /\
  (forall ff, exists l', muggle_linked_list_destroy l ff = Some ((xs ++ ys).*2 ≫= freed_data ff, l')) /\
  muggle_linked_list_first l = null_if PTail (first_ptr (xs ++ ys)) /\
  muggle_linked_list_last l = null_if PHead (last_ptr (xs ++ ys)) /\
  muggle_linked_list_size l = Z.of_nat (length (xs ++ ys)) /\
  (muggle_linked_list_is_empty l = true <-> xs ++ ys = []).
Proof.
  pose proof Hok as (Hd & _); destruct (linked_list_ends _ _ l _ _ Hok) as (Hf & Hla & Hsz & He).
  split; [intros; by eapply linked_list_insert_spec|].
  split; [intros; by eapply linked_list_append_spec|].
  split; [|split; [|split; [|split; [|by split_and?]]]].
  - intros b d ys' ff ->; split; [by eapply linked_list_next_spec|].
    split; [by eapply linked_list_prev_spec|by eapply linked_list_remove_spec].
  - intros; by eapply linked_list_find_spec.
  - intros ff; by eapply linked_list_clear_spec.
  - intros ff; by eapply linked_list_destroy_spec.
Qed.

(** Inserting into a list without a pool, [malloc] giving the address 1000. *)
Lemma linked_list_refines_sequence_witness :
  added_between (node_alloc false) node_free
    (muggle_linked_list_insert (node_alloc false) (empty_list None) PNull 5 (NA 1000 no_memory)) [] [] 5.
Proof.
  apply (linked_list_refines_sequence false (empty_list None) [] [] []).
  - apply empty_list_ok, malloc_wf.
  - right; split; [vm_compute; done|set_solver].
  - by left.
Defined.

(** [muggle_linked_list_init] with capacity 0 gives an empty list over
    [malloc]; with a capacity it succeeds exactly when the capacity is below
    2^31 and all allocations succeed, and then gives an empty list whose pool
    holds that many nodes that do not overlap. *)
Theorem linked_list_init_result debug capacity p a (Hc : 0 <= capacity < 2 ^ 64)
    (Hd : 0 < ma_data a \/ ma_data a = NULL) :
  exists ok l, muggle_linked_list_init capacity p a = Some (ok, l) /\
    (ok = true <-> capacity = 0 \/
       (capacity < 2 ^ 31 /\ p = true /\ ma_bufs a = true /\ ma_ptr a = true /\ ma_data a <> NULL)) /\
    (ok = true -> exists owned, pool_list_ok debug l [] owned /\
       (capacity > 0 -> Z.of_nat (length owned) = capacity)).
Proof. by apply list_init_outcome. Qed.

Lemma linked_list_init_result_witness :
  exists ok l, muggle_linked_list_init 2 true sample_answers = Some (ok, l) /\
    (ok = true <-> 2 = 0 \/ (2 < 2 ^ 31 /\ true = true /\ true = true /\ true = true /\ 1000 <> NULL)) /\
    (ok = true -> exists owned, pool_list_ok false l [] owned /\ (2 > 0 -> Z.of_nat (length owned) = 2)).
Proof. apply (linked_list_init_result false 2 true sample_answers); [lia|left; simpl; lia]. Defined.
