(* ===== verification/Queue.v ===== *)
(** * The queue: [dsaa/queue.c]

    The same nodes as the linked list ([muggle_queue_t] has the fields of
    [muggle_linked_list_t]), used at its two ends only. *)
From S2P Require Import Prelude Utils MemoryPool Nodes LinkedList.

Section Queue.
Context {S A : Type} (alloc : S -> A -> option (Z * S)) (free : S -> Z -> option S).
Implicit Types q : node_list S.

Definition muggle_queue_free_node q (node : ptr) : option (node_list S) :=
  q ← unlink q node;
  match node with
  | PNode addr =>
      s ← free (n_pool q) addr;
      let q := drop_node (set_pool q s) addr in
      Some (set_size q (u64 (n_size q - 1)))
  | _ => None
  end.

Definition muggle_queue_free_data q (node : ptr) (ff : bool) : option (list Z * node_list S) :=
  d ← get_data q node;
  if d =? NULL then Some ([], q)
  else q ← set_data q node NULL; Some (if ff then [d] else [], q).

Definition muggle_queue_is_empty q : bool := bool_decide (next (n_head q) = PTail).

Fixpoint queue_clear_loop (fuel : nat) q (node : ptr) (ff : bool) : option (list Z * node_list S) :=
  match fuel with
  | O => None
  | Datatypes.S fuel =>
      if decide (node = PTail) then Some ([], q)
      else
        next_node ← get_next q node;
        '(tr, q) ← muggle_queue_free_data q node ff;
        q ← muggle_queue_free_node q node;
        '(tr', q) ← queue_clear_loop fuel q next_node ff;
        Some (tr ++ tr', q)
  end.

Definition muggle_queue_clear q (ff : bool) : option (list Z * node_list S) :=
  '(tr, q) ← queue_clear_loop (Datatypes.S (size (n_nodes q))) q (next (n_head q)) ff;
  Some (tr, set_size q 0).

Definition muggle_queue_size q : Z := n_size q.

Definition muggle_queue_enqueue q (data : Z) (a : A) : option (ptr * node_list S) :=
  '(r, s) ← alloc (n_pool q) a;
  let q := set_pool q s in
  if r =? NULL then Some (PNull, q)
  else
    q ← set_data (new_node q r) (PNode r) data;
    let q := set_size q (u64 (n_size q + 1)) in
    let node := prev (n_tail q) in
    q ← link_after q node (PNode r);
    Some (PNode r, q).

Definition muggle_queue_dequeue q (ff : bool) : option (list Z * node_list S) :=
  if muggle_queue_is_empty q then Some ([], q)
  else
    let node := next (n_head q) in
    '(tr, q) ← muggle_queue_free_data q node ff;
    q ← muggle_queue_free_node q node;
    Some (tr, q).

Definition muggle_queue_front q : ptr :=
  if muggle_queue_is_empty q then PNull else next (n_head q).

(** ** The queue is a linked list *)

Lemma enqueue_is_append q data a :
  muggle_queue_enqueue q data a = muggle_linked_list_append alloc q PNull data a.
Proof.
  unfold muggle_queue_enqueue, muggle_linked_list_append, muggle_linked_list_allocate_node.
  destruct (alloc (n_pool q) a) as [[r s]|]; [|done]; cbn [mbind option_bind].
  destruct (r =? NULL) eqn:Hr; [done|]; cbn [mbind option_bind]; rewrite Hr.
  unfold set_data; cbn [get new_node n_nodes set_size set_pool]; rewrite !lookup_insert_eq.
  cbn [mbind option_bind put n_nodes new_node set_size set_pool].
  destruct (decide _) as [H1|H1]; [|done]; cbn [mbind option_bind].
  done.
Qed.

Lemma queue_clear_loop_eq fuel q node ff :
  queue_clear_loop fuel q node ff = clear_loop free fuel q node ff.
Proof.
  revert q node; induction fuel as [|fuel IH]; intros q node; [done|].
  cbn [queue_clear_loop clear_loop]; destruct (decide _); [done|].
  destruct (get_next q node) as [nx|]; [|done]; cbn [mbind option_bind].
  change (muggle_queue_free_data q node ff) with (muggle_linked_list_free_data q node ff).
  destruct (muggle_linked_list_free_data q node ff) as [[tr q1]|]; [|done]; cbn [mbind option_bind].
  change (muggle_queue_free_node q1 node) with (muggle_linked_list_free_node free q1 node).
  destruct (muggle_linked_list_free_node free q1 node) as [q2|]; [|done]; cbn [mbind option_bind].
  by rewrite IH.
Qed.

Lemma queue_clear_eq q ff : muggle_queue_clear q ff = muggle_linked_list_clear free q ff.
Proof. unfold muggle_queue_clear, muggle_linked_list_clear; by rewrite queue_clear_loop_eq. Qed.

Context `{NA : !NodeAllocator S A alloc free}.

Lemma dequeue_spec q b d ns owned ff :
  ll_ok alloc free q ((b, d) :: ns) owned ->
  exists q' owned', muggle_queue_dequeue q ff = Some (freed_data ff d, q') /\
    ll_ok alloc free q' ns owned'.
Proof.
  intros (Hd & Hs & Hw); unfold muggle_queue_dequeue, muggle_queue_is_empty.
  rewrite (dll_head _ _ Hd); cbn [first_ptr fst]; rewrite bool_decide_false by done.
  destruct (free_data_spec q [] ns b d ff Hd) as (q1 & d1 & E & Hd1 & Hp & Hs1).
  change (muggle_queue_free_data q (PNode b) ff) with (muggle_linked_list_free_data q (PNode b) ff).
  rewrite E; cbn [mbind option_bind].
  change (muggle_queue_free_node q1 (PNode b)) with (muggle_linked_list_free_node free q1 (PNode b)).
  destruct (free_node_spec alloc free q1 [] ns b d1 owned Hd1) as (q2 & owned2 & -> & Hok).
  - by rewrite Hs1, Hs.
  - by rewrite Hp.
  - by exists q2, owned2.
Qed.
End Queue.

(** [sizeof(muggle_queue_node_t)] is the same; only the order of the setup
    differs from the linked list: on failure the sentinels stay unlinked. *)
Definition muggle_queue_init (capacity : Z) (p : bool) (a : mem_answers)
  : option (bool * node_list (option muggle_memory_pool)) :=
  let q := NL (ND PNull PNull NULL) (ND PNull PNull NULL) None 0 ∅ in
  let link (q : node_list (option muggle_memory_pool)) :=
    NL (ND PNull PTail NULL) (ND PHead PNull NULL) (n_pool q) (n_size q) (n_nodes q) in
  if capacity >? 0 then
    if negb (MUGGLE_DS_CAP_IS_VALID capacity) then Some (false, q)
    else if negb p then Some (false, q)
    else
      '(ok, m) ← muggle_memory_pool_init a capacity sizeof_node;
      let q := set_pool q (Some m) in
      if (ok : bool) then Some (true, link q) else Some (false, q)
  else Some (true, link q).

Definition muggle_queue_destroy (q : node_list (option muggle_memory_pool)) (ff : bool)
  : option (list Z * node_list (option muggle_memory_pool)) :=
  '(tr, q) ← muggle_queue_clear node_free q ff;
  match n_pool q with
  | Some p => '(_, p) ← muggle_memory_pool_destroy p; Some (tr, set_pool q (Some p))
  | None => Some (tr, q)
  end.

(** [init] builds what the linked list builds. *)
Lemma queue_init_eq capacity p a :
  match muggle_queue_init capacity p a, muggle_linked_list_init capacity p a with
  | Some (ok, q), Some (ok', l) => ok = ok' /\ (ok = true -> q = l)
  | None, None => True
  | _, _ => False
  end.
Proof.
  unfold muggle_queue_init, muggle_linked_list_init.
  destruct (capacity >? 0); [|done]; destruct (negb (MUGGLE_DS_CAP_IS_VALID capacity)); [done|].
  destruct (negb p); [done|].
  destruct (muggle_memory_pool_init a capacity sizeof_node) as [[[] m]|]; done.
Qed.

(** ** Specification: the calls on a first-in first-out queue *)

Inductive queue_op :=
| Enqueue (data : Z) (a : node_answers)
| Dequeue (ff : bool)
| Front
| QSize
| QClear (ff : bool).

(** What a call returns: a pointer, the data freed, or a number. *)
Inductive queue_res := RPtr (found : bool) | RFreed (tr : list Z) | RData (d : option Z) | RNum (n : Z).

(** The call on the queue of the code; [Front] reads the data of the node. *)
Definition run_op (debug : bool) (q : node_list (option muggle_memory_pool)) (o : queue_op)
  : option (queue_res * node_list (option muggle_memory_pool)) :=
  match o with
  | Enqueue data a =>
      '(r, q) ← muggle_queue_enqueue (node_alloc debug) q data a;
      Some (RPtr (negb (bool_decide (r = PNull))), q)
  | Dequeue ff => '(tr, q) ← muggle_queue_dequeue node_free q ff; Some (RFreed tr, q)
  | Front =>
      if decide (muggle_queue_front q = PNull) then Some (RData None, q)
      else d ← get_data q (muggle_queue_front q); Some (RData (Some d), q)
  | QSize => Some (RNum (muggle_queue_size q), q)
  | QClear ff => '(tr, q) ← muggle_queue_clear node_free q ff; Some (RFreed tr, q)
  end.

(** The same call on a list of data, oldest first; the allocator decides
    whether [Enqueue] succeeds. *)
Inductive fifo_op : list Z -> queue_op -> queue_res -> list Z -> Prop :=
| fifo_enqueue ds data a : fifo_op ds (Enqueue data a) (RPtr true) (ds ++ [data])
| fifo_enqueue_fail ds data a : fifo_op ds (Enqueue data a) (RPtr false) ds
| fifo_dequeue d ds ff : fifo_op (d :: ds) (Dequeue ff) (RFreed (freed_data ff d)) ds
| fifo_dequeue_empty ff : fifo_op [] (Dequeue ff) (RFreed []) []
| fifo_front d ds : fifo_op (d :: ds) Front (RData (Some d)) (d :: ds)
| fifo_front_empty : fifo_op [] Front (RData None) []
| fifo_size ds : fifo_op ds QSize (RNum (Z.of_nat (length ds))) ds
| fifo_clear ds ff : fifo_op ds (QClear ff) (RFreed (ds ≫= freed_data ff)) [].

Lemma queue_op_spec debug q ns owned o :
  pool_list_ok debug q ns owned ->
  (forall data a, o = Enqueue data a -> node_fresh (n_pool q) owned a) ->
  exists r q' ns' owned', run_op debug q o = Some (r, q') /\ pool_list_ok debug q' ns' owned' /\
    fifo_op ns.*2 o r ns'.*2.
Proof.
  intros Hok Hf; pose proof Hok as (Hd & Hs & _); destruct o as [data a|ff| | |ff]; unfold run_op.
  - rewrite enqueue_is_append.
    destruct (linked_list_append_spec (node_alloc debug) node_free q ns [] owned PNull data a)
      as (r & q' & owned' & -> & [(-> & Hok')|(b & -> & _ & Hok')]);
      [by rewrite app_nil_r|by apply (Hf data)|by left| |]; cbn [mbind option_bind].
    + rewrite app_nil_r in Hok'; do 4 eexists; split; [done|]; split; [exact Hok'|constructor].
    + do 4 eexists; split; [done|]; split; [exact Hok'|]; rewrite fmap_app; constructor.
  - destruct ns as [|[b d] ns].
    + unfold muggle_queue_dequeue, muggle_queue_is_empty; rewrite (dll_head _ _ Hd).
      do 4 eexists; split; [done|]; split; [exact Hok|constructor].
    + destruct (dequeue_spec _ _ q b d ns owned ff Hok) as (q' & owned' & -> & Hok').
      do 4 eexists; split; [done|]; split; [exact Hok'|constructor].
  - unfold muggle_queue_front, muggle_queue_is_empty; rewrite (dll_head _ _ Hd).
    destruct ns as [|[b d] ns]; cbn [first_ptr fst].
    + rewrite bool_decide_true by done; do 4 eexists; split; [done|]; split; [exact Hok|constructor].
    + rewrite bool_decide_false, decide_False, (dll_data _ _ Hd b d) by (done || set_solver).
      do 4 eexists; split; [done|]; split; [exact Hok|constructor].
  - do 4 eexists; split; [done|]; split; [exact Hok|]; unfold muggle_queue_size.
    rewrite Hs, <- (length_fmap snd ns); constructor.
  - rewrite queue_clear_eq.
    destruct (linked_list_clear_spec _ _ q ns owned ff Hok) as (q' & owned' & -> & Hok').
    do 4 eexists; split; [done|]; split; [exact Hok'|constructor].
Qed.

Lemma queue_destroy_eq q ff : muggle_queue_destroy q ff = muggle_linked_list_destroy q ff.
Proof. unfold muggle_queue_destroy, muggle_linked_list_destroy; by rewrite queue_clear_eq. Qed.

(** ** Properties *)

(** The queue refines a first-in first-out queue of data: [init], when it
    succeeds, gives the empty queue; and from every well-formed queue, each
    call with allocator answers that are not memory in use runs without a
    fault, returns what the same call on the list of data returns ([enqueue]
    adding at the back or failing for want of memory, [dequeue] freeing the
    data at the front, [front] and [size] reading, [clear] freeing all in
    order) and leaves a well-formed queue with that list; [destroy] frees all
    data. *)
Theorem queue_refines_fifo debug q ns owned o (Hok : pool_list_ok debug q ns owned)
    (Hf : forall data a, o = Enqueue data a -> node_fresh (n_pool q) owned a) :
  (exists r q' ns' owned', run_op debug q o = Some (r, q') /\ pool_list_ok debug q' ns' owned' /\
     fifo_op ns.*2 o r ns'.*2) /\
  (forall ff, exists q', muggle_queue_destroy q ff = Some (ns.*2 ≫= freed_data ff, q')) /\
  (forall capacity p a q0, 0 <= capacity < 2 ^ 64 -> 0 < ma_data a \/ ma_data a = NULL ->
     muggle_queue_init capacity p a = Some (true, q0) ->
     exists owned0, pool_list_ok debug q0 [] owned0).
Proof.
  split; [by eapply queue_op_spec|]; split.
  - intros ff; rewrite queue_destroy_eq; by eapply linked_list_destroy_spec.
  - intros capacity p a q0 Hc Ha E; pose proof (queue_init_eq capacity p a) as H; rewrite E in H.
    destruct (list_init_outcome debug capacity p a Hc Ha) as (ok & l & El & _ & Hl).
    rewrite El in H; destruct H as [<- H2]; rewrite (H2 eq_refl).
    destruct (Hl eq_refl) as (owned0 & H0 & _); by exists owned0.
Qed.

Lemma queue_refines_fifo_witness :
  exists r q' ns' owned', run_op false (empty_list None) (Enqueue 5 (NA 1000 no_memory)) = Some (r, q') /\
    pool_list_ok false q' ns' owned' /\ fifo_op [] (Enqueue 5 (NA 1000 no_memory)) r ns'.*2.
Proof.
  apply (queue_refines_fifo false (empty_list None) [] []).
  - apply empty_list_ok, malloc_wf.
  - intros data a [= _ <-]; right; split; [vm_compute; done|set_solver].
Defined.
