(* ===== verification/PointerSlot.v ===== *)
(** * Pointer slots: [memory/pointer_slot.c]

    A table that gives every inserted pointer a small index, with a ring of
    pointers to the free slots and a doubly linked list of the slots in use.
    A pointer to a slot item is one of [Nodes]: the sentinels [head] and
    [tail] of the table, or [PNode i] for [&slots[i]].  [MUGGLE_ASSERT] ends
    the program in a debug build when its condition is false ([None]) and is
    empty otherwise. *)
From S2P Require Import Prelude Utils Nodes.

Record muggle_pointer_slot_item := SI {
  i_prev : ptr; i_next : ptr; slot_idx : Z; in_used : Z; i_data : Z
}.

(** [slots] and [pp_slots] are [None] when the pointers are null; a cell that
    was not written yet is [None]. *)
Record muggle_pointer_slot := PS {
  slots : option (list (option muggle_pointer_slot_item));
  pp_slots : option (list (option ptr));
  ps_capacity : Z; alloc_index : Z; free_index : Z;
  ps_head : muggle_pointer_slot_item; ps_tail : muggle_pointer_slot_item
}.

Section Operations.
Variable debug : bool.
Implicit Types t : muggle_pointer_slot.

Definition MUGGLE_ASSERT {A} (c : bool) (k : option A) : option A := if debug && negb c then None else k.

(** ** Access to items *)

Definition set_slots t (s : list (option muggle_pointer_slot_item)) : muggle_pointer_slot :=
  PS (Some s) (pp_slots t) (ps_capacity t) (alloc_index t) (free_index t) (ps_head t) (ps_tail t).
Definition set_pp t (p : list (option ptr)) : muggle_pointer_slot :=
  PS (slots t) (Some p) (ps_capacity t) (alloc_index t) (free_index t) (ps_head t) (ps_tail t).
Definition set_alloc_index t (a : Z) : muggle_pointer_slot :=
  PS (slots t) (pp_slots t) (ps_capacity t) a (free_index t) (ps_head t) (ps_tail t).
Definition set_free_index t (f : Z) : muggle_pointer_slot :=
  PS (slots t) (pp_slots t) (ps_capacity t) (alloc_index t) f (ps_head t) (ps_tail t).

Definition get_item t (p : ptr) : option muggle_pointer_slot_item :=
  match p with
  | PNull => None
  | PHead => Some (ps_head t)
  | PTail => Some (ps_tail t)
  | PNode i => s ← slots t; rdi s i
  end.

Definition put_item t (p : ptr) (x : muggle_pointer_slot_item) : option muggle_pointer_slot :=
  match p with
  | PNull => None
  | PHead => Some (PS (slots t) (pp_slots t) (ps_capacity t) (alloc_index t) (free_index t) x (ps_tail t))
  | PTail => Some (PS (slots t) (pp_slots t) (ps_capacity t) (alloc_index t) (free_index t) (ps_head t) x)
  | PNode i => s ← slots t; s ← wr s i (Some x); Some (set_slots t s)
  end.

Definition upd_item t (p : ptr) (f : muggle_pointer_slot_item -> muggle_pointer_slot_item)
  : option muggle_pointer_slot := x ← get_item t p; put_item t p (f x).

Definition set_prev p (x : muggle_pointer_slot_item) := SI p (i_next x) (slot_idx x) (in_used x) (i_data x).
Definition set_next p (x : muggle_pointer_slot_item) := SI (i_prev x) p (slot_idx x) (in_used x) (i_data x).
Definition set_used u (x : muggle_pointer_slot_item) := SI (i_prev x) (i_next x) (slot_idx x) u (i_data x).
Definition set_data d (x : muggle_pointer_slot_item) := SI (i_prev x) (i_next x) (slot_idx x) (in_used x) d.

Definition pnext t (p : ptr) : option ptr := i_next <$> get_item t p.
Definition pprev t (p : ptr) : option ptr := i_prev <$> get_item t p.

Definition zero_item : muggle_pointer_slot_item := SI PNull PNull 0 0 NULL.
Definition ps_zero : muggle_pointer_slot := PS None None 0 0 0 zero_item zero_item.

(** ** Operations *)

(** One turn of the loop of [init]. *)
Definition init_body (i : Z) t : option muggle_pointer_slot :=
  s ← slots t; s ← wr s i (Some (SI PNull PNull i 0 NULL));
  p ← pp_slots t; p ← wr p i (Some (PNode i));
  Some (set_pp (set_slots t s) p).

(** [ok1] and [ok2] tell whether the two calls of [malloc] succeed.  The
    arrays have the capacity asked for, the table the next power of two. *)
Definition muggle_pointer_slot_init (ok1 ok2 : bool) (capacity : Z) : option (Z * muggle_pointer_slot) :=
  let capacity := if capacity >? 0 then capacity else 1 in
  let t := PS (if ok1 then Some (uninit capacity) else None) (if ok2 then Some (uninit capacity) else None)
             (u32 (muggle_next_pow_of_2 capacity)) 0 0 zero_item zero_item in
  if negb (ok1 && ok2) then Some (MUGGLE_ERR_MEM_ALLOC, PS None None (ps_capacity t) 0 0 zero_item zero_item)
  else
    t ← for_up init_body (Z.to_nat capacity) 0 t;
    t ← upd_item t PHead (set_prev PNull);
    t ← upd_item t PHead (set_next PTail);
    t ← upd_item t PTail (set_prev PHead);
    t ← upd_item t PTail (set_next PNull);
    Some (0, t).

Definition muggle_pointer_slot_destroy t : muggle_pointer_slot :=
  PS None None (ps_capacity t) (alloc_index t) (free_index t) (ps_head t) (ps_tail t).

(** The return value, [*slot_idx] when it is written, and the table. *)
Definition muggle_pointer_slot_insert t (data : Z) : option (Z * option Z * muggle_pointer_slot) :=
  let alloc_idx := MUGGLE_IDX_IN_POW_OF_2_RING (alloc_index t) (ps_capacity t) in
  pp ← pp_slots t;
  p_slot ← rdi pp alloc_idx;
  x ← get_item t p_slot;
  if in_used x =? 1 then
    MUGGLE_ASSERT (alloc_idx =? MUGGLE_IDX_IN_POW_OF_2_RING (free_index t) (ps_capacity t))
      (Some (MUGGLE_ERR_MEM_ALLOC, None, t))
  else
    last ← pprev t PTail; t ← upd_item t p_slot (set_prev last);
    t ← upd_item t p_slot (set_next PTail);
    last ← pprev t PTail; t ← upd_item t last (set_next p_slot);
    t ← upd_item t PTail (set_prev p_slot);
    t ← upd_item t p_slot (set_data data);
    t ← upd_item t p_slot (set_used 1);
    x ← get_item t p_slot;
    Some (0, Some (slot_idx x), set_alloc_index t (u32 (alloc_index t + 1))).

Definition muggle_pointer_slot_remove t (idx : Z) : option (Z * muggle_pointer_slot) :=
  if idx >=? ps_capacity t then MUGGLE_ASSERT (idx <? ps_capacity t) (Some (MUGGLE_ERR_BEYOND_RANGE, t))
  else
    let p_slot := PNode idx in
    x ← get_item t p_slot;
    if in_used x =? 0 then MUGGLE_ASSERT (in_used x =? 1) (Some (MUGGLE_ERR_MEM_DUPLICATE_FREE, t))
    else
      let free_idx := MUGGLE_IDX_IN_POW_OF_2_RING (free_index t) (ps_capacity t) in
      pp ← pp_slots t; pp ← wr pp free_idx (Some p_slot);
      let t := set_pp t pp in
      p ← pprev t p_slot; q ← pnext t p_slot; t ← upd_item t p (set_next q);
      q ← pnext t p_slot; p ← pprev t p_slot; t ← upd_item t q (set_prev p);
      t ← upd_item t p_slot (set_prev PNull);
      t ← upd_item t p_slot (set_next PNull);
      t ← upd_item t p_slot (set_used 0);
      t ← upd_item t p_slot (set_data NULL);
      Some (0, set_free_index t (u32 (free_index t + 1))).

Definition muggle_pointer_slot_get t (idx : Z) : option Z :=
  if idx >=? ps_capacity t then MUGGLE_ASSERT (idx <? ps_capacity t) (Some NULL)
  else
    x ← get_item t (PNode idx);
    if in_used x =? 0 then Some NULL else Some (i_data x).

Definition muggle_pointer_slot_iter_begin t : option ptr := pnext t PHead.
Definition muggle_pointer_slot_iter_end : ptr := PTail.
Definition muggle_pointer_slot_iter_data t (iter : ptr) : option Z := i_data <$> get_item t iter.
End Operations.

(** ** What an assignment to an item changes *)
Section Items.
Implicit Types (t : muggle_pointer_slot) (x : muggle_pointer_slot_item) (p q : ptr).

(** Everything but the fields of items. *)
Definition same_table t t' : Prop :=
  pp_slots t' = pp_slots t /\ ps_capacity t' = ps_capacity t /\ alloc_index t' = alloc_index t /\
  free_index t' = free_index t /\ length <$> slots t' = length <$> slots t.

Lemma upd_item_spec t p f x : get_item t p = Some x ->
  exists t', upd_item t p f = Some t' /\ same_table t t' /\
    forall q, get_item t' q = if decide (q = p) then Some (f x) else get_item t q.
Proof.
  intros Hx; unfold upd_item; rewrite Hx; cbn [mbind option_bind]; destruct p as [| | |i]; cbn [get_item put_item] in *.
  - done.
  - eexists; split; [done|]; split; [done|]; intros []; simplify_eq; done.
  - eexists; split; [done|]; split; [done|]; intros []; simplify_eq; done.
  - destruct (slots t) as [s|] eqn:Es; cbn [mbind option_bind] in *; [|done].
    assert (0 <= i < Z.of_nat (length s)) as Hi
      by (unfold rdi in Hx; destruct (rd s i) eqn:E; [by apply rd_Some in E|done]).
    destruct (wr s i (Some (f x))) as [s'|] eqn:Ew; [|by rewrite wr_Some in Ew].
    eexists; split; [done|]; split.
    + split_and!; try done; cbn; rewrite Es; cbn; f_equal; by eapply wr_length.
    + intros [| | |j]; try done; cbn [get_item set_slots slots mbind option_bind]; rewrite ?Es.
      destruct (decide (PNode j = PNode i)) as [[= ->]|Hne]; cbn [mbind option_bind]; unfold rdi.
      * by rewrite (rd_wr_eq _ _ _ _ Ew).
      * rewrite (rd_wr_ne _ _ _ _ _ Ew) by congruence; done.
Qed.

Lemma same_table_trans t1 t2 t3 : same_table t1 t2 -> same_table t2 t3 -> same_table t1 t3.
Proof. unfold same_table; intros (?&?&?&?&?) (?&?&?&?&?); split_and!; congruence. Qed.

(** The fields of an item. *)
Definition pused t p : option Z := in_used <$> get_item t p.
Definition pdata t p : option Z := i_data <$> get_item t p.
Definition pidx t p : option Z := slot_idx <$> get_item t p.

(** The assignments of [insert], for a free item [p] after [last]. *)
Lemma slot_link_spec t p last d x :
  get_item t p = Some x -> pprev t PTail = Some last -> is_Some (get_item t last) ->
  p <> PTail -> p <> last -> last <> PTail ->
  exists t',
    (last ← pprev t PTail; t ← upd_item t p (set_prev last);
     t ← upd_item t p (set_next PTail);
     last ← pprev t PTail; t ← upd_item t last (set_next p);
     t ← upd_item t PTail (set_prev p);
     t ← upd_item t p (set_data d);
     t ← upd_item t p (set_used 1);
     x ← get_item t p;
     Some (0, Some (slot_idx x), set_alloc_index t (u32 (alloc_index t + 1))))
    = Some (0, Some (slot_idx x), set_alloc_index t' (u32 (alloc_index t + 1))) /\ same_table t t' /\
    (forall q, pnext t' q = if decide (q = last) then Some p else if decide (q = p) then Some PTail else pnext t q) /\
    (forall q, pprev t' q = if decide (q = PTail) then Some p else if decide (q = p) then Some last else pprev t q) /\
    (forall q, pused t' q = if decide (q = p) then Some 1 else pused t q) /\
    (forall q, pdata t' q = if decide (q = p) then Some d else pdata t q) /\
    (forall q, pidx t' q = pidx t q).
Proof.
  intros Hx Hl [xl Hxl] H1 H2 H3; rewrite Hl; cbn [mbind option_bind].
  destruct (upd_item_spec t p (set_prev last) x Hx) as (t1 & -> & S1 & G1); cbn [mbind option_bind].
  assert (get_item t1 p = Some (set_prev last x)) as X1 by (by rewrite G1, decide_True).
  destruct (upd_item_spec t1 p (set_next PTail) _ X1) as (t2 & -> & S2 & G2); cbn [mbind option_bind].
  assert (pprev t2 PTail = Some last) as ->.
  { unfold pprev in *; by rewrite G2, decide_False, G1, decide_False by done. }
  cbn [mbind option_bind].
  assert (get_item t2 last = Some xl) as X2 by (by rewrite G2, decide_False, G1, decide_False by done).
  destruct (upd_item_spec t2 last (set_next p) _ X2) as (t3 & -> & S3 & G3); cbn [mbind option_bind].
  assert (exists xt, get_item t PTail = Some xt /\ i_prev xt = last) as (xt & Xt & El).
  { unfold pprev in Hl; destruct (get_item t PTail) eqn:E; simplify_eq/=; eauto. }
  assert (get_item t3 PTail = Some xt) as X3
    by (by rewrite G3, decide_False, G2, decide_False, G1, decide_False by done).
  destruct (upd_item_spec t3 PTail (set_prev p) _ X3) as (t4 & -> & S4 & G4); cbn [mbind option_bind].
  assert (get_item t4 p = Some (set_next PTail (set_prev last x))) as X4
    by (by rewrite G4, decide_False, G3, decide_False, G2, decide_True by done).
  destruct (upd_item_spec t4 p (set_data d) _ X4) as (t5 & -> & S5 & G5); cbn [mbind option_bind].
  assert (get_item t5 p = Some (set_data d (set_next PTail (set_prev last x)))) as X5 by (by rewrite G5, decide_True).
  destruct (upd_item_spec t5 p (set_used 1) _ X5) as (t6 & -> & S6 & G6); cbn [mbind option_bind].
  rewrite G6, decide_True by done; cbn [mbind option_bind].
  assert (same_table t t6) as S by eauto 7 using same_table_trans.
  exists t6; split; [destruct S as (_ & _ & -> & _); done|]; split; [done|].
  assert (forall q, get_item t6 q = if decide (q = p) then Some (SI last PTail (slot_idx x) 1 d)
     else if decide (q = PTail) then Some (set_prev p xt) else if decide (q = last) then Some (set_next p xl)
     else get_item t q) as G
    by (intros q; rewrite G6, G5, G4, G3, G2, G1; repeat case_decide; subst; done).
  split_and!; intros q; unfold pnext, pprev, pused, pdata, pidx; rewrite G; repeat case_decide; subst; try done;
    rewrite ?Hx, ?Xt, ?Hxl; done.
Qed.

(** The assignments of [remove] to the item [p] between [a] and [b]. *)
Lemma slot_unlink_spec t p a b x :
  get_item t p = Some x -> i_prev x = a -> i_next x = b -> is_Some (get_item t a) -> is_Some (get_item t b) ->
  p <> a -> p <> b -> a <> b ->
  exists t',
    (pv ← pprev t p; nx ← pnext t p; t ← upd_item t pv (set_next nx);
     nx ← pnext t p; pv ← pprev t p; t ← upd_item t nx (set_prev pv);
     t ← upd_item t p (set_prev PNull);
     t ← upd_item t p (set_next PNull);
     t ← upd_item t p (set_used 0);
     t ← upd_item t p (set_data NULL);
     Some (0, set_free_index t (u32 (free_index t + 1))))
    = Some (0, set_free_index t' (u32 (free_index t + 1))) /\ same_table t t' /\
    (forall q, q <> p -> pnext t' q = if decide (q = a) then Some b else pnext t q) /\
    (forall q, q <> p -> pprev t' q = if decide (q = b) then Some a else pprev t q) /\
    (forall q, pused t' q = if decide (q = p) then Some 0 else pused t q) /\
    (forall q, q <> p -> pdata t' q = pdata t q) /\
    (forall q, pidx t' q = pidx t q).
Proof.
  intros Hx Ea Eb [xa Xa] [xb Xb] H1 H2 H3.
  assert (forall u, get_item u p = Some x -> pprev u p = Some a /\ pnext u p = Some b) as F
    by (unfold pprev, pnext; intros u ->; cbn; by rewrite Ea, Eb).
  destruct (F t Hx) as [-> ->]; cbn [mbind option_bind].
  destruct (upd_item_spec t a (set_next b) xa Xa) as (t1 & -> & S1 & G1); cbn [mbind option_bind].
  assert (get_item t1 p = Some x) as X1 by (by rewrite G1, decide_False).
  destruct (F t1 X1) as [-> ->]; cbn [mbind option_bind].
  assert (get_item t1 b = Some xb) as X2 by (by rewrite G1, decide_False).
  destruct (upd_item_spec t1 b (set_prev a) xb X2) as (t2 & -> & S2 & G2); cbn [mbind option_bind].
  assert (get_item t2 p = Some x) as X3 by (by rewrite G2, decide_False).
  destruct (upd_item_spec t2 p (set_prev PNull) x X3) as (t3 & -> & S3 & G3); cbn [mbind option_bind].
  assert (get_item t3 p = Some (set_prev PNull x)) as X4 by (by rewrite G3, decide_True).
  destruct (upd_item_spec t3 p (set_next PNull) _ X4) as (t4 & -> & S4 & G4); cbn [mbind option_bind].
  assert (get_item t4 p = Some (set_next PNull (set_prev PNull x))) as X5 by (by rewrite G4, decide_True).
  destruct (upd_item_spec t4 p (set_used 0) _ X5) as (t5 & -> & S5 & G5); cbn [mbind option_bind].
  assert (get_item t5 p = Some (set_used 0 (set_next PNull (set_prev PNull x)))) as X6 by (by rewrite G5, decide_True).
  destruct (upd_item_spec t5 p (set_data NULL) _ X6) as (t6 & -> & S6 & G6); cbn [mbind option_bind].
  assert (same_table t t6) as S by eauto 7 using same_table_trans.
  exists t6; split; [destruct S as (_ & _ & _ & -> & _); done|]; split; [done|].
  assert (forall q, get_item t6 q = if decide (q = p) then Some (SI PNull PNull (slot_idx x) 0 NULL)
     else if decide (q = b) then Some (set_prev a xb) else if decide (q = a) then Some (set_next b xa)
     else get_item t q) as G
    by (intros q; rewrite G6, G5, G4, G3, G2, G1; repeat case_decide; subst; done).
  split_and!; intros q; unfold pnext, pprev, pused, pdata, pidx; rewrite G; repeat case_decide; subst; try done;
    rewrite ?Hx, ?Xa, ?Xb; done.
Qed.
End Items.

(** ** The invariant: the slots in use, in the order of the list, and the
    free slots, in the order of the ring *)
Section Invariant.
Variable k : Z.
Hypothesis Hk : 0 <= k < 32.
Implicit Types (t : muggle_pointer_slot) (live : list (Z * Z)) (free : list Z).

Record ps_inv t live free : Prop := {
  pi_cap : ps_capacity t = 2 ^ k;
  pi_alloc : in_width 32 (alloc_index t);
  pi_slots : length <$> slots t = Some (Z.to_nat (2 ^ k));
  pi_pp : exists pp, pp_slots t = Some pp /\ length pp = Z.to_nat (2 ^ k) /\
    (forall j, 0 <= j < 2 ^ k -> exists i, 0 <= i < 2 ^ k /\ rdi pp j = Some (PNode i)) /\
    (forall (j : nat) f, free !! j = Some f -> rdi pp ((alloc_index t + Z.of_nat j) mod 2 ^ k) = Some (PNode f));
  pi_perm : live.*1 ++ free ≡ₚ seqZ 0 (2 ^ k);
  pi_idx : forall i, 0 <= i < 2 ^ k -> pidx t (PNode i) = Some i;
  pi_live : forall i d, (i, d) ∈ live -> pused t (PNode i) = Some 1 /\ pdata t (PNode i) = Some d;
  pi_free : forall i, i ∈ free -> pused t (PNode i) = Some 0;
  pi_ring : (alloc_index t + Z.of_nat (length free)) mod 2 ^ k = free_index t mod 2 ^ k;
  pi_linked : linked (pnext t) (pprev t) (spine live)
}.

Lemma pow_k : 0 < 2 ^ k /\ 2 ^ k < 2 ^ 32 /\ (2 ^ k | 2 ^ 32).
Proof.
  split_and!; [lia|apply Z.pow_lt_mono_r; lia|].
  exists (2 ^ (32 - k)); rewrite <- Z.pow_add_r by lia; f_equal; lia.
Qed.

Lemma u32_mod_k x : u32 x mod 2 ^ k = x mod 2 ^ k.
Proof. unfold wrap; symmetry; apply Znumtheory.Zmod_div_mod; pose proof pow_k; lia || apply pow_k. Qed.

Lemma ps_NoDup t live free : ps_inv t live free -> NoDup (live.*1 ++ free).
Proof. intros Hi; rewrite (pi_perm _ _ _ Hi); apply NoDup_seqZ. Qed.

Lemma ps_range t live free i : ps_inv t live free -> i ∈ live.*1 \/ i ∈ free <-> 0 <= i < 2 ^ k.
Proof. intros Hi; rewrite <- elem_of_app, (pi_perm _ _ _ Hi), elem_of_seqZ; lia. Qed.

Lemma ps_item t live free i : ps_inv t live free -> 0 <= i < 2 ^ k -> is_Some (get_item t (PNode i)).
Proof. intros Hi Hr; pose proof (pi_idx _ _ _ Hi i Hr) as H; unfold pidx in H; destruct (get_item t (PNode i)); [by eexists|done]. Qed.

Lemma ps_spine_item t live free p : ps_inv t live free -> p ∈ spine live -> is_Some (get_item t p).
Proof.
  intros Hi; rewrite spine_elem; intros [->|[->|(a & -> & Ha)]]; [by eexists|by eexists|].
  eapply ps_item; [done|]; eapply ps_range; eauto.
Qed.

Lemma ps_live_split live i : i ∈ live.*1 -> exists d l1 l2, live = l1 ++ (i, d) :: l2.
Proof.
  intros Hin; apply list_elem_of_fmap in Hin as ([j d] & -> & H); apply list_elem_of_split in H as (l1 & l2 & ->); eauto.
Qed.

Lemma ps_length t live free : ps_inv t live free -> (length live <= Z.to_nat (2 ^ k))%nat.
Proof.
  intros Hi; pose proof (Permutation_length (pi_perm _ _ _ Hi)) as H.
  rewrite length_app, length_fmap, length_seqZ in H; lia.
Qed.

(** ** Links *)

Lemma spine_link_last nx pv nx' pv' live i d :
  NoDup live.*1 -> i ∉ live.*1 ->
  (forall q, nx' q = if decide (q = last_ptr live) then Some (PNode i) else if decide (q = PNode i) then Some PTail else nx q) ->
  (forall q, pv' q = if decide (q = PTail) then Some (PNode i) else if decide (q = PNode i) then Some (last_ptr live) else pv q) ->
  linked nx pv (spine live) -> linked nx' pv' (spine (live ++ [(i, d)])).
Proof.
  intros Hnd Hi Hnx Hpv Hl; destruct (spine_split live []) as (L & R & EL & ER & E).
  rewrite app_nil_r in E; cbn in ER; injection ER as <-.
  assert (spine (live ++ [(i, d)]) = L ++ last_ptr live :: PNode i :: PTail :: []) as ->.
  { change (L ++ last_ptr live :: PNode i :: [PTail]) with (L ++ [last_ptr live] ++ [PNode i; PTail]).
    rewrite app_assoc, <- EL; unfold spine, ptrs; rewrite fmap_app, <- app_assoc; done. }
  pose proof (spine_NoDup live Hnd) as Hs; pose proof (node_not_in_spine live i Hi) as Hni; rewrite E in *.
  by apply (linked_insert nx pv nx' pv' L (last_ptr live) PTail [] (PNode i)).
Qed.

Lemma spine_unlink nx pv nx' pv' l1 i d l2 :
  NoDup (l1 ++ (i, d) :: l2).*1 ->
  (forall q, q <> PNode i -> nx' q = if decide (q = last_ptr l1) then Some (first_ptr l2) else nx q) ->
  (forall q, q <> PNode i -> pv' q = if decide (q = first_ptr l2) then Some (last_ptr l1) else pv q) ->
  linked nx pv (spine (l1 ++ (i, d) :: l2)) -> linked nx' pv' (spine (l1 ++ l2)).
Proof.
  intros Hnd Hnx Hpv Hl; destruct (spine_split l1 l2) as (L & R & EL & ER & E).
  assert (spine (l1 ++ (i, d) :: l2) = L ++ last_ptr l1 :: PNode i :: first_ptr l2 :: R) as E'.
  { change (L ++ last_ptr l1 :: PNode i :: first_ptr l2 :: R) with (L ++ [last_ptr l1] ++ PNode i :: (first_ptr l2 :: R)).
    rewrite app_assoc, <- EL, <- ER; unfold spine, ptrs; rewrite fmap_app, <- app_assoc; done. }
  pose proof (spine_NoDup _ Hnd) as Hs; rewrite E' in Hs, Hl; rewrite E.
  eapply (linked_frame (fun q => if decide (q = last_ptr l1) then Some (first_ptr l2) else nx q)
    (fun q => if decide (q = first_ptr l2) then Some (last_ptr l1) else pv q)).
  - intros q Hq; assert (q <> PNode i) as Hne; [|by rewrite Hnx, Hpv].
    intros ->; apply NoDup_app in Hs as (_ & HL & HR); apply NoDup_cons in HR as [HR1 HR]; apply NoDup_cons in HR as [HR2 _].
    apply elem_of_app in Hq as [Hq|Hq]; [apply (HL _ Hq); set_solver|set_solver].
  - by eapply (linked_remove nx pv _ _ L (last_ptr l1) (first_ptr l2) R (PNode i)).
Qed.

Lemma ps_around t l1 l2 free : ps_inv t (l1 ++ l2) free ->
  pnext t (last_ptr l1) = Some (first_ptr l2) /\ pprev t (first_ptr l2) = Some (last_ptr l1) /\
  is_Some (get_item t (last_ptr l1)) /\ is_Some (get_item t (first_ptr l2)) /\ last_ptr l1 <> first_ptr l2.
Proof.
  intros Hi; destruct (spine_split l1 l2) as (L & R & _ & _ & E).
  pose proof (pi_linked _ _ _ Hi) as Hl; rewrite E, linked_app in Hl; destruct_and! Hl.
  assert (NoDup (l1 ++ l2).*1) as Hnd by (pose proof (ps_NoDup _ _ _ Hi) as H'; by apply NoDup_app in H' as (? & _)).
  apply spine_NoDup in Hnd; rewrite E in Hnd; split_and!; try done.
  - eapply ps_spine_item; [done|apply last_ptr_elem].
  - eapply ps_spine_item; [done|apply first_ptr_elem].
  - apply NoDup_app in Hnd as (_ & _ & Hnd); apply NoDup_cons in Hnd as [Hnd _]; set_solver.
Qed.

(** ** Operations on the invariant *)
Variable debug : bool.

Lemma ps_insert_full t live d : ps_inv t live [] ->
  muggle_pointer_slot_insert debug t d = Some (MUGGLE_ERR_MEM_ALLOC, None, t).
Proof using Hk.
  intros Hi; unfold muggle_pointer_slot_insert; destruct (pi_pp _ _ _ Hi) as (pp & -> & Hl & Hv & _).
  cbn [mbind option_bind]; rewrite (pi_cap _ _ _ Hi), !ring_idx_mod by lia.
  destruct (Hv (alloc_index t mod 2 ^ k)) as (i & Hr & ->); [apply Z.mod_pos_bound; lia|]; cbn [mbind option_bind].
  destruct (ps_item _ _ _ i Hi Hr) as [x Hx]; rewrite Hx; cbn [mbind option_bind].
  apply (ps_range _ _ _ _ Hi) in Hr as [Hin|Hin]; [|set_solver].
  destruct (ps_live_split _ _ Hin) as (d0 & l1 & l2 & ->).
  destruct (pi_live _ _ _ Hi i d0) as [Hu _]; [set_solver|].
  unfold pused in Hu; rewrite Hx in Hu; cbn in Hu; injection Hu as ->; cbn [Z.eqb Pos.eqb].
  pose proof (pi_ring _ _ _ Hi) as Hr; cbn [length] in Hr; rewrite Z.add_0_r in Hr.
  unfold MUGGLE_ASSERT; by rewrite Hr, Z.eqb_refl, andb_false_r.
Qed.

Lemma ps_insert_spec t live i free d : ps_inv t live (i :: free) ->
  exists t', muggle_pointer_slot_insert debug t d = Some (0, Some i, t') /\ ps_inv t' (live ++ [(i, d)]) free.
Proof using Hk.
  intros Hi; unfold muggle_pointer_slot_insert; destruct (pi_pp _ _ _ Hi) as (pp & Ep & Hl & Hv & Hf).
  rewrite Ep; cbn [mbind option_bind]; rewrite (pi_cap _ _ _ Hi), !ring_idx_mod by lia.
  pose proof (Hf 0%nat i eq_refl) as H0; rewrite Z.add_0_r in H0; rewrite H0; cbn [mbind option_bind].
  assert (0 <= i < 2 ^ k) as Hr by (eapply ps_range; [done|set_solver]).
  destruct (ps_item _ _ _ i Hi Hr) as [x Hx]; rewrite Hx; cbn [mbind option_bind].
  pose proof (pi_free _ _ _ Hi i ltac:(set_solver)) as Hu; pose proof (pi_idx _ _ _ Hi i Hr) as Hidx.
  unfold pused, pidx in Hu, Hidx; rewrite Hx in Hu, Hidx; cbn in Hu, Hidx; injection Hu as ->; injection Hidx as Eidx.
  cbn [Z.eqb]; pose proof (ps_NoDup _ _ _ Hi) as Hnd; pose proof (pi_perm _ _ _ Hi) as Hperm.
  assert (NoDup live.*1) as Hnl by (by apply NoDup_app in Hnd as (? & _)).
  assert (i ∉ live.*1) as Hni by (apply NoDup_app in Hnd as (_ & H & _); intros Hin; apply (H i Hin); set_solver).
  assert (ps_inv t (live ++ []) (i :: free)) as Hi' by (by rewrite app_nil_r).
  destruct (ps_around t live [] _ Hi') as (_ & Hp & Vl & _ & Hne).
  assert (PNode i <> last_ptr live) as Hnel.
  { intros E; apply Hni; pose proof (last_ptr_elem live []) as H; rewrite <- E, app_nil_r, spine_elem in H.
    destruct H as [H|[H|(a & [= ->] & H)]]; done. }
  destruct (slot_link_spec t (PNode i) (last_ptr live) d x Hx Hp Vl ltac:(done) Hnel Hne)
    as (t' & E & (Spp & Scap & Sal & Sfr & Sl) & Hnx & Hpv & Hus & Hda & Hix).
  exists (set_alloc_index t' (u32 (alloc_index t + 1))); rewrite E, Eidx; split; [done|].
  split; cbn [set_alloc_index ps_capacity alloc_index slots pp_slots free_index].
  - by rewrite Scap, (pi_cap _ _ _ Hi).
  - apply wrap_range; lia.
  - by rewrite Sl, (pi_slots _ _ _ Hi).
  - exists pp; rewrite Spp; split_and!; try done; intros j f Hj.
    rewrite <- (Hf (S j) f Hj); f_equal; rewrite <- Zplus_mod_idemp_l, u32_mod_k, Zplus_mod_idemp_l.
    f_equal; lia.
  - rewrite fmap_app; cbn; rewrite <- app_assoc; cbn; done.
  - intros j Hj; change (pidx (set_alloc_index t' _) (PNode j)) with (pidx t' (PNode j)).
    rewrite Hix; by apply (pi_idx _ _ _ Hi).
  - intros j e Hje; change (pused t' (PNode j) = Some 1 /\ pdata t' (PNode j) = Some e).
    rewrite Hus, Hda; apply elem_of_app in Hje as [Hje|Hje].
    + rewrite !decide_False by (intros [= ->]; apply Hni, list_elem_of_fmap; by exists (i, e)).
      by apply (pi_live _ _ _ Hi).
    + apply list_elem_of_singleton in Hje; injection Hje as -> ->; by rewrite !decide_True.
  - intros j Hj; change (pused t' (PNode j) = Some 0); rewrite Hus, decide_False.
    + apply (pi_free _ _ _ Hi); set_solver.
    + intros [= ->]; apply NoDup_app in Hnd as (_ & _ & Hnd); apply NoDup_cons in Hnd as [Hnd _]; done.
  - rewrite Sfr, <- (pi_ring _ _ _ Hi), <- Zplus_mod_idemp_l, u32_mod_k, Zplus_mod_idemp_l; cbn [length]; f_equal; lia.
  - change (linked (pnext t') (pprev t') (spine (live ++ [(i, d)]))).
    by apply (spine_link_last (pnext t) (pprev t)); [..|apply (pi_linked _ _ _ Hi)].
Qed.

(** The free slot is put behind the others in the ring. *)
Lemma ring_append pp free a i :
  length pp = Z.to_nat (2 ^ k) -> (length free < Z.to_nat (2 ^ k))%nat -> 0 <= i < 2 ^ k ->
  (forall j, 0 <= j < 2 ^ k -> exists i, 0 <= i < 2 ^ k /\ rdi pp j = Some (PNode i)) ->
  (forall (j : nat) f, free !! j = Some f -> rdi pp ((a + Z.of_nat j) mod 2 ^ k) = Some (PNode f)) ->
  exists pp', wr pp ((a + Z.of_nat (length free)) mod 2 ^ k) (Some (PNode i)) = Some pp' /\
    length pp' = Z.to_nat (2 ^ k) /\
    (forall j, 0 <= j < 2 ^ k -> exists i, 0 <= i < 2 ^ k /\ rdi pp' j = Some (PNode i)) /\
    (forall (j : nat) f, (free ++ [i]) !! j = Some f -> rdi pp' ((a + Z.of_nat j) mod 2 ^ k) = Some (PNode f)).
Proof using Hk.
  intros Hl Hn Hr Hv Hf; pose proof pow_k as (P1 & P2 & _).
  set (pos := (a + Z.of_nat (length free)) mod 2 ^ k).
  assert (0 <= pos < 2 ^ k) as Hpos by (apply Z.mod_pos_bound; lia).
  destruct (wr pp pos (Some (PNode i))) as [pp'|] eqn:E; [|rewrite wr_Some in E by lia; done].
  exists pp'; split; [done|]; split; [by rewrite (wr_length _ _ _ _ E)|]; split.
  - intros j Hj; unfold rdi; destruct (decide (pos = j)) as [<-|Hne].
    + exists i; by rewrite (rd_wr_eq _ _ _ _ E).
    + rewrite (rd_wr_ne _ _ _ _ _ E Hne); by apply Hv.
  - intros j f Hj; apply lookup_app_Some in Hj as [Hj|[Hj1 Hj]].
    + pose proof (lookup_lt_Some _ _ _ Hj) as Hlt; unfold rdi; rewrite (rd_wr_ne _ _ _ _ _ E); [by apply Hf|].
      unfold pos; intros Heq; assert (Z.of_nat (length free) = Z.of_nat j) as H; [|lia].
      rewrite <- (Z.mod_small (Z.of_nat (length free)) (2 ^ k)), <- (Z.mod_small (Z.of_nat j) (2 ^ k)) by lia.
      replace (Z.of_nat (length free)) with (a + Z.of_nat (length free) - a) by lia.
      replace (Z.of_nat j) with (a + Z.of_nat j - a) by lia.
      by rewrite <- Zminus_mod_idemp_l, Heq, Zminus_mod_idemp_l.
    + apply list_lookup_singleton_Some in Hj as [Hj <-].
      assert (j = length free) as -> by lia; fold pos; unfold rdi; by rewrite (rd_wr_eq _ _ _ _ E).
Qed.

(** A slot in use and its neighbours. *)
Lemma ps_neighbours t l1 i d l2 free : ps_inv t (l1 ++ (i, d) :: l2) free ->
  exists x, get_item t (PNode i) = Some x /\ in_used x = 1 /\ i_prev x = last_ptr l1 /\ i_next x = first_ptr l2 /\
    is_Some (get_item t (last_ptr l1)) /\ is_Some (get_item t (first_ptr l2)) /\
    PNode i <> last_ptr l1 /\ PNode i <> first_ptr l2 /\ last_ptr l1 <> first_ptr l2.
Proof using Hk.
  intros Hi; pose proof (ps_NoDup _ _ _ Hi) as Hnd; apply NoDup_app in Hnd as (Hnd & _).
  destruct (ps_around t _ _ _ Hi) as (_ & Hp & Va & _ & Na); cbn [first_ptr fst] in Hp, Na.
  assert (ps_inv t ((l1 ++ [(i, d)]) ++ l2) free) as Hi2 by (by rewrite <- app_assoc).
  destruct (ps_around t _ _ _ Hi2) as (Hn & _ & _ & Vb & Nb).
  replace (last_ptr (l1 ++ [(i, d)])) with (PNode i) in * by (unfold last_ptr; by rewrite last_snoc).
  destruct (pi_live _ _ _ Hi i d) as [Hu _]; [set_solver|].
  unfold pused, pnext, pprev in *; destruct (get_item t (PNode i)) as [x|]; [|done]; exists x.
  injection Hu as Hu; injection Hn as Hn; injection Hp as Hp; split_and!; try done.
  destruct (spine_split l1 l2) as (L & R & EL & ER & _).
  apply spine_NoDup in Hnd; unfold spine, ptrs in Hnd; rewrite fmap_app, <- app_assoc in Hnd; cbn [fmap list_fmap app] in Hnd.
  rewrite app_comm_cons in Hnd; fold (ptrs l1) in Hnd; change ((fun x => PNode x.1) <$> l2) with (ptrs l2) in Hnd.
  rewrite ER, EL, <- app_assoc in Hnd; cbn [app] in Hnd.
  apply NoDup_app in Hnd as (_ & _ & Hnd); apply NoDup_cons in Hnd as [Hnd _]; set_solver.
Qed.

(** What [remove] leaves in the table. *)
Definition removed t t' (pp' : list (option ptr)) (i : Z) (a b : ptr) : Prop :=
  same_table (set_pp t pp') t' /\
  (forall q, q <> PNode i -> pnext t' q = if decide (q = a) then Some b else pnext t q) /\
  (forall q, q <> PNode i -> pprev t' q = if decide (q = b) then Some a else pprev t q) /\
  (forall q, pused t' q = if decide (q = PNode i) then Some 0 else pused t q) /\
  (forall q, q <> PNode i -> pdata t' q = pdata t q) /\
  (forall q, pidx t' q = pidx t q).

Lemma ps_remove_run t l1 i d l2 free pp pp' : ps_inv t (l1 ++ (i, d) :: l2) free ->
  pp_slots t = Some pp -> wr pp (free_index t mod 2 ^ k) (Some (PNode i)) = Some pp' ->
  exists t', muggle_pointer_slot_remove debug t i = Some (0, set_free_index t' (u32 (free_index t + 1))) /\
    removed t t' pp' i (last_ptr l1) (first_ptr l2).
Proof using Hk.
  intros Hi Ep Ew; destruct (ps_neighbours t l1 i d l2 free Hi) as (x & Hx & Hu & Ea & Eb & Va & Vb & N1 & N2 & N3).
  assert (0 <= i < 2 ^ k) as Hr by (eapply ps_range; [done|]; rewrite fmap_app; set_solver).
  destruct (slot_unlink_spec (set_pp t pp') (PNode i) (last_ptr l1) (first_ptr l2) x Hx Ea Eb Va Vb N1 N2 N3)
    as (t' & E & H); exists t'; split; [|exact H].
  unfold muggle_pointer_slot_remove; rewrite (pi_cap _ _ _ Hi); replace (i >=? 2 ^ k) with false by lia.
  rewrite Hx; cbn [mbind option_bind]; rewrite Hu, Ep; cbn [Z.eqb mbind option_bind].
  rewrite ring_idx_mod, Ew by lia; cbn [mbind option_bind]; exact E.
Qed.

Lemma ps_remove_spec t l1 i d l2 free : ps_inv t (l1 ++ (i, d) :: l2) free ->
  exists t', muggle_pointer_slot_remove debug t i = Some (0, t') /\ ps_inv t' (l1 ++ l2) (free ++ [i]).
Proof using Hk.
  intros Hi; destruct (pi_pp _ _ _ Hi) as (pp & Ep & Hl & Hv & Hf); pose proof (ps_NoDup _ _ _ Hi) as Hnd.
  assert (0 <= i < 2 ^ k) as Hr by (eapply ps_range; [done|]; rewrite fmap_app; set_solver).
  pose proof (pi_perm _ _ _ Hi) as Hperm; rewrite fmap_app in Hperm; cbn [fmap list_fmap fst] in Hperm.
  assert (length free < Z.to_nat (2 ^ k))%nat as Hn
    by (apply Permutation_length in Hperm; rewrite !length_app, length_seqZ in Hperm; cbn in Hperm; lia).
  destruct (ring_append pp free (alloc_index t) i Hl Hn Hr Hv Hf) as (pp' & Ew & Hl' & Hv' & Hf').
  rewrite (pi_ring _ _ _ Hi) in Ew.
  destruct (ps_remove_run t l1 i d l2 free pp pp' Hi Ep Ew)
    as (t' & E & (Spp & Scap & Sal & Sfr & Sl) & Hnx & Hpv & Hus & Hda & Hix).
  cbn [set_pp ps_capacity alloc_index slots pp_slots free_index] in Spp, Scap, Sal, Sfr, Sl.
  rewrite fmap_app in Hnd; cbn [fmap list_fmap fst] in Hnd.
  assert (i ∉ l1.*1 ++ l2.*1 ++ free) as Hni.
  { rewrite <- app_assoc in Hnd; cbn in Hnd; apply NoDup_app in Hnd as (_ & H1 & H2); apply NoDup_cons in H2 as [H2 _].
    intros [Hin|Hin]%elem_of_app; [apply (H1 i Hin); set_solver|done]. }
  eexists; split; [exact E|]; split; cbn [set_free_index ps_capacity alloc_index slots pp_slots free_index];
    rewrite ?Scap, ?Sal, ?Spp, ?Sl; try apply Hi.
  - exists pp'; by split.
  - rewrite <- Hperm, fmap_app; solve_Permutation.
  - intros j Hj; change (pidx t' (PNode j) = Some j); rewrite Hix; by apply (pi_idx _ _ _ Hi).
  - intros j e Hje; change (pused t' (PNode j) = Some 1 /\ pdata t' (PNode j) = Some e).
    assert (PNode j <> PNode i) as Hne.
    { intros [= ->]; apply Hni; rewrite app_assoc; apply elem_of_app; left; rewrite <- fmap_app; apply list_elem_of_fmap; by exists (i, e). }
    rewrite Hus, Hda, decide_False by done; apply (pi_live _ _ _ Hi); set_solver.
  - intros j Hj; change (pused t' (PNode j) = Some 0); rewrite Hus; case_decide; [done|].
    apply (pi_free _ _ _ Hi); set_solver.
  - rewrite length_app; cbn [length]; rewrite u32_mod_k, <- (Zplus_mod_idemp_l (free_index t)), <- (pi_ring _ _ _ Hi).
    rewrite Zplus_mod_idemp_l; f_equal; lia.
  - change (linked (pnext t') (pprev t') (spine (l1 ++ l2))).
    apply (spine_unlink (pnext t) (pprev t) _ _ l1 i d l2); try done; [|apply (pi_linked _ _ _ Hi)].
    rewrite fmap_app; by apply NoDup_app in Hnd as (? & _).
Qed.

Lemma ps_remove_error t live free i : ps_inv t live free -> 0 <= i -> i ∉ live.*1 ->
  muggle_pointer_slot_remove debug t i =
  if debug then None
  else Some (if i <? 2 ^ k then MUGGLE_ERR_MEM_DUPLICATE_FREE else MUGGLE_ERR_BEYOND_RANGE, t).
Proof using Hk.
  intros Hi H0 Hni; unfold muggle_pointer_slot_remove, MUGGLE_ASSERT; rewrite (pi_cap _ _ _ Hi).
  destruct (Z.ltb_spec i (2 ^ k)) as [Hlt|Hge]; [|replace (i >=? 2 ^ k) with true by lia; by destruct debug].
  replace (i >=? 2 ^ k) with false by lia.
  destruct (ps_item _ _ _ i Hi ltac:(lia)) as [x Hx]; rewrite Hx; cbn [mbind option_bind].
  assert (i ∈ free) as Hf by (destruct (proj2 (ps_range _ _ _ i Hi) ltac:(lia)); done).
  pose proof (pi_free _ _ _ Hi i Hf) as Hu; unfold pused in Hu; rewrite Hx in Hu; injection Hu as ->; by destruct debug.
Qed.

Lemma ps_get_live t live free i d : ps_inv t live free -> (i, d) ∈ live ->
  muggle_pointer_slot_get debug t i = Some d.
Proof using Hk.
  intros Hi Hin; assert (0 <= i < 2 ^ k) as Hr
    by (eapply ps_range; [done|]; left; apply list_elem_of_fmap; by exists (i, d)).
  unfold muggle_pointer_slot_get; rewrite (pi_cap _ _ _ Hi); replace (i >=? 2 ^ k) with false by lia.
  destruct (pi_live _ _ _ Hi i d Hin) as [Hu Hd]; unfold pused, pdata in *.
  destruct (get_item t (PNode i)) as [x|]; [|done]; injection Hu as Hu; injection Hd as Hd.
  cbn [mbind option_bind]; by rewrite Hu, Hd.
Qed.

Lemma ps_get_free t live free i : ps_inv t live free -> 0 <= i < 2 ^ k -> i ∉ live.*1 ->
  muggle_pointer_slot_get debug t i = Some NULL.
Proof using Hk.
  intros Hi Hr Hni; unfold muggle_pointer_slot_get; rewrite (pi_cap _ _ _ Hi); replace (i >=? 2 ^ k) with false by lia.
  assert (i ∈ free) as Hf by (destruct (proj2 (ps_range _ _ _ i Hi) Hr); done).
  pose proof (pi_free _ _ _ Hi i Hf) as Hu; unfold pused in Hu.
  destruct (get_item t (PNode i)) as [x|]; [|done]; injection Hu as Hu; cbn [mbind option_bind]; by rewrite Hu.
Qed.
End Invariant.

(** The iteration of the callers: from [iter_begin] along [next] to
    [iter_end], collecting the data. *)
Fixpoint ps_iterate (fuel : nat) (t : muggle_pointer_slot) (iter : ptr) : option (list Z) :=
  if decide (iter = muggle_pointer_slot_iter_end) then Some []
  else match fuel with
  | O => None
  | S fuel =>
      d ← muggle_pointer_slot_iter_data t iter;
      next ← pnext t iter;
      ds ← ps_iterate fuel t next;
      Some (d :: ds)
  end.

Lemma ps_iterate_spec k t l1 l2 free (fuel : nat) : 0 <= k < 32 -> ps_inv k t (l1 ++ l2) free ->
  (length l2 <= fuel)%nat -> ps_iterate fuel t (first_ptr l2) = Some l2.*2.
Proof.
  intros Hk; revert l1 fuel; induction l2 as [|[i d] l2 IH]; intros l1 fuel Hi Hf; cbn [length first_ptr fst] in *.
  { destruct fuel; cbn [ps_iterate]; by rewrite decide_True. }
  destruct fuel as [|fuel]; [lia|]; cbn [ps_iterate]; rewrite decide_False by done; unfold muggle_pointer_slot_iter_data.
  destruct (pi_live _ _ _ _ Hi i d) as [_ Hd]; [set_solver|]; unfold pdata in Hd; rewrite Hd; cbn [mbind option_bind].
  destruct (ps_neighbours k Hk t l1 i d l2 free Hi) as (x & Hx & _ & _ & Hn & _).
  unfold pnext; rewrite Hx; cbn [fmap option_fmap option_map mbind option_bind]; rewrite Hn.
  rewrite (IH (l1 ++ [(i, d)])) by (by rewrite <- app_assoc || lia); done.
Qed.

(** ** Initialisation *)

Definition fresh_item (i : Z) : option muggle_pointer_slot_item := Some (SI PNull PNull i 0 NULL).

Lemma init_body_step A B x y r r' c i : i = Z.of_nat (length A) -> length B = length A ->
  init_body i (PS (Some (A ++ x :: r)) (Some (B ++ y :: r')) c 0 0 zero_item zero_item)
  = Some (PS (Some (A ++ fresh_item i :: r)) (Some (B ++ Some (PNode i) :: r')) c 0 0 zero_item zero_item).
Proof.
  intros Hi HB; unfold init_body; cbn [slots pp_slots mbind option_bind].
  rewrite (wr_mid A) by done; cbn [mbind option_bind]; by rewrite (wr_mid B) by (by rewrite HB).
Qed.

Lemma init_loop (n done : nat) c :
  for_up init_body n (Z.of_nat done)
    (PS (Some (map fresh_item (seqZ 0 (Z.of_nat done)) ++ replicate n None))
        (Some (map (fun i => Some (PNode i)) (seqZ 0 (Z.of_nat done)) ++ replicate n None)) c 0 0 zero_item zero_item)
  = Some (PS (Some (map fresh_item (seqZ 0 (Z.of_nat (done + n)))))
        (Some (map (fun i => Some (PNode i)) (seqZ 0 (Z.of_nat (done + n))))) c 0 0 zero_item zero_item).
Proof.
  revert done; induction n as [|n IH]; intros done; cbn [for_up].
  { by rewrite !app_nil_r, Nat.add_0_r. }
  assert (seqZ 0 (Z.of_nat (S done)) = seqZ 0 (Z.of_nat done) ++ [Z.of_nat done]) as E.
  { rewrite Nat2Z.inj_succ, <- Z.add_1_r, seqZ_app by lia; cbn; done. }
  cbn [replicate]; rewrite init_body_step by (by rewrite ?length_map, ?length_seqZ, ?Nat2Z.id).
  cbn [mbind option_bind].
  replace (Z.of_nat done + 1) with (Z.of_nat (S done)) by lia.
  specialize (IH (S done)); rewrite E, !map_app, <- !app_assoc in IH; cbn [map app] in IH.
  rewrite IH; by replace (S done + n)%nat with (done + S n)%nat by lia.
Qed.

Lemma ps_init_run c : 0 < c ->
  muggle_pointer_slot_init true true c =
  Some (0, PS (Some (map fresh_item (seqZ 0 c))) (Some (map (fun i => Some (PNode i)) (seqZ 0 c)))
    (u32 (muggle_next_pow_of_2 c)) 0 0 (SI PNull PTail 0 0 NULL) (SI PHead PNull 0 0 NULL)).
Proof.
  intros Hc; unfold muggle_pointer_slot_init; replace (c >? 0) with true by lia; cbn [andb negb ps_capacity].
  pose proof (init_loop (Z.to_nat c) 0 (u32 (muggle_next_pow_of_2 c))) as H; change (Z.of_nat 0) with 0 in H.
  change (seqZ 0 0) with (@nil Z) in H; cbn [map app Nat.add] in H; rewrite Z2Nat.id in H by lia.
  unfold uninit; rewrite H; reflexivity.
Qed.

Lemma rdi_map {A} (f : Z -> option A) n i : 0 <= i < n -> rdi (map f (seqZ 0 n)) i = f i.
Proof.
  intros Hi; unfold rdi, rd; rewrite decide_True by lia; change (map f) with (fmap (M := list) f).
  rewrite list_lookup_fmap, lookup_seqZ_lt by lia; cbn; f_equal; lia.
Qed.

Lemma ps_init_inv k t : 0 <= k < 32 -> muggle_pointer_slot_init true true (2 ^ k) = Some (0, t) ->
  ps_inv k t [] (seqZ 0 (2 ^ k)).
Proof.
  intros Hk; pose proof (pow_k k Hk) as (P1 & P2 & _); rewrite ps_init_run by done; intros [= <-].
  rewrite next_pow_of_2_pow by lia; rewrite wrap_small by (unfold in_width; lia).
  split; cbn [ps_capacity alloc_index slots pp_slots free_index]; try done.
  - cbn; rewrite length_map, length_seqZ; done.
  - eexists; split; [done|]; rewrite length_map, length_seqZ; split; [done|]; split.
    + intros j Hj; exists j; split; [done|]; by rewrite rdi_map.
    + intros j f [-> Hf]%lookup_seqZ; cbn; rewrite Z.mod_small, rdi_map by lia; done.
  - intros i Hi; unfold pidx; cbn [get_item slots mbind option_bind]; by rewrite rdi_map.
  - intros i d Hin; set_solver.
  - intros i Hi%elem_of_seqZ; unfold pused; cbn [get_item slots mbind option_bind]; by rewrite rdi_map by lia.
  - rewrite length_seqZ, Z2Nat.id by lia; cbn; rewrite Z.mod_same, Z.mod_0_l by lia; done.
Qed.

(** ** The table as a specification *)

Inductive ps_call := CInsert (d : Z) | CRemove (i : Z) | CGet (i : Z) | CIterate.
Inductive ps_result := RInsert (ret : Z) (idx : option Z) | RRemove (ret : Z) | RGet (d : Z) | RIterate (ds : list Z).

Definition ps_exec (debug : bool) (t : muggle_pointer_slot) (c : ps_call) : option (ps_result * muggle_pointer_slot) :=
  match c with
  | CInsert d => '(ret, idx, t) ← muggle_pointer_slot_insert debug t d; Some (RInsert ret idx, t)
  | CRemove i => '(ret, t) ← muggle_pointer_slot_remove debug t i; Some (RRemove ret, t)
  | CGet i => d ← muggle_pointer_slot_get debug t i; Some (RGet d, t)
  | CIterate =>
      p ← muggle_pointer_slot_iter_begin t;
      ds ← ps_iterate (Z.to_nat (ps_capacity t)) t p; Some (RIterate ds, t)
  end.

(** The entries in the order of their insertion, and the queue of the free
    indices.  A debug build stops at a wrong index. *)
Definition spec_exec (debug : bool) (cap : Z) (s : list (Z * Z) * list Z) (c : ps_call)
  : option (ps_result * (list (Z * Z) * list Z)) :=
  let '(live, free) := s in
  match c with
  | CInsert d =>
      match free with
      | [] => Some (RInsert MUGGLE_ERR_MEM_ALLOC None, s)
      | i :: free => Some (RInsert 0 (Some i), (live ++ [(i, d)], free))
      end
  | CRemove i =>
      if decide (i ∈ live.*1) then Some (RRemove 0, (filter (fun x => x.1 <> i) live, free ++ [i]))
      else if debug then None
      else Some (RRemove (if i <? cap then MUGGLE_ERR_MEM_DUPLICATE_FREE else MUGGLE_ERR_BEYOND_RANGE), s)
  | CGet i =>
      if (i >=? cap) && debug then None
      else Some (RGet (default NULL (list_to_map (M := gmap Z Z) live !! i)), s)
  | CIterate => Some (RIterate live.*2, s)
  end.

Fixpoint run {S} (exec : S -> ps_call -> option (ps_result * S)) (s : S) (cs : list ps_call) : option (list ps_result) :=
  match cs with
  | [] => Some []
  | c :: cs => '(r, s) ← exec s c; rs ← run exec s cs; Some (r :: rs)
  end.

Definition ps_call_ok (c : ps_call) : Prop :=
  match c with CRemove i | CGet i => in_width 32 i | _ => True end.

Lemma filter_other (i : Z) (l : list (Z * Z)) : i ∉ l.*1 -> filter (fun x => x.1 <> i) l = l.
Proof.
  induction l as [|[j d] l IH]; intros Hni; [done|]; cbn [fmap list_fmap fst] in Hni.
  rewrite filter_cons_True, IH; [done|set_solver|cbn; set_solver].
Qed.

Lemma ps_exec_spec k debug t live free c : 0 <= k < 32 -> ps_inv k t live free -> ps_call_ok c ->
  match spec_exec debug (2 ^ k) (live, free) c with
  | Some (r, (live', free')) => exists t', ps_exec debug t c = Some (r, t') /\ ps_inv k t' live' free'
  | None => ps_exec debug t c = None
  end.
Proof.
  intros Hk Hi Hc; destruct c as [d|i|i|]; cbn [spec_exec ps_exec ps_call_ok] in *.
  - destruct free as [|i free].
    + exists t; by rewrite (ps_insert_full k Hk debug t live d Hi).
    + destruct (ps_insert_spec k Hk debug t live i free d Hi) as (t' & -> & Hi'); by exists t'.
  - destruct (decide (i ∈ live.*1)) as [Hin|Hni].
    + pose proof (ps_NoDup _ _ _ _ Hi) as Hnd; destruct (ps_live_split _ _ Hin) as (d & l1 & l2 & ->).
      destruct (ps_remove_spec k Hk debug t l1 i d l2 free Hi) as (t' & -> & Hi'); exists t'; split; [done|].
      apply NoDup_app in Hnd as (Hnd & _); rewrite fmap_app in Hnd; cbn in Hnd.
      apply NoDup_app in Hnd as (_ & H1 & H2); apply NoDup_cons in H2 as [H2 _].
      rewrite filter_app, filter_cons_False, !filter_other; [done|done|intros H; apply (H1 i H); set_solver|naive_solver].
    + destruct Hc as [H0 _]; rewrite (ps_remove_error k Hk debug t live free i) by done.
      destruct debug; [done|by exists t].
  - destruct Hc as [H0 _]; destruct (Z.geb_spec i (2 ^ k)) as [Hge|Hlt]; cbn [andb].
    + assert (muggle_pointer_slot_get debug t i = if debug then None else Some NULL) as ->.
      { unfold muggle_pointer_slot_get, MUGGLE_ASSERT; rewrite (pi_cap _ _ _ _ Hi).
        replace (i >=? 2 ^ k) with true by lia; replace (i <? 2 ^ k) with false by lia; by destruct debug. }
      destruct debug; [done|]; exists t; split; [|done]; cbn.
      rewrite not_elem_of_list_to_map_1; [done|]; intros Hin; pose proof (ps_range k _ _ _ i Hi); naive_solver lia.
    + exists t; split; [|done]; destruct (list_to_map (M := gmap Z Z) live !! i) as [d|] eqn:E; cbn [default].
      * apply elem_of_list_to_map_2 in E; by rewrite (ps_get_live k Hk debug t live free i d Hi E).
      * apply not_elem_of_list_to_map_2 in E; by rewrite (ps_get_free k Hk debug t live free i Hi ltac:(lia) E).
  - exists t; split; [|done]; pose proof (ps_around k Hk t [] live free Hi) as (Hb & _).
    unfold muggle_pointer_slot_iter_begin; change PHead with (last_ptr []); rewrite Hb; cbn [mbind option_bind].
    rewrite (ps_iterate_spec k t [] live free) by (done || rewrite (pi_cap _ _ _ _ Hi); apply (ps_length k Hk t live free Hi)).
    done.
Qed.

Lemma ps_run_spec k debug t live free cs : 0 <= k < 32 -> ps_inv k t live free -> Forall ps_call_ok cs ->
  run (ps_exec debug) t cs = run (spec_exec debug (2 ^ k)) (live, free) cs.
Proof.
  intros Hk Hi Hcs; revert t live free Hi; induction Hcs as [|c cs Hc _ IH]; intros t live free Hi; cbn [run]; [done|].
  pose proof (ps_exec_spec k debug t live free c Hk Hi Hc) as H.
  destruct (spec_exec debug (2 ^ k) (live, free) c) as [[r [live' free']]|].
  - destruct H as (t' & -> & Hi'); cbn [mbind option_bind]; by rewrite (IH t' live' free' Hi').
  - by rewrite H.
Qed.

(** ** Properties *)

(** C28: the pointer slots refine a table of entries.  With a capacity that is
    a power of two, any sequence of calls from [init] returns what the same
    calls return on the specification: insert gives the index that was freed
    first (or fails exactly when all slots are in use), remove of an index
    that is not in use is an error (and stops a debug build), get finds the
    data of an index, and the iteration visits the data in the order of
    insertion.  No call leaves the arrays, no assertion fails for a correct
    caller, and the 32-bit cursors may wrap. *)
Theorem pointer_slot_refines_table (debug : bool) (k : Z) (cs : list ps_call)
    (Hk : 0 <= k < 32) (Hcs : Forall ps_call_ok cs) :
  exists t, muggle_pointer_slot_init true true (2 ^ k) = Some (0, t) /\
    run (ps_exec debug) t cs = run (spec_exec debug (2 ^ k)) ([], seqZ 0 (2 ^ k)) cs.
Proof.
  destruct (muggle_pointer_slot_init true true (2 ^ k)) as [[r t]|] eqn:E;
    rewrite (ps_init_run (2 ^ k)) in E by lia; [|done].
  injection E as <- <-; eexists; split; [done|]; apply ps_run_spec; [done| |done].
  apply ps_init_inv; [done|]; apply ps_init_run; lia.
Qed.

Lemma pointer_slot_refines_table_witness :
  exists t, muggle_pointer_slot_init true true 2 = Some (0, t) /\
    run (ps_exec true) t [CInsert 7; CInsert 8; CInsert 9; CRemove 0; CInsert 9; CIterate; CGet 0]
    = Some [RInsert 0 (Some 0); RInsert 0 (Some 1); RInsert 3 None; RRemove 0; RInsert 0 (Some 0);
            RIterate [8; 9]; RGet 9].
Proof.
  apply (pointer_slot_refines_table true 1 [CInsert 7; CInsert 8; CInsert 9; CRemove 0; CInsert 9; CIterate; CGet 0]).
  - lia.
  - repeat (constructor; [first [exact I | split; lia]|]); constructor.
Defined.

(** A capacity that is not a power of two is rounded up, the arrays are not:
    the index [c], which the table takes for valid, is outside of them. *)
Theorem pointer_slot_capacity_defect (c : Z) (Hc : 0 < c < 2 ^ 31) (Hp : MUGGLE_IS_POW_OF_2 c = false) :
  exists t, muggle_pointer_slot_init true true c = Some (0, t) /\ c < ps_capacity t /\
    forall debug, muggle_pointer_slot_get debug t c = None.
Proof.
  eexists; split; [apply ps_init_run; lia|]; cbn [ps_capacity].
  rewrite next_pow_of_2_non_pow by (done || lia).
  pose proof (pow2_log2_bounds c ltac:(lia)) as Hl.
  assert (0 <= Z.log2 c < 31) as Hlog by (split; [apply Z.log2_nonneg|apply Z.log2_lt_pow2; lia]).
  assert (2 ^ (Z.log2 c + 1) < 2 ^ 32) as Hlt by (apply Z.pow_lt_mono_r; lia).
  rewrite wrap_small by (unfold in_width; lia); split; [lia|]; intros debug.
  unfold muggle_pointer_slot_get; cbn [ps_capacity get_item slots mbind option_bind].
  replace (c >=? 2 ^ (Z.log2 c + 1)) with false by lia.
  unfold rdi, rd; rewrite decide_True by lia.
  by rewrite lookup_ge_None_2 by (rewrite length_map, length_seqZ; lia).
Qed.
