(* ===== verification/SowrPool.v ===== *)
(** * The single-writer single-reader pool: [memory/sowr_memory_pool.c]

    One thread allocates, one frees, and blocks are freed in the order of
    their allocation: freeing a block frees all that were allocated before
    it.  [alloc_idx] counts the allocations modulo 2^32, [free_idx] is one
    more than the number of the block freed last.  Pointers into the memory
    of the blocks are offsets from [blocks].  The only shared access of an
    allocation is one relaxed load of [free_idx], so the value it gives is an
    argument: in a run it is any value that was stored, not older than the
    one loaded before. *)
From S2P Require Import Prelude Utils.

Record muggle_sowr_memory_pool := SP {
  sp_blocks : option Z;         (** the bytes behind [blocks], [None] for NULL *)
  sp_heads : gmap Z Z;          (** [block_idx] of the block heads, by offset *)
  sp_capacity : Z; sp_block_size : Z; sp_alloc_idx : Z; cached_free_pos : Z; sp_free_idx : Z
}.

(** [sizeof(muggle_sowr_block_head_t)]: a pointer and two 32-bit words. *)
Definition sizeof_block_head : Z := 16.
Section Operations.
Implicit Types p : muggle_sowr_memory_pool.

(** One turn of the loop of [init]: the head of block [i] is written. *)
Definition init_block (bytes : option Z) (block_size i : Z) (heads : gmap Z Z) : option (gmap Z Z) :=
  bytes ← bytes;
  let off := u32 (block_size * i) in
  if off + sizeof_block_head <=? bytes then Some (<[off := i]> heads) else None.

(** [mem] tells whether the allocation succeeds; the code does not check. *)
Definition muggle_sowr_memory_pool_init (mem : bool) (capacity data_size : Z)
  : option (Z * muggle_sowr_memory_pool) :=
  let zero := SP None ∅ 0 0 0 0 0 in
  let capacity := if capacity <=? 0 then 8 else capacity in
  let capacity := u32 (muggle_next_pow_of_2 capacity) in
  if capacity <=? 0 then Some (MUGGLE_ERR_INVALID_PARAM, zero)
  else
    let block_size := MUGGLE_ALIGN_TRUE_SHARING (u32 (sizeof_block_head + data_size)) in
    if block_size <=? 0 then Some (MUGGLE_ERR_INVALID_PARAM, zero)
    else
      let blocks := if mem then Some (u32 (block_size * capacity)) else None in
      heads ← for_up (init_block blocks block_size) (Z.to_nat capacity) 0 ∅;
      Some (MUGGLE_OK, SP blocks heads capacity block_size 0 (u32 (capacity - 1)) 0).

Definition muggle_sowr_memory_pool_destroy p : muggle_sowr_memory_pool :=
  SP None ∅ (sp_capacity p) (sp_block_size p) (sp_alloc_idx p) (cached_free_pos p) (sp_free_idx p).

(** The block at the position: the data pointer, behind the head. *)
Definition take_pos p (alloc_pos : Z) : Z * muggle_sowr_memory_pool :=
  (u32 (sp_block_size p * alloc_pos) + sizeof_block_head,
   SP (sp_blocks p) (sp_heads p) (sp_capacity p) (sp_block_size p) (u32 (sp_alloc_idx p + 1))
     (cached_free_pos p) (sp_free_idx p)).

(** [loaded] is what the atomic load gives, when the code comes to it.  The
    result is [None] for NULL; [true] when there was a load. *)
Definition muggle_sowr_memory_pool_alloc p (loaded : Z) : option Z * bool * muggle_sowr_memory_pool :=
  let alloc_pos := MUGGLE_IDX_IN_POW_OF_2_RING (sp_alloc_idx p) (sp_capacity p) in
  if negb (alloc_pos =? cached_free_pos p) then
    let '(d, p) := take_pos p alloc_pos in (Some d, false, p)
  else
    let c := MUGGLE_IDX_IN_POW_OF_2_RING (u32 (loaded - 1)) (sp_capacity p) in
    let p := SP (sp_blocks p) (sp_heads p) (sp_capacity p) (sp_block_size p) (sp_alloc_idx p) c (sp_free_idx p) in
    if negb (alloc_pos =? cached_free_pos p) then
      let '(d, p) := take_pos p alloc_pos in (Some d, true, p)
    else (None, true, p).

Definition muggle_sowr_memory_pool_free p (data : Z) : option muggle_sowr_memory_pool :=
  idx ← sp_heads p !! (data - sizeof_block_head);
  Some (SP (sp_blocks p) (sp_heads p) (sp_capacity p) (sp_block_size p) (sp_alloc_idx p)
    (cached_free_pos p) (u32 (idx + 1))).

End Operations.

(** ** Runs of the two threads *)





(** ** The invariant *)

Section Invariant.
Variables k bs : Z.
Hypothesis Hk : 0 <= k <= 31.
Hypothesis Hbs : sizeof_block_head <= bs.
Hypothesis Hfit : bs * 2 ^ k < 2 ^ 32.


















End Invariant.

(** ** Initialisation *)

(** The capacity [init] asks for, and the bytes of a block. *)
Definition sowr_capacity (capacity : Z) : Z := muggle_next_pow_of_2 (if capacity <=? 0 then 8 else capacity).
Definition sowr_block_size (data_size : Z) : Z := MUGGLE_ALIGN_TRUE_SHARING (sizeof_block_head + data_size).




(** ** Properties *)


Section Facts.
Variables k bs : Z.
Hypothesis Hk : 0 <= k <= 31.
Hypothesis Hbs : sizeof_block_head <= bs.
Hypothesis Hfit : bs * 2 ^ k < 2 ^ 32.





End Facts.



(** The number of bytes is computed in 32 bits: a pool of 2^16 blocks of 2^16
    bytes gets 12 MB, and writing the heads leaves it.  The result of the
    allocation is not checked either: without memory the heads are written
    behind a null pointer. *)
Theorem sowr_init_defect :
  muggle_sowr_memory_pool_init true (2 ^ 16) (2 ^ 16) = None /\
  sowr_block_size (2 ^ 16) * sowr_capacity (2 ^ 16) > 2 ^ 32 /\
  u32 (sowr_block_size (2 ^ 16) * sowr_capacity (2 ^ 16)) < 2 ^ 24 /\
  muggle_sowr_memory_pool_init false 8 100 = None.
Proof. vm_compute; done. Qed.

(** A run: three allocations, the second is freed and with it the first, and a
    fourth one takes the place that has become free. *)
Lemma sowr_pool_example :
  ('(_, p) ← muggle_sowr_memory_pool_init true 4 100;
   let '(d0, _, p) := muggle_sowr_memory_pool_alloc p 0 in
   let '(d1, _, p) := muggle_sowr_memory_pool_alloc p 0 in
   let '(d2, _, p) := muggle_sowr_memory_pool_alloc p 0 in
   let '(d3, _, p) := muggle_sowr_memory_pool_alloc p 0 in
   p ← muggle_sowr_memory_pool_free p 272;
   Some [d0; d1; d2; d3; (muggle_sowr_memory_pool_alloc p (sp_free_idx p)).1.1])
  = Some [Some 16; Some 272; Some 528; None; Some 784].
Proof. vm_compute; done. Qed.
