(* ===== verification/RingPool.v ===== *)
(** * The ring memory pool: [memory/ring_memory_pool.c]

    A ring of blocks, each with a word [in_use] in its head.  An allocation
    turns the cursor until it finds a block that is not in use, and waits for
    one when there is none; freeing a block clears its word.  Any thread may
    free at any time; the allocations of [muggle_ring_memory_pool_alloc] must
    not overlap, those of [muggle_ring_memory_pool_threadsafe_alloc] may, since
    they hold the spin lock.  An allocation is a sequence of steps, so that the
    other threads come between its accesses of shared memory.  Pointers into
    the memory of the blocks are offsets from [blocks]. *)
From S2P Require Import Prelude Utils.

Record muggle_ring_memory_pool := RP {
  rp_blocks : option Z;         (** the bytes behind [blocks], [None] for NULL *)
  rp_heads : gmap Z Z;          (** [in_use] of the block heads, by offset *)
  rp_write_spinlock : bool; rp_capacity : Z; rp_block_size : Z; rp_alloc_idx : Z
}.

(** [sizeof(muggle_ring_mpool_block_head_t)]: two cache lines, a pointer and two
    32-bit words. *)
Definition sizeof_ring_head : Z := 144.

Section Operations.
Implicit Types p : muggle_ring_memory_pool.

(** One turn of the loop of [init]: the block is cleared and its head
    written. *)
Definition init_ring_block (bytes block_size i : Z) (heads : gmap Z Z) : option (gmap Z Z) :=
  let off := u32 (block_size * i) in
  if off + Z.max block_size sizeof_ring_head <=? bytes then Some (<[off := 0]> heads) else None.

(** [mem] tells whether [malloc] succeeds. *)
Definition muggle_ring_memory_pool_init (mem : bool) (capacity data_size : Z)
  : option (Z * muggle_ring_memory_pool) :=
  let zero := RP None ∅ false 0 0 0 in
  let capacity := if capacity <? 2 then 2 else capacity in
  let capacity := u32 (muggle_next_pow_of_2 capacity) in
  if capacity <? 2 then Some (MUGGLE_ERR_INVALID_PARAM, zero)
  else if data_size =? 0 then Some (MUGGLE_ERR_INVALID_PARAM, zero)
  else
    let block_size := u32 (muggle_next_pow_of_2 (data_size + sizeof_ring_head)) in
    if mem then
      let bytes := u32 (block_size * capacity) in
      heads ← for_up (init_ring_block bytes block_size) (Z.to_nat capacity) 0 ∅;
      Some (MUGGLE_OK, RP (Some bytes) heads false capacity block_size 0)
    else Some (MUGGLE_ERR_MEM_ALLOC, RP None ∅ false capacity block_size 0).

(** The memory is given back, the struct stays as it is. *)
Definition muggle_ring_memory_pool_destroy p : muggle_ring_memory_pool :=
  RP None ∅ (rp_write_spinlock p) (rp_capacity p) (rp_block_size p) (rp_alloc_idx p).

Definition rp_set_heads p h := RP (rp_blocks p) h (rp_write_spinlock p) (rp_capacity p) (rp_block_size p) (rp_alloc_idx p).
Definition rp_set_lock p b := RP (rp_blocks p) (rp_heads p) b (rp_capacity p) (rp_block_size p) (rp_alloc_idx p).
Definition rp_set_idx p i := RP (rp_blocks p) (rp_heads p) (rp_write_spinlock p) (rp_capacity p) (rp_block_size p) i.

(** Where a thread is inside an allocation; the flag tells that it is the
    thread-safe one, which holds the lock. *)
Inductive ring_pc :=
| TLock | AEntry (l : bool) | ANext (l : bool) | ALoad (l : bool) (off : Z) | ASet (l : bool) (off : Z)
| TUnlock (d : Z) | ADone (d : Z).

Definition muggle_ring_memory_pool_alloc : ring_pc := AEntry false.
Definition muggle_ring_memory_pool_threadsafe_alloc : ring_pc := TLock.

Definition ring_alloc_step p (c : ring_pc) : option (muggle_ring_memory_pool * ring_pc) :=
  match c with
  | TLock => Some (if rp_write_spinlock p then (p, TLock) else (rp_set_lock p true, AEntry true))
  | AEntry l => if rp_alloc_idx p <? rp_capacity p then Some (p, ANext l) else None
  | ANext l =>
      let off := u32 (rp_block_size p * rp_alloc_idx p) in
      Some (rp_set_idx p (MUGGLE_IDX_IN_POW_OF_2_RING (u32 (rp_alloc_idx p + 1)) (rp_capacity p)), ALoad l off)
  | ALoad l off => u ← rp_heads p !! off; Some (p, if u =? 0 then ASet l off else ANext l)
  | ASet l off =>
      _ ← rp_heads p !! off;
      let d := off + sizeof_ring_head in
      Some (rp_set_heads p (<[off := 1]> (rp_heads p)), if l then TUnlock d else ADone d)
  | TUnlock d => Some (rp_set_lock p false, ADone d)
  | ADone d => None
  end.

Definition muggle_ring_memory_pool_free p (data : Z) : option muggle_ring_memory_pool :=
  _ ← rp_heads p !! (data - sizeof_ring_head);
  Some (rp_set_heads p (<[data - sizeof_ring_head := 0]> (rp_heads p))).
End Operations.

(** ** Threads *)

(** The pool, the threads inside an allocation, and the data that were returned
    and not freed since. *)
Record ring_state := RS { rs_pool : muggle_ring_memory_pool; rs_threads : gmap nat ring_pc; rs_owned : list Z }.

(** Inside the allocation that is not thread-safe; with the lock held. *)
Definition plain (c : ring_pc) : bool :=
  match c with AEntry l | ANext l | ALoad l _ | ASet l _ => negb l | _ => false end.
Definition locked (c : ring_pc) : bool :=
  match c with AEntry l | ANext l | ALoad l _ | ASet l _ => l | TUnlock _ => true | _ => false end.

(** The caller of the allocation that is not thread-safe guarantees that no
    other allocation is under way. *)
Inductive ring_step : ring_state -> ring_state -> Prop :=
| ring_call p ts own t :
    ts = ∅ -> ring_step (RS p ts own) (RS p (<[t := muggle_ring_memory_pool_alloc]> ts) own)
| ring_call_ts p ts own t :
    ts !! t = None -> map_Forall (fun _ c => plain c = false) ts ->
    ring_step (RS p ts own) (RS p (<[t := muggle_ring_memory_pool_threadsafe_alloc]> ts) own)
| ring_code p ts own t c p' c' :
    ts !! t = Some c -> ring_alloc_step p c = Some (p', c') ->
    ring_step (RS p ts own) (match c' with
      | ADone d => RS p' (delete t ts) (d :: own)
      | _ => RS p' (<[t := c']> ts) own end)
| ring_free p ts l1 d l2 p' :
    muggle_ring_memory_pool_free p d = Some p' ->
    ring_step (RS p ts (l1 ++ d :: l2)) (RS p' ts (l1 ++ l2)).

Inductive ring_reach (s : ring_state) : ring_state -> Prop :=
| ring_here : ring_reach s s
| ring_next s1 s2 : ring_reach s s1 -> ring_step s1 s2 -> ring_reach s s2.

(** One allocation alone, between the frees of other threads: before each of
    its steps, the data of the next list are freed. *)
Fixpoint ring_run (frees : list (list Z)) (p : muggle_ring_memory_pool) (c : ring_pc)
  : option (muggle_ring_memory_pool * ring_pc) :=
  match frees with
  | [] => Some (p, c)
  | ds :: frees =>
      p ← foldl (fun o d => p ← o; muggle_ring_memory_pool_free p d) (Some p) ds;
      match c with
      | ADone _ => ring_run frees p c
      | _ => '(p, c) ← ring_alloc_step p c; ring_run frees p c
      end
  end.

(** ** The invariant *)

Section Invariant.
Variables k bs : Z.
Hypothesis Hk : 1 <= k <= 31.
Hypothesis Hbs : sizeof_ring_head <= bs.
Hypothesis Hfit : bs * 2 ^ k < 2 ^ 32.

Definition in_ring (i : Z) : Prop := 0 <= i < 2 ^ k.
Definition data_at (i : Z) : Z := bs * i + sizeof_ring_head.

Record ring_shape (p : muggle_ring_memory_pool) : Prop := {
  sh_cap : rp_capacity p = 2 ^ k;
  sh_bs : rp_block_size p = bs;
  sh_mem : rp_blocks p = Some (bs * 2 ^ k);
  sh_idx : in_ring (rp_alloc_idx p);
  sh_heads : forall i, in_ring i -> rp_heads p !! (bs * i) = Some 0 \/ rp_heads p !! (bs * i) = Some 1
}.

Definition in_use p i : Prop := rp_heads p !! (bs * i) = Some 1.

(** What holds at each point of an allocation. *)
Definition pc_ok p (own : list Z) (c : ring_pc) : Prop :=
  match c with
  | ALoad _ off => exists i, in_ring i /\ off = bs * i
  | ASet _ off => exists i, in_ring i /\ off = bs * i /\ rp_heads p !! off = Some 0
  | TUnlock d => exists i, in_ring i /\ d = data_at i /\ in_use p i /\ d ∉ own
  | ADone _ => False
  | _ => True
  end.

Record ring_inv (s : ring_state) : Prop := {
  ri_shape : ring_shape (rs_pool s);
  ri_pc : map_Forall (fun _ => pc_ok (rs_pool s) (rs_owned s)) (rs_threads s);
  ri_lock : forall t c, rs_threads s !! t = Some c -> locked c = true -> rp_write_spinlock (rs_pool s) = true;
  ri_excl : forall t1 t2 c1 c2, rs_threads s !! t1 = Some c1 -> rs_threads s !! t2 = Some c2 ->
    locked c1 = true -> locked c2 = true -> t1 = t2;
  ri_plain : forall t1 t2 c1 c2, rs_threads s !! t1 = Some c1 -> rs_threads s !! t2 = Some c2 ->
    plain c1 = true -> t1 = t2;
  ri_nodup : NoDup (rs_owned s);
  ri_owned : forall d, d ∈ rs_owned s -> exists i, in_ring i /\ d = data_at i /\ in_use (rs_pool s) i;
  ri_conv : forall i, in_ring i -> in_use (rs_pool s) i ->
    data_at i ∈ rs_owned s \/ exists t, rs_threads s !! t = Some (TUnlock (data_at i))
}.

Lemma data_at_inj i j : data_at i = data_at j -> i = j.
Proof. unfold data_at, sizeof_ring_head in *; nia. Qed.

Lemma pow_k_range : 2 <= 2 ^ k <= 2 ^ 31.
Proof. split; [change 2 with (2 ^ 1) at 1|]; apply Z.pow_le_mono_r; lia. Qed.

Lemma off_small i : in_ring i -> u32 (bs * i) = bs * i.
Proof. intros Hi; apply wrap_small; unfold in_ring, in_width, sizeof_ring_head in *; nia. Qed.

Lemma shape_set_heads p i v : ring_shape p -> in_ring i -> v = 0 \/ v = 1 ->
  ring_shape (rp_set_heads p (<[bs * i := v]> (rp_heads p))).
Proof.
  intros [H1 H2 H3 H4 H5] Hi Hv; split; try done; simpl; intros j Hj.
  destruct (decide (i = j)) as [->|]; [rewrite lookup_insert_eq; destruct Hv; subst; auto|].
  rewrite lookup_insert_ne by (unfold sizeof_ring_head in *; nia); auto.
Qed.

Lemma in_use_set p i v j : in_use (rp_set_heads p (<[bs * i := v]> (rp_heads p))) j <->
  (i = j /\ v = 1) \/ (i <> j /\ in_use p j).
Proof.
  unfold in_use; simpl; destruct (decide (i = j)) as [->|].
  - rewrite lookup_insert_eq; split; [intros [= ->]; auto|]; intros [[_ ->]|[? _]]; done.
  - rewrite lookup_insert_ne by (unfold sizeof_ring_head in *; nia); tauto.
Qed.

(** An access to a block that exists does not fault. *)
Lemma ring_step_total p own c : ring_shape p -> pc_ok p own c -> is_Some (ring_alloc_step p c).
Proof.
  intros Hs Hc; destruct c as [|l|l|l off|l off|d|d]; simpl; try (eexists; reflexivity).
  - rewrite (sh_cap _ Hs), (proj2 (Z.ltb_lt _ _)); [by eexists|]; destruct (sh_idx _ Hs); lia.
  - destruct Hc as (i & Hi & ->); destruct (sh_heads _ Hs i Hi) as [-> | ->]; by eexists.
  - destruct Hc as (i & Hi & -> & ->); by eexists.
  - done.
Qed.

Lemma ring_free_total p i : ring_shape p -> in_ring i ->
  muggle_ring_memory_pool_free p (data_at i) = Some (rp_set_heads p (<[bs * i := 0]> (rp_heads p))).
Proof.
  intros Hs Hi; unfold muggle_ring_memory_pool_free, data_at.
  replace (bs * i + sizeof_ring_head - sizeof_ring_head) with (bs * i) by lia.
  by destruct (sh_heads _ Hs i Hi) as [-> | ->].
Qed.

(** A free keeps what every allocation relies on. *)
Lemma pc_ok_free p own own' i c :
  in_ring i -> ring_shape p -> (forall d, d ∈ own' -> d ∈ own) -> data_at i ∈ own ->
  pc_ok p own c -> pc_ok (rp_set_heads p (<[bs * i := 0]> (rp_heads p))) own' c.
Proof.
  intros Hi Hs Hsub Hd; destruct c as [|l|l|l off|l off|d|d]; simpl; try done.
  - intros (j & Hj & -> & E); exists j; split; [done|]; split; [done|].
    destruct (decide (i = j)) as [->|]; [apply lookup_insert_eq|].
    rewrite lookup_insert_ne by (unfold sizeof_ring_head in *; nia); done.
  - intros (j & Hj & -> & Hu & Hn); exists j; split; [done|]; split; [done|]; split; [|by intros ?%Hsub].
    apply in_use_set; right; split; [|done]; intros ->; done.
Qed.

Lemma ring_free_inv p ts l1 d l2 p' :
  ring_inv (RS p ts (l1 ++ d :: l2)) -> muggle_ring_memory_pool_free p d = Some p' ->
  ring_inv (RS p' ts (l1 ++ l2)).
Proof.
  intros [Hs Hpc Hl He Hp Hnd Hown Hconv] E; simpl in *.
  destruct (Hown d) as (i & Hi & -> & Hu); [set_solver|].
  rewrite ring_free_total in E by done; simplify_eq.
  rewrite <- Permutation_middle, NoDup_cons in Hnd; destruct Hnd as [Hni Hnd].
  split; simpl; try done.
  - apply shape_set_heads; auto.
  - intros t c Ht; apply (pc_ok_free p (l1 ++ data_at i :: l2)); [done|done| |set_solver|by eapply Hpc].
    intros e; rewrite !elem_of_app, elem_of_cons; tauto.
  - intros e He2; destruct (Hown e) as (j & Hj & -> & Hu2); [set_solver|].
    exists j; split; [done|]; split; [done|]; apply in_use_set; right; split; [|done]; intros ->; done.
  - intros j Hj Hu2%in_use_set; destruct Hu2 as [[_ ?]|[Hne Hu2]]; [done|].
    destruct (Hconv j Hj Hu2) as [Hin|]; [left|by right].
    rewrite elem_of_app in *; destruct Hin as [|[E|]%elem_of_cons]; [by left| |by right].
    by apply data_at_inj in E.
Qed.

(** A thread moves to a point that needs no more of the lock than before. *)
Lemma move_inv p p' ts own t c c' :
  ring_inv (RS p ts own) -> ts !! t = Some c -> ring_shape p' -> rp_heads p' = rp_heads p ->
  rp_write_spinlock p' = rp_write_spinlock p -> pc_ok p' own c' ->
  (locked c' = true -> locked c = true) -> (plain c' = true -> plain c = true) ->
  (forall d, c <> TUnlock d) ->
  ring_inv (RS p' (<[t := c']> ts) own).
Proof.
  intros [Hs Hpc Hl He Hp Hnd Hown Hconv] Ht Hs' Eh Esp Hok Hlk Hpl Hnu; simpl in *.
  assert (forall i, in_use p' i <-> in_use p i) as Eu by (intros; unfold in_use; by rewrite Eh).
  split; simpl; try done.
  - intros t2 c2 H2; upd; [done|]; specialize (Hpc t2 c2 H2); destruct c2; simpl in *; rewrite ?Eh; try done.
    by setoid_rewrite Eu.
  - intros t2 c2 H2 W; rewrite Esp; upd; eauto.
  - intros t1 t2 c1 c2 H1 H2 W1 W2; upd; eauto.
  - intros t1 t2 c1 c2 H1 H2 W1; upd; eauto.
  - intros d Hd; destruct (Hown d Hd) as (i & Hi & -> & Hu); exists i; by rewrite Eu.
  - intros i Hi Hu%Eu; destruct (Hconv i Hi Hu) as [|(t2 & H2)]; [by left|right; exists t2].
    rewrite lookup_insert_ne; [done|]; intros <-; rewrite Ht in H2; simplify_eq; by eapply Hnu.
Qed.

(** The block is marked: it is in flight, or returned. *)
Lemma others_not_in_flight p ts own t c i :
  ring_inv (RS p ts own) -> ts !! t = Some c -> rp_heads p !! (bs * i) = Some 0 ->
  (forall t2, ts !! t2 <> Some (TUnlock (data_at i))) /\ data_at i ∉ own.
Proof.
  intros [Hs Hpc Hl He Hp Hnd Hown Hconv] Ht Eh; simpl in *; split.
  - intros t2 H2; destruct (Hpc t2 _ H2) as (j & _ & ->%data_at_inj & Hu & _); unfold in_use in Hu; congruence.
  - intros Hin; destruct (Hown _ Hin) as (j & _ & ->%data_at_inj & Hu); unfold in_use in Hu; congruence.
Qed.

Lemma set_inv p ts own t l i :
  ring_inv (RS p ts own) -> ts !! t = Some (ASet l (bs * i)) -> in_ring i -> rp_heads p !! (bs * i) = Some 0 ->
  let p' := rp_set_heads p (<[bs * i := 1]> (rp_heads p)) in
  ring_inv (if l then RS p' (<[t := TUnlock (data_at i)]> ts) own else RS p' (delete t ts) (data_at i :: own)).
Proof.
  intros HI Ht Hi Eh p'; destruct (others_not_in_flight _ _ _ _ _ _ HI Ht Eh) as [Hfl Hni].
  destruct HI as [Hs Hpc Hl He Hp Hnd Hown Hconv]; simpl in *.
  assert (ring_shape p') as Hs' by (apply shape_set_heads; auto).
  assert (in_use p' i) as Hu by (apply in_use_set; auto).
  assert (forall j, in_use p j -> in_use p' j) as Hmono.
  { intros j Hj; apply in_use_set; right; split; [|done]; intros <-; unfold in_use in Hj; congruence. }
  assert (forall t2 c2 own2, t2 <> t -> ts !! t2 = Some c2 -> (forall d, c2 = TUnlock d -> d ∉ own2) -> pc_ok p' own2 c2) as Hoth.
  { intros t2 c2 own2 Hne H2 Hno; pose proof (Hpc t2 c2 H2) as H; destruct c2 as [|l2|l2|l2 o2|l2 o2|d2|d2]; simpl in *; try done.
    - exfalso; destruct l; [destruct l2|]; [by apply Hne, (He t2 t _ _ H2 Ht)|by apply Hne, (Hp t2 t _ _ H2 Ht)|].
      by apply Hne; symmetry; apply (Hp t t2 _ _ Ht H2).
    - destruct H as (j & Hj & -> & Hju & _); eauto 10. }
  destruct l; split; simpl; try done.
  - intros t2 c2 H2; upd; [simpl; eauto 10|]; apply (Hoth t2); [done|done|]; intros d ->.
    by destruct (Hpc t2 _ H2) as (? & ? & ? & ? & ?).
  - intros t2 c2 H2 W; upd; eauto.
  - intros t1 t2 c1 c2 H1 H2 W1 W2; upd; eauto.
  - intros t1 t2 c1 c2 H1 H2 W1; upd; try done; eauto.
  - intros d Hd; destruct (Hown d Hd) as (j & Hj & -> & Hju); eauto.
  - intros j Hj Hju%in_use_set; destruct Hju as [[<- _]|[Hne Hju]].
    + right; exists t; apply lookup_insert_eq.
    + destruct (Hconv j Hj Hju) as [|(t2 & H2)]; [by left|right; exists t2].
      rewrite lookup_insert_ne; [done|]; intros <-; congruence.
  - intros t2 c2 [Hne H2]%lookup_delete_Some; by destruct Hne; apply (Hp t t2 _ _ Ht H2).
  - intros t2 c2 [Hne H2]%lookup_delete_Some; by destruct Hne; apply (Hp t t2 _ _ Ht H2).
  - intros t1 t2 c1 c2 [Hne H2]%lookup_delete_Some; by destruct Hne; apply (Hp t t1 _ _ Ht H2).
  - intros t1 t2 c1 c2 [Hne H2]%lookup_delete_Some; by destruct Hne; apply (Hp t t1 _ _ Ht H2).
  - by constructor.
  - intros d [->|Hd]%elem_of_cons; [eauto|]; destruct (Hown d Hd) as (j & Hj & -> & Hju); eauto.
  - intros j Hj Hju%in_use_set; left; destruct Hju as [[<- _]|[Hne Hju]]; [by left|].
    destruct (Hconv j Hj Hju) as [|(t2 & H2)]; [by right|].
    assert (t = t2) as <- by (by apply (Hp t t2 _ _ Ht H2)); congruence.
Qed.

Lemma unlock_inv p ts own t d :
  ring_inv (RS p ts own) -> ts !! t = Some (TUnlock d) ->
  ring_inv (RS (rp_set_lock p false) (delete t ts) (d :: own)).
Proof.
  intros [Hs Hpc Hl He Hp Hnd Hown Hconv] Ht; simpl in *.
  destruct (Hpc t _ Ht) as (i & Hi & -> & Hu & Hni).
  assert (forall t2 c2, t2 <> t -> ts !! t2 = Some c2 -> locked c2 = false) as Hno.
  { intros t2 c2 Hne H2; destruct (locked c2) eqn:E; [|done]; by destruct Hne; apply (He t2 t _ _ H2 Ht). }
  split; simpl; try done; try solve [destruct Hs; split; done].
  - intros t2 c2 [Hne H2]%lookup_delete_Some; pose proof (Hpc t2 c2 H2) as H.
    assert (locked c2 = false) as Hlk by (by apply (Hno t2)); by destruct c2.
  - intros t2 c2 [Hne H2]%lookup_delete_Some W; by rewrite (Hno t2 c2) in W.
  - intros t1 t2 c1 c2 [N1 H1]%lookup_delete_Some [N2 H2]%lookup_delete_Some; eauto.
  - intros t1 t2 c1 c2 [N1 H1]%lookup_delete_Some [N2 H2]%lookup_delete_Some; eauto.
  - by constructor.
  - intros e [->|Hd]%elem_of_cons; [eauto|]; destruct (Hown e Hd) as (j & Hj & -> & Hju); eauto.
  - intros j Hj Hju; left; destruct (Hconv j Hj Hju) as [|(t2 & H2)]; [by right|].
    assert (t2 = t) as -> by (by apply (He t2 t _ _ H2 Ht)); rewrite Ht in H2; injection H2 as ->; by left.
Qed.

(** The thread [t] leaves an allocation, or enters one. *)
Lemma ring_code_inv p ts own t c p' c' :
  ring_inv (RS p ts own) -> ts !! t = Some c -> ring_alloc_step p c = Some (p', c') ->
  ring_inv (match c' with ADone d => RS p' (delete t ts) (d :: own) | _ => RS p' (<[t := c']> ts) own end).
Proof.
  intros HI Ht E; pose proof HI as [Hs Hpc Hl He Hp Hnd Hown Hconv]; simpl in *.
  pose proof (Hpc t c Ht) as Hc; destruct c as [|l|l|l off|l off|d|d]; simpl in E, Hc.
  - destruct (rp_write_spinlock p) eqn:El; simplify_eq.
    + eapply move_inv; done.
    + assert (forall t2 c2, ts !! t2 = Some c2 -> locked c2 = false /\ plain c2 = false) as Hno.
      { intros t2 c2 H2; destruct (locked c2) eqn:E2; [specialize (Hl t2 c2 H2 E2); congruence|].
        split; [done|]; destruct (plain c2) eqn:E3; [|done].
        rewrite (Hp t2 t c2 TLock H2 Ht E3) in H2; simplify_eq. }
      split; simpl; try done; try solve [destruct Hs; split; done].
      * intros t2 c2 H2; upd; [done|]; by apply (Hpc t2 c2).
      * intros t1 t2 c1 c2 H1 H2 W1 W2; upd; [done| | |eauto].
        -- by rewrite (proj1 (Hno t1 c1 ltac:(done))) in W1.
        -- by rewrite (proj1 (Hno t2 c2 ltac:(done))) in W2.
      * intros t1 t2 c1 c2 H1 H2 W1; upd; [done| |done|eauto].
        by rewrite (proj2 (Hno t1 c1 ltac:(done))) in W1.
      * intros i Hi Hu; destruct (Hconv i Hi Hu) as [|(t2 & H2)]; [by left|].
        by destruct (Hno t2 _ H2).
  - destruct (rp_alloc_idx p <? rp_capacity p); simplify_eq; eapply move_inv; done.
  - simplify_eq; pose proof pow_k_range; eapply move_inv; try done.
    + destruct Hs as [H1 H2 H3 H4 H5]; split; try done; simpl; unfold in_ring.
      rewrite H1, ring_idx_mod by lia; apply Z.mod_pos_bound; lia.
    + simpl; exists (rp_alloc_idx p); split; [apply Hs|]; rewrite (sh_bs _ Hs); apply off_small, Hs.
  - destruct Hc as (i & Hi & ->); destruct (sh_heads _ Hs i Hi) as [Eh|Eh]; rewrite Eh in E; simpl in E; simplify_eq.
    + eapply move_inv; try done; simpl; eauto.
    + eapply move_inv; done.
  - destruct Hc as (i & Hi & -> & Eh); rewrite Eh in E; simpl in E; simplify_eq.
    pose proof (set_inv _ _ _ _ _ _ HI Ht Hi Eh); by destruct l.
  - simplify_eq; by apply unlock_inv.
  - done.
Qed.

Lemma ring_step_inv s s' : ring_inv s -> ring_step s s' -> ring_inv s'.
Proof.
  intros HI Hs; destruct Hs as [p ts own t ->|p ts own t Ht Hpl|p ts own t c p' c' Ht E|p ts l1 d l2 p' E].
  - destruct HI as [Hs Hpc Hl He Hp Hnd Hown Hconv]; simpl in *; split; simpl; try done.
    + intros t2 c2 H2; upd; done.
    + intros t2 c2 H2 W; upd; done.
    + intros t1 t2 c1 c2 H1 H2 W1 W2; upd; done.
    + intros t1 t2 c1 c2 H1 H2 W1; upd; done.
    + intros i Hi Hu; destruct (Hconv i Hi Hu) as [|(? & ?)]; [by left|done].
  - destruct HI as [Hs Hpc Hl He Hp Hnd Hown Hconv]; simpl in *; split; simpl; try done.
    + intros t2 c2 H2; upd; [done|]; by apply (Hpc t2).
    + intros t2 c2 H2 W; upd; [done|]; eauto.
    + intros t1 t2 c1 c2 H1 H2 W1 W2; upd; eauto; done.
    + intros t1 t2 c1 c2 H1 H2 W1; upd; [done| |done|eauto].
      match goal with H : ts !! t1 = Some _ |- _ => by rewrite (Hpl t1 _ H) in W1 end.
    + intros i Hi Hu; destruct (Hconv i Hi Hu) as [|(t2 & H2)]; [by left|right; exists t2].
      rewrite lookup_insert_ne; [done|]; intros <-; congruence.
  - by eapply ring_code_inv.
  - by eapply ring_free_inv.
Qed.

Lemma ring_reach_inv s s' : ring_reach s s' -> ring_inv s -> ring_inv s'.
Proof. induction 1; eauto using ring_step_inv. Qed.

Lemma ring_inv_apart s : ring_inv s ->
  (forall d, d ∈ rs_owned s -> sizeof_ring_head <= d /\ d - sizeof_ring_head + bs <= bs * 2 ^ k /\
     is_Some (muggle_ring_memory_pool_free (rs_pool s) d)) /\
  (forall d e, d ∈ rs_owned s -> e ∈ rs_owned s -> d <> e -> bs <= Z.abs (d - e)).
Proof.
  intros HI; split.
  - intros d (i & Hi & -> & _)%(ri_owned _ HI); rewrite ring_free_total by (done || apply HI).
    unfold data_at, in_ring, sizeof_ring_head in *; split; [nia|]; split; [nia|by eexists].
  - intros d e (i & Hi & -> & _)%(ri_owned _ HI) (j & Hj & -> & _)%(ri_owned _ HI) Hne.
    unfold data_at, sizeof_ring_head in *; assert (i < j \/ j < i) as [|] by nia; nia.
Qed.

(** ** One allocation between the frees of other threads *)

Definition frees_ok (frees : list (list Z)) : Prop :=
  Forall (Forall (fun d => exists i, in_ring i /\ d = data_at i)) frees.

Definition next_pos p (m : Z) : Z := (rp_alloc_idx p + m) mod 2 ^ k.

Lemma frees_shape ds p : ring_shape p -> Forall (fun d => exists i, in_ring i /\ d = data_at i) ds ->
  exists p', foldl (fun o d => p ← o; muggle_ring_memory_pool_free p d) (Some p) ds = Some p' /\
    ring_shape p' /\ rp_alloc_idx p' = rp_alloc_idx p /\
    (forall i, in_ring i -> rp_heads p !! (bs * i) = Some 0 -> rp_heads p' !! (bs * i) = Some 0) /\
    (forall i, data_at i ∉ ds -> in_use p i -> in_use p' i).
Proof.
  intros Hs Hds; revert p Hs; induction Hds as [|d ds (i & Hi & ->) _ IH]; intros p Hs; simpl.
  { exists p; auto. }
  rewrite ring_free_total by done.
  destruct (IH _ (shape_set_heads p i 0 Hs Hi (or_introl eq_refl))) as (p' & -> & Hs' & Ei & Hz & Hu).
  exists p'; split; [done|]; split; [done|]; split; [done|]; split.
  - intros j Hj E; apply Hz; [done|]; simpl; destruct (decide (i = j)) as [->|]; [apply lookup_insert_eq|].
    rewrite lookup_insert_ne by (unfold sizeof_ring_head in *; nia); done.
  - intros j [Hne Hn]%not_elem_of_cons Hju; apply Hu; [done|]; apply in_use_set; right; split; [congruence|done].
Qed.

Lemma ring_run_done frees p d : ring_shape p -> frees_ok frees ->
  exists p', ring_run frees p (ADone d) = Some (p', ADone d) /\ ring_shape p' /\
    rp_alloc_idx p' = rp_alloc_idx p /\ forall i, data_at i ∉ concat frees -> in_use p i -> in_use p' i.
Proof.
  intros Hs Hf; revert p Hs; induction Hf as [|ds frees Hds _ IH]; intros p Hs; simpl; [by exists p|].
  destruct (frees_shape ds p Hs Hds) as (p1 & -> & Hs1 & E1 & _ & Hu1); simpl.
  destruct (IH p1 Hs1) as (p' & -> & Hs' & E' & Hu'); exists p'; split; [done|]; split; [done|].
  split; [congruence|]; intros i [H1 H2]%not_elem_of_app Hi; auto.
Qed.

Lemma next_pos_ring p m : in_ring (next_pos p m).
Proof. pose proof pow_k_range; apply Z.mod_pos_bound; lia. Qed.

Lemma next_pos_0 p : ring_shape p -> next_pos p 0 = rp_alloc_idx p.
Proof. intros Hs; unfold next_pos; rewrite Z.add_0_r; apply Z.mod_small, Hs. Qed.

(** The cursor moves on. *)
Lemma cursor_advance_spec p p' : ring_shape p ->
  p' = rp_set_idx p (MUGGLE_IDX_IN_POW_OF_2_RING (u32 (rp_alloc_idx p + 1)) (rp_capacity p)) ->
  ring_shape p' /\ rp_alloc_idx p' = next_pos p 1 /\ forall m, next_pos p' m = next_pos p (m + 1).
Proof.
  intros Hs ->; pose proof pow_k_range; pose proof (sh_idx _ Hs) as Hi; unfold in_ring in Hi.
  assert (MUGGLE_IDX_IN_POW_OF_2_RING (u32 (rp_alloc_idx p + 1)) (rp_capacity p) = next_pos p 1) as E.
  { rewrite (sh_cap _ Hs), ring_idx_mod by lia; by rewrite wrap_small by (unfold in_width; lia). }
  rewrite E; split; [|split; [done|]].
  - destruct Hs as [H1 H2 H3 H4 H5]; split; try done; apply next_pos_ring.
  - intros m; unfold next_pos; simpl; rewrite Zplus_mod_idemp_l; f_equal; lia.
Qed.

Lemma ring_run_take l frees p i : ring_shape p -> frees_ok frees -> in_ring i ->
  rp_heads p !! (bs * i) = Some 0 -> (2 <= length frees)%nat ->
  exists p', ring_run frees p (ASet l (bs * i)) = Some (p', ADone (data_at i)) /\ ring_shape p' /\
    rp_alloc_idx p' = rp_alloc_idx p /\ (data_at i ∉ concat frees -> in_use p' i).
Proof.
  intros Hs Hf Hi Eh Hlen; destruct Hf as [|d1 f Hd1 Hf]; [simpl in Hlen; lia|].
  destruct Hf as [|d2 f Hd2 Hf]; [simpl in Hlen; lia|]; simpl.
  destruct (frees_shape d1 p Hs Hd1) as (p1 & -> & Hs1 & E1 & Hz1 & _); simpl.
  rewrite (Hz1 i Hi Eh); simpl; set (q := rp_set_heads p1 _).
  assert (ring_shape q) as Hq by (apply shape_set_heads; auto).
  assert (in_use q i) as Hqu by (apply in_use_set; auto).
  destruct (frees_shape d2 q Hq Hd2) as (p2 & E2 & Hs2 & Ei2 & _ & Hu2).
  assert (rp_alloc_idx p2 = rp_alloc_idx p) as Ei by (rewrite Ei2; done).
  destruct l; rewrite E2; simpl; fold (data_at i).
  - destruct (ring_run_done f (rp_set_lock p2 false) (data_at i)) as (p' & -> & Hs' & E' & Hu'); [by destruct Hs2; split|done|].
    exists p'; split; [done|]; split; [done|]; split; [by rewrite E'|].
    intros [_ [H2 H3]%not_elem_of_app]%not_elem_of_app; apply Hu'; [done|]; by apply Hu2.
  - destruct (ring_run_done f p2 (data_at i)) as (p' & -> & Hs' & E' & Hu'); [done|done|].
    exists p'; split; [done|]; split; [done|]; split; [by rewrite E'|].
    intros [_ [H2 H3]%not_elem_of_app]%not_elem_of_app; apply Hu'; [done|]; by apply Hu2.
Qed.

Lemma ring_run_finds l n : forall frees p, ring_shape p -> frees_ok frees ->
  rp_heads p !! (bs * next_pos p (Z.of_nat n)) = Some 0 -> (2 * n + 4 <= length frees)%nat ->
  exists p' m, (m <= n)%nat /\ ring_run frees p (ANext l) = Some (p', ADone (data_at (next_pos p (Z.of_nat m)))) /\
    ring_shape p' /\ (data_at (next_pos p (Z.of_nat m)) ∉ concat frees -> in_use p' (next_pos p (Z.of_nat m))).
Proof.
  induction n as [|n IH]; intros frees p Hs Hf Eh Hlen; destruct Hf as [|d1 f Hd1 Hf]; [simpl in Hlen; lia| |simpl in Hlen; lia|];
    (destruct Hf as [|d2 f Hd2 Hf]; [simpl in Hlen; lia|]); simpl.
  all: destruct (frees_shape d1 p Hs Hd1) as (p1 & -> & Hs1 & E1 & Hz1 & _); simpl.
  all: destruct (cursor_advance_spec p1 _ Hs1 eq_refl) as (Hs1' & Ei1 & Hn1); set (q := rp_set_idx p1 _) in *.
  all: destruct (frees_shape d2 q Hs1' Hd2) as (p2 & -> & Hs2 & E2 & Hz2 & _); simpl.
  all: assert (forall m, next_pos p2 m = next_pos p (m + 1)) as Hnp
         by (intros m; transitivity (next_pos q m); [unfold next_pos; by rewrite E2|]; rewrite Hn1; unfold next_pos; by rewrite E1).
  all: replace (u32 (rp_block_size p1 * rp_alloc_idx p1)) with (bs * next_pos p 0)
         by (rewrite (sh_bs _ Hs1), next_pos_0, E1 by done; symmetry; apply off_small, Hs).
  all: assert (forall i, in_ring i -> rp_heads p !! (bs * i) = Some 0 -> rp_heads p2 !! (bs * i) = Some 0) as Hz by auto.
  - rewrite (Hz _ (next_pos_ring p 0) Eh); simpl; simpl in Hlen.
    destruct (ring_run_take l f p2 (next_pos p 0)) as (p' & E & Hs' & _ & Hu); [done|done|apply next_pos_ring|apply Hz; [apply next_pos_ring|done]|lia|].
    exists p', 0%nat; split; [done|]; split; [done|]; split; [done|].
    intros H; apply Hu; set_solver.
  - simpl in Hlen; destruct (sh_heads _ Hs2 _ (next_pos_ring p 0)) as [E0|E0]; rewrite E0; simpl.
    + destruct (ring_run_take l f p2 (next_pos p 0)) as (p' & E & Hs' & _ & Hu); [done|done|apply next_pos_ring|done|lia|].
      exists p', 0%nat; split; [lia|]; split; [done|]; split; [done|].
      intros H; apply Hu; set_solver.
    + destruct (IH f p2) as (p' & m & Hm & E & Hs' & Hu); [done|done| |lia|].
      { rewrite Hnp; apply Hz; [apply next_pos_ring|]; by replace (Z.of_nat n + 1) with (Z.of_nat (S n)) by lia. }
      rewrite Hnp in E, Hu; replace (Z.of_nat m + 1) with (Z.of_nat (S m)) in E, Hu by lia.
      exists p', (S m); split; [lia|]; split; [done|]; split; [done|]; intros H; apply Hu; set_solver.
Qed.

(** With all blocks in use and nobody freeing, the search goes on. *)
Definition searching (c : ring_pc) : Prop :=
  c = ANext false \/ exists i, in_ring i /\ c = ALoad false (bs * i).

Lemma ring_run_searching n : forall p c, ring_shape p -> (forall i, in_ring i -> in_use p i) -> searching c ->
  exists p' c', ring_run (replicate n []) p c = Some (p', c') /\ searching c'.
Proof.
  induction n as [|n IH]; intros p c Hs Hu Hc; [by exists p, c|]; simpl.
  destruct Hc as [->|(i & Hi & ->)]; simpl.
  - destruct (cursor_advance_spec p _ Hs eq_refl) as (Hs' & _ & _).
    apply IH; [done|done|]; right; exists (rp_alloc_idx p); split; [apply Hs|].
    f_equal; rewrite (sh_bs _ Hs); apply off_small, Hs.
  - rewrite (Hu i Hi); simpl; apply IH; [done|done|by left].
Qed.
End Invariant.

(** ** Initialisation *)

Definition ring_pool_capacity (capacity : Z) : Z := muggle_next_pow_of_2 (if capacity <? 2 then 2 else capacity).
Definition ring_pool_block_size (data_size : Z) : Z := muggle_next_pow_of_2 (data_size + sizeof_ring_head).

Lemma init_ring_heads bs n :
  sizeof_ring_head <= bs -> 0 <= n -> bs * n < 2 ^ 32 ->
  exists heads, for_up (init_ring_block (bs * n) bs) (Z.to_nat n) 0 ∅ = Some heads /\
    forall i, 0 <= i < n -> heads !! (bs * i) = Some 0.
Proof.
  intros Hbs Hn Hfit; unfold sizeof_ring_head in Hbs.
  destruct (for_up_inv (init_ring_block (bs * n) bs)
    (fun j h => forall i, 0 <= i < j -> h !! (bs * i) = Some 0) (Z.to_nat n) 0 ∅) as (h & Hh & HP).
  - intros; lia.
  - intros j h Hj Hh; assert (bs * j + bs <= bs * n) by nia; unfold init_ring_block.
    rewrite wrap_small by (unfold in_width; nia); unfold sizeof_ring_head.
    rewrite (proj2 (Z.leb_le _ _)) by nia; eexists; split; [done|].
    intros i Hi; destruct (decide (i = j)) as [->|]; [apply lookup_insert_eq|].
    rewrite lookup_insert_ne by nia; apply Hh; lia.
  - exists h; split; [done|]; intros i Hi; apply HP; lia.
Qed.

Lemma ring_pool_init_spec capacity data_size :
  0 <= capacity <= 2 ^ 31 -> 0 < data_size < 2 ^ 31 ->
  ring_pool_block_size data_size * ring_pool_capacity capacity < 2 ^ 32 ->
  exists p k, muggle_ring_memory_pool_init true capacity data_size = Some (MUGGLE_OK, p) /\
    1 <= k <= 31 /\ ring_pool_capacity capacity = 2 ^ k /\ data_size + sizeof_ring_head <= ring_pool_block_size data_size /\
    ring_inv k (ring_pool_block_size data_size) (RS p ∅ []).
Proof.
  intros Hc Hd Hfit.
  destruct (next_pow_of_2_exp (if capacity <? 2 then 2 else capacity)) as (k & Hk & Ek & Hle & _).
  { destruct (Z.ltb_spec capacity 2); lia. }
  destruct (next_pow_of_2_exp (data_size + sizeof_ring_head)) as (e & He & Ee & Hle2 & _).
  { unfold sizeof_ring_head; lia. }
  fold (ring_pool_capacity capacity) in Ek; fold (ring_pool_block_size data_size) in Ee, Hle2.
  assert (144 < ring_pool_block_size data_size) as Hb by (rewrite Ee; unfold sizeof_ring_head in *; lia).
  unfold muggle_ring_memory_pool_init; fold (ring_pool_capacity capacity) (ring_pool_block_size data_size).
  rewrite Ek in *; assert (2 <= 2 ^ k) by (destruct (Z.ltb_spec capacity 2); lia).
  assert (1 <= k < 32) by (split; [apply (Z.pow_le_mono_r_iff 2); lia|apply (Z.pow_lt_mono_r_iff 2); nia]).
  rewrite (wrap_small 32 (2 ^ k)) by (unfold in_width; nia).
  rewrite (wrap_small 32 (ring_pool_block_size data_size)) by (unfold in_width; nia).
  rewrite (wrap_small 32 (_ * _)) by (unfold in_width; nia).
  rewrite (proj2 (Z.ltb_ge _ _)), (proj2 (Z.eqb_neq _ _)) by lia.
  destruct (init_ring_heads (ring_pool_block_size data_size) (2 ^ k)) as (h & -> & Hh); [unfold sizeof_ring_head; lia|lia|done|].
  eexists _, k; split; [done|]; split; [lia|]; split; [done|]; split; [by rewrite Ee|].
  split; simpl; try done.
  - split; try done; [split; simpl; lia|]; intros i Hi; left; by apply Hh.
  - constructor.
  - intros d Hd2; set_solver.
  - intros i Hi Hu; unfold in_use in Hu; simpl in Hu; rewrite Hh in Hu by done; done.
Qed.

(** ** Properties *)

(** C25: with memory and blocks whose total size fits in 32 bits, [init]
    succeeds, and in every interleaving of allocations and frees in which the
    allocation that is not thread-safe is called only while no other is under
    way: no step of an
    allocation and no free of a block in use faults; the blocks in use lie in
    the memory of the pool, with room for the data, and apart from each other;
    a block that an allocation returns was not in use; at most one thread is
    between locking and unlocking. *)
Theorem ring_pool_safe (capacity data_size : Z)
  (Hc : 0 <= capacity <= 2 ^ 31) (Hd : 0 < data_size < 2 ^ 31)
  (Hfit : ring_pool_block_size data_size * ring_pool_capacity capacity < 2 ^ 32) :
  exists p, muggle_ring_memory_pool_init true capacity data_size = Some (MUGGLE_OK, p) /\
  forall s, ring_reach (RS p ∅ []) s ->
    NoDup (rs_owned s) /\
    (forall d, d ∈ rs_owned s -> sizeof_ring_head <= d /\
       (exists bytes, rp_blocks (rs_pool s) = Some bytes /\ d + data_size <= bytes) /\
       is_Some (muggle_ring_memory_pool_free (rs_pool s) d)) /\
    (forall d e, d ∈ rs_owned s -> e ∈ rs_owned s -> d <> e -> sizeof_ring_head + data_size <= Z.abs (d - e)) /\
    (forall t c, rs_threads s !! t = Some c -> exists p' c', ring_alloc_step (rs_pool s) c = Some (p', c') /\
       forall d, c' = ADone d -> d ∉ rs_owned s) /\
    (forall t1 t2 c1 c2, rs_threads s !! t1 = Some c1 -> rs_threads s !! t2 = Some c2 ->
       locked c1 = true -> locked c2 = true -> t1 = t2).
Proof.
  destruct (ring_pool_init_spec capacity data_size Hc Hd Hfit) as (p & k & Hi & Hk & Ek & Hb & HI).
  rewrite Ek in *; exists p; split; [done|]; intros s Hr.
  assert (sizeof_ring_head <= ring_pool_block_size data_size) as Hb2 by lia.
  pose proof (ring_reach_inv k _ Hk Hb2 Hfit _ _ Hr HI) as HJ.
  destruct (ring_inv_apart k _ Hk Hb2 _ HJ) as [H1 H2]; split; [apply HJ|]; split; [|split; [|split]].
  - intros d (Hd1 & Hd2 & Hd3)%H1; split; [done|]; split; [|done].
    rewrite (sh_mem _ _ _ (ri_shape _ _ _ HJ)); eexists; split; [done|]; lia.
  - intros d e Hd1 He1 Hne; specialize (H2 d e Hd1 He1 Hne); lia.
  - intros t c Ht; pose proof (ri_pc _ _ _ HJ t c Ht) as Hpc.
    destruct (ring_step_total k _ _ _ c (ri_shape _ _ _ HJ) Hpc) as [[p' c'] E].
    exists p', c'; split; [done|]; intros d ->.
    destruct s as [q ts own]; pose proof (ring_code_inv k _ Hk Hb2 Hfit q ts own t c p' _ HJ Ht E) as HJ'; simpl in *.
    apply (ri_nodup _ _ _) in HJ'; simpl in HJ'; by apply NoDup_cons in HJ' as [? _].
  - apply HJ.
Qed.

Lemma ring_pool_safe_witness :
  exists p, muggle_ring_memory_pool_init true 4 100 = Some (MUGGLE_OK, p) /\
  forall s, ring_reach (RS p ∅ []) s -> NoDup (rs_owned s).
Proof.
  destruct (ring_pool_safe 4 100) as (p & Hi & H); [lia|lia|vm_compute; done|].
  exists p; split; [done|]; intros s Hr; exact (proj1 (H s Hr)).
Defined.

(** C26: an allocation returns: when, of the blocks from the cursor on, the one
    [n] places further is not in use, then within 2 n + 6 of its own steps, with
    or without the lock, it returns one of these [n + 1] blocks and marks it,
    whatever blocks other threads free meanwhile. *)
Theorem ring_alloc_returns (k bs : Z) (Hk : 1 <= k <= 31) (Hbs : sizeof_ring_head <= bs) (Hfit : bs * 2 ^ k < 2 ^ 32)
  (p : muggle_ring_memory_pool) (Hs : ring_shape k bs p) (n : nat)
  (Hfree : rp_heads p !! (bs * next_pos k p (Z.of_nat n)) = Some 0)
  (frees : list (list Z)) (Hf : frees_ok k bs frees) (l : bool)
  (Hlock : l = true -> rp_write_spinlock p = false)
  (Hlen : (2 * n + 6 <= length frees)%nat) :
  exists p' m, (m <= n)%nat /\
    let d := data_at bs (next_pos k p (Z.of_nat m)) in
    ring_run frees p (if l then muggle_ring_memory_pool_threadsafe_alloc else muggle_ring_memory_pool_alloc)
      = Some (p', ADone d) /\
    (d ∉ concat frees -> rp_heads p' !! (d - sizeof_ring_head) = Some 1).
Proof.
  assert (forall q f, ring_shape k bs q -> rp_alloc_idx q = rp_alloc_idx p -> frees_ok k bs f ->
    rp_heads q !! (bs * next_pos k p (Z.of_nat n)) = Some 0 -> (2 * n + 5 <= length f)%nat ->
    exists p' m, (m <= n)%nat /\
      let d := data_at bs (next_pos k p (Z.of_nat m)) in
      ring_run f q (AEntry l) = Some (p', ADone d) /\
      (d ∉ concat f -> rp_heads p' !! (d - sizeof_ring_head) = Some 1)) as Hentry.
  { intros q f Hq Ei [|ds f' Hds Hf'] Eh Hl; [simpl in Hl; lia|]; simpl in Hl |- *.
    destruct (frees_shape k bs Hk Hbs Hfit ds q Hq Hds) as (q1 & -> & Hq1 & Ei1 & Hz & _); simpl.
    rewrite (sh_cap _ _ _ Hq1), (proj2 (Z.ltb_lt _ _)) by apply Hq1; simpl.
    assert (forall m, next_pos k q1 m = next_pos k p m) as En by (intros; unfold next_pos; congruence).
    destruct (ring_run_finds k bs Hk Hbs Hfit l n f' q1 Hq1 Hf') as (p' & m & Hm & E & _ & Hu);
      [rewrite En; apply Hz; [by apply next_pos_ring|done]|lia|].
    rewrite En in E, Hu; exists p', m; split; [done|]; split; [done|].
    intros [_ Hn]%not_elem_of_app; specialize (Hu Hn); unfold in_use in Hu; unfold data_at.
    by replace (_ + sizeof_ring_head - sizeof_ring_head) with (bs * next_pos k p (Z.of_nat m)) by lia. }
  destruct l; [|apply Hentry; done || lia].
  destruct Hf as [|ds f' Hds Hf']; [simpl in Hlen; lia|]; simpl in Hlen |- *.
  destruct (frees_shape k bs Hk Hbs Hfit ds p Hs Hds) as (q1 & Eq & Hq1 & Ei1 & Hz & _); rewrite Eq; simpl.
  assert (rp_write_spinlock q1 = false) as ->.
  { revert Eq; rewrite <- (Hlock eq_refl); clear; revert p; induction ds as [|d ds IH]; simpl; intros p E; [congruence|].
    destruct (muggle_ring_memory_pool_free p d) as [p2|] eqn:E2; [|exfalso; revert E; clear; induction ds; done].
    rewrite (IH p2 E); unfold muggle_ring_memory_pool_free in E2; destruct (rp_heads p !! _); simpl in E2; by simplify_eq. }
  simpl; destruct (Hentry (rp_set_lock q1 true) f') as (p' & m & Hm & E & Hu); [by destruct Hq1; split|done|done| |lia|].
  { apply Hz; [by apply next_pos_ring|done]. }
  exists p', m; split; [done|]; split; [done|]; intros [_ Hn]%not_elem_of_app; auto.
Qed.

(** Four blocks, of which the cursor has two in use ahead. *)
Definition sample_pool : muggle_ring_memory_pool :=
  RP (Some 1024) {[ 0 := 1; 256 := 1; 512 := 0; 768 := 1 ]} false 4 256 0.

Lemma sample_pool_shape : ring_shape 2 256 sample_pool.
Proof.
  split; try done; intros i Hi; unfold in_ring in Hi; change (2 ^ 2) with 4 in Hi.
  assert (i = 0 \/ i = 1 \/ i = 2 \/ i = 3) as [->|[->|[->| ->]]] by lia; vm_compute; auto.
Qed.

Lemma ring_alloc_returns_witness :
  exists p' m, (m <= 2)%nat /\
    ring_run (replicate 10 []) sample_pool muggle_ring_memory_pool_threadsafe_alloc
      = Some (p', ADone (data_at 256 (next_pos 2 sample_pool (Z.of_nat m)))).
Proof.
  destruct (ring_alloc_returns 2 256 ltac:(lia) ltac:(unfold sizeof_ring_head; lia) ltac:(lia) sample_pool sample_pool_shape 2
    ltac:(vm_compute; reflexivity) (replicate 10 []) ltac:(repeat constructor) true ltac:(done) ltac:(simpl; lia))
    as (p' & m & Hm & E & _).
  exists p', m; split; [exact Hm|exact E].
Defined.

(** With all blocks in use an allocation does not return NULL: it searches for
    ever. *)
Theorem ring_alloc_full_waits k bs p n :
  1 <= k <= 31 -> sizeof_ring_head <= bs -> bs * 2 ^ k < 2 ^ 32 -> ring_shape k bs p ->
  (forall i, in_ring k i -> in_use bs p i) ->
  exists p' c, ring_run (replicate n []) p muggle_ring_memory_pool_alloc = Some (p', c) /\ forall d, c <> ADone d.
Proof.
  intros Hk Hbs Hfit Hs Hu; destruct n as [|n]; [by eexists _, _|]; simpl.
  rewrite (sh_cap _ _ _ Hs), (proj2 (Z.ltb_lt _ _)) by apply Hs; simpl.
  destruct (ring_run_searching k bs Hk Hbs Hfit n p (ANext false) Hs Hu) as (p' & c & -> & Hc); [by left|].
  exists p', c; split; [done|]; intros d ->; by destruct Hc as [|(? & ? & ?)].
Qed.

(** The number of bytes is computed in 32 bits, where a product of powers of
    two that does not fit is zero: 2^16 blocks of 2^16 bytes get no memory at
    all, and clearing the first block leaves it. *)
Theorem ring_pool_init_defect :
  muggle_ring_memory_pool_init true (2 ^ 16) (2 ^ 15) = None /\
  u32 (ring_pool_block_size (2 ^ 15) * ring_pool_capacity (2 ^ 16)) = 0.
Proof. vm_compute; done. Qed.
