(* ===== verification/TsPool.v ===== *)
(** * The thread-safe memory pool: [memory/threadsafe_memory_pool.c]

    A ring of pointers to free blocks: an allocation takes the pointer at
    [alloc_idx] and moves that index with a compare-and-exchange, a free puts
    the block back at [free_idx] under a spin lock.  The allocating threads
    share [cached_free_pos], the last value of [free_idx] that one of them has
    loaded.  Every access of shared memory is a step of a thread; pointers to
    blocks are offsets from [data].

    With one allocating thread at a time the pool is safe, whatever the
    freeing threads do.  With two it is not: the indices are positions in the
    ring, and an allocation that is overtaken by a whole turn of the ring
    does not notice it. *)
From S2P Require Import Prelude Utils.

Record muggle_ts_memory_pool := TP {
  tp_data : option Z;           (** the bytes behind [data], [None] for NULL *)
  tp_heads : gset Z;            (** the blocks whose head points to the pool *)
  tp_ptrs : list Z;             (** the blocks in the ring *)
  tp_capacity : Z; tp_block_size : Z; tp_alloc_idx : Z; tp_cached_free_pos : Z; tp_free_idx : Z;
  tp_free_spinlock : bool
}.

(** [sizeof(muggle_ts_memory_pool_head_t)]: a pointer. *)
Definition sizeof_ts_head : Z := 8.

Section Operations.
Implicit Types p : muggle_ts_memory_pool.

(** One turn of the loop of [init], which computes with [size_t]. *)
Definition init_ts_block (bytes block_size i : Z) (s : gset Z * list Z) : option (gset Z * list Z) :=
  let off := u64 (block_size * i) in
  if off + sizeof_ts_head <=? bytes then Some ({[off]} ∪ s.1, s.2 ++ [off]) else None.

(** [mem_data] and [mem_ptrs] tell whether the two allocations succeed. *)
Definition muggle_ts_memory_pool_init (mem_data mem_ptrs : bool) (capacity data_size : Z)
  : option (Z + muggle_ts_memory_pool) :=
  if capacity <=? 0 then Some (inl MUGGLE_ERR_INVALID_PARAM)
  else if data_size <=? 0 then Some (inl MUGGLE_ERR_INVALID_PARAM)
  else
    let capacity := u32 (muggle_next_pow_of_2 capacity) in
    if capacity <=? 0 then Some (inl MUGGLE_ERR_INVALID_PARAM)
    else
      let block_size := MUGGLE_ALIGN_TRUE_SHARING (u32 (sizeof_ts_head + data_size)) in
      if block_size <=? 0 then Some (inl MUGGLE_ERR_INVALID_PARAM)
      else if negb mem_data || negb mem_ptrs then Some (inl MUGGLE_ERR_MEM_ALLOC)
      else
        let total_bytes := u64 (capacity * block_size) in
        '(heads, ptrs) ← for_up (init_ts_block total_bytes block_size) (Z.to_nat capacity) 0 (∅, []);
        Some (inr (TP (Some total_bytes) heads ptrs capacity block_size 0 0 0 false)).

Definition muggle_ts_memory_pool_destroy p : muggle_ts_memory_pool :=
  TP None ∅ [] (tp_capacity p) (tp_block_size p) (tp_alloc_idx p) (tp_cached_free_pos p) (tp_free_idx p) (tp_free_spinlock p).

Definition tp_set_alloc p x := TP (tp_data p) (tp_heads p) (tp_ptrs p) (tp_capacity p) (tp_block_size p) x (tp_cached_free_pos p) (tp_free_idx p) (tp_free_spinlock p).
Definition tp_set_cached p x := TP (tp_data p) (tp_heads p) (tp_ptrs p) (tp_capacity p) (tp_block_size p) (tp_alloc_idx p) x (tp_free_idx p) (tp_free_spinlock p).
Definition tp_set_free p x := TP (tp_data p) (tp_heads p) (tp_ptrs p) (tp_capacity p) (tp_block_size p) (tp_alloc_idx p) (tp_cached_free_pos p) x (tp_free_spinlock p).
Definition tp_set_lock p x := TP (tp_data p) (tp_heads p) (tp_ptrs p) (tp_capacity p) (tp_block_size p) (tp_alloc_idx p) (tp_cached_free_pos p) (tp_free_idx p) x.
Definition tp_set_ptrs p x := TP (tp_data p) (tp_heads p) x (tp_capacity p) (tp_block_size p) (tp_alloc_idx p) (tp_cached_free_pos p) (tp_free_idx p) (tp_free_spinlock p).

(** Where a thread is inside [alloc] or [free], with its local variables. *)
Inductive ts_pc :=
| AStart | ALoop (expected : Z) | AReload (expected alloc_pos : Z) | AStore (expected alloc_pos loaded : Z)
| ATest (expected alloc_pos : Z) | AData (expected alloc_pos : Z) | ACas (expected alloc_pos data : Z)
| FLock (block : Z) | FWrite (block : Z) | FAdvance (block : Z) | FUnlock
| ADone (data : option Z) | FDone.

(** [weak]: the compare-and-exchange fails without a cause. *)
Definition muggle_ts_memory_pool_alloc_step p (weak : bool) (c : ts_pc) : option (muggle_ts_memory_pool * ts_pc) :=
  match c with
  | AStart => Some (p, ALoop (tp_alloc_idx p))
  | ALoop expected =>
      let alloc_pos := MUGGLE_IDX_IN_POW_OF_2_RING (u32 (expected + 1)) (tp_capacity p) in
      Some (p, if alloc_pos =? tp_cached_free_pos p then AReload expected alloc_pos else AData expected alloc_pos)
  | AReload expected alloc_pos => Some (p, AStore expected alloc_pos (tp_free_idx p))
  | AStore expected alloc_pos loaded => Some (tp_set_cached p loaded, ATest expected alloc_pos)
  | ATest expected alloc_pos =>
      Some (p, if alloc_pos =? tp_cached_free_pos p then ADone None else AData expected alloc_pos)
  | AData expected alloc_pos => b ← rd (tp_ptrs p) expected; Some (p, ACas expected alloc_pos (b + sizeof_ts_head))
  | ACas expected alloc_pos data =>
      Some (if (tp_alloc_idx p =? expected) && negb weak then (tp_set_alloc p alloc_pos, ADone (Some data))
            else (p, ALoop (tp_alloc_idx p)))
  | _ => None
  end.

Definition muggle_ts_memory_pool_free_step p (c : ts_pc) : option (muggle_ts_memory_pool * ts_pc) :=
  match c with
  | FLock block => Some (if tp_free_spinlock p then (p, FLock block) else (tp_set_lock p true, FWrite block))
  | FWrite block => l ← wr (tp_ptrs p) (tp_free_idx p) block; Some (tp_set_ptrs p l, FAdvance block)
  | FAdvance block =>
      let free_pos := MUGGLE_IDX_IN_POW_OF_2_RING (u32 (tp_free_idx p + 1)) (tp_capacity p) in
      Some (tp_set_free p free_pos, FUnlock)
  | FUnlock => Some (tp_set_lock p false, FDone)
  | _ => None
  end.

(** The entries: the block in front of the data, whose head gives the pool. *)
Definition muggle_ts_memory_pool_alloc : ts_pc := AStart.
Definition muggle_ts_memory_pool_free p (data : Z) : option ts_pc :=
  if decide (data - sizeof_ts_head ∈ tp_heads p) then Some (FLock (data - sizeof_ts_head)) else None.

Definition ts_local_step p (weak : bool) (c : ts_pc) : option (muggle_ts_memory_pool * ts_pc) :=
  match c with
  | FLock _ | FWrite _ | FAdvance _ | FUnlock => muggle_ts_memory_pool_free_step p c
  | c => muggle_ts_memory_pool_alloc_step p weak c
  end.
End Operations.

(** ** Threads *)

(** The pool, the threads inside a call, the data that the threads own, and the
    blocks that are on their way back into the ring. *)
Record ts_state := TS { ts_pool : muggle_ts_memory_pool; ts_threads : gmap nat ts_pc; ts_owned : list Z; ts_freeing : list Z }.

Inductive ts_action := CallAlloc (t : nat) | CallFree (t : nat) (data : Z) | Run (t : nat) (weak : bool).

Definition ts_act (s : ts_state) (a : ts_action) : option ts_state :=
  let '(TS p ts own fr) := s in
  match a with
  | CallAlloc t =>
      if decide (ts !! t = None) then Some (TS p (<[t := muggle_ts_memory_pool_alloc]> ts) own fr) else None
  | CallFree t data =>
      if decide (ts !! t = None /\ data ∈ own) then
        c ← muggle_ts_memory_pool_free p data;
        Some (TS p (<[t := c]> ts) (filter (.≠ data) own) (data - sizeof_ts_head :: fr))
      else None
  | Run t weak =>
      c ← ts !! t;
      '(p', c') ← ts_local_step p weak c;
      Some match c' with
      | ADone (Some d) => TS p' (delete t ts) (d :: own) fr
      | ADone None | FDone => TS p' (delete t ts) own fr
      | _ => TS p' (<[t := c']> ts) own (match c with FAdvance b => filter (.≠ b) fr | _ => fr end)
      end
  end.

Definition ts_run (s : ts_state) (l : list ts_action) : option ts_state :=
  foldl (fun o a => s ← o; ts_act s a) (Some s) l.

(** Runs in which no two allocations overlap. *)
Definition allocating (c : ts_pc) : bool :=
  match c with AStart | ALoop _ | AReload _ _ | AStore _ _ _ | ATest _ _ | AData _ _ | ACas _ _ _ => true | _ => false end.

Inductive ts_reach (s : ts_state) : ts_state -> Prop :=
| ts_here : ts_reach s s
| ts_next s1 a s2 : ts_reach s s1 -> ts_act s1 a = Some s2 ->
    (forall t, a = CallAlloc t -> map_Forall (fun _ c => allocating c = false) (ts_threads s1)) -> ts_reach s s2.

(** ** The invariant *)

(** Between locking and unlocking; the block a thread is putting back. *)
Definition in_section (c : ts_pc) : bool := match c with FWrite _ | FAdvance _ | FUnlock => true | _ => false end.
Definition freeing_of (c : ts_pc) : option Z := match c with FLock b | FWrite b | FAdvance b => Some b | _ => None end.

(** What two different threads may not do at once. *)
Definition compat (c1 c2 : ts_pc) : Prop :=
  (allocating c1 = true -> allocating c2 = false) /\ (in_section c1 = true -> in_section c2 = false) /\
  (forall b, freeing_of c1 = Some b -> freeing_of c2 <> Some b).

(** One occurrence taken out of a list without duplicates. *)
Lemma filter_split (b : Z) l : b ∈ l -> NoDup l -> l ≡ₚ b :: filter (.≠ b) l.
Proof.
  intros Hb Hnd; apply NoDup_Permutation; [done| |].
  - constructor; [rewrite list_elem_of_filter; by intros [? _]|by apply NoDup_filter].
  - intros x; rewrite elem_of_cons, list_elem_of_filter; destruct (decide (x = b)) as [->|]; set_solver.
Qed.

Section Invariant.
Variables k bs : Z.
Hypothesis Hk : 0 <= k <= 31.
Hypothesis Hbs : sizeof_ts_head <= bs.

Definition slot (l : list Z) (j : Z) : Z := default 0 (rd l (j mod 2 ^ k)).

(** The free blocks in the ring, in the order in which they are taken. *)
Definition window (l : list Z) (A F : Z) : list Z := map (slot l) (seqZ A (F + 2 ^ k - A)).
Definition all_blocks : list Z := map (Z.mul bs) (seqZ 0 (2 ^ k)).

(** [A] allocations and [F] frees are complete; [C] is the number of frees that
    [cached_free_pos] stands for. *)
Record pool_ok (p : muggle_ts_memory_pool) (own fr : list Z) (A C F : Z) : Prop := {
  po_cap : tp_capacity p = 2 ^ k;
  po_bs : tp_block_size p = bs;
  po_data : tp_data p = Some (2 ^ k * bs);
  po_heads : forall b, b ∈ all_blocks -> b ∈ tp_heads p;
  po_len : Z.of_nat (length (tp_ptrs p)) = 2 ^ k;
  po_alloc : tp_alloc_idx p = A mod 2 ^ k;
  po_cached : tp_cached_free_pos p = C mod 2 ^ k;
  po_free : tp_free_idx p = F mod 2 ^ k;
  po_le : 0 <= C <= F /\ F <= A;
  po_room : A - C <= 2 ^ k - 1;
  po_perm : map (fun d => d - sizeof_ts_head) own ++ fr ++ window (tp_ptrs p) A F ≡ₚ all_blocks
}.

Definition pc_ok (p : muggle_ts_memory_pool) (fr : list Z) (A C F : Z) (c : ts_pc) : Prop :=
  let e0 := A mod 2 ^ k in let pos0 := (A + 1) mod 2 ^ k in
  match c with
  | AStart => True
  | ALoop e => e = e0
  | AReload e pos | ATest e pos => e = e0 /\ pos = pos0
  | AStore e pos f => e = e0 /\ pos = pos0 /\ exists G, C <= G <= F /\ f = G mod 2 ^ k
  | AData e pos => e = e0 /\ pos = pos0 /\ A + 1 - C <= 2 ^ k - 1
  | ACas e pos d => e = e0 /\ pos = pos0 /\ A + 1 - C <= 2 ^ k - 1 /\ d = slot (tp_ptrs p) A + sizeof_ts_head
  | FLock b => b ∈ fr
  | FWrite b => b ∈ fr /\ tp_free_spinlock p = true
  | FAdvance b => b ∈ fr /\ tp_free_spinlock p = true /\ slot (tp_ptrs p) F = b
  | FUnlock => tp_free_spinlock p = true
  | ADone _ | FDone => False
  end.

Record threads_ok (ts : gmap nat ts_pc) (p : muggle_ts_memory_pool) (fr : list Z) (A C F : Z) : Prop := {
  to_pc : forall t c, ts !! t = Some c -> pc_ok p fr A C F c;
  to_compat : forall t1 t2 c1 c2, ts !! t1 = Some c1 -> ts !! t2 = Some c2 -> t1 <> t2 -> compat c1 c2
}.

Definition ts_inv (s : ts_state) : Prop :=
  exists A C F, pool_ok (ts_pool s) (ts_owned s) (ts_freeing s) A C F /\
    threads_ok (ts_threads s) (ts_pool s) (ts_freeing s) A C F.

Lemma compat_sym c1 c2 : compat c1 c2 -> compat c2 c1.
Proof.
  intros (H1 & H2 & H3); split; [|split].
  - intros E; destruct (allocating c1); [by rewrite H1 in E|done].
  - intros E; destruct (in_section c1); [by rewrite H2 in E|done].
  - intros b E1 E2; by apply (H3 b).
Qed.

(** The thread [t] moves from [c] to [c'], or ends its call. *)
Lemma threads_move ts p fr A C F p' fr' A' C' F' t c c' :
  threads_ok ts p fr A C F -> ts !! t = Some c ->
  pc_ok p' fr' A' C' F' c' ->
  (forall c2, compat c c2 -> pc_ok p fr A C F c2 -> pc_ok p' fr' A' C' F' c2 /\ compat c' c2) ->
  threads_ok (<[t := c']> ts) p' fr' A' C' F'.
Proof.
  intros [H1 H2] Ht Hc Ho; split.
  - intros t2 c2 H; upd; [done|]; apply (Ho c2); eauto.
  - intros t1 t2 c1 c2 E1 E2 Hne; upd; [done| | |eauto].
    + apply compat_sym, Ho; eauto.
    + apply Ho; eauto.
Qed.

Lemma threads_leave ts p fr A C F p' fr' A' C' F' t c :
  threads_ok ts p fr A C F -> ts !! t = Some c ->
  (forall c2, compat c c2 -> pc_ok p fr A C F c2 -> pc_ok p' fr' A' C' F' c2) ->
  threads_ok (delete t ts) p' fr' A' C' F'.
Proof.
  intros [H1 H2] Ht Ho; split.
  - intros t2 c2 [Hne E]%lookup_delete_Some; apply (Ho c2); eauto.
  - intros t1 t2 c1 c2 [_ E1]%lookup_delete_Some [_ E2]%lookup_delete_Some; eauto.
Qed.

Lemma threads_enter ts p fr A C F fr' t c' :
  threads_ok ts p fr A C F -> ts !! t = None -> pc_ok p fr' A C F c' ->
  (forall t2 c2, ts !! t2 = Some c2 -> pc_ok p fr A C F c2 -> pc_ok p fr' A C F c2 /\ compat c' c2) ->
  threads_ok (<[t := c']> ts) p fr' A C F.
Proof.
  intros [H1 H2] Ht Hc Ho; split.
  - intros t2 c2 H; upd; [done|]; apply (Ho t2 c2); eauto.
  - intros t1 t2 c1 c2 E1 E2 Hne; upd; [done| | |eauto].
    + eapply compat_sym, Ho; eauto.
    + eapply Ho; eauto.
Qed.

Lemma pow_pos_k : 0 < 2 ^ k <= 2 ^ 31.
Proof. split; [lia|]; apply Z.pow_le_mono_r; lia. Qed.

Lemma next_ring_idx c x : c = 2 ^ k -> MUGGLE_IDX_IN_POW_OF_2_RING (u32 (x mod 2 ^ k + 1)) c = (x + 1) mod 2 ^ k.
Proof.
  intros ->; pose proof pow_pos_k; pose proof (Z.mod_pos_bound x (2 ^ k) ltac:(lia)).
  rewrite wrap_small, ring_idx_mod, Zplus_mod_idemp_l by (unfold in_width; lia); done.
Qed.

Lemma window_length l A F : A <= F + 2 ^ k -> Z.of_nat (length (window l A F)) = F + 2 ^ k - A.
Proof. intros; unfold window; rewrite length_map, length_seqZ; lia. Qed.

(** The blocks outside the ring are as many as the allocations that were not
    freed. *)
Lemma outside_count p own fr A C F : pool_ok p own fr A C F -> Z.of_nat (length own + length fr) = A - F.
Proof.
  intros [_ _ _ _ _ _ _ _ Hle Hroom Hperm]; apply Permutation_length in Hperm.
  pose proof (window_length (tp_ptrs p) A F ltac:(lia)); pose proof pow_pos_k.
  unfold all_blocks in Hperm; rewrite !length_app, !length_map, length_seqZ in Hperm; lia.
Qed.

Lemma all_blocks_nodup : NoDup all_blocks.
Proof.
  apply NoDup_fmap_2_strong; [|apply NoDup_seqZ]; unfold sizeof_ts_head in *; intros; nia.
Qed.

Lemma slot_insert l F b j : Z.of_nat (length l) = 2 ^ k -> 
  slot (<[Z.to_nat (F mod 2 ^ k) := b]> l) j = if decide (j mod 2 ^ k = F mod 2 ^ k) then b else slot l j.
Proof.
  intros Hl; pose proof pow_pos_k; pose proof (Z.mod_pos_bound F (2 ^ k) ltac:(lia)).
  pose proof (Z.mod_pos_bound j (2 ^ k) ltac:(lia)); unfold slot, rd; rewrite !decide_True by lia.
  case_decide as E; [rewrite E, list_lookup_insert_eq by lia; done|].
  rewrite decide_True, list_lookup_insert_ne by lia; done.
Qed.

(** Steps of the allocating thread that leave the pool as it is, except for
    [cached_free_pos]. *)
Lemma alloc_quiet p ts own fr A C F p' C' t c c' :
  pool_ok p own fr A C F -> threads_ok ts p fr A C F -> ts !! t = Some c ->
  allocating c = true -> allocating c' = true -> freeing_of c' = None -> in_section c' = false ->
  p' = tp_set_cached p (C' mod 2 ^ k) -> C <= C' <= F -> pc_ok p' fr A C' F c' ->
  ts_inv (TS p' (<[t := c']> ts) own fr).
Proof.
  intros Hp Ht Hc Hal Hal' Hf Hse -> HC Hok; exists A, C', F; simpl; split.
  - destruct Hp; split; simpl; try done; lia.
  - eapply threads_move; [done..|]; intros c2 (Ha & _) H2; rewrite Hal in Ha; specialize (Ha eq_refl).
    split; [destruct c2; done|]; split; [done|]; rewrite Hse, Hf; done.
Qed.

Lemma set_cached_same p own fr A C F : pool_ok p own fr A C F -> tp_set_cached p (C mod 2 ^ k) = p.
Proof. intros Hp; destruct p; simpl; unfold tp_set_cached; simpl; f_equal; symmetry; apply (po_cached _ _ _ _ _ _ Hp). Qed.

Lemma alloc_leave p ts own fr A C F t c :
  pool_ok p own fr A C F -> threads_ok ts p fr A C F -> ts !! t = Some c -> ts_inv (TS p (delete t ts) own fr).
Proof. intros Hp Ht Hc; exists A, C, F; split; [done|]; simpl; eapply threads_leave; eauto. Qed.

(** A position is not the cached one: there is room for one more. *)
Lemma room_next p own fr A C F : pool_ok p own fr A C F ->
  (A + 1) mod 2 ^ k <> tp_cached_free_pos p -> A + 1 - C <= 2 ^ k - 1.
Proof.
  intros [_ _ _ _ _ _ -> _ Hle Hroom _] Hne; enough (A + 1 - C <> 2 ^ k) by lia; intros E.
  apply Hne; replace (A + 1) with (C + 1 * 2 ^ k) by lia; apply Z_mod_plus_full.
Qed.

(** The block at the index is taken. *)
Lemma alloc_take p ts own fr A C F t pos :
  pool_ok p own fr A C F -> threads_ok ts p fr A C F ->
  ts !! t = Some (ACas (tp_alloc_idx p) pos (slot (tp_ptrs p) A + sizeof_ts_head)) ->
  pos = (A + 1) mod 2 ^ k -> A + 1 - C <= 2 ^ k - 1 ->
  ts_inv (TS (tp_set_alloc p pos) (delete t ts) (slot (tp_ptrs p) A + sizeof_ts_head :: own) fr).
Proof.
  intros Hp Ht Hc -> Hroom; exists (A + 1), C, F; simpl; split.
  - destruct Hp as [H1 H2 H3 H4 H5 H6 H7 H8 H9 H10 H11]; split; simpl; try done; try lia.
    rewrite <- H11; unfold window at 2; rewrite seqZ_cons by lia; simpl.
    replace (slot (tp_ptrs p) A + sizeof_ts_head - sizeof_ts_head) with (slot (tp_ptrs p) A) by lia.
    unfold window; replace (Z.pred (F + 2 ^ k - A)) with (F + 2 ^ k - (A + 1)) by lia.
    rewrite <- !Permutation_middle; done.
  - eapply threads_leave; [done..|]; intros c2 (Ha & _) H2; specialize (Ha eq_refl); destruct c2; done.
Qed.

Lemma alloc_step_inv p ts own fr A C F t w c p' c' :
  pool_ok p own fr A C F -> threads_ok ts p fr A C F -> ts !! t = Some c -> allocating c = true ->
  muggle_ts_memory_pool_alloc_step p w c = Some (p', c') ->
  ts_inv (match c' with
    | ADone (Some d) => TS p' (delete t ts) (d :: own) fr
    | ADone None | FDone => TS p' (delete t ts) own fr
    | _ => TS p' (<[t := c']> ts) own fr end).
Proof.
  intros Hp Ht Hc Hal E; pose proof (to_pc _ _ _ _ _ _ Ht t c Hc) as Hok; pose proof (po_le _ _ _ _ _ _ Hp).
  assert (forall c2, allocating c2 = true -> freeing_of c2 = None -> in_section c2 = false -> pc_ok p fr A C F c2 ->
    ts_inv (TS p (<[t := c2]> ts) own fr)) as Hq.
  { intros c2 H1 H2 H3 H4; apply (alloc_quiet p ts own fr A C F p C t c c2); try done; [|lia].
    by rewrite (set_cached_same _ _ _ _ _ _ Hp). }
  destruct c as [|e|e pos|e pos f|e pos|e pos|e pos d|b|b|b| |d|]; simpl in Hal, E, Hok; try done.
  - simplify_eq; apply Hq; try done; apply Hp.
  - subst e; rewrite next_ring_idx in E by apply Hp.
    destruct (Z.eqb_spec ((A + 1) mod 2 ^ k) (tp_cached_free_pos p)) as [Eq|Hne]; simplify_eq; apply Hq; try done.
    split; [done|]; split; [done|]; by eapply room_next.
  - simplify_eq; apply Hq; try done; simpl; destruct Hok as [-> ->]; split; [done|]; split; [done|].
    exists F; split; [lia|apply Hp].
  - destruct Hok as (-> & -> & G & HG & ->); simplify_eq; by eapply (alloc_quiet p ts own fr A C F _ G).
  - destruct Hok as [-> ->].
    destruct (Z.eqb_spec ((A + 1) mod 2 ^ k) (tp_cached_free_pos p)) as [Eq|Hne]; simplify_eq; [by eapply alloc_leave|].
    apply Hq; try done; split; [done|]; split; [done|]; by eapply room_next.
  - destruct Hok as (-> & -> & Hroom); destruct (rd (tp_ptrs p) (A mod 2 ^ k)) as [b|] eqn:Er; simpl in E; simplify_eq.
    apply Hq; try done; simpl; unfold slot; rewrite Er; done.
  - destruct Hok as (-> & -> & Hroom & ->); destruct (Z.eqb_spec (tp_alloc_idx p) (A mod 2 ^ k)) as [Ei|Hne].
    + destruct w; simpl in E; simplify_eq; [apply Hq; done|].
      rewrite <- Ei in Hc; by eapply alloc_take.
    + by rewrite (po_alloc _ _ _ _ _ _ Hp) in Hne.
Qed.

Lemma outside_nodup p own fr A C F : pool_ok p own fr A C F -> NoDup (map (fun d => d - sizeof_ts_head) own ++ fr).
Proof.
  intros Hp; pose proof (NoDup_Permutation_proper _ _ (po_perm _ _ _ _ _ _ Hp)) as HN.
  pose proof (proj2 HN all_blocks_nodup) as H; rewrite app_assoc, NoDup_app in H; tauto.
Qed.

(** With a block on its way back, the indices differ. *)
Lemma freeing_room p own fr A C F b : pool_ok p own fr A C F -> b ∈ fr -> F + 1 <= A.
Proof.
  intros Hp Hb; pose proof (outside_count _ _ _ _ _ _ Hp); destruct fr; [set_solver|simpl in *; lia].
Qed.

Lemma free_lock p ts own fr A C F t b :
  pool_ok p own fr A C F -> threads_ok ts p fr A C F -> ts !! t = Some (FLock b) -> tp_free_spinlock p = false ->
  ts_inv (TS (tp_set_lock p true) (<[t := FWrite b]> ts) own fr).
Proof.
  intros Hp Ht Hc El; exists A, C, F; simpl; split; [destruct Hp; split; done|].
  pose proof (to_pc _ _ _ _ _ _ Ht t _ Hc) as Hb; simpl in Hb.
  eapply threads_move; [done..|split; done|]; intros c2 (H1 & H2 & H3) Hok.
  destruct c2; simpl in *; rewrite ?El in Hok; try done; try (by destruct Hok as [_ ?]); try (by destruct Hok as (_ & ? & _)).
Qed.

Lemma free_write p ts own fr A C F t b l :
  pool_ok p own fr A C F -> threads_ok ts p fr A C F -> ts !! t = Some (FWrite b) ->
  wr (tp_ptrs p) (tp_free_idx p) b = Some l ->
  ts_inv (TS (tp_set_ptrs p l) (<[t := FAdvance b]> ts) own fr).
Proof.
  intros Hp Ht Hc [Hr ->]%wr_inv; rewrite (po_free _ _ _ _ _ _ Hp) in *.
  destruct (to_pc _ _ _ _ _ _ Ht t _ Hc) as [Hb Hl]; pose proof (freeing_room _ _ _ _ _ _ _ Hp Hb) as Hlt.
  pose proof pow_pos_k; pose proof Hp as [H1 H2 H3 H4 H5 H6 H7 H8 H9 H10 H11].
  assert (forall j, F < j < F + 2 ^ k -> slot (<[Z.to_nat (F mod 2 ^ k) := b]> (tp_ptrs p)) j = slot (tp_ptrs p) j) as Hsl.
  { intros j Hj; rewrite slot_insert by done; rewrite decide_False; [done|]; intros E.
    symmetry in E; apply mod_window in E; lia. }
  exists A, C, F; simpl; split.
  - split; simpl; try done; [by rewrite length_insert|].
    rewrite <- H11; unfold window; rewrite (list_fmap_ext (slot (<[Z.to_nat (F mod 2 ^ k) := b]> (tp_ptrs p))) (slot (tp_ptrs p))); [done|].
    intros i j Hj%list_elem_of_lookup_2; apply elem_of_seqZ in Hj; apply Hsl; lia.
  - eapply threads_move; [done..| |].
    + simpl; rewrite slot_insert, decide_True by done; done.
    + intros c2 Hco Hok; split; [|exact Hco]; destruct Hco as (_ & H' & _); specialize (H' eq_refl).
      destruct c2; simpl in *; try done; rewrite Hsl by lia; done.
Qed.

Lemma free_advance p ts own fr A C F t b :
  pool_ok p own fr A C F -> threads_ok ts p fr A C F -> ts !! t = Some (FAdvance b) ->
  ts_inv (TS (tp_set_free p (MUGGLE_IDX_IN_POW_OF_2_RING (u32 (tp_free_idx p + 1)) (tp_capacity p)))
    (<[t := FUnlock]> ts) own (filter (.≠ b) fr)).
Proof.
  intros Hp Ht Hc; destruct (to_pc _ _ _ _ _ _ Ht t _ Hc) as (Hb & Hl & Hsl).
  pose proof (freeing_room _ _ _ _ _ _ _ Hp Hb) as Hlt; pose proof (outside_nodup _ _ _ _ _ _ Hp) as Hnd.
  rewrite (po_free _ _ _ _ _ _ Hp), next_ring_idx by apply Hp; exists A, C, (F + 1); simpl; split.
  - pose proof Hp as [H1 H2 H3 H4 H5 H6 H7 H8 H9 H10 H11]; split; simpl; try done; try lia.
    rewrite <- H11; f_equiv; unfold window.
    replace (F + 1 + 2 ^ k - A) with (F + 2 ^ k - A + 1) by lia; rewrite seqZ_app by lia.
    rewrite map_app; replace (A + (F + 2 ^ k - A)) with (F + 2 ^ k) by lia.
    change (seqZ (F + 2 ^ k) 1) with [0 + (F + 2 ^ k)]; cbn [map]; rewrite Z.add_0_l.
    assert (slot (tp_ptrs p) (F + 2 ^ k) = b) as ->.
    { rewrite <- Hsl; unfold slot; replace (F + 2 ^ k) with (F + 1 * 2 ^ k) by lia; by rewrite Z_mod_plus_full. }
    apply NoDup_app in Hnd as (_ & _ & Hnd); rewrite (filter_split b fr Hb Hnd) at 2.
    rewrite (Permutation_app_comm _ [b]); simpl; rewrite <- Permutation_middle; done.
  - eapply threads_move; [done..|done|]; intros c2 (Ha & Hi & Hf) Hok; specialize (Hi eq_refl).
    split; [|split; [done|]; split; [done|done]].
    destruct c2 as [|e|e pos|e pos f|e pos|e pos|e pos d|b2|b2|b2| |d|]; simpl in *; try done.
    + destruct Hok as (-> & -> & G & HG & ->); split; [done|]; split; [done|]; exists G; split; [lia|done].
    + apply list_elem_of_filter; split; [|done]; intros ->; by apply (Hf b).
Qed.

Lemma free_unlock p ts own fr A C F t :
  pool_ok p own fr A C F -> threads_ok ts p fr A C F -> ts !! t = Some FUnlock ->
  ts_inv (TS (tp_set_lock p false) (delete t ts) own fr).
Proof.
  intros Hp Ht Hc; exists A, C, F; simpl; split; [destruct Hp; split; done|].
  eapply threads_leave; [done..|]; intros c2 (_ & Hi & _) Hok; specialize (Hi eq_refl); by destruct c2.
Qed.

Lemma ts_act_inv s a s' :
  ts_inv s -> ts_act s a = Some s' ->
  (forall t, a = CallAlloc t -> map_Forall (fun _ c => allocating c = false) (ts_threads s)) -> ts_inv s'.
Proof.
  intros (A & C & F & Hp & Ht) E Hsingle; destruct s as [p ts own fr]; simpl in *.
  destruct a as [t|t d|t w].
  - case_decide as Hn; simplify_eq; exists A, C, F; split; [done|]; simpl.
    eapply threads_enter; [done..|]; intros t2 c2 H2 Hok; split; [done|]; split; [|done].
    intros _; exact (Hsingle t eq_refl t2 c2 H2).
  - case_decide as Hn; [|done]; destruct Hn as [Hn Hd]; unfold muggle_ts_memory_pool_free in E.
    case_decide as Hh; [|done]; simpl in E; simplify_eq.
    pose proof (outside_nodup _ _ _ _ _ _ Hp) as Hnd; apply NoDup_app in Hnd as (Hnd & Hdis & Hnf).
    exists A, C, F; simpl; split.
    + destruct Hp as [H1 H2 H3 H4 H5 H6 H7 H8 H9 H10 H11]; split; try done; rewrite <- H11.
      rewrite (filter_split d own Hd) at 2 by (by eapply NoDup_fmap_1); simpl.
      by rewrite <- Permutation_middle.
    + eapply threads_enter; [done|done|by left|]; intros t2 c2 H2 Hok; split.
      { destruct c2; simpl in *; try done; try (destruct Hok; split; [|done]); by right. }
      split; [done|]; split; [done|]; simpl; intros b [= <-] Hf.
      apply (Hdis (d - sizeof_ts_head)); [by apply (list_elem_of_fmap_2 (fun d => d - sizeof_ts_head))|].
      destruct c2; simpl in *; simplify_eq; done || apply Hok.
  - destruct (ts !! t) as [c|] eqn:Hc; [|done]; simpl in E.
    destruct (ts_local_step p w c) as [[p' c']|] eqn:El; [|done]; simpl in E; simplify_eq.
    destruct (allocating c) eqn:Ha.
    + assert (muggle_ts_memory_pool_alloc_step p w c = Some (p', c')) as El' by (by destruct c).
      pose proof (alloc_step_inv _ _ _ _ _ _ _ _ _ _ _ _ Hp Ht Hc Ha El') as H.
      destruct c' as [| | | | | | | | | | |[d|]|]; destruct c; done.
    + destruct c as [| | | | | | |b|b|b| |d|]; simpl in El; try done.
      * destruct (tp_free_spinlock p) eqn:Els; simplify_eq; [|by eapply free_lock].
        exists A, C, F; split; [done|]; simpl; eapply threads_move; [done..|by eapply (to_pc _ _ _ _ _ _ Ht)|done].
      * destruct (wr (tp_ptrs p) (tp_free_idx p) b) as [l|] eqn:Ew; simpl in El; simplify_eq; by eapply free_write.
      * simplify_eq; by eapply free_advance.
      * simplify_eq; by eapply free_unlock.
Qed.

Lemma ts_reach_inv s s' : ts_reach s s' -> ts_inv s -> ts_inv s'.
Proof. induction 1; eauto using ts_act_inv. Qed.

(** No step faults. *)
Lemma ts_step_total p own fr A C F w c :
  pool_ok p own fr A C F -> pc_ok p fr A C F c -> is_Some (ts_local_step p w c).
Proof.
  intros Hp Hok; pose proof pow_pos_k.
  assert (forall x, 0 <= x mod 2 ^ k < Z.of_nat (length (tp_ptrs p))) as Hr.
  { intros x; rewrite (po_len _ _ _ _ _ _ Hp); apply Z.mod_pos_bound; lia. }
  destruct c as [|e|e pos|e pos f|e pos|e pos|e pos d|b|b|b| |d|]; simpl in *; try (eexists; reflexivity); try done.
  - destruct Hok as (-> & _); destruct (rd_is_Some (tp_ptrs p) (A mod 2 ^ k) (Hr A)) as [b ->]; by eexists.
  - rewrite (po_free _ _ _ _ _ _ Hp), wr_Some by apply Hr; by eexists.
Qed.

Lemma in_blocks b : b ∈ all_blocks -> 0 <= b /\ b + bs <= 2 ^ k * bs /\ (bs | b).
Proof.
  intros (i & -> & Hi)%list_elem_of_fmap; apply elem_of_seqZ in Hi; unfold sizeof_ts_head in *.
  split; [nia|]; split; [nia|]; by exists i; lia.
Qed.

Lemma ts_owned_facts p own fr A C F : pool_ok p own fr A C F ->
  NoDup own /\
  (forall d, d ∈ own -> sizeof_ts_head <= d /\ d - sizeof_ts_head + bs <= 2 ^ k * bs /\
     is_Some (muggle_ts_memory_pool_free p d)) /\
  (forall d e, d ∈ own -> e ∈ own -> d <> e -> bs <= Z.abs (d - e)).
Proof.
  intros Hp; pose proof (outside_nodup _ _ _ _ _ _ Hp) as Hnd; apply NoDup_app in Hnd as (Hnd & _ & _).
  assert (forall d, d ∈ own -> d - sizeof_ts_head ∈ all_blocks) as Hin.
  { intros d Hd; rewrite <- (po_perm _ _ _ _ _ _ Hp), elem_of_app; left.
    by apply (list_elem_of_fmap_2 (fun d => d - sizeof_ts_head)). }
  split; [by eapply NoDup_fmap_1|]; split.
  - intros d Hd; pose proof (Hin d Hd) as Hb; destruct (in_blocks _ Hb) as (H1 & H2 & _).
    split; [lia|]; split; [lia|]; unfold muggle_ts_memory_pool_free.
    rewrite decide_True by (by apply (po_heads _ _ _ _ _ _ Hp)); by eexists.
  - intros d e Hd He Hne; destruct (in_blocks _ (Hin d Hd)) as (_ & _ & x & Hx).
    destruct (in_blocks _ (Hin e He)) as (_ & _ & y & Hy); unfold sizeof_ts_head in *.
    assert (x < y \/ y < x) as [|] by nia; nia.
Qed.
End Invariant.

(** ** Initialisation *)

Definition ts_capacity (capacity : Z) : Z := muggle_next_pow_of_2 capacity.
Definition ts_block_size (data_size : Z) : Z := MUGGLE_ALIGN_TRUE_SHARING (sizeof_ts_head + data_size).

Lemma init_ts_blocks bs n : sizeof_ts_head <= bs < 2 ^ 32 -> 0 <= n <= 2 ^ 31 ->
  exists h, for_up (init_ts_block (n * bs) bs) (Z.to_nat n) 0 (∅, []) = Some (h, map (Z.mul bs) (seqZ 0 n)) /\
    forall b, b ∈ map (Z.mul bs) (seqZ 0 n) -> b ∈ h.
Proof.
  intros Hbs Hn; unfold sizeof_ts_head in Hbs.
  destruct (for_up_inv (init_ts_block (n * bs) bs)
    (fun j s => s.2 = map (Z.mul bs) (seqZ 0 j) /\ forall b, b ∈ s.2 -> b ∈ s.1) (Z.to_nat n) 0 (∅, [])) as ([h l] & Hh & HP & HQ).
  - split; [done|]; intros b Hb; set_solver.
  - intros j [h l] Hj [El Hh]; simpl in El, Hh; subst l; assert (bs * j + bs <= n * bs) by nia; unfold init_ts_block; simpl.
    rewrite wrap_small by (unfold in_width; nia); unfold sizeof_ts_head.
    rewrite (proj2 (Z.leb_le _ _)) by lia; eexists; split; [done|]; simpl; split.
    + rewrite seqZ_app by lia; rewrite map_app; f_equal; change (seqZ (0 + j) 1) with [0 + (0 + j)]; cbn [map]; by rewrite !Z.add_0_l.
    + intros b [Hb| ->%list_elem_of_singleton]%elem_of_app; [|set_solver]; apply Hh in Hb; set_solver.
  - rewrite Z2Nat.id, Z.add_0_l in HP by lia; simpl in *; subst l; by exists h.
Qed.

Lemma ts_init_spec capacity data_size :
  0 < capacity <= 2 ^ 31 -> 0 < data_size < 2 ^ 32 - 256 ->
  exists p k, muggle_ts_memory_pool_init true true capacity data_size = Some (inr p) /\
    0 <= k <= 31 /\ ts_capacity capacity = 2 ^ k /\ data_size + sizeof_ts_head <= ts_block_size data_size /\
    ts_inv k (ts_block_size data_size) (TS p ∅ [] []).
Proof.
  intros Hc Hd; destruct (next_pow_of_2_exp capacity) as (k & Hk & Ek & Hle & Hleast); [lia|].
  pose proof (align_true_sharing_spec (sizeof_ts_head + data_size) ltac:(unfold sizeof_ts_head; lia)) as Hb.
  fold (ts_block_size data_size) in Hb; unfold sizeof_ts_head in Hb.
  assert (k <= 31) as Hk2 by (apply Hleast; lia).
  assert (0 < 2 ^ k <= 2 ^ 31) as Hpow by (split; [lia|apply Z.pow_le_mono_r; lia]).
  unfold muggle_ts_memory_pool_init; rewrite !(proj2 (Z.leb_gt _ _)) by lia; rewrite Ek.
  rewrite (wrap_small 32 (2 ^ k)) by (unfold in_width; lia); rewrite (proj2 (Z.leb_gt (2 ^ k) 0)) by lia.
  rewrite (wrap_small 32 (sizeof_ts_head + data_size)) by (unfold in_width, sizeof_ts_head; lia).
  fold (ts_block_size data_size); rewrite (proj2 (Z.leb_gt (ts_block_size data_size) 0)) by lia; simpl.
  rewrite wrap_small by (unfold in_width; nia).
  destruct (init_ts_blocks (ts_block_size data_size) (2 ^ k)) as (h & -> & Hh); [unfold sizeof_ts_head; lia|lia|]; simpl.
  eexists _, k; split; [done|]; split; [lia|]; split; [done|]; split; [unfold sizeof_ts_head; lia|].
  exists 0, 0, 0; simpl; split; [|split; intros; simplify_map_eq].
  split; simpl; try done; try lia.
  - rewrite length_map, length_seqZ; lia.
  - unfold window, all_blocks; rewrite Z.sub_0_r, Z.add_0_l.
    rewrite (list_fmap_ext (slot k (map (Z.mul (ts_block_size data_size)) (seqZ 0 (2 ^ k)))) (Z.mul (ts_block_size data_size))); [done|].
    intros i x Hx.
    apply lookup_seqZ in Hx as [-> Hx]; unfold slot; rewrite Z.mod_small by lia.
    rewrite Z.add_0_l, rd_nat; rewrite list_lookup_fmap, lookup_seqZ_lt by lia; done.
Qed.

(** ** Properties *)

(** C27: with memory, any capacity up to 2^31 and any data size, [init]
    succeeds, and in every interleaving of frees by any threads with
    allocations that do not overlap: the blocks in use are distinct, lie in the
    memory of the pool, with room for the data, and apart from each other; at
    most capacity - 1 are in use; no step faults, and neither does the free of a
    block in use; an allocation returns a block that is not in use. *)
Theorem ts_pool_single_allocator_safe (capacity data_size : Z)
  (Hc : 0 < capacity <= 2 ^ 31) (Hd : 0 < data_size < 2 ^ 32 - 256) :
  exists p, muggle_ts_memory_pool_init true true capacity data_size = Some (inr p) /\
  forall s, ts_reach (TS p ∅ [] []) s ->
    NoDup (ts_owned s) /\ Z.of_nat (length (ts_owned s) + length (ts_freeing s)) <= ts_capacity capacity - 1 /\
    (forall d, d ∈ ts_owned s -> sizeof_ts_head <= d /\
       (exists bytes, tp_data (ts_pool s) = Some bytes /\ d + data_size <= bytes) /\
       is_Some (muggle_ts_memory_pool_free (ts_pool s) d)) /\
    (forall d e, d ∈ ts_owned s -> e ∈ ts_owned s -> d <> e -> sizeof_ts_head + data_size <= Z.abs (d - e)) /\
    (forall t c w, ts_threads s !! t = Some c -> exists p' c', ts_local_step (ts_pool s) w c = Some (p', c') /\
       forall d, c' = ADone (Some d) -> d ∉ ts_owned s).
Proof.
  destruct (ts_init_spec capacity data_size Hc Hd) as (p & k & Hi & Hk & Ek & Hb & HI); rewrite Ek.
  assert (sizeof_ts_head <= ts_block_size data_size) as Hbs by lia.
  exists p; split; [done|]; intros s Hr; pose proof (ts_reach_inv k _ Hk Hbs _ _ Hr HI) as HJ.
  pose proof HJ as (A & C & F & Hp & Ht); destruct (ts_owned_facts k _ Hk Hbs _ _ _ _ _ _ Hp) as (H1 & H2 & H3).
  split; [done|]; split; [|split; [|split]].
  - rewrite (outside_count k _ Hk _ _ _ _ _ _ Hp); pose proof (po_room _ _ _ _ _ _ _ _ Hp).
    pose proof (po_le _ _ _ _ _ _ _ _ Hp); lia.
  - intros d (Hd1 & Hd2 & Hd3)%H2; split; [done|]; split; [|done].
    rewrite (po_data _ _ _ _ _ _ _ _ Hp); eexists; split; [done|]; lia.
  - intros d e Hd1 He1 Hne; specialize (H3 d e Hd1 He1 Hne); lia.
  - intros t c w Hc2; destruct (ts_step_total k _ Hk _ _ _ _ _ _ w c Hp (to_pc _ _ _ _ _ _ _ Ht t c Hc2)) as [[p' c'] E].
    exists p', c'; split; [done|]; intros d ->.
    assert (ts_act s (Run t w) = Some (TS p' (delete t (ts_threads s)) (d :: ts_owned s) (ts_freeing s))) as Ea.
    { destruct s; simpl in *; by rewrite Hc2; simpl; rewrite E. }
    destruct (ts_act_inv k _ Hk Hbs _ _ _ HJ Ea ltac:(done)) as (A' & C' & F' & Hp' & _).
    destruct (ts_owned_facts k _ Hk Hbs _ _ _ _ _ _ Hp') as (Hnd & _); by apply NoDup_cons in Hnd as [? _].
Qed.

Lemma ts_pool_single_allocator_safe_witness :
  exists p, muggle_ts_memory_pool_init true true 4 100 = Some (inr p) /\
  forall s, ts_reach (TS p ∅ [] []) s -> NoDup (ts_owned s).
Proof.
  destruct (ts_pool_single_allocator_safe 4 100) as (p & Hi & H); [lia|lia|].
  exists p; split; [done|]; intros s Hr; exact (proj1 (H s Hr)).
Defined.

Definition alloc_by (t n : nat) : list ts_action := CallAlloc t :: replicate n (Run t false).
Definition free_by (t : nat) (d : Z) : list ts_action := CallFree t d :: replicate 4 (Run t false).

(** Thread 1 reads index 0 and the block there and is overtaken: thread 2
    allocates three blocks, frees the last two of them and allocates again,
    which brings the index back to 0. *)
Definition overtaken : list ts_action :=
  alloc_by 1 3 ++ alloc_by 2 4 ++ alloc_by 2 4 ++ alloc_by 2 4 ++
  free_by 2 264 ++ free_by 2 520 ++ alloc_by 2 7 ++ [Run 1 false].

(** With two allocating threads a block is handed out twice: the
    compare-and-exchange of an allocation that was overtaken by a whole turn of
    the ring succeeds, although the block it has read is in use. *)
Theorem ts_pool_two_allocators_defect :
  exists p s, muggle_ts_memory_pool_init true true 4 100 = Some (inr p) /\
    ts_run (TS p ∅ [] []) overtaken = Some s /\ ts_owned s = [8; 776; 8].
Proof.
  destruct (muggle_ts_memory_pool_init true true 4 100) as [[|p]|] eqn:E; [by vm_compute in E| |by vm_compute in E].
  assert (ts_owned <$> ts_run (TS p ∅ [] []) overtaken = Some [8; 776; 8]) as H.
  { injection E as <-; vm_compute; done. }
  destruct (ts_run (TS p ∅ [] []) overtaken) as [s|] eqn:Er; [|done]; exists p, s.
  split; [done|]; split; [exact Er|]; by injection H.
Qed.
