(* ===== verification/OrderedMap.v ===== *)
(** * Ordered maps

    The abstract specification of the search tree: a list of entries (key and
    value), strictly ordered by the comparison function of the keys. *)
From S2P Require Import Prelude Utils.

Section OrderedMap.
Context (cmp : Z -> Z -> Z).
Implicit Types (l : list (Z * Z)) (e : Z * Z).

Definition entry_lt e1 e2 : Prop := cmp e1.1 e2.1 < 0.
Definition ordered l : Prop := StronglySorted entry_lt l.

(** The entry whose key compares equal. *)
Fixpoint om_find (key : Z) l : option (Z * Z) :=
  match l with
  | [] => None
  | e :: l => if cmp key e.1 =? 0 then Some e else om_find key l
  end.

Fixpoint om_insert (key value : Z) l : list (Z * Z) :=
  match l with
  | [] => [(key, value)]
  | e :: l => if cmp key e.1 <? 0 then (key, value) :: e :: l else e :: om_insert key value l
  end.

Fixpoint om_delete (key : Z) l : list (Z * Z) :=
  match l with
  | [] => []
  | e :: l => if cmp key e.1 =? 0 then l else e :: om_delete key l
  end.

(** All keys of [l] are below, or above, [key]. *)
Definition below (key : Z) l : Prop := Forall (fun e => 0 < cmp key e.1) l.
Definition above (key : Z) l : Prop := Forall (fun e => cmp key e.1 < 0) l.

Lemma om_find_split key l1 e l2 : below key l1 -> cmp key e.1 = 0 -> om_find key (l1 ++ e :: l2) = Some e.
Proof.
  intros Hb He; induction Hb as [|x l1 Hx Hb IH]; simpl.
  - by rewrite (proj2 (Z.eqb_eq _ _) He).
  - by rewrite (proj2 (Z.eqb_neq _ _)) by lia.
Qed.

Lemma om_find_none key l1 l2 : below key l1 -> above key l2 -> om_find key (l1 ++ l2) = None.
Proof.
  intros Hb Ha; induction Hb as [|x l1 Hx Hb IH]; simpl.
  - induction Ha as [|x l2 Hx Ha IH]; simpl; [done|]; by rewrite (proj2 (Z.eqb_neq _ _)) by lia.
  - by rewrite (proj2 (Z.eqb_neq _ _)) by lia.
Qed.

Lemma om_insert_split key value l1 l2 :
  below key l1 -> above key l2 -> om_insert key value (l1 ++ l2) = l1 ++ (key, value) :: l2.
Proof.
  intros Hb Ha; induction Hb as [|x l1 Hx Hb IH]; simpl.
  - destruct Ha as [|x l2 Hx Ha]; simpl; [done|]; by rewrite (proj2 (Z.ltb_lt _ _)).
  - rewrite (proj2 (Z.ltb_ge _ _)) by lia; by rewrite IH.
Qed.

Lemma om_delete_split key l1 e l2 : below key l1 -> cmp key e.1 = 0 -> om_delete key (l1 ++ e :: l2) = l1 ++ l2.
Proof.
  intros Hb He; induction Hb as [|x l1 Hx Hb IH]; simpl.
  - by rewrite (proj2 (Z.eqb_eq _ _) He).
  - rewrite (proj2 (Z.eqb_neq _ _)) by lia; by rewrite IH.
Qed.

Context `{!CmpLaws cmp}.

Lemma cmp_self a : cmp a a = 0.
Proof. pose proof (cmp_flip a a); pose proof (cmp_refl (cmp := cmp) a); lia. Qed.

Lemma entry_lt_trans : Transitive entry_lt.
Proof.
  intros x y z Hxy Hyz; unfold entry_lt in *; apply (cmp_lt_le _ y.1); [done|lia].
Qed.

(** The entries around one of an ordered list. *)
Lemma ordered_around l1 e l2 : ordered (l1 ++ e :: l2) <->
  ordered l1 /\ ordered l2 /\ below e.1 l1 /\ above e.1 l2.
Proof.
  unfold ordered, below, above; rewrite StronglySorted_app, StronglySorted_cons, !Forall_forall.
  unfold entry_lt; split.
  - intros (H1 & H2 & H3 & H4); split_and!; [done|done| |].
    + intros x Hx; specialize (H1 x e Hx ltac:(set_solver)); apply cmp_flip in H1; lia.
    + intros x Hx; by apply H3.
  - intros (H1 & H2 & H3 & H4); split_and!; [|done| |done].
    + intros x y Hx [->|Hy]%elem_of_cons; [apply cmp_flip; specialize (H3 x Hx); lia|].
      apply (entry_lt_trans x e y); [apply cmp_flip; specialize (H3 x Hx); lia|by apply H4].
    + intros x Hx; by apply H4.
Qed.

Lemma ordered_delete l1 e l2 : ordered (l1 ++ e :: l2) ->
  om_delete e.1 (l1 ++ e :: l2) = l1 ++ l2 /\ ordered (l1 ++ l2).
Proof.
  intros (H1 & H2 & H3 & H4)%ordered_around; split; [apply om_delete_split; [done|apply cmp_self]|].
  unfold ordered; rewrite StronglySorted_app; split_and!; [|done|done].
  unfold below, above in *; rewrite Forall_forall in H3, H4.
  intros x y Hx Hy; apply (entry_lt_trans x e y); [apply cmp_flip; specialize (H3 x Hx); lia|by apply H4].
Qed.
End OrderedMap.
