(* ===== verification/AvlShape.v ===== *)
(** * Balanced search trees, without pointers

    The shape that the nodes of [dsaa/avl_tree.c] have in memory, as an
    inductive type: a node with its address, balance factor, key and value.
    A position inside a tree is a context, the list of the nodes above it; the
    loops of the code that walk up through [parent] pointers are functions on
    contexts here.  [AvlTree] proves that the code does to its nodes what
    these functions do to the tree. *)
From S2P Require Import Prelude Utils.

Inductive tree := E | T (a b k v : Z) (l r : tree).

(** The address of the root of a tree. *)
Definition rt (t : tree) : Z := match t with E => NULL | T a _ _ _ _ _ => a end.

Fixpoint addrs (t : tree) : list Z :=
  match t with E => [] | T a _ _ _ l r => a :: addrs l ++ addrs r end.

(** Keys with their values, in order. *)
Fixpoint inorder (t : tree) : list (Z * Z) :=
  match t with E => [] | T _ _ k v l r => inorder l ++ (k, v) :: inorder r end.

Fixpoint height (t : tree) : Z :=
  match t with E => 0 | T _ _ _ _ l r => 1 + Z.max (height l) (height r) end.

(** The balance factors are the differences of the heights, and small. *)
Fixpoint avl (t : tree) : Prop :=
  match t with
  | E => True
  | T _ b _ _ l r => b = height r - height l /\ -1 <= b <= 1 /\ avl l /\ avl r
  end.

(** ** Contexts: the node above a subtree, which is its left or its right *)
Inductive frame :=
| FL (a b k v : Z) (r : tree)
| FR (a b k v : Z) (l : tree).

Definition ctx : Type := list frame.

Definition faddr (f : frame) : Z := match f with FL a _ _ _ _ | FR a _ _ _ _ => a end.
Definition fsib (f : frame) : tree := match f with FL _ _ _ _ t | FR _ _ _ _ t => t end.
Definition fbal (f : frame) : Z := match f with FL _ b _ _ _ | FR _ b _ _ _ => b end.
Definition caddr (c : ctx) : Z := match c with [] => NULL | f :: _ => faddr f end.

Definition fill (f : frame) (t : tree) : tree :=
  match f with FL a b k v r => T a b k v t r | FR a b k v l => T a b k v l t end.

Fixpoint plug (c : ctx) (t : tree) : tree :=
  match c with [] => t | f :: c => plug c (fill f t) end.

Fixpoint caddrs (c : ctx) : list Z :=
  match c with [] => [] | f :: c => faddr f :: addrs (fsib f) ++ caddrs c end.

(** The entries before and after the position. *)
Fixpoint before (c : ctx) : list (Z * Z) :=
  match c with
  | [] => []
  | FL _ _ _ _ _ :: c => before c
  | FR _ _ k v l :: c => before c ++ inorder l ++ [(k, v)]
  end.
Fixpoint after (c : ctx) : list (Z * Z) :=
  match c with
  | [] => []
  | FL _ _ k v r :: c => (k, v) :: inorder r ++ after c
  | FR _ _ _ _ _ :: c => after c
  end.

(** The root pointer of the whole tree, when the subtree is at [p]. *)
Fixpoint croot (c : ctx) (p : Z) : Z := match c with [] => p | f :: c => croot c (faddr f) end.

(** [plug c t] is balanced when [t] is and has height [h]. *)
Fixpoint cavl (c : ctx) (h : Z) : Prop :=
  match c with
  | [] => True
  | f :: c =>
      let d := match f with FL _ _ _ _ r => height r - h | FR _ _ _ _ l => h - height l end in
      fbal f = d /\ -1 <= d <= 1 /\ avl (fsib f) /\ cavl c (1 + Z.max h (height (fsib f)))
  end.

Lemma plug_app c1 c2 t : plug (c1 ++ c2) t = plug c2 (plug c1 t).
Proof. revert t; induction c1 as [|f c1 IH]; intros t; simpl; auto. Qed.

Lemma fill_addrs f t : addrs (fill f t) ≡ₚ faddr f :: addrs (fsib f) ++ addrs t.
Proof. destruct f; simpl; [|done]; by rewrite (Permutation_app_comm (addrs t)). Qed.

Lemma plug_addrs c t : addrs (plug c t) ≡ₚ addrs t ++ caddrs c.
Proof.
  revert t; induction c as [|f c IH]; intros t; simpl; [by rewrite app_nil_r|].
  rewrite IH, fill_addrs; simpl; rewrite <- Permutation_middle; constructor.
  rewrite <- app_assoc, (Permutation_app_comm (addrs (fsib f))), <- app_assoc.
  apply Permutation_app_head, Permutation_app_comm.
Qed.

Lemma plug_inorder c t : inorder (plug c t) = before c ++ inorder t ++ after c.
Proof.
  revert t; induction c as [|[a b k v r|a b k v l] c IH]; intros t; simpl; [by rewrite app_nil_r|..];
    rewrite IH; simpl; by rewrite <- !app_assoc.
Qed.

Lemma plug_rt c t : rt (plug c t) = croot c (rt t).
Proof. revert t; induction c as [|[] c IH]; intros t; simpl; [done|..]; by rewrite IH. Qed.

Lemma height_nonneg t : 0 <= height t.
Proof. induction t; simpl; lia. Qed.

Lemma fill_height f t : height (fill f t) = 1 + Z.max (height t) (height (fsib f)).
Proof. destruct f; simpl; lia. Qed.

Lemma plug_avl c t : avl (plug c t) <-> avl t /\ cavl c (height t).
Proof.
  revert t; induction c as [|f c IH]; intros t; simpl; [tauto|].
  rewrite IH, fill_height; destruct f; simpl; intuition lia.
Qed.

(** ** Rotations *)

(** The four cases of [muggle_avl_tree_rebalance]: the new subtree, and
    whether it is lower than before. *)
Definition rotl (t : tree) : tree * bool :=
  match t with
  | T x _ kx vx t1 (T z bz kz vz t23 t4) =>
      if bz =? 0 then (T z (-1) kz vz (T x 1 kx vx t1 t23) t4, false)
      else (T z 0 kz vz (T x 0 kx vx t1 t23) t4, true)
  | t => (t, false)
  end.

Definition rotr (t : tree) : tree * bool :=
  match t with
  | T x _ kx vx (T z bz kz vz t4 t23) t1 =>
      if bz =? 0 then (T z 1 kz vz t4 (T x (-1) kx vx t23 t1), false)
      else (T z 0 kz vz t4 (T x 0 kx vx t23 t1), true)
  | t => (t, false)
  end.

Definition rotrl (t : tree) : tree :=
  match t with
  | T x _ kx vx t1 (T z _ kz vz (T y by_ ky vy t2 t3) t4) =>
      let bx := if by_ >? 0 then -1 else 0 in
      let bz := if by_ <? 0 then 1 else 0 in
      T y 0 ky vy (T x bx kx vx t1 t2) (T z bz kz vz t3 t4)
  | t => t
  end.

Definition rotlr (t : tree) : tree :=
  match t with
  | T x _ kx vx (T z _ kz vz t4 (T y by_ ky vy t3 t2)) t1 =>
      let bx := if by_ <? 0 then 1 else 0 in
      let bz := if by_ >? 0 then -1 else 0 in
      T y 0 ky vy (T z bz kz vz t4 t3) (T x bx kx vx t2 t1)
  | t => t
  end.

Definition bal (t : tree) : Z := match t with E => 0 | T _ b _ _ _ _ => b end.
Definition lsub (t : tree) : tree := match t with E => E | T _ _ _ _ l _ => l end.
Definition rsub (t : tree) : tree := match t with E => E | T _ _ _ _ _ r => r end.

Definition rebal (t : tree) : tree * bool :=
  if bal t <? -1 then if bal (lsub t) <=? 0 then rotr t else (rotlr t, true)
  else if bal t >? 1 then if bal (rsub t) >=? 0 then rotl t else (rotrl t, true)
  else (t, false).

(** A node that leans over by two. *)
Definition leaning (t : tree) : Prop :=
  match t with
  | E => False
  | T _ b _ _ l r => b = height r - height l /\ (b = 2 \/ b = -2) /\ avl l /\ avl r
  end.

Ltac avl_cases :=
  repeat match goal with
  | H : _ /\ _ |- _ => destruct H
  | |- context [?x =? ?y] => destruct (Z.eqb_spec x y)
  | |- context [?x <? ?y] => destruct (Z.ltb_spec x y)
  | |- context [?x <=? ?y] => destruct (Z.leb_spec x y)
  | |- context [?x >? ?y] => rewrite (Z.gtb_ltb x y)
  | |- context [?x >=? ?y] => rewrite (Z.geb_leb x y)
  end.

(** What a rotation keeps. *)
Definition rotated (t t' : tree) (d : bool) : Prop :=
  avl t' /\ inorder t' = inorder t /\ addrs t' ≡ₚ addrs t /\
  height t' = height t - (if d then 1 else 0).

Ltac rot_heights :=
  repeat match goal with t : tree |- _ =>
    lazymatch goal with
    | _ : 0 <= height t |- _ => fail
    | _ => pose proof (height_nonneg t)
    end end;
  cbn [avl height fst snd] in *; avl_cases; cbn [avl height fst snd]; intuition lia.

Ltac rot_addrs :=
  cbn [addrs]; rewrite <- ?app_assoc; cbn [app]; rewrite <- ?app_assoc; solve_Permutation.

Lemma rotl_spec t : leaning t -> bal t = 2 -> 0 <= bal (rsub t) ->
  rotated t (rotl t).1 (rotl t).2.
Proof.
  destruct t as [|x b kx vx t1 [|z bz kz vz t23 t4]]; cbn [leaning bal rsub]; [done| |].
  { intros (? & ? & ? & ?) ?; pose proof (height_nonneg t1); simpl in *; lia. }
  intros (Hb & _ & A1 & A2) Hb2 Hbz; split_and!.
  - cbn [rotl]; rot_heights.
  - cbn [rotl]; destruct (bz =? 0); cbn [fst inorder]; by rewrite <- !app_assoc.
  - cbn [rotl]; destruct (bz =? 0); cbn [fst]; rot_addrs.
  - cbn [rotl]; rot_heights.
Qed.

Lemma rotr_spec t : leaning t -> bal t = -2 -> bal (lsub t) <= 0 ->
  rotated t (rotr t).1 (rotr t).2.
Proof.
  destruct t as [|x b kx vx [|z bz kz vz t4 t23] t1]; cbn [leaning bal lsub]; [done| |].
  { intros (? & ? & ? & ?) ?; pose proof (height_nonneg t1); simpl in *; lia. }
  intros (Hb & _ & A1 & A2) Hb2 Hbz; split_and!.
  - cbn [rotr]; rot_heights.
  - cbn [rotr]; destruct (bz =? 0); cbn [fst inorder]; by rewrite <- !app_assoc.
  - cbn [rotr]; destruct (bz =? 0); cbn [fst]; rot_addrs.
  - cbn [rotr]; rot_heights.
Qed.

Lemma rotrl_spec t : leaning t -> bal t = 2 -> bal (rsub t) < 0 -> rotated t (rotrl t) true.
Proof.
  destruct t as [|x b kx vx t1 [|z bz kz vz [|y by_ ky vy t2 t3] t4]]; cbn [leaning bal rsub]; [done|lia| |].
  { intros (? & ? & ? & ?) ? ?; pose proof (height_nonneg t4); simpl in *; lia. }
  intros (Hb & _ & A1 & A2) Hb2 Hbz; split_and!.
  - cbn [rotrl]; rot_heights.
  - cbn [rotrl inorder]; rewrite <- ?app_assoc; cbn [app]; by rewrite <- ?app_assoc.
  - cbn [rotrl]; rot_addrs.
  - cbn [rotrl]; rot_heights.
Qed.

Lemma rotlr_spec t : leaning t -> bal t = -2 -> 0 < bal (lsub t) -> rotated t (rotlr t) true.
Proof.
  destruct t as [|x b kx vx [|z bz kz vz t4 [|y by_ ky vy t3 t2]] t1]; cbn [leaning bal lsub]; [done|lia| |].
  { intros (? & ? & ? & ?) ? ?; pose proof (height_nonneg t4); simpl in *; lia. }
  intros (Hb & _ & A1 & A2) Hb2 Hbz; split_and!.
  - cbn [rotlr]; rot_heights.
  - cbn [rotlr inorder]; rewrite <- ?app_assoc; cbn [app]; by rewrite <- ?app_assoc.
  - cbn [rotlr]; rot_addrs.
  - cbn [rotlr]; rot_heights.
Qed.

Lemma rebal_spec t : leaning t -> rotated t (rebal t).1 (rebal t).2.
Proof.
  intros Hl; assert (bal t = 2 \/ bal t = -2) as Hb by (destruct t; simpl in *; [done|tauto]).
  unfold rebal; avl_cases; try lia.
  - by apply rotr_spec; [|lia|].
  - by apply rotlr_spec; [|lia|].
  - by apply rotl_spec; [|lia|].
  - by apply rotrl_spec; [|lia|].
Qed.

(** ** Walking up after an insertion: the subtree has become higher by one *)

Definition set_fbal (f : frame) (b : Z) : frame :=
  match f with FL a _ k v r => FL a b k v r | FR a _ k v l => FR a b k v l end.

Fixpoint grow (c : ctx) (t : tree) : tree :=
  match c with
  | [] => t
  | f :: c =>
      let b := match f with FL _ b _ _ _ => b - 1 | FR _ b _ _ _ => b + 1 end in
      let n := fill (set_fbal f b) t in
      if b =? 0 then plug c n
      else if (b =? 1) || (b =? -1) then grow c n
      else plug c (rebal n).1
  end.

(** ** Walking up after a removal: the subtree has become lower by one *)

Fixpoint shrink (c : ctx) (t : tree) : tree :=
  match c with
  | [] => t
  | f :: c =>
      let b := match f with FL _ b _ _ _ => b + 1 | FR _ b _ _ _ => b - 1 end in
      let n := fill (set_fbal f b) t in
      if (b =? 1) || (b =? -1) then plug c n
      else if b =? 0 then shrink c n
      else if (rebal n).2 then shrink c (rebal n).1 else plug c (rebal n).1
  end.

Lemma plug_same c t t' :
  inorder t' = inorder t -> addrs t' ≡ₚ addrs t ->
  inorder (plug c t') = inorder (plug c t) /\ addrs (plug c t') ≡ₚ addrs (plug c t).
Proof. intros Hi Ha; by rewrite !plug_inorder, !plug_addrs, Hi, Ha. Qed.

Lemma fill_set_bal f b t :
  inorder (fill (set_fbal f b) t) = inorder (fill f t) /\
  addrs (fill (set_fbal f b) t) = addrs (fill f t).
Proof. by destruct f. Qed.

(** When the heavy child itself leans, a rotation lowers the subtree. *)
Lemma rebal_lowers t : leaning t ->
  (bal t = -2 -> bal (lsub t) <> 0) -> (bal t = 2 -> bal (rsub t) <> 0) -> (rebal t).2 = true.
Proof.
  destruct t as [|x b kx vx l r]; cbn [leaning bal lsub rsub]; [done|].
  intros (Hb & Hb2 & _ & _) Hl Hr; unfold rebal; cbn [bal lsub rsub].
  destruct Hb2 as [E2|E2]; rewrite E2 in *; cbn.
  - specialize (Hr eq_refl); destruct (bal r >=? 0) eqn:Eg; [|done].
    destruct r as [|z bz kz vz t23 t4]; simpl in *; [done|]; by destruct (Z.eqb_spec bz 0).
  - specialize (Hl eq_refl); destruct (bal l <=? 0) eqn:Eg; [|done].
    destruct l as [|z bz kz vz t4 t23]; simpl in *; [done|]; by destruct (Z.eqb_spec bz 0).
Qed.

(** The part that both walks share: the frame with its new balance. *)
Section Frame.
Context (f : frame) (t : tree) (b : Z).

Lemma frame_height : height (fill (set_fbal f b) t) = 1 + Z.max (height t) (height (fsib f)).
Proof. rewrite fill_height; by destruct f. Qed.

Lemma frame_bal : bal (fill (set_fbal f b) t) = b.
Proof. by destruct f. Qed.

Lemma frame_plug c : inorder (plug c (fill (set_fbal f b) t)) = inorder (plug c (fill f t)) /\
  addrs (plug c (fill (set_fbal f b) t)) ≡ₚ addrs (plug c (fill f t)).
Proof. destruct (fill_set_bal f b t) as [Hi Ha]; apply plug_same; [done|by rewrite Ha]. Qed.

Hypothesis b_height :
  b = match f with FL _ _ _ _ r => height r - height t | FR _ _ _ _ l => height t - height l end.
Hypothesis t_avl : avl t.
Hypothesis sib_avl : avl (fsib f).

Lemma frame_avl : -1 <= b <= 1 -> avl (fill (set_fbal f b) t).
Proof. destruct f; simpl in *; intuition lia. Qed.

Lemma frame_leaning : b = 2 \/ b = -2 -> leaning (fill (set_fbal f b) t).
Proof. destruct f; simpl in *; intuition lia. Qed.

Lemma frame_rebal c : b = 2 \/ b = -2 ->
  avl (rebal (fill (set_fbal f b) t)).1 /\
  inorder (plug c (rebal (fill (set_fbal f b) t)).1) = inorder (plug c (fill f t)) /\
  addrs (plug c (rebal (fill (set_fbal f b) t)).1) ≡ₚ addrs (plug c (fill f t)) /\
  height (rebal (fill (set_fbal f b) t)).1
  = 1 + Z.max (height t) (height (fsib f)) - (if (rebal (fill (set_fbal f b) t)).2 then 1 else 0).
Proof.
  intros Hb; destruct (rebal_spec _ (frame_leaning Hb)) as (R1 & R2 & R3 & R4).
  destruct (plug_same c _ _ R2 R3) as [P1 P2]; destruct (frame_plug c) as [P3 P4].
  rewrite <- frame_height; split; [done|]; rewrite P1, P2; done.
Qed.
End Frame.

Lemma avl_grow_spec c t h :
  avl t -> height t = h + 1 -> cavl c h -> bal t <> 0 \/ height t = 1 ->
  avl (grow c t) /\ inorder (grow c t) = inorder (plug c t) /\ addrs (grow c t) ≡ₚ addrs (plug c t).
Proof.
  revert t h; induction c as [|f c IH]; intros t h Ht Hh Hc Hz; cbn [grow plug]; [done|].
  set (b := match f with FL _ b _ _ _ => b - 1 | FR _ b _ _ _ => b + 1 end).
  cbn [cavl] in Hc; destruct Hc as (Hb & Hd & Hs & Hc).
  assert (Hn : b = match f with FL _ _ _ _ r => height r - height t | FR _ _ _ _ l => height t - height l end)
    by (destruct f; simpl in *; lia).
  pose proof (frame_height f t b) as Hfh; pose proof (height_nonneg (fsib f)) as Hp.
  destruct (Z.eqb_spec b 0) as [E0|N0]; [|destruct ((b =? 1) || (b =? -1)) eqn:E1].
  - split; [|by apply frame_plug]; apply plug_avl; rewrite Hfh.
    split; [apply frame_avl; [done..|lia]|].
    replace (1 + Z.max (height t) (height (fsib f))) with (1 + Z.max h (height (fsib f))); [done|].
    destruct f; simpl in *; lia.
  - destruct (IH (fill (set_fbal f b) t) (1 + Z.max h (height (fsib f)))) as (I1 & I2 & I3).
    + apply frame_avl; [done..|lia].
    + rewrite Hfh; destruct f; simpl in *; lia.
    + done.
    + left; rewrite frame_bal; lia.
    + destruct (frame_plug f t b c) as [P1 P2]; split; [done|]; rewrite I2, I3; done.
  - assert (b = 2 \/ b = -2) as Hb2 by (destruct f; simpl in *; lia).
    destruct (frame_rebal f t b Hn Ht Hs c Hb2) as (R1 & R2 & R3 & R4).
    assert ((rebal (fill (set_fbal f b) t)).2 = true) as Hdeep.
    { apply rebal_lowers; [by apply frame_leaning|..]; destruct f; simpl in *; lia. }
    split; [|done]; apply plug_avl; split; [done|]; rewrite R4, Hdeep.
    replace (1 + Z.max (height t) (height (fsib f)) - 1) with (1 + Z.max h (height (fsib f))); [done|].
    destruct f; simpl in *; lia.
Qed.

Lemma shrink_spec c t h :
  avl t -> height t = h - 1 -> cavl c h ->
  avl (shrink c t) /\ inorder (shrink c t) = inorder (plug c t) /\
  addrs (shrink c t) ≡ₚ addrs (plug c t).
Proof.
  revert t h; induction c as [|f c IH]; intros t h Ht Hh Hc; cbn [shrink plug]; [done|].
  set (b := match f with FL _ b _ _ _ => b + 1 | FR _ b _ _ _ => b - 1 end).
  cbn [cavl] in Hc; destruct Hc as (Hb & Hd & Hs & Hc).
  assert (Hn : b = match f with FL _ _ _ _ r => height r - height t | FR _ _ _ _ l => height t - height l end)
    by (destruct f; simpl in *; lia).
  pose proof (frame_height f t b) as Hfh.
  destruct ((b =? 1) || (b =? -1)) eqn:E1; [|destruct (Z.eqb_spec b 0) as [E0|N0]].
  - split; [|by apply frame_plug]; apply plug_avl; rewrite Hfh.
    split; [apply frame_avl; [done..|lia]|].
    replace (1 + Z.max (height t) (height (fsib f))) with (1 + Z.max h (height (fsib f))); [done|].
    destruct f; simpl in *; lia.
  - destruct (IH (fill (set_fbal f b) t) (1 + Z.max h (height (fsib f)))) as (I1 & I2 & I3).
    + apply frame_avl; [done..|lia].
    + rewrite Hfh; destruct f; simpl in *; lia.
    + done.
    + destruct (frame_plug f t b c) as [P1 P2]; split; [done|]; rewrite I2, I3; done.
  - assert (b = 2 \/ b = -2) as Hb2 by (destruct f; simpl in *; lia).
    destruct (frame_rebal f t b Hn Ht Hs c Hb2) as (R1 & R2 & R3 & R4).
    destruct (rebal (fill (set_fbal f b) t)).2 eqn:Hdeep.
    + destruct (IH (rebal (fill (set_fbal f b) t)).1 (1 + Z.max h (height (fsib f)))) as (I1 & I2 & I3);
        [done|rewrite R4; destruct f; simpl in *; lia|done|].
      split; [done|]; rewrite I2, I3; done.
    + split; [|done]; apply plug_avl; split; [done|]; rewrite R4.
      replace (1 + Z.max (height t) (height (fsib f)) - 0) with (1 + Z.max h (height (fsib f))); [done|].
      destruct f; simpl in *; lia.
Qed.
