(* ===== verification/AvlTree.v ===== *)
(** * The AVL tree: [dsaa/avl_tree.c]

    Nodes with pointers to both children and to the parent, allocated from a
    memory pool or by [malloc] ([alloc] and [free], as in [LinkedList]).
    [nodes] is the memory of the nodes that are allocated and not freed; an
    access through any other pointer is [None], and so is a failed
    [MUGGLE_ASSERT].  The data given to [key_func_free] and [value_func_free]
    are returned in the order of the calls; [kf] and [vf] tell whether the two
    functions are not [NULL].

    The balance factor is an [int8_t], incremented and decremented at that
    width. *)
From S2P Require Import Prelude Utils MemoryPool Nodes AvlShape.

Record muggle_avl_tree_node := AN {
  left_of : Z; right_of : Z; parent_of : Z; balance_of : Z; key_of : Z; value_of : Z
}.

(** [cmp] is an argument of the operations. *)
Record muggle_avl_tree (S : Type) := AVL {
  avl_root : Z; avl_pool : S; avl_nodes : gmap Z muggle_avl_tree_node
}.
Arguments AVL {S}. Arguments avl_root {S}. Arguments avl_pool {S}. Arguments avl_nodes {S}.

Definition set_left (v : Z) n := AN v (right_of n) (parent_of n) (balance_of n) (key_of n) (value_of n).
Definition set_right (v : Z) n := AN (left_of n) v (parent_of n) (balance_of n) (key_of n) (value_of n).
Definition set_parent (v : Z) n := AN (left_of n) (right_of n) v (balance_of n) (key_of n) (value_of n).
Definition set_balance (v : Z) n := AN (left_of n) (right_of n) (parent_of n) v (key_of n) (value_of n).
Definition set_key (v : Z) n := AN (left_of n) (right_of n) (parent_of n) (balance_of n) v (value_of n).
Definition set_value (v : Z) n := AN (left_of n) (right_of n) (parent_of n) (balance_of n) (key_of n) v.

(** What is freed by the caller's functions. *)
Inductive freed := FreedKey (p : Z) | FreedValue (p : Z).

Inductive side := AVL_TREE_SIDE_LEFT | AVL_TREE_SIDE_RIGHT.

Section Operations.
Context {S A : Type} (alloc : S -> A -> option (Z * S)) (free : S -> Z -> option S).
Abbreviation avl_t := (muggle_avl_tree S).
Implicit Types t : avl_t.

Definition nget t (p : Z) : option muggle_avl_tree_node := avl_nodes t !! p.

Definition nmod t (p : Z) (f : muggle_avl_tree_node -> muggle_avl_tree_node) : option avl_t :=
  n ← nget t p; Some (AVL (avl_root t) (avl_pool t) (<[p := f n]> (avl_nodes t))).

Definition set_root t (p : Z) : avl_t := AVL p (avl_pool t) (avl_nodes t).

Definition require (b : bool) : option unit := if b then Some tt else None.

Definition muggle_avl_tree_allocate_node t (a : A) : option (Z * avl_t) :=
  '(r, s) ← alloc (avl_pool t) a;
  if r =? NULL then Some (NULL, AVL (avl_root t) s (avl_nodes t))
  else Some (r, AVL (avl_root t) s (<[r := AN NULL NULL NULL 0 NULL NULL]> (avl_nodes t))).

(** [node->key] (or [value]) given to its free function, and reset. *)
Definition erase_key t (node : Z) (kf : bool) : option (list freed * avl_t) :=
  n ← nget t node;
  if key_of n =? NULL then Some ([], t)
  else t ← nmod t node (set_key NULL); Some (if kf then [FreedKey (key_of n)] else [], t).

Definition erase_value t (node : Z) (vf : bool) : option (list freed * avl_t) :=
  n ← nget t node;
  if value_of n =? NULL then Some ([], t)
  else t ← nmod t node (set_value NULL); Some (if vf then [FreedValue (value_of n)] else [], t).

(** [if (parent) { if (parent->left == node) parent->left = p; else parent->right = p; }]. *)
Definition set_child t (parent node p : Z) : option avl_t :=
  if parent =? NULL then Some t
  else
    n ← nget t parent;
    if left_of n =? node then nmod t parent (set_left p) else nmod t parent (set_right p).

Definition free_tree_node t (node : Z) : option avl_t :=
  s ← free (avl_pool t) node; Some (AVL (avl_root t) s (delete node (avl_nodes t))).

Fixpoint muggle_avl_tree_erase_node (fuel : nat) t (node : Z) (kf vf : bool)
  : option (list freed * avl_t) :=
  match fuel with
  | O => None
  | Datatypes.S fuel =>
      if node =? NULL then Some ([], t)
      else
        n ← nget t node;
        '(tr1, t) ← (if left_of n =? NULL then Some ([], t)
                     else muggle_avl_tree_erase_node fuel t (left_of n) kf vf);
        n ← nget t node;
        '(tr2, t) ← (if right_of n =? NULL then Some ([], t)
                     else muggle_avl_tree_erase_node fuel t (right_of n) kf vf);
        '(tr3, t) ← erase_key t node kf;
        '(tr4, t) ← erase_value t node vf;
        n ← nget t node;
        t ← set_child t (parent_of n) node NULL;
        t ← free_tree_node t node;
        Some (tr1 ++ tr2 ++ tr3 ++ tr4, t)
  end.

(** ** Rotations *)

(** [if (child) child->parent = p]. *)
Definition set_parent_opt t (child p : Z) : option avl_t :=
  if child =? NULL then Some t else nmod t child (set_parent p).

(** The lines the four rotations share: [p] takes the place of [x]. *)
Definition replace_child t (parent x p : Z) : option avl_t :=
  t ← set_child t parent x p;
  t ← nmod t p (set_parent parent);
  Some (if avl_root t =? x then set_root t p else t).

Definition muggle_avl_tree_rotate_left t (node : Z) : option (bool * avl_t) :=
  xn ← nget t node;
  let parent := parent_of xn in
  let x := node in
  let z := right_of xn in
  zn ← nget t z;
  _ ← require (balance_of xn =? 2);
  _ ← require ((balance_of zn =? 1) || (balance_of zn =? 0));
  t ← replace_child t parent x z;
  zn ← nget t z;
  t ← nmod t x (set_right (left_of zn));
  t ← set_parent_opt t (left_of zn) x;
  t ← nmod t x (set_parent z);
  t ← nmod t z (set_left x);
  zn ← nget t z;
  if balance_of zn =? 0 then
    t ← nmod t x (set_balance 1); t ← nmod t z (set_balance (-1)); Some (false, t)
  else
    t ← nmod t x (set_balance 0); t ← nmod t z (set_balance 0); Some (true, t).

Definition muggle_avl_tree_rotate_right t (node : Z) : option (bool * avl_t) :=
  xn ← nget t node;
  let parent := parent_of xn in
  let x := node in
  let z := left_of xn in
  zn ← nget t z;
  _ ← require (balance_of xn =? -2);
  _ ← require ((balance_of zn =? -1) || (balance_of zn =? 0));
  t ← replace_child t parent x z;
  zn ← nget t z;
  t ← nmod t x (set_left (right_of zn));
  t ← set_parent_opt t (right_of zn) x;
  t ← nmod t x (set_parent z);
  t ← nmod t z (set_right x);
  zn ← nget t z;
  if balance_of zn =? 0 then
    t ← nmod t x (set_balance (-1)); t ← nmod t z (set_balance 1); Some (false, t)
  else
    t ← nmod t x (set_balance 0); t ← nmod t z (set_balance 0); Some (true, t).

Definition muggle_avl_tree_rotate_right_left t (node : Z) : option avl_t :=
  xn ← nget t node;
  let parent := parent_of xn in
  let x := node in
  let z := right_of xn in
  zn ← nget t z;
  let y := left_of zn in
  yn ← nget t y;
  _ ← require (balance_of xn =? 2);
  _ ← require (balance_of zn =? -1);
  let t2 := left_of yn in
  let t3 := right_of yn in
  t ← replace_child t parent x y;
  t ← nmod t x (set_right t2); t ← set_parent_opt t t2 x;
  t ← nmod t z (set_left t3); t ← set_parent_opt t t3 z;
  t ← nmod t y (set_left x); t ← nmod t x (set_parent y);
  t ← nmod t y (set_right z); t ← nmod t z (set_parent y);
  yn ← nget t y;
  t ← (if balance_of yn >? 0 then t ← nmod t x (set_balance (-1)); nmod t z (set_balance 0)
       else if balance_of yn =? 0 then t ← nmod t x (set_balance 0); nmod t z (set_balance 0)
       else t ← nmod t x (set_balance 0); nmod t z (set_balance 1));
  nmod t y (set_balance 0).

Definition muggle_avl_tree_rotate_left_right t (node : Z) : option avl_t :=
  xn ← nget t node;
  let parent := parent_of xn in
  let x := node in
  let z := left_of xn in
  zn ← nget t z;
  let y := right_of zn in
  yn ← nget t y;
  _ ← require (balance_of xn =? -2);
  _ ← require (balance_of zn =? 1);
  let t2 := right_of yn in
  let t3 := left_of yn in
  t ← replace_child t parent x y;
  t ← nmod t x (set_left t2); t ← set_parent_opt t t2 x;
  t ← nmod t z (set_right t3); t ← set_parent_opt t t3 z;
  t ← nmod t y (set_left z); t ← nmod t z (set_parent y);
  t ← nmod t y (set_right x); t ← nmod t x (set_parent y);
  yn ← nget t y;
  t ← (if balance_of yn >? 0 then t ← nmod t x (set_balance 0); nmod t z (set_balance (-1))
       else if balance_of yn =? 0 then t ← nmod t x (set_balance 0); nmod t z (set_balance 0)
       else t ← nmod t x (set_balance 1); nmod t z (set_balance 0));
  nmod t y (set_balance 0).

Definition muggle_avl_tree_rebalance t (node : Z) : option (bool * avl_t) :=
  n ← nget t node;
  if balance_of n <? -1 then
    child ← nget t (left_of n);
    if balance_of child <=? 0 then muggle_avl_tree_rotate_right t node
    else t ← muggle_avl_tree_rotate_left_right t node; Some (true, t)
  else if balance_of n >? 1 then
    child ← nget t (right_of n);
    if balance_of child >=? 0 then muggle_avl_tree_rotate_left t node
    else t ← muggle_avl_tree_rotate_right_left t node; Some (true, t)
  else Some (false, t).

(** ** Clear, find *)

Definition muggle_avl_tree_clear t (kf vf : bool) : option (list freed * avl_t) :=
  if avl_root t =? NULL then Some ([], t)
  else muggle_avl_tree_erase_node (Datatypes.S (size (avl_nodes t))) t (avl_root t) kf vf.

Section Compare.
Context (cmp : Z -> Z -> Z).

(** [fuel] bounds the number of nodes that are visited. *)
Fixpoint find_node (fuel : nat) t (node data : Z) : option Z :=
  if node =? NULL then Some NULL
  else match fuel with
  | O => None
  | Datatypes.S fuel =>
      n ← nget t node;
      let ret := cmp data (key_of n) in
      if ret =? 0 then Some node
      else if ret <? 0 then find_node fuel t (left_of n) data
      else find_node fuel t (right_of n) data
  end.

Definition muggle_avl_tree_find t (data : Z) : option Z :=
  find_node (size (avl_nodes t)) t (avl_root t) data.

(** ** Insert *)

(** The loop that finds the parent of the new node: [None] in the result is
    the [return NULL] on an equal key. *)
Fixpoint insert_position (fuel : nat) t (node key : Z) : option (option (Z * side)) :=
  match fuel with
  | O => None
  | Datatypes.S fuel =>
      n ← nget t node;
      let ret := cmp key (key_of n) in
      if ret =? 0 then Some None
      else if ret <? 0 then
        if left_of n =? NULL then Some (Some (node, AVL_TREE_SIDE_LEFT))
        else insert_position fuel t (left_of n) key
      else
        if right_of n =? NULL then Some (Some (node, AVL_TREE_SIDE_RIGHT))
        else insert_position fuel t (right_of n) key
  end.

Definition side_of t (parent node : Z) : option side :=
  n ← nget t parent;
  Some (if left_of n =? node then AVL_TREE_SIDE_LEFT else AVL_TREE_SIDE_RIGHT).

Definition bump t (node delta : Z) : option avl_t :=
  n ← nget t node; nmod t node (set_balance (swrap 8 (balance_of n + delta))).

Fixpoint insert_retrace (fuel : nat) t (node : Z) (sd : side) : option avl_t :=
  match fuel with
  | O => None
  | Datatypes.S fuel =>
      t ← bump t node (match sd with AVL_TREE_SIDE_LEFT => -1 | AVL_TREE_SIDE_RIGHT => 1 end);
      n ← nget t node;
      if balance_of n =? 0 then Some t
      else if (balance_of n =? 1) || (balance_of n =? -1) then
        if parent_of n =? NULL then Some t
        else sd ← side_of t (parent_of n) node; insert_retrace fuel t (parent_of n) sd
      else
        _ ← require ((balance_of n =? 2) || (balance_of n =? -2));
        '(_, t) ← muggle_avl_tree_rebalance t node; Some t
  end.

Definition muggle_avl_tree_insert t (key value : Z) (a : A) : option (Z * avl_t) :=
  if avl_root t =? NULL then
    '(node, t) ← muggle_avl_tree_allocate_node t a;
    if node =? NULL then Some (NULL, t)
    else
      t ← nmod t node (set_key key);
      t ← nmod t node (set_value value);
      t ← nmod t node (set_balance 0);
      Some (node, set_root t node)
  else
    pos ← insert_position (size (avl_nodes t)) t (avl_root t) key;
    match pos with
    | None => Some (NULL, t)
    | Some (node, sd) =>
        '(new_node, t) ← muggle_avl_tree_allocate_node t a;
        if new_node =? NULL then Some (NULL, t)
        else
          t ← nmod t node (match sd with AVL_TREE_SIDE_LEFT => set_left new_node
                                       | AVL_TREE_SIDE_RIGHT => set_right new_node end);
          t ← nmod t new_node (set_parent node);
          t ← nmod t new_node (set_key key);
          t ← nmod t new_node (set_value value);
          t ← nmod t new_node (set_balance 0);
          t ← insert_retrace (size (avl_nodes t)) t node sd;
          Some (new_node, t)
    end.
End Compare.

(** ** Remove *)

Fixpoint rightmost (fuel : nat) t (target : Z) : option Z :=
  match fuel with
  | O => None
  | Datatypes.S fuel =>
      n ← nget t target;
      if right_of n =? NULL then Some target else rightmost fuel t (right_of n)
  end.

Fixpoint leftmost (fuel : nat) t (target : Z) : option Z :=
  match fuel with
  | O => None
  | Datatypes.S fuel =>
      n ← nget t target;
      if left_of n =? NULL then Some target else leftmost fuel t (left_of n)
  end.

Definition swap_data t (node target : Z) : option avl_t :=
  n ← nget t node; tn ← nget t target;
  let tmp := key_of n in
  t ← nmod t node (set_key (key_of tn));
  t ← nmod t target (set_key tmp);
  n ← nget t node; tn ← nget t target;
  let tmp := value_of n in
  t ← nmod t node (set_value (value_of tn));
  nmod t target (set_value tmp).

(** The loop that moves the data into a leaf; returns the leaf. *)
Fixpoint move_to_leaf (fuel : nat) t (node : Z) : option (Z * avl_t) :=
  match fuel with
  | O => None
  | Datatypes.S fuel =>
      n ← nget t node;
      if (left_of n =? NULL) && (right_of n =? NULL) then Some (node, t)
      else
        target ← (if left_of n =? NULL
                  then leftmost (size (avl_nodes t)) t (right_of n)
                  else rightmost (size (avl_nodes t)) t (left_of n));
        t ← swap_data t node target;
        move_to_leaf fuel t target
  end.

Fixpoint remove_retrace (fuel : nat) t (node : Z) (sd : side) : option avl_t :=
  if node =? NULL then Some t
  else match fuel with
  | O => None
  | Datatypes.S fuel =>
      t ← bump t node (match sd with AVL_TREE_SIDE_LEFT => 1 | AVL_TREE_SIDE_RIGHT => -1 end);
      n ← nget t node;
      if (balance_of n =? 1) || (balance_of n =? -1) then Some t
      else if balance_of n =? 0 then
        if parent_of n =? NULL then Some t
        else sd ← side_of t (parent_of n) node; remove_retrace fuel t (parent_of n) sd
      else
        _ ← require ((balance_of n =? 2) || (balance_of n =? -2));
        let parent := parent_of n in
        sd ← (if parent =? NULL then Some sd else side_of t parent node);
        '(depth_decrease, t) ← muggle_avl_tree_rebalance t node;
        if depth_decrease : bool then remove_retrace fuel t parent sd else Some t
  end.

Definition muggle_avl_tree_remove t (node : Z) (kf vf : bool) : option (list freed * avl_t) :=
  '(node, t) ← move_to_leaf (size (avl_nodes t)) t node;
  n ← nget t node;
  if parent_of n =? NULL then
    '(tr, t) ← muggle_avl_tree_erase_node 1 t node kf vf;
    Some (tr, set_root t NULL)
  else
    sd ← side_of t (parent_of n) node;
    let parent := parent_of n in
    '(tr, t) ← muggle_avl_tree_erase_node 1 t node kf vf;
    t ← remove_retrace (size (avl_nodes t)) t parent sd;
    Some (tr, t).
End Operations.

(** [sizeof(muggle_avl_tree_node_t)] on a 64-bit host. *)
Definition sizeof_avl_node : Z := 48.

(** [cmp_given]: [cmp] is not [NULL]; [p] tells whether the [malloc] of the
    pool succeeds; [t0] is what the structure held before. *)
Definition muggle_avl_tree_init (t0 : muggle_avl_tree (option muggle_memory_pool)) (cmp_given : bool)
    (capacity : Z) (p : bool) (a : mem_answers)
  : option (bool * muggle_avl_tree (option muggle_memory_pool)) :=
  if negb cmp_given then Some (false, t0)
  else
    let t := AVL NULL None ∅ in
    if capacity >? 0 then
      if negb (MUGGLE_DS_CAP_IS_VALID capacity) then Some (false, t)
      else if negb p then Some (false, t)
      else
        '(ok, q) ← muggle_memory_pool_init a capacity sizeof_avl_node;
        Some (ok, AVL NULL (Some q) ∅)
    else Some (true, t).

Definition muggle_avl_tree_destroy (t : muggle_avl_tree (option muggle_memory_pool)) (kf vf : bool)
  : option (list freed * muggle_avl_tree (option muggle_memory_pool)) :=
  '(tr, t) ← muggle_avl_tree_clear node_free t kf vf;
  match avl_pool t with
  | Some p => '(_, p) ← muggle_memory_pool_destroy p; Some (tr, AVL (avl_root t) (Some p) (avl_nodes t))
  | None => Some (tr, t)
  end.

(** ** Trees in memory

    [rep m t q]: the nodes of [t] are in the memory [m], the root with parent
    [q]; [crep m c h]: the nodes of the context [c], with [h] in its hole. *)
Fixpoint rep (m : gmap Z muggle_avl_tree_node) (t : tree) (q : Z) : Prop :=
  match t with
  | E => True
  | T a b k v l r => m !! a = Some (AN (rt l) (rt r) q b k v) /\ rep m l a /\ rep m r a
  end.

Fixpoint crep (m : gmap Z muggle_avl_tree_node) (c : ctx) (h : Z) : Prop :=
  match c with
  | [] => True
  | FL a b k v r :: c => m !! a = Some (AN h (rt r) (caddr c) b k v) /\ rep m r a /\ crep m c a
  | FR a b k v l :: c => m !! a = Some (AN (rt l) h (caddr c) b k v) /\ rep m l a /\ crep m c a
  end.

Implicit Types m : gmap Z muggle_avl_tree_node.

Lemma rep_plug m c t : rep m (plug c t) NULL <-> rep m t (caddr c) /\ crep m c (rt t).
Proof.
  revert t; induction c as [|[a b k v r|a b k v l] c IH]; intros t; simpl; [tauto|..];
    rewrite IH; simpl; tauto.
Qed.

(** Memory that changes elsewhere. *)
Definition agree (m m' : gmap Z muggle_avl_tree_node) (l : list Z) : Prop :=
  forall a, a ∈ l -> m' !! a = m !! a.

Lemma rep_agree m m' t q : agree m m' (addrs t) -> rep m t q -> rep m' t q.
Proof.
  revert q; induction t as [|a b k v l IHl r IHr]; intros q H; simpl; [done|].
  intros (H1 & H2 & H3); rewrite (H a) by set_solver.
  split; [done|]; split; [apply IHl|apply IHr]; try done; intros x Hx; apply H; set_solver.
Qed.

Lemma crep_agree m m' c h : agree m m' (caddrs c) -> crep m c h -> crep m' c h.
Proof.
  revert h; induction c as [|[a b k v r|a b k v l] c IH]; intros h H; simpl; [done|..];
    intros (H1 & H2 & H3); rewrite (H a) by set_solver;
    (split; [done|]; split; [eapply rep_agree; [|done]|apply IH; [|done]]); intros x Hx; apply H; set_solver.
Qed.

Lemma rep_lookup m t q a : rep m t q -> a ∈ addrs t -> is_Some (m !! a).
Proof.
  revert q; induction t as [|x b k v l IHl r IHr]; intros q; simpl; [set_solver|].
  intros (H1 & H2 & H3) [->|[Hin|Hin]%elem_of_app]%elem_of_cons; eauto.
Qed.

(** A subtree given to another parent. *)
Lemma rep_reparent m m' t q q' :
  NoDup (addrs t) -> agree m m' (tail (addrs t)) ->
  (t <> E -> m' !! rt t = set_parent q' <$> m !! rt t) -> rep m t q -> rep m' t q'.
Proof.
  destruct t as [|a b k v l r]; simpl; [done|]; intros Hnd Ha Hr (H1 & H2 & H3).
  rewrite Hr, H1 by done; split; [done|].
  split; (eapply rep_agree; [|done]); intros x Hx; apply Ha; set_solver.
Qed.

Lemma rt_elem t : t <> E -> rt t ∈ addrs t.
Proof. destruct t; simpl; set_solver. Qed.

Lemma rt_null t : NULL ∉ addrs t -> rt t = NULL <-> t = E.
Proof.
  intros H; split; [|by intros ->]; destruct t; simpl in *; [done|]; intros ->; set_solver.
Qed.

(** The tree in memory, seen from a position in it. *)
Record at_pos {S} (t : muggle_avl_tree S) (c : ctx) (s : tree) : Prop := {
  z_rep : rep (avl_nodes t) s (caddr c);
  z_crep : crep (avl_nodes t) c (rt s);
  z_root : avl_root t = croot c (rt s);
  z_nodup : NoDup (addrs s ++ caddrs c);
  z_null : NULL ∉ addrs s ++ caddrs c;
  z_dom : dom (avl_nodes t) = list_to_set (addrs s ++ caddrs c)
}.

Section Steps.
Context {S : Type}.
Implicit Types (t : muggle_avl_tree S) (c : ctx).

Lemma nmod_some r (p : S) m a n f :
  m !! a = Some n -> nmod (AVL r p m) a f = Some (AVL r p (<[a := f n]> m)).
Proof. intros H; unfold nmod, nget; simpl; by rewrite H. Qed.

Lemma nget_some r (p : S) m a n : m !! a = Some n -> nget (AVL r p m) a = Some n.
Proof. done. Qed.

Lemma set_child_spec r (s : S) m c x p :
  crep m c x -> x <> NULL -> x ∉ caddrs c -> NULL ∉ caddrs c -> NoDup (caddrs c) ->
  exists m', set_child (AVL r s m) (caddr c) x p = Some (AVL r s m') /\ crep m' c p /\
    (forall a, a ∉ caddrs c -> m' !! a = m !! a) /\ dom m' = dom m.
Proof.
  intros Hc Hx Hxc Hn Hnd; destruct c as [|f c]; [by exists m|].
  assert (caddr (f :: c) <> NULL) as Hf by (destruct f; simpl in *; set_solver).
  unfold set_child; rewrite (proj2 (Z.eqb_neq _ _) Hf).
  destruct f as [a b k v sib|a b k v sib]; simpl in *; destruct Hc as (H1 & H2 & H3);
    rewrite (nget_some _ _ _ _ _ H1); cbn [mbind option_bind left_of].
  - rewrite Z.eqb_refl, (nmod_some _ _ _ _ _ _ H1); eexists; split; [done|]; split.
    + rewrite lookup_insert_eq; split; [done|].
      apply NoDup_cons in Hnd as [Ha _].
      split; [apply (rep_agree m)|apply (crep_agree m)]; try done; intros y Hy;
        apply lookup_insert_ne; set_solver.
    + split; [intros y Hy; apply lookup_insert_ne; set_solver|].
      apply dom_insert_lookup_L; eauto.
  - assert (rt sib =? x = false) as ->.
    { apply Z.eqb_neq; intros <-; destruct sib; simpl in *; [done|]; set_solver. }
    rewrite (nmod_some _ _ _ _ _ _ H1); eexists; split; [done|]; split.
    + rewrite lookup_insert_eq; split; [done|].
      apply NoDup_cons in Hnd as [Ha _].
      split; [apply (rep_agree m)|apply (crep_agree m)]; try done; intros y Hy;
        apply lookup_insert_ne; set_solver.
    + split; [intros y Hy; apply lookup_insert_ne; set_solver|].
      apply dom_insert_lookup_L; eauto.
Qed.

Lemma croot_elem c p : croot c p = p /\ c = [] \/ croot c p ∈ caddrs c.
Proof.
  revert p; induction c as [|f c IH]; intros p; simpl; [by left|]; right.
  destruct (IH (faddr f)) as [[-> _]|H]; set_solver.
Qed.

Lemma croot_change c x z :
  x ∉ caddrs c -> (if croot c x =? x then z else croot c x) = croot c z.
Proof.
  intros Hx; destruct c as [|f c]; simpl; [by rewrite Z.eqb_refl|].
  destruct (Z.eqb_spec (croot c (faddr f)) x) as [E1|]; [|done].
  exfalso; apply Hx; simpl; destruct (croot_elem c (faddr f)) as [[E2 _]|H]; [|set_solver].
  rewrite E2 in E1; set_solver.
Qed.

(** A change inside the subtree at a position. *)
Lemma at_pos_change t c s m' s' :
  at_pos t c s -> addrs s' ≡ₚ addrs s -> rep m' s' (caddr c) -> crep m' c (rt s') ->
  dom m' = dom (avl_nodes t) -> at_pos (AVL (croot c (rt s')) (avl_pool t) m') c s'.
Proof.
  intros [H1 H2 H3 H4 H5 H6] Hp Hr Hc Hd; split; simpl; try done.
  - by rewrite Hp.
  - by rewrite Hp.
  - rewrite Hd, H6; apply leibniz_equiv; by rewrite Hp.
Qed.

Lemma at_pos_disjoint t c s a : at_pos t c s -> a ∈ addrs s -> a ∉ caddrs c /\ a <> NULL.
Proof.
  intros H Ha; pose proof (z_nodup _ _ _ H) as Hnd; pose proof (z_null _ _ _ H).
  apply NoDup_app in Hnd as (_ & Hd & _); split; [by apply Hd|]; set_solver.
Qed.

(** ** Memory that changes at [u] only *)
Definition changed (u : list Z) m m' : Prop := (forall a, a ∉ u -> m' !! a = m !! a) /\ dom m' = dom m.

Lemma changed_insert u m m' a n :
  changed u m m' -> a ∈ u -> is_Some (m' !! a) -> changed u m (<[a := n]> m').
Proof.
  intros [H1 H2] Ha Hs; split; [|rewrite <- H2; by apply dom_insert_lookup_L].
  intros x Hx; rewrite lookup_insert_ne by set_solver; auto.
Qed.

Lemma changed_trans u u' m m' m'' :
  changed u m m' -> changed u' m' m'' -> u' ⊆ u -> changed u m m''.
Proof.
  intros [H1 H2] [H3 H4] Hu; split; [|by rewrite H4]; intros a Ha; rewrite H3 by set_solver; auto.
Qed.

Lemma rep_changed u m m' s q : changed u m m' -> (forall a, a ∈ addrs s -> a ∉ u) -> rep m s q -> rep m' s q.
Proof. intros [H _] Hd; apply rep_agree; intros a Ha; by apply H, Hd. Qed.

Lemma crep_changed u m m' c h :
  changed u m m' -> (forall a, a ∈ caddrs c -> a ∉ u) -> crep m c h -> crep m' c h.
Proof. intros [H _] Hd; apply crep_agree; intros a Ha; by apply H, Hd. Qed.

Lemma replace_child_spec t c s p n :
  at_pos t c s -> s <> E -> p ∈ addrs s -> avl_nodes t !! p = Some n ->
  exists m1, replace_child t (caddr c) (rt s) p = Some (AVL (croot c p) (avl_pool t) m1) /\
    crep m1 c p /\ m1 !! p = Some (set_parent (caddr c) n) /\
    changed (p :: caddrs c) (avl_nodes t) m1.
Proof.
  intros Hat Hs Hp Hn; destruct t as [r0 pool m]; pose proof Hat as [_ Hcrep Hroot Hnd Hnull _].
  destruct (at_pos_disjoint _ _ _ (rt s) Hat (rt_elem s Hs)) as [Hxc Hx0].
  destruct (at_pos_disjoint _ _ _ p Hat Hp) as [Hpc Hp0].
  apply NoDup_app in Hnd as (_ & Hdis & Hndc); simpl in *.
  destruct (set_child_spec r0 pool m c (rt s) p Hcrep Hx0 Hxc) as (m1 & E1 & Hc1 & Hag & Hdom); [set_solver|done|].
  unfold replace_child; rewrite E1; cbn [mbind option_bind].
  assert (m1 !! p = Some n) as Hp1 by by rewrite Hag.
  rewrite (nmod_some _ _ _ _ _ _ Hp1); cbn [mbind option_bind avl_root].
  exists (<[p:=set_parent (caddr c) n]> m1); split.
  { rewrite Hroot, <- (croot_change c (rt s) p) by done; by destruct (croot c (rt s) =? rt s). }
  split; [apply (crep_agree m1); [|done]; intros a Ha; apply lookup_insert_ne; set_solver|].
  split; [apply lookup_insert_eq|]; split.
  - intros a Ha; rewrite lookup_insert_ne by set_solver; apply Hag; set_solver.
  - rewrite <- Hdom; apply dom_insert_lookup_L; eauto.
Qed.

End Steps.

(** Symbolic execution: the node at each pointer is known. *)
Ltac known :=
  first [eassumption | repeat (rewrite lookup_insert_ne by done); first [eassumption | rewrite lookup_insert_eq; reflexivity]].
Ltac node_simpl :=
  cbn [mbind option_bind left_of right_of parent_of balance_of key_of value_of avl_root avl_pool avl_nodes];
  repeat match goal with
  | |- context [set_left ?x (AN ?l ?r ?p ?b ?k ?v)] =>
      change (set_left x (AN l r p b k v)) with (AN x r p b k v)
  | |- context [set_right ?x (AN ?l ?r ?p ?b ?k ?v)] =>
      change (set_right x (AN l r p b k v)) with (AN l x p b k v)
  | |- context [set_parent ?x (AN ?l ?r ?p ?b ?k ?v)] =>
      change (set_parent x (AN l r p b k v)) with (AN l r x b k v)
  | |- context [set_balance ?x (AN ?l ?r ?p ?b ?k ?v)] =>
      change (set_balance x (AN l r p b k v)) with (AN l r p x k v)
  | |- context [set_key ?x (AN ?l ?r ?p ?b ?k ?v)] =>
      change (set_key x (AN l r p b k v)) with (AN l r p b x v)
  | |- context [set_value ?x (AN ?l ?r ?p ?b ?k ?v)] =>
      change (set_value x (AN l r p b k v)) with (AN l r p b k x)
  end.
Ltac node_step :=
  match goal with
  | |- context [nget (AVL ?r ?s ?m) ?a] => erewrite (nget_some r s m a) by known
  | |- context [nmod (AVL ?r ?s ?m) ?a ?f] => erewrite (nmod_some r s m a) by known
  end; node_simpl.

Section Rotations.
Context {S : Type}.
Implicit Types (t : muggle_avl_tree S) (c : ctx).

Lemma set_parent_opt_spec r (p : S) m s q q' :
  rep m s q -> NULL ∉ addrs s -> NoDup (addrs s) ->
  exists m', set_parent_opt (AVL r p m) (rt s) q' = Some (AVL r p m') /\ rep m' s q' /\
    changed (addrs s) m m'.
Proof.
  intros Hr Hn Hnd; unfold set_parent_opt; destruct s as [|a b k v l r']; [by exists m|].
  pose proof Hr as (Ha & _ & _); simpl in *.
  rewrite (proj2 (Z.eqb_neq a NULL)) by set_solver; rewrite (nmod_some _ _ _ _ _ _ Ha).
  eexists; split; [done|]; split.
  - apply (rep_reparent m _ (T a b k v l r') q); simpl; try done.
    + intros y Hy; apply lookup_insert_ne; apply NoDup_cons in Hnd; set_solver.
    + intros _; by rewrite lookup_insert_eq, Ha.
  - split; [intros y Hy; apply lookup_insert_ne; set_solver|].
    apply dom_insert_lookup_L; eauto.
Qed.

(** The parts of a NoDup list of addresses. *)
Definition apart (l u : list Z) : Prop := forall a, a ∈ l -> a ∉ u.

Lemma apart_parts x z l1 l2 l3 l4 :
  NoDup (x :: l1 ++ z :: l2 ++ l3 ++ l4) ->
  x <> z /\ NoDup l2 /\ x ∉ l2 /\ z ∉ l2 /\ x ∉ z :: l4 /\ apart l1 (x :: z :: l2 ++ l4) /\
  apart l3 (x :: z :: l2 ++ l4) /\ apart l4 (x :: z :: l2) /\ apart l2 (z :: l4) /\ apart l2 [x; z].
Proof.
  intros H; rewrite NoDup_cons, NoDup_app, NoDup_cons, !NoDup_app in H; unfold apart.
  destruct H as (H1 & H2 & H3 & H4 & H5 & H6 & H7 & H8 & H9).
  split_and!; [set_solver|done|set_solver|set_solver|set_solver|..];
    intros a Ha; try specialize (H3 a); set_solver.
Qed.

Lemma nodup_perm (l l' : list Z) : NoDup l -> l ≡ₚ l' -> NoDup l'.
Proof. by intros H <-. Qed.

Lemma rotate_left_spec t c x kx vx (s1 : tree) z bz kz vz (s23 s4 : tree) :
  let s := T x 2 kx vx s1 (T z bz kz vz s23 s4) in
  at_pos t c s -> bz = 0 \/ bz = 1 ->
  exists t', muggle_avl_tree_rotate_left t x = Some ((rotl s).2, t') /\
    at_pos t' c (rotl s).1 /\ avl_pool t' = avl_pool t.
Proof.
  intros s Hat Hbz; destruct t as [r0 pool m]; pose proof Hat as [Hrep _ _ Hnd Hnull _].
  simpl in Hrep; destruct Hrep as (Hx & Hr1 & Hz & Hr23 & Hr4).
  unfold muggle_avl_tree_rotate_left; do 2 node_step.
  replace ((bz =? 1) || (bz =? 0)) with true by lia; cbn [require Z.eqb Pos.eqb mbind option_bind].
  assert (z ∈ addrs s) as Hin by set_solver.
  destruct (replace_child_spec _ c s z _ Hat ltac:(done) Hin Hz) as (m1 & E1 & Hc1 & Hz1 & C1).
  simpl rt in E1; rewrite E1; cbn [mbind option_bind]; clear E1 Hin; unfold set_parent in Hz1; simpl in Hz1, C1.
  apply (nodup_perm _ (x :: addrs s1 ++ z :: addrs s23 ++ addrs s4 ++ caddrs c)) in Hnd;
    [|unfold s; rot_addrs].
  apply apart_parts in Hnd as (Hxz & N23 & X23 & Z23 & Xc & A1 & A4 & Ac & A23 & A23').
  rewrite <- (proj1 C1 x Xc) in Hx.
  do 2 node_step.
  destruct (set_parent_opt_spec (croot c z) pool (<[x := AN (rt s1) (rt s23) (caddr c) 2 kx vx]> m1) s23 z x)
    as (m3 & -> & Hr23' & C3); [|unfold s in Hnull; simpl in Hnull; set_solver|done|].
  { apply (rep_changed [x; z] m1); [|done|by apply (rep_changed (z :: caddrs c) m)].
    apply changed_insert; [by split|by left|by eexists]. }
  assert (Hx3 : m3 !! x = Some (AN (rt s1) (rt s23) (caddr c) 2 kx vx))
    by (rewrite (proj1 C3) by done; by simplify_map_eq).
  assert (Hz3 : m3 !! z = Some (AN (rt s23) (rt s4) (caddr c) bz kz vz))
    by (rewrite (proj1 C3) by done; by simplify_map_eq).
  assert (changed (x :: z :: addrs s23) m1 m3) as C13.
  { eapply changed_trans; [apply (changed_insert _ m1 m1 x); [by split|by left|by eexists]|exact C3|set_solver]. }
  cbn [mbind option_bind]; do 3 node_step.
  assert (forall bx bz', at_pos (AVL (croot c z) pool
      (<[z:=AN x (rt s4) (caddr c) bz' kz vz]> (<[x:=AN (rt s1) (rt s23) z bx kx vx]> m3)))
      c (T z bz' kz vz (T x bx kx vx s1 s23) s4)) as Hok.
  { intros bx bz'; set (m' := <[z:=_]> _).
    assert (changed (x :: z :: addrs s23) m1 m') as C'.
    { apply changed_insert; [apply changed_insert; [done|by left|by eexists]|by right; left|].
      by simplify_map_eq. }
    apply (at_pos_change (AVL r0 pool m) c s m' (T z bz' kz vz (T x bx kx vx s1 s23) s4));
      [done|unfold s; rot_addrs| |by apply (crep_changed _ m1 m' c z C')|].
    2:{ rewrite (proj2 C'); apply C1. }
    assert (changed (x :: z :: addrs s23 ++ caddrs c) m m') as Cm.
    { eapply changed_trans; [|exact C'|set_solver].
      eapply changed_trans; [|exact C1|set_solver]; by split. }
    simpl; split_and!; [by unfold m'; simplify_map_eq|by unfold m'; simplify_map_eq| | |].
    - by apply (rep_changed _ m m' s1 x Cm).
    - apply (rep_changed [x; z] m3); [|done|done].
      apply changed_insert; [apply changed_insert; [by split|by left|by eexists]|by right; left|].
      by simplify_map_eq.
    - by apply (rep_changed _ m m' s4 z Cm). }
  assert (forall nz nx nz' nx' : muggle_avl_tree_node,
    <[z:=nz]> (<[x:=nx]> (<[z:=nz']> (<[x:=nx']> m3))) = <[z:=nz]> (<[x:=nx]> m3)) as Hm.
  { intros; apply map_eq; intros i; destruct (decide (i = z)) as [->|]; [by simplify_map_eq|].
    destruct (decide (i = x)) as [->|]; by simplify_map_eq. }
  unfold s; cbn [rotl]; destruct (bz =? 0); do 2 node_step; rewrite Hm; eexists; split; [done|by split| done|by split].
Qed.
Lemma rotate_right_spec t c x kx vx (s1 : tree) z bz kz vz (s23 s4 : tree) :
  let s := T x (-2) kx vx (T z bz kz vz s4 s23) s1 in
  at_pos t c s -> bz = 0 \/ bz = -1 ->
  exists t', muggle_avl_tree_rotate_right t x = Some ((rotr s).2, t') /\
    at_pos t' c (rotr s).1 /\ avl_pool t' = avl_pool t.
Proof.
  intros s Hat Hbz; destruct t as [r0 pool m]; pose proof Hat as [Hrep _ _ Hnd Hnull _].
  simpl in Hrep; destruct Hrep as (Hx & (Hz & Hr4 & Hr23) & Hr1).
  unfold muggle_avl_tree_rotate_right; do 2 node_step.
  replace ((bz =? -1) || (bz =? 0)) with true by lia; cbn [require Z.eqb Pos.eqb mbind option_bind].
  assert (z ∈ addrs s) as Hin by set_solver.
  destruct (replace_child_spec _ c s z _ Hat ltac:(done) Hin Hz) as (m1 & E1 & Hc1 & Hz1 & C1).
  simpl rt in E1; rewrite E1; cbn [mbind option_bind]; clear E1 Hin; unfold set_parent in Hz1; simpl in Hz1, C1.
  apply (nodup_perm _ (x :: addrs s1 ++ z :: addrs s23 ++ addrs s4 ++ caddrs c)) in Hnd;
    [|unfold s; rot_addrs].
  apply apart_parts in Hnd as (Hxz & N23 & X23 & Z23 & Xc & A1 & A4 & Ac & A23 & A23').
  rewrite <- (proj1 C1 x Xc) in Hx.
  do 2 node_step.
  destruct (set_parent_opt_spec (croot c z) pool (<[x := AN (rt s23) (rt s1) (caddr c) (-2) kx vx]> m1) s23 z x)
    as (m3 & -> & Hr23' & C3); [|unfold s in Hnull; simpl in Hnull; set_solver|done|].
  { apply (rep_changed [x; z] m1); [|done|by apply (rep_changed (z :: caddrs c) m)].
    apply changed_insert; [by split|by left|by eexists]. }
  assert (Hx3 : m3 !! x = Some (AN (rt s23) (rt s1) (caddr c) (-2) kx vx))
    by (rewrite (proj1 C3) by done; by simplify_map_eq).
  assert (Hz3 : m3 !! z = Some (AN (rt s4) (rt s23) (caddr c) bz kz vz))
    by (rewrite (proj1 C3) by done; by simplify_map_eq).
  assert (changed (x :: z :: addrs s23) m1 m3) as C13.
  { eapply changed_trans; [apply (changed_insert _ m1 m1 x); [by split|by left|by eexists]|exact C3|set_solver]. }
  cbn [mbind option_bind]; do 3 node_step.
  assert (forall bx bz', at_pos (AVL (croot c z) pool
      (<[z:=AN (rt s4) x (caddr c) bz' kz vz]> (<[x:=AN (rt s23) (rt s1) z bx kx vx]> m3)))
      c (T z bz' kz vz s4 (T x bx kx vx s23 s1))) as Hok.
  { intros bx bz'; set (m' := <[z:=_]> _).
    assert (changed (x :: z :: addrs s23) m1 m') as C'.
    { apply changed_insert; [apply changed_insert; [done|by left|by eexists]|by right; left|].
      by simplify_map_eq. }
    apply (at_pos_change (AVL r0 pool m) c s m' (T z bz' kz vz s4 (T x bx kx vx s23 s1)));
      [done|unfold s; rot_addrs| |by apply (crep_changed _ m1 m' c z C')|].
    2:{ rewrite (proj2 C'); apply C1. }
    assert (changed (x :: z :: addrs s23 ++ caddrs c) m m') as Cm.
    { eapply changed_trans; [|exact C'|set_solver].
      eapply changed_trans; [|exact C1|set_solver]; by split. }
    simpl; split_and!; [by unfold m'; simplify_map_eq| |by unfold m'; simplify_map_eq| |].
    - by apply (rep_changed _ m m' s4 z Cm).
    - apply (rep_changed [x; z] m3); [|done|done].
      apply changed_insert; [apply changed_insert; [by split|by left|by eexists]|by right; left|].
      by simplify_map_eq.
    - by apply (rep_changed _ m m' s1 x Cm). }
  assert (forall nz nx nz' nx' : muggle_avl_tree_node,
    <[z:=nz]> (<[x:=nx]> (<[z:=nz']> (<[x:=nx']> m3))) = <[z:=nz]> (<[x:=nx]> m3)) as Hm.
  { intros; apply map_eq; intros i; destruct (decide (i = z)) as [->|]; [by simplify_map_eq|].
    destruct (decide (i = x)) as [->|]; by simplify_map_eq. }
  unfold s; cbn [rotr]; destruct (bz =? 0); do 2 node_step; rewrite Hm; eexists; split; [done|by split| done|by split].
Qed.

Lemma apart_of l0 l u r : NoDup l0 -> l0 ≡ₚ l ++ u ++ r -> apart l u.
Proof. intros H Hp; rewrite Hp, NoDup_app in H; destruct H as (_ & H & _); set_solver. Qed.

Lemma apart_cons l x u : apart l (x :: u) -> x ∉ l /\ apart l u.
Proof. unfold apart; intros H; split; [intros Hx; apply (H x Hx); by left|set_solver]. Qed.

Lemma apart_parts3 x y z l1 l2 l3 l4 lc :
  NoDup (x :: y :: z :: l2 ++ l3 ++ l1 ++ l4 ++ lc) ->
  (x <> y /\ x <> z /\ y <> z) /\ (NoDup l2 /\ NoDup l3) /\
  ((x ∉ l2 /\ y ∉ l2 /\ z ∉ l2) /\ (x ∉ l3 /\ y ∉ l3 /\ z ∉ l3) /\ x ∉ y :: lc /\ z ∉ y :: lc) /\
  (apart l1 (x :: y :: z :: l2 ++ l3 ++ lc) /\ apart l4 (x :: y :: z :: l2 ++ l3 ++ lc)) /\
  apart lc (x :: y :: z :: l2 ++ l3) /\
  (apart l2 (x :: y :: z :: l3 ++ lc) /\ apart l3 (x :: y :: z :: l2 ++ lc)).
Proof.
  intros H.
  assert (apart l1 (x :: y :: z :: l2 ++ l3 ++ lc)) as B1 by (apply (apart_of _ _ _ l4 H); solve_Permutation).
  assert (apart l4 (x :: y :: z :: l2 ++ l3 ++ lc)) as B4 by (apply (apart_of _ _ _ l1 H); solve_Permutation).
  assert (apart lc (x :: y :: z :: l2 ++ l3)) as Bc by (apply (apart_of _ _ _ (l1 ++ l4) H); solve_Permutation).
  assert (apart l2 (x :: y :: z :: l3 ++ lc)) as B2 by (apply (apart_of _ _ _ (l1 ++ l4) H); solve_Permutation).
  assert (apart l3 (x :: y :: z :: l2 ++ lc)) as B3 by (apply (apart_of _ _ _ (l1 ++ l4) H); solve_Permutation).
  assert (apart [x] (y :: z :: lc)) as Bx by (apply (apart_of _ _ _ (l1 ++ l2 ++ l3 ++ l4) H); solve_Permutation).
  assert (apart [z] (y :: lc)) as Bz by (apply (apart_of _ _ _ (x :: l1 ++ l2 ++ l3 ++ l4) H); solve_Permutation).
  pose proof (apart_cons _ _ _ B2) as [X2 [Y2 [Z2 _]%apart_cons]%apart_cons].
  pose proof (apart_cons _ _ _ B3) as [X3 [Y3 [Z3 _]%apart_cons]%apart_cons].
  assert (NoDup l2 /\ NoDup l3) as [N2 N3] by (rewrite !NoDup_cons, !NoDup_app in H; tauto).
  assert (x ∉ y :: z :: lc) as Nx by (apply (Bx x); by left).
  assert (z ∉ y :: lc) as Nz by (apply (Bz z); by left).
  clear -B1 B2 B3 B4 Bc X2 Y2 Z2 X3 Y3 Z3 N2 N3 Nx Nz; split_and!; try done; set_solver.
Qed.

Lemma changed_mono u u' m m' : changed u m m' -> u ⊆ u' -> changed u' m m'.
Proof. intros [H1 H2] Hu; split; [|done]; intros a Ha; apply H1; set_solver. Qed.

Lemma changed_refl u m : changed u m m.
Proof. by split. Qed.

Lemma insert3 m x y z (nx nx' ny ny' ny'' nz nz' : muggle_avl_tree_node) :
  x <> y -> x <> z -> y <> z ->
  <[y:=ny]> (<[z:=nz]> (<[x:=nx]> (<[z:=nz']> (<[y:=ny']> (<[x:=nx']> (<[y:=ny'']> m))))))
  = <[y:=ny]> (<[z:=nz]> (<[x:=nx]> m)).
Proof.
  intros; apply map_eq; intros i; destruct (decide (i = y)) as [->|]; [by simplify_map_eq|].
  destruct (decide (i = z)) as [->|]; [by simplify_map_eq|].
  destruct (decide (i = x)) as [->|]; by simplify_map_eq.
Qed.

Lemma insert3' m x y z (nx nx' ny ny' ny'' nz nz' : muggle_avl_tree_node) :
  x <> y -> x <> z -> y <> z ->
  <[y:=ny]> (<[z:=nz]> (<[x:=nx]> (<[x:=nx']> (<[y:=ny']> (<[z:=nz']> (<[y:=ny'']> m))))))
  = <[y:=ny]> (<[z:=nz]> (<[x:=nx]> m)).
Proof.
  intros; apply map_eq; intros i; destruct (decide (i = y)) as [->|]; [by simplify_map_eq|].
  destruct (decide (i = z)) as [->|]; [by simplify_map_eq|].
  destruct (decide (i = x)) as [->|]; by simplify_map_eq.
Qed.

Lemma rotate_right_left_spec t c x kx vx (s1 : tree) z kz vz y by_ ky vy (s2 s3 s4 : tree) :
  let s := T x 2 kx vx s1 (T z (-1) kz vz (T y by_ ky vy s2 s3) s4) in
  at_pos t c s ->
  exists t', muggle_avl_tree_rotate_right_left t x = Some t' /\
    at_pos t' c (rotrl s) /\ avl_pool t' = avl_pool t.
Proof.
  intros s Hat; destruct t as [r0 pool m]; pose proof Hat as [Hrep _ _ Hnd Hnull _].
  simpl in Hrep; destruct Hrep as (Hx & Hr1 & Hz & (Hy & Hr2 & Hr3) & Hr4).
  unfold muggle_avl_tree_rotate_right_left; do 3 node_step.
  cbn [require Z.eqb Pos.eqb mbind option_bind].
  assert (y ∈ addrs s) as Hin by set_solver.
  destruct (replace_child_spec _ c s y _ Hat ltac:(done) Hin Hy) as (m1 & E1 & Hc1 & Hy1 & C1).
  simpl rt in E1; rewrite E1; cbn [mbind option_bind]; clear E1 Hin; unfold set_parent in Hy1; simpl in Hy1, C1.
  apply (nodup_perm _ (x :: y :: z :: addrs s2 ++ addrs s3 ++ addrs s1 ++ addrs s4 ++ caddrs c)) in Hnd;
    [|unfold s; rot_addrs].
  apply apart_parts3 in Hnd as ((Hxy & Hxz & Hyz) & (N2 & N3) & ((X2 & Y2 & Z2) & (X3 & Y3 & Z3) & Xc & Zc) &
    (A1 & A4) & Ac & (A2 & A3)).
  assert (NULL ∉ addrs s2 /\ NULL ∉ addrs s3) as [Hn2 Hn3] by (unfold s in Hnull; simpl in Hnull; set_solver).
  rewrite <- (proj1 C1 x Xc) in Hx; rewrite <- (proj1 C1 z Zc) in Hz.
  set (W := x :: y :: z :: addrs s2 ++ addrs s3) in *.
  node_step.
  destruct (set_parent_opt_spec (croot c y) pool (<[x := AN (rt s1) (rt s2) (caddr c) 2 kx vx]> m1) s2 y x)
    as (m2 & -> & Hr2' & C2); [|done|done|].
  { apply (rep_changed [x] m1); [apply changed_insert; [by split|by left|by eexists]|set_solver|].
    apply (rep_changed (y :: caddrs c) m); [done|set_solver|done]. }
  assert (changed W m1 m2) as C12.
  { eapply changed_trans; [apply (changed_insert _ m1 m1 x); [by split|by left|by eexists]|exact C2|set_solver]. }
  assert (Hx2 : m2 !! x = Some (AN (rt s1) (rt s2) (caddr c) 2 kx vx))
    by (rewrite (proj1 C2) by done; by simplify_map_eq).
  assert (Hz2 : m2 !! z = Some (AN y (rt s4) x (-1) kz vz))
    by (rewrite (proj1 C2) by done; by simplify_map_eq).
  assert (Hy2 : m2 !! y = Some (AN (rt s2) (rt s3) (caddr c) by_ ky vy))
    by (rewrite (proj1 C2) by done; by simplify_map_eq).
  cbn [mbind option_bind]; node_step.
  destruct (set_parent_opt_spec (croot c y) pool (<[z := AN (rt s3) (rt s4) x (-1) kz vz]> m2) s3 y z)
    as (m3 & -> & Hr3' & C3); [|done|done|].
  { apply (rep_changed [z] m2); [apply changed_insert; [by split|by left|by eexists]|set_solver|].
    apply (rep_changed (x :: addrs s2) m1); [|set_solver|].
    - eapply changed_trans; [apply (changed_insert _ m1 m1 x); [by split|by left|by eexists]|exact C2|set_solver].
    - apply (rep_changed (y :: caddrs c) m); [done|set_solver|done]. }
  assert (changed (z :: addrs s3) m2 m3) as C23.
  { eapply changed_trans; [apply (changed_insert _ m2 m2 z); [by split|by left|by eexists]|exact C3|set_solver]. }
  assert (Hx3 : m3 !! x = Some (AN (rt s1) (rt s2) (caddr c) 2 kx vx))
    by (rewrite (proj1 C3) by done; by simplify_map_eq).
  assert (Hz3 : m3 !! z = Some (AN (rt s3) (rt s4) x (-1) kz vz))
    by (rewrite (proj1 C3) by done; by simplify_map_eq).
  assert (Hy3 : m3 !! y = Some (AN (rt s2) (rt s3) (caddr c) by_ ky vy))
    by (rewrite (proj1 C3) by done; by simplify_map_eq).
  cbn [mbind option_bind]; do 5 node_step.
  assert (forall bx bz, at_pos (AVL (croot c y) pool
      (<[y:=AN x z (caddr c) 0 ky vy]> (<[z:=AN (rt s3) (rt s4) y bz kz vz]>
        (<[x:=AN (rt s1) (rt s2) y bx kx vx]> m3))))
      c (T y 0 ky vy (T x bx kx vx s1 s2) (T z bz kz vz s3 s4))) as Hok.
  { intros bx bz; set (m' := <[y:=_]> _).
    assert (changed [x; y; z] m3 m') as C3'.
    { apply changed_insert; [apply changed_insert; [apply changed_insert|..]|..];
        first [apply changed_refl|eexists; known|clear; set_solver]. }
    assert (changed W m1 m') as C'.
    { apply (changed_trans W [x; y; z] m1 m3); [|done|set_solver].
      eapply changed_trans; [exact C12|exact C23|set_solver]. }
    apply (at_pos_change (AVL r0 pool m) c s m' (T y 0 ky vy (T x bx kx vx s1 s2) (T z bz kz vz s3 s4)));
      [done|unfold s; rot_addrs| |by apply (crep_changed _ m1 m' c y C')|].
    2:{ rewrite (proj2 C'); apply C1. }
    assert (changed (x :: y :: z :: addrs s2 ++ addrs s3 ++ caddrs c) m m') as Cm.
    { eapply changed_trans; [|exact C'|clear; set_solver].
      eapply changed_trans; [apply changed_refl|exact C1|clear; set_solver]. }
    simpl; split_and!; try (unfold m'; known).
    - by apply (rep_changed _ m m' s1 x Cm).
    - apply (rep_changed [x; y; z] m3 m' s2 x C3'); [set_solver|].
      apply (rep_changed _ m2 m3 s2 x C23); [set_solver|done].
    - apply (rep_changed [x; y; z] m3 m' s3 z C3'); [set_solver|done].
    - by apply (rep_changed _ m m' s4 z Cm). }
  unfold s; cbn [rotrl]; rewrite (Z.gtb_ltb by_ 0).
  destruct (Z.ltb_spec 0 by_) as [Hp|Hp]; [|destruct (Z.eqb_spec by_ 0) as [->|Hn]].
  - do 3 node_step; rewrite insert3 by done; eexists; split; [done|]; split; [|done].
    replace (by_ <? 0) with false by lia; apply Hok.
  - do 3 node_step; rewrite insert3 by done; eexists; split; [done|]; split; [apply Hok|done].
  - do 3 node_step; rewrite insert3 by done; eexists; split; [done|]; split; [|done].
    replace (by_ <? 0) with true by lia; apply Hok.
Qed.
Lemma rotate_left_right_spec t c x kx vx (s1 : tree) z kz vz y by_ ky vy (s2 s3 s4 : tree) :
  let s := T x (-2) kx vx (T z 1 kz vz s4 (T y by_ ky vy s3 s2)) s1 in
  at_pos t c s ->
  exists t', muggle_avl_tree_rotate_left_right t x = Some t' /\
    at_pos t' c (rotlr s) /\ avl_pool t' = avl_pool t.
Proof.
  intros s Hat; destruct t as [r0 pool m]; pose proof Hat as [Hrep _ _ Hnd Hnull _].
  simpl in Hrep; destruct Hrep as (Hx & (Hz & Hr4 & (Hy & Hr3 & Hr2)) & Hr1).
  unfold muggle_avl_tree_rotate_left_right; do 3 node_step.
  cbn [require Z.eqb Pos.eqb mbind option_bind].
  assert (y ∈ addrs s) as Hin by set_solver.
  destruct (replace_child_spec _ c s y _ Hat ltac:(done) Hin Hy) as (m1 & E1 & Hc1 & Hy1 & C1).
  simpl rt in E1; rewrite E1; cbn [mbind option_bind]; clear E1 Hin; unfold set_parent in Hy1; simpl in Hy1, C1.
  apply (nodup_perm _ (x :: y :: z :: addrs s2 ++ addrs s3 ++ addrs s1 ++ addrs s4 ++ caddrs c)) in Hnd;
    [|unfold s; rot_addrs].
  apply apart_parts3 in Hnd as ((Hxy & Hxz & Hyz) & (N2 & N3) & ((X2 & Y2 & Z2) & (X3 & Y3 & Z3) & Xc & Zc) &
    (A1 & A4) & Ac & (A2 & A3)).
  assert (NULL ∉ addrs s2 /\ NULL ∉ addrs s3) as [Hn2 Hn3] by (unfold s in Hnull; simpl in Hnull; set_solver).
  rewrite <- (proj1 C1 x Xc) in Hx; rewrite <- (proj1 C1 z Zc) in Hz.
  set (W := x :: y :: z :: addrs s2 ++ addrs s3) in *.
  node_step.
  destruct (set_parent_opt_spec (croot c y) pool (<[x := AN (rt s2) (rt s1) (caddr c) (-2) kx vx]> m1) s2 y x)
    as (m2 & -> & Hr2' & C2); [|done|done|].
  { apply (rep_changed [x] m1); [apply changed_insert; [by split|by left|by eexists]|set_solver|].
    apply (rep_changed (y :: caddrs c) m); [done|set_solver|done]. }
  assert (changed W m1 m2) as C12.
  { eapply changed_trans; [apply (changed_insert _ m1 m1 x); [by split|by left|by eexists]|exact C2|set_solver]. }
  assert (Hx2 : m2 !! x = Some (AN (rt s2) (rt s1) (caddr c) (-2) kx vx))
    by (rewrite (proj1 C2) by done; by simplify_map_eq).
  assert (Hz2 : m2 !! z = Some (AN (rt s4) y x 1 kz vz))
    by (rewrite (proj1 C2) by done; by simplify_map_eq).
  assert (Hy2 : m2 !! y = Some (AN (rt s3) (rt s2) (caddr c) by_ ky vy))
    by (rewrite (proj1 C2) by done; by simplify_map_eq).
  cbn [mbind option_bind]; node_step.
  destruct (set_parent_opt_spec (croot c y) pool (<[z := AN (rt s4) (rt s3) x 1 kz vz]> m2) s3 y z)
    as (m3 & -> & Hr3' & C3); [|done|done|].
  { apply (rep_changed [z] m2); [apply changed_insert; [by split|by left|by eexists]|set_solver|].
    apply (rep_changed (x :: addrs s2) m1); [|set_solver|].
    - eapply changed_trans; [apply (changed_insert _ m1 m1 x); [by split|by left|by eexists]|exact C2|set_solver].
    - apply (rep_changed (y :: caddrs c) m); [done|set_solver|done]. }
  assert (changed (z :: addrs s3) m2 m3) as C23.
  { eapply changed_trans; [apply (changed_insert _ m2 m2 z); [by split|by left|by eexists]|exact C3|set_solver]. }
  assert (Hx3 : m3 !! x = Some (AN (rt s2) (rt s1) (caddr c) (-2) kx vx))
    by (rewrite (proj1 C3) by done; by simplify_map_eq).
  assert (Hz3 : m3 !! z = Some (AN (rt s4) (rt s3) x 1 kz vz))
    by (rewrite (proj1 C3) by done; by simplify_map_eq).
  assert (Hy3 : m3 !! y = Some (AN (rt s3) (rt s2) (caddr c) by_ ky vy))
    by (rewrite (proj1 C3) by done; by simplify_map_eq).
  cbn [mbind option_bind]; do 5 node_step.
  assert (forall bx bz, at_pos (AVL (croot c y) pool
      (<[y:=AN z x (caddr c) 0 ky vy]> (<[z:=AN (rt s4) (rt s3) y bz kz vz]>
        (<[x:=AN (rt s2) (rt s1) y bx kx vx]> m3))))
      c (T y 0 ky vy (T z bz kz vz s4 s3) (T x bx kx vx s2 s1))) as Hok.
  { intros bx bz; set (m' := <[y:=_]> _).
    assert (changed [x; y; z] m3 m') as C3'.
    { apply changed_insert; [apply changed_insert; [apply changed_insert|..]|..];
        first [apply changed_refl|eexists; known|clear; set_solver]. }
    assert (changed W m1 m') as C'.
    { apply (changed_trans W [x; y; z] m1 m3); [|done|set_solver].
      eapply changed_trans; [exact C12|exact C23|set_solver]. }
    apply (at_pos_change (AVL r0 pool m) c s m' (T y 0 ky vy (T z bz kz vz s4 s3) (T x bx kx vx s2 s1)));
      [done|unfold s; rot_addrs| |by apply (crep_changed _ m1 m' c y C')|].
    2:{ rewrite (proj2 C'); apply C1. }
    assert (changed (x :: y :: z :: addrs s2 ++ addrs s3 ++ caddrs c) m m') as Cm.
    { eapply changed_trans; [|exact C'|clear; set_solver].
      eapply changed_trans; [apply changed_refl|exact C1|clear; set_solver]. }
    simpl; split_and!; try (unfold m'; known).
    - by apply (rep_changed _ m m' s4 z Cm).
    - apply (rep_changed [x; y; z] m3 m' s3 z C3'); [set_solver|done].
    - apply (rep_changed [x; y; z] m3 m' s2 x C3'); [set_solver|].
      apply (rep_changed _ m2 m3 s2 x C23); [set_solver|done].
    - by apply (rep_changed _ m m' s1 x Cm). }
  unfold s; cbn [rotlr]; rewrite (Z.gtb_ltb by_ 0).
  destruct (Z.ltb_spec 0 by_) as [Hp|Hp]; [|destruct (Z.eqb_spec by_ 0) as [->|Hn]].
  - do 3 node_step; rewrite insert3' by done; eexists; split; [done|]; split; [|done].
    replace (by_ <? 0) with false by lia; apply Hok.
  - do 3 node_step; rewrite insert3' by done; eexists; split; [done|]; split; [apply Hok|done].
  - do 3 node_step; rewrite insert3' by done; eexists; split; [done|]; split; [|done].
    replace (by_ <? 0) with true by lia; apply Hok.
Qed.

Lemma rebalance_spec t c s :
  at_pos t c s -> leaning s ->
  exists t', muggle_avl_tree_rebalance t (rt s) = Some ((rebal s).2, t') /\
    at_pos t' c (rebal s).1 /\ avl_pool t' = avl_pool t.
Proof.
  intros Hat Hl; pose proof Hat as [Hrep _ _ _ _ _].
  destruct s as [|x b kx vx l r]; [done|]; pose proof Hl as (Hb & Hb2 & Al & Ar).
  pose proof (height_nonneg l); pose proof (height_nonneg r).
  destruct t as [r0 pool m]; simpl in Hrep; destruct Hrep as (Hx & Hl' & Hr').
  unfold muggle_avl_tree_rebalance, rebal; cbn [rt bal lsub rsub]; node_step.
  destruct Hb2 as [->| ->]; cbn [Z.ltb Z.compare Z.gtb Z.opp Pos.compare Pos.compare_cont].
  - destruct r as [|z bz kz vz r1 r2]; [simpl in *; lia|]; simpl in Ar; destruct Hr' as (Hz & Hr1 & Hr2).
    cbn [rt bal]; node_step; rewrite Z.geb_leb; destruct (Z.leb_spec 0 bz).
    + apply rotate_left_spec; [done|lia].
    + assert (bz = -1) as -> by lia.
      destruct r1 as [|y by_ ky vy s2 s3]; [pose proof (height_nonneg r2); simpl in *; lia|].
      destruct (rotate_right_left_spec _ _ _ _ _ _ _ _ _ _ _ _ _ _ _ _ Hat) as (t' & -> & Ha & Hp).
      by eexists.
  - destruct l as [|z bz kz vz l1 l2]; [simpl in *; lia|]; simpl in Al; destruct Hl' as (Hz & Hl1 & Hl2).
    cbn [rt bal]; node_step; destruct (Z.leb_spec bz 0).
    + apply rotate_right_spec; [done|lia].
    + assert (bz = 1) as -> by lia.
      destruct l2 as [|y by_ ky vy s3 s2]; [pose proof (height_nonneg l1); simpl in *; lia|].
      destruct (rotate_left_right_spec _ _ _ _ _ _ _ _ _ _ _ _ _ _ _ _ Hat) as (t' & -> & Ha & Hp).
      by eexists.
Qed.

(** ** Moving along the context *)

Lemma at_pos_up t f c s : at_pos t (f :: c) s <-> at_pos t c (fill f s).
Proof.
  assert (Hp : addrs s ++ caddrs (f :: c) ≡ₚ addrs (fill f s) ++ caddrs c).
  { rewrite fill_addrs; simpl; solve_Permutation. }
  assert (Hr : rep (avl_nodes t) s (faddr f) /\ crep (avl_nodes t) (f :: c) (rt s) <->
    rep (avl_nodes t) (fill f s) (caddr c) /\ crep (avl_nodes t) c (rt (fill f s))).
  { destruct f; simpl; tauto. }
  assert (rt (fill f s) = faddr f) as Hf by (by destruct f).
  split; intros [H1 H2 H3 H4 H5 H6]; (split; [| | | | |]); try (apply Hr; done); simpl in *.
  - by rewrite Hf.
  - by rewrite <- Hp.
  - by rewrite <- Hp.
  - rewrite H6; apply leibniz_equiv; by rewrite <- Hp.
  - by rewrite Hf in H3.
  - by rewrite Hp.
  - by rewrite Hp.
  - rewrite H6; apply leibniz_equiv; by rewrite <- Hp.
Qed.

Lemma at_pos_plug t c s : at_pos t c s <-> at_pos t [] (plug c s).
Proof.
  revert s; induction c as [|f c IH]; intros s; [done|]; rewrite at_pos_up; apply IH.
Qed.

Definition fside (f : frame) : side :=
  match f with FL _ _ _ _ _ => AVL_TREE_SIDE_LEFT | FR _ _ _ _ _ => AVL_TREE_SIDE_RIGHT end.

(** The node of a frame in memory. *)
Lemma frame_node t f c s : at_pos t (f :: c) s -> exists l r k v,
  avl_nodes t !! faddr f = Some (AN l r (caddr c) (fbal f) k v) /\ faddr f <> NULL /\
  (s <> E -> (l =? rt s) = match fside f with AVL_TREE_SIDE_LEFT => true | _ => false end).
Proof.
  intros Hat; pose proof Hat as [_ Hc _ Hnd Hn _].
  assert (faddr f <> NULL) as Hf by (simpl in Hn; set_solver).
  destruct f as [a b k v r|a b k v l]; simpl in *; destruct Hc as (H1 & _ & _);
    do 4 eexists; split; [done|split; [done|]|done|split; [done|]]; intros Hs.
  - apply Z.eqb_refl.
  - apply Z.eqb_neq; intros E1; destruct s as [|x ? ? ? ? ?]; [done|]; simpl in *; subst.
    destruct l; simpl in *; [set_solver|]; apply NoDup_cons in Hnd; set_solver.
Qed.

Lemma side_of_spec t f c s : at_pos t (f :: c) s -> s <> E ->
  side_of t (faddr f) (rt s) = Some (fside f).
Proof.
  intros Hat Hs; destruct (frame_node _ _ _ _ Hat) as (l & r & k & v & E1 & _ & E2).
  unfold side_of, nget; rewrite E1; cbn [mbind option_bind left_of]; rewrite E2 by done.
  by destruct (fside f).
Qed.

Lemma bump_spec t f c s d :
  at_pos t (f :: c) s -> -2 <= fbal f + d <= 2 ->
  exists t', bump t (faddr f) d = Some t' /\ at_pos t' (set_fbal f (fbal f + d) :: c) s /\
    avl_pool t' = avl_pool t /\ size (avl_nodes t') = size (avl_nodes t).
Proof.
  intros Hat Hd; destruct (frame_node _ _ _ _ Hat) as (l & r & k & v & E1 & Hf & _).
  destruct t as [r0 pool m]; unfold bump; simpl in E1; node_step; node_step.
  rewrite swrap_small by lia; eexists; split; [done|].
  set (m' := <[faddr f:=_]> m).
  assert (changed [faddr f] m m') as C by (apply changed_insert; [apply changed_refl|by left|by eexists]).
  split; [|split; [done|]].
  2:{ simpl; rewrite <- !size_dom; f_equal; apply C. }
  pose proof Hat as [Hr Hc Hroot Hnd Hn Hdom].
  assert (addrs s ++ caddrs (set_fbal f (fbal f + d) :: c) = addrs s ++ caddrs (f :: c)) as Ea by by destruct f.
  assert (Hd' : forall x, x ∈ addrs s ++ addrs (fsib f) ++ caddrs c -> x ∉ [faddr f]).
  { apply (nodup_perm _ (faddr f :: addrs s ++ addrs (fsib f) ++ caddrs c)) in Hnd;
      [|simpl; by rewrite <- Permutation_middle].
    apply NoDup_cons in Hnd; set_solver. }
  split; rewrite ?Ea; simpl in *; try done.
  - replace (faddr (set_fbal f (fbal f + d))) with (faddr f) by by destruct f.
    apply (rep_changed _ m m' s _ C); [set_solver|done].
  - assert (m' !! faddr f = Some (AN l r (caddr c) (fbal f + d) k v)) as Em by apply lookup_insert_eq.
    clear Ea Hnd Hn Hdom; destruct f as [a b k' v' sib|a b k' v' sib]; simpl in *; destruct Hc as (H1 & H2 & H3);
      rewrite H1 in E1; simplify_eq; (split; [done|]); (split; [apply (rep_changed _ m m' _ _ C); [set_solver|done]|]);
      (apply (crep_changed _ m m' _ _ C); [set_solver|done]).
  - by destruct f.
  - rewrite (proj2 C); by destruct f.
Qed.
End Rotations.
