(* ===== verification/AvlUpdate.v ===== *)
(** * The AVL tree: what the operations do to the tree

    The loops of [dsaa/avl_tree.c], from a position in the tree: walking up
    with [grow] and [shrink] of [AvlShape], walking down along a key, linking
    a new leaf, moving data into a leaf and erasing nodes. *)
From S2P Require Import Prelude Utils MemoryPool Nodes OrderedMap AvlShape AvlTree.

(** ** Walking up *)
Section Retrace.
Context {S : Type}.
Implicit Types (t : muggle_avl_tree S) (c : ctx).

Lemma fbal_set f b : fbal (set_fbal f b) = b.
Proof. by destruct f. Qed.
Lemma faddr_set f b : faddr (set_fbal f b) = faddr f.
Proof. by destruct f. Qed.
Lemma rt_fill f s : rt (fill f s) = faddr f.
Proof. by destruct f. Qed.
Lemma fill_not_E f s : fill f s <> E.
Proof. by destruct f. Qed.

Lemma at_pos_whole t c s : at_pos t c s -> at_pos t [] (plug c s).
Proof. apply at_pos_plug. Qed.

Lemma caddr_null t c s : at_pos t c s -> (caddr c =? NULL) = match c with [] => true | _ => false end.
Proof.
  intros Hat; destruct c as [|f c]; [done|].
  destruct (frame_node _ _ _ _ Hat) as (_ & _ & _ & _ & _ & Hf & _); by apply Z.eqb_neq.
Qed.

(** The balance and the parent that a step reads, after the update. *)
Lemma step_node t f c s d :
  at_pos t (f :: c) s -> -2 <= fbal f + d <= 2 ->
  exists t' n, bump t (faddr f) d = Some t' /\ nget t' (faddr f) = Some n /\
    balance_of n = fbal f + d /\ parent_of n = caddr c /\
    at_pos t' c (fill (set_fbal f (fbal f + d)) s) /\ avl_pool t' = avl_pool t.
Proof.
  intros Hat Hd; destruct (bump_spec _ _ _ _ _ Hat Hd) as (t' & E1 & Hat' & Hp & _).
  destruct (frame_node _ _ _ _ Hat') as (l & r & k & v & E2 & _ & _); rewrite faddr_set, fbal_set in E2.
  exists t'; eexists; split; [done|]; split; [exact E2|].
  split; [done|]; split; [done|]; split; [by apply at_pos_up in Hat'|done].
Qed.

Definition grow_delta (f : frame) : Z :=
  match fside f with AVL_TREE_SIDE_LEFT => -1 | AVL_TREE_SIDE_RIGHT => 1 end.

Lemma grow_cons f c s : grow (f :: c) s =
  let b := fbal f + grow_delta f in
  let n := fill (set_fbal f b) s in
  if b =? 0 then plug c n
  else if (b =? 1) || (b =? -1) then grow c n
  else plug c (rebal n).1.
Proof. by destruct f. Qed.

Lemma shrink_cons f c s : shrink (f :: c) s =
  let b := fbal f + - grow_delta f in
  let n := fill (set_fbal f b) s in
  if (b =? 1) || (b =? -1) then plug c n
  else if b =? 0 then shrink c n
  else if (rebal n).2 then shrink c (rebal n).1 else plug c (rebal n).1.
Proof. destruct f; simpl; by replace (b - -1) with (b + 1) by lia. Qed.

(** The node above the subtree that has changed its height, with its new
    balance. *)
Lemma new_balance f s h d :
  avl s -> height s = h + d -> d = 1 \/ d = -1 -> cavl [f] h ->
  let b := fbal f + (if d =? 1 then grow_delta f else - grow_delta f) in
  -2 <= b <= 2 /\ avl (fsib f) /\
  b = match f with FL _ _ _ _ r => height r - height s | FR _ _ _ _ l => height s - height l end.
Proof.
  intros Ha Hh Hd (Hf & Hr & Hs & _); destruct f; cbn in *; destruct Hd as [-> | ->]; cbn; intuition lia.
Qed.

Lemma insert_retrace_spec fuel t f c s h :
  at_pos t (f :: c) s -> avl s -> height s = h + 1 -> cavl (f :: c) h ->
  bal s <> 0 \/ height s = 1 -> (length (f :: c) <= fuel)%nat ->
  exists t', insert_retrace fuel t (faddr f) (fside f) = Some t' /\
    at_pos t' [] (grow (f :: c) s) /\ avl_pool t' = avl_pool t.
Proof.
  revert fuel t f s h; induction c as [c IH] using (induction_ltof1 _ (@length frame)); unfold ltof in IH.
  intros [|fuel] t f s h Hat Ha Hh Hc Hb Hfuel; [simpl in *; lia|].
  cbn [insert_retrace]; rewrite grow_cons; cbv zeta.
  change (match fside f with AVL_TREE_SIDE_LEFT => -1 | AVL_TREE_SIDE_RIGHT => 1 end) with (grow_delta f).
  destruct (new_balance f s h 1 Ha Hh (or_introl eq_refl)) as (Hr & Hs & En); [cbn in *; tauto|].
  change (1 =? 1) with true in *; cbv iota in *.
  destruct (step_node _ _ _ _ _ Hat Hr) as (t1 & n & -> & E2 & Eb & Ep & Hat1 & Hp1).
  cbn [mbind option_bind]; rewrite E2; cbn [mbind option_bind]; rewrite Eb, Ep.
  set (b := fbal f + grow_delta f) in *; set (s1 := fill (set_fbal f b) s) in *.
  destruct (Z.eqb_spec b 0) as [E0|N0].
  { exists t1; split; [done|]; split; [by apply at_pos_whole|done]. }
  destruct ((b =? 1) || (b =? -1)) eqn:E1.
  - rewrite (caddr_null _ _ _ Hat1); destruct c as [|f' c].
    { exists t1; split; [done|]; split; [done|done]. }
    pose proof (side_of_spec t1 f' c s1 Hat1 (fill_not_E _ _)) as Hside.
    unfold s1 in Hside at 1; rewrite rt_fill, faddr_set in Hside.
    cbn [caddr]; rewrite Hside; cbn [mbind option_bind].
    destruct (IH c ltac:(simpl; lia) fuel t1 f' s1 (1 + Z.max h (height (fsib f)))) as (t2 & E3 & Hat2 & Hp2).
    + done.
    + apply frame_avl; [done..|lia].
    + unfold s1; rewrite frame_height; clear - En E1 N0 Hh Hc; destruct f; cbn in *; lia.
    + apply Hc.
    + left; unfold s1; rewrite frame_bal; done.
    + simpl in *; lia.
    + exists t2; split; [exact E3|]; split; [done|by rewrite Hp2].
  - assert (b = 2 \/ b = -2) as Hb2 by (clear - E1 N0 Hr; lia).
    replace ((b =? 2) || (b =? -2)) with true by (clear - Hb2; lia); cbn [require mbind option_bind].
    destruct (rebalance_spec t1 c s1 Hat1) as (t2 & E3 & Hat2 & Hp2); [by apply frame_leaning|].
    unfold s1 in E3 at 1; rewrite rt_fill, faddr_set in E3; rewrite E3; cbn [mbind option_bind].
    exists t2; split; [done|]; split; [by apply at_pos_whole|by rewrite Hp2].
Qed.

Lemma rebal_not_E s : leaning s -> (rebal s).1 <> E.
Proof.
  intros Hl; destruct (rebal_spec _ Hl) as (_ & _ & Hp & _); intros E1; rewrite E1 in Hp.
  destruct s; [done|]; apply Permutation_nil_cons in Hp; done.
Qed.

Lemma remove_retrace_spec fuel t c s h sd :
  at_pos t c s -> avl s -> height s = h - 1 -> cavl c h ->
  sd = match c with [] => sd | f :: _ => fside f end -> (length c <= fuel)%nat ->
  exists t', remove_retrace fuel t (caddr c) sd = Some t' /\
    at_pos t' [] (shrink c s) /\ avl_pool t' = avl_pool t.
Proof.
  revert fuel t s h sd; induction c as [|f c IH]; intros fuel t s h sd Hat Ha Hh Hc Hsd Hfuel.
  { exists t; by destruct fuel. }
  pose proof (caddr_null _ _ _ Hat) as Hnn; destruct fuel as [|fuel]; [simpl in *; lia|].
  cbn [remove_retrace]; rewrite Hnn, shrink_cons, Hsd; cbv zeta; cbn [caddr]; clear sd Hsd Hnn.
  replace (match fside f with AVL_TREE_SIDE_LEFT => 1 | AVL_TREE_SIDE_RIGHT => -1 end)
    with (- grow_delta f) by by destruct f.
  destruct (new_balance f s h (-1) Ha Hh (or_intror eq_refl)) as (Hr & Hs & En); [cbn in *; tauto|].
  change (-1 =? 1) with false in *; cbv iota in *.
  destruct (step_node _ _ _ _ _ Hat Hr) as (t1 & n & -> & E2 & Eb & Ep & Hat1 & Hp1).
  cbn [mbind option_bind]; rewrite E2; cbn [mbind option_bind]; rewrite Eb, Ep.
  set (b := fbal f + - grow_delta f) in *; set (s1 := fill (set_fbal f b) s) in *.
  assert (Hside : forall sd, caddr c =? NULL = false ->
    side_of t1 (caddr c) (faddr f) = Some (match c with [] => sd | f' :: _ => fside f' end)).
  { intros sd0; destruct c as [|f' c]; [done|]; intros _; rewrite <- (faddr_set f b), <- (rt_fill (set_fbal f b) s).
    apply (side_of_spec t1 f' c s1 Hat1), fill_not_E. }
  destruct ((b =? 1) || (b =? -1)) eqn:E1.
  { exists t1; split; [done|]; split; [by apply at_pos_whole|done]. }
  destruct (Z.eqb_spec b 0) as [E0|N0].
  - pose proof (caddr_null _ _ _ Hat1) as Hnn; destruct c as [|f' c].
    { exists t1; split; [done|]; split; [done|done]. }
    rewrite Hnn; rewrite (Hside AVL_TREE_SIDE_LEFT) by done; cbn [mbind option_bind].
    destruct (IH fuel t1 s1 (1 + Z.max h (height (fsib f))) (fside f')) as (t2 & E3 & Hat2 & Hp2); try done.
    + apply frame_avl; [done..|lia].
    + unfold s1; rewrite frame_height; clear - En E0 Hh Hc; destruct f; cbn in *; lia.
    + apply Hc.
    + simpl in *; lia.
    + exists t2; split; [exact E3|]; split; [done|by rewrite Hp2].
  - assert (b = 2 \/ b = -2) as Hb2 by (clear - E1 N0 Hr; lia).
    replace ((b =? 2) || (b =? -2)) with true by (clear - Hb2; lia); cbn [require mbind option_bind].
    assert (exists sd, (if caddr c =? NULL then Some (fside f) else side_of t1 (caddr c) (faddr f)) = Some sd /\
      sd = match c with [] => sd | f' :: _ => fside f' end) as (sd & -> & Hsd).
    { destruct (caddr c =? NULL) eqn:E4; [|rewrite (Hside AVL_TREE_SIDE_LEFT eq_refl); eexists; split; [done|by destruct c]].
      exists (fside f); split; [done|]; rewrite (caddr_null _ _ _ Hat1) in E4; by destruct c. }
    assert (leaning s1) as Hlean by by apply frame_leaning.
    destruct (rebalance_spec t1 c s1 Hat1 Hlean) as (t2 & E3 & Hat2 & Hp2).
    unfold s1 in E3 at 1; rewrite rt_fill, faddr_set in E3; cbn [mbind option_bind]; rewrite E3; cbn [mbind option_bind].
    destruct (rebal s1).2 eqn:Hdeep; [|exists t2; split; [done|]; split; [by apply at_pos_whole|by rewrite Hp2]].
    destruct (rebal_spec _ Hlean) as (R1 & _ & _ & R4); rewrite Hdeep in R4.
    destruct (IH fuel t2 (rebal s1).1 (1 + Z.max h (height (fsib f))) sd) as (t3 & E4 & Hat3 & Hp3); try done.
    + rewrite R4; unfold s1; rewrite frame_height; clear - En Hb2 Hh Hc; destruct f; cbn in *; lia.
    + apply Hc.
    + simpl in *; lia.
    + exists t3; split; [exact E4|]; split; [done|by rewrite Hp3, Hp2].
Qed.
End Retrace.

(** ** Walking down *)

Lemma height_addrs s : height s <= Z.of_nat (length (addrs s)).
Proof. induction s; simpl; [lia|]; rewrite length_app; lia. Qed.

Lemma at_pos_size {S} (t : muggle_avl_tree S) c s :
  at_pos t c s -> size (avl_nodes t) = length (addrs s ++ caddrs c).
Proof.
  intros [_ _ _ Hnd _ Hd]; rewrite <- size_dom, Hd; by apply size_list_to_set.
Qed.

Lemma at_pos_height {S} (t : muggle_avl_tree S) c s :
  at_pos t c s -> height s <= Z.of_nat (size (avl_nodes t)).
Proof.
  intros Hat; rewrite (at_pos_size _ _ _ Hat), length_app; pose proof (height_addrs s); lia.
Qed.

(** As many frames as nodes at most. *)
Lemma at_pos_depth {S} (t : muggle_avl_tree S) c s :
  at_pos t c s -> (length c <= size (avl_nodes t))%nat.
Proof.
  intros Hat; rewrite (at_pos_size _ _ _ Hat), length_app.
  enough (length c <= length (caddrs c))%nat by lia.
  clear Hat; induction c as [|f c IH]; simpl; [lia|]; rewrite length_app; lia.
Qed.

(** The node at a position. *)
Lemma at_pos_node {S} (t : muggle_avl_tree S) c a b k v l r :
  at_pos t c (T a b k v l r) ->
  nget t a = Some (AN (rt l) (rt r) (caddr c) b k v) /\ a <> NULL /\
  (rt l =? NULL) = match l with E => true | _ => false end /\
  (rt r =? NULL) = match r with E => true | _ => false end.
Proof.
  intros [Hr _ _ _ Hn _]; simpl in Hr, Hn.
  assert (forall s, NULL ∉ addrs s -> (rt s =? NULL) = match s with E => true | _ => false end) as Hz.
  { intros s Hs; destruct s; [done|]; apply Z.eqb_neq; simpl in *; set_solver. }
  split; [apply Hr|]; split; [set_solver|]; split; apply Hz; set_solver.
Qed.

Section Search.
Context {S : Type} (cmp : Z -> Z -> Z).
Implicit Types (t : muggle_avl_tree S) (c : ctx).

(** The position of a key: its node, or the empty place where it belongs. *)
Fixpoint locate (key : Z) (s : tree) (c : ctx) : ctx * tree :=
  match s with
  | E => (c, E)
  | T a b k v l r =>
      if cmp key k =? 0 then (c, s)
      else if cmp key k <? 0 then locate key l (FL a b k v r :: c)
      else locate key r (FR a b k v l :: c)
  end.

Lemma locate_plug key s c : plug (locate key s c).1 (locate key s c).2 = plug c s.
Proof.
  revert c; induction s as [|a b k v l IHl r IHr]; intros c; simpl; [done|].
  destruct (_ =? 0); [done|]; destruct (_ <? 0); [apply IHl|apply IHr].
Qed.

Lemma find_node_locate fuel t c s key :
  at_pos t c s -> height s <= Z.of_nat fuel ->
  find_node cmp fuel t (rt s) key = Some (rt (locate key s c).2).
Proof.
  revert fuel c; induction s as [|a b k v l IHl r IHr]; intros fuel c Hat Hf; [by destruct fuel|].
  destruct (at_pos_node _ _ _ _ _ _ _ _ Hat) as (Hn & Ha & _).
  pose proof (height_nonneg l); pose proof (height_nonneg r).
  destruct fuel as [|fuel]; [simpl in *; lia|]; cbn [find_node rt locate height] in *.
  rewrite (proj2 (Z.eqb_neq _ _) Ha), Hn; cbn [mbind option_bind key_of left_of right_of].
  destruct (_ =? 0); [done|]; destruct (_ <? 0); [apply IHl|apply IHr]; try lia; by apply at_pos_up.
Qed.

Lemma insert_position_locate fuel t c s key :
  at_pos t c s -> s <> E -> height s <= Z.of_nat fuel ->
  insert_position cmp fuel t (rt s) key = Some (
    match locate key s c with
    | (f :: _, E) => Some (faddr f, fside f)
    | _ => None
    end).
Proof.
  revert fuel c; induction s as [|a b k v l IHl r IHr]; intros fuel c Hat Hs Hf; [done|].
  destruct (at_pos_node _ _ _ _ _ _ _ _ Hat) as (Hn & Ha & El & Er).
  pose proof (height_nonneg l); pose proof (height_nonneg r).
  destruct fuel as [|fuel]; [simpl in *; lia|]; cbn [insert_position rt locate height] in *.
  rewrite Hn; cbn [mbind option_bind key_of left_of right_of]; rewrite El, Er.
  destruct (_ =? 0); [by destruct c|]; destruct (_ <? 0).
  - destruct l as [|la lb lk lv ll lr]; [done|]; apply IHl; [by apply at_pos_up|done|lia].
  - destruct r as [|ra rb rk rv rl rr]; [done|]; apply IHr; [by apply at_pos_up|done|lia].
Qed.

Context `{!CmpLaws cmp}.

(** The position is right: smaller keys before it, larger ones after it. *)
Lemma locate_order key s c :
  ordered cmp (inorder s) -> below cmp key (before c) -> above cmp key (after c) ->
  let '(c', s') := locate key s c in
  match s' with
  | E => below cmp key (before c') /\ above cmp key (after c')
  | T _ _ k v l r => cmp key k = 0 /\ below cmp key (before c' ++ inorder l) /\
      above cmp key (inorder r ++ after c')
  end.
Proof.
  revert c; induction s as [|a b k v l IHl r IHr]; intros c Ho Hb Ha; cbn [locate]; [done|].
  cbn [inorder] in Ho; apply (ordered_around cmp) in Ho as (Ol & Or & Bl & Ar); cbn [fst] in *.
  assert (cmp key k <= 0 -> above cmp key (inorder r)) as Hr.
  { intros Hk; eapply Forall_impl; [exact Ar|]; intros [k1 v1]; simpl; intros H1.
    assert (cmp key k1 <= 0) as H2 by (apply (cmp_trans _ k); lia).
    apply cmp_flip in H1; apply cmp_flip.
    destruct (decide (cmp k1 key <= 0)); [|lia].
    assert (cmp k1 k <= 0) by (apply (cmp_trans _ key); lia); lia. }
  assert (cmp key k >= 0 -> below cmp key (inorder l)) as Hl.
  { intros Hk; eapply Forall_impl; [exact Bl|]; intros [k1 v1]; simpl; intros H1.
    assert (cmp k1 k < 0) by (apply cmp_flip; lia).
    assert (cmp k key <= 0) by (by apply cmp_le_of_ge).
    assert (cmp k1 key < 0) as H2 by (by apply (cmp_lt_le _ k)); apply cmp_flip in H2; lia. }
  destruct (Z.eqb_spec (cmp key k) 0); [|destruct (Z.ltb_spec (cmp key k) 0)].
  - split; [done|]; split; apply Forall_app; split; auto with lia; [apply Hl|apply Hr]; lia.
  - apply IHl; [done|done|]; apply Forall_cons; split; [done|]; apply Forall_app; split; auto with lia.
    apply Hr; lia.
  - apply IHr; [done| |done]; apply Forall_app; split; [done|]; apply Forall_app; split; [apply Hl; lia|].
    apply Forall_singleton; simpl; lia.
Qed.
End Search.

(** ** Writing the data of a node, and a new leaf *)
Section Nodes.
Context {S : Type}.
Implicit Types (t : muggle_avl_tree S) (c : ctx).

(** The node at the position is overwritten, its pointers apart. *)
Lemma focus_data t c a b k v l r k' v' f :
  at_pos t c (T a b k v l r) ->
  f (AN (rt l) (rt r) (caddr c) b k v) = AN (rt l) (rt r) (caddr c) b k' v' ->
  exists t', nmod t a f = Some t' /\ at_pos t' c (T a b k' v' l r) /\
    avl_pool t' = avl_pool t /\ avl_root t' = avl_root t /\ dom (avl_nodes t') = dom (avl_nodes t).
Proof.
  intros Hat Hf; destruct (at_pos_node _ _ _ _ _ _ _ _ Hat) as (Hn & Ha & _).
  destruct t as [r0 pool m]; rewrite (nmod_some _ _ _ _ _ _ Hn), Hf.
  set (m' := <[a:=AN (rt l) (rt r) (caddr c) b k' v']> m).
  assert (changed [a] m m') as C by (apply changed_insert; [apply changed_refl|by left|by eexists]).
  eexists; split; [done|]; split; [|repeat split; apply C].
  pose proof Hat as [Hr Hc Hroot Hnd Hnn Hdom]; simpl in *.
  apply NoDup_cons in Hnd as [Hd Hnd]; rewrite <- app_assoc in Hd.
  split; simpl; try done.
  - split; [unfold m'; by rewrite lookup_insert_eq|].
    split; (apply (rep_changed _ m m' _ _ C); [|apply Hr]); set_solver.
  - apply (crep_changed _ m m' _ _ C); [set_solver|done].
  - apply NoDup_cons; split; [by rewrite <- app_assoc|done].
  - etransitivity; [apply C|exact Hdom].
Qed.

(** A new leaf in an empty place below a node. *)
Lemma link_leaf t f c r0 pool m a key value :
  at_pos t (f :: c) E -> a <> NULL -> a ∉ caddrs (f :: c) ->
  t = AVL r0 pool m ->
  exists t', (t ← nmod (AVL r0 pool (<[a := AN NULL NULL NULL 0 NULL NULL]> m)) (faddr f)
                   (match fside f with AVL_TREE_SIDE_LEFT => set_left a | AVL_TREE_SIDE_RIGHT => set_right a end);
              t ← nmod t a (set_parent (faddr f));
              t ← nmod t a (set_key key);
              t ← nmod t a (set_value value);
              nmod t a (set_balance 0)) = Some t' /\
    at_pos t' (f :: c) (T a 0 key value E E) /\ avl_pool t' = pool.
Proof.
  intros [_ Hc Hroot Hnd Hn Hdom] Ha Hac ->; simpl in Hc, Hroot, Hnd, Hn, Hdom, Hac.
  assert (a <> faddr f) as Hne by set_solver.
  apply NoDup_cons in Hnd as [Hf Hnd].
  assert (exists l r, m !! faddr f = Some (AN l r (caddr c) (fbal f) (match f with FL _ _ k _ _ | FR _ _ k _ _ => k end)
    (match f with FL _ _ _ v _ | FR _ _ _ v _ => v end))) as (lf & rf & Em) by (destruct f; simpl in *; do 2 eexists; apply Hc).
  rewrite (nmod_some _ _ _ _ _ _ (eq_trans (lookup_insert_ne _ _ _ _ Hne) Em)); cbn [mbind option_bind].
  rewrite (nmod_some _ _ _ _ (AN NULL NULL NULL 0 NULL NULL)) by (rewrite lookup_insert_ne by done; apply lookup_insert_eq).
  node_simpl; do 3 (erewrite nmod_some by apply lookup_insert_eq; node_simpl).
  rewrite !insert_insert_eq; eexists; split; [done|]; split; [|done].
  match goal with |- at_pos (AVL _ _ ?x) _ _ => set (m' := x) end.
  assert (Hsame : forall x, x <> a -> x <> faddr f -> m' !! x = m !! x).
  { intros x H1 H2; unfold m'; by rewrite !lookup_insert_ne by done. }
  split; simpl; try done.
  - split; [unfold m'; by rewrite lookup_insert_eq|done].
  - assert (m' !! faddr f = Some (match fside f with AVL_TREE_SIDE_LEFT => set_left a | AVL_TREE_SIDE_RIGHT => set_right a end
      (AN lf rf (caddr c) (fbal f) (match f with FL _ _ k _ _ | FR _ _ k _ _ => k end)
        (match f with FL _ _ _ v _ | FR _ _ _ v _ => v end)))) as Ef
      by (unfold m'; rewrite lookup_insert_ne, lookup_insert_eq by done; done).
    clear Hdom Hroot; destruct f as [x b k v sib|x b k v sib]; simpl in *; destruct Hc as (H1 & H2 & H3);
      rewrite Em in H1; simplify_eq; (split; [done|]);
      (split; [apply (rep_agree m)|apply (crep_agree m)]; [|done| |done]); intros y Hy; apply Hsame; set_solver.
  - constructor; [set_solver|]; by constructor.
  - set_solver.
  - unfold m'; rewrite !dom_insert_L, Hdom; set_solver.
Qed.
End Nodes.

(** ** Moving data into a leaf *)

(** The rightmost and the leftmost node of a tree. *)
Fixpoint max_pos (s : tree) (c : ctx) : ctx * tree :=
  match s with
  | T a b k v l (T _ _ _ _ _ _ as r) => max_pos r (FR a b k v l :: c)
  | _ => (c, s)
  end.
Fixpoint min_pos (s : tree) (c : ctx) : ctx * tree :=
  match s with
  | T a b k v (T _ _ _ _ _ _ as l) r => min_pos l (FL a b k v r :: c)
  | _ => (c, s)
  end.

Lemma before_app c1 c2 : before (c1 ++ c2) = before c2 ++ before c1.
Proof.
  induction c1 as [|[] c1 IH]; simpl; [by rewrite app_nil_r|done|]; rewrite IH; by rewrite <- !app_assoc.
Qed.
Lemma after_app c1 c2 : after (c1 ++ c2) = after c1 ++ after c2.
Proof.
  induction c1 as [|[] c1 IH]; simpl; [done| |done]; rewrite IH; by rewrite <- !app_assoc.
Qed.

Lemma max_pos_spec s c : s <> E -> exists c1 a b k v l,
  max_pos s c = (c1 ++ c, T a b k v l E) /\ after c1 = [] /\ plug c1 (T a b k v l E) = s /\
  height (T a b k v l E) <= height s.
Proof.
  revert c; induction s as [|a b k v l _ r IH]; intros c Hs; [done|].
  destruct r as [|ra rb rk rv rl rr].
  { exists [], a, b, k, v, l; simpl; split_and!; [done|done|done|lia]. }
  destruct (IH (FR a b k v l :: c)) as (c1 & a' & b' & k' & v' & l' & E1 & E2 & E3 & E4); [done|].
  exists (c1 ++ [FR a b k v l]), a', b', k', v', l'; rewrite <- app_assoc, after_app, plug_app, E2, E3.
  split_and!; [exact E1|done|done|]; cbn [height] in *; lia.
Qed.

Lemma min_pos_spec s c : s <> E -> exists c1 a b k v r,
  min_pos s c = (c1 ++ c, T a b k v E r) /\ before c1 = [] /\ plug c1 (T a b k v E r) = s /\
  height (T a b k v E r) <= height s.
Proof.
  revert c; induction s as [|a b k v l IH r _]; intros c Hs; [done|].
  destruct l as [|la lb lk lv ll lr].
  { exists [], a, b, k, v, r; simpl; split_and!; [done|done|done|lia]. }
  destruct (IH (FL a b k v r :: c)) as (c1 & a' & b' & k' & v' & r' & E1 & E2 & E3 & E4); [done|].
  exists (c1 ++ [FL a b k v r]), a', b', k', v', r'; rewrite <- app_assoc, before_app, plug_app, E2, E3.
  split_and!; [exact E1|done|done|]; cbn [height] in *; lia.
Qed.

Lemma plug_height c s s' : height s = height s' -> height (plug c s) = height (plug c s').
Proof.
  revert s s'; induction c as [|f c IH]; intros s s' H; simpl; [done|].
  apply IH; rewrite !fill_height; lia.
Qed.

(** The data of two nodes exchanged: the heights stay as they are. *)
Lemma plug_avl_same c s s' : avl (plug c s) -> height s = height s' -> avl s' -> avl (plug c s').
Proof. rewrite !plug_avl; intros [_ H] <- ?; done. Qed.

Section Move.
Context {S : Type}.
Implicit Types (t : muggle_avl_tree S) (c : ctx).

Lemma rightmost_spec fuel t c s : at_pos t c s -> s <> E -> height s <= Z.of_nat fuel ->
  rightmost fuel t (rt s) = Some (rt (max_pos s c).2).
Proof.
  revert fuel c; induction s as [|a b k v l _ r IH]; intros fuel c Hat Hs Hf; [done|].
  destruct (at_pos_node _ _ _ _ _ _ _ _ Hat) as (Hn & _ & _ & Er).
  pose proof (height_nonneg l); pose proof (height_nonneg r).
  destruct fuel as [|fuel]; [simpl in *; lia|]; cbn [rightmost rt max_pos height] in *.
  rewrite Hn; cbn [mbind option_bind right_of]; rewrite Er.
  destruct r as [|ra rb rk rv rl rr]; [done|]; apply IH; [by apply at_pos_up|done|lia].
Qed.

Lemma leftmost_spec fuel t c s : at_pos t c s -> s <> E -> height s <= Z.of_nat fuel ->
  leftmost fuel t (rt s) = Some (rt (min_pos s c).2).
Proof.
  revert fuel c; induction s as [|a b k v l IH r _]; intros fuel c Hat Hs Hf; [done|].
  destruct (at_pos_node _ _ _ _ _ _ _ _ Hat) as (Hn & _ & El & _).
  pose proof (height_nonneg l); pose proof (height_nonneg r).
  destruct fuel as [|fuel]; [simpl in *; lia|]; cbn [leftmost rt min_pos height] in *.
  rewrite Hn; cbn [mbind option_bind left_of]; rewrite El.
  destruct l as [|la lb lk lv ll lr]; [done|]; apply IH; [by apply at_pos_up|done|lia].
Qed.

(** The upper node, with its data replaced, seen from a lower one. *)
Definition reframe (f : frame) (k v : Z) : frame :=
  match f with FL a b _ _ r => FL a b k v r | FR a b _ _ l => FR a b k v l end.
Definition fkey (f : frame) : Z := match f with FL _ _ k _ _ | FR _ _ k _ _ => k end.
Definition fval (f : frame) : Z := match f with FL _ _ _ v _ | FR _ _ _ v _ => v end.

Lemma frame_focus t c1 f c s :
  at_pos t (c1 ++ f :: c) s <-> at_pos t c (fill f (plug c1 s)).
Proof. by rewrite (at_pos_plug _ (c1 ++ f :: c)), (at_pos_plug _ c), plug_app. Qed.

(** One of the four assignments, to the upper node or to the lower one. *)
Lemma upper_data t c1 f c s k' v' g :
  at_pos t (c1 ++ f :: c) s ->
  (forall l r p b, g (AN l r p b (fkey f) (fval f)) = AN l r p b k' v') ->
  exists t', nmod t (faddr f) g = Some t' /\ at_pos t' (c1 ++ reframe f k' v' :: c) s /\
    avl_pool t' = avl_pool t /\ avl_root t' = avl_root t /\ dom (avl_nodes t') = dom (avl_nodes t).
Proof.
  intros Hat%frame_focus Hg; destruct f as [a b k v r|a b k v l]; simpl in *;
    destruct (focus_data _ _ _ _ _ _ _ _ k' v' g Hat (Hg _ _ _ _)) as (t' & E1 & Hat' & H);
    exists t'; (split; [done|]); (split; [by apply frame_focus|done]).
Qed.

Lemma swap_data_spec t c1 f c a b k v l r :
  at_pos t (c1 ++ f :: c) (T a b k v l r) ->
  exists t', swap_data t (faddr f) a = Some t' /\
    at_pos t' (c1 ++ reframe f k v :: c) (T a b (fkey f) (fval f) l r) /\
    avl_pool t' = avl_pool t /\ dom (avl_nodes t') = dom (avl_nodes t).
Proof.
  intros Hat; unfold swap_data.
  assert (Hup : forall t f s, at_pos t (c1 ++ f :: c) s ->
    exists n, nget t (faddr f) = Some n /\ key_of n = fkey f /\ value_of n = fval f).
  { intros t0 f0 s0 H0%frame_focus; destruct f0; cbn [faddr fkey fval fill] in *;
      destruct (at_pos_node _ _ _ _ _ _ _ _ H0) as (-> & _); by eexists. }
  destruct (Hup _ _ _ Hat) as (n & -> & Ek & _); destruct (at_pos_node _ _ _ _ _ _ _ _ Hat) as (-> & _).
  cbn [mbind option_bind key_of]; rewrite Ek.
  destruct (upper_data _ _ _ _ _ k (fval f) (set_key k) Hat) as (t1 & -> & Hat1 & P1 & _ & D1); [done|].
  cbn [mbind option_bind].
  destruct (focus_data _ _ _ _ _ _ _ _ (fkey f) v (set_key (fkey f)) Hat1) as (t2 & -> & Hat2 & P2 & _ & D2); [done|].
  cbn [mbind option_bind].
  destruct (Hup _ _ _ Hat2) as (n2 & E2 & _ & Ev); destruct (at_pos_node _ _ _ _ _ _ _ _ Hat2) as (E3 & _).
  replace (faddr (reframe f k (fval f))) with (faddr f) in E2 by by destruct f.
  replace (fval (reframe f k (fval f))) with (fval f) in Ev by by destruct f.
  rewrite E2, E3; cbn [mbind option_bind value_of]; rewrite Ev.
  destruct (upper_data _ _ _ _ _ k v (set_value v) Hat2) as (t3 & E4 & Hat3 & P3 & _ & D3); [by destruct f|].
  replace (faddr (reframe f k (fval f))) with (faddr f) in E4 by by destruct f.
  rewrite E4; cbn [mbind option_bind].
  destruct (focus_data _ _ _ _ _ _ _ _ (fkey f) (fval f) (set_value (fval f)) Hat3) as (t4 & E5 & Hat4 & P4 & _ & D4); [done|].
  exists t4; split; [exact E5|]; split; [by destruct f|]; split; congruence.
Qed.
(** One round of the loop: the node takes the data of its neighbour in the
    order, which lies below it. *)
Lemma move_step t c a b k v l r :
  at_pos t c (T a b k v l r) -> avl (plug c (T a b k v l r)) -> l <> E \/ r <> E ->
  exists target t' c' b' l' r',
    (target ← (if rt l =? NULL then leftmost (size (avl_nodes t)) t (rt r)
               else rightmost (size (avl_nodes t)) t (rt l));
     t ← swap_data t a target; Some (target, t)) = Some (target, t') /\
    at_pos t' c' (T target b' k v l' r') /\ avl (plug c' (T target b' k v l' r')) /\
    height (T target b' k v l' r') < height (T a b k v l r) /\
    before c' ++ inorder l' ++ inorder r' ++ after c' = before c ++ inorder l ++ inorder r ++ after c /\
    avl_pool t' = avl_pool t /\ dom (avl_nodes t') = dom (avl_nodes t).
Proof.
  intros Hat Havl Hlr; destruct (at_pos_node _ _ _ _ _ _ _ _ Hat) as (_ & _ & El & _); rewrite El.
  pose proof (at_pos_height _ _ _ Hat) as Hh; cbn [height] in Hh.
  apply plug_avl in Havl as [Ha Hc]; cbn [avl] in Ha.
  destruct l as [|la lb lk lv ll lr]; [|set (l := T la lb lk lv ll lr) in *].
  - destruct Hlr as [[]|Hr]; [done|]; pose proof (proj2 (at_pos_up _ (FR a b k v E) c r) Hat) as Hat1.
    rewrite (leftmost_spec _ _ _ _ Hat1 Hr) by lia.
    destruct (min_pos_spec r (FR a b k v E :: c) Hr) as (c1 & a' & b' & k' & v' & r' & -> & Hb & Hp & Hh').
    cbn [mbind option_bind snd rt]; rewrite <- Hp in Hat; apply (frame_focus t c1 (FR a b k v E) c) in Hat.
    destruct (swap_data_spec _ _ _ _ _ _ _ _ _ _ Hat) as (t' & E1 & Hat' & Hpool & Hdom).
    cbn [faddr] in E1; rewrite E1; cbn [mbind option_bind].
    exists a', t', (c1 ++ FR a b k' v' E :: c), b', E, r'; split; [done|]; split; [exact Hat'|].
    assert (Hpl : forall k0 v0, height (plug c1 (T a' b' k0 v0 E r')) = height r)
      by (intros; rewrite <- Hp; by apply plug_height).
    split_and!; try done.
    + rewrite plug_app; cbn [plug fill]; apply plug_avl; cbn [height avl]; rewrite Hpl; split; [|done].
      split_and!; try tauto; apply (plug_avl_same c1 (T a' b' k' v' E r')); [rewrite Hp; tauto|done|].
      assert (avl (plug c1 (T a' b' k' v' E r'))) as H1 by (rewrite Hp; tauto).
      by apply plug_avl in H1 as [H1 _].
    + cbn [height] in *; lia.
    + rewrite before_app, after_app, Hb, <- Hp, plug_inorder, Hb; simpl; by rewrite <- !app_assoc.
  - clear El; pose proof (proj2 (at_pos_up _ (FL a b k v r) c l) Hat) as Hat1.
    rewrite (rightmost_spec _ _ _ _ Hat1) by (done || lia).
    destruct (max_pos_spec l (FL a b k v r :: c)) as (c1 & a' & b' & k' & v' & l' & -> & Hb & Hp & Hh'); [done|].
    cbn [mbind option_bind snd rt]; rewrite <- Hp in Hat; apply (frame_focus t c1 (FL a b k v r) c) in Hat.
    destruct (swap_data_spec _ _ _ _ _ _ _ _ _ _ Hat) as (t' & E1 & Hat' & Hpool & Hdom).
    cbn [faddr] in E1; rewrite E1; cbn [mbind option_bind].
    exists a', t', (c1 ++ FL a b k' v' r :: c), b', l', E; split; [done|]; split; [exact Hat'|].
    assert (Hpl : forall k0 v0, height (plug c1 (T a' b' k0 v0 l' E)) = height l)
      by (intros; rewrite <- Hp; by apply plug_height).
    split_and!; try done.
    + rewrite plug_app; cbn [plug fill]; apply plug_avl; cbn [height avl]; rewrite Hpl; split; [|done].
      split_and!; try tauto; apply (plug_avl_same c1 (T a' b' k' v' l' E)); [rewrite Hp; tauto|done|].
      assert (avl (plug c1 (T a' b' k' v' l' E))) as H1 by (rewrite Hp; tauto).
      by apply plug_avl in H1 as [H1 _].
    + cbn [height] in *; lia.
    + rewrite before_app, after_app, Hb, <- Hp, plug_inorder, Hb; simpl.
      rewrite <- !app_assoc; simpl; by rewrite <- ?app_assoc.
Qed.

Lemma move_to_leaf_spec fuel t c a b k v l r :
  at_pos t c (T a b k v l r) -> avl (plug c (T a b k v l r)) -> height (T a b k v l r) <= Z.of_nat fuel ->
  exists leaf t' c' b',
    move_to_leaf fuel t a = Some (leaf, t') /\
    at_pos t' c' (T leaf b' k v E E) /\ avl (plug c' (T leaf b' k v E E)) /\
    before c' ++ after c' = before c ++ inorder l ++ inorder r ++ after c /\
    avl_pool t' = avl_pool t /\ dom (avl_nodes t') = dom (avl_nodes t).
Proof.
  revert t c a b l r; induction fuel as [|fuel IH]; intros t c a b l r Hat Havl Hf.
  { pose proof (height_nonneg l); cbn [height] in *; lia. }
  destruct (at_pos_node _ _ _ _ _ _ _ _ Hat) as (Hn & _ & El & Er); cbn [move_to_leaf].
  rewrite Hn; cbn [mbind option_bind left_of right_of].
  destruct ((rt l =? NULL) && (rt r =? NULL)) eqn:Eleaf.
  { rewrite El, Er in Eleaf; destruct l, r; try done; by exists a, t, c, b. }
  assert (l <> E \/ r <> E) as Hlr by (rewrite El, Er in Eleaf; destruct l; [destruct r|]; by auto).
  destruct (move_step _ _ _ _ _ _ _ _ Hat Havl Hlr)
    as (target & t1 & c1 & b1 & l1 & r1 & E1 & Hat1 & Havl1 & Hh1 & Hio & Hp1 & Hd1).
  destruct (if rt l =? NULL then _ else _) as [target'|]; [|done]; cbn [mbind option_bind] in E1 |- *.
  destruct (swap_data t a target') as [t1'|]; [|done]; cbn [mbind option_bind] in E1 |- *; injection E1 as -> ->.
  destruct (IH t1 c1 target b1 l1 r1 Hat1 Havl1) as (leaf & t2 & c2 & b2 & E2 & Hat2 & Havl2 & Hio2 & Hp2 & Hd2); [lia|].
  exists leaf, t2, c2, b2; split; [exact E2|]; split_and!; [done|done| |congruence..].
  by rewrite Hio2.
Qed.
End Move.

(** ** Erasing nodes *)
Definition freed_key (kf : bool) (k : Z) : list freed :=
  if k =? NULL then [] else if kf then [FreedKey k] else [].
Definition freed_value (vf : bool) (v : Z) : list freed :=
  if v =? NULL then [] else if vf then [FreedValue v] else [].

(** The data of a tree in the order in which they are freed. *)
Fixpoint freed_tree (kf vf : bool) (s : tree) : list freed :=
  match s with
  | E => []
  | T _ _ k v l r => freed_tree kf vf l ++ freed_tree kf vf r ++ freed_key kf k ++ freed_value vf v
  end.

Section Erase.
Context {S A : Type} (alloc : S -> A -> option (Z * S)) (free : S -> Z -> option S).
Context `{!NodeAllocator S A alloc free}.
Implicit Types (t : muggle_avl_tree S) (c : ctx).

Lemma erase_key_spec t c a b k v l r kf :
  at_pos t c (T a b k v l r) ->
  exists t' k', erase_key t a kf = Some (freed_key kf k, t') /\ at_pos t' c (T a b k' v l r) /\
    avl_pool t' = avl_pool t /\ avl_root t' = avl_root t.
Proof.
  intros Hat; destruct (at_pos_node _ _ _ _ _ _ _ _ Hat) as (Hn & _).
  unfold erase_key, freed_key; rewrite Hn; cbn [mbind option_bind key_of].
  destruct (k =? NULL); [by exists t, k|].
  destruct (focus_data _ _ _ _ _ _ _ _ NULL v (set_key NULL) Hat) as (t' & -> & Hat' & Hp & Hr & _); [done|].
  by exists t', NULL; destruct kf.
Qed.

Lemma erase_value_spec t c a b k v l r vf :
  at_pos t c (T a b k v l r) ->
  exists t' v', erase_value t a vf = Some (freed_value vf v, t') /\ at_pos t' c (T a b k v' l r) /\
    avl_pool t' = avl_pool t /\ avl_root t' = avl_root t.
Proof.
  intros Hat; destruct (at_pos_node _ _ _ _ _ _ _ _ Hat) as (Hn & _).
  unfold erase_value, freed_value; rewrite Hn; cbn [mbind option_bind value_of].
  destruct (v =? NULL); [by exists t, v|].
  destruct (focus_data _ _ _ _ _ _ _ _ k NULL (set_value NULL) Hat) as (t' & -> & Hat' & Hp & Hr & _); [done|].
  by exists t', NULL; destruct vf.
Qed.

(** The subtree at the position is gone; [root] is not reset. *)
Definition erased t t' c (owned' : list Z) : Prop :=
  avl_root t' = avl_root t /\ at_pos (set_root t' (croot c NULL)) c E /\
  na_wf (avl_pool t') (caddrs c) owned'.

Lemma unlink_leaf t c a b k v owned :
  at_pos t c (T a b k v E E) -> na_wf (avl_pool t) (a :: caddrs c) owned ->
  exists t' owned', (t ← set_child t (caddr c) a NULL; free_tree_node free t a) = Some t' /\
    erased t t' c owned'.
Proof.
  intros [Hr Hc Hroot Hnd Hn Hdom] Hwf; destruct t as [r0 pool m]; simpl in *.
  apply NoDup_cons in Hnd as [Ha Hnd].
  destruct (set_child_spec r0 pool m c a NULL Hc) as (m1 & -> & Hc1 & Hag & Hd1); [set_solver..|].
  destruct (na_free_spec _ _ (caddrs c) _ a Hwf) as (s' & owned' & Hfree & Hwf'); [done|].
  cbn [mbind option_bind]; unfold free_tree_node; simpl; rewrite Hfree; cbn [mbind option_bind].
  eexists; exists owned'; split; [done|]; split; [done|]; split; [|exact Hwf'].
  split; simpl; try done.
  - apply (crep_agree m1); [|done]; intros x Hx; apply lookup_delete_ne; set_solver.
  - set_solver.
  - rewrite dom_delete_L, Hd1, Hdom; set_solver.
Qed.

(** Erasing below a node leaves the node in place. *)
Lemma erased_below t t' f c owned' :
  (exists s, at_pos t (f :: c) s) -> erased t t' (f :: c) owned' ->
  at_pos t' c (fill f E).
Proof.
  intros [s Hat] (Hr & Hat' & _); apply at_pos_up.
  assert (avl_root t = croot (f :: c) NULL) as E1 by apply (z_root _ _ _ Hat).
  rewrite <- E1, <- Hr in Hat'; by destruct t'.
Qed.

Lemma erase_tree_spec fuel t c s owned kf vf :
  at_pos t c s -> s <> E -> height s <= Z.of_nat fuel -> na_wf (avl_pool t) (addrs s ++ caddrs c) owned ->
  exists t' owned', muggle_avl_tree_erase_node free fuel t (rt s) kf vf = Some (freed_tree kf vf s, t') /\
    erased t t' c owned'.
Proof.
  revert fuel t c owned; induction s as [|a b k v l IHl r IHr]; intros fuel t c owned Hat Hs Hf Hwf; [done|].
  destruct (at_pos_node _ _ _ _ _ _ _ _ Hat) as (Hn & Ha & El & Er).
  pose proof (height_nonneg l); pose proof (height_nonneg r).
  destruct fuel as [|fuel]; [simpl in *; lia|].
  cbn [muggle_avl_tree_erase_node rt height freed_tree addrs] in *.
  rewrite (proj2 (Z.eqb_neq _ _) Ha), Hn; cbn [mbind option_bind left_of right_of].
  assert (exists t1 o1, (if rt l =? NULL then Some ([], t) else muggle_avl_tree_erase_node free fuel t (rt l) kf vf)
      = Some (freed_tree kf vf l, t1) /\ at_pos t1 c (T a b k v E r) /\ avl_root t1 = avl_root t /\
      na_wf (avl_pool t1) (a :: addrs r ++ caddrs c) o1) as (t1 & o1 & -> & Hat1 & Hr1 & Hwf1).
  { rewrite El; destruct l as [|la lb lk lv ll lr]; [by exists t, owned|].
    pose proof (proj2 (at_pos_up _ (FL a b k v r) c _) Hat) as Hat0.
    destruct (IHl fuel t (FL a b k v r :: c) owned Hat0) as (t1 & o1 & E1 & He); [done|lia| |].
    { eapply na_perm; [|exact Hwf]; simpl; solve_Permutation. }
    exists t1, o1; split; [exact E1|].
    split; [exact (erased_below _ _ _ _ _ (ex_intro _ _ Hat0) He)|]; split; apply He. }
  destruct (at_pos_node _ _ _ _ _ _ _ _ Hat1) as (Hn1 & _ & _ & Er1).
  cbn [mbind option_bind]; rewrite Hn1; cbn [mbind option_bind right_of].
  assert (exists t2 o2, (if rt r =? NULL then Some ([], t1) else muggle_avl_tree_erase_node free fuel t1 (rt r) kf vf)
      = Some (freed_tree kf vf r, t2) /\ at_pos t2 c (T a b k v E E) /\ avl_root t2 = avl_root t /\
      na_wf (avl_pool t2) (a :: caddrs c) o2) as (t2 & o2 & -> & Hat2 & Hr2 & Hwf2).
  { rewrite Er; destruct r as [|ra rb rk rv rl rr]; [by exists t1, o1|].
    pose proof (proj2 (at_pos_up _ (FR a b k v E) c _) Hat1) as Hat0.
    destruct (IHr fuel t1 (FR a b k v E :: c) o1 Hat0) as (t2 & o2 & E1 & He); [done|lia| |].
    { eapply na_perm; [|exact Hwf1]; simpl; solve_Permutation. }
    exists t2, o2; split; [exact E1|].
    split; [exact (erased_below _ _ _ _ _ (ex_intro _ _ Hat0) He)|].
    split; [rewrite (proj1 He); exact Hr1|apply He]. }
  cbn [mbind option_bind].
  destruct (erase_key_spec _ _ _ _ _ _ _ _ kf Hat2) as (t3 & k' & -> & Hat3 & Hp3 & Hr3); cbn [mbind option_bind].
  destruct (erase_value_spec _ _ _ _ _ _ _ _ vf Hat3) as (t4 & v' & -> & Hat4 & Hp4 & Hr4); cbn [mbind option_bind].
  destruct (at_pos_node _ _ _ _ _ _ _ _ Hat4) as (-> & _); cbn [mbind option_bind parent_of].
  rewrite <- Hp3, <- Hp4 in Hwf2; destruct (unlink_leaf _ _ _ _ _ _ _ Hat4 Hwf2) as (t5 & o5 & E5 & He5).
  destruct (set_child t4 (caddr c) a NULL) as [t5'|]; [|done]; cbn [mbind option_bind] in E5 |- *; rewrite E5.
  exists t5, o5; split; [done|]; split; [|apply He5]; rewrite (proj1 He5); congruence.
Qed.
End Erase.
