(* ===== verification/AvlMap.v ===== *)
(** * The AVL tree as an ordered map

    [avl_ok] says that the nodes in memory form a balanced search tree with
    the given entries, all of them held by the allocator.  The operations of
    [dsaa/avl_tree.c] keep it and act on the entries as the operations of
    [OrderedMap] do. *)
From S2P Require Import Prelude Utils MemoryPool Nodes OrderedMap AvlShape AvlTree AvlUpdate.

(** ** Data stay in their nodes while pointers and balance factors change *)
Section Keeps.
Context {S : Type}.
Implicit Types t : muggle_avl_tree S.

(** The entry in the node at an address. *)
Definition entry_at t (a : Z) : option (Z * Z) := (fun n => (key_of n, value_of n)) <$> avl_nodes t !! a.

Definition keeps t t' : Prop := forall a, entry_at t' a = entry_at t a.

Definition preserves {X} (pi : X -> muggle_avl_tree S) t (o : option X) : Prop :=
  forall x, o = Some x -> keeps t (pi x).

Lemma preserves_some {X} (pi : X -> muggle_avl_tree S) t x : keeps t (pi x) -> preserves pi t (Some x).
Proof. by intros H y [= <-]. Qed.

Lemma preserves_bind {X Y} (pi : X -> muggle_avl_tree S) (rho : Y -> muggle_avl_tree S) t o (k : X -> option Y) :
  preserves pi t o -> (forall x, preserves rho (pi x) (k x)) -> preserves rho t (o ≫= k).
Proof.
  intros Ho Hk y (x & Ex & Ey)%bind_Some a; by rewrite (Hk x y Ey), (Ho x Ex).
Qed.

Lemma preserves_read {X Y} (rho : Y -> muggle_avl_tree S) t (o : option X) (k : X -> option Y) :
  (forall x, preserves rho t (k x)) -> preserves rho t (o ≫= k).
Proof. intros Hk y (x & Ex & Ey)%bind_Some; by apply (Hk x). Qed.

Lemma preserves_nmod t p f :
  (forall n, key_of (f n) = key_of n /\ value_of (f n) = value_of n) -> preserves id t (nmod t p f).
Proof.
  intros Hf t' (n & En & [= <-])%bind_Some a; unfold entry_at, nget in *; simpl.
  destruct (decide (p = a)) as [->|]; [|by rewrite lookup_insert_ne].
  rewrite lookup_insert_eq, En; simpl; destruct (Hf n) as [-> ->]; done.
Qed.
End Keeps.

Create HintDb keeps.
#[export] Hint Extern 1 (preserves _ _ (nmod _ _ _)) => apply preserves_nmod; by intros [] : keeps.
#[export] Hint Extern 1 (preserves _ _ (Some _)) => apply preserves_some; intros ?; reflexivity : keeps.

(** One statement of a function at a time. *)
Ltac keep :=
  repeat first
    [ progress (intros; cbv beta iota zeta)
    | solve [eauto 2 with keeps]
    | match goal with |- preserves _ _ (if ?b then _ else _) => destruct b end
    | match goal with |- preserves _ _ (match ?p with pair _ _ => _ end) => destruct p end
    | match goal with |- preserves _ _ (nget _ _ ≫= _) => apply preserves_read end
    | match goal with |- preserves _ _ (require _ ≫= _) => apply preserves_read end
    | match goal with |- preserves _ _ (side_of _ _ _ ≫= _) => apply preserves_read end
    | match goal with |- preserves _ _ (_ ≫= _) => apply (preserves_bind id) end ].

Section Keeping.
Context {S : Type}.
Implicit Types t : muggle_avl_tree S.

Lemma set_child_keeps t p x q : preserves id t (set_child t p x q).
Proof. unfold set_child; keep. Qed.
#[local] Hint Resolve set_child_keeps : keeps.
Lemma set_parent_opt_keeps t p q : preserves id t (set_parent_opt t p q).
Proof. unfold set_parent_opt; keep. Qed.
#[local] Hint Resolve set_parent_opt_keeps : keeps.
Lemma replace_child_keeps t p x q : preserves id t (replace_child t p x q).
Proof. unfold replace_child; keep; apply preserves_some; by destruct (_ =? _). Qed.
#[local] Hint Resolve replace_child_keeps : keeps.

Lemma rotate_left_keeps t x : preserves snd t (muggle_avl_tree_rotate_left t x).
Proof. unfold muggle_avl_tree_rotate_left; keep. Qed.
Lemma rotate_right_keeps t x : preserves snd t (muggle_avl_tree_rotate_right t x).
Proof. unfold muggle_avl_tree_rotate_right; keep. Qed.
Lemma rotate_right_left_keeps t x : preserves id t (muggle_avl_tree_rotate_right_left t x).
Proof. unfold muggle_avl_tree_rotate_right_left; keep. Qed.
Lemma rotate_left_right_keeps t x : preserves id t (muggle_avl_tree_rotate_left_right t x).
Proof. unfold muggle_avl_tree_rotate_left_right; keep. Qed.
#[local] Hint Resolve rotate_left_keeps rotate_right_keeps rotate_right_left_keeps rotate_left_right_keeps : keeps.

Lemma rebalance_keeps t x : preserves snd t (muggle_avl_tree_rebalance t x).
Proof. unfold muggle_avl_tree_rebalance; keep. Qed.
#[local] Hint Resolve rebalance_keeps : keeps.
Lemma bump_keeps t x d : preserves id t (bump t x d).
Proof. unfold bump; keep. Qed.
#[local] Hint Resolve bump_keeps : keeps.

Lemma insert_retrace_keeps fuel t x sd : preserves id t (insert_retrace fuel t x sd).
Proof.
  revert t x sd; induction fuel as [|fuel IH]; intros t x sd; [by intros ?|]; cbn [insert_retrace].
  apply (preserves_bind id); [auto with keeps|]; intros t1; apply preserves_read; intros n.
  destruct (_ =? 0); [keep|]; destruct (_ || _).
  - destruct (_ =? _); [keep|]; apply preserves_read; intros; apply IH.
  - apply preserves_read; intros _; apply (preserves_bind snd); [auto with keeps|]; intros []; keep.
Qed.
End Keeping.

(** Every node is at a position. *)
Lemma node_position s a : a ∈ addrs s -> exists c b k v x y, s = plug c (T a b k v x y).
Proof.
  induction s as [|x b k v l IHl r IHr]; cbn [addrs]; [set_solver|].
  intros [->|[Hin|Hin]%elem_of_app]%elem_of_cons.
  - by exists [], b, k, v, l, r.
  - destruct (IHl Hin) as (c & b' & k' & v' & l' & r' & ->).
    exists (c ++ [FL x b k v r]), b', k', v', l', r'; by rewrite plug_app.
  - destruct (IHr Hin) as (c & b' & k' & v' & l' & r' & ->).
    exists (c ++ [FR x b k v l]), b', k', v', l', r'; by rewrite plug_app.
Qed.

(** ** The operations *)
Section Map.
Context {S A : Type} (alloc : S -> A -> option (Z * S)) (free : S -> Z -> option S).
Context `{!NodeAllocator S A alloc free} (cmp : Z -> Z -> Z) `{!CmpLaws cmp}.
Implicit Types (t : muggle_avl_tree S) (l : list (Z * Z)).

Definition avl_ok t l (owned : list Z) : Prop :=
  exists s, at_pos t [] s /\ avl s /\ inorder s = l /\ ordered cmp l /\ na_wf (avl_pool t) (addrs s) owned.

Lemma avl_ok_root t s : at_pos t [] s -> avl_root t = rt s.
Proof. by intros [_ _ H _ _ _]. Qed.

Lemma ok_locate t l key s :
  at_pos t [] s -> inorder s = l -> ordered cmp l ->
  let '(c', s') := locate cmp key s [] in at_pos t c' s' /\
  match s' with
  | E => l = before c' ++ after c' /\ below cmp key (before c') /\ above cmp key (after c')
  | T a _ k v _ _ => om_find cmp key l = Some (k, v) /\ a <> NULL /\ entry_at t a = Some (k, v)
  end.
Proof.
  intros Hat Hi Ho; pose proof (locate_plug cmp key s []) as Hp.
  pose proof (locate_order cmp key s []) as Hl; rewrite Hi in Hl.
  destruct (locate cmp key s []) as [c' s']; cbn [fst snd plug] in Hp.
  assert (at_pos t c' s') as Hat' by (apply at_pos_plug; by rewrite Hp).
  split; [done|]; specialize (Hl Ho (Forall_nil_2 _) (Forall_nil_2 _)).
  rewrite <- Hp, plug_inorder in Hi; destruct s' as [|a b k v l' r']; [done|].
  destruct Hl as (He & Hb & _); destruct (at_pos_node _ _ _ _ _ _ _ _ Hat') as (Hn & Ha & _).
  split; [|split; [done|]; unfold entry_at; unfold nget in Hn; by rewrite Hn].
  rewrite <- Hi; simpl; rewrite <- app_assoc; simpl; rewrite app_assoc; by apply om_find_split.
Qed.

(** [find] returns a node with the entry of the key, or [NULL]. *)
Lemma find_node_ok t l key fuel s :
  at_pos t [] s -> inorder s = l -> ordered cmp l -> height s <= Z.of_nat fuel ->
  exists p, find_node cmp fuel t (avl_root t) key = Some p /\
    match om_find cmp key l with
    | None => p = NULL
    | Some e => p <> NULL /\ entry_at t p = Some e
    end.
Proof.
  intros Hat Hi Ho Hf; rewrite (avl_ok_root _ _ Hat), (find_node_locate cmp fuel t [] s key Hat Hf).
  eexists; split; [done|]; pose proof (ok_locate t l key s Hat Hi Ho) as Hl.
  destruct (locate cmp key s []) as [c' [|a b k v l' r']]; cbn [snd rt].
  - destruct Hl as (_ & -> & Hb & Ha); by rewrite om_find_none.
  - destruct Hl as (_ & -> & Ha & He); done.
Qed.

Lemma allocate_node_avl t c s owned a :
  at_pos t c s -> na_wf (avl_pool t) (addrs s ++ caddrs c) owned -> na_fresh (avl_pool t) owned a ->
  exists r s' owned',
    muggle_avl_tree_allocate_node alloc t a = Some (if r =? NULL then (NULL, AVL (avl_root t) s' (avl_nodes t))
      else (r, AVL (avl_root t) s' (<[r := AN NULL NULL NULL 0 NULL NULL]> (avl_nodes t)))) /\
    na_wf s' (if r =? NULL then addrs s ++ caddrs c else r :: addrs s ++ caddrs c) owned' /\
    (r <> NULL -> r ∉ addrs s ++ caddrs c).
Proof.
  intros Hat Hwf Hfr; destruct (na_alloc_spec _ _ _ _ Hwf Hfr) as (r & s' & owned' & E1 & Hwf').
  exists r, s', owned'; unfold muggle_avl_tree_allocate_node; rewrite E1; cbn [mbind option_bind].
  split; [by destruct (r =? NULL)|]; split; [done|]; intros Hr.
  rewrite (proj2 (Z.eqb_neq _ _) Hr) in Hwf'; by destruct (na_live _ _ _ Hwf') as [[? _]%NoDup_cons _].
Qed.

Lemma at_pos_pool t c s (p : S) : at_pos t c s -> at_pos (AVL (avl_root t) p (avl_nodes t)) c s.
Proof. by intros [? ? ? ? ? ?]. Qed.

(** What [insert] gives: [NULL] when the key is there or memory is not, and
    a node with the new entry otherwise; no entry moves to another node. *)
Definition inserted t l (key value p : Z) t' (owned' : list Z) : Prop :=
  match om_find cmp key l with
  | Some _ => p = NULL /\ t' = t
  | None =>
      (p = NULL /\ avl_ok t' l owned' /\ avl_nodes t' = avl_nodes t) \/
      (p <> NULL /\ entry_at t p = None /\ avl_ok t' (om_insert cmp key value l) owned' /\
       forall q, entry_at t' q = if decide (q = p) then Some (key, value) else entry_at t q)
  end.

Lemma entry_none t c s a : at_pos t c s -> a ∉ addrs s ++ caddrs c -> entry_at t a = None.
Proof.
  intros Hat Ha; unfold entry_at; apply fmap_None, not_elem_of_dom; rewrite (z_dom _ _ _ Hat); set_solver.
Qed.

Lemma insert_empty t owned key value a :
  at_pos t [] E -> na_wf (avl_pool t) [] owned -> na_fresh (avl_pool t) owned a ->
  exists p t' owned', muggle_avl_tree_insert alloc cmp t key value a = Some (p, t') /\
    inserted t [] key value p t' owned'.
Proof.
  intros Hat Hwf Hfr; unfold muggle_avl_tree_insert; rewrite (avl_ok_root _ _ Hat); cbn [rt].
  destruct (allocate_node_avl t [] E owned a Hat Hwf Hfr) as (r & s' & owned' & -> & Hwf' & Hr).
  change (NULL =? NULL) with true; cbv iota; cbn [mbind option_bind]; simpl in Hwf'.
  destruct (Z.eqb_spec r NULL) as [->|Hn].
  { rewrite Z.eqb_refl; do 2 eexists; exists owned'; split; [done|]; left; split; [done|]; split; [|done].
    exists E; split; [by apply at_pos_pool|]; split_and!; try done; constructor. }
  rewrite (proj2 (Z.eqb_neq _ _) Hn); specialize (Hr Hn).
  do 3 (erewrite nmod_some by apply lookup_insert_eq; node_simpl).
  rewrite !insert_insert_eq; do 2 eexists; exists owned'; split; [done|]; right.
  split; [done|]; split; [by apply (entry_none _ _ _ _ Hat)|].
  pose proof (z_dom _ _ _ Hat) as Hd; simpl in Hd; apply dom_empty_inv_L in Hd.
  split.
  - exists (T r 0 key value E E); unfold set_root; simpl; rewrite Hd; split; [split; simpl|].
    + by rewrite lookup_insert_eq.
    + done.
    + done.
    + repeat constructor; set_solver.
    + set_solver.
    + rewrite dom_insert_L, dom_empty_L; set_solver.
    + cbn; split_and!; try done; try lia; repeat constructor.
  - intros q; unfold entry_at; simpl; destruct (decide (q = r)) as [->|]; [by rewrite lookup_insert_eq|].
    by rewrite lookup_insert_ne.
Qed.
Lemma nmod_elsewhere t p f t' q : nmod t p f = Some t' -> q <> p -> entry_at t' q = entry_at t q.
Proof. intros (n & _ & [= <-])%bind_Some Hq; unfold entry_at; simpl; by rewrite lookup_insert_ne. Qed.

(** The new leaf, before the balance factors are updated. *)
Lemma link_entries t f c pool a key value t' :
  at_pos t (f :: c) E -> a <> NULL -> a ∉ caddrs (f :: c) ->
  (t ← nmod (AVL (avl_root t) pool (<[a := AN NULL NULL NULL 0 NULL NULL]> (avl_nodes t))) (faddr f)
         (match fside f with AVL_TREE_SIDE_LEFT => set_left a | AVL_TREE_SIDE_RIGHT => set_right a end);
   t ← nmod t a (set_parent (faddr f));
   t ← nmod t a (set_key key);
   t ← nmod t a (set_value value);
   nmod t a (set_balance 0)) = Some t' ->
  at_pos t' (f :: c) (T a 0 key value E E) /\ avl_pool t' = pool /\
  forall q, entry_at t' q = if decide (q = a) then Some (key, value) else entry_at t q.
Proof.
  intros Hat Ha Hac E1.
  destruct (link_leaf (AVL (avl_root t) pool (avl_nodes t)) f c (avl_root t) pool (avl_nodes t) a key value)
    as (t2 & E2 & Hat2 & Hp2); [by apply at_pos_pool|done..|].
  assert (t2 = t') as -> by congruence.
  split; [done|]; split; [done|]; intros q; destruct (decide (q = a)) as [->|Hq].
  - destruct (at_pos_node _ _ _ _ _ _ _ _ Hat2) as (Hn & _); unfold entry_at, nget in *; by rewrite Hn.
  - apply bind_Some in E1 as (t3 & E3 & E1); do 3 (apply bind_Some in E1 as (? & ? & E1)).
    repeat match goal with H : nmod ?x a _ = Some ?y |- context [entry_at ?y q] =>
      rewrite (nmod_elsewhere _ _ _ _ q H Hq) end.
    assert (keeps (AVL (avl_root t) pool (<[a := AN NULL NULL NULL 0 NULL NULL]> (avl_nodes t))) t3) as ->
      by (revert E3; apply preserves_nmod; by destruct (fside f); intros []).
    unfold entry_at; simpl; by rewrite lookup_insert_ne.
Qed.

Lemma insert_ok t l owned key value a :
  avl_ok t l owned -> na_fresh (avl_pool t) owned a ->
  exists p t' owned', muggle_avl_tree_insert alloc cmp t key value a = Some (p, t') /\
    inserted t l key value p t' owned'.
Proof.
  intros (s & Hat & Havl & Hi & Ho & Hwf) Hfr; destruct (decide (rt s = NULL)) as [Hz|Hz].
  { apply (rt_null s) in Hz as ->; [|pose proof (z_null _ _ _ Hat); set_solver].
    simpl in Hi; subst l; by apply (insert_empty t owned). }
  assert (s <> E) as Hs by by intros ->.
  unfold muggle_avl_tree_insert; rewrite (avl_ok_root _ _ Hat), (proj2 (Z.eqb_neq _ _) Hz).
  rewrite (insert_position_locate cmp _ t [] s key Hat Hs) by apply (at_pos_height _ _ _ Hat).
  cbn [mbind option_bind]; pose proof (ok_locate t l key s Hat Hi Ho) as Hl.
  pose proof (locate_plug cmp key s []) as Hplug.
  destruct (locate cmp key s []) as [c [|b0 b1 b2 b3 b4 b5]]; cbn [fst snd plug] in *; destruct Hl as (Hat1 & Hl).
  2:{ destruct c; exists NULL, t, owned; (split; [done|]); unfold inserted; by rewrite (proj1 Hl). }
  destruct Hl as (El & Hb & Ha); destruct c as [|f c]; [by destruct Hs|].
  assert (om_find cmp key l = None) as Hfind by (rewrite El; by apply om_find_none).
  unfold inserted; rewrite Hfind.
  assert (addrs s ≡ₚ caddrs (f :: c)) as Hps by (rewrite <- Hplug; apply (plug_addrs (f :: c) E)).
  destruct (allocate_node_avl t (f :: c) E owned a Hat1) as (r & s' & owned' & -> & Hwf' & Hr);
    [by eapply na_perm; [|exact Hwf]|done|].
  cbn [mbind option_bind]; destruct (Z.eqb_spec r NULL) as [->|Hn].
  { rewrite Z.eqb_refl; do 2 eexists; exists owned'; split; [done|]; left; split; [done|]; split; [|done].
    exists s; split; [by apply at_pos_pool|]; split_and!; try done; by eapply na_perm; [|exact Hwf']. }
  rewrite (proj2 (Z.eqb_neq _ _) Hn); specialize (Hr Hn); cbn [addrs app] in Hr, Hwf'.
  destruct (link_leaf (AVL (avl_root t) s' (avl_nodes t)) f c (avl_root t) s' (avl_nodes t) r key value)
    as (t1 & E1 & _); [by apply at_pos_pool|done..|].
  destruct (link_entries t f c s' r key value t1 Hat1 Hn Hr E1) as (Hat2 & Hp2 & He2).
  do 4 (destruct (nmod _ _ _) as [?|]; [|done]; cbn [mbind option_bind] in E1 |- *); rewrite E1; cbn [mbind option_bind].
  assert (avl s) as Hs'; [done|]; rewrite <- Hplug in Hs'; change (plug c (fill f E)) with (plug (f :: c) E) in Hs'.
  apply plug_avl in Hs' as [_ Hcavl]; cbn [height] in Hcavl.
  assert (avl (T r 0 key value E E)) as Hleaf by (cbn; lia).
  destruct (insert_retrace_spec (size (avl_nodes t1)) t1 f c (T r 0 key value E E) 0) as (t2 & E2 & Hat3 & Hp3);
    [done|done|done|done|by right|apply (at_pos_depth _ _ _ Hat2)|].
  rewrite E2; cbn [mbind option_bind]; exists r, t2, owned'; split; [done|]; right; split; [done|].
  split; [by apply (entry_none _ _ _ _ Hat1)|].
  destruct (avl_grow_spec (f :: c) (T r 0 key value E E) 0) as (G1 & G2 & G3); [done|done|done|by right|].
  split; [|intros q; by rewrite (insert_retrace_keeps _ _ _ _ _ E2)].
  exists (grow (f :: c) (T r 0 key value E E)); split; [done|]; split; [done|].
  rewrite G2, plug_inorder, El, om_insert_split by done; split; [done|]; split.
  - apply (ordered_around cmp); rewrite El in Ho; unfold ordered in *; rewrite StronglySorted_app in Ho; tauto.
  - rewrite Hp3, Hp2; eapply na_perm; [|exact Hwf']; rewrite G3, plug_addrs; done.
Qed.
Lemma at_pos_perm t t' c s c' s' :
  at_pos t c s -> at_pos t' c' s' -> dom (avl_nodes t') = dom (avl_nodes t) ->
  addrs s ++ caddrs c ≡ₚ addrs s' ++ caddrs c'.
Proof.
  intros [_ _ _ Hnd _ Hd] [_ _ _ Hnd' _ Hd'] Heq; apply NoDup_Permutation; [done|done|]; intros x.
  rewrite Hd, Hd' in Heq; rewrite <- !(elem_of_list_to_set (C := gset Z)), Heq; done.
Qed.

Lemma remove_ok t l owned p k v kf vf :
  avl_ok t l owned -> entry_at t p = Some (k, v) ->
  exists t' owned', muggle_avl_tree_remove free t p kf vf = Some (freed_key kf k ++ freed_value vf v, t') /\
    avl_ok t' (om_delete cmp k l) owned'.
Proof.
  intros (s & Hat & Havl & Hi & Ho & Hwf) Hp.
  assert (p ∈ addrs s) as Hin.
  { apply fmap_Some in Hp as (n & Hn & _).
    assert (p ∈ dom (avl_nodes t)) as H by (apply elem_of_dom; by eexists).
    rewrite (z_dom _ _ _ Hat) in H; simpl in H; rewrite app_nil_r in H; set_solver. }
  destruct (node_position s p Hin) as (c & b & k0 & v0 & l1 & r1 & ->).
  rewrite <- at_pos_plug in Hat; destruct (at_pos_node _ _ _ _ _ _ _ _ Hat) as (Hn & _).
  unfold entry_at, nget in *; rewrite Hn in Hp; injection Hp as -> ->.
  destruct (move_to_leaf_spec (size (avl_nodes t)) _ _ _ _ _ _ _ _ Hat Havl (at_pos_height _ _ _ Hat))
    as (leaf & t1 & c1 & b1 & E1 & Hat1 & Havl1 & Hio & Hp1 & Hd1).
  assert (om_delete cmp k l = before c1 ++ after c1 /\ ordered cmp (before c1 ++ after c1)) as [Hdel Hord].
  { rewrite Hio, <- Hi, plug_inorder; cbn [inorder]; rewrite <- !app_assoc; simpl; rewrite !(app_assoc (before c)).
    rewrite <- Hi, plug_inorder in Ho; cbn [inorder] in Ho; rewrite <- !app_assoc in Ho; simpl in Ho.
    rewrite app_assoc in Ho; exact (ordered_delete cmp _ (k, v) _ Ho). }
  assert (na_wf (avl_pool t1) (addrs (T leaf b1 k v E E) ++ caddrs c1) owned) as Hwf1.
  { rewrite Hp1; eapply na_perm; [|exact Hwf]; rewrite plug_addrs; exact (at_pos_perm _ _ _ _ _ _ Hat Hat1 Hd1). }
  destruct (erase_tree_spec alloc free 1 t1 c1 (T leaf b1 k v E E) owned kf vf Hat1) as (t2 & o2 & E2 & He);
    [done|cbn; lia|done|].
  cbn [rt freed_tree app] in E2; pose proof (at_pos_node _ _ _ _ _ _ _ _ Hat1) as (Hn1 & _).
  unfold muggle_avl_tree_remove; rewrite E1; cbn [mbind option_bind]; rewrite Hn1; cbn [mbind option_bind parent_of].
  rewrite (caddr_null _ _ _ Hat1), Hdel; destruct He as (Hr2 & Hat2 & Hwf2); destruct c1 as [|f c1].
  { rewrite E2; cbn [mbind option_bind]; eexists; exists o2; split; [done|].
    exists E; split; [exact Hat2|]; by split_and!. }
  pose proof (side_of_spec t1 f c1 _ Hat1 ltac:(done)) as Hside; cbn [rt caddr] in *.
  rewrite Hside; cbn [mbind option_bind]; rewrite E2; cbn [mbind option_bind].
  assert (at_pos t2 (f :: c1) E) as Hat3.
  { pose proof (z_root _ _ _ Hat1) as H; cbn [croot] in H, Hat2; rewrite <- H, <- Hr2 in Hat2; by destruct t2. }
  apply plug_avl in Havl1 as [_ Hc]; change (height (T leaf b1 k v E E)) with 1 in Hc.
  destruct (remove_retrace_spec (size (avl_nodes t2)) t2 (f :: c1) E 1 (fside f)) as (t3 & E3 & Hat4 & Hp4);
    [done|done|done|done|done|apply (at_pos_depth _ _ _ Hat3)|].
  cbn [caddr] in E3; rewrite E3; cbn [mbind option_bind]; exists t3, o2; split; [done|].
  destruct (shrink_spec (f :: c1) E 1) as (G1 & G2 & G3); [done|done|done|].
  exists (shrink (f :: c1) E); split; [done|]; split; [done|].
  rewrite G2, plug_inorder; split; [done|]; split; [done|].
  rewrite Hp4; eapply na_perm; [|exact Hwf2]; rewrite G3, plug_addrs; done.
Qed.

(** What is freed when the whole map is. *)
Definition freed_entries (kf vf : bool) l : list freed :=
  l ≫= fun e => freed_key kf e.1 ++ freed_value vf e.2.

Lemma freed_tree_entries kf vf s : freed_tree kf vf s ≡ₚ freed_entries kf vf (inorder s).
Proof.
  unfold freed_entries; induction s as [|a b k v l IHl r IHr]; cbn [freed_tree inorder]; [done|].
  rewrite bind_app; cbn; rewrite IHl, IHr; solve_Permutation.
Qed.

(** All nodes are freed, and [root] still holds the address of one. *)
Lemma clear_ok t l owned kf vf :
  avl_ok t l owned ->
  exists tr t' owned', muggle_avl_tree_clear free t kf vf = Some (tr, t') /\
    tr ≡ₚ freed_entries kf vf l /\ avl_nodes t' = ∅ /\ avl_root t' = avl_root t /\
    (avl_root t = NULL <-> l = []) /\ na_wf (avl_pool t') [] owned'.
Proof.
  intros (s & Hat & Havl & Hi & Ho & Hwf); pose proof (z_null _ _ _ Hat) as Hnn.
  unfold muggle_avl_tree_clear; rewrite (avl_ok_root _ _ Hat).
  destruct s as [|a b k v l1 r1]; cbn [rt].
  { exists [], t, owned; simpl in Hi; subst l; split_and!; try done; [|by rewrite (avl_ok_root _ _ Hat)].
    pose proof (z_dom _ _ _ Hat) as Hd; by apply dom_empty_inv_L. }
  rewrite (proj2 (Z.eqb_neq a NULL)) by (simpl in Hnn; set_solver).
  destruct (erase_tree_spec alloc free (Datatypes.S (size (avl_nodes t))) t [] (T a b k v l1 r1) owned kf vf Hat)
    as (t' & o' & E1 & Hr & Hat' & Hwf'); [done|pose proof (at_pos_height _ _ _ Hat); lia|by rewrite app_nil_r|].
  cbn [rt] in E1; eexists _, t', o'; split; [exact E1|]; split; [rewrite <- Hi; apply freed_tree_entries|].
  split; [pose proof (z_dom _ _ _ Hat') as Hd; by apply dom_empty_inv_L|].
  split; [by rewrite Hr, (avl_ok_root _ _ Hat)|]; split; [|done].
  split; [intros ->; simpl in Hnn; set_solver|]; intros ->; cbn [inorder] in Hi; by destruct (inorder l1).
Qed.
End Map.

(** ** The height of a balanced tree *)
Lemma avl_height_bound s : avl s -> 2 ^ height s <= (Z.of_nat (length (addrs s)) + 1) ^ 2.
Proof.
  assert (Hgrow : forall h hl hr a b, 0 <= hl -> 0 <= hr -> h = Z.max hl hr -> -1 <= hr - hl <= 1 ->
    0 <= a -> 0 <= b -> 2 ^ hl <= a ^ 2 -> 2 ^ hr <= b ^ 2 -> 2 ^ (1 + h) <= (a + b) ^ 2).
  { intros h hl hr a b Hl Hr -> Hd Ha Hb Hal Hbr.
    assert (forall x y m n, 0 <= m -> 0 <= n <= m + 1 -> m <= n -> 0 <= x -> 0 <= y -> 2 ^ m <= x ^ 2 ->
      2 ^ n <= y ^ 2 -> 2 ^ (1 + n) <= (x + y) ^ 2) as Hw.
    { intros x y m n Hm Hn Hmn Hx Hy H1 H2; rewrite Z.pow_add_r by lia; change (2 ^ 1) with 2.
      assert (2 ^ n <= 2 * 2 ^ m) as H3
        by (rewrite <- (Z.pow_succ_r 2 m) by lia; apply Z.pow_le_mono_r; lia).
      assert (2 ^ m <= 2 ^ n) as H4 by (apply Z.pow_le_mono_r; lia).
      assert (0 < 2 ^ m) as H0 by (apply Z.pow_pos_nonneg; lia).
      assert (2 ^ m <= x * y) as H5.
      { rewrite !Z.pow_2_r in *; destruct (Z.le_gt_cases (2 ^ m) (x * y)) as [|Hlt]; [done|].
        exfalso; assert (x * y * (x * y) < 2 ^ m * 2 ^ m) by nia.
        assert (2 ^ m * 2 ^ m <= x * x * (y * y)) by (apply Z.mul_le_mono_nonneg; lia); lia. }
      rewrite !Z.pow_2_r in *; nia. }
    destruct (Z.max_spec hl hr) as [[? ->]|[? ->]]; [apply (Hw a b hl hr); lia|].
    rewrite Z.add_comm; rewrite (Z.add_comm a b), (Z.add_comm hl 1); apply (Hw b a hr hl); lia. }
  induction s as [|x b k v l IHl r IHr]; [done|]; intros (Hb & Hd & Hl & Hr); cbn [height addrs length].
  rewrite length_app.
  replace (Z.of_nat (Datatypes.S (length (addrs l) + length (addrs r))) + 1)
    with ((Z.of_nat (length (addrs l)) + 1) + (Z.of_nat (length (addrs r)) + 1)) by lia.
  pose proof (height_nonneg l); pose proof (height_nonneg r).
  apply (Hgrow _ (height l) (height r)); try lia; auto.
Qed.

Lemma avl_height_log s : avl s ->
  height s <= 2 * Z.log2 (Z.of_nat (length (addrs s)) + 1) + 1.
Proof.
  intros Hs; pose proof (avl_height_bound s Hs) as Hb; set (n := Z.of_nat _ + 1) in *.
  assert (0 < n) as Hn by lia; destruct (Z.log2_spec n Hn) as [_ Hlt]; pose proof (Z.log2_nonneg n).
  pose proof (height_nonneg s).
  assert (2 ^ height s < 2 ^ (2 * Z.log2 n + 2)) as Hp.
  { replace (2 * Z.log2 n + 2) with (Z.succ (Z.log2 n) * 2) by lia; rewrite Z.pow_mul_r by lia.
    eapply Z.le_lt_trans; [exact Hb|]; apply Z.pow_lt_mono_l; lia. }
  apply Z.pow_lt_mono_r_iff in Hp; lia.
Qed.

(** ** Trees over a memory pool or [malloc] *)

Abbreviation pool_tree := (muggle_avl_tree (option muggle_memory_pool)).

Definition pool_avl_ok (debug : bool) (cmp : Z -> Z -> Z) (t : pool_tree) (l : list (Z * Z)) (owned : list Z) : Prop :=
  avl_ok (node_alloc debug) node_free cmp t l owned.

Lemma empty_avl_ok debug cmp s owned : node_wf s [] owned -> pool_avl_ok debug cmp (AVL NULL s ∅) [] owned.
Proof.
  intros Hw; exists E; split; [split; simpl; try done; [constructor|set_solver]|].
  split_and!; try done; constructor.
Qed.

Lemma avl_destroy_ok debug cmp `{!CmpLaws cmp} t l owned kf vf :
  pool_avl_ok debug cmp t l owned ->
  exists tr t', muggle_avl_tree_destroy t kf vf = Some (tr, t') /\ tr ≡ₚ freed_entries kf vf l /\
    avl_nodes t' = ∅.
Proof.
  intros Hok; unfold muggle_avl_tree_destroy.
  destruct (clear_ok _ _ cmp t l owned kf vf Hok) as (tr & t1 & o1 & -> & Htr & Hn & _ & _ & Hw).
  cbn [mbind option_bind]; destruct (avl_pool t1) as [p|]; [|by exists tr, t1].
  destruct Hw as (F & Hinv & _); destruct (destroy_outcome p F Hinv) as (bufs & _ & ->); by do 2 eexists.
Qed.

Lemma avl_init_ok debug cmp t0 capacity p a :
  0 <= capacity < 2 ^ 64 -> 0 < ma_data a \/ ma_data a = NULL ->
  exists ok t, muggle_avl_tree_init t0 true capacity p a = Some (ok, t) /\
    (ok = true <-> capacity = 0 \/
       (capacity < 2 ^ 31 /\ p = true /\ ma_bufs a = true /\ ma_ptr a = true /\ ma_data a <> NULL)) /\
    (ok = true -> exists owned, pool_avl_ok debug cmp t [] owned).
Proof.
  intros Hc Hd; unfold muggle_avl_tree_init; cbn [negb]; destruct (Z.gtb_spec capacity 0) as [Hpos|Hz].
  2:{ assert (capacity = 0) as -> by lia; do 2 eexists; split; [done|]; split; [by split; auto|].
      intros _; exists []; apply empty_avl_ok; split; [done|split; constructor]. }
  pose proof (ds_cap_valid_spec capacity Hc) as Hv.
  destruct (MUGGLE_DS_CAP_IS_VALID capacity); cbn [negb].
  2:{ do 2 eexists; split; [done|]; split; [|done].
      split; [done|]; intros [->|[H _]]; [done|by apply Hv in H]. }
  destruct p; cbn [negb].
  2:{ do 2 eexists; split; [done|]; split; [|done]; split; [done|]; intros [->|(_ & H & _)]; done. }
  assert (capacity < 2 ^ 31) as Hlt by (by apply Hv).
  destruct (init_outcome a capacity sizeof_avl_node) as (ok & q & -> & Hiff & _ & Hq);
    [lia|done|]; cbn [mbind option_bind].
  do 2 eexists; split; [done|]; split.
  - rewrite Hiff; unfold sizeof_avl_node; split; [intros (_ & H); right; done|].
    intros [->|(_ & _ & H)]; [done|by split].
  - intros ->; destruct (Hq eq_refl ltac:(done)) as (_ & _ & _ & Hwf); eexists; by apply empty_avl_ok.
Qed.

(** The states that calls reach: [owned] is the memory that the allocator
    holds, from which its next answer is different. *)
Inductive avl_reach (debug : bool) (cmp : Z -> Z -> Z) : pool_tree -> list Z -> Prop :=
| reach_init t0 capacity p a t owned :
    muggle_avl_tree_init t0 true capacity p a = Some (true, t) -> node_wf (avl_pool t) [] owned ->
    avl_reach debug cmp t owned
| reach_insert t owned key value a p t' owned' :
    avl_reach debug cmp t owned -> node_fresh (avl_pool t) owned a ->
    muggle_avl_tree_insert (node_alloc debug) cmp t key value a = Some (p, t') ->
    node_wf (avl_pool t') (elements (dom (avl_nodes t'))) owned' ->
    avl_reach debug cmp t' owned'
| reach_remove t owned p kf vf tr t' owned' :
    avl_reach debug cmp t owned -> is_Some (avl_nodes t !! p) ->
    muggle_avl_tree_remove node_free t p kf vf = Some (tr, t') ->
    node_wf (avl_pool t') (elements (dom (avl_nodes t'))) owned' ->
    avl_reach debug cmp t' owned'.

(** What every node in memory satisfies: its balance factor is at most one
    away from 0, its children point back to it and their keys are on the right
    side of its own, and its parent, if any, has it as a child; the root is the
    node without parent. *)
Definition child_ok (t : pool_tree) (a child : Z) (ok : muggle_avl_tree_node -> Prop) : Prop :=
  child = NULL \/ exists n, avl_nodes t !! child = Some n /\ parent_of n = a /\ ok n.

Definition node_ok (cmp : Z -> Z -> Z) (t : pool_tree) (a : Z) (n : muggle_avl_tree_node) : Prop :=
  -1 <= balance_of n <= 1 /\
  child_ok t a (left_of n) (fun c => cmp (key_of c) (key_of n) < 0) /\
  child_ok t a (right_of n) (fun c => cmp (key_of n) (key_of c) < 0) /\
  (if parent_of n =? NULL then avl_root t = a
   else exists p, avl_nodes t !! parent_of n = Some p /\ (left_of p = a \/ right_of p = a)).

Definition tree_invariant (cmp : Z -> Z -> Z) (t : pool_tree) : Prop :=
  (avl_nodes t = ∅ <-> avl_root t = NULL) /\ map_Forall (node_ok cmp t) (avl_nodes t).

Section Invariant.
Context (debug : bool) (cmp : Z -> Z -> Z) `{!CmpLaws cmp}.
Implicit Types t : pool_tree.

Lemma ok_live t l owned owned' :
  pool_avl_ok debug cmp t l owned -> node_wf (avl_pool t) (elements (dom (avl_nodes t))) owned' ->
  pool_avl_ok debug cmp t l owned'.
Proof.
  intros (s & Hat & Ha & Hi & Ho & _) Hwf; exists s; split_and!; try done.
  pose proof (z_dom _ _ _ Hat) as Hd; pose proof (z_nodup _ _ _ Hat) as Hnd; simpl in *; rewrite app_nil_r in *.
  eapply (na_perm (NodeAllocator := pool_allocator debug)); [|exact Hwf].
  rewrite Hd; by apply elements_list_to_set.
Qed.

Lemma reach_ok t owned : avl_reach debug cmp t owned -> exists l, pool_avl_ok debug cmp t l owned.
Proof.
  induction 1 as [t0 capacity p a t owned Hi Hw|t owned key value a p t' owned' _ [l Hok] Hfr E1 Hw
    |t owned p kf vf tr t' owned' _ [l Hok] [n Hn] E1 Hw].
  - exists []; unfold muggle_avl_tree_init in Hi; cbn [negb] in Hi; repeat case_match; simplify_eq;
      try (by apply empty_avl_ok).
    destruct (muggle_memory_pool_init _ _ _) as [[ok q]|]; [|done]; simplify_eq/=; by apply empty_avl_ok.
  - destruct (insert_ok (node_alloc debug) node_free cmp t l owned key value a Hok Hfr)
      as (p' & t'' & o' & E2 & Hins); rewrite E1 in E2; simplify_eq.
    unfold inserted in Hins; destruct (om_find cmp key l).
    + destruct Hins as [-> ->]; exists l; by eapply ok_live.
    + destruct Hins as [(_ & Hok' & _)|(_ & _ & Hok' & _)]; eexists; by eapply ok_live.
  - assert (entry_at t p = Some (key_of n, value_of n)) as He by (unfold entry_at; by rewrite Hn).
    destruct (remove_ok (node_alloc debug) node_free cmp t l owned p _ _ kf vf Hok He) as (t'' & o' & E2 & Hok').
    rewrite E1 in E2; simplify_eq; eexists; by eapply ok_live.
Qed.

Lemma child_rep m s a : rep m s a -> NULL ∉ addrs s ->
  rt s = NULL \/ exists n, m !! rt s = Some n /\ parent_of n = a /\ (key_of n, value_of n) ∈ inorder s.
Proof.
  destruct s as [|x b k v l r]; [by left|]; intros (H1 & _) _; right; eexists; split; [exact H1|].
  split; [done|]; simpl; set_solver.
Qed.

Lemma ok_invariant t l owned : pool_avl_ok debug cmp t l owned -> tree_invariant cmp t.
Proof.
  intros (s & Hat & Havl & Hi & Ho & _); pose proof (z_dom _ _ _ Hat) as Hd; simpl in Hd; rewrite app_nil_r in Hd.
  assert (NULL ∉ addrs s) as Hnn by (pose proof (z_null _ _ _ Hat); set_solver).
  split.
  { rewrite (avl_ok_root _ _ Hat), (rt_null s) by done; split.
    - intros H0; rewrite H0, dom_empty_L in Hd; destruct s; [done|]; simpl in Hd; set_solver.
    - intros ->; by apply dom_empty_inv_L. }
  intros a n Hn; assert (a ∈ addrs s) as Hin.
  { assert (a ∈ dom (avl_nodes t)) as H by (apply elem_of_dom; by eexists); rewrite Hd in H; set_solver. }
  destruct (node_position s a Hin) as (c & b & k & v & x & y & ->); rewrite <- at_pos_plug in Hat.
  destruct (at_pos_node _ _ _ _ _ _ _ _ Hat) as (Hn' & _ & _); unfold nget in Hn'; rewrite Hn in Hn'; injection Hn' as ->.
  apply plug_avl in Havl as [(Hb & Hb1 & _) _]; pose proof Hat as [(_ & Hx & Hy) Hc Hroot _ Hn0 _].
  rewrite <- Hi, plug_inorder in Ho; cbn [inorder] in Ho; rewrite <- !app_assoc in Ho; simpl in Ho.
  rewrite app_assoc in Ho; apply (ordered_around cmp) in Ho as (_ & _ & Hbl & Hab); simpl in Hbl, Hab, Hn0.
  unfold below, above in *; rewrite Forall_forall in Hbl, Hab.
  unfold node_ok, child_ok; cbn [balance_of left_of right_of parent_of key_of]; split_and!; [lia|lia|..].
  - destruct (child_rep _ _ _ Hx) as [|(n & H1 & H2 & H3)]; [set_solver|by left|right; exists n].
    split; [done|]; split; [done|]; apply cmp_flip; specialize (Hbl _ ltac:(apply elem_of_app; right; exact H3)).
    simpl in Hbl; lia.
  - destruct (child_rep _ _ _ Hy) as [|(n & H1 & H2 & H3)]; [set_solver|by left|right; exists n].
    split; [done|]; split; [done|]; by specialize (Hab _ ltac:(apply elem_of_app; left; exact H3)).
  - rewrite (caddr_null _ _ _ Hat); destruct c as [|[f1 f2 f3 f4 f5|f1 f2 f3 f4 f5] c]; [done|..];
      simpl in Hc |- *; destruct Hc as (H1 & _); eexists; (split; [exact H1|]); by auto.
Qed.
End Invariant.

(** ** Properties *)

(** C3: the AVL tree implements an ordered map.  For every tree in memory
    with the entries [l], with any answers of the allocator that are not
    memory in use, and without a fault: [find] returns a node that holds the
    entry of the key, or [NULL] when there is none; [insert] returns [NULL]
    and changes nothing when the key is there, and otherwise returns a node
    that was not in use and holds the new entry, or [NULL] without memory, and
    no other entry moves to another node; [remove] of any node deletes its
    entry, freeing its key and value; [destroy] frees the keys and values of
    all entries and every node.  Each resulting tree is again a balanced search
    tree, all of whose nodes the allocator accounts for. *)
Theorem avl_tree_refines_ordered_map debug cmp `{!CmpLaws cmp} t l owned (Hok : pool_avl_ok debug cmp t l owned) :
  (forall key, exists p, muggle_avl_tree_find cmp t key = Some p /\
     match om_find cmp key l with
     | None => p = NULL
     | Some e => p <> NULL /\ entry_at t p = Some e
     end) /\
  (forall key value a, node_fresh (avl_pool t) owned a ->
     exists p t' owned', muggle_avl_tree_insert (node_alloc debug) cmp t key value a = Some (p, t') /\
     match om_find cmp key l with
     | Some _ => p = NULL /\ t' = t
     | None =>
         (p = NULL /\ pool_avl_ok debug cmp t' l owned' /\ avl_nodes t' = avl_nodes t) \/
         (p <> NULL /\ entry_at t p = None /\ pool_avl_ok debug cmp t' (om_insert cmp key value l) owned' /\
          forall q, entry_at t' q = if decide (q = p) then Some (key, value) else entry_at t q)
     end) /\
  (forall p k v kf vf, entry_at t p = Some (k, v) ->
     exists t' owned', muggle_avl_tree_remove node_free t p kf vf
       = Some (freed_key kf k ++ freed_value vf v, t') /\ pool_avl_ok debug cmp t' (om_delete cmp k l) owned') /\
  (forall kf vf, exists tr t', muggle_avl_tree_destroy t kf vf = Some (tr, t') /\
     tr ≡ₚ freed_entries kf vf l /\ avl_nodes t' = ∅).
Proof.
  split; [|split; [|split]].
  - intros key; destruct Hok as (s & Hat & _ & Hi & Ho & _).
    apply (find_node_ok cmp t l key _ s); try done; apply (at_pos_height _ _ _ Hat).
  - intros; by apply (insert_ok (node_alloc debug) node_free cmp t l owned).
  - intros; by apply (remove_ok (node_alloc debug) node_free cmp t l owned).
  - intros; by apply (avl_destroy_ok debug cmp t l owned).
Qed.

(** Inserting into a tree without a pool, [malloc] giving the address 1000. *)
Lemma avl_tree_refines_ordered_map_witness :
  exists p t' owned', muggle_avl_tree_insert (node_alloc false) Z.sub (AVL NULL None ∅) 5 50 (NA 1000 no_memory)
    = Some (p, t') /\
    ((p = NULL /\ pool_avl_ok false Z.sub t' [] owned' /\ avl_nodes t' = ∅) \/
     (p <> NULL /\ @None (Z * Z) = None /\ pool_avl_ok false Z.sub t' [(5, 50)] owned' /\
      forall q, entry_at t' q = if decide (q = p) then Some (5, 50) else None)).
Proof.
  refine (proj1 (proj2 (avl_tree_refines_ordered_map false Z.sub (AVL NULL None ∅) [] [] _)) 5 50 (NA 1000 no_memory) _).
  - apply empty_avl_ok; split; [done|split; constructor].
  - right; split; [vm_compute; done|set_solver].
Defined.

(** C5: the invariant of the tree.  In every state that calls of [insert] and
    [remove] reach from [init], every node in memory has a balance factor of -1, 0 or 1, children
    that point back to it, a smaller key to its left and a larger one to its
    right, and a parent of which it is a child unless it is the root; and no
    call can fault: [find] with any key, [insert] with any key and any answer
    of the allocator, [remove] of any node of the tree, [clear] and [destroy].
    The state after [clear] is not among these: see [avl_tree_clear_defect]. *)
Theorem avl_tree_invariant debug cmp `{!CmpLaws cmp} t owned (Hr : avl_reach debug cmp t owned) :
  tree_invariant cmp t /\
  (forall key, is_Some (muggle_avl_tree_find cmp t key)) /\
  (forall key value a, node_fresh (avl_pool t) owned a ->
     is_Some (muggle_avl_tree_insert (node_alloc debug) cmp t key value a)) /\
  (forall p kf vf, is_Some (avl_nodes t !! p) -> is_Some (muggle_avl_tree_remove node_free t p kf vf)) /\
  (forall kf vf, is_Some (muggle_avl_tree_clear node_free t kf vf) /\ is_Some (muggle_avl_tree_destroy t kf vf)).
Proof.
  destruct (reach_ok debug cmp t owned Hr) as [l Hok]; split; [by eapply (ok_invariant debug cmp)|].
  split; [|split; [|split]].
  - intros key; destruct Hok as (s & Hat & _ & Hi & Ho & _).
    destruct (find_node_ok cmp t l key (size (avl_nodes t)) s) as (p & E1 & _);
      [done|done|done|apply (at_pos_height _ _ _ Hat)|by eexists].
  - intros key value a Hfr; destruct (insert_ok (node_alloc debug) node_free cmp t l owned key value a Hok Hfr)
      as (p & t' & o' & E1 & _); by eexists.
  - intros p kf vf [n Hn]; assert (entry_at t p = Some (key_of n, value_of n)) as He by (unfold entry_at; by rewrite Hn).
    destruct (remove_ok (node_alloc debug) node_free cmp t l owned p _ _ kf vf Hok He) as (t' & o' & E1 & _); by eexists.
  - intros kf vf; destruct (clear_ok (node_alloc debug) node_free cmp t l owned kf vf Hok) as (tr & t1 & o1 & -> & _).
    destruct (avl_destroy_ok debug cmp t l owned kf vf Hok) as (tr' & t2 & -> & _); by split; eexists.
Qed.

(** Three ascending keys, which rotate the tree. *)
Definition sample_tree : pool_tree :=
  AVL 2000 None (<[1000 := AN NULL NULL 2000 0 1 10]> (<[2000 := AN 1000 3000 NULL 0 2 20]>
    (<[3000 := AN NULL NULL 2000 0 3 30]> ∅))).

(** Closed decidable facts, by evaluation. *)
Ltac by_decide := match goal with |- ?P => apply (bool_decide_eq_true_1 P); vm_compute; reflexivity end.

Definition sample_entries : list (Z * Z) := [(1, 10); (2, 20); (3, 30)].

Lemma sample_ok : pool_avl_ok false Z.sub sample_tree sample_entries [1000; 2000; 3000].
Proof.
  exists (T 2000 0 2 20 (T 1000 0 1 10 E E) (T 3000 0 3 30 E E)); split_and!; try done.
  - split; simpl; [done|done|done|by_decide|by_decide|].
    rewrite !dom_insert_L, dom_empty_L; set_solver.
  - repeat constructor; unfold entry_lt; simpl; lia.
  - split; [simpl; apply perm_swap|]; split; by_decide.
Qed.

Lemma sample_reach : avl_reach false Z.sub sample_tree [3000; 2000; 1000].
Proof.
  assert (forall o : list Z, NoDup o -> Forall (fun a => 0 < a < 2 ^ 64) o -> forall d : gset Z,
    elements d ≡ₚ o -> node_wf None (elements d) o) as Hw by (intros o ? ? d Hd; by split).
  refine (reach_insert _ _ (AVL 1000 None (<[1000 := AN NULL 2000 NULL 1 1 10]> (<[2000 := AN NULL NULL 1000 0 2 20]> ∅)))
    [2000; 1000] 3 30 (NA 3000 no_memory) 3000 _ _ _ _ _ _).
  - refine (reach_insert _ _ (AVL 1000 None (<[1000 := AN NULL NULL NULL 0 1 10]> ∅)) [1000] 2 20 (NA 2000 no_memory) 2000 _ _ _ _ _ _).
    + refine (reach_insert _ _ (AVL NULL None ∅) [] 1 10 (NA 1000 no_memory) 1000 _ _ _ _ _ _).
      * apply (reach_init _ _ (AVL NULL None ∅) 0 true no_memory); [done|]; split; [done|split; constructor].
      * right; split; [vm_compute; done|set_solver].
      * vm_compute; reflexivity.
      * apply Hw; by_decide.
    + right; split; [vm_compute; done|set_solver].
    + vm_compute; reflexivity.
    + apply Hw; by_decide.
  - right; split; [vm_compute; done|set_solver].
  - vm_compute; reflexivity.
  - apply Hw; by_decide.
Qed.

Lemma avl_tree_invariant_witness : tree_invariant Z.sub sample_tree.
Proof. apply (avl_tree_invariant false Z.sub sample_tree [3000; 2000; 1000]); exact sample_reach. Defined.

(** [find] takes logarithmic time.  In a tree of [n] nodes it compares at
    most [2 log2 (n + 1) + 1] keys: with that many iterations of its loop
    it has its result, the one it gives without a bound. *)
Theorem avl_tree_find_bound debug cmp `{!CmpLaws cmp} t l owned key (Hok : pool_avl_ok debug cmp t l owned) :
  let n := Z.of_nat (size (avl_nodes t)) in
  exists p, find_node cmp (Z.to_nat (2 * Z.log2 (n + 1) + 1)) t (avl_root t) key = Some p /\
    muggle_avl_tree_find cmp t key = Some p.
Proof.
  destruct Hok as (s & Hat & Ha & Hi & Ho & _); cbv zeta.
  pose proof (avl_height_log s Ha) as Hh; pose proof (at_pos_size _ _ _ Hat) as Hs.
  cbn [caddrs] in Hs; rewrite app_nil_r in Hs; rewrite <- Hs in Hh.
  unfold muggle_avl_tree_find; rewrite (avl_ok_root _ _ Hat).
  pose proof (at_pos_height _ _ _ Hat); pose proof (height_nonneg s).
  rewrite !(find_node_locate cmp _ t [] s key Hat) by lia; by eexists.
Qed.

Lemma avl_tree_find_bound_witness :
  exists p, find_node Z.sub 5 sample_tree 2000 3 = Some p /\
    muggle_avl_tree_find Z.sub sample_tree 3 = Some p.
Proof. apply (avl_tree_find_bound false Z.sub sample_tree sample_entries [1000; 2000; 3000] 3), sample_ok. Defined.

(** [clear] leaves a dangling root.  It frees every key, value and node of
    the tree, and keeps [root] as it was: on a tree that was not empty, every
    [find] that follows reads freed memory, however long it runs, and so
    does every [insert] on its way to the place of the key. *)
Theorem avl_tree_clear_defect debug cmp `{!CmpLaws cmp} t l owned kf vf
    (Hok : pool_avl_ok debug cmp t l owned) :
  exists tr t', muggle_avl_tree_clear node_free t kf vf = Some (tr, t') /\
    tr ≡ₚ freed_entries kf vf l /\ avl_nodes t' = ∅ /\ avl_root t' = avl_root t /\
    (l <> [] -> forall fuel key,
       find_node cmp fuel t' (avl_root t') key = None /\
       insert_position cmp fuel t' (avl_root t') key = None).
Proof.
  destruct (clear_ok (node_alloc debug) node_free cmp t l owned kf vf Hok)
    as (tr & t' & o' & E1 & Htr & Hn & Hr & Hz & _).
  exists tr, t'; split_and!; try done; intros Hl fuel key.
  assert (avl_root t' <> NULL) as Hne by (rewrite Hr; tauto).
  destruct fuel; cbn [find_node insert_position]; rewrite (proj2 (Z.eqb_neq _ _) Hne); [done|].
  unfold nget; by rewrite Hn, lookup_empty.
Qed.

Lemma avl_tree_clear_defect_witness :
  exists tr t', muggle_avl_tree_clear node_free sample_tree true true = Some (tr, t') /\
    tr ≡ₚ freed_entries true true sample_entries /\ avl_nodes t' = ∅ /\ avl_root t' = 2000 /\
    (sample_entries <> [] -> forall fuel key,
       find_node Z.sub fuel t' (avl_root t') key = None /\
       insert_position Z.sub fuel t' (avl_root t') key = None).
Proof. apply (avl_tree_clear_defect false Z.sub sample_tree sample_entries [1000; 2000; 3000]), sample_ok. Defined.
