(* ===== verification/HashTable.v ===== *)
(** * The hash table: [dsaa/hash_table.c]

    An array of sentinels, each the head of a doubly linked chain of nodes,
    which come from a memory pool or from [malloc].  A pointer to a node is the
    address of an allocated node or, for a sentinel, its index in the array.
    The hash function is a field of the table, as in the code; the comparison
    of keys is an argument of the operations. *)
From S2P Require Import Prelude Utils MemoryPool Nodes.

Inductive hptr := HNull | HHead (i : Z) | HNode (a : Z).

#[global] Instance hptr_eq_dec : EqDecision hptr.
Proof. solve_decision. Defined.

Record muggle_hash_table_node := HN { hprev : hptr; hnext : hptr; hkey : Z; hvalue : Z }.

(** [ht_heads] is the array [nodes] of the code, [ht_nodes] the memory of the
    nodes that are allocated and not freed. *)
Record muggle_hash_table (S : Type) := HT {
  ht_heads : list muggle_hash_table_node; table_size : Z; ht_hash : Z -> Z;
  ht_pool : S; ht_nodes : gmap Z muggle_hash_table_node
}.
Arguments HT {S}. Arguments ht_heads {S}. Arguments table_size {S}. Arguments ht_hash {S}.
Arguments ht_pool {S}. Arguments ht_nodes {S}.

(** What is freed by the caller's functions. *)
Inductive hfreed := HFreedKey (p : Z) | HFreedValue (p : Z).

(** [str p] are the characters at [p] up to its end, as [char] values. *)
Definition s_muggle_default_str_hash_func (str : Z -> list Z) (data : Z) : Z :=
  fold_left (fun hash_val c => u64 (Z.shiftl hash_val 5 + c)) (str data) 0.

Section Operations.
Context {S A : Type} (alloc : S -> A -> option (Z * S)) (free : S -> Z -> option S).
Abbreviation table := (muggle_hash_table S).
Implicit Types t : table.

Definition hget t (p : hptr) : option muggle_hash_table_node :=
  match p with HNull => None | HHead i => rd (ht_heads t) i | HNode a => ht_nodes t !! a end.

Definition hput t (p : hptr) (n : muggle_hash_table_node) : option table :=
  match p with
  | HNull => None
  | HHead i => l ← wr (ht_heads t) i n; Some (HT l (table_size t) (ht_hash t) (ht_pool t) (ht_nodes t))
  | HNode a =>
      _ ← ht_nodes t !! a;
      Some (HT (ht_heads t) (table_size t) (ht_hash t) (ht_pool t) (<[a := n]> (ht_nodes t)))
  end.

Definition set_hprev t p (x : hptr) : option table :=
  n ← hget t p; hput t p (HN x (hnext n) (hkey n) (hvalue n)).
Definition set_hnext t p (x : hptr) : option table :=
  n ← hget t p; hput t p (HN (hprev n) x (hkey n) (hvalue n)).
Definition set_hkey t p (x : Z) : option table :=
  n ← hget t p; hput t p (HN (hprev n) (hnext n) x (hvalue n)).
Definition set_hvalue t p (x : Z) : option table :=
  n ← hget t p; hput t p (HN (hprev n) (hnext n) (hkey n) x).

Definition hash_index t (key : Z) : Z := u64 (ht_hash t key) mod table_size t.

Section Compare.
Context (cmp : Z -> Z -> Z).

(** The loop over a chain; [fuel] bounds the number of nodes. *)
Fixpoint chain_find (fuel : nat) t (node : hptr) (key : Z) : option hptr :=
  if decide (node = HNull) then Some HNull
  else match fuel with
  | O => None
  | Datatypes.S fuel =>
      n ← hget t node;
      if cmp (hkey n) key =? 0 then Some node else chain_find fuel t (hnext n) key
  end.

Definition muggle_hash_table_find t (key : Z) : option hptr :=
  head ← hget t (HHead (hash_index t key));
  chain_find (size (ht_nodes t)) t (hnext head) key.

Definition muggle_hash_table_put t (key value : Z) (a : A) : option (hptr * table) :=
  let head := HHead (hash_index t key) in
  h ← hget t head;
  found ← chain_find (size (ht_nodes t)) t (hnext h) key;
  if decide (found = HNull) then
    '(r, s) ← alloc (ht_pool t) a;
    if r =? NULL then Some (HNull, HT (ht_heads t) (table_size t) (ht_hash t) s (ht_nodes t))
    else
      let new_node := HNode r in
      let t := HT (ht_heads t) (table_size t) (ht_hash t) s (<[r := HN HNull HNull NULL NULL]> (ht_nodes t)) in
      t ← set_hkey t new_node key;
      t ← set_hvalue t new_node value;
      h ← hget t head;
      t ← set_hnext t new_node (hnext h);
      t ← set_hprev t new_node head;
      t ← set_hnext t head new_node;
      n ← hget t new_node;
      t ← (if decide (hnext n = HNull) then Some t else set_hprev t (hnext n) new_node);
      Some (new_node, t)
  else Some (HNull, t).
End Compare.

Definition erase_hkey t (node : hptr) (kf : bool) : option (list hfreed * table) :=
  n ← hget t node;
  if hkey n =? NULL then Some ([], t)
  else t ← set_hkey t node NULL; Some (if kf then [HFreedKey (hkey n)] else [], t).

Definition erase_hvalue t (node : hptr) (vf : bool) : option (list hfreed * table) :=
  n ← hget t node;
  if hvalue n =? NULL then Some ([], t)
  else t ← set_hvalue t node NULL; Some (if vf then [HFreedValue (hvalue n)] else [], t).

Definition free_chain_node t (node : hptr) : option table :=
  match node with
  | HNode a =>
      s ← free (ht_pool t) a;
      Some (HT (ht_heads t) (table_size t) (ht_hash t) s (delete a (ht_nodes t)))
  | _ => None
  end.

Definition muggle_hash_table_remove t (node : hptr) (kf vf : bool) : option (list hfreed * table) :=
  '(tr1, t) ← erase_hkey t node kf;
  '(tr2, t) ← erase_hvalue t node vf;
  n ← hget t node;
  let prev := hprev n in
  let next := hnext n in
  if decide (prev = HNull) then None
  else
    t ← set_hnext t prev next;
    t ← (if decide (next = HNull) then Some t else set_hprev t next prev);
    t ← free_chain_node t node;
    Some (tr1 ++ tr2, t).

Fixpoint clear_chain (fuel : nat) t (node : hptr) (kf vf : bool) : option (list hfreed * table) :=
  if decide (node = HNull) then Some ([], t)
  else match fuel with
  | O => None
  | Datatypes.S fuel =>
      n ← hget t node;
      let next := hnext n in
      '(tr1, t) ← muggle_hash_table_remove t node kf vf;
      '(tr2, t) ← clear_chain fuel t next kf vf;
      Some (tr1 ++ tr2, t)
  end.

Definition muggle_hash_table_clear t (kf vf : bool) : option (list hfreed * table) :=
  for_up (fun i '(tr, t) =>
    head ← hget t (HHead i);
    '(tr', t) ← clear_chain (size (ht_nodes t)) t (hnext head) kf vf;
    Some (tr ++ tr', t)) (Z.to_nat (table_size t)) 0 ([], t).
End Operations.

(** [sizeof(muggle_hash_table_node_t)] on a 64-bit host. *)
Definition sizeof_hash_node : Z := 32.
Definition MUGGLE_HASH_TABLE_SIZE_10007 : Z := 10007.

(** [cmp_given]: [cmp] is not [NULL]; [hash]: the hash function, or [NULL];
    [p] and [nodes] tell whether the [malloc] of the pool and of the array
    succeed; [t0] is what the structure held before.  When the size of the
    array wraps around, the loop that clears it leaves its memory. *)
Definition muggle_hash_table_init (str : Z -> list Z) (t0 : muggle_hash_table (option muggle_memory_pool))
    (table_size : Z) (hash : option (Z -> Z)) (cmp_given : bool) (capacity : Z) (p nodes : bool) (a : mem_answers)
  : option (bool * muggle_hash_table (option muggle_memory_pool)) :=
  if negb cmp_given then Some (false, t0)
  else
    let zero := fun pool => HT [] 0 (fun _ => 0) pool ∅ in
    '(ok, pool) ←
      (if capacity >? 0 then
         if negb (MUGGLE_DS_CAP_IS_VALID capacity) then Some (false, None)
         else if negb p then Some (false, None)
         else '(ok, q) ← muggle_memory_pool_init a (u32 capacity) sizeof_hash_node; Some (ok, Some q)
       else Some (true, None));
    if negb ok then Some (false, zero pool)
    else
      let table_size := if table_size <? 8 then MUGGLE_HASH_TABLE_SIZE_10007 else table_size in
      if negb nodes then
        match pool with
        | Some q => _ ← muggle_memory_pool_destroy q; Some (false, HT [] table_size (fun _ => 0) None ∅)
        | None => Some (false, HT [] table_size (fun _ => 0) None ∅)
        end
      else if negb (u64 (sizeof_hash_node * table_size) =? sizeof_hash_node * table_size) then None
      else
        Some (true, HT (replicate (Z.to_nat table_size) (HN HNull HNull NULL NULL)) table_size
          (match hash with None => s_muggle_default_str_hash_func str | Some h => h end) pool ∅).

Definition muggle_hash_table_destroy (t : muggle_hash_table (option muggle_memory_pool)) (kf vf : bool)
  : option (list hfreed * muggle_hash_table (option muggle_memory_pool)) :=
  '(tr, t) ← muggle_hash_table_clear node_free t kf vf;
  t ← match ht_pool t with
      | Some p => '(_, p) ← muggle_memory_pool_destroy p;
                  Some (HT (ht_heads t) (table_size t) (ht_hash t) (Some p) (ht_nodes t))
      | None => Some t
      end;
  Some (tr, HT [] (table_size t) (ht_hash t) (ht_pool t) (ht_nodes t)).

(** ** Memory *)
Section Memory.
Context {S : Type}.
Implicit Types t : muggle_hash_table S.

(** All that the assignments to nodes keep. *)
Definition hsame t t' : Prop :=
  table_size t' = table_size t /\ ht_hash t' = ht_hash t /\ ht_pool t' = ht_pool t /\
  dom (ht_nodes t') = dom (ht_nodes t).

Lemma hsame_trans t t' t'' : hsame t t' -> hsame t' t'' -> hsame t t''.
Proof. intros (H1 & H2 & H3 & H4) (G1 & G2 & G3 & G4); repeat split; congruence. Qed.

Lemma hput_spec t p n n0 : hget t p = Some n0 ->
  exists t', hput t p n = Some t' /\ (forall q, hget t' q = if decide (q = p) then Some n else hget t q) /\
    hsame t t'.
Proof.
  destruct p as [|i|a]; simpl; intros Hp; [done|..].
  - pose proof (rd_Some _ _ _ Hp) as Hi; rewrite wr_Some by done; simpl.
    eexists; split; [done|]; split; [|by repeat split].
    intros [|j|b]; simpl; [done| |done]; case_decide as Hj.
    + injection Hj as ->; apply (rd_wr_eq (ht_heads t)); by rewrite wr_Some.
    + apply (rd_wr_ne (ht_heads t) i j n); [by rewrite wr_Some|congruence].
  - rewrite Hp; simpl; eexists; split; [done|]; split.
    + intros [|j|b]; simpl; [done|done|]; case_decide as Hb.
      * injection Hb as ->; apply lookup_insert_eq.
      * apply lookup_insert_ne; congruence.
    + repeat split; simpl; apply dom_insert_lookup_L; eauto.
Qed.

(** One assignment: a field of a node. *)
Definition updated t t' (p : hptr) (n : muggle_hash_table_node) : Prop :=
  (forall q, hget t' q = if decide (q = p) then Some n else hget t q) /\ hsame t t'.

Lemma set_hprev_spec t p n x : hget t p = Some n ->
  exists t', set_hprev t p x = Some t' /\ updated t t' p (HN x (hnext n) (hkey n) (hvalue n)).
Proof. intros H; unfold set_hprev; rewrite H; by apply (hput_spec t p _ n). Qed.
Lemma set_hnext_spec t p n x : hget t p = Some n ->
  exists t', set_hnext t p x = Some t' /\ updated t t' p (HN (hprev n) x (hkey n) (hvalue n)).
Proof. intros H; unfold set_hnext; rewrite H; by apply (hput_spec t p _ n). Qed.
Lemma set_hkey_spec t p n x : hget t p = Some n ->
  exists t', set_hkey t p x = Some t' /\ updated t t' p (HN (hprev n) (hnext n) x (hvalue n)).
Proof. intros H; unfold set_hkey; rewrite H; by apply (hput_spec t p _ n). Qed.
Lemma set_hvalue_spec t p n x : hget t p = Some n ->
  exists t', set_hvalue t p x = Some t' /\ updated t t' p (HN (hprev n) (hnext n) (hkey n) x).
Proof. intros H; unfold set_hvalue; rewrite H; by apply (hput_spec t p _ n). Qed.
End Memory.

(** ** Chains

    [walk g p xs]: from [p], the nodes [xs] follow each other in both
    directions; [chain g p xs]: and nothing follows the last. *)
Section Chains.
Implicit Types (g : hptr -> option muggle_hash_table_node) (xs ys zs : list Z).

Definition node_ptr (xs : list Z) : hptr := match xs with [] => HNull | a :: _ => HNode a end.
Definition last_of (p : hptr) (xs : list Z) : hptr := match last xs with None => p | Some a => HNode a end.

Fixpoint walk g (p : hptr) xs : Prop :=
  match xs with
  | [] => True
  | a :: xs => (exists n, g p = Some n /\ hnext n = HNode a) /\
               (exists m, g (HNode a) = Some m /\ hprev m = p) /\ walk g (HNode a) xs
  end.

Definition chain g (p : hptr) xs : Prop :=
  walk g p xs /\ exists n, g (last_of p xs) = Some n /\ hnext n = HNull.

Lemma last_of_cons p a xs : last_of p (a :: xs) = last_of (HNode a) xs.
Proof. unfold last_of; rewrite last_cons; by destruct (last xs). Qed.

Lemma walk_app g p xs ys : walk g p (xs ++ ys) <-> walk g p xs /\ walk g (last_of p xs) ys.
Proof.
  revert p; induction xs as [|a xs IH]; intros p; cbn [app walk]; [tauto|].
  rewrite IH, last_of_cons; tauto.
Qed.

Lemma last_of_app p xs ys : last_of p (xs ++ ys) = last_of (last_of p xs) ys.
Proof.
  revert p; induction xs as [|a xs IH]; intros p; cbn [app]; [done|]; by rewrite !last_of_cons, IH.
Qed.

Lemma chain_app g p xs ys : chain g p (xs ++ ys) <-> walk g p xs /\ chain g (last_of p xs) ys.
Proof. unfold chain; rewrite walk_app, last_of_app; tauto. Qed.

Lemma chain_next g p xs : chain g p xs -> exists n, g p = Some n /\ hnext n = node_ptr xs.
Proof. intros [Hw Hl]; destruct xs; [exact Hl|apply Hw]. Qed.

(** The pointers that a walk reads: [next] up to the last node but one, [prev]
    from the first node on. *)
Lemma walk_ext g g' p xs :
  (forall q n, q = p \/ (exists a, a ∈ xs /\ q = HNode a) -> q <> last_of p xs -> g q = Some n ->
     exists n', g' q = Some n' /\ hnext n' = hnext n) ->
  (forall a n, a ∈ xs -> g (HNode a) = Some n -> exists n', g' (HNode a) = Some n' /\ hprev n' = hprev n) ->
  p ∉ HNode <$> xs -> NoDup xs -> walk g p xs -> walk g' p xs.
Proof.
  revert p; induction xs as [|a xs IH]; intros p Hn Hp Hpx Hnd; [done|].
  intros ((n & E1 & N1) & (m & E2 & P2) & Hw); apply NoDup_cons in Hnd as [Ha Hnd].
  rewrite last_of_cons in Hn; split; [|split].
  - destruct (Hn p n) as (n' & E3 & N3); [by left| |done|exists n'; by rewrite N3].
    unfold last_of; destruct (last xs) as [b|] eqn:El; [|set_solver].
    intros ->; apply Hpx; rewrite fmap_cons; right; apply list_elem_of_fmap; exists b; split; [done|].
    apply last_Some in El as [l ->]; set_solver.
  - destruct (Hp a m) as (m' & E3 & P3); [by left|done|exists m'; by rewrite P3].
  - apply IH; [|by intros; apply Hp; [right|]| |done|done].
    + intros q n' [->|(b & Hb & ->)] Hq Eq; apply Hn; try done; right; [exists a|exists b]; set_solver.
    + rewrite list_elem_of_fmap; intros (b & [= <-] & Hb); done.
Qed.
Lemma chain_cons g p a xs : chain g p (a :: xs) <->
  (exists n, g p = Some n /\ hnext n = HNode a) /\ (exists m, g (HNode a) = Some m /\ hprev m = p) /\
  chain g (HNode a) xs.
Proof. unfold chain; rewrite last_of_cons; simpl; tauto. Qed.

(** Only [next] is read of the first node. *)
Lemma chain_ext g g' p xs :
  (forall n, g p = Some n -> exists n', g' p = Some n' /\ hnext n' = hnext n) ->
  (forall a, a ∈ xs -> g' (HNode a) = g (HNode a)) -> chain g p xs -> chain g' p xs.
Proof.
  revert p; induction xs as [|a xs IH]; intros p Hp Hxs.
  - intros [_ (n & E1 & N1)]; destruct (Hp n E1) as (n' & E2 & N2); split; [done|]; exists n'; by rewrite N2.
  - rewrite !chain_cons; intros ((n & E1 & N1) & (m & E2 & P2) & Hc).
    destruct (Hp n E1) as (n' & E3 & N3); split; [exists n'; by rewrite N3|].
    rewrite Hxs by set_solver; split; [by exists m|]; apply IH; [|set_solver|done].
    intros k Hk; exists k; rewrite Hxs by set_solver; done.
Qed.

(** The node [p] linked to a chain that was behind another node. *)
Lemma chain_relink g g' p0 p zs :
  chain g p0 zs -> NoDup zs ->
  (exists n, g' p = Some n /\ hnext n = node_ptr zs) ->
  (forall b n, HNode b = node_ptr zs -> g (HNode b) = Some n ->
     g' (HNode b) = Some (HN p (hnext n) (hkey n) (hvalue n))) ->
  (forall b, b ∈ zs -> HNode b <> node_ptr zs -> g' (HNode b) = g (HNode b)) ->
  chain g' p zs.
Proof.
  destruct zs as [|b zs]; intros Hc Hnd Hn Hb Hzs; [by split|].
  apply chain_cons in Hc as (_ & (m & E2 & _) & Hc); apply chain_cons; split; [exact Hn|].
  specialize (Hb b m eq_refl E2); split; [by eexists|].
  apply NoDup_cons in Hnd as [Hnb Hnd]; apply (chain_ext g); [|intros a Ha|done].
  - intros n; rewrite E2; intros [= <-]; by eexists.
  - apply Hzs; [by right|]; simpl; intros [= ->]; done.
Qed.

(** A node put in front. *)
Lemma chain_push g g' p a xs h v :
  chain g p xs -> NoDup xs -> a ∉ xs -> p ∉ HNode <$> xs -> p <> HNode a ->
  g p = Some h -> g' p = Some (HN (hprev h) (HNode a) (hkey h) (hvalue h)) ->
  g' (HNode a) = Some v -> hprev v = p -> hnext v = node_ptr xs ->
  (forall b n, HNode b = node_ptr xs -> g (HNode b) = Some n ->
     g' (HNode b) = Some (HN (HNode a) (hnext n) (hkey n) (hvalue n))) ->
  (forall q, q <> p -> q <> HNode a -> q <> node_ptr xs -> g' q = g q) ->
  chain g' p (a :: xs).
Proof.
  intros Hc Hnd Ha Hp Hpa Eh Ep Ea Pa Na Hb Hq; apply chain_cons.
  split; [by eexists|]; split; [by eexists|]; apply (chain_relink g g' p); try done; [by eexists|].
  intros b Hin Hne; apply Hq; [|set_solver|done]; intros <-; apply Hp, list_elem_of_fmap; eauto.
Qed.

(** A node taken out. *)
Lemma chain_remove g g' p a ys zs n :
  chain g p (ys ++ a :: zs) -> NoDup (ys ++ a :: zs) -> p ∉ HNode <$> (ys ++ a :: zs) -> p <> HNull ->
  g (last_of p ys) = Some n ->
  g' (last_of p ys) = Some (HN (hprev n) (node_ptr zs) (hkey n) (hvalue n)) ->
  (forall b m, HNode b = node_ptr zs -> g (HNode b) = Some m ->
     g' (HNode b) = Some (HN (last_of p ys) (hnext m) (hkey m) (hvalue m))) ->
  (forall q, q <> last_of p ys -> q <> node_ptr zs -> q <> HNode a -> g' q = g q) ->
  chain g' p (ys ++ zs).
Proof.
  rewrite !chain_app; intros [Hw Hc] Hnd Hp Hp0 En En' Hb Hq.
  apply NoDup_app in Hnd as (Hys & Hdis & Hnd); apply NoDup_cons in Hnd as [Ha Hzs].
  rewrite fmap_app, fmap_cons in Hp.
  assert (forall b, b ∈ ys -> HNode b <> node_ptr zs /\ HNode b <> HNode a) as Hsep.
  { intros b Hb1; split; [destruct zs; simpl; [done|]|]; intros [= ->]; apply (Hdis _ Hb1); set_solver. }
  assert (p <> node_ptr zs /\ p <> HNode a) as [Hpz Hpa].
  { split; [destruct zs as [|z zs]; [done|]|]; intros ->; apply Hp; set_solver. }
  split.
  - apply (walk_ext g); [|intros b m Hb1 Em| |done|done].
    + intros q m Hq1 Hq2 Em; exists m; rewrite Hq by (done || by destruct Hq1 as [->|(b & Hb1 & ->)]; [|apply Hsep]); done.
    + destruct (decide (HNode b = last_of p ys)) as [E1|E1].
      * rewrite E1, En' in *; rewrite En in Em; injection Em as ->; by eexists.
      * exists m; rewrite Hq; [done|done|by apply Hsep|by apply Hsep].
    + set_solver.
  - apply chain_cons in Hc as (_ & _ & Hc); apply (chain_relink g g' (HNode a)); try done; [by eexists|].
    intros b Hb1 Hne; apply Hq; [|done|].
    + unfold last_of; destruct (last ys) as [c|] eqn:El.
      * intros [= ->]; apply last_Some in El as [l ->]; apply (Hdis c); set_solver.
      * intros <-; apply Hp; rewrite !elem_of_app, elem_of_cons, !list_elem_of_fmap; eauto.
    + intros [= ->]; done.
Qed.
End Chains.

(** ** The operations on the memory *)

(** What the table relies on of its functions: equal keys hash alike. *)
Class KeyLaws (hash : Z -> Z) (cmp : Z -> Z -> Z) : Prop := {
  key_refl : forall a, cmp a a = 0;
  key_sym : forall a b, cmp a b = 0 -> cmp b a = 0;
  key_trans : forall a b c, cmp a b = 0 -> cmp b c = 0 -> cmp a c = 0;
  key_hash : forall a b, cmp a b = 0 -> hash a = hash b
}.

(** The default hash function agrees with the comparison of strings. *)
#[global] Instance default_hash_laws (str : Z -> list Z) cmp :
  (forall a b, cmp a b = 0 <-> str a = str b) -> KeyLaws (s_muggle_default_str_hash_func str) cmp.
Proof.
  intros H; split; intros *; rewrite ?H; try congruence.
  unfold s_muggle_default_str_hash_func; congruence.
Qed.

(** The entries, by the address of their node. *)
Definition ht_entries {S} (t : muggle_hash_table S) : gmap Z (Z * Z) :=
  (fun n => (hkey n, hvalue n)) <$> ht_nodes t.

Section Steps.
Context {S A : Type} (alloc : S -> A -> option (Z * S)) (free : S -> Z -> option S).
Implicit Types t : muggle_hash_table S.

Lemma hget_entry t a n : hget t (HNode a) = Some n -> ht_entries t !! a = Some (hkey n, hvalue n).
Proof. intros H; unfold ht_entries; rewrite lookup_fmap; simpl in H; by rewrite H. Qed.

(** The assignments of [put] to the new node and its neighbours. *)
Lemma put_steps t head h xs r key value s :
  hget t head = Some h -> hnext h = node_ptr xs -> head <> HNode r ->
  ht_nodes t !! r = None -> (forall b, HNode b = node_ptr xs -> is_Some (ht_nodes t !! b)) ->
  (forall b, HNode b = node_ptr xs -> head <> HNode b) ->
  exists t',
    (let new_node := HNode r in
     let t := HT (ht_heads t) (table_size t) (ht_hash t) s (<[r := HN HNull HNull NULL NULL]> (ht_nodes t)) in
     t ← set_hkey t new_node key;
     t ← set_hvalue t new_node value;
     h ← hget t head;
     t ← set_hnext t new_node (hnext h);
     t ← set_hprev t new_node head;
     t ← set_hnext t head new_node;
     n ← hget t new_node;
     t ← (if decide (hnext n = HNull) then Some t else set_hprev t (hnext n) new_node);
     Some (new_node, t)) = Some (HNode r, t') /\
    hget t' head = Some (HN (hprev h) (HNode r) (hkey h) (hvalue h)) /\
    hget t' (HNode r) = Some (HN head (node_ptr xs) key value) /\
    (forall b n, HNode b = node_ptr xs -> hget t (HNode b) = Some n ->
       hget t' (HNode b) = Some (HN (HNode r) (hnext n) (hkey n) (hvalue n))) /\
    (forall q, q <> head -> q <> HNode r -> q <> node_ptr xs -> hget t' q = hget t q) /\
    table_size t' = table_size t /\ ht_hash t' = ht_hash t /\ ht_pool t' = s /\
    dom (ht_nodes t') = {[r]} ∪ dom (ht_nodes t).
Proof.
  intros Eh Nh Hne Hr Hb Hhb; cbv zeta.
  set (t0 := HT _ _ _ s _); assert (hget t0 (HNode r) = Some (HN HNull HNull NULL NULL)) as E0 by apply lookup_insert_eq.
  assert (forall q, q <> HNode r -> hget t0 q = hget t q) as Hq0.
  { intros [|j|b] Hq; simpl; [done|done|]; apply lookup_insert_ne; congruence. }
  destruct (set_hkey_spec t0 (HNode r) _ key E0) as (t1 & -> & G1 & S1); cbn [mbind option_bind].
  destruct (set_hvalue_spec t1 (HNode r) (HN HNull HNull key NULL) value) as (t2 & -> & G2 & S2);
    [by rewrite G1, decide_True|]; cbn [mbind option_bind].
  assert (hget t2 head = Some h) as Eh2 by (by rewrite G2, G1, !decide_False, Hq0 by done); rewrite Eh2; cbn [mbind option_bind].
  destruct (set_hnext_spec t2 (HNode r) (HN HNull HNull key value) (hnext h)) as (t3 & -> & G3 & S3);
    [by rewrite G2, decide_True|]; cbn [mbind option_bind].
  destruct (set_hprev_spec t3 (HNode r) (HN HNull (hnext h) key value) head) as (t4 & -> & G4 & S4);
    [by rewrite G3, decide_True|]; cbn [mbind option_bind].
  destruct (set_hnext_spec t4 head h (HNode r)) as (t5 & -> & G5 & S5);
    [by rewrite G4, G3, !decide_False by done|]; cbn [mbind option_bind].
  assert (hget t5 (HNode r) = Some (HN head (node_ptr xs) key value)) as Er5
    by (rewrite G5, decide_False, G4, decide_True, <- Nh by done; done).
  assert (forall q, q <> head -> q <> HNode r -> hget t5 q = hget t q) as Hq5
    by (intros q H1 H2; by rewrite G5, G4, G3, G2, G1, !decide_False, Hq0 by done).
  assert (hget t5 head = Some (HN (hprev h) (HNode r) (hkey h) (hvalue h))) as Eh5 by (by rewrite G5, decide_True).
  assert (hsame t0 t5) as S05 by (repeat (eapply hsame_trans; [eassumption|]); by repeat split).
  rewrite Er5; cbn [mbind option_bind hnext].
  assert (exists t6, (if decide (node_ptr xs = HNull) then Some t5 else set_hprev t5 (node_ptr xs) (HNode r)) = Some t6 /\
    hsame t5 t6 /\ (forall b n, HNode b = node_ptr xs -> hget t (HNode b) = Some n ->
       hget t6 (HNode b) = Some (HN (HNode r) (hnext n) (hkey n) (hvalue n))) /\
    forall q, q <> node_ptr xs -> hget t6 q = hget t5 q) as (t6 & -> & S6 & B6 & Q6).
  { destruct xs as [|b xs]; cbn [node_ptr]; [exists t5; by repeat split|].
    rewrite decide_False by done.
    destruct (Hb b eq_refl) as [nb Enb].
    assert (hget t5 (HNode b) = Some nb) as E5 by (rewrite Hq5; [done|by apply not_eq_sym, Hhb|congruence]).
    destruct (set_hprev_spec t5 (HNode b) nb (HNode r) E5) as (t6 & -> & G6 & S6).
    exists t6; split; [done|]; split; [done|]; split.
    - intros c n [= ->] En; rewrite G6, decide_True by done; change (hget t (HNode b) = Some nb) in Enb; congruence.
    - intros q Hq; by rewrite G6, decide_False. }
  cbn [mbind option_bind]; exists t6; split; [done|].
  assert (head <> node_ptr xs) as Hhx by (destruct xs; simpl; [by intros ->|by apply Hhb]).
  assert (HNode r <> node_ptr xs) as Hrx.
  { destruct xs as [|b xs]; simpl; [done|]; intros [= ->]; destruct (Hb b eq_refl); congruence. }
  rewrite !Q6 by done; split; [done|]; split; [done|]; split; [exact B6|].
  split; [intros q H1 H2 H3; rewrite Q6 by done; by apply Hq5|].
  destruct S05 as (T1 & T2 & T3 & T4); destruct S6 as (U1 & U2 & U3 & U4).
  rewrite U1, U2, U3, U4, T1, T2, T3, T4; simpl; by rewrite dom_insert_L.
Qed.
Definition hfreed_key (kf : bool) (k : Z) : list hfreed :=
  if k =? NULL then [] else if kf then [HFreedKey k] else [].
Definition hfreed_value (vf : bool) (v : Z) : list hfreed :=
  if v =? NULL then [] else if vf then [HFreedValue v] else [].

Lemma updated_refl t p n : hget t p = Some n -> updated t t p n.
Proof. intros H; split; [|by repeat split]; intros q; by case_decide; subst. Qed.

Lemma erase_hkey_spec t p n kf : hget t p = Some n ->
  exists t' k, erase_hkey t p kf = Some (hfreed_key kf (hkey n), t') /\
    updated t t' p (HN (hprev n) (hnext n) k (hvalue n)).
Proof.
  intros H; unfold erase_hkey, hfreed_key; rewrite H; cbn [mbind option_bind].
  destruct (hkey n =? NULL); [exists t, (hkey n); split; [done|]; apply updated_refl; by destruct n|].
  destruct (set_hkey_spec t p n NULL H) as (t' & -> & U); exists t', NULL; split; [by destruct kf|done].
Qed.

Lemma erase_hvalue_spec t p n vf : hget t p = Some n ->
  exists t' v, erase_hvalue t p vf = Some (hfreed_value vf (hvalue n), t') /\
    updated t t' p (HN (hprev n) (hnext n) (hkey n) v).
Proof.
  intros H; unfold erase_hvalue, hfreed_value; rewrite H; cbn [mbind option_bind].
  destruct (hvalue n =? NULL); [exists t, (hvalue n); split; [done|]; apply updated_refl; by destruct n|].
  destruct (set_hvalue_spec t p n NULL H) as (t' & -> & U); exists t', NULL; split; [by destruct vf|done].
Qed.

(** The assignments of [remove], and the node freed. *)
Lemma remove_steps t a n p pn zs s kf vf :
  hget t (HNode a) = Some n -> hprev n = p -> hnext n = node_ptr zs ->
  hget t p = Some pn -> p <> HNode a -> p <> node_ptr zs -> HNode a <> node_ptr zs ->
  (forall b, HNode b = node_ptr zs -> is_Some (ht_nodes t !! b)) -> free (ht_pool t) a = Some s ->
  exists t', muggle_hash_table_remove free t (HNode a) kf vf
      = Some (hfreed_key kf (hkey n) ++ hfreed_value vf (hvalue n), t') /\
    hget t' p = Some (HN (hprev pn) (node_ptr zs) (hkey pn) (hvalue pn)) /\
    (forall b m, HNode b = node_ptr zs -> hget t (HNode b) = Some m ->
       hget t' (HNode b) = Some (HN p (hnext m) (hkey m) (hvalue m))) /\
    (forall q, q <> p -> q <> node_ptr zs -> q <> HNode a -> hget t' q = hget t q) /\
    table_size t' = table_size t /\ ht_hash t' = ht_hash t /\ ht_pool t' = s /\
    dom (ht_nodes t') = dom (ht_nodes t) ∖ {[a]}.
Proof.
  intros En Pn Nn Ep Hpa Hpz Haz Hb Hf; unfold muggle_hash_table_remove.
  destruct (erase_hkey_spec t (HNode a) n kf En) as (t1 & k & -> & G1 & S1); cbn [mbind option_bind].
  destruct (erase_hvalue_spec t1 (HNode a) (HN p (node_ptr zs) k (hvalue n)) vf) as (t2 & v & -> & G2 & S2).
  { by rewrite G1, decide_True, Pn, Nn. }
  cbn [mbind option_bind hvalue]; rewrite G2, decide_True by done; cbn [mbind option_bind hprev hnext].
  rewrite decide_False by (intros ->; done).
  destruct (set_hnext_spec t2 p pn (node_ptr zs)) as (t3 & -> & G3 & S3); [by rewrite G2, G1, !decide_False|].
  cbn [mbind option_bind].
  assert (forall q, q <> p -> q <> HNode a -> hget t3 q = hget t q) as Hq3
    by (intros q H1 H2; by rewrite G3, G2, G1, !decide_False).
  assert (exists t4, (if decide (node_ptr zs = HNull) then Some t3 else set_hprev t3 (node_ptr zs) p) = Some t4 /\
    hsame t3 t4 /\ (forall b m, HNode b = node_ptr zs -> hget t (HNode b) = Some m ->
       hget t4 (HNode b) = Some (HN p (hnext m) (hkey m) (hvalue m))) /\
    forall q, q <> node_ptr zs -> hget t4 q = hget t3 q) as (t4 & -> & S4 & B4 & Q4).
  { destruct zs as [|b zs]; cbn [node_ptr] in *; [exists t3; by repeat split|].
    rewrite decide_False by done; destruct (Hb b eq_refl) as [nb Enb].
    assert (hget t3 (HNode b) = Some nb) as E3 by (rewrite Hq3; [done|by apply not_eq_sym|congruence]).
    destruct (set_hprev_spec t3 (HNode b) nb p E3) as (t4 & -> & G4 & S4).
    exists t4; split; [done|]; split; [done|]; split.
    - intros c m [= ->] Em; rewrite G4, decide_True by done; change (hget t (HNode b) = Some nb) in Enb; congruence.
    - intros q Hq; by rewrite G4, decide_False. }
  assert (hsame t t4) as S04 by (repeat (eapply hsame_trans; [eassumption|]); done).
  destruct S04 as (T1 & T2 & T3 & T4); cbn [mbind option_bind free_chain_node]; rewrite T3, Hf; cbn [mbind option_bind].
  set (t5 := HT _ _ _ _ _); exists t5; split; [done|].
  assert (forall q, q <> HNode a -> hget t5 q = hget t4 q) as Q5.
  { intros [|j|b] Hq; simpl; [done|done|]; apply lookup_delete_ne; congruence. }
  split; [by rewrite Q5, Q4, G3, decide_True|].
  split; [intros b m Eb Em; rewrite Q5 by congruence; by apply B4|].
  split; [intros q H1 H2 H3; rewrite Q5, Q4 by done; by apply Hq3|].
  split; [done|]; split; [done|]; split; [done|]; simpl; by rewrite dom_delete_L, T4.
Qed.
End Steps.

(** ** The table as a map *)
Section Map.
Context {S A : Type} (alloc : S -> A -> option (Z * S)) (free : S -> Z -> option S).
Context `{!NodeAllocator S A alloc free} (cmp : Z -> Z -> Z).
Implicit Types (t : muggle_hash_table S) (bs : list (list Z)).

(** [bs] are the addresses of the nodes, chain by chain. *)
Record ht_inv t bs (owned : list Z) : Prop := {
  hi_laws : KeyLaws (ht_hash t) cmp;
  hi_size : 0 < table_size t;
  hi_length : Z.of_nat (length bs) = table_size t;
  hi_chain : forall i xs, bs !! i = Some xs -> chain (hget t) (HHead (Z.of_nat i)) xs;
  hi_nodup : NoDup (concat bs);
  hi_dom : dom (ht_entries t) = list_to_set (concat bs);
  hi_hash : forall i xs a e, bs !! i = Some xs -> a ∈ xs -> ht_entries t !! a = Some e ->
    hash_index t e.1 = Z.of_nat i;
  hi_distinct : forall a b e f, ht_entries t !! a = Some e -> ht_entries t !! b = Some f ->
    cmp e.1 f.1 = 0 -> a = b;
  hi_alloc : na_wf (ht_pool t) (concat bs) owned
}.

Lemma index_bucket t bs owned key : ht_inv t bs owned ->
  exists xs, bs !! Z.to_nat (hash_index t key) = Some xs /\ Z.of_nat (Z.to_nat (hash_index t key)) = hash_index t key.
Proof.
  intros H; pose proof (hi_size _ _ _ H); pose proof (hi_length _ _ _ H).
  assert (0 <= hash_index t key < table_size t) by (unfold hash_index; apply Z.mod_pos_bound; lia).
  destruct (lookup_lt_is_Some_2 bs (Z.to_nat (hash_index t key))) as [xs E1]; [lia|].
  exists xs; split; [done|lia].
Qed.

Lemma entries_lookup t a e : ht_entries t !! a = Some e <->
  exists n, hget t (HNode a) = Some n /\ e = (hkey n, hvalue n).
Proof. unfold ht_entries; rewrite lookup_fmap, fmap_Some; simpl; naive_solver. Qed.

Lemma node_in_dom t bs owned b : ht_inv t bs owned -> b ∈ concat bs <-> is_Some (hget t (HNode b)).
Proof.
  intros H; rewrite <- (elem_of_list_to_set (C := gset Z)), <- (hi_dom _ _ _ H).
  unfold ht_entries; rewrite dom_fmap, elem_of_dom; done.
Qed.

Lemma chain_find_spec fuel t p xs key : chain (hget t) p xs -> (length xs <= fuel)%nat ->
  exists r, chain_find cmp fuel t (node_ptr xs) key = Some r /\
    (r = HNull /\ (forall a e, a ∈ xs -> ht_entries t !! a = Some e -> cmp e.1 key <> 0) \/
     exists a e, r = HNode a /\ a ∈ xs /\ ht_entries t !! a = Some e /\ cmp e.1 key = 0).
Proof.
  revert fuel p; induction xs as [|a xs IH]; intros fuel p Hc Hf.
  { exists HNull; split; [by destruct fuel|]; left; split; [done|set_solver]. }
  destruct fuel as [|fuel]; [simpl in *; lia|]; apply chain_cons in Hc as (_ & (m & Em & _) & Hc).
  pose proof (chain_next _ _ _ Hc) as (n & En & Nn); rewrite Em in En; injection En as <-.
  cbn [node_ptr chain_find]; rewrite decide_False, Em by done; cbn [mbind option_bind].
  pose proof (hget_entry t a m Em) as Ea; destruct (Z.eqb_spec (cmp (hkey m) key) 0) as [E0|N0].
  { exists (HNode a); split; [done|]; right; eexists a, _; split_and!; try done; by left. }
  rewrite Nn; destruct (IH fuel (HNode a) Hc) as (r & E1 & Hr); [simpl in *; lia|].
  exists r; split; [done|]; destruct Hr as [[-> Hr]|(b & e & -> & Hb & E2)].
  - left; split; [done|]; intros b e [->|Hb]%elem_of_cons Eb; [by simplify_eq|by apply (Hr b)].
  - right; exists b, e; split_and!; try done; [by right|apply E2|apply E2].
Qed.

Lemma chain_length t bs owned i xs : ht_inv t bs owned -> bs !! i = Some xs ->
  (length xs <= size (ht_nodes t))%nat.
Proof.
  intros Hinv Exs.
  rewrite <- size_dom, <- (dom_fmap_L (fun n => (hkey n, hvalue n)) (ht_nodes t)); fold (ht_entries t).
  rewrite (hi_dom _ _ _ Hinv), size_list_to_set by apply Hinv.
  apply submseteq_length, NoDup_submseteq; [eapply concat_NoDup; [apply Hinv|done]|].
  intros a Ha; by eapply concat_elem.
Qed.

(** The loop of [find] and [put], on the chain of the key. *)
Lemma lookup_chain t bs owned key : ht_inv t bs owned ->
  exists h r xs, hget t (HHead (hash_index t key)) = Some h /\ hnext h = node_ptr xs /\
    bs !! Z.to_nat (hash_index t key) = Some xs /\
    chain_find cmp (size (ht_nodes t)) t (hnext h) key = Some r /\
    (r = HNull /\ (forall a e, ht_entries t !! a = Some e -> cmp e.1 key <> 0) \/
     exists a e, r = HNode a /\ ht_entries t !! a = Some e /\ cmp e.1 key = 0).
Proof.
  intros Hinv; destruct (index_bucket t bs owned key Hinv) as (xs & Exs & Ei).
  pose proof (hi_chain _ _ _ Hinv _ _ Exs) as Hc; rewrite Ei in Hc.
  destruct (chain_next _ _ _ Hc) as (h & Eh & Nh).
  destruct (chain_find_spec (size (ht_nodes t)) t _ xs key Hc) as (r & E1 & Hr); [by eapply chain_length|].
  rewrite <- Nh in E1; exists h, r, xs; split_and!; try done.
  destruct Hr as [[-> Hr]|(a & e & -> & _ & En & Hn)]; [|right; by exists a, e].
  left; split; [done|]; intros a e Ha H0.
  assert (a ∈ concat bs) as Hin.
  { assert (a ∈ dom (ht_entries t)) as H by (apply elem_of_dom; by eexists).
    rewrite (hi_dom _ _ _ Hinv) in H; set_solver. }
  apply list_elem_of_In, in_concat in Hin as (ys & Hys & Hay); apply list_elem_of_In in Hys, Hay.
  apply list_elem_of_lookup_1 in Hys as [j Ej].
  pose proof (hi_hash _ _ _ Hinv j ys a e Ej Hay Ha) as Hj.
  assert (hash_index t e.1 = hash_index t key) as Heq
    by (unfold hash_index; f_equal; f_equal; by apply (hi_laws _ _ _ Hinv)).
  assert (Z.to_nat (hash_index t key) = j) as <- by (rewrite <- Heq, Hj; lia).
  rewrite Exs in Ej; injection Ej as <-; by apply (Hr a e).
Qed.

(** Chains that none of the changed pointers belongs to: those of the other
    buckets. *)
Lemma chain_elsewhere t t' bs i j xs ys :
  NoDup (concat bs) -> bs !! i = Some xs -> bs !! j = Some ys -> i <> j ->
  (forall q, q <> HHead (Z.of_nat i) -> (forall a, q = HNode a -> a ∈ concat bs /\ a ∉ xs) -> hget t' q = hget t q) ->
  chain (hget t) (HHead (Z.of_nat j)) ys -> chain (hget t') (HHead (Z.of_nat j)) ys.
Proof.
  intros Hnd Hi Hj Hne Hq; apply chain_ext.
  - intros n Hn; exists n; rewrite Hq; [done| |done]; intros [= H]; lia.
  - intros a Ha; apply Hq; [done|]; intros b [= <-]; split; [by eapply concat_elem|].
    intros Hin; by apply Hne, (concat_disjoint bs i j xs ys a).
Qed.

(** One bucket changed, and the entries with it. *)
Lemma inv_update t t' bs owned owned' i xs xs' :
  ht_inv t bs owned -> bs !! i = Some xs ->
  table_size t' = table_size t -> ht_hash t' = ht_hash t ->
  (forall q, q <> HHead (Z.of_nat i) -> (forall a, q = HNode a -> a ∈ concat bs /\ a ∉ xs) -> hget t' q = hget t q) ->
  chain (hget t') (HHead (Z.of_nat i)) xs' ->
  NoDup (concat (<[i:=xs']> bs)) -> dom (ht_entries t') = list_to_set (concat (<[i:=xs']> bs)) ->
  (forall a e, ht_entries t' !! a = Some e ->
     (a ∈ xs' -> hash_index t e.1 = Z.of_nat i) /\ (a ∉ xs' -> ht_entries t !! a = Some e)) ->
  (forall a b e f, ht_entries t' !! a = Some e -> ht_entries t' !! b = Some f -> cmp e.1 f.1 = 0 -> a = b) ->
  na_wf (ht_pool t') (concat (<[i:=xs']> bs)) owned' ->
  ht_inv t' (<[i:=xs']> bs) owned'.
Proof.
  intros Hinv Hi Hsz Hhs Hq Hc Hnd Hdom He Hdis Hwf; split; rewrite ?Hsz, ?Hhs; try apply Hinv; try done.
  - rewrite length_insert; apply Hinv.
  - intros j ys Hj; destruct (decide (i = j)) as [<-|Hne].
    + rewrite list_lookup_insert_eq in Hj by (by eapply lookup_lt_Some); by injection Hj as <-.
    + rewrite list_lookup_insert_ne in Hj by done.
      apply (chain_elsewhere t t' bs i j xs ys); try done; [apply Hinv|by apply (hi_chain _ _ _ Hinv)].
  - intros j ys a e Hj Ha Ee; unfold hash_index; rewrite Hhs, Hsz; fold (hash_index t e.1).
    destruct (He a e Ee) as [H1 H2]; destruct (decide (i = j)) as [<-|Hne].
    + rewrite list_lookup_insert_eq in Hj by (by eapply lookup_lt_Some); injection Hj as <-; auto.
    + assert (a ∉ xs') as Hn.
      { intros Hin; apply Hne, (concat_disjoint (<[i:=xs']> bs) i j xs' ys a); try done.
        apply list_lookup_insert_eq; by eapply lookup_lt_Some. }
      rewrite list_lookup_insert_ne in Hj by done; apply (hi_hash _ _ _ Hinv j ys a e); auto.
Qed.
Lemma node_ptr_elem xs b : HNode b = node_ptr xs -> b ∈ xs.
Proof. destruct xs; simpl; [done|]; intros [= ->]; by left. Qed.

Lemma head_not_node i (xs : list Z) : HHead i ∉ HNode <$> xs.
Proof. rewrite list_elem_of_fmap; by intros (b & [=] & _). Qed.

(** Entries, from the description of the memory after [put] and [remove]. *)
Lemma entries_put t t' xs r head p0 n0 :
  hget t' (HNode r) = Some n0 ->
  (forall b, b ∈ xs -> is_Some (hget t (HNode b))) ->
  (forall b n, HNode b = node_ptr xs -> hget t (HNode b) = Some n ->
     hget t' (HNode b) = Some (HN p0 (hnext n) (hkey n) (hvalue n))) ->
  (forall q, q <> HHead head -> q <> HNode r -> q <> node_ptr xs -> hget t' q = hget t q) ->
  HNode r <> node_ptr xs -> ht_entries t' = <[r := (hkey n0, hvalue n0)]> (ht_entries t).
Proof.
  intros Er Hs Hb Hq Hr; apply map_eq; intros a; destruct (decide (a = r)) as [->|Hne].
  { rewrite lookup_insert_eq; by apply hget_entry. }
  rewrite lookup_insert_ne by done; destruct (decide (HNode a = node_ptr xs)) as [E1|E1].
  - destruct (Hs a (node_ptr_elem _ _ E1)) as [n En].
    by rewrite (hget_entry _ _ _ En), (hget_entry _ _ _ (Hb a n E1 En)).
  - unfold ht_entries; rewrite !lookup_fmap; specialize (Hq (HNode a)); simpl in Hq; rewrite Hq by congruence; done.
Qed.

Definition no_key t (key : Z) : Prop := forall a e, ht_entries t !! a = Some e -> cmp e.1 key <> 0.

Lemma put_inv t t' bs owned owned' xs r key value h :
  ht_inv t bs owned -> bs !! Z.to_nat (hash_index t key) = Some xs -> no_key t key -> r ∉ concat bs ->
  hget t (HHead (hash_index t key)) = Some h ->
  hget t' (HHead (hash_index t key)) = Some (HN (hprev h) (HNode r) (hkey h) (hvalue h)) ->
  hget t' (HNode r) = Some (HN (HHead (hash_index t key)) (node_ptr xs) key value) ->
  (forall b n, HNode b = node_ptr xs -> hget t (HNode b) = Some n ->
     hget t' (HNode b) = Some (HN (HNode r) (hnext n) (hkey n) (hvalue n))) ->
  (forall q, q <> HHead (hash_index t key) -> q <> HNode r -> q <> node_ptr xs -> hget t' q = hget t q) ->
  table_size t' = table_size t -> ht_hash t' = ht_hash t ->
  ht_entries t' = <[r := (key, value)]> (ht_entries t) -> na_wf (ht_pool t') (r :: concat bs) owned' ->
  ht_inv t' (<[Z.to_nat (hash_index t key) := r :: xs]> bs) owned'.
Proof.
  intros Hinv Exs Hnew Hr Eh G1 G2 G3 G4 T1 T2 He Hwf.
  destruct (index_bucket t bs owned key Hinv) as (xs' & Exs' & Ei); rewrite Exs in Exs'; injection Exs' as <-.
  set (i := Z.to_nat (hash_index t key)) in *; rewrite <- Ei in G1, G2, G4, Eh.
  assert (concat (<[i:=r :: xs]> bs) ≡ₚ r :: concat bs) as Hp.
  { apply (Permutation_app_inv_r xs); rewrite (concat_insert bs i xs (r :: xs) Exs); simpl; by rewrite <- Permutation_middle. }
  apply (inv_update t t' bs owned owned' i xs); try done.
  - intros q Hq1 Hq2; destruct (decide (q = HNull)) as [->|Hq3]; [done|]; apply G4; [done| |].
    + intros ->; destruct (Hq2 r eq_refl) as [? _]; done.
    + intros ->; destruct xs as [|b xs]; [done|]; destruct (Hq2 b eq_refl) as [_ []]; by left.
  - apply (chain_push (hget t) _ _ r xs h _ (hi_chain _ _ _ Hinv _ _ Exs)) with (7 := G2); try done.
    + eapply concat_NoDup; [apply Hinv|done].
    + intros Hin; apply Hr; by eapply concat_elem.
    + apply head_not_node.
  - rewrite Hp; apply NoDup_cons; split; [done|apply Hinv].
  - rewrite He, dom_insert_L, (hi_dom _ _ _ Hinv); apply leibniz_equiv; by rewrite Hp.
  - intros b e Hb; rewrite He in Hb; split.
    + intros Hin; destruct (decide (b = r)) as [->|]; [rewrite lookup_insert_eq in Hb; by injection Hb as <-|].
      rewrite lookup_insert_ne in Hb by done; apply (hi_hash _ _ _ Hinv i xs b e Exs); [set_solver|done].
    + intros Hin; rewrite lookup_insert_ne in Hb by set_solver; done.
  - intros b c e f; rewrite He; destruct (decide (b = r)) as [->|], (decide (c = r)) as [->|]; try done;
      rewrite ?lookup_insert_eq, ?lookup_insert_ne by done.
    + intros [= <-] Hc Hcmp; destruct (Hnew c f Hc); by apply (hi_laws _ _ _ Hinv).
    + intros Hb [= <-] Hcmp; by destruct (Hnew b e Hb).
    + apply (hi_distinct _ _ _ Hinv).
  - eapply na_perm; [|exact Hwf]; by rewrite Hp.
Qed.

(** What [put] gives: [NULL] when the key is there or memory is not, and a
    node with the new entry otherwise. *)
Definition put_result t bs (key value : Z) (p : hptr) t' (owned' : list Z) : Prop :=
  (p = HNull /\ t' = t /\ ~ no_key t key) \/
  (p = HNull /\ no_key t key /\ ht_entries t' = ht_entries t /\ ht_inv t' bs owned') \/
  (exists r, p = HNode r /\ no_key t key /\ ht_entries t !! r = None /\
     ht_entries t' = <[r := (key, value)]> (ht_entries t) /\ exists bs', ht_inv t' bs' owned').

Lemma inv_pool t bs owned s owned' : ht_inv t bs owned -> na_wf s (concat bs) owned' ->
  ht_inv (HT (ht_heads t) (table_size t) (ht_hash t) s (ht_nodes t)) bs owned'.
Proof. by intros [? ? ? ? ? ? ? ? ?] ?. Qed.

Lemma hash_put_ok t bs owned key value a :
  ht_inv t bs owned -> na_fresh (ht_pool t) owned a ->
  exists p t' owned', muggle_hash_table_put alloc cmp t key value a = Some (p, t') /\
    put_result t bs key value p t' owned'.
Proof.
  intros Hinv Hfr; destruct (lookup_chain t bs owned key Hinv) as (h & found & xs & Eh & Nh & Exs & E1 & Hf).
  unfold muggle_hash_table_put; rewrite Eh; cbn [mbind option_bind]; rewrite E1; cbn [mbind option_bind].
  destruct Hf as [[-> Hnew]|(b & e & -> & Eb & He)].
  2:{ rewrite decide_False by done; exists HNull, t, owned; split; [done|]; left; split_and!; try done.
      intros Hn; by apply (Hn b e). }
  rewrite decide_True by done.
  destruct (na_alloc_spec _ _ _ a (hi_alloc _ _ _ Hinv) Hfr) as (r & s' & owned' & E2 & Hwf).
  rewrite E2; cbn [mbind option_bind]; destruct (Z.eqb_spec r NULL) as [->|Hn].
  { do 2 eexists; exists owned'; split; [done|]; right; left; split_and!; try done; by eapply inv_pool. }
  assert (r ∉ concat bs) as Hr by (by destruct (na_live _ _ _ Hwf) as [[? _]%NoDup_cons _]).
  assert (forall b, b ∈ xs -> is_Some (hget t (HNode b))) as Hs
    by (intros b Hb; apply (node_in_dom t bs owned b Hinv); by eapply concat_elem).
  assert (HNode r <> node_ptr xs) as Hrx by (intros E3%node_ptr_elem; apply Hr; by eapply concat_elem).
  assert (ht_nodes t !! r = None) as Hr0.
  { destruct (ht_nodes t !! r) eqn:E3; [|done]; destruct Hr; apply (node_in_dom t bs owned r Hinv); by eexists. }
  destruct (put_steps t (HHead (hash_index t key)) h xs r key value s') as (t' & E3 & G1 & G2 & G3 & G4 & T1 & T2 & T3 & T4);
    [done|done|done|done|intros b Hb; by apply Hs, node_ptr_elem|done|].
  cbv zeta in E3 |- *; rewrite E3; exists (HNode r), t', owned'; split; [done|]; right; right; exists r.
  assert (ht_entries t' = <[r := (key, value)]> (ht_entries t)) as He
    by apply (entries_put t t' xs r (hash_index t key) (HNode r) _ G2 Hs G3 G4 Hrx).
  split; [done|]; split; [done|]; split; [unfold ht_entries; by rewrite lookup_fmap, Hr0|]; split; [done|].
  eexists; apply (put_inv t t' bs owned owned' xs r key value h); try done; by rewrite T3.
Qed.
(** The bucket of a node. *)
Lemma entry_bucket t bs owned a e : ht_inv t bs owned -> ht_entries t !! a = Some e ->
  exists i ys zs, bs !! i = Some (ys ++ a :: zs).
Proof.
  intros Hinv He; assert (a ∈ concat bs) as Hin.
  { apply (node_in_dom t bs owned a Hinv); apply entries_lookup in He as (n & En & _); by eexists. }
  apply list_elem_of_In, in_concat in Hin as (xs & Hxs & Ha); apply list_elem_of_In in Hxs, Ha.
  apply list_elem_of_lookup_1 in Hxs as [i Ei]; apply list_elem_of_split in Ha as (ys & zs & ->).
  by exists i, ys, zs.
Qed.

Lemma entries_remove t t' zs a p :
  hget t' (HNode a) = None -> (forall b, b ∈ zs -> is_Some (hget t (HNode b))) ->
  (forall pn, hget t p = Some pn -> hget t' p = Some (HN (hprev pn) (node_ptr zs) (hkey pn) (hvalue pn))) ->
  is_Some (hget t p) ->
  (forall b m, HNode b = node_ptr zs -> hget t (HNode b) = Some m ->
     hget t' (HNode b) = Some (HN p (hnext m) (hkey m) (hvalue m))) ->
  (forall q, q <> p -> q <> node_ptr zs -> q <> HNode a -> hget t' q = hget t q) ->
  ht_entries t' = delete a (ht_entries t).
Proof.
  intros Ea Hs Hp [pn Hpn] Hb Hq; apply map_eq; intros b; destruct (decide (b = a)) as [->|Hne].
  { rewrite lookup_delete_eq; unfold ht_entries; rewrite lookup_fmap; simpl in Ea; by rewrite Ea. }
  rewrite lookup_delete_ne by done; destruct (decide (HNode b = node_ptr zs)) as [E1|E1].
  { destruct (Hs b (node_ptr_elem _ _ E1)) as [n En].
    by rewrite (hget_entry _ _ _ En), (hget_entry _ _ _ (Hb b n E1 En)). }
  destruct (decide (HNode b = p)) as [<-|E2].
  - by rewrite (hget_entry _ _ _ Hpn), (hget_entry _ _ _ (Hp _ Hpn)).
  - unfold ht_entries; rewrite !lookup_fmap; specialize (Hq (HNode b)); simpl in Hq; rewrite Hq by congruence; done.
Qed.

Lemma remove_inv t t' bs owned owned' i ys zs a e :
  ht_inv t bs owned -> bs !! i = Some (ys ++ a :: zs) ->
  chain (hget t') (HHead (Z.of_nat i)) (ys ++ zs) ->
  (forall q, q <> HHead (Z.of_nat i) -> (forall b, q = HNode b -> b ∈ concat bs /\ b ∉ ys ++ a :: zs) ->
     hget t' q = hget t q) ->
  table_size t' = table_size t -> ht_hash t' = ht_hash t ->
  ht_entries t !! a = Some e -> ht_entries t' = delete a (ht_entries t) ->
  (forall live, concat bs ≡ₚ a :: live -> na_wf (ht_pool t') live owned') ->
  ht_inv t' (<[i := ys ++ zs]> bs) owned'.
Proof.
  intros Hinv Hi Hc Hq T1 T2 Ea He Hwf.
  pose proof (concat_remove bs i ys zs a Hi) as Hp.
  pose proof (hi_nodup _ _ _ Hinv) as Hnd; rewrite Hp in Hnd; apply NoDup_cons in Hnd as [Ha Hnd].
  assert (a ∉ ys ++ zs) as Hays.
  { intros Hin; apply Ha; eapply concat_elem; [|exact Hin]; apply list_lookup_insert_eq; by eapply lookup_lt_Some. }
  apply (inv_update t t' bs owned owned' i (ys ++ a :: zs)); try done.
  - rewrite He, dom_delete_L, (hi_dom _ _ _ Hinv); apply leibniz_equiv; rewrite Hp; simpl; set_solver.
  - intros b f Hb; rewrite He in Hb; apply lookup_delete_Some in Hb as [Hne Hb]; split; [|done].
    intros Hin; apply (hi_hash _ _ _ Hinv i _ b f Hi); [set_solver|done].
  - intros b c f g; rewrite He; intros [_ Hb]%lookup_delete_Some [_ Hg]%lookup_delete_Some.
    by apply (hi_distinct _ _ _ Hinv).
  - by apply Hwf.
Qed.

Lemma hash_remove_ok t bs owned i ys zs a e kf vf :
  ht_inv t bs owned -> bs !! i = Some (ys ++ a :: zs) -> ht_entries t !! a = Some e ->
  exists t' owned', muggle_hash_table_remove free t (HNode a) kf vf
      = Some (hfreed_key kf e.1 ++ hfreed_value vf e.2, t') /\
    ht_entries t' = delete a (ht_entries t) /\ table_size t' = table_size t /\
    ht_inv t' (<[i := ys ++ zs]> bs) owned'.
Proof.
  intros Hinv Hi He; apply entries_lookup in He as He'; destruct He' as (n & En & ->); cbn [fst snd].
  pose proof (hi_chain _ _ _ Hinv _ _ Hi) as Hc; pose proof (concat_NoDup _ _ _ (hi_nodup _ _ _ Hinv) Hi) as Hnd.
  set (p := last_of (HHead (Z.of_nat i)) ys).
  pose proof (proj1 (chain_app _ _ _ _) Hc) as [_ Hc2]; fold p in Hc2.
  apply chain_cons in Hc2 as ((pn & Epn & _) & (n' & En' & Pn) & Hc3); rewrite En in En'; injection En' as <-.
  destruct (chain_next _ _ _ Hc3) as (n' & En' & Nn); rewrite En in En'; injection En' as <-.
  apply NoDup_app in Hnd as (Hys & Hdis & Hnd); apply NoDup_cons in Hnd as [Hazs Hzs].
  assert (forall b, p = HNode b -> b ∈ ys) as Hpys.
  { unfold p, last_of; destruct (last ys) as [c|] eqn:El; [|done]; intros b [= ->].
    apply last_Some in El as [l ->]; set_solver. }
  assert (p <> HNode a) as Hpa by (intros E1%Hpys; apply (Hdis _ E1); by left).
  assert (p <> node_ptr zs) as Hpz.
  { intros E1; destruct zs as [|b zs]; simpl in E1; [by rewrite E1 in Epn|]; apply Hpys in E1.
    apply (Hdis _ E1); set_solver. }
  assert (forall b, b ∈ ys ++ a :: zs -> is_Some (hget t (HNode b))) as Hs
    by (intros b Hb; apply (node_in_dom t bs owned b Hinv); by eapply concat_elem).
  pose proof (concat_remove bs i ys zs a Hi) as Hp.
  destruct (na_free_spec _ _ _ _ a (hi_alloc _ _ _ Hinv) Hp) as (s & owned' & Hfree & Hwf).
  destruct (remove_steps free t a n p pn zs s kf vf) as (t' & E1 & G1 & G2 & G3 & T1 & T2 & T3 & T4); try done.
  { intros E1%node_ptr_elem; done. }
  { intros b E1%node_ptr_elem; apply (Hs b); set_solver. }
  exists t', owned'; split; [exact E1|].
  assert (hget t' (HNode a) = None) as Ea' by (simpl; apply not_elem_of_dom; rewrite T4; set_solver).
  assert (ht_entries t' = delete a (ht_entries t)) as He'.
  { apply (entries_remove t t' zs a p); try done; [intros b Hb; apply Hs; set_solver|].
    intros pn' E2; rewrite Epn in E2; by injection E2 as <-. }
  split; [done|]; split; [done|]; apply (remove_inv t t' bs owned owned' i ys zs a (hkey n, hvalue n)); try done.
  - apply (chain_remove (hget t) _ _ a ys zs pn Hc); try done; [|apply head_not_node].
    eapply concat_NoDup; [apply Hinv|done].
  - intros q Hq1 Hq2; destruct (decide (q = HNull)) as [->|Hq3]; [done|]; apply G3.
    + intros ->; destruct p as [|j|b] eqn:Ep; [done| |destruct (Hq2 b eq_refl) as [_ []]; specialize (Hpys b eq_refl); set_solver].
      unfold p, last_of in Ep; destruct (last ys); [done|]; by injection Ep as <-.
    + intros ->; destruct zs as [|b zs]; [done|]; destruct (Hq2 b eq_refl) as [_ []]; set_solver.
    + intros ->; destruct (Hq2 a eq_refl) as [_ []]; set_solver.
  - intros live Hl; rewrite T3; eapply na_perm; [|exact Hwf].
    apply (Permutation_cons_inv (a := a)); by rewrite <- Hp, Hl.
Qed.
(** What is freed with the entries of a map. *)
Definition hfreed_entries (kf vf : bool) (m : gmap Z (Z * Z)) : list hfreed :=
  map_to_list m ≫= fun '(_, e) => hfreed_key kf e.1 ++ hfreed_value vf e.2.

Lemma hfreed_delete kf vf m a e : m !! a = Some e ->
  hfreed_entries kf vf m ≡ₚ (hfreed_key kf e.1 ++ hfreed_value vf e.2) ++ hfreed_entries kf vf (delete a m).
Proof. intros H; unfold hfreed_entries; by rewrite <- (map_to_list_delete m a e H). Qed.

Lemma clear_chain_ok fuel t bs owned i xs kf vf :
  ht_inv t bs owned -> bs !! i = Some xs -> (length xs <= fuel)%nat ->
  exists tr t' owned', clear_chain free fuel t (node_ptr xs) kf vf = Some (tr, t') /\
    hfreed_entries kf vf (ht_entries t) ≡ₚ tr ++ hfreed_entries kf vf (ht_entries t') /\
    table_size t' = table_size t /\ ht_inv t' (<[i := []]> bs) owned'.
Proof.
  revert fuel t bs owned; induction xs as [|a xs IH]; intros fuel t bs owned Hinv Hi Hf.
  { exists [], t, owned; split; [by destruct fuel|]; split; [done|]; split; [done|]; by rewrite list_insert_id. }
  destruct fuel as [|fuel]; [simpl in *; lia|]; cbn [node_ptr clear_chain]; rewrite decide_False by done.
  pose proof (hi_chain _ _ _ Hinv _ _ Hi) as Hc; apply chain_cons in Hc as (_ & (n & En & _) & Hc).
  destruct (chain_next _ _ _ Hc) as (n' & En' & Nn); rewrite En in En'; injection En' as <-.
  rewrite En; cbn [mbind option_bind]; rewrite Nn; pose proof (hget_entry _ _ _ En) as He.
  destruct (hash_remove_ok t bs owned i [] xs a _ kf vf Hinv Hi He) as (t1 & o1 & -> & E1 & T1 & Hinv1).
  cbn [mbind option_bind app] in *.
  destruct (IH fuel t1 (<[i:=xs]> bs) o1 Hinv1) as (tr & t2 & o2 & -> & E2 & T2 & Hinv2);
    [apply list_lookup_insert_eq; by eapply lookup_lt_Some|simpl in *; lia|].
  cbn [mbind option_bind]; eexists _, t2, o2; split; [done|]; split; [|split; [congruence|]].
  - rewrite (hfreed_delete kf vf _ _ _ He), <- E1, E2; by rewrite <- !app_assoc.
  - by rewrite list_insert_insert_eq in Hinv2.
Qed.

Lemma hash_clear_ok t bs owned kf vf :
  ht_inv t bs owned ->
  exists tr t' bs' owned', muggle_hash_table_clear free t kf vf = Some (tr, t') /\
    tr ≡ₚ hfreed_entries kf vf (ht_entries t) /\ ht_entries t' = ∅ /\ ht_inv t' bs' owned' /\ concat bs' = [].
Proof.
  intros Hinv; pose proof (hi_size _ _ _ Hinv) as Hsz; unfold muggle_hash_table_clear.
  destruct (for_up_inv (fun i '(tr, t) =>
      head ← hget t (HHead i);
      '(tr', t) ← clear_chain free (size (ht_nodes t)) t (hnext head) kf vf;
      Some (tr ++ tr', t))
    (fun i '(tr, t') => table_size t' = table_size t /\ exists bs' owned', ht_inv t' bs' owned' /\
      (forall j xs, Z.of_nat j < i -> bs' !! j = Some xs -> xs = []) /\
      hfreed_entries kf vf (ht_entries t) ≡ₚ tr ++ hfreed_entries kf vf (ht_entries t'))
    (Z.to_nat (table_size t)) 0 ([], t)) as ([tr t'] & E1 & T1 & bs' & o' & Hinv' & Hnil & Hp).
  - split; [done|]; exists bs, owned; split; [done|]; split; [intros; lia|done].
  - intros i [tr t1] Hi (T1 & bs1 & o1 & Hinv1 & Hnil & Hp).
    pose proof (hi_length _ _ _ Hinv1) as Hlen.
    destruct (lookup_lt_is_Some_2 bs1 (Z.to_nat i)) as [xs Hxs]; [lia|].
    pose proof (hi_chain _ _ _ Hinv1 _ _ Hxs) as Hc; rewrite Z2Nat.id in Hc by lia.
    destruct (chain_next _ _ _ Hc) as (h & Eh & Nh); rewrite Eh; cbn [mbind option_bind]; rewrite Nh.
    destruct (clear_chain_ok (size (ht_nodes t1)) t1 bs1 o1 (Z.to_nat i) xs kf vf Hinv1 Hxs)
      as (tr' & t2 & o2 & -> & Hp2 & T2 & Hinv2); [by eapply chain_length|].
    cbn [mbind option_bind]; eexists; split; [done|]; split; [congruence|].
    exists (<[Z.to_nat i:=[]]> bs1), o2; split; [done|]; split; [|by rewrite Hp, Hp2, app_assoc].
    intros j ys Hj Hys; destruct (decide (Z.to_nat i = j)) as [<-|Hne].
    + rewrite list_lookup_insert_eq in Hys by (by eapply lookup_lt_Some); by injection Hys.
    + rewrite list_lookup_insert_ne in Hys by done; apply (Hnil j ys); [lia|done].
  - rewrite E1; assert (concat bs' = []) as Hcc.
    { apply concat_nil_Forall, Forall_lookup; intros j xs Hj; apply (Hnil j xs); [|done].
      apply lookup_lt_Some in Hj; pose proof (hi_length _ _ _ Hinv'); lia. }
    assert (ht_entries t' = ∅) as He
      by (apply dom_empty_inv_L; rewrite (hi_dom _ _ _ Hinv'), Hcc; done).
    exists tr, t', bs', o'; split; [done|]; split; [|done].
    rewrite Hp, He; unfold hfreed_entries; rewrite map_to_list_empty; simpl; by rewrite app_nil_r.
Qed.
End Map.

(** ** Tables over a memory pool or [malloc] *)

Abbreviation pool_table := (muggle_hash_table (option muggle_memory_pool)).

Definition pool_table_ok (debug : bool) (cmp : Z -> Z -> Z) (t : pool_table) (owned : list Z) : Prop :=
  exists bs, ht_inv (node_alloc debug) node_free cmp t bs owned.

(** The table that [init] leaves. *)
Lemma fresh_table_ok debug cmp hash pool n owned :
  KeyLaws hash cmp -> 0 < n -> node_wf pool [] owned ->
  pool_table_ok debug cmp (HT (replicate (Z.to_nat n) (HN HNull HNull NULL NULL)) n hash pool ∅) owned.
Proof.
  intros Hl Hn Hw; exists (replicate (Z.to_nat n) []).
  assert (concat (replicate (Z.to_nat n) ([] : list Z)) = []) as Hc
    by (induction (Z.to_nat n); [done|simpl; done]).
  split; rewrite ?Hc; cbn [ht_hash table_size ht_pool]; try done.
  - rewrite length_replicate; lia.
  - intros i xs [-> Hi]%lookup_replicate; split; [done|]; exists (HN HNull HNull NULL NULL); split; [|done]; cbn.
    rewrite rd_nat, lookup_replicate_2 by done; done.
  - constructor.
Qed.

(** [init] succeeds exactly when the capacity is valid and all allocations
    succeed, and gives an empty table. *)
Lemma hash_init_ok debug str t0 n hash cmp capacity p nodes a :
  (forall h, hash = Some h -> KeyLaws h cmp) -> (forall a b, cmp a b = 0 <-> str a = str b) \/ hash <> None ->
  0 <= n < 2 ^ 59 -> 0 <= capacity < 2 ^ 64 -> 0 < ma_data a \/ ma_data a = NULL ->
  exists ok t, muggle_hash_table_init str t0 n hash true capacity p nodes a = Some (ok, t) /\
    (ok = true <-> nodes = true /\ (capacity = 0 \/
       (capacity < 2 ^ 31 /\ p = true /\ ma_bufs a = true /\ ma_ptr a = true /\ ma_data a <> NULL))) /\
    (ok = true -> exists owned, pool_table_ok debug cmp t owned /\ ht_entries t = ∅ /\ 8 <= table_size t).
Proof.
  intros Hh Hstr Hn Hc Hd; unfold muggle_hash_table_init; cbn [negb].
  set (size := if n <? 8 then _ else n); assert (8 <= size < 2 ^ 59) as Hsz
    by (unfold size, MUGGLE_HASH_TABLE_SIZE_10007; destruct (Z.ltb_spec n 8); lia).
  assert (forall hash', KeyLaws hash' cmp -> forall pool owned, node_wf pool [] owned ->
    exists owned, pool_table_ok debug cmp (HT (replicate (Z.to_nat size) (HN HNull HNull NULL NULL)) size hash' pool ∅) owned /\
      ht_entries (HT (replicate (Z.to_nat size) (HN HNull HNull NULL NULL)) size hash' pool ∅) = ∅ /\ 8 <= size) as Hok.
  { intros hash' Hl pool owned Hw; exists owned; split; [apply fresh_table_ok; [done|lia|done]|].
    split; [apply fmap_empty|lia]. }
  assert (KeyLaws (match hash with None => s_muggle_default_str_hash_func str | Some h => h end) cmp) as Hl.
  { destruct hash as [h|]; [by apply Hh|]; destruct Hstr as [Hs|]; [by apply default_hash_laws|done]. }
  replace (u64 (sizeof_hash_node * size) =? sizeof_hash_node * size) with true
    by (unfold sizeof_hash_node; rewrite wrap_small; [lia|unfold in_width; lia]); cbn [negb].
  destruct (Z.gtb_spec capacity 0) as [Hpos|Hz]; cbn [mbind option_bind].
  2:{ assert (capacity = 0) as -> by lia; destruct nodes; cbn [negb]; do 2 eexists; (split; [done|]); split.
      - split; auto.
      - intros _; apply (Hok _ Hl None []); split; [done|split; constructor].
      - split; [done|]; intros [? _]; done.
      - done. }
  pose proof (ds_cap_valid_spec capacity Hc) as Hv.
  destruct (MUGGLE_DS_CAP_IS_VALID capacity); cbn [negb mbind option_bind].
  2:{ do 2 eexists; split; [done|]; split; [|done].
      split; [done|]; intros [_ [->|[H _]]]; [done|by apply Hv in H]. }
  destruct p; cbn [negb mbind option_bind].
  2:{ do 2 eexists; split; [done|]; split; [|done]; split; [done|]; intros [_ [->|(_ & H & _)]]; done. }
  assert (capacity < 2 ^ 31) as Hlt by (by apply Hv).
  rewrite (wrap_small 32) by (unfold in_width; lia).
  destruct (init_outcome a capacity sizeof_hash_node) as (ok & q & -> & Hiff & _ & Hq);
    [lia|done|]; cbn [mbind option_bind].
  assert (ok = true <-> ma_bufs a = true /\ ma_ptr a = true /\ ma_data a <> NULL) as Hiff'
    by (rewrite Hiff; unfold sizeof_hash_node; split; [intros (_ & H); done|intros H; by split]).
  destruct ok; cbn [negb].
  2:{ do 2 eexists; split; [done|]; split; [|done]; split; [done|]; intros [_ [->|(_ & _ & H)]]; [done|by apply Hiff']. }
  destruct (Hq eq_refl ltac:(done)) as (_ & _ & _ & Hwf); destruct nodes; cbn [negb].
  - do 2 eexists; split; [done|]; split; [|intros _; by eapply Hok].
    split; [|done]; intros _; split; [done|]; right; split; [done|]; split; [done|]; by apply Hiff'.
  - destruct Hwf as (F & Hinv & _); destruct (destroy_outcome q F Hinv) as (bufs & _ & ->).
    do 2 eexists; split; [done|]; split; [split; [done|by intros [? _]]|done].
Qed.

Lemma hash_destroy_ok debug cmp t owned kf vf :
  pool_table_ok debug cmp t owned ->
  exists tr t', muggle_hash_table_destroy t kf vf = Some (tr, t') /\
    tr ≡ₚ hfreed_entries kf vf (ht_entries t) /\ ht_entries t' = ∅.
Proof.
  intros [bs Hinv]; unfold muggle_hash_table_destroy.
  destruct (hash_clear_ok (node_alloc debug) node_free cmp t bs owned kf vf Hinv)
    as (tr & t1 & bs1 & o1 & -> & Htr & He & Hinv1 & Hc).
  pose proof (hi_alloc _ _ _ _ _ _ Hinv1) as Hw; rewrite Hc in Hw.
  cbn [mbind option_bind]; destruct (ht_pool t1) as [p|] eqn:Ep; [|by do 2 eexists].
  destruct Hw as (F & Hi & _); destruct (destroy_outcome p F Hi) as (bufs & _ & ->); by do 2 eexists.
Qed.

(** ** Properties *)

(** C6: the hash table implements a map.  For every table whose hash function
    gives equal keys the same value, with any answers of the allocator that
    are not memory in use, and without a fault: no two entries have equal keys;
    [find] returns the node of the entry with the key, or [NULL] when there is
    none; [put] returns [NULL] and changes nothing when the key is there, and
    otherwise adds the entry in a node that was not in use, or returns [NULL]
    without memory; [remove] deletes exactly the entry of its node and frees its
    key and value; [clear] frees all keys and values and leaves an empty
    table; [destroy] does so and frees the pool.  Every resulting table is
    again well formed, and the entries of the others stay in their nodes. *)
Theorem hash_table_refines_map debug cmp t owned (Hok : pool_table_ok debug cmp t owned) :
  (forall a b e f, ht_entries t !! a = Some e -> ht_entries t !! b = Some f -> cmp e.1 f.1 = 0 -> a = b) /\
  (forall key, exists p, muggle_hash_table_find cmp t key = Some p /\
     (p = HNull /\ (forall a e, ht_entries t !! a = Some e -> cmp e.1 key <> 0) \/
      exists a e, p = HNode a /\ ht_entries t !! a = Some e /\ cmp e.1 key = 0)) /\
  (forall key value a, node_fresh (ht_pool t) owned a ->
     exists p t' owned', muggle_hash_table_put (node_alloc debug) cmp t key value a = Some (p, t') /\
     ((p = HNull /\ t' = t /\ exists a e, ht_entries t !! a = Some e /\ cmp e.1 key = 0) \/
      ((forall a e, ht_entries t !! a = Some e -> cmp e.1 key <> 0) /\ pool_table_ok debug cmp t' owned' /\
       (p = HNull /\ ht_entries t' = ht_entries t \/
        exists r, p = HNode r /\ ht_entries t !! r = None /\
          ht_entries t' = <[r := (key, value)]> (ht_entries t))))) /\
  (forall a e kf vf, ht_entries t !! a = Some e ->
     exists t' owned', muggle_hash_table_remove node_free t (HNode a) kf vf
       = Some (hfreed_key kf e.1 ++ hfreed_value vf e.2, t') /\
       ht_entries t' = delete a (ht_entries t) /\ pool_table_ok debug cmp t' owned') /\
  (forall kf vf, exists tr t' owned', muggle_hash_table_clear node_free t kf vf = Some (tr, t') /\
     tr ≡ₚ hfreed_entries kf vf (ht_entries t) /\ ht_entries t' = ∅ /\ pool_table_ok debug cmp t' owned') /\
  (forall kf vf, exists tr t', muggle_hash_table_destroy t kf vf = Some (tr, t') /\
     tr ≡ₚ hfreed_entries kf vf (ht_entries t) /\ ht_entries t' = ∅).
Proof.
  pose proof Hok as [bs Hinv]; split; [apply (hi_distinct _ _ _ _ _ _ Hinv)|].
  split; [|split; [|split; [|split]]].
  - intros key; destruct (lookup_chain _ _ cmp t bs owned key Hinv) as (h & r & xs & Eh & _ & _ & E1 & Hr).
    unfold muggle_hash_table_find; rewrite Eh; exists r; by split.
  - intros key value a Hfr; destruct (hash_put_ok (node_alloc debug) node_free cmp t bs owned key value a Hinv Hfr)
      as (p & t' & o' & E1 & Hp); exists p, t', o'; split; [done|].
    destruct Hp as [(-> & -> & Hk)|[(-> & Hk & He & Hi)|(r & -> & Hk & Hr & He & bs' & Hi)]].
    + left; split; [done|]; split; [done|].
      destruct (lookup_chain _ _ cmp t bs owned key Hinv) as (h & q & xs & _ & _ & _ & _ & [[_ Hn]|(b & e & _ & H)]);
        [by destruct Hk|by exists b, e].
    + right; split; [done|]; split; [by exists bs|by left].
    + right; split; [done|]; split; [by exists bs'|right; by exists r].
  - intros a e kf vf He; destruct (entry_bucket _ _ _ _ _ _ _ _ Hinv He) as (i & ys & zs & Hi).
    destruct (hash_remove_ok (node_alloc debug) node_free cmp t bs owned i ys zs a e kf vf Hinv Hi He)
      as (t' & o' & E1 & E2 & _ & Hinv'); exists t', o'; split; [done|]; split; [done|by eexists].
  - intros kf vf; destruct (hash_clear_ok (node_alloc debug) node_free cmp t bs owned kf vf Hinv)
      as (tr & t' & bs' & o' & E1 & Htr & He & Hinv' & _); exists tr, t', o'; split_and!; try done; by eexists.
  - intros kf vf; by apply (hash_destroy_ok debug cmp t owned).
Qed.

(** Keys compared and hashed as numbers. *)
#[global] Instance number_keys : KeyLaws (fun k => k) Z.sub.
Proof. split; intros; lia. Qed.

Definition sample_table : pool_table := HT (replicate 8 (HN HNull HNull NULL NULL)) 8 (fun k => k) None ∅.

Lemma hash_table_refines_map_witness :
  exists p t' owned', muggle_hash_table_put (node_alloc false) Z.sub sample_table 5 50 (NA 1000 no_memory) = Some (p, t') /\
    ((p = HNull /\ t' = sample_table /\ exists a e, ht_entries sample_table !! a = Some e /\ e.1 - 5 = 0) \/
     ((forall a e, ht_entries sample_table !! a = Some e -> e.1 - 5 <> 0) /\ pool_table_ok false Z.sub t' owned' /\
      (p = HNull /\ ht_entries t' = ht_entries sample_table \/
       exists r, p = HNode r /\ ht_entries sample_table !! r = None /\
         ht_entries t' = <[r := (5, 50)]> (ht_entries sample_table)))).
Proof.
  refine (proj1 (proj2 (proj2 (hash_table_refines_map false Z.sub sample_table [] _))) 5 50 (NA 1000 no_memory) _).
  - apply (fresh_table_ok false Z.sub (fun k => k) None 8 []); [apply number_keys|lia|]; split; [done|split; constructor].
  - right; split; [vm_compute; done|set_solver].
Defined.
