(* ===== verification/Trie.v ===== *)
(** * The trie: [dsaa/trie.c]

    Nodes with an array of 256 children and a data pointer; the root is part
    of the trie, the others come from a memory pool or from [malloc].  A key
    is the list of the values [(int)( *p)] of its characters, without the
    terminating zero: the characters index the children, so that a negative
    one (a byte above 127, where [char] is signed) leaves the array. *)
From S2P Require Import Prelude Utils MemoryPool Nodes.

Inductive tptr := TNull | TRoot | TNode (a : Z).

#[global] Instance tptr_eq_dec : EqDecision tptr.
Proof. solve_decision. Defined.

Record muggle_trie_node := TRN { tn_children : list tptr; tn_data : Z }.

(** [tr_nodes] is the memory of the nodes that are allocated and not freed. *)
Record muggle_trie (S : Type) := TR { tr_root : muggle_trie_node; tr_pool : S; tr_nodes : gmap Z muggle_trie_node }.
Arguments TR {S}. Arguments tr_root {S}. Arguments tr_pool {S}. Arguments tr_nodes {S}.

Definition MUGGLE_TRIE_CHILDREN_SIZE : Z := 256.

(** [memset(node, 0, sizeof( *node))]. *)
Definition zero_node : muggle_trie_node := TRN (replicate (Z.to_nat MUGGLE_TRIE_CHILDREN_SIZE) TNull) NULL.

Section Operations.
Context {S A : Type} (alloc : S -> A -> option (Z * S)) (free : S -> Z -> option S).
Abbreviation trie := (muggle_trie S).
Implicit Types t : trie.

Definition tget t (p : tptr) : option muggle_trie_node :=
  match p with TNull => None | TRoot => Some (tr_root t) | TNode a => tr_nodes t !! a end.

Definition tput t (p : tptr) (n : muggle_trie_node) : option trie :=
  match p with
  | TNull => None
  | TRoot => Some (TR n (tr_pool t) (tr_nodes t))
  | TNode a => _ ← tr_nodes t !! a; Some (TR (tr_root t) (tr_pool t) (<[a := n]> (tr_nodes t)))
  end.

Definition set_child t (p : tptr) (c : Z) (x : tptr) : option trie :=
  n ← tget t p; ch ← wr (tn_children n) c x; tput t p (TRN ch (tn_data n)).
Definition set_tdata t (p : tptr) (x : Z) : option trie :=
  n ← tget t p; tput t p (TRN (tn_children n) x).

Definition muggle_trie_allocate_node t (a : A) : option (tptr * trie) :=
  '(r, s) ← alloc (tr_pool t) a;
  if r =? NULL then Some (TNull, TR (tr_root t) s (tr_nodes t))
  else Some (TNode r, TR (tr_root t) s (<[r := zero_node]> (tr_nodes t))).

(** The end of [erase_node]: the node goes back to where it came from. *)
Definition free_node t (p : tptr) : option trie :=
  match p with
  | TNode a => s ← free (tr_pool t) a; Some (TR (tr_root t) s (delete a (tr_nodes t)))
  | _ => None
  end.

(** [ff] tells whether [func_free] is given; the result lists what it frees.
    The data is erased within the loop, after the first child. *)
Fixpoint muggle_trie_erase_node (fuel : nat) t (node : tptr) (ff : bool) : option (list Z * trie) :=
  match fuel with
  | O => None
  | Datatypes.S fuel =>
      '(tr, t) ← for_up (fun i '(tr, t) =>
        n ← tget t node;
        child ← rd (tn_children n) i;
        '(tr', t) ← (if decide (child = TNull) then Some ([], t) else muggle_trie_erase_node fuel t child ff);
        n ← tget t node;
        if tn_data n =? NULL then Some (tr ++ tr', t)
        else
          t ← set_tdata t node NULL;
          Some (tr ++ tr' ++ (if ff then [tn_data n] else []), t))
        (Z.to_nat MUGGLE_TRIE_CHILDREN_SIZE) 0 ([], t);
      t ← free_node t node;
      Some (tr, t)
  end.

(** The loop of [find] over the characters. *)
Fixpoint find_loop t (node : tptr) (p : list Z) : option tptr :=
  match p with
  | [] => Some node
  | c :: p =>
      n ← tget t node;
      node ← rd (tn_children n) c;
      if decide (node = TNull) then Some TNull else find_loop t node p
  end.

Definition muggle_trie_find t (key : list Z) : option tptr :=
  match key with
  | [] => n ← tget t TRoot; rd (tn_children n) 0
  | _ => find_loop t TRoot key
  end.

(** The loop of [insert]; [ans] are the answers to its allocations. *)
Fixpoint insert_loop t (node child : tptr) (p : list Z) (ans : list A) : option (bool * tptr * trie) :=
  match p with
  | [] => Some (true, child, t)
  | c :: p =>
      n ← tget t node;
      child ← rd (tn_children n) c;
      if decide (child = TNull) then
        match ans with
        | [] => None
        | a :: ans =>
            '(child, t) ← muggle_trie_allocate_node t a;
            if decide (child = TNull) then Some (false, TNull, t)
            else t ← set_child t node c child; insert_loop t child child p ans
        end
      else insert_loop t child child p ans
  end.

Definition muggle_trie_insert t (key : list Z) (value : Z) (ans : list A) : option (tptr * trie) :=
  match key with
  | [] =>
      n ← tget t TRoot;
      child ← rd (tn_children n) 0;
      if decide (child = TNull) then
        match ans with
        | [] => None
        | a :: _ =>
            '(child, t) ← muggle_trie_allocate_node t a;
            if decide (child = TNull) then Some (TNull, t)
            else
              t ← set_tdata t child value;
              t ← set_child t TRoot 0 child;
              Some (child, t)
        end
      else t ← set_tdata t child value; Some (child, t)
  | _ =>
      '(ok, child, t) ← insert_loop t TRoot TNull key ans;
      if negb ok then Some (TNull, t)
      else if decide (child = TNull) then Some (child, t)
      else t ← set_tdata t child value; Some (child, t)
  end.

Definition muggle_trie_remove t (key : list Z) (ff : bool) : option (bool * list Z * trie) :=
  node ← muggle_trie_find t key;
  if decide (node = TNull) then Some (false, [], t)
  else
    n ← tget t node;
    t ← set_tdata t node NULL;
    Some (true, if ff then [tn_data n] else [], t).

(** The loop of [destroy] over the children of the root. *)
Definition muggle_trie_clear t (ff : bool) : option (list Z * trie) :=
  for_up (fun i '(tr, t) =>
    n ← tget t TRoot;
    child ← rd (tn_children n) i;
    if decide (child = TNull) then Some (tr, t)
    else
      '(tr', t) ← muggle_trie_erase_node (Datatypes.S (size (tr_nodes t))) t child ff;
      Some (tr ++ tr', t))
    (Z.to_nat MUGGLE_TRIE_CHILDREN_SIZE) 0 ([], t).
End Operations.

(** [sizeof(muggle_trie_node_t)] on a 64-bit host. *)
Definition sizeof_trie_node : Z := 2056.

(** [p] tells whether the [malloc] of the pool succeeds. *)
Definition muggle_trie_init (capacity : Z) (p : bool) (a : mem_answers)
  : option (bool * muggle_trie (option muggle_memory_pool)) :=
  if capacity >? 0 then
    if negb (MUGGLE_DS_CAP_IS_VALID capacity) then Some (false, TR zero_node None ∅)
    else if negb p then Some (false, TR zero_node None ∅)
    else
      '(ok, q) ← muggle_memory_pool_init a (u32 capacity) sizeof_trie_node;
      Some (ok, TR zero_node (Some q) ∅)
  else Some (true, TR zero_node None ∅).

Definition muggle_trie_destroy (t : muggle_trie (option muggle_memory_pool)) (ff : bool)
  : option (list Z * muggle_trie (option muggle_memory_pool)) :=
  '(tr, t) ← muggle_trie_clear node_free t ff;
  match tr_pool t with
  | Some p => '(_, p) ← muggle_memory_pool_destroy p; Some (tr, TR (tr_root t) (Some p) (tr_nodes t))
  | None => Some (tr, t)
  end.

(** ** Memory *)
Section Memory.
Context {S : Type}.
Implicit Types t : muggle_trie S.

Definition tsame t t' : Prop := tr_pool t' = tr_pool t /\ dom (tr_nodes t') = dom (tr_nodes t).

Lemma tput_spec t p n n0 : tget t p = Some n0 ->
  exists t', tput t p n = Some t' /\ (forall q, tget t' q = if decide (q = p) then Some n else tget t q) /\ tsame t t'.
Proof.
  destruct p as [| |a]; simpl; intros Hp; [done| |].
  - eexists; split; [done|]; split; [|done]; intros [| |b]; simpl; try case_decide; done.
  - rewrite Hp; simpl; eexists; split; [done|]; split.
    + intros [| |b]; simpl; [done|done|]; case_decide as Hb.
      * injection Hb as ->; apply lookup_insert_eq.
      * apply lookup_insert_ne; congruence.
    + split; [done|]; simpl; apply dom_insert_lookup_L; eauto.
Qed.
End Memory.

(** ** Paths

    The nodes of a trie are described by the map from their paths to their
    addresses ([shape]); [M] has the nodes that are still allocated, with
    their data.  The children of a node follow the shape. *)
Section Paths.
Implicit Types (P : gmap (list Z) Z) (M : gmap (list Z) (Z * Z)) (q r : list Z).

Record shape P : Prop := {
  sh_root : P !! [] = None;
  sh_prefix : forall q c, is_Some (P !! (q ++ [c])) -> q = [] \/ is_Some (P !! q);
  sh_char : forall q c, is_Some (P !! (q ++ [c])) -> 0 <= c < MUGGLE_TRIE_CHILDREN_SIZE;
  sh_inj : forall q r a, P !! q = Some a -> P !! r = Some a -> q = r
}.

Definition child_of P q (c : Z) : tptr := match P !! (q ++ [c]) with Some a => TNode a | None => TNull end.

Definition kids_ok P q (ch : list tptr) : Prop :=
  Z.of_nat (length ch) = MUGGLE_TRIE_CHILDREN_SIZE /\
  forall c, 0 <= c < MUGGLE_TRIE_CHILDREN_SIZE -> rd ch c = Some (child_of P q c).

Definition node_at M q (p : tptr) : Prop :=
  (q = [] /\ p = TRoot) \/ exists a d, M !! q = Some (a, d) /\ p = TNode a.

(** A path that is not there has no extension. *)
Lemma absent_ext P q r : shape P -> q <> [] -> P !! q = None -> P !! (q ++ r) = None.
Proof.
  intros Hs Hne Hq; induction r as [|c r IH] using rev_ind; [by rewrite app_nil_r|].
  destruct (P !! (q ++ r ++ [c])) eqn:E; [|done]; rewrite app_assoc in E.
  destruct (sh_prefix _ Hs (q ++ r) c) as [H|[b Hb]]; [by eexists|by destruct q|congruence].
Qed.

(** The parts of a path that is there are. *)
Lemma present_prefix P q r : shape P -> q <> [] -> is_Some (P !! (q ++ r)) -> is_Some (P !! q).
Proof.
  intros Hs Hne [a Ha]; destruct (P !! q) eqn:E; [by eexists|]; by rewrite absent_ext in Ha.
Qed.

(** A new path, below one that is there. *)
Lemma shape_insert P q c x : shape P -> q = [] \/ is_Some (P !! q) -> 0 <= c < MUGGLE_TRIE_CHILDREN_SIZE ->
  (forall r, P !! r <> Some x) -> shape (<[q ++ [c] := x]> P).
Proof.
  intros Hs Hq Hc Hx; split.
  - rewrite lookup_insert_ne by (by destruct q); apply Hs.
  - intros r e; rewrite !lookup_insert_is_Some'; intros [H|H].
    + apply app_inj_tail in H as [-> _]; tauto.
    + destruct (sh_prefix _ Hs r e H); tauto.
  - intros r e; rewrite lookup_insert_is_Some'; intros [H|H]; [by apply app_inj_tail in H as [_ <-]|by apply (sh_char _ Hs r)].
  - intros r1 r2 b; rewrite !lookup_insert; repeat case_decide; intros H1 H2; simplify_eq; [done| | |].
    + by destruct (Hx r2).
    + by destruct (Hx r1).
    + by apply (sh_inj _ Hs r1 r2 b).
Qed.

Lemma child_of_insert P q c x r e :
  child_of (<[q ++ [c] := x]> P) r e = if decide (r = q /\ e = c) then TNode x else child_of P r e.
Proof.
  unfold child_of; rewrite lookup_insert; destruct (decide (q ++ [c] = r ++ [e])) as [H|H].
  - apply app_inj_tail in H as [-> ->]; by rewrite decide_True.
  - rewrite decide_False; [done|]; intros [-> ->]; by apply H.
Qed.

(** The children of the node above the new one, and of the others. *)
Lemma kids_insert P q ch x c : kids_ok P q ch -> 0 <= c < MUGGLE_TRIE_CHILDREN_SIZE ->
  exists ch', wr ch c (TNode x) = Some ch' /\ kids_ok (<[q ++ [c] := x]> P) q ch'.
Proof.
  intros [Hl Hk] Hc; pose proof (wr_Some ch c (TNode x) ltac:(unfold MUGGLE_TRIE_CHILDREN_SIZE in *; lia)) as Ew.
  eexists; split; [exact Ew|]; split; [by rewrite length_insert|]; intros e He; rewrite child_of_insert.
  destruct (decide (e = c)) as [->|Hne].
  - rewrite decide_True by done; by eapply rd_wr_eq.
  - rewrite decide_False by tauto; rewrite <- (Hk e He); apply (rd_wr_ne _ _ _ _ _ Ew); congruence.
Qed.

Lemma kids_other P q r ch x c : r <> q -> kids_ok P r ch -> kids_ok (<[q ++ [c] := x]> P) r ch.
Proof.
  intros Hne [Hl Hk]; split; [done|]; intros e He; rewrite child_of_insert, decide_False by tauto; by apply Hk.
Qed.

Definition addrs M : list Z := ((map_to_list M).*2).*1.

Lemma addrs_insert M q a d : M !! q = None -> addrs (<[q := (a, d)]> M) ≡ₚ a :: addrs M.
Proof. intros H; unfold addrs; by rewrite (map_to_list_insert M q (a, d) H). Qed.

Lemma addrs_delete M q a d : M !! q = Some (a, d) -> addrs M ≡ₚ a :: addrs (delete q M).
Proof. intros H; unfold addrs; by rewrite <- (map_to_list_delete M q (a, d) H). Qed.

Lemma addrs_update M q a d d' : M !! q = Some (a, d) -> addrs (<[q := (a, d')]> M) ≡ₚ addrs M.
Proof.
  intros H; rewrite (addrs_delete M q a d H), (addrs_delete _ q a d') by apply lookup_insert_eq.
  by rewrite delete_insert_eq.
Qed.

Lemma addrs_elem M a : a ∈ addrs M <-> exists q d, M !! q = Some (a, d).
Proof.
  unfold addrs; rewrite list_elem_of_fmap; split.
  - intros ([b d] & -> & H); apply list_elem_of_fmap in H as ([q [b' d']] & E & H).
    apply elem_of_map_to_list in H; simpl in *; simplify_eq; by exists q, d'.
  - intros (q & d & H); exists (a, d); split; [done|]; apply list_elem_of_fmap; exists (q, (a, d)); split; [done|].
    by apply elem_of_map_to_list.
Qed.

(** The data that is freed with the nodes of [M]. *)
Definition freed_data (ff : bool) M : list Z :=
  if ff then filter (fun d => d <> NULL) (((map_to_list M).*2).*2) else [].

Lemma freed_delete ff M q a d : M !! q = Some (a, d) ->
  freed_data ff M ≡ₚ (if ff then if d =? NULL then [] else [d] else []) ++ freed_data ff (delete q M).
Proof.
  intros H; unfold freed_data; destruct ff; [|done].
  rewrite <- (map_to_list_delete M q (a, d) H); cbn [fmap list_fmap snd]; rewrite filter_cons.
  destruct (Z.eqb_spec d NULL); case_decide; done.
Qed.

Lemma freed_null ff M q a d : M !! q = Some (a, d) ->
  freed_data ff M ≡ₚ (if ff then if d =? NULL then [] else [d] else []) ++ freed_data ff (<[q := (a, NULL)]> M).
Proof.
  intros H; rewrite (freed_delete ff M q a d H); f_equiv.
  rewrite (freed_delete ff (<[q := (a, NULL)]> M) q a NULL) by apply lookup_insert_eq.
  rewrite delete_insert_eq; by destruct ff.
Qed.
End Paths.

(** ** The invariant *)
Section Trie.
Context {S A : Type} (alloc : S -> A -> option (Z * S)) (free : S -> Z -> option S).
Context `{!NodeAllocator S A alloc free}.
Implicit Types (t : muggle_trie S) (P : gmap (list Z) Z) (M : gmap (list Z) (Z * Z)) (q r : list Z).

Record tr_inv t P M (owned : list Z) : Prop := {
  ri_shape : shape P;
  ri_live : forall q a d, M !! q = Some (a, d) -> P !! q = Some a;
  ri_kids : forall q p, node_at M q p -> exists n, tget t p = Some n /\ kids_ok P q (tn_children n) /\
              (forall a d, M !! q = Some (a, d) -> tn_data n = d);
  ri_dom : forall a, is_Some (tr_nodes t !! a) -> exists q d, M !! q = Some (a, d);
  ri_alloc : na_wf (tr_pool t) (addrs M) owned
}.

(** All nodes of the shape are allocated. *)
Definition trie_full t M (owned : list Z) : Prop := tr_inv t (fst <$> M) M owned.

Lemma live_inj t P M owned q r a d e : tr_inv t P M owned -> M !! q = Some (a, d) -> M !! r = Some (a, e) -> q = r.
Proof. intros Hi Hq Hr; by apply (sh_inj _ (ri_shape _ _ _ _ Hi) _ _ a); eapply ri_live. Qed.

Lemma root_not_live t P M owned : tr_inv t P M owned -> M !! [] = None.
Proof.
  intros Hi; destruct (M !! []) as [[a d]|] eqn:E; [|done]; apply (ri_live _ _ _ _ Hi) in E.
  by rewrite (sh_root _ (ri_shape _ _ _ _ Hi)) in E.
Qed.

Lemma node_at_inj t P M owned q r p : tr_inv t P M owned -> node_at M q p -> node_at M r p -> q = r.
Proof.
  intros Hi [[-> ->]|(a & d & Ha & ->)] [[-> Hp]|(b & e & Hb & Hp)]; try done.
  injection Hp as <-; by eapply live_inj.
Qed.

Lemma node_at_fun t P M owned q p p' : tr_inv t P M owned -> node_at M q p -> node_at M q p' -> p = p'.
Proof.
  intros Hi [[-> ->]|(a & d & Ha & ->)] [[E ->]|(b & e & Hb & ->)]; subst; try done; try congruence.
  - by rewrite (root_not_live _ _ _ _ Hi) in Hb.
  - by rewrite (root_not_live _ _ _ _ Hi) in Ha.
Qed.

(** The data of a node is written. *)
Lemma tdata_ok t P M owned q a d x : tr_inv t P M owned -> M !! q = Some (a, d) ->
  exists t', set_tdata t (TNode a) x = Some t' /\ tr_inv t' P (<[q := (a, x)]> M) owned /\
    dom (tr_nodes t') = dom (tr_nodes t).
Proof.
  intros Hi Hq; destruct (ri_kids _ _ _ _ Hi q (TNode a)) as (n & En & Hk & Hd); [right; by exists a, d|].
  unfold set_tdata; rewrite En; cbn [mbind option_bind].
  destruct (tput_spec t (TNode a) (TRN (tn_children n) x) n En) as (t' & -> & Hg & Hp & Hdom).
  exists t'; split; [done|]; split; [|done]; split.
  - apply Hi.
  - intros r b e; rewrite lookup_insert; case_decide as Hr; [|apply Hi].
    intros [= -> ->]; subst r; by eapply ri_live.
  - intros r p Hn.
    assert (node_at M r p /\ (p = TNode a -> r = q)) as [Hn' Hpa].
    { destruct Hn as [[-> ->]|(b & e & Hb & ->)]; [by split; [left|]|].
      rewrite lookup_insert in Hb; case_decide as Hr; simplify_eq.
      - by split; [right; exists b, d|].
      - split; [right; by exists b, e|]; intros [= ->]; by eapply live_inj. }
    destruct (ri_kids _ _ _ _ Hi r p Hn') as (m & Em & Hkm & Hdm); rewrite Hg; case_decide as Hpe.
    + rewrite (Hpa Hpe); eexists; split; [done|]; split; [done|]; intros b e; rewrite lookup_insert_eq; by intros [= <- <-].
    + exists m; split; [done|]; split; [done|]; intros b e; rewrite lookup_insert; case_decide as Hr; [|apply Hdm].
      intros [= <- <-]; subst r; destruct Hpe.
      destruct Hn' as [[-> _]|(b & e & Hb & ->)]; [by rewrite (root_not_live _ _ _ _ Hi) in Hq|congruence].
  - intros b Hb; rewrite <- elem_of_dom, Hdom, elem_of_dom in Hb; apply (ri_dom _ _ _ _ Hi) in Hb as (r & e & Hr).
    destruct (decide (r = q)) as [->|]; [exists q, x|exists r, e].
    + rewrite lookup_insert_eq; congruence.
    + by rewrite lookup_insert_ne.
  - rewrite Hp; eapply na_perm; [symmetry; by apply (addrs_update M q a d)|apply Hi].
Qed.

(** ** Find *)

(** The pointer that stands for a path. *)
Definition ptr_at M q : tptr := match M !! q with Some (a, _) => TNode a | None => TNull end.

Lemma ptr_at_Some M q a d : M !! q = Some (a, d) -> ptr_at M q = TNode a.
Proof. unfold ptr_at; by intros ->. Qed.
Lemma ptr_at_None M q : M !! q = None -> ptr_at M q = TNull.
Proof. unfold ptr_at; by intros ->. Qed.

(** The path of a key: the empty key has a node of its own below the root. *)
Definition path (key : list Z) : list Z := match key with [] => [0] | _ => key end.

Definition is_key (key : list Z) : Prop := Forall (fun c => 0 < c < MUGGLE_TRIE_CHILDREN_SIZE) key.

Lemma child_ptr_at M q c : child_of (fst <$> M) q c = ptr_at M (q ++ [c]).
Proof. unfold child_of, ptr_at; rewrite lookup_fmap; by destruct (M !! _) as [[]|]. Qed.

Lemma full_absent_ext t M owned q r : trie_full t M owned -> q <> [] -> M !! q = None -> M !! (q ++ r) = None.
Proof.
  intros Hi Hne Hq; apply (fmap_None fst); rewrite <- lookup_fmap.
  apply absent_ext; [apply (ri_shape _ _ _ _ Hi)|done|]; by rewrite lookup_fmap, Hq.
Qed.

(** The child of a node in memory. *)
Lemma read_child t P M owned q p c : tr_inv t P M owned -> node_at M q p -> 0 <= c < MUGGLE_TRIE_CHILDREN_SIZE ->
  exists n, tget t p = Some n /\ rd (tn_children n) c = Some (child_of P q c).
Proof. intros Hi Hn Hc; destruct (ri_kids _ _ _ _ Hi q p Hn) as (n & En & [_ Hk] & _); exists n; auto. Qed.

Lemma node_at_child M q c a d : M !! (q ++ [c]) = Some (a, d) -> node_at M (q ++ [c]) (TNode a).
Proof. intros H; right; by exists a, d. Qed.

Lemma find_loop_ok t M owned q p r : trie_full t M owned -> node_at M q p ->
  Forall (fun c => 0 <= c < MUGGLE_TRIE_CHILDREN_SIZE) r ->
  find_loop t p r = Some (match r with [] => p | _ => ptr_at M (q ++ r) end).
Proof.
  intros Hi; revert q p; induction r as [|c r IH]; intros q p Hn Hr; [done|].
  apply Forall_cons in Hr as [Hc Hr]; cbn [find_loop].
  destruct (read_child _ _ _ _ q p c Hi Hn Hc) as (n & -> & Ek); cbn [mbind option_bind]; rewrite Ek; cbn [mbind option_bind].
  rewrite child_ptr_at; destruct (M !! (q ++ [c])) as [[a d]|] eqn:E.
  - rewrite (ptr_at_Some _ _ _ _ E), decide_False by done; rewrite (IH (q ++ [c]) (TNode a)); [|by eapply node_at_child|done].
    rewrite <- app_assoc; destruct r as [|e r]; [|done]; by rewrite (ptr_at_Some _ _ _ _ E).
  - rewrite (ptr_at_None _ _ E), decide_True by done; f_equal.
    replace (q ++ c :: r) with ((q ++ [c]) ++ r) by (by rewrite <- app_assoc).
    by rewrite ptr_at_None by (apply (full_absent_ext _ _ _ _ r Hi); [by destruct q|done]).
Qed.

Lemma key_chars key : is_key key -> Forall (fun c => 0 <= c < MUGGLE_TRIE_CHILDREN_SIZE) key.
Proof. intros H; eapply Forall_impl; [exact H|]; simpl; lia. Qed.

Lemma find_ok t M owned key : trie_full t M owned -> is_key key ->
  muggle_trie_find t key = Some (ptr_at M (path key)).
Proof.
  intros Hi Hk; unfold muggle_trie_find, path; destruct key as [|c key].
  - destruct (read_child _ _ _ _ [] TRoot 0 Hi (or_introl (conj eq_refl eq_refl)) ltac:(done)) as (n & -> & Ek).
    cbn [mbind option_bind]; rewrite Ek; by rewrite child_ptr_at.
  - by rewrite (find_loop_ok t M owned [] TRoot (c :: key) Hi (or_introl (conj eq_refl eq_refl)) (key_chars _ Hk)).
Qed.

(** ** Insert *)

(** Each answer of the system is fresh in the state the ones before leave. *)
Fixpoint fresh_seq (s : S) (live owned : list Z) (ans : list A) : Prop :=
  match ans with
  | [] => True
  | a :: ans => na_fresh s owned a /\
      forall x s' owned', alloc s a = Some (x, s') -> na_wf s' (if x =? NULL then live else x :: live) owned' ->
        fresh_seq s' (if x =? NULL then live else x :: live) owned' ans
  end.

Lemma fresh_seq_perm s live live' owned ans : live ≡ₚ live' -> fresh_seq s live owned ans -> fresh_seq s live' owned ans.
Proof.
  revert s live live' owned; induction ans as [|a ans IH]; intros s live live' owned Hp; [done|].
  intros [Hf Hr]; split; [done|]; intros x s' owned' Ea Hw.
  assert ((if x =? NULL then live else x :: live) ≡ₚ (if x =? NULL then live' else x :: live')) as Hp'
    by (by destruct (x =? NULL); [|f_equiv]).
  eapply IH; [exact Hp'|]; apply (Hr x s' owned' Ea); by eapply na_perm; [symmetry; exact Hp'|].
Qed.

Lemma zero_children P q : (forall c, P !! (q ++ [c]) = None) -> kids_ok P q (tn_children zero_node).
Proof.
  intros H; split; [done|]; intros c Hc; unfold child_of; rewrite H; cbn [tn_children zero_node].
  rewrite <- (Z2Nat.id c), rd_nat by lia; apply lookup_replicate_2; lia.
Qed.

(** The nodes of [M'] are those of [M] and new ones without data on the way to [q]. *)
Definition grown M M' q : Prop :=
  forall r, M' !! r = M !! r \/ (M !! r = None /\ r `prefix_of` q /\ exists a, M' !! r = Some (a, NULL)).

(** Linking a node [x] that was just allocated as a child. *)
Lemma add_child_ok t M owned owned' q p c x d s :
  trie_full t M owned -> node_at M q p -> 0 <= c < MUGGLE_TRIE_CHILDREN_SIZE -> M !! (q ++ [c]) = None ->
  x ∉ addrs M -> na_wf s (x :: addrs M) owned' ->
  let t1 := TR (tr_root t) s (<[x := TRN (tn_children zero_node) d]> (tr_nodes t)) in
  exists t', set_child t1 p c (TNode x) = Some t' /\ trie_full t' (<[q ++ [c] := (x, d)]> M) owned' /\ tr_pool t' = s.
Proof.
  intros Hi Hn Hc Hnew Hx Hw t1; pose proof (ri_shape _ _ _ _ Hi) as Hs.
  assert (forall r p', node_at M r p' -> tget t1 p' = tget t p' /\ p' <> TNode x) as Hget.
  { intros r p' [[-> ->]|(b & e & Hb & ->)]; [done|]; assert (b <> x) as Hbx.
    { intros ->; apply Hx, addrs_elem; by exists r, e. }
    split; [simpl; by rewrite lookup_insert_ne|congruence]. }
  destruct (ri_kids _ _ _ _ Hi q p Hn) as (n & En & Hk & Hd).
  destruct (Hget q p Hn) as [Ep Hpx]; unfold set_child; rewrite Ep, En; cbn [mbind option_bind].
  destruct (kids_insert _ _ _ x c Hk Hc) as (ch & -> & Hkq); cbn [mbind option_bind].
  destruct (tput_spec t1 p (TRN ch (tn_data n)) n) as (t' & E' & Hg & Hpool & Hdom); [by rewrite Ep|].
  exists t'; split; [done|]; split; [|by rewrite Hpool].
  unfold trie_full; rewrite fmap_insert; cbn [fst]; split.
  - apply shape_insert; [done| |done|].
    + destruct Hn as [[-> _]|(b & f & Hb & _)]; [by left|right]; rewrite lookup_fmap, Hb; by eexists.
    + intros r; rewrite lookup_fmap; destruct (M !! r) as [[b e]|] eqn:E; [|done]; intros [= ->].
      apply Hx, addrs_elem; by exists r, e.
  - intros r b e; rewrite !lookup_insert, lookup_fmap; case_decide; [by intros [= -> _]|by intros ->].
  - intros r p' Hr; unfold node_at in Hr; rewrite lookup_insert in Hr; destruct (decide (q ++ [c] = r)) as [<-|Hne].
    + assert (p' = TNode x) as -> by (destruct Hr as [[Hr _]|(b & e & [= -> ->] & ->)]; [by destruct q|done]).
      exists (TRN (tn_children zero_node) d); rewrite Hg, decide_False by done.
      split; [simpl; apply lookup_insert_eq|]; split; [|intros b e; rewrite lookup_insert_eq; by intros [= <- <-]].
      apply zero_children; intros e; rewrite lookup_insert_ne, lookup_fmap.
      * rewrite (full_absent_ext _ _ _ _ [e] Hi); [done|by destruct q|done].
      * intros H; apply (f_equal length) in H; rewrite !length_app in H; simpl in H; lia.
    + rewrite lookup_insert_ne by done; destruct (ri_kids _ _ _ _ Hi r p' Hr) as (m & Em & Hkm & Hdm).
      rewrite Hg; destruct (decide (p' = p)) as [->|Hpp].
      * assert (r = q) as -> by (by eapply node_at_inj).
        rewrite En in Em; injection Em as <-; eexists; split; [done|]; split; [exact Hkq|exact Hd].
      * exists m; rewrite (proj1 (Hget r p' Hr)); split; [done|]; split; [|exact Hdm]; apply kids_other; [|done].
        intros ->; apply Hpp; by eapply node_at_fun.
  - intros b Hb; unfold t1 in Hdom; cbn [tr_nodes] in Hdom.
    rewrite <- elem_of_dom, Hdom, dom_insert_L, elem_of_union, elem_of_singleton, elem_of_dom in Hb.
    destruct Hb as [->|Hb]; [exists (q ++ [c]), d; apply lookup_insert_eq|].
    apply (ri_dom _ _ _ _ Hi) in Hb as (r & e & Hr); exists r, e; rewrite lookup_insert_ne; [done|congruence].
  - rewrite Hpool; eapply na_perm; [symmetry; by apply addrs_insert|done].
Qed.

Lemma grown_refl M q : grown M M q.
Proof. intros r; by left. Qed.

Lemma grown_step M M' q r x : M !! q = None -> q `prefix_of` r -> grown (<[q := (x, NULL)]> M) M' r -> grown M M' r.
Proof.
  intros Hq Hp Hg w; destruct (Hg w) as [H|(H & Hw & a & Ha)]; rewrite lookup_insert in H; case_decide; subst; try done.
  - right; eauto.
  - by left.
  - right; eauto.
Qed.

(** An allocation: without memory, or a new node. *)
Lemma allocate_ok t M owned a : trie_full t M owned -> na_fresh (tr_pool t) owned a ->
  exists x s owned', alloc (tr_pool t) a = Some (x, s) /\ na_wf s (if x =? NULL then addrs M else x :: addrs M) owned' /\
    ((x = NULL /\ muggle_trie_allocate_node alloc t a = Some (TNull, TR (tr_root t) s (tr_nodes t)) /\
      trie_full (TR (tr_root t) s (tr_nodes t)) M owned') \/
     (x <> NULL /\ x ∉ addrs M /\ muggle_trie_allocate_node alloc t a
        = Some (TNode x, TR (tr_root t) s (<[x := zero_node]> (tr_nodes t))))).
Proof.
  intros Hi Hf; destruct (na_alloc_spec _ _ _ _ (ri_alloc _ _ _ _ Hi) Hf) as (x & s & owned' & Ea & Hw).
  exists x, s, owned'; split; [done|]; split; [done|].
  unfold muggle_trie_allocate_node; rewrite Ea; cbn [mbind option_bind].
  destruct (Z.eqb_spec x NULL) as [->|Hx]; [left; split; [done|]; split; [done|]|right].
  - destruct Hi as [H1 H2 H3 H4 H5]; split; try done; intros q p Hn; destruct (H3 q p Hn) as (n & En & H); by exists n; destruct p.
  - split; [done|]; split; [|done]; by destruct (na_live _ _ _ Hw) as [[? _]%NoDup_cons _].
Qed.

Lemma insert_loop_ok t M owned q p child r ans :
  trie_full t M owned -> node_at M q p -> Forall (fun c => 0 <= c < MUGGLE_TRIE_CHILDREN_SIZE) r ->
  fresh_seq (tr_pool t) (addrs M) owned ans -> (length r <= length ans)%nat ->
  exists ok child' t' M' owned', insert_loop alloc t p child r ans = Some (ok, child', t') /\
    trie_full t' M' owned' /\ grown M M' (q ++ r) /\
    (ok = true -> r <> [] -> child' <> TNull /\ child' = ptr_at M' (q ++ r)) /\
    (ok = false -> exists a s s', a ∈ ans /\ alloc s a = Some (NULL, s')).
Proof.
  revert t M owned q p child ans; induction r as [|c r IH]; intros t M owned q p child ans Hi Hn Hr Hf Hl.
  { exists true, child, t, M, owned; split; [done|]; split; [done|]; split; [apply grown_refl|]; done. }
  apply Forall_cons in Hr as [Hc Hr]; cbn [insert_loop].
  destruct (read_child _ _ _ _ q p c Hi Hn Hc) as (n & -> & Ek); cbn [mbind option_bind]; rewrite Ek; cbn [mbind option_bind].
  rewrite child_ptr_at; replace (q ++ c :: r) with ((q ++ [c]) ++ r) by (by rewrite <- app_assoc).
  destruct (M !! (q ++ [c])) as [[b d]|] eqn:E.
  - rewrite (ptr_at_Some _ _ _ _ E), decide_False by done.
    destruct (IH t M owned (q ++ [c]) (TNode b) (TNode b) ans Hi (node_at_child _ _ _ _ _ E) Hr Hf)
      as (ok & child' & t' & M' & owned' & E1 & Hi' & Hg & Hok & Hbad); [simpl in Hl; lia|].
    exists ok, child', t', M', owned'; split; [done|]; split; [done|]; split; [done|]; split; [|done].
    intros -> _; destruct r as [|e r]; [|by apply Hok].
    simpl in E1; injection E1 as <- <-; split; [done|]; rewrite app_nil_r in *.
    symmetry; apply (ptr_at_Some M' _ b d); destruct (Hg (q ++ [c])) as [->|[H _]]; [done|congruence].
  - rewrite (ptr_at_None _ _ E), decide_True by done; destruct ans as [|a ans]; [simpl in Hl; lia|].
    destruct Hf as [Hfa Hf]; destruct (allocate_ok t M owned a Hi Hfa) as (x & s & owned1 & Ea & Hw & Hcase).
    specialize (Hf x s owned1 Ea Hw); destruct Hcase as [(-> & -> & Hi1)|(Hx & Hnew & ->)]; cbn [mbind option_bind].
    { rewrite decide_True by done; eexists false, TNull, _, M, owned1; split; [done|]; split; [done|].
      split; [apply grown_refl|]; split; [done|]; intros _; exists a, (tr_pool t), s; split; [by left|done]. }
    rewrite decide_False by done; rewrite (proj2 (Z.eqb_neq x NULL)) in Hw, Hf by done.
    destruct (add_child_ok t M owned owned1 q p c x NULL s Hi Hn Hc E Hnew Hw) as (t1 & E1 & Hi1 & Hp1).
    cbv zeta in E1; change (TRN (tn_children zero_node) NULL) with zero_node in E1; rewrite E1; cbn [mbind option_bind].
    pose proof (lookup_insert_eq M (q ++ [c]) (x, NULL)) as Hin.
    destruct (IH t1 _ owned1 (q ++ [c]) (TNode x) (TNode x) ans Hi1 (node_at_child _ _ _ _ _ Hin) Hr)
      as (ok & child' & t' & M' & owned' & E2 & Hi' & Hg & Hok & Hbad).
    { rewrite Hp1; eapply fresh_seq_perm; [symmetry; by apply addrs_insert|done]. }
    { simpl in Hl; lia. }
    exists ok, child', t', M', owned'; split; [done|]; split; [done|]; split.
    { eapply grown_step; [exact E|by exists r|exact Hg]. }
    split; [|intros H; destruct (Hbad H) as (a' & s1 & s2 & Ha' & H'); exists a', s1, s2; split; [by right|done]].
    intros -> _; destruct r as [|e r]; [|by apply Hok].
    simpl in E2; injection E2 as <- <-; split; [done|]; rewrite app_nil_r in *.
    symmetry; apply (ptr_at_Some M' _ x NULL); destruct (Hg (q ++ [c])) as [->|[H _]]; [done|congruence].
Qed.

(** The result of [insert]: the value is at the path of the key; without
    memory, nothing changes but for nodes without data. *)
Definition inserted M M' (key : list Z) (value : Z) (p : tptr) : Prop :=
  exists M1, grown M M1 (path key) /\
    ((p = TNull /\ M' = M1) \/ exists a d, p = TNode a /\ M1 !! path key = Some (a, d) /\ M' = <[path key := (a, value)]> M1).

Lemma trie_insert_ok t M owned key value ans :
  trie_full t M owned -> is_key key ->
  fresh_seq (tr_pool t) (addrs M) owned ans -> (length (path key) <= length ans)%nat ->
  exists p t' M' owned', muggle_trie_insert alloc t key value ans = Some (p, t') /\ trie_full t' M' owned' /\
    inserted M M' key value p /\ (p = TNull -> exists a s s', a ∈ ans /\ alloc s a = Some (NULL, s')).
Proof.
  intros Hi Hk Hf Hl.
  assert (forall t1 M1 owned1 a d, trie_full t1 M1 owned1 -> grown M M1 (path key) -> M1 !! path key = Some (a, d) ->
    exists p t' M' owned', (t ← set_tdata t1 (TNode a) value; Some (TNode a, t)) = Some (p, t') /\ trie_full t' M' owned' /\
      inserted M M' key value p /\ (p = TNull -> exists a s s', a ∈ ans /\ alloc s a = Some (NULL, s'))) as Hset.
  { intros t1 M1 owned1 a d Hi1 Hg Ha; destruct (tdata_ok t1 _ _ _ _ a d value Hi1 Ha) as (t2 & -> & Hi2 & _).
    exists (TNode a), t2; do 2 eexists; split; [done|]; split; [|split; [|done]].
    - replace (fst <$> M1) with (fst <$> <[path key := (a, value)]> M1) in Hi2; [exact Hi2|].
      rewrite fmap_insert; apply insert_id; rewrite lookup_fmap, Ha; done.
    - exists M1; split; [done|]; right; by exists a, d. }
  unfold muggle_trie_insert; destruct key as [|c key].
  - destruct (read_child _ _ _ _ [] TRoot 0 Hi (or_introl (conj eq_refl eq_refl)) ltac:(done)) as (n & -> & Ek).
    cbn [mbind option_bind]; rewrite Ek; cbn [mbind option_bind]; rewrite child_ptr_at; cbn [app path] in *.
    destruct (M !! [0]) as [[b d]|] eqn:E.
    + rewrite (ptr_at_Some _ _ _ _ E), decide_False by done; apply (Hset t M owned b d); [done|apply grown_refl|done].
    + rewrite (ptr_at_None _ _ E), decide_True by done; destruct ans as [|a ans]; [simpl in Hl; lia|].
      destruct Hf as [Hfa _]; destruct (allocate_ok t M owned a Hi Hfa) as (x & s & owned1 & Ea & Hw & Hcase).
      destruct Hcase as [(-> & -> & Hi1)|(Hx & Hnew & ->)]; cbn [mbind option_bind].
      { rewrite decide_True by done; eexists TNull, _, M, owned1; split; [done|]; split; [done|]; split.
        - exists M; split; [apply grown_refl|by left].
        - intros _; exists a, (tr_pool t), s; split; [by left|done]. }
      rewrite decide_False by done; rewrite (proj2 (Z.eqb_neq x NULL)) in Hw by done.
      unfold set_tdata, tget, tput; cbn [tr_nodes]; rewrite !lookup_insert_eq; cbn [mbind option_bind tr_root tr_pool].
      rewrite insert_insert_eq.
      destruct (add_child_ok t M owned owned1 [] TRoot 0 x value s Hi (or_introl (conj eq_refl eq_refl)) ltac:(done) E Hnew Hw)
        as (t1 & E1 & Hi1 & _); cbv zeta in E1; rewrite E1; cbn [mbind option_bind].
      exists (TNode x), t1; do 2 eexists; split; [done|]; split; [exact Hi1|]; split; [|done].
      exists (<[[0] := (x, NULL)]> M); split.
      { eapply grown_step; [exact E|done|apply grown_refl]. }
      right; exists x, NULL; split; [done|]; split; [apply lookup_insert_eq|]; cbn [path app]; by rewrite insert_insert_eq.
  - destruct (insert_loop_ok t M owned [] TRoot TNull (c :: key) ans Hi (or_introl (conj eq_refl eq_refl)) (key_chars _ Hk) Hf Hl)
      as (ok & child & t1 & M1 & owned1 & -> & Hi1 & Hg & Hok & Hbad); cbn [mbind option_bind path app] in *.
    destruct ok; cbn [negb].
    + destruct (Hok eq_refl ltac:(done)) as [Hne ->]; rewrite decide_False by done.
      unfold ptr_at in *; destruct (M1 !! (c :: key)) as [[a d]|] eqn:E; [|done]; by apply (Hset t1 M1 owned1 a d).
    + exists TNull, t1, M1, owned1; split; [done|]; split; [done|]; split; [|intros _; by apply Hbad].
      exists M1; split; [done|by left].
Qed.

Lemma trie_remove_ok t M owned key ff : trie_full t M owned -> is_key key ->
  match M !! path key with
  | None => muggle_trie_remove t key ff = Some (false, [], t)
  | Some (a, d) => exists t', muggle_trie_remove t key ff = Some (true, if ff then [d] else [], t') /\
      trie_full t' (<[path key := (a, NULL)]> M) owned
  end.
Proof.
  intros Hi Hk; unfold muggle_trie_remove; rewrite (find_ok _ _ _ _ Hi Hk); cbn [mbind option_bind].
  destruct (M !! path key) as [[a d]|] eqn:E; [|by rewrite (ptr_at_None _ _ E), decide_True].
  rewrite (ptr_at_Some _ _ _ _ E), decide_False by done.
  destruct (ri_kids _ _ _ _ Hi _ (TNode a) (or_intror (ex_intro _ a (ex_intro _ d (conj E eq_refl))))) as (n & En & _ & Hd).
  rewrite En; cbn [mbind option_bind]; destruct (tdata_ok t _ _ _ _ a d NULL Hi E) as (t2 & -> & Hi2 & _); cbn [mbind option_bind].
  rewrite (Hd a d E); exists t2; split; [done|].
  replace (fst <$> M) with (fst <$> <[path key := (a, NULL)]> M) in Hi2; [exact Hi2|].
  rewrite fmap_insert; apply insert_id; rewrite lookup_fmap, E; done.
Qed.

(** ** Erasing *)

(** The paths through one of the first [j] children of [q]. *)
Definition below_child q (j : Z) r : Prop := exists c, 0 <= c < j /\ (q ++ [c]) `prefix_of` r.

(** [M'] is [M] without those paths, but for the node of [q] itself. *)
Definition pruned M M' q (j : Z) : Prop :=
  (forall r, below_child q j r -> M' !! r = None) /\
  (forall r, ~ below_child q j r -> r <> q -> M' !! r = M !! r).

Lemma prefix_snoc_eq q c e r : (q ++ [c]) `prefix_of` r -> (q ++ [e]) `prefix_of` r -> c = e.
Proof. intros [k1 ->] [k2 E]; rewrite <- !app_assoc in E; apply app_inv_head in E; by simplify_eq. Qed.

Lemma not_below_self q j : ~ below_child q j q.
Proof. intros (c & _ & [k E]); apply (f_equal length) in E; rewrite !length_app in E; simpl in E; lia. Qed.

(** One more child is pruned. *)
Lemma pruned_step M M1 M2 q j : 0 <= j -> pruned M M1 q j ->
  (forall r, (q ++ [j]) `prefix_of` r -> M2 !! r = None) ->
  (forall r, ~ (q ++ [j]) `prefix_of` r -> r <> q -> M2 !! r = M1 !! r) -> pruned M M2 q (j + 1).
Proof.
  intros Hj [P1 P2] H1 H2; split.
  - intros r (c & Hc & Hp); destruct (decide (c = j)) as [->|]; [by apply H1|].
    destruct (decide ((q ++ [j]) `prefix_of` r)) as [Hr|Hr]; [by apply H1|].
    rewrite H2; [|done|intros ->; apply (not_below_self q (j + 1)); exists c; split; [lia|done]].
    apply P1; exists c; split; [lia|done].
  - intros r Hr Hq; rewrite H2; [|intros Hp; apply Hr; exists j; split; [lia|done]|done].
    apply P2; [|done]; intros (c & Hc & Hp); apply Hr; exists c; split; [lia|done].
Qed.

(** Nothing of the shape is below a child that is not there. *)
Lemma absent_below t P M owned q j r : tr_inv t P M owned -> P !! (q ++ [j]) = None -> (q ++ [j]) `prefix_of` r -> M !! r = None.
Proof.
  intros Hi Hq [k ->]; destruct (M !! _) as [[a d]|] eqn:E; [|done]; apply (ri_live _ _ _ _ Hi) in E.
  rewrite (absent_ext _ _ _ (ri_shape _ _ _ _ Hi)) in E; [done|by destruct q|done].
Qed.

(** A node is given back. *)
Lemma free_node_ok t P M owned q a d : tr_inv t P M owned -> M !! q = Some (a, d) ->
  exists t' owned', free_node free t (TNode a) = Some t' /\ tr_inv t' P (delete q M) owned'.
Proof.
  intros Hi Hq; destruct (na_free_spec _ _ _ _ a (ri_alloc _ _ _ _ Hi) (addrs_delete M q a d Hq)) as (s & owned' & Ef & Hw).
  unfold free_node; rewrite Ef; cbn [mbind option_bind]; do 2 eexists; split; [done|]; split; [apply Hi| | | |exact Hw].
  - intros r b e [_ Hr]%lookup_delete_Some; by eapply ri_live.
  - intros r p Hn; assert (node_at M r p /\ p <> TNode a) as [Hn' Hpa].
    { destruct Hn as [[-> ->]|(b & e & [Hr Hb]%lookup_delete_Some & ->)]; [by split; [left|]|].
      split; [right; by exists b, e|]; intros [= ->]; apply Hr; by eapply live_inj. }
    destruct (ri_kids _ _ _ _ Hi r p Hn') as (m & Em & Hk & Hd); exists m; split; [|split; [done|]].
    + destruct p as [| |b]; simpl in *; [done|done|]; rewrite lookup_delete_ne by congruence; done.
    + intros b e [_ Hb]%lookup_delete_Some; by eapply Hd.
  - cbn [tr_nodes]; intros b [m [Hne Hm]%lookup_delete_Some]; destruct (ri_dom _ _ _ _ Hi b) as (r & e & Hr); [by eexists|].
    exists r, e; apply lookup_delete_Some; split; [|done]; intros ->; congruence.
Qed.

(** [erase_node] frees the node of [q], all below it, and their data. *)
Definition erased (fuel : nat) t P M (ff : bool) q (a : Z) : Prop :=
  exists tr t' M' owned', muggle_trie_erase_node free fuel t (TNode a) ff = Some (tr, t') /\ tr_inv t' P M' owned' /\
    (forall r, q `prefix_of` r -> M' !! r = None) /\ (forall r, ~ q `prefix_of` r -> M' !! r = M !! r) /\
    freed_data ff M ≡ₚ tr ++ freed_data ff M'.

(** All of the shape below [q] is allocated, no deeper than [fuel]. *)
Definition erasable (fuel : nat) P M q : Prop :=
  (forall r, is_Some (P !! r) -> q `prefix_of` r -> is_Some (M !! r)) /\
  (forall r, is_Some (P !! r) -> q `prefix_of` r -> (length r < length q + fuel)%nat).

(** One turn of the loop over the children. *)
Lemma erase_child_ok fuel t P M0 M owned ff q a d j tr :
  (forall t M owned ff q a d, tr_inv t P M owned -> M !! q = Some (a, d) -> erasable fuel P M q -> erased fuel t P M ff q a) ->
  0 <= j < MUGGLE_TRIE_CHILDREN_SIZE -> erasable (Datatypes.S fuel) P M0 q ->
  tr_inv t P M owned -> pruned M0 M q j -> M !! q = Some (a, d) -> freed_data ff M0 ≡ₚ tr ++ freed_data ff M ->
  exists tr' t' M' owned',
    (n ← tget t (TNode a); child ← rd (tn_children n) j;
     '(tr', t) ← (if decide (child = TNull) then Some ([], t) else muggle_trie_erase_node free fuel t child ff);
     n ← tget t (TNode a);
     if tn_data n =? NULL then Some (tr ++ tr', t)
     else t ← set_tdata t (TNode a) NULL; Some (tr ++ tr' ++ (if ff then [tn_data n] else []), t)) = Some (tr', t') /\
    tr_inv t' P M' owned' /\ pruned M0 M' q (j + 1) /\ M' !! q = Some (a, NULL) /\ freed_data ff M0 ≡ₚ tr' ++ freed_data ff M'.
Proof.
  intros IH Hj [He Hd] Hi Hpr Hq Hf.
  destruct (read_child _ _ _ _ q (TNode a) j Hi (or_intror (ex_intro _ a (ex_intro _ d (conj Hq eq_refl)))) Hj) as (n & -> & Ek).
  cbn [mbind option_bind]; rewrite Ek; cbn [mbind option_bind].
  assert (exists tr1 t1 M1 owned1, (if decide (child_of P q j = TNull) then Some ([], t)
      else muggle_trie_erase_node free fuel t (child_of P q j) ff) = Some (tr1, t1) /\ tr_inv t1 P M1 owned1 /\
    (forall r, (q ++ [j]) `prefix_of` r -> M1 !! r = None) /\ (forall r, ~ (q ++ [j]) `prefix_of` r -> M1 !! r = M !! r) /\
    freed_data ff M ≡ₚ tr1 ++ freed_data ff M1) as (tr1 & t1 & M1 & owned1 & -> & Hi1 & H1 & H2 & Hf1).
  { unfold child_of; destruct (P !! (q ++ [j])) as [b|] eqn:E.
    - rewrite decide_False by done.
      assert (forall r, (q ++ [j]) `prefix_of` r -> M !! r = M0 !! r) as HM.
      { intros r Hr; apply Hpr; [intros (c & Hc & Hp); pose proof (prefix_snoc_eq _ _ _ _ Hr Hp); lia|].
        intros ->; apply (not_below_self q (j + 1)); exists j; split; [lia|done]. }
      destruct (He (q ++ [j])) as [[b' e] Hb]; [by eexists|by exists [j]|]; rewrite <- HM in Hb by done.
      pose proof (ri_live _ _ _ _ Hi _ _ _ Hb) as E'; rewrite E in E'; injection E' as <-.
      apply (IH t M owned ff (q ++ [j]) b e Hi Hb); split.
      + intros r Hr Hp; rewrite HM by done; apply He; [done|]; destruct Hp as [k ->]; rewrite <- app_assoc; by eexists.
      + intros r Hr Hp; rewrite length_app; cbn [length]; enough (length r < length q + Datatypes.S fuel)%nat by lia.
        apply Hd; [done|]; destruct Hp as [k ->]; rewrite <- app_assoc; by eexists.
    - rewrite decide_True by done; exists [], t, M, owned; split_and!; try done; intros r Hr; by eapply absent_below. }
  cbn [mbind option_bind].
  assert (M1 !! q = Some (a, d)) as Hq1.
  { rewrite H2; [done|]; intros [k E]; apply (f_equal length) in E; rewrite !length_app in E; simpl in E; lia. }
  destruct (ri_kids _ _ _ _ Hi1 q (TNode a) (or_intror (ex_intro _ a (ex_intro _ d (conj Hq1 eq_refl))))) as (m & -> & _ & Hdm).
  cbn [mbind option_bind]; rewrite (Hdm a d Hq1).
  assert (pruned M0 M1 q (j + 1)) as Hpr1 by (eapply pruned_step; [lia|exact Hpr|done|]; intros r Hr _; by apply H2).
  destruct (Z.eqb_spec d NULL) as [->|Hne].
  - exists (tr ++ tr1), t1, M1, owned1; split_and!; try done; rewrite Hf, Hf1; by rewrite app_assoc.
  - destruct (tdata_ok t1 P M1 owned1 q a d NULL Hi1 Hq1) as (t2 & -> & Hi2 & _); cbn [mbind option_bind].
    eexists _, t2, _, owned1; split; [done|]; split; [exact Hi2|]; split; [|split; [apply lookup_insert_eq|]].
    + destruct Hpr1 as [G1 G2]; split; intros r Hr; [|intros Hrq]; rewrite lookup_insert_ne; try done; [by apply G1| |by apply G2].
      intros <-; by apply (not_below_self q (j + 1)).
    + rewrite Hf, Hf1, (freed_null ff M1 q a d Hq1), (proj2 (Z.eqb_neq d NULL)) by done.
      rewrite <- !app_assoc; by destruct ff.
Qed.

Lemma erase_node_ok fuel t P M owned ff q a d :
  tr_inv t P M owned -> M !! q = Some (a, d) -> erasable fuel P M q -> erased fuel t P M ff q a.
Proof.
  revert t M owned ff q a d; induction fuel as [|fuel IH]; intros t M owned ff q a d Hi Hq Her.
  { destruct Her as [_ Hd]; specialize (Hd q); rewrite (ri_live _ _ _ _ Hi q a d Hq) in Hd; specialize (Hd ltac:(eauto) ltac:(done)); lia. }
  unfold erased; cbn [muggle_trie_erase_node]; match goal with |- context [for_up ?b _ _ _] => set (body := b) end.
  destruct (for_up_inv body (fun j '(tr, t) => exists M1 owned1 d1, tr_inv t P M1 owned1 /\ pruned M M1 q j /\
      M1 !! q = Some (a, d1) /\ (0 < j -> d1 = NULL) /\ freed_data ff M ≡ₚ tr ++ freed_data ff M1)
    (Z.to_nat MUGGLE_TRIE_CHILDREN_SIZE) 0 ([], t)) as ([tr t1] & E & M1 & owned1 & d1 & Hi1 & [Hp1 Hp2] & Hq1 & Hd1 & Hf1).
  { exists M, owned, d; split_and!; try done; split; [intros r (c & Hc & _); lia|done]. }
  { intros j [tr t1] Hj (M1 & owned1 & d1 & Hi1 & Hp1 & Hq1 & _ & Hf1).
    destruct (erase_child_ok fuel t1 P M M1 owned1 ff q a d1 j tr IH) as (tr' & t' & M' & owned' & E & Hi' & Hp' & Hq' & Hf'); try done.
    exists (tr', t'); split; [exact E|]; exists M', owned', NULL; done. }
  rewrite E; cbn [mbind option_bind]; change (0 + Z.of_nat (Z.to_nat MUGGLE_TRIE_CHILDREN_SIZE)) with MUGGLE_TRIE_CHILDREN_SIZE in *.
  destruct (free_node_ok t1 P M1 owned1 q a d1 Hi1 Hq1) as (t2 & owned2 & -> & Hi2); cbn [mbind option_bind].
  exists tr, t2, (delete q M1), owned2; split; [done|]; split; [done|]; split; [|split].
  - intros r [k ->]; destruct k as [|c k]; [rewrite app_nil_r; apply lookup_delete_eq|].
    rewrite lookup_delete_ne by (intros H; apply (f_equal length) in H; rewrite length_app in H; simpl in H; lia).
    destruct (M1 !! (q ++ c :: k)) as [[b e]|] eqn:Er; [|done]; rewrite <- Er; apply Hp1; exists c; split; [|exists k; by rewrite <- app_assoc].
    apply (ri_live _ _ _ _ Hi1) in Er; apply (sh_char _ (ri_shape _ _ _ _ Hi1) q c).
    apply (present_prefix P _ k (ri_shape _ _ _ _ Hi1)); [by destruct q|]; rewrite <- app_assoc; by eexists.
  - intros r Hr; rewrite lookup_delete_ne by (intros ->; by apply Hr); apply Hp2; [|by intros ->].
    intros (c & _ & [k ->]); apply Hr; rewrite <- app_assoc; by eexists.
  - rewrite Hf1, (freed_delete ff M1 q a d1 Hq1), (Hd1 ltac:(done)); by destruct ff.
Qed.

(** A path is no longer than there are nodes. *)
Lemma size_live t P M owned : tr_inv t P M owned -> (size M <= size (tr_nodes t))%nat.
Proof.
  intros Hi; destruct (na_live _ _ _ (ri_alloc _ _ _ _ Hi)) as [Hnd _].
  replace (size M) with (length (addrs M)) by (unfold addrs; by rewrite !length_fmap, length_map_to_list).
  rewrite <- (size_list_to_set (C := gset Z)), <- size_dom by done; apply subseteq_size; intros a Ha.
  apply elem_of_list_to_set, addrs_elem in Ha as (q & d & Hq); apply elem_of_dom.
  destruct (ri_kids _ _ _ _ Hi q (TNode a) (or_intror (ex_intro _ a (ex_intro _ d (conj Hq eq_refl))))) as (n & En & _).
  by exists n.
Qed.

Lemma path_length M r : (forall k, (0 < k <= length r)%nat -> is_Some (M !! take k r)) -> (length r <= size M)%nat.
Proof.
  intros H; assert (NoDup ((fun k => take k r) <$> seq 1 (length r))) as Hnd.
  { apply NoDup_fmap_2_strong; [|apply NoDup_seq]; intros j k Hj Hk E.
    apply elem_of_seq in Hj, Hk; apply (f_equal length) in E; rewrite !length_take in E; lia. }
  rewrite <- (length_seq (length r) 1), <- (length_fmap (fun k => take k r)), <- size_dom.
  rewrite <- (size_list_to_set (C := gset (list Z))) by done; apply subseteq_size.
  intros q (k & -> & Hk)%elem_of_list_to_set%list_elem_of_fmap; apply elem_of_seq in Hk; apply elem_of_dom, H; lia.
Qed.

Lemma subtree_erasable t P M owned q :
  tr_inv t P M owned -> length q = 1%nat -> (forall r, is_Some (P !! r) -> q `prefix_of` r -> is_Some (M !! r)) ->
  erasable (Datatypes.S (size (tr_nodes t))) P M q.
Proof.
  intros Hi Hq Hl; split; [done|]; intros r Hr [w ->]; pose proof (size_live _ _ _ _ Hi).
  enough (length (q ++ w) <= size M)%nat by lia; apply path_length; intros k Hk.
  assert (q `prefix_of` take k (q ++ w)) as Hp.
  { destruct q as [|c [|]]; try done; destruct k as [|k]; [lia|]; simpl; by exists (take k w). }
  apply Hl; [|done]; apply (present_prefix P _ (drop k (q ++ w)) (ri_shape _ _ _ _ Hi)); [|by rewrite take_drop].
  destruct Hp as [u ->]; by destruct q.
Qed.

Lemma trie_clear_ok t M owned ff : trie_full t M owned ->
  exists tr t' owned', muggle_trie_clear free t ff = Some (tr, t') /\ tr ≡ₚ freed_data ff M /\
    tr_nodes t' = ∅ /\ na_wf (tr_pool t') [] owned'.
Proof.
  intros Hi; unfold muggle_trie_clear; match goal with |- context [for_up ?b _ _ _] => set (body := b) end.
  destruct (for_up_inv body (fun j '(tr, t) => exists M1 owned1, tr_inv t (fst <$> M) M1 owned1 /\ pruned M M1 [] j /\
      freed_data ff M ≡ₚ tr ++ freed_data ff M1) (Z.to_nat MUGGLE_TRIE_CHILDREN_SIZE) 0 ([], t))
    as ([tr t1] & E & M1 & owned1 & Hi1 & [Hp1 Hp2] & Hf1).
  { exists M, owned; split_and!; try done; split; [intros r (c & Hc & _); lia|done]. }
  { intros j [tr t1] Hj (M1 & owned1 & Hi1 & Hp1 & Hf1).
    assert (0 <= j < MUGGLE_TRIE_CHILDREN_SIZE) as Hj' by (unfold MUGGLE_TRIE_CHILDREN_SIZE in *; lia).
    unfold body; destruct (read_child _ _ _ _ [] TRoot j Hi1 (or_introl (conj eq_refl eq_refl)) Hj') as (n & -> & Ek).
    cbn [mbind option_bind]; rewrite Ek; cbn [mbind option_bind].
    unfold child_of; destruct ((fst <$> M) !! ([] ++ [j])) as [b|] eqn:Eb.
    - rewrite decide_False by done.
      assert (forall r, ([] ++ [j]) `prefix_of` r -> M1 !! r = M !! r) as HM.
      { intros r Hr; apply Hp1; [intros (c & Hc & Hp); pose proof (prefix_snoc_eq _ _ _ _ Hr Hp); lia|].
        intros ->; destruct Hr as [k Hr]; done. }
      assert (exists d, M1 !! [j] = Some (b, d)) as [d Hb].
      { rewrite HM by (by exists []); rewrite lookup_fmap in Eb; cbn [app] in Eb.
        destruct (M !! [j]) as [[b' d]|]; [|done]; injection Eb as ->; by exists d. }
      assert (erasable (Datatypes.S (size (tr_nodes t1))) (fst <$> M) M1 [j]) as Her.
      { apply (subtree_erasable _ _ _ _ _ Hi1); [done|]; intros r Hr Hp; rewrite HM by done.
        rewrite lookup_fmap in Hr; by apply fmap_is_Some in Hr. }
      destruct (erase_node_ok _ t1 _ M1 owned1 ff [j] b d Hi1 Hb Her) as (tr' & t2 & M2 & owned2 & -> & Hi2 & H1 & H2 & Hf2).
      cbn [mbind option_bind]; eexists (_, t2); split; [done|]; exists M2, owned2; split; [done|]; split.
      + eapply (pruned_step M M1); [lia|done|exact H1|]; intros r Hr _; by apply H2.
      + rewrite Hf1, Hf2; by rewrite app_assoc.
    - rewrite decide_True by done; eexists (tr, t1); split; [done|]; exists M1, owned1; split; [done|]; split; [|done].
      eapply (pruned_step M M1); [lia|done| |done]; intros r Hr; by eapply absent_below. }
  rewrite E; change (0 + Z.of_nat (Z.to_nat MUGGLE_TRIE_CHILDREN_SIZE)) with MUGGLE_TRIE_CHILDREN_SIZE in *.
  assert (M1 = ∅) as ->.
  { apply map_empty; intros r; destruct (M1 !! r) as [[a d]|] eqn:Er; [|done].
    destruct r as [|c r]; [by rewrite (root_not_live _ _ _ _ Hi1) in Er|]; rewrite <- Er; apply Hp1; exists c; split; [|by exists r].
    apply (ri_live _ _ _ _ Hi1) in Er; apply (sh_char _ (ri_shape _ _ _ _ Hi1) [] c).
    apply (present_prefix _ _ r (ri_shape _ _ _ _ Hi1)); [done|by eexists]. }
  exists tr, t1, owned1; split; [done|]; split; [|split].
  - rewrite Hf1; unfold freed_data; rewrite map_to_list_empty; destruct ff; by rewrite app_nil_r.
  - apply map_empty; intros a; destruct (tr_nodes t1 !! a) eqn:Ea; [|done].
    destruct (ri_dom _ _ _ _ Hi1 a) as (q & d & Hq); [by eexists|done].
  - pose proof (ri_alloc _ _ _ _ Hi1) as Hw; unfold addrs in Hw; by rewrite map_to_list_empty in Hw.
Qed.
End Trie.

(** ** Tries over a memory pool or [malloc] *)

Abbreviation pool_trie := (muggle_trie (option muggle_memory_pool)).

Definition pool_trie_ok (debug : bool) (t : pool_trie) M owned : Prop :=
  trie_full (node_alloc debug) node_free t M owned.

Lemma fresh_trie_ok debug pool owned : node_wf pool [] owned -> pool_trie_ok debug (TR zero_node pool ∅) ∅ owned.
Proof.
  intros Hw; split; cbn [tr_pool tr_nodes].
  - split; intros; rewrite ?fmap_empty in *; try done; destruct H; done.
  - done.
  - intros q p [[-> ->]|(a & d & H & _)]; [|done]; exists zero_node; split; [done|]; split; [|done].
    by apply zero_children.
  - intros a [n H]; done.
  - unfold addrs; by rewrite map_to_list_empty.
Qed.

(** [init] succeeds exactly when the capacity is valid and memory is there. *)
Lemma trie_init_ok debug capacity p a : 0 <= capacity < 2 ^ 64 -> 0 < ma_data a \/ ma_data a = NULL ->
  exists ok t, muggle_trie_init capacity p a = Some (ok, t) /\
    (ok = true <-> capacity = 0 \/ (capacity < 2 ^ 31 /\ p = true /\ ma_bufs a = true /\ ma_ptr a = true /\ ma_data a <> NULL)) /\
    (ok = true -> exists owned, pool_trie_ok debug t ∅ owned).
Proof.
  intros Hc Hd; unfold muggle_trie_init; destruct (Z.gtb_spec capacity 0) as [Hpos|Hz].
  2:{ exists true; eexists; split; [done|]; split; [split; [left; lia|done]|]; intros _.
      exists []; apply fresh_trie_ok; split; [done|split; constructor]. }
  pose proof (ds_cap_valid_spec capacity Hc) as Hv; destruct (MUGGLE_DS_CAP_IS_VALID capacity); cbn [negb].
  2:{ do 2 eexists; split; [done|]; split; [|done]; split; [done|]; intros [->|[H _]]; [done|by apply Hv in H]. }
  destruct p; cbn [negb].
  2:{ do 2 eexists; split; [done|]; split; [|done]; split; [done|]; intros [->|(_ & H & _)]; done. }
  assert (capacity < 2 ^ 31) as Hlt by (by apply Hv).
  rewrite (wrap_small 32) by (unfold in_width; lia).
  destruct (init_outcome a capacity sizeof_trie_node) as (ok & q & -> & Hiff & _ & Hq); [lia|done|]; cbn [mbind option_bind].
  exists ok; eexists; split; [done|]; split.
  - rewrite Hiff; unfold sizeof_trie_node; split; [intros (_ & H); right; tauto|].
    intros [->|(_ & _ & H)]; [done|by split].
  - intros ->; destruct (Hq eq_refl ltac:(done)) as (_ & _ & _ & Hwf); eexists; apply fresh_trie_ok; exact Hwf.
Qed.

Lemma trie_destroy_ok debug t M owned ff : pool_trie_ok debug t M owned ->
  exists tr t', muggle_trie_destroy t ff = Some (tr, t') /\ tr ≡ₚ freed_data ff M /\ tr_nodes t' = ∅.
Proof.
  intros Hi; unfold muggle_trie_destroy.
  destruct (trie_clear_ok (node_alloc debug) node_free t M owned ff Hi) as (tr & t1 & o1 & -> & Htr & He & Hw).
  cbn [mbind option_bind]; destruct (tr_pool t1) as [p|] eqn:Ep; [|by do 2 eexists].
  destruct Hw as (F & Hp & _); destruct (destroy_outcome p F Hp) as (bufs & _ & ->); by do 2 eexists.
Qed.

(** ** Properties *)

(** The data of a key; [NULL] stands for none. *)
Definition value_at (M : gmap (list Z) (Z * Z)) (key : list Z) : Z :=
  match M !! path key with Some (_, d) => d | None => NULL end.

Lemma path_inj k1 k2 : is_key k1 -> is_key k2 -> path k1 = path k2 -> k1 = k2.
Proof.
  intros H1 H2; destruct k1 as [|c k1], k2 as [|e k2]; simpl; try done; intros E; simplify_eq.
  - apply Forall_cons in H2 as [H2 _]; lia.
  - apply Forall_cons in H1 as [H1 _]; lia.
Qed.

Lemma value_at_update M key k a d : is_key key -> is_key k ->
  value_at (<[path key := (a, d)]> M) k = if decide (k = key) then d else value_at M k.
Proof.
  intros Hkey Hk; unfold value_at; rewrite lookup_insert; destruct (decide (k = key)) as [->|Hne].
  - by rewrite decide_True.
  - rewrite decide_False; [done|]; intros E; by apply Hne, path_inj.
Qed.

Lemma value_at_grown M M' q k : grown M M' q -> value_at M' k = value_at M k.
Proof. intros Hg; unfold value_at; destruct (Hg (path k)) as [->|(-> & _ & a & ->)]; done. Qed.

(** C9: the trie implements a map from strings to data pointers, where [NULL]
    is no data.  For every trie, every key of characters from 1 to 255 (a negative
    [char] is the case of [trie_signed_char_defect]), and answers of the allocator
    that are not memory in use, without a fault: [find] returns a node with the data of
    the key, or [NULL] when it has none; [insert] sets the data of its key and
    of no other, or, when an allocation fails, returns [NULL] and changes the
    data of no key; [remove] takes the data of its key, and of no other,
    frees it and succeeds when there was some; [destroy] frees the data of all
    nodes once, and all nodes.  Every resulting trie is again well formed. *)
Theorem trie_refines_map debug t M owned (Hok : pool_trie_ok debug t M owned) :
  (forall key, is_key key -> exists p, muggle_trie_find t key = Some p /\
     ((p = TNull /\ value_at M key = NULL) \/ exists n, tget t p = Some n /\ tn_data n = value_at M key)) /\
  (forall key value ans, is_key key ->
     fresh_seq (node_alloc debug) node_free (tr_pool t) (addrs M) owned ans -> (length (path key) <= length ans)%nat ->
     exists p t' M' owned', muggle_trie_insert (node_alloc debug) t key value ans = Some (p, t') /\
       pool_trie_ok debug t' M' owned' /\
       ((p = TNull /\ (exists a s s', a ∈ ans /\ node_alloc debug s a = Some (NULL, s')) /\
         forall k, is_key k -> value_at M' k = value_at M k) \/
        (p <> TNull /\ forall k, is_key k -> value_at M' k = if decide (k = key) then value else value_at M k))) /\
  (forall key ff, is_key key ->
     exists b tr t' M', muggle_trie_remove t key ff = Some (b, tr, t') /\ pool_trie_ok debug t' M' owned /\
       (value_at M key <> NULL -> b = true) /\ tr = (if b && ff then [value_at M key] else []) /\
       forall k, is_key k -> value_at M' k = if decide (k = key) then NULL else value_at M k) /\
  (forall ff, exists tr t', muggle_trie_destroy t ff = Some (tr, t') /\ tr ≡ₚ freed_data ff M /\ tr_nodes t' = ∅).
Proof.
  split; [|split; [|split]].
  - intros key Hk; rewrite (find_ok _ _ _ _ _ _ Hok Hk); eexists; split; [done|]; unfold value_at.
    destruct (M !! path key) as [[a d]|] eqn:E; [right|left; by rewrite (ptr_at_None _ _ E)].
    rewrite (ptr_at_Some _ _ _ _ E).
    destruct (ri_kids _ _ _ _ _ _ Hok _ (TNode a) (or_intror (ex_intro _ a (ex_intro _ d (conj E eq_refl))))) as (n & En & _ & Hd).
    exists n; split; [done|by eapply Hd].
  - intros key value ans Hk Hf Hl.
    destruct (trie_insert_ok _ _ t M owned key value ans Hok Hk Hf Hl) as (p & t' & M' & o' & E & Hi & (M1 & Hg & Hp) & Hn).
    exists p, t', M', o'; split; [done|]; split; [done|]; destruct Hp as [[-> ->]|(a & d & -> & Ha & ->)].
    + left; split; [done|]; split; [by apply Hn|]; intros k _; by eapply value_at_grown.
    + right; split; [done|]; intros k Hk'; rewrite value_at_update by done; by rewrite (value_at_grown _ _ _ _ Hg).
  - intros key ff Hk; pose proof (trie_remove_ok _ _ t M owned key ff Hok Hk) as Hr.
    unfold value_at at 1 2; destruct (M !! path key) as [[a d]|] eqn:E.
    + destruct Hr as (t' & Er & Hi); do 3 eexists; eexists; split; [exact Er|]; split; [exact Hi|]; split; [done|].
      split; [done|]; intros k Hk'; by apply value_at_update.
    + exists false, [], t, M; split; [done|]; split; [done|]; split; [done|]; split; [done|]; intros k _.
      case_decide; [subst|done]; unfold value_at; by rewrite E.
  - intros ff; by eapply trie_destroy_ok.
Qed.

Definition empty_trie : pool_trie := TR zero_node None ∅.

Lemma trie_refines_map_witness :
  exists p t' M' owned', muggle_trie_insert (node_alloc false) empty_trie [97; 98] 7 [NA 1000 no_memory; NA 2000 no_memory]
      = Some (p, t') /\ pool_trie_ok false t' M' owned' /\
    ((p = TNull /\ (exists a s s', a ∈ [NA 1000 no_memory; NA 2000 no_memory] /\ node_alloc false s a = Some (NULL, s')) /\
      forall k, is_key k -> value_at M' k = value_at ∅ k) \/
     (p <> TNull /\ forall k, is_key k -> value_at M' k = if decide (k = [97; 98]) then 7 else value_at ∅ k)).
Proof.
  refine (proj1 (proj2 (trie_refines_map false empty_trie ∅ [] _)) [97; 98] 7 _ _ _ _).
  - apply fresh_trie_ok; split; [done|split; constructor].
  - unfold is_key, MUGGLE_TRIE_CHILDREN_SIZE; repeat (apply Forall_cons; split; [lia|]); apply Forall_nil; done.
  - split; [right; split; [vm_compute; done|set_solver]|].
    intros r s' owned' [= <- <-] (Hp & _); split; [|done]; right; split; [vm_compute; done|].
    simpl in Hp; rewrite <- Hp; set_solver.
  - simpl; lia.
Defined.

(** A character above 127 is negative where [char] is signed: the lookup
    leaves the array of children. *)
Lemma trie_signed_char_defect {S : Type} (t : muggle_trie S) (c : Z) (key : list Z) :
  c < 0 -> muggle_trie_find t (c :: key) = None.
Proof.
  intros Hc; unfold muggle_trie_find, find_loop; cbn [tget mbind option_bind].
  unfold rd; rewrite decide_False by lia; done.
Qed.
