(* ===== verification/TimeCounter.v ===== *)
(** * Time counters: [time/time_counter.c], the branch of POSIX hosts.

    A reading of the clock, which [clock_gettime] gives, is an argument of the
    operations that read it.  Signed 64-bit arithmetic that overflows has no
    meaning in C, which [i64] renders as [None]. *)
From S2P Require Import Prelude.

Definition i64 (x : Z) : option Z := if (- 2 ^ 63 <=? x) && (x <? 2 ^ 63) then Some x else None.

Lemma i64_Some x : - 2 ^ 63 <= x < 2 ^ 63 -> i64 x = Some x.
Proof. intros H; unfold i64; by rewrite (proj2 (Z.leb_le _ _)), (proj2 (Z.ltb_lt _ _)) by lia. Qed.

Record timespec := TS { tv_sec : Z; tv_nsec : Z }.

Record muggle_time_counter := TC { start_ts : timespec; end_ts : timespec }.

Definition muggle_time_counter_init : bool * muggle_time_counter := (true, TC (TS 0 0) (TS 0 0)).

Definition muggle_time_counter_start (tc : muggle_time_counter) (now : timespec) : muggle_time_counter :=
  TC now (end_ts tc).

Definition muggle_time_counter_end (tc : muggle_time_counter) (now : timespec) : muggle_time_counter :=
  TC (start_ts tc) now.

Definition muggle_time_counter_interval_ns (tc : muggle_time_counter) : option Z :=
  s ← i64 (tv_sec (end_ts tc) - tv_sec (start_ts tc));
  ns ← i64 (s * 1000000000);
  ns ← i64 (ns + tv_nsec (end_ts tc));
  i64 (ns - tv_nsec (start_ts tc)).

Definition muggle_time_counter_interval_ms (tc : muggle_time_counter) : option Z :=
  s ← i64 (tv_sec (end_ts tc) - tv_sec (start_ts tc));
  ms ← i64 (s * 1000);
  d ← i64 (tv_nsec (end_ts tc) - tv_nsec (start_ts tc));
  i64 (ms + Z.quot d 1000000).

Definition muggle_time_counter_move_end_to_start (tc : muggle_time_counter) : muggle_time_counter :=
  TC (end_ts tc) (end_ts tc).

(** ** Readings of the clock *)

(** A reading of a clock that started less than 136 years ago. *)
Definition reading (ts : timespec) : Prop := 0 <= tv_sec ts < 2 ^ 32 /\ 0 <= tv_nsec ts < 1000000000.

Definition nanoseconds (ts : timespec) : Z := tv_sec ts * 1000000000 + tv_nsec ts.

Lemma nanoseconds_bounds ts : reading ts -> 0 <= nanoseconds ts < 2 ^ 62.
Proof. unfold reading, nanoseconds; lia. Qed.

Lemma interval_ns_exact tc : reading (start_ts tc) -> reading (end_ts tc) ->
  muggle_time_counter_interval_ns tc = Some (nanoseconds (end_ts tc) - nanoseconds (start_ts tc)).
Proof.
  unfold reading, muggle_time_counter_interval_ns, nanoseconds; intros [H1 H2] [H3 H4].
  rewrite i64_Some by lia; simpl; rewrite i64_Some by lia; simpl.
  rewrite i64_Some by lia; simpl; rewrite i64_Some by lia; f_equal; lia.
Qed.

(** In milliseconds the result is off by less than one: it is the floor or
    the ceiling of the exact interval. *)
Lemma interval_ms_close tc : reading (start_ts tc) -> reading (end_ts tc) ->
  exists ms, muggle_time_counter_interval_ms tc = Some ms /\
    let ns := nanoseconds (end_ts tc) - nanoseconds (start_ts tc) in
    ns - 1000000 < ms * 1000000 < ns + 1000000 /\ (0 <= ns -> 0 <= ms).
Proof.
  unfold reading, muggle_time_counter_interval_ms, nanoseconds; intros [H1 H2] [H3 H4].
  rewrite i64_Some by lia; cbn [mbind option_bind]; rewrite i64_Some by lia; cbn [mbind option_bind].
  rewrite i64_Some by lia; cbn [mbind option_bind].
  set (d := tv_nsec (end_ts tc) - tv_nsec (start_ts tc)).
  pose proof (Z.quot_rem' d 1000000) as Hqr.
  pose proof (Z.rem_bound_abs d 1000000 ltac:(done)) as Hr.
  rewrite i64_Some by lia; eexists; split; [done|]; cbv zeta.
  replace (tv_sec (end_ts tc) * 1000000000 + tv_nsec (end_ts tc) - (tv_sec (start_ts tc) * 1000000000 + tv_nsec (start_ts tc)))
    with ((tv_sec (end_ts tc) - tv_sec (start_ts tc)) * 1000000000 + d) by (unfold d; lia).
  split; [lia|]; lia.
Qed.
