(* ===== verification/FlowController.v ===== *)
(** * Flow controllers: [time/flow_controller.c] and
    [time/fast_flow_controller.c] (the branch of hosts with [rdtscp]).

    Both keep a ring of the times of the last [n] recorded calls and let a
    call pass when the oldest of them is at least a time range ago; one
    counts nanoseconds of the clock, the other ticks of the processor.
    [FlowControl] is the interface that both implement, against which the
    theorems are proved; the specification is the list of all recorded
    times, newest first. *)
From S2P Require Import Prelude TimeCounter.

(** [(int64_t* )malloc(sizeof(int64_t) * n)] and the loop that fills it. *)
Definition fill_times (n x : Z) : option (list Z) :=
  for_up (fun i arr => wr arr i x) (Z.to_nat n) 0 (replicate (Z.to_nat n) 0).

(** ** Nanoseconds *)

(** [fc_arr]: [None] is the null pointer. *)
Record muggle_flow_controller := FC {
  fc_arr : option (list Z); fc_t : Z; fc_n : Z; fc_cursor : Z; fc_tc : muggle_time_counter
}.

Definition fc_zero : muggle_flow_controller := FC None 0 0 0 (TC (TS 0 0) (TS 0 0)).

(** [mem] tells whether [malloc] succeeds; [now] is the clock at the start. *)
Definition muggle_flow_ctl_init (mem : bool) (now : timespec) (time_range_sec n init_forward_sec : Z)
  : option (bool * muggle_flow_controller) :=
  if n =? 0 then Some (false, fc_zero)
  else if time_range_sec <=? 0 then Some (false, fc_zero)
  else if negb mem then Some (false, fc_zero)
  else
    t ← i64 (time_range_sec * 1000000000);
    let '(_, tc) := muggle_time_counter_init in
    let tc := muggle_time_counter_start tc now in
    neg ← i64 (- init_forward_sec);
    elapsed_ns ← i64 (neg * 1000000000);
    arr ← fill_times n elapsed_ns;
    Some (true, FC (Some arr) t n 0 tc).

Definition muggle_flow_ctl_destroy (f : muggle_flow_controller) : muggle_flow_controller :=
  match fc_arr f with
  | Some _ => FC None (fc_t f) (fc_n f) (fc_cursor f) (fc_tc f)
  | None => f
  end.

Definition muggle_flow_ctl_get_curr_elapsed (f : muggle_flow_controller) (now : timespec)
  : option (Z * muggle_flow_controller) :=
  let tc := muggle_time_counter_end (fc_tc f) now in
  e ← muggle_time_counter_interval_ns tc;
  Some (e, FC (fc_arr f) (fc_t f) (fc_n f) (fc_cursor f) tc).

Definition muggle_flow_ctl_check (f : muggle_flow_controller) (elapsed_ns : Z) : option bool :=
  arr ← fc_arr f; y ← rd arr (fc_cursor f);
  diff ← i64 (elapsed_ns - y);
  Some (fc_t f <=? diff).

Definition muggle_flow_ctl_update (f : muggle_flow_controller) (elapsed_ns : Z) : option muggle_flow_controller :=
  arr ← fc_arr f; arr ← wr arr (fc_cursor f) elapsed_ns;
  Some (FC (Some arr) (fc_t f) (fc_n f) (u32 (fc_cursor f + 1) mod fc_n f) (fc_tc f)).

Definition muggle_flow_ctl_check_and_update (f : muggle_flow_controller) (now : timespec)
  : option (bool * muggle_flow_controller) :=
  '(elapsed_ns, f) ← muggle_flow_ctl_get_curr_elapsed f now;
  ok ← muggle_flow_ctl_check f elapsed_ns;
  if negb ok then Some (false, f)
  else f ← muggle_flow_ctl_update f elapsed_ns; Some (true, f).

Definition muggle_flow_ctl_check_and_force_update (f : muggle_flow_controller) (now : timespec)
  : option (bool * muggle_flow_controller) :=
  '(elapsed_ns, f) ← muggle_flow_ctl_get_curr_elapsed f now;
  ret ← muggle_flow_ctl_check f elapsed_ns;
  f ← muggle_flow_ctl_update f elapsed_ns;
  Some (ret, f).

(** ** Ticks *)

Record muggle_fast_flow_controller := FFC {
  ffc_arr : option (list Z); ffc_t : Z; t_ticks : Z; ffc_n : Z; ffc_cursor : Z; start_ticks : Z
}.

Definition ffc_zero : muggle_fast_flow_controller := FFC None 0 0 0 0 0.

(** [freq] is [(int64_t)tick_freq]; [ticks] is what [muggle_rdtscp] returns. *)
Definition muggle_fast_flow_ctl_init (mem : bool) (ticks : Z) (time_range_sec n init_forward_sec freq : Z)
  : option (bool * muggle_fast_flow_controller) :=
  if n =? 0 then Some (false, ffc_zero)
  else if time_range_sec <=? 0 then Some (false, ffc_zero)
  else if negb mem then Some (false, ffc_zero)
  else
    t ← i64 (time_range_sec * 1000000000);
    t_ticks ← i64 (time_range_sec * freq);
    neg ← i64 (- init_forward_sec);
    elapsed_ticks ← i64 (neg * freq);
    arr ← fill_times n elapsed_ticks;
    Some (true, FFC (Some arr) t t_ticks n 0 ticks).

Definition muggle_fast_flow_ctl_destroy (f : muggle_fast_flow_controller) : muggle_fast_flow_controller :=
  match ffc_arr f with
  | Some _ => FFC None (ffc_t f) (t_ticks f) (ffc_n f) (ffc_cursor f) (start_ticks f)
  | None => f
  end.

Definition muggle_fast_flow_ctl_get_curr_elapsed (f : muggle_fast_flow_controller) (curr_ticks : Z) : Z :=
  swrap 64 (u64 (curr_ticks - start_ticks f)).

Definition muggle_fast_flow_ctl_check (f : muggle_fast_flow_controller) (elapsed_ticks : Z) : option bool :=
  arr ← ffc_arr f; y ← rd arr (ffc_cursor f);
  diff ← i64 (elapsed_ticks - y);
  Some (t_ticks f <=? diff).

Definition muggle_fast_flow_ctl_update (f : muggle_fast_flow_controller) (elapsed_ticks : Z)
  : option muggle_fast_flow_controller :=
  arr ← ffc_arr f; arr ← wr arr (ffc_cursor f) elapsed_ticks;
  Some (FFC (Some arr) (ffc_t f) (t_ticks f) (ffc_n f) (u32 (ffc_cursor f + 1) mod ffc_n f) (start_ticks f)).

Definition muggle_fast_flow_ctl_check_and_update (f : muggle_fast_flow_controller) (curr_ticks : Z)
  : option (bool * muggle_fast_flow_controller) :=
  let elapsed_ticks := muggle_fast_flow_ctl_get_curr_elapsed f curr_ticks in
  ok ← muggle_fast_flow_ctl_check f elapsed_ticks;
  if negb ok then Some (false, f)
  else f ← muggle_fast_flow_ctl_update f elapsed_ticks; Some (true, f).

Definition muggle_fast_flow_ctl_check_and_force_update (f : muggle_fast_flow_controller) (curr_ticks : Z)
  : option (bool * muggle_fast_flow_controller) :=
  let elapsed_ticks := muggle_fast_flow_ctl_get_curr_elapsed f curr_ticks in
  ret ← muggle_fast_flow_ctl_check f elapsed_ticks;
  f ← muggle_fast_flow_ctl_update f elapsed_ticks;
  Some (ret, f).

(** ** The ring of times *)

Record window := W { w_arr : list Z; w_t : Z; w_n : Z; w_cursor : Z }.

Definition w_update (w : window) (e : Z) : window :=
  W (<[Z.to_nat (w_cursor w) := e]> (w_arr w)) (w_t w) (w_n w) ((w_cursor w + 1) mod w_n w).

Definition bounded (x : Z) : Prop := - 2 ^ 62 < x < 2 ^ 62.

(** The ring holds the first [n] times of [log], the oldest at the cursor. *)
Record w_inv (w : window) (log : list Z) : Prop := {
  wi_size : Z.of_nat (length (w_arr w)) = w_n w;
  wi_n : 0 < w_n w < 2 ^ 32;
  wi_cursor : 0 <= w_cursor w < w_n w;
  wi_bounded : Forall bounded (w_arr w);
  wi_log : (length (w_arr w) <= length log)%nat;
  wi_ring : drop (Z.to_nat (w_cursor w)) (w_arr w) ++ take (Z.to_nat (w_cursor w)) (w_arr w)
            = reverse (take (length (w_arr w)) log)
}.

(** What a flow controller promises: its two calls check the time elapsed
    against the time at the cursor, and record it. *)
Class FlowControl (F R : Type) (check_and_update check_and_force_update : F -> R -> option (bool * F)) := {
  fl_window : F -> option window;
  fl_elapsed : F -> R -> Z;
  fl_reads : F -> R -> Prop;
  fl_bounded f r : fl_reads f r -> bounded (fl_elapsed f r);
  fl_calls f w r y :
    fl_window f = Some w -> fl_reads f r -> rd (w_arr w) (w_cursor w) = Some y -> bounded y ->
    0 <= w_cursor w < w_n w -> w_n w < 2 ^ 32 ->
    exists f1 f2,
      let e := fl_elapsed f r in
      let ok := w_t w <=? e - y in
      check_and_update f r = Some (ok, if ok then f2 else f1) /\
      check_and_force_update f r = Some (ok, f2) /\
      fl_window f1 = Some w /\ fl_window f2 = Some (w_update w e) /\
      (forall g, g = f1 \/ g = f2 -> fl_elapsed g = fl_elapsed f /\ fl_reads g = fl_reads f)
}.

#[global] Program Instance flow_ctl :
  FlowControl muggle_flow_controller timespec muggle_flow_ctl_check_and_update muggle_flow_ctl_check_and_force_update := {|
  fl_window f := arr ← fc_arr f; Some (W arr (fc_t f) (fc_n f) (fc_cursor f));
  fl_elapsed f now := nanoseconds now - nanoseconds (start_ts (fc_tc f));
  fl_reads f now := reading (start_ts (fc_tc f)) /\ reading now
|}.
Next Obligation.
  simpl; intros f now [H1%nanoseconds_bounds H2%nanoseconds_bounds]; unfold bounded; lia.
Qed.
Next Obligation.
  simpl; intros [[arr|] t n c [s e]] w r y; simpl; [|done]; intros [= <-] [Hs Hr] Hy Hb Hc Hn; simpl in *.
  pose proof (nanoseconds_bounds _ Hs); pose proof (nanoseconds_bounds _ Hr).
  assert (Hel : muggle_flow_ctl_get_curr_elapsed (FC (Some arr) t n c (TC s e)) r
    = Some (nanoseconds r - nanoseconds s, FC (Some arr) t n c (TC s r))).
  { unfold muggle_flow_ctl_get_curr_elapsed; rewrite interval_ns_exact by done; done. }
  assert (Hck : muggle_flow_ctl_check (FC (Some arr) t n c (TC s r)) (nanoseconds r - nanoseconds s)
    = Some (t <=? nanoseconds r - nanoseconds s - y)).
  { unfold muggle_flow_ctl_check; simpl; rewrite Hy; simpl; rewrite i64_Some by (unfold bounded in *; lia); done. }
  set (w := W arr t n c); set (x := nanoseconds r - nanoseconds s) in *.
  assert (Hup : muggle_flow_ctl_update (FC (Some arr) t n c (TC s r)) x
    = Some (FC (Some (w_arr (w_update w x))) t n (w_cursor (w_update w x)) (TC s r))).
  { unfold muggle_flow_ctl_update; simpl; rewrite (wr_Some _ _ _ (rd_Some _ _ _ Hy)); simpl.
    rewrite wrap_small by (unfold in_width; lia); done. }
  exists (FC (Some arr) t n c (TC s r)); eexists; split; [|split; [|split; [done|split]]].
  - unfold muggle_flow_ctl_check_and_update; rewrite Hel; cbn [mbind option_bind]; rewrite Hck; cbn [mbind option_bind].
    destruct (t <=? x - y); cbn [negb]; [rewrite Hup|]; done.
  - unfold muggle_flow_ctl_check_and_force_update; rewrite Hel; cbn [mbind option_bind]; rewrite Hck; cbn [mbind option_bind].
    by rewrite Hup.
  - done.
  - by intros g [->| ->].
Qed.

#[global] Program Instance fast_flow_ctl :
  FlowControl muggle_fast_flow_controller Z muggle_fast_flow_ctl_check_and_update
    muggle_fast_flow_ctl_check_and_force_update := {|
  fl_window f := arr ← ffc_arr f; Some (W arr (t_ticks f) (ffc_n f) (ffc_cursor f));
  fl_elapsed f r := r - start_ticks f;
  fl_reads f r := in_width 64 r /\ in_width 64 (start_ticks f) /\ 0 <= r - start_ticks f < 2 ^ 62
|}.
Next Obligation. simpl; intros f r (_ & _ & H); unfold bounded; lia. Qed.
Next Obligation.
  simpl; intros [[arr|] t0 t n c s] w r y; simpl; [|done]; intros [= <-] (Hr & Hs & Hd) Hy Hb Hc Hn; simpl in *.
  assert (Hel : muggle_fast_flow_ctl_get_curr_elapsed (FFC (Some arr) t0 t n c s) r = r - s).
  { unfold muggle_fast_flow_ctl_get_curr_elapsed; simpl; rewrite wrap_small by (unfold in_width in *; lia).
    apply swrap_small; [done|simpl; lia]. }
  assert (Hck : muggle_fast_flow_ctl_check (FFC (Some arr) t0 t n c s) (r - s) = Some (t <=? r - s - y)).
  { unfold muggle_fast_flow_ctl_check; simpl; rewrite Hy; simpl; rewrite i64_Some by (unfold bounded in *; lia); done. }
  set (w := W arr t n c).
  assert (Hup : muggle_fast_flow_ctl_update (FFC (Some arr) t0 t n c s) (r - s)
    = Some (FFC (Some (w_arr (w_update w (r - s)))) t0 t n (w_cursor (w_update w (r - s))) s)).
  { unfold muggle_fast_flow_ctl_update; simpl; rewrite (wr_Some _ _ _ (rd_Some _ _ _ Hy)); simpl.
    rewrite wrap_small by (unfold in_width; lia); done. }
  exists (FFC (Some arr) t0 t n c s); eexists; split; [|split; [|split; [done|split]]].
  - unfold muggle_fast_flow_ctl_check_and_update; rewrite Hel, Hck; cbn [mbind option_bind].
    destruct (t <=? r - s - y); cbn [negb]; [rewrite Hup|]; done.
  - unfold muggle_fast_flow_ctl_check_and_force_update; rewrite Hel, Hck; cbn [mbind option_bind].
    by rewrite Hup.
  - done.
  - by intros g [->| ->].
Qed.

(** ** The specification *)

(** The [n]-th newest time of [log] is at least [t] before [e]. *)
Definition passes (n : nat) (t : Z) (log : list Z) (e : Z) : bool :=
  match log !! pred n with Some y => t <=? e - y | None => false end.

(** Calls at times [e], recorded when they pass or when [force] is set: the
    results, and all recorded times. *)
Fixpoint window_spec (n : nat) (t : Z) (log : list Z) (calls : list (bool * Z)) : list bool * list Z :=
  match calls with
  | [] => ([], log)
  | (force, e) :: calls =>
      let ok := passes n t log e in
      let '(oks, log) := window_spec n t (if ok || force then e :: log else log) calls in
      (ok :: oks, log)
  end.

(** The times of the calls that passed. *)
Fixpoint passed (calls : list (bool * Z)) (oks : list bool) : list Z :=
  match calls, oks with
  | (_, e) :: calls, ok :: oks => if ok then e :: passed calls oks else passed calls oks
  | _, _ => []
  end.

(** How many of the times lie in the [t] units from [x] on. *)
Definition within (x t : Z) (l : list Z) : nat := length (filter (fun e => x <= e < x + t) l).

(** ** The ring implements the specification *)

Lemma reverse_take_snoc {A} (l : list A) n : (0 < n)%nat -> (n <= length l)%nat ->
  exists y, l !! pred n = Some y /\ reverse (take n l) = y :: reverse (take (pred n) l).
Proof.
  intros H0 Hn; destruct (lookup_lt_is_Some_2 l (pred n)) as [y Hy]; [lia|]; exists y; split; [done|].
  replace n with (S (pred n)) at 1 by lia; rewrite (take_S_r _ _ _ Hy), reverse_app; done.
Qed.

Lemma ring_head (l : list Z) c y q : (c < length l)%nat -> drop c l ++ take c l = y :: q ->
  l !! c = Some y /\ drop (S c) l ++ take c l = q.
Proof.
  intros Hc; destruct (lookup_lt_is_Some_2 l c Hc) as [z Hz].
  rewrite (drop_S _ _ _ Hz); simpl; intros [= -> <-]; done.
Qed.

(** Overwriting the oldest time and moving the cursor. *)
Lemma ring_advance (l : list Z) c e : (c < length l)%nat ->
  let l' := <[c := e]> l in
  let c' := Z.to_nat ((Z.of_nat c + 1) mod Z.of_nat (length l)) in
  drop c' l' ++ take c' l' = drop (S c) l ++ take c l ++ [e].
Proof.
  intros Hc l' c'; assert (take c l' = take c l) as Ht by (unfold l'; by rewrite take_insert_ge).
  assert (drop (S c) l' = drop (S c) l) as Hd by (unfold l'; by rewrite drop_insert_lt by lia).
  assert (l' !! c = Some e) as He by (apply list_lookup_insert_eq; done).
  assert (take (S c) l' = take c l ++ [e]) as Hs by (rewrite (take_S_r _ _ _ He); by rewrite Ht).
  destruct (decide (S c = length l)) as [E|E].
  - assert (c' = 0%nat) as ->.
    { unfold c'; replace (Z.of_nat c + 1) with (Z.of_nat (length l)) by lia; by rewrite Z.mod_same by lia. }
    rewrite drop_0, take_0, app_nil_r, <- Hs, take_ge by (unfold l'; rewrite length_insert; lia).
    by rewrite drop_ge by lia.
  - assert (c' = S c) as -> by (unfold c'; rewrite Z.mod_small; lia).
    by rewrite Hd, Hs.
Qed.

Lemma w_inv_head w log : w_inv w log -> exists y,
  rd (w_arr w) (w_cursor w) = Some y /\ bounded y /\
  forall e, passes (length (w_arr w)) (w_t w) log e = (w_t w <=? e - y).
Proof.
  intros Hw; pose proof (wi_size _ _ Hw); pose proof (wi_n _ _ Hw); pose proof (wi_cursor _ _ Hw).
  destruct (reverse_take_snoc log (length (w_arr w))) as (y & Hy & Hr); [lia|apply (wi_log _ _ Hw)|].
  pose proof (wi_ring _ _ Hw) as Hq; rewrite Hr in Hq.
  apply ring_head in Hq as [Hc _]; [|lia].
  exists y; split; [|split].
  - rewrite <- (Z2Nat.id (w_cursor w)) by lia; by rewrite rd_nat.
  - pose proof (wi_bounded _ _ Hw) as Hb; rewrite Forall_forall in Hb; apply Hb.
    by eapply list_elem_of_lookup_2.
  - intros e; unfold passes; by rewrite Hy.
Qed.

Lemma w_inv_update w log e : w_inv w log -> bounded e -> w_inv (w_update w e) (e :: log).
Proof.
  intros Hw He; pose proof (wi_size _ _ Hw) as Hs; pose proof (wi_n _ _ Hw); pose proof (wi_cursor _ _ Hw).
  pose proof (wi_log _ _ Hw).
  destruct (reverse_take_snoc log (length (w_arr w))) as (y & Hy & Hr); [lia|done|].
  pose proof (wi_ring _ _ Hw) as Hq; rewrite Hr in Hq; apply ring_head in Hq as [_ Hq]; [|lia].
  split; simpl; rewrite ?length_insert; try done.
  - apply Z.mod_pos_bound; lia.
  - apply Forall_insert; [apply Hw|done].
  - lia.
  - pose proof (ring_advance (w_arr w) (Z.to_nat (w_cursor w)) e ltac:(lia)) as Ha; cbv zeta in Ha.
    rewrite Z2Nat.id, Hs in Ha by lia; rewrite Ha, app_assoc, Hq.
    replace (length (w_arr w)) with (S (pred (length (w_arr w)))) at 2 by lia; simpl.
    by rewrite reverse_cons.
Qed.

Section Runs.
Context {F R : Type} (cau cafu : F -> R -> option (bool * F)) `{!FlowControl F R cau cafu}.

(** A sequence of calls, [true] for [check_and_force_update]. *)
Fixpoint flow_run (f : F) (calls : list (bool * R)) : option (list bool * F) :=
  match calls with
  | [] => Some ([], f)
  | (force, r) :: calls =>
      '(ok, f) ← (if force then cafu f r else cau f r);
      '(oks, f) ← flow_run f calls;
      Some (ok :: oks, f)
  end.

Lemma flow_run_spec f w log calls :
  fl_window f = Some w -> w_inv w log -> Forall (fun c => fl_reads f c.2) calls ->
  let es := (fun c => (c.1, fl_elapsed f c.2)) <$> calls in
  exists f' w', flow_run f calls = Some ((window_spec (length (w_arr w)) (w_t w) log es).1, f') /\
    fl_window f' = Some w' /\ w_inv w' (window_spec (length (w_arr w)) (w_t w) log es).2.
Proof.
  revert f w log; induction calls as [|[force r] calls IH]; intros f w log Hf Hw Hc es.
  { by exists f, w. }
  apply Forall_cons in Hc as [Hr Hc]; simpl in Hr.
  destruct (w_inv_head _ _ Hw) as (y & Hy & Hb & Hp).
  destruct (fl_calls f w r y Hf Hr Hy Hb) as (f1 & f2 & E1 & E2 & W1 & W2 & Hsame); [apply Hw|apply Hw|].
  unfold es; cbn [fmap list_fmap fst snd window_spec]; rewrite Hp.
  set (ok := w_t w <=? fl_elapsed f r - y) in *.
  pose proof (w_inv_update w log _ Hw (fl_bounded f r Hr)) as Hw2.
  assert (exists g, (if force then cafu f r else cau f r) = Some (ok, g) /\ (g = f1 \/ g = f2) /\
    exists v, fl_window g = Some v /\ length (w_arr v) = length (w_arr w) /\ w_t v = w_t w /\
      w_inv v (if ok || force then fl_elapsed f r :: log else log)) as (g & Eg & Hg & v & Hv & Hl & Ht & Hi).
  { destruct force; [exists f2|exists (if ok then f2 else f1)]; (split; [done|]); rewrite ?orb_true_r, ?orb_false_r.
    - split; [by right|]; exists (w_update w (fl_elapsed f r)); split_and!; try done; simpl; by rewrite length_insert.
    - destruct ok; (split; [auto|]).
      + exists (w_update w (fl_elapsed f r)); split_and!; try done; simpl; by rewrite length_insert.
      + by exists w. }
  destruct (Hsame g Hg) as [Hel Hrd].
  destruct (IH g v _ Hv Hi) as (f' & w' & E3 & W3 & I3).
  { eapply Forall_impl; [exact Hc|]; simpl; intros c; by rewrite Hrd. }
  rewrite Hl, Ht, Hel in E3, I3.
  cbn [flow_run]; rewrite Eg; cbn [mbind option_bind]; rewrite E3; cbn [mbind option_bind].
  destruct (window_spec _ _ _ _) as [oks log']; by exists f', w'.
Qed.
End Runs.

(** ** The rate is limited *)

Lemma within_cons x t e l : within x t (e :: l) = ((if decide (x <= e < x + t)%Z then 1 else 0) + within x t l)%nat.
Proof. unfold within; rewrite filter_cons; by case_decide. Qed.

Lemma within_none x t l : Forall (fun y => y < x) l -> within x t l = 0%nat.
Proof.
  induction 1 as [|y l Hy _ IH]; [done|]; rewrite within_cons, decide_False by lia; done.
Qed.

Lemma within_le x t l : (within x t l <= length l)%nat.
Proof. apply length_filter. Qed.

Lemma within_app x t l k : within x t (l ++ k) = (within x t l + within x t k)%nat.
Proof. unfold within; by rewrite filter_app, length_app. Qed.

Lemma within_sublist x t l k : l `sublist_of` k -> (within x t l <= within x t k)%nat.
Proof.
  induction 1 as [|e l k _ IH|e l k _ IH]; rewrite ?within_cons; [done|lia|lia].
Qed.

Definition newest_first : list Z -> Prop := StronglySorted (fun a b => b <= a).

(** Fewer than [n] recorded times are in a window that a new call which
    passes is in, too. *)
Lemma within_recent n t x x0 rec e :
  (0 < n)%nat -> newest_first rec -> passes n t (rec ++ replicate n x0) e = true -> x <= e < x + t ->
  (within x t rec < n)%nat.
Proof.
  intros Hn Hs Hp Hx; unfold passes in Hp.
  destruct (decide (pred n < length rec)%nat) as [Hl|Hl].
  2:{ pose proof (within_le x t rec); lia. }
  destruct (lookup_lt_is_Some_2 rec (pred n) Hl) as [y Hy].
  rewrite (lookup_app_l_Some _ _ _ _ Hy) in Hp; apply Z.leb_le in Hp.
  pose proof (take_drop_middle _ _ _ Hy) as E; rewrite <- E, within_app.
  assert (within x t (y :: drop (S (pred n)) rec) = 0%nat) as ->.
  { apply within_none; unfold newest_first in Hs; rewrite <- E in Hs.
    apply StronglySorted_app in Hs as (_ & _ & Hs); apply StronglySorted_cons in Hs as [Hf _].
    constructor; [lia|]; eapply Forall_impl; [exact Hf|]; simpl; lia. }
  pose proof (within_le x t (take (pred n) rec)); rewrite length_take in *; lia.
Qed.

Lemma spec_rate n t x x0 calls : forall rec P,
  (0 < n)%nat -> newest_first rec -> P `sublist_of` rec -> (within x t P <= n)%nat ->
  StronglySorted Z.le (calls.*2) -> (forall y e, y ∈ rec -> e ∈ calls.*2 -> y <= e) ->
  (within x t (passed calls (window_spec n t (rec ++ replicate n x0) calls).1) + within x t P <= n)%nat.
Proof.
  induction calls as [|[force e] calls IH]; intros rec P Hn Hs Hsub HP Hc Hle; [done|].
  cbn [fmap list_fmap snd] in Hc, Hle; apply StronglySorted_cons in Hc as [He Hc]; rewrite Forall_forall in He.
  assert (newest_first (e :: rec)) as Hs'.
  { constructor; [done|]; apply Forall_forall; intros y Hy; apply Hle; set_solver. }
  assert (forall y z, y ∈ e :: rec -> z ∈ calls.*2 -> y <= z) as Hle'.
  { intros y z [->|Hy]%elem_of_cons Hz; [by apply He|apply Hle; set_solver]. }
  cbn [window_spec]; destruct (passes n t (rec ++ replicate n x0) e) eqn:Ep; cbn [orb].
  - pose proof (IH (e :: rec) (e :: P) Hn Hs' ltac:(by constructor)) as IH1.
    cbn [app] in IH1; destruct (window_spec _ _ _ _) as [oks log]; cbn [fst passed] in *.
    rewrite within_cons in IH1 |- *; case_decide as Hx.
    + pose proof (within_recent n t x x0 rec e Hn Hs Ep Hx).
      pose proof (within_sublist x t _ _ Hsub).
      specialize (IH1 ltac:(lia) Hc Hle'); lia.
    + specialize (IH1 ltac:(lia) Hc Hle'); lia.
  - destruct force.
    + pose proof (IH (e :: rec) P Hn Hs' ltac:(by constructor) HP Hc Hle') as IH1.
      cbn [app] in IH1; destruct (window_spec _ _ _ _) as [oks log]; done.
    + pose proof (IH rec P Hn Hs Hsub HP Hc) as IH1.
      destruct (window_spec _ _ _ _) as [oks log]; cbn [fst passed] in *.
      apply IH1; intros y z Hy Hz; apply Hle'; set_solver.
Qed.

(** ** Initialisation *)

Lemma fill_times_ok n x : 0 <= n -> fill_times n x = Some (replicate (Z.to_nat n) x).
Proof.
  intros Hn; unfold fill_times.
  destruct (for_up_inv (fun i arr => wr arr i x)
    (fun i arr => arr = replicate (Z.to_nat i) x ++ replicate (Z.to_nat (n - i)) 0)
    (Z.to_nat n) 0 (replicate (Z.to_nat n) 0)) as (s & -> & ->).
  - simpl; do 2 f_equal; lia.
  - intros j arr Hj ->; eexists; split.
    + replace (Z.to_nat (n - j)) with (S (Z.to_nat (n - j - 1))) by lia; simpl.
      apply wr_mid; rewrite length_replicate; lia.
    + replace (Z.to_nat (j + 1)) with (Z.to_nat j + 1)%nat by lia; rewrite replicate_add; simpl.
      rewrite <- app_assoc; simpl; do 3 f_equal; lia.
  - replace (Z.to_nat (n - (0 + Z.of_nat (Z.to_nat n)))) with 0%nat by lia; simpl; rewrite app_nil_r.
    do 2 f_equal; lia.
Qed.

Lemma fresh_window n t x : 0 < n < 2 ^ 32 -> bounded x ->
  w_inv (W (replicate (Z.to_nat n) x) t n 0) (replicate (Z.to_nat n) x).
Proof.
  intros Hn Hx; split; simpl; rewrite ?length_replicate; try lia.
  - by apply Forall_replicate.
  - rewrite drop_0, app_nil_r, take_ge, reverse_replicate by (rewrite ?length_replicate; lia); done.
Qed.

Lemma flow_init_ok now range n fwd : 0 < range < 2 ^ 33 -> 0 < n < 2 ^ 32 -> - 2 ^ 32 <= fwd <= 2 ^ 32 ->
  muggle_flow_ctl_init true now range n fwd
  = Some (true, FC (Some (replicate (Z.to_nat n) (- fwd * 1000000000))) (range * 1000000000) n 0 (TC now (TS 0 0))).
Proof.
  intros Hr Hn Hf; unfold muggle_flow_ctl_init.
  rewrite (proj2 (Z.eqb_neq n 0)), (proj2 (Z.leb_gt range 0)) by lia; cbn [negb].
  rewrite (i64_Some (range * 1000000000)), (i64_Some (- fwd)) by lia; cbn [mbind option_bind].
  rewrite i64_Some by lia; cbn [mbind option_bind]; by rewrite fill_times_ok by lia.
Qed.

(** [init] fails exactly on a count or a time range that is not positive, or
    without memory; it then leaves a controller without a ring. *)
Lemma flow_init_error mem now range n fwd :
  0 <= n < 2 ^ 32 -> range < 2 ^ 33 -> - 2 ^ 32 <= fwd <= 2 ^ 32 ->
  exists ok f, muggle_flow_ctl_init mem now range n fwd = Some (ok, f) /\
    (ok = true <-> n <> 0 /\ 0 < range /\ mem = true) /\ (ok = false -> f = fc_zero).
Proof.
  intros Hn Hr Hf; destruct (decide (n <> 0 /\ 0 < range /\ mem = true)) as [(H1 & H2 & ->)|H].
  { rewrite flow_init_ok by lia; do 2 eexists; split; [done|]; split; [|done]; tauto. }
  unfold muggle_flow_ctl_init; exists false, fc_zero; split; [|split; [split; [done|by intros]|done]].
  destruct (Z.eqb_spec n 0); [done|]; destruct (Z.leb_spec range 0); [done|].
  destruct mem; [|done]; destruct H; split_and!; [done|lia|done].
Qed.

Lemma fast_flow_init_ok ticks range n fwd freq :
  0 < range < 2 ^ 33 -> 0 < n < 2 ^ 32 -> - 2 ^ 63 < range * freq < 2 ^ 63 ->
  - 2 ^ 63 < fwd < 2 ^ 63 -> bounded (fwd * freq) ->
  muggle_fast_flow_ctl_init true ticks range n fwd freq
  = Some (true, FFC (Some (replicate (Z.to_nat n) (- fwd * freq))) (range * 1000000000) (range * freq) n 0 ticks).
Proof.
  unfold bounded; intros Hr Hn Hq Hf Hb; unfold muggle_fast_flow_ctl_init.
  rewrite (proj2 (Z.eqb_neq n 0)), (proj2 (Z.leb_gt range 0)) by lia; cbn [negb].
  rewrite (i64_Some (range * 1000000000)), (i64_Some (range * freq)), (i64_Some (- fwd)) by lia; cbn [mbind option_bind].
  rewrite i64_Some by lia; cbn [mbind option_bind]; by rewrite fill_times_ok by lia.
Qed.

(** ** Properties *)

Lemma sorted_elapsed {R} (m : R -> Z) (s : Z) (calls : list (bool * R)) :
  StronglySorted (fun a b => m a <= m b) (calls.*2) ->
  StronglySorted Z.le (((fun c => (c.1, m c.2 - s)) <$> calls).*2).
Proof.
  induction calls as [|c calls IH]; intros H; cbn [fmap list_fmap snd] in *; [constructor|].
  apply StronglySorted_cons in H as [Hf H]; constructor; [by apply IH|].
  rewrite Forall_forall in Hf; rewrite Forall_forall; intros x Hx.
  apply list_elem_of_fmap in Hx as (y & -> & Hy); apply list_elem_of_fmap in Hy as (d & -> & Hd); simpl.
  specialize (Hf d.2 ltac:(apply list_elem_of_fmap; eauto)); lia.
Qed.

(** C30: the flow controller limits the rate.  For every time range, count and
    initial offset, and every sequence of calls with readings of a clock that
    does not go back: initialisation succeeds, no call faults or overflows, a
    call passes exactly when the [n]-th last recorded time is at least the
    range ago (calls are recorded when they pass, and always by
    [check_and_force_update]), and any interval of the length of the range
    has at most [n] calls that passed. *)
Theorem flow_controller_rate_limit now range n fwd calls
    (Hrange : 0 < range < 2 ^ 33) (Hn : 0 < n < 2 ^ 32) (Hfwd : - 2 ^ 32 <= fwd <= 2 ^ 32)
    (Hnow : reading now) (Hread : Forall (fun c => reading c.2) calls)
    (Hclock : StronglySorted (fun a b => nanoseconds a <= nanoseconds b) (calls.*2)) :
  exists f oks f', muggle_flow_ctl_init true now range n fwd = Some (true, f) /\
    flow_run muggle_flow_ctl_check_and_update muggle_flow_ctl_check_and_force_update f calls = Some (oks, f') /\
    let t := range * 1000000000 in
    let es := (fun c => (c.1, nanoseconds c.2 - nanoseconds now)) <$> calls in
    oks = (window_spec (Z.to_nat n) t (replicate (Z.to_nat n) (- fwd * 1000000000)) es).1 /\
    forall x, (within x t (passed es oks) <= Z.to_nat n)%nat.
Proof.
  rewrite (flow_init_ok now range n fwd) by done.
  set (f := FC _ _ _ _ _).
  destruct (@flow_run_spec _ _ _ _ flow_ctl f
    (W (replicate (Z.to_nat n) (- fwd * 1000000000)) (range * 1000000000) n 0) _ calls eq_refl (fresh_window n (range * 1000000000) (- fwd * 1000000000) Hn ltac:(unfold bounded; lia)))
    as (f' & w' & E & _); [by eapply Forall_impl; [exact Hread|]|].
  cbn [w_arr w_t] in E; rewrite length_replicate in E; exists f; eexists; exists f'.
  split; [done|]; split; [exact E|]; split; [done|]; intros x.
  pose proof (spec_rate (Z.to_nat n) (range * 1000000000) x (- fwd * 1000000000)
    ((fun c => (c.1, nanoseconds c.2 - nanoseconds now)) <$> calls) [] []) as Hs.
  rewrite Nat.add_0_r in Hs; apply Hs; [lia|apply SSorted_nil|done|unfold within; simpl; lia| |intros y e; set_solver].
  by apply sorted_elapsed.
Qed.

Lemma flow_controller_rate_limit_witness :
  exists f oks f', muggle_flow_ctl_init true (TS 5 0) 1 1 1 = Some (true, f) /\
    flow_run muggle_flow_ctl_check_and_update muggle_flow_ctl_check_and_force_update f
      [(false, TS 5 10); (false, TS 6 9); (false, TS 6 10)] = Some (oks, f') /\
    oks = [true; false; true] /\
    forall x, (within x 1000000000
      (passed [(false, 10%Z); (false, 1000000009%Z); (false, 1000000010%Z)] oks) <= 1)%nat.
Proof.
  apply (flow_controller_rate_limit (TS 5 0) 1 1 1 [(false, TS 5 10); (false, TS 6 9); (false, TS 6 10)]);
    try lia; unfold reading, nanoseconds; repeat first [lia|progress simpl|constructor].
Defined.

(** The fast flow controller limits the rate in ticks: the same for every
    sequence of readings of the tick counter that does not go back within
    [2^62] ticks of the start, [freq] being the ticks of a second. *)
Theorem fast_flow_controller_rate_limit ticks range n fwd freq calls
    (Hrange : 0 < range < 2 ^ 33) (Hn : 0 < n < 2 ^ 32) (Hfreq : - 2 ^ 63 < range * freq < 2 ^ 63)
    (Hfwd : - 2 ^ 63 < fwd < 2 ^ 63) (Hoff : bounded (fwd * freq)) (Hticks : in_width 64 ticks)
    (Hread : Forall (fun c => in_width 64 c.2 /\ 0 <= c.2 - ticks < 2 ^ 62) calls)
    (Hclock : StronglySorted Z.le (calls.*2)) :
  exists f oks f', muggle_fast_flow_ctl_init true ticks range n fwd freq = Some (true, f) /\
    flow_run muggle_fast_flow_ctl_check_and_update muggle_fast_flow_ctl_check_and_force_update f calls = Some (oks, f') /\
    let t := range * freq in
    let es := (fun c => (c.1, c.2 - ticks)) <$> calls in
    oks = (window_spec (Z.to_nat n) t (replicate (Z.to_nat n) (- fwd * freq)) es).1 /\
    forall x, (within x t (passed es oks) <= Z.to_nat n)%nat.
Proof.
  rewrite (fast_flow_init_ok ticks range n fwd freq) by done.
  set (f := FFC _ _ _ _ _ _).
  destruct (@flow_run_spec _ _ _ _ fast_flow_ctl f
    (W (replicate (Z.to_nat n) (- fwd * freq)) (range * freq) n 0) _ calls eq_refl (fresh_window n (range * freq) (- fwd * freq) Hn ltac:(unfold bounded in *; lia)))
    as (f' & w' & E & _); [by eapply Forall_impl; [exact Hread|]; simpl; tauto|].
  cbn [w_arr w_t] in E; rewrite length_replicate in E; exists f; eexists; exists f'.
  split; [done|]; split; [exact E|]; split; [done|]; intros x.
  pose proof (spec_rate (Z.to_nat n) (range * freq) x (- fwd * freq)
    ((fun c => (c.1, c.2 - ticks)) <$> calls) [] []) as Hs.
  rewrite Nat.add_0_r in Hs; apply Hs; [lia|apply SSorted_nil|done|unfold within; simpl; lia| |intros y e; set_solver].
  by apply (sorted_elapsed (fun r => r)).
Qed.

Lemma fast_flow_controller_rate_limit_witness :
  exists f oks f', muggle_fast_flow_ctl_init true 1000 1 2 0 100 = Some (true, f) /\
    flow_run muggle_fast_flow_ctl_check_and_update muggle_fast_flow_ctl_check_and_force_update f
      [(false, 1050); (false, 1100); (true, 1110); (false, 1120)] = Some (oks, f') /\
    oks = [false; true; true; false] /\
    forall x, (within x 100 (passed [(false, 50); (false, 100); (true, 110); (false, 120)]%Z oks) <= 2)%nat.
Proof.
  apply (fast_flow_controller_rate_limit 1000 1 2 0 100 [(false, 1050); (false, 1100); (true, 1110); (false, 1120)]);
    try lia; unfold in_width, bounded; repeat first [lia|progress simpl|constructor].
Defined.
