(* ===== verification/TimeWheel.v ===== *)
(** * The time wheel: [dsaa/time_wheel.c]

    A ring of slots, each a doubly linked list between two sentinels of nodes
    that belong to the caller.  A pointer is a sentinel of a slot or the
    address of a node; [tw_mem] is the memory behind them.  The callback of
    the update is an argument; it may change the wheel, as the code lets it. *)
From S2P Require Import Prelude Nodes TimeCounter.

Inductive wptr := WNull | WHead (i : Z) | WTail (i : Z) | WNode (a : Z).

#[global] Instance wptr_eq_dec : EqDecision wptr.
Proof. solve_decision. Defined.

#[global] Program Instance wptr_countable : Countable wptr :=
  inj_countable'
    (fun p => match p with
              | WNull => inl (inl tt) | WHead i => inl (inr i) | WTail i => inr (inl i) | WNode a => inr (inr a)
              end)
    (fun s => match s with
              | inl (inl _) => WNull | inl (inr i) => WHead i | inr (inl i) => WTail i | inr (inr a) => WNode a
              end) _.
Next Obligation. by intros []. Qed.

Record muggle_time_wheel_node := TN { t_prev : wptr; t_next : wptr; t_data : Z }.

(** [tw_slots]: the pointer to the slots is not null. *)
Record muggle_time_wheel := TW {
  tw_slots : bool; tw_n : Z; unit_ms : Z; insert_mode : Z; tw_tc : muggle_time_counter;
  tw_cur : Z; tw_insert_cur : Z; tw_mem : gmap wptr muggle_time_wheel_node
}.

Definition MUGGLE_TIME_WHEEL_INSERT_MODE_CURRENT : Z := 0.
Definition MUGGLE_TIME_WHEEL_INSERT_MODE_LOOP : Z := 1.

Section Operations.
Implicit Types w : muggle_time_wheel.

Definition with_mem w (m : gmap wptr muggle_time_wheel_node) : muggle_time_wheel :=
  TW (tw_slots w) (tw_n w) (unit_ms w) (insert_mode w) (tw_tc w) (tw_cur w) (tw_insert_cur w) m.
Definition with_tc w (tc : muggle_time_counter) : muggle_time_wheel :=
  TW (tw_slots w) (tw_n w) (unit_ms w) (insert_mode w) tc (tw_cur w) (tw_insert_cur w) (tw_mem w).
Definition with_cur w (cur : Z) : muggle_time_wheel :=
  TW (tw_slots w) (tw_n w) (unit_ms w) (insert_mode w) (tw_tc w) cur (tw_insert_cur w) (tw_mem w).
Definition with_insert_cur w (c : Z) : muggle_time_wheel :=
  TW (tw_slots w) (tw_n w) (unit_ms w) (insert_mode w) (tw_tc w) (tw_cur w) c (tw_mem w).

Definition wnext w (p : wptr) : option wptr := t_next <$> tw_mem w !! p.
Definition wprev w (p : wptr) : option wptr := t_prev <$> tw_mem w !! p.

Definition set_wnext w (p x : wptr) : option muggle_time_wheel :=
  n ← tw_mem w !! p; Some (with_mem w (<[p := TN (t_prev n) x (t_data n)]> (tw_mem w))).
Definition set_wprev w (p x : wptr) : option muggle_time_wheel :=
  n ← tw_mem w !! p; Some (with_mem w (<[p := TN x (t_next n) (t_data n)]> (tw_mem w))).

(** [x % n] of unsigned numbers; a division by zero has no meaning. *)
Definition umod (x n : Z) : option Z := if n =? 0 then None else Some (x mod n).

(** The assignments of the loop of [init] to the two sentinels of a slot. *)
Definition init_slot (i : Z) w : option muggle_time_wheel :=
  let head := WHead i in let tail := WTail i in
  w ← set_wprev w head WNull;
  w ← set_wnext w head tail;
  w ← set_wprev w tail head;
  set_wnext w tail WNull.

(** The memory of [n] slots, with nothing in it yet. *)
Definition new_slots (n : Z) (m : gmap wptr muggle_time_wheel_node) : gmap wptr muggle_time_wheel_node :=
  foldr (fun i m => <[WHead i := TN WNull WNull NULL]> (<[WTail i := TN WNull WNull NULL]> m)) m (seqZ 0 n).

(** [mem] is the memory of the caller's nodes, [now] the clock, [ok] tells
    whether [malloc] succeeds. *)
Definition muggle_time_wheel_init (mem : gmap wptr muggle_time_wheel_node) (ok : bool) (now : timespec)
    (n unit_ms insert_mode : Z) : option (bool * muggle_time_wheel) :=
  let '(tc_ok, tc) := muggle_time_counter_init in
  let w := TW false 0 0 0 tc 0 0 mem in
  if negb tc_ok then Some (false, w)
  else
    let w := with_tc w (muggle_time_counter_start tc now) in
    if negb ok then Some (false, w)
    else
      w ← for_up init_slot (Z.to_nat n) 0 (TW true 0 0 0 (tw_tc w) 0 0 (new_slots n mem));
      Some (true, TW true n unit_ms insert_mode (tw_tc w) 0 0 (tw_mem w)).

Definition muggle_time_wheel_destroy w : muggle_time_wheel :=
  if tw_slots w then
    TW false (tw_n w) (unit_ms w) (insert_mode w) (tw_tc w) (tw_cur w) (tw_insert_cur w)
      (filter (fun kv => match kv.1 with WNode _ => true | _ => false end = true) (tw_mem w))
  else w.

Definition muggle_time_wheel_insert w (node : wptr) : option muggle_time_wheel :=
  '(idx, w) ←
    (if insert_mode w =? MUGGLE_TIME_WHEEL_INSERT_MODE_CURRENT then Some (tw_cur w, w)
     else if insert_mode w =? MUGGLE_TIME_WHEEL_INSERT_MODE_LOOP then
       c ← umod (u32 (tw_insert_cur w + 1)) (tw_n w);
       Some (c, with_insert_cur w c)
     else Some (0, w));
  let head := WHead idx in
  q ← wnext w head; w ← set_wprev w q node;
  q ← wnext w head; w ← set_wnext w node q;
  w ← set_wprev w node head;
  set_wnext w head node.

Definition muggle_time_wheel_remove w (node : wptr) : option muggle_time_wheel :=
  q ← wnext w node; p ← wprev w node; w ← set_wprev w q p;
  p ← wprev w node; q ← wnext w node; set_wnext w p q.

Section Update.
Context {U : Type} (cb : U -> muggle_time_wheel -> wptr -> option (U * muggle_time_wheel)).

(** The inner loop; [fuel] bounds the number of nodes of a slot. *)
Fixpoint slot_loop (fuel : nat) (u : U) w (tail node : wptr) : option (U * muggle_time_wheel) :=
  if decide (node = tail) then Some (u, w)
  else match fuel with
  | O => None
  | S fuel =>
      '(u, w) ← cb u w node;
      next ← wnext w node;
      slot_loop fuel u w tail next
  end.

Definition muggle_time_wheel_update_n (u : U) w (n_slot : Z) : option (U * muggle_time_wheel) :=
  for_up (fun _ '(u, w) =>
    let idx := tw_cur w in
    c ← umod (u32 (tw_cur w + 1)) (tw_n w);
    let w := with_cur w c in
    node ← wnext w (WHead idx);
    slot_loop (size (tw_mem w)) u w (WTail idx) node) (Z.to_nat n_slot) 0 (u, w).

(** The quotient is one of 64-bit numbers; its lower 32 bits are kept. *)
Definition muggle_time_wheel_update (u : U) w (now : timespec) : option (U * muggle_time_wheel) :=
  let w := with_tc w (muggle_time_counter_end (tw_tc w) now) in
  elapsed_ms ← muggle_time_counter_interval_ms (tw_tc w);
  if unit_ms w =? 0 then None
  else
    let n_slot := u32 (Z.quot elapsed_ms (unit_ms w)) in
    let n_slot := if n_slot >? tw_n w then tw_n w else n_slot in
    '(u, w) ← muggle_time_wheel_update_n u w n_slot;
    Some (u, with_tc w (muggle_time_counter_move_end_to_start (tw_tc w))).
End Update.
End Operations.

Lemma umod_Some x n : n <> 0 -> umod x n = Some (x mod n).
Proof. intros Hn; unfold umod; by rewrite (proj2 (Z.eqb_neq _ _)). Qed.

(** ** Memory *)
Section Memory.
Implicit Types w : muggle_time_wheel.

(** All but the links of nodes is kept. *)
Definition only_links w w' : Prop :=
  with_mem w' (tw_mem w) = w /\ dom (tw_mem w') = dom (tw_mem w).

Lemma only_links_trans w w1 w2 : only_links w w1 -> only_links w1 w2 -> only_links w w2.
Proof.
  intros [H1 D1] [H2 D2]; split; [|congruence]; destruct w, w1, w2; unfold with_mem in *; simpl in *; congruence.
Qed.

Lemma set_wnext_spec w p x : is_Some (tw_mem w !! p) ->
  exists w', set_wnext w p x = Some w' /\ only_links w w' /\
    (forall q, wnext w' q = if decide (q = p) then Some x else wnext w q) /\
    (forall q, wprev w' q = wprev w q).
Proof.
  intros [n Hn]; unfold set_wnext; rewrite Hn; eexists; split; [done|]; split.
  { split; [by destruct w|]; apply dom_insert_lookup_L; eauto. }
  split; intros q; unfold wnext, wprev; cbn [tw_mem with_mem].
  - rewrite lookup_insert; repeat case_decide; simpl; congruence.
  - rewrite lookup_insert; case_decide; [|done]; subst; by rewrite Hn.
Qed.

Lemma set_wprev_spec w p x : is_Some (tw_mem w !! p) ->
  exists w', set_wprev w p x = Some w' /\ only_links w w' /\
    (forall q, wprev w' q = if decide (q = p) then Some x else wprev w q) /\
    (forall q, wnext w' q = wnext w q).
Proof.
  intros [n Hn]; unfold set_wprev; rewrite Hn; eexists; split; [done|]; split.
  { split; [by destruct w|]; apply dom_insert_lookup_L; eauto. }
  split; intros q; unfold wnext, wprev; cbn [tw_mem with_mem].
  - rewrite lookup_insert; repeat case_decide; simpl; congruence.
  - rewrite lookup_insert; case_decide; [|done]; subst; by rewrite Hn.
Qed.

Lemma set_w_other w w' p x q : set_wnext w p x = Some w' \/ set_wprev w p x = Some w' -> q <> p ->
  tw_mem w' !! q = tw_mem w !! q.
Proof.
  unfold set_wnext, set_wprev; destruct (tw_mem w !! p); simpl; intros [[= <-]|[= <-]] Hq; by apply lookup_insert_ne.
Qed.

Lemma only_links_is_Some w w' p : only_links w w' -> is_Some (tw_mem w !! p) -> is_Some (tw_mem w' !! p).
Proof. intros [_ Hd]; rewrite <- !elem_of_dom, Hd; done. Qed.

Lemma wnext_is_Some w p : is_Some (wnext w p) <-> is_Some (tw_mem w !! p).
Proof. apply fmap_is_Some. Qed.
Lemma wprev_is_Some w p : is_Some (wprev w p) <-> is_Some (tw_mem w !! p).
Proof. apply fmap_is_Some. Qed.

(** The four assignments that link [node] behind [head]. *)
Lemma link_spec w head q node :
  wnext w head = Some q -> is_Some (tw_mem w !! q) -> is_Some (tw_mem w !! node) ->
  node <> head -> node <> q -> head <> q ->
  exists w', (q ← wnext w head; w ← set_wprev w q node;
      q ← wnext w head; w ← set_wnext w node q;
      w ← set_wprev w node head; set_wnext w head node) = Some w' /\ only_links w w' /\
    (forall x, wnext w' x = if decide (x = head) then Some node else if decide (x = node) then Some q else wnext w x) /\
    (forall x, wprev w' x = if decide (x = q) then Some node else if decide (x = node) then Some head else wprev w x).
Proof.
  intros Hq Vq Vn Hne1 Hne2 Hne3; rewrite Hq; cbn [mbind option_bind].
  assert (is_Some (tw_mem w !! head)) as Vh by (apply wnext_is_Some; by eexists).
  destruct (set_wprev_spec w q node Vq) as (w1 & -> & L1 & P1 & N1); cbn [mbind option_bind].
  rewrite N1, Hq; cbn [mbind option_bind].
  destruct (set_wnext_spec w1 node q (only_links_is_Some _ _ _ L1 Vn)) as (w2 & -> & L2 & N2 & P2).
  pose proof (only_links_trans _ _ _ L1 L2) as L12; cbn [mbind option_bind].
  destruct (set_wprev_spec w2 node head (only_links_is_Some _ _ _ L12 Vn)) as (w3 & -> & L3 & P3 & N3).
  pose proof (only_links_trans _ _ _ L12 L3) as L123; cbn [mbind option_bind].
  destruct (set_wnext_spec w3 head node (only_links_is_Some _ _ _ L123 Vh)) as (w4 & -> & L4 & N4 & P4).
  exists w4; split; [done|]; split; [by eapply only_links_trans|]; split; intros x.
  - rewrite N4, N3, N2, N1; by repeat case_decide; subst.
  - rewrite P4, P3, P2, P1; by repeat case_decide; subst.
Qed.

Lemma wheel_unlink_spec w p q node :
  wnext w node = Some q -> wprev w node = Some p -> is_Some (tw_mem w !! p) -> is_Some (tw_mem w !! q) ->
  node <> p -> node <> q ->
  exists w', muggle_time_wheel_remove w node = Some w' /\ only_links w w' /\
    (forall x, wnext w' x = if decide (x = p) then Some q else wnext w x) /\
    (forall x, wprev w' x = if decide (x = q) then Some p else wprev w x).
Proof.
  intros Hq Hp Vp Vq Hne1 Hne2; unfold muggle_time_wheel_remove; rewrite Hq, Hp; cbn [mbind option_bind].
  destruct (set_wprev_spec w q p Vq) as (w1 & -> & L1 & P1 & N1); cbn [mbind option_bind].
  rewrite P1, decide_False, Hp, N1, Hq by done; cbn [mbind option_bind].
  destruct (set_wnext_spec w1 p q (only_links_is_Some _ _ _ L1 Vp)) as (w2 & -> & L2 & N2 & P2).
  exists w2; split; [done|]; split; [by eapply only_links_trans|]; split; intros x.
  - by rewrite N2, N1.
  - by rewrite P2, P1.
Qed.
End Memory.

(** ** The lists of the slots *)
Section Slots.
Implicit Types (w : muggle_time_wheel) (ss : list (list Z)) (xs ys : list Z).

Definition slot_spine (i : nat) xs : list wptr := WHead (Z.of_nat i) :: (WNode <$> xs) ++ [WTail (Z.of_nat i)].

(** [ss] are the nodes of each slot, in the order of the links. *)
Record tw_inv w ss : Prop := {
  ti_slots : tw_slots w = true;
  ti_n : Z.of_nat (length ss) = tw_n w /\ 0 < tw_n w < 2 ^ 32;
  ti_cur : 0 <= tw_cur w < tw_n w;
  ti_insert_cur : 0 <= tw_insert_cur w < tw_n w;
  ti_linked : forall i xs, ss !! i = Some xs -> linked (wnext w) (wprev w) (slot_spine i xs);
  ti_NoDup : NoDup (concat ss)
}.

Lemma slot_spine_elem i xs p :
  p ∈ slot_spine i xs <-> p = WHead (Z.of_nat i) \/ p = WTail (Z.of_nat i) \/ exists a, p = WNode a /\ a ∈ xs.
Proof.
  unfold slot_spine; rewrite elem_of_cons, elem_of_app, list_elem_of_singleton, list_elem_of_fmap; naive_solver.
Qed.

Lemma slot_spine_NoDup i xs : NoDup xs -> NoDup (slot_spine i xs).
Proof.
  intros Hnd; unfold slot_spine; apply NoDup_cons; split; [rewrite elem_of_app, list_elem_of_fmap; set_solver|].
  apply NoDup_app; split_and!; [apply NoDup_fmap_2; [by intros ? ? [= ->]|done]| |apply NoDup_singleton].
  intros p (a & -> & _)%list_elem_of_fmap; set_solver.
Qed.

(** The pointers around a position in a slot. *)
Definition before (i : nat) xs : wptr := match last xs with Some a => WNode a | None => WHead (Z.of_nat i) end.
Definition after (i : nat) ys : wptr := match ys with a :: _ => WNode a | [] => WTail (Z.of_nat i) end.

Lemma slot_spine_split i xs ys : exists L R,
  WHead (Z.of_nat i) :: (WNode <$> xs) = L ++ [before i xs] /\ (WNode <$> ys) ++ [WTail (Z.of_nat i)] = after i ys :: R /\
  slot_spine i (xs ++ ys) = L ++ before i xs :: after i ys :: R.
Proof.
  assert (exists L, WHead (Z.of_nat i) :: (WNode <$> xs) = L ++ [before i xs]) as [L EL].
  { destruct xs as [|x xs _] using rev_ind; [by exists []|].
    exists (WHead (Z.of_nat i) :: (WNode <$> xs)); unfold before; by rewrite last_snoc, fmap_app. }
  assert (exists R, (WNode <$> ys) ++ [WTail (Z.of_nat i)] = after i ys :: R) as [R ER].
  { destruct ys as [|y ys]; [by exists []|by eexists]. }
  exists L, R; split; [done|]; split; [done|].
  unfold slot_spine; rewrite fmap_app, <- app_assoc, ER, app_comm_cons, EL, <- app_assoc; done.
Qed.

Lemma linked_is_Some w i xs p : linked (wnext w) (wprev w) (slot_spine i xs) -> p ∈ slot_spine i xs ->
  is_Some (tw_mem w !! p).
Proof.
  intros Hl Hp; apply list_elem_of_split in Hp as (L & R & E); rewrite E in Hl.
  destruct R as [|q R]; [|apply linked_app in Hl as (_ & H & _); apply wnext_is_Some; by eexists].
  destruct L as [|x L _] using rev_ind; [unfold slot_spine in E; injection E as _ E; by destruct xs|].
  rewrite <- app_assoc in Hl; simpl in Hl; apply linked_app in Hl as (_ & _ & H & _).
  apply wprev_is_Some; by eexists.
Qed.

(** The neighbours in memory. *)
Lemma slot_around w i xs ys : linked (wnext w) (wprev w) (slot_spine i (xs ++ ys)) -> NoDup (xs ++ ys) ->
  wnext w (before i xs) = Some (after i ys) /\ wprev w (after i ys) = Some (before i xs) /\
  is_Some (tw_mem w !! before i xs) /\ is_Some (tw_mem w !! after i ys) /\ before i xs <> after i ys.
Proof.
  intros Hl Hnd; destruct (slot_spine_split i xs ys) as (L & R & _ & _ & E).
  pose proof (slot_spine_NoDup i _ Hnd) as Hs; rewrite E in Hs.
  pose proof (linked_is_Some w i _ (before i xs) Hl) as V1; pose proof (linked_is_Some w i _ (after i ys) Hl) as V2.
  rewrite E in Hl, V1, V2; apply linked_app in Hl as (_ & H1 & H2 & _); split_and!; try done.
  - apply V1; set_solver.
  - apply V2; set_solver.
  - apply NoDup_app in Hs as (_ & _ & Hs); apply NoDup_cons in Hs as [Hs _]; set_solver.
Qed.

(** The links of one slot changed, within its own pointers. *)
Lemma tw_inv_update w w' ss i xs ys :
  tw_inv w ss -> ss !! i = Some xs ->
  (forall j zs p, ss !! j = Some zs -> j <> i -> p ∈ slot_spine j zs -> wnext w' p = wnext w p /\ wprev w' p = wprev w p) ->
  linked (wnext w') (wprev w') (slot_spine i ys) -> NoDup (concat (<[i := ys]> ss)) ->
  tw_slots w' = true -> tw_n w' = tw_n w -> 0 <= tw_cur w' < tw_n w -> 0 <= tw_insert_cur w' < tw_n w ->
  tw_inv w' (<[i := ys]> ss).
Proof.
  intros Hw Hi Hfr Hl Hnd H1 H2 H3 H4; split; rewrite ?H2; try done.
  - rewrite length_insert; apply Hw.
  - intros j zs; destruct (decide (j = i)) as [->|Hj].
    + rewrite list_lookup_insert_eq by (by eapply lookup_lt_Some); by intros [= <-].
    + rewrite list_lookup_insert_ne by done; intros Hzs.
      eapply linked_frame; [|by apply (ti_linked _ _ Hw)]; intros p Hp; by eapply Hfr.
Qed.

Lemma other_slot ss i j xs zs p : NoDup (concat ss) -> ss !! i = Some xs -> ss !! j = Some zs -> j <> i ->
  p ∈ slot_spine i xs -> p ∉ slot_spine j zs.
Proof.
  intros Hnd Hi Hj Hne; rewrite !slot_spine_elem.
  intros [->|[->|(a & -> & Ha)]] [?|[?|(b & E & Hb)]]; simplify_eq; try lia; try done.
  apply Hne; by apply (concat_disjoint ss j i zs xs b).
Qed.
End Slots.

(** ** The operations on the lists *)
Section Refinement.
Implicit Types (w : muggle_time_wheel) (ss : list (list Z)) (xs ys : list Z).

Lemma before_elem i xs ys : before i xs ∈ slot_spine i (xs ++ ys).
Proof. destruct (slot_spine_split i xs ys) as (L & R & _ & _ & ->); set_solver. Qed.
Lemma after_elem i xs ys : after i ys ∈ slot_spine i (xs ++ ys).
Proof. destruct (slot_spine_split i xs ys) as (L & R & _ & _ & ->); set_solver. Qed.

(** What only changed links keeps of the other fields. *)
Lemma only_links_fields w w' : only_links w w' ->
  tw_slots w' = tw_slots w /\ tw_n w' = tw_n w /\ unit_ms w' = unit_ms w /\ insert_mode w' = insert_mode w /\
  tw_tc w' = tw_tc w /\ tw_cur w' = tw_cur w /\ tw_insert_cur w' = tw_insert_cur w.
Proof. intros [H _]; destruct w, w'; unfold with_mem in H; simpl in *; injection H as -> -> -> -> -> -> ->; done. Qed.

(** The slot into which the next node goes. *)
Definition target w : Z :=
  if insert_mode w =? MUGGLE_TIME_WHEEL_INSERT_MODE_CURRENT then tw_cur w
  else if insert_mode w =? MUGGLE_TIME_WHEEL_INSERT_MODE_LOOP then (tw_insert_cur w + 1) mod tw_n w
  else 0.

Lemma wheel_insert_ok w ss a xs :
  tw_inv w ss -> is_Some (tw_mem w !! WNode a) -> a ∉ concat ss -> ss !! Z.to_nat (target w) = Some xs ->
  exists w', muggle_time_wheel_insert w (WNode a) = Some w' /\
    tw_inv w' (<[Z.to_nat (target w) := a :: xs]> ss) /\ dom (tw_mem w') = dom (tw_mem w) /\
    tw_n w' = tw_n w /\ unit_ms w' = unit_ms w /\ insert_mode w' = insert_mode w /\ tw_tc w' = tw_tc w /\
    tw_cur w' = tw_cur w /\
    tw_insert_cur w' = (if insert_mode w =? MUGGLE_TIME_WHEEL_INSERT_MODE_LOOP then target w else tw_insert_cur w).
Proof.
  intros Hw Ha Hnew Hxs; pose proof (ti_n _ _ Hw) as [Hlen Hn]; pose proof (ti_cur _ _ Hw); pose proof (ti_insert_cur _ _ Hw).
  assert (0 <= (tw_insert_cur w + 1) mod tw_n w < tw_n w) as Hm by (apply Z.mod_pos_bound; lia).
  assert (0 <= target w < tw_n w) as Ht by (unfold target; repeat case_match; lia).
  set (w1 := if insert_mode w =? MUGGLE_TIME_WHEEL_INSERT_MODE_LOOP then with_insert_cur w (target w) else w).
  assert (tw_mem w1 = tw_mem w /\ tw_n w1 = tw_n w /\ tw_slots w1 = true /\ unit_ms w1 = unit_ms w /\
    insert_mode w1 = insert_mode w /\ tw_tc w1 = tw_tc w /\ tw_cur w1 = tw_cur w /\
    tw_insert_cur w1 = (if insert_mode w =? MUGGLE_TIME_WHEEL_INSERT_MODE_LOOP then target w else tw_insert_cur w))
    as (M1 & N1 & S1 & U1 & I1 & T1 & C1 & IC1).
  { unfold w1; pose proof (ti_slots _ _ Hw); by destruct (insert_mode w =? _). }
  unfold muggle_time_wheel_insert.
  replace (if insert_mode w =? MUGGLE_TIME_WHEEL_INSERT_MODE_CURRENT then _ else _) with (Some (target w, w1)); last first.
  { unfold w1, target; unfold MUGGLE_TIME_WHEEL_INSERT_MODE_CURRENT, MUGGLE_TIME_WHEEL_INSERT_MODE_LOOP in *.
    destruct (Z.eqb_spec (insert_mode w) 0) as [->|]; [done|].
    destruct (Z.eqb_spec (insert_mode w) 1) as [E|]; [|done].
    rewrite umod_Some by lia; cbn [mbind option_bind].
    by rewrite wrap_small by (unfold in_width; lia). }
  cbn [mbind option_bind]; set (i := Z.to_nat (target w)) in *.
  assert (WHead (target w) = before i []) as -> by (unfold before; simpl; f_equal; lia).
  pose proof (ti_linked _ _ Hw i xs Hxs) as Hl; pose proof (concat_NoDup _ _ _ (ti_NoDup _ _ Hw) Hxs) as Hnd.
  assert (forall p, wnext w1 p = wnext w p /\ wprev w1 p = wprev w p) as Hsame by (intros p; unfold wnext, wprev; by rewrite M1).
  destruct (slot_around w i [] xs Hl Hnd) as (Nx & Pv & V1 & V2 & Hne).
  assert (WNode a ∉ slot_spine i xs) as Hout.
  { rewrite slot_spine_elem; intros [?|[?|(b & [= <-] & Hb)]]; try done; apply Hnew; by eapply concat_elem. }
  assert (WNode a <> before i [] /\ WNode a <> after i xs) as [Hn1 Hn2].
  { split; intros E; apply Hout; rewrite E; [apply (before_elem i [] xs)|apply (after_elem i [] xs)]. }
  destruct (link_spec w1 (before i []) (after i xs) (WNode a)) as (w' & E & L & HN & HP); try (by rewrite ?M1).
  { by rewrite (proj1 (Hsame _)). }
  destruct (only_links_fields _ _ L) as (F1 & F2 & F3 & F4 & F5 & F6 & F7).
  exists w'; split; [exact E|]; split; [|split_and!; congruence || (destruct L as [_ ->]; by rewrite M1)].
  apply (tw_inv_update w w' ss i xs); try done.
  - intros j zs p Hzs Hj Hp; rewrite HN, HP, !decide_False; [by apply Hsame|..]; intros ->; revert Hp.
    + rewrite slot_spine_elem; intros [?|[?|(b & [= <-] & Hb)]]; try done; apply Hnew; by eapply concat_elem.
    + apply (other_slot ss i j xs zs _ (ti_NoDup _ _ Hw) Hxs Hzs Hj), (after_elem i []).
    + rewrite slot_spine_elem; intros [?|[?|(b & [= <-] & Hb)]]; try done; apply Hnew; by eapply concat_elem.
    + apply (other_slot ss i j xs zs _ (ti_NoDup _ _ Hw) Hxs Hzs Hj), (before_elem i [] xs).
  - destruct (slot_spine_split i [] xs) as (L0 & R & EL & ER & E0); cbn [app fmap list_fmap] in E0, EL.
    destruct L0 as [|? []]; try done; cbn [app] in E0.
    assert (slot_spine i (a :: xs) = [] ++ before i [] :: WNode a :: after i xs :: R) as ->.
    { unfold slot_spine; cbn [fmap list_fmap app]; unfold slot_spine in E0; injection E0 as E0'; by rewrite E0'. }
    pose proof (slot_spine_NoDup i _ Hnd) as Hs; rewrite E0 in Hl, Hout, Hs.
    apply (linked_insert (wnext w) (wprev w) _ _ []); try done.
    + intros x; rewrite HN; by rewrite (proj1 (Hsame x)).
    + intros x; rewrite HP; by rewrite (proj2 (Hsame x)).
  - assert (concat (<[i:=a :: xs]> ss) ≡ₚ a :: concat ss) as ->.
    { apply (Permutation_app_inv_r xs); rewrite (concat_insert _ _ _ (a :: xs) Hxs).
      simpl; by rewrite <- Permutation_middle. }
    apply NoDup_cons; split; [done|apply Hw].
  - congruence.
  - congruence.
  - rewrite F6, C1; done.
  - rewrite F7, IC1; by case_match.
Qed.

Lemma wheel_remove_ok w ss i xs ys a :
  tw_inv w ss -> ss !! i = Some (xs ++ a :: ys) ->
  exists w', muggle_time_wheel_remove w (WNode a) = Some w' /\ tw_inv w' (<[i := xs ++ ys]> ss) /\
    only_links w w' /\ wnext w' (WNode a) = Some (after i ys).
Proof.
  intros Hw Hi; pose proof (ti_linked _ _ Hw _ _ Hi) as Hl; pose proof (concat_NoDup _ _ _ (ti_NoDup _ _ Hw) Hi) as Hnd.
  assert (xs ++ a :: ys = (xs ++ [a]) ++ ys) as E0 by (by rewrite <- app_assoc).
  destruct (slot_around w i xs (a :: ys) Hl Hnd) as (N1 & P1 & V1 & V2 & Hne1).
  pose proof Hl as Hl2; pose proof Hnd as Hnd2; rewrite E0 in Hl2, Hnd2.
  destruct (slot_around w i (xs ++ [a]) ys Hl2 Hnd2) as (N2 & P2 & V3 & V4 & Hne2).
  assert (before i (xs ++ [a]) = WNode a) as EL by (unfold before; by rewrite last_snoc).
  rewrite EL in *; cbn [after] in *.
  destruct (wheel_unlink_spec w (before i xs) (after i ys) (WNode a)) as (w' & E & L & HN & HP); try done.
  destruct (only_links_fields _ _ L) as (F1 & F2 & F3 & F4 & F5 & F6 & F7).
  exists w'; split; [done|]; split; [|split; [done|by rewrite HN, decide_False]].
  apply (tw_inv_update w w' ss i (xs ++ a :: ys)); try done.
  - intros j zs p Hzs Hj Hp; rewrite HN, HP, !decide_False; [done|..]; intros ->; revert Hp.
    + apply (other_slot ss i j _ zs _ (ti_NoDup _ _ Hw) Hi Hzs Hj); rewrite E0; apply after_elem.
    + apply (other_slot ss i j _ zs _ (ti_NoDup _ _ Hw) Hi Hzs Hj), before_elem.
  - destruct (slot_spine_split i xs ys) as (L1 & R1 & EL1 & ER1 & E1).
    destruct (slot_spine_split i xs (a :: ys)) as (L2 & R2 & EL2 & ER2 & E2).
    rewrite EL1 in EL2; apply app_inj_tail in EL2 as [<- _].
    cbn [fmap list_fmap after app] in ER2, E2; injection ER2 as <-; rewrite ER1 in E2.
    pose proof (slot_spine_NoDup i _ Hnd) as Hs; rewrite E2 in Hl, Hs; rewrite E1.
    by apply (linked_remove (wnext w) (wprev w) _ _ L1 _ _ R1 (WNode a)).
  - pose proof (ti_NoDup _ _ Hw) as Hn; rewrite (concat_remove _ _ _ _ _ Hi) in Hn; by apply NoDup_cons in Hn as [_ ?].
  - rewrite F1; apply Hw.
  - rewrite F6; apply Hw.
  - rewrite F7; apply Hw.
Qed.
End Refinement.

(** ** Turning the wheel *)
Section Turning.
Context {U : Type} (step : U -> Z -> U) (expire : U -> Z -> bool).
Implicit Types (w : muggle_time_wheel) (ss : list (list Z)) (xs ys : list Z) (u : U).

(** A callback with a state of its own, which may remove the node it gets. *)
Definition visiting_cb u w (p : wptr) : option (U * muggle_time_wheel) :=
  match p with
  | WNode a =>
      if expire u a then w ← muggle_time_wheel_remove w p; Some (step u a, w) else Some (step u a, w)
  | _ => None
  end.

(** The specification: the nodes of a slot in their order, the rest kept. *)
Fixpoint visit u xs : U * list Z :=
  match xs with
  | [] => (u, [])
  | a :: xs => let '(u', kept) := visit (step u a) xs in (u', if expire u a then kept else a :: kept)
  end.

(** [k] slots from [cur] on. *)
Fixpoint turn (k : nat) u ss (cur : Z) : U * list (list Z) * Z :=
  match k with
  | O => (u, ss, cur)
  | S k =>
      let '(u, kept) := visit u (ss !!! Z.to_nat cur) in
      turn k u (<[Z.to_nat cur := kept]> ss) ((cur + 1) mod Z.of_nat (length ss))
  end.

Lemma slot_loop_ok fuel u w ss i kept rem :
  tw_inv w ss -> ss !! i = Some (kept ++ rem) -> (length rem <= fuel)%nat ->
  exists w', slot_loop visiting_cb fuel u w (WTail (Z.of_nat i)) (after i rem) = Some ((visit u rem).1, w') /\
    tw_inv w' (<[i := kept ++ (visit u rem).2]> ss) /\ only_links w w'.
Proof.
  revert fuel u w ss kept; induction rem as [|a rem IH]; intros fuel u w ss kept Hw Hi Hf.
  { exists w; cbn [after visit fst snd].
    split; [destruct fuel; simpl; by rewrite decide_True|]; split; [by rewrite list_insert_id|by destruct w]. }
  destruct fuel as [|fuel]; [simpl in Hf; lia|]; cbn [after slot_loop visit]; rewrite decide_False by done.
  destruct (visit (step u a) rem) as [u' kept'] eqn:Ev; cbn [visiting_cb fst snd].
  destruct (expire u a) eqn:Ee.
  - destruct (wheel_remove_ok w ss i kept rem a Hw Hi) as (w1 & -> & Hw1 & L1 & N1); cbn [mbind option_bind].
    rewrite N1; cbn [mbind option_bind].
    destruct (IH fuel (step u a) w1 _ kept Hw1) as (w' & -> & Hw' & L').
    { apply list_lookup_insert_eq; by eapply lookup_lt_Some. }
    { simpl in Hf; lia. }
    rewrite Ev in *; cbn [fst snd] in *; rewrite list_insert_insert_eq in Hw'.
    exists w'; split; [done|]; split; [done|]; by eapply only_links_trans.
  - cbn [mbind option_bind]; assert (kept ++ a :: rem = (kept ++ [a]) ++ rem) as E0 by (by rewrite <- app_assoc).
    pose proof (ti_linked _ _ Hw _ _ Hi) as Hl; pose proof (concat_NoDup _ _ _ (ti_NoDup _ _ Hw) Hi) as Hnd.
    rewrite E0 in Hl, Hnd, Hi; destruct (slot_around w i (kept ++ [a]) rem Hl Hnd) as (N1 & _).
    unfold before in N1; rewrite last_snoc in N1; rewrite N1; cbn [mbind option_bind].
    destruct (IH fuel (step u a) w ss (kept ++ [a]) Hw Hi) as (w' & -> & Hw' & L'); [simpl in Hf; lia|].
    rewrite Ev in *; cbn [fst snd] in *; rewrite <- app_assoc in Hw'; by exists w'.
Qed.

Lemma with_cur_ok w ss c : tw_inv w ss -> 0 <= c < tw_n w -> tw_inv (with_cur w c) ss.
Proof. by intros [? ? ? ? ? ?] ?. Qed.

(** A slot has no more nodes than there are in memory. *)
Lemma slot_size w ss i xs : tw_inv w ss -> ss !! i = Some xs -> (length xs <= size (tw_mem w))%nat.
Proof.
  intros Hw Hi; pose proof (ti_linked _ _ Hw _ _ Hi) as Hl; pose proof (concat_NoDup _ _ _ (ti_NoDup _ _ Hw) Hi) as Hnd.
  rewrite <- size_dom, <- (length_fmap WNode).
  replace (length (WNode <$> xs)) with (size (list_to_set (C := gset wptr) (WNode <$> xs)))
    by (apply size_list_to_set, NoDup_fmap_2; [by intros ? ? [= ->]|done]).
  apply subseteq_size; intros p (a & -> & Ha)%elem_of_list_to_set%list_elem_of_fmap.
  apply elem_of_dom, (linked_is_Some w i xs _ Hl), slot_spine_elem; eauto.
Qed.

(** What a turn keeps. *)
Definition turned w w' : Prop :=
  tw_n w' = tw_n w /\ unit_ms w' = unit_ms w /\ insert_mode w' = insert_mode w /\ tw_tc w' = tw_tc w /\
  tw_insert_cur w' = tw_insert_cur w /\ dom (tw_mem w') = dom (tw_mem w).

Lemma update_n_ok k u w ss : tw_inv w ss -> 0 <= k ->
  exists w', muggle_time_wheel_update_n visiting_cb u w k = Some ((turn (Z.to_nat k) u ss (tw_cur w)).1.1, w') /\
    tw_inv w' (turn (Z.to_nat k) u ss (tw_cur w)).1.2 /\ tw_cur w' = (turn (Z.to_nat k) u ss (tw_cur w)).2 /\
    turned w w'.
Proof.
  unfold muggle_time_wheel_update_n; intros Hw Hk; clear Hk; generalize 0 as start.
  revert u w ss Hw; induction (Z.to_nat k) as [|m IH]; intros u w ss Hw start.
  { by exists w. }
  cbn [for_up turn]; pose proof (ti_n _ _ Hw) as [Hlen Hn]; pose proof (ti_cur _ _ Hw) as Hc.
  rewrite (umod_Some (u32 (tw_cur w + 1)) (tw_n w)), (wrap_small 32 (tw_cur w + 1)) by (unfold in_width; lia).
  cbn [mbind option_bind]; set (i := Z.to_nat (tw_cur w)); set (c := (tw_cur w + 1) mod tw_n w).
  destruct (lookup_lt_is_Some_2 ss i) as [xs Hi]; [lia|].
  pose proof (with_cur_ok w ss c Hw ltac:(apply Z.mod_pos_bound; lia)) as Hw1.
  assert (tw_cur w = Z.of_nat i) as -> by lia.
  destruct (slot_around (with_cur w c) i [] xs (ti_linked _ _ Hw1 _ _ Hi) (concat_NoDup _ _ _ (ti_NoDup _ _ Hw1) Hi))
    as (N1 & _); unfold before in N1; cbn [last] in N1; rewrite N1; cbn [mbind option_bind].
  destruct (slot_loop_ok (size (tw_mem (with_cur w c))) u (with_cur w c) ss i [] xs Hw1 Hi (slot_size _ _ _ _ Hw1 Hi))
    as (w2 & -> & Hw2 & L2); cbn [mbind option_bind app] in *.
  destruct (only_links_fields _ _ L2) as (F1 & F2 & F3 & F4 & F5 & F6 & F7).
  rewrite (list_lookup_total_correct _ _ _ Hi); destruct (visit u xs) as [u1 kept]; cbn [fst snd] in *.
  destruct (IH u1 w2 _ Hw2 (start + 1)) as (w3 & -> & Hw3 & C3 & T3).
  rewrite F6 in *; cbn [tw_cur with_cur] in *; rewrite Hlen.
  replace ((Z.of_nat i + 1) mod tw_n w) with c by (unfold c, i; f_equal; lia).
  exists w3; split; [done|]; split; [done|]; split; [done|].
  destruct T3 as (G1 & G2 & G3 & G4 & G5 & G6), L2 as [_ D2]; unfold turned.
  cbn [tw_n unit_ms insert_mode tw_tc tw_insert_cur tw_mem with_cur] in *; split_and!; congruence.
Qed.

(** The slots that an update at [now] turns. *)
Definition due w (elapsed_ms : Z) : Z := Z.min (u32 (elapsed_ms `quot` unit_ms w)) (tw_n w).

Lemma with_tc_ok w ss tc : tw_inv w ss -> tw_inv (with_tc w tc) ss.
Proof. by intros [? ? ? ? ? ?]. Qed.

Lemma update_ok u w ss now elapsed_ms :
  tw_inv w ss -> unit_ms w <> 0 ->
  muggle_time_counter_interval_ms (muggle_time_counter_end (tw_tc w) now) = Some elapsed_ms ->
  let k := Z.to_nat (due w elapsed_ms) in
  exists w', muggle_time_wheel_update visiting_cb u w now = Some ((turn k u ss (tw_cur w)).1.1, w') /\
    tw_inv w' (turn k u ss (tw_cur w)).1.2 /\ tw_cur w' = (turn k u ss (tw_cur w)).2 /\
    tw_n w' = tw_n w /\ unit_ms w' = unit_ms w /\ insert_mode w' = insert_mode w /\
    tw_tc w' = TC now now.
Proof.
  intros Hw Hu He k; unfold muggle_time_wheel_update; cbn [tw_tc with_tc unit_ms tw_n].
  rewrite He; cbn [mbind option_bind]; rewrite (proj2 (Z.eqb_neq _ _)) by done.
  set (q := u32 _); assert ((if q >? tw_n w then tw_n w else q) = due w elapsed_ms) as ->
    by (unfold due; fold q; destruct (Z.gtb_spec q (tw_n w)); lia).
  pose proof (ti_n _ _ Hw) as [_ Hn]; pose proof (wrap_range 32 (Z.quot elapsed_ms (unit_ms w)) ltac:(lia)) as Hr.
  destruct (update_n_ok (due w elapsed_ms) u _ ss (with_tc_ok w ss (muggle_time_counter_end (tw_tc w) now) Hw))
    as (w1 & -> & Hw1 & C1 & G1 & G2 & G3 & G4 & _); [unfold due, in_width in *; lia|]; cbn [mbind option_bind].
  eexists; split; [done|]; split; [by apply with_tc_ok|]; split; [done|].
  cbn [tw_n with_tc unit_ms insert_mode tw_tc] in *; split_and!; [done..|].
  rewrite G4; done.
Qed.
End Turning.

(** ** One revolution *)

(** A callback that only records the nodes. *)
Definition record_node (u : list Z) (a : Z) : list Z := u ++ [a].
Definition never (u : list Z) (a : Z) : bool := false.

Lemma visit_record u xs : visit record_node never u xs = (u ++ xs, xs).
Proof.
  revert u; induction xs as [|a xs IH]; intros u; simpl; [by rewrite app_nil_r|].
  rewrite IH; unfold record_node; by rewrite <- app_assoc.
Qed.

Lemma turn_add {U} (step : U -> Z -> U) expire j k u ss cur :
  turn step expire (j + k) u ss cur
  = let '(u', ss', cur') := turn step expire j u ss cur in turn step expire k u' ss' cur'.
Proof.
  revert u ss cur; induction j as [|j IH]; intros u ss cur; [done|]; cbn [turn Nat.add].
  destruct (visit step expire u (ss !!! Z.to_nat cur)); apply IH.
Qed.

(** As far as the end of the ring. *)
Lemma turn_record_slots k u (ss : list (list Z)) c : (c + k <= length ss)%nat -> (0 < k)%nat ->
  turn record_node never k u ss (Z.of_nat c)
  = (u ++ concat (take k (drop c ss)), ss, Z.of_nat (c + k) mod Z.of_nat (length ss)).
Proof.
  revert u c; induction k as [|k IH]; intros u c Hc Hk; [lia|]; cbn [turn].
  rewrite visit_record, Nat2Z.id.
  destruct (lookup_lt_is_Some_2 ss c) as [xs Hx]; [lia|].
  rewrite (list_lookup_total_correct _ _ _ Hx), list_insert_id by done.
  rewrite (drop_S _ _ _ Hx); cbn [take concat].
  destruct (decide (k = 0%nat)) as [->|Hk0].
  - cbn [turn take concat]; rewrite app_nil_r; do 2 f_equal; lia.
  - rewrite Z.mod_small by lia; replace (Z.of_nat c + 1) with (Z.of_nat (S c)) by lia.
    rewrite IH by lia; rewrite <- app_assoc; do 2 f_equal; lia.
Qed.

(** All slots once: every node is visited once. *)
Lemma revolution u (ss : list (list Z)) c : (c < length ss)%nat ->
  let '(u', ss', c') := turn record_node never (length ss) u ss (Z.of_nat c) in
  u' = u ++ concat (drop c ss ++ take c ss) /\ ss' = ss /\ c' = Z.of_nat c.
Proof.
  intros Hc; replace (length ss) with (length ss - c + c)%nat by lia; rewrite turn_add.
  rewrite turn_record_slots by lia.
  replace (c + (length ss - c))%nat with (length ss) by lia; rewrite Z.mod_same by lia.
  rewrite (take_ge (drop c ss)) by (rewrite length_drop; lia).
  destruct c as [|c].
  - simpl; by rewrite take_0, app_nil_r.
  - change 0 with (Z.of_nat 0); rewrite turn_record_slots by lia; rewrite drop_0, concat_app, app_assoc.
    split; [done|]; split; [done|]; rewrite Z.mod_small; lia.
Qed.

(** ** Initialisation *)
Section Init.
Implicit Types w : muggle_time_wheel.

Lemma new_slots_sentinel n m i : 0 <= i < n ->
  is_Some (new_slots n m !! WHead i) /\ is_Some (new_slots n m !! WTail i).
Proof.
  intros Hi; assert (i ∈ seqZ 0 n) as Hin by (apply elem_of_seqZ; lia); unfold new_slots.
  induction (seqZ 0 n) as [|j l IH]; [set_solver|]; cbn [foldr].
  rewrite !lookup_insert_is_Some'; apply elem_of_cons in Hin as [->|Hin]; tauto.
Qed.

Lemma new_slots_node n m a : new_slots n m !! WNode a = m !! WNode a.
Proof.
  unfold new_slots; induction (seqZ 0 n) as [|j l IH]; [done|]; cbn [foldr]; by rewrite !lookup_insert_ne.
Qed.

(** The sentinels of the first [j] slots point to each other. *)
Definition slots_set (m : gmap wptr muggle_time_wheel_node) (n : Z) (tc : muggle_time_counter) (j : Z) w : Prop :=
  tw_tc w = tc /\
  (forall i, 0 <= i < n -> is_Some (tw_mem w !! WHead i) /\ is_Some (tw_mem w !! WTail i)) /\
  (forall a, tw_mem w !! WNode a = m !! WNode a) /\
  (forall i, 0 <= i < j -> wnext w (WHead i) = Some (WTail i) /\ wprev w (WTail i) = Some (WHead i)).

Lemma init_slot_ok m n tc j w : 0 <= j < n -> slots_set m n tc j w ->
  exists w', init_slot j w = Some w' /\ slots_set m n tc (j + 1) w'.
Proof.
  intros Hj (Htc & Hs & Hm & Hl); unfold init_slot; destruct (Hs j Hj) as [Vh Vt].
  destruct (set_wprev_spec w (WHead j) WNull Vh) as (w1 & E1 & L1 & P1 & N1).
  destruct (set_wnext_spec w1 (WHead j) (WTail j) (only_links_is_Some _ _ _ L1 Vh)) as (w2 & E2 & L2 & N2 & P2).
  pose proof (only_links_trans _ _ _ L1 L2) as L12.
  destruct (set_wprev_spec w2 (WTail j) (WHead j) (only_links_is_Some _ _ _ L12 Vt)) as (w3 & E3 & L3 & P3 & N3).
  pose proof (only_links_trans _ _ _ L12 L3) as L123.
  destruct (set_wnext_spec w3 (WTail j) WNull (only_links_is_Some _ _ _ L123 Vt)) as (w4 & E4 & L4 & N4 & P4).
  pose proof (only_links_trans _ _ _ L123 L4) as L.
  exists w4; rewrite E1; cbn [mbind option_bind]; rewrite E2; cbn [mbind option_bind]; rewrite E3; cbn [mbind option_bind].
  split; [done|]; split_and!.
  - destruct (only_links_fields _ _ L) as (_ & _ & _ & _ & -> & _); done.
  - intros i Hi; destruct (Hs i Hi); split; by eapply only_links_is_Some.
  - intros a; rewrite (set_w_other _ _ _ _ _ (or_introl E4)), (set_w_other _ _ _ _ _ (or_intror E3)) by done.
    by rewrite (set_w_other _ _ _ _ _ (or_introl E2)), (set_w_other _ _ _ _ _ (or_intror E1)).
  - intros i Hi; rewrite N4, N3, N2, P4, P3, P2, N1, P1; repeat case_decide; simplify_eq; try done.
    destruct (decide (i = j)) as [->|]; [done|]; apply Hl; lia.
Qed.

Lemma init_ok mem now n unit mode : 0 < n < 2 ^ 32 ->
  exists w, muggle_time_wheel_init mem true now n unit mode = Some (true, w) /\
    tw_inv w (replicate (Z.to_nat n) []) /\ tw_n w = n /\ unit_ms w = unit /\ insert_mode w = mode /\
    start_ts (tw_tc w) = now /\ (forall a, tw_mem w !! WNode a = mem !! WNode a).
Proof.
  intros Hn; unfold muggle_time_wheel_init; cbn [muggle_time_counter_init negb with_tc tw_tc].
  set (tc := muggle_time_counter_start _ now).
  destruct (for_up_inv init_slot (slots_set mem n tc) (Z.to_nat n) 0 (TW true 0 0 0 tc 0 0 (new_slots n mem)))
    as (w & -> & Htc & Hs & Hm & Hl).
  { split; [done|]; split; [intros i Hi; by apply new_slots_sentinel|]; split; [intros a; apply new_slots_node|]; lia. }
  { intros j w Hj; apply init_slot_ok; lia. }
  cbn [mbind option_bind]; eexists; split; [done|]; split; [|by rewrite Htc].
  split; cbn [tw_slots tw_n tw_cur tw_insert_cur]; try done; try lia.
  - rewrite length_replicate; lia.
  - intros i xs [-> Hi]%lookup_replicate; split; [|split; [|done]]; apply (Hl (Z.of_nat i)); lia.
  - replace (concat (replicate (Z.to_nat n) [])) with (@nil Z); [apply NoDup_nil_2|].
    clear; by induction (Z.to_nat n).
Qed.
End Init.

(** ** Properties *)

(** C31: the time wheel is a ring of lists.  From [init], and for any order of
    calls: [insert] puts a node at the front of the slot of its mode (the
    current one, or each in turn); [remove] takes exactly its node out;
    [update_n] goes through the slots from the current one on and calls the
    callback once for each node, in order, also when the callback removes the
    node it gets; a full turn calls it once for every node; [update] turns
    one slot for every unit of the elapsed milliseconds, at most all, and
    restarts the clock.  No access leaves the slots and all loops end. *)
Theorem time_wheel_refines_slots w ss (Hinv : tw_inv w ss) (Hunit : 0 < unit_ms w < 2 ^ 32) :
  (forall a, is_Some (tw_mem w !! WNode a) -> a ∉ concat ss ->
     exists w' xs, muggle_time_wheel_insert w (WNode a) = Some w' /\ ss !! Z.to_nat (target w) = Some xs /\
       tw_inv w' (<[Z.to_nat (target w) := a :: xs]> ss)) /\
  (forall i xs ys a, ss !! i = Some (xs ++ a :: ys) ->
     exists w', muggle_time_wheel_remove w (WNode a) = Some w' /\ tw_inv w' (<[i := xs ++ ys]> ss)) /\
  (forall U (step : U -> Z -> U) expire u k, 0 <= k ->
     exists u' ss' w', muggle_time_wheel_update_n (visiting_cb step expire) u w k = Some (u', w') /\
       turn step expire (Z.to_nat k) u ss (tw_cur w) = (u', ss', tw_cur w') /\ tw_inv w' ss') /\
  (exists w', muggle_time_wheel_update_n (visiting_cb record_node never) [] w (tw_n w)
       = Some (concat (drop (Z.to_nat (tw_cur w)) ss ++ take (Z.to_nat (tw_cur w)) ss), w') /\
     tw_inv w' ss /\ tw_cur w' = tw_cur w) /\
  (forall U (step : U -> Z -> U) expire u now, reading (start_ts (tw_tc w)) -> reading now ->
     exists ms u' ss' w', muggle_time_wheel_update (visiting_cb step expire) u w now = Some (u', w') /\
       Z.abs (ms * 1000000 - (nanoseconds now - nanoseconds (start_ts (tw_tc w)))) < 1000000 /\
       turn step expire (Z.to_nat (due w ms)) u ss (tw_cur w) = (u', ss', tw_cur w') /\
       tw_inv w' ss' /\ tw_tc w' = TC now now).
Proof.
  pose proof (ti_n _ _ Hinv) as [Hlen Hn]; pose proof (ti_cur _ _ Hinv) as Hcur; pose proof (ti_insert_cur _ _ Hinv).
  split; [|split; [|split; [|split]]].
  - intros a Ha Hnew.
    assert (0 <= target w < tw_n w) as Ht.
    { unfold target; pose proof (Z.mod_pos_bound (tw_insert_cur w + 1) (tw_n w)); repeat case_match; lia. }
    destruct (lookup_lt_is_Some_2 ss (Z.to_nat (target w))) as [xs Hxs]; [lia|].
    destruct (wheel_insert_ok w ss a xs Hinv Ha Hnew Hxs) as (w' & E & Hw' & _); by exists w', xs.
  - intros i xs ys a Hi; destruct (wheel_remove_ok w ss i xs ys a Hinv Hi) as (w' & E & Hw' & _); by exists w'.
  - intros U step expire u k Hk; destruct (update_n_ok step expire k u w ss Hinv Hk) as (w' & E & Hw' & Hc & _).
    destruct (turn step expire (Z.to_nat k) u ss (tw_cur w)) as [[u' ss'] c'] eqn:Et; cbn [fst snd] in *; subst c'.
    by exists u', ss', w'.
  - destruct (update_n_ok record_node never (tw_n w) [] w ss Hinv) as (w' & E & Hw' & Hc & _); [lia|].
    pose proof (revolution [] ss (Z.to_nat (tw_cur w)) ltac:(lia)) as Hr.
    rewrite Z2Nat.id, <- (Nat2Z.id (length ss)), Hlen in Hr by lia.
    destruct (turn record_node never (Z.to_nat (tw_n w)) [] ss (tw_cur w)) as [[u' ss'] c']; destruct Hr as (-> & -> & ->).
    exists w'; split; [done|]; split; [done|]; rewrite Hc; simpl; lia.
  - intros U step expire u now Hr1 Hr2.
    destruct (interval_ms_close (muggle_time_counter_end (tw_tc w) now) Hr1 Hr2) as (ms & Hms & Hb & _).
    destruct (update_ok step expire u w ss now ms Hinv ltac:(lia) Hms) as (w' & E & Hw' & Hc & _ & _ & _ & Htc).
    destruct (turn step expire _ u ss (tw_cur w)) as [[u' ss'] c'] eqn:Et; cbn [fst snd] in *; subst c'.
    exists ms, u', ss', w'; split; [done|]; split; [cbn [start_ts end_ts muggle_time_counter_end] in Hb; lia|]; done.
Qed.

(** The wheel of the examples: ten slots of half a second, and two nodes. *)
Definition sample_wheel : muggle_time_wheel :=
  match muggle_time_wheel_init {[WNode 100 := TN WNull WNull 1; WNode 200 := TN WNull WNull 2]} true (TS 0 0) 10 500 1 with
  | Some (true, w) => w
  | _ => TW false 0 0 0 (TC (TS 0 0) (TS 0 0)) 0 0 ∅
  end.

Lemma sample_wheel_ok : tw_inv sample_wheel (replicate 10 []).
Proof.
  destruct (init_ok {[WNode 100 := TN WNull WNull 1; WNode 200 := TN WNull WNull 2]} (TS 0 0) 10 500 1)
    as (w & E & Hw & _); [lia|]; unfold sample_wheel; by rewrite E.
Qed.

Lemma time_wheel_refines_slots_witness :
  exists w' xs, muggle_time_wheel_insert sample_wheel (WNode 100) = Some w' /\
    replicate 10 [] !! Z.to_nat (target sample_wheel) = Some xs /\
    tw_inv w' (<[Z.to_nat (target sample_wheel) := 100 :: xs]> (replicate 10 [])).
Proof.
  refine (proj1 (time_wheel_refines_slots sample_wheel (replicate 10 []) sample_wheel_ok _) 100 _ _).
  - vm_compute; split; congruence.
  - vm_compute; eauto.
  - vm_compute; set_solver.
Defined.

Section Frequent.
Context {U : Type} (step : U -> Z -> U) (expire : U -> Z -> bool).

(** Updates at one time after the other. *)
Fixpoint updates (u : U) (w : muggle_time_wheel) (nows : list timespec) : option (U * muggle_time_wheel) :=
  match nows with
  | [] => Some (u, w)
  | now :: nows => '(u, w) ← muggle_time_wheel_update (visiting_cb step expire) u w now; updates u w nows
  end.
End Frequent.

(** Readings at most [gap] nanoseconds apart. *)
Fixpoint close_readings (gap : Z) (t0 : timespec) (nows : list timespec) : Prop :=
  match nows with
  | [] => True
  | now :: nows => reading now /\ 0 <= nanoseconds now - nanoseconds t0 <= gap /\ close_readings gap now nows
  end.

(** An update drops the time that does not fill a slot.  When each update
    comes less than a unit after the one before, the wheel stands still: the
    current slot stays, no callback is called and no node expires, for any
    number of updates and any total time. *)
Theorem time_wheel_frequent_updates_defect U (step : U -> Z -> U) expire u w ss nows
    (Hinv : tw_inv w ss) (Hunit : 0 < unit_ms w < 2 ^ 32) (Hstart : reading (start_ts (tw_tc w)))
    (Hclose : close_readings ((unit_ms w - 1) * 1000000) (start_ts (tw_tc w)) nows) :
  exists w', updates step expire u w nows = Some (u, w') /\ tw_inv w' ss /\ tw_cur w' = tw_cur w.
Proof.
  revert w Hinv Hunit Hstart Hclose; induction nows as [|now nows IH]; intros w Hinv Hunit Hstart Hclose.
  { by exists w. }
  destruct Hclose as (Hr & Hd & Hclose).
  destruct (interval_ms_close (muggle_time_counter_end (tw_tc w) now) Hstart Hr) as (ms & Hms & Hb & Hpos).
  cbn [start_ts end_ts muggle_time_counter_end] in Hb, Hpos.
  destruct (update_ok step expire u w ss now ms Hinv ltac:(lia) Hms) as (w1 & E & Hw1 & Hc & Hn & Hu & _ & Htc).
  assert (due w ms = 0) as Hdue.
  { unfold due; rewrite Z.quot_small by lia; pose proof (ti_n _ _ Hinv); unfold wrap; rewrite Z.mod_0_l by lia; lia. }
  rewrite Hdue in E, Hw1, Hc; change (Z.to_nat 0) with 0%nat in E, Hw1, Hc; cbn [turn fst snd] in E, Hw1, Hc.
  destruct (IH w1) as (w2 & E2 & Hw2 & Hc2); rewrite ?Hu, ?Htc; try done.
  exists w2; split; [cbn [updates]; rewrite E; exact E2|]; split; [done|congruence].
Qed.

(** Updates of a wheel of half-second slots, every 400 milliseconds for eight
    seconds. *)
Definition every_400ms : list timespec := (fun i => TS (i * 400 / 1000) ((i * 400) mod 1000 * 1000000)) <$> seqZ 1 20.

Lemma time_wheel_frequent_updates_defect_witness :
  exists w', updates record_node never [] sample_wheel every_400ms = Some ([], w') /\
    tw_inv w' (replicate 10 []) /\ tw_cur w' = 0.
Proof.
  refine (time_wheel_frequent_updates_defect _ record_node never [] sample_wheel (replicate 10 []) every_400ms
    sample_wheel_ok _ _ _).
  - vm_compute; split; congruence.
  - vm_compute; repeat split; congruence.
  - vm_compute; repeat split; congruence.
Defined.
