(* ===== verification/RingBuffer.v ===== *)
(** * The ring buffer: [sync/ring_buffer.c], with [sync/spinlock.c]

    Several threads write messages to a ring and read them.  A thread is at a
    program point ([pc]) of one of the functions; a step is one access to the
    shared memory, or one call of the operating system, by any of the threads.
    The model is that of the build with a [futex] ([MUGGLE_RING_BUFFER_USE_SYNC]),
    and the accesses are sequentially consistent.

    [muggle_sync_wait] sleeps only if the word still has the value that is
    given, and may return without a wake-up; [muggle_sync_wake_one] and
    [muggle_sync_wake_all] wake one, or all, of the threads that sleep; a mutex
    has one owner.

    The messages that have been written, and those that [read_once] has
    returned, are recorded in [hist] and [taken], which no step reads; a
    reader carries the number of the message that it asks for, of which the
    code sees the index in the ring. *)
From S2P Require Import Prelude Utils.

Definition MUGGLE_RING_BUFFER_WRITE_MODE_LOCK : Z := 0.
Definition MUGGLE_RING_BUFFER_WRITE_MODE_SINGLE : Z := 1.
Definition MUGGLE_RING_BUFFER_READ_MODE_WAIT : Z := 0.
Definition MUGGLE_RING_BUFFER_READ_MODE_SINGLE_WAIT : Z := 1.
Definition MUGGLE_RING_BUFFER_READ_MODE_BUSY_LOOP : Z := 2.
Definition MUGGLE_RING_BUFFER_READ_MODE_ONCE : Z := 3.

Definition MUGGLE_RING_BUFFER_FLAG_SINGLE_WRITER : Z := 1.
Definition MUGGLE_RING_BUFFER_FLAG_SINGLE_READER : Z := 2.
Definition MUGGLE_RING_BUFFER_FLAG_READ_BUSY_LOOP : Z := 8.
Definition MUGGLE_RING_BUFFER_FLAG_MSG_READ_ONCE : Z := 16.

Definition MUGGLE_SPINLOCK_STATUS_UNLOCK : Z := 0.
Definition MUGGLE_SPINLOCK_STATUS_LOCK : Z := 1.

Record muggle_ring_buffer := RB {
  rb_capacity : Z; rb_flag : Z; write_mode : Z; read_mode : Z;
  write_spin : Z; cursor : Z; read_cursor : Z; read_mutex : option nat;
  blocks : list (option Z)
}.

(** ** Modes and initialisation *)

(** The error code, or write mode and read mode. *)
Definition muggle_ring_buffer_get_mode (flag : Z) : Z + (Z * Z) :=
  let has f := negb (Z.land flag f =? 0) in
  let w_mode := if has MUGGLE_RING_BUFFER_FLAG_SINGLE_WRITER then MUGGLE_RING_BUFFER_WRITE_MODE_SINGLE
                else MUGGLE_RING_BUFFER_WRITE_MODE_LOCK in
  if has MUGGLE_RING_BUFFER_FLAG_SINGLE_READER then
    if has MUGGLE_RING_BUFFER_FLAG_READ_BUSY_LOOP then inr (w_mode, MUGGLE_RING_BUFFER_READ_MODE_BUSY_LOOP)
    else inr (w_mode, MUGGLE_RING_BUFFER_READ_MODE_SINGLE_WAIT)
  else if has MUGGLE_RING_BUFFER_FLAG_MSG_READ_ONCE then
    if has MUGGLE_RING_BUFFER_FLAG_READ_BUSY_LOOP then inl MUGGLE_ERR_INVALID_PARAM
    else inr (w_mode, MUGGLE_RING_BUFFER_READ_MODE_ONCE)
  else if has MUGGLE_RING_BUFFER_FLAG_READ_BUSY_LOOP then inr (w_mode, MUGGLE_RING_BUFFER_READ_MODE_BUSY_LOOP)
  else inr (w_mode, MUGGLE_RING_BUFFER_READ_MODE_WAIT).

(** [mutex_ret] and [cv_ret]: what the initialisation of the mutex and of the
    condition variable return; [mem]: whether the allocation succeeds. *)
Definition muggle_ring_buffer_init (capacity flag mutex_ret cv_ret : Z) (mem : bool)
  : Z + muggle_ring_buffer :=
  if capacity <=? 0 then inl MUGGLE_ERR_INVALID_PARAM
  else
    let cap := swrap 32 (muggle_next_pow_of_2 capacity) in
    if cap <=? 0 then inl MUGGLE_ERR_INVALID_PARAM
    else
      match muggle_ring_buffer_get_mode flag with
      | inl ret => inl ret
      | inr (w_mode, r_mode) =>
          if negb (mutex_ret =? MUGGLE_OK) then inl mutex_ret
          else if negb (cv_ret =? MUGGLE_OK) then inl cv_ret
          else if negb mem then inl MUGGLE_ERR_MEM_ALLOC
          else inr (RB cap flag w_mode r_mode MUGGLE_SPINLOCK_STATUS_UNLOCK 0 0 None (uninit cap))
      end.

(** The blocks are freed. *)
Definition muggle_ring_buffer_destroy (r : muggle_ring_buffer) : Z * muggle_ring_buffer :=
  (MUGGLE_OK, RB (rb_capacity r) (rb_flag r) (write_mode r) (read_mode r) (write_spin r) (cursor r) (read_cursor r)
                 (read_mutex r) []).

(** ** Threads *)

(** Where a thread is: [W] in [write], [R] in [read_wait] and
    [read_busy_loop], [O] in [read_once].  [RSleep] and [OSleep] are inside
    [muggle_sync_wait]. *)
Inductive pc :=
| WLock (data : Z) | WAssign (data : Z) | WMove (data : Z) | WUnlock | WWake
| RLoad (k : nat) (rpos : Z) | RTake (k : nat) (rpos : Z) | RWait (k : nat) (rpos : Z) | RSleep (k : nat) (rpos : Z)
| OLock | OLoad | OTake | OMove (ret : Z) | OWait (wpos : Z) | OSleep (wpos : Z) | OUnlock (ret : Z)
| Done (ret : option Z).

Definition set_spin r x := RB (rb_capacity r) (rb_flag r) (write_mode r) (read_mode r) x (cursor r) (read_cursor r) (read_mutex r) (blocks r).
Definition set_cursor r x := RB (rb_capacity r) (rb_flag r) (write_mode r) (read_mode r) (write_spin r) x (read_cursor r) (read_mutex r) (blocks r).
Definition set_read_cursor r x := RB (rb_capacity r) (rb_flag r) (write_mode r) (read_mode r) (write_spin r) (cursor r) x (read_mutex r) (blocks r).
Definition set_mutex r x := RB (rb_capacity r) (rb_flag r) (write_mode r) (read_mode r) (write_spin r) (cursor r) (read_cursor r) x (blocks r).
Definition set_blocks r x := RB (rb_capacity r) (rb_flag r) (write_mode r) (read_mode r) (write_spin r) (cursor r) (read_cursor r) (read_mutex r) x.

(** [muggle_spinlock_lock]: one test-and-set; the loop tries again. *)
Definition spinlock_try r : option muggle_ring_buffer :=
  if write_spin r =? MUGGLE_SPINLOCK_STATUS_UNLOCK then Some (set_spin r MUGGLE_SPINLOCK_STATUS_LOCK) else None.
Definition muggle_spinlock_unlock r : muggle_ring_buffer := set_spin r MUGGLE_SPINLOCK_STATUS_UNLOCK.

(** [muggle_ring_buffer_write_lock] and [muggle_ring_buffer_write_single]. *)
Definition write_step r (p : pc) : option (muggle_ring_buffer * pc) :=
  match p with
  | WLock d =>
      match spinlock_try r with Some r' => Some (r', WAssign d) | None => Some (r, WLock d) end
  | WAssign d => b ← wr (blocks r) (cursor r) (Some d); Some (set_blocks r b, WMove d)
  | WMove d =>
      let rpos := MUGGLE_IDX_IN_POW_OF_2_RING (u32 (cursor r + 1)) (rb_capacity r) in
      Some (set_cursor r rpos, if write_mode r =? MUGGLE_RING_BUFFER_WRITE_MODE_LOCK then WUnlock else WWake)
  | WUnlock => Some (muggle_spinlock_unlock r, WWake)
  | _ => None
  end.

(** [muggle_ring_buffer_read_wait] and [muggle_ring_buffer_read_busy_loop]. *)
Definition read_step r (p : pc) : option (muggle_ring_buffer * pc) :=
  match p with
  | RLoad k rpos =>
      Some (r, if negb (cursor r =? rpos) then RTake k rpos
               else if read_mode r =? MUGGLE_RING_BUFFER_READ_MODE_BUSY_LOOP then RLoad k rpos
               else RWait k rpos)
  | RTake k rpos => v ← rdi (blocks r) rpos; Some (r, Done (Some v))
  | RWait k rpos => Some (r, if cursor r =? rpos then RSleep k rpos else RLoad k rpos)
  | _ => None
  end.

(** [muggle_ring_buffer_read_once]. *)
Definition once_step r (tid : nat) (p : pc) : option (muggle_ring_buffer * pc) :=
  match p with
  | OLock => match read_mutex r with None => Some (set_mutex r (Some tid), OLoad) | Some _ => None end
  | OLoad => Some (r, if negb (read_cursor r =? cursor r) then OTake else OWait (cursor r))
  | OTake => v ← rdi (blocks r) (read_cursor r); Some (r, OMove v)
  | OMove v => Some (set_read_cursor r (MUGGLE_IDX_IN_POW_OF_2_RING (u32 (read_cursor r + 1)) (rb_capacity r)), OUnlock v)
  | OWait wpos => Some (r, if cursor r =? wpos then OSleep wpos else OLoad)
  | OUnlock v => Some (set_mutex r None, Done (Some v))
  | _ => None
  end.

Definition local_step r (tid : nat) (p : pc) : option (muggle_ring_buffer * pc) :=
  match p with
  | WLock _ | WAssign _ | WMove _ | WUnlock => write_step r p
  | RLoad _ _ | RTake _ _ | RWait _ _ => read_step r p
  | OLock | OLoad | OTake | OMove _ | OWait _ | OUnlock _ => once_step r tid p
  | _ => None
  end.

(** The entry of [muggle_ring_buffer_write] and [muggle_ring_buffer_read]. *)
Definition muggle_ring_buffer_write r (data : Z) : pc :=
  if write_mode r =? MUGGLE_RING_BUFFER_WRITE_MODE_LOCK then WLock data else WAssign data.

Definition muggle_ring_buffer_read r (k : nat) : pc :=
  let pos := MUGGLE_IDX_IN_POW_OF_2_RING (u32 (Z.of_nat k)) (rb_capacity r) in
  if read_mode r =? MUGGLE_RING_BUFFER_READ_MODE_ONCE then OLock
  else RLoad k (MUGGLE_IDX_IN_POW_OF_2_RING pos (rb_capacity r)).

Definition sleeping (p : pc) : bool := match p with RSleep _ _ | OSleep _ => true | _ => false end.
Definition wake_pc (p : pc) : pc := match p with RSleep k rpos => RLoad k rpos | OSleep _ => OLoad | p => p end.

(** [wakes mode ts ts']: what the call of the wake function does. *)
Inductive wakes (mode : Z) (ts : gmap nat pc) : gmap nat pc -> Prop :=
| wake_wait : mode = MUGGLE_RING_BUFFER_READ_MODE_WAIT -> wakes mode ts (wake_pc <$> ts)
| wake_one t p : mode = MUGGLE_RING_BUFFER_READ_MODE_SINGLE_WAIT \/ mode = MUGGLE_RING_BUFFER_READ_MODE_ONCE ->
    ts !! t = Some p -> sleeping p = true -> wakes mode ts (<[t := wake_pc p]> ts)
| wake_nobody : mode = MUGGLE_RING_BUFFER_READ_MODE_SINGLE_WAIT \/ mode = MUGGLE_RING_BUFFER_READ_MODE_ONCE ->
    map_Forall (fun _ p => sleeping p = false) ts -> wakes mode ts ts
| wake_busy_loop : mode = MUGGLE_RING_BUFFER_READ_MODE_BUSY_LOOP -> wakes mode ts ts.

Record config := CF { ring : muggle_ring_buffer; threads : gmap nat pc; hist : list Z; taken : list Z }.

Definition writer (p : pc) : bool :=
  match p with WLock _ | WAssign _ | WMove _ | WUnlock | WWake => true | _ => false end.
Definition reader (p : pc) : bool :=
  match p with RLoad _ _ | RTake _ _ | RWait _ _ | RSleep _ _ => true | _ => false end.

(** A step of the code of a thread. *)
Inductive code_step : config -> config -> Prop :=
| step_local c t p r' p' :
    threads c !! t = Some p -> local_step (ring c) t p = Some (r', p') ->
    code_step c (CF r' (<[t := p']> (threads c))
      (match p with WMove d => hist c ++ [d] | _ => hist c end)
      (match p with OMove v => taken c ++ [v] | _ => taken c end))
| step_wake c t ts' :
    threads c !! t = Some WWake -> wakes (read_mode (ring c)) (threads c) ts' ->
    code_step c (CF (ring c) (<[t := Done None]> ts') (hist c) (taken c)).

(** Calls, by threads that are not inside one, and wake-ups without a cause.
    With the flags for a single writer or reader, the caller guarantees that
    there is only one; a reader asks for the messages in order. *)
Definition may_call (ts : gmap nat pc) (t : nat) : Prop := ts !! t = None \/ exists v, ts !! t = Some (Done v).

Inductive env_step : config -> config -> Prop :=
| step_write c t data :
    may_call (threads c) t ->
    (write_mode (ring c) = MUGGLE_RING_BUFFER_WRITE_MODE_SINGLE -> map_Forall (fun _ p => writer p = false) (threads c)) ->
    env_step c (CF (ring c) (<[t := muggle_ring_buffer_write (ring c) data]> (threads c)) (hist c) (taken c))
| step_read c t k :
    may_call (threads c) t -> (k <= length (hist c))%nat ->
    (read_mode (ring c) = MUGGLE_RING_BUFFER_READ_MODE_SINGLE_WAIT -> map_Forall (fun _ p => reader p = false) (threads c)) ->
    env_step c (CF (ring c) (<[t := muggle_ring_buffer_read (ring c) k]> (threads c)) (hist c) (taken c))
| step_spurious c t p :
    threads c !! t = Some p -> sleeping p = true ->
    env_step c (CF (ring c) (<[t := wake_pc p]> (threads c)) (hist c) (taken c)).

Inductive reach : config -> Prop :=
| reach_init capacity flag mutex_ret cv_ret mem r :
    0 <= capacity < 2 ^ 32 -> muggle_ring_buffer_init capacity flag mutex_ret cv_ret mem = inr r -> reach (CF r ∅ [] [])
| reach_code c c' : reach c -> code_step c c' -> reach c'
| reach_env c c' : reach c -> env_step c c' -> reach c'.

(** ** The invariant *)

Abbreviation msgs c := (Z.of_nat (length (hist c))).
Abbreviation reads c := (Z.of_nat (length (taken c))).

(** In the critical section of a writer, and of [read_once]. *)
Definition writing (p : pc) : bool := match p with WAssign _ | WMove _ | WUnlock => true | _ => false end.
Definition holding (p : pc) : bool :=
  match p with OLoad | OTake | OMove _ | OWait _ | OSleep _ | OUnlock _ => true | _ => false end.
Definition once_pc (p : pc) : bool := match p with OLock => true | p => holding p end.
(** A wake-up is due. *)
Definition pending (p : pc) : bool := match p with WUnlock | WWake => true | _ => false end.

(** What holds at each program point. *)
Definition thread_ok (c : config) (p : pc) : Prop :=
  let r := ring c in
  match p with
  | WLock _ | WUnlock => write_mode r = MUGGLE_RING_BUFFER_WRITE_MODE_LOCK
  | WMove d => rd (blocks r) (cursor r) = Some (Some d)
  | RLoad k rpos => rpos = Z.of_nat k mod rb_capacity r /\ Z.of_nat k <= msgs c
  | RTake k rpos => rpos = Z.of_nat k mod rb_capacity r /\ Z.of_nat k < msgs c
  | RWait k rpos | RSleep k rpos => rpos = Z.of_nat k mod rb_capacity r /\ Z.of_nat k <= msgs c /\
      (read_mode r = MUGGLE_RING_BUFFER_READ_MODE_WAIT \/ read_mode r = MUGGLE_RING_BUFFER_READ_MODE_SINGLE_WAIT)
  | OTake | OMove _ => reads c < msgs c
  | OWait wpos | OSleep wpos => wpos = read_cursor r
  | _ => True
  end.

Record inv (c : config) : Prop := {
  i_cap : exists e, 0 <= e <= 30 /\ rb_capacity (ring c) = 2 ^ e;
  i_blocks : Z.of_nat (length (blocks (ring c))) = rb_capacity (ring c);
  i_cursor : cursor (ring c) = msgs c mod rb_capacity (ring c);
  i_modes : (write_mode (ring c) = MUGGLE_RING_BUFFER_WRITE_MODE_LOCK \/ write_mode (ring c) = MUGGLE_RING_BUFFER_WRITE_MODE_SINGLE) /\
    (read_mode (ring c) = MUGGLE_RING_BUFFER_READ_MODE_WAIT \/ read_mode (ring c) = MUGGLE_RING_BUFFER_READ_MODE_SINGLE_WAIT \/
     read_mode (ring c) = MUGGLE_RING_BUFFER_READ_MODE_BUSY_LOOP \/ read_mode (ring c) = MUGGLE_RING_BUFFER_READ_MODE_ONCE);
  i_threads : map_Forall (fun _ => thread_ok c) (threads c);
  (* mutual exclusion *)
  i_spin : forall t p, threads c !! t = Some p -> writing p = true -> write_mode (ring c) = MUGGLE_RING_BUFFER_WRITE_MODE_LOCK ->
    write_spin (ring c) = MUGGLE_SPINLOCK_STATUS_LOCK;
  i_writing : forall t1 t2 p1 p2, threads c !! t1 = Some p1 -> threads c !! t2 = Some p2 ->
    writing p1 = true -> writing p2 = true -> t1 = t2;
  i_single_writer : write_mode (ring c) = MUGGLE_RING_BUFFER_WRITE_MODE_SINGLE ->
    forall t1 t2 p1 p2, threads c !! t1 = Some p1 -> threads c !! t2 = Some p2 ->
    writer p1 = true -> writer p2 = true -> t1 = t2;
  i_single_reader : read_mode (ring c) = MUGGLE_RING_BUFFER_READ_MODE_SINGLE_WAIT ->
    forall t1 t2 p1 p2, threads c !! t1 = Some p1 -> threads c !! t2 = Some p2 ->
    reader p1 = true -> reader p2 = true -> t1 = t2;
  i_mutex : forall t p, threads c !! t = Some p -> holding p = true -> read_mutex (ring c) = Some t;
  i_once : forall t p, threads c !! t = Some p ->
    (once_pc p = true -> read_mode (ring c) = MUGGLE_RING_BUFFER_READ_MODE_ONCE) /\
    (reader p = true -> read_mode (ring c) <> MUGGLE_RING_BUFFER_READ_MODE_ONCE);
  i_read_cursor : read_cursor (ring c) = reads c mod rb_capacity (ring c) /\ reads c <= msgs c;
  (* the last messages are in the ring *)
  i_hist : forall j d, hist c !! j = Some d -> msgs c < Z.of_nat j + rb_capacity (ring c) ->
    rd (blocks (ring c)) (Z.of_nat j mod rb_capacity (ring c)) = Some (Some d);
  (* no wake-up is lost *)
  i_sleep : forall t p, threads c !! t = Some p ->
    (forall k rpos, p = RSleep k rpos -> cursor (ring c) <> rpos ->
       exists t' p', threads c !! t' = Some p' /\ pending p' = true) /\
    (forall wpos, p = OSleep wpos -> cursor (ring c) <> wpos ->
       exists t' p', threads c !! t' = Some p' /\ pending p' = true)
}.

Lemma pow2_ring_idx e x : 0 <= e <= 30 -> 0 <= x -> x < 2 ^ 32 - 1 ->
  MUGGLE_IDX_IN_POW_OF_2_RING (u32 x) (2 ^ e) = x mod 2 ^ e.
Proof. intros He Hx Hx'; rewrite wrap_small by (unfold in_width; lia); apply ring_idx_mod; lia. Qed.

(** The index of message [k], whose number has been truncated to 32 bits. *)
Lemma message_idx e k : 0 <= e <= 30 ->
  MUGGLE_IDX_IN_POW_OF_2_RING (MUGGLE_IDX_IN_POW_OF_2_RING (u32 k) (2 ^ e)) (2 ^ e) = k mod 2 ^ e.
Proof.
  intros He; rewrite !ring_idx_mod by lia; rewrite Z.mod_mod by lia; unfold wrap.
  symmetry; apply Znumtheory.Zmod_div_mod; [lia|lia|]; exists (2 ^ (32 - e)).
  rewrite <- Z.pow_add_r by lia; f_equal; lia.
Qed.

Lemma next_idx e n : 0 <= e <= 30 -> 0 <= n ->
  MUGGLE_IDX_IN_POW_OF_2_RING (u32 (n mod 2 ^ e + 1)) (2 ^ e) = (n + 1) mod 2 ^ e.
Proof.
  intros He Hn; assert (0 < 2 ^ e <= 2 ^ 30) by (split; [lia|apply Z.pow_le_mono_r; lia]).
  pose proof (Z.mod_pos_bound n (2 ^ e)); rewrite pow2_ring_idx by lia.
  rewrite <- (Z.add_mod_idemp_l n 1) by lia; done.
Qed.

(** One thread [t] moves on from [p] to [p'], with the ring as in [r']. *)
Lemma inv_local c t p r' p' h' tk' :
  inv c -> threads c !! t = Some p ->
  let c' := CF r' (<[t := p']> (threads c)) h' tk' in
  let others (P : nat -> pc -> Prop) := forall t2 p2, t2 <> t -> threads c !! t2 = Some p2 -> P t2 p2 in
  rb_capacity r' = rb_capacity (ring c) -> write_mode r' = write_mode (ring c) -> read_mode r' = read_mode (ring c) ->
  length (blocks r') = length (blocks (ring c)) ->
  cursor r' = msgs c' mod rb_capacity r' -> (read_cursor r' = reads c' mod rb_capacity r' /\ reads c' <= msgs c') ->
  (forall j d, h' !! j = Some d -> msgs c' < Z.of_nat j + rb_capacity r' ->
     rd (blocks r') (Z.of_nat j mod rb_capacity r') = Some (Some d)) ->
  thread_ok c' p' -> others (fun _ p2 => thread_ok c p2 -> thread_ok c' p2) ->
  (writing p' = true -> writing p = true \/ others (fun _ p2 => writing p2 = false)) ->
  (write_mode r' = MUGGLE_RING_BUFFER_WRITE_MODE_LOCK -> (writing p' = true -> write_spin r' = MUGGLE_SPINLOCK_STATUS_LOCK) /\
     others (fun _ p2 => writing p2 = true -> write_spin r' = MUGGLE_SPINLOCK_STATUS_LOCK)) ->
  (writer p' = true -> writer p = true) -> (reader p' = true -> reader p = true) -> (once_pc p' = true -> once_pc p = true) ->
  (holding p' = true -> read_mutex r' = Some t) -> others (fun t2 p2 => holding p2 = true -> read_mutex r' = Some t2) ->
  (forall k rpos, p' = RSleep k rpos -> cursor r' = rpos) -> (forall wpos, p' = OSleep wpos -> cursor r' = wpos) ->
  (pending p' = true \/ (cursor r' = cursor (ring c) /\ pending p = false)) ->
  inv c'.
Proof.
  intros Hinv Ht c' others Hcap Hw Hr Hlen Hcur Hrc Hh Hok Hoks Hwr Hsp Hwtr Hrd Hon Hho Hhos Hs1 Hs2 Hpend.
  split; simpl; rewrite ?Hcap, ?Hw, ?Hr in *; try done; try solve [apply Hinv].
  - rewrite Hlen; apply Hinv.
  - intros t2 p2 H; upd; [done|]; apply (Hoks t2 p2); [done|done|]; by apply (i_threads _ Hinv t2).
  - intros t2 p2 H W M; upd; [by apply (Hsp M)|]; by apply (proj2 (Hsp M) t2 p2).
  - intros t1 t2 p1 p2 H1 H2 W1 W2; upd; try done.
    + destruct (Hwr W2) as [W|W]; [by apply (i_writing _ Hinv _ _ p1 p)|]; rewrite (W t1 p1) in W1; congruence.
    + destruct (Hwr W1) as [W|W]; [by apply (i_writing _ Hinv _ _ p p2)|]; rewrite (W t2 p2) in W2; congruence.
    + by apply (i_writing _ Hinv _ _ p1 p2).
  - intros M t1 t2 p1 p2 H1 H2 W1 W2; upd; try done.
    + by apply (i_single_writer _ Hinv M _ _ p1 p); auto.
    + by apply (i_single_writer _ Hinv M _ _ p p2); auto.
    + by apply (i_single_writer _ Hinv M _ _ p1 p2); auto.
  - intros M t1 t2 p1 p2 H1 H2 W1 W2; upd; try done.
    + by apply (i_single_reader _ Hinv M _ _ p1 p); auto.
    + by apply (i_single_reader _ Hinv M _ _ p p2); auto.
    + by apply (i_single_reader _ Hinv M _ _ p1 p2); auto.
  - intros t2 p2 H W; upd; [auto|]; by apply (Hhos t2 p2).
  - intros t2 p2 H; upd; [|by apply (i_once _ Hinv t2)].
    destruct (i_once _ Hinv t p Ht) as [H1 H2]; split; auto.
  - intros t2 p2 H.
    assert (forall t' p'', threads c !! t' = Some p'' -> pending p'' = true -> cursor r' = cursor (ring c) ->
      exists t' q', <[t:=p']> (threads c) !! t' = Some q' /\ pending q' = true) as Hkeep.
    { intros t' q Hq Pq _; destruct (decide (t' = t)) as [->|Hne].
      - destruct Hpend as [P|[_ P]]; [exists t, p'; by rewrite lookup_insert_eq|congruence].
      - exists t', q; by rewrite lookup_insert_ne. }
    assert (cursor r' = cursor (ring c) \/ exists t' q', <[t:=p']> (threads c) !! t' = Some q' /\ pending q' = true) as Hc.
    { destruct Hpend as [P|[P _]]; [right; exists t, p'; by rewrite lookup_insert_eq|by left]. }
    upd; [split; [intros k rpos E1 N1; by destruct (N1 (Hs1 k rpos E1))|intros w E1 N1; by destruct (N1 (Hs2 w E1))]|].
    destruct (i_sleep _ Hinv t2 p2 H) as [S1 S2]; split.
    + intros k rpos -> Hne; destruct Hc as [Hc|Hc]; [|done]; rewrite Hc in Hne.
      destruct (S1 k rpos eq_refl Hne) as (t' & q & Hq & Pq); by apply (Hkeep t' q).
    + intros wpos -> Hne; destruct Hc as [Hc|Hc]; [|done]; rewrite Hc in Hne.
      destruct (S2 wpos eq_refl Hne) as (t' & q & Hq & Pq); by apply (Hkeep t' q).
Qed.

(** Steps that leave the ring as it is, and the critical sections too. *)
Lemma inv_quiet c t p p' :
  inv c -> threads c !! t = Some p -> thread_ok c p' ->
  writing p' = writing p -> pending p' = pending p \/ pending p' = true ->
  (writer p' = true -> writer p = true) -> (reader p' = true -> reader p = true) ->
  (once_pc p' = true -> once_pc p = true) -> (holding p' = true -> holding p = true) ->
  (forall k rpos, p' = RSleep k rpos -> cursor (ring c) = rpos) -> (forall wpos, p' = OSleep wpos -> cursor (ring c) = wpos) ->
  inv (CF (ring c) (<[t := p']> (threads c)) (hist c) (taken c)).
Proof.
  intros Hinv Ht Hok Hw Hp Hwr Hrd Hon Hho Hs1 Hs2.
  assert (pending p' = true \/ cursor (ring c) = cursor (ring c) /\ pending p = false) as Hp'
    by (destruct Hp as [->|]; [destruct (pending p); auto|auto]).
  apply (inv_local c t p); try done; try solve [apply Hinv].
  - intros W; left; congruence.
  - intros M; split; [intros W; apply (i_spin _ Hinv t p); congruence|].
    intros t2 p2 _ H2 W2; by apply (i_spin _ Hinv t2 p2).
  - intros W; apply (i_mutex _ Hinv t p); auto.
  - intros t2 p2 _ H2 W2; by apply (i_mutex _ Hinv t2 p2).
Qed.

Lemma cap_pos c : inv c -> 0 < rb_capacity (ring c).
Proof. intros H; destruct (i_cap _ H) as (e & He & ->); lia. Qed.

Lemma others_not_writing c t p : inv c -> threads c !! t = Some p -> writing p = true ->
  forall t2 p2, t2 <> t -> threads c !! t2 = Some p2 -> writing p2 = false.
Proof.
  intros Hinv Ht W t2 p2 Hne H2; destruct (writing p2) eqn:W2; [|done].
  by destruct Hne; apply (i_writing _ Hinv t2 t p2 p).
Qed.

Lemma inv_write_step c t p r' p' :
  inv c -> threads c !! t = Some p -> write_step (ring c) p = Some (r', p') ->
  inv (CF r' (<[t := p']> (threads c)) (match p with WMove d => hist c ++ [d] | _ => hist c end) (taken c)).
Proof.
  intros Hinv Ht Hs; pose proof (i_threads _ Hinv t p Ht) as Hok; pose proof (cap_pos c Hinv) as Hcp.
  destruct p; cbn [write_step] in Hs; try done.
  - unfold spinlock_try in Hs; destruct (Z.eqb_spec (write_spin (ring c)) MUGGLE_SPINLOCK_STATUS_UNLOCK) as [Hfree|Hheld]; simplify_eq.
    2:{ apply (inv_quiet c t (WLock data)); auto; done. }
    assert (forall t2 p2, t2 <> t -> threads c !! t2 = Some p2 -> writing p2 = false) as Hno.
    { intros t2 p2 _ H2; destruct (writing p2) eqn:W2; [|done].
      rewrite (i_spin _ Hinv t2 p2 H2 W2 Hok) in Hfree; done. }
    apply (inv_local c t (WLock data)); try done; try solve [apply Hinv]; auto.
    intros t2 p2 _ H2 W2; by apply (i_mutex _ Hinv t2 p2).
  - pose proof (others_not_writing c t _ Hinv Ht eq_refl) as Hno.
    destruct (wr (blocks (ring c)) (cursor (ring c)) (Some data)) as [b|] eqn:Eb; simplify_eq/=.
    apply (inv_local c t (WAssign data)); try done; try solve [apply Hinv]; auto; simpl.
    + by apply wr_length in Eb.
    + intros j d Hj Hlt; rewrite (rd_wr_ne _ _ _ _ _ Eb); [by apply (i_hist _ Hinv)|].
      rewrite (i_cursor _ Hinv); intros Heq; pose proof (lookup_lt_Some _ _ _ Hj).
      apply symmetry, mod_window in Heq; lia.
    + by apply (rd_wr_eq _ _ _ _ Eb).
    + intros t2 p2 Hne H2; specialize (Hno t2 p2 Hne H2); destruct p2; simpl in *; done.
    + intros M; split; [intros _; by apply (i_spin _ Hinv t _ Ht)|intros t2 p2 Hne H2 W2; by rewrite (Hno t2 p2) in W2].
    + intros t2 p2 _ H2 W2; by apply (i_mutex _ Hinv t2 p2).
  - pose proof (others_not_writing c t _ Hinv Ht eq_refl) as Hno.
    simplify_eq/=; destruct (i_cap _ Hinv) as (e & He & Ecap).
    assert (cursor (set_cursor (ring c) (MUGGLE_IDX_IN_POW_OF_2_RING (u32 (cursor (ring c) + 1)) (rb_capacity (ring c))))
      = Z.of_nat (length (hist c ++ [data])) mod rb_capacity (ring c)) as Hcur.
    { simpl; rewrite (i_cursor _ Hinv), Ecap, next_idx by lia; rewrite length_app; f_equal; simpl; lia. }
    apply (inv_local c t (WMove data)); try done; try solve [apply Hinv]; auto; simpl.
    + destruct (i_read_cursor _ Hinv); split; [done|]; rewrite length_app; lia.
    + intros j d Hj Hlt; rewrite length_app in Hlt; simpl in Hlt.
      destruct (decide (j = length (hist c))) as [->|Hne].
      * rewrite lookup_app_r, Nat.sub_diag in Hj by lia; simplify_eq/=; by rewrite <- (i_cursor _ Hinv).
      * pose proof (lookup_lt_Some _ _ _ Hj) as Hl; rewrite length_app in Hl; simpl in Hl.
        rewrite lookup_app_l in Hj by lia; apply (i_hist _ Hinv); [done|lia].
    + destruct (_ =? _) eqn:E1; simpl; [by apply Z.eqb_eq in E1|done].
    + intros t2 p2 Hne H2; specialize (Hno t2 p2 Hne H2); destruct p2; simpl in *; rewrite ?length_app; simpl;
        try done; intros; destruct_and?; split_and?; try done; lia.
    + intros M; split; [intros _; by apply (i_spin _ Hinv t _ Ht)|intros t2 p2 Hne H2 W2; by rewrite (Hno t2 p2) in W2].
    + by destruct (_ =? _).
    + by destruct (_ =? _).
    + by destruct (_ =? _).
    + intros t2 p2 _ H2 W2; by apply (i_mutex _ Hinv t2 p2).
    + by destruct (_ =? _).
    + by destruct (_ =? _).
    + left; by destruct (_ =? _).
  - pose proof (others_not_writing c t _ Hinv Ht eq_refl) as Hno; simplify_eq/=.
    apply (inv_local c t WUnlock); try done; try solve [apply Hinv]; auto; simpl.
    + intros M; split; [done|intros t2 p2 Hne H2 W2; by rewrite (Hno t2 p2) in W2].
    + intros t2 p2 _ H2 W2; by apply (i_mutex _ Hinv t2 p2).
Qed.

Lemma read_not_lapped c (a : nat) : inv c -> Z.of_nat a <= msgs c -> cursor (ring c) <> Z.of_nat a mod rb_capacity (ring c) ->
  Z.of_nat a < msgs c.
Proof.
  intros Hinv Ha Hne; rewrite (i_cursor _ Hinv) in Hne; destruct (decide (Z.of_nat a = msgs c)) as [E|]; [by destruct Hne; rewrite E|lia].
Qed.

Lemma inv_read_step c t p r' p' :
  inv c -> threads c !! t = Some p -> read_step (ring c) p = Some (r', p') ->
  r' = ring c /\ inv (CF r' (<[t := p']> (threads c)) (hist c) (taken c)).
Proof.
  intros Hinv Ht Hs; pose proof (i_threads _ Hinv t p Ht) as Hok.
  destruct p; cbn [read_step] in Hs; try done; cbn [thread_ok] in Hok.
  - destruct Hok as [-> Hk]; destruct (Z.eqb_spec (cursor (ring c)) (Z.of_nat k mod rb_capacity (ring c))) as [E1|E1];
      cbn [negb] in Hs; [destruct (Z.eqb_spec (read_mode (ring c)) MUGGLE_RING_BUFFER_READ_MODE_BUSY_LOOP) as [E2|E2]|];
      simplify_eq; (split; [done|]); apply (inv_quiet c t _ _ Hinv Ht); auto; try done.
    + split; [done|]; split; [done|]; destruct (i_modes _ Hinv) as [_ [M|[M|[M|M]]]]; auto; [done|].
      by destruct (i_once _ Hinv t _ Ht) as [_ H]; destruct (H eq_refl).
    + split; [done|]; by apply read_not_lapped.
  - destruct (rdi (blocks (ring c)) rpos) as [v|]; simplify_eq/=; split; [done|].
    apply (inv_quiet c t _ _ Hinv Ht); auto; done.
  - destruct Hok as (-> & Hk & Hm); destruct (Z.eqb_spec (cursor (ring c)) (Z.of_nat k mod rb_capacity (ring c))) as [E1|E1];
      simplify_eq; (split; [done|]); apply (inv_quiet c t _ _ Hinv Ht); auto; try done.
    by intros k' rpos [= <- <-].
Qed.

Lemma others_not_holding c t p : inv c -> threads c !! t = Some p -> holding p = true ->
  forall t2 p2, t2 <> t -> threads c !! t2 = Some p2 -> holding p2 = false.
Proof.
  intros Hinv Ht W t2 p2 Hne H2; destruct (holding p2) eqn:W2; [|done].
  pose proof (i_mutex _ Hinv t p Ht W); pose proof (i_mutex _ Hinv t2 p2 H2 W2); congruence.
Qed.

Lemma inv_once_step c t p r' p' :
  inv c -> threads c !! t = Some p -> once_step (ring c) t p = Some (r', p') ->
  inv (CF r' (<[t := p']> (threads c)) (hist c) (match p with OMove v => taken c ++ [v] | _ => taken c end)).
Proof.
  intros Hinv Ht Hs; pose proof (i_threads _ Hinv t p Ht) as Hok; destruct (i_read_cursor _ Hinv) as [Hrc Hle].
  destruct p; cbn [once_step] in Hs; try done; cbn [thread_ok] in Hok.
  - destruct (read_mutex (ring c)) eqn:Em; simplify_eq.
    apply (inv_local c t OLock); try done; try solve [apply Hinv]; auto; simpl.
    + intros M; split; [done|]; intros t2 p2 _ H2 W2; by apply (i_spin _ Hinv t2 p2).
    + intros t2 p2 _ H2 W2; pose proof (i_mutex _ Hinv t2 p2 H2 W2); congruence.
  - destruct (Z.eqb_spec (read_cursor (ring c)) (cursor (ring c))) as [E1|E1]; simplify_eq/=;
      apply (inv_quiet c t _ _ Hinv Ht); auto; try done; simpl.
    apply read_not_lapped; [done|done|congruence].
  - destruct (rdi (blocks (ring c)) (read_cursor (ring c))) as [v|]; simplify_eq/=.
    apply (inv_quiet c t _ _ Hinv Ht); auto; done.
  - pose proof (others_not_holding c t _ Hinv Ht eq_refl) as Hno; simplify_eq/=.
    destruct (i_cap _ Hinv) as (e & He & Ecap).
    apply (inv_local c t (OMove ret)); try done; try solve [apply Hinv]; auto; simpl.
    + rewrite length_app; simpl; split; [|lia]; rewrite Hrc, Ecap, next_idx by lia; f_equal; lia.
    + intros t2 p2 Hne H2; specialize (Hno t2 p2 Hne H2); destruct p2; simpl in *; done.
    + intros M; split; [done|]; intros t2 p2 _ H2 W2; by apply (i_spin _ Hinv t2 p2).
    + intros _; by apply (i_mutex _ Hinv t _ Ht).
    + intros t2 p2 Hne H2 W2; by rewrite (Hno t2 p2) in W2.
  - destruct (Z.eqb_spec (cursor (ring c)) wpos) as [E1|E1]; simplify_eq/=;
      apply (inv_quiet c t _ _ Hinv Ht); auto; try done; simpl.
    by intros w [= <-].
  - pose proof (others_not_holding c t _ Hinv Ht eq_refl) as Hno; simplify_eq/=.
    apply (inv_local c t (OUnlock ret)); try done; try solve [apply Hinv]; auto; simpl.
    + intros M; split; [done|]; intros t2 p2 _ H2 W2; by apply (i_spin _ Hinv t2 p2).
    + intros t2 p2 Hne H2 W2; by rewrite (Hno t2 p2) in W2.
Qed.

(** Some threads are woken. *)
Lemma inv_woken c ts' :
  inv c ->
  (forall t q, ts' !! t = Some q -> exists p, threads c !! t = Some p /\ (q = p \/ q = wake_pc p)) ->
  (forall t p, threads c !! t = Some p -> sleeping p = false -> ts' !! t = Some p) ->
  inv (CF (ring c) ts' (hist c) (taken c)).
Proof.
  intros Hinv Hback Hfwd.
  assert (Hw : forall t q, ts' !! t = Some q -> exists p, threads c !! t = Some p /\ writing q = writing p /\
    writer q = writer p /\ reader q = reader p /\ holding q = holding p /\ once_pc q = once_pc p).
  { intros t q Hq; destruct (Hback t q Hq) as (p & Hp & [->| ->]); exists p; (split; [done|]); by destruct p. }
  split; simpl; try apply Hinv.
  - intros t q Hq; destruct (Hback t q Hq) as (p & Hp & [->| ->]); pose proof (i_threads _ Hinv t p Hp) as Hok;
      [done|]; destruct p; simpl in *; try done; tauto.
  - intros t q Hq W M; destruct (Hw t q Hq) as (p & Hp & E1 & _); apply (i_spin _ Hinv t p); congruence.
  - intros t1 t2 q1 q2 H1 H2 W1 W2; destruct (Hw _ _ H1) as (p1 & P1 & E1 & _), (Hw _ _ H2) as (p2 & P2 & E2 & _).
    apply (i_writing _ Hinv t1 t2 p1 p2); congruence.
  - intros M t1 t2 q1 q2 H1 H2 W1 W2; destruct (Hw _ _ H1) as (p1 & P1 & _ & E1 & _), (Hw _ _ H2) as (p2 & P2 & _ & E2 & _).
    apply (i_single_writer _ Hinv M t1 t2 p1 p2); congruence.
  - intros M t1 t2 q1 q2 H1 H2 W1 W2; destruct (Hw _ _ H1) as (p1 & P1 & _ & _ & E1 & _), (Hw _ _ H2) as (p2 & P2 & _ & _ & E2 & _).
    apply (i_single_reader _ Hinv M t1 t2 p1 p2); congruence.
  - intros t q Hq W; destruct (Hw t q Hq) as (p & Hp & _ & _ & _ & E1 & _); apply (i_mutex _ Hinv t p); congruence.
  - intros t q Hq; destruct (Hw t q Hq) as (p & Hp & _ & _ & E1 & _ & E2); rewrite E1, E2; by apply (i_once _ Hinv t).
  - intros t q Hq; destruct (Hback t q Hq) as (p & Hp & [->| ->]); [|by destruct p].
    assert (forall t' p', threads c !! t' = Some p' -> pending p' = true -> exists t' p', ts' !! t' = Some p' /\ pending p' = true) as Hk
      by (intros t' p' H1 H2; exists t', p'; split; [apply Hfwd; [done|by destruct p']|done]).
    destruct (i_sleep _ Hinv t p Hp) as [S1 S2]; split.
    + intros k rpos E1 N1; destruct (S1 k rpos E1 N1) as (t' & p' & H1 & H2); eauto.
    + intros w E1 N1; destruct (S2 w E1 N1) as (t' & p' & H1 & H2); eauto.
Qed.

(** At most one thread sleeps when only one is woken. *)
Lemma one_sleeper c t1 t2 p1 p2 :
  inv c -> read_mode (ring c) = MUGGLE_RING_BUFFER_READ_MODE_SINGLE_WAIT \/ read_mode (ring c) = MUGGLE_RING_BUFFER_READ_MODE_ONCE ->
  threads c !! t1 = Some p1 -> threads c !! t2 = Some p2 -> sleeping p1 = true -> sleeping p2 = true -> t1 = t2.
Proof.
  intros Hinv M H1 H2 S1 S2; destruct (i_once _ Hinv t1 p1 H1) as [O1 R1], (i_once _ Hinv t2 p2 H2) as [O2 R2].
  destruct M as [M|M].
  - apply (i_single_reader _ Hinv M t1 t2 p1 p2); try done.
    + destruct p1; try done; rewrite (O1 eq_refl) in M; done.
    + destruct p2; try done; rewrite (O2 eq_refl) in M; done.
  - assert (holding p1 = true) as G1 by (destruct p1; try done; by destruct (R1 eq_refl)).
    assert (holding p2 = true) as G2 by (destruct p2; try done; by destruct (R2 eq_refl)).
    pose proof (i_mutex _ Hinv t1 p1 H1 G1); pose proof (i_mutex _ Hinv t2 p2 H2 G2); congruence.
Qed.

Lemma wakes_all c ts' : inv c -> wakes (read_mode (ring c)) (threads c) ts' ->
  (forall t q, ts' !! t = Some q -> exists p, threads c !! t = Some p /\ (q = p \/ q = wake_pc p)) /\
  (forall t p, threads c !! t = Some p -> sleeping p = false -> ts' !! t = Some p) /\
  map_Forall (fun _ p => sleeping p = false) ts'.
Proof.
  intros Hinv Hw; destruct Hw as [M|t p M Ht Hs|M Hno|M].
  - split_and!.
    + intros t q Hq; rewrite lookup_fmap in Hq; destruct (threads c !! t) as [p|]; simplify_eq/=; eauto.
    + intros t p Ht Hs; rewrite lookup_fmap, Ht; by destruct p.
    + intros t q Hq; rewrite lookup_fmap in Hq; destruct (threads c !! t) as [p|]; simplify_eq/=; by destruct p.
  - split_and!.
    + intros t2 q Hq; upd; eauto.
    + intros t2 p2 H2 S2; rewrite lookup_insert_ne; [done|]; intros ->; congruence.
    + intros t2 q Hq; upd; [by destruct p|]; destruct (sleeping q) eqn:Sq; [|done].
      by destruct (one_sleeper c t t2 p q Hinv M Ht Hq Hs Sq).
  - split_and!; [eauto|done|done].
  - split_and!; [eauto|done|]; intros t q Hq; pose proof (i_threads _ Hinv t q Hq) as Hok.
    destruct (i_once _ Hinv t q Hq) as [O1 _]; destruct q; try done; simpl in *; rewrite M in *.
    + by destruct Hok as (_ & _ & [H|H]).
    + by specialize (O1 eq_refl).
Qed.

Lemma inv_wake c t ts' :
  inv c -> threads c !! t = Some WWake -> wakes (read_mode (ring c)) (threads c) ts' ->
  inv (CF (ring c) (<[t := Done None]> ts') (hist c) (taken c)).
Proof.
  intros Hinv Ht Hw; destruct (wakes_all c ts' Hinv Hw) as (H1 & H2 & H3).
  pose proof (inv_woken c ts' Hinv H1 H2) as Hinv'; specialize (H2 t WWake Ht eq_refl).
  set (c1 := CF (ring c) ts' (hist c) (taken c)) in *.
  split; simpl; try apply Hinv'.
  - intros t2 p2 H; upd; [done|]; by apply (i_threads _ Hinv' t2).
  - intros t2 p2 H W; upd; [done|]; by apply (i_spin _ Hinv' t2 p2).
  - intros t1 t2 p1 p2 G1 G2 W1 W2; upd; try done; by apply (i_writing _ Hinv' t1 t2 p1 p2).
  - intros M t1 t2 p1 p2 G1 G2 W1 W2; upd; try done; by apply (i_single_writer _ Hinv' M t1 t2 p1 p2).
  - intros M t1 t2 p1 p2 G1 G2 W1 W2; upd; try done; by apply (i_single_reader _ Hinv' M t1 t2 p1 p2).
  - intros t2 p2 H W; upd; [done|]; by apply (i_mutex _ Hinv' t2 p2).
  - intros t2 p2 H; upd; [done|]; by apply (i_once _ Hinv' t2).
  - intros t2 p2 H; upd; [done|]; specialize (H3 t2 p2 H); split; intros; subst; done.
Qed.

(** A call starts. *)
Lemma inv_call c t p' :
  inv c -> may_call (threads c) t -> thread_ok c p' ->
  holding p' = false -> sleeping p' = false ->
  (writing p' = true -> write_mode (ring c) = MUGGLE_RING_BUFFER_WRITE_MODE_SINGLE) ->
  (write_mode (ring c) = MUGGLE_RING_BUFFER_WRITE_MODE_SINGLE -> writer p' = true -> map_Forall (fun _ p => writer p = false) (threads c)) ->
  (read_mode (ring c) = MUGGLE_RING_BUFFER_READ_MODE_SINGLE_WAIT -> reader p' = true -> map_Forall (fun _ p => reader p = false) (threads c)) ->
  (once_pc p' = true -> read_mode (ring c) = MUGGLE_RING_BUFFER_READ_MODE_ONCE) ->
  (reader p' = true -> read_mode (ring c) <> MUGGLE_RING_BUFFER_READ_MODE_ONCE) ->
  inv (CF (ring c) (<[t := p']> (threads c)) (hist c) (taken c)).
Proof.
  intros Hinv Hcall Hok Hho Hsl Hwr Hw Hr Ho Hrd.
  assert (writing p' = true -> writer p' = true) as Hww by by destruct p'.
  assert (forall p, writing p = true -> writer p = true) as Hww2 by by intros [].
  split; simpl; try apply Hinv.
  - intros t2 p2 H; upd; [done|]; by apply (i_threads _ Hinv t2).
  - intros t2 p2 H W M; upd; [rewrite (Hwr W) in M; done|]; by apply (i_spin _ Hinv t2 p2).
  - intros t1 t2 p1 p2 G1 G2 W1 W2; upd; try done; [| |by apply (i_writing _ Hinv t1 t2 p1 p2)].
    + pose proof (Hw (Hwr W2) (Hww W2) _ _ G1) as Hx; cbv beta in Hx; rewrite (Hww2 p1) in Hx; done.
    + pose proof (Hw (Hwr W1) (Hww W1) _ _ G2) as Hx; cbv beta in Hx; rewrite (Hww2 p2) in Hx; done.
  - intros M t1 t2 p1 p2 G1 G2 W1 W2; upd; try done; [| |by apply (i_single_writer _ Hinv M t1 t2 p1 p2)].
    + pose proof (Hw M W2 _ _ G1) as Hx; cbv beta in Hx; congruence.
    + pose proof (Hw M W1 _ _ G2) as Hx; cbv beta in Hx; congruence.
  - intros M t1 t2 p1 p2 G1 G2 W1 W2; upd; try done; [| |by apply (i_single_reader _ Hinv M t1 t2 p1 p2)].
    + pose proof (Hr M W2 _ _ G1) as Hx; cbv beta in Hx; congruence.
    + pose proof (Hr M W1 _ _ G2) as Hx; cbv beta in Hx; congruence.
  - intros t2 p2 H W; upd; [congruence|]; by apply (i_mutex _ Hinv t2 p2).
  - intros t2 p2 H; upd; [done|]; by apply (i_once _ Hinv t2).
  - intros t2 p2 H; upd; [split; intros; subst; done|].
    assert (forall t' q, threads c !! t' = Some q -> pending q = true ->
      exists t' q, <[t:=p']> (threads c) !! t' = Some q /\ pending q = true) as Hk.
    { intros t' q Hq Pq; exists t', q; split; [|done]; rewrite lookup_insert_ne; [done|]; intros ->.
      destruct Hcall as [E1|[v E1]]; rewrite E1 in Hq; by simplify_eq. }
    destruct (i_sleep _ Hinv t2 p2 H) as [S1 S2]; split.
    + intros k rpos E1 N1; destruct (S1 k rpos E1 N1) as (t' & q & G1 & G2); eauto.
    + intros w E1 N1; destruct (S2 w E1 N1) as (t' & q & G1 & G2); eauto.
Qed.

Lemma inv_env c c' : inv c -> env_step c c' -> inv c'.
Proof.
  intros Hinv Hs; destruct Hs as [c t d Hc Hw|c t k Hc Hk Hr|c t p Ht Hs].
  - unfold muggle_ring_buffer_write.
    destruct (Z.eqb_spec (write_mode (ring c)) MUGGLE_RING_BUFFER_WRITE_MODE_LOCK) as [M|M];
      apply inv_call; try done; solve [auto | intros _; by destruct (i_modes _ Hinv) as [[M'|M'] _]].
  - unfold muggle_ring_buffer_read; destruct (i_cap _ Hinv) as (e & He & Ecap).
    destruct (Z.eqb_spec (read_mode (ring c)) MUGGLE_RING_BUFFER_READ_MODE_ONCE) as [M|M]; apply inv_call; try done; try auto.
    simpl; rewrite Ecap, message_idx by done; split; [done|lia].
  - apply inv_woken; [done| |].
    + intros t2 q Hq; upd; eauto.
    + intros t2 q Hq Sq; rewrite lookup_insert_ne; [done|]; intros ->; congruence.
Qed.

Lemma inv_code c c' : inv c -> code_step c c' -> inv c'.
Proof.
  intros Hinv Hs; destruct Hs as [c t p r' p' Ht Hs|c t ts' Ht Hw]; [|by apply inv_wake].
  destruct p; cbn [local_step] in Hs; try done;
    solve [by apply (inv_write_step c t _ r' p' Hinv Ht) | by apply (inv_read_step c t _ r' p' Hinv Ht)
          |by apply (inv_once_step c t _ r' p' Hinv Ht)].
Qed.

Lemma ring_init_spec capacity flag mr cr mem r :
  0 <= capacity < 2 ^ 32 -> muggle_ring_buffer_init capacity flag mr cr mem = inr r ->
  exists e, 0 <= e <= 30 /\ rb_capacity r = 2 ^ e /\ capacity <= 2 ^ e /\ inv (CF r ∅ [] []).
Proof.
  intros Hc; unfold muggle_ring_buffer_init; destruct (Z.leb_spec capacity 0) as [|Hpos]; [done|].
  destruct (next_pow_of_2_exp capacity) as (e & He & -> & Hle & _); [lia|].
  destruct (Z.leb_spec (swrap 32 (2 ^ e)) 0) as [|Hsw]; [done|].
  assert (e <= 30) as He30.
  { destruct (decide (e <= 30)) as [|Hn]; [done|]; assert (e = 31 \/ e = 32) as [->| ->] by lia; vm_compute in Hsw; done. }
  assert (2 ^ e <= 2 ^ 30) by (apply Z.pow_le_mono_r; lia).
  rewrite swrap_small by lia; destruct (muggle_ring_buffer_get_mode flag) as [|[w rm]] eqn:Em; [done|].
  destruct (negb (mr =? MUGGLE_OK)); [done|]; destruct (negb (cr =? MUGGLE_OK)); [done|]; destruct (negb mem); [done|].
  intros [= <-]; exists e; split; [lia|]; split; [done|]; split; [done|].
  split; simpl; try done.
  - exists e; split; [lia|done].
  - unfold uninit; rewrite length_replicate; lia.
  - unfold muggle_ring_buffer_get_mode in Em; repeat case_match; simplify_eq; auto.
Qed.

Lemma reach_inv c : reach c -> inv c.
Proof.
  induction 1 as [capacity flag mr cr mem r Hc Hi|c c' _ IH Hs|c c' _ IH Hs].
  - by destruct (ring_init_spec _ _ _ _ _ _ Hc Hi) as (e & _ & _ & _ & H).
  - by apply (inv_code c).
  - by apply (inv_env c).
Qed.

(** ** What the readers get *)

Lemma take_message c t k rpos : inv c -> threads c !! t = Some (RTake k rpos) ->
  msgs c < Z.of_nat k + rb_capacity (ring c) ->
  exists d, hist c !! k = Some d /\ local_step (ring c) t (RTake k rpos) = Some (ring c, Done (Some d)).
Proof.
  intros Hinv Ht Hlap; destruct (i_threads _ Hinv t _ Ht) as [-> Hk].
  destruct (lookup_lt_is_Some_2 (hist c) k) as [d Hd]; [lia|]; exists d; split; [done|].
  simpl; unfold rdi; by rewrite (i_hist _ Hinv k d Hd Hlap).
Qed.

(** No access leaves the ring, and a thread that is not inside a system call
    can go on, unless it waits for the mutex. *)
Lemma code_progress c t p : inv c -> threads c !! t = Some p ->
  match p with
  | WLock _ | WAssign _ | WMove _ | WUnlock | RLoad _ _ | RWait _ _ | OLoad | OMove _ | OWait _ | OUnlock _ =>
      is_Some (local_step (ring c) t p)
  | _ => True
  end.
Proof.
  intros Hinv Ht; destruct p; try done; cbn [local_step write_step read_step once_step]; try (by eexists).
  - destruct (spinlock_try (ring c)); by eexists.
  - pose proof (cap_pos c Hinv); pose proof (i_blocks _ Hinv).
    pose proof (Z.mod_pos_bound (msgs c) (rb_capacity (ring c))).
    rewrite wr_Some by (rewrite (i_cursor _ Hinv); lia); by eexists.
Qed.

(** The places that have been written stay so, also when a reader is lapped. *)
Definition filled c : Prop := forall i, 0 <= i < rb_capacity (ring c) -> i < msgs c -> exists d, rd (blocks (ring c)) i = Some (Some d).

Lemma filled_same c c' : filled c -> rb_capacity (ring c') = rb_capacity (ring c) -> blocks (ring c') = blocks (ring c) -> hist c' = hist c -> filled c'.
Proof. unfold filled; by intros H -> -> ->. Qed.

Lemma filled_code c c' : inv c -> filled c -> code_step c c' -> filled c'.
Proof.
  intros Hinv Hf Hs; destruct Hs as [c t p r' p' Ht Hs|c t ts' Ht Hw]; [|by apply (filled_same c)].
  destruct p; cbn [local_step] in Hs; try done; cbn [write_step read_step once_step] in Hs.
  - unfold spinlock_try in Hs; case_match; repeat case_match; simplify_eq/=; by apply (filled_same c).
  - destruct (wr (blocks (ring c)) (cursor (ring c)) (Some data)) as [b|] eqn:E; simplify_eq/=; intros i Hi Hm; simpl in *.
    destruct (decide (i = cursor (ring c))) as [->|Hne]; [exists data; by eapply rd_wr_eq|].
    destruct (Hf i Hi Hm) as [d Hd]; exists d; rewrite <- Hd; by eapply rd_wr_ne.
  - simplify_eq; intros i Hi Hm; simpl in *; rewrite length_app in Hm; simpl in Hm.
    destruct (decide (i = msgs c)) as [->|Hne]; [|apply Hf; [done|lia]].
    pose proof (i_threads _ Hinv t _ Ht) as Hd; simpl in Hd; rewrite (i_cursor _ Hinv), Z.mod_small in Hd by lia; eauto.
  - simplify_eq; by apply (filled_same c).
  - simplify_eq; by apply (filled_same c).
  - destruct (rdi _ _); simplify_eq/=; by apply (filled_same c).
  - simplify_eq; by apply (filled_same c).
  - case_match; simplify_eq; by apply (filled_same c).
  - simplify_eq; by apply (filled_same c).
  - destruct (rdi _ _); simplify_eq/=; by apply (filled_same c).
  - simplify_eq; by apply (filled_same c).
  - simplify_eq; by apply (filled_same c).
  - simplify_eq; by apply (filled_same c).
Qed.

Lemma reach_filled c : reach c -> filled c.
Proof.
  induction 1 as [capacity flag mr cr mem r Hc Hi|c c' Hr IH Hs|c c' _ IH Hs].
  - intros i Hi' Hm; simpl in *; lia.
  - eapply filled_code; [by apply reach_inv|done|done].
  - by destruct Hs; apply (filled_same c).
Qed.

(** Every step of the code is possible: only a thread that waits for the mutex,
    sleeps, is in the wake function or has returned takes none by itself. *)
Definition waits (r : muggle_ring_buffer) (p : pc) : Prop :=
  sleeping p = true \/ p = WWake \/ (exists v, p = Done v) \/ (p = OLock /\ is_Some (read_mutex r)).

Lemma message_place c j : inv c -> filled c -> 0 <= j < msgs c -> is_Some (rdi (blocks (ring c)) (j mod rb_capacity (ring c))).
Proof.
  intros Hinv Hf Hj; pose proof (cap_pos c Hinv); pose proof (Z.mod_pos_bound j (rb_capacity (ring c)) ltac:(lia)).
  pose proof (Z.mod_le j (rb_capacity (ring c)) ltac:(lia) ltac:(lia)).
  destruct (Hf (j mod rb_capacity (ring c))) as [d Hd]; [lia|lia|]; unfold rdi; rewrite Hd; by eexists.
Qed.

Lemma step_possible c t p : reach c -> threads c !! t = Some p -> waits (ring c) p \/ is_Some (local_step (ring c) t p).
Proof.
  intros Hr Ht; pose proof (reach_inv c Hr) as Hinv; pose proof (reach_filled c Hr) as Hf.
  pose proof (code_progress c t p Hinv Ht) as Hp; pose proof (i_threads _ Hinv t _ Ht) as Hok.
  unfold waits; destruct p; simpl in *; auto; try (by left; eauto 6).
  - right; destruct Hok as [-> Hk]; destruct (message_place c (Z.of_nat k) Hinv Hf ltac:(lia)) as [v ->]; by eexists.
  - destruct (read_mutex (ring c)) eqn:E; [left; right; right; right; split; [done|by eexists]|right; by eexists].
  - right; rewrite (proj1 (i_read_cursor _ Hinv)); destruct (message_place c (reads c) Hinv Hf ltac:(lia)) as [v ->]; by eexists.
Qed.

Abbreviation steps := (rtc code_step).

(** The message is in the ring: not lapped, and already written. *)
Definition available c (k : nat) : Prop := Z.of_nat k < msgs c < Z.of_nat k + rb_capacity (ring c).

Lemma available_cursor c k : inv c -> available c k -> cursor (ring c) <> Z.of_nat k mod rb_capacity (ring c).
Proof.
  intros Hinv Hav E1; rewrite (i_cursor _ Hinv) in E1; unfold available in Hav.
  symmetry in E1; apply mod_window in E1; [lia|by apply cap_pos|lia].
Qed.

Lemma load_message c t k rpos : inv c -> threads c !! t = Some (RLoad k rpos) -> available c k ->
  exists c' d, steps c c' /\ threads c' !! t = Some (Done (Some d)) /\ hist c' = hist c /\ hist c !! k = Some d.
Proof.
  intros Hinv Ht Hav; pose proof (i_threads _ Hinv t _ Ht) as [-> Hk].
  pose proof (available_cursor c k Hinv Hav) as Hne; rewrite <- Z.eqb_neq in Hne.
  set (c1 := CF (ring c) (<[t := RTake k (Z.of_nat k mod rb_capacity (ring c))]> (threads c)) (hist c) (taken c)).
  assert (code_step c c1) as Hs.
  { apply (step_local c t _ (ring c) (RTake k (Z.of_nat k mod rb_capacity (ring c)))) in Ht; [exact Ht|].
    simpl; by rewrite Hne. }
  pose proof (inv_code c c1 Hinv Hs) as Hinv1.
  destruct (take_message c1 t k (Z.of_nat k mod rb_capacity (ring c)) Hinv1) as (d & Hd & E2);
    [apply lookup_insert_eq|apply Hav|].
  exists (CF (ring c1) (<[t := Done (Some d)]> (threads c1)) (hist c) (taken c)), d.
  split; [|split; [apply lookup_insert_eq|by split]].
  apply (rtc_l _ _ c1); [done|]; apply rtc_once.
  apply (step_local c1 t _ _ _ (lookup_insert_eq _ _ _) E2).
Qed.

Lemma steps_inv c c' : inv c -> steps c c' -> inv c'.
Proof. intros H Hs; induction Hs; [done|]; eauto using inv_code. Qed.

(** The thread that has to wake the sleepers does so. *)
Lemma wake_sleeper c t k rpos t' p' :
  inv c -> threads c !! t = Some (RSleep k rpos) -> threads c !! t' = Some p' -> pending p' = true ->
  exists c', steps c c' /\ threads c' !! t = Some (RLoad k rpos) /\ hist c' = hist c /\
    rb_capacity (ring c') = rb_capacity (ring c).
Proof.
  intros Hinv Ht Ht' Hp.
  assert (t <> t') as Hne by (intros ->; rewrite Ht in Ht'; by simplify_eq).
  assert (forall c, inv c -> threads c !! t = Some (RSleep k rpos) -> threads c !! t' = Some WWake ->
    exists c', code_step c c' /\ threads c' !! t = Some (RLoad k rpos) /\ hist c' = hist c /\
      rb_capacity (ring c') = rb_capacity (ring c)) as Hwake.
  { intros c0 Hi H1 H2; destruct (i_threads _ Hi t _ H1) as (_ & _ & [M|M]).
    - eexists; split; [apply (step_wake c0 t' _ H2 (wake_wait _ _ M))|]; simpl.
      by rewrite lookup_insert_ne, lookup_fmap, H1.
    - eexists; split; [apply (step_wake c0 t' _ H2 (wake_one _ _ t _ (or_introl M) H1 eq_refl))|]; simpl.
      by rewrite lookup_insert_ne, lookup_insert_eq by done. }
  destruct p'; try done.
  - set (c1 := CF (muggle_spinlock_unlock (ring c)) (<[t' := WWake]> (threads c)) (hist c) (taken c)).
    assert (code_step c c1) as Hs by apply (step_local c t' WUnlock _ WWake Ht' eq_refl).
    destruct (Hwake c1) as (c2 & H1 & H2 & H3 & H4);
      [by apply (inv_code c)|simpl; by rewrite lookup_insert_ne|apply lookup_insert_eq|].
    exists c2; split; [by apply (rtc_l _ _ c1), rtc_once|done].
  - destruct (Hwake c Hinv Ht Ht') as (c2 & H1 & H2); exists c2; split; [by apply rtc_once|done].
Qed.

(** ** Properties *)

(** C4: safety of the ring buffer under any interleaving.  In every state
    reached by any number of threads that write and read: at most one writer is
    in the critical section (with the spin lock, or by the guarantee of the
    single-writer flag) and at most one [read_once] holds the mutex; no step of
    any function faults - it writes or reads inside the ring, and reads only
    places that were written, also when the reader was lapped -, so that a
    thread that does not wait can go on; and a reader that has seen the cursor past
    message [k] and is fewer than the capacity of messages behind gets exactly
    the [k]-th message that was written. *)
Theorem ring_buffer_safety c (Hr : reach c) :
  (forall t1 t2 p1 p2, threads c !! t1 = Some p1 -> threads c !! t2 = Some p2 ->
     (writing p1 = true -> writing p2 = true -> t1 = t2) /\ (holding p1 = true -> holding p2 = true -> t1 = t2)) /\
  (forall t p, threads c !! t = Some p -> waits (ring c) p \/ is_Some (local_step (ring c) t p)) /\
  (forall t k rpos, threads c !! t = Some (RTake k rpos) -> msgs c < Z.of_nat k + rb_capacity (ring c) ->
     exists d, hist c !! k = Some d /\ local_step (ring c) t (RTake k rpos) = Some (ring c, Done (Some d))).
Proof.
  pose proof (reach_inv c Hr) as Hinv; split_and!.
  - intros t1 t2 p1 p2 H1 H2; split; [by apply (i_writing _ Hinv)|]; intros G1 G2.
    pose proof (i_mutex _ Hinv t1 p1 H1 G1); pose proof (i_mutex _ Hinv t2 p2 H2 G2); congruence.
  - intros t p; by apply step_possible.
  - intros t k rpos; by apply take_message.
Qed.

(** C7: no reader waits for a message that is there.  In every state reached,
    if message [k] has been written and not been lapped, then a reader of it
    (about to load the cursor, about to sleep, or asleep) returns exactly that
    message after finitely many steps of the code, without any further
    write and without a spurious wake-up: the writer that still has to wake the
    sleepers does so. *)
Theorem ring_buffer_no_lost_wakeup c t k rpos (Hr : reach c) (Hk : available c k)
    (Ht : threads c !! t = Some (RLoad k rpos) \/ threads c !! t = Some (RWait k rpos) \/
          threads c !! t = Some (RSleep k rpos)) :
  exists c' d, steps c c' /\ threads c' !! t = Some (Done (Some d)) /\ hist c' = hist c /\ hist c !! k = Some d.
Proof.
  pose proof (reach_inv c Hr) as Hinv; destruct Ht as [Ht|[Ht|Ht]]; [by apply (load_message c t k rpos)|..].
  - set (c1 := CF (ring c) (<[t := RLoad k rpos]> (threads c)) (hist c) (taken c)).
    pose proof (i_threads _ Hinv t _ Ht) as (E1 & _); pose proof (available_cursor c k Hinv Hk) as Hne.
    rewrite <- E1, <- Z.eqb_neq in Hne.
    assert (code_step c c1) as Hs by (apply (step_local c t _ (ring c) (RLoad k rpos) Ht); simpl; by rewrite Hne).
    destruct (load_message c1 t k rpos (inv_code _ _ Hinv Hs)) as (c2 & d & H1 & H2); [apply lookup_insert_eq|done|].
    exists c2, d; split; [by apply (rtc_l _ _ c1)|done].
  - pose proof (i_threads _ Hinv t _ Ht) as (E1 & _); pose proof (available_cursor c k Hinv Hk) as Hne; rewrite <- E1 in Hne.
    destruct (proj1 (i_sleep _ Hinv t _ Ht) k rpos eq_refl Hne) as (t' & p' & Ht' & Hp).
    destruct (wake_sleeper c t k rpos t' p' Hinv Ht Ht' Hp) as (c1 & Hs & H1 & H2 & H3).
    destruct (load_message c1 t k rpos (steps_inv _ _ Hinv Hs) H1) as (c2 & d & G1 & G2 & G3 & G4);
      [unfold available in *; by rewrite H2, H3|].
    rewrite H2 in *; exists c2, d; split; [by transitivity c1|done].
Qed.

(** A ring of four places: thread 2 sleeps, waiting for the first message, and
    thread 1 is about to write it, or has written it and not yet released the
    lock. *)
Definition sample_ring (spin cur : Z) (b : list (option Z)) : muggle_ring_buffer := RB 4 0 0 0 spin cur 0 None b.
Definition sample_threads : gmap nat pc :=
  <[1%nat := WAssign 7]> (<[1%nat := WLock 7]> (<[2%nat := RSleep 0 0]> (<[2%nat := RWait 0 0]> (<[2%nat := RLoad 0 0]> ∅)))).
Definition sample_before : config := CF (sample_ring 1 0 [None; None; None; None]) sample_threads [] [].
Definition sample_config : config :=
  CF (sample_ring 1 1 [Some 7; None; None; None]) (<[1%nat := WUnlock]> (<[1%nat := WMove 7]> sample_threads)) [7] [].

(** Thread [t], at [p], takes a step. *)
Ltac advance H t p :=
  match type of H with reach ?c =>
    let x := eval vm_compute in (local_step (ring c) t p) in
    match x with Some (?r', ?p') =>
      let H' := fresh in
      pose proof (reach_code _ _ H (step_local c t p r' p' eq_refl eq_refl)) as H';
      cbn [hist taken threads] in H'; clear H; rename H' into H
    end
  end.

Lemma sample_before_reach : reach sample_before.
Proof.
  assert (reach (CF (sample_ring 0 0 [None; None; None; None]) ∅ [] [])) as H
    by (apply (reach_init 4 0 0 0 true); [lia|vm_compute; reflexivity]).
  assert (reach (CF (sample_ring 0 0 [None; None; None; None]) (<[2%nat := RLoad 0 0]> ∅) [] [])) as H1.
  { apply (reach_env _ _ H); apply (step_read (CF (sample_ring 0 0 [None; None; None; None]) ∅ [] []) 2 0);
      [by left|simpl; lia|done]. }
  advance H1 2%nat (RLoad 0 0); advance H1 2%nat (RWait 0 0).
  match type of H1 with reach ?c =>
    assert (reach (CF (ring c) (<[1%nat := WLock 7]> (threads c)) [] [])) as H2
      by (apply (reach_env _ _ H1); apply (step_write c 1 7); [by left|done]) end.
  cbn [ring threads] in H2; advance H2 1%nat (WLock 7); exact H2.
Qed.

Lemma sample_config_reach : reach sample_config.
Proof.
  pose proof sample_before_reach as H; unfold sample_before in H.
  advance H 1%nat (WAssign 7); advance H 1%nat (WMove 7); exact H.
Qed.

Lemma ring_buffer_safety_witness : is_Some (local_step (ring sample_before) 1 (WAssign 7)).
Proof.
  destruct (proj1 (proj2 (ring_buffer_safety sample_before sample_before_reach)) 1%nat (WAssign 7) eq_refl) as [H|H]; [|exact H].
  by destruct H as [H|[H|[[v H]|[H _]]]].
Defined.

Lemma ring_buffer_no_lost_wakeup_witness :
  exists c' d, steps sample_config c' /\ threads c' !! 2%nat = Some (Done (Some d)) /\ hist c' = [7] /\
    [7] !! 0%nat = Some d.
Proof.
  apply (ring_buffer_no_lost_wakeup sample_config 2 0 0 sample_config_reach); [by vm_compute|].
  right; right; reflexivity.
Defined.

(** ** Messages read once *)

(** States reached while no message that has not been read is overwritten. *)
Definition not_lapped c : Prop := msgs c < reads c + rb_capacity (ring c).

Inductive reach_within : config -> Prop :=
| within_init capacity flag mutex_ret cv_ret mem r :
    0 <= capacity < 2 ^ 32 -> muggle_ring_buffer_init capacity flag mutex_ret cv_ret mem = inr r ->
    reach_within (CF r ∅ [] [])
| within_code c c' : reach_within c -> code_step c c' -> not_lapped c' -> reach_within c'
| within_env c c' : reach_within c -> env_step c c' -> reach_within c'.

Lemma within_reach c : reach_within c -> reach c.
Proof. induction 1; eauto using reach. Qed.

Record once_inv (c : config) : Prop := {
  o_taken : taken c = take (length (taken c)) (hist c);
  o_move : forall t v, threads c !! t = Some (OMove v) -> hist c !! length (taken c) = Some v
}.

Lemma once_same c ts' h' : inv c -> once_inv c ->
  (forall t v, ts' !! t = Some (OMove v) -> threads c !! t = Some (OMove v)) ->
  (h' = hist c \/ exists d, h' = hist c ++ [d]) -> forall r, once_inv (CF r ts' h' (taken c)).
Proof.
  intros Hinv [H1 H2] Ht Hh r; destruct (i_read_cursor _ Hinv) as [_ Hle]; split; simpl.
  - destruct Hh as [->|[d ->]]; [done|]; by rewrite take_app_le by lia.
  - intros t v Hv; specialize (H2 t v (Ht t v Hv)); destruct Hh as [->|[d ->]]; [done|].
    by apply lookup_app_l_Some.
Qed.

Lemma to_move r t p r' v : local_step r t p = Some (r', OMove v) -> p = OTake.
Proof.
  destruct p; cbn [local_step write_step read_step once_step]; try done; intros H;
    try (apply bind_Some in H as (x & _ & H)); repeat case_match; by simplify_eq.
Qed.

Lemma once_code c c' : inv c -> once_inv c -> not_lapped c -> code_step c c' -> once_inv c'.
Proof.
  intros Hinv Ho Hlap Hs; destruct Hs as [c t p r' p' Ht Hs|c t ts' Ht Hw].
  - pose proof (to_move (ring c) t p r') as Hmove.
    destruct p; cbn [local_step] in Hs; try done;
      try (apply (once_same c _ _ Hinv Ho);
           [intros t2 v2 H2; apply lookup_insert_Some in H2 as [[<- ->]|[_ H2]]; [by specialize (Hmove v2 Hs)|done]|by eauto]).
    + split; simpl; [apply Ho|]; intros t2 v2 H2; apply lookup_insert_Some in H2 as [[<- ->]|[_ H2]]; [|by apply (o_move _ Ho t2)].
      cbn [once_step] in Hs; destruct (i_read_cursor _ Hinv) as [Hrc _].
      pose proof (i_threads _ Hinv t _ Ht) as Hlt; cbn [thread_ok] in Hlt.
      destruct (lookup_lt_is_Some_2 (hist c) (length (taken c))) as [d Hd]; [lia|].
      unfold rdi in Hs; rewrite Hrc, (i_hist _ Hinv _ d Hd Hlap) in Hs; cbn in Hs; congruence.
    + pose proof (o_move _ Ho t _ Ht) as Hv; pose proof (others_not_holding c t _ Hinv Ht eq_refl) as Hno.
      cbn [once_step] in Hs; simplify_eq/=; split; simpl.
      * rewrite length_app; simpl; rewrite Nat.add_1_r, (take_S_r _ _ ret Hv); f_equal; apply Ho.
      * intros t2 v2 H2; apply lookup_insert_Some in H2 as [[_ [=]]|[Hne H2]].
        by specialize (Hno t2 _ (not_eq_sym Hne) H2).
  - destruct (wakes_all c ts' Hinv Hw) as (Hb & _ & _); apply (once_same c _ _ Hinv Ho); [|by left].
    intros t2 v2 H2; apply lookup_insert_Some in H2 as [[_ [=]]|[_ H2]]; destruct (Hb t2 _ H2) as (p & Hp & [->|E1]); [done|]; by destruct p; simplify_eq/=.
Qed.

Lemma once_env c c' : inv c -> once_inv c -> env_step c c' -> once_inv c'.
Proof.
  intros Hinv Ho Hs; destruct Hs as [c t d Hc Hw|c t k Hc Hk Hr|c t p Ht Hs];
    (apply (once_same c _ _ Hinv Ho); [intros t2 v2 H2; apply lookup_insert_Some in H2 as [[<- H2]|[_ H2]]; [|done]|by left]).
  - unfold muggle_ring_buffer_write in *; by case_match.
  - unfold muggle_ring_buffer_read in *; by case_match.
  - by destruct p.
Qed.

Lemma within_once c : reach_within c -> once_inv c /\ not_lapped c.
Proof.
  induction 1 as [capacity flag mr cr mem r Hc Hi|c c' Hr [IH L] Hs Hl|c c' Hr [IH L] Hs].
  - split; [by split|]; pose proof (cap_pos _ (reach_inv _ (reach_init _ _ _ _ _ _ Hc Hi))); unfold not_lapped; simpl in *; lia.
  - split; [|done]; apply (once_code c); try done; by apply reach_inv, within_reach.
  - split; [apply (once_env c); try done; by apply reach_inv, within_reach|].
    destruct Hs; done.
Qed.

(** C8: every message is read once, in order.  When readers take messages
    with [read_once] (any number of them, interleaved in any way with any
    number of writers) and the writers stay less than the capacity ahead, then
    what the readers have taken, in the order in which they took it, is the
    sequence of the first messages that were written: none is lost, repeated
    or out of order.  No step faults, and a reader that has seen a message gets
    the next one in the order of writing. *)
Theorem ring_buffer_read_once_fifo c (Hr : reach_within c) :
  taken c = take (length (taken c)) (hist c) /\ reads c <= msgs c /\
  (forall t, threads c !! t = Some OTake ->
     exists d, hist c !! length (taken c) = Some d /\ local_step (ring c) t OTake = Some (ring c, OMove d)) /\
  (forall t p, threads c !! t = Some p -> waits (ring c) p \/ is_Some (local_step (ring c) t p)).
Proof.
  pose proof (reach_inv c (within_reach c Hr)) as Hinv; destruct (within_once c Hr) as [[H _] Hlap].
  split; [done|]; split; [apply (i_read_cursor _ Hinv)|]; split; [|intros t p; by apply step_possible, within_reach].
  intros t Ht; pose proof (i_threads _ Hinv t _ Ht) as Hlt; cbn [thread_ok] in Hlt.
  destruct (lookup_lt_is_Some_2 (hist c) (length (taken c))) as [d Hd]; [lia|]; exists d; split; [done|].
  simpl; unfold rdi; by rewrite (proj1 (i_read_cursor _ Hinv)), (i_hist _ Hinv _ d Hd Hlap).
Qed.

(** Runs that can be evaluated. *)
Inductive rb_action := Go (t : nat) | CallWrite (t : nat) (data : Z) | CallRead (t : nat) (k : nat).

Definition rb_exec (a : rb_action) (c : config) : option config :=
  match a with
  | Go t =>
      p ← threads c !! t; '(r', p') ← local_step (ring c) t p;
      let c' := CF r' (<[t := p']> (threads c)) (match p with WMove d => hist c ++ [d] | _ => hist c end)
                  (match p with OMove v => taken c ++ [v] | _ => taken c end) in
      if decide (msgs c' < reads c' + rb_capacity (ring c')) then Some c' else None
  | CallWrite t d =>
      if decide (threads c !! t = None /\ write_mode (ring c) <> MUGGLE_RING_BUFFER_WRITE_MODE_SINGLE)
      then Some (CF (ring c) (<[t := muggle_ring_buffer_write (ring c) d]> (threads c)) (hist c) (taken c)) else None
  | CallRead t k =>
      if decide (threads c !! t = None /\ (k <= length (hist c))%nat /\ read_mode (ring c) <> MUGGLE_RING_BUFFER_READ_MODE_SINGLE_WAIT)
      then Some (CF (ring c) (<[t := muggle_ring_buffer_read (ring c) k]> (threads c)) (hist c) (taken c)) else None
  end.

Fixpoint rb_run (l : list rb_action) (c : config) : option config :=
  match l with [] => Some c | a :: l => c' ← rb_exec a c; rb_run l c' end.

Lemma rb_run_within l c c' : reach_within c -> rb_run l c = Some c' -> reach_within c'.
Proof.
  revert c; induction l as [|a l IH]; simpl; intros c Hr H; [by simplify_eq|]; apply bind_Some in H as (c1 & E & H).
  apply (IH c1); [|done]; destruct a as [t|t d|t k]; simpl in E.
  - destruct (threads c !! t) as [p|] eqn:Ep; simpl in E; [|done]; destruct (local_step _ t p) as [[r' p']|] eqn:Es; simpl in E; [|done].
    case_decide; simplify_eq; by eapply within_code; [|by eapply step_local|].
  - case_decide as Hd; simplify_eq; destruct Hd; eapply within_env; [done|]; by apply step_write; [left|].
  - case_decide as Hd; simplify_eq; destruct Hd as (? & ? & ?); eapply within_env; [done|]; by apply step_read; [left| |].
Qed.

(** Threads 1 and 2 write 5 and 6; thread 3 has read the first, and thread 4 is
    about to read the second. *)
Definition once_start : config := CF (RB 4 16 0 3 0 0 0 None [None; None; None; None]) ∅ [] [].
Definition once_run : list rb_action :=
  [CallWrite 1 5; CallWrite 2 6; Go 1; Go 1; Go 1; Go 1; Go 2; Go 2; Go 2; CallRead 3 0; Go 3; Go 3; Go 3; Go 3; Go 3; CallRead 4 0; Go 4; Go 4].

Lemma ring_buffer_read_once_fifo_witness : exists c, rb_run once_run once_start = Some c /\ hist c = [5; 6] /\ taken c = take 1 (hist c) /\
  local_step (ring c) 4 OTake = Some (ring c, OMove 6).
Proof.
  assert ((fun c => (hist c, taken c, threads c !! 4%nat)) <$> rb_run once_run once_start = Some ([5; 6], [5], Some OTake)) as HE
    by (vm_compute; reflexivity).
  destruct (rb_run once_run once_start) as [c|] eqn:E; [|discriminate HE]; injection HE as Eh Et E4.
  assert (reach_within c) as Hr by (eapply rb_run_within; [apply (within_init 4 16 0 0 true); [lia|vm_compute; reflexivity]|exact E]).
  exists c; split; [reflexivity|]; split; [exact Eh|].
  destruct (ring_buffer_read_once_fifo c Hr) as (H1 & _ & H2 & _); destruct (H2 4%nat E4) as (d & Hd & Hs).
  rewrite Et in H1, Hd; split; [rewrite Et; exact H1|]; rewrite Eh in Hd; injection Hd as <-; exact Hs.
Defined.
