(* ===== verification/SyncLock.v ===== *)
(** * The lock on a futex: [sync/synclock.c], with [sync/sync_obj_futex.c]

    [lock] exchanges the word, and sleeps in the kernel while it is locked;
    [unlock] clears the word and wakes one sleeper.  The steps of a thread are
    its accesses of the word and its system calls: [FUTEX_WAIT] sleeps only when
    the word still has the value given, and [FUTEX_WAKE] wakes at most one of
    those that sleep. *)
From S2P Require Import Prelude.

Definition MUGGLE_SYNCLOCK_STATUS_UNLOCK : Z := 0.
Definition MUGGLE_SYNCLOCK_STATUS_LOCK : Z := 1.

Definition muggle_synclock_init : Z := MUGGLE_SYNCLOCK_STATUS_UNLOCK.

(** Where a thread is: before the exchange, before the wait with the value that
    the failed exchange has left in [expected], in the kernel, holding the
    lock, and between the store and the wake of [unlock]. *)
Inductive sl_pc := SCas | SWait (expected : Z) | SSleep | SHeld | SWake.

(** [muggle_synclock_lock]; [weak]: the exchange fails without a cause, and
    leaves [expected] as it was.  [SSleep] has no step of its own. *)
Definition muggle_synclock_lock (weak : bool) (word : Z) (c : sl_pc) : option (Z * sl_pc) :=
  match c with
  | SCas =>
      let expected := MUGGLE_SYNCLOCK_STATUS_UNLOCK in
      if word =? expected then
        if weak then Some (word, SCas) else Some (MUGGLE_SYNCLOCK_STATUS_LOCK, SHeld)
      else Some (word, SWait word)
  | SWait expected => Some (word, if word =? expected then SSleep else SCas)
  | _ => None
  end.

(** The store of [muggle_synclock_unlock]; [muggle_sync_wake_one] follows. *)
Definition muggle_synclock_unlock (word : Z) (c : sl_pc) : option (Z * sl_pc) :=
  match c with SHeld => Some (MUGGLE_SYNCLOCK_STATUS_UNLOCK, SWake) | _ => None end.

Record sl_state := SLS { sl_word : Z; sl_threads : gmap nat sl_pc }.

Inductive sl_code : sl_state -> sl_state -> Prop :=
| sl_lock w ts t c weak w' c' :
    ts !! t = Some c -> muggle_synclock_lock weak w c = Some (w', c') -> sl_code (SLS w ts) (SLS w' (<[t := c']> ts))
| sl_unlock w ts t c w' c' :
    ts !! t = Some c -> muggle_synclock_unlock w c = Some (w', c') -> sl_code (SLS w ts) (SLS w' (<[t := c']> ts))
| sl_wake w ts t t2 :
    ts !! t = Some SWake -> ts !! t2 = Some SSleep -> sl_code (SLS w ts) (SLS w (delete t (<[t2 := SCas]> ts)))
| sl_wake_nobody w ts t :
    ts !! t = Some SWake -> map_Forall (fun _ c => c <> SSleep) ts -> sl_code (SLS w ts) (SLS w (delete t ts)).

(** A thread calls [lock], or its wait is interrupted. *)
Inductive sl_env : sl_state -> sl_state -> Prop :=
| sl_call w ts t : ts !! t = None -> sl_env (SLS w ts) (SLS w (<[t := SCas]> ts))
| sl_interrupt w ts t : ts !! t = Some SSleep -> sl_env (SLS w ts) (SLS w (<[t := SCas]> ts)).

Inductive sl_reach : sl_state -> Prop :=
| sl_init : sl_reach (SLS muggle_synclock_init ∅)
| sl_next s s' : sl_reach s -> sl_code s s' \/ sl_env s s' -> sl_reach s'.

#[export] Instance sl_pc_eq_dec : EqDecision sl_pc.
Proof. solve_decision. Defined.

(** ** The invariant *)

(** A thread that will look at the word, hold the lock or wake a sleeper. *)
Definition serving (c : sl_pc) : Prop := c <> SSleep.

Record sl_inv (s : sl_state) : Prop := {
  si_held : forall t, sl_threads s !! t = Some SHeld -> sl_word s = MUGGLE_SYNCLOCK_STATUS_LOCK;
  si_unique : forall t1 t2, sl_threads s !! t1 = Some SHeld -> sl_threads s !! t2 = Some SHeld -> t1 = t2;
  si_locked : sl_word s = MUGGLE_SYNCLOCK_STATUS_UNLOCK \/
    sl_word s = MUGGLE_SYNCLOCK_STATUS_LOCK /\ exists t, sl_threads s !! t = Some SHeld;
  si_expected : forall t e, sl_threads s !! t = Some (SWait e) -> e = MUGGLE_SYNCLOCK_STATUS_LOCK;
  (* a sleeper has somebody to wake it *)
  si_sleep : forall t, sl_threads s !! t = Some SSleep -> exists t' c, sl_threads s !! t' = Some c /\ serving c
}.

(** A thread moves and is not the holder, neither before nor after. *)
Lemma sl_move w ts t c c' : sl_inv (SLS w ts) -> ts !! t = Some c -> c <> SHeld -> c' <> SHeld ->
  (forall e, c' = SWait e -> e = MUGGLE_SYNCLOCK_STATUS_LOCK) ->
  (c' = SSleep -> w = MUGGLE_SYNCLOCK_STATUS_LOCK) -> sl_inv (SLS w (<[t := c']> ts)).
Proof.
  intros [Hh Hu Hl He Hs] Ht Hc Hc' Hexp Hsl; simpl in *.
  assert ((exists t0, ts !! t0 = Some SHeld) -> exists t0, <[t := c']> ts !! t0 = Some SHeld) as Hkeep.
  { intros (t0 & H0); exists t0; rewrite lookup_insert_ne; [done|congruence]. }
  split; simpl.
  - intros t0 H0; upd; try done; eauto.
  - intros t1 t2 H1 H2; upd; try done; eauto.
  - destruct Hl as [|[? Hl]]; [by left|right; auto].
  - intros t0 e H0; upd; [by apply Hexp|]; eauto.
  - intros t0 H0; destruct (decide (c' = SSleep)) as [->|Hne].
    + destruct Hl as [Hl|[_ Hl]]; [rewrite Hsl in Hl; done|]; destruct (Hkeep Hl) as (t1 & H1); exists t1, SHeld; done.
    + exists t, c'; rewrite lookup_insert_eq; done.
Qed.

Lemma sl_lock_inv weak w ts t c w' c' : sl_inv (SLS w ts) -> ts !! t = Some c ->
  muggle_synclock_lock weak w c = Some (w', c') -> sl_inv (SLS w' (<[t := c']> ts)).
Proof.
  intros HI Ht E; pose proof HI as [Hh Hu Hl He Hs]; simpl in *; destruct c as [|e| | |]; try done; unfold muggle_synclock_lock in E.
  - destruct (Z.eqb_spec w MUGGLE_SYNCLOCK_STATUS_UNLOCK) as [->|Hne].
    + destruct weak; simplify_eq; [by eapply sl_move|].
      assert (forall t0, ts !! t0 <> Some SHeld) as Hno by (by intros t0 H0%Hh).
      split; simpl; try done.
      * intros t1 t2 H1 H2; upd; try done; exfalso; eapply Hno; eauto.
      * right; split; [done|]; exists t; apply lookup_insert_eq.
      * intros t0 e H0; upd; try done; eauto.
      * intros t0 H0; exists t, SHeld; rewrite lookup_insert_eq; done.
    + destruct Hl as [?|[-> _]]; [done|]; simplify_eq; eapply sl_move; try done; by intros e [= <-].
  - destruct (Z.eqb_spec w e) as [->|Hne]; simplify_eq; eapply sl_move; try done; intros _; eauto.
Qed.

Lemma sl_step_inv s s' : sl_inv s -> sl_code s s' \/ sl_env s s' -> sl_inv s'.
Proof.
  intros HI [Hs|Hs];
    [destruct Hs as [w ts t c weak w' c' Ht E|w ts t c w' c' Ht E|w ts t t2 Ht Ht2|w ts t Ht Hno]|destruct Hs as [w ts t Ht|w ts t Ht]].
  - exact (sl_lock_inv _ _ _ _ _ _ _ HI Ht E).
  - destruct HI as [Hh Hu Hl He Hs]; simpl in *; destruct c; try done; simpl in E; simplify_eq.
    assert (forall t0, t0 <> t -> ts !! t0 <> Some SHeld) as Hno by (intros t0 Hne H0; apply Hne; eauto).
    split; simpl.
    + intros t0 H0; upd; try done; by destruct (Hno t0).
    + intros t1 t2 H1 H2; upd; exfalso; eapply (Hno t1); eauto.
    + by left.
    + intros t0 e H0; upd; try done; eauto.
    + intros t0 H0; exists t, SWake; rewrite lookup_insert_eq; done.
  - assert (t <> t2) as Hne by (intros ->; congruence).
    assert (sl_inv (SLS w (<[t2 := SCas]> ts))) as [Hh Hu Hl He Hs] by (by eapply sl_move); simpl in *.
    assert (forall t0 c, delete t (<[t2 := SCas]> ts) !! t0 = Some c -> <[t2 := SCas]> ts !! t0 = Some c) as Hd
      by (by intros t0 c [_ ?]%lookup_delete_Some).
    split; simpl; eauto.
    + destruct Hl as [|[? (t0 & H0)]]; [by left|right; split; [done|]]; exists t0.
      rewrite lookup_delete_ne; [done|]; intros <-; rewrite lookup_insert_ne in H0 by done; congruence.
    + intros t0 H0; exists t2, SCas; rewrite lookup_delete_ne, lookup_insert_eq by done; done.
  - destruct HI as [Hh Hu Hl He Hs]; simpl in *.
    assert (forall t0 c, delete t ts !! t0 = Some c -> ts !! t0 = Some c) as Hd by (by intros t0 c [_ ?]%lookup_delete_Some).
    split; simpl; eauto.
    + destruct Hl as [|[? (t0 & H0)]]; [by left|right; split; [done|]]; exists t0.
      rewrite lookup_delete_ne; [done|congruence].
    + intros t0 H0; by destruct (Hno t0 SSleep (Hd _ _ H0)).
  - destruct HI as [Hh Hu Hl He Hs]; simpl in *; split; simpl.
    + intros t0 H0; upd; try done; eauto.
    + intros t1 t2 H1 H2; upd; try done; eauto.
    + destruct Hl as [|[? (t0 & H0)]]; [by left|right; split; [done|]]; exists t0; rewrite lookup_insert_ne; [done|congruence].
    + intros t0 e H0; upd; try done; eauto.
    + intros t0 H0; exists t, SCas; rewrite lookup_insert_eq; done.
  - by eapply sl_move.
Qed.

Lemma sl_reach_inv s : sl_reach s -> sl_inv s.
Proof. induction 1; [by split; simpl; try done; left|eauto using sl_step_inv]. Qed.

(** Every thread that is neither asleep nor the holder has a step. *)
Lemma sl_awake_steps s t c : sl_threads s !! t = Some c -> serving c -> exists s', sl_code s s'.
Proof.
  destruct s as [w ts]; simpl; intros Ht Hc; destruct c as [|e| | |]; try done.
  - destruct (muggle_synclock_lock false w SCas) as [[w' c']|] eqn:E; [eexists; by eapply sl_lock|].
    unfold muggle_synclock_lock in E; by destruct (w =? MUGGLE_SYNCLOCK_STATUS_UNLOCK).
  - destruct (muggle_synclock_lock false w (SWait e)) as [[w' c']|] eqn:E; [eexists; by eapply sl_lock|done].
  - eexists; by eapply sl_unlock.
  - destruct (decide (map_Forall (fun _ c => c <> SSleep) ts)) as [HF|HF]; [eexists; by eapply sl_wake_nobody|].
    apply map_not_Forall in HF as (t2 & c2 & H2 & Hn); [|intros; apply _].
    apply dec_stable in Hn as ->; eexists; by eapply sl_wake.
Qed.

(** ** Properties *)

(** C23: under every interleaving, with exchanges that fail and waits that end
    without a cause, at most one thread holds the lock, and no wake-up is lost:
    when a thread sleeps, a thread that does not can take a step; and a free lock
    is taken by the first thread that looks at it. *)
Theorem synclock_correct (s : sl_state) (Hr : sl_reach s) :
  (forall t1 t2, sl_threads s !! t1 = Some SHeld -> sl_threads s !! t2 = Some SHeld -> t1 = t2) /\
  (forall t, sl_threads s !! t = Some SSleep -> exists s' t' c, sl_threads s !! t' = Some c /\ c <> SSleep /\ sl_code s s') /\
  (sl_word s = MUGGLE_SYNCLOCK_STATUS_UNLOCK -> (forall t, sl_threads s !! t <> Some SHeld) /\
     muggle_synclock_lock false (sl_word s) SCas = Some (MUGGLE_SYNCLOCK_STATUS_LOCK, SHeld)).
Proof.
  pose proof (sl_reach_inv _ Hr) as [Hh Hu Hl He Hs]; split; [done|]; split.
  - intros t Ht; destruct (Hs t Ht) as (t' & c & H' & Hc); destruct (sl_awake_steps s t' c H' Hc) as [s' Hs'].
    by exists s', t', c.
  - intros E; split; [intros t Ht; specialize (Hh t Ht); by rewrite E in Hh|]; by rewrite E.
Qed.

Lemma sl_sample : exists s, sl_reach s /\ sl_threads s !! 2%nat = Some SSleep /\ sl_threads s !! 1%nat = Some SHeld.
Proof.
  pose proof sl_init as H.
  eapply sl_next in H; [|right; apply (sl_call _ _ 1); reflexivity].
  eapply sl_next in H; [|left; eapply (sl_lock _ _ 1 SCas false); reflexivity].
  eapply sl_next in H; [|right; apply (sl_call _ _ 2); reflexivity].
  eapply sl_next in H; [|left; eapply (sl_lock _ _ 2 SCas false); reflexivity].
  eapply sl_next in H; [|left; eapply (sl_lock _ _ 2 (SWait 1) false); reflexivity].
  eexists; split; [exact H|]; split; reflexivity.
Qed.

Lemma synclock_correct_witness :
  exists s, sl_reach s /\ sl_threads s !! 2%nat = Some SSleep /\
    exists s' t' c, sl_threads s !! t' = Some c /\ c <> SSleep /\ sl_code s s'.
Proof.
  destruct sl_sample as (s & Hr & Ht & _); exists s; split; [exact Hr|]; split; [exact Ht|].
  exact (proj1 (proj2 (synclock_correct s Hr)) 2%nat Ht).
Defined.
