(* ===== verification/RefCnt.v ===== *)
(** * Reference counts: [sync/ref_cnt.c]

    A count that is changed with compare-and-exchange loops, and that cannot
    leave zero again.  The steps of a thread are its load of the count and its
    exchange, which takes place only when the count is still the one loaded. *)
From S2P Require Import Prelude.

Definition INT_MAX : Z := 2 ^ 31 - 1.

(** [muggle_ref_cnt_init]: the result, and the count when it is set. *)
Definition muggle_ref_cnt_init (init_val : Z) : Z * option Z :=
  if init_val <=? 0 then (-1, None) else (0, Some init_val).

Definition muggle_ref_cnt_val (ref : Z) : Z := ref.
Definition muggle_ref_cnt_load (ref : Z) : Z := ref.

(** The call of a thread: [retain] or [release]; and where it is in it, with
    [v] and [desired]. *)
Inductive rc_call := Retain | Release.
Inductive rc_pc := RLoad (c : rc_call) | RCas (c : rc_call) (v desired : Z) | RDone (c : rc_call) (ret : Z).

(** The loop of [muggle_ref_cnt_retain]; the sum overflows at [INT_MAX]. *)
Definition muggle_ref_cnt_retain (ref : Z) (p : rc_pc) : option (Z * rc_pc) :=
  match p with
  | RLoad Retain =>
      let v := ref in
      if v =? 0 then Some (ref, RDone Retain (-1))
      else if v <? INT_MAX then Some (ref, RCas Retain v (v + 1)) else None
  | RCas Retain v desired => Some (if ref =? v then (desired, RDone Retain desired) else (ref, RLoad Retain))
  | _ => None
  end.

Definition muggle_ref_cnt_release (ref : Z) (p : rc_pc) : option (Z * rc_pc) :=
  match p with
  | RLoad Release =>
      let v := ref in
      if v =? 0 then Some (ref, RDone Release (-1)) else Some (ref, RCas Release v (v - 1))
  | RCas Release v desired => Some (if ref =? v then (desired, RDone Release desired) else (ref, RLoad Release))
  | _ => None
  end.

Definition rc_step (ref : Z) (p : rc_pc) : option (Z * rc_pc) :=
  match p with
  | RLoad Retain | RCas Retain _ _ => muggle_ref_cnt_retain ref p
  | _ => muggle_ref_cnt_release ref p
  end.

(** The count, the threads inside a call, and the calls that have taken effect
    with what they return. *)
Record rc_state := RC { rc_ref : Z; rc_threads : gmap nat rc_pc; rc_hist : list (rc_call * Z) }.

Inductive rc_run : rc_state -> rc_state -> Prop :=
| rc_begin r ts h t c : ts !! t = None -> rc_run (RC r ts h) (RC r (<[t := RLoad c]> ts) h)
| rc_move r ts h t p r' p' :
    ts !! t = Some p -> rc_step r p = Some (r', p') ->
    rc_run (RC r ts h) (match p' with
      | RDone c ret => RC r' (delete t ts) (h ++ [(c, ret)])
      | _ => RC r' (<[t := p']> ts) h end).

Inductive rc_reach (init : Z) : rc_state -> Prop :=
| rc_init : rc_reach init (RC init ∅ [])
| rc_next s s' : rc_reach init s -> rc_run s s' -> rc_reach init s'.

(** The specification: each call at once. *)
Definition rc_spec (n : Z) (c : rc_call) : Z * Z :=
  if n =? 0 then (n, -1)
  else match c with Retain => (n + 1, n + 1) | Release => (n - 1, n - 1) end.

Inductive rc_history (init : Z) : list (rc_call * Z) -> Z -> Prop :=
| rch_nil : rc_history init [] init
| rch_snoc h n c : rc_history init h n -> rc_history init (h ++ [(c, (rc_spec n c).2)]) (rc_spec n c).1.

Definition rc_ok (p : rc_pc) : Prop :=
  match p with
  | RLoad _ => True
  | RCas Retain v desired => 0 < v < INT_MAX /\ desired = v + 1
  | RCas Release v desired => 0 < v /\ desired = v - 1
  | RDone _ _ => False
  end.

Record rc_inv (init : Z) (s : rc_state) : Prop := {
  ri_hist : rc_history init (rc_hist s) (rc_ref s);
  ri_range : 0 <= rc_ref s <= INT_MAX;
  ri_ok : map_Forall (fun _ => rc_ok) (rc_threads s)
}.

Lemma rc_move_inv init r ts h t p r' p' : rc_inv init (RC r ts h) -> ts !! t = Some p -> rc_step r p = Some (r', p') ->
  rc_inv init (match p' with
      | RDone c ret => RC r' (delete t ts) (h ++ [(c, ret)])
      | _ => RC r' (<[t := p']> ts) h end).
Proof.
  intros [Hh Hr Hok] Ht E; simpl in *; pose proof (Hok t p Ht) as Hp.
  assert (forall c, rc_spec r c = (r', match p' with RDone _ x => x | _ => 0 end) -> p' = RDone c (rc_spec r c).2 -> 0 <= r' <= INT_MAX ->
    rc_inv init (RC r' (delete t ts) (h ++ [(c, (rc_spec r c).2)]))) as Hdone.
  { intros c Es _ Hr'; split; simpl; [|done|].
    - replace r' with (rc_spec r c).1 by (by rewrite Es); by constructor.
    - intros t2 p2 [_ H2]%lookup_delete_Some; eauto. }
  assert (forall q, rc_ok q -> rc_inv init (RC r (<[t := q]> ts) h)) as Hmove.
  { intros q Hq; split; [done|done|]; intros t2 p2 H2; simpl in H2; upd; eauto. }
  destruct p as [[]|[] v d|c x]; simpl in E, Hp; try done.
  - destruct (Z.eqb_spec r 0) as [->|]; simplify_eq; [by apply (Hdone Retain)|].
    destruct (Z.ltb_spec r INT_MAX); simplify_eq; apply Hmove; simpl; lia.
  - destruct (Z.eqb_spec r 0) as [->|]; simplify_eq; [by apply (Hdone Release)|]; apply Hmove; simpl; lia.
  - destruct Hp as [Hv ->]; destruct (Z.eqb_spec r v) as [->|]; simplify_eq; [|by apply Hmove].
    assert (rc_spec v Retain = (v + 1, v + 1)) as Es by (unfold rc_spec; by rewrite (proj2 (Z.eqb_neq v 0)) by lia).
    pose proof (Hdone Retain Es) as H; rewrite Es in H; apply H; [done|lia].
  - destruct Hp as [Hv ->]; destruct (Z.eqb_spec r v) as [->|]; simplify_eq; [|by apply Hmove].
    assert (rc_spec v Release = (v - 1, v - 1)) as Es by (unfold rc_spec; by rewrite (proj2 (Z.eqb_neq v 0)) by lia).
    pose proof (Hdone Release Es) as H; rewrite Es in H; apply H; [done|lia].
Qed.

Lemma rc_reach_inv init s : 0 < init <= INT_MAX -> rc_reach init s -> rc_inv init s.
Proof.
  intros Hi; induction 1 as [|s s' _ IH Hs]; [split; simpl; [constructor|lia|done]|].
  destruct Hs as [r ts h t c Ht|r ts h t p r' p' Ht E]; [|by eapply rc_move_inv].
  destruct IH as [Hh Hr Hok]; split; [done|done|]; intros t2 p2 H2; simpl in *; upd; [done|eauto].
Qed.

(** ** Properties *)

#[export] Instance rc_call_eq_dec : EqDecision rc_call.
Proof. solve_decision. Defined.

(** Calls that succeed, and releases that find themselves the last. *)
Definition succeeded (c : rc_call) (h : list (rc_call * Z)) : Z :=
  Z.of_nat (length (filter (fun e => e.1 = c /\ e.2 <> -1) h)).
Definition last_releases (h : list (rc_call * Z)) : Z := Z.of_nat (length (filter (fun e => e = (Release, 0)) h)).

Lemma filter_one {A} (P : A -> Prop) `{!forall x, Decision (P x)} x :
  length (filter P [x]) = if decide (P x) then 1%nat else 0%nat.
Proof. rewrite filter_cons, filter_nil; by destruct (decide (P x)). Qed.

Lemma rc_history_counts init h n : 0 < init -> rc_history init h n ->
  0 <= n /\ n = init + succeeded Retain h - succeeded Release h /\ last_releases h = (if n =? 0 then 1 else 0).
Proof.
  intros Hi; induction 1 as [|h n c _ IH]; unfold succeeded, last_releases in *.
  { simpl; rewrite (proj2 (Z.eqb_neq _ _)) by lia; lia. }
  destruct IH as (H0 & Hn & Hl); rewrite !filter_app, !length_app, !filter_one; revert Hn Hl.
  generalize (length (filter (fun e => e.1 = Retain /\ e.2 <> -1) h)), (length (filter (fun e => e.1 = Release /\ e.2 <> -1) h)),
    (length (filter (fun e => e = (Release, 0)) h)); intros x y z Hn Hl; unfold rc_spec.
  destruct (Z.eqb_spec n 0) as [->|Hne]; simpl; [repeat case_decide; destruct c; naive_solver lia|].
  destruct c; simpl; repeat case_decide; destruct_and?; try congruence; try (exfalso; naive_solver lia);
    match goal with |- context [?x =? 0] => destruct (Z.eqb_spec x 0) end; try lia; exfalso; naive_solver (congruence || lia).
Qed.

(** C24: in every interleaving of retains and releases, each call takes effect
    at once: it fails exactly when the count is zero, and otherwise adds or
    takes one and returns the new count.  So the count is the initial one plus
    the retains less the releases that succeed, it does not leave zero again,
    and exactly one release returns zero, the last.  No step overflows while
    the count is below [INT_MAX]. *)
Theorem ref_cnt_linearizable (init : Z) (Hi : 0 < init <= INT_MAX) (s : rc_state) (Hr : rc_reach init s) :
  muggle_ref_cnt_init init = (0, Some init) /\ rc_history init (rc_hist s) (rc_ref s) /\
  rc_ref s = init + succeeded Retain (rc_hist s) - succeeded Release (rc_hist s) /\ 0 <= rc_ref s /\
  last_releases (rc_hist s) = (if rc_ref s =? 0 then 1 else 0) /\
  (rc_ref s < INT_MAX -> forall t p, rc_threads s !! t = Some p -> is_Some (rc_step (rc_ref s) p)).
Proof.
  pose proof (rc_reach_inv init s Hi Hr) as [Hh Hr' Hok]; destruct (rc_history_counts init _ _ ltac:(lia) Hh) as (H0 & Hn & Hl).
  split; [unfold muggle_ref_cnt_init; by rewrite (proj2 (Z.leb_gt _ _)) by lia|].
  split; [done|]; split; [done|]; split; [done|]; split; [done|]; intros Hlt t p Ht; pose proof (Hok t p Ht) as Hp.
  destruct p as [[]|[] v d|c x]; simpl; try (eexists; reflexivity); try done.
  - destruct (rc_ref s =? 0); [by eexists|]; rewrite (proj2 (Z.ltb_lt _ _)) by done; by eexists.
  - destruct (rc_ref s =? 0); by eexists.
Qed.

Lemma rc_sample : exists s, rc_reach 1 s /\ rc_hist s = [(Retain, 2); (Release, 1); (Release, 0); (Retain, -1)].
Proof.
  pose proof (rc_init 1) as H.
  eapply rc_next in H; [|apply (rc_begin _ _ _ 1 Retain); reflexivity].
  eapply rc_next in H; [|eapply (rc_move _ _ _ 1); reflexivity].
  eapply rc_next in H; [|eapply (rc_move _ _ _ 1); reflexivity].
  eapply rc_next in H; [|apply (rc_begin _ _ _ 1 Release); reflexivity].
  eapply rc_next in H; [|eapply (rc_move _ _ _ 1); reflexivity].
  eapply rc_next in H; [|eapply (rc_move _ _ _ 1); reflexivity].
  eapply rc_next in H; [|apply (rc_begin _ _ _ 2 Release); reflexivity].
  eapply rc_next in H; [|eapply (rc_move _ _ _ 2); reflexivity].
  eapply rc_next in H; [|eapply (rc_move _ _ _ 2); reflexivity].
  eapply rc_next in H; [|apply (rc_begin _ _ _ 1 Retain); reflexivity].
  eapply rc_next in H; [|eapply (rc_move _ _ _ 1); reflexivity].
  eexists; split; [exact H|reflexivity].
Qed.

Lemma ref_cnt_linearizable_witness : exists s, rc_reach 1 s /\ length (rc_hist s) = 4%nat /\ rc_history 1 (rc_hist s) (rc_ref s).
Proof.
  destruct rc_sample as (s & Hr & Eh); exists s; split; [exact Hr|]; split; [rewrite Eh; reflexivity|].
  exact (proj1 (proj2 (ref_cnt_linearizable 1 ltac:(unfold INT_MAX; lia) s Hr))).
Defined.
