(* ===== verification/Monitor.v ===== *)
(** * Monitors: a mutex and two condition variables

    The array blocking queue and the double buffer have the same form: a call
    locks a mutex, waits on a condition variable while its guard does not hold
    (or returns at once), changes the object, notifies one thread that waits on
    a condition variable and unlocks.  The class [Monitor] is what they fill in;
    here are the threads that run such calls, with the documented behaviour of
    mutexes and condition variables, and what holds of every monitor: mutual
    exclusion, that the completed calls are a sequential history of the object,
    and, for those that change what can proceed by one at a time, that no
    wake-up is lost. *)
From S2P Require Import Prelude.

(** The two condition variables of a monitor. *)
Inductive cond := NotEmpty | NotFull.

#[export] Instance cond_eq_dec : EqDecision cond.
Proof. solve_decision. Defined.

(** An object with its calls [M] and their results [V]. *)
Class Monitor (S M V : Type) := {
  guard : M -> S -> bool;               (** the call can proceed *)
  at_once : M -> S -> option V;         (** what it returns instead of waiting *)
  body : M -> S -> option (S * V);      (** what it does; [None] is a fault *)
  result : M -> V -> S -> V;            (** what it returns, after unlocking *)
  waits : M -> cond;                    (** where it waits, and whom it notifies *)
  notifies : M -> cond;
  excludes : M -> M -> bool             (** calls that the users do not make at once *)
}.

(** ** Counting threads *)

Section Count.
Context {A : Type}.
Implicit Types (P : A -> bool) (ts : gmap nat A).

Definition count P ts : nat := size (filter (fun kv => P kv.2 = true) ts).

Lemma count_delete P ts t c : ts !! t = Some c -> (count P (delete t ts) + Nat.b2n (P c) = count P ts)%nat.
Proof.
  intros Ht; unfold count; destruct (P c) eqn:E; simpl.
  - rewrite map_filter_delete, map_size_delete_Some by (by exists c; apply map_lookup_filter_Some).
    assert (size (filter (fun kv => P kv.2 = true) ts) <> 0)%nat; [|lia].
    apply (map_size_ne_0_lookup_2 _ t); exists c; by apply map_lookup_filter_Some.
  - rewrite map_filter_delete_not; [lia|]; intros y Hy; simplify_eq; simpl; by rewrite E.
Qed.

Lemma count_enter P ts t c : ts !! t = None -> (count P (<[t := c]> ts) = count P ts + Nat.b2n (P c))%nat.
Proof.
  intros Ht; rewrite <- (count_delete P (<[t := c]> ts) t c) by apply lookup_insert_eq.
  by rewrite delete_insert_id.
Qed.

Lemma count_move P ts t c c' : ts !! t = Some c ->
  (count P (<[t := c']> ts) + Nat.b2n (P c) = count P ts + Nat.b2n (P c'))%nat.
Proof.
  intros Ht; rewrite <- (insert_delete_eq ts), count_enter by apply lookup_delete_eq.
  pose proof (count_delete P ts t c Ht); lia.
Qed.

Lemma count_pos P ts : (0 < count P ts)%nat -> exists t c, ts !! t = Some c /\ P c = true.
Proof.
  unfold count; intros H; destruct (map_choose (filter (fun kv => P kv.2 = true) ts)) as (t & c & E).
  { intros E; rewrite E, map_size_empty in H; lia. }
  apply map_lookup_filter_Some in E as [? ?]; eauto.
Qed.
End Count.

Section Monitor.
Context {S M V : Type} `{!Monitor S M V}.

(** Where a thread is in a call. *)
Inductive mpc :=
| MLock (m : M) | MTest (m : M) | MSleep (m : M) | MWake (m : M) | MBody (m : M)
| MNotify (m : M) (v : V) | MUnlock (m : M) (v : V) | MReturn (m : M) (v : V).

Definition call_of (c : mpc) : M :=
  match c with
  | MLock m | MTest m | MSleep m | MWake m | MBody m | MNotify m _ | MUnlock m _ | MReturn m _ => m
  end.

(** The thread waits on [c]. *)
Definition sleeps (c : cond) (pc : mpc) : Prop := match pc with MSleep m => waits m = c | _ => False end.

#[export] Instance sleeps_dec c pc : Decision (sleeps c pc).
Proof. destruct pc; simpl; apply _. Defined.

(** The object, the owner of the mutex, the threads inside a call, the bodies
    that were run, in their order, and the calls that have returned. *)
Record mstate := MS {
  obj : S; mutex : option nat; mthreads : gmap nat mpc; mhist : list (M * V); mrets : list (nat * M * V)
}.

(** Steps of the code of a thread. *)
Inductive mcode : mstate -> mstate -> Prop :=
| m_lock o ts h r t m :
    ts !! t = Some (MLock m) -> mcode (MS o None ts h r) (MS o (Some t) (<[t := MTest m]> ts) h r)
| m_proceed o mx ts h r t m :
    ts !! t = Some (MTest m) -> guard m o = true -> mcode (MS o mx ts h r) (MS o mx (<[t := MBody m]> ts) h r)
| m_at_once o mx ts h r t m v :
    ts !! t = Some (MTest m) -> guard m o = false -> at_once m o = Some v ->
    mcode (MS o mx ts h r) (MS o mx (<[t := MUnlock m v]> ts) h r)
| m_wait o mx ts h r t m :
    ts !! t = Some (MTest m) -> guard m o = false -> at_once m o = None ->
    mcode (MS o mx ts h r) (MS o None (<[t := MSleep m]> ts) h r)
| m_relock o ts h r t m :
    ts !! t = Some (MWake m) -> mcode (MS o None ts h r) (MS o (Some t) (<[t := MTest m]> ts) h r)
| m_body o mx ts h r t m o' v :
    ts !! t = Some (MBody m) -> body m o = Some (o', v) ->
    mcode (MS o mx ts h r) (MS o' mx (<[t := MNotify m v]> ts) (h ++ [(m, v)]) r)
| m_notify o mx ts h r t m v t2 m2 :
    ts !! t = Some (MNotify m v) -> ts !! t2 = Some (MSleep m2) -> waits m2 = notifies m ->
    mcode (MS o mx ts h r) (MS o mx (<[t := MUnlock m v]> (<[t2 := MWake m2]> ts)) h r)
| m_notify_nobody o mx ts h r t m v :
    ts !! t = Some (MNotify m v) ->
    map_Forall (fun _ c => ~ sleeps (notifies m) c) ts ->
    mcode (MS o mx ts h r) (MS o mx (<[t := MUnlock m v]> ts) h r)
| m_unlock o mx ts h r t m v :
    ts !! t = Some (MUnlock m v) -> mcode (MS o mx ts h r) (MS o None (<[t := MReturn m v]> ts) h r)
| m_return o mx ts h r t m v :
    ts !! t = Some (MReturn m v) -> mcode (MS o mx ts h r) (MS o mx (delete t ts) h (r ++ [(t, m, result m v o)])).

(** A call begins, locking the mutex fails and the call returns, or a thread
    wakes up without a cause. *)
Inductive menv : mstate -> mstate -> Prop :=
| m_call o mx ts h r t m :
    ts !! t = None -> map_Forall (fun _ c => excludes m (call_of c) = false) ts ->
    menv (MS o mx ts h r) (MS o mx (<[t := MLock m]> ts) h r)
| m_lock_fails o mx ts h r t m :
    ts !! t = Some (MLock m) -> menv (MS o mx ts h r) (MS o mx (delete t ts) h r)
| m_spurious o mx ts h r t m :
    ts !! t = Some (MSleep m) -> menv (MS o mx ts h r) (MS o mx (<[t := MWake m]> ts) h r).

Definition mstep (s s' : mstate) : Prop := mcode s s' \/ menv s s'.

Inductive mreach (o : S) : mstate -> Prop :=
| m_init : mreach o (MS o None ∅ [] [])
| m_next s s' : mreach o s -> mstep s s' -> mreach o s'.

(** Sequential histories of the object: every call could proceed. *)
Inductive replays : S -> list (M * V) -> S -> Prop :=
| replays_nil o : replays o [] o
| replays_snoc o h o1 m v o2 :
    replays o h o1 -> guard m o1 = true -> body m o1 = Some (o2, v) -> replays o (h ++ [(m, v)]) o2.

(** Between locking and unlocking. *)
Definition holds_mutex (c : mpc) : bool :=
  match c with MTest _ | MBody _ | MNotify _ _ | MUnlock _ _ => true | _ => false end.

Record minv (o : S) (s : mstate) : Prop := {
  mi_mutex : forall t c, mthreads s !! t = Some c -> holds_mutex c = true -> mutex s = Some t;
  mi_body : forall t m, mthreads s !! t = Some (MBody m) -> guard m (obj s) = true;
  mi_hist : replays o (mhist s) (obj s)
}.

Lemma minv_init o : minv o (MS o None ∅ [] []).
Proof. split; simpl; try done; constructor. Qed.

(** The holder of the mutex is alone. *)
Lemma holder_unique o s t c t2 c2 : minv o s ->
  mthreads s !! t = Some c -> holds_mutex c = true -> mthreads s !! t2 = Some c2 -> holds_mutex c2 = true -> t2 = t.
Proof.
  intros HI H1 E1 H2 E2; pose proof (mi_mutex _ _ HI _ _ H1 E1); pose proof (mi_mutex _ _ HI _ _ H2 E2); congruence.
Qed.

(** Only [body] and a test change what a thread between locking and unlocking
    relies on: every other thread keeps what it has. *)
Lemma minv_step o s s' : minv o s -> mstep s s' -> minv o s'.
Proof.
  intros HI Hs; pose proof HI as [Hm Hb Hh].
  assert (forall t c t2 c2, mthreads s !! t = Some c -> holds_mutex c = true -> t <> t2 ->
    mthreads s !! t2 = Some c2 -> holds_mutex c2 = true -> False) as Hex.
  { intros t c t2 c2 H1 E1 Hne H2 E2; by pose proof (holder_unique _ _ _ _ _ _ HI H1 E1 H2 E2). }
  destruct Hs as [Hs|Hs]; destruct Hs; simpl in *; split; simpl; try done; intros;
    repeat match goal with
    | H : delete _ _ !! _ = Some _ |- _ => apply lookup_delete_Some in H as [? H]
    | H : <[_ := _]> _ !! _ = Some _ |- _ => apply lookup_insert_Some in H as [[? ?]|[? H]]; simplify_eq
    end; try done; eauto;
    try solve [exfalso; eauto]; try solve [eapply Hm; eauto]; try solve [exfalso; eapply Hex; eauto; done].
  - exfalso; match goal with H : ts !! ?t0 = Some ?c |- _ => by specialize (Hm t0 c H ltac:(done)) end.
  - exfalso; match goal with H : ts !! ?t0 = Some ?c |- _ => by specialize (Hm t0 c H ltac:(done)) end.
  - eapply replays_snoc; eauto.
Qed.

Lemma mreach_inv o s : mreach o s -> minv o s.
Proof. induction 1; eauto using minv_init, minv_step. Qed.

(** The owner of the mutex is a thread between locking and unlocking. *)
Definition has_owner (mx : option nat) (ts : gmap nat mpc) : Prop :=
  forall t, mx = Some t -> exists c, ts !! t = Some c /\ holds_mutex c = true.

Lemma owner_move mx ts t c' : has_owner mx ts ->
  (forall c, ts !! t = Some c -> holds_mutex c = true -> holds_mutex c' = true) -> has_owner mx (<[t := c']> ts).
Proof.
  intros Ho Hc t0 Ht0; destruct (Ho t0 Ht0) as (c & H1 & H2); destruct (decide (t = t0)) as [->|].
  - exists c'; rewrite lookup_insert_eq; eauto.
  - exists c; by rewrite lookup_insert_ne.
Qed.

Lemma owner_leave mx ts t c : has_owner mx ts -> ts !! t = Some c -> holds_mutex c = false -> has_owner mx (delete t ts).
Proof.
  intros Ho Ht E t0 Ht0; destruct (Ho t0 Ht0) as (c0 & H1 & H2); exists c0; split; [|done].
  rewrite lookup_delete_ne; [done|]; intros ->; congruence.
Qed.

Lemma owner_step s s' : has_owner (mutex s) (mthreads s) -> mstep s s' -> has_owner (mutex s') (mthreads s').
Proof.
  intros Ho [Hs|Hs]; destruct Hs; simpl in *; try done; try (by eapply owner_leave);
    try solve [apply owner_move; [done|]; intros; simplify_eq; done].
  - intros t0 [= <-]; exists (MTest m); by rewrite lookup_insert_eq.
  - intros t0 [= <-]; exists (MTest m); by rewrite lookup_insert_eq.
  - apply owner_move; [apply owner_move; [done|]; intros; simplify_eq; done|].
    intros c Hc; destruct (decide (t = t2)) as [->|]; [congruence|]; rewrite lookup_insert_ne in Hc by done; by simplify_eq.
Qed.

Lemma mreach_owner o s : mreach o s -> has_owner (mutex s) (mthreads s).
Proof. induction 1; [done|]; eauto using owner_step. Qed.

(** An invariant of the object holds in every history. *)
Lemma replays_inv (P : S -> Prop) o h o' :
  (forall m o1 o2 v, P o1 -> guard m o1 = true -> body m o1 = Some (o2, v) -> P o2) ->
  P o -> replays o h o' -> P o'.
Proof. intros Hstep Ho; induction 1; eauto. Qed.

(** Calls that exclude each other are not made at once. *)
Definition calls (s : mstate) : gmap nat M := call_of <$> mthreads s.

Definition no_overlap (s : mstate) : Prop :=
  forall t1 t2 m1 m2, calls s !! t1 = Some m1 -> calls s !! t2 = Some m2 -> t1 <> t2 -> excludes m1 m2 = false.

Lemma calls_move (ts : gmap nat mpc) t c c' :
  ts !! t = Some c -> call_of c' = call_of c -> call_of <$> <[t := c']> ts = call_of <$> ts.
Proof. intros Ht E; rewrite fmap_insert, insert_id; [done|]; by rewrite lookup_fmap, Ht, E. Qed.

(** A step begins a call, ends one, or leaves the calls as they are. *)
Lemma mstep_calls s s' : mstep s s' ->
  calls s' = calls s \/ (exists t, calls s' = delete t (calls s)) \/
  exists t m, calls s' = <[t := m]> (calls s) /\ forall t2 m2, calls s !! t2 = Some m2 -> excludes m m2 = false.
Proof.
  intros [Hs|Hs]; destruct Hs; unfold calls; simpl; try (left; by erewrite calls_move by eauto).
  - left; destruct (decide (t = t2)) as [->|]; [congruence|].
    erewrite (calls_move _ t); [|by rewrite lookup_insert_ne|done]; by erewrite calls_move.
  - right; left; exists t; apply fmap_delete.
  - right; right; exists t, m; split; [apply fmap_insert|]; intros t2 m2; rewrite lookup_fmap.
    intros (c & Hc & ->)%fmap_Some; eauto.
  - right; left; exists t; apply fmap_delete.
Qed.

Lemma mreach_no_overlap o s :
  (forall m1 m2, excludes m1 m2 = excludes m2 m1) -> mreach o s -> no_overlap s.
Proof.
  intros Hsym; unfold no_overlap; induction 1 as [|s s' _ IH Hs].
  { intros ????; unfold calls; simpl; by rewrite fmap_empty, lookup_empty. }
  intros t1 t2 m1 m2; destruct (mstep_calls _ _ Hs) as [->|[(t & ->)|(t & m & -> & Hm)]]; [eauto| |].
  - intros [_ H1]%lookup_delete_Some [_ H2]%lookup_delete_Some; eauto.
  - intros H1 H2 Hne; upd; [done|rewrite Hsym; eauto|eauto|eauto].
Qed.

(** ** What a call returns *)

Section Results.
Hypothesis excludes_sym : forall m1 m2, excludes m1 m2 = excludes m2 m1.
Hypothesis result_body : forall m o o' v, body m o = Some (o', v) -> result m v o' = v.
Hypothesis result_at_once : forall m o v, at_once m o = Some v -> result m v o = v.
Variable P : S -> Prop.
Hypothesis result_stable : forall m m' o o' v v',
  P o -> excludes m m' = false -> body m' o = Some (o', v') -> result m v o = v -> result m v o' = v.

(** The result of a call whose body was run, or that returns at once. *)
Definition finishing (pc : mpc) : option (M * V) :=
  match pc with MNotify m v | MUnlock m v | MReturn m v => Some (m, v) | _ => None end.
Definition has_result (h : list (M * V)) (m : M) (v : V) : Prop := (m, v) ∈ h \/ exists o, at_once m o = Some v.

Record rinv (s : mstate) : Prop := {
  rv_pc : forall t pc m v, mthreads s !! t = Some pc -> finishing pc = Some (m, v) ->
    result m v (obj s) = v /\ has_result (mhist s) m v;
  rv_rets : forall t m v, (t, m, v) ∈ mrets s -> has_result (mhist s) m v
}.

Lemma has_result_snoc h e m v : has_result h m v -> has_result (h ++ [e]) m v.
Proof. intros [H|H]; [left|by right]; set_solver. Qed.

Lemma rinv_step s s' : P (obj s) -> no_overlap s -> rinv s -> mstep s s' -> rinv s'.
Proof.
  intros HP Hno [Hp Hr] [Hs|Hs]; destruct Hs; split; simpl in *;
    try done; try (intros t0 pc0 m0 v0 Hx Hf; upd; [done|by eapply Hp]);
    try (intros t0 pc0 m0 v0 [_ Hx]%lookup_delete_Some Hf; by eapply Hp).
  - intros t0 pc0 m0 v0 H0' Hf; upd; [|by eapply Hp]; simpl in Hf; simplify_eq.
    split; [by apply result_at_once|right; by eexists].
  - intros t0 pc0 m0 v0 H0' Hf; upd.
    + simpl in Hf; simplify_eq; split; [by eapply result_body|left; set_solver].
    + destruct (Hp _ _ _ _ H0' Hf) as [Hres Hh].
      split; [|by apply has_result_snoc]; eapply (result_stable m0 m); [done| |done|done].
      apply (Hno t0 t); unfold calls; simpl; [rewrite lookup_fmap, H0'|rewrite lookup_fmap, H|done]; simpl; [|done].
      destruct pc0; simpl in *; by simplify_eq.
  - intros t0 m0 v0 H0'; by eapply has_result_snoc, Hr.
  - intros t0 pc0 m0 v0 H0' Hf; upd; [simpl in Hf; simplify_eq; by eapply (Hp t)|done|by eapply Hp].
  - intros t0 pc0 m0 v0 H0' Hf; upd; [simpl in Hf; simplify_eq; by eapply (Hp t)|by eapply Hp].
  - intros t0 pc0 m0 v0 H0' Hf; upd; [simpl in Hf; simplify_eq; by eapply (Hp t)|by eapply Hp].
  - intros t0 m0 v0 [H1|H1]%elem_of_app; [by eapply Hr|]; apply list_elem_of_singleton in H1; simplify_eq.
    destruct (Hp _ _ _ _ H eq_refl) as [-> ?]; done.
Qed.

Lemma mreach_rinv o s : (forall s', mreach o s' -> P (obj s')) -> mreach o s -> rinv s.
Proof.
  intros HP; induction 1 as [|s s' Hr IH Hs].
  - split; simpl; [intros t pc m v; by rewrite lookup_empty|intros t m v H; by apply elem_of_nil in H].
  - eapply rinv_step; [by apply HP|by eapply mreach_no_overlap|done|done].
Qed.
End Results.

(** ** No wake-up is lost *)

(** A thread that is about to use, or to pass on, what the waiters on [c] wait
    for. *)
Definition serves (c : cond) (pc : mpc) : bool :=
  match pc with
  | MTest m | MWake m | MBody m => bool_decide (waits m = c)
  | MNotify m _ => bool_decide (notifies m = c)
  | _ => false
  end.

(** [room c o]: how many of the calls that wait on [c] have to be woken.  None
    when the guard does not hold; a call takes one from where it waits and gives
    at most one to whom it notifies. *)
Class MonitorLaws (oinv : S -> Prop) (room : cond -> S -> Z) : Prop := {
  ml_inv : forall m o o' v, oinv o -> guard m o = true -> body m o = Some (o', v) -> oinv o';
  ml_total : forall m o, oinv o -> guard m o = true -> is_Some (body m o);
  ml_guard : forall m o, oinv o -> guard m o = false -> room (waits m) o <= 0;
  ml_takes : forall m o o' v, oinv o -> guard m o = true -> body m o = Some (o', v) ->
    room (waits m) o' <= Z.max 0 (room (waits m) o - 1);
  ml_gives : forall m o o' v, oinv o -> guard m o = true -> body m o = Some (o', v) ->
    room (notifies m) o' <= room (notifies m) o + 1;
  ml_conds : forall m, waits m <> notifies m
}.

Section Laws.
Context {oinv : S -> Prop} {room : cond -> S -> Z} `{!MonitorLaws oinv room}.

Lemma mreach_oinv o s : oinv o -> mreach o s -> oinv (obj s).
Proof.
  intros Ho Hr; eapply (replays_inv oinv); [|done|apply (mi_hist _ _ (mreach_inv _ _ Hr))].
  intros; by eapply ml_inv.
Qed.

(** When a thread sleeps, what could proceed has a thread to serve it. *)
Definition served_at (c : cond) (o : S) (ts : gmap nat mpc) : Prop :=
  forall t pc, ts !! t = Some pc -> sleeps c pc -> room c o <= Z.of_nat (count (serves c) ts).
Definition served (o : S) (ts : gmap nat mpc) : Prop := forall c, served_at c o ts.

Lemma served_move c o ts t pc pc' : served_at c o ts -> ts !! t = Some pc ->
  room c o <= 0 \/ (~ sleeps c pc' /\ (serves c pc = true -> serves c pc' = true)) ->
  served_at c o (<[t := pc']> ts).
Proof.
  intros Hs Ht [Hc|[Hns Hsv]] t0 pc0 H0 Hsl; [lia|].
  pose proof (count_move (serves c) ts t pc pc' Ht) as Hn.
  assert (Nat.b2n (serves c pc) <= Nat.b2n (serves c pc'))%nat.
  { destruct (serves c pc); [rewrite Hsv by done; done|simpl; lia]. }
  upd; [done|]; match goal with H : ts !! _ = Some _ |- _ => pose proof (Hs _ _ H Hsl) end; lia.
Qed.

Lemma served_leave o ts t pc : served o ts -> ts !! t = Some pc -> (forall c, serves c pc = false) -> served o (delete t ts).
Proof.
  intros Hs Ht Hc c t0 pc0 [_ H0]%lookup_delete_Some Hsl; pose proof (Hs c _ _ H0 Hsl).
  pose proof (count_delete (serves c) ts t pc Ht); rewrite Hc in *; simpl in *; lia.
Qed.

Lemma served_notify o ts t m v t2 m2 :
  served o ts -> ts !! t = Some (MNotify m v) -> ts !! t2 = Some (MSleep m2) -> waits m2 = notifies m ->
  served o (<[t := MUnlock m v]> (<[t2 := MWake m2]> ts)).
Proof.
  intros Hs Ht Ht2 E c t0 pc H0 Hsl; assert (t <> t2) as Hne by (intros ->; congruence).
  pose proof (count_move (serves c) ts t2 (MSleep m2) (MWake m2) Ht2) as H1; simpl in H1.
  pose proof (count_move (serves c) (<[t2 := MWake m2]> ts) t (MNotify m v) (MUnlock m v)) as H2; simpl in H2.
  rewrite lookup_insert_ne in H2 by done; specialize (H2 Ht); rewrite E in H1.
  upd; [done|done|]; match goal with H : ts !! _ = Some _ |- _ => pose proof (Hs c _ _ H Hsl) end; lia.
Qed.

(** A body takes one and gives one. *)
Lemma served_body o ts t m o' v :
  oinv o -> served o ts -> ts !! t = Some (MBody m) -> guard m o = true -> body m o = Some (o', v) ->
  served o' (<[t := MNotify m v]> ts).
Proof.
  intros Ho Hs Ht Hg Hb c t0 pc H0 Hsl; upd; [done|].
  match goal with H : ts !! _ = Some _ |- _ => pose proof (Hs c _ _ H Hsl) end.
  pose proof (count_move (serves c) ts t (MBody m) (MNotify m v) Ht) as Hn; simpl in Hn.
  pose proof (ml_takes m o o' v Ho Hg Hb) as Htk; pose proof (ml_gives m o o' v Ho Hg Hb) as Hgv.
  pose proof (ml_conds m); destruct (decide (waits m = c)) as [<-|].
  - rewrite bool_decide_true, bool_decide_false in Hn by done; simpl in Hn; lia.
  - assert (notifies m = c) as <- by (destruct (waits m), (notifies m), c; done).
    rewrite bool_decide_false, bool_decide_true in Hn by done; simpl in Hn; lia.
Qed.

Lemma served_step o s s' : oinv o -> mreach o s -> served (obj s) (mthreads s) -> mstep s s' -> served (obj s') (mthreads s').
Proof.
  intros Ho Hr Hsv Hs; pose proof (mreach_oinv _ _ Ho Hr) as Hinv; pose proof (mreach_inv _ _ Hr) as [_ Hb _].
  assert (forall m, guard m (obj s) = false -> room (waits m) (obj s) <= 0) as Hroom by (intros; by apply ml_guard).
  destruct Hs as [Hs|Hs]; destruct Hs; simpl in *;
    try (by eapply served_leave); try (by eapply served_notify);
    try (intros c; eapply served_move; [done|done|right; split; [by intros []|done]]).
  - intros c; eapply served_move; [done|done|]; destruct (decide (waits m = c)) as [<-|Hc]; [left; eauto|right].
    split; [by intros []|]; simpl; by rewrite bool_decide_false by done.
  - intros c; eapply served_move; [done|done|]; destruct (decide (waits m = c)) as [<-|Hc]; [left; eauto|right].
    split; [done|]; simpl; by rewrite bool_decide_false by done.
  - eapply served_body; eauto.
  - intros c; destruct (decide (notifies m = c)) as [<-|Hc].
    + intros t0 pc Ht0 Hsl; upd; [done|].
      match goal with H : ts !! t0 = Some pc, HN : map_Forall _ ts |- _ => by pose proof (HN _ _ H) end.
    + eapply served_move; [done|done|right; split; [by intros []|]]; simpl; by rewrite bool_decide_false by done.
  - intros c t0 pc Ht0 Hsl; upd; [done|]; rewrite count_enter by done; simpl.
    match goal with H : ts !! t0 = Some pc |- _ => pose proof (Hsv c _ _ H Hsl) end; lia.
Qed.

Lemma mreach_served o s : oinv o -> mreach o s -> served (obj s) (mthreads s).
Proof.
  intros Ho; induction 1 as [|s s' Hr IH Hs]; [|by eapply served_step].
  intros c t pc; simpl; by rewrite lookup_empty.
Qed.

(** The owner of the mutex can take its next step. *)
Lemma holder_steps s t pc : oinv (obj s) -> mthreads s !! t = Some pc -> holds_mutex pc = true ->
  (forall m, pc = MBody m -> guard m (obj s) = true) -> exists s', mcode s s'.
Proof.
  intros Hi Ht Hh Hb; destruct s as [o mx ts h r]; simpl in *; destruct pc as [m|m|m|m|m|m v|m v|m v]; try done.
  - destruct (guard m o) eqn:Eg; [eexists; by eapply m_proceed|].
    destruct (at_once m o) as [v|] eqn:Ea; eexists; [by eapply m_at_once|by eapply m_wait].
  - destruct (ml_total m o Hi (Hb m eq_refl)) as [[o' v] E]; eexists; by eapply m_body.
  - destruct (decide (map_Forall (fun _ pc => ~ sleeps (notifies m) pc) ts)) as [HF|HF].
    + eexists; eapply m_notify_nobody; done.
    + apply map_not_Forall in HF as (t2 & pc2 & H2 & Hn); [|intros; apply _].
      apply dec_stable in Hn; destruct pc2; try done; eexists; by eapply m_notify.
  - eexists; by eapply m_unlock.
Qed.

(** In every run: when a thread sleeps that has to be woken, some thread
    can take a step of its code, and there is one that will pass the wake-up
    on. *)
Theorem monitor_progress o s t m :
  oinv o -> mreach o s -> mthreads s !! t = Some (MSleep m) -> 0 < room (waits m) (obj s) ->
  (exists s', mcode s s') /\ exists t' pc, mthreads s !! t' = Some pc /\ serves (waits m) pc = true.
Proof.
  intros Ho Hr Ht Hg; pose proof (mreach_oinv _ _ Ho Hr) as Hi; pose proof (mreach_inv _ _ Hr) as HI.
  pose proof (mreach_served _ _ Ho Hr (waits m) t (MSleep m) Ht eq_refl) as Hs.
  destruct (count_pos (serves (waits m)) (mthreads s)) as (t' & pc & Ht' & Hsv); [lia|]; split; [|eauto].
  destruct (mutex s) as [t3|] eqn:Em.
  - destruct (mreach_owner _ _ Hr t3 Em) as (pc3 & H3 & Hh); eapply holder_steps; eauto.
    intros m3 ->; by eapply (mi_body _ _ HI).
  - assert (holds_mutex pc = false) as Hn.
    { destruct (holds_mutex pc) eqn:E; [|done]; pose proof (mi_mutex _ _ HI _ _ Ht' E); congruence. }
    destruct s as [o' mx ts h r]; simpl in *; subst mx.
    destruct pc; try done; eexists; by eapply m_relock.
Qed.

End Laws.
End Monitor.
