(* ===== verification/BlockingQueue.v ===== *)
(** * The array blocking queue: [sync/array_blocking_queue.c]

    A bounded queue in a ring of cells, a monitor: [put] waits while it is full
    and [take] while it is empty.  The bodies of the two calls are the static
    functions [enqueue] and [dequeue]; the mutex, the waiting and the
    notification are those of [Monitor]. *)
From S2P Require Import Prelude Utils Monitor.

Record muggle_array_blocking_queue := ABQ {
  datas : list (option Z);      (** [None]: not written yet *)
  bq_capacity : Z; take_idx : Z; put_idx : Z; cnt : Z
}.

Section Operations.
Implicit Types q : muggle_array_blocking_queue.

(** [++idx == capacity]: back to the beginning. *)
Definition next_idx q (i : Z) : Z := if i + 1 =? bq_capacity q then 0 else i + 1.

Definition muggle_array_blocking_queue_enqueue q (data : Z) : option muggle_array_blocking_queue :=
  l ← wr (datas q) (put_idx q) (Some data);
  Some (ABQ l (bq_capacity q) (take_idx q) (next_idx q (put_idx q)) (cnt q + 1)).

Definition muggle_array_blocking_queue_dequeue q : option (Z * muggle_array_blocking_queue) :=
  data ← rdi (datas q) (take_idx q);
  Some (data, ABQ (datas q) (bq_capacity q) (next_idx q (take_idx q)) (put_idx q) (cnt q - 1)).

(** [mem]: [malloc] succeeds; the other arguments are what the initialisations
    of the mutex and the two condition variables return.  When one of them
    fails, the memory is not given back. *)
Definition muggle_array_blocking_queue_init (capacity : Z) (mem : bool) (mutex_ret full_ret empty_ret : Z)
  : Z + muggle_array_blocking_queue :=
  if capacity <=? 0 then inl MUGGLE_ERR_INVALID_PARAM
  else if negb mem then inl MUGGLE_ERR_MEM_ALLOC
  else if negb (mutex_ret =? MUGGLE_OK) then inl mutex_ret
  else if negb (full_ret =? MUGGLE_OK) then inl full_ret
  else if negb (empty_ret =? MUGGLE_OK) then inl empty_ret
  else inr (ABQ (uninit capacity) capacity 0 0 0).

Definition muggle_array_blocking_queue_destroy q : Z * muggle_array_blocking_queue :=
  (MUGGLE_OK, ABQ [] (bq_capacity q) (take_idx q) (put_idx q) (cnt q)).
End Operations.

(** The calls and what they return. *)
Inductive bq_call := Put (data : Z) | Take.
Inductive bq_result := RPut (ret : Z) | RTake (data : Z).

#[export] Instance bq_monitor : Monitor muggle_array_blocking_queue bq_call bq_result := {
  guard c q := match c with Put _ => negb (cnt q =? bq_capacity q) | Take => negb (cnt q =? 0) end;
  at_once _ _ := None;
  body c q := match c with
    | Put d => q' ← muggle_array_blocking_queue_enqueue q d; Some (q', RPut MUGGLE_OK)
    | Take => '(d, q') ← muggle_array_blocking_queue_dequeue q; Some (q', RTake d) end;
  result _ v _ := v;
  waits c := match c with Put _ => NotFull | Take => NotEmpty end;
  notifies c := match c with Put _ => NotEmpty | Take => NotFull end;
  excludes _ _ := false
}.

(** [muggle_array_blocking_queue_put] and [take]: a call of the monitor; when
    the mutex cannot be locked, [put] returns the error and [take] NULL. *)
Definition muggle_array_blocking_queue_put (data : Z) : mpc (M := bq_call) (V := bq_result) := MLock (Put data).
Definition muggle_array_blocking_queue_take : mpc (M := bq_call) (V := bq_result) := MLock Take.

(** ** The queue in the ring *)

Section Ring.
Implicit Types (q : muggle_array_blocking_queue) (l : list Z).

Record bq_holds q l : Prop := {
  bh_cap : 0 < bq_capacity q;
  bh_len : Z.of_nat (length (datas q)) = bq_capacity q;
  bh_cnt : cnt q = Z.of_nat (length l) /\ cnt q <= bq_capacity q;
  bh_take : 0 <= take_idx q < bq_capacity q;
  bh_put : put_idx q = (take_idx q + cnt q) mod bq_capacity q;
  bh_data : forall j d, l !! j = Some d -> rd (datas q) ((take_idx q + Z.of_nat j) mod bq_capacity q) = Some (Some d)
}.

Lemma next_idx_mod q x : 0 < bq_capacity q -> next_idx q (x mod bq_capacity q) = (x + 1) mod bq_capacity q.
Proof.
  intros Hc; unfold next_idx; pose proof (Z.mod_pos_bound x (bq_capacity q) Hc).
  rewrite <- (Zplus_mod_idemp_l x 1); destruct (Z.eqb_spec (x mod bq_capacity q + 1) (bq_capacity q)) as [->|].
  - by rewrite Z_mod_same_full.
  - symmetry; apply Z.mod_small; lia.
Qed.

Lemma enqueue_spec q l d : bq_holds q l -> cnt q <> bq_capacity q ->
  exists q', muggle_array_blocking_queue_enqueue q d = Some q' /\ bq_holds q' (l ++ [d]) /\ bq_capacity q' = bq_capacity q.
Proof.
  intros [Hc Hl Hn Ht Hp Hd] Hf; unfold muggle_array_blocking_queue_enqueue; rewrite Hp.
  pose proof (Z.mod_pos_bound (take_idx q + cnt q) _ Hc) as Hr.
  rewrite wr_Some by lia; eexists; split; [done|]; split; [|done]; split; simpl; try done.
  - by rewrite length_insert.
  - rewrite length_app; simpl; lia.
  - rewrite next_idx_mod by done; f_equal; lia.
  - intros j x [[Hj Hx]|[-> <-]]%lookup_snoc_Some.
    + rewrite <- (Hd j x Hx); unfold rd; destruct (decide _) as [H0|]; [|done].
      apply list_lookup_insert_ne; intros E; enough (take_idx q + Z.of_nat j = take_idx q + cnt q) by lia.
      apply (mod_window (bq_capacity q)); lia.
    + destruct Hn as [<- Hn]; unfold rd; rewrite decide_True by lia; apply list_lookup_insert_eq; lia.
Qed.

Lemma ring_dequeue_spec q d l : bq_holds q (d :: l) ->
  exists q', muggle_array_blocking_queue_dequeue q = Some (d, q') /\ bq_holds q' l /\ bq_capacity q' = bq_capacity q.
Proof.
  intros [Hc Hl Hn Ht Hp Hd]; unfold muggle_array_blocking_queue_dequeue, rdi; simpl in Hn.
  pose proof (Hd 0%nat d eq_refl) as H0; rewrite Z.add_0_r, Z.mod_small in H0 by lia; rewrite H0; simpl.
  assert (next_idx q (take_idx q) = (take_idx q + 1) mod bq_capacity q) as Ei.
  { rewrite <- (next_idx_mod q (take_idx q)) by done; by rewrite Z.mod_small. }
  eexists; split; [done|]; split; [|done]; split; simpl; try done.
  - lia.
  - rewrite Ei; by apply Z.mod_pos_bound.
  - rewrite Ei, Zplus_mod_idemp_l, Hp; f_equal; lia.
  - intros j x Hx; rewrite Ei, Zplus_mod_idemp_l, <- (Hd (S j) x Hx); do 2 f_equal; lia.
Qed.

Lemma bq_init_holds capacity : 0 < capacity -> bq_holds (ABQ (uninit capacity) capacity 0 0 0) [].
Proof.
  intros Hc; split; simpl; try done; try lia; unfold uninit; rewrite ?length_replicate; lia.
Qed.
End Ring.

(** ** Histories *)

(** What was put and what was taken, in the order of the calls. *)
Definition puts (h : list (bq_call * bq_result)) : list Z := omap (fun e => match e.1 with Put d => Some d | Take => None end) h.
Definition takes (h : list (bq_call * bq_result)) : list Z := omap (fun e => match e.2 with RTake d => Some d | RPut _ => None end) h.

(** Every [put] returns OK, and every [take] a datum. *)
Definition result_ok (e : bq_call * bq_result) : Prop :=
  match e with (Put _, RPut r) => r = MUGGLE_OK | (Take, RTake _) => True | _ => False end.

Definition bq_inv (cap : Z) (q : muggle_array_blocking_queue) : Prop := bq_capacity q = cap /\ exists l, bq_holds q l.

(** Free places, or data. *)
Definition bq_room (c : cond) (q : muggle_array_blocking_queue) : Z :=
  match c with NotFull => bq_capacity q - cnt q | NotEmpty => cnt q end.

Lemma bq_body_cases cap q l m q' v : bq_capacity q = cap -> bq_holds q l -> guard m q = true -> body m q = Some (q', v) ->
  bq_capacity q' = cap /\ match m with
  | Put d => v = RPut MUGGLE_OK /\ bq_holds q' (l ++ [d])
  | Take => exists d l', l = d :: l' /\ v = RTake d /\ bq_holds q' l'
  end.
Proof.
  intros Ecap Hq Hg Hb; destruct m as [d|]; simpl in Hg, Hb.
  - apply negb_true_iff, Z.eqb_neq in Hg; destruct (enqueue_spec q l d Hq Hg) as (q2 & E & Hq2 & Ec).
    rewrite E in Hb; simpl in Hb; simplify_eq; split; [congruence|done].
  - apply negb_true_iff, Z.eqb_neq in Hg; destruct l as [|d l]; [destruct (bh_cnt _ _ Hq); simpl in *; lia|].
    destruct (ring_dequeue_spec q d l Hq) as (q2 & E & Hq2 & Ec).
    rewrite E in Hb; simpl in Hb; simplify_eq; split; [congruence|eauto].
Qed.

#[export] Instance bq_laws cap : MonitorLaws (bq_inv cap) bq_room.
Proof.
  split.
  - intros m q q' v [Ec [l Hq]] Hg Hb; pose proof (bq_body_cases cap q l m q' v Ec Hq Hg Hb) as [Ec' H]; split; [done|].
    destruct m; [destruct H as [_ H]; eauto|destruct H as (d & l' & _ & _ & H); eauto].
  - intros m q [Ec [l Hq]] Hg; destruct m as [d|]; simpl in *; apply negb_true_iff, Z.eqb_neq in Hg.
    + destruct (enqueue_spec q l d Hq Hg) as (q2 & -> & _); by eexists.
    + destruct l as [|d l]; [destruct (bh_cnt _ _ Hq); simpl in *; lia|].
      destruct (ring_dequeue_spec q d l Hq) as (q2 & -> & _); by eexists.
  - intros m q [Ec [l Hq]]; pose proof (bh_cnt _ _ Hq); destruct m; simpl; rewrite negb_false_iff, Z.eqb_eq; lia.
  - intros m q q' v [Ec [l Hq]] Hg Hb; pose proof (bq_body_cases cap q l m q' v Ec Hq Hg Hb) as [Ec' H].
    pose proof (bh_cnt _ _ Hq); destruct m; simpl.
    + destruct H as [_ H]; pose proof (bh_cnt _ _ H) as [Hn _]; rewrite length_app in Hn; simpl in Hn; lia.
    + destruct H as (d & l' & -> & _ & H); pose proof (bh_cnt _ _ H); simpl in *; lia.
  - intros m q q' v [Ec [l Hq]] Hg Hb; pose proof (bq_body_cases cap q l m q' v Ec Hq Hg Hb) as [Ec' H].
    pose proof (bh_cnt _ _ Hq); destruct m; simpl.
    + destruct H as [_ H]; pose proof (bh_cnt _ _ H) as [Hn _]; rewrite length_app in Hn; simpl in Hn; lia.
    + destruct H as (d & l' & -> & _ & H); pose proof (bh_cnt _ _ H); simpl in *; lia.
  - intros m; by destruct m.
Qed.

(** A history of the queue: what was put and not taken is in the ring. *)
Lemma bq_replays cap q h q' : bq_capacity q = cap -> bq_holds q [] -> replays q h q' ->
  bq_capacity q' = cap /\ Forall result_ok h /\ exists l, bq_holds q' l /\ puts h = takes h ++ l.
Proof.
  intros Hc Hq; induction 1 as [q|q h q1 m v q2 _ IH Hg Hb]; [by split; [|split; [|exists []]]|].
  destruct (IH Hc Hq) as (Hc1 & Hok & l & Hl & E).
  destruct (bq_body_cases cap q1 l m q2 v Hc1 Hl Hg Hb) as [Hc2 H]; split; [done|]; unfold puts, takes in *.
  rewrite !omap_app, E; destruct m as [d|]; simpl.
  - destruct H as [-> H]; split; [apply Forall_app_2; [done|by repeat constructor]|]; exists (l ++ [d]); split; [done|].
    by rewrite app_nil_r, app_assoc.
  - destruct H as (d & l' & -> & -> & H); split; [apply Forall_app_2; [done|by repeat constructor]|]; exists l'; split; [done|].
    by rewrite app_nil_r, <- app_assoc.
Qed.

(** ** Properties *)

(** C11: in every run of any threads that put and take, at most one of them is
    inside the mutex; the completed calls, in the order of their bodies, are
    those of a first-in first-out queue: what was taken is what was put first,
    and the rest, never more than the capacity, is in the ring. *)
Theorem blocking_queue_fifo (capacity : Z) (Hc : 0 < capacity) :
  exists q, muggle_array_blocking_queue_init capacity true MUGGLE_OK MUGGLE_OK MUGGLE_OK = inr q /\
  forall s, mreach q s ->
    Forall result_ok (mhist s) /\
    (exists l, puts (mhist s) = takes (mhist s) ++ l /\ bq_holds (obj s) l /\ Z.of_nat (length l) <= capacity) /\
    (forall t1 t2 c1 c2, mthreads s !! t1 = Some c1 -> mthreads s !! t2 = Some c2 ->
       holds_mutex c1 = true -> holds_mutex c2 = true -> t1 = t2).
Proof.
  unfold muggle_array_blocking_queue_init; rewrite (proj2 (Z.leb_gt _ _)) by done; simpl.
  eexists; split; [done|]; intros s Hr; pose proof (mreach_inv _ _ Hr) as HI.
  destruct (bq_replays capacity (ABQ (uninit capacity) capacity 0 0 0) _ _ eq_refl (bq_init_holds capacity Hc) (mi_hist _ _ HI)) as (Ec & Hok & l & Hl & E).
  split; [done|]; split; [|intros t1 t2 c1 c2 H1 H2 W1 W2; by eapply holder_unique].
  exists l; split; [done|]; split; [done|]; pose proof (bh_cnt _ _ Hl); lia.
Qed.

Lemma blocking_queue_fifo_witness :
  exists q, muggle_array_blocking_queue_init 2 true MUGGLE_OK MUGGLE_OK MUGGLE_OK = inr q /\
  forall s, mreach q s -> exists l, puts (mhist s) = takes (mhist s) ++ l /\ Z.of_nat (length l) <= 2.
Proof.
  destruct (blocking_queue_fifo 2) as (q & Hi & H); [lia|]; exists q; split; [exact Hi|].
  intros s Hr; destruct (H s Hr) as (_ & (l & H1 & _ & H2) & _); exists l; split; [exact H1|exact H2].
Defined.

(** C12: no wake-up is lost: when a call sleeps although it could proceed, a
    thread can take a step of its code, and one of the threads that are awake
    is about to use, or to pass on, what the sleeping one waits for. *)
Theorem blocking_queue_no_lost_wakeup (capacity : Z) (Hc : 0 < capacity) (q : muggle_array_blocking_queue)
  (Hi : muggle_array_blocking_queue_init capacity true MUGGLE_OK MUGGLE_OK MUGGLE_OK = inr q)
  (s : mstate) (Hr : mreach q s) (t : nat) (m : bq_call)
  (Ht : mthreads s !! t = Some (MSleep m)) (Hg : guard m (obj s) = true) :
  (exists s', mcode s s') /\ exists t' pc, mthreads s !! t' = Some pc /\ serves (waits m) pc = true.
Proof.
  unfold muggle_array_blocking_queue_init in Hi; rewrite (proj2 (Z.leb_gt _ _)) in Hi by done; simpl in Hi; simplify_eq.
  assert (bq_inv capacity (ABQ (uninit capacity) capacity 0 0 0)) as H0 by (split; [done|]; exists []; by apply bq_init_holds).
  eapply (monitor_progress (oinv := bq_inv capacity)); [done..|].
  destruct (mreach_oinv (oinv := bq_inv capacity) _ _ H0 Hr) as [_ [l Hl]]; pose proof (bh_cnt _ _ Hl).
  destruct m; simpl in *; apply negb_true_iff, Z.eqb_neq in Hg; lia.
Qed.

(** Thread 1 waits for a datum, thread 2 has put one and not notified yet. *)
Definition sample_queue : muggle_array_blocking_queue := ABQ (uninit 2) 2 0 0 0.

Lemma sample_run : exists s, mreach sample_queue s /\ mthreads s !! 1%nat = Some (MSleep Take) /\ guard Take (obj s) = true.
Proof.
  pose proof (m_init sample_queue) as H.
  eapply m_next in H; [|right; apply (m_call _ _ _ _ _ 1 Take); [reflexivity|done]].
  eapply m_next in H; [|left; apply (m_lock _ _ _ _ 1 Take); reflexivity].
  eapply m_next in H; [|left; apply (m_wait _ _ _ _ _ 1 Take); reflexivity].
  eapply m_next in H; [|right; apply (m_call _ _ _ _ _ 2 (Put 7)); [reflexivity|done]].
  eapply m_next in H; [|left; apply (m_lock _ _ _ _ 2 (Put 7)); reflexivity].
  eapply m_next in H; [|left; apply (m_proceed _ _ _ _ _ 2 (Put 7)); reflexivity].
  eapply m_next in H; [|left; eapply (m_body _ _ _ _ _ 2 (Put 7)); reflexivity].
  eexists; split; [exact H|]; split; reflexivity.
Qed.

Lemma blocking_queue_no_lost_wakeup_witness :
  exists s, mreach sample_queue s /\ mthreads s !! 1%nat = Some (MSleep Take) /\ exists s', mcode s s'.
Proof.
  destruct sample_run as (s & Hr & Ht & Hg); exists s; split; [exact Hr|]; split; [exact Ht|].
  exact (proj1 (blocking_queue_no_lost_wakeup 2 ltac:(lia) sample_queue eq_refl s Hr 1%nat Take Ht Hg)).
Defined.
