(* ===== verification/DoubleBuffer.v ===== *)
(** * The double buffer: [sync/double_buffer.c]

    Writers append to the back buffer and wait while it is full (or get an
    error, for a buffer that does not block); the one reader waits while it is
    empty, and exchanges the two buffers.  The pointers [front] and [back] are
    indices into [buf].  The mutex, the waiting and the notification are those
    of [Monitor]; [read] loads [front] once more after it has unlocked. *)
From S2P Require Import Prelude Utils Monitor.

Record muggle_single_buffer := SB { sb_datas : list (option Z); sb_cnt : Z }.

Record muggle_double_buffer := DB {
  db_buf : bool -> muggle_single_buffer;    (** [buf[0]] is that of [false] *)
  db_front : bool; db_back : bool; db_capacity : Z; non_blocking : Z
}.

Section Operations.
Implicit Types b : muggle_double_buffer.

Definition set_buf b (i : bool) (x : muggle_single_buffer) : muggle_double_buffer :=
  DB (fun j => if decide (j = i) then x else db_buf b j) (db_front b) (db_back b) (db_capacity b) (non_blocking b).

(** [mem0] and [mem1]: the two calls of [malloc] succeed; the other arguments
    are what the initialisations of the mutex and the condition variables
    return. *)
Definition muggle_double_buffer_init (capacity nonblocking : Z) (mem0 mem1 : bool) (mutex_ret full_ret empty_ret : Z)
  : Z + muggle_double_buffer :=
  if capacity <=? 0 then inl MUGGLE_ERR_INVALID_PARAM
  else if negb mem0 then inl MUGGLE_ERR_MEM_ALLOC
  else if negb mem1 then inl MUGGLE_ERR_MEM_ALLOC
  else if negb (mutex_ret =? MUGGLE_OK) then inl mutex_ret
  else if negb (full_ret =? MUGGLE_OK) then inl full_ret
  else if negb (empty_ret =? MUGGLE_OK) then inl empty_ret
  else inr (DB (fun _ => SB (uninit capacity) 0) false true capacity nonblocking).

Definition muggle_double_buffer_destroy b : Z * muggle_double_buffer :=
  (MUGGLE_OK, DB (fun i => SB [] (sb_cnt (db_buf b i))) (db_front b) (db_back b) (db_capacity b) (non_blocking b)).

(** [p_back->datas[p_back->cnt++] = data]. *)
Definition db_append b (data : Z) : option muggle_double_buffer :=
  let p_back := db_buf b (db_back b) in
  l ← wr (sb_datas p_back) (sb_cnt p_back) (Some data);
  Some (set_buf b (db_back b) (SB l (sb_cnt p_back + 1))).

(** The front buffer is emptied, and the two are exchanged. *)
Definition db_swap b : muggle_double_buffer :=
  let b := set_buf b (db_front b) (SB (sb_datas (db_buf b (db_front b))) 0) in
  DB (db_buf b) (db_back b) (db_front b) (db_capacity b) (non_blocking b).

(** The data that a buffer holds. *)
Definition sb_contents (x : muggle_single_buffer) : list (option Z) := take (Z.to_nat (sb_cnt x)) (sb_datas x).
End Operations.

(** The calls, and what they return: for [read], the pointer, with the data
    that the buffer holds. *)
Inductive db_call := Write (data : Z) | Read.
Inductive db_result := RWrite (ret : Z) | RRead (buf : bool) (data : list (option Z)).

#[export] Instance db_monitor : Monitor muggle_double_buffer db_call db_result := {
  guard c b := match c with
    | Write _ => negb (sb_cnt (db_buf b (db_back b)) =? db_capacity b)
    | Read => negb (sb_cnt (db_buf b (db_back b)) =? 0) end;
  at_once c b := match c with
    | Write _ => if non_blocking b =? 0 then None else Some (RWrite MUGGLE_ERR_FULL)
    | Read => None end;
  body c b := match c with
    | Write d => b' ← db_append b d; Some (b', RWrite MUGGLE_OK)
    | Read => let b' := db_swap b in Some (b', RRead (db_front b') (sb_contents (db_buf b' (db_front b')))) end;
  result c v b := match c with
    | Write _ => v
    | Read => RRead (db_front b) (sb_contents (db_buf b (db_front b))) end;
  waits c := match c with Write _ => NotFull | Read => NotEmpty end;
  notifies c := match c with Write _ => NotEmpty | Read => NotFull end;
  excludes c1 c2 := match c1, c2 with Read, Read => true | _, _ => false end
}.

(** The entries; when the mutex cannot be locked, [write] returns the error and
    [read] NULL. *)
Definition muggle_double_buffer_write (data : Z) : mpc (M := db_call) (V := db_result) := MLock (Write data).
Definition muggle_double_buffer_read : mpc (M := db_call) (V := db_result) := MLock Read.

(** ** The two buffers *)

(** The back buffer holds [l], the front buffer [f]. *)
Record db_holds (cap : Z) (b : muggle_double_buffer) (f l : list Z) : Prop := {
  dh_cap : 0 < cap /\ db_capacity b = cap;
  dh_two : db_front b <> db_back b;
  dh_len : forall i, Z.of_nat (length (sb_datas (db_buf b i))) = cap;
  dh_cnt : sb_cnt (db_buf b (db_back b)) = Z.of_nat (length l) /\ Z.of_nat (length l) <= cap;
  dh_back : sb_contents (db_buf b (db_back b)) = Some <$> l;
  dh_front : sb_contents (db_buf b (db_front b)) = Some <$> f
}.

Lemma db_append_spec cap b f l d : db_holds cap b f l -> Z.of_nat (length l) <> cap ->
  exists b', db_append b d = Some b' /\ db_holds cap b' f (l ++ [d]) /\ db_front b' = db_front b.
Proof.
  intros [[Hc Ec] H2 Hl [Hn Hle] Hb Hf] Hne; unfold db_append; rewrite wr_Some by (rewrite Hl; lia).
  eexists; split; [done|]; split; [|done]; split; simpl; try done.
  - intros i; destruct (decide _) as [->|]; [simpl; rewrite length_insert|]; apply Hl.
  - rewrite decide_True by done; simpl; rewrite length_app; simpl; lia.
  - rewrite decide_True by done; unfold sb_contents in *; simpl; rewrite Hn in *.
    rewrite Nat2Z.id in *; replace (Z.to_nat (Z.of_nat (length l) + 1)) with (S (length l)) by lia.
    pose proof (Hl (db_back b)).
    rewrite (take_S_r _ _ (Some d)) by (apply list_lookup_insert_eq; lia).
    by rewrite take_insert_ge, Hb, fmap_app by lia.
  - by rewrite decide_False.
Qed.

Lemma db_swap_spec cap b f l : db_holds cap b f l ->
  db_holds cap (db_swap b) l [] /\ sb_contents (db_buf (db_swap b) (db_front (db_swap b))) = Some <$> l.
Proof.
  intros [[Hc Ec] H2 Hl [Hn Hle] Hb Hf].
  assert (sb_contents (db_buf (db_swap b) (db_front (db_swap b))) = Some <$> l) as E.
  { simpl; by rewrite decide_False. }
  split; [|done]; split; simpl; try done.
  - intros i; destruct (decide _) as [->|]; apply Hl.
  - rewrite decide_True by done; simpl; lia.
  - by rewrite decide_True.
Qed.

Lemma db_init_holds cap nb : 0 < cap -> db_holds cap (DB (fun _ => SB (uninit cap) 0) false true cap nb) [] [].
Proof. intros Hc; split; simpl; try done; try lia; intros i; unfold uninit; rewrite length_replicate; lia. Qed.

Lemma db_body_cases cap b f l m b' v : db_holds cap b f l -> guard m b = true -> body m b = Some (b', v) ->
  match m with
  | Write d => v = RWrite MUGGLE_OK /\ db_holds cap b' f (l ++ [d]) /\ db_front b' = db_front b
  | Read => v = RRead (db_front b') (Some <$> l) /\ db_holds cap b' l [] /\ l <> []
  end.
Proof.
  intros Hb Hg E; destruct m as [d|].
  - simpl in Hg; apply negb_true_iff, Z.eqb_neq in Hg; pose proof (dh_cnt _ _ _ _ Hb); pose proof (dh_cap _ _ _ _ Hb).
    destruct (db_append_spec cap b f l d Hb) as (b2 & E2 & Hb2 & Hf2); [lia|].
    change (body (Write d) b) with (b' ← db_append b d; Some (b', RWrite MUGGLE_OK)) in E.
    rewrite E2 in E; injection E as <- <-; done.
  - destruct (db_swap_spec cap b f l Hb) as [H1 H2].
    change (body Read b) with (Some (db_swap b, RRead (db_front (db_swap b)) (sb_contents (db_buf (db_swap b) (db_front (db_swap b)))))) in E.
    rewrite H2 in E; injection E as <- <-; split; [done|]; split; [done|]; intros ->.
    simpl in Hg; apply negb_true_iff, Z.eqb_neq in Hg; pose proof (dh_cnt _ _ _ _ Hb); simpl in *; lia.
Qed.

(** ** Histories *)

(** The data of the completed writes, and of the reads. *)
Definition written (h : list (db_call * db_result)) : list Z :=
  omap (fun e => match e.1 with Write d => Some d | Read => None end) h.
Definition batches (h : list (db_call * db_result)) : list (option Z) :=
  concat (map (fun e => match e.2 with RRead _ ds => ds | RWrite _ => [] end) h).
Definition db_result_ok (e : db_call * db_result) : Prop :=
  match e with (Write _, RWrite r) => r = MUGGLE_OK | (Read, RRead _ ds) => ds <> [] | _ => False end.

Lemma db_replays cap b h b' : db_holds cap b [] [] -> replays b h b' ->
  Forall db_result_ok h /\ exists f l, db_holds cap b' f l /\ Some <$> written h = batches h ++ (Some <$> l).
Proof.
  intros Hb; induction 1 as [b|b h b1 m v b2 _ IH Hg E]; [by split; [|exists [], []]|].
  destruct (IH Hb) as (Hok & f & l & Hl & Eh); pose proof (db_body_cases _ _ _ _ _ _ _ Hl Hg E) as H.
  unfold written, batches in *; rewrite (map_app _ h), concat_app, omap_app, fmap_app, Eh; destruct m as [d|]; simpl.
  - destruct H as (-> & H & _); split; [apply Forall_app_2; [done|by repeat constructor]|]; exists f, (l ++ [d]); split; [done|].
    by rewrite !app_nil_r, fmap_app, app_assoc.
  - destruct H as (-> & H & Hne); split; [apply Forall_app_2; [done|repeat constructor]|].
    { intros E0; apply Hne; by destruct l. }
    exists l, []; split; [done|]; simpl; by rewrite !app_nil_r.
Qed.

(** A reader has to be woken when there are data, a writer when the back
    buffer is empty. *)
Definition db_room (c : cond) (b : muggle_double_buffer) : Z :=
  let n := sb_cnt (db_buf b (db_back b)) in
  match c with NotEmpty => n | NotFull => if n =? 0 then 1 else 0 end.
Definition db_inv (cap : Z) (b : muggle_double_buffer) : Prop := exists f l, db_holds cap b f l.

#[export] Instance db_laws cap : MonitorLaws (db_inv cap) db_room.
Proof.
  split.
  - intros m b b' v (f & l & Hb) Hg E; pose proof (db_body_cases _ _ _ _ _ _ _ Hb Hg E) as H.
    destruct m; [destruct H as (_ & H & _)|destruct H as (_ & H & _)]; by eexists _, _.
  - intros m b (f & l & Hb) Hg; destruct m as [d|]; [|by eexists].
    simpl in Hg; apply negb_true_iff, Z.eqb_neq in Hg; pose proof (dh_cnt _ _ _ _ Hb); pose proof (dh_cap _ _ _ _ Hb).
    destruct (db_append_spec cap b f l d Hb) as (b2 & E2 & _); [lia|]; simpl; rewrite E2; by eexists.
  - intros m b (f & l & Hb) Hg; unfold db_room; pose proof (dh_cnt _ _ _ _ Hb); pose proof (dh_cap _ _ _ _ Hb).
    destruct m; simpl in *; apply negb_false_iff, Z.eqb_eq in Hg; [|lia].
    destruct (Z.eqb_spec (sb_cnt (db_buf b (db_back b))) 0); lia.
  - intros m b b' v (f & l & Hb) Hg E; pose proof (db_body_cases _ _ _ _ _ _ _ Hb Hg E) as H; unfold db_room.
    destruct m; simpl; destruct H as (_ & H & _); pose proof (dh_cnt _ _ _ _ H) as [Hn Hle].
    + rewrite Hn, length_app; simpl; destruct (Z.eqb_spec (Z.of_nat (length l + 1)) 0); lia.
    + rewrite Hn; simpl; lia.
  - intros m b b' v (f & l & Hb) Hg E; pose proof (db_body_cases _ _ _ _ _ _ _ Hb Hg E) as H; unfold db_room.
    pose proof (dh_cnt _ _ _ _ Hb) as [Hn0 _].
    destruct m; simpl; destruct H as (_ & H & _); pose proof (dh_cnt _ _ _ _ H) as [Hn Hle].
    + rewrite Hn, Hn0, length_app; simpl; lia.
    + rewrite Hn; simpl; destruct (Z.eqb_spec (sb_cnt (db_buf b (db_back b))) 0); lia.
  - by intros [].
Qed.

Lemma db_result_body m (b b' : muggle_double_buffer) v : body m b = Some (b', v) -> result m v b' = v.
Proof. destruct m; [done|]; intros E; simpl in E |- *; by simplify_eq. Qed.

(** A write does not change the buffer that the reader has. *)
Lemma db_result_stable m m' (b b' : muggle_double_buffer) v v' : db_front b <> db_back b ->
  excludes m m' = false -> body m' b = Some (b', v') -> result m v b = v -> result m v b' = v.
Proof.
  intros Hne Hex E Hv; destruct m as [d|]; [done|]; destruct m' as [d|]; [|done]; simpl in *.
  destruct (db_append b d) as [b2|] eqn:E2; simpl in E; simplify_eq; unfold db_append in E2.
  destruct (wr _ _ _); simpl in E2; simplify_eq; simpl; by rewrite decide_False.
Qed.

(** ** Properties *)

(** C13: in every run of any writers and one reader: the data of the writes, in
    their order, are those of the buffers that the reads returned, one after
    the other, and the contents of the back buffer, at most the capacity; no
    read returns an empty buffer; a call returns what its place in the order
    says, with the data still in the buffer, or, for a write that does not
    block, that the buffer is full. *)
Theorem double_buffer_fifo (capacity nonblocking : Z) (Hc : 0 < capacity) :
  exists b, muggle_double_buffer_init capacity nonblocking true true MUGGLE_OK MUGGLE_OK MUGGLE_OK = inr b /\
  forall s, mreach b s ->
    Forall db_result_ok (mhist s) /\
    (exists f l, db_holds capacity (obj s) f l /\ Some <$> written (mhist s) = batches (mhist s) ++ (Some <$> l)) /\
    (forall t m v, (t, m, v) ∈ mrets s ->
       (m, v) ∈ mhist s \/ exists d, m = Write d /\ v = RWrite MUGGLE_ERR_FULL).
Proof.
  unfold muggle_double_buffer_init; rewrite (proj2 (Z.leb_gt _ _)) by done; simpl.
  eexists; split; [done|]; pose proof (db_init_holds capacity nonblocking Hc) as H0; intros s Hr.
  destruct (db_replays _ _ _ _ H0 (mi_hist _ _ (mreach_inv _ _ Hr))) as [Hok Hex]; split; [done|]; split; [done|].
  assert (rinv s) as Hrv.
  { eapply mreach_rinv with (P := fun b => db_front b <> db_back b);
      [intros [] []; done|exact db_result_body|intros [] ???; simpl in *; done || by destruct (non_blocking _ =? 0); simplify_eq
      |exact db_result_stable| |exact Hr].
    intros s' Hr'; destruct (mreach_oinv (oinv := db_inv capacity) _ s' ltac:(by exists [], []) Hr') as (f & l & H); apply H. }
  intros t m v Hin; destruct (rv_rets _ Hrv t m v Hin) as [|(o & E)]; [by left|right].
  destruct m as [d|]; [|done]; simpl in E; destruct (non_blocking o =? 0); simplify_eq; by eexists.
Qed.

Lemma double_buffer_fifo_witness :
  exists b, muggle_double_buffer_init 4 1 true true MUGGLE_OK MUGGLE_OK MUGGLE_OK = inr b /\
  forall s, mreach b s -> Forall db_result_ok (mhist s).
Proof.
  destruct (double_buffer_fifo 4 1) as (b & Hi & H); [lia|]; exists b; split; [exact Hi|].
  intros s Hr; exact (proj1 (H s Hr)).
Defined.

(** There is no deadlock: when a reader sleeps although there are data, or
    a writer although the back buffer is empty, a thread can take a step of its
    code, and one of those that are awake will write, read or notify. *)
Theorem double_buffer_no_deadlock (capacity nonblocking : Z) (Hc : 0 < capacity) (b : muggle_double_buffer)
  (Hi : muggle_double_buffer_init capacity nonblocking true true MUGGLE_OK MUGGLE_OK MUGGLE_OK = inr b)
  (s : mstate) (Hr : mreach b s) (t : nat) (m : db_call) (Ht : mthreads s !! t = Some (MSleep m))
  (Hm : match m with Read => sb_cnt (db_buf (obj s) (db_back (obj s))) <> 0
                   | Write _ => sb_cnt (db_buf (obj s) (db_back (obj s))) = 0 end) :
  (exists s', mcode s s') /\ exists t' pc, mthreads s !! t' = Some pc /\ serves (waits m) pc = true.
Proof.
  unfold muggle_double_buffer_init in Hi; rewrite (proj2 (Z.leb_gt _ _)) in Hi by done; simpl in Hi; simplify_eq.
  pose proof (db_init_holds capacity nonblocking Hc) as H0.
  assert (db_inv capacity (DB (fun _ => SB (uninit capacity) 0) false true capacity nonblocking)) as HI by (by exists [], []).
  eapply (monitor_progress (oinv := db_inv capacity)); [done..|].
  destruct (mreach_oinv (oinv := db_inv capacity) _ _ HI Hr) as (f & l & Hl); pose proof (dh_cnt _ _ _ _ Hl).
  destruct m; simpl; unfold db_room; [by rewrite Hm|lia].
Qed.

Definition sample_buffer : muggle_double_buffer := DB (fun _ => SB (uninit 2) 0) false true 2 0.

(** The next step of a run, forward. *)
Ltac by_decision := match goal with |- ?P => apply (bool_decide_eq_true_1 P); vm_compute; reflexivity end.
Tactic Notation "code" hyp(H) uconstr(r) := eapply m_next in H; [|left; eapply r; reflexivity].
Ltac call H t c := eapply m_next in H; [|right; apply (m_call _ _ _ _ _ t c); [reflexivity|by_decision]].
Ltac to_body H t c := code H (m_proceed _ _ _ _ _ t c); code H (m_body _ _ _ _ _ t c).
Ltac finish H t c := code H (m_unlock _ _ _ _ _ t c); code H (m_return _ _ _ _ _ t c).
Ltac nobody H t c := eapply m_next in H; [|left; eapply (m_notify_nobody _ _ _ _ _ t c); [reflexivity|by_decision]].
Ltac sleep H t c := call H t c; code H (m_lock _ _ _ _ t c); code H (m_wait _ _ _ _ _ t c).
Ltac whole_call H t c := call H t c; code H (m_lock _ _ _ _ t c); to_body H t c; nobody H t c; finish H t c.

Lemma sample_reader : exists s, mreach sample_buffer s /\ mthreads s !! 1%nat = Some (MSleep Read) /\
  sb_cnt (db_buf (obj s) (db_back (obj s))) <> 0.
Proof.
  pose proof (m_init sample_buffer) as H.
  sleep H 1%nat Read; call H 2%nat (Write 7); code H (m_lock _ _ _ _ 2 (Write 7)); to_body H 2%nat (Write 7).
  eexists; split; [exact H|]; split; [reflexivity|done].
Qed.

Lemma double_buffer_no_deadlock_witness :
  exists s, mreach sample_buffer s /\ mthreads s !! 1%nat = Some (MSleep Read) /\ exists s', mcode s s'.
Proof.
  destruct sample_reader as (s & Hr & Ht & Hn); exists s; split; [exact Hr|]; split; [exact Ht|].
  exact (proj1 (double_buffer_no_deadlock 2 0 ltac:(lia) sample_buffer eq_refl s Hr 1%nat Read Ht Hn)).
Defined.

(** A read makes room for as many data as the buffer holds and wakes one
    writer: of two that wait for a buffer of two places, the second sleeps on
    although there is room and no thread is inside a call. *)
Theorem double_buffer_one_wakeup_defect :
  exists s, mreach sample_buffer s /\ mthreads s = {[ 4%nat := MSleep (Write 13) ]} /\
    guard (Write 13) (obj s) = true.
Proof.
  pose proof (m_init sample_buffer) as H.
  whole_call H 1%nat (Write 10); whole_call H 1%nat (Write 11).
  sleep H 3%nat (Write 12); sleep H 4%nat (Write 13).
  call H 1%nat Read; code H (m_lock _ _ _ _ 1%nat Read); to_body H 1%nat Read.
  code H (m_notify _ _ _ _ _ 1 Read _ 3 (Write 12)); finish H 1%nat Read.
  code H (m_relock _ _ _ _ 3 (Write 12)); to_body H 3%nat (Write 12).
  nobody H 3%nat (Write 12); finish H 3%nat (Write 12).
  eexists; split; [exact H|]; split; reflexivity.
Qed.
