(* ===== verification/Channel.v ===== *)
(** * Channels: [sync/channel.c]

    A ring through which any number of writers, or one, send messages to one
    reader.  The flags select the lock of the writers (a mutex, a futex lock, a
    spin lock or none) and how the reader waits (on a futex, with a mutex and a
    condition variable, or not at all).  The steps of a thread are its accesses
    of shared memory and its system calls.  A lock is the thread that owns it:
    that the futex lock and the spin lock are such locks is shown in [SyncLock]
    and [RingBuffer].  The accesses are sequentially consistent. *)
From S2P Require Import Prelude Utils.

Definition MUGGLE_CHANNEL_FLAG_WRITE_MUTEX : Z := 0.
Definition MUGGLE_CHANNEL_FLAG_WRITE_SYNC : Z := 1.
Definition MUGGLE_CHANNEL_FLAG_WRITE_SPIN : Z := 2.
Definition MUGGLE_CHANNEL_FLAG_WRITE_SINGLE : Z := 3.
Definition MUGGLE_CHANNEL_FLAG_READ_SYNC : Z := Z.shiftl 0 4.
Definition MUGGLE_CHANNEL_FLAG_READ_MUTEX : Z := Z.shiftl 1 4.
Definition MUGGLE_CHANNEL_FLAG_READ_BUSY : Z := Z.shiftl 2 4.
Definition MUGGLE_CHANNEL_FLAG_MASK_W : Z := 15.
Definition MUGGLE_CHANNEL_FLAG_MASK_R : Z := 240.
Definition CHANNEL_INIT_WRITE_MUTEX : Z := Z.shiftl 1 0.
Definition CHANNEL_INIT_READ_MUTEX : Z := Z.shiftl 1 1.
Definition CHANNEL_INIT_READ_CV : Z := Z.shiftl 1 2.

(** The functions that [init] stores in the channel. *)
Inductive lock_fn := LockSync | LockSpin | LockSingle | LockMutex.
Inductive read_fn := ReadSync | ReadBusy | ReadMutex.

#[export] Instance lock_fn_eq_dec : EqDecision lock_fn.
Proof. solve_decision. Defined.
#[export] Instance read_fn_eq_dec : EqDecision read_fn.
Proof. solve_decision. Defined.

(** [ch_write_mutex], [ch_read_mutex] and [ch_read_cv] tell whether the pointers
    are not NULL; [ch_lock] and [ch_rlock] are the owners of the write lock and
    of the read mutex. *)
Record muggle_channel := CH {
  ch_capacity : Z; ch_flags : Z; ch_init_flags : Z; fn_lock : lock_fn; fn_read : read_fn;
  write_cursor : Z; cached_r_cur : Z; read_cursor : Z;
  ch_lock : option nat; ch_rlock : option nat;
  ch_write_mutex : bool; ch_read_mutex : bool; ch_read_cv : bool;
  ch_blocks : option (list Z)
}.

Section Init.
Variable MUGGLE_C_HAVE_SYNC_OBJ : bool.

Definition muggle_channel_destroy (c : muggle_channel) : muggle_channel :=
  CH (ch_capacity c) (ch_flags c) (ch_init_flags c) (fn_lock c) (fn_read c) (write_cursor c) (cached_r_cur c) (read_cursor c)
    (ch_lock c) (ch_rlock c) false false false None.

(** Whether the memory of a mutex or condition variable is there, and what its
    initialisation returns: the error of the call and whether the pointer is
    set, or none. *)
Definition try_init (mem : bool) (ret : Z) : option Z :=
  if negb mem then Some MUGGLE_OK      (** [ret] is still 0 here *)
  else if negb (ret =? MUGGLE_OK) then Some ret else None.

(** The answers of [malloc] and of the initialisations: write mutex, read
    mutex, condition variable, blocks.  The result is what is returned and the
    channel; a failure goes through [channel_init_except]. *)
Definition muggle_channel_init (capacity flags : Z) (wm_mem : bool) (wm_ret : Z) (rm_mem : bool) (rm_ret : Z)
  (cv_mem : bool) (cv_ret : Z) (mem : bool) : Z * muggle_channel :=
  let zero := CH 0 0 0 LockMutex ReadMutex 0 0 0 None None false false false None in
  if capacity <=? 0 then (MUGGLE_ERR_INVALID_PARAM, zero)
  else
    let capacity := u32 (muggle_next_pow_of_2 capacity) in
    if capacity <=? 0 then (MUGGLE_ERR_INVALID_PARAM, zero)
    else
      let w_flags := Z.land flags MUGGLE_CHANNEL_FLAG_MASK_W in
      let r_flags := Z.land flags MUGGLE_CHANNEL_FLAG_MASK_R in
      let '(w_flags, r_flags, flags) :=
        if MUGGLE_C_HAVE_SYNC_OBJ then (w_flags, r_flags, flags)
        else
          let w := if w_flags =? MUGGLE_CHANNEL_FLAG_WRITE_SYNC then MUGGLE_CHANNEL_FLAG_WRITE_MUTEX else w_flags in
          let r := if r_flags =? MUGGLE_CHANNEL_FLAG_READ_SYNC then MUGGLE_CHANNEL_FLAG_READ_MUTEX else r_flags in
          (w, r, Z.lor w r) in
      let lock :=
        if MUGGLE_C_HAVE_SYNC_OBJ && (w_flags =? MUGGLE_CHANNEL_FLAG_WRITE_SYNC) then LockSync
        else if w_flags =? MUGGLE_CHANNEL_FLAG_WRITE_SPIN then LockSpin
        else if w_flags =? MUGGLE_CHANNEL_FLAG_WRITE_SINGLE then LockSingle else LockMutex in
      let read :=
        if MUGGLE_C_HAVE_SYNC_OBJ && (r_flags =? MUGGLE_CHANNEL_FLAG_READ_SYNC) then ReadSync
        else if r_flags =? MUGGLE_CHANNEL_FLAG_READ_BUSY then ReadBusy else ReadMutex in
      let '(w_flags, flags) := match lock with
        | LockMutex => (MUGGLE_CHANNEL_FLAG_WRITE_MUTEX, Z.lor MUGGLE_CHANNEL_FLAG_WRITE_MUTEX r_flags)
        | _ => (w_flags, flags) end in
      let made flags init_flags wm rm cv b :=
        CH capacity flags init_flags lock read 0 (capacity - 1) (capacity - 1) None None wm rm cv b in
      let except ret c := (ret, muggle_channel_destroy c) in
      let wmutex := match lock with LockMutex => true | _ => false end in
      match if wmutex then try_init wm_mem wm_ret else None with
      | Some ret => except ret (made flags 0 false false false None)
      | None =>
          let init_flags := if wmutex then CHANNEL_INIT_WRITE_MUTEX else 0 in
          let flags := match read with ReadMutex => Z.lor w_flags MUGGLE_CHANNEL_FLAG_READ_MUTEX | _ => flags end in
          let rmutex := match read with ReadMutex => true | _ => false end in
          match if rmutex then try_init rm_mem rm_ret else None with
          | Some ret => except ret (made flags init_flags wmutex false false None)
          | None =>
              let init_flags := if rmutex then Z.lor init_flags CHANNEL_INIT_READ_MUTEX else init_flags in
              match if rmutex then try_init cv_mem cv_ret else None with
              | Some ret => except ret (made flags init_flags wmutex rmutex false None)
              | None =>
                  let init_flags := if rmutex then Z.lor init_flags CHANNEL_INIT_READ_CV else init_flags in
                  if mem then
                    (MUGGLE_OK, made flags init_flags wmutex rmutex rmutex (Some (replicate (Z.to_nat capacity) NULL)))
                  else except MUGGLE_ERR_MEM_ALLOC (made flags init_flags wmutex rmutex rmutex None)
              end
          end
      end.
End Init.

(** ** Threads *)

(** Where a thread is: [W] in [write] and [fn_write], [R] in [fn_read]; in the
    variants with a read mutex, [WMutex], [WMUnlock], [RMLock], [RMTest],
    [RMSleep] and [RMUnlock] are the mutex operations.  [RSleep] and [RMSleep]
    are in the kernel. *)
Inductive ch_pc :=
| WLock (data : Z) | WMutex (data : Z) | WTest (data : Z) | WLoad (data wpos : Z) | WStore (data wpos : Z)
| WMove (data wpos : Z) | WMUnlock (ret : Z) | WUnlock (ret : Z) | WWake | WRet (ret : Z)
| RStart | RTest (rpos : Z) | RTake (rpos : Z) | RMove (data rpos : Z) | RWait (rpos wpos : Z) | RSleep (rpos : Z)
| RMLock | RMTest | RMSleep | RMUnlock (data : Z) | RRet (data : Z).

Section Steps.
Implicit Types c : muggle_channel.

Definition set_write_cursor c x := CH (ch_capacity c) (ch_flags c) (ch_init_flags c) (fn_lock c) (fn_read c) x (cached_r_cur c)
  (read_cursor c) (ch_lock c) (ch_rlock c) (ch_write_mutex c) (ch_read_mutex c) (ch_read_cv c) (ch_blocks c).
Definition set_cached c x := CH (ch_capacity c) (ch_flags c) (ch_init_flags c) (fn_lock c) (fn_read c) (write_cursor c) x
  (read_cursor c) (ch_lock c) (ch_rlock c) (ch_write_mutex c) (ch_read_mutex c) (ch_read_cv c) (ch_blocks c).
Definition set_read_cursor c x := CH (ch_capacity c) (ch_flags c) (ch_init_flags c) (fn_lock c) (fn_read c) (write_cursor c)
  (cached_r_cur c) x (ch_lock c) (ch_rlock c) (ch_write_mutex c) (ch_read_mutex c) (ch_read_cv c) (ch_blocks c).
Definition set_lock c x := CH (ch_capacity c) (ch_flags c) (ch_init_flags c) (fn_lock c) (fn_read c) (write_cursor c)
  (cached_r_cur c) (read_cursor c) x (ch_rlock c) (ch_write_mutex c) (ch_read_mutex c) (ch_read_cv c) (ch_blocks c).
Definition set_rlock c x := CH (ch_capacity c) (ch_flags c) (ch_init_flags c) (fn_lock c) (fn_read c) (write_cursor c)
  (cached_r_cur c) (read_cursor c) (ch_lock c) x (ch_write_mutex c) (ch_read_mutex c) (ch_read_cv c) (ch_blocks c).
Definition set_blocks c x := CH (ch_capacity c) (ch_flags c) (ch_init_flags c) (fn_lock c) (fn_read c) (write_cursor c)
  (cached_r_cur c) (read_cursor c) (ch_lock c) (ch_rlock c) (ch_write_mutex c) (ch_read_mutex c) (ch_read_cv c) x.

(** [MUGGLE_IDX_IN_POW_OF_2_RING(cursor + 1, chan->capacity)]. *)
Definition next_pos c (cursor : Z) : Z := MUGGLE_IDX_IN_POW_OF_2_RING (u32 (cursor + 1)) (ch_capacity c).

(** [fn_lock]: a lock that is taken is tried again. *)
Definition channel_lock c (tid : nat) : option muggle_channel :=
  match fn_lock c with
  | LockSingle => Some c
  | _ => match ch_lock c with None => Some (set_lock c (Some tid)) | Some _ => None end
  end.
(** [fn_unlock]. *)
Definition channel_unlock c : muggle_channel :=
  match fn_lock c with LockSingle => c | _ => set_lock c None end.

(** What the three [fn_write] share: the message and then the cursor. *)
Definition store_block c (data : Z) : option muggle_channel :=
  b ← ch_blocks c; b' ← wr b (write_cursor c) data; Some (set_blocks c (Some b')).
Definition load_block c (rpos : Z) : option Z := b ← ch_blocks c; rd b rpos.

Definition muggle_channel_write_sync c (p : ch_pc) : option (muggle_channel * ch_pc) :=
  match p with
  | WTest d =>
      let rpos := read_cursor c in
      let wpos := next_pos c (write_cursor c) in
      Some (c, if wpos =? rpos then WUnlock MUGGLE_ERR_FULL else WStore d wpos)
  | WStore d wpos => c' ← store_block c d; Some (c', WMove d wpos)
  | WMove d wpos => Some (set_write_cursor c wpos, WUnlock MUGGLE_OK)
  | _ => None
  end.

Definition muggle_channel_read_sync c (p : ch_pc) : option (muggle_channel * ch_pc) :=
  match p with
  | RStart => Some (c, RTest (next_pos c (read_cursor c)))
  | RTest rpos =>
      let wpos := write_cursor c in
      Some (c, if negb (wpos =? rpos) then RTake rpos else RWait rpos wpos)
  | RTake rpos => data ← load_block c rpos; Some (c, RMove data rpos)
  | RMove data rpos => Some (set_read_cursor c rpos, RRet data)
  | RWait rpos wpos => Some (c, if write_cursor c =? wpos then RSleep rpos else RTest rpos)
  | _ => None
  end.

Definition muggle_channel_write_mutex c (tid : nat) (p : ch_pc) : option (muggle_channel * ch_pc) :=
  match p with
  | WMutex d => Some (match ch_rlock c with None => (set_rlock c (Some tid), WTest d) | Some _ => (c, WMutex d) end)
  | WTest d =>
      let wpos := next_pos c (write_cursor c) in
      Some (c, if wpos =? read_cursor c then WMUnlock MUGGLE_ERR_FULL else WStore d wpos)
  | WStore d wpos => c' ← store_block c d; Some (c', WMove d wpos)
  | WMove d wpos => Some (set_write_cursor c wpos, WMUnlock MUGGLE_OK)
  | WMUnlock ret => Some (set_rlock c None, WUnlock ret)
  | _ => None
  end.

(** [RMTest] computes the position again after every wait; the wait gives the
    mutex back, and takes it again at [RMLock]. *)
Definition muggle_channel_read_mutex c (tid : nat) (p : ch_pc) : option (muggle_channel * ch_pc) :=
  match p with
  | RStart => Some (c, RMLock)
  | RMLock => Some (match ch_rlock c with None => (set_rlock c (Some tid), RMTest) | Some _ => (c, RMLock) end)
  | RMTest =>
      let rpos := next_pos c (read_cursor c) in
      Some (if negb (rpos =? write_cursor c) then (c, RTake rpos) else (set_rlock c None, RMSleep))
  | RTake rpos => data ← load_block c rpos; Some (c, RMove data rpos)
  | RMove data rpos => Some (set_read_cursor c rpos, RMUnlock data)
  | RMUnlock data => Some (set_rlock c None, RRet data)
  | _ => None
  end.

Definition muggle_channel_write_busy c (p : ch_pc) : option (muggle_channel * ch_pc) :=
  match p with
  | WTest d =>
      let wpos := next_pos c (write_cursor c) in
      Some (c, if negb (wpos =? cached_r_cur c) then WStore d wpos else WLoad d wpos)
  | WLoad d wpos =>
      let c' := set_cached c (read_cursor c) in
      Some (c', if negb (wpos =? cached_r_cur c') then WStore d wpos else WUnlock MUGGLE_ERR_FULL)
  | WStore d wpos => c' ← store_block c d; Some (c', WMove d wpos)
  | WMove d wpos => Some (set_write_cursor c wpos, WUnlock MUGGLE_OK)
  | _ => None
  end.

Definition muggle_channel_read_busy c (p : ch_pc) : option (muggle_channel * ch_pc) :=
  match p with
  | RStart => Some (c, RTest (next_pos c (read_cursor c)))
  | RTest rpos => Some (c, if negb (write_cursor c =? rpos) then RTake rpos else RTest rpos)
  | RTake rpos => data ← load_block c rpos; Some (c, RMove data rpos)
  | RMove data rpos => Some (set_read_cursor c rpos, RRet data)
  | _ => None
  end.

(** [muggle_channel_write]: lock, [fn_write], unlock, and [fn_wake] on success
    (the step of [WWake] is below). *)
Definition muggle_channel_write c (tid : nat) (p : ch_pc) : option (muggle_channel * ch_pc) :=
  match p with
  | WLock d => Some (match channel_lock c tid with
      | Some c' => (c', match fn_read c with ReadMutex => WMutex d | _ => WTest d end)
      | None => (c, WLock d) end)
  | WUnlock ret => Some (channel_unlock c, if ret =? 0 then WWake else WRet ret)
  | _ => match fn_read c with
         | ReadSync => muggle_channel_write_sync c p
         | ReadMutex => muggle_channel_write_mutex c tid p
         | ReadBusy => muggle_channel_write_busy c p end
  end.

Definition muggle_channel_read c (tid : nat) (p : ch_pc) : option (muggle_channel * ch_pc) :=
  match fn_read c with
  | ReadSync => muggle_channel_read_sync c p
  | ReadMutex => muggle_channel_read_mutex c tid p
  | ReadBusy => muggle_channel_read_busy c p
  end.

Definition is_writer (p : ch_pc) : bool :=
  match p with
  | WLock _ | WMutex _ | WTest _ | WLoad _ _ | WStore _ _ | WMove _ _ | WMUnlock _ | WUnlock _ | WWake | WRet _ => true
  | _ => false
  end.

Definition channel_step c (tid : nat) (p : ch_pc) : option (muggle_channel * ch_pc) :=
  if is_writer p then muggle_channel_write c tid p else muggle_channel_read c tid p.

(** Where a reader that is woken goes on: [muggle_sync_wake_one] for those that
    wait for the cursor, [notify_one] for those that wait with the mutex. *)
Definition woken (r : read_fn) (p : ch_pc) : option ch_pc :=
  match r, p with
  | ReadSync, RSleep rpos => Some (RTest rpos)
  | ReadMutex, RMSleep => Some RMLock
  | _, _ => None
  end.
End Steps.

(** What was written and read, in order, is recorded with the threads. *)
Record ch_state := CS { chan : muggle_channel; ch_threads : gmap nat ch_pc; sent : list Z; received : list Z }.

Definition sends (p : ch_pc) : list Z := match p with WMove d _ => [d] | _ => [] end.
Definition receives (p : ch_pc) : list Z := match p with RMove d _ => [d] | _ => [] end.

(** Steps of the code of a thread. *)
Inductive ch_code : ch_state -> ch_state -> Prop :=
| ch_step c ts h k t p c' p' :
    ts !! t = Some p -> channel_step c t p = Some (c', p') ->
    ch_code (CS c ts h k) (CS c' (<[t := p']> ts) (h ++ sends p) (k ++ receives p))
| ch_wake c ts h k t t2 p2 p2' :
    ts !! t = Some WWake -> ts !! t2 = Some p2 -> woken (fn_read c) p2 = Some p2' ->
    ch_code (CS c ts h k) (CS c (<[t := WRet MUGGLE_OK]> (<[t2 := p2']> ts)) h k)
| ch_wake_nobody c ts h k t :
    ts !! t = Some WWake -> map_Forall (fun _ p => woken (fn_read c) p = None) ts ->
    ch_code (CS c ts h k) (CS c (<[t := WRet MUGGLE_OK]> ts) h k).

(** A call begins or returns to the caller, or a reader wakes up without a
    cause.  The users guarantee that there is one reader, and, without a write
    lock, one writer. *)
Inductive ch_env : ch_state -> ch_state -> Prop :=
| ch_call_write c ts h k t d :
    ts !! t = None -> (fn_lock c = LockSingle -> map_Forall (fun _ p => is_writer p = false) ts) ->
    ch_env (CS c ts h k) (CS c (<[t := WLock d]> ts) h k)
| ch_call_read c ts h k t :
    ts !! t = None -> map_Forall (fun _ p => is_writer p = true) ts ->
    ch_env (CS c ts h k) (CS c (<[t := RStart]> ts) h k)
| ch_return c ts h k t p :
    ts !! t = Some p -> (exists r, p = WRet r) \/ (exists d, p = RRet d) ->
    ch_env (CS c ts h k) (CS c (delete t ts) h k)
| ch_spurious c ts h k t p p' :
    ts !! t = Some p -> woken (fn_read c) p = Some p' ->
    ch_env (CS c ts h k) (CS c (<[t := p']> ts) h k).

Inductive ch_reach (c : muggle_channel) : ch_state -> Prop :=
| ch_init : ch_reach c (CS c ∅ [] [])
| ch_next s s' : ch_reach c s -> ch_code s s' \/ ch_env s s' -> ch_reach c s'.

(** ** The invariant *)

Section Invariant.
Implicit Types (c : muggle_channel) (h k : list Z).

(** How many messages fit: one place is lost to the reader and one to tell full
    from empty. *)
Definition usable c : Z := Z.max 0 (ch_capacity c - 2).

Record ring_ok c h k : Prop := {
  ro_cap : exists e, 0 <= e <= 31 /\ ch_capacity c = 2 ^ e;
  ro_write : write_cursor c = Z.of_nat (length h) mod ch_capacity c;
  ro_read : read_cursor c = (Z.of_nat (length k) - 1) mod ch_capacity c;
  ro_prefix : k `prefix_of` h;
  ro_room : Z.of_nat (length h) - Z.of_nat (length k) <= usable c;
  (* the writers have seen the messages [j - 1] and before taken *)
  ro_cached : fn_read c = ReadBusy -> exists j, 0 <= j <= Z.of_nat (length k) /\
    cached_r_cur c = (j - 1) mod ch_capacity c /\ Z.of_nat (length h) - j <= usable c;
  ro_blocks : exists b, ch_blocks c = Some b /\ Z.of_nat (length b) = ch_capacity c /\
    forall j d, (length k <= j)%nat -> h !! j = Some d -> rd b (Z.of_nat j mod ch_capacity c) = Some d
}.

(** What a thread knows at its place. *)
Definition local_ok c h k (p : ch_pc) : Prop :=
  let W := Z.of_nat (length h) in
  let R := Z.of_nat (length k) in
  let room wpos := wpos = (W + 1) mod ch_capacity c /\ W + 1 - R <= ch_capacity c - 2 /\
    (fn_read c = ReadBusy -> wpos <> cached_r_cur c) in
  match p with
  | WLoad _ wpos => fn_read c = ReadBusy /\ wpos = (W + 1) mod ch_capacity c
  | WStore _ wpos => room wpos
  | WMove d wpos => room wpos /\ load_block c (W mod ch_capacity c) = Some d
  | RTest rpos => fn_read c <> ReadMutex /\ rpos = R mod ch_capacity c
  | RTake rpos => rpos = R mod ch_capacity c /\ R < W
  | RMove d rpos => rpos = R mod ch_capacity c /\ h !! length k = Some d
  | RWait rpos wpos => fn_read c = ReadSync /\ rpos = R mod ch_capacity c /\ wpos = rpos
  | RSleep rpos => fn_read c = ReadSync /\ rpos = R mod ch_capacity c
  | WMutex _ | WMUnlock _ | RMLock | RMTest | RMSleep | RMUnlock _ => fn_read c = ReadMutex
  | _ => True
  end.

(** In the critical section of the write lock. *)
Definition critical (p : ch_pc) : bool :=
  match p with
  | WMutex _ | WTest _ | WLoad _ _ | WStore _ _ | WMove _ _ | WMUnlock _ | WUnlock _ => true
  | _ => false
  end.
Definition exclusive (l : lock_fn) (p : ch_pc) : bool :=
  match l with LockSingle => is_writer p | _ => critical p end.

(** Holds the read mutex. *)
Definition holds_rlock (r : read_fn) (p : ch_pc) : bool :=
  match r, p with
  | ReadMutex, (WTest _ | WStore _ _ | WMove _ _ | WMUnlock _ | RMTest | RTake _ | RMove _ _ | RMUnlock _) => true
  | _, _ => false
  end.

(** Will wake the reader. *)
Definition waking (p : ch_pc) : bool :=
  match p with WMUnlock r | WUnlock r => r =? MUGGLE_OK | WWake => true | _ => false end.

Definition asleep (p : ch_pc) : bool := match p with RSleep _ | RMSleep => true | _ => false end.

Record ch_inv (s : ch_state) : Prop := {
  ci_ring : ring_ok (chan s) (sent s) (received s);
  ci_local : forall t p, ch_threads s !! t = Some p -> local_ok (chan s) (sent s) (received s) p;
  ci_lock : forall t p, ch_threads s !! t = Some p -> fn_lock (chan s) <> LockSingle -> critical p = true ->
    ch_lock (chan s) = Some t;
  ci_exclusive : forall t1 t2 p1 p2, ch_threads s !! t1 = Some p1 -> ch_threads s !! t2 = Some p2 ->
    exclusive (fn_lock (chan s)) p1 = true -> exclusive (fn_lock (chan s)) p2 = true -> t1 = t2;
  ci_reader : forall t1 t2 p1 p2, ch_threads s !! t1 = Some p1 -> ch_threads s !! t2 = Some p2 ->
    is_writer p1 = false -> is_writer p2 = false -> t1 = t2;
  ci_rlock : forall t p, ch_threads s !! t = Some p -> holds_rlock (fn_read (chan s)) p = true ->
    ch_rlock (chan s) = Some t;
  (* no wake-up is lost *)
  ci_wake : forall t p, ch_threads s !! t = Some p -> asleep p = true ->
    (length (sent s) = length (received s)) \/ exists t' p', ch_threads s !! t' = Some p' /\ waking p' = true
}.

(** Thread [t] moves on from [p] to [p']. *)
Lemma ch_move c ts h k t p c' p' h' k' :
  ch_inv (CS c ts h k) -> ts !! t = Some p ->
  let others (P : nat -> ch_pc -> Prop) := forall t2 p2, t2 <> t -> ts !! t2 = Some p2 -> P t2 p2 in
  fn_lock c' = fn_lock c -> fn_read c' = fn_read c -> ring_ok c' h' k' -> local_ok c' h' k' p' ->
  others (fun _ p2 => local_ok c h k p2 -> local_ok c' h' k' p2) ->
  (fn_lock c = LockSingle \/ ch_lock c' = ch_lock c /\ (critical p' = true -> critical p = true) \/
   ch_lock c' = Some t /\ others (fun _ p2 => critical p2 = false) \/
   others (fun _ p2 => critical p2 = false) /\ critical p' = false) ->
  (exclusive (fn_lock c) p' = true -> exclusive (fn_lock c) p = true \/ others (fun _ p2 => exclusive (fn_lock c) p2 = false)) ->
  is_writer p' = is_writer p ->
  (ch_rlock c' = ch_rlock c /\ (holds_rlock (fn_read c) p' = true -> holds_rlock (fn_read c) p = true) \/
   ch_rlock c' = Some t /\ others (fun _ p2 => holds_rlock (fn_read c) p2 = false) \/
   others (fun _ p2 => holds_rlock (fn_read c) p2 = false) /\ holds_rlock (fn_read c) p' = false) ->
  (asleep p' = true -> length h' = length k') ->
  (waking p' = true \/ others (fun _ p2 => asleep p2 = false) \/ length h' = length h /\ waking p = false) ->
  (length k' = length k \/ others (fun _ p2 => asleep p2 = false)) ->
  ch_inv (CS c' (<[t := p']> ts) h' k').
Proof.
  intros HI Ht others El Er Hro Hl Hls Hlk Hex Hw Hrl Hsl Hwk Hk; split; simpl; rewrite ?El, ?Er; try done.
  - intros t2 p2 H2; upd; [done|]; eapply Hls; [done..|]; by apply (ci_local _ HI t2).
  - intros t2 p2 H2 Hn Hc; pose proof (ci_lock _ HI) as HL; simpl in HL; upd.
    + destruct Hlk as [E|[[E Hc']|[[E _]|[_ Hc']]]]; [done|rewrite E; by apply (HL _ p); auto|done|congruence].
    + destruct Hlk as [E|[[E H3]|[[E H3]|[H3 _]]]]; [done|rewrite E; by eapply HL|rewrite (H3 t2 p2) in Hc by done; done..].
  - intros t1 t2 p1 p2 H1 H2 E1 E2; pose proof (ci_exclusive _ HI) as HX; simpl in HX; upd; [done| | |by eapply HX].
    + destruct (Hex E2) as [E|H3]; [by eapply HX|rewrite (H3 t1 p1) in E1 by done; done].
    + destruct (Hex E1) as [E|H3]; [by eapply HX|rewrite (H3 t2 p2) in E2 by done; done].
  - intros t1 t2 p1 p2 H1 H2 E1 E2; pose proof (ci_reader _ HI) as HX; simpl in HX; upd; [done|..];
      rewrite ?Hw in *; by eapply HX.
  - intros t2 p2 H2 Hh; pose proof (ci_rlock _ HI) as HL; simpl in HL; upd.
    + destruct Hrl as [[E Hh']|[[E _]|[_ Hh']]]; [rewrite E; by apply (HL _ p); auto|done|congruence].
    + destruct Hrl as [[E H3]|[[E H3]|[H3 _]]]; [rewrite E; by eapply HL|rewrite (H3 t2 p2) in Hh by done; done..].
  - intros t2 p2 H2 Hs; upd; [left; auto|].
    destruct Hwk as [Hwk|[Hh|[Hh Hp]]]; [right; exists t, p'; by rewrite lookup_insert_eq|rewrite (Hh t2 p2) in Hs by done; done|].
    destruct Hk as [Hk|Hk]; [|rewrite (Hk t2 p2) in Hs by done; done].
    destruct (ci_wake _ HI t2 p2) as [He|(t' & q & Hq & Pq)]; [done..|left; simpl in He; lia|right].
    simpl in Hq; exists t', q; rewrite lookup_insert_ne; [done|]; intros ->; congruence.
Qed.

(** A step of the code that changes neither the ring nor the locks. *)
Lemma ch_quiet c ts h k t p p' : ch_inv (CS c ts h k) -> ts !! t = Some p -> local_ok c h k p' ->
  critical p' = critical p -> is_writer p' = is_writer p -> holds_rlock (fn_read c) p' = holds_rlock (fn_read c) p ->
  (asleep p' = true -> length h = length k) -> (waking p' = true \/ waking p = false) ->
  ch_inv (CS c (<[t := p']> ts) h k).
Proof.
  intros HI Ht Hl Hc Hw Hh Hs Hk; eapply ch_move; try done; [apply HI|..]; auto.
  - right; left; split; [done|]; congruence.
  - intros E; left; destruct (fn_lock c); simpl in *; congruence.
  - left; split; [done|]; congruence.
  - destruct Hk; [by left|right; auto].
Qed.
End Invariant.

Section Steps_ok.
Implicit Types (c : muggle_channel) (h k : list Z).

Lemma capacity_pos c h k : ring_ok c h k -> 0 < ch_capacity c.
Proof. intros H; destruct (ro_cap _ _ _ H) as (e & He & ->); lia. Qed.

Lemma next_pos_mod c h k n : ring_ok c h k -> next_pos c (n mod ch_capacity c) = (n + 1) mod ch_capacity c.
Proof.
  intros H; destruct (ro_cap _ _ _ H) as (e & He & E); unfold next_pos; rewrite E.
  assert (0 < 2 ^ e <= 2 ^ 31) by (split; [lia|apply Z.pow_le_mono_r; lia]).
  pose proof (Z.mod_pos_bound n (2 ^ e)); rewrite wrap_small by (unfold in_width; lia).
  by rewrite ring_idx_mod, Z.add_mod_idemp_l by lia.
Qed.

Lemma write_pos c h k : ring_ok c h k ->
  next_pos c (write_cursor c) = (Z.of_nat (length h) + 1) mod ch_capacity c.
Proof. intros H; rewrite (ro_write _ _ _ H); by eapply next_pos_mod. Qed.

Lemma read_pos c h k : ring_ok c h k -> next_pos c (read_cursor c) = Z.of_nat (length k) mod ch_capacity c.
Proof. intros H; rewrite (ro_read _ _ _ H); erewrite next_pos_mod by done; f_equal; lia. Qed.

Lemma received_le c h k : ring_ok c h k -> (length k <= length h)%nat.
Proof. intros H; by apply prefix_length, (ro_prefix _ _ _ H). Qed.

(** A writer that finds the place after its own not at the read cursor [j - 1]
    has room; one that finds it there has none. *)
Lemma not_full c h k j : ring_ok c h k -> 0 <= j <= Z.of_nat (length k) -> Z.of_nat (length h) - j <= usable c ->
  (Z.of_nat (length h) + 1) mod ch_capacity c <> (j - 1) mod ch_capacity c ->
  Z.of_nat (length h) + 1 - Z.of_nat (length k) <= ch_capacity c - 2 /\ Z.of_nat (length h) + 1 - j <= ch_capacity c - 2.
Proof.
  intros H Hj Hr Hne; pose proof (received_le _ _ _ H); pose proof (capacity_pos _ _ _ H) as Hc.
  assert (Z.of_nat (length h) + 1 - j <= ch_capacity c - 2); [|lia].
  unfold usable in Hr; destruct (Z.leb_spec (Z.of_nat (length h) + 1 - j) (ch_capacity c - 2)); [done|]; destruct Hne.
  destruct (decide (ch_capacity c = 1)) as [->|]; [by rewrite !Z.mod_1_r|].
  replace (Z.of_nat (length h) + 1) with (j - 1 + 1 * ch_capacity c) by lia; apply Z_mod_plus_full.
Qed.

Lemma is_full c h k : ring_ok c h k -> (Z.of_nat (length h) + 1) mod ch_capacity c = read_cursor c ->
  Z.of_nat (length h) - Z.of_nat (length k) = usable c.
Proof.
  intros H E; pose proof (received_le _ _ _ H); pose proof (capacity_pos _ _ _ H) as Hc; pose proof (ro_room _ _ _ H) as Hr.
  unfold usable in *; rewrite (ro_read _ _ _ H) in E.
  destruct (decide (ch_capacity c <= 2)) as [|]; [lia|].
  destruct (decide (Z.of_nat (length h) - Z.of_nat (length k) = ch_capacity c - 2)) as [|Hne]; [lia|].
  apply eq_sym, mod_window in E; lia.
Qed.

(** A reader that finds its place not at the write cursor has a message. *)
Lemma not_empty c h k : ring_ok c h k ->
  write_cursor c <> Z.of_nat (length k) mod ch_capacity c <-> Z.of_nat (length k) < Z.of_nat (length h).
Proof.
  intros H; pose proof (received_le _ _ _ H); pose proof (capacity_pos _ _ _ H) as Hc; pose proof (ro_room _ _ _ H) as Hr.
  unfold usable in Hr; rewrite (ro_write _ _ _ H); split.
  - intros Hne; destruct (decide (length k = length h)) as [E|]; [by rewrite E in Hne|lia].
  - intros Hlt E; apply eq_sym, mod_window in E; lia.
Qed.

(** Others than a thread in the critical section, or than the reader. *)
Lemma alone s t p : ch_inv s -> ch_threads s !! t = Some p -> critical p = true ->
  forall t2 p2, t2 <> t -> ch_threads s !! t2 = Some p2 -> critical p2 = false.
Proof.
  intros HI Ht Hc t2 p2 Hne H2; destruct (critical p2) eqn:E; [|done]; destruct Hne.
  apply (ci_exclusive _ HI t2 t p2 p); [done..| |]; destruct (fn_lock (chan s)); simpl; try done.
  - by destruct p2.
  - by destruct p.
Qed.

Lemma lone_reader s t p : ch_inv s -> ch_threads s !! t = Some p -> is_writer p = false ->
  forall t2 p2, t2 <> t -> ch_threads s !! t2 = Some p2 -> is_writer p2 = true.
Proof.
  intros HI Ht Hw t2 p2 Hne H2; destruct (is_writer p2) eqn:E; [done|]; destruct Hne; by eapply ci_reader.
Qed.

Lemma rlock_alone s t p : ch_inv s -> ch_threads s !! t = Some p -> holds_rlock (fn_read (chan s)) p = true ->
  forall t2 p2, t2 <> t -> ch_threads s !! t2 = Some p2 -> holds_rlock (fn_read (chan s)) p2 = false.
Proof.
  intros HI Ht Hh t2 p2 Hne H2; destruct (holds_rlock _ p2) eqn:E; [|done]; destruct Hne.
  pose proof (ci_rlock _ HI t p Ht Hh); pose proof (ci_rlock _ HI t2 p2 H2 E); congruence.
Qed.

(** The locks are not part of the ring. *)
Definition same_ring c c' : Prop :=
  ch_capacity c' = ch_capacity c /\ fn_read c' = fn_read c /\ fn_lock c' = fn_lock c /\ write_cursor c' = write_cursor c /\
  read_cursor c' = read_cursor c /\ cached_r_cur c' = cached_r_cur c /\ ch_blocks c' = ch_blocks c.

Lemma ring_same c c' h k : same_ring c c' -> ring_ok c h k -> ring_ok c' h k.
Proof.
  intros (E1 & E2 & E3 & E4 & E5 & E6 & E7) H; split; unfold usable; rewrite ?E1, ?E2, ?E4, ?E5, ?E6, ?E7; apply H.
Qed.

Lemma local_same c c' h k p : same_ring c c' -> local_ok c h k p -> local_ok c' h k p.
Proof.
  intros (E1 & E2 & E3 & E4 & E5 & E6 & E7); destruct p; simpl; unfold load_block; rewrite ?E1, ?E2, ?E6, ?E7; done.
Qed.

(** What those outside the critical section know stays true when a writer moves,
    and what the writers know when the reader does. *)
Lemma local_write c c' h h' k p : ch_capacity c' = ch_capacity c -> fn_read c' = fn_read c -> h `prefix_of` h' ->
  critical p = false -> local_ok c h k p -> local_ok c' h' k p.
Proof.
  intros E1 E2 Hh Hc; pose proof (prefix_length _ _ Hh); destruct p; simpl in *; try done; rewrite ?E1, ?E2; try done.
  - intros [? ?]; split; [done|lia].
  - intros [? Hk]; split; [done|]; by eapply prefix_lookup_Some.
Qed.

Lemma local_read c x h k d p : is_writer p = true ->
  local_ok c h k p -> local_ok (set_read_cursor c x) h (k ++ [d]) p.
Proof.
  intros Hw; destruct p; simpl in *; try done; rewrite length_app; simpl; intros; destruct_and?; split_and?; try done; lia.
Qed.

Lemma ring_store c h k d c' : ring_ok c h k -> Z.of_nat (length h) + 1 - Z.of_nat (length k) <= ch_capacity c - 2 ->
  store_block c d = Some c' ->
  ring_ok c' h k /\ load_block c' (Z.of_nat (length h) mod ch_capacity c) = Some d /\
  exists b, c' = set_blocks c (Some b).
Proof.
  intros H Hr Hs; pose proof (received_le _ _ _ H); unfold store_block in Hs.
  destruct (ro_blocks _ _ _ H) as (b & Eb & Hl & Hb); rewrite Eb in Hs; simpl in Hs.
  destruct (wr b (write_cursor c) d) as [b'|] eqn:Ew; simplify_eq/=; split; [|split; [|eauto]].
  - split; simpl; try apply H; exists b'; split; [done|]; split; [by rewrite (wr_length _ _ _ _ Ew)|].
    intros j x Hj Hx; rewrite (rd_wr_ne _ _ _ _ _ Ew); [by apply Hb|].
    rewrite (ro_write _ _ _ H); pose proof (lookup_lt_Some _ _ _ Hx); intros E; apply eq_sym, mod_window in E; lia.
  - unfold load_block; simpl; rewrite <- (ro_write _ _ _ H); by eapply rd_wr_eq.
Qed.

Lemma store_total c h k d : ring_ok c h k -> is_Some (store_block c d).
Proof.
  intros H; destruct (ro_blocks _ _ _ H) as (b & Eb & Hl & _); unfold store_block; rewrite Eb; simpl.
  rewrite wr_Some; [by eexists|]; rewrite Hl, (ro_write _ _ _ H); apply Z.mod_pos_bound; by eapply capacity_pos.
Qed.

Lemma load_next c h k : ring_ok c h k -> (length k < length h)%nat ->
  exists d, h !! length k = Some d /\ load_block c (Z.of_nat (length k) mod ch_capacity c) = Some d.
Proof.
  intros H Hlt; destruct (lookup_lt_is_Some_2 h (length k) Hlt) as [d Hd]; exists d; split; [done|].
  destruct (ro_blocks _ _ _ H) as (b & Eb & Hl & Hb); unfold load_block; rewrite Eb; simpl; by apply Hb.
Qed.

Lemma ring_send c h k d wpos : ring_ok c h k -> local_ok c h k (WMove d wpos) ->
  ring_ok (set_write_cursor c wpos) (h ++ [d]) k.
Proof.
  intros H ((-> & Hr & Hne) & Hd); pose proof (received_le _ _ _ H); pose proof (capacity_pos _ _ _ H).
  split; simpl; try apply H; rewrite ?length_app; simpl.
  - f_equal; lia.
  - by apply prefix_app_r, (ro_prefix _ _ _ H).
  - unfold usable; simpl; lia.
  - intros Eb; destruct (ro_cached _ _ _ H Eb) as (j & Hj & Ej & Hu); exists j; split; [done|]; split; [done|].
    specialize (Hne Eb); rewrite Ej in Hne; pose proof (not_full c h k j H Hj Hu Hne); unfold usable; simpl; lia.
  - destruct (ro_blocks _ _ _ H) as (b & Eb & Hl & Hb); exists b; split; [done|]; split; [done|].
    intros j x Hj [[Hlt Hx]|[-> <-]]%lookup_snoc_Some; [by apply Hb|].
    unfold load_block in Hd; by rewrite Eb in Hd.
Qed.

Lemma ring_receive c h k d rpos : ring_ok c h k -> local_ok c h k (RMove d rpos) ->
  ring_ok (set_read_cursor c rpos) h (k ++ [d]).
Proof.
  intros H (-> & Hd); pose proof (received_le _ _ _ H); pose proof (ro_room _ _ _ H).
  split; simpl; try apply H; rewrite ?length_app; simpl.
  - f_equal; lia.
  - destruct (ro_prefix _ _ _ H) as [l ->]; rewrite lookup_app_r, Nat.sub_diag in Hd by lia.
    destruct l as [|x l]; simplify_eq/=; exists l; by rewrite <- app_assoc.
  - unfold usable in *; simpl; lia.
  - intros Eb; destruct (ro_cached _ _ _ H Eb) as (j & Hj & Ej & Hu); exists j; split; [lia|done].
  - destruct (ro_blocks _ _ _ H) as (b & Eb & Hl & Hb); exists b; split; [done|]; split; [done|].
    intros j x Hj; rewrite ?length_app in Hj; simpl in Hj; apply Hb; lia.
Qed.

Lemma ring_cached c h k : ring_ok c h k -> ring_ok (set_cached c (read_cursor c)) h k.
Proof.
  intros H; split; simpl; try apply H; intros _; exists (Z.of_nat (length k)); split; [lia|].
  split; [apply (ro_read _ _ _ H)|apply (ro_room _ _ _ H)].
Qed.
End Steps_ok.

(** ** The invariant is kept *)

Section Preservation.
Context (c : muggle_channel) (ts : gmap nat ch_pc) (h k : list Z) (t : nat).
Context (HI : ch_inv (CS c ts h k)).
Let Hro : ring_ok c h k := ci_ring _ HI.

Lemma same_set_lock x : same_ring c (set_lock c x).
Proof. done. Qed.
Lemma same_set_rlock x : same_ring c (set_rlock c x).
Proof. done. Qed.

(** A writer inside the critical section goes on inside it. *)
Lemma inv_critical p c' p' h' : ts !! t = Some p -> critical p = true -> critical p' = true ->
  ch_capacity c' = ch_capacity c -> fn_lock c' = fn_lock c -> fn_read c' = fn_read c ->
  ch_lock c' = ch_lock c -> ch_rlock c' = ch_rlock c -> ring_ok c' h' k -> local_ok c' h' k p' -> h `prefix_of` h' ->
  holds_rlock (fn_read c) p' = holds_rlock (fn_read c) p ->
  waking p' = true \/ length h' = length h /\ waking p = false ->
  ch_inv (CS c' (<[t := p']> ts) h' k).
Proof.
  intros Ht Hc Hc' Ecap El Er Ek Erk Hro' Hl Hh Hr Hw.
  eapply ch_move; try done; auto.
  - intros t2 p2 Hne H2; apply local_write; try done; by eapply (alone _ t p HI).
  - intros E; left; destruct (fn_lock c); simpl in *; [done|done|by destruct p|done].
  - by destruct p', p.
  - left; split; [done|]; congruence.
  - by destruct p'.
  - destruct Hw as [|[]]; auto.
Qed.

Lemma inv_lock d c' : ts !! t = Some (WLock d) -> channel_lock c t = Some c' ->
  ch_inv (CS c' (<[t := match fn_read c with ReadMutex => WMutex d | _ => WTest d end]> ts) h k).
Proof.
  intros Ht Hl; unfold channel_lock in Hl.
  set (p' := match fn_read c with ReadMutex => WMutex d | _ => WTest d end).
  assert (same_ring c c') as Hs.
  { destruct (fn_lock c), (ch_lock c); simplify_eq; done. }
  assert (fn_lock c = LockSingle \/ ch_lock c' = Some t /\ forall t2 p2, t2 <> t -> ts !! t2 = Some p2 -> critical p2 = false) as Hf.
  { destruct (decide (fn_lock c = LockSingle)) as [|Hne]; [by left|right].
    assert (ch_lock c = None /\ c' = set_lock c (Some t)) as [E ->].
    { by destruct (fn_lock c), (ch_lock c); simplify_eq. }
    split; [done|]; intros t2 p2 Ht2 H2; destruct (critical p2) eqn:Ec; [|done].
    pose proof (ci_lock _ HI t2 p2 H2 Hne Ec) as E2; simpl in E2; congruence. }
  assert (ch_rlock c' = ch_rlock c) as Erl by (destruct (fn_lock c), (ch_lock c); simplify_eq; done).
  pose proof Hs as (E1 & E2 & E3 & _).
  eapply ch_move; try done.
  - by eapply ring_same.
  - apply (local_same c); [done|]; unfold p'; by destruct (fn_read c) eqn:E.
  - intros t2 p2 _ _; by apply local_same.
  - tauto.
  - intros Ex; destruct Hf as [->|[_ Hf]]; [by left|]; destruct (fn_lock c); auto.
  - unfold p'; by destruct (fn_read c).
  - left; split; [done|]; unfold p'; by destruct (fn_read c).
  - unfold p'; by destruct (fn_read c).
  - right; auto.
  - by left.
Qed.

Lemma inv_unlock ret : ts !! t = Some (WUnlock ret) ->
  ch_inv (CS (channel_unlock c) (<[t := if ret =? 0 then WWake else WRet ret]> ts) h k).
Proof.
  intros Ht; assert (same_ring c (channel_unlock c)) as Hs by (unfold channel_unlock; by destruct (fn_lock c)).
  pose proof Hs as (_ & E2 & E3 & _); set (p' := if ret =? 0 then WWake else WRet ret).
  eapply ch_move; try done.
  - by eapply ring_same.
  - unfold p'; by destruct (ret =? 0).
  - intros t2 p2 _ _; by apply local_same.
  - right; right; right; split; [intros; by eapply (alone _ t _ HI)|unfold p'; by destruct (ret =? 0)].
  - intros _; left; by destruct (fn_lock c).
  - unfold p'; by destruct (ret =? 0).
  - left; split; [unfold channel_unlock; by destruct (fn_lock c)|]; unfold p'; by destruct (fn_read c), (ret =? 0).
  - unfold p'; by destruct (ret =? 0).
  - unfold p'; simpl; destruct (ret =? 0) eqn:E; [by left|right; auto].
  - by left.
Qed.

Lemma full_room :
  next_pos c (write_cursor c) <> read_cursor c ->
  next_pos c (write_cursor c) = (Z.of_nat (length h) + 1) mod ch_capacity c /\
  Z.of_nat (length h) + 1 - Z.of_nat (length k) <= ch_capacity c - 2.
Proof.
  intros Hne; pose proof (write_pos _ _ _ Hro) as E; split; [done|].
  rewrite E, (ro_read _ _ _ Hro) in Hne; eapply (not_full c h k (Z.of_nat (length k))); try done; [lia|apply Hro].
Qed.

Lemma inv_store d wpos c' : ts !! t = Some (WStore d wpos) -> store_block c d = Some c' ->
  ch_inv (CS c' (<[t := WMove d wpos]> ts) h k).
Proof.
  intros Ht Hs; pose proof (ci_local _ HI t _ Ht) as (Ew & Hr & Hb); simpl in *.
  destruct (ring_store c h k d c' Hro Hr Hs) as (Hro' & Hd & b & ->).
  eapply (inv_critical (WStore d wpos)); try done; by right.
Qed.

Lemma inv_send d wpos p' : ts !! t = Some (WMove d wpos) ->
  p' = match fn_read c with ReadMutex => WMUnlock MUGGLE_OK | _ => WUnlock MUGGLE_OK end ->
  ch_inv (CS (set_write_cursor c wpos) (<[t := p']> ts) (h ++ [d]) k).
Proof.
  intros Ht ->; pose proof (ci_local _ HI t _ Ht) as Hl.
  eapply (inv_critical (WMove d wpos)); try done.
  - by destruct (fn_read c).
  - by apply ring_send.
  - by destruct (fn_read c) eqn:E.
  - by apply prefix_app_r.
  - by destruct (fn_read c).
  - left; by destruct (fn_read c).
Qed.

Lemma inv_wmutex d : ts !! t = Some (WMutex d) -> fn_read c = ReadMutex -> ch_rlock c = None ->
  ch_inv (CS (set_rlock c (Some t)) (<[t := WTest d]> ts) h k).
Proof.
  intros Ht Er E; eapply ch_move; try done.
  - by apply (ring_same c).
  - right; by left.
  - intros _; left; destruct (fn_lock c); done.
  - right; left; split; [done|]; intros t2 p2 _ H2; destruct (holds_rlock _ p2) eqn:Eh; [|done].
    pose proof (ci_rlock _ HI t2 p2 H2 Eh); simpl in *; congruence.
  - right; auto.
  - by left.
Qed.

Lemma inv_wmunlock ret : ts !! t = Some (WMUnlock ret) ->
  ch_inv (CS (set_rlock c None) (<[t := WUnlock ret]> ts) h k).
Proof.
  intros Ht; pose proof (ci_local _ HI t _ Ht) as Er; simpl in Er; eapply ch_move; try done.
  - by apply (ring_same c).
  - right; by left.
  - intros _; left; destruct (fn_lock c); done.
  - right; right; split; [|by rewrite Er]; intros t2 p2 Hne H2; eapply (rlock_alone _ t _ HI); try done; simpl; by rewrite Er.
  - simpl; destruct (ret =? MUGGLE_OK) eqn:E; auto.
  - by left.
Qed.

Lemma inv_cached d wpos : ts !! t = Some (WLoad d wpos) -> fn_read c = ReadBusy ->
  ch_inv (CS (set_cached c (read_cursor c))
    (<[t := if negb (wpos =? read_cursor c) then WStore d wpos else WUnlock MUGGLE_ERR_FULL]> ts) h k).
Proof.
  intros Ht Eb; pose proof (ci_local _ HI t _ Ht) as [_ ->]; simpl.
  pose proof (write_pos _ _ _ Hro) as Ew; pose proof full_room as Hf; rewrite Ew in Hf.
  set (p' := if negb _ then _ else _); eapply (inv_critical (WLoad d _)); try done.
  - unfold p'; by destruct (_ =? _).
  - by apply ring_cached.
  - unfold p'; destruct (Z.eqb_spec ((Z.of_nat (length h) + 1) mod ch_capacity c) (read_cursor c)) as [|Hne]; simpl; [done|].
    split_and!; try done; apply Hf; done.
  - unfold p'; simpl; rewrite Eb; done.
  - right; done.
Qed.

Lemma inv_write p c' p' : ts !! t = Some p -> is_writer p = true -> muggle_channel_write c t p = Some (c', p') ->
  ch_inv (CS c' (<[t := p']> ts) (h ++ sends p) (k ++ receives p)).
Proof.
  intros Ht Hw Hs; pose proof (write_pos _ _ _ Hro) as Ew; pose proof full_room as Hf; rewrite Ew in Hf.
  pose proof (ci_local _ HI t _ Ht) as Hl; simpl in Hl.
  destruct p; try done; cbn [sends receives]; rewrite ?app_nil_r; cbn [muggle_channel_write] in Hs.
  - destruct (channel_lock c t) as [c1|] eqn:El; simplify_eq; [by eapply inv_lock|].
    eapply ch_quiet; try done; [auto..].
  - simpl in Hl; rewrite Hl in Hs; simpl in Hs; destruct (ch_rlock c) eqn:El; simplify_eq; [eapply ch_quiet; try done; auto|].
    by apply (inv_wmutex data).
  - assert (c' = c /\ (p' = WUnlock MUGGLE_ERR_FULL /\ fn_read c <> ReadMutex \/ p' = WMUnlock MUGGLE_ERR_FULL /\ fn_read c = ReadMutex \/
      p' = WStore data (next_pos c (write_cursor c)) /\ local_ok c h k p' \/
      p' = WLoad data (next_pos c (write_cursor c)) /\ local_ok c h k p')) as [-> Hp'].
    { rewrite Ew; destruct (fn_read c) eqn:Er; cbn in Hs; rewrite Ew in Hs; injection Hs as <- <-; split; try done.
      - destruct (Z.eqb_spec ((Z.of_nat (length h) + 1) mod ch_capacity c) (read_cursor c)) as [|Hne]; [by left|].
        right; right; left; split; [done|]; simpl; rewrite Er; split_and!; try done; by apply Hf.
      - destruct (Z.eqb_spec ((Z.of_nat (length h) + 1) mod ch_capacity c) (cached_r_cur c)) as [|Hne]; simpl.
        + right; right; right; split; [done|]; by rewrite Er.
        + right; right; left; split; [done|]; split_and!; try done.
          destruct (ro_cached _ _ _ Hro Er) as (j & Hj & Ej & Hu); rewrite Ej in Hne.
          by apply (not_full c h k j).
      - destruct (Z.eqb_spec ((Z.of_nat (length h) + 1) mod ch_capacity c) (read_cursor c)) as [|Hne]; [by right; left|].
        right; right; left; split; [done|]; simpl; rewrite Er; split_and!; try done; by apply Hf. }
    destruct Hp' as [[-> Er]|[[-> Er]|[[-> Hl']|[-> Hl']]]]; eapply ch_quiet; try done; simpl; auto.
    + by destruct (fn_read c).
    + by destruct Hl' as [-> _].
  - simpl in Hl; destruct Hl as [Er _]; rewrite Er in Hs; cbn in Hs; simplify_eq; by apply inv_cached.
  - assert (exists c1, store_block c data = Some c1 /\ c' = c1 /\ p' = WMove data wpos) as (c1 & E1 & -> & ->).
    { destruct (fn_read c); cbn in Hs; destruct (store_block c data); simplify_eq/=; eauto. }
    by eapply inv_store.
  - assert (c' = set_write_cursor c wpos /\ p' = match fn_read c with ReadMutex => WMUnlock MUGGLE_OK | _ => WUnlock MUGGLE_OK end) as [-> ->].
    { destruct (fn_read c); cbn in Hs; simplify_eq; done. }
    by eapply inv_send.
  - simpl in Hl; rewrite Hl in Hs; cbn in Hs; simplify_eq; by apply inv_wmunlock.
  - simplify_eq; by apply inv_unlock.
  - destruct (fn_read c); done.
  - destruct (fn_read c); done.
Qed.

(** The reader goes on, and is not asleep with a message. *)
Lemma inv_reader p c' p' : ts !! t = Some p -> is_writer p = false -> is_writer p' = false ->
  same_ring c c' -> ch_lock c' = ch_lock c -> local_ok c h k p' ->
  (ch_rlock c' = ch_rlock c /\ (holds_rlock (fn_read c) p' = true -> holds_rlock (fn_read c) p = true) \/
   ch_rlock c' = Some t /\ ch_rlock c = None \/
   holds_rlock (fn_read c) p = true /\ holds_rlock (fn_read c) p' = false) ->
  (asleep p' = true -> length h = length k) ->
  ch_inv (CS c' (<[t := p']> ts) h k).
Proof.
  intros Ht Hp Hp' Hs El Hl Hrl Ha; pose proof Hs as (_ & E2 & E3 & _).
  assert (critical p' = false) as Hc' by (by destruct p').
  eapply ch_move; try done.
  - by apply (ring_same c).
  - by apply (local_same c).
  - intros t2 p2 _ _; by apply local_same.
  - right; left; split; [done|]; congruence.
  - intros Hx; by destruct (fn_lock c), p'.
  - congruence.
  - destruct Hrl as [H|[[H1 H2]|[H1 H2]]]; [by left|right; left|right; right].
    + split; [done|]; intros t2 p2 _ Ht2; destruct (holds_rlock _ p2) eqn:Eh; [|done].
      pose proof (ci_rlock _ HI t2 p2 Ht2 Eh); simpl in *; congruence.
    + split; [|done]; intros t2 p2 Hne Ht2; by eapply (rlock_alone _ t _ HI).
  - right; right; split; [done|by destruct p].
  - by left.
Qed.

Lemma inv_receive d rpos p' : ts !! t = Some (RMove d rpos) ->
  p' = match fn_read c with ReadMutex => RMUnlock d | _ => RRet d end ->
  ch_inv (CS (set_read_cursor c rpos) (<[t := p']> ts) h (k ++ [d])).
Proof.
  intros Ht ->; pose proof (ci_local _ HI t _ Ht) as Hl; pose proof (lone_reader _ t _ HI Ht eq_refl) as Hw.
  assert (forall t2 p2, t2 <> t -> ts !! t2 = Some p2 -> asleep p2 = false) as Ha.
  { intros t2 p2 Hne H2; specialize (Hw t2 p2 Hne H2); by destruct p2. }
  eapply ch_move; try done.
  - by apply ring_receive.
  - by destruct (fn_read c) eqn:E.
  - intros t2 p2 Hne H2; apply local_read; by eapply Hw.
  - right; left; split; [done|]; by destruct (fn_read c).
  - by destruct (fn_read c), (fn_lock c).
  - by destruct (fn_read c).
  - left; split; [done|]; by destruct (fn_read c).
  - by destruct (fn_read c).
  - right; auto.
  - by right.
Qed.

Lemma inv_read p c' p' : ts !! t = Some p -> is_writer p = false -> muggle_channel_read c t p = Some (c', p') ->
  ch_inv (CS c' (<[t := p']> ts) (h ++ sends p) (k ++ receives p)).
Proof.
  intros Ht Hw Hs; pose proof (read_pos _ _ _ Hro) as Er; pose proof (not_empty _ _ _ Hro) as Hne.
  pose proof (ci_local _ HI t _ Ht) as Hl; simpl in Hl; unfold muggle_channel_read in Hs.
  destruct p; try done; cbn [sends receives]; rewrite ?app_nil_r.
  - assert (c' = c /\ local_ok c h k p' /\ is_writer p' = false /\ asleep p' = false /\ holds_rlock (fn_read c) p' = false)
      as (-> & Hl' & Hw' & Ha & Hh).
    { destruct (fn_read c) eqn:E; cbn in Hs; rewrite ?Er in Hs; injection Hs as <- <-; simpl; rewrite ?E; done. }
    apply (inv_reader RStart); try done; [left; split; [done|]; congruence|congruence].
  - simpl in Hl; destruct Hl as [Hm ->].
    assert (c' = c /\ local_ok c h k p' /\ is_writer p' = false /\ asleep p' = false /\ holds_rlock (fn_read c) p' = false)
      as (-> & Hl' & Hw' & Ha & Hh).
    { destruct (fn_read c) eqn:E; [| |done]; cbn in Hs; injection Hs as <- <-; (split; [done|]);
        destruct (Z.eqb_spec (write_cursor c) (Z.of_nat (length k) mod ch_capacity c)) as [|Hx]; simpl; rewrite ?E;
        split_and!; try done; by apply Hne. }
    eapply inv_reader; try done; [left; split; [done|]; congruence|congruence].
  - simpl in Hl; destruct Hl as [-> Hlt]; destruct (load_next c h k Hro) as (d & Hd & Eb); [lia|].
    assert (c' = c /\ p' = RMove d (Z.of_nat (length k) mod ch_capacity c)) as [-> ->].
    { destruct (fn_read c); cbn in Hs; rewrite Eb in Hs; simplify_eq/=; done. }
    eapply inv_reader; try done; left; split; [done|]; by destruct (fn_read c).
  - assert (c' = set_read_cursor c rpos /\ p' = match fn_read c with ReadMutex => RMUnlock data | _ => RRet data end) as [-> ->].
    { destruct (fn_read c); cbn in Hs; simplify_eq; done. }
    by apply (inv_receive data).
  - simpl in Hl; destruct Hl as (E & -> & ->); rewrite E in Hs; cbn in Hs; injection Hs as <- <-.
    destruct (Z.eqb_spec (write_cursor c) (Z.of_nat (length k) mod ch_capacity c)) as [Hx|Hx].
    + eapply inv_reader; try done; [left; split; [done|]; by rewrite E|].
      intros _; destruct (decide (length h = length k)); [done|]; pose proof (received_le _ _ _ Hro); destruct (proj2 Hne); [lia|done].
    + eapply inv_reader; try done; [split; [congruence|done]|left; split; [done|]; by rewrite E].
  - by destruct (fn_read c).
  - simpl in Hl; rewrite Hl in Hs; cbn in Hs; destruct (ch_rlock c) eqn:E; injection Hs as <- <-.
    + eapply inv_reader; try done; by left.
    + eapply inv_reader; try done; by right; left.
  - simpl in Hl; rewrite Hl in Hs; cbn in Hs; rewrite Er in Hs.
    destruct (Z.eqb_spec (Z.of_nat (length k) mod ch_capacity c) (write_cursor c)) as [Hx|Hx]; injection Hs as <- <-.
    + eapply inv_reader; try done; [right; right; by rewrite Hl|].
      intros _; destruct (decide (length h = length k)); [done|]; pose proof (received_le _ _ _ Hro); destruct (proj2 Hne); [lia|done].
    + eapply inv_reader; try done; [split; [done|]; by apply Hne|]; left; by rewrite Hl.
  - by destruct (fn_read c).
  - simpl in Hl; rewrite Hl in Hs; cbn in Hs; injection Hs as <- <-.
    eapply inv_reader; try done; right; right; by rewrite Hl.
  - by destruct (fn_read c).
Qed.

Lemma woken_asleep p : local_ok c h k p -> asleep p = true -> is_Some (woken (fn_read c) p).
Proof. destruct p; simpl; try done; [intros [-> _]|intros ->]; by eexists. Qed.

(** A reader that wakes up tests again. *)
Lemma inv_reader_woken p p' : ts !! t = Some p -> woken (fn_read c) p = Some p' -> ch_inv (CS c (<[t := p']> ts) h k).
Proof.
  intros Ht Hw; pose proof (ci_local _ HI t _ Ht) as Hl.
  assert (is_writer p = false /\ is_writer p' = false /\ asleep p' = false /\ local_ok c h k p' /\ holds_rlock (fn_read c) p' = false)
    as (H1 & H2 & H3 & H4 & H5).
  { destruct (fn_read c) eqn:E, p; simplify_eq/=; rewrite ?E; split_and!; try done; by destruct Hl. }
  eapply inv_reader; try done; [left; split; [done|]|]; congruence.
Qed.

(** The wake of a writer is done when nobody is asleep. *)
Lemma inv_woke : ts !! t = Some WWake -> (forall t2 p2, ts !! t2 = Some p2 -> asleep p2 = false) ->
  ch_inv (CS c (<[t := WRet MUGGLE_OK]> ts) h k).
Proof.
  intros Ht Ha; eapply ch_move; try done; try apply HI; auto.
  - right; left; eauto.
Qed.
End Preservation.

Lemma ch_inv_code s s' : ch_inv s -> ch_code s s' -> ch_inv s'.
Proof.
  intros HI Hs; destruct Hs as [c ts h k t p c' p' Ht Hs|c ts h k t t2 p2 p2' Ht H2 Hw|c ts h k t Ht Hn].
  - unfold channel_step in Hs; destruct (is_writer p) eqn:E; [by eapply inv_write|by eapply inv_read].
  - assert (t2 <> t) as Hne by (intros ->; rewrite Ht in H2; simplify_eq; by destruct (fn_read c)).
    assert (is_writer p2 = false /\ asleep p2' = false) as [Hr Ha] by (destruct (fn_read c), p2; simplify_eq/=; done).
    apply inv_woke; [by eapply inv_reader_woken|by rewrite lookup_insert_ne|].
    intros t3 p3 H3; upd; [done|]; pose proof (lone_reader _ t2 p2 HI H2 Hr t3 p3 ltac:(done) H3); by destruct p3.
  - apply inv_woke; [done|done|]; intros t2 p2 H2; destruct (asleep p2) eqn:E; [|done].
    destruct (woken_asleep c h k p2 (ci_local _ HI t2 _ H2) E) as [x Hx]; rewrite (Hn t2 p2 H2) in Hx; done.
Qed.

(** A call begins. *)
Lemma inv_enter c ts h k t p : ch_inv (CS c ts h k) -> ts !! t = None -> (exists d, p = WLock d) \/ p = RStart ->
  (exclusive (fn_lock c) p = true -> forall t2 p2, ts !! t2 = Some p2 -> exclusive (fn_lock c) p2 = false) ->
  (is_writer p = false -> forall t2 p2, ts !! t2 = Some p2 -> is_writer p2 = true) ->
  ch_inv (CS c (<[t := p]> ts) h k).
Proof.
  intros HI Ht Hp Hex Hrd.
  assert (local_ok c h k p /\ critical p = false /\ holds_rlock (fn_read c) p = false /\ asleep p = false) as (H1 & H2 & H3 & H4)
    by (destruct Hp as [[d ->]| ->]; by destruct (fn_read c)).
  split; simpl; try apply HI.
  - intros t2 p2 Hp2; upd; [done|]; by eapply (ci_local _ HI).
  - intros t2 p2 Hp2; upd; [congruence|]; by eapply (ci_lock _ HI).
  - intros t1 t2 p1 p2 Hp1 Hp2 E1 E2; upd; [done| | |by eapply (ci_exclusive _ HI)].
    + rewrite (Hex E2 _ _ Hp1) in E1; done.
    + rewrite (Hex E1 _ _ Hp2) in E2; done.
  - intros t1 t2 p1 p2 Hp1 Hp2 E1 E2; upd; [done| | |by eapply (ci_reader _ HI)].
    + rewrite (Hrd E2 _ _ Hp1) in E1; done.
    + rewrite (Hrd E1 _ _ Hp2) in E2; done.
  - intros t2 p2 Hp2; upd; [congruence|]; by eapply (ci_rlock _ HI).
  - intros t2 p2 Hp2 Ha; upd; [congruence|]; destruct (ci_wake _ HI t2 p2 Hp2 Ha) as [|(t' & q & Hq & Pq)]; [by left|].
    right; simpl in Hq; exists t', q; rewrite lookup_insert_ne; [done|]; intros ->; congruence.
Qed.

(** A call has returned. *)
Lemma inv_leave c ts h k t p : ch_inv (CS c ts h k) -> ts !! t = Some p -> waking p = false ->
  ch_inv (CS c (delete t ts) h k).
Proof.
  intros HI Ht Hw; split; simpl; try apply HI.
  - intros t2 p2 [_ Hp2]%lookup_delete_Some; by eapply (ci_local _ HI).
  - intros t2 p2 [_ Hp2]%lookup_delete_Some; by eapply (ci_lock _ HI).
  - intros t1 t2 p1 p2 [_ Hp1]%lookup_delete_Some [_ Hp2]%lookup_delete_Some; by eapply (ci_exclusive _ HI).
  - intros t1 t2 p1 p2 [_ Hp1]%lookup_delete_Some [_ Hp2]%lookup_delete_Some; by eapply (ci_reader _ HI).
  - intros t2 p2 [_ Hp2]%lookup_delete_Some; by eapply (ci_rlock _ HI).
  - intros t2 p2 [_ Hp2]%lookup_delete_Some Ha; destruct (ci_wake _ HI t2 p2 Hp2 Ha) as [|(t' & q & Hq & Pq)]; [by left|].
    right; simpl in Hq; exists t', q; rewrite lookup_delete_ne; [done|]; intros ->; congruence.
Qed.

Lemma ch_inv_env s s' : ch_inv s -> ch_env s s' -> ch_inv s'.
Proof.
  intros HI Hs; destruct Hs as [c ts h k t d Ht Hone|c ts h k t Ht Hone|c ts h k t p Ht Hp|c ts h k t p p' Ht Hw].
  - apply inv_enter; [done|done|by left; eexists| |done].
    intros Hx t2 p2 H2; destruct (fn_lock c); try done; simpl; by eapply Hone.
  - apply inv_enter; [done|done|by right|by destruct (fn_lock c)|]; intros _ t2 p2 H2; by eapply Hone.
  - eapply inv_leave; try done; by destruct Hp as [[r ->]|[d ->]].
  - by eapply inv_reader_woken.
Qed.

Lemma ch_reach_inv c s : ring_ok c [] [] -> ch_reach c s -> ch_inv s.
Proof.
  intros H0; induction 1 as [|s s' _ IH [Hs|Hs]]; [by split; simpl|by eapply ch_inv_code|by eapply ch_inv_env].
Qed.

(** ** Every access has a meaning *)

(** The function has done its work, or only the system can go on. *)
Definition steps (p : ch_pc) : bool :=
  match p with WWake | WRet _ | RRet _ | RSleep _ | RMSleep => false | _ => true end.

Lemma channel_step_total s t p : ch_inv s -> ch_threads s !! t = Some p -> steps p = true ->
  is_Some (channel_step (chan s) t p).
Proof.
  intros HI Ht Hs; pose proof (ci_ring _ HI) as Hro; pose proof (ci_local _ HI t p Ht) as Hl; unfold channel_step.
  destruct p as [d|d|d|d w|d w|d w|r|r| |r| |r|r|d r|r w|r| | | |d|d]; simpl in *; try done; try (by eexists).
  - rewrite Hl; by eexists.
  - destruct (fn_read (chan s)); by eexists.
  - destruct Hl as [-> _]; by eexists.
  - destruct (store_total _ _ _ d Hro) as [c' E]; destruct (fn_read (chan s)); simpl; rewrite E; by eexists.
  - destruct (fn_read (chan s)); by eexists.
  - rewrite Hl; by eexists.
  - unfold muggle_channel_read; destruct (fn_read (chan s)); by eexists.
  - unfold muggle_channel_read; destruct Hl as [Hm _], (fn_read (chan s)); [by eexists..|done].
  - destruct Hl as [-> Hlt]; destruct (load_next _ _ _ Hro) as (x & _ & E); [lia|].
    unfold muggle_channel_read; destruct (fn_read (chan s)); simpl; rewrite E; by eexists.
  - unfold muggle_channel_read; destruct (fn_read (chan s)); by eexists.
  - unfold muggle_channel_read; destruct Hl as [-> _]; by eexists.
  - unfold muggle_channel_read; rewrite Hl; by eexists.
  - unfold muggle_channel_read; rewrite Hl; by eexists.
  - unfold muggle_channel_read; rewrite Hl; by eexists.
Qed.

(** A call of [write] gives up only when no message more fits. *)
Lemma channel_refuses s t d p c' ret : ch_inv s -> ch_threads s !! t = Some p -> (p = WTest d \/ exists w, p = WLoad d w) ->
  channel_step (chan s) t p = Some (c', WUnlock ret) \/ channel_step (chan s) t p = Some (c', WMUnlock ret) ->
  ret = MUGGLE_ERR_FULL /\ Z.of_nat (length (sent s)) - Z.of_nat (length (received s)) = usable (chan s).
Proof.
  intros HI Ht Hp Hs; pose proof (ci_ring _ HI) as Hro; pose proof (ci_local _ HI t p Ht) as Hl.
  pose proof (write_pos _ _ _ Hro) as Ew.
  assert (ret = MUGGLE_ERR_FULL /\ (Z.of_nat (length (sent s)) + 1) mod ch_capacity (chan s) = read_cursor (chan s)) as [-> E];
    [|split; [done|]; by apply is_full].
  unfold channel_step in Hs; destruct Hp as [->|[w ->]]; simpl in Hs, Hl.
  - destruct (fn_read (chan s)); simpl in Hs; rewrite Ew in Hs.
    + destruct (Z.eqb_spec ((Z.of_nat (length (sent s)) + 1) mod ch_capacity (chan s)) (read_cursor (chan s))); destruct Hs; simplify_eq; done.
    + destruct (negb _); destruct Hs; simplify_eq.
    + destruct (Z.eqb_spec ((Z.of_nat (length (sent s)) + 1) mod ch_capacity (chan s)) (read_cursor (chan s))); destruct Hs; simplify_eq; done.
  - destruct Hl as [Er ->]; rewrite Er in Hs; simpl in Hs.
    destruct (Z.eqb_spec ((Z.of_nat (length (sent s)) + 1) mod ch_capacity (chan s)) (read_cursor (chan s))); destruct Hs; simplify_eq/=; done.
Qed.

(** ** Initialisation *)

Lemma channel_init_ring hs capacity flags c : 0 < capacity < 2 ^ 32 ->
  muggle_channel_init hs capacity flags true MUGGLE_OK true MUGGLE_OK true MUGGLE_OK true = (MUGGLE_OK, c) ->
  ring_ok c [] [] /\ ch_capacity c = muggle_next_pow_of_2 capacity.
Proof.
  intros Hc Hi; unfold muggle_channel_init in Hi; rewrite (proj2 (Z.leb_gt _ _)) in Hi by lia.
  destruct (next_pow_of_2_exp capacity) as (e & He & Ee & _); [lia|]; rewrite Ee in Hi.
  destruct (decide (e = 32)) as [->|Hne]; [vm_compute in Hi; simplify_eq|].
  assert (0 < 2 ^ e <= 2 ^ 31) by (split; [lia|apply Z.pow_le_mono_r; lia]).
  rewrite wrap_small in Hi by (unfold in_width; lia); rewrite (proj2 (Z.leb_gt _ _)) in Hi by lia.
  destruct (if hs then _ else _) as [[wf rf] fl] in Hi.
  set (lock := if hs && (wf =? MUGGLE_CHANNEL_FLAG_WRITE_SYNC) then _ else _) in Hi.
  set (read := if hs && (rf =? MUGGLE_CHANNEL_FLAG_READ_SYNC) then _ else _) in Hi.
  assert (exists f1 f2 wm rm cv, c = CH (2 ^ e) f1 f2 lock read 0 (2 ^ e - 1) (2 ^ e - 1) None None wm rm cv
    (Some (replicate (Z.to_nat (2 ^ e)) NULL))) as (f1 & f2 & wm & rm & cv & ->).
  { clearbody lock read; destruct lock, read; cbn in Hi; simplify_eq; eauto 10. }
  split; [|by rewrite Ee]; split; simpl; try done.
  - exists e; split; [lia|done].
  - apply (Z.mod_unique_pos _ _ (-1)); lia.
  - unfold usable; simpl; lia.
  - intros _; exists 0; split; [lia|]; split; [apply (Z.mod_unique_pos _ _ (-1)); lia|unfold usable; simpl; lia].
  - eexists; split; [done|]; rewrite length_replicate; split; [lia|done].
Qed.

(** No step changes the capacity. *)
Lemma channel_step_capacity c t p c' p' : channel_step c t p = Some (c', p') -> ch_capacity c' = ch_capacity c.
Proof.
  unfold channel_step, muggle_channel_write, muggle_channel_read, channel_lock, channel_unlock.
  assert (forall d c1, store_block c d = Some c1 -> ch_capacity c1 = ch_capacity c) as Hst.
  { intros d c1 E; unfold store_block in E; destruct (ch_blocks c) as [b|]; [|done]; simpl in E.
    destruct (wr b (write_cursor c) d); simplify_eq/=; done. }
  intros H; destruct p, (fn_read c); cbn in H; repeat case_match; simplify_eq/=; try done;
    first [destruct (store_block _ _) eqn:E | destruct (load_block _ _)]; simplify_eq/=; eauto.
Qed.

Lemma ch_reach_capacity c s : ch_reach c s -> ch_capacity (chan s) = ch_capacity c.
Proof.
  induction 1 as [|s s' _ IH [Hs|Hs]]; [done|..]; destruct Hs; simpl in *; try done.
  by erewrite channel_step_capacity.
Qed.

(** ** Properties *)

(** C14: whatever the flags, and whatever the order of the steps of any number of
    writers (one, without a write lock) and of the reader: the reader receives
    the messages that were sent, in their order, each once; of those that wait
    there are never more than the capacity less two; at most one thread is in
    the critical section of the writers; a write is refused only when no message
    more fits; and no thread reads or writes outside of the blocks. *)
Theorem channel_fifo (hs : bool) (capacity flags : Z) (c : muggle_channel) (Hc : 0 < capacity < 2 ^ 32)
  (Hi : muggle_channel_init hs capacity flags true MUGGLE_OK true MUGGLE_OK true MUGGLE_OK true = (MUGGLE_OK, c))
  (s : ch_state) (Hr : ch_reach c s) :
  received s `prefix_of` sent s /\
  Z.of_nat (length (sent s)) - Z.of_nat (length (received s)) <= Z.max 0 (muggle_next_pow_of_2 capacity - 2) /\
  (forall t1 t2 p1 p2, ch_threads s !! t1 = Some p1 -> ch_threads s !! t2 = Some p2 ->
     critical p1 = true -> critical p2 = true -> t1 = t2) /\
  (forall t d p c' ret, ch_threads s !! t = Some p -> p = WTest d \/ (exists w, p = WLoad d w) ->
     channel_step (chan s) t p = Some (c', WUnlock ret) \/ channel_step (chan s) t p = Some (c', WMUnlock ret) ->
     ret = MUGGLE_ERR_FULL /\
     Z.of_nat (length (sent s)) - Z.of_nat (length (received s)) = Z.max 0 (muggle_next_pow_of_2 capacity - 2)) /\
  (forall t p, ch_threads s !! t = Some p -> steps p = true -> is_Some (channel_step (chan s) t p)).
Proof.
  destruct (channel_init_ring hs capacity flags c Hc Hi) as [H0 Ecap]; pose proof (ch_reach_inv c s H0 Hr) as HI.
  pose proof (ci_ring _ HI) as Hro; rewrite <- Ecap, <- (ch_reach_capacity c s Hr).
  split; [apply Hro|]; split; [apply Hro|]; split; [|split].
  - intros t1 t2 p1 p2 H1 H2 C1 C2; destruct (decide (t1 = t2)); [done|]; by rewrite (alone s t2 p2 HI H2 C2 t1 p1) in C1.
  - intros t d p c' ret Ht Hp Hs; by eapply channel_refuses.
  - intros t p; by apply channel_step_total.
Qed.

(** C15: no wake-up of the reader is lost: when it sleeps although there is a
    message, a writer is about to wake it, and the steps of that writer end
    with the reader awake. *)
Theorem channel_no_lost_wakeup (hs : bool) (capacity flags : Z) (c : muggle_channel) (Hc : 0 < capacity < 2 ^ 32)
  (Hi : muggle_channel_init hs capacity flags true MUGGLE_OK true MUGGLE_OK true MUGGLE_OK true = (MUGGLE_OK, c))
  (s : ch_state) (Hr : ch_reach c s) (t : nat) (p : ch_pc)
  (Ht : ch_threads s !! t = Some p) (Ha : asleep p = true) (Hm : sent s <> received s) :
  exists s' p', rtc ch_code s s' /\ ch_threads s' !! t = Some p' /\ asleep p' = false /\
    sent s' = sent s /\ received s' = received s.
Proof.
  destruct (channel_init_ring hs capacity flags c Hc Hi) as [H0 Ecap]; pose proof (ch_reach_inv c s H0 Hr) as HI.
  clear Hr Hi Ecap H0 c; destruct s as [c ts h k]; simpl in *.
  destruct (ci_wake _ HI t p Ht Ha) as [E|(t' & p' & Ht' & Hw)].
  { destruct Hm; pose proof (prefix_length_eq _ _ (ro_prefix _ _ _ (ci_ring _ HI))); simpl in *; symmetry; auto with lia. }
  simpl in Ht'; assert (t' <> t) as Hne by (intros ->; rewrite Ht in Ht'; simplify_eq; by destruct p').
  destruct (woken_asleep c h k p (ci_local _ HI t p Ht) Ha) as [p2 Hp2].
  assert (asleep p2 = false) as Ha2 by (destruct (fn_read c), p; simplify_eq/=; done).
  assert (forall c1 ts1, ts1 !! t = Some p -> ts1 !! t' = Some WWake -> fn_read c1 = fn_read c ->
    exists s' p', rtc ch_code (CS c1 ts1 h k) s' /\ ch_threads s' !! t = Some p' /\ asleep p' = false /\ sent s' = h /\ received s' = k) as Hwake.
  { intros c1 ts1 H1 H2 E; eexists _, p2; split; [apply rtc_once; eapply (ch_wake c1 ts1 h k t' t p p2); [done|done|by rewrite E]|].
    simpl; rewrite lookup_insert_ne, lookup_insert_eq; done. }
  assert (forall c1 ts1 r, (r =? MUGGLE_OK) = true -> ts1 !! t = Some p -> ts1 !! t' = Some (WUnlock r) -> fn_read c1 = fn_read c ->
    exists s' p', rtc ch_code (CS c1 ts1 h k) s' /\ ch_threads s' !! t = Some p' /\ asleep p' = false /\ sent s' = h /\ received s' = k) as Hunlock.
  { intros c1 ts1 r Er H1 H2 E; apply Z.eqb_eq in Er as ->.
    destruct (Hwake (channel_unlock c1) (<[t' := WWake]> ts1)) as (s' & q' & Hrt & Hrest).
    - by rewrite lookup_insert_ne.
    - apply lookup_insert_eq.
    - unfold channel_unlock; by destruct (fn_lock c1).
    - exists s', q'; split; [|done]; eapply rtc_l; [|exact Hrt].
      pose proof (ch_step c1 ts1 h k t' (WUnlock MUGGLE_OK) _ _ H2 eq_refl) as Hs; simpl in Hs; by rewrite !app_nil_r in Hs. }
  destruct p'; try done; simpl in Hw.
  - destruct (Hunlock (set_rlock c None) (<[t' := WUnlock ret]> ts) ret Hw) as (s' & q' & Hrt & Hrest).
    + by rewrite lookup_insert_ne.
    + apply lookup_insert_eq.
    + done.
    + exists s', q'; split; [|done]; eapply rtc_l; [|exact Hrt].
      pose proof (ci_local _ HI t' _ Ht') as Er; simpl in Er.
      assert (channel_step c t' (WMUnlock ret) = Some (set_rlock c None, WUnlock ret)) as Es.
      { unfold channel_step, muggle_channel_write; simpl; by rewrite Er. }
      pose proof (ch_step c ts h k t' _ _ _ Ht' Es) as Hs; simpl in Hs; by rewrite !app_nil_r in Hs.
  - by eapply Hunlock.
  - by eapply Hwake.
Qed.

(** ** A run *)

(** Four blocks, a write mutex, a reader that sleeps on the futex: thread 1 waits
    and thread 2 has written 7 and not woken it yet. *)
Definition sample_channel : muggle_channel :=
  (muggle_channel_init true 3 0 true MUGGLE_OK true MUGGLE_OK true MUGGLE_OK true).2.

Lemma sample_channel_run : exists s, ch_reach sample_channel s /\ ch_threads s !! 1%nat = Some (RSleep 0) /\
  sent s = [7] /\ received s = [].
Proof.
  pose proof (ch_init sample_channel) as H.
  eapply ch_next in H; [|right; apply (ch_call_read _ _ _ _ 1); [reflexivity|done]].
  do 3 (eapply ch_next in H; [|left; eapply (ch_step _ _ _ _ 1); reflexivity]).
  eapply ch_next in H; [|right; apply (ch_call_write _ _ _ _ 2 7); [reflexivity|done]].
  do 4 (eapply ch_next in H; [|left; eapply (ch_step _ _ _ _ 2); reflexivity]).
  eexists; split; [exact H|]; split_and!; reflexivity.
Qed.

Lemma channel_fifo_witness : exists s, ch_reach sample_channel s /\ sent s = [7] /\ received s `prefix_of` sent s /\
  Z.of_nat (length (sent s)) - Z.of_nat (length (received s)) <= 2.
Proof.
  destruct sample_channel_run as (s & Hr & _ & Hs & _); exists s; split; [exact Hr|]; split; [exact Hs|].
  destruct (channel_fifo true 3 0 sample_channel ltac:(lia) eq_refl s Hr) as (H1 & H2 & _); split; [exact H1|exact H2].
Defined.

Lemma channel_no_lost_wakeup_witness : exists s, ch_reach sample_channel s /\ ch_threads s !! 1%nat = Some (RSleep 0) /\
  exists s' p', rtc ch_code s s' /\ ch_threads s' !! 1%nat = Some p' /\ asleep p' = false.
Proof.
  destruct sample_channel_run as (s & Hr & Ht & Hs & Hv); exists s; split; [exact Hr|]; split; [exact Ht|].
  destruct (channel_no_lost_wakeup true 3 0 sample_channel ltac:(lia) eq_refl s Hr 1 (RSleep 0) Ht eq_refl) as (s' & p' & H1 & H2 & H3 & _).
  { rewrite Hs, Hv; discriminate. }
  exists s', p'; split; [exact H1|]; split; [exact H2|exact H3].
Defined.

(** ** What modelling showed *)

Lemma no_room_no_receive s s' : ch_inv s -> usable (chan s) <= 0 -> ch_code s s' \/ ch_env s s' -> received s' = received s.
Proof.
  intros HI Hu [Hs|Hs]; [destruct Hs as [c ts h k t p c' p' Ht Hs| |]|by destruct Hs]; try done; simpl.
  destruct p; try apply app_nil_r; exfalso; pose proof (ci_local _ HI t _ Ht) as [_ Hl].
  pose proof (ro_room _ _ _ (ci_ring _ HI)); pose proof (lookup_lt_Some _ _ _ Hl); simpl in *; lia.
Qed.

(** A channel for one or two messages never takes one: all writes are refused. *)
Theorem channel_of_two_is_full (hs : bool) (capacity flags : Z) (c : muggle_channel) (Hc : 1 <= capacity <= 2)
  (Hi : muggle_channel_init hs capacity flags true MUGGLE_OK true MUGGLE_OK true MUGGLE_OK true = (MUGGLE_OK, c))
  (s : ch_state) (Hr : ch_reach c s) : sent s = [].
Proof.
  destruct (channel_init_ring hs capacity flags c ltac:(lia) Hi) as [H0 Ecap]; pose proof (ci_ring _ (ch_reach_inv c s H0 Hr)) as Hro.
  assert (muggle_next_pow_of_2 capacity <= 2) as Hcap by (assert (capacity = 1 \/ capacity = 2) as [->| ->] by lia; done).
  assert (received s = []) as Hv.
  { clear Hro; induction Hr as [|s s' Hr IH Hs]; [done|]; rewrite <- IH; eapply no_room_no_receive; [by eapply ch_reach_inv| |done].
    unfold usable; rewrite (ch_reach_capacity c s Hr); lia. }
  pose proof (ro_room _ _ _ Hro) as Hroom; unfold usable in Hroom; rewrite (ch_reach_capacity c s Hr), Hv in Hroom; simpl in Hroom.
  destruct (sent s); [done|]; simpl in Hroom; lia.
Qed.

(** When the memory of the write mutex cannot be allocated, [init] destroys the
    channel and returns OK. *)
Theorem channel_init_reports_no_error (capacity : Z) (Hc : 0 < capacity <= 2 ^ 31) (hs : bool) (wm_ret rm_ret cv_ret : Z) (rm_mem cv_mem mem : bool) :
  exists c, muggle_channel_init hs capacity MUGGLE_CHANNEL_FLAG_WRITE_MUTEX false wm_ret rm_mem rm_ret cv_mem cv_ret mem = (MUGGLE_OK, c) /\
    ch_blocks c = None.
Proof.
  destruct (next_pow_of_2_exp capacity) as (e & He & Ee & _ & Hm); [lia|]; specialize (Hm 31 ltac:(lia)).
  assert (0 < 2 ^ e <= 2 ^ 31) by (split; [lia|apply Z.pow_le_mono_r; lia]).
  unfold muggle_channel_init; rewrite (proj2 (Z.leb_gt _ _)) by lia; rewrite Ee, wrap_small by (unfold in_width; lia).
  rewrite (proj2 (Z.leb_gt _ _)) by lia; destruct hs; cbn; by eexists.
Qed.
