(* ===== verification/ShmRing.v ===== *)
(** * The ring buffer in shared memory: [sync/shm_ring_buffer.c]

    Messages of some lines of 64 bytes each, from one writer to one reader, in
    memory that two processes share.  A message is contiguous: when it does not
    fit before the end, the writer leaves an empty header there and goes on at
    the beginning.  The steps of the writer and of the reader are their accesses
    of the shared memory, sequentially consistent; the caller has the locks, or
    is alone, on its side.

    The memory is modelled twice over: the header of each line, if its first
    eight bytes are one, and the bytes, of which those of a header are not
    known; a payload overwrites the headers that it reaches. *)
From S2P Require Import Prelude Utils.

Definition MUGGLE_SHM_RINGBUF_MAGIC : Z := 0x4D53484D.
Definition sizeof_data_hdr : Z := 8.
(** [sizeof(muggle_shm_ringbuf_t)]: five times a line and two of padding. *)
Definition sizeof_shm_ringbuf : Z := 5 * (MUGGLE_CACHE_LINE_SIZE + MUGGLE_CACHE_LINE_X2_SIZE).

Definition MUGGLE_SHM_RINGBUF_CAL_BYTES_CACHELINE (n_bytes : Z) : Z :=
  MUGGLE_ROUND_UP_POW_OF_2_MUL 64 (sizeof_data_hdr + n_bytes) MUGGLE_CACHE_LINE_SIZE / MUGGLE_CACHE_LINE_SIZE + 2.

Definition MUGGLE_SHM_ALIGN_4K_PAGE (n : Z) : Z := MUGGLE_ROUND_UP_POW_OF_2_MUL 32 n 4096.

(** The two cached headers are the numbers of their lines. *)
Record muggle_shm_ringbuf := SR {
  magic : Z; sr_n_bytes : Z; total_bytes : Z; n_cacheline : Z; ready : Z;
  write_cursor : Z; cached_remain : Z; cached_w_hdr : option Z;
  read_cursor : Z; cached_r_hdr : option Z;
  hdrs : list (option (Z * Z));         (** [n_bytes] and [n_cachelines] *)
  bytes : list (option Z)
}.

Section Operations.
Implicit Types r : muggle_shm_ringbuf.

Definition set_remain r x := SR (magic r) (sr_n_bytes r) (total_bytes r) (n_cacheline r) (ready r) (write_cursor r) x (cached_w_hdr r) (read_cursor r) (cached_r_hdr r) (hdrs r) (bytes r).
Definition set_write r x := SR (magic r) (sr_n_bytes r) (total_bytes r) (n_cacheline r) (ready r) x (cached_remain r) (cached_w_hdr r) (read_cursor r) (cached_r_hdr r) (hdrs r) (bytes r).
Definition set_w_hdr r x := SR (magic r) (sr_n_bytes r) (total_bytes r) (n_cacheline r) (ready r) (write_cursor r) (cached_remain r) x (read_cursor r) (cached_r_hdr r) (hdrs r) (bytes r).
Definition set_read r x := SR (magic r) (sr_n_bytes r) (total_bytes r) (n_cacheline r) (ready r) (write_cursor r) (cached_remain r) (cached_w_hdr r) x (cached_r_hdr r) (hdrs r) (bytes r).
Definition set_r_hdr r x := SR (magic r) (sr_n_bytes r) (total_bytes r) (n_cacheline r) (ready r) (write_cursor r) (cached_remain r) (cached_w_hdr r) (read_cursor r) x (hdrs r) (bytes r).
Definition set_memory r h b := SR (magic r) (sr_n_bytes r) (total_bytes r) (n_cacheline r) (ready r) (write_cursor r) (cached_remain r) (cached_w_hdr r) (read_cursor r) (cached_r_hdr r) h b.

(** The sizes that [open] computes: of the data, in lines, and of all. *)
Definition shm_sizes (nbytes : Z) : Z * Z * Z :=
  if nbytes =? 0 then (0, 0, 0)
  else
    let data_bytes := MUGGLE_ROUND_UP_POW_OF_2_MUL 32 nbytes MUGGLE_CACHE_LINE_SIZE in
    let n_cacheline := data_bytes / MUGGLE_CACHE_LINE_SIZE in
    let n_cacheline := u32 (muggle_next_pow_of_2 n_cacheline) in
    let data_bytes := u32 (n_cacheline * MUGGLE_CACHE_LINE_SIZE) in
    (data_bytes, n_cacheline, MUGGLE_SHM_ALIGN_4K_PAGE (u32 (sizeof_shm_ringbuf + data_bytes))).

(** [mem]: what [muggle_shm_open] gives for [total_bytes] bytes, NULL or
    memory; new memory has room for as many lines as fit after the struct. *)
Definition muggle_shm_ringbuf_open (nbytes : Z) (creat : bool) (mem : option muggle_shm_ringbuf) : option muggle_shm_ringbuf :=
  let '(data_bytes, n_cacheline, total_bytes) := shm_sizes nbytes in
  match mem with
  | None => None
  | Some r =>
      if creat then
        let lines := (total_bytes - sizeof_shm_ringbuf) / MUGGLE_CACHE_LINE_SIZE in
        Some (SR MUGGLE_SHM_RINGBUF_MAGIC data_bytes total_bytes n_cacheline 1 0 (u32 (n_cacheline - 1)) None 0 None
                (uninit lines) (uninit (lines * MUGGLE_CACHE_LINE_SIZE)))
      else Some r
  end.

Definition muggle_shm_ringbuf_is_ready r : bool :=
  if negb (magic r =? MUGGLE_SHM_RINGBUF_MAGIC) then false else if negb (ready r =? 1) then false else true.

(** ** The writer *)

(** [WAlloc] to [WHdr] are in [w_alloc_cachelines], with [WUpdate], [WMark] and
    [WWrap] in [update_cached_remain]; at [WFill] the caller writes the message;
    [WMove] and [WStore] are in [w_move].  [WFail]: NULL was returned. *)
Inductive sw_pc :=
| WIdle | WAlloc (d : list Z) (n : Z) | WUpdate (d : list Z) (n : Z) | WMark (d : list Z) (n left_remain : Z)
| WWrap (d : list Z) (n left_remain : Z) | WTest (d : list Z) (n : Z) | WHdr (d : list Z) (n : Z) | WFill (d : list Z)
| WMove (d : list Z) | WStore (d : list Z) (n : Z) | WFail.

(** A header at the line: two fields, eight bytes. *)
Definition store_hdr r (pos n_bytes n_cachelines : Z) : option muggle_shm_ringbuf :=
  h ← wr (hdrs r) pos (Some (n_bytes, n_cachelines));
  b ← copy_in (bytes r) (pos * MUGGLE_CACHE_LINE_SIZE) (replicate 8 None);
  Some (set_memory r h b).

(** The caller writes the bytes [d] after the header, over whole lines. *)
Definition store_data r (pos : Z) (d : list Z) : option muggle_shm_ringbuf :=
  let len := Z.of_nat (length d) in
  h ← copy_in (hdrs r) (pos + 1) (replicate (Z.to_nat ((sizeof_data_hdr + len - 1) / MUGGLE_CACHE_LINE_SIZE)) None);
  b ← copy_in (bytes r) (pos * MUGGLE_CACHE_LINE_SIZE + sizeof_data_hdr) (Some <$> d);
  Some (set_memory r h b).

Definition muggle_shm_ringbuf_update_cached_remain r (p : sw_pc) : option (muggle_shm_ringbuf * sw_pc) :=
  match p with
  | WUpdate d n =>
      let r_pos := read_cursor r in
      if write_cursor r <? r_pos then Some (set_remain r (u32 (r_pos - write_cursor r - 1)), WTest d n)
      else
        let right_remain := u32 (n_cacheline r - write_cursor r - 1) in
        let left_remain := swrap 32 r_pos - 1 in
        if n <=? right_remain then Some (set_remain r right_remain, WTest d n)
        else if swrap 32 n <=? left_remain then Some (r, WMark d n left_remain)
        else Some (r, WTest d n)
  | WMark d n l => r' ← store_hdr r (write_cursor r) 0 0; Some (r', WWrap d n l)
  | WWrap d n l => Some (set_remain (set_write r 0) (u32 l), WTest d n)
  | _ => None
  end.

Definition muggle_shm_ringbuf_w_alloc_cachelines r (p : sw_pc) : option (muggle_shm_ringbuf * sw_pc) :=
  match p with
  | WAlloc d n => Some (r, if cached_remain r <? n then WUpdate d n else WHdr d n)
  | WTest d n => Some (r, if cached_remain r <? n then WFail else WHdr d n)
  | WHdr d n =>
      r' ← store_hdr r (write_cursor r) (Z.of_nat (length d)) n;
      Some (set_w_hdr r' (Some (write_cursor r)), WFill d)
  | _ => muggle_shm_ringbuf_update_cached_remain r p
  end.

(** [w_alloc_bytes] is a call of [w_alloc_cachelines]. *)
Definition muggle_shm_ringbuf_w_alloc_bytes (d : list Z) : sw_pc :=
  WAlloc d (u32 (MUGGLE_SHM_RINGBUF_CAL_BYTES_CACHELINE (Z.of_nat (length d)))).

Definition muggle_shm_ringbuf_w_move r (p : sw_pc) : option (muggle_shm_ringbuf * sw_pc) :=
  match p with
  | WMove d =>
      pos ← cached_w_hdr r; h ← rdi (hdrs r) pos;
      Some (set_remain r (u32 (cached_remain r - snd h)), WStore d (snd h))
  | WStore d n => Some (set_write r (u32 (write_cursor r + n)), WIdle)
  | _ => None
  end.

Definition writer_step r (p : sw_pc) : option (muggle_shm_ringbuf * sw_pc) :=
  match p with
  | WFill d => pos ← cached_w_hdr r; r' ← store_data r pos d; Some (r', WMove d)
  | WMove _ | WStore _ _ => muggle_shm_ringbuf_w_move r p
  | _ => muggle_shm_ringbuf_w_alloc_cachelines r p
  end.

(** ** The reader *)

(** [RFetch] to [RHead2] are in [r_fetch]; at [RRead] the caller reads the
    message; [RMove] and [RStore] are in [r_move]. *)
Inductive sr_pc :=
| RIdle | RFetch | RHead (w_pos : Z) | RRewind | RHead2 | RRead (n_bytes : Z) | RMove (d : list Z) | RStore (d : list Z) (n : Z)
| RNull.

(** The header at the read cursor. *)
Definition load_hdr r : option (muggle_shm_ringbuf * Z) :=
  h ← rdi (hdrs r) (read_cursor r); Some (set_r_hdr r (Some (read_cursor r)), fst h).

Definition muggle_shm_ringbuf_r_fetch r (p : sr_pc) : option (muggle_shm_ringbuf * sr_pc) :=
  match p with
  | RFetch =>
      let w_pos := write_cursor r in
      Some (r, if w_pos =? read_cursor r then RNull else RHead w_pos)
  | RHead w_pos =>
      '(r', n_bytes) ← load_hdr r;
      Some (r', if negb (n_bytes =? 0) then RRead n_bytes else if w_pos =? 0 then RNull else RRewind)
  | RRewind => Some (set_read r 0, RHead2)
  | RHead2 => '(r', n_bytes) ← load_hdr r; Some (r', if negb (n_bytes =? 0) then RRead n_bytes else RNull)
  | _ => None
  end.

Definition muggle_shm_ringbuf_r_move r (p : sr_pc) : option (muggle_shm_ringbuf * sr_pc) :=
  match p with
  | RMove d => pos ← cached_r_hdr r; h ← rdi (hdrs r) pos; Some (r, RStore d (snd h))
  | RStore d n => Some (set_read r (u32 (read_cursor r + n)), RIdle)
  | _ => None
  end.

Definition reader_step r (p : sr_pc) : option (muggle_shm_ringbuf * sr_pc) :=
  match p with
  | RRead n_bytes =>
      pos ← cached_r_hdr r;
      b ← copy_out (bytes r) (pos * MUGGLE_CACHE_LINE_SIZE + sizeof_data_hdr) n_bytes;
      d ← mapM id b; Some (r, RMove d)
  | RMove _ | RStore _ _ => muggle_shm_ringbuf_r_move r p
  | _ => muggle_shm_ringbuf_r_fetch r p
  end.
End Operations.

Record sr_state := SS { ring : muggle_shm_ringbuf; wpc : sw_pc; rpc : sr_pc; sent : list (list Z); received : list (list Z) }.

(** What the caller asks for: a message that is not empty, and lines for it. *)
Definition may_send (d : list Z) (n : Z) : Prop :=
  0 < Z.of_nat (length d) /\ sizeof_data_hdr + Z.of_nat (length d) <= MUGGLE_CACHE_LINE_SIZE * n /\ 1 <= n < 2 ^ 31.

Inductive sr_code : sr_state -> sr_state -> Prop :=
| sr_write r w p h k r' w' : writer_step r w = Some (r', w') ->
    sr_code (SS r w p h k) (SS r' w' p (match w with WStore d _ => h ++ [d] | _ => h end) k)
| sr_read r w p h k r' p' : reader_step r p = Some (r', p') ->
    sr_code (SS r w p h k) (SS r' w p' h (match p with RStore d _ => k ++ [d] | _ => k end)).

(** The writer calls [alloc], also after NULL and instead of [w_move]; the
    reader calls [fetch], also instead of [r_move]. *)
Definition may_alloc (w : sw_pc) : bool := match w with WIdle | WFail | WFill _ | WMove _ => true | _ => false end.
Definition may_fetch (p : sr_pc) : bool := match p with RIdle | RNull | RRead _ | RMove _ => true | _ => false end.

Inductive sr_env : sr_state -> sr_state -> Prop :=
| sr_alloc r w p h k d n : may_alloc w = true -> may_send d n -> sr_env (SS r w p h k) (SS r (WAlloc d n) p h k)
| sr_fetch r w p h k : may_fetch p = true -> sr_env (SS r w p h k) (SS r w RFetch h k).

Inductive sr_reach (r : muggle_shm_ringbuf) : sr_state -> Prop :=
| sr_init : sr_reach r (SS r WIdle RIdle [] [])
| sr_next s s' : sr_reach r s -> sr_code s s' \/ sr_env s s' -> sr_reach r s'.

(** ** Messages in the ring *)

Section Layout.
Implicit Types (r : muggle_shm_ringbuf) (q : list (list Z * Z)).

(** The message [d] in [n] lines from line [a]. *)
Definition message_at r (a : Z) (d : list Z) (n : Z) : Prop :=
  may_send d n /\ rdi (hdrs r) a = Some (Z.of_nat (length d), n) /\
  slice (bytes r) (a * MUGGLE_CACHE_LINE_SIZE + sizeof_data_hdr) (Z.of_nat (length d)) = Some <$> d.

(** The messages [q], one after the other, from line [a] to line [b]. *)
Fixpoint seg r (a : Z) q (b : Z) : Prop :=
  match q with
  | [] => a = b
  | (d, n) :: q => message_at r a d n /\ seg r (a + n) q b
  end.

(** The memory of the lines from [a] to [b] is the same. *)
Definition same_lines r r' (a b : Z) : Prop :=
  (forall i, a <= i < b -> rdi (hdrs r') i = rdi (hdrs r) i) /\
  (forall j n, a * MUGGLE_CACHE_LINE_SIZE <= j -> j + n <= b * MUGGLE_CACHE_LINE_SIZE ->
     slice (bytes r') j n = slice (bytes r) j n).

Lemma seg_le r a q b : seg r a q b -> a <= b.
Proof.
  revert a; induction q as [|[d n] q IH]; intros a; simpl; [lia|]; intros [Hm Hs].
  destruct Hm as [(_ & _ & Hn) _]; specialize (IH _ Hs); lia.
Qed.

Lemma seg_app r a q1 q2 b c : seg r a q1 b -> seg r b q2 c -> seg r a (q1 ++ q2) c.
Proof. revert a; induction q1 as [|[d n] q IH]; intros a; simpl; [by intros ->|]; intros [Hm Hs] H2; eauto. Qed.

Lemma message_frame r r' a d n lo hi : same_lines r r' lo hi -> lo <= a -> a + n <= hi -> message_at r a d n -> message_at r' a d n.
Proof.
  unfold MUGGLE_CACHE_LINE_SIZE, sizeof_data_hdr; intros [Hh Hb] Hlo Hhi (Hs & Hd & Hp).
  pose proof Hs as (H1 & H2 & H3); unfold MUGGLE_CACHE_LINE_SIZE, sizeof_data_hdr in *; split; [done|]; split.
  - rewrite Hh by lia; done.
  - rewrite <- Hp; apply Hb; unfold MUGGLE_CACHE_LINE_SIZE, sizeof_data_hdr; lia.
Qed.

Lemma seg_frame r r' a q b lo hi : same_lines r r' lo hi -> lo <= a -> b <= hi -> seg r a q b -> seg r' a q b.
Proof.
  intros Hf; revert a; induction q as [|[d n] q IH]; intros a Hlo Hhi; simpl; [done|]; intros [Hm Hs].
  pose proof (seg_le _ _ _ _ Hs); pose proof Hm as [(_ & _ & Hn) _].
  split; [eapply message_frame; [done|lia|lia|done]|apply IH; [lia|lia|done]].
Qed.

Lemma seg_nil r a q : seg r a q a -> q = [].
Proof.
  destruct q as [|[d n] q]; [done|]; simpl; intros [Hm Hs]; apply seg_le in Hs.
  destruct Hm as [(_ & _ & Hn) _]; lia.
Qed.

Lemma rd_slice1 {A} (l : list A) j : 0 <= j -> rd l j = slice l j 1 !! 0%nat.
Proof.
  intros Hj; unfold rd, slice; rewrite decide_True by done; rewrite lookup_take_lt by lia.
  rewrite lookup_drop; f_equal; lia.
Qed.

(** ** What the stores change *)

(** Only line [a], or the lines [a] to [a + n]. *)
Lemma store_hdr_spec r a x y : 0 <= a -> a < Z.of_nat (length (hdrs r)) ->
  Z.of_nat (length (bytes r)) = Z.of_nat (length (hdrs r)) * MUGGLE_CACHE_LINE_SIZE ->
  exists h b, store_hdr r a x y = Some (set_memory r h b) /\ length h = length (hdrs r) /\ length b = length (bytes r) /\
    rdi h a = Some (x, y) /\
    (forall lo hi, hi <= a \/ a + 1 <= lo -> 0 <= lo -> same_lines r (set_memory r h b) lo hi).
Proof.
  unfold MUGGLE_CACHE_LINE_SIZE; intros Ha Hl Hb; unfold store_hdr, MUGGLE_CACHE_LINE_SIZE.
  assert (length (replicate 8 (@None Z)) = 8%nat) as E8 by apply length_replicate.
  set (z := replicate 8 (@None Z)) in *; clearbody z.
  rewrite wr_Some by lia; simpl; rewrite copy_in_Some by (rewrite ?E8; lia); simpl.
  eexists _, _; split; [done|]; split; [apply length_insert|]; split; [apply blit_length; rewrite ?E8; lia|]; split.
  - unfold rdi; rewrite rd_wr_eq with (l := hdrs r) (i := a) (x := Some (x, y)); [done|]; unfold wr; by rewrite decide_True by lia.
  - intros lo hi Hd Hlo; split; simpl; unfold MUGGLE_CACHE_LINE_SIZE.
    + intros i Hi; unfold rdi; f_equal; apply (rd_wr_ne (hdrs r) a i (Some (x, y))); [|lia].
      unfold wr; by rewrite decide_True by lia.
    + intros j n Hj Hn; destruct Hd; [apply slice_blit_before; rewrite ?E8; lia|apply slice_blit_after; rewrite ?E8; lia].
Qed.

Lemma store_data_spec r a d n : may_send d n -> 0 <= a -> a + n <= Z.of_nat (length (hdrs r)) ->
  Z.of_nat (length (bytes r)) = Z.of_nat (length (hdrs r)) * MUGGLE_CACHE_LINE_SIZE ->
  rdi (hdrs r) a = Some (Z.of_nat (length d), n) ->
  exists h b, store_data r a d = Some (set_memory r h b) /\ length h = length (hdrs r) /\ length b = length (bytes r) /\
    message_at (set_memory r h b) a d n /\
    (forall lo hi, hi <= a \/ a + n <= lo -> 0 <= lo -> same_lines r (set_memory r h b) lo hi).
Proof.
  intros Hs Ha Hl Hb Hh; pose proof Hs as (H1 & H2 & H3); unfold store_data, MUGGLE_CACHE_LINE_SIZE, sizeof_data_hdr in *.
  set (k := Z.to_nat ((8 + Z.of_nat (length d) - 1) / 64)).
  assert (Z.of_nat k + 1 <= n) as Hk by (unfold k; rewrite Z2Nat.id by (apply Z.div_pos; lia);
    enough ((8 + Z.of_nat (length d) - 1) / 64 < n) by lia; apply Z.div_lt_upper_bound; lia).
  assert (length (replicate k (@None (Z * Z))) = k) as Ek by apply length_replicate.
  assert (length (Some <$> d) = length d) as Ed by apply length_fmap.
  rewrite copy_in_Some by (rewrite ?Ek; lia); simpl; rewrite copy_in_Some by (rewrite ?Ed; lia); simpl.
  assert (forall i, 0 <= i -> i <= a \/ a + n <= i -> rdi (blit (hdrs r) (a + 1) (replicate k None)) i = rdi (hdrs r) i) as Hhs.
  { intros i Hi Hd; unfold rdi; f_equal; rewrite !rd_slice1 by done; f_equal; destruct Hd.
    - apply slice_blit_before; lia.
    - apply slice_blit_after; rewrite ?Ek; lia. }
  eexists _, _; split; [done|]; split; [apply blit_length; rewrite ?Ek; lia|]; split; [apply blit_length; rewrite ?Ed; lia|]; split.
  - split; [done|]; split; [simpl; rewrite Hhs; [done|lia|lia]|]; unfold MUGGLE_CACHE_LINE_SIZE, sizeof_data_hdr; simpl.
    apply slice_blit_eq; rewrite ?Ed; lia.
  - intros lo hi Hd Hlo; split; simpl; unfold MUGGLE_CACHE_LINE_SIZE.
    + intros i Hi; apply Hhs; lia.
    + intros j m Hj Hm; destruct Hd; [apply slice_blit_before; rewrite ?Ed; lia|apply slice_blit_after; rewrite ?Ed; lia].
Qed.
End Layout.

(** ** The invariant *)

Section Invariant.
Implicit Types (r : muggle_shm_ringbuf) (q : list (list Z * Z)) (lay : option Z).

(** The messages: from the read to the write cursor ([None]), or to the mark on
    line [e], and from the beginning to the write cursor ([Some e]). *)
Definition layout r lay q1 q2 : Prop :=
  match lay with
  | None => q2 = [] /\ seg r (read_cursor r) q1 (write_cursor r)
  | Some e => seg r (read_cursor r) q1 e /\ (exists m, rdi (hdrs r) e = Some (0, m)) /\ seg r 0 q2 (write_cursor r) /\
      write_cursor r < read_cursor r /\ e <= n_cacheline r - 1
  end.

(** Up to where the writer may go. *)
Definition limit r lay : Z := match lay with None => n_cacheline r - 1 | Some _ => read_cursor r - 1 end.

(** What the writer and the reader know at their places. *)
Definition writer_ok r lay (p : sw_pc) : Prop :=
  match p with
  | WIdle | WFail => True
  | WAlloc d n | WUpdate d n | WTest d n => may_send d n
  | WMark d n l => may_send d n /\ lay = None /\ n <= l <= read_cursor r - 1
  | WWrap d n l => may_send d n /\ lay = None /\ n <= l <= read_cursor r - 1 /\ rdi (hdrs r) (write_cursor r) = Some (0, 0)
  | WHdr d n => may_send d n /\ n <= cached_remain r
  | WFill d => exists n, may_send d n /\ n <= cached_remain r /\ cached_w_hdr r = Some (write_cursor r) /\
      rdi (hdrs r) (write_cursor r) = Some (Z.of_nat (length d), n)
  | WMove d => exists n, n <= cached_remain r /\ cached_w_hdr r = Some (write_cursor r) /\ message_at r (write_cursor r) d n
  | WStore d n => message_at r (write_cursor r) d n
  end.

Definition reader_ok r lay q1 q2 (p : sr_pc) : Prop :=
  match p with
  | RIdle | RFetch | RNull => True
  | RHead w_pos => q1 = [] -> lay <> None /\ (w_pos <> 0 -> q2 <> [])
  | RRewind => lay <> None /\ q1 = [] /\ q2 <> []
  | RHead2 => q1 <> []
  | RRead nb => exists d n q, q1 = (d, n) :: q /\ nb = Z.of_nat (length d) /\ cached_r_hdr r = Some (read_cursor r)
  | RMove d => exists n q, q1 = (d, n) :: q /\ cached_r_hdr r = Some (read_cursor r)
  | RStore d n => exists q, q1 = (d, n) :: q
  end.

Definition pending_lines (p : sw_pc) : Z := match p with WStore _ n => n | _ => 0 end.

Record sr_inv (N : Z) lay q1 q2 (s : sr_state) : Prop := {
  si_n : n_cacheline (ring s) = N /\ 0 < N <= 2 ^ 26;
  si_memory : N <= Z.of_nat (length (hdrs (ring s))) /\
    Z.of_nat (length (bytes (ring s))) = Z.of_nat (length (hdrs (ring s))) * MUGGLE_CACHE_LINE_SIZE;
  si_cursors : 0 <= read_cursor (ring s) <= N - 1 /\ 0 <= write_cursor (ring s) <= N - 1;
  si_layout : layout (ring s) lay q1 q2;
  si_room : 0 <= cached_remain (ring s) /\
    write_cursor (ring s) + cached_remain (ring s) + pending_lines (wpc s) <= limit (ring s) lay;
  si_fifo : sent s = received s ++ (q1 ++ q2).*1;
  si_writer : writer_ok (ring s) lay (wpc s);
  si_reader : reader_ok (ring s) lay q1 q2 (rpc s)
}.

(** Writes of the writer, from its cursor and within its room. *)
Lemma layout_frame r r' lay q1 q2 n : layout r lay q1 q2 -> n_cacheline r' = n_cacheline r ->
  read_cursor r' = read_cursor r -> write_cursor r' = write_cursor r -> 0 <= read_cursor r -> 0 <= write_cursor r ->
  (lay <> None -> write_cursor r + n <= read_cursor r) ->
  (forall lo hi, hi <= write_cursor r \/ write_cursor r + n <= lo -> 0 <= lo -> same_lines r r' lo hi) ->
  layout r' lay q1 q2.
Proof.
  intros HL En Er Ew Hr Hw Hroom Hs; destruct lay as [e|]; simpl in *; rewrite ?En, ?Er, ?Ew.
  - specialize (Hroom ltac:(done)); destruct HL as (H1 & (m & He) & H2 & H3 & H4); pose proof (seg_le _ _ _ _ H1).
    split_and!; try done.
    + eapply seg_frame; [apply (Hs (read_cursor r) e); lia|lia|lia|done].
    + exists m; destruct (Hs e (e + 1)) as [Hh _]; [lia|lia|]; rewrite Hh by lia; done.
    + eapply seg_frame; [apply (Hs 0 (write_cursor r)); lia|lia|lia|done].
  - destruct HL as [-> H1]; split; [done|]; eapply seg_frame; [apply (Hs (read_cursor r) (write_cursor r)); lia|lia|lia|done].
Qed.

Lemma seg_same r r' a q b : hdrs r' = hdrs r -> bytes r' = bytes r -> seg r a q b -> seg r' a q b.
Proof. intros E1 E2 H; eapply (seg_frame r r' a q b a b); try done; split; intros; by rewrite ?E1, ?E2. Qed.

Lemma layout_same r r' lay q1 q2 : hdrs r' = hdrs r -> bytes r' = bytes r -> n_cacheline r' = n_cacheline r ->
  read_cursor r' = read_cursor r -> write_cursor r' = write_cursor r -> layout r lay q1 q2 -> layout r' lay q1 q2.
Proof.
  intros E1 E2 E3 E4 E5; destruct lay as [e|]; simpl; rewrite ?E1, ?E4, ?E5.
  - intros (H1 & H2 & H3 & H4 & H5); rewrite E3; split_and!; try done; by eapply seg_same.
  - intros [-> H]; split; [done|]; by eapply seg_same.
Qed.

(** What the reader knows does not depend on the messages that are added. *)
Lemma reader_more r r' lay q1 q2 l1 l2 p : reader_ok r lay q1 q2 p ->
  read_cursor r' = read_cursor r -> cached_r_hdr r' = cached_r_hdr r -> (q1 = [] -> l1 = []) ->
  reader_ok r' lay (q1 ++ l1) (q2 ++ l2) p.
Proof.
  intros H Er Ec Hl; destruct p; simpl in *; rewrite ?Er, ?Ec; try done.
  - intros [-> ->]%app_eq_nil; destruct (H eq_refl) as [H1 H2]; split; [done|]; intros Hw [-> _]%app_eq_nil; by apply H2.
  - destruct H as (H1 & -> & H2); rewrite (Hl eq_refl); split_and!; try done; by intros [-> _]%app_eq_nil.
  - by intros [-> _]%app_eq_nil.
  - destruct H as (d & n & q & -> & H); exists d, n, (q ++ l1); done.
  - destruct H as (n & q & -> & H); exists n, (q ++ l1); done.
  - destruct H as (q & ->); exists (q ++ l1); done.
Qed.

Lemma seg_snoc r a q b d n : seg r a q b -> message_at r b d n -> seg r a (q ++ [(d, n)]) (b + n).
Proof. intros H1 H2; eapply seg_app; [done|]; by split. Qed.
End Invariant.

(** ** The steps keep it *)

Section Writer.
Context (N : Z) (lay : option Z) (q1 q2 : list (list Z * Z)) (r : muggle_shm_ringbuf) (p : sr_pc) (h k : list (list Z)).

(** The writer moves on and changes neither memory nor cursor. *)
Lemma inv_w_local w w' x : sr_inv N lay q1 q2 (SS r w p h k) ->
  0 <= x -> write_cursor r + x + pending_lines w' <= limit r lay -> writer_ok (set_remain r x) lay w' ->
  sr_inv N lay q1 q2 (SS (set_remain r x) w' p h k).
Proof.
  intros HI Hx Hr Hw; split; try apply HI; simpl; try done.
  - apply (layout_same r); try done; apply (si_layout _ _ _ _ _ HI).
Qed.

Lemma set_remain_same : set_remain r (cached_remain r) = r.
Proof. by destruct r. Qed.

Lemma inv_w_quiet w w' : sr_inv N lay q1 q2 (SS r w p h k) -> pending_lines w = 0 -> pending_lines w' = 0 ->
  writer_ok r lay w' -> sr_inv N lay q1 q2 (SS r w' p h k).
Proof.
  intros HI Ep Ep' Hw; pose proof (si_room _ _ _ _ _ HI) as [H1 H2]; simpl in *; rewrite Ep in H2.
  rewrite <- set_remain_same; apply (inv_w_local w); rewrite ?set_remain_same, ?Ep'; try done; lia.
Qed.

(** The writer stores [n] lines from its cursor. *)
Lemma inv_w_memory w w' r' n : sr_inv N lay q1 q2 (SS r w p h k) -> pending_lines w' = 0 ->
  n_cacheline r' = n_cacheline r -> read_cursor r' = read_cursor r -> write_cursor r' = write_cursor r ->
  cached_remain r' = cached_remain r -> cached_r_hdr r' = cached_r_hdr r ->
  length (hdrs r') = length (hdrs r) -> length (bytes r') = length (bytes r) -> pending_lines w = 0 ->
  (lay <> None -> n <= cached_remain r) ->
  (forall lo hi, hi <= write_cursor r \/ write_cursor r + n <= lo -> 0 <= lo -> same_lines r r' lo hi) ->
  writer_ok r' lay w' -> sr_inv N lay q1 q2 (SS r' w' p h k).
Proof.
  intros HI Ep En Er Ew Ec Ech Eh Eb Ep0 Hroom Hs Hw; pose proof (si_cursors _ _ _ _ _ HI) as [Hr0 Hw0].
  pose proof (si_room _ _ _ _ _ HI) as [H1 H2]; simpl in *; rewrite Ep0 in H2.
  split; simpl; rewrite ?En, ?Er, ?Ew, ?Ec, ?Eh, ?Eb, ?Ep; try apply HI; try done.
  - apply (layout_frame r r' lay q1 q2 n); try done; [apply HI|lia|lia|].
    intros Hl; specialize (Hroom Hl); destruct lay; [simpl in H2; lia|done].
  - split; [done|]; destruct lay; simpl in *; rewrite ?En, ?Er; lia.
  - pose proof (reader_more r r' lay q1 q2 [] [] p (si_reader _ _ _ _ _ HI) Er Ech) as H; rewrite !app_nil_r in H; auto.
Qed.

Lemma read_le_write : layout r None q1 q2 -> read_cursor r <= write_cursor r.
Proof. by intros [_ H%seg_le]. Qed.

End Writer.

Section Writer_steps.
Context (N : Z) (lay : option Z) (q1 q2 : list (list Z * Z)) (r : muggle_shm_ringbuf) (p : sr_pc) (h k : list (list Z)).
Context (HN : 0 < N <= 2 ^ 26).

Lemma inv_w_update d n r' w' : sr_inv N lay q1 q2 (SS r (WUpdate d n) p h k) ->
  writer_step r (WUpdate d n) = Some (r', w') -> sr_inv N lay q1 q2 (SS r' w' p h k).
Proof.
  intros HI Hs; pose proof (si_layout _ _ _ _ _ HI) as HL; pose proof (si_cursors _ _ _ _ _ HI) as [Hr Hw].
  pose proof (si_writer _ _ _ _ _ HI) as Hd; pose proof (si_n _ _ _ _ _ HI) as [EN _]; simpl in *.
  destruct (Z.ltb_spec (write_cursor r) (read_cursor r)) as [Hlt|Hle].
  - injection Hs as <- <-; destruct lay as [e|]; [|apply read_le_write in HL; lia]; rewrite wrap_small by (unfold in_width; lia).
    eapply inv_w_local; try done; simpl; lia.
  - destruct lay as [e|]; [destruct HL as (_ & _ & _ & H & _); lia|].
    pose proof Hd as (_ & _ & Hn); rewrite wrap_small, !swrap_small in Hs by (unfold in_width; lia).
    destruct (Z.leb_spec n (n_cacheline r - write_cursor r - 1)).
    + injection Hs as <- <-; eapply inv_w_local; try done; simpl; lia.
    + destruct (Z.leb_spec n (read_cursor r - 1)); injection Hs as <- <-; eapply inv_w_quiet; try done; simpl; split_and!; try done; lia.
Qed.

Lemma inv_w_hdr w w' x y : sr_inv N lay q1 q2 (SS r w p h k) -> pending_lines w = 0 -> pending_lines w' = 0 ->
  (lay <> None -> 1 <= cached_remain r) ->
  exists r', store_hdr r (write_cursor r) x y = Some r' /\ rdi (hdrs r') (write_cursor r) = Some (x, y) /\
    write_cursor r' = write_cursor r /\ read_cursor r' = read_cursor r /\ cached_remain r' = cached_remain r /\
    (writer_ok r' lay w' -> sr_inv N lay q1 q2 (SS r' w' p h k)) /\
    (writer_ok (set_w_hdr r' (Some (write_cursor r))) lay w' -> sr_inv N lay q1 q2 (SS (set_w_hdr r' (Some (write_cursor r))) w' p h k)).
Proof.
  intros HI Ep Ep' Hroom; pose proof (si_cursors _ _ _ _ _ HI) as [Hr Hw]; pose proof (si_memory _ _ _ _ _ HI) as [Hm Hb]; simpl in *.
  destruct (store_hdr_spec r (write_cursor r) x y) as (hd & b & Es & Eh & Eb & Hrd & Hsame); [lia|lia|done|].
  exists (set_memory r hd b); split_and!; try done.
  - intros Hok; eapply (inv_w_memory N lay q1 q2 r p h k w w' _ 1); try done.
  - intros Hok; eapply (inv_w_memory N lay q1 q2 r p h k w w' _ 1); try done.
Qed.

Lemma inv_w_store d n r' w' : sr_inv N lay q1 q2 (SS r (WStore d n) p h k) ->
  writer_step r (WStore d n) = Some (r', w') ->
  exists q1' q2', sr_inv N lay q1' q2' (SS r' w' p (h ++ [d]) k).
Proof.
  intros HI Hs; pose proof (si_layout _ _ _ _ _ HI) as HL; pose proof (si_cursors _ _ _ _ _ HI) as [Hr Hw].
  pose proof (si_writer _ _ _ _ _ HI) as Hm; pose proof (si_n _ _ _ _ _ HI) as [EN _]; pose proof (si_room _ _ _ _ _ HI) as [H1 H2].
  pose proof (si_fifo _ _ _ _ _ HI) as Hf; simpl in *; injection Hs as <- <-; pose proof Hm as [(_ & _ & Hn) _].
  assert (write_cursor r + n <= n_cacheline r - 1) as Hfit by (destruct lay; simpl in *; lia).
  rewrite wrap_small by (unfold in_width; lia).
  destruct lay as [e|]; simpl in HL, H2.
  - destruct HL as (L1 & (m & L2) & L3 & L4 & L5); exists q1, (q2 ++ [(d, n)]).
    split; simpl; try apply HI; try done; try lia.
    + split_and!; simpl; try lia; [by apply (seg_same r)|by exists m|].
      by apply (seg_same r); [..|apply seg_snoc].
    + rewrite Hf, !fmap_app, <- !app_assoc; done.
    + pose proof (reader_more r r (Some e) q1 q2 [] [(d, n)] p (si_reader _ _ _ _ _ HI) eq_refl eq_refl ltac:(done)) as H.
      rewrite app_nil_r in H; by destruct p.
  - destruct HL as [-> L1]; exists (q1 ++ [(d, n)]), [].
    split; simpl; try apply HI; try done; try lia.
    + split; [done|]; by apply (seg_same r); [..|apply seg_snoc].
    + rewrite Hf, !app_nil_r, !fmap_app, <- !app_assoc; done.
    + pose proof (si_reader _ _ _ _ _ HI) as HR; simpl in HR.
      destruct p; simpl in *; try done.
      * intros [-> _]%app_eq_nil; by destruct (HR eq_refl).
      * by destruct HR.
      * by intros [-> _]%app_eq_nil.
      * destruct HR as (d' & n' & q & -> & H); exists d', n', (q ++ [(d, n)]); done.
      * destruct HR as (n' & q & -> & H); exists n', (q ++ [(d, n)]); done.
      * destruct HR as (q & ->); exists (q ++ [(d, n)]); done.
Qed.

Lemma inv_sr_writer w r' w' : sr_inv N lay q1 q2 (SS r w p h k) -> writer_step r w = Some (r', w') ->
  exists lay' q1' q2', sr_inv N lay' q1' q2' (SS r' w' p (match w with WStore d _ => h ++ [d] | _ => h end) k).
Proof.
  intros HI Hs; pose proof (si_layout _ _ _ _ _ HI) as HL; pose proof (si_cursors _ _ _ _ _ HI) as [Hr Hw].
  pose proof (si_writer _ _ _ _ _ HI) as Hok; pose proof (si_n _ _ _ _ _ HI) as [EN _]; pose proof (si_room _ _ _ _ _ HI) as [H1 H2].
  pose proof (si_memory _ _ _ _ _ HI) as [Hm Hb].
  destruct w as [|d n|d n|d n l|d n l|d n|d n|d|d|d n|]; try done.
  - exists lay, q1, q2; simpl in *; destruct (Z.ltb_spec (cached_remain r) n); injection Hs as <- <-; (eapply inv_w_quiet; [done..|]); [done|split; [done|lia]].
  - exists lay, q1, q2; by eapply inv_w_update.
  - exists lay, q1, q2; destruct Hok as (Hd & El & Hl).
    destruct (inv_w_hdr (WMark d n l) (WWrap d n l) 0 0 HI eq_refl eq_refl) as (r1 & E & Hrd & E1 & E2 & E3 & Hinv & _); [done|].
    simpl in Hs; rewrite E in Hs; injection Hs as <- <-; simpl in *; apply Hinv; simpl; rewrite E1, E2; done.
  - destruct Hok as (Hd & -> & Hl & Hmark); simpl in *; injection Hs as <- <-; pose proof Hd as (_ & _ & Hn); destruct HL as [-> HL].
    rewrite wrap_small by (unfold in_width; lia); exists (Some (write_cursor r)), q1, [].
    split; simpl; try apply HI; try done; try lia.
    + split_and!; simpl; try lia; [by apply (seg_same r)|by exists 0].
    + pose proof (si_reader _ _ _ _ _ HI) as HR; simpl in HR; destruct p; simpl in *; try done.
      * intros E; by destruct (HR E).
      * by destruct HR.
  - exists lay, q1, q2; simpl in *; destruct (Z.ltb_spec (cached_remain r) n); injection Hs as <- <-; (eapply inv_w_quiet; [done..|]); [done|split; [done|lia]].
  - exists lay, q1, q2; destruct Hok as (Hd & Hn); pose proof Hd as (_ & _ & Hn').
    destruct (inv_w_hdr (WHdr d n) (WFill d) (Z.of_nat (length d)) n HI eq_refl eq_refl) as (r1 & E & Hrd & E1 & E2 & E3 & _ & Hinv).
    { intros _; simpl in *; lia. }
    simpl in Hs; rewrite E in Hs; injection Hs as <- <-; simpl in *; apply Hinv; simpl; exists n; rewrite E1, E3; done.
  - exists lay, q1, q2; destruct Hok as (n & Hd & Hn & Ew & Hh); simpl in *; rewrite Ew in Hs; simpl in Hs.
    assert (write_cursor r + n <= N - 1) by (destruct lay; simpl in *; lia).
    destruct (store_data_spec r (write_cursor r) d n Hd) as (hd & b & Es & Eh & Eb & Hmsg & Hsame); [lia|lia|done|done|].
    rewrite Es in Hs; injection Hs as <- <-; simpl in *; eapply (inv_w_memory N lay q1 q2 r p h k (WFill d) _ _ n); try done; simpl; by exists n.
  - exists lay, q1, q2; destruct Hok as (n & Hn & Ew & Hmsg); simpl in *; rewrite Ew in Hs; simpl in Hs.
    pose proof Hmsg as (Hd & Hh & _); rewrite Hh in Hs; injection Hs as <- <-; simpl in *; pose proof Hd as (_ & _ & Hn').
    assert (write_cursor r + cached_remain r <= N - 1) by (destruct lay; simpl in *; lia).
    rewrite wrap_small by (unfold in_width; lia); eapply inv_w_local; try done; simpl; lia.
  - destruct (inv_w_store d n r' w' HI Hs) as (q1' & q2' & H); by exists lay, q1', q2'.
Qed.
End Writer_steps.

Section Reader_steps.
Context (N : Z) (lay : option Z) (q1 q2 : list (list Z * Z)) (r : muggle_shm_ringbuf) (w : sw_pc) (h k : list (list Z)).

(** The reader moves on and changes no more than its cached header. *)
Lemma inv_r_quiet p p' x : sr_inv N lay q1 q2 (SS r w p h k) -> reader_ok (set_r_hdr r x) lay q1 q2 p' ->
  sr_inv N lay q1 q2 (SS (set_r_hdr r x) w p' h k).
Proof.
  intros HI Hp; split; try apply HI; simpl; try done.
  - apply (layout_same r); try done; apply (si_layout _ _ _ _ _ HI).
Qed.

Lemma set_r_hdr_same : set_r_hdr r (cached_r_hdr r) = r.
Proof. by destruct r. Qed.

(** The header at the read cursor: of the first message, or the mark. *)
Lemma load_hdr_spec p : sr_inv N lay q1 q2 (SS r w p h k) -> (q1 = [] -> lay <> None) ->
  exists nb, load_hdr r = Some (set_r_hdr r (Some (read_cursor r)), nb) /\
    match q1 with [] => nb = 0 | (d, _) :: _ => nb = Z.of_nat (length d) /\ nb <> 0 end.
Proof.
  intros HI Hq; pose proof (si_layout _ _ _ _ _ HI) as HL; simpl in HL; unfold load_hdr.
  destruct q1 as [|[d n] q].
  - destruct lay as [e|]; [|by destruct Hq]; destruct HL as (E & (m & Hm) & _); simpl in E; rewrite E, Hm; by exists 0.
  - assert (message_at r (read_cursor r) d n) as (Hs & Hh & _).
    { destruct lay as [e|]; [by destruct HL as [[H _] _]|by destruct HL as [_ [H _]]]. }
    rewrite Hh; eexists; split; [done|]; split; [done|]; destruct Hs; simpl; lia.
Qed.

Lemma first_message p d n q : sr_inv N lay q1 q2 (SS r w p h k) -> q1 = (d, n) :: q -> message_at r (read_cursor r) d n.
Proof.
  intros HI ->; pose proof (si_layout _ _ _ _ _ HI) as HL; simpl in HL.
  destruct lay as [e|]; [by destruct HL as [[H _] _]|by destruct HL as [_ [H _]]].
Qed.

Lemma inv_rewind r' p' : sr_inv N lay q1 q2 (SS r w RRewind h k) -> reader_step r RRewind = Some (r', p') ->
  sr_inv N None q2 [] (SS r' w p' h k).
Proof.
  intros HI Hs; pose proof (si_layout _ _ _ _ _ HI) as HL; pose proof (si_cursors _ _ _ _ _ HI) as [Hr Hw].
  pose proof (si_reader _ _ _ _ _ HI) as (Hl & E & Hne); pose proof (si_n _ _ _ _ _ HI) as [EN _]; simpl in *.
  injection Hs as <- <-; rewrite E in *; destruct lay as [e|]; [|done]; destruct HL as (H1 & H2 & H3 & H4 & H5).
  split; simpl; try apply HI; try done; try lia.
  - split; [done|]; by apply (seg_same r).
  - pose proof (si_room _ _ _ _ _ HI) as [H6 H7]; simpl in *; split; [done|lia].
  - rewrite app_nil_r; by pose proof (si_fifo _ _ _ _ _ HI).
  - pose proof (si_writer _ _ _ _ _ HI) as H; destruct w; simpl in *; try done; destruct_and?; done.
Qed.

Lemma inv_release d n r' p' : sr_inv N lay q1 q2 (SS r w (RStore d n) h k) -> reader_step r (RStore d n) = Some (r', p') ->
  exists q, sr_inv N lay q q2 (SS r' w p' h (k ++ [d])).
Proof.
  intros HI Hs; pose proof (si_layout _ _ _ _ _ HI) as HL; pose proof (si_cursors _ _ _ _ _ HI) as [Hr Hw].
  pose proof (si_reader _ _ _ _ _ HI) as (q & E); pose proof (si_n _ _ _ _ _ HI) as [EN HN]; simpl in *.
  injection Hs as <- <-; exists q; pose proof (first_message _ d n q HI E) as [(_ & _ & Hn) _].
  pose proof (si_fifo _ _ _ _ _ HI) as Hf; pose proof (si_room _ _ _ _ _ HI) as [H6 H7]; simpl in Hf, H6, H7.
  assert (seg r (read_cursor r + n) q (default (write_cursor r) lay) /\ default (write_cursor r) lay <= N - 1) as [Hq Hend].
  { rewrite E in HL; destruct lay as [e|]; simpl in *; [destruct HL as ((_ & H) & _ & _ & _ & H5); by rewrite EN in H5|].
    destruct HL as [_ [_ H]]; split; [done|lia]. }
  pose proof (seg_le _ _ _ _ Hq) as Hle; rewrite wrap_small by (unfold in_width; lia).
  split; simpl; try apply HI; try done; try lia.
  - destruct lay as [e|]; simpl in *.
    + destruct HL as (_ & H2 & H3 & H4 & H5); split_and!; try done; [by apply (seg_same r)|by apply (seg_same r)|lia].
    + destruct HL as [-> _]; split; [done|]; by apply (seg_same r).
  - destruct lay as [e|]; simpl in *; lia.
  - rewrite Hf, E; simpl; by rewrite <- app_assoc.
  - pose proof (si_writer _ _ _ _ _ HI) as H; destruct w; simpl in *; try done; destruct_and?; split_and!; try done; lia.
Qed.

Lemma mapM_Some_fmap (d : list Z) : mapM id (Some <$> d) = Some d.
Proof. apply mapM_Some_2, Forall2_fmap_l; induction d; by constructor. Qed.

Lemma inv_sr_reader p r' p' : sr_inv N lay q1 q2 (SS r w p h k) -> reader_step r p = Some (r', p') ->
  exists lay' q1' q2', sr_inv N lay' q1' q2' (SS r' w p' h (match p with RStore d _ => k ++ [d] | _ => k end)).
Proof.
  intros HI Hs; pose proof (si_layout _ _ _ _ _ HI) as HL; pose proof (si_reader _ _ _ _ _ HI) as Hp.
  destruct p as [| |wp| | |nb|d|d n|]; try done.
  - exists lay, q1, q2; cbn in Hs; injection Hs as <- <-; rewrite <- set_r_hdr_same; eapply inv_r_quiet; [done|]; simpl in *.
    destruct (Z.eqb_spec (write_cursor r) (read_cursor r)) as [|Hne]; simpl; [done|]; intros E; rewrite E in HL.
    destruct lay as [e|]; simpl in HL; [|destruct HL as [_ HL]; simpl in HL; congruence].
    split; [done|]; intros Hw E2; destruct HL as (_ & _ & HL & _); rewrite E2 in HL; simpl in HL; congruence.
  - exists lay, q1, q2; simpl in Hp; destruct (load_hdr_spec _ HI) as (nb & El & Hnb); [intros E; by apply Hp|].
    cbn in Hs; rewrite El in Hs; cbn in Hs; injection Hs as <- <-; eapply inv_r_quiet; [done|].
    destruct q1 as [|[d n] q].
    + subst nb; simpl; destruct (Hp eq_refl) as [H1 H2]; destruct (Z.eqb_spec wp 0); simpl; [done|]; split_and!; auto.
    + destruct Hnb as [-> Hnb]; rewrite (proj2 (Z.eqb_neq _ _) Hnb); simpl; by exists d, n, q.
  - exists None, q2, []; by eapply inv_rewind.
  - exists lay, q1, q2; simpl in Hp; destruct (load_hdr_spec _ HI) as (nb & El & Hnb); [done|].
    cbn in Hs; rewrite El in Hs; cbn in Hs; injection Hs as <- <-; eapply inv_r_quiet; [done|].
    destruct q1 as [|[d n] q]; [done|]; destruct Hnb as [-> Hnb]; rewrite (proj2 (Z.eqb_neq _ _) Hnb); simpl; by exists d, n, q.
  - exists lay, q1, q2; destruct Hp as (d & n & q & E & -> & Ec); simpl in Ec; cbn in Hs; rewrite Ec in Hs; cbn in Hs.
    pose proof (first_message _ d n q HI E) as (_ & _ & Hd); destruct (copy_out _ _ _) as [b|] eqn:Eb; [|done]; cbn in Hs.
    unfold copy_out in Eb; case_decide; [|done]; injection Eb as <-; rewrite Hd, mapM_Some_fmap in Hs; cbn in Hs; injection Hs as <- <-.
    rewrite <- set_r_hdr_same; eapply inv_r_quiet; [done|]; simpl; by exists n, q.
  - exists lay, q1, q2; destruct Hp as (n & q & E & Ec); simpl in Ec; cbn in Hs; rewrite Ec in Hs; cbn in Hs.
    pose proof (first_message _ d n q HI E) as (_ & Hh & _); rewrite Hh in Hs; cbn in Hs; injection Hs as <- <-.
    rewrite <- set_r_hdr_same; eapply inv_r_quiet; [done|]; simpl; by exists q.
  - destruct (inv_release d n r' p' HI Hs) as (q & H); by exists lay, q, q2.
Qed.
End Reader_steps.

Definition shm_inv (N : Z) (s : sr_state) : Prop := exists lay q1 q2, sr_inv N lay q1 q2 s.

Lemma shm_inv_step N s s' : 0 < N <= 2 ^ 26 -> shm_inv N s -> sr_code s s' \/ sr_env s s' -> shm_inv N s'.
Proof.
  intros HN (lay & q1 & q2 & HI) [Hs|Hs].
  - destruct Hs as [r w p h k r' w' Hs|r w p h k r' p' Hs]; [by eapply inv_sr_writer|by eapply inv_sr_reader].
  - exists lay, q1, q2; destruct Hs as [r w p h k d n Hw Hd|r w p h k Hp].
    + eapply inv_w_quiet; [done| |done|done]; by destruct w.
    + rewrite <- (set_r_hdr_same r); by eapply inv_r_quiet.
Qed.

(** ** No step goes outside of the memory *)

Definition writer_active (p : sw_pc) : bool := match p with WIdle | WFail => false | _ => true end.
Definition reader_active (p : sr_pc) : bool := match p with RIdle | RNull => false | _ => true end.

Lemma writer_total N s : shm_inv N s -> writer_active (wpc s) = true -> is_Some (writer_step (ring s) (wpc s)).
Proof.
  intros (lay & q1 & q2 & HI) Ha; destruct s as [r w p h k]; pose proof (si_cursors _ _ _ _ _ HI) as [Hr Hw].
  pose proof (si_memory _ _ _ _ _ HI) as [Hm Hb]; pose proof (si_writer _ _ _ _ _ HI) as Hok; simpl in *.
  pose proof (si_room _ _ _ _ _ HI) as [H1 H2]; simpl in *; pose proof (si_n _ _ _ _ _ HI) as [EN _]; simpl in *.
  assert (forall x y, is_Some (store_hdr r (write_cursor r) x y)) as Hst.
  { intros x y; destruct (store_hdr_spec r (write_cursor r) x y) as (hd & b & E & _); [lia|lia|done|]; by exists (set_memory r hd b). }
  destruct w as [|d n|d n|d n l|d n l|d n|d n|d|d|d n|]; try done; simpl; try (by eexists).
  - destruct (write_cursor r <? read_cursor r); [by eexists|]; destruct (n <=? _); [by eexists|].
    destruct (swrap 32 n <=? _); by eexists.
  - destruct (Hst 0 0) as [x ->]; by eexists.
  - destruct (Hst (Z.of_nat (length d)) n) as [x ->]; by eexists.
  - destruct Hok as (n & Hd & Hn & -> & Hh); simpl; assert (write_cursor r + n <= N - 1) by (destruct lay; simpl in *; lia).
    destruct (store_data_spec r (write_cursor r) d n Hd) as (hd & b & -> & _); [lia|lia|done|done|by eexists].
  - destruct Hok as (n & Hn & -> & _ & Hh & _); simpl; rewrite Hh; by eexists.
Qed.

Lemma reader_total N s : shm_inv N s -> reader_active (rpc s) = true -> is_Some (reader_step (ring s) (rpc s)).
Proof.
  intros (lay & q1 & q2 & HI) Ha; destruct s as [r w p h k]; pose proof (si_reader _ _ _ _ _ HI) as Hp.
  pose proof (si_memory _ _ _ _ _ HI) as [Hm Hb]; pose proof (si_layout _ _ _ _ _ HI) as HL; simpl in *.
  pose proof (si_cursors _ _ _ _ _ HI) as [Hr Hw]; pose proof (si_n _ _ _ _ _ HI) as [EN _]; simpl in *.
  destruct p as [| |wp| | |nb|d|d n|]; try done; simpl; try (by eexists).
  - destruct (load_hdr_spec _ _ _ _ _ _ _ _ _ HI) as (nb & -> & _); [intros E; by apply Hp|by eexists].
  - destruct (load_hdr_spec _ _ _ _ _ _ _ _ _ HI) as (nb & -> & _); [done|by eexists].
  - destruct Hp as (d & n & q & E & -> & ->); simpl; pose proof (first_message _ _ _ _ _ _ _ _ _ _ _ _ HI E) as (Hd & _ & Hsl).
    assert (read_cursor r + n <= N - 1) as Hfit.
    { rewrite E in HL; destruct lay as [e|]; simpl in HL.
      - destruct HL as ((_ & H) & _ & _ & _ & H5); apply seg_le in H; lia.
      - destruct HL as [_ [_ H]]; apply seg_le in H; lia. }
    destruct Hd as (H1 & H2 & H3); unfold MUGGLE_CACHE_LINE_SIZE, sizeof_data_hdr in *.
    rewrite copy_out_Some by lia; simpl; rewrite Hsl, mapM_Some_fmap; by eexists.
  - destruct Hp as (n & q & E & ->); simpl; pose proof (first_message _ _ _ _ _ _ _ _ _ _ _ _ HI E) as (_ & -> & _); by eexists.
Qed.

(** ** A message that is there is delivered *)

Lemma fetch_first N lay q1 q2 r w p h k d n q : 0 < N <= 2 ^ 26 -> sr_inv N lay q1 q2 (SS r w p h k) -> q1 = (d, n) :: q ->
  (exists wp, p = RHead wp) \/ p = RHead2 ->
  exists r', rtc sr_code (SS r w p h k) (SS r' w (RMove d) h k).
Proof.
  intros HN HI E Hp.
  destruct (load_hdr_spec _ _ _ _ _ _ _ _ _ HI) as (nb & El & Hnb); [by rewrite E|]; rewrite E in Hnb; destruct Hnb as [Enb Hnb].
  assert (reader_step r p = Some (set_r_hdr r (Some (read_cursor r)), RRead nb)) as Es.
  { destruct Hp as [[wp ->]| ->]; cbn; rewrite El; cbn; by rewrite (proj2 (Z.eqb_neq _ _) Hnb). }
  assert (sr_inv N lay q1 q2 (SS (set_r_hdr r (Some (read_cursor r))) w (RRead nb) h k)) as HI2.
  { eapply inv_r_quiet; [done|]; simpl; by exists d, n, q. }
  destruct (reader_total N _ (ex_intro _ lay (ex_intro _ q1 (ex_intro _ q2 HI2))) eq_refl) as [[r2 p2] Es2]; simpl in Es2.
  assert (r2 = set_r_hdr r (Some (read_cursor r)) /\ p2 = RMove d) as [-> ->].
  { pose proof (first_message _ _ _ _ _ _ _ _ _ _ _ _ HI2 E) as (_ & _ & Hsl); simpl in Hsl.
    destruct (copy_out _ _ _) as [b|] eqn:Eb; [|done]; cbn in Es2.
    unfold copy_out in Eb; case_decide; [|done]; injection Eb as <-; rewrite Enb, Hsl, mapM_Some_fmap in Es2; by simplify_eq/=. }
  eexists; eapply rtc_l.
  - pose proof (sr_read r w p h k _ _ Es) as H; destruct Hp as [[wp ->]| ->]; exact H.
  - eapply rtc_once, (sr_read _ w (RRead nb) h k); exact Es2.
Qed.

Lemma fetch_delivers N s : 0 < N <= 2 ^ 26 -> shm_inv N s -> rpc s = RFetch -> received s <> sent s ->
  exists s' d, rtc sr_code s s' /\ rpc s' = RMove d /\ sent s' = sent s /\ received s' = received s /\
    (received s ++ [d]) `prefix_of` sent s.
Proof.
  intros HN (lay & q1 & q2 & HI) Hp Hne; destruct s as [r w p h k]; simpl in *; subst p.
  pose proof (si_layout _ _ _ _ _ HI) as HL; pose proof (si_fifo _ _ _ _ _ HI) as Hf; simpl in HL, Hf.
  assert (write_cursor r <> read_cursor r) as Hwr.
  { intros E; destruct lay as [e|]; simpl in HL; [destruct HL as (_ & _ & _ & H & _); lia|].
    destruct HL as [-> H]; rewrite E in H; apply seg_nil in H; subst q1; simpl in Hf; rewrite ?app_nil_r in Hf; by destruct Hne. }
  assert (reader_step r RFetch = Some (r, RHead (write_cursor r))) as Es by (cbn; by rewrite (proj2 (Z.eqb_neq _ _) Hwr)).
  pose proof (sr_read r w RFetch h k _ _ Es) as Hs1; simpl in Hs1.
  assert (sr_inv N lay q1 q2 (SS r w (RHead (write_cursor r)) h k)) as HI1.
  { rewrite <- (set_r_hdr_same r) at 1; eapply inv_r_quiet; [done|]; simpl; intros ->.
    destruct lay as [e|]; simpl in HL; [|destruct HL as [_ HL]; simpl in HL; congruence].
    split; [done|]; intros Hw ->; destruct HL as (_ & _ & HL & _); simpl in HL; congruence. }
  destruct q1 as [|[d n] q].
  - destruct lay as [e|]; simpl in HL; [|destruct HL as [-> _]; simpl in Hf; rewrite ?app_nil_r in Hf; by destruct Hne].
    destruct q2 as [|[d n] q]; [simpl in Hf; rewrite ?app_nil_r in Hf; by destruct Hne|].
    destruct (load_hdr_spec _ _ _ _ _ _ _ _ _ HI1) as (nb & El & Enb); [done|]; simpl in Enb; subst nb.
    assert (write_cursor r <> 0) as Hw0.
    { destruct HL as (_ & _ & [[(_ & _ & H1) _] H2] & _); apply seg_le in H2; lia. }
    assert (reader_step r (RHead (write_cursor r)) = Some (set_r_hdr r (Some (read_cursor r)), RRewind)) as Es2.
    { cbn; rewrite El; cbn; by rewrite (proj2 (Z.eqb_neq _ _) Hw0). }
    pose proof (sr_read r w (RHead (write_cursor r)) h k _ _ Es2) as Hs2; simpl in Hs2; set (r2 := set_r_hdr r _) in *.
    assert (sr_inv N (Some e) [] ((d, n) :: q) (SS r2 w RRewind h k)) as HI2 by (by eapply inv_r_quiet).
    pose proof (sr_read r2 w RRewind h k _ _ eq_refl) as Hs3; simpl in Hs3.
    pose proof (inv_rewind _ _ _ _ _ _ _ _ _ _ HI2 eq_refl) as HI3.
    destruct (fetch_first _ _ _ _ _ _ _ _ _ d n q HN HI3 eq_refl) as (r' & Hr); [by right|].
    eexists _, d; split; [eapply rtc_l; [exact Hs1|]; eapply rtc_l; [exact Hs2|]; eapply rtc_l; [exact Hs3|exact Hr]|].
    split_and!; try done; simpl; rewrite Hf; exists (q.*1); simpl; by rewrite <- app_assoc.
  - destruct (fetch_first _ _ _ _ _ _ _ _ _ d n q HN HI1 eq_refl) as (r' & Hr); [left; by eexists|].
    eexists _, d; split; [eapply rtc_l; [exact Hs1|exact Hr]|].
    split_and!; try done; simpl; rewrite Hf; exists ((q ++ q2).*1); simpl; by rewrite <- app_assoc.
Qed.

(** ** Opening *)

Lemma shm_sizes_spec nbytes : 0 < nbytes <= 2 ^ 31 ->
  exists N total, shm_sizes nbytes = (N * MUGGLE_CACHE_LINE_SIZE, N, total) /\ 0 < N <= 2 ^ 25 /\
    nbytes <= N * MUGGLE_CACHE_LINE_SIZE /\ sizeof_shm_ringbuf + N * MUGGLE_CACHE_LINE_SIZE <= total.
Proof.
  intros Hb; unfold shm_sizes; rewrite (proj2 (Z.eqb_neq _ _)) by lia.
  change MUGGLE_CACHE_LINE_SIZE with (2 ^ 6); rewrite round_up_spec, Z.div_mul by lia.
  set (m := (nbytes + 2 ^ 6 - 1) / 2 ^ 6).
  assert (1 <= m <= 2 ^ 25 /\ nbytes <= m * 2 ^ 6) as [Hm Hmb].
  { pose proof (Z.div_mod (nbytes + 2 ^ 6 - 1) (2 ^ 6) ltac:(lia)); pose proof (Z.mod_pos_bound (nbytes + 2 ^ 6 - 1) (2 ^ 6) ltac:(lia)).
    fold m in H; lia. }
  destruct (next_pow_of_2_exp m) as (e & He & -> & Hle & Hleast); [lia|]; specialize (Hleast 25 ltac:(lia) ltac:(lia)).
  assert (0 < 2 ^ e <= 2 ^ 25) by (split; [lia|apply Z.pow_le_mono_r; lia]).
  rewrite (wrap_small 32 (2 ^ e)) by (unfold in_width; lia); rewrite (wrap_small 32 (2 ^ e * 2 ^ 6)) by (unfold in_width; lia).
  exists (2 ^ e); eexists; split; [done|]; split_and!; try lia.
  unfold MUGGLE_SHM_ALIGN_4K_PAGE; change sizeof_shm_ringbuf with 960; rewrite wrap_small by (unfold in_width; lia).
  change 4096 with (2 ^ 12); rewrite round_up_spec by lia.
  pose proof (Z.div_mod (960 + 2 ^ e * 2 ^ 6 + 2 ^ 12 - 1) (2 ^ 12) ltac:(lia)).
  pose proof (Z.mod_pos_bound (960 + 2 ^ e * 2 ^ 6 + 2 ^ 12 - 1) (2 ^ 12) ltac:(lia)); lia.
Qed.

Lemma shm_open_inv nbytes mem r : 0 < nbytes <= 2 ^ 31 -> muggle_shm_ringbuf_open nbytes true mem = Some r ->
  exists N, 0 < N <= 2 ^ 26 /\ shm_inv N (SS r WIdle RIdle [] []).
Proof.
  intros Hb Ho; unfold muggle_shm_ringbuf_open in Ho.
  destruct (shm_sizes_spec nbytes Hb) as (N & total & E & HN & _ & Ht); rewrite E in Ho; destruct mem as [r0|]; [|done]; injection Ho as <-.
  set (lines := (total - sizeof_shm_ringbuf) / MUGGLE_CACHE_LINE_SIZE).
  assert (N <= lines) as Hl by (unfold lines; apply Z.div_le_lower_bound; unfold MUGGLE_CACHE_LINE_SIZE in *; lia).
  exists N; split; [lia|]; exists None, [], []; split; simpl; rewrite ?wrap_small by (unfold in_width; lia); try done; try lia.
  - unfold uninit, MUGGLE_CACHE_LINE_SIZE; rewrite !length_replicate; lia.
Qed.

(** [w_alloc_bytes] asks for enough lines. *)
Lemma alloc_bytes_may_send d : 0 < Z.of_nat (length d) <= 2 ^ 30 ->
  exists n, muggle_shm_ringbuf_w_alloc_bytes d = WAlloc d n /\ may_send d n.
Proof.
  intros Hd; unfold muggle_shm_ringbuf_w_alloc_bytes, MUGGLE_SHM_RINGBUF_CAL_BYTES_CACHELINE; eexists; split; [done|].
  unfold may_send; change MUGGLE_CACHE_LINE_SIZE with (2 ^ 6); change sizeof_data_hdr with 8.
  rewrite round_up_spec, Z.div_mul by lia; set (m := (8 + Z.of_nat (length d) + 2 ^ 6 - 1) / 2 ^ 6).
  pose proof (Z.div_mod (8 + Z.of_nat (length d) + 2 ^ 6 - 1) (2 ^ 6) ltac:(lia)) as Hm; fold m in Hm.
  pose proof (Z.mod_pos_bound (8 + Z.of_nat (length d) + 2 ^ 6 - 1) (2 ^ 6) ltac:(lia)).
  rewrite wrap_small by (unfold in_width; lia); split_and!; lia.
Qed.

(** ** Properties *)

(** C16: under every interleaving of a writer and a reader in the shared memory:
    what the reader takes is what was written, message by message, each whole
    and in order; and neither of them stops or reads or writes outside of the
    memory, or reads what was not written.  The ring is that of a size up to
    2^31 bytes, and the messages are not empty. *)
Theorem shm_ring_fifo (nbytes : Z) (Hb : 0 < nbytes <= 2 ^ 31) (mem : option muggle_shm_ringbuf) (r : muggle_shm_ringbuf)
  (Ho : muggle_shm_ringbuf_open nbytes true mem = Some r) (s : sr_state) (Hr : sr_reach r s) :
  received s `prefix_of` sent s /\
  (forall d, rpc s = RMove d -> (received s ++ [d]) `prefix_of` sent s) /\
  (writer_active (wpc s) = true -> is_Some (writer_step (ring s) (wpc s))) /\
  (reader_active (rpc s) = true -> is_Some (reader_step (ring s) (rpc s))) /\
  (rpc s = RFetch -> received s <> sent s ->
     exists s' d, rtc sr_code s s' /\ rpc s' = RMove d /\ sent s' = sent s /\ received s' = received s /\
       (received s ++ [d]) `prefix_of` sent s).
Proof.
  destruct (shm_open_inv nbytes mem r Hb Ho) as (N & HN & H0).
  assert (shm_inv N s) as HI by (clear Ho; induction Hr; [done|by eapply shm_inv_step]).
  split_and!; [| |by eapply writer_total|by eapply reader_total|by eapply fetch_delivers]; destruct HI as (lay & q1 & q2 & HI).
  - rewrite (si_fifo _ _ _ _ _ HI); by apply prefix_app_r.
  - intros d Hd; pose proof (si_reader _ _ _ _ _ HI) as H; rewrite Hd in H; destruct H as (n & q & -> & _).
    rewrite (si_fifo _ _ _ _ _ HI); exists ((q ++ q2).*1); simpl; by rewrite <- app_assoc.
Qed.

(** ** A run *)

(** The code of one side, until it has returned. *)
Fixpoint run_writer (fuel : nat) (r : muggle_shm_ringbuf) (p : sw_pc) : option (muggle_shm_ringbuf * sw_pc) :=
  if writer_active p then
    match fuel with O => None | S f => '(r', p') ← writer_step r p; run_writer f r' p' end
  else Some (r, p).
Fixpoint run_reader (fuel : nat) (r : muggle_shm_ringbuf) (p : sr_pc) : option (muggle_shm_ringbuf * sr_pc) :=
  if reader_active p then
    match fuel with O => None | S f => '(r', p') ← reader_step r p; run_reader f r' p' end
  else Some (r, p).

Definition sample_shm : muggle_shm_ringbuf := SR 0 0 0 0 0 0 0 None 0 None [] [].
Definition sample_ring : muggle_shm_ringbuf := default sample_shm (muggle_shm_ringbuf_open 512 true (Some sample_shm)).

Lemma sample_ring_run : exists s, sr_reach sample_ring s /\ rpc s = RFetch /\ sent s = [[7; 8]] /\ received s = [].
Proof.
  pose proof (sr_init sample_ring) as H.
  eapply sr_next in H; [|right; apply (sr_alloc _ _ _ _ _ [7; 8] 3); [reflexivity|repeat split; vm_compute; congruence]].
  do 5 (eapply sr_next in H; [|left; eapply sr_write; reflexivity]).
  eapply sr_next in H; [|right; apply sr_fetch; reflexivity].
  eexists; split; [exact H|]; split_and!; reflexivity.
Qed.

Lemma shm_ring_fifo_witness : exists s, sr_reach sample_ring s /\ rpc s = RFetch /\
  exists s' d, rtc sr_code s s' /\ rpc s' = RMove d /\ [d] `prefix_of` sent s.
Proof.
  destruct sample_ring_run as (s & Hr & Hp & Hs & Hv); exists s; split; [exact Hr|]; split; [exact Hp|].
  destruct (shm_ring_fifo 512 ltac:(lia) (Some sample_shm) sample_ring eq_refl s Hr) as (_ & _ & _ & _ & Hd).
  destruct (Hd Hp) as (s' & d & H1 & H2 & _ & _ & H3); [rewrite Hs, Hv; discriminate|].
  exists s', d; rewrite Hv in H3; split; [exact H1|]; split; [exact H2|exact H3].
Defined.

(** ** What modelling showed *)

(** Above 2^31 bytes the size of the data wraps to 0, and the number of lines
    does not: the memory is one page. *)
Theorem shm_sizes_wrap_defect : shm_sizes (2 ^ 31 + 1) = (0, 2 ^ 26, 4096).
Proof. vm_compute; reflexivity. Qed.

(** The ring that is left. *)
Definition ring_after {P} (x : option (muggle_shm_ringbuf * P)) : muggle_shm_ringbuf := default sample_shm (fst <$> x).

(** An empty message is taken for the mark at the end: it and the message after
    it are never delivered, however often the reader calls [fetch]. *)
Theorem shm_empty_message_defect :
  exists r1 r2 r3, run_writer 9 sample_ring (muggle_shm_ringbuf_w_alloc_bytes []) = Some (r1, WIdle) /\
    run_writer 9 r1 (muggle_shm_ringbuf_w_alloc_bytes [7]) = Some (r2, WIdle) /\
    run_reader 9 r2 RFetch = Some (r3, RNull) /\ run_reader 9 r3 RFetch = Some (r3, RNull).
Proof.
  set (r1 := ring_after (run_writer 9 sample_ring (muggle_shm_ringbuf_w_alloc_bytes []))).
  set (r2 := ring_after (run_writer 9 r1 (muggle_shm_ringbuf_w_alloc_bytes [7]))).
  exists r1, r2, (ring_after (run_reader 9 r2 RFetch)); split_and!; vm_compute; reflexivity.
Qed.

(** A message of four of eight lines cannot be written to an empty ring whose
    cursors are both at line 4, now or later. *)
Theorem shm_empty_ring_refuses_defect :
  exists r1 r2 r3, run_writer 9 sample_ring (WAlloc [7] 4) = Some (r1, WIdle) /\ run_reader 9 r1 RFetch = Some (r2, RIdle) /\
    write_cursor r2 = read_cursor r2 /\
    run_writer 9 r2 (WAlloc [7] 4) = Some (r3, WFail) /\ run_writer 9 r3 (WAlloc [7] 4) = Some (r3, WFail).
Proof.
  set (r1 := ring_after (run_writer 9 sample_ring (WAlloc [7] 4))); set (r2 := ring_after (run_reader 9 r1 RFetch)).
  exists r1, r2, (ring_after (run_writer 9 r2 (WAlloc [7] 4))); split_and!; vm_compute; reflexivity.
Qed.
