(* ===== verification/MaRing.v ===== *)
(** * Asynchronous rings of many threads: [sync/ma_ring.c]

    Each thread has a ring of its own, to which it writes; one backend thread
    reads them all and calls the callback with the data.  A ring enters a list
    under the spin lock, is moved by the backend to the list that it walks, and
    leaves in a handshake: the thread waits until its data are read, asks for
    the removal, and frees the ring when the backend has confirmed.  The steps
    are the accesses of shared memory, sequentially consistent; what is done
    under the spin lock, and before a ring is shared, is one step.  A ring is
    named by its address; an access of a ring that was freed is a fault, as is
    one outside of the bytes of its buffer or of a byte that was not written.
    A datum is what the caller writes to a block: [block_size] bytes. *)
From S2P Require Import Prelude Utils.

Definition MUGGLE_MA_RING_STATUS_NORMAL : Z := 0.
Definition MUGGLE_MA_RING_STATUS_WAIT_REMOVE : Z := 1.
Definition MUGGLE_MA_RING_STATUS_DONE : Z := 2.

(** [sent] and [received] are what was written and what the callback got; no
    step reads them. *)
Record muggle_ma_ring := MR {
  buffer : option (list (option Z)); wpos : Z; rpos : Z; status : Z; sent : list (list Z); received : list (list Z)
}.

Section Fields.
Implicit Types r : muggle_ma_ring.
Definition set_buffer r x := MR (Some x) (wpos r) (rpos r) (status r) (sent r) (received r).
Definition set_wpos r x d := MR (buffer r) x (rpos r) (status r) (sent r ++ [d]) (received r).
Definition set_rpos r x := MR (buffer r) (wpos r) x (status r) (sent r) (received r).
Definition set_status r x := MR (buffer r) (wpos r) (rpos r) x (sent r) (received r).
Definition set_received r d := MR (buffer r) (wpos r) (rpos r) (status r) (sent r) (received r ++ [d]).
End Fields.

(** Where a thread is: [OWrite] after [muggle_ma_ring_alloc], [OMove] to
    [OStore] in [muggle_ma_ring_move], the others in [thread_ctx_cleanup]. *)
Inductive owner_pc :=
| OIdle | OWrite (d : list Z) | OMove (d : list Z) | OReload (d : list Z) | OStore (d : list Z) (next_w : Z) | OJoin | ORemove | OWait | OFree.

(** A thread, its [s_muggle_ma_ring_thread_ctx], and the position [r] that
    [muggle_ma_ring_move] keeps, also from one ring to the next. *)
Record owner := OW { o_pc : owner_pc; thread_ctx : option nat; move_r : Z }.

(** Where the backend is, with the nodes that are left to visit. *)
Inductive backend_pc :=
| BNew | BNode (l : list nat) | BConsume (rid : nat) (l : list nat) (r w num_consume : Z) | BStore (rid : nat) (l : list nat) (r num_consume : Z)
| BRemove (prev rest : list nat) | BDone (prev : list nat) (rid : nat) (rest : list nat).

Record ma_state := MA {
  capacity : Z; block_size : Z; add_list : list nat; ring_list : list nat;
  rings : gmap nat muggle_ma_ring; owners : gmap nat owner; backend : backend_pc
}.

(** The [n] bytes at an offset of a buffer. *)
Definition store_block (b : list (option Z)) (off : Z) (d : list Z) : option (list (option Z)) := copy_in b off (Some <$> d).
Definition load_block (b : list (option Z)) (off n : Z) : option (list Z) := x ← copy_out b off n; mapM id x.

(** ** The threads *)

(** The first part of [thread_ctx_init]: [mem_ring] is the address of the new
    ring or NULL; whether the memory of the buffer and of the node is there.  When
    it is not, [cleanup] is called. *)
Definition muggle_ma_ring_insert_thread_ctx (rid : nat) (mem_node : bool) (add_list : list nat) : Z * list nat :=
  if mem_node then (0, rid :: add_list) else (MUGGLE_ERR_MEM_ALLOC, add_list).

Definition muggle_ma_ring_thread_ctx_init (s : ma_state) (t : nat) (o : owner) (mem_ring : option nat) (mem_buffer mem_node : bool) : ma_state :=
  match thread_ctx o, mem_ring with
  | Some _, _ | None, None => s
  | None, Some rid =>
      let ring := MR (if mem_buffer then Some (uninit (u32 (capacity s * block_size s))) else None) 0 0 MUGGLE_MA_RING_STATUS_NORMAL [] [] in
      let with_pc p l := MA (capacity s) (block_size s) l (ring_list s) (<[rid := ring]> (rings s)) (<[t := OW p (Some rid) (move_r o)]> (owners s)) (backend s) in
      if negb mem_buffer then with_pc OJoin (add_list s)
      else
        let '(ret, l) := muggle_ma_ring_insert_thread_ctx rid mem_node (add_list s) in
        if negb (ret =? 0) then with_pc OJoin l else with_pc OIdle l
  end.

Definition muggle_ma_ring_thread_ctx_get (s : ma_state) (t : nat) (o : owner) (mem_ring : option nat) (mem_buffer mem_node : bool) : ma_state :=
  match thread_ctx o with
  | None => muggle_ma_ring_thread_ctx_init s t o mem_ring mem_buffer mem_node
  | Some _ => s
  end.

(** The start of [thread_ctx_cleanup]; its end is the step [ma_free]. *)
Definition muggle_ma_ring_thread_ctx_cleanup (o : owner) : owner :=
  match thread_ctx o with Some rid => OW OJoin (Some rid) (move_r o) | None => o end.

(** [muggle_ma_ring_alloc]: the offset in the buffer where the caller writes
    next, and that write. *)
Definition muggle_ma_ring_alloc (bs : Z) (r : muggle_ma_ring) : Z := u32 (bs * wpos r).
Definition write_data (bs : Z) (r : muggle_ma_ring) (d : list Z) : option muggle_ma_ring :=
  b ← buffer r; b' ← store_block b (muggle_ma_ring_alloc bs r) d; Some (set_buffer r b').

Definition muggle_ma_ring_move (cap : Z) (r : muggle_ma_ring) (o : owner) : option (muggle_ma_ring * owner) :=
  match o_pc o with
  | OMove d =>
      let next_w := u32 (wpos r + 1) in
      let next_w := if next_w >=? cap then 0 else next_w in
      Some (r, OW (if next_w =? move_r o then OReload d else OStore d next_w) (thread_ctx o) (move_r o))
  | OReload d => Some (r, OW (OMove d) (thread_ctx o) (rpos r))
  | OStore d next_w => Some (set_wpos r next_w d, OW OIdle (thread_ctx o) (move_r o))
  | _ => None
  end.

(** [muggle_ma_ring_join] and [muggle_ma_ring_remove_thread_ctx]. *)
Definition muggle_ma_ring_join (r : muggle_ma_ring) : owner_pc := if rpos r =? wpos r then ORemove else OJoin.
Definition muggle_ma_ring_remove_thread_ctx (r : muggle_ma_ring) (p : owner_pc) : option (muggle_ma_ring * owner_pc) :=
  match p with
  | ORemove => Some (set_status r MUGGLE_MA_RING_STATUS_WAIT_REMOVE, OWait)
  | OWait => Some (r, if status r =? MUGGLE_MA_RING_STATUS_DONE then OFree else OWait)
  | _ => None
  end.

(** A step of a thread in a call, on its ring; [free] is apart. *)
Definition owner_step (cap bs : Z) (r : muggle_ma_ring) (o : owner) : option (muggle_ma_ring * owner) :=
  match o_pc o with
  | OWrite d => r' ← write_data bs r d; Some (r', OW (OMove d) (thread_ctx o) (move_r o))
  | OMove _ | OReload _ | OStore _ _ => muggle_ma_ring_move cap r o
  | OJoin => Some (r, OW (muggle_ma_ring_join r) (thread_ctx o) (move_r o))
  | ORemove | OWait => '(r', p) ← muggle_ma_ring_remove_thread_ctx r (o_pc o); Some (r', OW p (thread_ctx o) (move_r o))
  | OIdle | OFree => None
  end.

(** What the program sets before the threads start. *)
Definition muggle_ma_ring_ctx_set_capacity (s : ma_state) (c : Z) : ma_state :=
  MA c (block_size s) (add_list s) (ring_list s) (rings s) (owners s) (backend s).
Definition muggle_ma_ring_ctx_set_data_size (s : ma_state) (data_size : Z) : ma_state :=
  MA (capacity s) (MUGGLE_ALIGN_TRUE_SHARING data_size) (add_list s) (ring_list s) (rings s) (owners s) (backend s).

(** ** The backend *)

(** [muggle_ma_ring_handle_new]: from the front of one list to the other. *)
Fixpoint muggle_ma_ring_handle_new (add_list ring_list : list nat) : list nat :=
  match add_list with [] => ring_list | node :: l => muggle_ma_ring_handle_new l (node :: ring_list) end.

(** [muggle_ma_ring_consume]: the loads, one round of the loop, the store. *)
Definition muggle_ma_ring_consume (cap bs : Z) (r : muggle_ma_ring) (p : backend_pc) : option (muggle_ma_ring * backend_pc) :=
  match p with
  | BNode (rid :: l) => Some (r, BConsume rid l (rpos r) (wpos r) 0)
  | BConsume rid l pos w n =>
      if pos =? w then Some (r, if 0 <? n then BStore rid l pos n else BNode l)
      else
        b ← buffer r; d ← load_block b (u32 (bs * pos)) bs;
        let pos' := u32 (pos + 1) in
        Some (set_received r d, BConsume rid l (if pos' >=? cap then 0 else pos') w (n + 1))
  | BStore rid l pos n => Some (set_rpos r pos, BNode l)
  | _ => None
  end.

(** [muggle_ma_ring_handle_remove]. *)
Definition muggle_ma_ring_handle_remove (r : muggle_ma_ring) (p : backend_pc) : option (muggle_ma_ring * backend_pc) :=
  match p with
  | BRemove prev (rid :: rest) =>
      Some (r, if status r =? MUGGLE_MA_RING_STATUS_WAIT_REMOVE then BDone prev rid rest else BRemove (prev ++ [rid]) rest)
  | BDone prev rid rest => Some (set_status r MUGGLE_MA_RING_STATUS_DONE, BRemove prev rest)
  | _ => None
  end.

(** The ring that the backend looks at next. *)
Definition backend_ring (p : backend_pc) : option nat :=
  match p with
  | BNode (rid :: _) | BConsume rid _ _ _ _ | BStore rid _ _ _ | BRemove _ (rid :: _) | BDone _ rid _ => Some rid
  | BNode [] | BNew | BRemove _ [] => None
  end.

(** The loop of [s_muggle_ma_ring_backend_func]. *)
Definition s_muggle_ma_ring_backend_func (s : ma_state) : option ma_state :=
  let next l rl p := MA (capacity s) (block_size s) l rl (rings s) (owners s) p in
  match backend s with
  | BNew => let l := muggle_ma_ring_handle_new (add_list s) (ring_list s) in Some (next [] l (BNode l))
  | BNode [] => Some (next (add_list s) (ring_list s) (BRemove [] (ring_list s)))
  | BRemove _ [] => Some (next (add_list s) (ring_list s) BNew)
  | p =>
      rid ← backend_ring p; r ← rings s !! rid;
      '(r', p') ← (match p with BRemove _ _ | BDone _ _ _ => muggle_ma_ring_handle_remove r p | _ => muggle_ma_ring_consume (capacity s) (block_size s) r p end);
      Some (MA (capacity s) (block_size s) (add_list s) (match p with BDone prev _ rest => prev ++ rest | _ => ring_list s end)
              (<[rid := r']> (rings s)) (owners s) p')
  end.

(** ** Runs *)

Inductive ma_code : ma_state -> ma_state -> Prop :=
| ma_owner s t o rid r r' o' :
    owners s !! t = Some o -> thread_ctx o = Some rid -> rings s !! rid = Some r -> owner_step (capacity s) (block_size s) r o = Some (r', o') ->
    ma_code s (MA (capacity s) (block_size s) (add_list s) (ring_list s) (<[rid := r']> (rings s)) (<[t := o']> (owners s)) (backend s))
| ma_free s t o rid :
    owners s !! t = Some o -> thread_ctx o = Some rid -> o_pc o = OFree ->
    ma_code s (MA (capacity s) (block_size s) (add_list s) (ring_list s) (delete rid (rings s)) (<[t := OW OIdle None (move_r o)]> (owners s)) (backend s))
| ma_backend s s' : s_muggle_ma_ring_backend_func s = Some s' -> ma_code s s'.

(** A thread starts, asks for its ring ([malloc] gives an address that is not
    in use), writes a datum or cleans up. *)
Inductive ma_env : ma_state -> ma_state -> Prop :=
| ma_start s t : owners s !! t = None ->
    ma_env s (MA (capacity s) (block_size s) (add_list s) (ring_list s) (rings s) (<[t := OW OIdle None 0]> (owners s)) (backend s))
| ma_get s t o mem_ring mem_buffer mem_node :
    owners s !! t = Some o -> o_pc o = OIdle -> (forall rid, mem_ring = Some rid -> rings s !! rid = None) ->
    ma_env s (muggle_ma_ring_thread_ctx_get s t o mem_ring mem_buffer mem_node)
| ma_write s t o rid d :
    owners s !! t = Some o -> o_pc o = OIdle -> thread_ctx o = Some rid -> Z.of_nat (length d) = block_size s ->
    ma_env s (MA (capacity s) (block_size s) (add_list s) (ring_list s) (rings s) (<[t := OW (OWrite d) (Some rid) (move_r o)]> (owners s)) (backend s))
| ma_cleanup s t o rid :
    owners s !! t = Some o -> o_pc o = OIdle -> thread_ctx o = Some rid ->
    ma_env s (MA (capacity s) (block_size s) (add_list s) (ring_list s) (rings s) (<[t := muggle_ma_ring_thread_ctx_cleanup o]> (owners s)) (backend s)).

(** Before the threads start, the program may set the capacity and the size of the
    data. *)
Definition MUGGLE_MA_RING_DEFAULT_CAPACITY : Z := 4 * 1024.
Definition MUGGLE_MA_RING_DEFAULT_BLOCK_SIZE : Z := 1024.

Inductive ma_start_state : ma_state -> Prop :=
| ma_default : ma_start_state (MA MUGGLE_MA_RING_DEFAULT_CAPACITY MUGGLE_MA_RING_DEFAULT_BLOCK_SIZE [] [] ∅ ∅ BNew)
| ma_set_capacity s c : ma_start_state s -> ma_start_state (muggle_ma_ring_ctx_set_capacity s c)
| ma_set_data_size s n : ma_start_state s -> ma_start_state (muggle_ma_ring_ctx_set_data_size s n).

Inductive ma_reach (s0 : ma_state) : ma_state -> Prop :=
| ma_init : ma_start_state s0 -> ma_reach s0 s0
| ma_next s s' : ma_reach s0 s -> ma_code s s' \/ ma_env s s' -> ma_reach s0 s'.

(** ** Blocks *)

Lemma store_block_ok b off d : 0 <= off -> off + Z.of_nat (length d) <= Z.of_nat (length b) ->
  exists b', store_block b off d = Some b' /\ length b' = length b /\ load_block b' off (Z.of_nat (length d)) = Some d /\
    forall off' n, 0 <= off' -> 0 <= n -> off' + n <= off \/ off + Z.of_nat (length d) <= off' -> load_block b' off' n = load_block b off' n.
Proof.
  intros Ho Hl; unfold store_block, load_block; assert (length (Some <$> d) = length d) as El by apply length_fmap.
  rewrite copy_in_Some by (rewrite ?El; lia); eexists; split; [done|]; split; [apply blit_length; rewrite ?El; lia|]; split.
  - rewrite copy_out_Some by (rewrite ?blit_length; rewrite ?El; lia); simpl.
    rewrite slice_blit_eq by (rewrite ?El; lia); by apply mapM_fmap_Some.
  - intros off' n Ho' Hn Hd; unfold copy_out; rewrite blit_length by (rewrite ?El; lia); case_decide; [|done]; simpl; f_equal.
    destruct Hd; [apply slice_blit_before; lia|apply slice_blit_after; rewrite ?El; lia].
Qed.


(** ** The invariant *)

Section Local.
Context (cap bs : Z) (Hcap : 1 <= cap) (Hbs : 1 <= bs) (Hsize : cap * bs < 2 ^ 32).
Implicit Types (r : muggle_ma_ring) (o : owner) (p : backend_pc).

(** How many were written, and how many the backend has read. *)
Definition written r : Z := Z.of_nat (length (sent r)).
Definition consumed r : Z := Z.of_nat (length (received r)).

(** The backend has read [n] data and has not yet stored the new [rpos]. *)
Definition pending p (rid : nat) : Z :=
  match p with
  | BConsume rid' _ _ _ n | BStore rid' _ _ n => if decide (rid' = rid) then n else 0
  | _ => 0
  end.

Definition cell r (j : Z) (d : list Z) : Prop := exists b, buffer r = Some b /\ load_block b (bs * (j mod cap)) bs = Some d.

Record ring_ok (n : Z) r : Prop := {
  ro_positions : wpos r = written r mod cap /\ rpos r = (consumed r - n) mod cap;
  ro_bounds : 0 <= n <= consumed r /\ consumed r <= written r /\ written r - (consumed r - n) <= cap - 1;
  ro_fifo : received r `prefix_of` sent r;
  ro_buffer : forall b, buffer r = Some b -> Z.of_nat (length b) = cap * bs;
  ro_cells : forall j d, sent r !! j = Some d -> consumed r - n <= Z.of_nat j -> cell r (Z.of_nat j) d
}.

(** What a thread knows of its ring at its place. *)
Definition writes (q : owner_pc) : bool :=
  match q with OIdle | OWrite _ | OMove _ | OReload _ | OStore _ _ => true | _ => false end.

Definition place_ok o r : Prop :=
  match o_pc o with
  | OIdle | OJoin => status r = MUGGLE_MA_RING_STATUS_NORMAL
  | OWrite d => status r = MUGGLE_MA_RING_STATUS_NORMAL /\ Z.of_nat (length d) = bs
  | OMove d | OReload d => status r = MUGGLE_MA_RING_STATUS_NORMAL /\ cell r (written r) d
  | OStore d nw => status r = MUGGLE_MA_RING_STATUS_NORMAL /\ cell r (written r) d /\
      nw = (written r + 1) mod cap /\ nw <> move_r o
  | ORemove => status r = MUGGLE_MA_RING_STATUS_NORMAL /\ received r = sent r
  | OWait => (status r = MUGGLE_MA_RING_STATUS_WAIT_REMOVE \/ status r = MUGGLE_MA_RING_STATUS_DONE) /\ received r = sent r
  | OFree => status r = MUGGLE_MA_RING_STATUS_DONE /\ received r = sent r
  end.

Record owner_ok (n : Z) o r : Prop := {
  oo_room : writes (o_pc o) = true -> is_Some (buffer r) /\
    exists K, K <= consumed r - n /\ written r - K <= cap - 1 /\ move_r o = K mod cap;
  oo_place : place_ok o r
}.

(** What the backend knows of the ring that it looks at. *)
Definition backend_ok p r : Prop :=
  match p with
  | BConsume _ _ pos w n => 0 <= n /\ pos = consumed r mod cap /\
      exists W0, w = W0 mod cap /\ consumed r <= W0 <= written r
  | BStore _ _ pos n => pos = consumed r mod cap
  | BDone _ _ _ => status r = MUGGLE_MA_RING_STATUS_WAIT_REMOVE
  | _ => True
  end.

Lemma cap_bound : cap < 2 ^ 32.
Proof. nia. Qed.

Lemma succ_mod x : (if u32 (x mod cap + 1) >=? cap then 0 else u32 (x mod cap + 1)) = (x + 1) mod cap.
Proof.
  pose proof cap_bound; assert (0 <= x mod cap < cap) as Hx by (apply Z.mod_pos_bound; lia).
  rewrite <- (Z.add_mod_idemp_l x 1 cap) by lia.
  destruct (decide (x mod cap = cap - 1)) as [E|E].
  - rewrite E; replace (cap - 1 + 1) with cap by lia; rewrite Z.mod_same by lia.
    destruct (decide (cap = 2 ^ 32)) as [->|]; [lia|]; rewrite wrap_small by (unfold in_width; lia).
    by rewrite (proj2 (Z.geb_le _ _)) by lia.
  - rewrite wrap_small by (unfold in_width; lia); rewrite (Z.mod_small (x mod cap + 1)) by lia.
    destruct (x mod cap + 1 >=? cap) eqn:G; [apply Z.geb_le in G; lia|done].
Qed.

Lemma mod_range x : 0 <= x mod cap < cap.
Proof. apply Z.mod_pos_bound; lia. Qed.

(** The backend's part of the invariant, when the owner moves on. *)
Lemma backend_ok_mono p r r' : backend_ok p r -> consumed r' = consumed r -> written r <= written r' ->
  (status r' = status r \/ status r = MUGGLE_MA_RING_STATUS_NORMAL) -> backend_ok p r'.
Proof.
  destruct p; simpl; try done; intros H Ec Ew Hs; rewrite ?Ec; [|done|destruct Hs as [Hs|Hs]; rewrite Hs in *; done].
  destruct H as (H1 & H2 & W0 & H3 & H4); split_and!; try done; exists W0; split; [done|lia].
Qed.

(** ** The steps of a thread keep it *)

Lemma block_offset j : 0 <= bs * (j mod cap) /\ bs * (j mod cap) + bs <= cap * bs /\ u32 (bs * (j mod cap)) = bs * (j mod cap).
Proof. pose proof (mod_range j); split; [nia|]; split; [nia|]; apply wrap_small; unfold in_width; nia. Qed.

(** Different blocks are disjoint. *)
Lemma blocks_apart i j : i mod cap <> j mod cap ->
  bs * (i mod cap) + bs <= bs * (j mod cap) \/ bs * (j mod cap) + bs <= bs * (i mod cap).
Proof. pose proof (mod_range i); pose proof (mod_range j); intros; assert (i mod cap < j mod cap \/ j mod cap < i mod cap) as [|] by lia; nia. Qed.

Lemma alloc_ok n r d : ring_ok n r -> is_Some (buffer r) -> Z.of_nat (length d) = bs ->
  exists b, write_data bs r d = Some (set_buffer r b) /\ ring_ok n (set_buffer r b) /\ cell (set_buffer r b) (written r) d.
Proof.
  intros [[Ew Er] Hb Hf Hl Hc] [b E] Hd; pose proof (Hl _ E) as Hlen; destruct (block_offset (written r)) as (O1 & O2 & O3).
  destruct (store_block_ok b (bs * (written r mod cap)) d) as (b' & Est & El & Eld & Hne); [lia|lia|]; rewrite Hd in Eld, Hne.
  exists b'; unfold write_data, muggle_ma_ring_alloc; rewrite E, Ew, O3; simpl; rewrite Est.
  split; [done|]; split; [split; simpl; try done|by exists b'].
  - intros b0 [= <-]; by rewrite El.
  - intros j e Hj Hge; destruct (Hc _ _ Hj Hge) as (b0 & E0 & H0); simplify_eq; exists b'; split; [done|].
    rewrite Hne; [done|apply block_offset|lia|]; apply blocks_apart.
    apply lookup_lt_Some in Hj; unfold written, consumed in *; simpl in *.
    intros Heq; apply (mod_window cap (Z.of_nat j) (Z.of_nat (length (sent r)))) in Heq; lia.
Qed.

Lemma store_ok n r d : ring_ok n r -> cell r (written r) d -> written r + 1 - (consumed r - n) <= cap - 1 ->
  ring_ok n (set_wpos r ((written r + 1) mod cap) d).
Proof.
  intros [[Ew Er] Hb Hf Hl Hc] Hd Hroom; unfold written, consumed in *.
  split; unfold written, consumed; simpl; rewrite ?length_app; simpl.
  - split; [f_equal; lia|done].
  - lia.
  - destruct Hf as [k ->]; eexists; rewrite <- app_assoc; done.
  - done.
  - intros j e Hj Hge; apply lookup_app_Some in Hj as [Hj|[Hlt Hj]]; [by apply Hc|].
    apply list_lookup_singleton_Some in Hj as [Hj <-]; replace j with (length (sent r)) by lia; done.
Qed.
Lemma ring_not_full W K : W - K <= cap - 1 -> (W + 1) mod cap <> K mod cap -> W + 1 - K <= cap - 1.
Proof.
  intros H Hne; enough (W + 1 <> K + cap) by lia; intros E; apply Hne; rewrite E.
  rewrite <- (Z.mul_1_l cap) at 1; by rewrite Z.mod_add by lia.
Qed.

Definition moves (q : owner_pc) : bool := match q with OIdle | OFree => false | _ => true end.

Ltac split_step := eexists _, _; split; [done|]; split_and!; simpl; try done; try lia; try (by left); try (by right).

(** A step of a thread: always possible, within the invariant; only the thread
    writes, and asks for the removal. *)
Lemma owner_step_ok n r o : ring_ok n r -> owner_ok n o r -> moves (o_pc o) = true -> 0 <= move_r o < cap ->
  exists r' o', owner_step cap bs r o = Some (r', o') /\ ring_ok n r' /\ owner_ok n o' r' /\
    thread_ctx o' = thread_ctx o /\ 0 <= move_r o' < cap /\ consumed r' = consumed r /\ written r <= written r' /\
    (status r' = status r \/ status r = MUGGLE_MA_RING_STATUS_NORMAL /\ status r' = MUGGLE_MA_RING_STATUS_WAIT_REMOVE).
Proof.
  destruct o as [q c m]; intros Hr [Hroom Hp] Hq Hm; simpl in *; pose proof Hr as [[Ew Er] Hb Hf Hl Hc].
  destruct q as [|d|d|d|d nw| | | |]; try done; unfold owner_step; simpl in *.
  - destruct (Hroom eq_refl) as [HB HK].
    destruct (alloc_ok n r d Hr HB) as (b & -> & Hr' & Hd); [apply Hp|split_step; split; [done|split; [apply Hp|done]]].
  - destruct (Hroom eq_refl) as [HB (K & HK1 & HK2 & ->)]; destruct Hp as [Hs Hd]; split_step; rewrite Ew, succ_mod.
    split; simpl; [intros _; split; [done|]; by exists K|].
    by destruct ((written r + 1) mod cap =? K mod cap) eqn:E; simpl; [|apply Z.eqb_neq in E].
  - destruct (Hroom eq_refl) as [HB _]; pose proof (mod_range (consumed r - n)) as HR; rewrite <- Er in HR; split_step.
    split; simpl; [|done]; intros _; split; [done|]; exists (consumed r - n); split; [lia|]; split; [lia|done].
  - destruct Hp as (Hs & Hd & -> & Hne); destruct (Hroom eq_refl) as [HB (K & HK1 & HK2 & ->)].
    pose proof (ring_not_full (written r) K HK2 Hne).
    assert (written (set_wpos r ((written r + 1) mod cap) d) = written r + 1) as EW
      by (unfold written; simpl; rewrite length_app; simpl; lia).
    split_step; [apply store_ok; [done..|lia]|].
    split; simpl; [|done]; intros _; split; [done|]; exists K; rewrite EW; done.
  - split_step; unfold muggle_ma_ring_join; rewrite Ew, Er; split; simpl; [by case_match|].
    destruct ((consumed r - n) mod cap =? written r mod cap) eqn:E; [|done]; apply Z.eqb_eq in E.
    apply mod_window in E; [|lia..]; split; [done|].
    apply prefix_length_eq; [done|]; unfold written, consumed in *; lia.
  - destruct Hp as [Hs He]; split_step; split; simpl; [done|split; [by left|done]].
  - split_step; split; simpl; [by case_match|].
    destruct (status r =? MUGGLE_MA_RING_STATUS_DONE) eqn:E; simpl; [apply Z.eqb_eq in E; by destruct Hp|done].
Qed.
(** ** The steps of the backend keep it *)

(** The nodes that the backend has still to visit are in the list. *)
Definition nodes_ok (rl : list nat) p : Prop :=
  match p with
  | BNew => True
  | BNode l => l ⊆ rl
  | BConsume rid l _ _ _ | BStore rid l _ _ => rid ∈ rl /\ l ⊆ rl
  | BRemove prev rest => rl = prev ++ rest
  | BDone prev rid rest => rl = prev ++ rid :: rest
  end.

(** A step on ring [rid] is possible, and what it does to it. *)
Definition backend_effect p (rid : nat) r r' p' : Prop :=
  ring_ok (pending p' rid) r' /\ backend_ok p' r' /\
  (forall o, owner_ok (pending p rid) o r -> owner_ok (pending p' rid) o r') /\
  (forall rid', rid' <> rid -> pending p' rid' = pending p rid').

Lemma owner_ok_read n n' o r r' : owner_ok n o r -> consumed r - n <= consumed r' - n' -> consumed r' <= written r ->
  consumed r <= consumed r' -> received r `prefix_of` received r' -> sent r' = sent r -> buffer r' = buffer r -> status r' = status r ->
  ring_ok n r -> owner_ok n' o r'.
Proof.
  intros [Hroom Hp] Hn Hc Hc' Hpre Es Eb Est [_ _ Hf _ _].
  assert (written r' = written r) as EW by (unfold written; by rewrite Es).
  assert (received r = sent r -> received r' = sent r) as HF.
  { intros E; rewrite E in Hpre; symmetry; apply prefix_length_eq; [done|]; unfold consumed, written in *; lia. }
  split.
  - intros Hw; rewrite Eb, EW; destruct (Hroom Hw) as [HB (K & H1 & H2 & H3)]; split; [done|]; exists K; split; [lia|done].
  - unfold place_ok, cell in *; rewrite EW, Eb, Est, Es; destruct (o_pc o); intuition.
Qed.

Lemma consume_next n r : ring_ok n r -> consumed r < written r ->
  exists b d, buffer r = Some b /\ load_block b (u32 (bs * (consumed r mod cap))) bs = Some d /\ ring_ok (n + 1) (set_received r d).
Proof.
  intros [[Ew Er] Hb [k Ek] Hl Hc] Hlt; unfold consumed, written in *; rewrite Ek, length_app in Hlt.
  destruct k as [|d k]; [simpl in Hlt; lia|].
  assert (sent r !! length (received r) = Some d) as Hd by (rewrite Ek; apply list_lookup_middle; done).
  destruct (Hc _ _ Hd ltac:(lia)) as (b & E & Hrd); exists b, d; split; [done|]; split; [by rewrite (proj2 (proj2 (block_offset (Z.of_nat (length (received r))))))|].
  split; unfold consumed, written in *; simpl; rewrite ?length_app; simpl.
  - split; [done|]; rewrite Er; f_equal; lia.
  - rewrite Ek, length_app in *; simpl in *; lia.
  - rewrite Ek; exists k; by rewrite <- app_assoc.
  - done.
  - intros j e Hj Hge; destruct (Hc j e Hj ltac:(lia)) as (b' & E' & H'); by exists b'.
Qed.

Lemma consume_ok p rid r : backend_ring p = Some rid -> ring_ok (pending p rid) r -> backend_ok p r ->
  match p with BRemove _ _ | BDone _ _ _ => False | _ => True end ->
  exists r' p', muggle_ma_ring_consume cap bs r p = Some (r', p') /\ backend_effect p rid r r' p' /\
    status r' = status r /\ forall rl, nodes_ok rl p -> nodes_ok rl p'.
Proof.
  intros Hrid Hr Hp Hk; pose proof Hr as [[Ew Er] Hb Hf Hl Hc].
  unfold backend_effect; destruct p as [|[|x l]|x l pos w n|x l pos n| |]; simplify_eq/=; try done.
  - eexists _, _; split; [done|]; split; [|split; [done|]].
    + split_and!; simpl; rewrite ?decide_True by done; try done.
      * split_and!; [lia|by rewrite Er, Z.sub_0_r|]; exists (written r); split; [done|lia].
      * intros rid' Hne; by rewrite decide_False.
    + intros rl Hl'; split; [|intros y Hy]; apply Hl'; [left|by right].
  - rewrite decide_True in * by done; destruct Hp as (Hn & -> & W0 & -> & HW).
    destruct (consumed r mod cap =? W0 mod cap) eqn:E.
    + assert (pending (if 0 <? n then BStore rid l (consumed r mod cap) n else BNode l) rid = n) as En.
      { destruct (0 <? n) eqn:G; simpl; [by rewrite decide_True|apply Z.ltb_ge in G; lia]. }
      eexists _, _; split; [done|]; split; [|split; [done|]].
      * split_and!; rewrite ?En; try done; simpl; rewrite ?decide_True by done; try done; destruct (0 <? n); try done.
        intros; simpl; by rewrite decide_False.
      * intros rl [H1 H2]; by destruct (0 <? n).
    + apply Z.eqb_neq in E; destruct (consume_next n r Hr) as (b & d & -> & Hd & Hr').
      { destruct (decide (consumed r = W0)) as [Heq|]; [by rewrite Heq in E|lia]. }
      assert (consumed (set_received r d) = consumed r + 1) as EC by (unfold consumed; simpl; rewrite length_app; simpl; lia).
      simpl; rewrite Hd; simpl; eexists _, _; split; [done|]; split; [|done]; split_and!; simpl; rewrite ?decide_True by done; try done.
      * rewrite succ_mod, EC; split_and!; [lia|done|]; exists W0; split; [done|]; unfold written in *; simpl.
        enough (consumed r <> W0) by lia; intros Heq; by rewrite Heq in E.
      * intros o Ho; apply (owner_ok_read n (n + 1) o r); try done; rewrite ?EC; [lia| |lia|by eexists].
        enough (consumed r <> W0) by lia; intros Heq; by rewrite Heq in E.
      * intros rid' Hne; by rewrite !decide_False.
  - rewrite decide_True in * by done; eexists _, _; split; [done|]; split; [|split; [done|by intros rl [_ H]]].
    split_and!; simpl; try done.
    + split; unfold consumed, written in *; simpl; try done; [by rewrite Z.sub_0_r|lia|].
      intros j e Hj Hge; apply Hc; [done|lia].
    + intros o Ho; apply (owner_ok_read n 0 o r); try done; unfold consumed, written in *; simpl; lia.
    + intros rid' Hne; by rewrite decide_False.
Qed.

Lemma handle_remove_ok p rid r : backend_ring p = Some rid -> ring_ok (pending p rid) r -> backend_ok p r ->
  match p with BRemove _ _ | BDone _ _ _ => True | _ => False end ->
  exists r' p', muggle_ma_ring_handle_remove r p = Some (r', p') /\ backend_effect p rid r r' p' /\
    (status r' = status r \/ exists prev rest, p = BDone prev rid rest) /\
    forall rl, nodes_ok rl p -> nodes_ok (match p with BDone prev _ rest => prev ++ rest | _ => rl end) p'.
Proof.
  intros Hrid Hr Hp Hk; unfold backend_effect; destruct p as [| | | |prev [|x rest]|prev x rest]; simplify_eq/=; try done.
  - eexists _, _; split; [done|]; destruct (status r =? MUGGLE_MA_RING_STATUS_WAIT_REMOVE) eqn:E; simpl.
    + apply Z.eqb_eq in E; split_and!; try done; by left.
    + split_and!; try done; [by left|]; intros rl ->; by rewrite <- app_assoc.
  - eexists _, _; split; [done|]; split_and!; try done.
    + destruct Hr; split; done.
    + intros o [Hroom Hpl]; split; [done|]; unfold place_ok in *; rewrite Hp in Hpl; simpl.
      destruct (o_pc o); try done; try (by destruct Hpl); destruct Hpl as [_ Hpl]; split; [by right|done].
    + right; by eexists _, _.
Qed.
(** ** All threads and the backend *)

Definition owner_has (p : backend_pc) (R : gmap nat muggle_ma_ring) o : Prop :=
  0 <= move_r o < cap /\
  match thread_ctx o with
  | None => o_pc o = OIdle
  | Some rid => exists r, R !! rid = Some r /\ owner_ok (pending p rid) o r
  end.

Record ma_inv (s : ma_state) : Prop := {
  mi_cap : capacity s = cap /\ block_size s = bs;
  mi_rings : forall rid r, rings s !! rid = Some r -> ring_ok (pending (backend s) rid) r;
  mi_owners : forall t o, owners s !! t = Some o -> owner_has (backend s) (rings s) o;
  mi_distinct : forall t t' o o' rid, owners s !! t = Some o -> owners s !! t' = Some o' ->
    thread_ctx o = Some rid -> thread_ctx o' = Some rid -> t = t';
  mi_lists : NoDup (add_list s ++ ring_list s);
  mi_listed : forall rid, rid ∈ add_list s ++ ring_list s ->
    exists r, rings s !! rid = Some r /\ status r <> MUGGLE_MA_RING_STATUS_DONE;
  mi_nodes : nodes_ok (ring_list s) (backend s);
  mi_backend : forall rid r, backend_ring (backend s) = Some rid -> rings s !! rid = Some r -> backend_ok (backend s) r
}.

Lemma backend_ring_listed rl p rid : nodes_ok rl p -> backend_ring p = Some rid -> rid ∈ rl.
Proof.
  destruct p as [|[|x l]| | |prev [|x rest]|]; simpl; intros H ?; simplify_eq; try (by destruct H); set_solver.
Qed.

Lemma pending_other p rid : backend_ring p <> Some rid -> pending p rid = 0.
Proof. destruct p; simpl; try done; intros H; rewrite decide_False; congruence. Qed.

Lemma pending_dead s rid : ma_inv s -> rings s !! rid = None -> pending (backend s) rid = 0.
Proof.
  intros I E; apply pending_other; intros H; pose proof (backend_ring_listed _ _ _ (mi_nodes _ I) H) as Hin.
  destruct (mi_listed _ I rid) as (r & Hr & _); [apply elem_of_app; by right|congruence].
Qed.

(** Another thread's ring is not the one that changes. *)
Lemma other_ctx s t t' o o' rid : ma_inv s -> owners s !! t = Some o -> thread_ctx o = Some rid -> t <> t' ->
  owners s !! t' = Some o' -> thread_ctx o' <> Some rid.
Proof. intros I H1 H2 Hne H3 H4; apply Hne; by apply (mi_distinct _ I t t' o o' rid). Qed.

Lemma owner_has_insert p R o rid r : (thread_ctx o <> Some rid) -> owner_has p R o -> owner_has p (<[rid := r]> R) o.
Proof.
  intros Hne [Hm H]; split; [done|]; destruct (thread_ctx o) as [x|]; [|done]; destruct H as (r' & E & H); exists r'.
  split; [|done]; by rewrite lookup_insert_ne by congruence.
Qed.

Lemma distinct_insert (O : gmap nat owner) t o o1 :
  (forall t1 t2 a b rid, O !! t1 = Some a -> O !! t2 = Some b -> thread_ctx a = Some rid -> thread_ctx b = Some rid -> t1 = t2) ->
  O !! t = Some o ->
  (forall rid, thread_ctx o1 = Some rid -> thread_ctx o = Some rid \/ forall t' o', O !! t' = Some o' -> thread_ctx o' <> Some rid) ->
  forall t1 t2 a b rid, <[t := o1]> O !! t1 = Some a -> <[t := o1]> O !! t2 = Some b ->
    thread_ctx a = Some rid -> thread_ctx b = Some rid -> t1 = t2.
Proof.
  intros HD E Hc t1 t2 a b rid [[<- <-]|[H1 E1]]%lookup_insert_Some [[<- <-]|[H2 E2]]%lookup_insert_Some Ha Hb; [done| | |].
  - destruct (Hc _ Ha) as [Hc'|Hc']; [by apply (HD _ _ _ _ _ E E2 Hc' Hb)|by destruct (Hc' _ _ E2)].
  - destruct (Hc _ Hb) as [Hc'|Hc']; [by apply (HD _ _ _ _ _ E1 E Ha Hc')|by destruct (Hc' _ _ E1)].
  - by apply (HD _ _ _ _ _ E1 E2 Ha Hb).
Qed.

Lemma inv_owner s t o rid r r' o' : ma_inv s ->
  owners s !! t = Some o -> thread_ctx o = Some rid -> rings s !! rid = Some r ->
  ring_ok (pending (backend s) rid) r' -> owner_ok (pending (backend s) rid) o' r' -> thread_ctx o' = thread_ctx o ->
  0 <= move_r o' < cap -> consumed r' = consumed r -> written r <= written r' ->
  (status r' = status r \/ status r = MUGGLE_MA_RING_STATUS_NORMAL /\ status r' = MUGGLE_MA_RING_STATUS_WAIT_REMOVE) ->
  ma_inv (MA (capacity s) (block_size s) (add_list s) (ring_list s) (<[rid := r']> (rings s)) (<[t := o']> (owners s)) (backend s)).
Proof.
  intros I Eo Ec Er Hr Ho Ec' Hm EC EW Hs; pose proof I as [H1 H2 H3 H4 H5 H6 H7 H8]; split; simpl; try done.
  - intros x y [[<- <-]|[Hne E]]%lookup_insert_Some; [done|by apply H2].
  - intros t' y [[<- <-]|[Hne E]]%lookup_insert_Some.
    + split; [done|]; rewrite Ec', Ec; exists r'; by rewrite lookup_insert_eq.
    + apply owner_has_insert; [|by eapply H3]; by apply (other_ctx s t t' o y rid).
  - eapply distinct_insert; [exact H4|done|intros x; rewrite Ec'; by left].
  - intros x Hx; destruct (H6 x Hx) as (y & Ey & Hy); destruct (decide (x = rid)) as [->|Hne].
    + exists r'; rewrite lookup_insert_eq; split; [done|]; simplify_eq; destruct Hs as [->|[_ ->]]; done.
    + exists y; by rewrite lookup_insert_ne by done.
  - intros x y Hx [[<- <-]|[Hne E]]%lookup_insert_Some; [|by eapply H8].
    eapply backend_ok_mono; [by eapply H8|done|done|]; destruct Hs as [->|[-> _]]; [by left|by right].
Qed.

(** The ring is freed: it is in no list, and the backend is done with it. *)
Lemma free_unlisted s t o rid : ma_inv s -> owners s !! t = Some o -> thread_ctx o = Some rid -> o_pc o = OFree ->
  rid ∉ add_list s ++ ring_list s.
Proof.
  intros I Eo Ec Ep Hin; destruct (mi_listed _ I rid Hin) as (r & Er & Hr); destruct (mi_owners _ I _ _ Eo) as [_ Ho].
  rewrite Ec in Ho; destruct Ho as (r' & Er' & [_ Hp]); unfold place_ok in Hp; rewrite Ep in Hp; destruct Hp; by simplify_eq.
Qed.

Lemma inv_free s t o rid : ma_inv s -> owners s !! t = Some o -> thread_ctx o = Some rid -> o_pc o = OFree ->
  ma_inv (MA (capacity s) (block_size s) (add_list s) (ring_list s) (delete rid (rings s)) (<[t := OW OIdle None (move_r o)]> (owners s)) (backend s)).
Proof.
  intros I Eo Ec Ep; pose proof (free_unlisted _ _ _ _ I Eo Ec Ep) as Hnin; pose proof I as [H1 H2 H3 H4 H5 H6 H7 H8].
  split; simpl; try done.
  - intros x y [Hne E]%lookup_delete_Some; by apply H2.
  - intros t' y [[<- <-]|[Hne E]]%lookup_insert_Some.
    + split; [|done]; destruct (H3 _ _ Eo); done.
    + pose proof (other_ctx s t t' o y rid I Eo Ec Hne E) as Hd; destruct (H3 _ _ E) as [Hm Hy]; split; [done|].
      destruct (thread_ctx y) as [x|]; [|done]; destruct Hy as (r & Er & Hr); exists r; by rewrite lookup_delete_ne by congruence.
  - by eapply distinct_insert; [exact H4|done|].
  - intros x Hx; destruct (H6 x Hx) as (y & Ey & Hy); exists y; rewrite lookup_delete_ne; [done|congruence].
  - intros x y Hx [Hne E]%lookup_delete_Some; by eapply H8.
Qed.

Lemma handle_new_spec l rl : muggle_ma_ring_handle_new l rl = rev l ++ rl.
Proof. revert rl; induction l as [|x l IH]; intros rl; simpl; [done|]; by rewrite IH, <- app_assoc. Qed.

(** A step of the backend in which it looks at no ring. *)
Lemma inv_backend_idle s l rl p : ma_inv s -> (forall rid, pending (backend s) rid = 0) -> (forall rid, pending p rid = 0) ->
  l ++ rl ≡ₚ add_list s ++ ring_list s -> nodes_ok rl p -> (forall r, backend_ok p r) ->
  ma_inv (MA (capacity s) (block_size s) l rl (rings s) (owners s) p).
Proof.
  intros [H1 H2 H3 H4 H5 H6 H7 H8] Hp Hp' HP Hn Hb; split; simpl; try done.
  - intros x y E; rewrite Hp', <- (Hp x); by apply H2.
  - intros t o E; destruct (H3 _ _ E) as [Hm Ho]; split; [done|]; destruct (thread_ctx o) as [x|]; [|done].
    by rewrite Hp', <- (Hp x).
  - by rewrite HP.
  - intros x; rewrite HP; apply H6.
Qed.

(** A step in which it looks at ring [rid]. *)
Lemma inv_backend_ring s rid r r' p' rl : ma_inv s -> backend_ring (backend s) = Some rid -> rings s !! rid = Some r ->
  backend_effect (backend s) rid r r' p' -> nodes_ok rl p' -> rl ⊆ ring_list s -> NoDup (add_list s ++ rl) ->
  status r' = status r \/ rid ∉ add_list s ++ rl -> (backend_ring p' = Some rid \/ forall r0, backend_ok p' r0) ->
  ma_inv (MA (capacity s) (block_size s) (add_list s) rl (<[rid := r']> (rings s)) (owners s) p').
Proof.
  intros [H1 H2 H3 H4 H5 H6 H7 H8] Hrid Er (Hr & Hb & Ho & Hp) Hn Hrl HND Hs Hnext; split; simpl; try done.
  - intros x y [[<- <-]|[Hne E]]%lookup_insert_Some; [done|]; rewrite Hp by done; by apply H2.
  - intros t o E; destruct (H3 _ _ E) as [Hm H]; split; [done|]; destruct (thread_ctx o) as [x|]; [|done].
    destruct H as (y & Ey & Hy); destruct (decide (x = rid)) as [->|Hne].
    + exists r'; rewrite lookup_insert_eq; simplify_eq; split; [done|]; by apply Ho.
    + exists y; rewrite lookup_insert_ne, Hp by done; done.
  - intros x Hx; destruct (H6 x) as (y & Ey & Hy); [set_solver|]; destruct (decide (x = rid)) as [->|Hne].
    + exists r'; rewrite lookup_insert_eq; split; [done|]; simplify_eq; by destruct Hs as [->|].
    + exists y; by rewrite lookup_insert_ne by done.
  - intros x y Hx E; destruct Hnext as [Hnext|Hnext]; [|done]; simplify_eq; rewrite lookup_insert_eq in E; by simplify_eq.
Qed.

Lemma ring_step_ok p rid r : backend_ring p = Some rid -> ring_ok (pending p rid) r -> backend_ok p r ->
  exists r' p',
    match p with BRemove _ _ | BDone _ _ _ => muggle_ma_ring_handle_remove r p | _ => muggle_ma_ring_consume cap bs r p end = Some (r', p') /\
    backend_effect p rid r r' p' /\ (status r' = status r \/ exists prev rest, p = BDone prev rid rest) /\
    forall rl, nodes_ok rl p -> nodes_ok (match p with BDone prev _ rest => prev ++ rest | _ => rl end) p'.
Proof.
  intros Hrid Hr Hb; destruct p as [|l|x l pos w n|x l pos n|prev rest|prev x rest].
  5,6: by apply handle_remove_ok.
  all: edestruct consume_ok as (r' & p' & ? & ? & ? & ?); [done..|]; exists r', p'; split_and!; try done; by left.
Qed.

Lemma ring_step_next p rid r r' p' : backend_ring p = Some rid ->
  match p with BRemove _ _ | BDone _ _ _ => muggle_ma_ring_handle_remove r p | _ => muggle_ma_ring_consume cap bs r p end = Some (r', p') ->
  backend_ring p' = Some rid \/ forall r0, backend_ok p' r0.
Proof.
  destruct p as [|[|x l]|x l pos w n|x l pos n|prev [|x rest]|prev x rest]; simpl; intros ? E; simplify_eq/=; try (by left); try (by right).
  - destruct (pos =? w); [simplify_eq; destruct (0 <? n); [by left|by right]|].
    destruct (buffer r) as [b|]; simpl in E; [|done]; destruct (load_block b _ bs); simplify_eq/=; by left.
  - case_match; [by left|by right].
Qed.

(** The list after the step. *)
Definition next_list p (rl : list nat) : list nat := match p with BDone prev _ rest => prev ++ rest | _ => rl end.

Lemma backend_func_ring s rid r : backend_ring (backend s) = Some rid -> rings s !! rid = Some r ->
  s_muggle_ma_ring_backend_func s =
    ('(r', p') ← match backend s with
                 | BRemove _ _ | BDone _ _ _ => muggle_ma_ring_handle_remove r (backend s)
                 | _ => muggle_ma_ring_consume (capacity s) (block_size s) r (backend s)
                 end;
     Some (MA (capacity s) (block_size s) (add_list s) (next_list (backend s) (ring_list s)) (<[rid := r']> (rings s)) (owners s) p')).
Proof.
  unfold s_muggle_ma_ring_backend_func; intros H E.
  by destruct (backend s) as [|[|x l]| | |prev [|x rest]|]; simplify_eq/=; rewrite E.
Qed.

Lemma next_list_ok p (al rl : list nat) : nodes_ok rl p -> NoDup (al ++ rl) ->
  next_list p rl ⊆ rl /\ NoDup (al ++ next_list p rl) /\ (forall prev rid rest, p = BDone prev rid rest -> rid ∉ al ++ next_list p rl).
Proof.
  intros Hn HND; destruct p as [| | | | |prev rid rest]; simpl in *; try done; subst rl.
  assert (al ++ prev ++ rid :: rest ≡ₚ rid :: al ++ prev ++ rest) as HP by solve_Permutation.
  rewrite HP in HND; apply NoDup_cons in HND as [H1 H2]; split; [set_solver|]; split; [done|].
  by intros ? ? ? [= -> -> ->].
Qed.

Lemma inv_backend s : ma_inv s -> exists s', s_muggle_ma_ring_backend_func s = Some s' /\ ma_inv s'.
Proof.
  intros I; pose proof I as [H1 H2 H3 H4 H5 H6 H7 H8].
  destruct (backend_ring (backend s)) as [rid|] eqn:Hrid.
  - pose proof (backend_ring_listed _ _ _ H7 Hrid) as Hin; destruct (H6 rid) as (r & Er & _); [apply elem_of_app; by right|].
    destruct (ring_step_ok (backend s) rid r) as (r' & p' & E & He & Hs & Hn); [done|by apply H2|by apply (H8 rid)|].
    pose proof (ring_step_next _ _ _ _ _ Hrid E) as Hnext; specialize (Hn _ H7).
    destruct (next_list_ok _ _ _ H7 H5) as (Hsub & HND & Hnin).
    rewrite (backend_func_ring s rid r Hrid Er), (proj1 H1), (proj2 H1), E; simpl; eexists; split; [done|].
    rewrite <- (proj1 H1), <- (proj2 H1); eapply (inv_backend_ring s rid r r' p'); try done.
    destruct Hs as [Hs|(prev & rest & Hs)]; [by left|right; by eapply Hnin].
  - unfold s_muggle_ma_ring_backend_func; destruct (backend s) as [|[|x l]| | |prev [|x rest]|] eqn:Eb; try done.
    all: simpl; eexists; split; [done|]; apply inv_backend_idle; rewrite ?Eb; try done; simpl; rewrite handle_new_spec.
    all: by rewrite <- ?Permutation_rev.
Qed.

(** ** What the callers do keeps it *)

Lemma stale_room m : 0 <= m < cap -> exists K, K <= 0 /\ 0 - K <= cap - 1 /\ m = K mod cap.
Proof.
  intros Hm; destruct (decide (m = 0)) as [->|Hne].
  - exists 0; split_and!; try lia; by rewrite Z.mod_0_l by lia.
  - exists (m - cap); split_and!; try lia; replace (m - cap) with (m + -1 * cap) by lia.
    rewrite Z.mod_add by lia; by rewrite Z.mod_small by lia.
Qed.

(** The caller's next call. *)
Lemma ma_inv_call s t o q : ma_inv s -> owners s !! t = Some o -> o_pc o = OIdle -> is_Some (thread_ctx o) ->
  q = OJoin \/ (exists d, q = OWrite d /\ Z.of_nat (length d) = bs) ->
  ma_inv (MA (capacity s) (block_size s) (add_list s) (ring_list s) (rings s) (<[t := OW q (thread_ctx o) (move_r o)]> (owners s)) (backend s)).
Proof.
  intros I Eo Ep [rid Ec] Hq; pose proof I as [H1 H2 H3 H4 H5 H6 H7 H8]; split; simpl; try done.
  - intros t' y [[<- <-]|[Hne E]]%lookup_insert_Some; [|by eapply H3].
    destruct (H3 _ _ Eo) as [Hm H]; split; [done|]; simpl; rewrite Ec in *; destruct H as (r & Er & [Hroom Hp]).
    unfold place_ok in Hp; rewrite Ep in *; exists r; split; [done|].
    destruct Hq as [->|(d & -> & Hd)]; split; simpl; try done; intros _; by apply Hroom.
  - eapply distinct_insert; [exact H4|done|intros x Hx; by left].
Qed.

Lemma fresh_ctx s t o rid : ma_inv s -> rings s !! rid = None -> owners s !! t = Some o -> thread_ctx o <> Some rid.
Proof.
  intros I Er Eo Ec; destruct (mi_owners _ I _ _ Eo) as [_ H]; rewrite Ec in H; destruct H as (r & E & _); congruence.
Qed.

(** A new ring, in the list or not. *)
Lemma inv_new s t o rid b q al : ma_inv s -> owners s !! t = Some o -> thread_ctx o = None -> rings s !! rid = None ->
  (forall b', b = Some b' -> Z.of_nat (length b') = cap * bs) -> q = OJoin \/ q = OIdle /\ is_Some b ->
  al = add_list s \/ al = rid :: add_list s ->
  ma_inv (MA (capacity s) (block_size s) al (ring_list s) (<[rid := MR b 0 0 MUGGLE_MA_RING_STATUS_NORMAL [] []]> (rings s))
            (<[t := OW q (Some rid) (move_r o)]> (owners s)) (backend s)).
Proof.
  intros I Eo Ec Er Hb Hq Hal; pose proof (pending_dead _ _ I Er) as Hp; pose proof I as [H1 H2 H3 H4 H5 H6 H7 H8].
  assert (rid ∉ add_list s ++ ring_list s) as Hnin by (intros Hin; destruct (H6 _ Hin) as (r & E & _); congruence).
  split; simpl; try done.
  - intros x y [[<- <-]|[Hne E]]%lookup_insert_Some; [|by apply H2].
    rewrite Hp; split; unfold written, consumed; simpl; try done; lia.
  - intros t' y [[<- <-]|[Hne E]]%lookup_insert_Some.
    + destruct (H3 _ _ Eo) as [Hm _]; split; [done|]; simpl; eexists; rewrite lookup_insert_eq; split; [done|]; rewrite Hp.
      destruct Hq as [->|[-> HB]]; split; simpl; try done; intros _; split; [done|]; by apply stale_room.
    + apply owner_has_insert; [by apply (fresh_ctx s t')|by eapply H3].
  - eapply distinct_insert; [exact H4|done|]; intros x [= <-]; right; intros t' o' E; by apply (fresh_ctx s t').
  - destruct Hal as [->| ->]; [done|]; simpl; by apply NoDup_cons.
  - intros x Hx; destruct (decide (x = rid)) as [->|Hne].
    + eexists; rewrite lookup_insert_eq; done.
    + rewrite lookup_insert_ne by done; apply H6; destruct Hal as [->| ->]; set_solver.
  - intros x y Hx [[<- <-]|[Hne E]]%lookup_insert_Some; [|by eapply H8].
    destruct Hnin; apply elem_of_app; right; by eapply backend_ring_listed.
Qed.

Lemma inv_start s t : ma_inv s -> owners s !! t = None ->
  ma_inv (MA (capacity s) (block_size s) (add_list s) (ring_list s) (rings s) (<[t := OW OIdle None 0]> (owners s)) (backend s)).
Proof.
  intros [H1 H2 H3 H4 H5 H6 H7 H8] Et; split; simpl; try done.
  - intros t' y [[<- <-]|[Hne E]]%lookup_insert_Some; [split; [simpl; lia|done]|by eapply H3].
  - intros t1 t2 a b rid [[<- <-]|[N1 E1]]%lookup_insert_Some [[<- <-]|[N2 E2]]%lookup_insert_Some; try done; by apply H4.
Qed.

Lemma inv_get s t o mem_ring mem_buffer mem_node : ma_inv s -> owners s !! t = Some o -> o_pc o = OIdle ->
  (forall rid, mem_ring = Some rid -> rings s !! rid = None) -> ma_inv (muggle_ma_ring_thread_ctx_init s t o mem_ring mem_buffer mem_node).
Proof.
  intros I Eo Ep Hf; unfold muggle_ma_ring_thread_ctx_init, muggle_ma_ring_insert_thread_ctx.
  destruct (thread_ctx o) eqn:Ec; [done|]; destruct mem_ring as [rid|]; [|done]; specialize (Hf _ eq_refl).
  assert (forall b', Some (uninit (u32 (capacity s * block_size s)) : list (option Z)) = Some b' -> Z.of_nat (length b') = cap * bs) as Hl.
  { intros b' [= <-]; destruct (mi_cap _ I) as [-> ->]; unfold uninit; rewrite length_replicate, wrap_small by (unfold in_width; nia); nia. }
  destruct mem_buffer; simpl; [|apply inv_new; auto; done].
  destruct mem_node; simpl; apply inv_new; eauto.
Qed.

Lemma ma_inv_env s s' : ma_inv s -> ma_env s s' -> ma_inv s'.
Proof.
  intros I H; destruct H as [s t E|s t o mr mb mn Eo Ep Hf|s t o rid d Eo Ep Ec Ed|s t o rid Eo Ep Ec].
  - by apply inv_start.
  - unfold muggle_ma_ring_thread_ctx_get; destruct (thread_ctx o); [done|by apply inv_get].
  - rewrite <- Ec; apply ma_inv_call; rewrite ?Ec; eauto; right; exists d; by rewrite <- (proj2 (mi_cap _ I)).
  - unfold muggle_ma_ring_thread_ctx_cleanup; rewrite Ec, <- Ec; apply ma_inv_call; rewrite ?Ec; eauto.
Qed.

Lemma owner_step_moves r o r' o' : owner_step cap bs r o = Some (r', o') -> moves (o_pc o) = true.
Proof. unfold owner_step; by destruct (o_pc o). Qed.

Lemma ma_inv_code s s' : ma_inv s -> ma_code s s' -> ma_inv s'.
Proof.
  intros I H; destruct H as [s t o rid r r' o' Eo Ec Er H|s t o rid Eo Ec Ep|s s' H].
  - rewrite (proj1 (mi_cap _ I)), (proj2 (mi_cap _ I)) in H; destruct (mi_owners _ I _ _ Eo) as [Hm Ho]; rewrite Ec in Ho; destruct Ho as (r0 & Er0 & Ho); simplify_eq.
    destruct (owner_step_ok _ r o (mi_rings _ I _ _ Er) Ho (owner_step_moves _ _ _ _ H) Hm) as (r1 & o1 & H' & ? & ? & ? & ? & ? & ? & ?).
    rewrite H in H'; simplify_eq; by eapply inv_owner.
  - by apply inv_free.
  - destruct (inv_backend s I) as (s'' & H' & I'); by simplify_eq.
Qed.

Lemma start_inv s : ma_start_state s -> capacity s = cap -> block_size s = bs -> ma_inv s.
Proof.
  intros Hs Ec Eb; assert (add_list s = [] /\ ring_list s = [] /\ rings s = ∅ /\ owners s = ∅ /\ backend s = BNew) as (E1 & E2 & E3 & E4 & E5)
    by (clear Ec Eb; induction Hs; [done|exact IHHs..]).
  split; rewrite ?E1, ?E2, ?E3, ?E4, ?E5; simpl; try done; [constructor|set_solver].
Qed.

Lemma ma_reach_inv s0 s : capacity s0 = cap -> block_size s0 = bs -> ma_reach s0 s -> ma_inv s.
Proof.
  intros Ec Eb; induction 1 as [Hs|s s' _ IH [H|H]]; [by apply start_inv|by eapply ma_inv_code|by eapply ma_inv_env].
Qed.
End Local.

(** ** Correctness *)

(** C17: When the buffers have less than 2^32 bytes, whatever the threads and the
    backend do, and in whatever order: what the callback gets from a ring is what
    its thread wrote, byte for byte and in that order, at most [capacity - 1]
    behind; no step reads a ring that was freed, a byte that was not written or
    one outside of the buffer; and a ring is freed when its data have all been
    received and the backend has no pointer to it. *)
Theorem ma_ring_fifo (s0 s : ma_state) (Hs : ma_reach s0 s) (Hcap : 1 <= capacity s0) (Hbs : 1 <= block_size s0)
    (Hsize : capacity s0 * block_size s0 < 2 ^ 32) :
  (forall rid r, rings s !! rid = Some r ->
     received r `prefix_of` sent r /\ Z.of_nat (length (sent r)) - Z.of_nat (length (received r)) <= capacity s0 - 1) /\
  is_Some (s_muggle_ma_ring_backend_func s) /\
  (forall t o rid, owners s !! t = Some o -> thread_ctx o = Some rid -> exists r, rings s !! rid = Some r /\
     match o_pc o with
     | OIdle => True
     | OFree => received r = sent r /\ rid ∉ add_list s ++ ring_list s
     | _ => is_Some (owner_step (capacity s0) (block_size s0) r o)
     end).
Proof.
  pose proof (ma_reach_inv _ _ Hcap Hbs Hsize s0 s eq_refl eq_refl Hs) as I; split; [|split].
  - intros rid r Er; destruct (mi_rings _ _ _ I _ _ Er) as [_ Hb Hf _ _]; unfold written, consumed in Hb; split; [done|lia].
  - destruct (inv_backend _ _ Hcap Hbs Hsize s I) as (s' & -> & _); done.
  - intros t o rid Eo Ec; destruct (mi_owners _ _ _ I _ _ Eo) as [Hm Ho]; rewrite Ec in Ho; destruct Ho as (r & Er & Ho); exists r; split; [done|].
    pose proof (owner_step_ok _ _ Hcap Hbs Hsize _ r o (mi_rings _ _ _ I _ _ Er) Ho) as Hst.
    destruct (o_pc o) eqn:Ep; try done; try (destruct Hst as (r' & o' & -> & _); [done..|by eexists]).
    pose proof (oo_place _ _ _ _ _ Ho) as Hp; unfold place_ok in Hp; rewrite Ep in Hp; split; [apply Hp|by eapply free_unlisted].
Qed.

(** ** Runs that can be evaluated *)

Inductive ma_action := AStart (t : nat) | AGet (t rid : nat) | AWrite (t : nat) (d : list Z) | ACleanup (t : nat) | AOwner (t : nat) | ABackend.

Definition set_owner s t o := MA (capacity s) (block_size s) (add_list s) (ring_list s) (rings s) (<[t := o]> (owners s)) (backend s).

Definition ma_exec (a : ma_action) (s : ma_state) : option ma_state :=
  match a with
  | AStart t => match owners s !! t with None => Some (set_owner s t (OW OIdle None 0)) | Some _ => None end
  | AGet t rid =>
      match owners s !! t, rings s !! rid with
      | Some (OW OIdle c m), None => Some (muggle_ma_ring_thread_ctx_get s t (OW OIdle c m) (Some rid) true true)
      | _, _ => None
      end
  | AWrite t d => match owners s !! t with Some (OW OIdle (Some rid) m) =>
      if decide (Z.of_nat (length d) = block_size s) then Some (set_owner s t (OW (OWrite d) (Some rid) m)) else None
    | _ => None end
  | ACleanup t => match owners s !! t with Some (OW OIdle (Some rid) m) => Some (set_owner s t (muggle_ma_ring_thread_ctx_cleanup (OW OIdle (Some rid) m))) | _ => None end
  | AOwner t =>
      o ← owners s !! t; rid ← thread_ctx o; r ← rings s !! rid; '(r', o') ← owner_step (capacity s) (block_size s) r o;
      Some (MA (capacity s) (block_size s) (add_list s) (ring_list s) (<[rid := r']> (rings s)) (<[t := o']> (owners s)) (backend s))
  | ABackend => s_muggle_ma_ring_backend_func s
  end.

Fixpoint ma_run (l : list ma_action) (s : ma_state) : option ma_state :=
  match l with [] => Some s | a :: l => s' ← ma_exec a s; ma_run l s' end.

Lemma ma_exec_sound a s s' : ma_exec a s = Some s' -> ma_code s s' \/ ma_env s s'.
Proof.
  destruct a as [t|t rid|t d|t|t|]; simpl; intros H.
  - right; destruct (owners s !! t) eqn:E; simplify_eq; by constructor.
  - right; destruct (owners s !! t) as [[[] c m]|] eqn:E; try done; destruct (rings s !! rid) eqn:F; simplify_eq.
    constructor; [done..|]; by intros ? [= <-].
  - right; destruct (owners s !! t) as [[[] [rid|] m]|] eqn:E; try done; case_decide; simplify_eq; by apply (ma_write s t (OW OIdle (Some rid) m) rid d).
  - right; destruct (owners s !! t) as [[[] [rid|] m]|] eqn:E; simplify_eq; by apply (ma_cleanup s t (OW OIdle (Some rid) m) rid).
  - left; destruct (owners s !! t) as [o|] eqn:E; simpl in H; [|done]; destruct (thread_ctx o) as [rid|] eqn:Ec; simpl in H; [|done].
    destruct (rings s !! rid) as [r|] eqn:Er; simpl in H; [|done]; destruct (owner_step _ _ r o) as [[r' o']|] eqn:Es; simplify_eq/=.
    by eapply ma_owner.
  - left; by apply ma_backend.
Qed.

Lemma ma_run_reach s0 l s s' : ma_reach s0 s -> ma_run l s = Some s' -> ma_reach s0 s'.
Proof.
  revert s; induction l as [|a l IH]; simpl; intros s Hr H; [by simplify_eq|].
  destruct (ma_exec a s) as [s1|] eqn:E; simpl in H; [|done]; eapply IH; [|done]; eapply ma_next; [done|by eapply ma_exec_sound].
Qed.

(** Four blocks for a datum of one byte; a thread writes, the backend reads, and
    the thread cleans up. *)
Definition sample_start : ma_state :=
  muggle_ma_ring_ctx_set_capacity (muggle_ma_ring_ctx_set_data_size
    (MA MUGGLE_MA_RING_DEFAULT_CAPACITY MUGGLE_MA_RING_DEFAULT_BLOCK_SIZE [] [] ∅ ∅ BNew) 1) 4.
Definition sample_data : list Z := 5 :: replicate 191 0.
Definition sample_run : list ma_action :=
  [AStart 0; AGet 0 7; AWrite 0 sample_data; AOwner 0; AOwner 0; AOwner 0; ACleanup 0; AOwner 0] ++
  replicate 6 ABackend ++ [AOwner 0; AOwner 0] ++ replicate 7 ABackend ++ [AOwner 0].

Lemma sample_start_reach : ma_reach sample_start sample_start.
Proof. apply ma_init, ma_set_capacity, ma_set_data_size, ma_default. Qed.

Lemma ma_ring_fifo_witness : exists s, ma_reach sample_start s /\ owners s !! 0%nat = Some (OW OFree (Some 7%nat) 0) /\
  exists r, rings s !! 7%nat = Some r /\ sent r = [sample_data] /\ received r = sent r /\ 7%nat ∉ add_list s ++ ring_list s.
Proof.
  assert ((fun s => (owners s !! 0%nat, sent <$> rings s !! 7%nat)) <$> ma_run sample_run sample_start =
    Some (Some (OW OFree (Some 7%nat) 0), Some [sample_data])) as HE by (vm_compute; reflexivity).
  destruct (ma_run sample_run sample_start) as [s|] eqn:E; [|discriminate HE]; injection HE as Eo Es.
  assert (ma_reach sample_start s) as Hr by (eapply ma_run_reach; [apply sample_start_reach|exact E]).
  exists s; split; [exact Hr|]; split; [exact Eo|].
  destruct (ma_ring_fifo sample_start s Hr) as (_ & _ & H); [vm_compute; discriminate|vm_compute; discriminate|vm_compute; reflexivity|].
  destruct (H 0%nat _ 7%nat Eo eq_refl) as (r & Er & H1 & H2); exists r; split; [exact Er|].
  rewrite Er in Es; injection Es as Es; split; [exact Es|]; split; [exact H1|exact H2].
Defined.

(** ** What modelling showed *)

(** [thread_ctx_init] has no memory for the buffer or for the node of the list:
    the ring is in no list, and its thread is in [cleanup]. *)
Definition unlisted (t rid : nat) (s : ma_state) : Prop :=
  rid ∉ add_list s ++ ring_list s /\
  exists o r, owners s !! t = Some o /\ thread_ctx o = Some rid /\ (o_pc o = OJoin \/ o_pc o = ORemove \/ o_pc o = OWait) /\
    rings s !! rid = Some r /\ status r <> MUGGLE_MA_RING_STATUS_DONE.

Lemma backend_frame cap bs (Hcap : 1 <= cap) (Hbs : 1 <= bs) (Hsize : cap * bs < 2 ^ 32) s s' : ma_inv cap bs s -> s_muggle_ma_ring_backend_func s = Some s' ->
  owners s' = owners s /\ add_list s' ++ ring_list s' ⊆ add_list s ++ ring_list s /\
  (forall rid, rid ∉ add_list s ++ ring_list s -> rings s' !! rid = rings s !! rid).
Proof.
  intros I H; destruct (backend_ring (backend s)) as [rid|] eqn:Hrid.
  - pose proof (backend_ring_listed cap bs Hcap Hbs Hsize _ _ _ (mi_nodes _ _ _ I) Hrid) as Hin.
    destruct (mi_listed _ _ _ I rid) as (r & Er & _); [apply elem_of_app; by right|].
    rewrite (backend_func_ring s rid r Hrid Er) in H; apply bind_Some in H as ([r' p'] & _ & [= <-]); simpl.
    destruct (next_list_ok cap bs Hcap Hbs Hsize _ _ _ (mi_nodes _ _ _ I) (mi_lists _ _ _ I)) as (Hsub & _).
    split; [done|]; split; [set_solver|]; intros x Hx; rewrite lookup_insert_ne; [done|]; intros ->; apply Hx, elem_of_app; by right.
  - unfold s_muggle_ma_ring_backend_func in H; destruct (backend s) as [|[|x l]| | |prev [|x rest]|]; simplify_eq/=; try done.
    rewrite handle_new_spec; split_and!; [done| |done]; rewrite <- Permutation_rev; done.
Qed.

Lemma unlisted_other t rid s t' o' al R : unlisted t rid s -> t' <> t -> rid ∉ al ++ ring_list s -> R !! rid = rings s !! rid ->
  unlisted t rid (MA (capacity s) (block_size s) al (ring_list s) R (<[t' := o']> (owners s)) (backend s)).
Proof.
  intros [Hn (o & r & Eo & Ec & Hp & Er & Hs)] Hne Hal HR.
  split; [done|]; exists o, r; simpl; by rewrite lookup_insert_ne, HR by done.
Qed.

Lemma unlisted_code cap bs (Hcap : 1 <= cap) (Hbs : 1 <= bs) (Hsize : cap * bs < 2 ^ 32) t rid s s' : ma_inv cap bs s -> unlisted t rid s -> ma_code s s' -> unlisted t rid s'.
Proof.
  intros I HU H; pose proof HU as [Hn (o & r & Eo & Ec & Hp & Er & Hs)].
  destruct H as [s t' o1 rid' r1 r' o' Eo1 Ec1 Er1 H|s t' o1 rid' Eo1 Ec1 Ep|s s' H].
  - destruct (decide (t' = t)) as [->|Hne]; simplify_eq.
    + split; [done|]; exists o', r'; simpl; rewrite !lookup_insert_eq.
      unfold owner_step in H; destruct Hp as [Ep|[Ep|Ep]]; rewrite Ep in H; simplify_eq/=; split_and!; try done.
      * unfold muggle_ma_ring_join; case_match; auto.
      * auto.
      * rewrite (proj2 (Z.eqb_neq _ _) Hs); auto.
    + apply unlisted_other; try done; rewrite lookup_insert_ne; [done|]; intros ->; apply Hne; by eapply (mi_distinct _ _ _ I).
  - destruct (decide (t' = t)) as [->|Hne]; [simplify_eq; destruct Hp as [Hp|[Hp|Hp]]; congruence|].
    apply unlisted_other; try done; rewrite lookup_delete_ne; [done|]; intros ->; apply Hne; by eapply (mi_distinct _ _ _ I).
  - destruct (backend_frame cap bs Hcap Hbs Hsize s s' I H) as (E1 & E2 & E3); split; [set_solver|].
    exists o, r; rewrite E1, E3 by done; done.
Qed.

Lemma unlisted_env t rid s s' : unlisted t rid s -> ma_env s s' -> unlisted t rid s'.
Proof.
  intros HU H; pose proof HU as [Hn (o & r & Eo & Ec & Hp & Er & Hs)].
  assert (forall t' o', owners s !! t' = Some o' -> o_pc o' = OIdle -> t' <> t) as Hidle
    by (intros t' o' E' Ep' ->; simplify_eq; destruct Hp as [Hp|[Hp|Hp]]; congruence).
  destruct H as [s t' Et|s t' o1 mr mb mn Eo1 Ep Hf|s t' o1 rid' d Eo1 Ep Ec1|s t' o1 rid' Eo1 Ep Ec1].
  - apply unlisted_other; try done; congruence.
  - unfold muggle_ma_ring_thread_ctx_get, muggle_ma_ring_thread_ctx_init, muggle_ma_ring_insert_thread_ctx.
    destruct (thread_ctx o1); [done|]; destruct mr as [rid'|]; [|done]; specialize (Hf _ eq_refl).
    assert (rid' <> rid) as Hne by congruence; pose proof (Hidle _ _ Eo1 Ep).
    destruct mb; [destruct mn|]; simpl; apply unlisted_other; try done; try (by rewrite lookup_insert_ne); set_solver.
  - apply unlisted_other; try done; by eapply Hidle.
  - apply unlisted_other; try done; by eapply Hidle.
Qed.

(** When there is no memory for the buffer or for the node, [thread_ctx_init]
    does not return: the clean-up that it calls waits for the backend, and the
    backend never gets to know of the ring, whatever runs afterwards. *)
Theorem ma_ring_init_failure_waits_defect (s0 s : ma_state) (Hs : ma_reach s0 s)
    (Hcap : 1 <= capacity s0) (Hbs : 1 <= block_size s0) (Hsize : capacity s0 * block_size s0 < 2 ^ 32)
    (t rid : nat) (o : owner) (Ho : owners s !! t = Some o) (Hidle : o_pc o = OIdle) (Hctx : thread_ctx o = None)
    (Hrid : rings s !! rid = None) (mem_buffer mem_node : bool) (Hmem : mem_buffer && mem_node = false) (s' : ma_state)
    (Hrun : rtc (fun a b => ma_code a b \/ ma_env a b) (muggle_ma_ring_thread_ctx_init s t o (Some rid) mem_buffer mem_node) s') :
  exists o', owners s' !! t = Some o' /\ thread_ctx o' = Some rid /\ (o_pc o' = OJoin \/ o_pc o' = ORemove \/ o_pc o' = OWait).
Proof.
  pose proof (ma_reach_inv _ _ Hcap Hbs Hsize s0 s eq_refl eq_refl Hs) as I; set (cap := capacity s0) in *; set (bs := block_size s0) in *; clearbody cap bs.
  assert (rid ∉ add_list s ++ ring_list s) as Hn by (intros Hin; destruct (mi_listed _ _ _ I _ Hin) as (r & E & _); congruence).
  assert (ma_inv cap bs (muggle_ma_ring_thread_ctx_init s t o (Some rid) mem_buffer mem_node)) as I'
    by (apply inv_get; try done; by intros ? [= <-]).
  assert (unlisted t rid (muggle_ma_ring_thread_ctx_init s t o (Some rid) mem_buffer mem_node)) as HU.
  { unfold muggle_ma_ring_thread_ctx_init, muggle_ma_ring_insert_thread_ctx; rewrite Hctx.
    destruct mem_buffer; [destruct mem_node; [done|]|]; simpl; (split; [done|]); eexists _, _;
      split_and!; try apply lookup_insert_eq; simpl; try done; auto. }
  clear -Hrun HU I' Hcap Hbs Hsize; induction Hrun as [a|a b c Hab _ IH].
  - destruct HU as [_ (o' & r & H)]; exists o'; intuition.
  - apply IH; destruct Hab as [Hab|Hab].
    + by eapply ma_inv_code. + by eapply ma_inv_env. + by eapply (unlisted_code cap bs). + by eapply unlisted_env.
Qed.

(** The size of the buffer is computed in 32 bits: with 2^22 blocks of 1024 bytes,
    what is asked of [malloc] is no memory at all, and the first write is outside
    of it. *)
Theorem ma_ring_size_wraps_defect (t rid : nat) (d : list Z) :
  let s0 := muggle_ma_ring_ctx_set_capacity (MA MUGGLE_MA_RING_DEFAULT_CAPACITY MUGGLE_MA_RING_DEFAULT_BLOCK_SIZE [] [] ∅ ∅ BNew) (2 ^ 22) in
  let s := muggle_ma_ring_thread_ctx_init s0 t (OW OIdle None 0) (Some rid) true true in
  ma_start_state s0 /\ d <> [] /\ Z.of_nat (length d) <= block_size s0 ->
  exists r, rings s !! rid = Some r /\ buffer r = Some [] /\ write_data (block_size s0) r d = None.
Proof.
  intros s0 s (_ & Hd & _); eexists; split; [apply lookup_insert_eq|]; split; [vm_compute; reflexivity|].
  unfold write_data, store_block, copy_in; simpl; rewrite decide_False; [done|]; rewrite length_fmap.
  destruct d; [done|]; simpl; lia.
Qed.
