(* ===== verification/EventLoop.v ===== *)
(** * The event loop: [event/event_loop.c], [event_context.c], [event_signal.c]

    What the implementations of the loop ([EventPoll.v], [EventSelect.v],
    [EventEpoll.v]) share: the contexts, the list of the nodes, the signal that
    wakes the loop, and the callbacks.  What a callback does to the loop is a
    list of actions; the callbacks are a script, of which each call takes the
    next entry, so that a theorem for every script is one for all callbacks.
    A context is freed by its close callback: an access after that is a fault.
    The list of contexts is the sequence that [LinkedList.v] proves its
    functions implement; descriptors are numbers. *)
From S2P Require Import Prelude Utils.

(** ** Contexts *)

Record muggle_event_context := CTX { fd : Z; flags : Z }.
Definition MUGGLE_EV_CTX_FLAG_CLOSED : Z := 1.
Definition MUGGLE_EV_LOOP_EXIT_STATUS_WAKE : Z := 2.
Definition MUGGLE_EV_LOOP_EXIT_STATUS_EXIT : Z := 1.

Definition muggle_ev_ctx_init (f : Z) : muggle_event_context := CTX f 0.
Definition closed (x : muggle_event_context) : bool := negb (Z.land (flags x) MUGGLE_EV_CTX_FLAG_CLOSED =? 0).

(** What a callback may do: set a flag of a live context (as
    [muggle_ev_ctx_shutdown] does), add a new context [c] on descriptor [f] -
    with whether the descriptor can be set non-blocking, the address of the list
    node if there is memory for it, and the answer of [epoll_ctl] - or stop the
    loop. *)
Inductive action :=
| ASetFlag (c : nat) (flag : Z)
| AAdd (c : nat) (f : Z) (nonblock : bool) (mem_node : option nat) (kernel : bool)
| AExit.

(** The calls of callbacks, which the model records. *)
Inductive ev_call := CRead (c : nat) | CClose (c : nat) | CWake | CTimer | CClear (c : nat) | CExit.

(** Which callbacks are set. *)
Record callbacks := CB { cb_read : bool; cb_close : bool; cb_wake : bool; cb_timer : bool; cb_clear : bool; cb_exit : bool }.

(** [ctx_list] has the nodes, [node_data] the context of a node; [ev_signal] is
    the counter of the [eventfd].  A context has a name of its own, also when it
    is at the address of one that was freed: [known] are the names so far. *)
Record muggle_event_loop := EL {
  ctx_list : list nat; node_data : gmap nat nat; ctxs : gmap nat muggle_event_context; known : gset nat;
  ev_signal : Z; to_exit : Z; timeout : Z; cbs : callbacks;
  script : list (list action); trace : list ev_call
}.

Section Base.
Implicit Types b : muggle_event_loop.

Definition set_list b l d := EL l d (ctxs b) (known b) (ev_signal b) (to_exit b) (timeout b) (cbs b) (script b) (trace b).
Definition set_ctxs b x := EL (ctx_list b) (node_data b) x (known b) (ev_signal b) (to_exit b) (timeout b) (cbs b) (script b) (trace b).
Definition new_ctx b c x :=
  EL (ctx_list b) (node_data b) (<[c := x]> (ctxs b)) ({[c]} ∪ known b) (ev_signal b) (to_exit b) (timeout b) (cbs b) (script b) (trace b).
Definition set_signal b x := EL (ctx_list b) (node_data b) (ctxs b) (known b) x (to_exit b) (timeout b) (cbs b) (script b) (trace b).
Definition set_exit b x := EL (ctx_list b) (node_data b) (ctxs b) (known b) (ev_signal b) x (timeout b) (cbs b) (script b) (trace b).
Definition set_timeout b x := EL (ctx_list b) (node_data b) (ctxs b) (known b) (ev_signal b) (to_exit b) x (cbs b) (script b) (trace b).
Definition set_io b x y := EL (ctx_list b) (node_data b) (ctxs b) (known b) (ev_signal b) (to_exit b) (timeout b) (cbs b) x y.

(** [muggle_linked_list_append] at the end, and [muggle_linked_list_remove]. *)
Definition list_append b (node c : nat) := set_list b (ctx_list b ++ [node]) (<[node := c]> (node_data b)).
Definition list_remove b (node : nat) := set_list b (filter (fun x => x <> node) (ctx_list b)) (delete node (node_data b)).

(** [muggle_linked_list_next]. *)
Fixpoint next_in (l : list nat) (node : nat) : option nat :=
  match l with [] => None | x :: l => if decide (x = node) then head l else next_in l node end.

Definition in_use b (mem_node : option nat) : bool := match mem_node with Some node => bool_decide (node ∈ ctx_list b) | None => false end.

Definition muggle_ev_ctx_set_flag b (c : nat) (flag : Z) : option muggle_event_loop :=
  x ← ctxs b !! c; Some (set_ctxs b (<[c := CTX (fd x) (Z.lor (flags x) flag)]> (ctxs b))).

(** The [eventfd]: a write adds one, unless the counter is at its maximum; a
    read takes all, and fails when there is none. *)
Definition EVENTFD_MAX : Z := 2 ^ 64 - 2.
Definition MUGGLE_EVENT_ERROR : Z := -1.
Definition muggle_ev_signal_wakeup b : Z * muggle_event_loop :=
  if ev_signal b + 1 <=? EVENTFD_MAX then (0, set_signal b (ev_signal b + 1)) else (MUGGLE_EVENT_ERROR, b).
Definition muggle_ev_signal_clearup b : Z * muggle_event_loop :=
  if ev_signal b =? 0 then (0, b) else (swrap 32 (ev_signal b), set_signal b 0).

Definition muggle_evloop_wakeup b : Z * muggle_event_loop := muggle_ev_signal_wakeup b.
Definition muggle_evloop_set_timer_interval b (t : Z) := set_timeout b t.

(** [same_thread] is whether the caller is the thread of the loop. *)
Definition muggle_evloop_exit b (same_thread : bool) : muggle_event_loop :=
  if negb same_thread then snd (muggle_evloop_wakeup (set_exit b MUGGLE_EV_LOOP_EXIT_STATUS_WAKE))
  else set_exit b MUGGLE_EV_LOOP_EXIT_STATUS_EXIT.

(** The structure of the list: a node has a live context, of its own. *)
Record base_ok b : Prop := {
  bo_nodup : NoDup (ctx_list b);
  bo_nodes : forall node, node ∈ ctx_list b <-> is_Some (node_data b !! node);
  bo_ctxs : forall node c, node_data b !! node = Some c -> is_Some (ctxs b !! c);
  bo_inj : forall n1 n2 c, node_data b !! n1 = Some c -> node_data b !! n2 = Some c -> n1 = n2;
  bo_known : forall c, is_Some (ctxs b !! c) -> c ∈ known b
}.

(** What the callbacks leave: they only add. *)
Record grows b b' : Prop := {
  gr_list : ctx_list b `prefix_of` ctx_list b';
  gr_nodes : node_data b ⊆ node_data b';
  gr_ctxs : forall c x, ctxs b !! c = Some x -> exists x', ctxs b' !! c = Some x' /\ fd x' = fd x;
  gr_config : cbs b' = cbs b /\ timeout b' = timeout b;
  gr_known : known b ⊆ known b'
}.

#[global] Instance grows_preorder : PreOrder grows.
Proof.
  split; [intros b; split; try done; eauto|].
  intros a b c [H1 H2 H3 [H4 H5] H6] [H1' H2' H3' [H4' H5'] H6']; split; [by etrans|by etrans| |by rewrite H4', H5'|by etrans].
  intros x y E; destruct (H3 _ _ E) as (y' & E' & F); destruct (H3' _ _ E') as (z & E2 & F2); exists z; by rewrite F2.
Qed.
(** A change that touches neither the list nor the descriptors. *)
Record keeps b b' : Prop := {
  kp_list : ctx_list b' = ctx_list b;
  kp_nodes : node_data b' = node_data b;
  kp_ctxs : forall c x, ctxs b !! c = Some x -> exists x', ctxs b' !! c = Some x' /\ fd x' = fd x;
  kp_known : known b ⊆ known b' /\ forall c, is_Some (ctxs b' !! c) -> is_Some (ctxs b !! c) \/ c ∈ known b'
}.

Lemma keeps_ok b b' : base_ok b -> keeps b b' -> base_ok b'.
Proof.
  intros [H1 H2 H3 H4 H5] [E1 E2 E3 [E4 E5]]; split; rewrite ?E1, ?E2; try done.
  - intros node c H; destruct (H3 _ _ H) as [x Hx]; destruct (E3 _ _ Hx) as (x' & -> & _); by eexists.
  - intros c H; destruct (E5 _ H) as [E|E]; [by apply E4, H5|done].
Qed.

Lemma same_keeps b b' : ctx_list b' = ctx_list b -> node_data b' = node_data b -> ctxs b' = ctxs b -> known b' = known b -> keeps b b'.
Proof. intros H1 H2 H3 H4; split; rewrite ?H3, ?H4; eauto. Qed.

Lemma keeps_grows b b' : keeps b b' -> cbs b' = cbs b -> timeout b' = timeout b -> grows b b'.
Proof. intros [H1 H2 H3 [H4 _]] Hc Ht; split; [by rewrite H1|by rewrite H2|done|done|done]. Qed.

Lemma set_flag_keeps b c flag b' : muggle_ev_ctx_set_flag b c flag = Some b' ->
  keeps b b' /\ cbs b' = cbs b /\ timeout b' = timeout b /\ script b' = script b /\ trace b' = trace b /\ to_exit b' = to_exit b.
Proof.
  unfold muggle_ev_ctx_set_flag; intros (x & E & [= <-])%bind_Some; split; [|done]; split; simpl; try done.
  - intros c' y Hy; destruct (decide (c' = c)) as [->|Hne]; [simplify_eq|].
    + eexists; rewrite lookup_insert_eq; done.
    + exists y; by rewrite lookup_insert_ne by done.
  - split; [done|]; intros c'; destruct (decide (c' = c)) as [->|Hne]; [by eauto|rewrite lookup_insert_ne by done; auto].
Qed.

Lemma filter_ne (l : list nat) node : node ∉ l -> filter (fun x => x <> node) l = l.
Proof.
  induction l as [|x l IH]; [done|]; intros Hn; rewrite filter_cons_True by set_solver; f_equal; apply IH; set_solver.
Qed.

Lemma closed_flag d f : closed (CTX d (Z.lor f MUGGLE_EV_CTX_FLAG_CLOSED)) = true.
Proof.
  unfold closed; simpl; apply negb_true_iff, Z.eqb_neq; intros E.
  apply (f_equal (fun z => Z.testbit z 0)) in E; rewrite Z.land_spec, Z.lor_spec in E; simpl in E; by rewrite orb_true_r in E.
Qed.

Lemma list_remove_append b node c : node ∉ ctx_list b -> node_data b !! node = None -> list_remove (list_append b node c) node = b.
Proof.
  intros Hn Hd; destruct b as [l d x kn g e t k sc tr]; unfold list_remove, list_append, set_list; simpl in *; f_equal.
  - rewrite filter_app, filter_singleton_False by naive_solver; rewrite app_nil_r; by apply filter_ne.
  - by apply delete_insert_id.
Qed.

Lemma append_ok b node c : base_ok b -> node ∉ ctx_list b -> is_Some (ctxs b !! c) -> (forall n, node_data b !! n <> Some c) ->
  base_ok (list_append b node c).
Proof.
  intros [H1 H2 H3 H4 H5] Hn Hc Hf; split; simpl.
  - apply NoDup_app; split; [done|]; split; [|apply NoDup_singleton]; intros x Hx ->%list_elem_of_singleton; done.
  - intros x; rewrite elem_of_app, list_elem_of_singleton; destruct (decide (x = node)) as [->|Hne].
    + rewrite lookup_insert_eq; naive_solver.
    + rewrite lookup_insert_ne by done; rewrite <- H2; naive_solver.
  - intros x y [[<- <-]|[Hne E]]%lookup_insert_Some; [done|by eapply H3].
  - intros n1 n2 y [[<- <-]|[N1 E1]]%lookup_insert_Some [[<- E2]|[N2 E2]]%lookup_insert_Some; try done; try naive_solver.
  - done.
Qed.

Lemma list_remove_ok b node c : base_ok b -> node_data b !! node = Some c ->
  base_ok (list_remove (set_ctxs b (delete c (ctxs b))) node) /\ base_ok (list_remove b node).
Proof.
  intros [H1 H2 H3 H4 H5] Hd.
  assert (forall x, x ∈ filter (fun x => x <> node) (ctx_list b) <-> is_Some (delete node (node_data b) !! x)) as HL.
  { intros x; rewrite list_elem_of_filter, H2; destruct (decide (x = node)) as [->|Hne].
    - rewrite lookup_delete_eq; split; [naive_solver|by intros []].
    - rewrite lookup_delete_ne by done; naive_solver. }
  split; split; simpl; try done; try by apply NoDup_filter.
  - intros x y [Hne E]%lookup_delete_Some; rewrite lookup_delete_ne; [by eapply H3|]; intros <-; by apply Hne, (H4 _ _ _ Hd).
  - intros n1 n2 y [_ E1]%lookup_delete_Some [_ E2]%lookup_delete_Some; by eapply H4.
  - intros x [y [_ E]%lookup_delete_Some]; apply H5; by eexists.
  - intros x y [Hne E]%lookup_delete_Some; by eapply H3.
  - intros n1 n2 y [_ E1]%lookup_delete_Some [_ E2]%lookup_delete_Some; by eapply H4.
Qed.

(** Context [c] is closed, and freed when there is a callback that does it; its
    node is taken from the list. *)
Definition close_base (set : bool) b (node c : nat) : muggle_event_loop :=
  list_remove (if set then set_ctxs b (delete c (ctxs b)) else b) node.

Lemma close_base_data set b node c : node_data (close_base set b node c) = delete node (node_data b).
Proof. by destruct set. Qed.

Lemma close_base_spec set b node c : base_ok b -> node_data b !! node = Some c ->
  base_ok (close_base set b node c) /\ node_data (close_base set b node c) = delete node (node_data b) /\
  ctx_list (close_base set b node c) = filter (fun x => x <> node) (ctx_list b) /\
  (forall x, x <> c -> ctxs (close_base set b node c) !! x = ctxs b !! x).
Proof.
  intros Hb Hd; destruct (list_remove_ok b node c Hb Hd); split; [by destruct set|]; split; [by destruct set|]; split; [by destruct set|].
  intros x Hx; destruct set; simpl; [by rewrite lookup_delete_ne|done].
Qed.

Lemma append_grows b node c : node_data b !! node = None -> grows b (list_append b node c).
Proof. intros Hn; split; simpl; try done; eauto; [by eexists|by apply insert_subseteq]. Qed.
End Base.

(** ** The interface of an implementation *)

(** An implementation has the base, and adds a descriptor to its set: [None] is
    a fault, a result other than 0 a failure. *)
Class EvImpl (S : Type) := {
  base : S -> muggle_event_loop;
  set_base : S -> muggle_event_loop -> S;
  fn_add_ctx : S -> nat -> nat -> bool -> option (Z * S)
}.

(** [muggle_evloop_init]: an empty list, no time-out. *)
Definition muggle_evloop_init (k : callbacks) (sc : list (list action)) : muggle_event_loop := EL [] ∅ ∅ ∅ 0 0 (-1) k sc [].

Section Loop.
Context {S : Type} {I : EvImpl S}.
Implicit Types s : S.

Definition upd_base s (f : muggle_event_loop -> muggle_event_loop) : S := set_base s (f (base s)).

Definition muggle_evloop_add_ctx s (same_thread : bool) (c : nat) (nonblock : bool) (mem_node : option nat) (kernel : bool) : option (Z * S) :=
  if negb same_thread then Some (-1, s)
  else if negb nonblock then Some (-1, s)
  else
    match mem_node with
    | None => Some (-1, s)
    | Some node =>
        '(ret, s') ← fn_add_ctx (upd_base s (fun b => list_append b node c)) c node kernel;
        if negb (ret =? 0) then Some (-1, upd_base s' (fun b => list_remove b node)) else Some (0, s')
    end.

(** The callers use a new context, and [malloc] gives a new address. *)
Definition do_action s (a : action) : option S :=
  match a with
  | ASetFlag c flag => if decide (is_Some (ctxs (base s) !! c)) then b ← muggle_ev_ctx_set_flag (base s) c flag; Some (set_base s b) else Some s
  | AAdd c f nonblock mem_node kernel =>
      if bool_decide (c ∈ known (base s)) || in_use (base s) mem_node then Some s
      else snd <$> muggle_evloop_add_ctx (upd_base s (fun b => new_ctx b c (muggle_ev_ctx_init f))) true c nonblock mem_node kernel
  | AExit => Some (upd_base s (fun b => muggle_evloop_exit b true))
  end.

Fixpoint do_actions s (l : list action) : option S :=
  match l with [] => Some s | a :: l => s' ← do_action s a; do_actions s' l end.

(** A callback; the one that closes a context frees it. *)
Definition after_call s (c : ev_call) : S :=
  match c with CClose c => upd_base s (fun b => set_ctxs b (delete c (ctxs b))) | _ => s end.

Definition callback_run s (c : ev_call) : option S :=
  let b := base s in do_actions (set_base s (set_io b (tail (script b)) (trace b ++ [c]))) (default [] (head (script b))).

Definition invoke s (c : ev_call) : option S := s' ← callback_run s c; Some (after_call s' c).

Definition invoke_if (set : bool) s (c : ev_call) : option S := if set then invoke s c else Some s.

(** What the [handle_wakeup] of an implementation does when the signal is
    readable. *)
Definition handle_wakeup s : option S :=
  s ← invoke_if (cb_wake (cbs (base s))) (upd_base s (fun b => snd (muggle_ev_signal_clearup b))) CWake;
  Some (if to_exit (base s) =? MUGGLE_EV_LOOP_EXIT_STATUS_WAKE
        then upd_base s (fun b => set_exit b MUGGLE_EV_LOOP_EXIT_STATUS_EXIT) else s).

(** The end of a round: the timer.  [elapsed] is the time since it was started;
    the results are the state and the time that [poll] or [epoll_wait] waits next. *)
Definition loop_timer s (remain_ms elapsed : Z) : option (S * Z) :=
  let t := timeout (base s) in
  if (t >=? 0) && cb_timer (cbs (base s)) then
    let remain_ms := t - swrap 32 elapsed in
    if remain_ms <=? 0 then s ← invoke s CTimer; Some (s, timeout (base s)) else Some (s, remain_ms)
  else Some (s, remain_ms).

(** How many contexts the script adds: a bound on the nodes to come. *)
Definition is_add (a : action) : bool := match a with AAdd _ _ _ _ _ => true | _ => false end.
Definition adds (l : list (list action)) : nat := length (filter is_add (concat l)).
Definition walk_fuel (b : muggle_event_loop) : nat := length (ctx_list b) + adds (script b).

(** The end of [muggle_evloop_run]: the walk over the list, to which a callback
    may still add. *)
Fixpoint clear_loop (fuel : nat) s (cur : option nat) : option S :=
  match cur, fuel with
  | None, _ => Some s
  | Some _, O => None
  | Some node, Datatypes.S fuel =>
      c ← node_data (base s) !! node; s ← invoke s (CClear c);
      clear_loop fuel s (next_in (ctx_list (base s)) node)
  end.

Definition muggle_evloop_finish s : option S :=
  s ← (if cb_clear (cbs (base s)) then clear_loop (walk_fuel (base s)) s (head (ctx_list (base s))) else Some s);
  invoke_if (cb_exit (cbs (base s))) s CExit.
End Loop.

(** ** What an implementation promises *)

(** [fd_ok] are the descriptors that it can hold, [frame] is what adding leaves as
    it is. *)
Class EvLaws (S : Type) {I : EvImpl S} := {
  fd_ok : Z -> Prop;
  impl_ok : S -> Prop;
  frame : S -> S -> Prop;
  #[global] frame_preorder :: PreOrder frame;
  base_set_base s b : base (set_base s b) = b;
  set_base_base s : set_base s (base s) = s;
  set_base_twice s b b' : set_base (set_base s b) b' = set_base s b';
  frame_set s b : frame s (set_base s b);
  impl_base s : impl_ok s -> base_ok (base s);
  impl_keeps s b : impl_ok s -> keeps (base s) b -> impl_ok (set_base s b);
  impl_add s node c x kernel : impl_ok s -> node ∉ ctx_list (base s) -> ctxs (base s) !! c = Some x -> fd_ok (fd x) ->
    (forall n, node_data (base s) !! n <> Some c) ->
    exists ret s', fn_add_ctx (upd_base s (fun b => list_append b node c)) c node kernel = Some (ret, s') /\ frame s s' /\
      base s' = list_append (base s) node c /\ if ret =? 0 then impl_ok s' else impl_ok (upd_base s' (fun b => list_remove b node))
}.

Section Generic.
Context {S : Type} {I : EvImpl S} {L : EvLaws S}.
Implicit Types (s : S) (a : action).

Definition action_ok a : Prop := match a with AAdd _ f _ _ _ => fd_ok f | _ => True end.
Definition script_ok (l : list (list action)) : Prop := Forall (Forall action_ok) l.

(** A callback is in the thread of the loop. *)
Definition keeps_exit b b' : Prop := to_exit b' = to_exit b \/ to_exit b' = MUGGLE_EV_LOOP_EXIT_STATUS_EXIT.

Lemma keeps_exit_trans b1 b2 b3 : keeps_exit b1 b2 -> keeps_exit b2 b3 -> keeps_exit b1 b3.
Proof. unfold keeps_exit; intros [-> | ->] [-> | ->]; auto. Qed.

Lemma keeps_exit_refl b : keeps_exit b b.
Proof. by left. Qed.
#[local] Hint Resolve keeps_exit_refl : core.

(** What a run of actions does. *)
Record acted s s' (k : nat) : Prop := {
  ac_ok : impl_ok s';
  ac_frame : frame s s';
  ac_grows : grows (base s) (base s');
  ac_old : forall node c, node_data (base s') !! node = Some c -> c ∈ known (base s) -> node_data (base s) !! node = Some c;
  ac_exit : keeps_exit (base s) (base s');
  ac_io : script (base s') = script (base s) /\ trace (base s') = trace (base s);
  ac_added : (length (ctx_list (base s')) <= length (ctx_list (base s)) + k)%nat
}.

Lemma acted_keeps s b : impl_ok s -> keeps (base s) b -> cbs b = cbs (base s) -> timeout b = timeout (base s) ->
  script b = script (base s) -> trace b = trace (base s) -> keeps_exit (base s) b -> acted s (set_base s b) 0.
Proof.
  intros Hs Hk H1 H2 H3 H4 H5; split; rewrite ?base_set_base; try done.
  - by apply impl_keeps. - apply frame_set. - by apply keeps_grows.
  - by rewrite (kp_nodes _ _ Hk). - rewrite (kp_list _ _ Hk); lia.
Qed.

Lemma acted_trans s1 s2 s3 k1 k2 : acted s1 s2 k1 -> acted s2 s3 k2 -> acted s1 s3 (k1 + k2).
Proof.
  intros [A1 A2 A3 Ao Ae [A4 A5] A6] [B1 B2 B3 Bo Be [B4 B5] B6]; split; [done|by etrans|by etrans| |by eapply keeps_exit_trans|by rewrite B4, B5|lia].
  intros node c H Hc; apply Ao; [|done]; apply Bo; [done|]; by apply (gr_known _ _ A3).
Qed.

Lemma acted_weaken s1 s2 k1 k2 : acted s1 s2 k1 -> (k1 <= k2)%nat -> acted s1 s2 k2.
Proof. intros [A1 A2 A3 Ao Ae A4 A5] H; split; try done; lia. Qed.

Lemma acted_refl s k : impl_ok s -> acted s s k.
Proof. intros H; split; try done; lia. Qed.

(** A new context. *)
Lemma new_ctx_keeps b c x : base_ok b -> c ∉ known b -> keeps b (new_ctx b c x).
Proof.
  intros Hb Hc; split; simpl; try done.
  - intros c' y Hy; exists y; rewrite lookup_insert_ne; [done|]; intros ->; apply Hc, (bo_known _ Hb); by eexists.
  - split; [set_solver|]; intros c'; destruct (decide (c' = c)) as [->|Hne]; [set_solver|rewrite lookup_insert_ne by done; auto].
Qed.

(** The result of adding context [c]. *)
Record added s s' (c : nat) : Prop := {
  ad_ok : impl_ok s';
  ad_frame : frame s s';
  ad_grows : grows (base s) (base s');
  ad_new : forall node c', node_data (base s') !! node = Some c' -> c' = c \/ node_data (base s) !! node = Some c';
  ad_exit : to_exit (base s') = to_exit (base s);
  ad_io : script (base s') = script (base s) /\ trace (base s') = trace (base s);
  ad_length : (length (ctx_list (base s')) <= length (ctx_list (base s)) + 1)%nat
}.

Lemma added_refl s c : impl_ok s -> added s s c.
Proof. intros H; split; try done; [by right|lia]. Qed.

Lemma add_ctx_added s st c x nonblock mem_node kernel : impl_ok s -> in_use (base s) mem_node = false ->
  ctxs (base s) !! c = Some x -> fd_ok (fd x) -> (forall n, node_data (base s) !! n <> Some c) ->
  exists ret s', muggle_evloop_add_ctx s st c nonblock mem_node kernel = Some (ret, s') /\ added s s' c.
Proof.
  intros Hs Hu Hx Hf Hn; unfold muggle_evloop_add_ctx; destruct st; simpl; [|eexists _, _; split; [done|by apply added_refl]].
  destruct nonblock; simpl; [|eexists _, _; split; [done|by apply added_refl]].
  destruct mem_node as [node|]; simpl in *; [|eexists _, _; split; [done|by apply added_refl]].
  apply bool_decide_eq_false in Hu; pose proof (impl_base _ Hs) as Hb.
  assert (node_data (base s) !! node = None) as Hnd by (apply eq_None_not_Some; rewrite <- (bo_nodes _ Hb); done).
  destruct (impl_add s node c x kernel Hs Hu Hx Hf Hn) as (ret & s' & -> & Hfr & Eb & Hret); simpl.
  destruct (ret =? 0) eqn:E; simpl; eexists _, _; (split; [done|]).
  - split; rewrite ?Eb; try done; [by apply append_grows| |simpl; rewrite length_app; simpl; lia].
    simpl; intros node' c' [[<- <-]|[Hne E']]%lookup_insert_Some; [by left|by right].
  - unfold upd_base in *; rewrite Eb, list_remove_append in * by done.
    split; rewrite ?base_set_base; try done; [|by right|lia]; etrans; [exact Hfr|apply frame_set].
Qed.

Lemma do_action_ok s a : impl_ok s -> action_ok a -> exists s', do_action s a = Some s' /\ acted s s' (if is_add a then 1 else 0).
Proof.
  intros Hs Ha; destruct a as [c flag|c f nonblock mem_node kernel|]; simpl.
  - destruct (decide (is_Some (ctxs (base s) !! c))) as [[x Hx]|]; [|eexists; split; [done|by apply acted_refl]].
    destruct (muggle_ev_ctx_set_flag (base s) c flag) as [b|] eqn:E; [|unfold muggle_ev_ctx_set_flag in E; rewrite Hx in E; done].
    destruct (set_flag_keeps _ _ _ _ E) as (Hk & ? & ? & ? & ? & ?); simpl; eexists; split; [done|]; apply acted_keeps; try done; by left.
  - destruct (bool_decide _) eqn:Eb; simpl; [eexists; split; [done|by apply acted_refl]|].
    apply bool_decide_eq_false in Eb.
    destruct (in_use (base s) mem_node) eqn:Eu; [eexists; split; [done|by apply acted_refl]|].
    set (s0 := upd_base s _); pose proof (impl_base _ Hs) as Hb.
    assert (acted s s0 0) as [A1 A2 A3 Ao Ae [A4 A5] A6] by (apply acted_keeps; try done; [by apply new_ctx_keeps|by left]).
    assert (base s0 = new_ctx (base s) c (muggle_ev_ctx_init f)) as Es0 by apply base_set_base.
    destruct (add_ctx_added s0 true c (muggle_ev_ctx_init f) nonblock mem_node kernel) as (ret & s' & E & [B1 B2 B3 Bn Be [B4 B5] B6]).
    + done. + rewrite Es0; by destruct mem_node. + rewrite Es0; simpl; apply lookup_insert_eq. + done.
    + rewrite Es0; simpl; intros n Hn; by apply Eb, (bo_known _ Hb), (bo_ctxs _ Hb n).
    + rewrite E; simpl; eexists; split; [done|]; split; [done|by etrans|by etrans| |by left; rewrite Be, Es0|by rewrite B4, B5|rewrite Es0 in *; simpl in *; lia].
      intros node c' H Hc; destruct (Bn _ _ H) as [->|H']; [done|by apply Ao].
  - eexists; split; [done|]; apply acted_keeps; try done; [by apply same_keeps|by right].
Qed.

Lemma do_actions_ok s l : impl_ok s -> Forall action_ok l -> exists s', do_actions s l = Some s' /\ acted s s' (length (filter is_add l)).
Proof.
  revert s; induction l as [|a l IH]; intros s Hs Hl; simpl; [eexists; split; [done|by apply acted_refl]|].
  apply Forall_cons in Hl as [Ha Hl]; destruct (do_action_ok s a Hs Ha) as (s1 & -> & A1); simpl.
  destruct (IH s1 (ac_ok _ _ _ A1) Hl) as (s2 & E2 & A2); exists s2; split; [done|].
  eapply acted_weaken; [by eapply acted_trans|]; destruct (is_add a) eqn:E.
  - rewrite filter_cons_True by (by rewrite E); simpl; lia.
  - rewrite filter_cons_False by (rewrite E; by intros []); simpl; lia.
Qed.

(** What happens between two states, with the calls that were made. *)
Record called s s' (cs : list ev_call) : Prop := {
  ca_ok : impl_ok s';
  ca_frame : frame s s';
  ca_grows : grows (base s) (base s');
  ca_old : forall node c, node_data (base s') !! node = Some c -> c ∈ known (base s) -> node_data (base s) !! node = Some c;
  ca_exit : keeps_exit (base s) (base s');
  ca_script : script_ok (script (base s'));
  ca_trace : trace (base s') = trace (base s) ++ cs;
  ca_fuel : (walk_fuel (base s') <= walk_fuel (base s))%nat
}.

Lemma called_trans s1 s2 s3 c1 c2 : called s1 s2 c1 -> called s2 s3 c2 -> called s1 s3 (c1 ++ c2).
Proof.
  intros [A1 A2 A3 Ao Ae A4 A5 A6] [B1 B2 B3 Bo Be B4 B5 B6]; split; try done; [by etrans|by etrans| |by eapply keeps_exit_trans| |lia].
  - intros node c H Hc; apply Ao; [|done]; apply Bo; [done|]; by apply (gr_known _ _ A3).
  - by rewrite B5, A5, app_assoc.
Qed.

Lemma called_keeps s b : impl_ok s -> script_ok (script (base s)) -> keeps (base s) b -> cbs b = cbs (base s) ->
  timeout b = timeout (base s) -> script b = script (base s) -> trace b = trace (base s) -> keeps_exit (base s) b ->
  called s (set_base s b) [].
Proof.
  intros H1 H2 H3 H4 H5 H6 H7 H8; destruct (acted_keeps s b H1 H3 H4 H5 H6 H7 H8) as [A1 A2 A3 Ao Ae [A4 A5] A6].
  split; try done; [by rewrite A4|by rewrite A5, app_nil_r|]; unfold walk_fuel; rewrite A4; lia.
Qed.

Lemma called_refl s : impl_ok s -> script_ok (script (base s)) -> called s s [].
Proof. intros H1 H2; split; try done; by rewrite app_nil_r. Qed.

Lemma adds_cons (x : list action) l : adds (x :: l) = (length (filter is_add x) + adds l)%nat.
Proof. unfold adds; simpl; by rewrite filter_app, length_app. Qed.

Lemma callback_run_ok s c : impl_ok s -> script_ok (script (base s)) -> exists s', callback_run s c = Some s' /\ called s s' [c].
Proof.
  intros Hs Hsc; unfold callback_run; set (b := set_io (base s) (tail (script (base s))) (trace (base s) ++ [c])).
  assert (keeps (base s) b) as Hk by by apply same_keeps.
  assert (impl_ok (set_base s b)) as Hs' by by apply impl_keeps.
  assert (Forall action_ok (default [] (head (script (base s)))) /\ script_ok (tail (script (base s)))) as [Ha Ht]
    by (destruct (script (base s)) as [|x l]; simpl; [done|]; by inversion Hsc).
  destruct (do_actions_ok _ _ Hs' Ha) as (s1 & E & [A1 A2 A3 Ao Ae [A4 A5] A6]); exists s1; split; [exact E|].
  rewrite base_set_base in *; split; try done.
  - etrans; [apply frame_set|exact A2].
  - etrans; [by apply keeps_grows|exact A3].
  - by rewrite A4.
  - unfold walk_fuel; rewrite A4; simpl in *; destruct (script (base s)) as [|x l]; simpl in *; [lia|rewrite adds_cons; lia].
Qed.

Lemma invoke_ok s c : impl_ok s -> script_ok (script (base s)) -> exists s', invoke s c = Some (after_call s' c) /\ called s s' [c].
Proof. intros Hs Hsc; destruct (callback_run_ok s c Hs Hsc) as (s' & E & A); exists s'; unfold invoke; by rewrite E. Qed.

Definition calls (set : bool) (c : ev_call) : list ev_call := if set then [c] else [].

Definition closes (c : ev_call) : bool := match c with CClose _ => true | _ => false end.

Lemma invoke_if_ok set s c : impl_ok s -> script_ok (script (base s)) -> closes c = false ->
  exists s', invoke_if set s c = Some s' /\ called s s' (calls set c).
Proof.
  intros Hs Hsc Hc; destruct set; simpl; [|eexists; split; [done|by apply called_refl]].
  destruct (invoke_ok s c Hs Hsc) as (s' & -> & H); exists s'; by destruct c.
Qed.

Lemma handle_wakeup_ok s : impl_ok s -> script_ok (script (base s)) ->
  exists s', handle_wakeup s = Some s' /\ called s s' (calls (cb_wake (cbs (base s))) CWake) /\
    to_exit (base s') <> MUGGLE_EV_LOOP_EXIT_STATUS_WAKE.
Proof.
  intros Hs Hsc; unfold handle_wakeup.
  assert (called s (upd_base s (fun b => snd (muggle_ev_signal_clearup b))) []) as A.
  { unfold muggle_ev_signal_clearup; apply called_keeps; try done; [apply same_keeps|..]; try (by destruct (ev_signal (base s) =? 0)); left; by destruct (ev_signal (base s) =? 0). }
  destruct (invoke_if_ok (cb_wake (cbs (base s))) _ CWake (ca_ok _ _ _ A) (ca_script _ _ _ A) eq_refl) as (s1 & -> & A1); simpl.
  pose proof (called_trans _ _ _ _ _ A A1) as A2; destruct (to_exit (base s1) =? _) eqn:E.
  - eexists; split; [done|]; split; [|unfold upd_base; by rewrite base_set_base].
    rewrite <- (app_nil_r (calls _ _)); eapply called_trans; [exact A2|]; apply called_keeps; try done; [apply A1|apply A1|by apply same_keeps|by right].
  - apply Z.eqb_neq in E; by exists s1.
Qed.

(** The contexts that are registered, in the order of the list. *)
Definition registered b : list nat := omap (fun node => node_data b !! node) (ctx_list b).

Lemma next_in_app l node suf : node ∉ l -> next_in (l ++ node :: suf) node = head suf.
Proof.
  induction l as [|x l IH]; intros Hn; simpl; [by rewrite decide_True|].
  rewrite decide_False by set_solver; apply IH; set_solver.
Qed.

Lemma clear_loop_ok fuel s pre suf : impl_ok s -> script_ok (script (base s)) -> ctx_list (base s) = pre ++ suf ->
  (length suf + adds (script (base s)) <= fuel)%nat ->
  exists s' suf', clear_loop fuel s (head suf) = Some s' /\ ctx_list (base s') = pre ++ suf' /\
    called s s' (CClear <$> omap (fun node => node_data (base s') !! node) suf').
Proof.
  revert s pre suf; induction fuel as [|fuel IH]; intros s pre [|node suf] Hs Hsc El Hf; simpl in *; try lia.
  1,2: exists s, []; split; [done|]; split; [done|]; by apply called_refl.
  pose proof (impl_base _ Hs) as [Hnd Hn _ _ _].
  destruct (proj1 (Hn node)) as [c Hc]; [rewrite El; set_solver|]; rewrite Hc; simpl.
  destruct (invoke_ok s (CClear c) Hs Hsc) as (s1 & -> & A1); simpl; pose proof A1 as [B1 B2 [[more Em] Gn Gc Gf Gk] Bo Be B4 B5 B6].
  assert (node ∉ pre) as Hnp by (rewrite El in Hnd; apply NoDup_app in Hnd as (_ & Hd & _); intros Hin; apply (Hd _ Hin); left).
  rewrite Em, El, <- app_assoc; simpl; rewrite next_in_app by done.
  destruct (IH s1 (pre ++ [node]) (suf ++ more)) as (s' & suf' & -> & E' & A'); try done.
  { by rewrite Em, El, <- !app_assoc. }
  { unfold walk_fuel in B6; rewrite Em, El in B6; rewrite !length_app in *; simpl in *; lia. }
  exists s', (node :: suf'); split; [done|]; split; [by rewrite E', <- app_assoc|].
  simpl; assert (node_data (base s') !! node = Some c) as ->.
  { pose proof (gr_nodes _ _ (ca_grows _ _ _ A')) as Hsub; eapply lookup_weaken; [|exact Hsub]; by eapply lookup_weaken. }
  by apply (called_trans s s1 s' [CClear c]).
Qed.

(** ** A round of the loop *)

(** Between two states of a round: a context that was registered still is, or
    it was closed; what is closed is closed once, and is not registered any
    more. *)
Record scanned s s' (cs : list ev_call) : Prop := {
  sc_ok : impl_ok s';
  sc_script : script_ok (script (base s'));
  sc_trace : trace (base s') = trace (base s) ++ cs;
  sc_config : cbs (base s') = cbs (base s) /\ timeout (base s') = timeout (base s);
  sc_exit : keeps_exit (base s) (base s');
  sc_known : known (base s) ⊆ known (base s');
  sc_old : forall node c, node_data (base s') !! node = Some c -> c ∈ known (base s) -> node_data (base s) !! node = Some c;
  sc_kept : forall node c, node_data (base s) !! node = Some c ->
    (node_data (base s') !! node = Some c /\ CClose c ∉ cs) \/
    ((forall n, node_data (base s') !! n <> Some c) /\ (cb_close (cbs (base s)) = true -> CClose c ∈ cs));
  sc_closed : forall c, CClose c ∈ cs -> c ∈ known (base s') /\ forall n, node_data (base s') !! n <> Some c;
  sc_source : forall c, CClose c ∈ cs -> (exists node, node_data (base s) !! node = Some c) \/ c ∉ known (base s);
  sc_once : NoDup (filter closes cs)
}.

Lemma node_known b node c : base_ok b -> node_data b !! node = Some c -> c ∈ known b.
Proof. intros Hb H; by apply (bo_known _ Hb), (bo_ctxs _ Hb node). Qed.

Lemma called_scanned s s' cs : called s s' cs -> impl_ok s -> filter closes cs = [] -> scanned s s' cs.
Proof.
  intros [A1 A2 [G1 G2 G3 G4 G5] Ao Ae A4 A5 A6] Hs Hc.
  assert (forall c, CClose c ∉ cs) as Hn by (intros c Hin; by apply (filter_nil_not_elem_of closes cs (CClose c))).
  split; try done.
  - intros node c H; left; split; [by eapply lookup_weaken|done].
  - intros c Hin; by destruct (Hn c).
  - intros c Hin; by destruct (Hn c).
  - rewrite Hc; constructor.
Qed.

Lemma scanned_trans s1 s2 s3 c1 c2 : impl_ok s1 -> scanned s1 s2 c1 -> scanned s2 s3 c2 -> scanned s1 s3 (c1 ++ c2).
Proof.
  intros Hs [A1 A2 A3 [A4 A4'] Ae A5 A6 A7 A8 A9 A10] [B1 B2 B3 [B4 B4'] Be B5 B6 B7 B8 B9 B10]; split; try done.
  - by rewrite B3, A3, app_assoc.
  - by rewrite B4, B4'.
  - by eapply keeps_exit_trans.
  - by etrans.
  - intros node c H Hc; apply A6; [|done]; apply B6; [done|by apply A5].
  - intros node c H; destruct (A7 _ _ H) as [[H1 H2]|[H1 H2]].
    + destruct (B7 _ _ H1) as [[H3 H4]|[H3 H4]]; [left; set_solver|right]; split; [done|]; rewrite A4 in H4; set_solver.
    + right; split; [|set_solver]; intros n Hn; apply (H1 n), B6; [done|]; apply A5; by apply (node_known _ node), H; apply impl_base.
  - intros c [H|H]%elem_of_app; [|by apply B8]; destruct (A8 _ H) as [H1 H2]; split; [by apply B5|].
    intros n Hn; apply (H2 n), B6; done.
  - intros c [H|H]%elem_of_app; [by apply A9|]; destruct (B9 _ H) as [[n Hn]|Hk]; [|right; set_solver].
    destruct (decide (c ∈ known (base s1))) as [Hk|Hk]; [left; exists n; by apply A6|by right].
  - rewrite filter_app; apply NoDup_app; split; [done|]; split; [|done].
    intros x [Hx1 Hx2]%list_elem_of_filter [_ Hx3]%list_elem_of_filter; destruct x; try done.
    destruct (A8 _ Hx2) as [H1 H2]; destruct (B9 _ Hx3) as [[n Hn]|Hk]; [by apply (H2 n)|done].
Qed.

Lemma close_scanned s s1 s' node c : impl_ok s -> node_data (base s) !! node = Some c ->
  called s s1 (calls (cb_close (cbs (base s))) (CClose c)) -> impl_ok s' ->
  base s' = close_base (cb_close (cbs (base s))) (base s1) node c -> scanned s s' (calls (cb_close (cbs (base s))) (CClose c)).
Proof.
  intros Hs Hn [A1 A2 [G1 G2 G3 G4 G5] Ao Ae A4 A5 A6] Hs' E; pose proof (impl_base _ A1) as Hb1; pose proof (impl_base _ Hs) as Hb.
  pose proof (node_known _ _ _ Hb Hn) as Hk; assert (node_data (base s1) !! node = Some c) as Hn1 by by eapply lookup_weaken.
  assert (forall n, node_data (base s') !! n <> Some c) as Hgone.
  { intros n; rewrite E, close_base_data; intros [Hne H]%lookup_delete_Some; by apply Hne, (bo_inj _ Hb1 _ _ _ Hn1). }
  assert (forall x, CClose x ∈ calls (cb_close (cbs (base s))) (CClose c) -> x = c) as Hin by (destruct (cb_close _); set_solver).
  split; rewrite ?E; try done; try (by unfold close_base; destruct (cb_close _)).
  - intros n x; rewrite close_base_data; intros [Hne H]%lookup_delete_Some ?; by apply Ao.
  - intros n x H; destruct (decide (x = c)) as [->|Hne].
    + right; rewrite <- E; split; [done|]; intros ->; left.
    + left; rewrite close_base_data; split; [|by intros ?%Hin]; rewrite lookup_delete_ne; [by eapply lookup_weaken|].
      intros ->; congruence.
  - intros x ->%Hin; rewrite <- E; split; [|done]; rewrite E; unfold close_base; destruct (cb_close _); simpl; by apply G5.
  - intros x ->%Hin; left; by exists node.
  - unfold calls; destruct (cb_close _); [apply NoDup_singleton|constructor].
Qed.

(** The end of the loop calls the clear callback for each context that is
    registered, once, and then the exit callback. *)
Lemma finish_ok s : impl_ok s -> script_ok (script (base s)) -> exists s' cl, muggle_evloop_finish s = Some s' /\ impl_ok s' /\
  trace (base s') = trace (base s) ++ (CClear <$> cl) ++ calls (cb_exit (cbs (base s))) CExit /\
  NoDup cl /\ if cb_clear (cbs (base s)) then registered (base s) `prefix_of` cl else cl = [].
Proof.
  intros Hs Hsc; unfold muggle_evloop_finish.
  assert (exists s1 cl, (if cb_clear (cbs (base s)) then clear_loop (walk_fuel (base s)) s (head (ctx_list (base s))) else Some s) = Some s1 /\
    called s s1 (CClear <$> cl) /\ NoDup cl /\ if cb_clear (cbs (base s)) then registered (base s) `prefix_of` cl else cl = []) as (s1 & cl & -> & A & Hn & Hp).
  { destruct (cb_clear (cbs (base s))).
    - destruct (clear_loop_ok (walk_fuel (base s)) s [] (ctx_list (base s)) Hs Hsc eq_refl) as (s1 & suf & -> & El & A); [unfold walk_fuel; lia|].
      exists s1, (registered (base s1)); unfold registered; rewrite El in *; simpl in *; split; [done|]; split; [done|]; split.
      + pose proof (impl_base _ (ca_ok _ _ _ A)) as [Hnd _ _ Hi _]; rewrite El in Hnd; clear El A.
        induction suf as [|x suf IH]; simpl; [constructor|]; apply NoDup_cons in Hnd as [H1 H2].
        destruct (node_data (base s1) !! x) as [c|] eqn:Ec; [|by apply IH]; apply NoDup_cons; split; [|by apply IH].
        intros (y & Hy & Hyc)%list_elem_of_omap; assert (y = x) as -> by by eapply Hi. done.
      + pose proof (ca_grows _ _ _ A) as [[more Em] Gn _ _ _]; rewrite Em in El; subst suf.
        exists (omap (fun node => node_data (base s1) !! node) more); etrans; [apply omap_app|]; f_equal.
        pose proof (bo_nodes _ (impl_base _ Hs)) as Hno; apply list_omap_ext, Forall2_same_length_lookup; split; [done|].
        intros i x y Ex Ey; simplify_eq; destruct (proj1 (Hno x)) as [c Hc]; [by eapply list_elem_of_lookup_2|].
        rewrite Hc; by eapply lookup_weaken.
    - exists s, []; split; [done|]; split; [by apply called_refl|]; split; [constructor|done]. }
  simpl; destruct (gr_config _ _ (ca_grows _ _ _ A)) as [Ec _]; rewrite Ec.
  destruct (invoke_if_ok (cb_exit (cbs (base s))) s1 CExit (ca_ok _ _ _ A) (ca_script _ _ _ A) eq_refl) as (s' & -> & A').
  exists s', cl; split; [done|]; split; [apply A'|]; split; [by rewrite (ca_trace _ _ _ A'), (ca_trace _ _ _ A), app_assoc|done].
Qed.

(** The contexts that are read. *)
Definition reads_of (cs : list ev_call) : list nat := omap (fun c => match c with CRead x => Some x | _ => None end) cs.

Lemma reads_of_app c1 c2 : reads_of (c1 ++ c2) = reads_of c1 ++ reads_of c2.
Proof. apply omap_app. Qed.

Lemma reads_close (set : bool) c : reads_of (calls set (CClose c)) = [].
Proof. by destruct set. Qed.

(** The timer is called when its time is over, and starts again. *)
Definition timer_fires (b : muggle_event_loop) (elapsed : Z) : bool :=
  (timeout b >=? 0) && cb_timer (cbs b) && (timeout b <=? elapsed).

Lemma loop_timer_ok s remain_ms elapsed : impl_ok s -> script_ok (script (base s)) -> 0 <= elapsed < 2 ^ 31 ->
  exists s' r, loop_timer s remain_ms elapsed = Some (s', r) /\ called s s' (calls (timer_fires (base s) elapsed) CTimer) /\
    (timeout (base s) >= 0 -> cb_timer (cbs (base s)) = true ->
       r = if timeout (base s) <=? elapsed then timeout (base s) else timeout (base s) - elapsed).
Proof.
  intros Hs Hsc He; unfold loop_timer, timer_fires; rewrite swrap_small by lia.
  destruct ((timeout (base s) >=? 0) && cb_timer (cbs (base s))) eqn:Et; simpl.
  - destruct (timeout (base s) - elapsed <=? 0) eqn:El.
    + apply Z.leb_le in El; rewrite (proj2 (Z.leb_le _ _)) by lia.
      destruct (invoke_ok s CTimer Hs Hsc) as (s' & E & A); rewrite E; simpl.
      eexists _, _; split; [done|]; split; [done|]; intros _ _; apply (gr_config _ _ (ca_grows _ _ _ A)).
    + apply Z.leb_gt in El; rewrite (proj2 (Z.leb_gt _ _)) by lia.
      eexists _, _; split; [done|]; split; [by apply (called_refl)|done].
  - eexists _, _; split; [done|]; split; [by apply (called_refl)|]; intros H1 H2.
    rewrite H2, (proj2 (Z.geb_le _ _)) in Et by lia; done.
Qed.

End Generic.
