(* ===== verification/EventPoll.v ===== *)
(** * The event loop on [poll]: [event/internal/event_loop_poll.c]

    The array [fds] has the descriptors that [poll] looks at, the array [nodes]
    the list node of each; the first is the signal.  What [poll] answers and how
    much time has passed are inputs of a round. *)
From S2P Require Import Prelude Utils EventLoop.

Definition POLLIN : Z := 1.
Definition POLLERR : Z := 8.
Definition POLLHUP : Z := 16.

Record muggle_event_loop_poll := PL {
  p_base : muggle_event_loop; fds : list (Z * Z); nodes : list (option nat); capcity : nat; nfd : nat
}.

Definition set_p_base (s : muggle_event_loop_poll) b := PL b (fds s) (nodes s) (capcity s) (nfd s).

Definition muggle_evloop_add_ctx_poll (s : muggle_event_loop_poll) (c node : nat) (kernel : bool) : option (Z * muggle_event_loop_poll) :=
  if decide (nfd s = capcity s) then Some (-1, s)
  else
    let idx := nfd s in
    x ← ctxs (p_base s) !! c;
    fds ← wr (fds s) (Z.of_nat idx) (fd x, snd (default (0, 0) (fds s !! idx)));
    nodes ← wr (nodes s) (Z.of_nat idx) (Some node);
    Some (0, PL (p_base s) fds nodes (capcity s) (idx + 1)).

#[export] Instance poll_impl : EvImpl muggle_event_loop_poll :=
  {| base := p_base; set_base := set_p_base; fn_add_ctx := muggle_evloop_add_ctx_poll |}.

Section Poll.
Implicit Types s : muggle_event_loop_poll.

Definition muggle_evloop_init_poll (b : muggle_event_loop) (hints_max_fd evfd : Z) (mem_fds mem_nodes : bool) : option muggle_event_loop_poll :=
  let capacity := Z.to_nat ((if hints_max_fd <? 1 then 8 else hints_max_fd) + 1) in
  if negb mem_fds then None
  else if negb mem_nodes then None
  else Some (PL b (<[0%nat := (evfd, 0)]> (replicate capacity (0, 0))) (replicate capacity None) capacity 1).

Definition muggle_evloop_poll_handle_wakeup s : option muggle_event_loop_poll :=
  '(_, revents) ← fds s !! 0%nat;
  if negb (Z.land revents POLLIN =? 0) then handle_wakeup s else Some s.

(** The removal of entry [i]: the last one takes its place. *)
Definition poll_drop s (i : nat) : option muggle_event_loop_poll :=
  let last := (nfd s - 1)%nat in
  e ← fds s !! last; x ← nodes s !! last;
  let moved := negb (Nat.eqb i last) in
  let fds := if moved then <[i := e]> (fds s) else fds s in
  let nodes := if moved then <[i := x]> (nodes s) else nodes s in
  Some (PL (p_base s) fds (<[last := None]> nodes) (capcity s) last).

(** Entry [i] of the loop, with the number [n] of entries that are left. *)
Definition poll_entry s (i : nat) (n : Z) : option (muggle_event_loop_poll * Z) :=
  node ← nodes s !! i ≫= id; c ← node_data (p_base s) !! node; e ← fds s !! i;
  let ready := negb (Z.land (snd e) POLLIN =? 0) in
  s ← (if ready then invoke_if (cb_read (cbs (p_base s))) s (CRead c) else Some s);
  let n := if ready then n - 1 else n in
  e ← fds s !! i;
  let hup := negb (Z.land (snd e) (Z.lor POLLHUP POLLERR) =? 0) in
  s ← (if hup then b ← muggle_ev_ctx_set_flag (p_base s) c MUGGLE_EV_CTX_FLAG_CLOSED; Some (set_p_base s b) else Some s);
  let n := if hup then n - 1 else n in
  x ← ctxs (p_base s) !! c;
  if closed x then
    s ← invoke_if (cb_close (cbs (p_base s))) s (CClose c);
    s ← poll_drop (upd_base s (fun b => list_remove b node)) i;
    Some (s, n)
  else Some (s, n).

Fixpoint poll_scan (i : nat) (n : Z) s : option muggle_event_loop_poll :=
  match i with
  | O => muggle_evloop_poll_handle_wakeup s
  | S i' => '(s, n) ← poll_entry s i n; if n <=? 0 then Some s else poll_scan i' n s
  end.

(** [poll] writes the answers to the entries that it is given. *)
Definition set_revents s (rev : list Z) := PL (p_base s) (zip_with (fun e r => (fst e, r)) (take (nfd s) (fds s)) rev ++ drop (nfd s) (fds s)) (nodes s) (capcity s) (nfd s).

(** What [poll] answers: the number of entries that are ready and the entries,
    or an error that is [EINTR] or not. *)
Inductive poll_answer := PReady (rev : list Z) | PError (intr : bool).

Definition count_ready (rev : list Z) : Z := Z.of_nat (length (filter (fun r => r <> 0) rev)).

Definition poll_handle s (a : poll_answer) : option muggle_event_loop_poll :=
  match a with
  | PReady rev => let n := count_ready rev in if 0 <? n then poll_scan (nfd s - 1) n (set_revents s rev) else Some s
  | PError intr => Some (if intr then s else upd_base s (fun b => muggle_evloop_exit b true))
  end.

(** A round of the loop of [muggle_evloop_run_poll]; the last result is whether
    the loop ends. *)
Definition poll_round s (remain_ms : Z) (a : poll_answer) (elapsed : Z) : option (muggle_event_loop_poll * Z * bool) :=
  s ← poll_handle s a;
  '(s, remain_ms) ← loop_timer s remain_ms elapsed;
  Some (s, remain_ms, to_exit (p_base s) =? MUGGLE_EV_LOOP_EXIT_STATUS_EXIT).

(** The loop, for the answers [l]. *)
Fixpoint poll_loop s (remain_ms : Z) (l : list (poll_answer * Z)) : option (muggle_event_loop_poll * bool) :=
  match l with
  | [] => Some (s, false)
  | (a, elapsed) :: l =>
      '(s, remain_ms, ended) ← poll_round s remain_ms a elapsed;
      if (ended : bool) then Some (s, true) else poll_loop s remain_ms l
  end.

Definition muggle_evloop_run_poll s (l : list (poll_answer * Z)) : option (muggle_event_loop_poll * bool) :=
  poll_loop s (timeout (p_base s)) l.
End Poll.

(** ** The invariant *)

(** What entry [i] of the arrays is: a context and the answer of [poll]. *)
Definition entry (s : muggle_event_loop_poll) (i : nat) : option (nat * Z) :=
  node ← nodes s !! i ≫= id; c ← node_data (p_base s) !! node; e ← fds s !! i; Some (c, snd e).

Record poll_ok (s : muggle_event_loop_poll) : Prop := {
  po_base : base_ok (p_base s);
  po_length : length (fds s) = capcity s /\ length (nodes s) = capcity s;
  po_nfd : (1 <= nfd s <= capcity s)%nat;
  po_at : forall i, (1 <= i < nfd s)%nat -> exists node c x r, nodes s !! i = Some (Some node) /\
    node_data (p_base s) !! node = Some c /\ ctxs (p_base s) !! c = Some x /\ fds s !! i = Some (fd x, r);
  po_inj : forall i j node, (1 <= i < nfd s)%nat -> (1 <= j < nfd s)%nat ->
    nodes s !! i = Some (Some node) -> nodes s !! j = Some (Some node) -> i = j;
  po_all : forall node, node ∈ ctx_list (p_base s) -> exists i, (1 <= i < nfd s)%nat /\ nodes s !! i = Some (Some node)
}.

Definition poll_frame (s s' : muggle_event_loop_poll) : Prop :=
  (nfd s <= nfd s')%nat /\ capcity s' = capcity s /\
  forall j, (j < nfd s)%nat -> fds s' !! j = fds s !! j /\ nodes s' !! j = nodes s !! j.

#[export] Instance poll_frame_preorder : PreOrder poll_frame.
Proof.
  split; [by intros s|]; intros a b c (A1 & A2 & A3) (B1 & B2 & B3); split; [lia|]; split; [congruence|].
  intros j Hj; destruct (A3 j Hj) as [<- <-]; apply B3; lia.
Qed.

Lemma poll_keeps s b : poll_ok s -> keeps (p_base s) b -> poll_ok (set_p_base s b).
Proof.
  intros [H1 H2 H3 H4 H5 H6] Hk; pose proof Hk as [E1 E2 E3 _]; split; simpl; try done; [by eapply keeps_ok| |by rewrite E1].
  intros i Hi; destruct (H4 i Hi) as (node & c & x & r & Hn & Hc & Hx & He); destruct (E3 _ _ Hx) as (x' & Hx' & Hf).
  exists node, c, x', r; by rewrite E2, Hf.
Qed.

(** Adding an entry at the end. *)
Lemma poll_add_ok s node c x r : poll_ok s -> nfd s <> capcity s -> node ∉ ctx_list (p_base s) -> ctxs (p_base s) !! c = Some x ->
  (forall n, node_data (p_base s) !! n <> Some c) ->
  poll_ok (PL (list_append (p_base s) node c) (<[nfd s := (fd x, r)]> (fds s)) (<[nfd s := Some node]> (nodes s)) (capcity s) (nfd s + 1)).
Proof.
  intros [H1 [H2a H2b] H3 H4 H5 H6] Hc Hn Hx Hf; split; simpl.
  - apply append_ok; try done; by eexists.
  - by rewrite !length_insert.
  - lia.
  - intros i Hi; destruct (decide (i = nfd s)) as [->|Hne].
    + exists node, c, x, r; rewrite lookup_insert_eq, !list_lookup_insert_eq by lia; done.
    + rewrite !list_lookup_insert_ne by lia; destruct (H4 i ltac:(lia)) as (n1 & c1 & x1 & r1 & E1 & E2 & E3 & E4).
      exists n1, c1, x1, r1; rewrite lookup_insert_ne; [done|]; intros <-; apply Hn, (bo_nodes _ H1); by eexists.
  - assert (forall i n, (1 <= i < nfd s)%nat -> nodes s !! i = Some (Some n) -> n ∈ ctx_list (p_base s)) as Hin.
    { intros i n Hi E; destruct (H4 i Hi) as (n1 & c1 & x1 & r1 & E1 & E2 & E3 & E4); simplify_eq; apply (bo_nodes _ H1); by eexists. }
    intros i j n Hi Hj; destruct (decide (i = nfd s)) as [->|Hni], (decide (j = nfd s)) as [->|Hnj]; try done;
      rewrite ?list_lookup_insert_eq by lia; rewrite ?list_lookup_insert_ne by lia; intros Ei Ej; simplify_eq.
    + destruct Hn; apply (Hin j); [lia|done].
    + destruct Hn; apply (Hin i); [lia|done].
    + apply (H5 i j n); [lia|lia|done|done].
  - intros n [Hin| ->%list_elem_of_singleton]%elem_of_app.
    + destruct (H6 _ Hin) as (i & Hi & E); exists i; split; [lia|]; by rewrite list_lookup_insert_ne by lia.
    + exists (nfd s); split; [lia|]; by rewrite list_lookup_insert_eq by lia.
Qed.

#[export] Program Instance poll_laws : EvLaws muggle_event_loop_poll :=
  {| fd_ok _ := True; impl_ok := poll_ok; frame := poll_frame |}.
Solve Obligations with done.
Next Obligation. by intros []. Qed.
Next Obligation. intros s H; apply H. Qed.
Next Obligation. apply poll_keeps. Qed.
Next Obligation.
  intros s node c x kernel Hs Hn Hx _ Hf; simpl in *; unfold muggle_evloop_add_ctx_poll; simpl.
  assert (node_data (p_base s) !! node = None) as Hnd by (apply eq_None_not_Some; rewrite <- (bo_nodes _ (po_base _ Hs)); done).
  pose proof (po_length _ Hs) as [Hl1 Hl2]; pose proof (po_nfd _ Hs); case_decide as Hc.
  - eexists _, _; split; [done|]; split; [done|]; split; [done|]; simpl; unfold upd_base; simpl.
    rewrite list_remove_append by done; by destruct s.
  - rewrite Hx; simpl; rewrite !wr_nat by lia; simpl; eexists _, _; split; [done|]; split; [|split; [done|]].
    + split; simpl; [lia|]; split; [done|]; intros j Hj; by rewrite !list_lookup_insert_ne by lia.
    + by apply poll_add_ok.
Qed.

(** ** The removal of an entry *)

Lemma entry_frame s s' i : poll_frame s s' -> node_data (p_base s) ⊆ node_data (p_base s') -> (i < nfd s)%nat ->
  forall e, entry s i = Some e -> entry s' i = Some e.
Proof.
  intros (_ & _ & Hf) Hsub Hi e; unfold entry; destruct (Hf i Hi) as [-> ->].
  destruct (nodes s !! i ≫= id) as [node|]; simpl; [|done]; destruct (node_data (p_base s) !! node) as [c|] eqn:E; simpl; [|done].
  by rewrite (lookup_weaken _ _ _ _ E Hsub).
Qed.

Lemma drop_ok s i node c set : poll_ok s -> (1 <= i < nfd s)%nat -> nodes s !! i = Some (Some node) -> node_data (p_base s) !! node = Some c ->
  exists s', poll_drop (set_p_base s (close_base set (p_base s) node c)) i = Some s' /\ poll_ok s' /\
    p_base s' = close_base set (p_base s) node c /\ nfd s' = (nfd s - 1)%nat /\
    (forall j, (j < i)%nat -> fds s' !! j = fds s !! j /\ nodes s' !! j = nodes s !! j).
Proof.
  intros [H1 [H2a H2b] H3 H4 H5 H6] Hi Hn Hc.
  destruct (close_base_spec set (p_base s) node c H1 Hc) as (HB & Bd & Bl & Bc).
  set (B := close_base set (p_base s) node c) in *; clearbody B; unfold poll_drop; simpl.
  destruct (H4 (nfd s - 1)%nat ltac:(lia)) as (nl & cl & xl & rl & E1 & E2 & E3 & E4); rewrite E1, E4; simpl.
  eexists; split; [done|]; simpl.
  set (F := if negb (Nat.eqb i (nfd s - 1)) then _ else _); set (N := <[_ := None]> _).
  assert (length F = capcity s /\ length N = capcity s) as HL
    by (unfold F, N; rewrite length_insert; destruct (negb _); rewrite ?length_insert; done).
  assert (forall j, (j < nfd s - 1)%nat -> F !! j = fds s !! (if decide (j = i) then nfd s - 1 else j)%nat /\
    N !! j = nodes s !! (if decide (j = i) then nfd s - 1 else j)%nat) as Hlook.
  { intros j Hj; unfold F, N; rewrite list_lookup_insert_ne by lia; destruct (Nat.eqb_spec i (nfd s - 1)) as [->|Hne]; simpl.
    - by rewrite decide_False by lia.
    - case_decide as Hd; [subst j; by rewrite !list_lookup_insert_eq, E1, E4 by lia|by rewrite !list_lookup_insert_ne by lia]. }
  clearbody F N; set (src := fun j => (if decide (j = i) then nfd s - 1 else j)%nat) in *.
  assert (forall j, (1 <= j < nfd s - 1)%nat -> (1 <= src j < nfd s)%nat /\ src j <> i) as Hsrc by (intros j Hj; unfold src; case_decide; lia).
  assert (forall j k, src j = src k -> (j < nfd s - 1)%nat -> (k < nfd s - 1)%nat -> j = k) as Hsi by (intros j k; unfold src; repeat case_decide; lia).
  split; [split; simpl|split; [done|split; [done|]]].
  - done.
  - done.
  - lia.
  - intros j Hj; destruct (Hlook j ltac:(lia)) as [-> ->]; destruct (Hsrc j Hj) as [Hs1 Hs2]; fold (src j).
    destruct (H4 (src j) Hs1) as (n & x & y & r & F1 & F2 & F3 & F4); exists n, x, y, r.
    assert (n <> node) as Hnn by (intros ->; by apply Hs2, (H5 _ _ node)).
    rewrite Bd, lookup_delete_ne, Bc; [done| |done]; intros ->; by apply Hnn, (bo_inj _ H1 _ _ c).
  - intros j k n Hj Hk; destruct (Hlook j ltac:(lia)) as [_ ->], (Hlook k ltac:(lia)) as [_ ->]; fold (src j) (src k).
    intros Ej Ek; apply Hsi; [|lia..]; apply (H5 _ _ n); [by apply Hsrc..|done|done].
  - intros n Hin; assert (n <> node /\ n ∈ ctx_list (p_base s)) as [Hnn Hin'] by (rewrite Bl in Hin; by apply list_elem_of_filter in Hin).
    destruct (H6 _ Hin') as (j & Hj & Ej); assert (j <> i) as Hji by congruence.
    exists (if decide (j = (nfd s - 1)%nat) then i else j); case_decide as Hd.
    + subst j; split; [lia|]; destruct (Hlook i ltac:(lia)) as [_ ->]; by rewrite decide_True.
    + split; [lia|]; destruct (Hlook j ltac:(lia)) as [_ ->]; unfold src; by rewrite decide_False.
  - intros j Hj; destruct (Hlook j ltac:(lia)) as [-> ->]; unfold src; by rewrite decide_False by lia.
Qed.

(** ** A round *)

Definition is_ready (r : Z) : bool := negb (Z.land r POLLIN =? 0).
Definition is_hup (r : Z) : bool := negb (Z.land r (Z.lor POLLHUP POLLERR) =? 0).
Definition left_after (n r : Z) : Z := n - Z.b2z (is_ready r) - Z.b2z (is_hup r).

Lemma entry_inv s i c r : entry s i = Some (c, r) -> exists node e, nodes s !! i = Some (Some node) /\
  node_data (p_base s) !! node = Some c /\ fds s !! i = Some e /\ snd e = r.
Proof.
  unfold entry; intros (node & Hn & H)%bind_Some; apply bind_Some in H as (c' & Hc & H); apply bind_Some in H as (e & He & H); simplify_eq.
  apply bind_Some in Hn as (y & Hy & Hn); unfold id in Hn; subst y; by exists node, e.
Qed.

Lemma left_after_eq n r : left_after n r =
  (if is_hup r then (if is_ready r then n - 1 else n) - 1 else if is_ready r then n - 1 else n).
Proof. unfold left_after; destruct (is_hup r), (is_ready r); simpl; lia. Qed.

(** The answers and the entries below [i] stay while the callbacks add. *)
Definition below (i : nat) s s' : Prop :=
  (i <= nfd s')%nat /\ fds s' !! 0%nat = fds s !! 0%nat /\ forall j e, (1 <= j < i)%nat -> entry s j = Some e -> entry s' j = Some e.

Lemma below_called s s' cs i : called s s' cs -> poll_ok s -> (1 <= i <= nfd s)%nat -> below i s s'.
Proof.
  intros A Hs Hi; pose proof (ca_frame _ _ _ A) as Hf; pose proof Hf as (H1 & _ & H2); split; [lia|]; split; [apply H2; lia|].
  intros j e Hj; apply entry_frame; [done|apply (ca_grows _ _ _ A)|lia].
Qed.

Lemma below_trans i s1 s2 s3 : below i s1 s2 -> below i s2 s3 -> below i s1 s3.
Proof. intros (A1 & A2 & A3) (B1 & B2 & B3); split; [done|]; split; [by rewrite B2|]; eauto. Qed.

Lemma close_step s i node c : poll_ok s -> script_ok (script (p_base s)) -> (1 <= i < nfd s)%nat ->
  nodes s !! i = Some (Some node) -> node_data (p_base s) !! node = Some c ->
  exists s1 s', invoke_if (cb_close (cbs (p_base s))) s (CClose c) = Some s1 /\
    poll_drop (upd_base s1 (fun b => list_remove b node)) i = Some s' /\
    scanned s s' (calls (cb_close (cbs (p_base s))) (CClose c)) /\ below i s s' /\ (forall n, node_data (p_base s') !! n <> Some c).
Proof.
  intros Hs Hsc Hi Hn Hc; set (set := cb_close (cbs (p_base s))).
  assert (exists s1, invoke_if set s (CClose c) = Some (if set then after_call s1 (CClose c) else s1) /\ called s s1 (calls set (CClose c))) as (s1 & -> & A).
  { destruct set; [by apply (invoke_ok s (CClose c))|]; exists s; split; [done|by apply called_refl]. }
  eexists; eexists (match poll_drop (set_p_base s1 (close_base set (p_base s1) node c)) i with Some s' => s' | None => s end).
  split; [done|]; pose proof (ca_ok _ _ _ A) as Hs1; pose proof (below_called _ _ _ i A Hs ltac:(lia)) as Hb1.
  destruct (ca_frame _ _ _ A) as (Hnfd & _ & Hf); destruct (Hf i ltac:(lia)) as [_ Hfn].
  assert (nodes s1 !! i = Some (Some node)) as Hn1 by congruence.
  assert (node_data (p_base s1) !! node = Some c) as Hc1 by (eapply lookup_weaken; [done|apply (ca_grows _ _ _ A)]).
  destruct (drop_ok s1 i node c set Hs1 ltac:(lia) Hn1 Hc1) as (s' & Ed & Hs' & Eb & Enfd & Hlow).
  assert (upd_base (if set then after_call s1 (CClose c) else s1) (fun b => list_remove b node) = set_p_base s1 (close_base set (p_base s1) node c)) as ->
    by by destruct set.
  rewrite Ed; split; [done|]; split; [exact (close_scanned s s1 s' node c Hs Hc A Hs' Eb)|]; split.
  - eapply below_trans; [done|]; split; [lia|]; split; [apply Hlow; lia|].
    intros j [x r] Hj (n & e & E1 & E2 & E3 & <-)%entry_inv; unfold entry; destruct (Hlow j ltac:(lia)) as [-> ->].
    rewrite E1, E3, Eb, close_base_data; simpl; rewrite lookup_delete_ne, E2; [done|].
    intros <-; assert (j = i); [|lia]; apply (po_inj _ Hs1 _ _ node); [lia..|done|done].
  - intros n; rewrite Eb, close_base_data; intros [Hne H]%lookup_delete_Some; by apply Hne, (bo_inj _ (po_base _ Hs1) _ _ c).
Qed.

Lemma poll_entry_ok s i n c r : poll_ok s -> script_ok (script (p_base s)) -> (1 <= i < nfd s)%nat -> entry s i = Some (c, r) ->
  exists s' cs, poll_entry s i n = Some (s', left_after n r) /\ scanned s s' cs /\ below i s s' /\
    reads_of cs = (if is_ready r && cb_read (cbs (p_base s)) then [c] else []) /\
    (is_hup r = true -> forall node, node_data (p_base s') !! node <> Some c).
Proof.
  intros Hs Hsc Hi He; pose proof He as (node & e & Hn & Hc & Hfd & <-)%entry_inv; unfold poll_entry.
  rewrite Hn; simpl; rewrite Hc; simpl; rewrite Hfd; simpl; fold (is_ready (snd e)).
  set (rd := is_ready (snd e) && cb_read (cbs (p_base s))).
  assert (exists s1, (if is_ready (snd e) then invoke_if (cb_read (cbs (p_base s))) s (CRead c) else Some s) = Some s1 /\
    called s s1 (calls rd (CRead c))) as (s1 & -> & A1).
  { unfold rd; destruct (is_ready (snd e)); simpl; [by apply invoke_if_ok|]; exists s; split; [done|by apply called_refl]. }
  simpl; pose proof (ca_ok _ _ _ A1) as Hs1; destruct (ca_frame _ _ _ A1) as (Hnfd & _ & Hf); destruct (Hf i ltac:(lia)) as [Hf1 Hf2].
  rewrite Hf1, Hfd; simpl; fold (is_hup (snd e)).
  assert (node_data (p_base s1) !! node = Some c) as Hc1 by (eapply lookup_weaken; [done|apply (ca_grows _ _ _ A1)]).
  destruct (bo_ctxs _ (po_base _ Hs1) _ _ Hc1) as [x1 Hx1].
  assert (exists s2 x, (if is_hup (snd e) then b ← muggle_ev_ctx_set_flag (p_base s1) c MUGGLE_EV_CTX_FLAG_CLOSED; Some (set_p_base s1 b) else Some s1) = Some s2 /\
    called s1 s2 [] /\ nodes s2 = nodes s1 /\ nfd s2 = nfd s1 /\ ctxs (p_base s2) !! c = Some x /\ (is_hup (snd e) = true -> closed x = true)) as (s2 & x & -> & A2 & En2 & Ef2 & Hx & Hcl).
  { destruct (is_hup (snd e)).
    - destruct (muggle_ev_ctx_set_flag (p_base s1) c MUGGLE_EV_CTX_FLAG_CLOSED) as [b|] eqn:E;
        [|unfold muggle_ev_ctx_set_flag in E; by rewrite Hx1 in E].
      destruct (set_flag_keeps _ _ _ _ E) as (Hk & ? & ? & ? & ? & ?).
      unfold muggle_ev_ctx_set_flag in E; rewrite Hx1 in E; simplify_eq/=.
      eexists _, _; split; [done|]; split; [apply (called_keeps s1 _ (ca_ok _ _ _ A1) (ca_script _ _ _ A1) Hk); try done; by left|]; split; [done|]; split; [done|].
      split; [apply lookup_insert_eq|]; intros _; apply closed_flag.
    - exists s1, x1; split; [done|]; split; [apply called_refl; [done|apply A1]|done]. }
  simpl; rewrite Hx; simpl; pose proof (called_trans _ _ _ _ _ A1 A2) as A; rewrite app_nil_r in A.
  pose proof (ca_ok _ _ _ A) as Hs2; pose proof (below_called _ _ _ i A Hs ltac:(lia)) as Hb2.
  assert (filter closes (calls rd (CRead c)) = [] /\ reads_of (calls rd (CRead c)) = if rd then [c] else []) as [Hnc Hrd] by by destruct rd.
  pose proof (called_scanned _ _ _ A Hs Hnc) as Sc; destruct (ca_frame _ _ _ A) as (_ & _ & Hf3).
  destruct (closed x) eqn:Ecl.
  - destruct (close_step s2 i node c Hs2 (ca_script _ _ _ A)) as (s3 & s4 & E3 & E4 & Sc4 & Hb4 & Hgone); [lia|by destruct (Hf3 i ltac:(lia)) as [_ ->]| |].
    { apply (lookup_weaken (node_data (p_base s))); [done|apply (ca_grows _ _ _ A)]. }
    rewrite E3; simpl; unfold upd_base in E4; simpl in E4; rewrite E4; simpl; eexists _, _; split; [by rewrite left_after_eq|].
    split; [by eapply scanned_trans|]; split; [by eapply below_trans|]; split; [|done].
    rewrite reads_of_app, Hrd; destruct (cb_close _); simpl; by rewrite app_nil_r.
  - eexists _, _; split; [by rewrite left_after_eq|]; split; [done|]; split; [done|]; split; [done|]; intros Hh; by specialize (Hcl Hh).
Qed.

(** The entries from [i] down to the first after the signal. *)
Fixpoint entries s (i : nat) : list (nat * Z) :=
  match i with O => [] | S i' => option_list (entry s i) ++ entries s i' end.

(** The contexts that a scan reads and those that it finds hung up, when [n] are
    ready, and whether it gets to the signal. *)
Fixpoint poll_reads (es : list (nat * Z)) (n : Z) : list nat * list nat * bool :=
  match es with
  | [] => ([], [], true)
  | (c, r) :: es =>
      let '(l, h, b) := if left_after n r <=? 0 then ([], [], false) else poll_reads es (left_after n r) in
      ((if is_ready r then [c] else []) ++ l, (if is_hup r then [c] else []) ++ h, b)
  end.

Lemma entry_some s i : poll_ok s -> (1 <= i < nfd s)%nat -> exists c r, entry s i = Some (c, r).
Proof.
  intros Hs Hi; destruct (po_at _ Hs i Hi) as (node & c & x & r & E1 & E2 & E3 & E4); exists c, r.
  unfold entry; rewrite E1; simpl; rewrite E2; simpl; by rewrite E4.
Qed.

Lemma entries_below s s' k i : poll_ok s -> below k s s' -> (i < k)%nat -> (k <= nfd s)%nat -> entries s' i = entries s i.
Proof.
  intros Hs Hb; induction i as [|i IH]; intros Hi Hk; [done|]; cbn [entries]; rewrite IH by lia; f_equal; f_equal.
  destruct (entry_some s (S i) Hs) as (c & r & E); [lia|]; rewrite E; destruct Hb as (_ & _ & Hb); apply Hb; [lia|done].
Qed.

Lemma poll_wakeup_ok s e : poll_ok s -> script_ok (script (p_base s)) -> fds s !! 0%nat = Some e ->
  exists s' cs, muggle_evloop_poll_handle_wakeup s = Some s' /\ scanned s s' cs /\ reads_of cs = [] /\
    (is_ready (snd e) = true -> to_exit (p_base s') <> MUGGLE_EV_LOOP_EXIT_STATUS_WAKE /\ cs = calls (cb_wake (cbs (p_base s))) CWake).
Proof.
  intros Hs Hsc He; unfold muggle_evloop_poll_handle_wakeup; rewrite He; destruct e as [f r]; simpl; fold (is_ready r); destruct (is_ready r).
  - destruct (handle_wakeup_ok (L := poll_laws) s Hs Hsc) as (s' & E & A & Hx); simpl in *; exists s', (calls (cb_wake (cbs (p_base s))) CWake).
    split; [done|]; split; [apply called_scanned; try done|]; by destruct (cb_wake _).
  - exists s, []; split; [done|]; split; [|done]; apply called_scanned; try done; by apply called_refl.
Qed.

Lemma poll_scan_ok i n s e l h b : poll_ok s -> script_ok (script (p_base s)) -> (i < nfd s)%nat -> fds s !! 0%nat = Some e ->
  poll_reads (entries s i) n = (l, h, b) ->
  exists s' cs, poll_scan i n s = Some s' /\ scanned s s' cs /\
    reads_of cs = (if cb_read (cbs (p_base s)) then l else []) /\
    (forall c node, c ∈ h -> node_data (p_base s') !! node <> Some c) /\
    (b = true -> is_ready (snd e) = true ->
       to_exit (p_base s') <> MUGGLE_EV_LOOP_EXIT_STATUS_WAKE /\ (cb_wake (cbs (p_base s)) = true -> CWake ∈ cs)).
Proof.
  revert n s l h b; induction i as [|i IH]; intros n s l h b Hs Hsc Hi He Hp.
  - destruct (poll_wakeup_ok s e Hs Hsc He) as (s' & cs & E & Hsn & Hr & Hw); exists s', cs; split; [done|]; split; [done|].
    simpl in Hp; injection Hp as <- <- <-; split; [by destruct (cb_read _)|]; split; [set_solver|].
    intros _ Hrd; destruct (Hw Hrd) as [H ->]; split; [done|]; intros ->; left.
  - destruct (entry_some s (S i) Hs) as (c & r & Ee); [lia|]; cbn [poll_scan entries] in *; rewrite Ee in Hp;
      change (option_list (Some (c, r)) ++ entries s i) with ((c, r) :: entries s i) in Hp; cbn [poll_reads] in Hp.
    destruct (poll_entry_ok s (S i) n c r Hs Hsc) as (s1 & cs1 & -> & S1 & B1 & R1 & G1); [lia|done|]; cbn [mbind option_bind].
    destruct (if left_after n r <=? 0 then _ else _) as [[l' h'] b'] eqn:Erec in Hp; injection Hp as <- <- <-.
    destruct (left_after n r <=? 0) eqn:El.
    + simplify_eq; exists s1, cs1; split; [done|]; split; [done|]; rewrite R1, !app_nil_r; split; [by destruct (is_ready r), (cb_read _)|].
      split; [|done]; intros x node Hx; destruct (is_hup r); [|set_solver]; apply list_elem_of_singleton in Hx as ->; by apply G1.
    + pose proof (sc_config _ _ _ S1) as [Ecb _]; simpl in Ecb; destruct B1 as (Hn1 & H0 & Hb1).
      assert (entries s1 i = entries s i) as Een by (apply (entries_below s s1 (S i)); [done|done|lia|lia]).
      destruct (IH (left_after n r) s1 l' h' b') as (s' & cs & -> & S2 & R2 & G2 & W2); [apply S1|apply S1|lia|by rewrite H0|by rewrite Een|].
      rewrite Ecb in *; exists s', (cs1 ++ cs); split; [done|]; split; [by eapply scanned_trans|]; rewrite reads_of_app, R1, R2.
      split; [by destruct (is_ready r), (cb_read _)|]; split.
      * intros x node [Hx|Hx]%elem_of_app; [|by apply G2]; destruct (is_hup r); [|set_solver]; apply list_elem_of_singleton in Hx as ->.
        intros Hn; apply (G1 eq_refl node), (sc_old _ _ _ S2); [done|]; apply (sc_known _ _ _ S1).
        destruct (entry_inv _ _ _ _ Ee) as (node' & ? & _ & Hd & _); apply (node_known _ node'), Hd; apply Hs.
      * intros Hb Hrd; destruct (W2 Hb Hrd) as [H1 H2]; split; [done|]; intros Hw; apply elem_of_app; right; auto.
Qed.

(** ** The whole round *)

(** Each descriptor is ready or hung up, not both: then [n] counts them. *)
Definition weight (r : Z) : Z := Z.b2z (is_ready r) + Z.b2z (is_hup r).

Definition single (r : Z) : Prop := is_ready r && is_hup r = false.

Definition total_weight (es : list (nat * Z)) : Z := foldr (fun e a => weight (snd e) + a) 0 es.

Lemma weight_range r : 0 <= weight r.
Proof. unfold weight; destruct (is_ready r), (is_hup r); simpl; lia. Qed.

Lemma total_weight_nonneg es : 0 <= total_weight es.
Proof. induction es as [|[c r] es IH]; simpl; [lia|]; pose proof (weight_range r); lia. Qed.

Lemma total_weight_zero es : total_weight es = 0 ->
  filter (fun e => is_ready (snd e)) es = [] /\ filter (fun e => is_hup (snd e)) es = [].
Proof.
  induction es as [|[c r] es IH]; simpl; [done|]; intros H; pose proof (weight_range r); pose proof (total_weight_nonneg es).
  destruct IH as [I1 I2]; [lia|]; assert (weight r = 0) as Hw by lia; unfold weight in Hw.
  rewrite !filter_cons; simpl; rewrite I1, I2; destruct (is_ready r), (is_hup r); simpl in *; try lia; done.
Qed.

Lemma poll_reads_all es n : total_weight es <= n -> exists l h b, poll_reads es n = (l, h, b) /\
  l = (filter (fun e => is_ready (snd e)) es).*1 /\ h = (filter (fun e => is_hup (snd e)) es).*1 /\ (total_weight es < n -> b = true).
Proof.
  revert n; induction es as [|[c r] es IH]; intros n Hn; simpl in *; [by exists [], [], true|].
  assert (left_after n r = n - weight r) as El by (unfold left_after, weight; lia).
  rewrite !filter_cons; simpl; destruct (left_after n r <=? 0) eqn:E.
  - apply Z.leb_le in E; pose proof (total_weight_nonneg es); destruct (total_weight_zero es) as [-> ->]; [lia|].
    eexists _, _, _; split; [done|]; split; [|split; [|lia]]; [by destruct (is_ready r)|by destruct (is_hup r)].
  - destruct (IH (left_after n r)) as (l & h & b & -> & -> & -> & Hb); [lia|].
    eexists _, _, _; split; [done|]; split; [|split; [|intros ?; apply Hb; lia]]; [by destruct (is_ready r)|by destruct (is_hup r)].
Qed.

Lemma count_ready_app l1 l2 : count_ready (l1 ++ l2) = count_ready l1 + count_ready l2.
Proof. unfold count_ready; rewrite filter_app, length_app; lia. Qed.

Lemma weight_count r : single r -> weight r <= count_ready [r].
Proof.
  unfold single, weight, count_ready; intros H; destruct (decide (r = 0)) as [->|Hr]; [done|].
  rewrite filter_cons_True by exact Hr; change (filter _ []) with (@nil Z); simpl; destruct (is_ready r), (is_hup r); simpl in *; try lia; done.
Qed.

(** What [poll] writes. *)
Lemma set_revents_fds s rev : poll_ok s -> length rev = nfd s ->
  (forall i f r0 r, (i < nfd s)%nat -> fds s !! i = Some (f, r0) -> rev !! i = Some r -> fds (set_revents s rev) !! i = Some (f, r)) /\
  (forall i, (nfd s <= i)%nat -> fds (set_revents s rev) !! i = fds s !! i) /\ length (fds (set_revents s rev)) = length (fds s).
Proof.
  intros Hs Hl; pose proof (po_length _ Hs) as [H1 _]; pose proof (po_nfd _ Hs); unfold set_revents; simpl.
  assert (length (zip_with (fun (e : Z * Z) r => (e.1, r)) (take (nfd s) (fds s)) rev) = nfd s) as Hz
    by (rewrite length_zip_with, length_take; lia).
  split; [|split].
  - intros i f r0 r Hi E Er; rewrite lookup_app_l by lia; rewrite lookup_zip_with, lookup_take_lt by done; by rewrite E, Er.
  - intros i Hi; rewrite lookup_app_r, Hz by lia; rewrite lookup_drop; f_equal; lia.
  - rewrite length_app, Hz, length_drop; lia.
Qed.

Lemma set_revents_ok s rev : poll_ok s -> length rev = nfd s -> poll_ok (set_revents s rev) /\
  (forall i r, (1 <= i < nfd s)%nat -> rev !! i = Some r -> exists c, entry (set_revents s rev) i = Some (c, r)) /\
  (forall r, rev !! 0%nat = Some r -> exists f, fds (set_revents s rev) !! 0%nat = Some (f, r)).
Proof.
  intros Hs Hl; destruct (set_revents_fds s rev Hs Hl) as (F1 & F2 & F3); pose proof Hs as [H1 [H2a H2b] H3 H4 H5 H6].
  assert (forall i, (i < nfd s)%nat -> exists r, rev !! i = Some r) as Hr by (intros i Hi; apply lookup_lt_is_Some; lia).
  split; [|split].
  - split; try done; [by rewrite F3|]; intros i Hi; destruct (H4 i Hi) as (n & c & x & r & E1 & E2 & E3 & E4).
    destruct (Hr i) as [r' Er]; [simpl in Hi; lia|]; exists n, c, x, r'; split_and!; try done; eapply F1; [simpl in Hi; lia|done|done].
  - intros i r Hi Er; destruct (H4 i Hi) as (n & c & x & r0 & E1 & E2 & E3 & E4); exists c; unfold entry.
    rewrite (F1 i _ _ r ltac:(lia) E4 Er); simpl; rewrite E1; simpl; by rewrite E2.
  - intros r Er; destruct (lookup_lt_is_Some_2 (fds s) 0%nat) as [[f r0] E]; [lia|]; exists f; eapply F1; [lia|done|done].
Qed.

Lemma weight_entries s rev i : poll_ok s -> length rev = nfd s -> Forall single rev -> (i < nfd s)%nat ->
  total_weight (entries (set_revents s rev) i) <= count_ready (take i (tail rev)).
Proof.
  intros Hs Hl Hsg; destruct (set_revents_ok s rev Hs Hl) as (_ & He & _); induction i as [|i IH]; intros Hi; [done|].
  destruct (lookup_lt_is_Some_2 rev (S i)) as [r Er]; [lia|]; destruct (He (S i) r ltac:(lia) Er) as [c Ec].
  cbn [entries]; rewrite Ec; simpl; erewrite take_S_r by (rewrite lookup_tail; exact Er); rewrite count_ready_app.
  assert (single r) as Hr by (eapply Forall_lookup_1; [exact Hsg|exact Er]); pose proof (weight_count r Hr); specialize (IH ltac:(lia)); lia.
Qed.

Lemma entries_in s i c r : poll_ok s -> (i < nfd s)%nat -> (c, r) ∈ entries s i ->
  exists node, node_data (p_base s) !! node = Some c.
Proof.
  intros Hs; induction i as [|i IH]; intros Hi Hin; [by apply not_elem_of_nil in Hin|].
  destruct (entry_some s (S i) Hs) as (c' & r' & E); [lia|]; cbn [entries] in Hin; rewrite E in Hin.
  apply elem_of_app in Hin as [Hin|Hin]; [|apply IH; [lia|done]].
  apply list_elem_of_singleton in Hin; simplify_eq; destruct (entry_inv _ _ _ _ E) as (node & ? & _ & Hd & _); by exists node.
Qed.

Lemma entries_known s rev c r : poll_ok s -> length rev = nfd s -> (c, r) ∈ entries (set_revents s rev) (nfd s - 1) -> c ∈ known (p_base s).
Proof.
  intros Hs Hl Hin; destruct (set_revents_ok s rev Hs Hl) as (Hs0 & _); pose proof (po_nfd _ Hs).
  destruct (entries_in (set_revents s rev) (nfd s - 1) c r Hs0 ltac:(simpl; lia) Hin) as [node Hd]; apply (node_known _ node); [apply Hs|done].
Qed.

Lemma answer_ok s a : poll_ok s -> script_ok (script (p_base s)) -> match a with PReady rev => length rev = nfd s | PError _ => True end ->
  exists s1 cs, poll_handle s a = Some s1 /\ scanned s s1 cs /\
    match a with
    | PError intr => cs = [] /\ (intr = false -> to_exit (p_base s1) = MUGGLE_EV_LOOP_EXIT_STATUS_EXIT)
    | PReady rev =>
        Forall single rev ->
        let es := entries (set_revents s rev) (nfd s - 1) in
        reads_of cs = (if cb_read (cbs (p_base s)) then (filter (fun e => is_ready (snd e)) es).*1 else []) /\
        (forall c r node, (c, r) ∈ es -> is_hup r = true -> node_data (p_base s1) !! node <> Some c) /\
        (forall r, rev !! 0%nat = Some r -> is_ready r = true ->
           to_exit (p_base s1) <> MUGGLE_EV_LOOP_EXIT_STATUS_WAKE /\ (cb_wake (cbs (p_base s)) = true -> CWake ∈ cs))
    end.
Proof.
  intros Hs Hsc Ha; pose proof (po_nfd _ Hs) as Hn; destruct a as [rev|intr].
  - destruct (set_revents_ok s rev Hs Ha) as (Hs0 & He & H0); destruct rev as [|r0 rev]; [simpl in Ha; lia|].
    assert (Forall single (r0 :: rev) -> single r0 /\ total_weight (entries (set_revents s (r0 :: rev)) (nfd s - 1)) <= count_ready rev) as Hw.
    { intros Hsg; pose proof (weight_entries s (r0 :: rev) (nfd s - 1) Hs Ha Hsg ltac:(lia)) as Hw.
      simpl in Ha, Hw; rewrite take_ge in Hw by lia; split; [by inversion Hsg|done]. }
    assert (count_ready (r0 :: rev) = count_ready [r0] + count_ready rev) as Ec by apply (count_ready_app [r0]).
    assert (0 <= count_ready rev /\ 0 <= count_ready [r0]) as [Hc1 Hc2] by (unfold count_ready; lia).
    cbn [poll_handle]; cbv zeta; destruct (0 <? count_ready (r0 :: rev)) eqn:En.
    + destruct (H0 r0 eq_refl) as [f Ef].
      destruct (poll_reads (entries (set_revents s (r0 :: rev)) (nfd s - 1)) (count_ready (r0 :: rev))) as [[l h] b] eqn:Er.
      destruct (poll_scan_ok (nfd s - 1) (count_ready (r0 :: rev)) _ _ l h b Hs0 Hsc ltac:(simpl; lia) Ef Er) as (s1 & cs & -> & Sc & R & G & W).
      exists s1, cs; split; [done|]; split; [by destruct Sc; split|]; intros Hsg; destruct (Hw Hsg) as [Hr0 Hw'].
      destruct (poll_reads_all (entries (set_revents s (r0 :: rev)) (nfd s - 1)) (count_ready (r0 :: rev))) as (l' & h' & b' & Er' & -> & -> & Hb); [lia|].
      rewrite Er in Er'; injection Er' as -> -> ->; split; [done|]; split.
      * intros c r node Hin Hh; apply G; apply list_elem_of_fmap; exists (c, r); split; [done|]; apply list_elem_of_filter; split; [simpl; by rewrite Hh|done].
      * intros r [= <-] Hrd; apply W; [|done]; apply Hb; pose proof (weight_count r0 Hr0) as Hwc; unfold weight in Hwc; rewrite Hrd in Hwc; simpl in Hwc.
        destruct (is_hup r0); simpl in Hwc; lia.
    + apply Z.ltb_ge in En; exists s, []; split; [done|]; split; [apply called_scanned; try done; by apply (called_refl (L := poll_laws))|].
      intros Hsg; destruct (Hw Hsg) as [Hr0 Hw']; pose proof (total_weight_nonneg (entries (set_revents s (r0 :: rev)) (nfd s - 1))).
      destruct (total_weight_zero (entries (set_revents s (r0 :: rev)) (nfd s - 1))) as [Z1 Z2]; [lia|]; rewrite Z1; split; [by destruct (cb_read _)|]; split.
      * intros c r node Hin Hh _; assert ((c, r) ∈ filter (fun e => is_hup (snd e)) (entries (set_revents s (r0 :: rev)) (nfd s - 1))) as Hin'
          by (apply list_elem_of_filter; split; [simpl; by rewrite Hh|done]).
        rewrite Z2 in Hin'; by apply not_elem_of_nil in Hin'.
      * intros r [= <-] Hrd; pose proof (weight_count r0 Hr0) as Hwc; unfold weight in Hwc; rewrite Hrd in Hwc; simpl in Hwc.
        destruct (is_hup r0); simpl in Hwc; lia.
  - exists (if intr then s else upd_base s (fun b => muggle_evloop_exit b true)), []; split; [done|]; split; [|split; [done|by destruct intr]].
    destruct intr; [apply called_scanned; try done; by apply (called_refl (L := poll_laws))|].
    apply called_scanned; try done; apply (called_keeps (L := poll_laws)); try done; [by apply same_keeps|by right].
Qed.

(** The end of a round, after the answer of [poll] has been handled. *)
Lemma poll_round_timer s s1 (remain_ms elapsed : Z) a cs : poll_ok s -> poll_handle s a = Some s1 -> scanned s s1 cs -> 0 <= elapsed < 2 ^ 31 ->
  exists s' r, poll_round s remain_ms a elapsed = Some (s', r, to_exit (p_base s') =? MUGGLE_EV_LOOP_EXIT_STATUS_EXIT) /\
    scanned s s' (cs ++ calls (timer_fires (p_base s) elapsed) CTimer) /\
    called s1 s' (calls (timer_fires (p_base s) elapsed) CTimer).
Proof.
  intros Hs E1 S1 He; unfold poll_round; rewrite E1; cbn [mbind option_bind].
  destruct (loop_timer_ok (L := poll_laws) s1 remain_ms elapsed) as (s' & r & -> & A & _); [apply S1|apply S1|done|]; cbn [mbind option_bind].
  assert (timer_fires (p_base s1) elapsed = timer_fires (p_base s) elapsed) as ET
    by (pose proof (sc_config _ _ _ S1) as [C1 C2]; simpl in C1, C2; unfold timer_fires; by rewrite C1, C2).
  change (base s1) with (p_base s1) in A; rewrite ET in A.
  exists s', r; split; [done|]; split; [|done].
  eapply scanned_trans; [done|exact S1|]; apply called_scanned; [done|apply S1|by destruct (timer_fires _ _)].
Qed.

(** C19: A round of the loop, for every state that the invariant allows, every
    answer of [poll] and all callbacks: it accesses no freed context and stays in
    its arrays, keeps the invariant, and closes a context once and exactly when
    it takes it from the loop.  When no descriptor is both readable and hung up,
    it reads exactly the contexts that are readable, once each, drops those that
    hung up, and answers the signal; the timer is called when its time is over. *)
Theorem poll_round_correct (s : muggle_event_loop_poll) (remain_ms elapsed : Z) (a : poll_answer)
    (Hs : poll_ok s) (Hsc : script_ok (script (p_base s))) (He : 0 <= elapsed < 2 ^ 31)
    (Ha : match a with PReady rev => length rev = nfd s | PError _ => True end) :
  exists s' r ended cs, poll_round s remain_ms a elapsed = Some (s', r, ended) /\
    scanned s s' (cs ++ calls (timer_fires (p_base s) elapsed) CTimer) /\
    ended = (to_exit (p_base s') =? MUGGLE_EV_LOOP_EXIT_STATUS_EXIT) /\
    match a with
    | PError intr => cs = [] /\ (intr = false -> ended = true)
    | PReady rev =>
        Forall single rev ->
        let es := entries (set_revents s rev) (nfd s - 1) in
        reads_of cs = (if cb_read (cbs (p_base s)) then (filter (fun e => is_ready (snd e)) es).*1 else []) /\
        (forall c r node, (c, r) ∈ es -> is_hup r = true -> node_data (p_base s') !! node <> Some c) /\
        (forall r, rev !! 0%nat = Some r -> is_ready r = true ->
           to_exit (p_base s') <> MUGGLE_EV_LOOP_EXIT_STATUS_WAKE /\ (cb_wake (cbs (p_base s)) = true -> CWake ∈ cs))
    end.
Proof.
  destruct (answer_ok s a Hs Hsc Ha) as (s1 & cs & E1 & S1 & H1).
  destruct (poll_round_timer s s1 remain_ms elapsed a cs Hs E1 S1 He) as (s' & r & E & Sc & A); pose proof (ca_exit _ _ _ A) as Hex; simpl in Hex.
  exists s', r; eexists _, cs; split; [exact E|]; split; [done|]; split; [done|].
  destruct a as [rev|intr].
  + intros Hsg; destruct (H1 Hsg) as (R1 & R2 & R3); split; [done|]; split.
    * intros c r0 node Hin Hh Hn; apply (R2 c r0 node Hin Hh), (ca_old _ _ _ A); [done|]; apply (sc_known _ _ _ S1).
      by eapply entries_known.
    * intros r0 Hr0 Hrd; destruct (R3 r0 Hr0 Hrd) as [R4 R5]; split; [|done]; destruct Hex as [-> | ->]; done.
  + destruct H1 as [-> H1]; split; [done|]; intros Hi; destruct Hex as [-> | ->]; [by rewrite H1|done].
Qed.

(** The answers of [poll] have an entry for each descriptor that it was given. *)
Fixpoint fits (s : muggle_event_loop_poll) (remain_ms : Z) (l : list (poll_answer * Z)) : Prop :=
  match l with
  | [] => True
  | (a, elapsed) :: l => 0 <= elapsed < 2 ^ 31 /\ match a with PReady rev => length rev = nfd s | PError _ => True end /\
      forall s' r, poll_round s remain_ms a elapsed = Some (s', r, false) -> fits s' r l
  end.

(** C20: The loop, for all answers: no access of a freed context, every context
    that leaves the loop is closed, once; and when the loop ends, the clear
    callback is called once for each context that is left, then the exit
    callback. *)
Theorem poll_run_correct (s : muggle_event_loop_poll) (l : list (poll_answer * Z))
    (Hs : poll_ok s) (Hsc : script_ok (script (p_base s))) (Hl : fits s (timeout (p_base s)) l) :
  exists s' ended cs, muggle_evloop_run_poll s l = Some (s', ended) /\ scanned s s' cs /\
    (ended = true -> to_exit (p_base s') = MUGGLE_EV_LOOP_EXIT_STATUS_EXIT) /\
    exists s2 cl, muggle_evloop_finish s' = Some s2 /\
      trace (p_base s2) = trace (p_base s) ++ cs ++ (CClear <$> cl) ++ calls (cb_exit (cbs (p_base s))) CExit /\
      NoDup cl /\ if cb_clear (cbs (p_base s)) then registered (p_base s') `prefix_of` cl else cl = [].
Proof.
  assert (exists s' ended cs, muggle_evloop_run_poll s l = Some (s', ended) /\ scanned s s' cs /\
    (ended = true -> to_exit (p_base s') = MUGGLE_EV_LOOP_EXIT_STATUS_EXIT)) as (s' & ended & cs & E & Sc & He).
  { unfold muggle_evloop_run_poll; generalize (timeout (p_base s)) Hl; clear Hl; intros remain; revert s remain Hs Hsc.
    induction l as [|[a elapsed] l IH]; intros s remain Hs Hsc Hl; simpl in *.
    - exists s, false, []; split; [done|]; split; [|done]; apply called_scanned; try done; by apply (called_refl (L := poll_laws)).
    - destruct Hl as (Hel & Ha & Hl).
      destruct (answer_ok s a Hs Hsc Ha) as (s0 & c0 & E0 & S0 & _).
      destruct (poll_round_timer s s0 remain elapsed a c0 Hs E0 S0 Hel) as (s1 & r & E & Sc & _); rewrite E in Hl |- *; simpl.
      destruct (to_exit (p_base s1) =? _) eqn:Hend; [exists s1, true; eexists; split; [done|]; split; [exact Sc|]; intros _; by apply Z.eqb_eq|].
      destruct (IH s1 r) as (s' & ended & cs' & -> & Sc' & He); [apply Sc|apply Sc|by apply Hl|].
      eexists s', ended, _; split; [done|]; split; [by eapply scanned_trans|done]. }
  exists s', ended, cs; split; [done|]; split; [done|]; split; [done|].
  destruct (finish_ok (L := poll_laws) s' (sc_ok _ _ _ Sc) (sc_script _ _ _ Sc)) as (s2 & cl & E2 & _ & Ht & Hnd & Hp); simpl in *.
  pose proof (sc_config _ _ _ Sc) as [Ec _]; pose proof (sc_trace _ _ _ Sc) as Et; simpl in Ec, Et; rewrite Ec in *.
  exists s2, cl; split; [done|]; split; [by rewrite Ht, Et, <- !app_assoc|done].
Qed.

(** ** A loop with two contexts *)

Lemma poll_init_ok k sc h evfd s : muggle_evloop_init_poll (muggle_evloop_init k sc) h evfd true true = Some s -> h < 2 ^ 31 - 1 -> poll_ok s.
Proof.
  unfold muggle_evloop_init_poll; simpl; intros [= <-] Hh; set (n := Z.to_nat _).
  assert (1 < n)%nat as Hn by (unfold n; destruct (h <? 1) eqn:E; [|apply Z.ltb_ge in E]; lia).
  split; simpl; try lia; try (intros; lia); try set_solver.
  - split; simpl; try done; [apply NoDup_nil_2| |by intros c [x ?]]; intros node; rewrite lookup_empty; split; [by intros ?%not_elem_of_nil|by intros [x ?]].
  - by rewrite length_insert, !length_replicate.
Qed.

Definition sample_poll : muggle_event_loop_poll :=
  default (PL (muggle_evloop_init (CB true true true true true true) []) [] [] 0 0)
    (s ← muggle_evloop_init_poll (muggle_evloop_init (CB true true true true true true) [[ASetFlag 10 1]]) 4 3 true true;
     s ← do_actions s [AAdd 10 5 true (Some 100%nat) true; AAdd 11 6 true (Some 101%nat) true];
     Some (upd_base s (fun b => muggle_evloop_set_timer_interval b 50))).

Lemma sample_poll_ok : poll_ok sample_poll /\ script_ok (script (p_base sample_poll)).
Proof.
  unfold sample_poll; destruct (muggle_evloop_init_poll (muggle_evloop_init (CB true true true true true true) [[ASetFlag 10 1]]) 4 3 true true) as [s|] eqn:E;
    [|discriminate E]; cbn [mbind option_bind].
  pose proof (poll_init_ok _ _ _ _ _ E ltac:(lia)) as Hs.
  destruct (do_actions_ok (L := poll_laws) s [AAdd 10 5 true (Some 100%nat) true; AAdd 11 6 true (Some 101%nat) true]) as (s1 & E1 & A);
    [exact Hs|by repeat constructor|].
  rewrite E1; cbn [mbind option_bind default]; split.
  - apply poll_keeps; [apply A|by apply same_keeps].
  - simpl; destruct (ac_io _ _ _ A) as [Es _]; simpl in Es; rewrite Es; injection E as <-; by repeat constructor.
Qed.

(** Context 10 is readable, and its callback closes it; context 11 hung up. *)
Lemma poll_round_correct_witness : exists s' r ended cs,
  poll_round sample_poll 50 (PReady [0; POLLIN; POLLHUP]) 60 = Some (s', r, ended) /\
  scanned sample_poll s' (cs ++ [CTimer]) /\ reads_of cs = [10%nat] /\ forall node, node_data (p_base s') !! node <> Some 11%nat.
Proof.
  destruct sample_poll_ok as [Hs Hsc].
  destruct (poll_round_correct sample_poll 50 60 (PReady [0; POLLIN; POLLHUP]) Hs Hsc ltac:(lia) eq_refl) as (s' & r & ended & cs & E & Sc & _ & H).
  destruct H as (R & G & _); [repeat constructor|].
  exists s', r, ended, cs; split; [exact E|]; split; [exact Sc|]; split; [exact R|].
  intros node; apply (G 11%nat POLLHUP node); [left|reflexivity].
Defined.

Lemma poll_run_correct_witness : exists s' ended cs,
  muggle_evloop_run_poll sample_poll [(PReady [0; POLLIN; POLLHUP], 60)] = Some (s', ended) /\ scanned sample_poll s' cs.
Proof.
  destruct sample_poll_ok as [Hs Hsc].
  destruct (poll_run_correct sample_poll [(PReady [0; POLLIN; POLLHUP], 60)] Hs Hsc) as (s' & ended & cs & E & Sc & _).
  - split; [lia|]; split; [reflexivity|intros; exact I].
  - exists s', ended, cs; split; [exact E|exact Sc].
Defined.

(** ** What modelling showed *)

(** A descriptor that is readable and hung up is counted twice: the scan stops
    before the others that are ready, here the signal, and context 10. *)
Theorem poll_counts_twice_defect :
  (fun p => trace (p_base (fst (fst p)))) <$> poll_round sample_poll 50 (PReady [POLLIN; POLLIN; Z.lor POLLIN POLLHUP]) 0 =
    Some [CRead 11; CClose 11; CRead 10; CClose 10] /\
  (fun p => trace (p_base (fst (fst p)))) <$> poll_round sample_poll 50 (PReady [0; POLLIN; Z.lor POLLIN POLLHUP]) 0 =
    Some [CRead 11; CClose 11].
Proof. split; vm_compute; reflexivity. Qed.
