(* ===== verification/EventSelect.v ===== *)
(** * The event loop on [select]: [event/internal/event_loop_select.c]

    The set [allset] has the descriptors that [select] looks at; a round builds
    it again while it walks over the list of contexts, to which the callbacks may
    add.  An [fd_set] has room for [FD_SETSIZE] descriptors: [FD_SET] of another
    one writes behind it, a fault of the model. *)
From S2P Require Import Prelude Utils EventLoop.

Definition FD_SETSIZE : Z := 1024.

Record muggle_event_loop_select := SL { s_base : muggle_event_loop; allset : gset Z; nfds : Z; evfd : Z }.

Definition set_s_base (s : muggle_event_loop_select) b := SL b (allset s) (nfds s) (evfd s).

Definition muggle_evloop_select_set_fd (s : muggle_event_loop_select) (f : Z) : option muggle_event_loop_select :=
  if (0 <=? f) && (f <? FD_SETSIZE)
  then Some (SL (s_base s) ({[f]} ∪ allset s) (if f >? nfds s then f else nfds s) (evfd s)) else None.

Definition muggle_evloop_add_ctx_select (s : muggle_event_loop_select) (c node : nat) (kernel : bool) : option (Z * muggle_event_loop_select) :=
  x ← ctxs (s_base s) !! c; s ← muggle_evloop_select_set_fd s (fd x); Some (0, s).

#[export] Instance select_impl : EvImpl muggle_event_loop_select :=
  {| base := s_base; set_base := set_s_base; fn_add_ctx := muggle_evloop_add_ctx_select |}.

Section Select.
Implicit Types s : muggle_event_loop_select.

(** [f] is the descriptor of the signal. *)
Definition muggle_evloop_init_select (b : muggle_event_loop) (f : Z) : option muggle_event_loop_select :=
  if (0 <=? f) && (f <? FD_SETSIZE) then Some (SL b {[f]} f f) else None.

Definition muggle_evloop_select_handle_wakeup s (rset : gset Z) : option muggle_event_loop_select :=
  s ← (if bool_decide (evfd s ∈ rset) then handle_wakeup s else Some s);
  Some (SL (s_base s) ({[evfd s]} ∪ allset s) (evfd s) (evfd s)).

(** The walk over the list, from node [cur]. *)
Fixpoint select_walk (fuel : nat) s (rset : gset Z) (cur : option nat) : option muggle_event_loop_select :=
  match cur, fuel with
  | None, _ => Some s
  | Some _, O => None
  | Some node, S fuel =>
      c ← node_data (s_base s) !! node; x ← ctxs (s_base s) !! c;
      s ← invoke_if (bool_decide (fd x ∈ rset) && cb_read (cbs (s_base s))) s (CRead c);
      x ← ctxs (s_base s) !! c;
      if closed x then
        s ← invoke_if (cb_close (cbs (s_base s))) s (CClose c);
        let next := next_in (ctx_list (s_base s)) node in
        select_walk fuel (upd_base s (fun b => list_remove b node)) rset next
      else
        s ← muggle_evloop_select_set_fd s (fd x);
        select_walk fuel s rset (next_in (ctx_list (s_base s)) node)
  end.

(** What [select] answers: the descriptors that are ready, none, or an error. *)
Inductive select_answer := SReady (rset : gset Z) | SNone | SError (intr : bool).

Definition select_handle s (a : select_answer) : option muggle_event_loop_select :=
  match a with
  | SReady rset =>
      s ← muggle_evloop_select_handle_wakeup (SL (s_base s) ∅ 0 (evfd s)) rset;
      select_walk (walk_fuel (s_base s)) s rset (head (ctx_list (s_base s)))
  | SNone => Some s
  | SError intr => Some (if intr then s else upd_base s (fun b => muggle_evloop_exit b true))
  end.

(** A round; [timed] is whether there was a time-out when the loop began. *)
Definition select_round s (timed : bool) (a : select_answer) (elapsed : Z) : option (muggle_event_loop_select * bool) :=
  s ← select_handle s a;
  s ← invoke_if (timed && cb_timer (cbs (s_base s)) && (swrap 32 elapsed >=? timeout (s_base s))) s CTimer;
  Some (s, to_exit (s_base s) =? MUGGLE_EV_LOOP_EXIT_STATUS_EXIT).

Fixpoint select_loop s (timed : bool) (l : list (select_answer * Z)) : option (muggle_event_loop_select * bool) :=
  match l with
  | [] => Some (s, false)
  | (a, elapsed) :: l =>
      '(s, ended) ← select_round s timed a elapsed; if (ended : bool) then Some (s, true) else select_loop s timed l
  end.

Definition muggle_evloop_run_select s (l : list (select_answer * Z)) : option (muggle_event_loop_select * bool) :=
  select_loop s (negb (timeout (s_base s) <? 0)) l.

(** ** The invariant *)

Definition fd_fits (f : Z) : Prop := 0 <= f < FD_SETSIZE.

(** Also in the middle of a round. *)
Record select_ok s : Prop := {
  so_base : base_ok (s_base s);
  so_fds : forall node c x, node_data (s_base s) !! node = Some c -> ctxs (s_base s) !! c = Some x -> fd_fits (fd x);
  so_evfd : fd_fits (evfd s)
}.

Definition select_frame s s' : Prop := evfd s' = evfd s /\ allset s ⊆ allset s' /\ nfds s <= nfds s'.

#[export] Instance select_frame_preorder : PreOrder select_frame.
Proof. split; [by intros s|]; intros a b c (A1 & A2 & A3) (B1 & B2 & B3); split; [congruence|split; [by etrans|lia]]. Qed.

(** [select] looks at the contexts in [ns]. *)
Definition watched s (ns : list nat) : Prop :=
  forall node c x, node ∈ ns -> node_data (s_base s) !! node = Some c -> ctxs (s_base s) !! c = Some x -> fd x ∈ allset s /\ fd x <= nfds s.

Definition watches_all s : Prop := evfd s ∈ allset s /\ evfd s <= nfds s /\ watched s (ctx_list (s_base s)).

Lemma set_fd_ok s f : fd_fits f -> exists s', muggle_evloop_select_set_fd s f = Some s' /\ s_base s' = s_base s /\
  select_frame s s' /\ f ∈ allset s' /\ f <= nfds s'.
Proof.
  intros [H1 H2]; unfold muggle_evloop_select_set_fd; rewrite (proj2 (Z.leb_le _ _) H1), (proj2 (Z.ltb_lt _ _) H2); simpl.
  eexists; split; [done|]; split; [done|]; unfold select_frame; simpl.
  destruct (f >? nfds s) eqn:E; [apply Z.gtb_lt in E|rewrite Z.gtb_ltb in E; apply Z.ltb_ge in E]; split_and!; try done; try set_solver; lia.
Qed.
End Select.

#[export] Program Instance select_laws : EvLaws muggle_event_loop_select :=
  {| fd_ok := fd_fits; impl_ok := select_ok; frame := select_frame |}.
Solve Obligations with done.
Next Obligation. by intros []. Qed.
Next Obligation. intros s H; apply H. Qed.
Next Obligation.
  intros s b [H1 H2 H3] Hk; pose proof Hk as [E1 E2 E3 _]; split; simpl; try done; [by eapply keeps_ok|].
  intros node c x; rewrite E2; intros Hn Hx; destruct (bo_ctxs _ H1 _ _ Hn) as [y Hy]; destruct (E3 _ _ Hy) as (y' & Hy' & Ef).
  simplify_eq; rewrite Ef; by eapply H2.
Qed.
Next Obligation.
  intros s node c x kernel [H1 H2 H3] Hn Hx Hf Hc; simpl in *; unfold muggle_evloop_add_ctx_select, upd_base; simpl; rewrite Hx; cbn [mbind option_bind].
  destruct (set_fd_ok (set_s_base s (list_append (s_base s) node c)) (fd x) Hf) as (s' & E & Eb & Hfr & _); rewrite E; simpl.
  eexists _, _; split; [done|]; split; [exact Hfr|]; split; [by rewrite Eb|].
  split; rewrite ?Eb; [apply append_ok; [done|done|by eexists|done]| |by rewrite (proj1 Hfr)].
  simpl; intros n c' x' [[<- <-]|[Hne E']]%lookup_insert_Some Hx'; [by simplify_eq|by eapply H2].
Qed.

(** ** The walk *)

Definition pair_of (b : muggle_event_loop) (node : nat) : option (nat * Z) :=
  c ← node_data b !! node; x ← ctxs b !! c; Some (c, fd x).

(** The contexts of the nodes, with their descriptors. *)
Definition pairs (b : muggle_event_loop) (ns : list nat) : list (nat * Z) := omap (pair_of b) ns.

Lemma pairs_eq b b' ns : (forall node, node ∈ ns -> pair_of b' node = pair_of b node) -> pairs b' ns = pairs b ns.
Proof.
  induction ns as [|n ns IH]; intros H; [done|]; simpl; rewrite H by left; rewrite IH; [done|]; intros m Hm; apply H; by right.
Qed.

Lemma pairs_app b l k : pairs b (l ++ k) = pairs b l ++ pairs b k.
Proof. apply omap_app. Qed.

Lemma pair_grows b b' node : base_ok b -> grows b b' -> node ∈ ctx_list b -> pair_of b' node = pair_of b node.
Proof.
  intros Hb [_ Gn Gc _ _] Hin; unfold pair_of; destruct (proj1 (bo_nodes _ Hb node) Hin) as [c Hc]; rewrite Hc, (lookup_weaken _ _ _ _ Hc Gn); simpl.
  destruct (bo_ctxs _ Hb _ _ Hc) as [x Hx]; destruct (Gc _ _ Hx) as (x' & Hx' & Ef); rewrite Hx, Hx'; simpl; by rewrite Ef.
Qed.

Lemma pair_close set b node c n : base_ok b -> node_data b !! node = Some c -> n <> node -> pair_of (close_base set b node c) n = pair_of b n.
Proof.
  intros Hb Hc Hn; destruct (close_base_spec set b node c Hb Hc) as (_ & Bd & _ & Bc); unfold pair_of; rewrite Bd, lookup_delete_ne by done.
  destruct (node_data b !! n) as [y|] eqn:Ey; simpl; [|done]; rewrite Bc; [done|]; intros ->; by apply Hn, (bo_inj _ Hb _ _ c).
Qed.

(** What is watched depends on the pairs only. *)
Lemma watched_pairs s ns : watched s ns <-> forall node c f, node ∈ ns -> pair_of (s_base s) node = Some (c, f) -> f ∈ allset s /\ f <= nfds s.
Proof.
  split; intros H.
  - intros node c f Hin (c' & Hc & Hp)%bind_Some; apply bind_Some in Hp as (x & Hx & Hp); simplify_eq; by eapply H.
  - intros node c x Hin Hc Hx; apply (H node c); [done|]; unfold pair_of; rewrite Hc; simpl; by rewrite Hx.
Qed.

Lemma watched_mono s s' ns : watched s ns -> select_frame s s' ->
  (forall node, node ∈ ns -> pair_of (s_base s') node = pair_of (s_base s) node) -> watched s' ns.
Proof.
  rewrite !watched_pairs; intros H (_ & Ha & Hn) Hp node c f Hin; rewrite Hp by done; intros E; destruct (H _ _ _ Hin E); split; [set_solver|lia].
Qed.

Lemma filter_ne_mid (pre suf : list nat) node : NoDup (pre ++ node :: suf) ->
  filter (fun x => x <> node) (pre ++ node :: suf) = pre ++ suf /\ node ∉ pre /\ node ∉ suf.
Proof.
  intros (H1 & H2 & H3)%NoDup_app; apply NoDup_cons in H3 as [H3 H4].
  assert (node ∉ pre) as Hp by (intros Hin; apply (H2 _ Hin); left).
  by rewrite filter_app, filter_cons_False, !filter_ne by (auto; naive_solver).
Qed.

(** The close callback, and the node leaves the list. *)
Lemma select_close s pre node suf c : select_ok s -> script_ok (script (s_base s)) -> ctx_list (s_base s) = pre ++ node :: suf ->
  node_data (s_base s) !! node = Some c ->
  exists s1 more, invoke_if (cb_close (cbs (s_base s))) s (CClose c) = Some s1 /\
    next_in (ctx_list (s_base s1)) node = head (suf ++ more) /\
    let s' := upd_base s1 (fun b => list_remove b node) in
    scanned s s' (calls (cb_close (cbs (s_base s))) (CClose c)) /\ ctx_list (s_base s') = pre ++ suf ++ more /\ select_frame s s' /\
    (length more + adds (script (s_base s')) <= adds (script (s_base s)))%nat /\
    (forall n, n ∈ pre ++ suf -> pair_of (s_base s') n = pair_of (s_base s) n) /\
    (forall n, node_data (s_base s') !! n <> Some c) /\ node ∉ ctx_list (s_base s').
Proof.
  intros Hs Hsc El Hc; set (set := cb_close (cbs (s_base s))); pose proof (so_base _ Hs) as Hb.
  assert (exists s1, invoke_if set s (CClose c) = Some (if set then after_call s1 (CClose c) else s1) /\ called s s1 (calls set (CClose c))) as (s1 & -> & A).
  { destruct set; [by apply (invoke_ok (L := select_laws) s (CClose c))|]; exists s; split; [done|by apply (called_refl (L := select_laws))]. }
  pose proof A as [B1 B2 [[more Em] Gn Gc Gf Gk] Bo Be B4 B5 B6]; simpl in B1, B2, Em, Gn, B6.
  pose proof (so_base _ B1) as Hb1; assert (node_data (s_base s1) !! node = Some c) as Hc1 by by eapply lookup_weaken.
  rewrite El, <- app_assoc in Em; simpl in Em; pose proof (bo_nodup _ Hb1) as Hnd; rewrite Em in Hnd.
  destruct (filter_ne_mid _ _ _ Hnd) as (Ef & Hp & Hsf).
  assert (upd_base (if set then after_call s1 (CClose c) else s1) (fun b => list_remove b node) = set_s_base s1 (close_base set (s_base s1) node c)) as Eu
    by by destruct set.
  destruct (close_base_spec set (s_base s1) node c Hb1 Hc1) as (HB & Bd & Bl & Bc).
  assert (select_ok (set_s_base s1 (close_base set (s_base s1) node c))) as Hok.
  { destruct B1 as [C1 C2 C3]; split; cbn [s_base set_s_base evfd]; [done| |done]; intros n y x; rewrite Bd; intros [Hne Hy]%lookup_delete_Some.
    rewrite Bc; [by apply (C2 n)|]; intros ->; by apply Hne, (bo_inj _ Hb1 _ _ c). }
  exists (if set then after_call s1 (CClose c) else s1), more; split; [done|]; split.
  { destruct set; simpl; rewrite Em; by apply next_in_app. }
  cbv zeta; rewrite Eu; split; [|split; [|split; [|split; [|split; [|split]]]]].
  - exact (close_scanned s s1 (set_s_base s1 (close_base set (s_base s1) node c)) node c Hs Hc A Hok eq_refl).
  - cbn [s_base set_s_base]; rewrite Bl, Em; by rewrite Ef.
  - exact B2.
  - unfold walk_fuel in B6; rewrite Em, El in B6; cbn [s_base set_s_base]; rewrite !length_app in B6; simpl in B6; rewrite length_app in B6.
    assert (script (close_base set (s_base s1) node c) = script (s_base s1)) as -> by by destruct set. lia.
  - intros n Hin; cbn [s_base set_s_base]; rewrite pair_close by (try done; intros ->; set_solver).
    apply pair_grows; [done|apply A|]; rewrite El; set_solver.
  - intros n; cbn [s_base set_s_base]; rewrite Bd; intros [Hne H]%lookup_delete_Some; by apply Hne, (bo_inj _ Hb1 _ _ c).
  - cbn [s_base set_s_base]; rewrite Bl; by intros [? _]%list_elem_of_filter.
Qed.

Definition read_expected (set : bool) (rset : gset Z) (vs : list (nat * Z)) : list nat :=
  if set then (filter (fun e => bool_decide (snd e ∈ rset)) vs).*1 else [].

Lemma read_expected_cons set rset c f vs :
  read_expected set rset ((c, f) :: vs) = (if bool_decide (f ∈ rset) && set then [c] else []) ++ read_expected set rset vs.
Proof.
  unfold read_expected; rewrite filter_cons; simpl; destruct set; rewrite ?andb_true_r, ?andb_false_r; [|done].
  by destruct (bool_decide (f ∈ rset)).
Qed.

(** The steps of the walk at a node that stays. *)
Lemma select_stay s pre node suf x : select_ok s -> script_ok (script (s_base s)) -> ctx_list (s_base s) = pre ++ node :: suf ->
  pair_of (s_base s) node = Some x -> watched s pre -> evfd s ∈ allset s /\ evfd s <= nfds s ->
  exists s', muggle_evloop_select_set_fd s (snd x) = Some s' /\ called s s' [] /\ s_base s' = s_base s /\
    watched s' (pre ++ [node]) /\ evfd s' ∈ allset s' /\ evfd s' <= nfds s'.
Proof.
  intros Hs Hsc El Hx Hw [He1 He2]; pose proof Hx as (c & Hc & Hx')%bind_Some; apply bind_Some in Hx' as (y & Hy & Hx'); simplify_eq.
  destruct (set_fd_ok s (fd y)) as (s' & E & Eb & Hf & H1 & H2); [by eapply so_fds|]; exists s'; split; [done|].
  pose proof Hf as (Ee & Ha & Hn); split; [|split; [done|split; [|rewrite Ee; split; [set_solver|lia]]]].
  - split; simpl; rewrite ?Eb; try done; [|by left|by rewrite app_nil_r].
    destruct Hs as [C1 C2 C3]; split; rewrite ?Eb, ?Ee; done.
  - apply watched_pairs; intros n c' f [Hin| ->%list_elem_of_singleton]%elem_of_app; rewrite Eb; intros E'; [|by simplify_eq].
    rewrite watched_pairs in Hw; destruct (Hw _ _ _ Hin E'); split; [set_solver|lia].
Qed.

(** The contexts of a walk over [ns]: each once, those of [ns] and new ones. *)
Definition visits (b : muggle_event_loop) (ns : list nat) (vs : list (nat * Z)) : Prop :=
  NoDup (vs.*1) /\ forall c, c ∈ vs.*1 -> (exists node, node ∈ ns /\ node_data b !! node = Some c) \/ c ∉ known b.

Lemma visits_cons b b' pre node suf suf' c f vs : base_ok b -> ctx_list b = pre ++ node :: suf -> node_data b !! node = Some c ->
  base_ok b' -> (forall n, n ∈ suf' -> n ∈ ctx_list b' /\ n ∉ pre /\ n <> node) -> known b ⊆ known b' ->
  (forall n c, node_data b' !! n = Some c -> c ∈ known b -> node_data b !! n = Some c) ->
  (forall n, node_data b' !! n = Some c -> n = node) -> visits b' suf' vs -> visits b (node :: suf) ((c, f) :: vs).
Proof.
  intros Hb El Hc Hb' Hsuf Hk Hold Hcn [Hnd Hv]; pose proof (node_known _ _ _ Hb Hc) as Hck; split; simpl.
  - apply NoDup_cons; split; [|done]; intros Hin; destruct (Hv _ Hin) as [(n & Hn & Hd)|Hu]; [|by apply Hu, Hk].
    destruct (Hsuf _ Hn) as (_ & _ & Hne); by apply Hne, Hcn.
  - intros x [->|Hin]%elem_of_cons; [left; exists node; split; [left|done]|].
    destruct (decide (x ∈ known b)) as [Hx|]; [left|by right].
    destruct (Hv _ Hin) as [(n & Hn & Hd)|Hu]; [|by destruct Hu; apply Hk]; exists n; split; [|by apply Hold].
    destruct (Hsuf _ Hn) as (_ & Hp & Hne); assert (n ∈ ctx_list b) as Hl by (apply (bo_nodes _ Hb); exists x; by apply Hold).
    rewrite El in Hl; set_solver.
Qed.

Lemma select_walk_ok fuel s rset pre suf : select_ok s -> script_ok (script (s_base s)) -> ctx_list (s_base s) = pre ++ suf ->
  (length suf + adds (script (s_base s)) <= fuel)%nat -> watched s pre -> evfd s ∈ allset s /\ evfd s <= nfds s ->
  exists s' cs vs, select_walk fuel s rset (head suf) = Some s' /\ scanned s s' cs /\ watches_all s' /\
    pairs (s_base s) suf `prefix_of` vs /\ visits (s_base s) suf vs /\ reads_of cs = read_expected (cb_read (cbs (s_base s))) rset vs.
Proof.
  revert s pre suf; induction fuel as [|fuel IH]; intros s pre [|node suf] Hs Hsc El Hf Hw He; simpl in Hf; try lia.
  1,2: exists s, [], []; split; [done|]; split; [by apply called_scanned; [apply (called_refl (L := select_laws))|..]|].
  1,2: rewrite app_nil_r in El; split; [by destruct He; split; [|split; [|rewrite El]]|]; split; [done|]; split; [split; [apply NoDup_nil_2|by intros ? ?%not_elem_of_nil]|by destruct (cb_read _)].
  pose proof (so_base _ Hs) as Hb; destruct (proj1 (bo_nodes _ Hb node)) as [c Hc]; [rewrite El; set_solver|].
  destruct (bo_ctxs _ Hb _ _ Hc) as [x Hx]; cbn [select_walk head]; rewrite Hc; cbn [mbind option_bind]; rewrite Hx; cbn [mbind option_bind].
  set (rd := bool_decide (fd x ∈ rset) && cb_read (cbs (s_base s))).
  destruct (invoke_if_ok (L := select_laws) rd s (CRead c) Hs Hsc eq_refl) as (s1 & -> & A1); cbn [mbind option_bind].
  pose proof A1 as [B1 B2 [[more Em] Gn Gc [Gcb _] Gk] Bo Be B4 B5 B6]; simpl in B1, B2, Em, Gn, Gc, Gcb, B4, B6.
  assert (filter closes (calls rd (CRead c)) = [] /\ reads_of (calls rd (CRead c)) = if rd then [c] else []) as [Hnc Hrd] by by destruct rd.
  pose proof (called_scanned (L := select_laws) _ _ _ A1 Hs Hnc) as S1.
  destruct (Gc _ _ Hx) as (x1 & Hx1 & Ef); rewrite Hx1; cbn [mbind option_bind].
  assert (forall n, n ∈ ctx_list (s_base s) -> pair_of (s_base s1) n = pair_of (s_base s) n) as Hpg by (intros n Hn; apply pair_grows; [done|apply A1|done]).
  assert (ctx_list (s_base s1) = pre ++ node :: suf ++ more) as El1 by (by rewrite Em, El, <- app_assoc).
  assert (node_data (s_base s1) !! node = Some c) as Hc1 by by eapply lookup_weaken.
  assert (watched s1 pre) as Hw1 by (eapply watched_mono; [done|done|]; intros n Hn; apply Hpg; rewrite El; set_solver).
  assert (evfd s1 ∈ allset s1 /\ evfd s1 <= nfds s1) as He1 by (destruct B2 as (-> & Ha & Hn); destruct He; split; [set_solver|lia]).
  assert (length (suf ++ more) + adds (script (s_base s1)) <= fuel)%nat as Hf1
    by (unfold walk_fuel in B6; rewrite El1, El in B6; rewrite !length_app in *; simpl in *; rewrite length_app in B6; lia).
  assert (pair_of (s_base s) node = Some (c, fd x)) as Hpn by (unfold pair_of; rewrite Hc; simpl; by rewrite Hx).
  assert (pairs (s_base s) (node :: suf) = (c, fd x) :: pairs (s_base s) suf) as -> by (unfold pairs; simpl; by rewrite Hpn).
  destruct (closed x1) eqn:Ecl.
  - destruct (select_close s1 pre node (suf ++ more) c B1 B4 El1 Hc1) as (s2 & more2 & -> & Hnext & S2 & El2 & Hf2 & Had & Hpp & Hgone & Hnn); cbn [mbind option_bind].
    set (s3 := upd_base s2 _) in *; rewrite Hnext.
    pose proof (sc_config _ _ _ S2) as [Ec2 _]; pose proof Hf2 as (Hv & Ha & Hn); change (cbs (s_base s3) = cbs (s_base s1)) in Ec2.
    destruct (IH s3 pre ((suf ++ more) ++ more2)) as (s' & cs & vs & E & S3 & W & Hpre & Hvis & Hr); [apply S2|apply S2|done| | | |].
    { rewrite length_app; lia. }
    { eapply watched_mono; [exact Hw1|done|]; intros n Hin; apply Hpp; set_solver. }
    { rewrite Hv; destruct He1; split; [set_solver|lia]. }
    exists s', (calls rd (CRead c) ++ calls (cb_close (cbs (s_base s1))) (CClose c) ++ cs), ((c, fd x) :: vs); split; [exact E|]; split.
    { eapply scanned_trans; [done|exact S1|]; eapply scanned_trans; [done|exact S2|exact S3]. }
    split; [exact W|]; split; [|split].
    + apply prefix_cons; etrans; [|exact Hpre]; rewrite <- app_assoc, pairs_app.
      rewrite (pairs_eq (s_base s) (s_base s3) suf); [by eexists|].
      intros n Hin; rewrite Hpp by set_solver; apply Hpg; rewrite El; set_solver.
    + apply (visits_cons (s_base s) (s_base s3) pre node suf ((suf ++ more) ++ more2) c (fd x) vs); try done.
      * apply (so_base s3), S2.
      * intros m Hm; rewrite El2; pose proof (bo_nodup _ (so_base s3 (sc_ok _ _ _ S2))) as Hnd; rewrite El2 in Hnd.
        apply NoDup_app in Hnd as (_ & Hd & _); split; [set_solver|]; split; [intros Hp; by apply (Hd m)|].
        intros ->; apply Hnn; rewrite El2; set_solver.
      * exact (sc_known _ _ _ (scanned_trans (L := select_laws) s s1 s3 _ _ Hs S1 S2)).
      * exact (sc_old _ _ _ (scanned_trans (L := select_laws) s s1 s3 _ _ Hs S1 S2)).
      * intros m Hm; by destruct (Hgone m).
    + rewrite !reads_of_app, Hr, Hrd, read_expected_cons, Ec2, Gcb, reads_close; done.
  - destruct (select_stay s1 pre node (suf ++ more) (c, fd x) B1 B4 El1) as (s2 & E2 & A2 & Eb & Hw2 & He2); [|done|done|].
    { rewrite Hpg; [done|rewrite El; set_solver]. }
    rewrite Ef; simpl in E2; rewrite E2; cbn [mbind option_bind]; rewrite Eb, El1, next_in_app.
    2: { pose proof (bo_nodup _ (so_base _ B1)) as Hnd; rewrite El1 in Hnd; by destruct (filter_ne_mid _ _ _ Hnd) as (_ & ? & _). }
    destruct (IH s2 (pre ++ [node]) (suf ++ more)) as (s' & cs & vs & E & S3 & W & Hpre & Hvis & Hr); rewrite ?Eb; try done.
    { apply A2. } { by rewrite El1, <- app_assoc. }
    exists s', (calls rd (CRead c) ++ cs), ((c, fd x) :: vs); split; [exact E|]; split.
    { eapply scanned_trans; [done|exact S1|]; eapply (scanned_trans s1 s2 s' []); [done| |exact S3]; by apply called_scanned. }
    split; [exact W|]; split; [|split].
    + apply prefix_cons; etrans; [|exact Hpre]; rewrite Eb, pairs_app.
      rewrite (pairs_eq (s_base s) (s_base s1) suf); [by eexists|]; intros n Hin; apply Hpg; rewrite El; set_solver.
    + apply (visits_cons (s_base s) (s_base s2) pre node suf (suf ++ more) c (fd x) vs); rewrite ?Eb; try done.
      * apply B1.
      * intros m Hm; rewrite El1; pose proof (bo_nodup _ (so_base _ B1)) as Hnd; rewrite El1 in Hnd.
        destruct (filter_ne_mid _ _ _ Hnd) as (_ & Hp & Hns); apply NoDup_app in Hnd as (_ & Hd & _).
        split; [set_solver|]; split; [intros Hp'; apply (Hd m Hp'); set_solver|intros ->; done].
      * intros m Hm; by apply (bo_inj _ (so_base _ B1) _ _ c).
      * by rewrite <- Eb.
    + rewrite reads_of_app, Hr, Hrd, read_expected_cons, Eb, Gcb; done.
Qed.

(** ** What the callbacks add is watched *)

Lemma watch_keeps s b : watches_all s -> base_ok (s_base s) -> keeps (s_base s) b -> watches_all (set_s_base s b).
Proof.
  intros (H1 & H2 & H3) Hb [E1 E2 E3 _]; split; [done|]; split; [done|]; intros node c x; simpl; rewrite E1, E2; intros Hin Hc Hx.
  destruct (bo_ctxs _ Hb _ _ Hc) as [y Hy]; destruct (E3 _ _ Hy) as (y' & Hy' & Ef); simplify_eq; rewrite Ef; by eapply H3.
Qed.

Lemma watch_action s a s' : watches_all s -> select_ok s -> do_action s a = Some s' -> watches_all s'.
Proof.
  intros Hw Hs; pose proof (so_base _ Hs) as Hb; destruct a as [c flag|c f nonblock mem_node kernel|]; simpl.
  - case_decide; intros Ea; [|by simplify_eq]; apply bind_Some in Ea as (b & E & [= <-]).
    destruct (set_flag_keeps _ _ _ _ E) as (Hk & _); by apply watch_keeps.
  - destruct (bool_decide (c ∈ known (s_base s))) eqn:Ek; simpl; [by intros [= <-]|]; apply bool_decide_eq_false in Ek.
    destruct (in_use (s_base s) mem_node) eqn:Eu; [by intros [= <-]|].
    set (s0 := upd_base s (fun b => new_ctx b c (muggle_ev_ctx_init f))); assert (watches_all s0) as Hw0 by (apply watch_keeps; [done|done|by apply new_ctx_keeps]).
    unfold muggle_evloop_add_ctx; simpl; destruct nonblock; simpl; [|by intros [= <-]]; destruct mem_node as [node|]; simpl; [|by intros [= <-]].
    unfold muggle_evloop_add_ctx_select; simpl; rewrite lookup_insert_eq; simpl; unfold muggle_evloop_select_set_fd; simpl.
    destruct ((0 <=? f) && (f <? FD_SETSIZE)); simpl; [|done]; intros [= <-]; destruct Hw0 as (H1 & H2 & H3).
    assert (nfds s <= (if f >? nfds s then f else nfds s) /\ f <= (if f >? nfds s then f else nfds s)) as [Hn1 Hn2]
      by (destruct (f >? nfds s) eqn:E; [apply Z.gtb_lt in E|rewrite Z.gtb_ltb in E; apply Z.ltb_ge in E]; lia).
    split; [simpl in *; set_solver|]; split; [simpl in *; lia|]; intros n y x; simpl; intros Hin [[<- <-]|[Hne Hd]]%lookup_insert_Some Hx.
    + rewrite lookup_insert_eq in Hx; simplify_eq; simpl; split; [set_solver|lia].
    + apply elem_of_app in Hin as [Hin| ->%list_elem_of_singleton]; [|done].
      destruct (H3 n y x Hin Hd Hx); simpl in *; split; [set_solver|lia].
  - intros [= <-]; apply watch_keeps; [done|done|by apply same_keeps].
Qed.

Lemma watch_invoke s c s' : watches_all s -> select_ok s -> script_ok (script (s_base s)) -> closes c = false ->
  invoke s c = Some s' -> watches_all s'.
Proof.
  intros Hw Hs Hsc Hc; unfold invoke, callback_run; simpl; set (b := set_io _ _ _); intros (s1 & E & [= <-])%bind_Some.
  assert (watches_all s1) as H; [|by destruct c].
  assert (keeps (s_base s) b) as Hk by by apply same_keeps.
  assert (select_ok (set_s_base s b)) as Hs' by by apply (impl_keeps (EvLaws := select_laws) s b).
  assert (watches_all (set_s_base s b)) as Hw' by (apply watch_keeps; [done|apply Hs|done]).
  assert (Forall action_ok (default [] (head (script (s_base s))))) as Hl by (destruct Hsc; simpl; [done|done]).
  revert E Hs' Hw' Hl; generalize (default [] (head (script (s_base s)))) (set_s_base s b); clear; intros l.
  induction l as [|a l IH]; intros s E Hs Hw Hl; simpl in E; [by simplify_eq|]; apply Forall_cons in Hl as [Ha Hl].
  destruct (do_action s a) as [s2|] eqn:E2; simpl in E; [|done]; destruct (do_action_ok (L := select_laws) s a Hs Ha) as (s3 & E3 & A); simplify_eq.
  eapply IH; [done|apply A|by eapply watch_action|done].
Qed.

(** ** A round *)

Lemma select_handle_ok s a : select_ok s -> script_ok (script (s_base s)) ->
  exists s' cs, select_handle s a = Some s' /\ scanned s s' cs /\ (watches_all s -> watches_all s') /\
    match a with
    | SNone => cs = []
    | SError intr => cs = [] /\ (intr = false -> to_exit (s_base s') = MUGGLE_EV_LOOP_EXIT_STATUS_EXIT)
    | SReady rset => watches_all s' /\
        (exists vs, pairs (s_base s) (ctx_list (s_base s)) `prefix_of` vs /\ NoDup (vs.*1) /\
           reads_of cs = read_expected (cb_read (cbs (s_base s))) rset vs) /\
        (evfd s ∈ rset -> to_exit (s_base s') <> MUGGLE_EV_LOOP_EXIT_STATUS_WAKE /\ (cb_wake (cbs (s_base s)) = true -> CWake ∈ cs))
    end.
Proof.
  intros Hs Hsc; destruct a as [rset| |intr]; cbn [select_handle].
  2: { exists s, []; split; [done|]; split; [apply called_scanned; try done; by apply (called_refl (L := select_laws))|done]. }
  2: { assert (keeps (s_base s) (muggle_evloop_exit (s_base s) true)) as Hk by by apply same_keeps.
       destruct intr; eexists _, []; (split; [done|]); split.
       - apply called_scanned; try done; by apply (called_refl (L := select_laws)).
       - done.
       - apply called_scanned; try done; apply (called_keeps (L := select_laws)); try done; by right.
       - split; [|done]; intros Hw; apply watch_keeps; [done|apply Hs|done]. }
  set (s0 := SL (s_base s) ∅ 0 (evfd s)); assert (select_ok s0) as Hs0 by by destruct Hs.
  unfold muggle_evloop_select_handle_wakeup.
  assert (exists s1 cs, (if bool_decide (evfd s0 ∈ rset) then handle_wakeup s0 else Some s0) = Some s1 /\ called s0 s1 cs /\ filter closes cs = [] /\ reads_of cs = [] /\
    (evfd s ∈ rset -> to_exit (s_base s1) <> MUGGLE_EV_LOOP_EXIT_STATUS_WAKE /\ (cb_wake (cbs (s_base s)) = true -> CWake ∈ cs))) as (s1 & cw & -> & A & Hnc & Hrd & Hw).
  { destruct (bool_decide (evfd s0 ∈ rset)) eqn:Eb.
    - destruct (handle_wakeup_ok (L := select_laws) s0 Hs0 Hsc) as (s1 & E & A & Hx); simpl in *.
      exists s1, (calls (cb_wake (cbs (s_base s))) CWake); split; [done|]; split; [done|].
      destruct (cb_wake (cbs (s_base s))); split_and!; try done; intros _; split; try done; intros _; left.
    - apply bool_decide_eq_false in Eb; exists s0, []; split; [done|]; split; [by apply (called_refl (L := select_laws))|]; split_and!; done. }
  cbn [mbind option_bind]; pose proof (ca_ok _ _ _ A) as Hs1; pose proof (ca_frame _ _ _ A) as (He & _ & _); simpl in Hs1, He.
  set (s2 := SL (s_base s1) ({[evfd s1]} ∪ allset s1) (evfd s1) (evfd s1)).
  assert (select_ok s2) as Hs2 by by destruct Hs1.
  destruct (select_walk_ok (walk_fuel (s_base s2)) s2 rset [] (ctx_list (s_base s2)) Hs2) as (s' & cs & vs & -> & Sc & W & Hpre & [Hnd _] & Hr);
    [apply A|done|unfold walk_fuel; lia|by intros ? ? ? ?%not_elem_of_nil|simpl; split; [set_solver|lia]|].
  pose proof (gr_config _ _ (ca_grows _ _ _ A)) as [Ec _]; simpl in Ec.
  assert (scanned s s1 cw) as S1.
  { pose proof (called_scanned (L := select_laws) _ _ _ A Hs0 Hnc) as S0; by destruct S0; split. }
  assert (scanned s1 s' cs) as S2 by by destruct Sc; split.
  exists s', (cw ++ cs); split; [done|]; split; [eapply scanned_trans; [done|exact S1|exact S2]|]; split; [done|]; split; [done|]; split.
  - exists vs; split; [|split; [done|by rewrite reads_of_app, Hrd, Hr; simpl; rewrite Ec]].
    etrans; [|exact Hpre]; simpl; destruct (gr_list _ _ (ca_grows _ _ _ A)) as [more Em]; simpl in Em; rewrite Em, pairs_app.
    rewrite (pairs_eq (s_base s) (s_base s1)); [by eexists|]; intros n Hn; apply pair_grows; [apply Hs|apply A|done].
  - intros Hin; destruct (Hw Hin) as [H1 H2]; split; [|intros Hcw; apply elem_of_app; left; auto].
    destruct (sc_exit _ _ _ S2) as [E|E]; simpl in E; rewrite E; done.
Qed.

Definition select_timer_fires (b : muggle_event_loop) (timed : bool) (elapsed : Z) : bool :=
  timed && cb_timer (cbs b) && (elapsed >=? timeout b).

(** C21: A round of the loop, for every state that the invariant allows, every
    answer of [select], times since the start of the timer below [2^31] ms, and all
    callbacks that add descriptors below [FD_SETSIZE]:
    the walk ends, accesses no freed context and stays in the [fd_set]; it reads
    the contexts that are in the answer, once each - those that were registered,
    in their order, then new ones; a context is closed once and exactly when it
    leaves the list; and all that are registered afterwards are watched. *)
Theorem select_round_correct (s : muggle_event_loop_select) (timed : bool) (a : select_answer) (elapsed : Z)
    (Hs : select_ok s) (Hsc : script_ok (script (s_base s))) (He : 0 <= elapsed < 2 ^ 31) :
  exists s' ended cs, select_round s timed a elapsed = Some (s', ended) /\
    scanned s s' (cs ++ calls (select_timer_fires (s_base s) timed elapsed) CTimer) /\ (watches_all s -> watches_all s') /\
    ended = (to_exit (s_base s') =? MUGGLE_EV_LOOP_EXIT_STATUS_EXIT) /\
    match a with
    | SNone => cs = []
    | SError intr => cs = [] /\ (intr = false -> ended = true)
    | SReady rset => watches_all s' /\
        (exists vs, pairs (s_base s) (ctx_list (s_base s)) `prefix_of` vs /\ NoDup (vs.*1) /\
           reads_of cs = read_expected (cb_read (cbs (s_base s))) rset vs) /\
        (evfd s ∈ rset -> to_exit (s_base s') <> MUGGLE_EV_LOOP_EXIT_STATUS_WAKE /\ (cb_wake (cbs (s_base s)) = true -> CWake ∈ cs))
    end.
Proof.
  destruct (select_handle_ok s a Hs Hsc) as (s1 & cs & E1 & S1 & W1 & H1); unfold select_round; rewrite E1; cbn [mbind option_bind].
  rewrite swrap_small by lia; pose proof (sc_config _ _ _ S1) as [C1 C2]; simpl in C1, C2; rewrite C1, C2.
  fold (select_timer_fires (s_base s) timed elapsed); set (t := select_timer_fires (s_base s) timed elapsed).
  destruct (invoke_if_ok (L := select_laws) t s1 CTimer (sc_ok _ _ _ S1) (sc_script _ _ _ S1) eq_refl) as (s' & E & A).
  rewrite E; cbn [mbind option_bind]; pose proof (ca_exit _ _ _ A) as Hex; simpl in Hex.
  assert (watches_all s1 -> watches_all s') as W2.
  { intros Hw; destruct t; simpl in E; [|by simplify_eq]; eapply watch_invoke; [exact Hw|apply S1|apply S1| |exact E]; done. }
  exists s', (to_exit (s_base s') =? MUGGLE_EV_LOOP_EXIT_STATUS_EXIT), cs; split; [done|]; split; [|split; [auto|split; [done|]]].
  - eapply scanned_trans; [done|exact S1|]; apply called_scanned; [done|apply S1|by destruct t].
  - destruct a as [rset| |intr]; [|done|].
    + destruct H1 as (W & Hv & Hw); split; [auto|]; split; [done|]; intros Hin; destruct (Hw Hin); split; [|done].
      by destruct Hex as [-> | ->].
    + destruct H1 as [-> H1]; split; [done|]; intros Hi; destruct Hex as [-> | ->]; [by rewrite H1|done].
Qed.

(** ** A loop with two contexts *)

Definition sample_script : list (list action) := [[]; [AAdd 12 7 true (Some 102%nat) true; ASetFlag 12 1]].

Definition sample_select : muggle_event_loop_select :=
  default (SL (muggle_evloop_init (CB true true true true true true) []) ∅ 0 0)
    (s ← muggle_evloop_init_select (muggle_evloop_init (CB true true true true true true) sample_script) 3;
     do_actions s [AAdd 10 5 true (Some 100%nat) true; AAdd 11 6 true (Some 101%nat) true]).

Lemma sample_select_ok : select_ok sample_select /\ script_ok (script (s_base sample_select)).
Proof.
  unfold sample_select; destruct (muggle_evloop_init_select (muggle_evloop_init (CB true true true true true true) sample_script) 3) as [s|] eqn:E;
    [|discriminate E]; cbn [mbind option_bind].
  assert (select_ok s /\ script (s_base s) = sample_script) as [Hs Esc].
  { injection E as <-; split; [|reflexivity]; split; simpl; [split; simpl| |]; try done; [apply NoDup_nil_2| |by intros c [x ?]].
    intros node; rewrite lookup_empty; split; [by intros ?%not_elem_of_nil|by intros [x ?]]. }
  destruct (do_actions_ok (L := select_laws) s [AAdd 10 5 true (Some 100%nat) true; AAdd 11 6 true (Some 101%nat) true]) as (s1 & E1 & A);
    [exact Hs|repeat constructor; done|].
  rewrite E1; cbn [default]; split; [apply A|]; destruct (ac_io _ _ _ A) as [Es _]; simpl in Es; change (script_ok (script (s_base s1))); rewrite Es, Esc; repeat constructor; done.
Qed.

(** The signal and the two contexts are readable. *)
Lemma select_round_correct_witness : exists s' ended cs,
  select_round sample_select false (SReady {[3; 5; 6]}) 0 = Some (s', ended) /\ scanned sample_select s' cs /\ watches_all s' /\ CWake ∈ cs.
Proof.
  destruct sample_select_ok as [Hs Hsc].
  destruct (select_round_correct sample_select false (SReady {[3; 5; 6]}) 0 Hs Hsc ltac:(lia)) as (s' & ended & cs & E & Sc & _ & _ & W & _ & Hw).
  destruct Hw as [_ Hw]; [vm_compute; set_solver|].
  exists s', ended, cs; split; [exact E|]; simpl in Sc; rewrite app_nil_r in Sc; split; [exact Sc|]; split; [exact W|apply Hw; reflexivity].
Defined.

(** ** What modelling showed *)

(** There is no test of the size of the descriptor: [FD_SET] writes behind the
    [fd_set]. *)
Theorem select_fd_setsize_defect s c node x : ctxs (s_base s) !! c = Some x -> fd x >= FD_SETSIZE -> forall kernel,
  muggle_evloop_add_ctx_select s c node kernel = None.
Proof.
  intros Hx Hf kernel; unfold muggle_evloop_add_ctx_select, muggle_evloop_select_set_fd; rewrite Hx; simpl.
  by rewrite (proj2 (Z.ltb_ge _ _)), andb_false_r by lia.
Qed.

(** A context that is added and closed in the same round leaves its descriptor
    in the set, which [select] then refuses: here the callback of context 10 adds
    context 12 on descriptor 7 and closes it. *)
Theorem select_stale_descriptor_defect :
  (fun p => (trace (s_base (fst p)), registered (s_base (fst p)), bool_decide (7 ∈ allset (fst p)))) <$>
    select_round sample_select false (SReady {[3; 5; 6]}) 0 =
    Some ([CWake; CRead 10; CRead 11; CClose 12], [10%nat; 11%nat], true).
Proof. vm_compute; reflexivity. Qed.
