(* ===== verification/EventEpoll.v ===== *)
(** * The event loop on [epoll]: [event/internal/event_loop_epoll.c]

    The kernel keeps the descriptors with the address of the list node of each:
    [interest], without an address for the signal.  The events of [epoll_wait] are
    an input of a round: addresses that were registered, each once.  The address
    of a node that is not in the list any more is a fault. *)
From S2P Require Import Prelude Utils EventLoop.

Definition EPOLLIN : Z := 1.
Definition EPOLLERR : Z := 8.
Definition EPOLLHUP : Z := 16.

Record muggle_event_loop_epoll := EP { e_base : muggle_event_loop; interest : gmap Z (option nat) }.

Definition set_e_base (s : muggle_event_loop_epoll) b := EP b (interest s).

(** [epoll_ctl] refuses a descriptor that it has, and fails for other reasons
    ([kernel]). *)
Definition epoll_ctl_add (s : muggle_event_loop_epoll) (f : Z) (node : option nat) (kernel : bool) : Z * muggle_event_loop_epoll :=
  if kernel && negb (bool_decide (is_Some (interest s !! f))) then (0, EP (e_base s) (<[f := node]> (interest s))) else (-1, s).

Definition muggle_evloop_add_ctx_epoll (s : muggle_event_loop_epoll) (c node : nat) (kernel : bool) : option (Z * muggle_event_loop_epoll) :=
  x ← ctxs (e_base s) !! c;
  let '(r, s) := epoll_ctl_add s (fd x) (Some node) kernel in
  Some (if negb (r =? 0) then -1 else 0, s).

#[export] Instance epoll_impl : EvImpl muggle_event_loop_epoll :=
  {| base := e_base; set_base := set_e_base; fn_add_ctx := muggle_evloop_add_ctx_epoll |}.

Section Epoll.
Implicit Types s : muggle_event_loop_epoll.

(** [epoll_create] and the memory of the events. *)
Definition muggle_evloop_init_epoll (b : muggle_event_loop) (created mem_events : bool) : option muggle_event_loop_epoll :=
  if negb created then None else if negb mem_events then None else Some (EP b ∅).

Definition muggle_evloop_epoll_handle_wakeup s (events : Z) : option muggle_event_loop_epoll :=
  if negb (Z.land events EPOLLIN =? 0) then handle_wakeup s else Some s.

(** One event of a node. *)
Definition epoll_entry s (node : nat) (events : Z) : option muggle_event_loop_epoll :=
  c ← node_data (e_base s) !! node;
  s ← (if negb (Z.land events EPOLLIN =? 0) then invoke_if (cb_read (cbs (e_base s))) s (CRead c)
       else if negb (Z.land events (Z.lor EPOLLERR EPOLLHUP) =? 0)
       then b ← muggle_ev_ctx_set_flag (e_base s) c MUGGLE_EV_CTX_FLAG_CLOSED; Some (set_e_base s b) else Some s);
  x ← ctxs (e_base s) !! c;
  if closed x then
    s ← invoke_if (cb_close (cbs (e_base s))) (EP (e_base s) (delete (fd x) (interest s))) (CClose c);
    Some (upd_base s (fun b => list_remove b node))
  else Some s.

Fixpoint epoll_scan (l : list (option nat * Z)) s : option muggle_event_loop_epoll :=
  match l with
  | [] => Some s
  | (p, events) :: l =>
      s ← (match p with None => muggle_evloop_epoll_handle_wakeup s events | Some node => epoll_entry s node events end);
      epoll_scan l s
  end.

Inductive epoll_answer := EReady (l : list (option nat * Z)) | EError (intr : bool).

(** A round: the events, the timer, and then the test of an error. *)
Definition epoll_round s (remain_ms : Z) (a : epoll_answer) (elapsed : Z) : option (muggle_event_loop_epoll * Z * bool) :=
  s ← match a with EReady l => epoll_scan l s | EError _ => Some s end;
  '(s, remain_ms) ← loop_timer s remain_ms elapsed;
  let s := match a with EError false => upd_base s (fun b => muggle_evloop_exit b true) | _ => s end in
  Some (s, remain_ms, to_exit (e_base s) =? MUGGLE_EV_LOOP_EXIT_STATUS_EXIT).

Fixpoint epoll_loop s (remain_ms : Z) (l : list (epoll_answer * Z)) : option (muggle_event_loop_epoll * bool) :=
  match l with
  | [] => Some (s, false)
  | (a, elapsed) :: l =>
      '(s, remain_ms, ended) ← epoll_round s remain_ms a elapsed;
      if (ended : bool) then Some (s, true) else epoll_loop s remain_ms l
  end.

(** The signal, on descriptor [evfd], is registered first. *)
Definition muggle_evloop_run_epoll s (evfd : Z) (kernel : bool) (l : list (epoll_answer * Z)) : option (muggle_event_loop_epoll * bool) :=
  epoll_loop (snd (epoll_ctl_add s evfd None kernel)) (timeout (e_base s)) l.

(** ** The invariant *)

(** The addresses that the kernel has are those of nodes of the list. *)
Record epoll_ok s : Prop := {
  eo_base : base_ok (e_base s);
  eo_interest : forall f node, interest s !! f = Some (Some node) -> exists c x, node_data (e_base s) !! node = Some c /\
    ctxs (e_base s) !! c = Some x /\ fd x = f
}.

(** The kernel has the registered contexts, but for those of [ex]. *)
Definition watches_but (ex : nat -> Prop) s : Prop :=
  forall node c x, ~ ex node -> node_data (e_base s) !! node = Some c -> ctxs (e_base s) !! c = Some x -> interest s !! fd x = Some (Some node).

Definition watches_all s : Prop := watches_but (fun _ => False) s.

Definition epoll_frame s s' : Prop := interest s ⊆ interest s'.

#[export] Instance epoll_frame_preorder : PreOrder epoll_frame.
Proof. split; unfold epoll_frame; [by intros s|]; intros a b c; by etrans. Qed.

Lemma epoll_keeps s b : epoll_ok s -> keeps (e_base s) b -> epoll_ok (set_e_base s b).
Proof.
  intros [H1 H3] Hk; pose proof Hk as [E1 E2 E3 _]; split; simpl; [by eapply keeps_ok|].
  - intros f node Hf; destruct (H3 _ _ Hf) as (c & x & Hc & Hx & <-); destruct (E3 _ _ Hx) as (x' & Hx' & Ef).
    exists c, x'; by rewrite E2.
Qed.

Lemma watches_keeps ex s b : watches_but ex s -> base_ok (e_base s) -> keeps (e_base s) b -> watches_but ex (set_e_base s b).
Proof.
  intros H Hb [E1 E2 E3 _] node c x Hex; simpl; rewrite E2; intros Hn Hx.
  destruct (bo_ctxs _ Hb _ _ Hn) as [y Hy]; destruct (E3 _ _ Hy) as (y' & Hy' & Ef); simplify_eq; rewrite Ef; by eapply H.
Qed.

Lemma epoll_add_ok s node c x : epoll_ok s -> node ∉ ctx_list (e_base s) -> ctxs (e_base s) !! c = Some x ->
  (forall n, node_data (e_base s) !! n <> Some c) -> interest s !! fd x = None ->
  epoll_ok (EP (list_append (e_base s) node c) (<[fd x := Some node]> (interest s))).
Proof.
  intros [H1 H3] Hn Hx Hf Hi; split; simpl; [apply append_ok; try done; by eexists|].
  - intros f n [[<- [= <-]]|[Hne Hd]]%lookup_insert_Some.
    + exists c, x; by rewrite lookup_insert_eq.
    + destruct (H3 _ _ Hd) as (y & z & Hy & Hz & Ez); exists y, z; rewrite lookup_insert_ne; [done|].
      intros <-; apply Hn, (bo_nodes _ H1); by eexists.
Qed.
End Epoll.

#[export] Program Instance epoll_laws : EvLaws muggle_event_loop_epoll :=
  {| fd_ok _ := True; impl_ok := epoll_ok; frame := epoll_frame |}.
Solve Obligations with (intros; unfold epoll_frame; done).
Next Obligation. by intros []. Qed.
Next Obligation. intros s H; apply H. Qed.
Next Obligation. apply epoll_keeps. Qed.
Next Obligation.
  intros s node c x kernel Hs Hn Hx _ Hf; simpl in *; unfold muggle_evloop_add_ctx_epoll, epoll_ctl_add; simpl; rewrite Hx; simpl.
  assert (node_data (e_base s) !! node = None) as Hnd by (apply eq_None_not_Some; rewrite <- (bo_nodes _ (eo_base _ Hs)); done).
  destruct (kernel && negb (bool_decide (is_Some (interest s !! fd x)))) eqn:E.
  - apply andb_true_iff in E as [_ E]; apply negb_true_iff, bool_decide_eq_false, eq_None_not_Some in E.
    eexists _, _; split; [done|]; split; [by apply insert_subseteq|]; split; [done|]; by apply epoll_add_ok.
  - eexists _, _; split; [done|]; split; [by unfold epoll_frame|]; split; [done|]; simpl; unfold upd_base; simpl.
    rewrite list_remove_append by done; by destruct s.
Qed.

(** ** What the callbacks add is watched *)

(** Also while the node [node] is leaving. *)
Definition leaving (ex : nat -> Prop) (f : Z) s : Prop :=
  watches_but ex s /\ forall node, ex node -> node ∈ ctx_list (e_base s) /\ interest s !! f <> Some (Some node).

Lemma leaving_keeps ex f s b : leaving ex f s -> base_ok (e_base s) -> keeps (e_base s) b -> leaving ex f (set_e_base s b).
Proof. intros [H1 H2] Hb Hk; split; [by apply watches_keeps|]; intros n Hn; simpl; rewrite (kp_list _ _ Hk); by apply H2. Qed.

Lemma leaving_action ex f0 s a s' : leaving ex f0 s -> epoll_ok s -> do_action s a = Some s' -> leaving ex f0 s'.
Proof.
  intros Hw Hs; pose proof (eo_base _ Hs) as Hb; destruct a as [c flag|c f nonblock mem_node kernel|]; simpl.
  - case_decide; intros Ea; [|by simplify_eq]; apply bind_Some in Ea as (b & E & [= <-]).
    destruct (set_flag_keeps _ _ _ _ E) as (Hk & _); by apply leaving_keeps.
  - destruct (bool_decide (c ∈ known (e_base s))) eqn:Ek; simpl; [by intros [= <-]|]; apply bool_decide_eq_false in Ek.
    destruct (in_use (e_base s) mem_node) eqn:Eu; [by intros [= <-]|].
    set (s0 := upd_base s (fun b => new_ctx b c (muggle_ev_ctx_init f))).
    assert (leaving ex f0 s0) as Hw0 by (apply leaving_keeps; [done|done|by apply new_ctx_keeps]).
    unfold muggle_evloop_add_ctx; simpl; destruct nonblock; simpl; [|by intros [= <-]]; destruct mem_node as [node|]; simpl; [|by intros [= <-]].
    simpl in Eu; apply bool_decide_eq_false in Eu.
    unfold muggle_evloop_add_ctx_epoll, epoll_ctl_add; simpl; rewrite lookup_insert_eq; simpl.
    destruct (kernel && negb (bool_decide (is_Some (interest s !! f)))) eqn:E; simpl; intros [= <-].
    + apply andb_true_iff in E as [_ E]; apply negb_true_iff, bool_decide_eq_false, eq_None_not_Some in E; destruct Hw0 as [H1 H2]; split.
      * intros n y x Hex; simpl; intros [[<- <-]|[Hne Hd]]%lookup_insert_Some Hx.
        { rewrite lookup_insert_eq in Hx; simplify_eq; simpl; by rewrite lookup_insert_eq. }
        pose proof (H1 n y x Hex Hd Hx) as Hi; simpl in Hi; rewrite lookup_insert_ne; [done|]; intros E0; rewrite <- E0 in Hi; congruence.
      * intros n Hn; destruct (H2 n Hn) as [H3 H4]; simpl in *; split; [apply elem_of_app; by left|].
        intros [[_ [= ->]]|[_ ?]]%lookup_insert_Some; done.
    + unfold upd_base; simpl; rewrite list_remove_append; [by destruct Hw0|done|].
      simpl; apply eq_None_not_Some; rewrite <- (bo_nodes _ Hb); done.
  - intros [= <-]; apply leaving_keeps; [done|done|by apply same_keeps].
Qed.

Lemma leaving_invoke ex f s c s1 : leaving ex f s -> epoll_ok s -> script_ok (script (e_base s)) ->
  callback_run s c = Some s1 ->
  leaving ex f s1.
Proof.
  intros Hw Hs Hsc; unfold callback_run; simpl; set (b := set_io _ _ _); intros E.
  assert (keeps (e_base s) b) as Hk by by apply same_keeps.
  assert (epoll_ok (set_e_base s b)) as Hs' by by apply epoll_keeps.
  assert (leaving ex f (set_e_base s b)) as Hw' by (apply leaving_keeps; [done|apply Hs|done]).
  assert (Forall action_ok (default [] (head (script (e_base s))))) as Hl by (destruct Hsc; simpl; [done|done]).
  revert E Hs' Hw' Hl; generalize (default [] (head (script (e_base s)))) (set_e_base s b); clear; intros l.
  induction l as [|a l IH]; intros s E Hs Hw Hl; simpl in E; [by simplify_eq|]; apply Forall_cons in Hl as [Ha Hl].
  destruct (do_action s a) as [s2|] eqn:E2; simpl in E; [|done]; destruct (do_action_ok (L := epoll_laws) s a Hs Ha) as (s3 & E3 & A); simplify_eq.
  eapply IH; [done|apply A|by eapply leaving_action|done].
Qed.

Lemma watches_leaving s f : watches_all s -> leaving (fun _ => False) f s.
Proof. intros H; split; [exact H|]; intros n []. Qed.

Lemma watches_invoke_if (set : bool) s c s' : watches_all s -> epoll_ok s -> script_ok (script (e_base s)) -> closes c = false ->
  invoke_if set s c = Some s' -> watches_all s'.
Proof.
  intros Hw Hs Hsc Hc; destruct set; [|by intros [= <-]]; cbn [invoke_if]; unfold invoke; intros (s1 & E & [= <-])%bind_Some.
  destruct (leaving_invoke _ 0 s c s1 (watches_leaving s 0 Hw) Hs Hsc E) as [H _]; by destruct c.
Qed.

(** The kernel forgets the descriptor, the close callback is called, and the node
    leaves the list. *)
Lemma epoll_close s node c x : epoll_ok s -> script_ok (script (e_base s)) -> watches_all s ->
  node_data (e_base s) !! node = Some c -> ctxs (e_base s) !! c = Some x ->
  exists s1, invoke_if (cb_close (cbs (e_base s))) (EP (e_base s) (delete (fd x) (interest s))) (CClose c) = Some s1 /\
    let s' := upd_base s1 (fun b => list_remove b node) in
    scanned s s' (calls (cb_close (cbs (e_base s))) (CClose c)) /\ watches_all s' /\
    (forall n, node_data (e_base s') !! n <> Some c) /\
    (forall n y, n <> node -> node_data (e_base s) !! n = Some y -> node_data (e_base s') !! n = Some y).
Proof.
  intros Hs Hsc Hw Hc Hx; set (set := cb_close (cbs (e_base s))); set (s0 := EP (e_base s) (delete (fd x) (interest s))); pose proof (eo_base _ Hs) as Hb.
  assert (interest s !! fd x = Some (Some node)) as Hix by (apply (Hw node c x); [by intros []|done..]).
  assert (epoll_ok s0) as Hs0.
  { split; [apply Hs|]; simpl; intros f n [_ H]%lookup_delete_Some; by apply (eo_interest _ Hs). }
  assert (leaving (fun n => n = node) (fd x) s0) as Hl0.
  { split.
    - intros n y z Hn; simpl; intros Hd Hz; assert (interest s !! fd z = Some (Some n)) as Hiz by (apply (Hw n y z); [by intros []|done..]).
      rewrite lookup_delete_ne; [done|]; intros E; rewrite E in Hix; congruence.
    - intros n ->; simpl; rewrite lookup_delete_eq; split; [apply (bo_nodes _ Hb); by eexists|done]. }
  assert (exists s1, invoke_if set s0 (CClose c) = Some (if set then after_call s1 (CClose c) else s1) /\ called s0 s1 (calls set (CClose c)) /\
    leaving (fun n => n = node) (fd x) s1) as (s1 & -> & A & Hl).
  { destruct set; [|exists s0; split; [done|split; [by apply (called_refl (L := epoll_laws))|done]]].
    destruct (callback_run_ok (L := epoll_laws) s0 (CClose c) Hs0 Hsc) as (s1 & E & A).
    exists s1; split; [unfold invoke_if, invoke; by rewrite E|]; split; [exact A|]; by eapply leaving_invoke. }
  exists (if set then after_call s1 (CClose c) else s1); split; [done|]; cbv zeta.
  assert (upd_base (if set then after_call s1 (CClose c) else s1) (fun b => list_remove b node) = set_e_base s1 (close_base set (e_base s1) node c)) as ->
    by by destruct set.
  pose proof (ca_ok _ _ _ A) as Hs1; pose proof (ca_grows _ _ _ A) as [_ Gn Gc _ _]; pose proof (eo_base s1 Hs1) as Hb1; simpl in Gn, Gc.
  assert (node_data (e_base s1) !! node = Some c) as Hc1 by by eapply lookup_weaken.
  destruct (close_base_spec set (e_base s1) node c Hb1 Hc1) as (HB & Bd & Bl & Bc); destruct Hl as [Hl1 Hl2].
  assert (epoll_ok (set_e_base s1 (close_base set (e_base s1) node c))) as Hok.
  { split; cbn [e_base set_e_base]; [done|]; cbn [interest set_e_base]; intros f n Hf; destruct (eo_interest _ Hs1 _ _ Hf) as (y & z & Hy & Hz & Ez).
    assert (n <> node) as Hne.
    { intros ->; simplify_eq; destruct (Gc _ _ Hx) as (x' & Hx' & Ef); simplify_eq; apply (Hl2 node eq_refl); by rewrite <- Ef. }
    exists y, z; rewrite Bd, lookup_delete_ne, Bc; [done| |done]; intros ->; by apply Hne, (bo_inj _ Hb1 _ _ c). }
  split; [|split; [|split]].
  - pose proof (close_scanned (L := epoll_laws) s0 s1 (set_e_base s1 (close_base set (e_base s1) node c)) node c Hs0 Hc A Hok eq_refl) as Sc.
    by destruct Sc; split.
  - intros n y z _; cbn [e_base set_e_base interest]; rewrite Bd; intros [Hne Hd]%lookup_delete_Some; rewrite Bc; [by apply Hl1|].
    intros ->; by apply Hne, (bo_inj _ Hb1 _ _ c).
  - intros n; cbn [e_base set_e_base]; rewrite Bd; intros [Hne Hd]%lookup_delete_Some; by apply Hne, (bo_inj _ Hb1 _ _ c).
  - intros n y Hne Hd; cbn [e_base set_e_base]; rewrite Bd, lookup_delete_ne by done; by eapply lookup_weaken.
Qed.

(** ** A round *)

Definition is_in (ev : Z) : bool := negb (Z.land ev EPOLLIN =? 0).
Definition is_hup (ev : Z) : bool := negb (Z.land ev (Z.lor EPOLLERR EPOLLHUP) =? 0).

(** The nodes of [s] but for [node] are those of [s']. *)
Definition others (node : option nat) (s s' : muggle_event_loop_epoll) : Prop :=
  forall n y, Some n <> node -> node_data (e_base s) !! n = Some y -> node_data (e_base s') !! n = Some y.

Lemma epoll_entry_ok s node ev c : epoll_ok s -> script_ok (script (e_base s)) -> watches_all s -> node_data (e_base s) !! node = Some c ->
  exists s' cs, epoll_entry s node ev = Some s' /\ scanned s s' cs /\ watches_all s' /\
    reads_of cs = (if is_in ev && cb_read (cbs (e_base s)) then [c] else []) /\
    (is_in ev = false -> is_hup ev = true -> forall n, node_data (e_base s') !! n <> Some c) /\ others (Some node) s s'.
Proof.
  intros Hs Hsc Hw Hc; unfold epoll_entry; rewrite Hc; cbn [mbind option_bind]; fold (is_in ev) (is_hup ev).
  destruct (bo_ctxs _ (eo_base _ Hs) _ _ Hc) as [x Hx]; set (rd := is_in ev && cb_read (cbs (e_base s))).
  assert (exists s1 x1, (if is_in ev then invoke_if (cb_read (cbs (e_base s))) s (CRead c)
      else if is_hup ev then b ← muggle_ev_ctx_set_flag (e_base s) c MUGGLE_EV_CTX_FLAG_CLOSED; Some (set_e_base s b) else Some s) = Some s1 /\
    called s s1 (calls rd (CRead c)) /\ watches_all s1 /\ ctxs (e_base s1) !! c = Some x1 /\ fd x1 = fd x /\
    (is_in ev = false -> is_hup ev = true -> closed x1 = true)) as (s1 & x1 & -> & A & Hw1 & Hx1 & Ef & Hcl).
  { unfold rd; destruct (is_in ev); simpl.
    - destruct (invoke_if_ok (L := epoll_laws) (cb_read (cbs (e_base s))) s (CRead c) Hs Hsc eq_refl) as (s1 & E & A).
      destruct (gr_ctxs _ _ (ca_grows _ _ _ A) _ _ Hx) as (x1 & Hx1 & Ef); exists s1, x1; split_and!; try done; exact (watches_invoke_if _ s (CRead c) s1 Hw Hs Hsc eq_refl E).
    - destruct (is_hup ev); [|exists s, x; split; [done|]; split; [by apply (called_refl (L := epoll_laws))|done]].
      destruct (muggle_ev_ctx_set_flag (e_base s) c MUGGLE_EV_CTX_FLAG_CLOSED) as [b|] eqn:E; [|unfold muggle_ev_ctx_set_flag in E; by rewrite Hx in E].
      destruct (set_flag_keeps _ _ _ _ E) as (Hk & ? & ? & ? & ? & ?); unfold muggle_ev_ctx_set_flag in E; rewrite Hx in E; simplify_eq/=.
      eexists _, _; split; [done|]; split; [apply (called_keeps (L := epoll_laws) s _ Hs Hsc Hk); try done; by left|].
      split; [by apply watches_keeps; [|apply Hs|]|]; split; [apply lookup_insert_eq|]; split; [done|]; intros _ _; apply closed_flag. }
  cbn [mbind option_bind]; rewrite Hx1; cbn [mbind option_bind]; pose proof (ca_ok _ _ _ A) as Hs1.
  assert (filter closes (calls rd (CRead c)) = [] /\ reads_of (calls rd (CRead c)) = if rd then [c] else []) as [Hnc Hrd] by by destruct rd.
  pose proof (called_scanned (L := epoll_laws) _ _ _ A Hs Hnc) as Sc; pose proof (gr_nodes _ _ (ca_grows _ _ _ A)) as Gn; simpl in Gn.
  destruct (closed x1) eqn:Ecl.
  - destruct (epoll_close s1 node c x1 Hs1 (ca_script _ _ _ A) Hw1) as (s2 & -> & S2 & Hw2 & Hg & Ho); [by eapply lookup_weaken|done|].
    cbn [mbind option_bind]; eexists _, _; split; [done|]; split; [eapply scanned_trans; [done|exact Sc|exact S2]|]; split; [done|].
    split; [rewrite reads_of_app, Hrd, reads_close; by rewrite app_nil_r|]; split; [done|].
    intros n y Hne Hd; apply Ho; [congruence|]; by eapply lookup_weaken.
  - eexists _, _; split; [done|]; split; [exact Sc|]; split; [done|]; split; [done|]; split; [intros H1 H2; by specialize (Hcl H1 H2)|].
    intros n y _ Hd; by eapply lookup_weaken.
Qed.

Lemma epoll_wakeup_ok s ev : epoll_ok s -> script_ok (script (e_base s)) -> watches_all s ->
  exists s' cs, muggle_evloop_epoll_handle_wakeup s ev = Some s' /\ scanned s s' cs /\ watches_all s' /\ reads_of cs = [] /\
    (is_in ev = true -> to_exit (e_base s') <> MUGGLE_EV_LOOP_EXIT_STATUS_WAKE /\ (cb_wake (cbs (e_base s)) = true -> CWake ∈ cs)) /\ others None s s'.
Proof.
  intros Hs Hsc Hw; unfold muggle_evloop_epoll_handle_wakeup; fold (is_in ev); destruct (is_in ev).
  - destruct (handle_wakeup_ok (L := epoll_laws) s Hs Hsc) as (s' & E & A & Hx); exists s', (calls (cb_wake (cbs (e_base s))) CWake).
    split; [done|]; split; [apply called_scanned; try done; by destruct (cb_wake _)|]; split; [|split; [by destruct (cb_wake _)|split]].
    + unfold handle_wakeup in E; apply bind_Some in E as (s1 & E1 & E2).
      set (sc := upd_base s (fun b => snd (muggle_ev_signal_clearup b))) in *.
      assert (keeps (e_base s) (snd (muggle_ev_signal_clearup (e_base s)))) as Hk
        by (apply same_keeps; unfold muggle_ev_signal_clearup; by destruct (ev_signal (e_base s) =? 0)).
      assert (watches_all sc) as Hwc by (apply watches_keeps; [done|apply Hs|done]).
      assert (epoll_ok sc) as Hsc' by by apply epoll_keeps.
      assert (script (e_base sc) = script (e_base s)) as Esc by (unfold sc, muggle_ev_signal_clearup; simpl; by destruct (ev_signal (e_base s) =? 0)).
      pose proof (watches_invoke_if _ sc CWake s1 Hwc Hsc' ltac:(by rewrite Esc) eq_refl E1) as Hw1.
      destruct (invoke_if_ok (L := epoll_laws) (cb_wake (cbs (base s))) sc CWake Hsc' ltac:(change (script_ok (script (e_base sc))); by rewrite Esc) eq_refl) as (s1' & E1' & A').
      rewrite E1 in E1'; simplify_eq; pose proof (ca_ok _ _ _ A') as Hs1'.
      case_match; [|done]; apply watches_keeps; [done|apply Hs1'|by apply same_keeps].
    + intros _; split; [exact Hx|]; intros Hcw; rewrite Hcw; left.
    + intros n y _ Hd; pose proof (gr_nodes _ _ (ca_grows _ _ _ A)) as Gn; by eapply lookup_weaken.
  - exists s, []; split; [done|]; split; [apply called_scanned; try done; by apply (called_refl (L := epoll_laws))|]; split_and!; try done; by intros n y.
Qed.

(** The contexts of the events. *)
Definition event_ctx (s : muggle_event_loop_epoll) (e : option nat * Z) : option (nat * Z) :=
  node ← fst e; c ← node_data (e_base s) !! node; Some (c, snd e).
Definition event_ctxs s (l : list (option nat * Z)) : list (nat * Z) := omap (event_ctx s) l.

Lemma event_ctxs_cons s e l : event_ctxs s (e :: l) = option_list (event_ctx s e) ++ event_ctxs s l.
Proof. unfold event_ctxs; simpl; by destruct (event_ctx s e). Qed.

Lemma event_ctxs_others s s' p l : others p s s' -> p ∉ l.*1 -> (forall node ev, (Some node, ev) ∈ l -> is_Some (node_data (e_base s) !! node)) ->
  event_ctxs s' l = event_ctxs s l.
Proof.
  intros Ho; induction l as [|[q ev] l IH]; intros Hp Hl; [done|]; rewrite !event_ctxs_cons; simpl in Hp.
  rewrite IH; [|set_solver|intros; eapply Hl; by right].
  assert (event_ctx s' (q, ev) = event_ctx s (q, ev)) as ->; [|done]; unfold event_ctx; destruct q as [node|]; simpl; [|done].
  destruct (Hl node ev) as [c Hc]; [left|]; rewrite Hc, (Ho node c); [done| |done]; set_solver.
Qed.

Lemma epoll_scan_ok l s : epoll_ok s -> script_ok (script (e_base s)) -> watches_all s -> NoDup (l.*1) ->
  (forall node ev, (Some node, ev) ∈ l -> is_Some (node_data (e_base s) !! node)) ->
  exists s' cs, epoll_scan l s = Some s' /\ scanned s s' cs /\ watches_all s' /\
    reads_of cs = (if cb_read (cbs (e_base s)) then (filter (fun e => is_in (snd e)) (event_ctxs s l)).*1 else []) /\
    (forall c ev n, (c, ev) ∈ event_ctxs s l -> is_in ev = false -> is_hup ev = true -> node_data (e_base s') !! n <> Some c) /\
    (forall ev, (None, ev) ∈ l -> is_in ev = true ->
       to_exit (e_base s') <> MUGGLE_EV_LOOP_EXIT_STATUS_WAKE /\ (cb_wake (cbs (e_base s)) = true -> CWake ∈ cs)).
Proof.
  revert s; induction l as [|[p ev] l IH]; intros s Hs Hsc Hw Hnd Hl; cbn [epoll_scan].
  - exists s, []; split; [done|]; split; [apply called_scanned; try done; by apply (called_refl (L := epoll_laws))|]; split; [done|].
    split; [by destruct (cb_read _)|]; split; intros; set_solver.
  - cbn [fmap list_fmap fst] in Hnd; apply NoDup_cons in Hnd as [Hp Hnd].
    assert (exists s1 cs1, match p with None => muggle_evloop_epoll_handle_wakeup s ev | Some node => epoll_entry s node ev end = Some s1 /\
      scanned s s1 cs1 /\ watches_all s1 /\ others p s s1 /\
      reads_of cs1 = (if cb_read (cbs (e_base s)) then (filter (fun e => is_in (snd e)) (option_list (event_ctx s (p, ev)))).*1 else []) /\
      (forall c n, event_ctx s (p, ev) = Some (c, ev) -> is_in ev = false -> is_hup ev = true -> node_data (e_base s1) !! n <> Some c) /\
      (p = None -> is_in ev = true -> to_exit (e_base s1) <> MUGGLE_EV_LOOP_EXIT_STATUS_WAKE /\ (cb_wake (cbs (e_base s)) = true -> CWake ∈ cs1)))
      as (s1 & cs1 & -> & S1 & Hw1 & Ho & R1 & G1 & W1).
    { destruct p as [node|].
      - destruct (Hl node ev) as [c Hc]; [left|]; destruct (epoll_entry_ok s node ev c Hs Hsc Hw Hc) as (s1 & cs1 & E & S1 & Hw1 & R1 & G1 & Ho).
        assert (event_ctx s (Some node, ev) = Some (c, ev)) as Ee by (unfold event_ctx; simpl; by rewrite Hc).
        exists s1, cs1; rewrite Ee; split_and!; try done; [|intros ? n [= <-] ? ?; by apply G1]; rewrite R1; simpl; rewrite filter_cons; simpl.
        by destruct (is_in ev), (cb_read _).
      - destruct (epoll_wakeup_ok s ev Hs Hsc Hw) as (s1 & cs1 & E & S1 & Hw1 & R1 & W1 & Ho).
        exists s1, cs1; split_and!; try done; rewrite R1; by destruct (cb_read _). }
    cbn [mbind option_bind]; pose proof (sc_config _ _ _ S1) as [Ec _]; simpl in Ec.
    assert (forall node ev, (Some node, ev) ∈ l -> is_Some (node_data (e_base s) !! node)) as Hl' by (intros node e Hin; eapply Hl; by right).
    destruct (IH s1) as (s' & cs & -> & S2 & Hw2 & R2 & G2 & W2); [apply S1|apply S1|done|done| |].
    { intros node e Hin; destruct (Hl' node e Hin) as [y Hy]; exists y; apply Ho; [|done]; intros E; apply Hp, list_elem_of_fmap; by exists (Some node, e). }
    rewrite Ec, (event_ctxs_others s s1 p l Ho Hp Hl') in *.
    exists s', (cs1 ++ cs); split; [done|]; split; [by eapply scanned_trans|]; split; [done|]; rewrite reads_of_app, R1, R2, event_ctxs_cons; split; [|split].
    + destruct (cb_read _); [|done]; by rewrite filter_app, fmap_app.
    + intros c e n [Hin|Hin]%elem_of_app Hi Hh; [|by eapply G2].
      destruct (event_ctx s (p, ev)) as [[c' e']|] eqn:Ee; simpl in Hin; [|by apply not_elem_of_nil in Hin].
      apply list_elem_of_singleton in Hin; simplify_eq.
      assert (e' = ev) as -> by (unfold event_ctx in Ee; apply bind_Some in Ee as (? & _ & Ee); apply bind_Some in Ee as (? & _ & Ee); by simplify_eq).
      intros Hd; apply (G1 c' n eq_refl Hi Hh), (sc_old _ _ _ S2); [done|]; apply (sc_known _ _ _ S1).
      unfold event_ctx in Ee; apply bind_Some in Ee as (node & _ & Ee); apply bind_Some in Ee as (y & Hy & Ee); simplify_eq.
      apply (node_known _ node); [apply Hs|done].
    + intros e [[= <- <-]|Hin]%elem_of_cons Hi.
      * destruct (W1 eq_refl Hi) as [H1 H2]; split; [destruct (sc_exit _ _ _ S2) as [E|E]; simpl in E; rewrite E; done|].
        intros Hcw; apply elem_of_app; left; auto.
      * destruct (W2 e Hin Hi) as [H1 H2]; split; [done|]; intros Hcw; apply elem_of_app; right; auto.
Qed.

(** C18: A round of the loop, for every state that the invariant allows, all
    callbacks, times since the start of the timer below [2^31] ms, and every answer of [epoll_wait] with addresses that the kernel was
    given, each once: no freed node or context is accessed; exactly the contexts
    that are readable are read, once each, and those with only an error or a
    hang-up are dropped; the signal is answered; a context is closed once and
    exactly when it leaves the list; and the kernel has the contexts that are
    registered afterwards, with the addresses of their nodes, and no others. *)
Theorem epoll_round_correct (s : muggle_event_loop_epoll) (remain_ms elapsed : Z) (a : epoll_answer)
    (Hs : epoll_ok s) (Hsc : script_ok (script (e_base s))) (Hw : watches_all s) (He : 0 <= elapsed < 2 ^ 31)
    (Ha : match a with
          | EReady l => NoDup (l.*1) /\ forall p ev, (p, ev) ∈ l -> exists f, interest s !! f = Some p
          | EError _ => True
          end) :
  exists s' r ended cs, epoll_round s remain_ms a elapsed = Some (s', r, ended) /\
    scanned s s' (cs ++ calls (timer_fires (e_base s) elapsed) CTimer) /\ watches_all s' /\
    ended = (to_exit (e_base s') =? MUGGLE_EV_LOOP_EXIT_STATUS_EXIT) /\
    match a with
    | EError intr => cs = [] /\ (intr = false -> ended = true)
    | EReady l =>
        reads_of cs = (if cb_read (cbs (e_base s)) then (filter (fun e => is_in (snd e)) (event_ctxs s l)).*1 else []) /\
        (forall c ev node, (c, ev) ∈ event_ctxs s l -> is_in ev = false -> is_hup ev = true -> node_data (e_base s') !! node <> Some c) /\
        (forall ev, (None, ev) ∈ l -> is_in ev = true ->
           to_exit (e_base s') <> MUGGLE_EV_LOOP_EXIT_STATUS_WAKE /\ (cb_wake (cbs (e_base s)) = true -> CWake ∈ cs))
    end.
Proof.
  assert (exists s1 cs, match a with EReady l => epoll_scan l s | EError _ => Some s end = Some s1 /\ scanned s s1 cs /\ watches_all s1 /\
    match a with
    | EError intr => cs = []
    | EReady l => reads_of cs = (if cb_read (cbs (e_base s)) then (filter (fun e => is_in (snd e)) (event_ctxs s l)).*1 else []) /\
        (forall c ev node, (c, ev) ∈ event_ctxs s l -> is_in ev = false -> is_hup ev = true -> node_data (e_base s1) !! node <> Some c) /\
        (forall ev, (None, ev) ∈ l -> is_in ev = true ->
           to_exit (e_base s1) <> MUGGLE_EV_LOOP_EXIT_STATUS_WAKE /\ (cb_wake (cbs (e_base s)) = true -> CWake ∈ cs))
    end) as (s1 & cs & E1 & S1 & Hw1 & H1).
  { destruct a as [l|intr].
    - destruct Ha as [Hnd Hin]; apply epoll_scan_ok; try done; intros node ev Hl; destruct (Hin _ _ Hl) as [f Hf].
      destruct (eo_interest _ Hs _ _ Hf) as (c & x & Hc & _); by exists c.
    - exists s, []; split; [done|]; split; [apply called_scanned; try done; by apply (called_refl (L := epoll_laws))|done]. }
  unfold epoll_round; rewrite E1; cbn [mbind option_bind].
  assert (timer_fires (e_base s1) elapsed = timer_fires (e_base s) elapsed) as ET
    by (pose proof (sc_config _ _ _ S1) as [C1 C2]; simpl in C1, C2; unfold timer_fires; by rewrite C1, C2).
  destruct (loop_timer_ok (L := epoll_laws) s1 remain_ms elapsed) as (s2 & r & E2 & A & _); [apply S1|apply S1|done|].
  assert (watches_all s2) as Hw2.
  { unfold loop_timer in E2; destruct (_ && _) in E2; [|by simplify_eq]; destruct (_ <=? 0) in E2; [|by simplify_eq].
    apply bind_Some in E2 as (s3 & E3 & E2); simplify_eq.
    by apply (watches_invoke_if true s1 CTimer s2 Hw1 (sc_ok _ _ _ S1) (sc_script _ _ _ S1) eq_refl). }
  rewrite E2; cbn [mbind option_bind]; change (base s1) with (e_base s1) in A; rewrite ET in A; pose proof (ca_exit _ _ _ A) as Hex; simpl in Hex.
  assert (scanned s s2 (cs ++ calls (timer_fires (e_base s) elapsed) CTimer)) as S2.
  { eapply scanned_trans; [done|exact S1|]; apply called_scanned; [done|apply S1|by destruct (timer_fires (e_base s) elapsed)]. }
  destruct a as [l|intr].
  - exists s2, r, (to_exit (e_base s2) =? MUGGLE_EV_LOOP_EXIT_STATUS_EXIT), cs; split; [done|]; split; [done|]; split; [done|]; split; [done|].
    destruct H1 as (R1 & R2 & R3); split; [done|]; split.
    + intros c ev node Hin Hi Hh Hn; apply (R2 c ev node Hin Hi Hh), (ca_old _ _ _ A); [done|]; apply (sc_known _ _ _ S1).
      unfold event_ctxs in Hin; apply list_elem_of_omap in Hin as (e & _ & Ee); unfold event_ctx in Ee.
      apply bind_Some in Ee as (n & _ & Ee); apply bind_Some in Ee as (y & Hy & Ee); simplify_eq; apply (node_known _ n); [apply Hs|done].
    + intros ev Hin Hi; destruct (R3 ev Hin Hi) as [H2 H3]; split; [|done]; destruct Hex as [-> | ->]; done.
  - subst cs; destruct intr.
    + exists s2, r, (to_exit (e_base s2) =? MUGGLE_EV_LOOP_EXIT_STATUS_EXIT), []; split; [done|]; by split_and!.
    + assert (keeps (e_base s2) (muggle_evloop_exit (e_base s2) true)) as Hk by by apply same_keeps.
      assert (called s2 (set_e_base s2 (muggle_evloop_exit (e_base s2) true)) []) as A3
        by (apply (called_keeps (L := epoll_laws) s2 _ (ca_ok _ _ _ A) (ca_script _ _ _ A) Hk); try done; by right).
      exists (set_e_base s2 (muggle_evloop_exit (e_base s2) true)), r, true, []; split; [done|]; split; [|split; [|done]].
      * rewrite <- (app_nil_r (_ ++ _)); eapply scanned_trans; [done|exact S2|]; apply called_scanned; [done|apply A|done].
      * apply watches_keeps; [done|apply (eo_base s2), A|done].
Qed.

(** ** A loop with two contexts *)

Definition sample_epoll : muggle_event_loop_epoll :=
  default (EP (muggle_evloop_init (CB true true true true true true) []) ∅)
    (s ← muggle_evloop_init_epoll (muggle_evloop_init (CB true true true true true true) [[ASetFlag 10 1]]) true true;
     do_actions (snd (epoll_ctl_add s 3 None true)) [AAdd 10 5 true (Some 100%nat) true; AAdd 11 6 true (Some 101%nat) true]).

Lemma sample_epoll_ok : epoll_ok sample_epoll /\ script_ok (script (e_base sample_epoll)) /\ watches_all sample_epoll.
Proof.
  set (b := muggle_evloop_init (CB true true true true true true) [[ASetFlag 10 1]]); set (s := snd (epoll_ctl_add (EP b ∅) 3 None true)).
  assert (s = EP b {[3 := None]}) as Es by reflexivity.
  assert (epoll_ok s) as Hs.
  { rewrite Es; split; simpl; [split; simpl; try done; [apply NoDup_nil_2| |by intros c [x ?]]|].
    - intros node; rewrite lookup_empty; split; [by intros ?%not_elem_of_nil|by intros [x ?]].
    - by intros f node [_ ?]%lookup_singleton_Some. }
  assert (watches_all s) as Hw by (rewrite Es; by intros node c x _).
  set (acts := [AAdd 10 5 true (Some 100%nat) true; AAdd 11 6 true (Some 101%nat) true]).
  assert (Forall action_ok acts) as Hl by by repeat constructor.
  destruct (do_actions_ok (L := epoll_laws) s acts Hs Hl) as (s1 & E1 & A); assert (sample_epoll = s1) as -> by (unfold sample_epoll; cbn [muggle_evloop_init_epoll negb mbind option_bind]; fold b acts s; by rewrite E1).
  split; [apply A|].
  destruct (ac_io _ _ _ A) as [Ei _]; simpl in Ei; split.
  - change (script_ok (script (e_base s1))); rewrite Ei, Es; by repeat constructor.
  - clear Es Ei A; clearbody s; unfold acts in E1; cbn [do_actions] in E1; apply bind_Some in E1 as (s2 & E2 & E1); apply bind_Some in E1 as (s3 & E3 & E1); simplify_eq.
    destruct (do_action_ok (L := epoll_laws) s (AAdd 10 5 true (Some 100%nat) true) Hs) as (s2' & E2' & A2); [done|]; simplify_eq.
    destruct (leaving_action _ 0 _ _ _ (watches_leaving s 0 Hw) Hs E2) as [Hw2 _].
    by destruct (leaving_action _ 0 _ _ _ (watches_leaving s2 0 Hw2) (ac_ok _ _ _ A2) E3) as [Hw3 _].
Qed.

(** The signal and context 10 are readable; context 11 hung up. *)
Lemma epoll_round_correct_witness : exists s' r ended cs,
  epoll_round sample_epoll (-1) (EReady [(None, EPOLLIN); (Some 100%nat, EPOLLIN); (Some 101%nat, EPOLLHUP)]) 0 = Some (s', r, ended) /\
  scanned sample_epoll s' cs /\ reads_of cs = [10%nat] /\ CWake ∈ cs /\ watches_all s'.
Proof.
  destruct sample_epoll_ok as (Hs & Hsc & Hw).
  destruct (epoll_round_correct sample_epoll (-1) 0 (EReady [(None, EPOLLIN); (Some 100%nat, EPOLLIN); (Some 101%nat, EPOLLHUP)]) Hs Hsc Hw ltac:(lia))
    as (s' & r & ended & cs & E & Sc & W & _ & R & _ & H).
  - split; [repeat (apply NoDup_cons; split; [set_solver|]); apply NoDup_nil_2|].
    intros p ev Hin; apply elem_of_cons in Hin as [[= -> ->]|Hin]; [by exists 3|].
    apply elem_of_cons in Hin as [[= -> ->]|Hin]; [by exists 5|].
    apply list_elem_of_singleton in Hin as [= -> ->]; by exists 6.
  - destruct (H EPOLLIN) as [_ Hc]; [left|reflexivity|].
    exists s', r, ended, cs; split; [exact E|]; simpl in Sc; rewrite app_nil_r in Sc; split; [exact Sc|]; split; [exact R|].
    split; [apply Hc; reflexivity|exact W].
Defined.
