(* ===== verification/EventExit.v ===== *)
(** * Ending the loop from another thread: [muggle_evloop_exit]

    The accesses of [to_exit] and of the signal, by the thread of the loop and by
    the threads that ask for the end, in any order; sequentially consistent.  The
    loop waits for the signal or for other events, of which a round may have
    none, some, and a callback that ends the loop itself. *)
From S2P Require Import Prelude Utils EventLoop.

(** The loop: waits; clears the signal; reads [to_exit] and sets it, in
    [handle_wakeup]; tests it at the end of the round. *)
Inductive loop_pc := LPoll | LClear | LCheck | LSet | LTail | LDone.

(** Another thread in [muggle_evloop_exit]: before it, after the store, after
    the wake-up. *)
Inductive exit_pc := XIdle | XWake | XDone.

Record exit_state := XS { x_exit : Z; x_signal : Z; x_loop : loop_pc; x_threads : gmap nat exit_pc }.

(** A step of the loop. *)
Definition loop_step (s : exit_state) : option exit_state :=
  let next p := Some (XS (x_exit s) (x_signal s) p (x_threads s)) in
  match x_loop s with
  | LPoll => if x_signal s =? 0 then None else next LClear
  | LClear => Some (XS (x_exit s) 0 LCheck (x_threads s))
  | LCheck => next (if x_exit s =? MUGGLE_EV_LOOP_EXIT_STATUS_WAKE then LSet else LTail)
  | LSet => Some (XS MUGGLE_EV_LOOP_EXIT_STATUS_EXIT (x_signal s) LTail (x_threads s))
  | LTail => next (if x_exit s =? MUGGLE_EV_LOOP_EXIT_STATUS_EXIT then LDone else LPoll)
  | LDone => None
  end.

(** A step of a thread: the store, and the write to the [eventfd]. *)
Definition exit_step (s : exit_state) (t : nat) : option exit_state :=
  p ← x_threads s !! t;
  match p with
  | XIdle => Some (XS MUGGLE_EV_LOOP_EXIT_STATUS_WAKE (x_signal s) (x_loop s) (<[t := XWake]> (x_threads s)))
  | XWake => Some (XS (x_exit s) (if x_signal s + 1 <=? EVENTFD_MAX then x_signal s + 1 else x_signal s) (x_loop s) (<[t := XDone]> (x_threads s)))
  | XDone => None
  end.

Inductive exit_code : exit_state -> exit_state -> Prop :=
| exit_loop s s' : loop_step s = Some s' -> exit_code s s'
| exit_thread s t s' : exit_step s t = Some s' -> exit_code s s'.

(** Other events; a callback that calls [muggle_evloop_exit] in the thread of the
    loop, before the end of the round; another use of the signal. *)
Inductive exit_env : exit_state -> exit_state -> Prop :=
| exit_event e g ts : exit_env (XS e g LPoll ts) (XS e g LTail ts)
| exit_callback e g p ts : p = LClear \/ p = LCheck \/ p = LTail -> exit_env (XS e g p ts) (XS MUGGLE_EV_LOOP_EXIT_STATUS_EXIT g p ts)
| exit_wakeup e g p ts : g + 1 <= EVENTFD_MAX -> exit_env (XS e g p ts) (XS e (g + 1) p ts).

Inductive exit_reach (ts : gmap nat exit_pc) : exit_state -> Prop :=
| exit_init : exit_reach ts (XS 0 0 LPoll ts)
| exit_next s s' : exit_reach ts s -> exit_code s s' \/ exit_env s s' -> exit_reach ts s'.

(** The loop alone, for [n] steps at most. *)
Fixpoint run_loop (n : nat) (s : exit_state) : exit_state :=
  match n with
  | O => s
  | S n => match loop_step s with Some s' => run_loop n s' | None => s end
  end.

(** A request is on its way: a thread has stored and not yet written, the signal
    is set, or the loop has taken the signal and not yet read [to_exit]. *)
Definition on_its_way (s : exit_state) : Prop :=
  (exists t, x_threads s !! t = Some XWake) \/ 0 < x_signal s \/ x_loop s = LCheck \/ x_loop s = LSet.

Record exit_inv (s : exit_state) : Prop := {
  xi_signal : 0 <= x_signal s;
  xi_asked : forall t p, x_threads s !! t = Some p -> p <> XIdle ->
    x_loop s = LDone \/ (x_exit s = MUGGLE_EV_LOOP_EXIT_STATUS_EXIT /\ x_loop s <> LPoll) \/
    (x_exit s = MUGGLE_EV_LOOP_EXIT_STATUS_WAKE /\ on_its_way s)
}.

Lemma exit_start ts : (forall t p, ts !! t = Some p -> p = XIdle) -> exit_inv (XS 0 0 LPoll ts).
Proof. intros H; split; simpl; [lia|]; intros t p Ht Hp; by apply H in Ht. Qed.

Ltac exit_split := repeat (case_match; simplify_eq/=; try done).

Lemma loop_step_inv s s' : exit_inv s -> loop_step s = Some s' -> exit_inv s'.
Proof.
  intros [Hs Ha] H; destruct s as [e g p ts]; unfold loop_step in H; simpl in *.
  split; [by exit_split|].
  intros t q Ht Hq.
  assert (Hts : ts !! t = Some q) by (by exit_split).
  specialize (Ha t q Hts Hq); unfold on_its_way in *; simpl in *.
  exit_split; destruct Ha as [?|[(?&?)|(?&[?|[?|[?|?]]])]]; try done; subst; simpl in *;
    try (right; left; done); try (right; right; split; [done|]; naive_solver); try naive_solver lia.
Qed.

Lemma exit_step_inv s t s' : exit_inv s -> exit_step s t = Some s' -> exit_inv s'.
Proof.
  intros [Hs Ha] H; destruct s as [e g p ts]; unfold exit_step in H; simpl in *.
  destruct (ts !! t) as [[| |]|] eqn:Et; simplify_eq/=.
  - split; [done|]; intros u q _ _; right; right; split; [done|].
    left; exists t; simpl; by rewrite lookup_insert_eq.
  - assert (Hg : 0 < (if g + 1 <=? EVENTFD_MAX then g + 1 else g)).
    { case_match; [lia|]; unfold EVENTFD_MAX in *; lia. }
    split; simpl; [lia|]; intros u q _ _.
    destruct (Ha t XWake Et ltac:(done)) as [?|[?|[? _]]]; [by left|by right; left|].
    right; right; split; [done|]; right; left; done.
Qed.

Lemma exit_env_inv s s' : exit_inv s -> exit_env s s' -> exit_inv s'.
Proof.
  intros [Hs Ha] H; destruct H; simpl in *; split; simpl; try done; try lia;
    intros u q Hu Hq; specialize (Ha u q Hu Hq); unfold on_its_way in *; simpl in *;
    destruct Ha as [?|[[? ?]|[? [?|[?|[?|?]]]]]]; try done; naive_solver lia.
Qed.

Lemma exit_reach_inv ts s : (forall t p, ts !! t = Some p -> p = XIdle) -> exit_reach ts s -> exit_inv s.
Proof.
  intros Hi H; induction H as [|s s' H IH Hs]; [by apply exit_start|].
  destruct Hs as [Hs|Hs]; [inversion Hs|]; subst; eauto using loop_step_inv, exit_step_inv, exit_env_inv.
Qed.

(** C22: a request to end the loop from another thread is never lost: in every
    state reachable from threads that have not yet asked, by any interleaving of
    the loop, the asking threads, other events and callbacks, if some thread has
    stored [to_exit] then the loop is not waiting without a wake-up still to
    come; and as soon as no thread is between its store and its write, at most
    six more steps of the loop end it. *)
Theorem evloop_exit_not_lost (ts : gmap nat exit_pc) (s : exit_state) (t : nat) (p : exit_pc) :
  (forall u q, ts !! u = Some q -> q = XIdle) -> exit_reach ts s ->
  x_threads s !! t = Some p -> p <> XIdle ->
  (x_loop s = LPoll -> loop_step s = None -> exists u, x_threads s !! u = Some XWake /\ is_Some (exit_step s u)) /\
  ((forall u, x_threads s !! u <> Some XWake) -> x_loop (run_loop 6 s) = LDone).
Proof.
  intros Hi Hr Ht Hp.
  destruct (exit_reach_inv ts s Hi Hr) as [Hs Ha]; specialize (Ha t p Ht Hp).
  destruct s as [e g l th]; unfold on_its_way in Ha; simpl in *; split.
  - intros -> Hn; unfold loop_step in Hn; simpl in Hn.
    destruct (Z.eqb_spec g 0) as [->|]; [|done].
    destruct Ha as [?|[[_ ?]|[_ [[u Hu]|[?|[?|?]]]]]]; try done.
    exists u; split; [done|]; unfold exit_step; simpl; rewrite Hu; by eexists.
  - intros Hw.
    destruct Ha as [->|[[-> Hl]|[-> [[u Hu]|[Hg|[->| ->]]]]]]; try done; [|by destruct (Hw u)|].
    + by destruct l.
    + by destruct g; [lia| |lia]; destruct l.
Qed.

(** Two threads ask; the loop is in a round of other events when the first
    stores, and waits before it writes. *)
Definition exit_example : gmap nat exit_pc := {[ 0%nat := XIdle; 1%nat := XIdle ]}.

Lemma evloop_exit_not_lost_witness : exists s, exit_reach exit_example s /\ x_loop s = LPoll /\ x_loop (run_loop 6 s) = LDone.
Proof.
  set (s1 := XS 0 0 LTail exit_example).
  set (s2 := XS MUGGLE_EV_LOOP_EXIT_STATUS_WAKE 0 LTail (<[0%nat := XWake]> exit_example)).
  set (s3 := XS MUGGLE_EV_LOOP_EXIT_STATUS_WAKE 0 LPoll (<[0%nat := XWake]> exit_example)).
  set (s4 := XS MUGGLE_EV_LOOP_EXIT_STATUS_WAKE 1 LPoll (<[0%nat := XDone]> (<[0%nat := XWake]> exit_example))).
  assert (R : exit_reach exit_example s4).
  { apply (exit_next _ s3); [apply (exit_next _ s2); [apply (exit_next _ s1); [eapply exit_next; [apply exit_init|]|]|]|].
    - right; apply exit_event.
    - left; apply (exit_thread _ 0); reflexivity.
    - left; apply exit_loop; reflexivity.
    - left; apply (exit_thread _ 0); reflexivity. }
  exists s4; split; [done|]; split; [done|].
  apply (evloop_exit_not_lost exit_example s4 0 XDone); [|done|reflexivity|done|].
  - intros u q; unfold exit_example; intros [[_ <-]|[_ [_ <-]%lookup_singleton_Some]]%lookup_insert_Some.
    all: reflexivity.
  - intros u; simpl; intros [[_ ?]|[? [[? _]|[_ Hu]]%lookup_insert_Some]]%lookup_insert_Some; [done..|].
    destruct u as [|[|u]]; revert Hu; [done..|].
    unfold exit_example; rewrite lookup_insert_ne, lookup_singleton_ne; done.
Defined.
