(* ===== verification/Modes.v ===== *)
(** * Block cipher modes: the loops of [crypt/aes.c], [crypt/des.c] and
    [crypt/tdes.c]

    The three ciphers have the same five modes over a block function; the
    loops are written here once, over a block size [B] and the block
    function, and the ciphers instantiate them.  [BlockCipher] is what the
    modes need of a cipher, and what each cipher proves.

    A buffer is a list of bytes; [output] is the list of bytes written from
    the output pointer on, in the order of the writes.  The input and output
    buffers do not overlap. *)
From S2P Require Import Prelude Utils.

Definition MUGGLE_DECRYPT : Z := 0.
Definition MUGGLE_ENCRYPT : Z := 1.

Definition MUGGLE_BLOCK_CIPHER_MODE_ECB : Z := 0.
Definition MUGGLE_BLOCK_CIPHER_MODE_CBC : Z := 1.
Definition MUGGLE_BLOCK_CIPHER_MODE_CFB : Z := 2.
Definition MUGGLE_BLOCK_CIPHER_MODE_OFB : Z := 3.
Definition MUGGLE_BLOCK_CIPHER_MODE_CTR : Z := 4.

Definition MAX_MUGGLE_BLOCK_CIPHER_MODE : Z := 5.

(** The result of a call: [inl] of an error code, nothing written, or [inr]
    of what a call returning 0 wrote.  [None] is a fault. *)
Definition result (A : Type) : Type := option (Z + A).

(** [MUGGLE_CHECK_RET(b, e);] and the check that a pointer is not [NULL]. *)
Declare Scope check_scope.
Notation "'CHECK' b 'ELSE' e ';' k" := (if (b : bool) then k else Some (inl e))
  (at level 10, b at level 99, e at level 99, k at level 200, only parsing) : check_scope.
Notation "'PTR' x ':=' p 'ELSE' e ';' k" := (match p with Some x => k | None => Some (inl e) end)
  (at level 10, x name, p at level 99, e at level 99, k at level 200, only parsing) : check_scope.

(** [op == MUGGLE_ENCRYPT || op == MUGGLE_DECRYPT]. *)
Definition op_valid (op : Z) : bool := (op =? MUGGLE_ENCRYPT) || (op =? MUGGLE_DECRYPT).

(** [MUGGLE_ROUND_UP_POW_OF_2_MUL(num_bytes, B) == num_bytes]. *)
Definition whole_blocks (B num_bytes : Z) : bool :=
  MUGGLE_ROUND_UP_POW_OF_2_MUL 32 num_bytes B =? num_bytes.

Definition byte_ok (b : Z) : Prop := 0 <= b < 256.

Definition is_block (B : nat) (b : list Z) : Prop := length b = B /\ Forall byte_ok b.

(** What the modes rely on: on every block, encryption gives a block that
    decryption takes back. *)
Class BlockCipher (B : nat) (enc dec : list Z -> option (list Z)) : Prop := {
  bc_size : (0 < B)%nat;
  bc_inverse : forall b, is_block B b ->
    exists c, enc b = Some c /\ is_block B c /\ dec c = Some b
}.

Definition xor_bytes (xs ys : list Z) : list Z := zip_with Z.lxor xs ys.

(** ** The loops *)
Section Loops.
Variable B : Z.
Variable crypt : list Z -> option (list Z).

(** ECB: state is [offset] and [output]. *)
Definition ecb_body (input : list Z) (i : Z) (s : Z * list Z) : option (Z * list Z) :=
  let '(offset, output) := s in
  block ← copy_out input offset B;
  out ← crypt block;
  Some (u32 (offset + B), output ++ out).

Definition ecb_loop (input : list Z) (len : Z) : option (list Z) :=
  '(_, output) ← for_up (ecb_body input) (Z.to_nat len) 0 (0, []); Some output.

(** CBC: state is [offset], [iv] and [output]. *)
Definition cbc_body (encrypt : bool) (input : list Z) (i : Z) (s : Z * list Z * list Z)
  : option (Z * list Z * list Z) :=
  let '(offset, iv, output) := s in
  block ← copy_out input offset B;
  if encrypt then
    out ← crypt (xor_bytes iv block);
    Some (u32 (offset + B), out, output ++ out)
  else
    out ← crypt block;
    Some (u32 (offset + B), block, output ++ xor_bytes out iv).

Definition cbc_loop (encrypt : bool) (input : list Z) (len : Z) (iv : list Z)
  : option (list Z * list Z) :=
  '(_, iv, output) ← for_up (cbc_body encrypt input) (Z.to_nat len) 0 (0, iv, []);
  Some (iv, output).

(** The byte-wise modes: one step on the state for one input byte. *)
Definition stream_loop {S} (step : S -> Z -> option (S * Z)) (input : list Z) (num_bytes : Z)
    (s : S) : option (S * list Z) :=
  for_up (fun i '(s, output) =>
    x ← rd input i; '(s, y) ← step s x; Some (s, output ++ [y])) (Z.to_nat num_bytes) 0 (s, []).

(** CFB: state is [iv] and [offset]. *)
Definition cfb_step (encrypt : bool) (s : list Z * Z) (x : Z) : option (list Z * Z * Z) :=
  let '(iv, offset) := s in
  iv ← (if offset =? 0 then crypt iv else Some iv);
  k ← rd iv offset;
  let y := Z.lxor x k in
  iv ← wr iv offset (if encrypt then y else x);
  Some (iv, Z.land (offset + 1) (B - 1), y).

(** OFB. *)
Definition ofb_step (s : list Z * Z) (x : Z) : option (list Z * Z * Z) :=
  let '(iv, offset) := s in
  iv ← (if offset =? 0 then crypt iv else Some iv);
  k ← rd iv offset;
  Some (iv, Z.land (offset + 1) (B - 1), Z.lxor x k).

(** CTR: state is the nonce, the offset and the stream block. *)
Section Ctr.
Context {N : Type}.
Variables (next : N -> N) (nonce_bytes : N -> list Z).

Definition ctr_step (s : N * Z * list Z) (x : Z) : option (N * Z * list Z * Z) :=
  let '(nonce, offset, stream) := s in
  '(nonce, stream) ← (if offset =? 0 then
      let nonce := next nonce in
      stream ← crypt (nonce_bytes nonce); Some (nonce, stream)
    else Some (nonce, stream));
  k ← rd stream offset;
  Some (nonce, Z.land (offset + 1) (B - 1), stream, Z.lxor x k).
End Ctr.
End Loops.

(** ** Bytes *)

Lemma lxor_byte x y : byte_ok x -> byte_ok y -> byte_ok (Z.lxor x y).
Proof.
  unfold byte_ok; intros Hx Hy; split; [apply Z.lxor_nonneg; lia|].
  destruct (Z.eq_dec (Z.lxor x y) 0) as [->|Hne]; [lia|].
  assert (0 <= Z.lxor x y) by (apply Z.lxor_nonneg; lia).
  apply (Z.log2_lt_pow2 _ 8); [lia|].
  pose proof (Z.log2_lxor x y ltac:(lia) ltac:(lia)).
  assert (forall z, 0 <= z < 256 -> Z.log2 z < 8) as Hlog.
  { intros z Hz; destruct (Z.eq_dec z 0) as [->|]; [reflexivity|].
    apply Z.log2_lt_pow2; lia. }
  pose proof (Hlog x Hx); pose proof (Hlog y Hy); lia.
Qed.

Lemma lxor_cancel x k : Z.lxor (Z.lxor x k) k = x.
Proof. by rewrite Z.lxor_assoc, Z.lxor_nilpotent, Z.lxor_0_r. Qed.

Lemma xor_bytes_length xs ys : length xs = length ys -> length (xor_bytes xs ys) = length xs.
Proof. intros; unfold xor_bytes; rewrite length_zip_with; lia. Qed.

Lemma xor_bytes_block B xs ys : is_block B xs -> is_block B ys -> is_block B (xor_bytes xs ys).
Proof.
  intros [Lx Fx] [Ly Fy]; split; [rewrite xor_bytes_length; lia|].
  unfold xor_bytes; clear Lx Ly; revert ys Fy; induction Fx; intros ys Fy; [constructor|].
  destruct Fy; simpl; constructor; auto using lxor_byte.
Qed.

Lemma xor_bytes_cancel xs ys :
  length xs = length ys -> xor_bytes (xor_bytes ys xs) ys = xs.
Proof.
  revert ys; induction xs as [|x xs IH]; intros [|y ys] H; simpl in *; try done.
  f_equal; [|apply IH; lia]; rewrite (Z.lxor_comm y x); apply lxor_cancel.
Qed.

(** ** Splitting an input into blocks *)

Lemma split_blocks (B n : nat) (input : list Z) :
  (0 < B)%nat -> length input = (n * B)%nat -> Forall byte_ok input ->
  exists bs, input = concat bs /\ length bs = n /\ Forall (is_block B) bs.
Proof.
  intros HB; revert input; induction n as [|n IH]; intros input Hl Hf.
  { destruct input; [|simpl in Hl; lia]; by exists []. }
  destruct (IH (drop B input)) as (bs & E & Hn & Hb).
  - rewrite length_drop; lia.
  - by apply Forall_drop.
  - exists (take B input :: bs); simpl; rewrite <- E, take_drop; split; [done|].
    split; [lia|]; constructor; [|done]; split; [rewrite length_take; lia|by apply Forall_take].
Qed.

Lemma concat_blocks_length B bs :
  Forall (is_block B) bs -> length (concat bs) = (length bs * B)%nat.
Proof.
  induction 1 as [|b bs [Hb _] _ IH]; simpl; [done|]; rewrite length_app; lia.
Qed.

Lemma concat_blocks_bytes B bs : Forall (is_block B) bs -> Forall byte_ok (concat bs).
Proof. induction 1 as [|b bs [_ Hb] _ IH]; simpl; [constructor|]; by apply Forall_app. Qed.

Lemma copy_out_block B pre b rest off :
  is_block B b -> off = Z.of_nat (length pre) ->
  copy_out (pre ++ b ++ rest) off (Z.of_nat B) = Some b.
Proof.
  intros [Hb _] ->; rewrite copy_out_Some by (rewrite ?length_app; lia).
  unfold slice; rewrite !Nat2Z.id, drop_app_length, <- Hb; by rewrite take_app_length.
Qed.

(** ** ECB *)

Lemma ecb_blocks (B : nat) crypt bs cs pre acc i :
  Forall (is_block B) bs -> Forall2 (fun b c => crypt b = Some c) bs cs ->
  Z.of_nat (length pre + length bs * B) < 2 ^ 32 ->
  for_up (ecb_body (Z.of_nat B) crypt (pre ++ concat bs)) (length bs) i
    (Z.of_nat (length pre), acc) = Some (Z.of_nat (length pre + length bs * B), acc ++ concat cs).
Proof.
  intros Hb H2; revert pre acc i; induction H2 as [|b c bs cs Hc H2 IH];
    intros pre acc i Hsz; simpl.
  { by rewrite !app_nil_r, Nat.add_0_r. }
  apply Forall_cons in Hb as [Hb Hbs]; simpl in Hsz.
  rewrite (copy_out_block B) by done; simpl; rewrite Hc; simpl.
  rewrite wrap_small by (unfold in_width; lia).
  pose proof Hb as [Lb _].
  specialize (IH Hbs (pre ++ b) (acc ++ c) (i + 1)).
  rewrite length_app, Lb, <- !app_assoc in IH.
  replace (Z.of_nat (length pre) + Z.of_nat B) with (Z.of_nat (length pre + B)) by lia.
  rewrite IH by lia; do 2 f_equal; lia.
Qed.

Lemma ecb_loop_blocks (B : nat) crypt bs cs :
  Forall (is_block B) bs -> Forall2 (fun b c => crypt b = Some c) bs cs ->
  Z.of_nat (length bs * B) < 2 ^ 32 ->
  ecb_loop (Z.of_nat B) crypt (concat bs) (Z.of_nat (length bs)) = Some (concat cs).
Proof.
  intros Hb H2 Hsz; unfold ecb_loop; rewrite Nat2Z.id.
  pose proof (ecb_blocks B crypt bs cs [] [] 0 Hb H2) as E.
  cbn [length Nat.add app] in E; change (Z.of_nat 0) with 0 in E; rewrite E by done; done.
Qed.

Lemma cipher_blocks (B : nat) enc dec `{!BlockCipher B enc dec} bs :
  Forall (is_block B) bs ->
  exists cs, Forall2 (fun b c => enc b = Some c) bs cs /\ Forall (is_block B) cs /\
    Forall2 (fun c b => dec c = Some b) cs bs.
Proof.
  induction 1 as [|b bs Hb _ (cs & H1 & H2 & H3)]; [by exists []|].
  destruct (bc_inverse b Hb) as (c & He & Hc & Hd); exists (c :: cs).
  split; [by constructor|]; split; by constructor.
Qed.

Lemma ecb_roundtrip (B : nat) enc dec `{!BlockCipher B enc dec} (n : nat) input :
  length input = (n * B)%nat -> Forall byte_ok input -> Z.of_nat (n * B) < 2 ^ 32 ->
  exists output, ecb_loop (Z.of_nat B) enc input (Z.of_nat n) = Some output /\
    length output = length input /\ Forall byte_ok output /\
    ecb_loop (Z.of_nat B) dec output (Z.of_nat n) = Some input.
Proof.
  intros Hl Hf Hsz; pose proof (@bc_size _ _ _ BlockCipher0) as HB.
  destruct (split_blocks B n input HB Hl Hf) as (bs & -> & <- & Hb).
  destruct (cipher_blocks B enc dec bs Hb) as (cs & H1 & Hc & H2).
  pose proof (Forall2_length _ _ _ H1) as Hlen.
  exists (concat cs); split; [by apply ecb_loop_blocks|].
  split; [rewrite !(concat_blocks_length B) by done; lia|].
  split; [by apply (concat_blocks_bytes B)|].
  rewrite Hlen; apply ecb_loop_blocks; try done; by rewrite <- Hlen.
Qed.

(** ** CBC *)

(** The ciphertext blocks of plaintext blocks, with the last value of [iv]. *)
Inductive cbc_chain (enc : list Z -> option (list Z)) :
    list Z -> list (list Z) -> list (list Z) -> list Z -> Prop :=
| chain_nil iv : cbc_chain enc iv [] [] iv
| chain_cons iv b c bs cs last :
    enc (xor_bytes iv b) = Some c -> cbc_chain enc c bs cs last ->
    cbc_chain enc iv (b :: bs) (c :: cs) last.

Lemma cbc_encrypt_blocks (B : nat) enc iv bs cs last pre acc i :
  Forall (is_block B) bs -> cbc_chain enc iv bs cs last ->
  Z.of_nat (length pre + length bs * B) < 2 ^ 32 ->
  for_up (cbc_body (Z.of_nat B) enc true (pre ++ concat bs)) (length bs) i
    (Z.of_nat (length pre), iv, acc)
  = Some (Z.of_nat (length pre + length bs * B), last, acc ++ concat cs).
Proof.
  intros Hb H2; revert pre acc i; induction H2 as [iv|iv b c bs cs last Hc H2 IH];
    intros pre acc i Hsz; simpl.
  { by rewrite !app_nil_r, Nat.add_0_r. }
  apply Forall_cons in Hb as [Hb Hbs]; simpl in Hsz.
  rewrite (copy_out_block B) by done; simpl; rewrite Hc; simpl.
  rewrite wrap_small by (unfold in_width; lia); pose proof Hb as [Lb _].
  specialize (IH Hbs (pre ++ b) (acc ++ c) (i + 1)).
  rewrite length_app, Lb, <- !app_assoc in IH.
  replace (Z.of_nat (length pre) + Z.of_nat B) with (Z.of_nat (length pre + B)) by lia.
  rewrite IH by lia; do 3 f_equal; lia.
Qed.

Lemma cbc_decrypt_blocks (B : nat) enc dec `{!BlockCipher B enc dec} iv bs cs last pre acc i :
  Forall (is_block B) bs -> is_block B iv -> cbc_chain enc iv bs cs last ->
  Z.of_nat (length pre + length bs * B) < 2 ^ 32 ->
  for_up (cbc_body (Z.of_nat B) dec false (pre ++ concat cs)) (length cs) i
    (Z.of_nat (length pre), iv, acc)
  = Some (Z.of_nat (length pre + length bs * B), last, acc ++ concat bs) /\
  Forall (is_block B) cs.
Proof.
  intros Hb Hiv H2; revert Hiv pre acc i; induction H2 as [iv|iv b c bs cs last Hc H2 IH];
    intros Hiv pre acc i Hsz; simpl.
  { by rewrite !app_nil_r, Nat.add_0_r. }
  apply Forall_cons in Hb as [Hb Hbs]; simpl in Hsz.
  destruct (bc_inverse (xor_bytes iv b)) as (c' & He & Hc' & Hd); [by apply xor_bytes_block|].
  rewrite Hc in He; injection He as <-.
  rewrite (copy_out_block B) by done; simpl; rewrite Hd; simpl.
  rewrite wrap_small by (unfold in_width; lia).
  pose proof Hb as [Lb _]; pose proof Hc' as [Lc _]; pose proof Hiv as [Li _].
  rewrite xor_bytes_cancel by lia.
  destruct (IH Hbs Hc' (pre ++ c) (acc ++ b) (i + 1)) as [E HF].
  { rewrite length_app; lia. }
  rewrite length_app, Lc, <- !app_assoc in E; split; [|by constructor].
  replace (Z.of_nat (length pre) + Z.of_nat B) with (Z.of_nat (length pre + B)) by lia.
  rewrite E; do 3 f_equal; lia.
Qed.

Lemma cbc_chain_exists (B : nat) enc dec `{!BlockCipher B enc dec} iv bs :
  Forall (is_block B) bs -> is_block B iv ->
  exists cs last, cbc_chain enc iv bs cs last /\ is_block B last /\ length cs = length bs.
Proof.
  intros Hb; revert iv; induction Hb as [|b bs Hb _ IH]; intros iv Hiv.
  { exists [], iv; split; [constructor|done]. }
  destruct (bc_inverse (xor_bytes iv b)) as (c & He & Hc & _); [by apply xor_bytes_block|].
  destruct (IH c Hc) as (cs & last & H1 & H2 & H3); exists (c :: cs), last.
  split; [by econstructor|]; split; [done|simpl; lia].
Qed.

Lemma cbc_roundtrip (B : nat) enc dec `{!BlockCipher B enc dec} (n : nat) input iv :
  length input = (n * B)%nat -> Forall byte_ok input -> is_block B iv ->
  Z.of_nat (n * B) < 2 ^ 32 ->
  exists iv' output, cbc_loop (Z.of_nat B) enc true input (Z.of_nat n) iv = Some (iv', output) /\
    is_block B iv' /\ length output = length input /\ Forall byte_ok output /\
    cbc_loop (Z.of_nat B) dec false output (Z.of_nat n) iv = Some (iv', input).
Proof.
  intros Hl Hf Hiv Hsz; pose proof (@bc_size _ _ _ BlockCipher0) as HB.
  destruct (split_blocks B n input HB Hl Hf) as (bs & -> & <- & Hb).
  destruct (cbc_chain_exists B enc dec iv bs Hb Hiv) as (cs & last & Hch & Hlast & Hlen).
  destruct (cbc_decrypt_blocks B enc dec iv bs cs last [] [] 0 Hb Hiv Hch) as [Ed Hc]; [done|].
  pose proof (cbc_encrypt_blocks B enc iv bs cs last [] [] 0 Hb Hch Hsz) as Ee.
  exists last, (concat cs); unfold cbc_loop; rewrite Nat2Z.id.
  cbn [length Nat.add app] in Ee, Ed; change (Z.of_nat 0) with 0 in Ee, Ed.
  rewrite Ee; rewrite Hlen in Ed; rewrite Ed; simpl.
  split; [done|]; split; [done|].
  split; [rewrite !(concat_blocks_length B) by done; lia|].
  split; [by apply (concat_blocks_bytes B)|done].
Qed.

(** ** The byte-wise modes *)

Fixpoint stream {S} (step : S -> Z -> option (S * Z)) (s : S) (xs : list Z)
  : option (S * list Z) :=
  match xs with
  | [] => Some (s, [])
  | x :: xs => '(s, y) ← step s x; '(s, ys) ← stream step s xs; Some (s, y :: ys)
  end.

Lemma stream_loop_spec {S} (step : S -> Z -> option (S * Z)) input s s' ys :
  stream step s input = Some (s', ys) ->
  stream_loop step input (Z.of_nat (length input)) s = Some (s', ys).
Proof.
  unfold stream_loop; rewrite Nat2Z.id.
  enough (forall xs pre s acc s' ys, stream step s xs = Some (s', ys) ->
    for_up (fun i '(s, output) => x ← rd (pre ++ xs) i; '(s, y) ← step s x;
              Some (s, output ++ [y])) (length xs) (Z.of_nat (length pre)) (s, acc)
    = Some (s', acc ++ ys)) as H by (intros E; exact (H input [] s [] s' ys E)).
  induction xs as [|x xs IH]; intros pre s0 acc s1 ys0; simpl.
  { intros E; injection E as <- <-; by rewrite app_nil_r. }
  rewrite rd_mid by done; simpl; destruct (step s0 x) as [[s2 y]|]; simpl; [|done].
  destruct (stream step s2 xs) as [[s3 ys3]|] eqn:E; simpl; [|done].
  intros E'; injection E' as <- <-.
  specialize (IH (pre ++ [x]) s2 (acc ++ [y]) s3 ys3 E).
  rewrite length_app, <- !app_assoc in IH; simpl in IH.
  replace (Z.of_nat (length pre) + 1) with (Z.of_nat (length pre + 1)) by lia; exact IH.
Qed.

(** Decryption that undoes one step undoes the stream. *)
Lemma stream_inverse {S} (inv : S -> Prop) (enc dec : S -> Z -> option (S * Z)) s xs :
  (forall s x, inv s -> byte_ok x ->
     exists s' y, enc s x = Some (s', y) /\ inv s' /\ byte_ok y /\ dec s y = Some (s', x)) ->
  inv s -> Forall byte_ok xs ->
  exists s' ys, stream enc s xs = Some (s', ys) /\ stream dec s ys = Some (s', xs) /\
    length ys = length xs /\ Forall byte_ok ys /\ inv s'.
Proof.
  intros Hstep Hs Hx; revert s Hs; induction Hx as [|x xs Hx _ IH]; intros s Hs; simpl.
  { exists s, []; repeat split; try done; constructor. }
  destruct (Hstep s x Hs Hx) as (s1 & y & E1 & Hs1 & Hy & E2).
  destruct (IH s1 Hs1) as (s2 & ys & E3 & E4 & Hl & Hf & Hs2).
  exists s2, (y :: ys); rewrite E1; simpl; rewrite E3; simpl; rewrite E2; simpl; rewrite E4; simpl.
  repeat split; try done; [lia|by constructor].
Qed.

Lemma stream_roundtrip {S} (inv : S -> Prop) (enc dec : S -> Z -> option (S * Z)) s input :
  (forall s x, inv s -> byte_ok x ->
     exists s' y, enc s x = Some (s', y) /\ inv s' /\ byte_ok y /\ dec s y = Some (s', x)) ->
  inv s -> Forall byte_ok input ->
  exists s' output,
    stream_loop enc input (Z.of_nat (length input)) s = Some (s', output) /\
    length output = length input /\ Forall byte_ok output /\ inv s' /\
    stream_loop dec output (Z.of_nat (length input)) s = Some (s', input).
Proof.
  intros Hstep Hs Hx; destruct (stream_inverse inv enc dec s input Hstep Hs Hx)
    as (s' & ys & E1 & E2 & Hl & Hf & Hs').
  exists s', ys; split; [by apply stream_loop_spec|]; split; [done|]; split; [done|].
  split; [done|]; rewrite <- Hl; by apply stream_loop_spec.
Qed.

Section Streams.
Variables (B : nat) (k : Z) (crypt : list Z -> option (list Z)).
Hypothesis Hk : 0 <= k.
Hypothesis HB : Z.of_nat B = 2 ^ k.
(** The block function maps blocks to blocks. *)
Hypothesis crypt_total : forall b, is_block B b -> exists c, crypt b = Some c /\ is_block B c.

Lemma offset_next offset :
  0 <= Z.land (offset + 1) (Z.of_nat B - 1) < Z.of_nat B.
Proof.
  rewrite HB, land_pow2_pred by done; apply Z.mod_pos_bound; lia.
Qed.

Lemma block_rd b off :
  is_block B b -> 0 <= off < Z.of_nat B -> exists x, rd b off = Some x /\ byte_ok x.
Proof.
  intros [Hl Hf] Ho; destruct (rd_is_Some b off) as [x Hx]; [lia|]; exists x; split; [done|].
  unfold rd in Hx; rewrite decide_True in Hx by lia.
  rewrite Forall_forall in Hf; apply Hf; by eapply list_elem_of_lookup_2.
Qed.

Lemma block_wr b off x :
  is_block B b -> 0 <= off < Z.of_nat B -> byte_ok x ->
  exists b', wr b off x = Some b' /\ is_block B b'.
Proof.
  intros [Hl Hf] Ho Hx; rewrite wr_Some by lia; eexists; split; [done|]; split.
  - by rewrite length_insert.
  - by apply Forall_insert.
Qed.

Lemma refill iv offset :
  is_block B iv ->
  exists iv', (if offset =? 0 then crypt iv else Some iv) = Some iv' /\ is_block B iv'.
Proof. intros Hiv; destruct (offset =? 0); eauto. Qed.

Definition iv_ok (s : list Z * Z) : Prop := is_block B (fst s) /\ 0 <= snd s < Z.of_nat B.

Lemma cfb_step_inverse s x :
  iv_ok s -> byte_ok x ->
  exists s' y, cfb_step (Z.of_nat B) crypt true s x = Some (s', y) /\ iv_ok s' /\ byte_ok y /\
    cfb_step (Z.of_nat B) crypt false s y = Some (s', x).
Proof.
  destruct s as [iv offset]; intros [Hiv Ho] Hx; simpl in *.
  destruct (refill iv offset Hiv) as (iv1 & E & Hiv1); rewrite E; simpl.
  destruct (block_rd iv1 offset Hiv1 Ho) as (c & Er & Hc); rewrite Er; simpl.
  assert (Hy : byte_ok (Z.lxor x c)) by (by apply lxor_byte).
  destruct (block_wr iv1 offset (Z.lxor x c) Hiv1 Ho Hy) as (iv2 & Ew & Hiv2);
    rewrite Ew; simpl.
  eexists _, _; split; [done|]; split; [split; [done|apply offset_next]|].
  split; [done|]; by rewrite lxor_cancel, ?Ew.
Qed.

Lemma ofb_step_inverse s x :
  iv_ok s -> byte_ok x ->
  exists s' y, ofb_step (Z.of_nat B) crypt s x = Some (s', y) /\ iv_ok s' /\ byte_ok y /\
    ofb_step (Z.of_nat B) crypt s y = Some (s', x).
Proof.
  destruct s as [iv offset]; intros [Hiv Ho] Hx; simpl in *.
  destruct (refill iv offset Hiv) as (iv1 & E & Hiv1); rewrite E; simpl.
  destruct (block_rd iv1 offset Hiv1 Ho) as (c & Er & Hc); rewrite Er; simpl.
  eexists _, _; split; [done|]; split; [split; [done|apply offset_next]|].
  split; [by apply lxor_byte|]; by rewrite lxor_cancel.
Qed.

Section CtrStream.
Context {N : Type}.
Variables (next : N -> N) (nonce_bytes : N -> list Z).
Hypothesis nonce_block : forall n, is_block B (nonce_bytes n).

Definition ctr_ok (s : N * Z * list Z) : Prop :=
  let '(_, offset, stream) := s in 0 <= offset < Z.of_nat B /\ is_block B stream.

Lemma ctr_step_inverse s x :
  ctr_ok s -> byte_ok x ->
  exists s' y, ctr_step (Z.of_nat B) crypt next nonce_bytes s x = Some (s', y) /\ ctr_ok s' /\
    byte_ok y /\ ctr_step (Z.of_nat B) crypt next nonce_bytes s y = Some (s', x).
Proof.
  destruct s as [[nonce offset] st]; intros [Ho Hst] Hx; simpl in *.
  assert (exists n1 st1, (if offset =? 0 then
      stream0 ← crypt (nonce_bytes (next nonce)); Some (next nonce, stream0)
      else Some (nonce, st)) = Some (n1, st1) /\ is_block B st1) as (n1 & st1 & E & Hst1).
  { destruct (offset =? 0); [|eauto].
    destruct (crypt_total _ (nonce_block (next nonce))) as (c & -> & Hc); eauto. }
  rewrite E; simpl; destruct (block_rd st1 offset Hst1 Ho) as (c & Er & Hc); rewrite Er; simpl.
  eexists _, _; split; [done|]; split; [split; [apply offset_next|done]|].
  split; [by apply lxor_byte|]; by rewrite lxor_cancel.
Qed.
End CtrStream.
End Streams.

(** ** Little-endian words *)

(** The [n] bytes of [x] in memory order. *)
Fixpoint le_bytes (n : nat) (x : Z) : list Z :=
  match n with O => [] | S n => x mod 256 :: le_bytes n (x / 256) end.

Fixpoint of_le (bs : list Z) : Z :=
  match bs with [] => 0 | b :: bs => b + 256 * of_le bs end.

Lemma le_bytes_block n x : is_block n (le_bytes n x).
Proof.
  revert x; induction n as [|n IH]; intros x; simpl; [by split|].
  destruct (IH (x / 256)) as [Hl Hf]; split; [simpl; lia|].
  constructor; [apply Z.mod_pos_bound; lia|done].
Qed.

Lemma of_le_bytes n x : 0 <= x < 256 ^ Z.of_nat n -> of_le (le_bytes n x) = x.
Proof.
  revert x; induction n as [|n IH]; intros x Hx; simpl.
  { simpl in Hx; lia. }
  rewrite Nat2Z.inj_succ, Z.pow_succ_r in Hx by lia.
  pose proof (Z.div_mod x 256 ltac:(lia)).
  rewrite IH; [lia|]; split; [apply Z.div_pos; lia|apply Z.div_lt_upper_bound; lia].
Qed.

Lemma le_bytes_of bs : Forall byte_ok bs -> le_bytes (length bs) (of_le bs) = bs.
Proof.
  induction 1 as [|b bs Hb _ IH]; simpl; [done|]; unfold byte_ok in Hb.
  rewrite (Z.mul_comm 256), Z.mod_add, Z.div_add, Z.mod_small, Z.div_small by lia.
  by rewrite Z.add_0_l, IH.
Qed.

Lemma of_le_bound bs : Forall byte_ok bs -> 0 <= of_le bs < 256 ^ Z.of_nat (length bs).
Proof.
  induction 1 as [|b bs Hb _ IH]; simpl; [lia|]; unfold byte_ok in Hb.
  rewrite Nat2Z.inj_succ, Z.pow_succ_r by lia; lia.
Qed.

(** ** Lengths *)

Lemma whole_blocks_spec k n :
  0 <= k < 32 -> in_width 32 n -> whole_blocks (2 ^ k) n = true <-> (2 ^ k | n).
Proof.
  intros Hk [Hn0 Hn]; unfold whole_blocks; rewrite Z.eqb_eq.
  destruct (decide (n + 2 ^ k - 1 < 2 ^ 32)) as [Hlt|Hge]; [apply round_up_fix; lia|].
  assert (0 < 2 ^ k) by lia; assert (2 ^ k < 2 ^ 32) by (apply Z.pow_lt_mono_r; lia).
  split; intros H1.
  - exfalso; revert H1; unfold MUGGLE_ROUND_UP_POW_OF_2_MUL.
    assert (wrap 32 (n + 2 ^ k - 1) < 2 ^ k) as Hs.
    { unfold wrap; rewrite <- (Z.mod_unique (n + 2 ^ k - 1) (2 ^ 32) 1 (n + 2 ^ k - 1 - 2 ^ 32)); lia. }
    assert (0 <= wrap 32 (n + 2 ^ k - 1)) by (unfold wrap; apply Z.mod_pos_bound; lia).
    rewrite (wrap_small 32 (2 ^ k - 1)) by (split; lia).
    rewrite land_wrap_r by (unfold in_width; lia).
    rewrite ones_pow2, land_lnot_ones, Z.mod_small by lia; lia.
  - exfalso; destruct H1 as [q ->].
    assert (2 ^ 32 = 2 ^ (32 - k) * 2 ^ k) as E by (rewrite <- Z.pow_add_r; f_equal; lia).
    assert (q < 2 ^ (32 - k)) by nia; nia.
Qed.
