(* ===== verification/Aes.v ===== *)
(** * AES: [crypt/internal/internal_aes.c] and [crypt/aes.c]

    The block cipher of [internal_aes.c] on a state of 16 bytes (row-major),
    and the modes of [aes.c] over a block function.  The library is built
    with [MUGGLE_CRYPT_OPTIMIZATION], which replaces the block function by
    code extracted from OpenSSL; the modes are therefore written over any
    block function, and the portable one modelled here is the instance.
    A state or buffer is a list of bytes; [None] is an access outside of it.
    Debug output is not modelled. *)
From Stdlib Require Import Btauto.
From S2P Require Import Prelude Utils Modes.

Open Scope check_scope.

Definition MUGGLE_AES_BLOCK_SIZE : Z := 16.

Definition s_muggle_aes_sbox : list Z :=
  [99; 124; 119; 123; 242; 107; 111; 197; 48; 1; 103; 43; 254; 215; 171; 118;
   202; 130; 201; 125; 250; 89; 71; 240; 173; 212; 162; 175; 156; 164; 114; 192;
   183; 253; 147; 38; 54; 63; 247; 204; 52; 165; 229; 241; 113; 216; 49; 21;
   4; 199; 35; 195; 24; 150; 5; 154; 7; 18; 128; 226; 235; 39; 178; 117;
   9; 131; 44; 26; 27; 110; 90; 160; 82; 59; 214; 179; 41; 227; 47; 132;
   83; 209; 0; 237; 32; 252; 177; 91; 106; 203; 190; 57; 74; 76; 88; 207;
   208; 239; 170; 251; 67; 77; 51; 133; 69; 249; 2; 127; 80; 60; 159; 168;
   81; 163; 64; 143; 146; 157; 56; 245; 188; 182; 218; 33; 16; 255; 243; 210;
   205; 12; 19; 236; 95; 151; 68; 23; 196; 167; 126; 61; 100; 93; 25; 115;
   96; 129; 79; 220; 34; 42; 144; 136; 70; 238; 184; 20; 222; 94; 11; 219;
   224; 50; 58; 10; 73; 6; 36; 92; 194; 211; 172; 98; 145; 149; 228; 121;
   231; 200; 55; 109; 141; 213; 78; 169; 108; 86; 244; 234; 101; 122; 174; 8;
   186; 120; 37; 46; 28; 166; 180; 198; 232; 221; 116; 31; 75; 189; 139; 138;
   112; 62; 181; 102; 72; 3; 246; 14; 97; 53; 87; 185; 134; 193; 29; 158;
   225; 248; 152; 17; 105; 217; 142; 148; 155; 30; 135; 233; 206; 85; 40; 223;
   140; 161; 137; 13; 191; 230; 66; 104; 65; 153; 45; 15; 176; 84; 187; 22].

Definition s_muggle_aes_inv_sbox : list Z :=
  [82; 9; 106; 213; 48; 54; 165; 56; 191; 64; 163; 158; 129; 243; 215; 251;
   124; 227; 57; 130; 155; 47; 255; 135; 52; 142; 67; 68; 196; 222; 233; 203;
   84; 123; 148; 50; 166; 194; 35; 61; 238; 76; 149; 11; 66; 250; 195; 78;
   8; 46; 161; 102; 40; 217; 36; 178; 118; 91; 162; 73; 109; 139; 209; 37;
   114; 248; 246; 100; 134; 104; 152; 22; 212; 164; 92; 204; 93; 101; 182; 146;
   108; 112; 72; 80; 253; 237; 185; 218; 94; 21; 70; 87; 167; 141; 157; 132;
   144; 216; 171; 0; 140; 188; 211; 10; 247; 228; 88; 5; 184; 179; 69; 6;
   208; 44; 30; 143; 202; 63; 15; 2; 193; 175; 189; 3; 1; 19; 138; 107;
   58; 145; 17; 65; 79; 103; 220; 234; 151; 242; 207; 206; 240; 180; 230; 115;
   150; 172; 116; 34; 231; 173; 53; 133; 226; 249; 55; 232; 28; 117; 223; 110;
   71; 241; 26; 113; 29; 41; 197; 137; 111; 183; 98; 14; 170; 24; 190; 27;
   252; 86; 62; 75; 198; 210; 121; 32; 154; 219; 192; 254; 120; 205; 90; 244;
   31; 221; 168; 51; 136; 7; 199; 49; 177; 18; 16; 89; 39; 128; 236; 95;
   96; 81; 127; 169; 25; 181; 74; 13; 45; 229; 122; 159; 147; 201; 156; 239;
   160; 224; 59; 77; 174; 42; 245; 176; 200; 235; 187; 60; 131; 83; 153; 97;
   23; 43; 4; 126; 186; 119; 214; 38; 225; 105; 20; 99; 85; 33; 12; 125].

Definition s_muggle_aes_mix_column : list Z :=
  [2; 3; 1; 1;
   1; 2; 3; 1;
   1; 1; 2; 3;
   3; 1; 1; 2].

Definition s_muggle_aes_inv_mix_column : list Z :=
  [14; 11; 13; 9;
   9; 14; 11; 13;
   13; 9; 14; 11;
   11; 13; 9; 14].

(** ** The block cipher *)

(** [b = b << 1], reduced; one turn of the loop of [galois_mul]. *)
Definition xtime (b : Z) : Z :=
  let t := Z.land b 128 in
  let b := u8 (Z.shiftl b 1) in
  if t =? 0 then b else Z.lxor b 27.

(** [while (a != 0)]; a byte is zero after eight shifts. *)
Fixpoint galois_loop (fuel : nat) (a b r : Z) : Z :=
  match fuel with
  | O => r
  | S fuel =>
      if a =? 0 then r
      else
        let r := if Z.land a 1 =? 0 then r else Z.lxor r b in
        galois_loop fuel (Z.shiftr a 1) (xtime b) r
  end.

Definition galois_mul (a b : Z) : Z := galois_loop 8 a b 0.

(** [state[i] ^= v]. *)
Definition xor_at (state : list Z) (i v : Z) : option (list Z) :=
  x ← rd state i; wr state i (Z.lxor x v).

(** One word of the round key, into the column [c] of the state. *)
Definition xor_word (state : list Z) (c w : Z) : option (list Z) :=
  state ← xor_at state c (Z.land (Z.shiftr w 24) 255);
  state ← xor_at state (c + 4) (Z.land (Z.shiftr w 16) 255);
  state ← xor_at state (c + 8) (Z.land (Z.shiftr w 8) 255);
  xor_at state (c + 12) (Z.land w 255).

(** The round key starts at [&rd_key[off]]. *)
Definition muggle_aes_add_round_key (state rd_key : list Z) (off : Z) : option (list Z) :=
  w ← rd rd_key off; state ← xor_word state 0 w;
  w ← rd rd_key (off + 1); state ← xor_word state 1 w;
  w ← rd rd_key (off + 2); state ← xor_word state 2 w;
  w ← rd rd_key (off + 3); xor_word state 3 w.

Definition sub_table (table state : list Z) : option (list Z) :=
  for_up (fun i state => x ← rd state i; y ← rd table x; wr state i y) 16 0 state.

Definition muggle_aes_sub_bytes (state : list Z) : option (list Z) :=
  sub_table s_muggle_aes_sbox state.

Definition muggle_aes_inv_sub_bytes (state : list Z) : option (list Z) :=
  sub_table s_muggle_aes_inv_sbox state.

(** [state[dst] = state[src]]. *)
Definition mv (dst src : Z) (state : list Z) : option (list Z) :=
  x ← rd state src; wr state dst x.

Definition muggle_aes_shift_rows (state : list Z) : option (list Z) :=
  t ← rd state 4;
  state ← mv 4 5 state; state ← mv 5 6 state; state ← mv 6 7 state;
  state ← wr state 7 t;
  t ← rd state 8; state ← mv 8 10 state; state ← wr state 10 t;
  t ← rd state 9; state ← mv 9 11 state; state ← wr state 11 t;
  t ← rd state 15;
  state ← mv 15 14 state; state ← mv 14 13 state; state ← mv 13 12 state;
  wr state 12 t.

Definition muggle_aes_inv_shift_rows (state : list Z) : option (list Z) :=
  t ← rd state 7;
  state ← mv 7 6 state; state ← mv 6 5 state; state ← mv 5 4 state;
  state ← wr state 4 t;
  t ← rd state 8; state ← mv 8 10 state; state ← wr state 10 t;
  t ← rd state 9; state ← mv 9 11 state; state ← wr state 11 t;
  t ← rd state 12;
  state ← mv 12 13 state; state ← mv 13 14 state; state ← mv 14 15 state;
  wr state 15 t.

(** One cell of the product of the coefficient matrix with the state. *)
Definition mix_cell (coef arr : list Z) (i j : Z) : option Z :=
  c0 ← rd coef (i * 4 + 0); a0 ← rd arr (0 * 4 + j);
  c1 ← rd coef (i * 4 + 1); a1 ← rd arr (1 * 4 + j);
  c2 ← rd coef (i * 4 + 2); a2 ← rd arr (2 * 4 + j);
  c3 ← rd coef (i * 4 + 3); a3 ← rd arr (3 * 4 + j);
  Some (Z.lxor (Z.lxor (Z.lxor (galois_mul c0 a0) (galois_mul c1 a1)) (galois_mul c2 a2))
               (galois_mul c3 a3)).

Definition mix (coef state : list Z) : option (list Z) :=
  arr ← copy_out state 0 16;
  for_up (fun i state =>
    for_up (fun j state =>
      v ← mix_cell coef arr i j; wr state (Z.lor (Z.shiftl i 2) j) v) 4 0 state) 4 0 state.

Definition muggle_aes_mix_column (state : list Z) : option (list Z) :=
  mix s_muggle_aes_mix_column state.

Definition muggle_aes_inv_mix_column (state : list Z) : option (list Z) :=
  mix s_muggle_aes_inv_mix_column state.

Record muggle_aes_subkeys := ASK { rd_key : list Z; rounds : Z }.

(** The body of [muggle_aes_encrypt] and [muggle_aes_decrypt] is a straight
    line of calls, given here as a list. *)
Inductive aes_call :=
| AddRoundKey (off : Z)
| SubBytes | ShiftRows | MixColumn
| InvSubBytes | InvShiftRows | InvMixColumn.

Definition do_call (key : list Z) (c : aes_call) (state : list Z) : option (list Z) :=
  match c with
  | AddRoundKey off => muggle_aes_add_round_key state key off
  | SubBytes => muggle_aes_sub_bytes state
  | ShiftRows => muggle_aes_shift_rows state
  | MixColumn => muggle_aes_mix_column state
  | InvSubBytes => muggle_aes_inv_sub_bytes state
  | InvShiftRows => muggle_aes_inv_shift_rows state
  | InvMixColumn => muggle_aes_inv_mix_column state
  end.

Fixpoint do_calls (key : list Z) (cs : list aes_call) (state : list Z) : option (list Z) :=
  match cs with
  | [] => Some state
  | c :: cs => state ← do_call key c state; do_calls key cs state
  end.

(** A round, and a last round, with the round key at [off]. *)
Definition enc_round (off : Z) : list aes_call :=
  [SubBytes; ShiftRows; MixColumn; AddRoundKey off].
Definition enc_last (off : Z) : list aes_call := [SubBytes; ShiftRows; AddRoundKey off].

Definition encrypt_calls (rounds : Z) : list aes_call :=
  [AddRoundKey 0] ++
  enc_round 4 ++ enc_round 8 ++ enc_round 12 ++ enc_round 16 ++ enc_round 20 ++
  enc_round 24 ++ enc_round 28 ++ enc_round 32 ++ enc_round 36 ++
  (if rounds =? 10 then enc_last 40
   else
     enc_round 40 ++ enc_round 44 ++
     (if rounds =? 12 then enc_last 48
      else if rounds =? 14 then enc_round 48 ++ enc_round 52 ++ enc_last 56
      else [])).

Definition dec_round (off : Z) : list aes_call :=
  [AddRoundKey off; InvMixColumn; InvShiftRows; InvSubBytes].
Definition dec_first (off : Z) : list aes_call := [AddRoundKey off; InvShiftRows; InvSubBytes].

Definition decrypt_calls (rounds : Z) : list aes_call :=
  (if rounds >? 10 then
     (if rounds =? 14 then dec_first 56 ++ dec_round 52 ++ dec_round 48 else dec_first 48) ++
     dec_round 44 ++ dec_round 40
   else dec_first 40) ++
  dec_round 36 ++ dec_round 32 ++ dec_round 28 ++ dec_round 24 ++ dec_round 20 ++
  dec_round 16 ++ dec_round 12 ++ dec_round 8 ++ dec_round 4 ++ [AddRoundKey 0].

Definition rounds_valid (r : Z) : bool := (r =? 10) || (r =? 12) || (r =? 14).

Definition muggle_aes_encrypt (state : list Z) (sk : muggle_aes_subkeys) : option (Z * list Z) :=
  if negb (rounds_valid (rounds sk)) then Some (MUGGLE_ERR_INVALID_PARAM, state)
  else state ← do_calls (rd_key sk) (encrypt_calls (rounds sk)) state; Some (0, state).

Definition muggle_aes_decrypt (state : list Z) (sk : muggle_aes_subkeys) : option (Z * list Z) :=
  if negb (rounds_valid (rounds sk)) then Some (MUGGLE_ERR_INVALID_PARAM, state)
  else state ← do_calls (rd_key sk) (decrypt_calls (rounds sk)) state; Some (0, state).

(** The index of the input byte in each cell of the state, which is also the
    index of the cell in each byte of the output. *)
Definition state_layout : list Z := [0; 4; 8; 12; 1; 5; 9; 13; 2; 6; 10; 14; 3; 7; 11; 15].

Definition gather (l : list Z) (idx : list Z) : option (list Z) := mapM (rd l) idx.

Definition muggle_aes_crypt (op : Z) (sk : muggle_aes_subkeys) (input : list Z)
  : option (Z * list Z) :=
  state ← gather input state_layout;
  '(ret, state) ← (if op =? MUGGLE_ENCRYPT then muggle_aes_encrypt state sk
                   else if op =? MUGGLE_DECRYPT then muggle_aes_decrypt state sk
                   else Some (MUGGLE_ERR_INVALID_PARAM, state));
  output ← gather state state_layout;
  Some (ret, output).

(** ** The modes: [aes.c]

    [crypt] is [muggle_aes_crypt], which is a different function in the
    optimised build; [output] says whether the output pointer is not [NULL].
    Pointers without a check are not optional. *)
Record muggle_aes_context := ACTX { op : Z; mode : Z; sk : muggle_aes_subkeys }.

(** [nonce[0] += 1; if (nonce[0] == 0) nonce[1] += 1]. *)
Definition nonce_next (nonce : Z * Z) : Z * Z :=
  let n0 := u64 (nonce.1 + 1) in (n0, if n0 =? 0 then u64 (nonce.2 + 1) else nonce.2).

Definition nonce_bytes (nonce : Z * Z) : list Z := le_bytes 8 nonce.1 ++ le_bytes 8 nonce.2.

Section Modes.
Variable crypt : Z -> muggle_aes_subkeys -> list Z -> option (Z * list Z).

Definition block_of (op : Z) (sk : muggle_aes_subkeys) (b : list Z) : option (list Z) :=
  '(_, out) ← crypt op sk b; Some out.

Definition muggle_aes_ecb (ctx : option muggle_aes_context) (input : option (list Z))
    (num_bytes : Z) (output : bool) : result (list Z) :=
  PTR ctx := ctx ELSE MUGGLE_ERR_NULL_PARAM;
  CHECK mode ctx =? MUGGLE_BLOCK_CIPHER_MODE_ECB ELSE MUGGLE_ERR_INVALID_PARAM;
  PTR input := input ELSE MUGGLE_ERR_NULL_PARAM;
  CHECK whole_blocks MUGGLE_AES_BLOCK_SIZE num_bytes ELSE MUGGLE_ERR_INVALID_PARAM;
  CHECK output ELSE MUGGLE_ERR_NULL_PARAM;
  out ← ecb_loop MUGGLE_AES_BLOCK_SIZE (block_of (op ctx) (sk ctx)) input
          (num_bytes / MUGGLE_AES_BLOCK_SIZE);
  Some (inr out).

Definition muggle_aes_cbc (ctx : option muggle_aes_context) (input : option (list Z))
    (num_bytes : Z) (iv : option (list Z)) (output : bool) : result (list Z * list Z) :=
  PTR ctx := ctx ELSE MUGGLE_ERR_NULL_PARAM;
  CHECK mode ctx =? MUGGLE_BLOCK_CIPHER_MODE_CBC ELSE MUGGLE_ERR_INVALID_PARAM;
  PTR input := input ELSE MUGGLE_ERR_NULL_PARAM;
  CHECK whole_blocks MUGGLE_AES_BLOCK_SIZE num_bytes ELSE MUGGLE_ERR_INVALID_PARAM;
  PTR iv := iv ELSE MUGGLE_ERR_NULL_PARAM;
  CHECK output ELSE MUGGLE_ERR_NULL_PARAM;
  CHECK op_valid (op ctx) ELSE MUGGLE_ERR_INVALID_PARAM;
  r ← cbc_loop MUGGLE_AES_BLOCK_SIZE (block_of (op ctx) (sk ctx)) (op ctx =? MUGGLE_ENCRYPT)
        input (num_bytes / MUGGLE_AES_BLOCK_SIZE) iv;
  Some (inr r).

(** Returns [iv], [*iv_offset] and the output. *)
Definition muggle_aes_cfb128 (ctx : option muggle_aes_context) (input : option (list Z))
    (num_bytes : Z) (iv : option (list Z)) (iv_offset : Z) (output : bool)
    : result (list Z * Z * list Z) :=
  PTR ctx := ctx ELSE MUGGLE_ERR_NULL_PARAM;
  CHECK mode ctx =? MUGGLE_BLOCK_CIPHER_MODE_CFB ELSE MUGGLE_ERR_INVALID_PARAM;
  PTR input := input ELSE MUGGLE_ERR_NULL_PARAM;
  PTR iv := iv ELSE MUGGLE_ERR_NULL_PARAM;
  CHECK iv_offset <? MUGGLE_AES_BLOCK_SIZE ELSE MUGGLE_ERR_INVALID_PARAM;
  CHECK output ELSE MUGGLE_ERR_NULL_PARAM;
  CHECK op_valid (op ctx) ELSE MUGGLE_ERR_INVALID_PARAM;
  r ← stream_loop (cfb_step MUGGLE_AES_BLOCK_SIZE (block_of MUGGLE_ENCRYPT (sk ctx))
                     (op ctx =? MUGGLE_ENCRYPT)) input num_bytes (iv, iv_offset);
  Some (inr r).

Definition muggle_aes_ofb128 (ctx : option muggle_aes_context) (input : option (list Z))
    (num_bytes : Z) (iv : option (list Z)) (iv_offset : Z) (output : bool)
    : result (list Z * Z * list Z) :=
  PTR ctx := ctx ELSE MUGGLE_ERR_NULL_PARAM;
  CHECK mode ctx =? MUGGLE_BLOCK_CIPHER_MODE_OFB ELSE MUGGLE_ERR_INVALID_PARAM;
  PTR input := input ELSE MUGGLE_ERR_NULL_PARAM;
  PTR iv := iv ELSE MUGGLE_ERR_NULL_PARAM;
  CHECK iv_offset <? MUGGLE_AES_BLOCK_SIZE ELSE MUGGLE_ERR_INVALID_PARAM;
  CHECK output ELSE MUGGLE_ERR_NULL_PARAM;
  CHECK op_valid (op ctx) ELSE MUGGLE_ERR_INVALID_PARAM;
  r ← stream_loop (ofb_step MUGGLE_AES_BLOCK_SIZE (block_of MUGGLE_ENCRYPT (sk ctx)))
        input num_bytes (iv, iv_offset);
  Some (inr r).

(** Returns [nonce], [*nonce_offset], the stream block and the output. *)
Definition muggle_aes_ctr (ctx : option muggle_aes_context) (input : option (list Z))
    (num_bytes : Z) (nonce : Z * Z) (nonce_offset : option Z) (stream_block : option (list Z))
    (output : bool) : result (Z * Z * Z * list Z * list Z) :=
  PTR ctx := ctx ELSE MUGGLE_ERR_NULL_PARAM;
  CHECK mode ctx =? MUGGLE_BLOCK_CIPHER_MODE_CTR ELSE MUGGLE_ERR_INVALID_PARAM;
  PTR input := input ELSE MUGGLE_ERR_NULL_PARAM;
  PTR nonce_offset := nonce_offset ELSE MUGGLE_ERR_NULL_PARAM;
  CHECK nonce_offset <? MUGGLE_AES_BLOCK_SIZE ELSE MUGGLE_ERR_INVALID_PARAM;
  PTR stream_block := stream_block ELSE MUGGLE_ERR_NULL_PARAM;
  CHECK output ELSE MUGGLE_ERR_NULL_PARAM;
  CHECK op_valid (op ctx) ELSE MUGGLE_ERR_INVALID_PARAM;
  r ← stream_loop (ctr_step MUGGLE_AES_BLOCK_SIZE (block_of MUGGLE_ENCRYPT (sk ctx))
                     nonce_next nonce_bytes) input num_bytes (nonce, nonce_offset, stream_block);
  Some (inr r).
End Modes.

(** ** Each call is undone by its inverse *)

Definition undone (f g : list Z -> option (list Z)) : Prop :=
  forall s, is_block 16 s -> exists s', f s = Some s' /\ is_block 16 s' /\ g s' = Some s.

Lemma block16 s : is_block 16 s ->
  exists s0 s1 s2 s3 s4 s5 s6 s7 s8 s9 s10 s11 s12 s13 s14 s15,
    s = [s0; s1; s2; s3; s4; s5; s6; s7; s8; s9; s10; s11; s12; s13; s14; s15].
Proof.
  intros [Hl _]; do 16 (destruct s as [|? s]; [discriminate Hl|]).
  destruct s; [|discriminate Hl]; by repeat eexists.
Qed.

Ltac block16 s H :=
  let E := fresh "E" in
  destruct (block16 s H) as (?s0 & ?s1 & ?s2 & ?s3 & ?s4 & ?s5 & ?s6 & ?s7 &
    ?s8 & ?s9 & ?s10 & ?s11 & ?s12 & ?s13 & ?s14 & ?s15 & E); subst s.

(** A block with its bytes rearranged. *)
Lemma block_perm (s s' : list Z) : s' ≡ₚ s -> is_block 16 s -> is_block 16 s'.
Proof. intros Hp [Hl Hf]; split; [by rewrite (Permutation_length Hp)|by rewrite Hp]. Qed.

Lemma shift_rows_undone : undone muggle_aes_shift_rows muggle_aes_inv_shift_rows.
Proof.
  intros s Hs; block16 s Hs.
  exists [s0; s1; s2; s3; s5; s6; s7; s4; s10; s11; s8; s9; s15; s12; s13; s14].
  split; [reflexivity|]; split; [|reflexivity].
  eapply block_perm; [|exact Hs]; do 4 apply perm_skip.
  change ([s5; s6; s7; s4] ++ [s10; s11; s8; s9] ++ [s15; s12; s13; s14] ≡ₚ
          [s4; s5; s6; s7] ++ [s8; s9; s10; s11] ++ [s12; s13; s14; s15]).
  apply Permutation_app; [by rewrite (Permutation_app_comm [s5; s6; s7] [s4])|].
  apply Permutation_app; [by rewrite (Permutation_app_comm [s10; s11] [s8; s9])|].
  by rewrite (Permutation_app_comm [s15] [s12; s13; s14]).
Qed.

Lemma for_up_map (f : Z -> option Z) xs ys :
  Forall2 (fun x y => f x = Some y) xs ys ->
  for_up (fun i l => x ← rd l i; y ← f x; wr l i y) (length xs) 0 xs = Some ys.
Proof.
  enough (forall pre xs ys, Forall2 (fun x y => f x = Some y) xs ys ->
    for_up (fun i l => x ← rd l i; y ← f x; wr l i y) (length xs) (Z.of_nat (length pre)) (pre ++ xs)
    = Some (pre ++ ys)) as H by (apply (H [])).
  intros pre xs0 ys0 H; revert pre; induction H as [|x y xs0 ys0 Hxy _ IH]; intros pre; simpl.
  { done. }
  rewrite rd_mid by done; simpl; rewrite Hxy; simpl; rewrite wr_mid by done; simpl.
  specialize (IH (pre ++ [y])); rewrite length_app, <- !app_assoc in IH; simpl in IH.
  replace (Z.of_nat (length pre) + 1) with (Z.of_nat (length pre + 1)) by lia; exact IH.
Qed.

(** The two tables are inverse to each other on bytes. *)
Definition sbox_entry_ok (x : Z) : bool :=
  match rd s_muggle_aes_sbox x with
  | Some y =>
      (0 <=? y) && (y <? 256) &&
      match rd s_muggle_aes_inv_sbox y with Some z => z =? x | None => false end
  | None => false
  end.

Lemma sbox_inverse x : byte_ok x ->
  exists y, rd s_muggle_aes_sbox x = Some y /\ byte_ok y /\ rd s_muggle_aes_inv_sbox y = Some x.
Proof.
  intros Hx; assert (sbox_entry_ok x = true) as H.
  { assert (forallb sbox_entry_ok (seqZ 0 256) = true) as Ha by (vm_compute; reflexivity).
    rewrite forallb_forall in Ha; apply Ha, list_elem_of_In, elem_of_seqZ; unfold byte_ok in Hx; lia. }
  unfold sbox_entry_ok in H; destruct (rd s_muggle_aes_sbox x) as [y|]; [|done].
  apply andb_true_iff in H as [[H1 H2]%andb_true_iff H3]; exists y; split; [done|].
  split; [unfold byte_ok; lia|].
  destruct (rd s_muggle_aes_inv_sbox y) as [z|]; [|done]; f_equal; lia.
Qed.

Lemma sub_bytes_undone : undone muggle_aes_sub_bytes muggle_aes_inv_sub_bytes.
Proof.
  intros s [Hl Hf].
  assert (exists ys, Forall2 (fun x y => rd s_muggle_aes_sbox x = Some y) s ys /\
    Forall byte_ok ys /\ Forall2 (fun y x => rd s_muggle_aes_inv_sbox y = Some x) ys s)
    as (ys & H1 & H2 & H3).
  { clear Hl; induction Hf as [|x s Hx _ (ys & H1 & H2 & H3)]; [by exists []|].
    destruct (sbox_inverse x Hx) as (y & Hy1 & Hy2 & Hy3); exists (y :: ys).
    split; [by constructor|]; split; by constructor. }
  pose proof (Forall2_length _ _ _ H1) as Hly; exists ys.
  unfold muggle_aes_sub_bytes, muggle_aes_inv_sub_bytes, sub_table.
  split; [rewrite <- Hl; by apply for_up_map|]; split; [split; [lia|done]|].
  replace 16%nat with (length ys) by lia; by apply for_up_map.
Qed.

(** *** Round keys *)

Lemma land_255_byte x : 0 <= x -> byte_ok (Z.land x 255).
Proof.
  intros Hx; change 255 with (Z.ones 8); rewrite Z.land_ones by lia.
  apply Z.mod_pos_bound; lia.
Qed.

Lemma add_round_key_undone key off :
  Forall (fun w => 0 <= w) key -> 0 <= off -> off + 4 <= Z.of_nat (length key) ->
  undone (fun s => muggle_aes_add_round_key s key off) (fun s => muggle_aes_add_round_key s key off).
Proof.
  intros Hk Ho Hl s Hs.
  assert (forall i, 0 <= i < 4 -> exists w, rd key (off + i) = Some w /\ 0 <= w) as Hw.
  { intros i Hi; destruct (rd_is_Some key (off + i)) as [w Hw]; [lia|]; exists w; split; [done|].
    unfold rd in Hw; rewrite decide_True in Hw by lia.
    rewrite Forall_forall in Hk; apply Hk; by eapply list_elem_of_lookup_2. }
  destruct (Hw 0 ltac:(lia)) as (w0 & E0 & P0); rewrite Z.add_0_r in E0.
  destruct (Hw 1 ltac:(lia)) as (w1 & E1 & P1), (Hw 2 ltac:(lia)) as (w2 & E2 & P2),
    (Hw 3 ltac:(lia)) as (w3 & E3 & P3).
  unfold muggle_aes_add_round_key; rewrite E0, E1, E2, E3; clear E0 E1 E2 E3 Hw.
  block16 s Hs; eexists; split; [reflexivity|]; split.
  - destruct Hs as [_ Hf]; split; [reflexivity|].
    rewrite !Forall_cons in Hf; destruct_and! Hf.
    repeat (constructor; [apply lxor_byte;
      [assumption|apply land_255_byte; rewrite ?Z.shiftr_nonneg; assumption]|]); constructor.
  - lazy -[Z.lxor Z.land Z.shiftr]; by rewrite !lxor_cancel.
Qed.

(** *** Multiplication in the field *)

Lemma xtime_byte b : byte_ok b -> byte_ok (xtime b).
Proof.
  intros Hb; unfold xtime.
  assert (byte_ok (u8 (Z.shiftl b 1))) by (unfold byte_ok, wrap; apply Z.mod_pos_bound; lia).
  destruct (_ =? 0); [done|]; apply lxor_byte; [done|unfold byte_ok; lia].
Qed.

Lemma land_128_bit b : (Z.land b 128 =? 0) = negb (Z.testbit b 7).
Proof.
  destruct (Z.testbit b 7) eqn:E; simpl.
  - apply Z.eqb_neq; intros H0.
    assert (Z.testbit (Z.land b 128) 7 = true) as H by (rewrite Z.land_spec, E; done).
    by rewrite H0 in H.
  - apply Z.eqb_eq, Z.bits_inj'; intros n Hn; rewrite Z.land_spec, Z.bits_0.
    destruct (Z.eq_dec n 7) as [->|Hne]; [by rewrite E|].
    change 128 with (2 ^ 7); rewrite Z.pow2_bits_false by done; apply andb_false_r.
Qed.

Lemma xtime_lxor x y : xtime (Z.lxor x y) = Z.lxor (xtime x) (xtime y).
Proof.
  unfold xtime; rewrite !land_128_bit, Z.lxor_spec.
  assert (Hu : forall z, u8 z = Z.land z (Z.ones 8))
    by (intros; unfold wrap; by rewrite Z.land_ones by lia).
  assert (u8 (Z.shiftl (Z.lxor x y) 1) = Z.lxor (u8 (Z.shiftl x 1)) (u8 (Z.shiftl y 1))) as ->.
  { rewrite !Hu, Z.shiftl_lxor; apply Z.bits_inj'; intros n _.
    rewrite !Z.land_spec, !Z.lxor_spec, !Z.land_spec; by destruct (Z.testbit (Z.ones 8) n);
      rewrite ?andb_true_r, ?andb_false_r. }
  destruct (Z.testbit x 7), (Z.testbit y 7); simpl; try done.
  - rewrite Z.lxor_assoc, (Z.lxor_comm 27), Z.lxor_assoc, Z.lxor_nilpotent; by rewrite Z.lxor_0_r.
  - by rewrite !Z.lxor_assoc, (Z.lxor_comm 27).
  - by rewrite !Z.lxor_assoc.
Qed.

Lemma lxor_4 a b c d : Z.lxor (Z.lxor a b) (Z.lxor c d) = Z.lxor (Z.lxor a c) (Z.lxor b d).
Proof.
  rewrite !Z.lxor_assoc; f_equal; rewrite <- !Z.lxor_assoc; f_equal; apply Z.lxor_comm.
Qed.

Lemma galois_loop_lxor fuel a b1 b2 r1 r2 :
  galois_loop fuel a (Z.lxor b1 b2) (Z.lxor r1 r2)
  = Z.lxor (galois_loop fuel a b1 r1) (galois_loop fuel a b2 r2).
Proof.
  revert a b1 b2 r1 r2; induction fuel as [|fuel IH]; intros a b1 b2 r1 r2; simpl; [done|].
  destruct (a =? 0); [done|]; rewrite xtime_lxor.
  destruct (Z.land a 1 =? 0); [apply IH|]; rewrite lxor_4; apply IH.
Qed.

(** [galois_mul] is linear in its second argument. *)
Lemma galois_mul_lxor a x y :
  galois_mul a (Z.lxor x y) = Z.lxor (galois_mul a x) (galois_mul a y).
Proof. apply (galois_loop_lxor 8 a x y 0 0). Qed.

(** Eight iterations end the loop: more change nothing. *)
Lemma galois_loop_fuel (w k : nat) a b r :
  0 <= a < 2 ^ Z.of_nat w -> galois_loop (w + k) a b r = galois_loop w a b r.
Proof.
  revert a b r; induction w as [|w IH]; intros a b r Ha.
  - assert (a = 0) as -> by (change (2 ^ Z.of_nat 0) with 1 in Ha; lia); by destruct k.
  - cbn [galois_loop Nat.add]; destruct (a =? 0); [done|]; apply IH.
    rewrite Nat2Z.inj_succ, Z.pow_succ_r in Ha by lia.
    rewrite Z.shiftr_div_pow2 by lia; change (2 ^ 1) with 2.
    split; [apply Z.div_pos; lia|apply Z.div_lt_upper_bound; lia].
Qed.

Lemma galois_loop_byte fuel a b r :
  byte_ok b -> byte_ok r -> byte_ok (galois_loop fuel a b r).
Proof.
  revert a b r; induction fuel as [|fuel IH]; intros a b r Hb Hr; simpl; [done|].
  destruct (a =? 0); [done|]; apply IH; [by apply xtime_byte|].
  destruct (_ =? 0); [done|by apply lxor_byte].
Qed.

Lemma galois_mul_byte a b : byte_ok b -> byte_ok (galois_mul a b).
Proof. intros; apply galois_loop_byte; [done|unfold byte_ok; lia]. Qed.

(** One column times one row of a coefficient matrix. *)
Definition row4 (c : Z * Z * Z * Z) (a0 a1 a2 a3 : Z) : Z :=
  let '(c0, c1, c2, c3) := c in
  Z.lxor (Z.lxor (Z.lxor (galois_mul c0 a0) (galois_mul c1 a1)) (galois_mul c2 a2))
         (galois_mul c3 a3).

Lemma row4_byte c a0 a1 a2 a3 :
  byte_ok a0 -> byte_ok a1 -> byte_ok a2 -> byte_ok a3 -> byte_ok (row4 c a0 a1 a2 a3).
Proof.
  destruct c as [[[c0 c1] c2] c3]; intros; simpl.
  repeat apply lxor_byte; by apply galois_mul_byte.
Qed.

(** The products of a row of the inverse matrix with the columns of the
    matrix: the identity, checked on all bytes. *)
Definition m_rows : list (Z * Z * Z * Z) := [(2, 3, 1, 1); (1, 2, 3, 1); (1, 1, 2, 3); (3, 1, 1, 2)].
Definition i_rows : list (Z * Z * Z * Z) :=
  [(14, 11, 13, 9); (9, 14, 11, 13); (13, 9, 14, 11); (11, 13, 9, 14)].

Definition identity_at (x : Z) : bool :=
  forallb (fun '(i, (d0, d1, d2, d3)) =>
    (row4 i (galois_mul 2 x) (galois_mul 1 x) (galois_mul 1 x) (galois_mul 3 x) =? d0 * x) &&
    (row4 i (galois_mul 3 x) (galois_mul 2 x) (galois_mul 1 x) (galois_mul 1 x) =? d1 * x) &&
    (row4 i (galois_mul 1 x) (galois_mul 3 x) (galois_mul 2 x) (galois_mul 1 x) =? d2 * x) &&
    (row4 i (galois_mul 1 x) (galois_mul 1 x) (galois_mul 3 x) (galois_mul 2 x) =? d3 * x))
    (zip i_rows [(1, 0, 0, 0); (0, 1, 0, 0); (0, 0, 1, 0); (0, 0, 0, 1)]).

Lemma identity_all x : byte_ok x -> identity_at x = true.
Proof.
  intros Hx; assert (forallb identity_at (seqZ 0 256) = true) as Ha by (vm_compute; reflexivity).
  rewrite forallb_forall in Ha; apply Ha, list_elem_of_In, elem_of_seqZ; unfold byte_ok in Hx; lia.
Qed.

(** Exchanging the two sums. *)
Lemma lxor_4x4 p00 p01 p02 p03 p10 p11 p12 p13 p20 p21 p22 p23 p30 p31 p32 p33 :
  Z.lxor (Z.lxor (Z.lxor
    (Z.lxor (Z.lxor (Z.lxor p00 p01) p02) p03) (Z.lxor (Z.lxor (Z.lxor p10 p11) p12) p13))
    (Z.lxor (Z.lxor (Z.lxor p20 p21) p22) p23)) (Z.lxor (Z.lxor (Z.lxor p30 p31) p32) p33) =
  Z.lxor (Z.lxor (Z.lxor
    (Z.lxor (Z.lxor (Z.lxor p00 p10) p20) p30) (Z.lxor (Z.lxor (Z.lxor p01 p11) p21) p31))
    (Z.lxor (Z.lxor (Z.lxor p02 p12) p22) p32)) (Z.lxor (Z.lxor (Z.lxor p03 p13) p23) p33).
Proof.
  apply Z.bits_inj'; intros n _; rewrite !Z.lxor_spec.
  generalize (Z.testbit p00 n) (Z.testbit p01 n) (Z.testbit p02 n) (Z.testbit p03 n)
    (Z.testbit p10 n) (Z.testbit p11 n) (Z.testbit p12 n) (Z.testbit p13 n)
    (Z.testbit p20 n) (Z.testbit p21 n) (Z.testbit p22 n) (Z.testbit p23 n)
    (Z.testbit p30 n) (Z.testbit p31 n) (Z.testbit p32 n) (Z.testbit p33 n).
  intros; btauto.
Qed.

Lemma row4_sums c x0 x1 x2 x3 y0 y1 y2 y3 z0 z1 z2 z3 w0 w1 w2 w3 :
  let s4 a b c d := Z.lxor (Z.lxor (Z.lxor a b) c) d in
  row4 c (s4 x0 x1 x2 x3) (s4 y0 y1 y2 y3) (s4 z0 z1 z2 z3) (s4 w0 w1 w2 w3)
  = s4 (row4 c x0 y0 z0 w0) (row4 c x1 y1 z1 w1) (row4 c x2 y2 z2 w2) (row4 c x3 y3 z3 w3).
Proof.
  destruct c as [[[c0 c1] c2] c3]; simpl; rewrite !galois_mul_lxor; apply lxor_4x4.
Qed.

(** The inverse matrix takes a mixed column back. *)
Lemma unmix a0 a1 a2 a3 :
  byte_ok a0 -> byte_ok a1 -> byte_ok a2 -> byte_ok a3 ->
  let b0 := row4 (2, 3, 1, 1) a0 a1 a2 a3 in
  let b1 := row4 (1, 2, 3, 1) a0 a1 a2 a3 in
  let b2 := row4 (1, 1, 2, 3) a0 a1 a2 a3 in
  let b3 := row4 (3, 1, 1, 2) a0 a1 a2 a3 in
  row4 (14, 11, 13, 9) b0 b1 b2 b3 = a0 /\ row4 (9, 14, 11, 13) b0 b1 b2 b3 = a1 /\
  row4 (13, 9, 14, 11) b0 b1 b2 b3 = a2 /\ row4 (11, 13, 9, 14) b0 b1 b2 b3 = a3.
Proof.
  intros H0 H1 H2 H3; apply identity_all in H0, H1, H2, H3.
  cbn [identity_at i_rows zip zip_with forallb] in H0, H1, H2, H3.
  rewrite !andb_true_iff, !Z.eqb_eq in H0, H1, H2, H3; destruct_and!.
  intros b0 b1 b2 b3.
  repeat match goal with |- _ /\ _ => split end;
    (etransitivity; [exact (row4_sums _ _ _ _ _ _ _ _ _ _ _ _ _ _ _ _ _) | cbv zeta]);
    repeat match goal with H : row4 _ _ _ _ _ = _ |- _ => rewrite H; clear H end;
    rewrite ?Z.mul_0_l, ?Z.mul_1_l, ?Z.lxor_0_l, ?Z.lxor_0_r; done.
Qed.


#[local] Arguments galois_mul : simpl never.

(** The product with a constant matrix, cell by cell. *)
Lemma mix_column_cells s0 s1 s2 s3 s4 s5 s6 s7 s8 s9 s10 s11 s12 s13 s14 s15 :
  let row c := [row4 c s0 s4 s8 s12; row4 c s1 s5 s9 s13; row4 c s2 s6 s10 s14; row4 c s3 s7 s11 s15] in
  let s := [s0; s1; s2; s3; s4; s5; s6; s7; s8; s9; s10; s11; s12; s13; s14; s15] in
  muggle_aes_mix_column s
  = Some (row (2, 3, 1, 1) ++ row (1, 2, 3, 1) ++ row (1, 1, 2, 3) ++ row (3, 1, 1, 2)) /\
  muggle_aes_inv_mix_column s
  = Some (row (14, 11, 13, 9) ++ row (9, 14, 11, 13) ++ row (13, 9, 14, 11) ++ row (11, 13, 9, 14)).
Proof. split; lazy -[galois_mul Z.lxor]; reflexivity. Qed.

Lemma mix_column_undone : undone muggle_aes_mix_column muggle_aes_inv_mix_column.
Proof.
  intros s Hs; block16 s Hs; destruct Hs as [_ Hf].
  rewrite !Forall_cons in Hf; destruct_and! Hf.
  rewrite (proj1 (mix_column_cells _ _ _ _ _ _ _ _ _ _ _ _ _ _ _ _)).
  eexists; split; [reflexivity|]; split.
  - split; [reflexivity|]; repeat (constructor; [by apply row4_byte|]); constructor.
  - cbn [app]; rewrite (proj2 (mix_column_cells _ _ _ _ _ _ _ _ _ _ _ _ _ _ _ _)).
    destruct (unmix s0 s4 s8 s12) as (-> & -> & -> & ->); [done..|].
    destruct (unmix s1 s5 s9 s13) as (-> & -> & -> & ->); [done..|].
    destruct (unmix s2 s6 s10 s14) as (-> & -> & -> & ->); [done..|].
    destruct (unmix s3 s7 s11 s15) as (-> & -> & -> & ->); [done..|].
    reflexivity.
Qed.

(** ** The two ciphers *)

Definition inv_call (c : aes_call) : aes_call :=
  match c with
  | AddRoundKey off => AddRoundKey off
  | SubBytes => InvSubBytes | InvSubBytes => SubBytes
  | ShiftRows => InvShiftRows | InvShiftRows => ShiftRows
  | MixColumn => InvMixColumn | InvMixColumn => MixColumn
  end.

(** The calls that occur in encryption, with the round key inside the key. *)
Definition forward (n : Z) (c : aes_call) : Prop :=
  match c with
  | AddRoundKey off => 0 <= off /\ off + 4 <= n
  | SubBytes | ShiftRows | MixColumn => True
  | _ => False
  end.

Lemma call_undone key c :
  Forall (fun w => 0 <= w) key -> forward (Z.of_nat (length key)) c ->
  undone (do_call key c) (do_call key (inv_call c)).
Proof.
  intros Hk Hc; destruct c; simpl in *; try done.
  - destruct Hc; by apply add_round_key_undone.
  - apply sub_bytes_undone.
  - apply shift_rows_undone.
  - apply mix_column_undone.
Qed.

Lemma do_calls_app key cs ds s :
  do_calls key (cs ++ ds) s = (do_calls key cs s ≫= do_calls key ds).
Proof.
  revert s; induction cs as [|c cs IH]; intros s; simpl; [done|].
  destruct (do_call key c s); simpl; auto.
Qed.

Lemma calls_undone key cs :
  Forall (fun w => 0 <= w) key -> Forall (forward (Z.of_nat (length key))) cs ->
  undone (do_calls key cs) (do_calls key (rev (map inv_call cs))).
Proof.
  intros Hk; induction 1 as [|c cs Hc _ IH]; intros s Hs; simpl.
  { by exists s. }
  destruct (call_undone key c Hk Hc s Hs) as (s1 & E1 & B1 & D1).
  destruct (IH s1 B1) as (s2 & E2 & B2 & D2).
  exists s2; rewrite E1; simpl; split; [done|]; split; [done|].
  rewrite do_calls_app, D2; simpl; by rewrite D1.
Qed.

(** Subkeys as [muggle_aes_set_key] leaves them: a known number of rounds and
    a round key for each. *)
Definition subkeys_ok (sk : muggle_aes_subkeys) : Prop :=
  rounds_valid (rounds sk) = true /\ Forall (fun w => 0 <= w) (rd_key sk) /\
  4 * (rounds sk + 1) <= Z.of_nat (length (rd_key sk)).

Lemma rounds_cases r : rounds_valid r = true -> r = 10 \/ r = 12 \/ r = 14.
Proof. unfold rounds_valid; intros H; lia. Qed.

(** Decryption makes the inverse calls in the opposite order. *)
Lemma decrypt_calls_rev r :
  rounds_valid r = true -> decrypt_calls r = rev (map inv_call (encrypt_calls r)).
Proof. intros [->|[->| ->]]%rounds_cases; reflexivity. Qed.

Lemma encrypt_calls_forward r n :
  rounds_valid r = true -> 4 * (r + 1) <= n -> Forall (forward n) (encrypt_calls r).
Proof.
  intros [->|[->| ->]]%rounds_cases Hn; simpl;
    repeat (constructor; [simpl; first [done|lia]|]); constructor.
Qed.

Lemma aes_state_undone sk :
  subkeys_ok sk ->
  undone (fun s => '(_, s) ← muggle_aes_encrypt s sk; Some s)
         (fun s => '(_, s) ← muggle_aes_decrypt s sk; Some s).
Proof.
  intros (Hr & Hk & Hl) s Hs.
  destruct (calls_undone (rd_key sk) (encrypt_calls (rounds sk)) Hk) with (s := s)
    as (s' & E & B & D); [by apply encrypt_calls_forward|done|].
  exists s'; unfold muggle_aes_encrypt, muggle_aes_decrypt; rewrite Hr; cbn [negb].
  rewrite E, decrypt_calls_rev, D by done; done.
Qed.

(** The portable block function, as the modes call it. *)
Abbreviation aes_block := (block_of muggle_aes_crypt).

Lemma gather_undone : undone (fun b => gather b state_layout) (fun b => gather b state_layout).
Proof.
  intros s Hs; block16 s Hs.
  exists [s0; s4; s8; s12; s1; s5; s9; s13; s2; s6; s10; s14; s3; s7; s11; s15].
  split; [reflexivity|]; split; [|reflexivity].
  destruct Hs as [_ Hf]; rewrite !Forall_cons in Hf; destruct_and! Hf.
  split; [reflexivity|]; repeat (constructor; [assumption|]); constructor.
Qed.

#[global] Instance aes_block_cipher sk :
  subkeys_ok sk -> BlockCipher 16 (aes_block MUGGLE_ENCRYPT sk) (aes_block MUGGLE_DECRYPT sk).
Proof.
  intros Hsk; split; [lia|]; intros b Hb.
  destruct (gather_undone b Hb) as (s & E1 & B1 & D1).
  destruct (aes_state_undone sk Hsk s B1) as (s' & E2 & B2 & D2).
  destruct (gather_undone s' B2) as (c & E3 & B3 & D3).
  exists c; unfold block_of, muggle_aes_crypt; rewrite E1, D3; simpl.
  destruct (muggle_aes_encrypt s sk) as [[r1 x1]|]; simpl in *; [|done].
  destruct (muggle_aes_decrypt s' sk) as [[r2 x2]|]; simpl in *; [|done].
  injection E2 as ->; injection D2 as ->; rewrite E3, D1; done.
Qed.

(** ** The modes over any block cipher *)

Ltac block_size E D :=
  change MUGGLE_AES_BLOCK_SIZE with 16; change (Z.of_nat 16) with 16 in E, D.

Section ModesCorrect.
Variable crypt : Z -> muggle_aes_subkeys -> list Z -> option (Z * list Z).
Variable key : muggle_aes_subkeys.
Context `{!BlockCipher 16 (block_of crypt MUGGLE_ENCRYPT key) (block_of crypt MUGGLE_DECRYPT key)}.

Let enc (mode : Z) := Some (ACTX MUGGLE_ENCRYPT mode key).
Let dec (mode : Z) := Some (ACTX MUGGLE_DECRYPT mode key).

Variable m : list Z.
Hypothesis m_bytes : Forall byte_ok m.
Hypothesis m_size : Z.of_nat (length m) < 2 ^ 32.
Let n := Z.of_nat (length m).

Lemma whole_16 : (16 | n) ->
  whole_blocks MUGGLE_AES_BLOCK_SIZE n = true /\
  exists q : nat, length m = (q * 16)%nat /\ n / MUGGLE_AES_BLOCK_SIZE = Z.of_nat q.
Proof.
  intros H; split; [apply (whole_blocks_spec 4); [lia|unfold in_width; lia|done]|].
  destruct H as [q Hq]; exists (Z.to_nat q); unfold MUGGLE_AES_BLOCK_SIZE.
  rewrite Hq, Z.div_mul by lia; lia.
Qed.

Lemma aes_ecb_roundtrip : (16 | n) -> exists c,
  muggle_aes_ecb crypt (enc MUGGLE_BLOCK_CIPHER_MODE_ECB) (Some m) n true = Some (inr c) /\
  length c = length m /\ Forall byte_ok c /\
  muggle_aes_ecb crypt (dec MUGGLE_BLOCK_CIPHER_MODE_ECB) (Some c) n true = Some (inr m).
Proof.
  intros H16; destruct (whole_16 H16) as (Hw & q & Hq & Hdiv).
  destruct (ecb_roundtrip 16 (block_of crypt MUGGLE_ENCRYPT key)
    (block_of crypt MUGGLE_DECRYPT key) q m Hq m_bytes) as (c & E & Hl & Hf & D); [lia|].
  exists c; unfold muggle_aes_ecb; simpl; rewrite Hw, Hdiv.
  block_size E D; by rewrite E, D.
Qed.

Lemma aes_cbc_roundtrip iv : (16 | n) -> is_block 16 iv -> exists iv' c,
  muggle_aes_cbc crypt (enc MUGGLE_BLOCK_CIPHER_MODE_CBC) (Some m) n (Some iv) true
  = Some (inr (iv', c)) /\ length c = length m /\ Forall byte_ok c /\
  muggle_aes_cbc crypt (dec MUGGLE_BLOCK_CIPHER_MODE_CBC) (Some c) n (Some iv) true
  = Some (inr (iv', m)).
Proof.
  intros H16 Hiv; destruct (whole_16 H16) as (Hw & q & Hq & Hdiv).
  destruct (cbc_roundtrip 16 (block_of crypt MUGGLE_ENCRYPT key)
    (block_of crypt MUGGLE_DECRYPT key) q m iv Hq m_bytes Hiv)
    as (iv' & c & E & _ & Hl & Hf & D); [lia|].
  exists iv', c; unfold muggle_aes_cbc; simpl; rewrite Hw, Hdiv.
  block_size E D; by rewrite E, D.
Qed.

Lemma enc_total b : is_block 16 b ->
  exists c, block_of crypt MUGGLE_ENCRYPT key b = Some c /\ is_block 16 c.
Proof. intros Hb; destruct (bc_inverse b Hb) as (c & E & Hc & _); eauto. Qed.

Lemma aes_cfb_roundtrip iv off : is_block 16 iv -> 0 <= off < 16 -> exists iv' off' c,
  muggle_aes_cfb128 crypt (enc MUGGLE_BLOCK_CIPHER_MODE_CFB) (Some m) n (Some iv) off true
  = Some (inr (iv', off', c)) /\ length c = length m /\ Forall byte_ok c /\
  muggle_aes_cfb128 crypt (dec MUGGLE_BLOCK_CIPHER_MODE_CFB) (Some c) n (Some iv) off true
  = Some (inr (iv', off', m)).
Proof.
  intros Hiv Ho.
  destruct (stream_roundtrip (iv_ok 16) _ _ (iv, off) m
    (cfb_step_inverse 16 4 _ ltac:(lia) eq_refl enc_total)) as ([iv' off'] & c & E & Hl & Hf & _ & D);
    [by split|done|].
  exists iv', off', c; unfold muggle_aes_cfb128; simpl.
  replace (off <? MUGGLE_AES_BLOCK_SIZE) with true by (unfold MUGGLE_AES_BLOCK_SIZE; lia).
  block_size E D; unfold n; by rewrite E, D.
Qed.

Lemma aes_ofb_roundtrip iv off : is_block 16 iv -> 0 <= off < 16 -> exists iv' off' c,
  muggle_aes_ofb128 crypt (enc MUGGLE_BLOCK_CIPHER_MODE_OFB) (Some m) n (Some iv) off true
  = Some (inr (iv', off', c)) /\ length c = length m /\ Forall byte_ok c /\
  muggle_aes_ofb128 crypt (dec MUGGLE_BLOCK_CIPHER_MODE_OFB) (Some c) n (Some iv) off true
  = Some (inr (iv', off', m)).
Proof.
  intros Hiv Ho.
  destruct (stream_roundtrip (iv_ok 16) _ _ (iv, off) m
    (ofb_step_inverse 16 4 _ ltac:(lia) eq_refl enc_total)) as ([iv' off'] & c & E & Hl & Hf & _ & D);
    [by split|done|].
  exists iv', off', c; unfold muggle_aes_ofb128; simpl.
  replace (off <? MUGGLE_AES_BLOCK_SIZE) with true by (unfold MUGGLE_AES_BLOCK_SIZE; lia).
  block_size E D; unfold n; by rewrite E, D.
Qed.

Lemma nonce_bytes_block nonce : is_block 16 (nonce_bytes nonce).
Proof.
  destruct (le_bytes_block 8 nonce.1) as [L1 F1], (le_bytes_block 8 nonce.2) as [L2 F2].
  unfold nonce_bytes; split; [rewrite length_app; lia|by apply Forall_app].
Qed.

Lemma aes_ctr_roundtrip nonce off stream :
  0 <= off < 16 -> is_block 16 stream -> exists nonce' off' stream' c,
  muggle_aes_ctr crypt (enc MUGGLE_BLOCK_CIPHER_MODE_CTR) (Some m) n nonce (Some off)
    (Some stream) true = Some (inr (nonce', off', stream', c)) /\
  length c = length m /\ Forall byte_ok c /\
  muggle_aes_ctr crypt (dec MUGGLE_BLOCK_CIPHER_MODE_CTR) (Some c) n nonce (Some off)
    (Some stream) true = Some (inr (nonce', off', stream', m)).
Proof.
  intros Ho Hst.
  destruct (stream_roundtrip (ctr_ok 16) _ _ (nonce, off, stream) m
    (ctr_step_inverse 16 4 _ ltac:(lia) eq_refl enc_total nonce_next nonce_bytes nonce_bytes_block))
    as ([[nonce' off'] st'] & c & E & Hl & Hf & _ & D); [by split|done|].
  exists nonce', off', st', c; unfold muggle_aes_ctr; simpl.
  replace (off <? MUGGLE_AES_BLOCK_SIZE) with true by (unfold MUGGLE_AES_BLOCK_SIZE; lia).
  block_size E D; unfold n; by rewrite E, D.
Qed.
End ModesCorrect.

(** With a known number of rounds the block function returns 0. *)
Lemma aes_crypt_returns op key b out :
  op_valid op = true -> subkeys_ok key -> aes_block op key b = Some out ->
  muggle_aes_crypt op key b = Some (0, out).
Proof.
  unfold op_valid, block_of, muggle_aes_crypt, muggle_aes_encrypt, muggle_aes_decrypt.
  intros Hop [-> _]; destruct (gather b _) as [s|]; cbn [mbind option_bind negb]; [|done].
  destruct (op =? MUGGLE_ENCRYPT), (op =? MUGGLE_DECRYPT); try done;
    destruct (do_calls _ _ s) as [s'|]; cbn [mbind option_bind]; try done;
    destruct (gather s' _); cbn [mbind option_bind]; intros E; simplify_eq; done.
Qed.

(** Rejected exactly on a bad argument, and never after a write. *)
Lemma aes_cbc_rejects crypt ctx input n iv output :
  in_width 32 n ->
  (exists e, muggle_aes_cbc crypt ctx input n iv output = Some (inl e)) <->
  input = None \/ iv = None \/ output = false \/ ~ (16 | n) \/
  (forall c, ctx = Some c -> mode c <> MUGGLE_BLOCK_CIPHER_MODE_CBC \/ op_valid (op c) = false).
Proof.
  intros Hn; unfold muggle_aes_cbc; pose proof (whole_blocks_spec 4 n ltac:(lia) Hn) as Hw.
  change (2 ^ 4) with MUGGLE_AES_BLOCK_SIZE in Hw.
  change 16 with MUGGLE_AES_BLOCK_SIZE; rewrite <- Hw; clear Hw Hn.
  destruct ctx as [c|]; [|split; [intros _; do 4 right; done|intros _; by eexists]].
  assert (Hc : (forall c', Some c = Some c' -> mode c' <> MUGGLE_BLOCK_CIPHER_MODE_CBC \/
    op_valid (op c') = false) <-> mode c <> MUGGLE_BLOCK_CIPHER_MODE_CBC \/ op_valid (op c) = false)
    by (split; [intros H; by apply H|intros H c' E; by injection E as <-]).
  rewrite Hc; clear Hc; rewrite <- Z.eqb_neq.
  destruct (mode c =? _); [|split; [auto 10|intros _; by eexists]].
  destruct input as [input|]; [|split; [auto|intros _; by eexists]].
  destruct (whole_blocks _ n); [|split; [auto|intros _; by eexists]].
  destruct iv as [iv|]; [|split; [auto|intros _; by eexists]].
  destruct output; [|split; [auto|intros _; by eexists]].
  destruct (op_valid (op c)); [|split; [auto 10|intros _; by eexists]].
  destruct (cbc_loop _ _ _ _ _ _); split; intros H; [by destruct H|by destruct_or! H|by destruct H|by destruct_or! H].
Qed.

(** ** The example of FIPS-197, appendix B *)

Definition fips_key : muggle_aes_subkeys := ASK
  [729683222; 682545830; 2885096840; 164581180;
   2700803607; 2287217841; 597899577; 711751173;
   4072838642; 2056698179; 1496678522; 1935275647;
   1031817085; 1192689214; 505642564; 1836746811;
   4014253377; 2823969663; 3060868411; 3674975488;
   3570517752; 2089000327; 3404904636; 301536700;
   1837671290; 285949693; 3690563137; 3389035517;
   1314191118; 1600113139; 2225491890; 1319558223;
   3939660577; 3045964498; 824964448; 2139957551;
   2893506291; 435870753; 684796225; 1465647214;
   3491035560; 3387827593; 3779005640; 3059944614;
   0; 0; 0; 0; 0; 0; 0; 0; 0; 0; 0; 0; 0; 0; 0; 0] 10.

Definition fips_input : list Z :=
  [50; 67; 246; 168; 136; 90; 48; 141; 49; 49; 152; 162; 224; 55; 7; 52].

Example fips_output :
  muggle_aes_crypt MUGGLE_ENCRYPT fips_key fips_input =
  Some (0, [57; 37; 132; 29; 2; 220; 9; 251; 220; 17; 133; 151; 25; 106; 11; 50]).
Proof. vm_compute; reflexivity. Qed.

Lemma fips_key_ok : subkeys_ok fips_key.
Proof. split; [reflexivity|]; split; [|simpl; lia]; repeat (constructor; [lia|]); constructor. Qed.

(** ** Properties *)

(** The portable AES is a block cipher: for every key schedule of 10, 12
    or 14 rounds and every block of 16 bytes, [muggle_aes_crypt] encrypts
    without a fault and returns 0, and decrypting the result with the same
    schedule gives the block back. *)
Theorem aes_block_roundtrip (sk : muggle_aes_subkeys) (b : list Z)
    (Hsk : subkeys_ok sk) (Hb : is_block 16 b) :
  exists c, muggle_aes_crypt MUGGLE_ENCRYPT sk b = Some (0, c) /\ is_block 16 c /\
    muggle_aes_crypt MUGGLE_DECRYPT sk c = Some (0, b).
Proof.
  destruct (bc_inverse (BlockCipher := aes_block_cipher sk Hsk) b Hb) as (c & E & Hc & D).
  exists c; split; [by apply aes_crypt_returns|split; [done|by apply aes_crypt_returns]].
Qed.

(** The five modes round-trip.  With the portable block function, any key
    schedule, any message of fewer than 2^32 bytes (a whole number of blocks
    for ECB and CBC), any IV, offset, nonce and stream block: encryption
    succeeds with an output as long as the message, decryption of it from the
    same IV or nonce gives the message, and both directions leave the same
    chaining state behind, so a message can be processed in pieces. *)
Theorem aes_modes_roundtrip (sk : muggle_aes_subkeys) (m iv stream : list Z) (off : Z)
    (nonce : Z * Z) (Hsk : subkeys_ok sk) (Hm : Forall byte_ok m)
    (Hsize : Z.of_nat (length m) < 2 ^ 32) (Hiv : is_block 16 iv) (Hst : is_block 16 stream)
    (Ho : 0 <= off < 16) :
  let n := Z.of_nat (length m) in
  let enc mode := Some (ACTX MUGGLE_ENCRYPT mode sk) in
  let dec mode := Some (ACTX MUGGLE_DECRYPT mode sk) in
  let f := muggle_aes_crypt in
  let ECB := MUGGLE_BLOCK_CIPHER_MODE_ECB in let CBC := MUGGLE_BLOCK_CIPHER_MODE_CBC in
  let CFB := MUGGLE_BLOCK_CIPHER_MODE_CFB in let OFB := MUGGLE_BLOCK_CIPHER_MODE_OFB in
  let CTR := MUGGLE_BLOCK_CIPHER_MODE_CTR in
  ((16 | n) -> exists c, muggle_aes_ecb f (enc ECB) (Some m) n true = Some (inr c) /\
     length c = length m /\ Forall byte_ok c /\
     muggle_aes_ecb f (dec ECB) (Some c) n true = Some (inr m)) /\
  ((16 | n) -> exists iv' c,
     muggle_aes_cbc f (enc CBC) (Some m) n (Some iv) true = Some (inr (iv', c)) /\
     length c = length m /\ Forall byte_ok c /\
     muggle_aes_cbc f (dec CBC) (Some c) n (Some iv) true = Some (inr (iv', m))) /\
  (exists iv' off' c,
     muggle_aes_cfb128 f (enc CFB) (Some m) n (Some iv) off true = Some (inr (iv', off', c)) /\
     length c = length m /\ Forall byte_ok c /\
     muggle_aes_cfb128 f (dec CFB) (Some c) n (Some iv) off true = Some (inr (iv', off', m))) /\
  (exists iv' off' c,
     muggle_aes_ofb128 f (enc OFB) (Some m) n (Some iv) off true = Some (inr (iv', off', c)) /\
     length c = length m /\ Forall byte_ok c /\
     muggle_aes_ofb128 f (dec OFB) (Some c) n (Some iv) off true = Some (inr (iv', off', m))) /\
  (exists nonce' off' st' c,
     muggle_aes_ctr f (enc CTR) (Some m) n nonce (Some off) (Some stream) true
     = Some (inr (nonce', off', st', c)) /\
     length c = length m /\ Forall byte_ok c /\
     muggle_aes_ctr f (dec CTR) (Some c) n nonce (Some off) (Some stream) true
     = Some (inr (nonce', off', st', m))).
Proof.
  pose proof (aes_block_cipher sk Hsk) as HBC; intros n enc dec f ECB CBC CFB OFB CTR.
  split; [intros H; by apply aes_ecb_roundtrip|].
  split; [intros H; by apply aes_cbc_roundtrip|].
  split; [by apply aes_cfb_roundtrip|].
  split; [by apply aes_ofb_roundtrip|by apply aes_ctr_roundtrip].
Qed.

(** [muggle_aes_cbc] rejects a call, before writing anything, exactly
    when an argument is [NULL], the context is for another mode or has an
    invalid operation, or the length is not a whole number of blocks; this
    includes the lengths for which the rounding up of [num_bytes] overflows. *)
Theorem aes_cbc_argument_checks (crypt : Z -> muggle_aes_subkeys -> list Z -> option (Z * list Z))
    (ctx : muggle_aes_context) (input iv : list Z) (n : Z) (Hn : in_width 32 n) :
  ((exists e, muggle_aes_cbc crypt (Some ctx) (Some input) n (Some iv) true = Some (inl e)) <->
   ~ (16 | n) \/ mode ctx <> MUGGLE_BLOCK_CIPHER_MODE_CBC \/ op_valid (op ctx) = false) /\
  (forall input iv output, exists e, muggle_aes_cbc crypt None input n iv output = Some (inl e)) /\
  (forall ctx iv output, exists e, muggle_aes_cbc crypt ctx None n iv output = Some (inl e)) /\
  (forall ctx input output, exists e, muggle_aes_cbc crypt ctx input n None output = Some (inl e)) /\
  (forall ctx input iv, exists e, muggle_aes_cbc crypt ctx input n iv false = Some (inl e)).
Proof.
  split; [rewrite aes_cbc_rejects by done; split|].
  - intros [?|[?|[?|[?|H]]]]; try done; [by left|right; by apply H].
  - intros [H|H]; [by do 3 right; left|do 4 right; intros c E; by injection E as <-].
  - repeat split; intros; apply aes_cbc_rejects; try done; auto; do 4 right; done.
Qed.

(** The hypotheses hold of the key and the input of the standard. *)
Lemma aes_block_roundtrip_witness :
  exists c, muggle_aes_crypt MUGGLE_ENCRYPT fips_key fips_input = Some (0, c) /\ is_block 16 c /\
    muggle_aes_crypt MUGGLE_DECRYPT fips_key c = Some (0, fips_input).
Proof.
  apply (aes_block_roundtrip fips_key fips_input); [apply fips_key_ok|].
  split; [reflexivity|]; repeat (constructor; [unfold byte_ok; lia|]); constructor.
Defined.

Lemma aes_modes_roundtrip_witness :
  exists c,
    muggle_aes_ecb muggle_aes_crypt
      (Some (ACTX MUGGLE_ENCRYPT MUGGLE_BLOCK_CIPHER_MODE_ECB fips_key)) (Some fips_input) 16 true
    = Some (inr c) /\ length c = 16%nat /\ Forall byte_ok c /\
    muggle_aes_ecb muggle_aes_crypt
      (Some (ACTX MUGGLE_DECRYPT MUGGLE_BLOCK_CIPHER_MODE_ECB fips_key)) (Some c) 16 true
    = Some (inr fips_input).
Proof.
  assert (is_block 16 fips_input) as Hb.
  { split; [reflexivity|]; repeat (constructor; [unfold byte_ok; lia|]); constructor. }
  apply (aes_modes_roundtrip fips_key fips_input fips_input fips_input 3 (0, 0));
    [apply fips_key_ok|apply Hb|simpl; lia|exact Hb|exact Hb|lia|by exists 1].
Defined.

Lemma aes_cbc_argument_checks_witness :
  exists e, muggle_aes_cbc muggle_aes_crypt
    (Some (ACTX MUGGLE_ENCRYPT MUGGLE_BLOCK_CIPHER_MODE_CBC fips_key)) (Some fips_input)
    (2 ^ 32 - 1) (Some fips_input) true = Some (inl e).
Proof.
  apply (aes_cbc_argument_checks muggle_aes_crypt
    (ACTX MUGGLE_ENCRYPT MUGGLE_BLOCK_CIPHER_MODE_CBC fips_key) fips_input fips_input (2 ^ 32 - 1)).
  - unfold in_width; lia.
  - left; intros [q Hq]; lia.
Defined.
