(* ===== verification/Lanes.v ===== *)
(** * Bytes in parallel in a machine word

    [crypt/openssl/openssl_aes.c] computes the substitution of AES on all
    bytes of a word at once, by straight-line code of masks, shifts and bit
    operations.  Here is a language for such code, with its meaning on a word
    of [n] bytes, and an analysis that finds out that no shift carries a bit
    that matters from one byte into another: then running the code on the word
    is running it on each byte ([exec_lanes]).

    The expressions are those of C on an unsigned type of [8 * n] bits; [EK m]
    is the constant that has the byte [m] in every position (so that one
    program stands for the 32-bit and the 64-bit function, which differ in
    the width of the constants only). *)
From S2P Require Import Prelude Utils Modes.

Inductive expr :=
| EV (x : nat)
| EK (m : Z)
| EAnd (a b : expr) | EOr (a b : expr) | EXor (a b : expr)
| EShl (a : expr) (s : Z) | EShr (a : expr) (s : Z)
| ESub (a b : expr).

Coercion EV : nat >-> expr.

Declare Custom Entry word.
Notation "<{ e }>" := e (e custom word at level 99).
Notation "( x )" := x (in custom word, x at level 99).
Notation "x" := x (in custom word at level 0, x constr at level 0).
Notation "a & b" := (EAnd a b) (in custom word at level 50, left associativity).
Notation "a ^ b" := (EXor a b) (in custom word at level 51, left associativity).
Notation "a | b" := (EOr a b) (in custom word at level 52, left associativity).
Notation "a << s" := (EShl a s) (in custom word at level 49, s constr at level 0, left associativity).
Notation "a >> s" := (EShr a s) (in custom word at level 49, s constr at level 0, left associativity).

Notation "a - b" := (ESub a b) (in custom word at level 48, left associativity).
Notation "# m" := (EK m) (in custom word at level 0, m constr at level 0).

(** An assignment to a variable; a program is a list of them. *)
Definition stmt : Type := nat * expr.

Notation "x ::= e" := (@pair nat expr x e) (at level 80, e custom word at level 99).
Notation "x &= e" := (@pair nat expr x (EAnd (EV x) e)) (at level 80, e custom word at level 99).
Notation "x ^= e" := (@pair nat expr x (EXor (EV x) e)) (at level 80, e custom word at level 99).
Notation "x |= e" := (@pair nat expr x (EOr (EV x) e)) (at level 80, e custom word at level 99).
Notation "x -= e" := (@pair nat expr x (ESub (EV x) e)) (at level 80, e custom word at level 99).

Definition rep (n : nat) (m : Z) : Z := of_le (replicate n m).

Definition env (A : Type) : Type := nat -> A.
Definition upd {A} (e : env A) (x : nat) (v : A) : env A := fun y => if (y =? x)%nat then v else e y.

Fixpoint eval (n : nat) (e : env Z) (t : expr) : Z :=
  match t with
  | EV x => e x
  | EK m => rep n m
  | EAnd a b => Z.land (eval n e a) (eval n e b)
  | EOr a b => Z.lor (eval n e a) (eval n e b)
  | EXor a b => Z.lxor (eval n e a) (eval n e b)
  | EShl a s => wrap (8 * Z.of_nat n) (Z.shiftl (eval n e a) s)
  | EShr a s => Z.shiftr (eval n e a) s
  | ESub a b => wrap (8 * Z.of_nat n) (eval n e a - eval n e b)
  end.

Fixpoint exec (n : nat) (e : env Z) (p : list stmt) : env Z :=
  match p with
  | [] => e
  | (x, t) :: p => exec n (upd e x (eval n e t)) p
  end.

(** Variable 0 is the input and the output. *)
Definition run (n : nat) (p : list stmt) (x : Z) : Z :=
  exec n (fun y => if (y =? 0)%nat then x else 0) p 0%nat.

(** ** The analysis

    For each of the 8 bit positions of a byte: is the bit of the word the bit
    that running on the single byte gives ([good]), and is it zero in every
    byte of the word ([zero]). *)
Record info := IN { good : list bool; zero : list bool }.

Definition bit (l : list bool) (j : Z) : bool := nth (Z.to_nat j) l false.
Definition tab (f : Z -> bool) : list bool := map f (seqZ 0 8).

Definition a_const (m : Z) : info := IN (tab (fun _ => true)) (tab (fun j => negb (Z.testbit m j))).
Definition a_and (a b : info) : info :=
  IN (tab (fun j => bit (good a) j && bit (good b) j || bit (zero a) j || bit (zero b) j))
     (tab (fun j => bit (zero a) j || bit (zero b) j)).
Definition a_or (a b : info) : info :=
  IN (tab (fun j => bit (good a) j && bit (good b) j)) (tab (fun j => bit (zero a) j && bit (zero b) j)).
Definition a_shl (a : info) (s : Z) : info :=
  IN (tab (fun j => if s <=? j then bit (good a) (j - s) else bit (zero a) (j - s + 8)))
     (tab (fun j => if s <=? j then bit (zero a) (j - s) else bit (zero a) (j - s + 8))).
Definition a_shr (a : info) (s : Z) : info :=
  IN (tab (fun j => if j + s <? 8 then bit (good a) (j + s) else bit (zero a) (j + s - 8)))
     (tab (fun j => if j + s <? 8 then bit (zero a) (j + s) else bit (zero a) (j + s - 8))).

(** [x - (x >> 7)], when only the bits 7 of [x] can be set: they are copied to
    the seven bits below. *)
Definition a_fill (a : info) : info :=
  IN (tab (fun j => if j <? 7 then bit (good a) 7 else true))
     (tab (fun j => if j <? 7 then bit (zero a) 7 else true)).

(** Shifts are by less than a byte, constants are bytes; the only difference
    that is understood is the one above. *)
Fixpoint analyse (e : env info) (t : expr) : option info :=
  match t with
  | EV x => Some (e x)
  | EK m => if (0 <=? m) && (m <? 256) then Some (a_const m) else None
  | EAnd a b => i ← analyse e a; j ← analyse e b; Some (a_and i j)
  | EOr a b => i ← analyse e a; j ← analyse e b; Some (a_or i j)
  | EXor a b => i ← analyse e a; j ← analyse e b; Some (a_or i j)
  | EShl a s => if (0 <=? s) && (s <? 8) then i ← analyse e a; Some (a_shl i s) else None
  | EShr a s => if (0 <=? s) && (s <? 8) then i ← analyse e a; Some (a_shr i s) else None
  | ESub (EV x) (EShr (EV y) s) =>
      if (x =? y)%nat && (s =? 7) && forallb (bit (zero (e x))) (seqZ 0 7)
      then Some (a_fill (e x)) else None
  | ESub _ _ => None
  end.

Fixpoint analyse_prog (e : env info) (p : list stmt) : option (env info) :=
  match p with
  | [] => Some e
  | (x, t) :: p => i ← analyse e t; analyse_prog (upd e x i) p
  end.

Definition lanes_ok (p : list stmt) : bool :=
  match analyse_prog (fun y => if (y =? 0)%nat then IN (tab (fun _ => true)) (tab (fun _ => false))
                               else a_const 0) p with
  | Some e => forallb (bit (good (e 0%nat))) (seqZ 0 8)
  | None => false
  end.

(** ** Bits of a word and of its bytes *)

Lemma bit_tab f j : 0 <= j < 8 -> bit (tab f) j = f j.
Proof.
  intros Hj; unfold bit, tab.
  assert (j = 0 \/ j = 1 \/ j = 2 \/ j = 3 \/ j = 4 \/ j = 5 \/ j = 6 \/ j = 7) as H by lia.
  by destruct_or! H; subst.
Qed.

Lemma of_le_bit bs k j : Forall byte_ok bs -> 0 <= k -> 0 <= j < 8 ->
  Z.testbit (of_le bs) (8 * k + j) = Z.testbit (nth (Z.to_nat k) bs 0) j.
Proof.
  intros Hb; revert k; induction Hb as [|b bs Hb _ IH]; intros k Hk Hj; cbn [of_le].
  { rewrite Z.testbit_0_l; by destruct (Z.to_nat k); simpl; rewrite Z.testbit_0_l. }
  unfold byte_ok in Hb; change 256 with (2 ^ 8).
  destruct (Z.eq_dec k 0) as [->|Hk0].
  - rewrite Z.add_0_l; simpl nth.
    rewrite <- (Z.mod_pow2_bits_low (b + 2 ^ 8 * of_le bs) 8) by lia.
    by rewrite (Z.mul_comm (2 ^ 8)), Z.mod_add, Z.mod_small by lia.
  - replace (Z.to_nat k) with (S (Z.to_nat (k - 1))) by lia; cbn [nth].
    rewrite <- IH by lia; replace (8 * k + j) with (8 * (k - 1) + j + 8) by lia.
    rewrite <- Z.div_pow2_bits by lia.
    by rewrite (Z.mul_comm (2 ^ 8)), Z.div_add, Z.div_small, Z.add_0_l by lia.
Qed.

Lemma rep_bit n m k j : 0 <= m < 256 -> 0 <= k < Z.of_nat n -> 0 <= j < 8 ->
  Z.testbit (rep n m) (8 * k + j) = Z.testbit m j.
Proof.
  intros Hm Hk Hj; unfold rep; rewrite of_le_bit by (try apply Forall_replicate; unfold byte_ok; lia).
  by rewrite nth_lookup, lookup_replicate_2 by lia.
Qed.

Lemma rep_width n m : 0 <= m < 256 -> in_width (8 * Z.of_nat n) (rep n m).
Proof.
  intros Hm; assert (Forall byte_ok (replicate n m)) as Hf by (apply Forall_replicate; exact Hm).
  pose proof (of_le_bound _ Hf) as H; rewrite length_replicate in H; unfold in_width, rep.
  by rewrite Z.pow_mul_r by lia.
Qed.

(** The byte [k] of a word. *)
Lemma le_bytes_bit n w k j : (k < n)%nat -> 0 <= j < 8 ->
  Z.testbit (nth k (le_bytes n w) 0) j = Z.testbit w (8 * Z.of_nat k + j).
Proof.
  revert w k; induction n as [|n IH]; intros w k Hk Hj; [lia|]; cbn [le_bytes].
  destruct k as [|k]; cbn [nth].
  - change 256 with (2 ^ 8); rewrite Z.mod_pow2_bits_low by lia; f_equal; lia.
  - rewrite IH by lia; change 256 with (2 ^ 8); rewrite Z.div_pow2_bits by lia; f_equal; lia.
Qed.

(** ** Soundness of the analysis

    [lane n k i w b]: the byte [k] of the word [w] against the byte [b] that
    the code computes from one byte alone. *)
Record lane (n k : nat) (i : info) (w b : Z) : Prop := {
  lane_w : in_width (8 * Z.of_nat n) w;
  lane_b : in_width 8 b;
  lane_good : forall j, 0 <= j < 8 -> bit (good i) j = true ->
    Z.testbit w (8 * Z.of_nat k + j) = Z.testbit b j;
  lane_zero : forall j, 0 <= j < 8 -> bit (zero i) j = true ->
    Z.testbit b j = false /\ forall k', 0 <= k' < Z.of_nat n -> Z.testbit w (8 * k' + j) = false
}.

Lemma in_width_land w x y : 0 <= w -> in_width w x -> in_width w y -> in_width w (Z.land x y).
Proof.
  intros Hw Hx Hy; assert (0 <= Z.land x y) by (apply Z.land_nonneg; left; apply Hx).
  split; [done|]; apply lt_pow2_of_bits; [done..|].
  intros i Hi; by rewrite Z.land_spec, (bits_above x w).
Qed.

Lemma in_width_lor w x y : 0 <= w -> in_width w x -> in_width w y -> in_width w (Z.lor x y).
Proof.
  intros Hw Hx Hy; assert (0 <= Z.lor x y) by (apply Z.lor_nonneg; split; [apply Hx|apply Hy]).
  split; [done|]; apply lt_pow2_of_bits; [done..|].
  intros i Hi; by rewrite Z.lor_spec, (bits_above x w), (bits_above y w).
Qed.

Lemma in_width_lxor w x y : 0 <= w -> in_width w x -> in_width w y -> in_width w (Z.lxor x y).
Proof.
  intros Hw Hx Hy; assert (0 <= Z.lxor x y).
  { apply Z.lxor_nonneg; split; intros _; [apply Hy|apply Hx]. }
  split; [done|]; apply lt_pow2_of_bits; [done..|].
  intros i Hi; by rewrite Z.lxor_spec, (bits_above x w), (bits_above y w).
Qed.

Lemma in_width_shiftr w x s : 0 <= s -> in_width w x -> in_width w (Z.shiftr x s).
Proof.
  intros Hs [H1 H2]; split; [by apply Z.shiftr_nonneg|].
  rewrite Z.shiftr_div_pow2 by done; eapply Z.le_lt_trans; [|exact H2].
  assert (0 < 2 ^ s) by lia; apply Z.div_le_upper_bound; [lia|]; nia.
Qed.

#[export] Hint Resolve in_width_land in_width_lor in_width_lxor : muggle.

(** A byte is the byte with the same bits. *)
Lemma byte_ext a b : in_width 8 a -> in_width 8 b ->
  (forall j, 0 <= j < 8 -> Z.testbit a j = Z.testbit b j) -> a = b.
Proof.
  intros Ha Hb H; apply Z.bits_inj'; intros j Hj; destruct (decide (j < 8)); [apply H; lia|].
  rewrite !(bits_above _ 8); try done; lia.
Qed.

Section Soundness.
Context (n k : nat) (Hk : (k < n)%nat).

Lemma lane_const m : 0 <= m < 256 -> lane n k (a_const m) (rep n m) (rep 1 m).
Proof.
  intros Hm; assert (rep 1 m = m) as E by (unfold rep; simpl; lia); rewrite E; split.
  - by apply rep_width.
  - exact Hm.
  - intros j Hj _; apply rep_bit; lia.
  - intros j Hj; unfold a_const; cbn [zero]; rewrite bit_tab by done; intros H%negb_true_iff.
    split; [done|]; intros k' Hk'; by rewrite rep_bit.
Qed.

Ltac lane_split Hx Hy :=
  destruct Hx as [WX BX GX ZX], Hy as [WY BY GY ZY]; split; [auto with muggle zarith..| |].

Lemma lane_and i j x y a b :
  lane n k i x a -> lane n k j y b -> lane n k (a_and i j) (Z.land x y) (Z.land a b).
Proof.
  intros Hx Hy; lane_split Hx Hy; intros p Hp; cbn [a_and good zero]; rewrite bit_tab by done.
  - rewrite !Z.land_spec; intros H; rewrite !orb_true_iff, andb_true_iff in H.
    destruct H as [[[H1 H2]|H]|H]; [by rewrite GX, GY| |].
    + destruct (ZX p Hp H) as [-> E]; by rewrite E by lia.
    + destruct (ZY p Hp H) as [-> E]; by rewrite E, !andb_false_r by lia.
  - intros H; rewrite Z.land_spec; apply orb_true_iff in H as [H|H].
    + destruct (ZX p Hp H) as [-> E]; split; [done|]; intros; by rewrite Z.land_spec, E.
    + destruct (ZY p Hp H) as [-> E]; split; [by rewrite andb_false_r|].
      intros; by rewrite Z.land_spec, E, andb_false_r.
Qed.

Lemma lane_or i j x y a b :
  lane n k i x a -> lane n k j y b -> lane n k (a_or i j) (Z.lor x y) (Z.lor a b).
Proof.
  intros Hx Hy; lane_split Hx Hy; intros p Hp; cbn [a_or good zero]; rewrite bit_tab by done;
    intros [H1 H2]%andb_true_iff.
  - by rewrite !Z.lor_spec, GX, GY.
  - destruct (ZX p Hp H1) as [E1 E2], (ZY p Hp H2) as [E3 E4].
    rewrite Z.lor_spec, E1, E3; split; [done|]; intros; by rewrite Z.lor_spec, E2, E4.
Qed.

Lemma lane_xor i j x y a b :
  lane n k i x a -> lane n k j y b -> lane n k (a_or i j) (Z.lxor x y) (Z.lxor a b).
Proof.
  intros Hx Hy; lane_split Hx Hy; intros p Hp; cbn [a_or good zero]; rewrite bit_tab by done;
    intros [H1 H2]%andb_true_iff.
  - by rewrite !Z.lxor_spec, GX, GY.
  - destruct (ZX p Hp H1) as [E1 E2], (ZY p Hp H2) as [E3 E4].
    rewrite Z.lxor_spec, E1, E3; split; [done|]; intros; by rewrite Z.lxor_spec, E2, E4.
Qed.

(** A bit of a shifted word: from the same byte or from a neighbour. *)
Lemma shl_bit m x s k' j : 0 <= s < 8 -> 0 <= j < 8 -> 0 <= k' < m ->
  Z.testbit (wrap (8 * m) (Z.shiftl x s)) (8 * k' + j)
  = if s <=? j then Z.testbit x (8 * k' + (j - s)) else Z.testbit x (8 * (k' - 1) + (j - s + 8)).
Proof.
  intros; unfold wrap; rewrite Z.mod_pow2_bits_low, Z.shiftl_spec by lia.
  destruct (s <=? j); f_equal; lia.
Qed.

Lemma shr_bit x s k' j : 0 <= s < 8 -> 0 <= j < 8 -> 0 <= k' ->
  Z.testbit (Z.shiftr x s) (8 * k' + j)
  = if j + s <? 8 then Z.testbit x (8 * k' + (j + s)) else Z.testbit x (8 * (k' + 1) + (j + s - 8)).
Proof.
  intros; rewrite Z.shiftr_spec by lia; destruct (j + s <? 8); f_equal; lia.
Qed.

Lemma lane_shl i x a s :
  0 <= s < 8 -> lane n k i x a ->
  lane n k (a_shl i s) (wrap (8 * Z.of_nat n) (Z.shiftl x s)) (wrap (8 * Z.of_nat 1) (Z.shiftl a s)).
Proof.
  intros Hs [WX BX GX ZX].
  assert (Hb : forall j, 0 <= j < 8 -> Z.testbit (wrap (8 * Z.of_nat 1) (Z.shiftl a s)) j
    = if s <=? j then Z.testbit a (j - s) else false).
  { intros j Hj; change j with (8 * 0 + j) at 1; rewrite shl_bit by lia.
    destruct (s <=? j) eqn:E; [done|apply Z.testbit_neg_r; lia]. }
  split; [apply wrap_range; lia|apply (wrap_range 8); lia| |];
    intros j Hj; cbn [a_shl good zero]; rewrite bit_tab by done; rewrite Hb by done;
    [rewrite shl_bit by lia|]; intros H; destruct (s <=? j) eqn:E.
  - apply GX; [lia|done].
  - destruct (Nat.eq_dec k 0) as [->|]; [apply Z.testbit_neg_r; lia|].
    apply ZX; [lia|done|lia].
  - destruct (ZX (j - s) ltac:(lia) H) as [-> E2]; split; [done|]; intros k' Hk'.
    rewrite shl_bit, E by lia; by apply E2.
  - destruct (ZX (j - s + 8) ltac:(lia) H) as [_ E2]; split; [done|]; intros k' Hk'.
    rewrite shl_bit, E by lia; destruct (Z.eq_dec k' 0) as [->|]; [apply Z.testbit_neg_r; lia|].
    apply E2; lia.
Qed.

Lemma lane_shr i x a s :
  0 <= s < 8 -> lane n k i x a -> lane n k (a_shr i s) (Z.shiftr x s) (Z.shiftr a s).
Proof.
  intros Hs [WX BX GX ZX].
  assert (Hb : forall j, 0 <= j < 8 -> Z.testbit (Z.shiftr a s) j
    = if j + s <? 8 then Z.testbit a (j + s) else false).
  { intros j Hj; rewrite Z.shiftr_spec by lia; destruct (j + s <? 8) eqn:E; [done|].
    apply (bits_above _ 8); [lia|apply BX|lia]. }
  assert (Hz : forall k' j, 0 <= k' < Z.of_nat n -> 0 <= j < 8 -> bit (zero i) j = true ->
    Z.testbit x (8 * (k' + 1) + j) = false).
  { intros k' j Hk' Hj H; destruct (decide (k' + 1 < Z.of_nat n)); [apply ZX; [done|done|lia]|].
    apply (bits_above _ (8 * Z.of_nat n)); [lia|apply WX|lia]. }
  split; [apply in_width_shiftr; [lia|done]..| |];
    intros j Hj; cbn [a_shr good zero]; rewrite bit_tab by done; rewrite Hb by done;
    [rewrite shr_bit by lia|]; intros H; destruct (j + s <? 8) eqn:E.
  - apply GX; [lia|done].
  - apply Hz; [lia|lia|done].
  - destruct (ZX (j + s) ltac:(lia) H) as [-> E2]; split; [done|]; intros k' Hk'.
    rewrite shr_bit, E by lia; by apply E2.
  - split; [done|]; intros k' Hk'; rewrite shr_bit, E by lia; apply Hz; [lia|lia|done].
Qed.

Definition top_bit_only (x : Z) : Prop := x = 0 \/ x = 128.

Lemma top_bits_multiple bs : Forall top_bit_only bs -> exists c, of_le bs = c * 128.
Proof.
  induction 1 as [|x bs Hx _ [c IH]]; simpl; [by exists 0|].
  destruct Hx as [->| ->]; [exists (256 * c)|exists (1 + 256 * c)]; lia.
Qed.

Lemma sub_shr7 bs : Forall top_bit_only bs ->
  of_le bs - Z.shiftr (of_le bs) 7 = of_le (map (fun x => x - Z.shiftr x 7) bs).
Proof.
  rewrite Z.shiftr_div_pow2 by lia; change (2 ^ 7) with 128.
  induction 1 as [|x bs Hx Hbs IH]; [done|]; cbn [of_le map]; rewrite <- IH.
  destruct (top_bits_multiple bs Hbs) as [c ->]; rewrite Z.div_mul by lia.
  destruct Hx as [->| ->].
  - change (Z.shiftr 0 7) with 0; replace (0 + 256 * (c * 128)) with (256 * c * 128) by lia.
    rewrite Z.div_mul by lia; lia.
  - change (Z.shiftr 128 7) with 1; replace (128 + 256 * (c * 128)) with ((1 + 256 * c) * 128) by lia.
    rewrite Z.div_mul by lia; lia.
Qed.

Lemma filled_bytes bs :
  Forall top_bit_only bs -> Forall byte_ok (map (fun x => x - Z.shiftr x 7) bs).
Proof.
  intros H; apply Forall_map, (Forall_impl _ _ _ H).
  intros x [->| ->]; [change (byte_ok 0)|change (byte_ok 127)]; unfold byte_ok; lia.
Qed.

Lemma top_bit_only_bits x : in_width 8 x -> (forall j, 0 <= j < 7 -> Z.testbit x j = false) ->
  top_bit_only x.
Proof.
  intros Hx H; destruct (Z.testbit x 7) eqn:E; [right|left]; apply byte_ext;
    try done; try (unfold in_width; lia); intros j Hj;
    (destruct (Z.eq_dec j 7) as [->|]; [by rewrite E|rewrite H by lia]).
  - by rewrite (Z.pow2_bits_false 7) by lia.
  - by rewrite Z.testbit_0_l.
Qed.

(** The bits that the subtraction fills. *)
Lemma fill_bit m x (k' j : Z) :
  in_width (8 * Z.of_nat m) x ->
  (forall k' j, 0 <= k' < Z.of_nat m -> 0 <= j < 7 -> Z.testbit x (8 * k' + j) = false) ->
  0 <= k' < Z.of_nat m -> 0 <= j < 8 ->
  Z.testbit (wrap (8 * Z.of_nat m) (x - Z.shiftr x 7)) (8 * k' + j)
  = (j <? 7) && Z.testbit x (8 * k' + 7).
Proof.
  intros Hx Hz Hk' Hj; destruct (le_bytes_block m x) as [Hl Hf].
  assert (Forall top_bit_only (le_bytes m x)) as Ht.
  { rewrite Forall_lookup; intros i b Hi; pose proof (lookup_lt_Some _ _ _ Hi) as Hlt.
    apply top_bit_only_bits; [by apply (Forall_lookup_1 _ _ _ _ Hf Hi)|]; intros p Hp.
    rewrite <- (nth_lookup_Some _ _ 0 _ Hi), le_bytes_bit, Hz by lia; done. }
  unfold wrap; rewrite Z.mod_pow2_bits_low by lia.
  rewrite <- (of_le_bytes m x) at 1 2 by (change 256 with (2 ^ 8); rewrite <- Z.pow_mul_r by lia; apply Hx).
  rewrite sub_shr7, of_le_bit; [|by apply filled_bytes|lia|lia|done].
  replace (8 * k' + 7) with (8 * Z.of_nat (Z.to_nat k') + 7) by lia.
  rewrite <- (le_bytes_bit m) by lia.
  change 0 with ((fun y => y - Z.shiftr y 7) 0) at 1; rewrite map_nth.
  assert (top_bit_only (nth (Z.to_nat k') (le_bytes m x) 0)) as [->| ->].
  { rewrite Forall_forall in Ht; apply Ht, list_elem_of_In, nth_In; lia. }
  - by rewrite !Z.testbit_0_l, andb_false_r.
  - change (128 - Z.shiftr 128 7) with (Z.ones 7); rewrite andb_true_r.
    destruct (j <? 7) eqn:E; [apply Z.ones_spec_low|apply Z.ones_spec_high]; lia.
Qed.

Lemma lane_fill i x a :
  (forall j, 0 <= j < 7 -> bit (zero i) j = true) -> lane n k i x a ->
  lane n k (a_fill i) (wrap (8 * Z.of_nat n) (x - Z.shiftr x 7))
    (wrap (8 * Z.of_nat 1) (a - Z.shiftr a 7)).
Proof.
  intros Hi [WX BX GX ZX].
  assert (Hw : forall k' j, 0 <= k' < Z.of_nat n -> 0 <= j < 7 -> Z.testbit x (8 * k' + j) = false)
    by (intros k' j Hk' Hj; apply ZX; [lia|by apply Hi|done]).
  assert (Hb : forall j, 0 <= j < 8 -> Z.testbit (wrap (8 * Z.of_nat 1) (a - Z.shiftr a 7)) j
    = (j <? 7) && Z.testbit a 7).
  { intros j Hj; apply (fill_bit 1 a 0); [done| |lia|done].
    intros k' p Hk' Hp; replace (8 * k' + p) with p by lia; apply ZX; [lia|by apply Hi]. }
  split; [apply wrap_range; lia|apply (wrap_range 8); lia| |];
    intros j Hj; cbn [a_fill good zero]; rewrite bit_tab by done; rewrite Hb by done;
    intros H; destruct (j <? 7) eqn:E; cbn [andb].
  - rewrite fill_bit, E by (done || lia); apply GX; [lia|done].
  - by rewrite fill_bit, E by (done || lia).
  - destruct (ZX 7 ltac:(lia) H) as [-> Z7]; split; [done|]; intros k' Hk'.
    rewrite fill_bit, E by (done || lia); by apply Z7.
  - split; [done|]; intros k' Hk'; by rewrite fill_bit, E by (done || lia).
Qed.

Lemma analyse_sound (ei : env info) (ew eb : env Z) t i :
  (forall x, lane n k (ei x) (ew x) (eb x)) -> analyse ei t = Some i ->
  lane n k i (eval n ew t) (eval 1 eb t).
Proof.
  intros He; revert i; induction t as [x|m|a IHa b IHb|a IHa b IHb|a IHa b IHb|a IHa s|a IHa s|a _ b _];
    intros i; cbn [analyse eval]; intros H.
  - by simplify_eq.
  - destruct (_ && _) eqn:E in H; simplify_eq; apply lane_const; lia.
  - simplify_option_eq; eauto using lane_and.
  - simplify_option_eq; eauto using lane_or.
  - simplify_option_eq; eauto using lane_xor.
  - destruct (_ && _) eqn:E in H; simplify_option_eq; apply lane_shl; [lia|auto].
  - destruct (_ && _) eqn:E in H; simplify_option_eq; apply lane_shr; [lia|auto].
  - destruct a as [x| | | | | | |]; try done; destruct b as [| | | | | |[y| | | | | | |] s|]; try done.
    destruct (_ && _) eqn:E in H; [|done]; simplify_eq; rewrite !andb_true_iff in E.
    destruct E as [[->%Nat.eqb_eq ->%Z.eqb_eq] E]; apply lane_fill; [|apply He].
    rewrite forallb_forall in E; intros j Hj; apply E, list_elem_of_In, elem_of_seqZ; lia.
Qed.

Lemma analyse_prog_sound p : forall (ei ei' : env info) (ew eb : env Z),
  (forall x, lane n k (ei x) (ew x) (eb x)) -> analyse_prog ei p = Some ei' ->
  forall x, lane n k (ei' x) (exec n ew p x) (exec 1 eb p x).
Proof.
  induction p as [|[y t] p IH]; intros ei ei' ew eb He H; cbn [analyse_prog exec] in *.
  { by simplify_eq. }
  destruct (analyse ei t) as [i|] eqn:E; cbn [mbind option_bind] in H; [|done].
  eapply IH; [|exact H]; intros x; unfold upd; destruct (x =? y)%nat; [|apply He].
  by eapply analyse_sound.
Qed.
End Soundness.

Lemma lane_input n k w : (k < n)%nat -> in_width (8 * Z.of_nat n) w ->
  lane n k (IN (tab (fun _ => true)) (tab (fun _ => false))) w (nth k (le_bytes n w) 0).
Proof.
  intros Hk Hw; split; [done| | |].
  - destruct (le_bytes_block n w) as [Hl Hf]; rewrite Forall_forall in Hf.
    apply Hf, list_elem_of_In, nth_In; lia.
  - intros j Hj _; symmetry; by apply le_bytes_bit.
  - intros j Hj; cbn [zero]; by rewrite bit_tab.
Qed.

(** Running the code on a word is running it on each byte of the word. *)
Lemma exec_lanes p n w :
  lanes_ok p = true -> (0 < n)%nat -> in_width (8 * Z.of_nat n) w ->
  in_width (8 * Z.of_nat n) (run n p w) /\ le_bytes n (run n p w) = map (run 1 p) (le_bytes n w).
Proof.
  unfold lanes_ok; intros H Hn Hw; destruct (analyse_prog _ p) as [ei|] eqn:E; [|done].
  assert (Hl : forall k, (k < n)%nat ->
    lane n k (ei 0%nat) (run n p w) (run 1 p (nth k (le_bytes n w) 0))).
  { intros k Hk; unfold run; eapply analyse_prog_sound; [done| |exact E].
    intros x; cbn beta; destruct (x =? 0)%nat; [by apply lane_input|].
    assert (rep n 0 = 0) as E0 by (unfold rep; clear; induction n; simpl; lia).
    pose proof (lane_const n k Hk 0 ltac:(lia)) as H0; by rewrite E0 in H0. }
  split; [apply (lane_w _ _ _ _ _ (Hl 0%nat Hn))|].
  destruct (le_bytes_block n (run n p w)) as [L1 F1], (le_bytes_block n w) as [L2 F2].
  apply (nth_ext _ _ 0 (run 1 p 0)); [by rewrite length_map, L1, L2|]; rewrite L1; intros k Hk.
  rewrite map_nth; destruct (Hl k Hk) as [_ HB HG _]; apply byte_ext; [|done|].
  - rewrite Forall_forall in F1; apply F1, list_elem_of_In, nth_In; lia.
  - intros j Hj; rewrite le_bytes_bit by lia; apply HG; [done|].
    rewrite forallb_forall in H; apply H, list_elem_of_In, elem_of_seqZ; lia.
Qed.

(** ** Bit operations, byte by byte *)

Lemma le_bytes_ext n w l :
  is_block n l ->
  (forall k j, (k < n)%nat -> 0 <= j < 8 ->
     Z.testbit w (8 * Z.of_nat k + j) = Z.testbit (nth k l 0) j) ->
  le_bytes n w = l.
Proof.
  intros [Hl Hf] H; destruct (le_bytes_block n w) as [L1 F1].
  apply (nth_ext _ _ 0 0); [lia|]; rewrite L1; intros k Hk.
  rewrite Forall_forall in Hf, F1.
  apply byte_ext; [apply F1, list_elem_of_In, nth_In; lia|apply Hf, list_elem_of_In, nth_In; lia|].
  intros j Hj; rewrite le_bytes_bit by lia; by apply H.
Qed.

Lemma zip_block n f xs ys :
  (forall x y, byte_ok x -> byte_ok y -> byte_ok (f x y)) ->
  is_block n xs -> is_block n ys -> is_block n (zip_with f xs ys).
Proof.
  intros Hf [L1 F1] [L2 F2]; split; [rewrite length_zip_with; lia|].
  clear -Hf F1 F2; revert ys F2; induction F1; intros ys F2; destruct F2; simpl; constructor; auto.
Qed.

Lemma nth_zip_with (f : Z -> Z -> Z) xs ys k :
  length xs = length ys -> f 0 0 = 0 -> nth k (zip_with f xs ys) 0 = f (nth k xs 0) (nth k ys 0).
Proof.
  revert ys k; induction xs as [|x xs IH]; intros [|y ys] k Hl Hf; try discriminate Hl.
  - by destruct k; simpl; rewrite Hf.
  - destruct k; simpl; [done|]; apply IH; [by injection Hl|done].
Qed.

(** A bit operation on words is the operation on their bytes. *)
Lemma le_bytes_op (f : Z -> Z -> Z) (g : bool -> bool -> bool) n a b :
  (forall x y j, Z.testbit (f x y) j = g (Z.testbit x j) (Z.testbit y j)) ->
  (forall x y, byte_ok x -> byte_ok y -> byte_ok (f x y)) -> f 0 0 = 0 ->
  le_bytes n (f a b) = zip_with f (le_bytes n a) (le_bytes n b).
Proof.
  intros Hg Hb H0; pose proof (le_bytes_block n a) as Ha; pose proof (le_bytes_block n b) as Hb'.
  apply le_bytes_ext; [by apply zip_block|]; intros k j Hk Hj.
  rewrite nth_zip_with by (done || rewrite (proj1 Ha), (proj1 Hb'); done).
  by rewrite !Hg, !le_bytes_bit.
Qed.

Lemma le_bytes_lxor n a b : le_bytes n (Z.lxor a b) = xor_bytes (le_bytes n a) (le_bytes n b).
Proof. apply (le_bytes_op Z.lxor xorb); [apply Z.lxor_spec|apply lxor_byte|done]. Qed.

Lemma le_bytes_land n a b : le_bytes n (Z.land a b) = zip_with Z.land (le_bytes n a) (le_bytes n b).
Proof.
  apply (le_bytes_op Z.land andb); [apply Z.land_spec| |done].
  intros x y; apply (in_width_land 8); lia.
Qed.

Lemma le_bytes_lor n a b : le_bytes n (Z.lor a b) = zip_with Z.lor (le_bytes n a) (le_bytes n b).
Proof.
  apply (le_bytes_op Z.lor orb); [apply Z.lor_spec| |done].
  intros x y; apply (in_width_lor 8); lia.
Qed.

(** Shifts by whole bytes. *)
Lemma le_bytes_shiftr n s w :
  in_width (8 * Z.of_nat n) w ->
  le_bytes n (Z.shiftr w (8 * Z.of_nat s)) = drop s (le_bytes n w) ++ replicate (min s n) 0.
Proof.
  intros Hw; destruct (le_bytes_block n w) as [L F]; apply le_bytes_ext.
  { split; [rewrite length_app, length_drop, length_replicate; lia|].
    apply Forall_app; split; [by apply Forall_drop|apply Forall_replicate; unfold byte_ok; lia]. }
  intros k j Hk Hj; rewrite Z.shiftr_spec by lia.
  destruct (decide (k < n - s)%nat).
  - rewrite app_nth1 by (rewrite length_drop; lia); rewrite nth_skipn, le_bytes_bit by lia.
    f_equal; lia.
  - rewrite app_nth2 by (rewrite length_drop; lia).
    rewrite nth_repeat || rewrite nth_lookup, lookup_replicate_2 by (rewrite length_drop; lia).
    rewrite (bits_above _ (8 * Z.of_nat n)); [|lia|done|lia]; simpl; by rewrite ?Z.testbit_0_l.
Qed.

Lemma le_bytes_shiftl n s w : (s <= n)%nat ->
  le_bytes n (wrap (8 * Z.of_nat n) (Z.shiftl w (8 * Z.of_nat s)))
  = replicate s 0 ++ take (n - s) (le_bytes n w).
Proof.
  intros Hs; destruct (le_bytes_block n w) as [L F]; apply le_bytes_ext.
  { split; [rewrite length_app, length_take, length_replicate; lia|].
    apply Forall_app; split; [apply Forall_replicate; unfold byte_ok; lia|by apply Forall_take]. }
  intros k j Hk Hj; unfold wrap; rewrite Z.mod_pow2_bits_low, Z.shiftl_spec by lia.
  destruct (decide (k < s)%nat).
  - rewrite app_nth1 by (rewrite length_replicate; lia).
    rewrite nth_lookup, lookup_replicate_2 by lia; simpl; rewrite Z.testbit_0_l; apply Z.testbit_neg_r; lia.
  - rewrite app_nth2, length_replicate by (rewrite length_replicate; lia).
    rewrite nth_firstn; replace (_ <? _)%nat with true by (symmetry; apply Nat.ltb_lt; lia).
    rewrite le_bytes_bit by lia; f_equal; lia.
Qed.
