(* ===== verification/OpensslAes.v ===== *)
(** * The optimised AES: [crypt/openssl/openssl_aes.c]

    The block cipher and the key expansion of the default build
    ([MUGGLE_CRYPT_OPTIMIZATION]), constant-time code on 64-bit words, and
    [muggle_aes_crypt] and [muggle_aes_set_key] of [aes.c] in that build.  The
    substitution is a circuit of bit operations on all bytes of a word at
    once, written in the language of [Lanes]; it is proved equal to the table
    of the portable code, and with it the whole cipher and the key schedule.

    The state is the two words of [uint64_t state[2]]; where the code looks
    at their bytes through a pointer or a union, so does the model, on a
    little-endian machine.  [rd_key] is an array of 32-bit words that the code
    also accesses as 64-bit words ([rd64], [wr64]). *)
From Stdlib Require Import Btauto.
From S2P Require Import Prelude Utils Modes Aes Lanes.

(** ** Words and bytes *)

Definition lo32 (d : Z) : Z := Z.land d 0xFFFFFFFF.
Definition hi32 (d : Z) : Z := Z.shiftr d 32.
Definition join (lo hi : Z) : Z := Z.lor lo (Z.shiftl hi 32).

Definition rd64 (w : list Z) (i : Z) : option Z :=
  lo ← rd w (2 * i); hi ← rd w (2 * i + 1); Some (join lo hi).

Definition wr64 (w : list Z) (i d : Z) : option (list Z) :=
  w ← wr w (2 * i) (lo32 d); wr w (2 * i + 1) (hi32 d).

Definition state_bytes (state : Z * Z) : list Z := le_bytes 8 state.1 ++ le_bytes 8 state.2.

Definition state_of (bs : list Z) : Z * Z := (of_le (take 8 bs), of_le (drop 8 bs)).

(** [memcpy] from bytes to an array of 32-bit words. *)
Fixpoint le_words (bs : list Z) : list Z :=
  match bs with
  | b0 :: b1 :: b2 :: b3 :: bs => of_le [b0; b1; b2; b3] :: le_words bs
  | _ => []
  end.

(** ** Substitution and multiplication by x on the bytes of a word

    The 32-bit and the 64-bit function of a pair are the same program over
    the two widths.  (The mask [0x0A0A0A0A0Au] of [openssl_sub_u32] has five
    bytes; the fifth meets no bit of the 32-bit operand, [mask_five_bytes].) *)

Module Reg.
Definition w : nat := 0.
Definition x : nat := 1.
Definition y : nat := 2.
Definition a1 : nat := 3.
Definition a2 : nat := 4.
Definition a3 : nat := 5.
Definition a4 : nat := 6.
Definition a5 : nat := 7.
Definition a6 : nat := 8.
Definition a : nat := 1.
Definition b : nat := 2.
End Reg.

Section Programs.
Import Reg.

Definition xtime_prog : list stmt :=
  [a ::= w;
   b ::= a & #0x80;
   a ^= b;
   b -= b >> 7;
   b &= #0x1B;
   b ^= a << 1;
   w ::= b].

Definition sub_prog : list stmt :=
  [x ::= w;
   y ::= ((x & #0xFE) >> 1) | ((x & #0x01) << 7);
   x &= #0xDD;
   x ^= y & #0x57;
   y ::= ((y & #0xFE) >> 1) | ((y & #0x01) << 7);
   x ^= y & #0x1C;
   y ::= ((y & #0xFE) >> 1) | ((y & #0x01) << 7);
   x ^= y & #0x4A;
   y ::= ((y & #0xFE) >> 1) | ((y & #0x01) << 7);
   x ^= y & #0x42;
   y ::= ((y & #0xFE) >> 1) | ((y & #0x01) << 7);
   x ^= y & #0x64;
   y ::= ((y & #0xFE) >> 1) | ((y & #0x01) << 7);
   x ^= y & #0xE0;
   a1 ::= x;
   a1 ^= (x & #0xF0) >> 4;
   a2 ::= ((x & #0xCC) >> 2) | ((x & #0x33) << 2);
   a3 ::= x & a1;
   a3 ^= (a3 & #0xAA) >> 1;
   a3 ^= (((x << 1) & a1) ^ ((a1 << 1) & x)) & #0xAA;
   a4 ::= a2 & a1;
   a4 ^= (a4 & #0xAA) >> 1;
   a4 ^= (((a2 << 1) & a1) ^ ((a1 << 1) & a2)) & #0xAA;
   a5 ::= (a3 & #0xCC) >> 2;
   a3 ^= ((a4 << 2) ^ a4) & #0xCC;
   a4 ::= a5 & #0x22;
   a4 |= a4 >> 1;
   a4 ^= (a5 << 1) & #0x22;
   a3 ^= a4;
   a5 ::= a3 & #0xA0;
   a5 |= a5 >> 1;
   a5 ^= (a3 << 1) & #0xA0;
   a4 ::= a5 & #0xC0;
   a6 ::= a4 >> 2;
   a4 ^= (a5 << 2) & #0xC0;
   a5 ::= a6 & #0x20;
   a5 |= a5 >> 1;
   a5 ^= (a6 << 1) & #0x20;
   a4 |= a5;
   a3 ^= a4 >> 4;
   a3 &= #0x0F;
   a2 ::= a3;
   a2 ^= (a3 & #0x0C) >> 2;
   a4 ::= a3 & a2;
   a4 ^= (a4 & #0x0A) >> 1;
   a4 ^= (((a3 << 1) & a2) ^ ((a2 << 1) & a3)) & #0x0A;
   a5 ::= a4 & #0x08;
   a5 |= a5 >> 1;
   a5 ^= (a4 << 1) & #0x08;
   a4 ^= a5 >> 2;
   a4 &= #0x03;
   a4 ^= (a4 & #0x02) >> 1;
   a4 |= a4 << 2;
   a3 ::= a2 & a4;
   a3 ^= (a3 & #0x0A) >> 1;
   a3 ^= (((a2 << 1) & a4) ^ ((a4 << 1) & a2)) & #0x0A;
   a3 |= a3 << 4;
   a2 ::= ((a1 & #0xCC) >> 2) | ((a1 & #0x33) << 2);
   x ::= a1 & a3;
   x ^= (x & #0xAA) >> 1;
   x ^= (((a1 << 1) & a3) ^ ((a3 << 1) & a1)) & #0xAA;
   a4 ::= a2 & a3;
   a4 ^= (a4 & #0xAA) >> 1;
   a4 ^= (((a2 << 1) & a3) ^ ((a3 << 1) & a2)) & #0xAA;
   a5 ::= (x & #0xCC) >> 2;
   x ^= ((a4 << 2) ^ a4) & #0xCC;
   a4 ::= a5 & #0x22;
   a4 |= a4 >> 1;
   a4 ^= (a5 << 1) & #0x22;
   x ^= a4;
   y ::= ((x & #0xFE) >> 1) | ((x & #0x01) << 7);
   x &= #0x39;
   x ^= y & #0x3F;
   y ::= ((y & #0xFC) >> 2) | ((y & #0x03) << 6);
   x ^= y & #0x97;
   y ::= ((y & #0xFE) >> 1) | ((y & #0x01) << 7);
   x ^= y & #0x9B;
   y ::= ((y & #0xFE) >> 1) | ((y & #0x01) << 7);
   x ^= y & #0x3C;
   y ::= ((y & #0xFE) >> 1) | ((y & #0x01) << 7);
   x ^= y & #0xDD;
   y ::= ((y & #0xFE) >> 1) | ((y & #0x01) << 7);
   x ^= y & #0x72;
   x ^= #0x63;
   w ::= x].

Definition inv_sub_prog : list stmt :=
  [x ::= w;
   x ^= #0x63;
   y ::= ((x & #0xFE) >> 1) | ((x & #0x01) << 7);
   x &= #0xFD;
   x ^= y & #0x5E;
   y ::= ((y & #0xFE) >> 1) | ((y & #0x01) << 7);
   x ^= y & #0xF3;
   y ::= ((y & #0xFE) >> 1) | ((y & #0x01) << 7);
   x ^= y & #0xF5;
   y ::= ((y & #0xFE) >> 1) | ((y & #0x01) << 7);
   x ^= y & #0x78;
   y ::= ((y & #0xFE) >> 1) | ((y & #0x01) << 7);
   x ^= y & #0x77;
   y ::= ((y & #0xFE) >> 1) | ((y & #0x01) << 7);
   x ^= y & #0x15;
   y ::= ((y & #0xFE) >> 1) | ((y & #0x01) << 7);
   x ^= y & #0xA5;
   a1 ::= x;
   a1 ^= (x & #0xF0) >> 4;
   a2 ::= ((x & #0xCC) >> 2) | ((x & #0x33) << 2);
   a3 ::= x & a1;
   a3 ^= (a3 & #0xAA) >> 1;
   a3 ^= (((x << 1) & a1) ^ ((a1 << 1) & x)) & #0xAA;
   a4 ::= a2 & a1;
   a4 ^= (a4 & #0xAA) >> 1;
   a4 ^= (((a2 << 1) & a1) ^ ((a1 << 1) & a2)) & #0xAA;
   a5 ::= (a3 & #0xCC) >> 2;
   a3 ^= ((a4 << 2) ^ a4) & #0xCC;
   a4 ::= a5 & #0x22;
   a4 |= a4 >> 1;
   a4 ^= (a5 << 1) & #0x22;
   a3 ^= a4;
   a5 ::= a3 & #0xA0;
   a5 |= a5 >> 1;
   a5 ^= (a3 << 1) & #0xA0;
   a4 ::= a5 & #0xC0;
   a6 ::= a4 >> 2;
   a4 ^= (a5 << 2) & #0xC0;
   a5 ::= a6 & #0x20;
   a5 |= a5 >> 1;
   a5 ^= (a6 << 1) & #0x20;
   a4 |= a5;
   a3 ^= a4 >> 4;
   a3 &= #0x0F;
   a2 ::= a3;
   a2 ^= (a3 & #0x0C) >> 2;
   a4 ::= a3 & a2;
   a4 ^= (a4 & #0x0A) >> 1;
   a4 ^= (((a3 << 1) & a2) ^ ((a2 << 1) & a3)) & #0x0A;
   a5 ::= a4 & #0x08;
   a5 |= a5 >> 1;
   a5 ^= (a4 << 1) & #0x08;
   a4 ^= a5 >> 2;
   a4 &= #0x03;
   a4 ^= (a4 & #0x02) >> 1;
   a4 |= a4 << 2;
   a3 ::= a2 & a4;
   a3 ^= (a3 & #0x0A) >> 1;
   a3 ^= (((a2 << 1) & a4) ^ ((a4 << 1) & a2)) & #0x0A;
   a3 |= a3 << 4;
   a2 ::= ((a1 & #0xCC) >> 2) | ((a1 & #0x33) << 2);
   x ::= a1 & a3;
   x ^= (x & #0xAA) >> 1;
   x ^= (((a1 << 1) & a3) ^ ((a3 << 1) & a1)) & #0xAA;
   a4 ::= a2 & a3;
   a4 ^= (a4 & #0xAA) >> 1;
   a4 ^= (((a2 << 1) & a3) ^ ((a3 << 1) & a2)) & #0xAA;
   a5 ::= (x & #0xCC) >> 2;
   x ^= ((a4 << 2) ^ a4) & #0xCC;
   a4 ::= a5 & #0x22;
   a4 |= a4 >> 1;
   a4 ^= (a5 << 1) & #0x22;
   x ^= a4;
   y ::= ((x & #0xFE) >> 1) | ((x & #0x01) << 7);
   x &= #0xB5;
   x ^= y & #0x40;
   y ::= ((y & #0xFE) >> 1) | ((y & #0x01) << 7);
   x ^= y & #0x80;
   y ::= ((y & #0xFE) >> 1) | ((y & #0x01) << 7);
   x ^= y & #0x16;
   y ::= ((y & #0xFE) >> 1) | ((y & #0x01) << 7);
   x ^= y & #0xEB;
   y ::= ((y & #0xFE) >> 1) | ((y & #0x01) << 7);
   x ^= y & #0x97;
   y ::= ((y & #0xFE) >> 1) | ((y & #0x01) << 7);
   x ^= y & #0xFB;
   y ::= ((y & #0xFE) >> 1) | ((y & #0x01) << 7);
   x ^= y & #0x7D;
   w ::= x].
End Programs.

Definition openssl_xtime_u32 (w : Z) : Z := run 4 xtime_prog w.
Definition openssl_xtime_u64 (w : Z) : Z := run 8 xtime_prog w.
Definition openssl_sub_u32 (w : Z) : Z := run 4 sub_prog w.
Definition openssl_sub_u64 (w : Z) : Z := run 8 sub_prog w.
Definition openssl_inv_sub_u64 (w : Z) : Z := run 8 inv_sub_prog w.

(** ** Rows and columns *)

(** One turn of the loop: the row [r], rotated by the indices [idx]. *)
Definition rotate_row (idx : list Z) (r : Z) (s0 : list Z) : option (list Z) :=
  t0 ← rd s0 (0 * 4 + r); t1 ← rd s0 (1 * 4 + r); t2 ← rd s0 (2 * 4 + r); t3 ← rd s0 (3 * 4 + r);
  let s := [t0; t1; t2; t3] in
  i0 ← rd idx 0; x ← rd s i0; s0 ← wr s0 (0 * 4 + r) x;
  i1 ← rd idx 1; x ← rd s i1; s0 ← wr s0 (1 * 4 + r) x;
  i2 ← rd idx 2; x ← rd s i2; s0 ← wr s0 (2 * 4 + r) x;
  i3 ← rd idx 3; x ← rd s i3; wr s0 (3 * 4 + r) x.

Definition openssl_shift_row (state : Z * Z) : option (Z * Z) :=
  bs ← for_up (fun r s0 =>
         rotate_row [(r + 0) mod 4; (r + 1) mod 4; (r + 2) mod 4; (r + 3) mod 4] r s0)
         4 0 (state_bytes state);
  Some (state_of bs).

Definition openssl_inv_shift_row (state : Z * Z) : option (Z * Z) :=
  bs ← for_up (fun r s0 =>
         rotate_row [(4 - r) mod 4; (5 - r) mod 4; (6 - r) mod 4; (7 - r) mod 4] r s0)
         4 0 (state_bytes state);
  Some (state_of bs).

(** [((d & 0xFFFF0000FFFF0000) >> 16) | ((d & 0x0000FFFF0000FFFF) << 16)]
    and the same with single bytes. *)
Definition swap16 (d : Z) : Z :=
  Z.lor (Z.shiftr (Z.land d 0xFFFF0000FFFF0000) 16)
        (u64 (Z.shiftl (Z.land d 0x0000FFFF0000FFFF) 16)).
Definition swap8 (d : Z) : Z :=
  Z.lor (Z.shiftr (Z.land d 0xFF00FF00FF00FF00) 8)
        (u64 (Z.shiftl (Z.land d 0x00FF00FF00FF00FF) 8)).

(** [s.b[0] ^= s1.b[1]; ...; s.b[7] ^= s1.b[4]]. *)
Definition xor_next (s s1 : Z) : option Z :=
  let b := le_bytes 8 s in
  let b1 := le_bytes 8 s1 in
  x ← rd b1 1; b ← xor_at b 0 x;
  x ← rd b1 2; b ← xor_at b 1 x;
  x ← rd b1 3; b ← xor_at b 2 x;
  x ← rd b1 0; b ← xor_at b 3 x;
  x ← rd b1 5; b ← xor_at b 4 x;
  x ← rd b1 6; b ← xor_at b 5 x;
  x ← rd b1 7; b ← xor_at b 6 x;
  x ← rd b1 4; b ← xor_at b 7 x;
  Some (of_le b).

(** Two columns, in one word: [s] and [s1] of the loop after the lines that
    [openssl_mix_columns] and [openssl_inv_mix_columns] share. *)
Definition mix_word (d : Z) : option (Z * Z) :=
  let s1 := d in
  let s := s1 in
  let s := Z.lxor s (swap16 s) in
  let s := Z.lxor s (swap8 s) in
  let s := Z.lxor s s1 in
  let s1 := openssl_xtime_u64 s1 in
  let s := Z.lxor s s1 in
  s ← xor_next s s1;
  Some (s, s1).

Definition inv_mix_word (d : Z) : option Z :=
  '(s, s1) ← mix_word d;
  let s1 := openssl_xtime_u64 s1 in
  let s1 := Z.lxor s1 (swap16 s1) in
  let s := Z.lxor s s1 in
  let s1 := openssl_xtime_u64 s1 in
  let s1 := Z.lxor s1 (swap8 s1) in
  Some (Z.lxor s s1).

Definition openssl_mix_columns (state : Z * Z) : option (Z * Z) :=
  '(d0, _) ← mix_word state.1; '(d1, _) ← mix_word state.2; Some (d0, d1).

Definition openssl_inv_mix_columns (state : Z * Z) : option (Z * Z) :=
  d0 ← inv_mix_word state.1; d1 ← inv_mix_word state.2; Some (d0, d1).

(** The round key starts at [w + off]. *)
Definition openssl_add_round_key (state : Z * Z) (w : list Z) (off : Z) : option (Z * Z) :=
  k0 ← rd64 w off; k1 ← rd64 w (off + 1); Some (Z.lxor state.1 k0, Z.lxor state.2 k1).

(** ** The cipher *)

Definition sub_state (state : Z * Z) : Z * Z := (openssl_sub_u64 state.1, openssl_sub_u64 state.2).
Definition inv_sub_state (state : Z * Z) : Z * Z :=
  (openssl_inv_sub_u64 state.1, openssl_inv_sub_u64 state.2).

Definition openssl_round (w : list Z) (i : Z) (state : Z * Z) : option (Z * Z) :=
  let state := sub_state state in
  state ← openssl_shift_row state;
  state ← openssl_mix_columns state;
  openssl_add_round_key state w (i * 2).

Definition openssl_cipher (input w : list Z) (nr : Z) : option (list Z) :=
  bs ← copy_out input 0 16;
  state ← openssl_add_round_key (state_of bs) w 0;
  state ← for_up (openssl_round w) (Z.to_nat (nr - 1)) 1 state;
  let state := sub_state state in
  state ← openssl_shift_row state;
  state ← openssl_add_round_key state w (nr * 2);
  Some (state_bytes state).

Definition openssl_inv_round (w : list Z) (i : Z) (state : Z * Z) : option (Z * Z) :=
  state ← openssl_inv_shift_row state;
  let state := inv_sub_state state in
  state ← openssl_add_round_key state w (i * 2);
  openssl_inv_mix_columns state.

Definition openssl_inv_cipher (input w : list Z) (nr : Z) : option (list Z) :=
  bs ← copy_out input 0 16;
  state ← openssl_add_round_key (state_of bs) w (nr * 2);
  state ← for_down (openssl_inv_round w) (Z.to_nat (nr - 1)) (nr - 1) state;
  state ← openssl_inv_shift_row state;
  let state := inv_sub_state state in
  state ← openssl_add_round_key state w 0;
  Some (state_bytes state).

(** ** The key expansion *)

Definition openssl_rot_word (x : Z) : option Z :=
  let w0 := le_bytes 4 x in
  tmp ← rd w0 0;
  w0 ← mv 0 1 w0; w0 ← mv 1 2 w0; w0 ← mv 2 3 w0;
  w0 ← wr w0 3 tmp;
  Some (of_le w0).

(** The branches on [i], on [temp] and [rcon]. *)
Definition expand_temp (nk n i temp rcon : Z) : option (Z * Z) :=
  if i mod n =? 0 then
    temp ← openssl_rot_word temp;
    let temp := openssl_sub_u32 temp in
    let temp := Z.lxor temp rcon in
    Some (temp, openssl_xtime_u32 rcon)
  else if (nk >? 6) && (i mod n =? 2) then Some (openssl_sub_u32 temp, rcon)
  else Some (temp, rcon).

(** One turn of the loop, on [w], [prev.d] and [rcon]. *)
Definition expand_step (nk n i : Z) (s : list Z * Z * Z) : option (list Z * Z * Z) :=
  let '(w, prev, rcon) := s in
  let temp := hi32 prev in
  '(temp, rcon) ← expand_temp nk n i temp rcon;
  prev ← rd64 w (i - n);
  let w0 := Z.lxor (lo32 prev) temp in
  let w1 := Z.lxor (hi32 prev) w0 in
  let prev := join w0 w1 in
  w ← wr64 w i prev;
  Some (w, prev, rcon).

Definition openssl_key_expansion (key w : list Z) (nr nk : Z) : option (list Z) :=
  bs ← copy_out key 0 (nk * 4);
  w ← copy_in w 0 (le_words bs);
  let rcon := of_le [1; 0; 0; 0] in
  let n := nk / 2 in
  prev ← rd64 w (n - 1);
  '(w, _, _) ← for_up (expand_step nk n) (Z.to_nat ((nr + 1) * 2 - n)) n (w, prev, rcon);
  Some w.

(** The number of rounds, or [None] for a size that is not supported. *)
Definition key_rounds (bits : Z) : option Z :=
  if bits =? 128 then Some 10
  else if bits =? 192 then Some 12
  else if bits =? 256 then Some 14
  else None.

Definition muggle_openssl_aes_set_key (key : list Z) (bits : Z) (sk : muggle_aes_subkeys)
  : option (Z * muggle_aes_subkeys) :=
  match key_rounds bits with
  | Some nr =>
      w ← openssl_key_expansion key (rd_key sk) nr (bits / 32);
      Some (0, ASK w nr)
  | None => Some (MUGGLE_ERR_CRYPT_KEY_SIZE, sk)
  end.

Definition muggle_openssl_aes_encrypt (input : list Z) (sk : muggle_aes_subkeys) : option (list Z) :=
  openssl_cipher input (rd_key sk) (rounds sk).

Definition muggle_openssl_aes_decrypt (input : list Z) (sk : muggle_aes_subkeys) : option (list Z) :=
  openssl_inv_cipher input (rd_key sk) (rounds sk).

(** ** [aes.c] in the default build *)

(** The code and the bytes written to [output]: none when [op] is invalid. *)
Definition muggle_aes_crypt_opt (op : Z) (sk : muggle_aes_subkeys) (input : list Z)
  : option (Z * list Z) :=
  if negb (op_valid op) then Some (MUGGLE_ERR_INVALID_PARAM, [])
  else if op =? MUGGLE_ENCRYPT then
    output ← muggle_openssl_aes_encrypt input sk; Some (0, output)
  else
    output ← muggle_openssl_aes_decrypt input sk; Some (0, output).

(** Returns the code and the context. *)
Definition muggle_aes_set_key (op mode : Z) (key : option (list Z)) (bits : Z)
    (ctx : option muggle_aes_context) : option (Z * option muggle_aes_context) :=
  if negb (op_valid op) then Some (MUGGLE_ERR_INVALID_PARAM, ctx)
  else if negb ((mode >=? MUGGLE_BLOCK_CIPHER_MODE_ECB) && (mode <? MAX_MUGGLE_BLOCK_CIPHER_MODE))
  then Some (MUGGLE_ERR_INVALID_PARAM, ctx)
  else match key, ctx with
  | None, _ | _, None => Some (MUGGLE_ERR_NULL_PARAM, ctx)
  | Some key, Some ctx =>
      '(ret, sk) ← muggle_openssl_aes_set_key key bits (sk ctx);
      Some (ret, Some (ACTX op mode sk))
  end.

(** ** The key expansion of the portable build

    In [aes.c]; its table [s_aes_rcon] is commented out in [internal_aes.c],
    and is taken from there.  It is the reference for the optimised one. *)

Definition s_aes_rcon : list Z :=
  [0x01000000; 0x02000000; 0x04000000; 0x08000000;
   0x10000000; 0x20000000; 0x40000000; 0x80000000;
   0x1b000000; 0x36000000; 0x6c000000; 0xd8000000;
   0xab000000; 0x4d000000; 0x9a000000].

Definition muggle_aes_rot_word (word : Z) : option Z :=
  let p := le_bytes 4 word in
  b0 ← rd p 3; b1 ← rd p 0; b2 ← rd p 1; b3 ← rd p 2; Some (of_le [b0; b1; b2; b3]).

Definition muggle_aes_sub_word (word : Z) : option Z :=
  let p := le_bytes 4 word in
  b0 ← rd p 0; r0 ← rd s_muggle_aes_sbox b0;
  b1 ← rd p 1; r1 ← rd s_muggle_aes_sbox b1;
  b2 ← rd p 2; r2 ← rd s_muggle_aes_sbox b2;
  b3 ← rd p 3; r3 ← rd s_muggle_aes_sbox b3;
  Some (of_le [r0; r1; r2; r3]).

Definition load_word (key : list Z) (i : Z) (w : list Z) : option (list Z) :=
  k0 ← rd key (4 * i + 0); k1 ← rd key (4 * i + 1);
  k2 ← rd key (4 * i + 2); k3 ← rd key (4 * i + 3);
  wr w i (Z.lor (Z.lor (Z.lor (Z.shiftl k0 24) (Z.shiftl k1 16)) (Z.shiftl k2 8)) k3).

Definition expand_word_temp (Nk i temp : Z) : option Z :=
  if i mod Nk =? 0 then
    temp ← muggle_aes_rot_word temp;
    temp ← muggle_aes_sub_word temp;
    c ← rd s_aes_rcon ((i - 1) / Nk);
    Some (Z.lxor temp c)
  else if (Nk >? 6) && (i mod Nk =? 4) then muggle_aes_sub_word temp
  else Some temp.

Definition expand_word (Nk i : Z) (w : list Z) : option (list Z) :=
  temp ← rd w (i - 1);
  temp ← expand_word_temp Nk i temp;
  x ← rd w (i - Nk);
  wr w i (Z.lxor x temp).

Definition portable_key_expansion (key w : list Z) (Nr Nk : Z) : option (list Z) :=
  let Nb := 4 in
  w ← for_up (load_word key) (Z.to_nat Nk) 0 w;
  for_up (expand_word Nk) (Z.to_nat (Nb * (Nr + 1) - Nk)) Nk w.

(** The same bytes in the other order. *)
Definition bswap (w : Z) : Z := of_le (rev (le_bytes 4 w)).

(** ** Bytes of the substitutions *)

Lemma mask_five_bytes w : in_width 32 w -> Z.land w 0x0A0A0A0A0A = Z.land w (rep 4 0x0A).
Proof.
  intros Hw; change (rep 4 0x0A) with (wrap 32 0x0A0A0A0A0A); symmetry; apply land_wrap_r; [lia|done].
Qed.

Lemma byte_cases (P : Z -> bool) x : forallb P (seqZ 0 256) = true -> byte_ok x -> P x = true.
Proof.
  intros Ha Hx; rewrite forallb_forall in Ha; apply Ha, list_elem_of_In, elem_of_seqZ.
  unfold byte_ok in Hx; lia.
Qed.

Definition is_entry (table : list Z) (x y : Z) : bool :=
  match rd table x with Some z => z =? y | None => false end.

Lemma is_entry_spec table x y : is_entry table x y = true -> rd table x = Some y.
Proof. unfold is_entry; destruct (rd table x); [|done]; intros ->%Z.eqb_eq; done. Qed.

Lemma sub_byte x : byte_ok x -> rd s_muggle_aes_sbox x = Some (run 1 sub_prog x).
Proof.
  intros Hx; apply is_entry_spec.
  apply (byte_cases (fun x => is_entry s_muggle_aes_sbox x (run 1 sub_prog x)) x); [|done].
  vm_compute; reflexivity.
Qed.

Lemma inv_sub_byte x : byte_ok x -> rd s_muggle_aes_inv_sbox x = Some (run 1 inv_sub_prog x).
Proof.
  intros Hx; apply is_entry_spec.
  apply (byte_cases (fun x => is_entry s_muggle_aes_inv_sbox x (run 1 inv_sub_prog x)) x); [|done].
  vm_compute; reflexivity.
Qed.

Lemma xtime_byte_prog x : byte_ok x -> run 1 xtime_prog x = xtime x.
Proof.
  intros Hx; apply Z.eqb_eq, (byte_cases (fun x => run 1 xtime_prog x =? xtime x) x); [|done].
  vm_compute; reflexivity.
Qed.

Lemma sub_lanes : lanes_ok sub_prog = true. Proof. vm_compute; reflexivity. Qed.
Lemma inv_sub_lanes : lanes_ok inv_sub_prog = true. Proof. vm_compute; reflexivity. Qed.

(** The exclusive or clears the bits it was computed from, which the analysis
    sees when it is written as a mask. *)
Section Clear.
Import Reg.
Definition xtime_prog_mask : list stmt :=
  [a ::= w; b ::= a & #0x80; a &= #0x7F; b -= b >> 7; b &= #0x1B; b ^= a << 1; w ::= b].
End Clear.

Lemma clear_top n w : in_width (8 * Z.of_nat n) w ->
  Z.lxor w (Z.land w (rep n 0x80)) = Z.land w (rep n 0x7F).
Proof.
  intros Hw; apply Z.bits_inj'; intros i Hi; rewrite Z.lxor_spec, !Z.land_spec.
  destruct (decide (i < 8 * Z.of_nat n)).
  2:{ rewrite (bits_above w (8 * Z.of_nat n)); [done|lia|done|lia]. }
  rewrite (Z.div_mod i 8) by lia; pose proof (Z.mod_pos_bound i 8 ltac:(lia)) as Hj.
  assert (0 <= i / 8 < Z.of_nat n) by (split; [by apply Z.div_pos|apply Z.div_lt_upper_bound]; lia).
  rewrite !rep_bit by lia.
  destruct (Z.testbit w _); [|done]; generalize dependent (i mod 8); clear; intros j Hj; simpl.
  assert (j = 0 \/ j = 1 \/ j = 2 \/ j = 3 \/ j = 4 \/ j = 5 \/ j = 6 \/ j = 7) as H by lia.
  by destruct_or! H; subst.
Qed.

Lemma xtime_prog_masked n w : in_width (8 * Z.of_nat n) w ->
  run n xtime_prog w = run n xtime_prog_mask w.
Proof. intros Hw; unfold run; simpl; unfold upd; simpl; by rewrite clear_top. Qed.

Lemma xtime_lanes : lanes_ok xtime_prog_mask = true. Proof. vm_compute; reflexivity. Qed.

(** A program on a word of [n] bytes does to each byte what it does to one. *)
Lemma xtime_word n w : (0 < n)%nat -> in_width (8 * Z.of_nat n) w ->
  in_width (8 * Z.of_nat n) (run n xtime_prog w) /\
  le_bytes n (run n xtime_prog w) = map xtime (le_bytes n w).
Proof.
  intros Hn Hw; rewrite xtime_prog_masked by done.
  destruct (exec_lanes xtime_prog_mask n w xtime_lanes Hn Hw) as [H ->]; split; [done|].
  destruct (le_bytes_block n w) as [_ F]; induction F as [|x l Hx _ IH]; cbn [map]; [done|].
  by rewrite <- xtime_prog_masked, xtime_byte_prog, IH.
Qed.

Lemma sub_word_table table p n w :
  lanes_ok p = true -> (forall x, byte_ok x -> rd table x = Some (run 1 p x)) ->
  (0 < n)%nat -> in_width (8 * Z.of_nat n) w ->
  in_width (8 * Z.of_nat n) (run n p w) /\
  Forall2 (fun x y => rd table x = Some y) (le_bytes n w) (le_bytes n (run n p w)).
Proof.
  intros Hp Ht Hn Hw; destruct (exec_lanes p n w Hp Hn Hw) as [H ->]; split; [done|].
  destruct (le_bytes_block n w) as [_ F]; induction F; simpl; constructor; auto.
Qed.

(** ** The state as memory

    [mem] relates the two words to the 16 bytes they occupy. *)
Definition mem (state : Z * Z) (bs : list Z) : Prop :=
  in_width 64 state.1 /\ in_width 64 state.2 /\ state_bytes state = bs.

Lemma width_bytes n w : in_width (8 * Z.of_nat n) w <-> 0 <= w < 256 ^ Z.of_nat n.
Proof. unfold in_width; change 256 with (2 ^ 8); by rewrite <- Z.pow_mul_r by lia. Qed.

Lemma mem_block state bs : mem state bs -> is_block 16 bs.
Proof.
  intros (_ & _ & <-); unfold state_bytes.
  destruct (le_bytes_block 8 state.1) as [L1 F1], (le_bytes_block 8 state.2) as [L2 F2].
  split; [rewrite length_app; lia|by apply Forall_app].
Qed.

Lemma word_of_bytes n bs : is_block n bs ->
  in_width (8 * Z.of_nat n) (of_le bs) /\ le_bytes n (of_le bs) = bs.
Proof.
  intros [L F]; split; [|rewrite <- L; by apply le_bytes_of].
  apply width_bytes; rewrite <- L; by apply of_le_bound.
Qed.

Lemma mem_state_of bs : is_block 16 bs -> mem (state_of bs) bs.
Proof.
  intros [L F]; unfold state_of.
  destruct (word_of_bytes 8 (take 8 bs)) as [W1 E1];
    [split; [rewrite length_take; lia|by apply Forall_take]|].
  destruct (word_of_bytes 8 (drop 8 bs)) as [W2 E2];
    [split; [rewrite length_drop; lia|by apply Forall_drop]|].
  split; [exact W1|]; split; [exact W2|]; unfold state_bytes; simpl fst; simpl snd.
  by rewrite E1, E2, take_drop.
Qed.

Lemma mem_inv state bs : mem state bs ->
  is_block 8 (take 8 bs) /\ le_bytes 8 state.1 = take 8 bs /\
  is_block 8 (drop 8 bs) /\ le_bytes 8 state.2 = drop 8 bs.
Proof.
  intros (_ & _ & <-); unfold state_bytes.
  pose proof (le_bytes_block 8 state.1) as B1; pose proof (le_bytes_block 8 state.2) as B2.
  rewrite take_app_length', drop_app_length' by apply B1; done.
Qed.

(** ** The calls of the two ciphers, side by side

    The portable state is the memory of the words, transposed. *)
Definition sim (state : Z * Z) (s : list Z) : Prop :=
  exists bs, mem state bs /\ gather bs state_layout = Some s.

(** [f] on the words does what [g] does on the bytes. *)
Definition simulates (f : Z * Z -> option (Z * Z)) (g : list Z -> option (list Z)) : Prop :=
  forall state s, sim state s ->
    exists state' s', f state = Some state' /\ g s = Some s' /\ sim state' s'.

Lemma simulates_bind f1 g1 f2 g2 :
  simulates f1 g1 -> simulates f2 g2 ->
  simulates (fun x => x ← f1 x; f2 x) (fun x => x ← g1 x; g2 x).
Proof.
  intros H1 H2 state s Hs; destruct (H1 _ _ Hs) as (state1 & s1 & E1 & D1 & S1).
  destruct (H2 _ _ S1) as (state2 & s2 & E2 & D2 & S2).
  exists state2, s2; rewrite E1, D1; done.
Qed.

Lemma gather_forall2 (R : Z -> Z -> Prop) l l' idx s :
  Forall2 R l l' -> gather l idx = Some s -> exists s', gather l' idx = Some s' /\ Forall2 R s s'.
Proof.
  intros HR; unfold gather; revert s; induction idx as [|i idx IH]; intros s; simpl.
  { intros [= <-]; by exists []. }
  destruct (rd l i) as [x|] eqn:Ex; cbn [mbind option_bind]; [|done].
  destruct (mapM (rd l) idx) as [t|]; cbn [mbind option_bind]; [|done]; intros [= <-].
  destruct (IH t eq_refl) as (t' & -> & Ht); unfold rd in Ex |- *; case_decide; [|done].
  destruct (Forall2_lookup_l _ _ _ _ _ HR Ex) as (y & -> & Hy); cbn [mbind option_bind].
  eexists; split; [done|by constructor].
Qed.

Lemma sim_table table p :
  lanes_ok p = true -> (forall x, byte_ok x -> rd table x = Some (run 1 p x)) ->
  simulates (fun st => Some (run 8 p st.1, run 8 p st.2)) (sub_table table).
Proof.
  intros Hp Ht [d0 d1] s (bs & (W0 & W1 & <-) & Hg); simpl fst in *; simpl snd in *.
  destruct (sub_word_table table p 8 d0 Hp Ht ltac:(lia) W0) as [W0' F0].
  destruct (sub_word_table table p 8 d1 Hp Ht ltac:(lia) W1) as [W1' F1].
  pose proof (Forall2_app F0 F1) as F.
  destruct (gather_forall2 _ _ _ _ _ F Hg) as (s' & Hg' & Hs').
  exists (run 8 p d0, run 8 p d1), s'; split; [done|]; split.
  2:{ eexists; split; [split; [exact W0'|split; [exact W1'|reflexivity]]|exact Hg']. }
  unfold sub_table; rewrite <- (for_up_map _ _ _ Hs'); f_equal.
  exact (length_mapM _ _ _ Hg).
Qed.

Lemma sim_sub : simulates (fun st => Some (sub_state st)) muggle_aes_sub_bytes.
Proof. exact (sim_table _ sub_prog sub_lanes sub_byte). Qed.

Lemma sim_inv_sub : simulates (fun st => Some (inv_sub_state st)) muggle_aes_inv_sub_bytes.
Proof. exact (sim_table _ inv_sub_prog inv_sub_lanes inv_sub_byte). Qed.

Lemma sim_bytes f g :
  (forall bs s, is_block 16 bs -> gather bs state_layout = Some s ->
     exists bs' s', f bs = Some bs' /\ is_block 16 bs' /\ g s = Some s' /\
       gather bs' state_layout = Some s') ->
  simulates (fun st => bs ← f (state_bytes st); Some (state_of bs)) g.
Proof.
  intros H state s (bs & Hm & Hg); pose proof (mem_block _ _ Hm) as Hb.
  destruct (H bs s Hb Hg) as (bs' & s' & E & Hb' & D & Hg').
  destruct Hm as (_ & _ & ->); exists (state_of bs'), s'; rewrite E; split; [done|]; split; [done|].
  exists bs'; split; [by apply mem_state_of|done].
Qed.

Ltac shift_rows_case :=
  apply sim_bytes; intros bs s Hb Hg; block16 bs Hb; injection Hg as <-;
  eexists _, _; split; [reflexivity|]; split; [|split; reflexivity];
  destruct Hb as [_ Hf]; rewrite !Forall_cons in Hf; destruct_and! Hf;
  split; [reflexivity|]; repeat (constructor; [assumption|]); constructor.

Lemma sim_shift_row : simulates openssl_shift_row muggle_aes_shift_rows.
Proof. unfold openssl_shift_row; shift_rows_case. Qed.

Lemma sim_inv_shift_row : simulates openssl_inv_shift_row muggle_aes_inv_shift_rows.
Proof. unfold openssl_inv_shift_row; shift_rows_case. Qed.

(** *** Columns *)

Lemma land_255_id a : byte_ok a -> Z.land a 255 = a.
Proof.
  intros Ha; change 255 with (Z.ones 8); rewrite Z.land_ones by lia; by apply Z.mod_small.
Qed.

Lemma masked_width m d : in_width 64 m -> in_width 64 d -> in_width 64 (Z.land d m).
Proof. intros; apply in_width_land; [lia|done|done]. Qed.

(** Masking, shifting by whole bytes and joining moves bytes. *)
Lemma swap_bytes (s : nat) m1 m2 d :
  (s <= 8)%nat -> in_width 64 d -> in_width 64 m1 ->
  let r := Z.lor (Z.shiftr (Z.land d m1) (8 * Z.of_nat s))
                 (u64 (Z.shiftl (Z.land d m2) (8 * Z.of_nat s))) in
  in_width 64 r /\
  le_bytes 8 r = zip_with Z.lor
    (drop s (zip_with Z.land (le_bytes 8 d) (le_bytes 8 m1)) ++ replicate (min s 8) 0)
    (replicate s 0 ++ take (8 - s) (zip_with Z.land (le_bytes 8 d) (le_bytes 8 m2))).
Proof.
  intros Hs Hd Hm r; split.
  - apply in_width_lor; [lia| |apply wrap_range; lia].
    apply in_width_shiftr; [lia|by apply masked_width].
  - unfold r; rewrite le_bytes_lor, le_bytes_shiftr by (by apply (masked_width m1)).
    change 64 with (8 * Z.of_nat 8); rewrite le_bytes_shiftl by done; by rewrite !le_bytes_land.
Qed.

Section Column.
Context (d a0 a1 a2 a3 a4 a5 a6 a7 : Z).
Hypothesis d_width : in_width 64 d.
Hypothesis d_bytes : le_bytes 8 d = [a0; a1; a2; a3; a4; a5; a6; a7].

Lemma column_bytes : byte_ok a0 /\ byte_ok a1 /\ byte_ok a2 /\ byte_ok a3 /\
  byte_ok a4 /\ byte_ok a5 /\ byte_ok a6 /\ byte_ok a7.
Proof.
  destruct (le_bytes_block 8 d) as [_ F]; rewrite d_bytes, !Forall_cons in F; by destruct_and! F.
Qed.

Lemma swap16_bytes :
  in_width 64 (swap16 d) /\ le_bytes 8 (swap16 d) = [a2; a3; a0; a1; a6; a7; a4; a5].
Proof.
  destruct (swap_bytes 2 0xFFFF0000FFFF0000 0x0000FFFF0000FFFF d) as [W E];
    [lia|done|unfold in_width; lia|]; split; [exact W|]; etransitivity; [exact E|].
  rewrite d_bytes.
  change (le_bytes 8 0xFFFF0000FFFF0000) with [0; 0; 255; 255; 0; 0; 255; 255].
  change (le_bytes 8 0x0000FFFF0000FFFF) with [255; 255; 0; 0; 255; 255; 0; 0].
  cbn [zip_with drop take Nat.min replicate app Nat.sub skipn firstn].
  destruct column_bytes as (? & ? & ? & ? & ? & ? & ? & ?).
  by rewrite !land_255_id, !Z.land_0_r, !Z.lor_0_r, !Z.lor_0_l.
Qed.

Lemma swap8_bytes :
  in_width 64 (swap8 d) /\ le_bytes 8 (swap8 d) = [a1; a0; a3; a2; a5; a4; a7; a6].
Proof.
  destruct (swap_bytes 1 0xFF00FF00FF00FF00 0x00FF00FF00FF00FF d) as [W E];
    [lia|done|unfold in_width; lia|]; split; [exact W|]; etransitivity; [exact E|].
  rewrite d_bytes.
  change (le_bytes 8 0xFF00FF00FF00FF00) with [0; 255; 0; 255; 0; 255; 0; 255].
  change (le_bytes 8 0x00FF00FF00FF00FF) with [255; 0; 255; 0; 255; 0; 255; 0].
  cbn [zip_with drop take Nat.min replicate app Nat.sub skipn firstn].
  destruct column_bytes as (? & ? & ? & ? & ? & ? & ? & ?).
  by rewrite !land_255_id, !Z.land_0_r, !Z.lor_0_r, !Z.lor_0_l.
Qed.

Lemma xtime_bytes :
  in_width 64 (openssl_xtime_u64 d) /\ le_bytes 8 (openssl_xtime_u64 d) =
    [xtime a0; xtime a1; xtime a2; xtime a3; xtime a4; xtime a5; xtime a6; xtime a7].
Proof.
  destruct (xtime_word 8 d ltac:(lia) d_width) as [W E]; split; [exact W|].
  unfold openssl_xtime_u64; by rewrite E, d_bytes.
Qed.
End Column.

Lemma lxor_bytes d e b0 b1 b2 b3 b4 b5 b6 b7 c0 c1 c2 c3 c4 c5 c6 c7 :
  in_width 64 d -> le_bytes 8 d = [b0; b1; b2; b3; b4; b5; b6; b7] ->
  in_width 64 e -> le_bytes 8 e = [c0; c1; c2; c3; c4; c5; c6; c7] ->
  in_width 64 (Z.lxor d e) /\ le_bytes 8 (Z.lxor d e) =
    [Z.lxor b0 c0; Z.lxor b1 c1; Z.lxor b2 c2; Z.lxor b3 c3;
     Z.lxor b4 c4; Z.lxor b5 c5; Z.lxor b6 c6; Z.lxor b7 c7].
Proof.
  intros W1 E1 W2 E2; split; [by apply in_width_lxor|]; by rewrite le_bytes_lxor, E1, E2.
Qed.

Lemma xor_next_bytes d e b0 b1 b2 b3 b4 b5 b6 b7 c0 c1 c2 c3 c4 c5 c6 c7 :
  le_bytes 8 d = [b0; b1; b2; b3; b4; b5; b6; b7] ->
  le_bytes 8 e = [c0; c1; c2; c3; c4; c5; c6; c7] ->
  exists s, xor_next d e = Some s /\ in_width 64 s /\ le_bytes 8 s =
    [Z.lxor b0 c1; Z.lxor b1 c2; Z.lxor b2 c3; Z.lxor b3 c0;
     Z.lxor b4 c5; Z.lxor b5 c6; Z.lxor b6 c7; Z.lxor b7 c4].
Proof.
  intros E1 E2; destruct (le_bytes_block 8 d) as [_ F1], (le_bytes_block 8 e) as [_ F2].
  unfold xor_next; rewrite E1 in *; rewrite E2 in *; eexists; split; [reflexivity|].
  apply (word_of_bytes 8); rewrite !Forall_cons in F1, F2; destruct_and! F1; destruct_and! F2.
  split; [reflexivity|]; repeat (constructor; [by apply lxor_byte|]); constructor.
Qed.

Lemma galois_mul_consts x :
  galois_mul 1 x = x /\ galois_mul 2 x = xtime x /\ galois_mul 3 x = Z.lxor x (xtime x) /\
  galois_mul 9 x = Z.lxor x (xtime (xtime (xtime x))) /\
  galois_mul 11 x = Z.lxor (Z.lxor x (xtime x)) (xtime (xtime (xtime x))) /\
  galois_mul 13 x = Z.lxor (Z.lxor x (xtime (xtime x))) (xtime (xtime (xtime x))) /\
  galois_mul 14 x = Z.lxor (Z.lxor (xtime x) (xtime (xtime x))) (xtime (xtime (xtime x))).
Proof. repeat split. Qed.

(** Equality of exclusive ors, bit by bit. *)
Ltac xor_ring :=
  apply Z.bits_inj'; let n := fresh "n" in intros n _; rewrite !Z.lxor_spec;
  repeat match goal with |- context [Z.testbit ?x n] => generalize (Z.testbit x n) end;
  intros; btauto.

Definition columns (c0 c1 c2 c3 : Z * Z * Z * Z) (a0 a1 a2 a3 a4 a5 a6 a7 : Z) : list Z :=
  [row4 c0 a0 a1 a2 a3; row4 c1 a0 a1 a2 a3; row4 c2 a0 a1 a2 a3; row4 c3 a0 a1 a2 a3;
   row4 c0 a4 a5 a6 a7; row4 c1 a4 a5 a6 a7; row4 c2 a4 a5 a6 a7; row4 c3 a4 a5 a6 a7].

Ltac row_consts :=
  unfold columns, row4;
  repeat match goal with |- context [galois_mul ?c ?x] =>
    let H := fresh in pose proof (galois_mul_consts x) as H;
    let a := fresh in let b := fresh in let c := fresh in let d := fresh in
    let e := fresh in let f := fresh in let g := fresh in
    destruct H as (a & b & c & d & e & f & g); rewrite ?a, ?b, ?c, ?d, ?e, ?f, ?g;
    clear a b c d e f g end.

Section MixColumn.
Context (d a0 a1 a2 a3 a4 a5 a6 a7 : Z).
Hypothesis d_width : in_width 64 d.
Hypothesis d_bytes : le_bytes 8 d = [a0; a1; a2; a3; a4; a5; a6; a7].

Lemma mix_word_bytes : exists s s1, mix_word d = Some (s, s1) /\
  in_width 64 s /\
  le_bytes 8 s = columns (2, 3, 1, 1) (1, 2, 3, 1) (1, 1, 2, 3) (3, 1, 1, 2) a0 a1 a2 a3 a4 a5 a6 a7 /\
  in_width 64 s1 /\
  le_bytes 8 s1 = [xtime a0; xtime a1; xtime a2; xtime a3; xtime a4; xtime a5; xtime a6; xtime a7].
Proof.
  unfold mix_word; cbv zeta.
  destruct (swap16_bytes _ _ _ _ _ _ _ _ _ d_width d_bytes) as [W1 E1].
  destruct (lxor_bytes _ _ _ _ _ _ _ _ _ _ _ _ _ _ _ _ _ _ d_width d_bytes W1 E1) as [W2 E2].
  destruct (swap8_bytes _ _ _ _ _ _ _ _ _ W2 E2) as [W3 E3].
  destruct (lxor_bytes _ _ _ _ _ _ _ _ _ _ _ _ _ _ _ _ _ _ W2 E2 W3 E3) as [W4 E4].
  destruct (lxor_bytes _ _ _ _ _ _ _ _ _ _ _ _ _ _ _ _ _ _ W4 E4 d_width d_bytes) as [W5 E5].
  destruct (xtime_bytes _ _ _ _ _ _ _ _ _ d_width d_bytes) as [W6 E6].
  destruct (lxor_bytes _ _ _ _ _ _ _ _ _ _ _ _ _ _ _ _ _ _ W5 E5 W6 E6) as [W7 E7].
  destruct (xor_next_bytes _ _ _ _ _ _ _ _ _ _ _ _ _ _ _ _ _ _ E7 E6) as (s & Es & Ws & Bs).
  rewrite Es; cbn [mbind option_bind]; eexists s, _; split; [done|]; split; [done|].
  split; [|by split]; rewrite Bs; row_consts; clear.
  repeat (apply (f_equal2 cons); [xor_ring|]); done.
Qed.

Lemma inv_mix_word_bytes : exists s, inv_mix_word d = Some s /\ in_width 64 s /\
  le_bytes 8 s =
    columns (14, 11, 13, 9) (9, 14, 11, 13) (13, 9, 14, 11) (11, 13, 9, 14) a0 a1 a2 a3 a4 a5 a6 a7.
Proof.
  destruct mix_word_bytes as (s & s1 & E & W0 & B0 & W1 & B1); unfold inv_mix_word; rewrite E.
  cbn [mbind option_bind].
  destruct (xtime_bytes _ _ _ _ _ _ _ _ _ W1 B1) as [W2 B2].
  destruct (swap16_bytes _ _ _ _ _ _ _ _ _ W2 B2) as [W3 B3].
  destruct (lxor_bytes _ _ _ _ _ _ _ _ _ _ _ _ _ _ _ _ _ _ W2 B2 W3 B3) as [W4 B4].
  destruct (lxor_bytes _ _ _ _ _ _ _ _ _ _ _ _ _ _ _ _ _ _ W0 B0 W4 B4) as [W5 B5].
  destruct (xtime_bytes _ _ _ _ _ _ _ _ _ W4 B4) as [W6 B6].
  destruct (swap8_bytes _ _ _ _ _ _ _ _ _ W6 B6) as [W7 B7].
  destruct (lxor_bytes _ _ _ _ _ _ _ _ _ _ _ _ _ _ _ _ _ _ W6 B6 W7 B7) as [W8 B8].
  destruct (lxor_bytes _ _ _ _ _ _ _ _ _ _ _ _ _ _ _ _ _ _ W5 B5 W8 B8) as [W9 B9].
  eexists; split; [reflexivity|]; split; [exact W9|]; rewrite B9; row_consts; clear.
  rewrite !xtime_lxor; repeat (apply (f_equal2 cons); [xor_ring|]); done.
Qed.
End MixColumn.

(** The words of a state whose memory is known. *)
Lemma mem_words st s0 s1 s2 s3 s4 s5 s6 s7 s8 s9 s10 s11 s12 s13 s14 s15 :
  mem st [s0; s1; s2; s3; s4; s5; s6; s7; s8; s9; s10; s11; s12; s13; s14; s15] ->
  in_width 64 st.1 /\ le_bytes 8 st.1 = [s0; s1; s2; s3; s4; s5; s6; s7] /\
  in_width 64 st.2 /\ le_bytes 8 st.2 = [s8; s9; s10; s11; s12; s13; s14; s15].
Proof.
  intros Hm; destruct (mem_inv _ _ Hm) as (_ & E1 & _ & E2); destruct Hm as (W1 & W2 & _); done.
Qed.

Lemma sim_mix : simulates openssl_mix_columns muggle_aes_mix_column.
Proof.
  intros st s (bs & Hm & Hg); pose proof (mem_block _ _ Hm) as Hb; block16 bs Hb; injection Hg as <-.
  destruct (mem_words _ _ _ _ _ _ _ _ _ _ _ _ _ _ _ _ _ Hm) as (W1 & E1 & W2 & E2).
  destruct (mix_word_bytes _ _ _ _ _ _ _ _ _ W1 E1) as (d0 & t0 & F0 & V0 & B0 & _).
  destruct (mix_word_bytes _ _ _ _ _ _ _ _ _ W2 E2) as (d1 & t1 & F1 & V1 & B1 & _).
  unfold openssl_mix_columns; rewrite F0, F1; eexists (d0, d1), _; split; [reflexivity|].
  split; [apply (proj1 (mix_column_cells _ _ _ _ _ _ _ _ _ _ _ _ _ _ _ _))|].
  eexists; split; [split; [exact V0|split; [exact V1|reflexivity]]|].
  unfold state_bytes; simpl fst; simpl snd; rewrite B0, B1; reflexivity.
Qed.

Lemma sim_inv_mix : simulates openssl_inv_mix_columns muggle_aes_inv_mix_column.
Proof.
  intros st s (bs & Hm & Hg); pose proof (mem_block _ _ Hm) as Hb; block16 bs Hb; injection Hg as <-.
  destruct (mem_words _ _ _ _ _ _ _ _ _ _ _ _ _ _ _ _ _ Hm) as (W1 & E1 & W2 & E2).
  destruct (inv_mix_word_bytes _ _ _ _ _ _ _ _ _ W1 E1) as (d0 & F0 & V0 & B0).
  destruct (inv_mix_word_bytes _ _ _ _ _ _ _ _ _ W2 E2) as (d1 & F1 & V1 & B1).
  unfold openssl_inv_mix_columns; rewrite F0, F1; eexists (d0, d1), _; split; [reflexivity|].
  split; [apply (proj2 (mix_column_cells _ _ _ _ _ _ _ _ _ _ _ _ _ _ _ _))|].
  eexists; split; [split; [exact V0|split; [exact V1|reflexivity]]|].
  unfold state_bytes; simpl fst; simpl snd; rewrite B0, B1; reflexivity.
Qed.

(** *** Round keys *)

Lemma join_bytes lo hi : in_width 32 lo -> in_width 32 hi ->
  in_width 64 (join lo hi) /\ le_bytes 8 (join lo hi) = le_bytes 4 lo ++ le_bytes 4 hi.
Proof.
  intros Hlo Hhi; split.
  { apply in_width_lor; [lia|unfold in_width in *; lia|].
    unfold in_width in *; rewrite Z.shiftl_mul_pow2 by lia; lia. }
  destruct (le_bytes_block 4 lo) as [L1 F1], (le_bytes_block 4 hi) as [L2 F2].
  apply le_bytes_ext; [split; [rewrite length_app; lia|by apply Forall_app]|].
  intros k j Hk Hj; unfold join; rewrite Z.lor_spec, Z.shiftl_spec by lia.
  destruct (decide (k < 4)%nat).
  - rewrite app_nth1, le_bytes_bit, (Z.testbit_neg_r hi) by lia; apply orb_false_r.
  - rewrite app_nth2, le_bytes_bit by lia; rewrite (bits_above lo 32) by (done || lia).
    cbn [orb]; f_equal; lia.
Qed.

Lemma byte_of_word w k : (k < 4)%nat -> Z.land (Z.shiftr w (8 * Z.of_nat k)) 255 = nth k (le_bytes 4 w) 0.
Proof.
  intros Hk; destruct (le_bytes_block 4 w) as [L F]; apply byte_ext.
  - change 255 with (Z.ones 8); rewrite Z.land_ones by lia; apply (wrap_range 8); lia.
  - rewrite Forall_forall in F; apply F, list_elem_of_In, nth_In; lia.
  - intros j Hj; rewrite le_bytes_bit, Z.land_spec, Z.shiftr_spec by lia.
    change 255 with (Z.ones 8); rewrite Z.ones_spec_low, andb_true_r by lia; f_equal; lia.
Qed.

Lemma bswap_bytes w : in_width 32 (bswap w) /\ le_bytes 4 (bswap w) = rev (le_bytes 4 w).
Proof.
  destruct (le_bytes_block 4 w) as [L F]; apply (word_of_bytes 4); split; [by rewrite length_rev|].
  by apply Forall_rev.
Qed.

Lemma bytes4 w : exists b0 b1 b2 b3, le_bytes 4 w = [b0; b1; b2; b3].
Proof. by repeat eexists. Qed.

(** The bytes that the portable code takes from a word of its schedule. *)
Lemma key_bytes w b0 b1 b2 b3 : le_bytes 4 w = [b0; b1; b2; b3] ->
  Z.land (Z.shiftr (bswap w) 24) 255 = b0 /\ Z.land (Z.shiftr (bswap w) 16) 255 = b1 /\
  Z.land (Z.shiftr (bswap w) 8) 255 = b2 /\ Z.land (bswap w) 255 = b3.
Proof.
  intros E; destruct (bswap_bytes w) as [_ B]; rewrite E in B; cbn [rev app] in B.
  pose proof (byte_of_word (bswap w) 3 ltac:(lia)) as H3; pose proof (byte_of_word (bswap w) 2 ltac:(lia)) as H2.
  pose proof (byte_of_word (bswap w) 1 ltac:(lia)) as H1; pose proof (byte_of_word (bswap w) 0 ltac:(lia)) as H0.
  rewrite B in *; cbn [nth] in *; rewrite Z.shiftr_0_r in H0; done.
Qed.

Lemma rd_map (f : Z -> Z) l i : rd (map f l) i = f <$> rd l i.
Proof. unfold rd; case_decide; [apply list_lookup_fmap|done]. Qed.

Lemma rd_word w : Forall (in_width 32) w -> forall j, 0 <= j < Z.of_nat (length w) ->
  exists x, rd w j = Some x /\ in_width 32 x.
Proof.
  intros Hw j Hj; destruct (rd_is_Some w j Hj) as [x Hx]; exists x; split; [done|].
  unfold rd in Hx; rewrite decide_True in Hx by lia; exact (Forall_lookup_1 _ _ _ _ Hw Hx).
Qed.

Lemma sim_add_round_key w i :
  Forall (in_width 32) w -> 0 <= i -> 4 * i + 4 <= Z.of_nat (length w) ->
  simulates (fun st => openssl_add_round_key st w (i * 2))
            (fun s => muggle_aes_add_round_key s (map bswap w) (4 * i)).
Proof.
  intros Hw Hi Hl st s (bs & Hm & Hg); pose proof (mem_block _ _ Hm) as Hb; block16 bs Hb; injection Hg as <-.
  destruct (mem_words _ _ _ _ _ _ _ _ _ _ _ _ _ _ _ _ _ Hm) as (W1 & E1 & W2 & E2).
  destruct (rd_word w Hw (4 * i) ltac:(lia)) as (k0 & R0 & K0),
    (rd_word w Hw (4 * i + 1) ltac:(lia)) as (k1 & R1 & K1),
    (rd_word w Hw (4 * i + 2) ltac:(lia)) as (k2 & R2 & K2),
    (rd_word w Hw (4 * i + 3) ltac:(lia)) as (k3 & R3 & K3).
  unfold openssl_add_round_key, rd64.
  replace (2 * (i * 2)) with (4 * i) by lia; replace (2 * (i * 2 + 1)) with (4 * i + 2) by lia.
  replace (4 * i + 2 + 1) with (4 * i + 3) by lia.
  unfold muggle_aes_add_round_key; rewrite !rd_map, R0, R1, R2, R3; cbn [fmap option_fmap option_map mbind option_bind].
  destruct (join_bytes k0 k1 K0 K1) as [J1 B1], (join_bytes k2 k3 K2 K3) as [J2 B2].
  destruct (bytes4 k0) as (x0 & x1 & x2 & x3 & X), (bytes4 k1) as (y0 & y1 & y2 & y3 & Y),
    (bytes4 k2) as (z0 & z1 & z2 & z3 & Zb), (bytes4 k3) as (v0 & v1 & v2 & v3 & V).
  rewrite X, Y in B1; rewrite Zb, V in B2; cbn [app] in B1, B2.
  destruct (lxor_bytes _ _ _ _ _ _ _ _ _ _ _ _ _ _ _ _ _ _ W1 E1 J1 B1) as [P1 Q1].
  destruct (lxor_bytes _ _ _ _ _ _ _ _ _ _ _ _ _ _ _ _ _ _ W2 E2 J2 B2) as [P2 Q2].
  eexists _, _; split; [reflexivity|]; split; [reflexivity|].
  eexists; split; [split; [exact P1|split; [exact P2|reflexivity]]|].
  unfold state_bytes; simpl fst; simpl snd; rewrite Q1, Q2.
  destruct (key_bytes _ _ _ _ _ X) as (-> & -> & -> & ->), (key_bytes _ _ _ _ _ Y) as (-> & -> & -> & ->),
    (key_bytes _ _ _ _ _ Zb) as (-> & -> & -> & ->), (key_bytes _ _ _ _ _ V) as (-> & -> & -> & ->).
  reflexivity.
Qed.

(** ** The ciphers *)

Lemma simulates_ext f f' g g' :
  (forall x, f x = f' x) -> (forall x, g x = g' x) -> simulates f g -> simulates f' g'.
Proof. intros Hf Hg H st s Hs; rewrite <- Hf, <- Hg; by apply H. Qed.

Lemma simulates_app f1 f2 key cs1 cs2 :
  simulates f1 (do_calls key cs1) -> simulates f2 (do_calls key cs2) ->
  simulates (fun x => x ← f1 x; f2 x) (do_calls key (cs1 ++ cs2)).
Proof.
  intros H1 H2; eapply simulates_ext; [done| |exact (simulates_bind _ _ _ _ H1 H2)].
  intros s; symmetry; apply do_calls_app.
Qed.

(** One call. *)
Lemma simulates_one f key c : simulates f (do_call key c) -> simulates f (do_calls key [c]).
Proof.
  intros H; eapply simulates_ext; [done| |exact H]; intros s; simpl; by destruct (do_call key c s).
Qed.

(** A call that cannot fail. *)
Lemma simulates_pure h f key c cs :
  simulates (fun x => Some (h x)) (do_call key c) -> simulates f (do_calls key cs) ->
  simulates (fun x => f (h x)) (do_calls key (c :: cs)).
Proof. intros H1 H2; exact (simulates_app _ _ key [c] cs (simulates_one _ _ _ H1) H2). Qed.

Lemma simulates_for_up f key (cs : Z -> list aes_call) n i :
  (forall j, i <= j < i + Z.of_nat n -> simulates (f j) (do_calls key (cs j))) ->
  simulates (for_up f n i) (do_calls key (concat (map cs (seqZ i (Z.of_nat n))))).
Proof.
  revert i; induction n as [|n IH]; intros i H.
  { intros st s Hs; by exists st, s. }
  rewrite seqZ_cons by lia; cbn [map concat].
  replace (Z.pred (Z.of_nat (S n))) with (Z.of_nat n) by lia.
  apply (simulates_app (f i) (for_up f n (i + 1))); [apply H; lia|apply IH; intros j Hj; apply H; lia].
Qed.

Lemma simulates_for_down f key (cs : Z -> list aes_call) n i :
  (forall j, i - Z.of_nat n < j <= i -> simulates (f j) (do_calls key (cs j))) ->
  simulates (for_down f n i)
    (do_calls key (concat (map cs (rev (seqZ (i - Z.of_nat n + 1) (Z.of_nat n)))))).
Proof.
  revert i; induction n as [|n IH]; intros i H.
  { intros st s Hs; by exists st, s. }
  replace (Z.of_nat (S n)) with (Z.of_nat n + 1) by lia.
  rewrite seqZ_app by lia; rewrite rev_app_distr, map_app, concat_app.
  replace (i - (Z.of_nat n + 1) + 1 + Z.of_nat n) with i by lia.
  apply (simulates_app (f i) (for_down f n (i - 1))).
  - change (seqZ i 1) with [i]; cbn [rev map concat app]; rewrite app_nil_r; apply H; lia.
  - replace (i - (Z.of_nat n + 1) + 1) with (i - 1 - Z.of_nat n + 1) by lia.
    apply IH; intros j Hj; apply H; lia.
Qed.

#[local] Opaque sub_state inv_sub_state openssl_shift_row openssl_inv_shift_row
  openssl_mix_columns openssl_inv_mix_columns openssl_add_round_key do_calls.

Section Cipher.
Context (w : list Z) (r : Z).
Hypothesis w_words : Forall (in_width 32) w.
Hypothesis r_valid : rounds_valid r = true.
Hypothesis w_size : 4 * (r + 1) <= Z.of_nat (length w).
Let key := map bswap w.

Lemma r_range : 10 <= r <= 14.
Proof. pose proof (rounds_cases r r_valid); lia. Qed.

Lemma ark i : 0 <= i <= r ->
  simulates (fun st => openssl_add_round_key st w (i * 2)) (do_calls key [AddRoundKey (4 * i)]).
Proof. intros Hi; apply simulates_one, sim_add_round_key; [done|lia|lia]. Qed.

Lemma round_sim i : 0 <= i <= r -> simulates (openssl_round w i) (do_calls key (enc_round (4 * i))).
Proof.
  intros Hi.
  pose proof (simulates_app _ _ key _ [_] (simulates_one _ key MixColumn sim_mix) (ark i Hi)) as H1.
  pose proof (simulates_app _ _ key _ _ (simulates_one _ key ShiftRows sim_shift_row) H1) as H2.
  pose proof (simulates_pure _ _ key SubBytes _ sim_sub H2) as H3.
  exact H3.
Qed.

Lemma last_sim : simulates
  (fun st => st ← openssl_shift_row (sub_state st); openssl_add_round_key st w (r * 2))
  (do_calls key (enc_last (4 * r))).
Proof.
  pose proof r_range; pose proof (ark r ltac:(lia)) as H1.
  pose proof (simulates_app _ _ key _ _ (simulates_one _ key ShiftRows sim_shift_row) H1) as H2.
  pose proof (simulates_pure _ _ key SubBytes _ sim_sub H2) as H3.
  exact H3.
Qed.

Lemma inv_round_sim i : 0 <= i <= r -> simulates (openssl_inv_round w i)
  (do_calls key [InvShiftRows; InvSubBytes; AddRoundKey (4 * i); InvMixColumn]).
Proof.
  intros Hi.
  pose proof (simulates_app _ _ key _ _ (ark i Hi) (simulates_one _ key InvMixColumn sim_inv_mix)) as H1.
  pose proof (simulates_pure _ _ key InvSubBytes _ sim_inv_sub H1) as H2.
  pose proof (simulates_app _ _ key _ _ (simulates_one _ key InvShiftRows sim_inv_shift_row) H2) as H3.
  exact H3.
Qed.

Lemma encrypt_calls_loop :
  encrypt_calls r = [AddRoundKey (4 * 0)] ++
    concat (map (fun i => enc_round (4 * i)) (seqZ 1 (Z.of_nat (Z.to_nat (r - 1))))) ++ enc_last (4 * r).
Proof. destruct (rounds_cases r r_valid) as [->|[->| ->]]; reflexivity. Qed.

Lemma decrypt_calls_loop :
  decrypt_calls r = [AddRoundKey (4 * r)] ++
    concat (map (fun i => [InvShiftRows; InvSubBytes; AddRoundKey (4 * i); InvMixColumn])
      (rev (seqZ (r - 1 - Z.of_nat (Z.to_nat (r - 1)) + 1) (Z.of_nat (Z.to_nat (r - 1)))))) ++
    [InvShiftRows; InvSubBytes; AddRoundKey (4 * 0)].
Proof. destruct (rounds_cases r r_valid) as [->|[->| ->]]; reflexivity. Qed.

Lemma cipher_sim : simulates
  (fun st => st ← openssl_add_round_key st w 0;
             st ← for_up (openssl_round w) (Z.to_nat (r - 1)) 1 st;
             st ← openssl_shift_row (sub_state st);
             openssl_add_round_key st w (r * 2))
  (do_calls key (encrypt_calls r)).
Proof.
  rewrite encrypt_calls_loop; pose proof r_range.
  apply (simulates_app _ _ key _ _ (ark 0 ltac:(lia))); refine (simulates_app _ _ key _ _ _ last_sim).
  apply simulates_for_up; intros j Hj; apply round_sim; lia.
Qed.

Lemma inv_cipher_sim : simulates
  (fun st => st ← openssl_add_round_key st w (r * 2);
             st ← for_down (openssl_inv_round w) (Z.to_nat (r - 1)) (r - 1) st;
             st ← openssl_inv_shift_row st;
             openssl_add_round_key (inv_sub_state st) w 0)
  (do_calls key (decrypt_calls r)).
Proof.
  rewrite decrypt_calls_loop; pose proof r_range.
  pose proof (simulates_pure _ _ key InvSubBytes _ sim_inv_sub (ark 0 ltac:(lia))) as H1.
  pose proof (simulates_app _ _ key _ _ (simulates_one _ key InvShiftRows sim_inv_shift_row) H1) as H2.
  apply (simulates_app _ _ key _ _ (ark r ltac:(lia))); refine (simulates_app _ _ key _ _ _ H2).
  apply simulates_for_down; intros j Hj; apply inv_round_sim; lia.
Qed.
End Cipher.

(** ** The block function of the default build is the portable one *)

(** The schedule of the portable code with the same bytes. *)
Definition portable_keys (sk : muggle_aes_subkeys) : muggle_aes_subkeys :=
  ASK (map bswap (rd_key sk)) (rounds sk).

(** A schedule of 32-bit words, with a round key for every round. *)
Definition keys_ok (sk : muggle_aes_subkeys) : Prop :=
  rounds_valid (rounds sk) = true /\ Forall (in_width 32) (rd_key sk) /\
  4 * (rounds sk + 1) <= Z.of_nat (length (rd_key sk)).

Lemma portable_keys_ok sk : keys_ok sk -> subkeys_ok (portable_keys sk).
Proof.
  intros (Hr & Hw & Hl); split; [done|]; split; [|by simpl; rewrite length_map].
  simpl; apply Forall_map, (Forall_impl _ _ _ Hw); intros x _; apply bswap_bytes.
Qed.

Lemma copy_block b : is_block 16 b -> copy_out b 0 16 = Some b.
Proof. intros [L _]; rewrite copy_out_Some by lia; f_equal; apply slice_all; lia. Qed.

Lemma sim_start b : is_block 16 b -> exists s, gather b state_layout = Some s /\ sim (state_of b) s.
Proof.
  intros Hb; destruct (gather_undone b Hb) as (s & E & _ & _); exists s; split; [done|].
  exists b; split; [by apply mem_state_of|done].
Qed.

Lemma sim_end st s : sim st s ->
  gather s state_layout = Some (state_bytes st) /\ is_block 16 (state_bytes st).
Proof.
  intros (bs & Hm & Hg); pose proof (mem_block _ _ Hm) as Hb; destruct Hm as (_ & _ & ->).
  destruct (gather_undone bs Hb) as (s' & E & _ & D); by simplify_eq.
Qed.

#[local] Opaque gather state_layout.

Lemma crypt_opt_portable op sk b :
  op_valid op = true -> keys_ok sk -> is_block 16 b ->
  exists c, muggle_aes_crypt_opt op sk b = Some (0, c) /\
    muggle_aes_crypt op (portable_keys sk) b = Some (0, c) /\ is_block 16 c.
Proof.
  intros Hop (Hr & Hw & Hl) Hb; destruct (sim_start b Hb) as (s & Hg & Hs).
  unfold muggle_aes_crypt_opt, muggle_aes_crypt; rewrite Hop, Hg; cbn [negb mbind option_bind].
  unfold muggle_openssl_aes_encrypt, muggle_openssl_aes_decrypt, openssl_cipher, openssl_inv_cipher,
    muggle_aes_encrypt, muggle_aes_decrypt; cbn [portable_keys rounds rd_key]; rewrite Hr.
  rewrite copy_block by done; cbn [negb mbind option_bind].
  unfold op_valid in Hop; destruct (op =? MUGGLE_ENCRYPT).
  - destruct (cipher_sim _ _ Hw Hr Hl _ _ Hs) as (st & s' & E & D & Hs'); rewrite D.
    destruct (openssl_add_round_key _ _ 0) as [st1|]; cbn [mbind option_bind] in *; [|done].
    destruct (for_up _ _ _ st1) as [st2|]; cbn [mbind option_bind] in *; [|done].
    destruct (openssl_shift_row _) as [st3|]; cbn [mbind option_bind] in *; [|done].
    rewrite E; cbn [mbind option_bind]; destruct (sim_end _ _ Hs') as [-> Hc].
    exists (state_bytes st); done.
  - destruct (op =? MUGGLE_DECRYPT); [|done].
    destruct (inv_cipher_sim _ _ Hw Hr Hl _ _ Hs) as (st & s' & E & D & Hs'); rewrite D.
    destruct (openssl_add_round_key (state_of b) _ _) as [st1|]; cbn [mbind option_bind] in *; [|done].
    destruct (for_down _ _ _ st1) as [st2|]; cbn [mbind option_bind] in *; [|done].
    destruct (openssl_inv_shift_row _) as [st3|]; cbn [mbind option_bind] in *; [|done].
    rewrite E; cbn [mbind option_bind]; destruct (sim_end _ _ Hs') as [-> Hc].
    exists (state_bytes st); done.
Qed.

#[global] Instance openssl_block_cipher sk : keys_ok sk ->
  BlockCipher 16 (block_of muggle_aes_crypt_opt MUGGLE_ENCRYPT sk)
    (block_of muggle_aes_crypt_opt MUGGLE_DECRYPT sk).
Proof.
  intros Hk; split; [lia|]; intros b Hb.
  destruct (crypt_opt_portable MUGGLE_ENCRYPT sk b eq_refl Hk Hb) as (c & E1 & P1 & Hc).
  destruct (crypt_opt_portable MUGGLE_DECRYPT sk c eq_refl Hk Hc) as (b' & E2 & P2 & Hb').
  pose proof (aes_block_cipher _ (portable_keys_ok sk Hk)) as HB.
  destruct (bc_inverse (BlockCipher := HB) b Hb) as (c' & Q1 & _ & Q2); unfold block_of in *.
  rewrite P1 in Q1; cbn [mbind option_bind] in Q1; injection Q1 as <-.
  rewrite P2 in Q2; cbn [mbind option_bind] in Q2; injection Q2 as ->.
  exists c; rewrite E1, E2; done.
Qed.

(** ** The key schedule *)

Lemma word_inj n a b :
  in_width (8 * Z.of_nat n) a -> in_width (8 * Z.of_nat n) b -> le_bytes n a = le_bytes n b -> a = b.
Proof.
  intros Ha%width_bytes Hb%width_bytes E; rewrite <- (of_le_bytes n a), <- (of_le_bytes n b), E; done.
Qed.

Lemma bswap_width x : in_width 32 (bswap x).
Proof. apply bswap_bytes. Qed.

Lemma bswap_of_bytes b0 b1 b2 b3 :
  byte_ok b0 -> byte_ok b1 -> byte_ok b2 -> byte_ok b3 ->
  bswap (of_le [b0; b1; b2; b3]) = of_le [b3; b2; b1; b0].
Proof.
  intros; unfold bswap; rewrite (proj2 (word_of_bytes 4 [b0; b1; b2; b3] ltac:(split; [done|auto]))).
  reflexivity.
Qed.

Lemma bswap_lxor x y : in_width 32 x -> in_width 32 y -> bswap (Z.lxor x y) = Z.lxor (bswap x) (bswap y).
Proof.
  intros Hx Hy; apply (word_inj 4); [apply bswap_width|apply in_width_lxor; [lia|apply bswap_width..]|].
  rewrite (proj2 (bswap_bytes _)), !le_bytes_lxor, !(proj2 (bswap_bytes _)).
  destruct (bytes4 x) as (? & ? & ? & ? & ->), (bytes4 y) as (? & ? & ? & ? & ->); reflexivity.
Qed.

(** A word by its bytes. *)
Lemma word_bytes4 x : in_width 32 x -> exists b0 b1 b2 b3,
  le_bytes 4 x = [b0; b1; b2; b3] /\ le_bytes 4 (bswap x) = [b3; b2; b1; b0] /\
  byte_ok b0 /\ byte_ok b1 /\ byte_ok b2 /\ byte_ok b3.
Proof.
  intros Hx; destruct (bytes4 x) as (b0 & b1 & b2 & b3 & E); exists b0, b1, b2, b3.
  destruct (le_bytes_block 4 x) as [_ F]; rewrite (proj2 (bswap_bytes x)), E in *.
  rewrite !Forall_cons in F; destruct_and! F; done.
Qed.

Lemma rot_word_sim x : in_width 32 x -> exists y, openssl_rot_word x = Some y /\ in_width 32 y /\
  muggle_aes_rot_word (bswap x) = Some (bswap y).
Proof.
  intros Hx; destruct (word_bytes4 x Hx) as (b0 & b1 & b2 & b3 & E1 & E2 & B0 & B1 & B2 & B3).
  unfold openssl_rot_word, muggle_aes_rot_word; rewrite E1, E2; exists (of_le [b1; b2; b3; b0]).
  split; [reflexivity|]; split; [apply (word_of_bytes 4); split; [done|auto]|].
  rewrite bswap_of_bytes by done; reflexivity.
Qed.

Lemma sub_u32_table x : in_width 32 x -> in_width 32 (openssl_sub_u32 x) /\
  Forall2 (fun b r => rd s_muggle_aes_sbox b = Some r) (le_bytes 4 x) (le_bytes 4 (openssl_sub_u32 x)).
Proof. exact (sub_word_table _ sub_prog 4 x sub_lanes sub_byte ltac:(lia)). Qed.

Lemma sub_u64_table x : in_width 64 x ->
  Forall2 (fun b r => rd s_muggle_aes_sbox b = Some r) (le_bytes 8 x) (le_bytes 8 (openssl_sub_u64 x)).
Proof. intros Hx; exact (proj2 (sub_word_table _ sub_prog 8 x sub_lanes sub_byte ltac:(lia) Hx)). Qed.

Lemma inv_sub_u64_table x : in_width 64 x ->
  Forall2 (fun b r => rd s_muggle_aes_inv_sbox b = Some r) (le_bytes 8 x)
    (le_bytes 8 (openssl_inv_sub_u64 x)).
Proof.
  intros Hx; exact (proj2 (sub_word_table _ inv_sub_prog 8 x inv_sub_lanes inv_sub_byte ltac:(lia) Hx)).
Qed.

Lemma xtime_u64_bytes x : in_width 64 x ->
  map (galois_mul 2) (le_bytes 8 x) = le_bytes 8 (openssl_xtime_u64 x).
Proof.
  intros Hx; rewrite (map_ext _ xtime) by (intros y; apply (galois_mul_consts y)).
  symmetry; exact (proj2 (xtime_word 8 x ltac:(lia) Hx)).
Qed.

Lemma sub_word_list word b0 b1 b2 b3 r0 r1 r2 r3 :
  le_bytes 4 word = [b0; b1; b2; b3] ->
  rd s_muggle_aes_sbox b0 = Some r0 -> rd s_muggle_aes_sbox b1 = Some r1 ->
  rd s_muggle_aes_sbox b2 = Some r2 -> rd s_muggle_aes_sbox b3 = Some r3 ->
  muggle_aes_sub_word word = Some (of_le [r0; r1; r2; r3]).
Proof.
  intros E; unfold muggle_aes_sub_word; rewrite E; generalize s_muggle_aes_sbox; intros table H0 H1 H2 H3.
  change (rd [b0; b1; b2; b3] 0) with (Some b0); change (rd [b0; b1; b2; b3] 1) with (Some b1).
  change (rd [b0; b1; b2; b3] 2) with (Some b2); change (rd [b0; b1; b2; b3] 3) with (Some b3).
  cbn [mbind option_bind]; rewrite H0; cbn [mbind option_bind]; rewrite H1; cbn [mbind option_bind].
  rewrite H2; cbn [mbind option_bind]; rewrite H3; done.
Qed.

Lemma sub_word_bytes x z : in_width 32 x -> in_width 32 z ->
  Forall2 (fun b r => rd s_muggle_aes_sbox b = Some r) (le_bytes 4 x) (le_bytes 4 z) ->
  muggle_aes_sub_word (bswap x) = Some (bswap z).
Proof.
  intros Hx Hz F; destruct (word_bytes4 x Hx) as (b0 & b1 & b2 & b3 & E1 & E2 & _).
  destruct (word_bytes4 z Hz) as (r0 & r1 & r2 & r3 & E3 & _).
  rewrite E1, E3, !Forall2_cons in F; destruct F as (F0 & F1 & F2 & F3 & _).
  rewrite (sub_word_list (bswap x) _ _ _ _ _ _ _ _ E2 F3 F2 F1 F0); f_equal.
  unfold bswap; rewrite E3; done.
Qed.

Lemma sub_word_sim x : in_width 32 x ->
  in_width 32 (openssl_sub_u32 x) /\ muggle_aes_sub_word (bswap x) = Some (bswap (openssl_sub_u32 x)).
Proof.
  intros Hx; destruct (sub_u32_table x Hx) as [W F]; split; [exact W|].
  exact (sub_word_bytes x _ Hx W F).
Qed.

(** The round constants: a table there, doubled in each use here. *)
Definition rc (k : nat) : Z := Nat.iter k openssl_xtime_u32 1.

Lemma rc_width k : in_width 32 (rc k).
Proof.
  induction k as [|k IH]; [unfold in_width; simpl; lia|].
  exact (proj1 (xtime_word 4 (rc k) ltac:(lia) IH)).
Qed.

Lemma rc_table k : 0 <= k <= 9 -> rd s_aes_rcon k = Some (bswap (rc (Z.to_nat k))).
Proof.
  intros Hk.
  assert (forallb (fun k => is_entry s_aes_rcon k (bswap (rc (Z.to_nat k)))) (seqZ 0 10) = true) as H
    by (vm_compute; reflexivity).
  rewrite forallb_forall in H; apply is_entry_spec, H, list_elem_of_In, elem_of_seqZ; lia.
Qed.

Lemma wr_map (f : Z -> Z) l i x : wr (map f l) i (f x) = map f <$> wr l i x.
Proof.
  unfold wr; rewrite length_map; case_decide; [|done]; simpl; f_equal; symmetry.
  apply list_fmap_insert.
Qed.

Lemma halves lo hi : in_width 32 lo -> in_width 32 hi ->
  lo32 (join lo hi) = lo /\ hi32 (join lo hi) = hi.
Proof.
  intros Hlo Hhi; unfold lo32, hi32, join; split.
  - change 0xFFFFFFFF with (Z.ones 32); rewrite Z.land_lor_distr_l, !Z.land_ones by lia.
    rewrite Z.shiftl_mul_pow2, Z.mod_mul, Z.lor_0_r by lia; by apply Z.mod_small.
  - rewrite Z.shiftr_lor, Z.shiftr_shiftl_l by lia.
    by rewrite Z.shiftr_div_pow2, Z.div_small, Z.shiftl_0_r by (lia || done).
Qed.

#[local] Opaque bswap openssl_sub_u32 openssl_xtime_u32 muggle_aes_sub_word muggle_aes_rot_word
  openssl_rot_word s_aes_rcon.

Lemma expand_word_swap Nk i w t t' x w' :
  rd w (i - 1) = Some t -> expand_word_temp Nk i (bswap t) = Some (bswap t') ->
  rd w (i - Nk) = Some x -> in_width 32 x -> in_width 32 t' ->
  wr w i (Z.lxor x t') = Some w' -> expand_word Nk i (map bswap w) = Some (map bswap w').
Proof.
  intros E1 E2 E3 Hx Ht E4; unfold expand_word; rewrite !rd_map, E1, E3.
  cbn [fmap option_fmap option_map mbind option_bind]; rewrite E2; cbn [mbind option_bind].
  by rewrite <- bswap_lxor, wr_map, E4.
Qed.

Section Expansion.
Context (n : Z) (n_range : 2 <= n <= 4).
Let nk := 2 * n.

Lemma temp_sim i t : in_width 32 t -> n <= i < 11 * n ->
  let rcon := rc (Z.to_nat ((i - 1) / n)) in
  exists t', expand_temp nk n i t rcon = Some (t', rc (Z.to_nat (i / n))) /\
    expand_word_temp nk (2 * i) (bswap t) = Some (bswap t') /\ in_width 32 t'.
Proof.
  intros Ht Hi rcon; unfold expand_temp, expand_word_temp, nk; rewrite Z.mul_mod_distr_l by lia.
  pose proof (Z.div_mod i n ltac:(lia)) as Hd; pose proof (Z.mod_pos_bound i n ltac:(lia)) as Hm.
  replace (2 * (i mod n) =? 0) with (i mod n =? 0) by lia.
  replace (2 * (i mod n) =? 4) with (i mod n =? 2) by lia.
  destruct (i mod n =? 0) eqn:E0; [assert (i mod n = 0) as Hz by lia|].
  - destruct (rot_word_sim t Ht) as (y & -> & Hy & ->); cbn [mbind option_bind].
    destruct (sub_word_sim y Hy) as [Wy ->]; cbn [mbind option_bind].
    assert ((i - 1) / n = i / n - 1) as Hq.
    { symmetry; apply (Z.div_unique _ _ _ (n - 1)); [lia|nia]. }
    assert ((2 * i - 1) / (2 * n) = i / n - 1) as Hq2.
    { symmetry; apply (Z.div_unique _ _ _ (2 * n - 1)); [lia|nia]. }
    assert (1 <= i / n <= 10) by nia.
    rewrite Hq2, rc_table by lia; cbn [mbind option_bind]; unfold rcon; rewrite Hq.
    eexists; split; [|split; [|apply in_width_lxor; [lia|exact Wy|apply rc_width]]].
    + do 2 f_equal; replace (Z.to_nat (i / n)) with (S (Z.to_nat (i / n - 1))) by lia; done.
    + by rewrite bswap_lxor by (done || apply rc_width).
  - assert ((i - 1) / n = i / n) as Hq.
    { symmetry; apply (Z.div_unique _ _ _ (i mod n - 1)); lia. }
    unfold rcon; rewrite Hq; destruct (_ && _).
    + destruct (sub_word_sim t Ht) as [Wy ->]; by eexists.
    + by exists t.
Qed.

(** The second word of a pair is never transformed. *)
Lemma odd_word i t : expand_word_temp (2 * n) (2 * i + 1) t = Some t.
Proof.
  unfold expand_word_temp; assert ((2 * i + 1) mod (2 * n) = 2 * (i mod n) + 1) as ->.
  { pose proof (Z.div_mod i n ltac:(lia)); pose proof (Z.mod_pos_bound i n ltac:(lia)).
    symmetry; apply (Z.mod_unique _ _ (i / n)); nia. }
  replace (2 * (i mod n) + 1 =? 0) with false by lia.
  by replace (2 * (i mod n) + 1 =? 4) with false by lia; rewrite andb_false_r.
Qed.

(** One turn here is two turns there. *)
Lemma expand_step_sim i w p0 p1 :
  Forall (in_width 32) w -> in_width 32 p0 -> in_width 32 p1 -> rd w (2 * i - 1) = Some p1 ->
  n <= i < 11 * n -> 2 * i + 1 < Z.of_nat (length w) ->
  exists w' q0 q1,
    expand_step nk n i (w, join p0 p1, rc (Z.to_nat ((i - 1) / n)))
    = Some (w', join q0 q1, rc (Z.to_nat (i / n))) /\
    (v ← expand_word nk (2 * i) (map bswap w); expand_word nk (2 * i + 1) v) = Some (map bswap w') /\
    Forall (in_width 32) w' /\ length w' = length w /\ in_width 32 q0 /\ in_width 32 q1 /\
    rd w' (2 * (i + 1) - 1) = Some q1.
Proof.
  intros Hw H0 H1 Hp Hi Hl; unfold expand_step; rewrite (proj2 (halves _ _ H0 H1)).
  destruct (temp_sim i p1 H1 Hi) as (t & -> & Et & Ht); cbn [mbind option_bind].
  pose proof (rd_word w Hw) as Hrd.
  destruct (Hrd (2 * (i - n)) ltac:(lia)) as (lo & Elo & Wlo),
    (Hrd (2 * (i - n) + 1) ltac:(lia)) as (hi & Ehi & Whi).
  unfold rd64; rewrite Elo, Ehi; cbn [mbind option_bind].
  rewrite (proj1 (halves _ _ Wlo Whi)), (proj2 (halves _ _ Wlo Whi)).
  set (w0 := Z.lxor lo t); set (w1 := Z.lxor hi w0).
  assert (in_width 32 w0) as W0 by (apply in_width_lxor; [lia|done..]).
  assert (in_width 32 w1) as W1 by (apply in_width_lxor; [lia|done..]).
  unfold wr64; rewrite (proj1 (halves _ _ W0 W1)), (proj2 (halves _ _ W0 W1)).
  destruct (wr w (2 * i) w0) as [wa|] eqn:Ea; [|by rewrite wr_Some in Ea by lia].
  pose proof (wr_length _ _ _ _ Ea) as La.
  destruct (wr wa (2 * i + 1) w1) as [wb|] eqn:Eb; [|by rewrite wr_Some in Eb by lia].
  cbn [mbind option_bind]; rewrite Eb; exists wb, w0, w1; split; [done|].
  assert (Hwr : forall v j x v', Forall (in_width 32) v -> in_width 32 x -> wr v j x = Some v' ->
    Forall (in_width 32) v').
  { intros v j x v' Hv Hx [_ ->]%wr_inv; by apply Forall_insert. }
  split; [|split; [exact (Hwr _ _ _ _ (Hwr _ _ _ _ Hw W0 Ea) W1 Eb)|split; [by rewrite (wr_length _ _ _ _ Eb)|split; [done|split; [done|]]]]].
  2:{ replace (2 * (i + 1) - 1) with (2 * i + 1) by lia; by apply rd_wr_eq in Eb. }
  rewrite (expand_word_swap nk (2 * i) w p1 t lo wa Hp Et) by (done || unfold nk; rewrite <- Elo; f_equal; lia).
  cbn [mbind option_bind]; apply (expand_word_swap nk (2 * i + 1) wa w0 w0 hi wb); try done.
  - replace (2 * i + 1 - 1) with (2 * i) by lia; by apply rd_wr_eq in Ea.
  - apply odd_word.
  - unfold nk; rewrite (rd_wr_ne _ _ _ _ _ Ea), <- Ehi by lia; f_equal; lia.
Qed.

Lemma expand_loop m i w p0 p1 :
  Forall (in_width 32) w -> in_width 32 p0 -> in_width 32 p1 -> rd w (2 * i - 1) = Some p1 ->
  n <= i -> i + Z.of_nat m <= 11 * n -> 2 * (i + Z.of_nat m) <= Z.of_nat (length w) ->
  exists w' s, for_up (expand_step nk n) m i (w, join p0 p1, rc (Z.to_nat ((i - 1) / n)))
    = Some (w', s.1, s.2) /\
    for_up (expand_word nk) (2 * m) (2 * i) (map bswap w) = Some (map bswap w') /\
    Forall (in_width 32) w' /\ length w' = length w.
Proof.
  revert i w p0 p1; induction m as [|m IH]; intros i w p0 p1 Hw H0 H1 Hp Hi Hr Hl.
  { exists w, (join p0 p1, rc (Z.to_nat ((i - 1) / n))); done. }
  destruct (expand_step_sim i w p0 p1 Hw H0 H1 Hp ltac:(lia) ltac:(lia))
    as (w1 & q0 & q1 & E & D & Hw1 & Hl1 & Q0 & Q1 & Hq).
  destruct (IH (i + 1) w1 q0 q1) as (w2 & s & E2 & D2 & Hw2 & Hl2); [done..|lia|lia|lia|].
  exists w2, s; cbn [for_up]; rewrite E; cbn [mbind option_bind].
  replace (2 * S m)%nat with (S (S (2 * m))) by lia; cbn [for_up].
  destruct (expand_word nk (2 * i) (map bswap w)) as [v|]; cbn [mbind option_bind] in *; [|done].
  rewrite D; cbn [mbind option_bind]; replace (2 * i + 1 + 1) with (2 * (i + 1)) by lia.
  replace (i + 1 - 1) with i in E2 by lia; rewrite E2, D2, Hl2; done.
Qed.
End Expansion.

(** *** Loading the key *)

Lemma byte_bits_out b i : byte_ok b -> i < 0 \/ 8 <= i -> Z.testbit b i = false.
Proof.
  intros Hb [Hi|Hi]; [by apply Z.testbit_neg_r|apply (bits_above _ 8); [lia|exact Hb|done]].
Qed.

Lemma load_word_value k0 k1 k2 k3 :
  byte_ok k0 -> byte_ok k1 -> byte_ok k2 -> byte_ok k3 ->
  Z.lor (Z.lor (Z.lor (Z.shiftl k0 24) (Z.shiftl k1 16)) (Z.shiftl k2 8)) k3
  = bswap (of_le [k0; k1; k2; k3]).
Proof.
  intros H0 H1 H2 H3; rewrite bswap_of_bytes by done.
  assert (is_block 4 [k3; k2; k1; k0]) as Hb by (split; [done|auto]).
  destruct (word_of_bytes 4 _ Hb) as [W E]; apply (word_inj 4); [|done|rewrite E].
  - repeat apply in_width_lor; try lia; unfold byte_ok, in_width in *;
      rewrite ?Z.shiftl_mul_pow2 by lia; lia.
  - apply le_bytes_ext; [done|]; intros k j Hk Hj; rewrite !Z.lor_spec, !Z.shiftl_spec by lia.
    destruct k as [|[|[|[|k]]]]; [| | | |lia]; cbn [nth].
    + rewrite (byte_bits_out k0), (byte_bits_out k1), (byte_bits_out k2) by (done || lia).
      cbn [orb]; f_equal; lia.
    + rewrite (byte_bits_out k0), (byte_bits_out k1), (byte_bits_out k3), orb_false_r by (done || lia).
      cbn [orb]; f_equal; lia.
    + rewrite (byte_bits_out k0), (byte_bits_out k2), (byte_bits_out k3), !orb_false_r by (done || lia).
      cbn [orb]; f_equal; lia.
    + rewrite (byte_bits_out k1), (byte_bits_out k2), (byte_bits_out k3), !orb_false_r by (done || lia).
      f_equal; lia.
Qed.

Lemma rd_app_r {A} (pre l : list A) i :
  Z.of_nat (length pre) <= i -> rd (pre ++ l) i = rd l (i - Z.of_nat (length pre)).
Proof.
  intros Hi; unfold rd; rewrite !decide_True by lia; rewrite lookup_app_r by lia; f_equal; lia.
Qed.

Lemma load_loop m : forall kpre bs krest vpre v rest i,
  length bs = (4 * m)%nat -> Forall byte_ok bs -> length v = m ->
  i = Z.of_nat (length vpre) -> length kpre = (4 * length vpre)%nat ->
  for_up (load_word (kpre ++ bs ++ krest)) m i (vpre ++ v ++ rest)
  = Some (vpre ++ map bswap (le_words bs) ++ rest).
Proof.
  induction m as [|m IH]; intros kpre bs krest vpre v rest i Hb Hf Hv Hi Hk.
  { by destruct bs, v. }
  do 4 (destruct bs as [|? bs]; [simpl in Hb; lia|]); destruct v as [|x v]; [done|].
  rewrite !Forall_cons in Hf; destruct Hf as (B0 & B1 & B2 & B3 & Hf).
  rename z into k0, z0 into k1, z1 into k2, z2 into k3; cbn [for_up le_words map app].
  assert (load_word (kpre ++ k0 :: k1 :: k2 :: k3 :: bs ++ krest) i (vpre ++ x :: v ++ rest)
    = Some (vpre ++ bswap (of_le [k0; k1; k2; k3]) :: v ++ rest)) as ->.
  { unfold load_word; rewrite !rd_app_r by lia.
    replace (4 * i + 0 - Z.of_nat (length kpre)) with 0 by lia.
    replace (4 * i + 1 - Z.of_nat (length kpre)) with 1 by lia.
    replace (4 * i + 2 - Z.of_nat (length kpre)) with 2 by lia.
    replace (4 * i + 3 - Z.of_nat (length kpre)) with 3 by lia.
    change (rd (k0 :: k1 :: k2 :: k3 :: bs ++ krest) 0) with (Some k0).
    change (rd (k0 :: k1 :: k2 :: k3 :: bs ++ krest) 1) with (Some k1).
    change (rd (k0 :: k1 :: k2 :: k3 :: bs ++ krest) 2) with (Some k2).
    change (rd (k0 :: k1 :: k2 :: k3 :: bs ++ krest) 3) with (Some k3).
    cbn [mbind option_bind]; rewrite load_word_value by done; by apply wr_mid. }
  cbn [mbind option_bind].
  specialize (IH (kpre ++ [k0; k1; k2; k3]) bs krest (vpre ++ [bswap (of_le [k0; k1; k2; k3])]) v rest (i + 1)).
  rewrite <- !app_assoc in IH; cbn [app] in IH.
  apply IH; rewrite ?length_app; simpl in *; lia || done.
Qed.

Lemma le_words_ok m : forall bs, length bs = (4 * m)%nat -> Forall byte_ok bs ->
  length (le_words bs) = m /\ Forall (in_width 32) (le_words bs).
Proof.
  induction m as [|m IH]; intros bs Hl Hf; [by destruct bs|].
  do 4 (destruct bs as [|? bs]; [simpl in Hl; lia|]).
  rewrite !Forall_cons in Hf; destruct Hf as (B0 & B1 & B2 & B3 & Hf).
  destruct (IH bs) as [Hl' Hf']; [simpl in Hl; lia|done|]; cbn [le_words length]; split; [lia|].
  constructor; [apply (word_of_bytes 4); split; [done|auto]|done].
Qed.

Lemma key_expansion_sim n nr key w :
  2 <= n <= 4 -> n <= 2 * (nr + 1) <= 11 * n -> 8 * n <= Z.of_nat (length key) ->
  Forall byte_ok key -> Forall (in_width 32) w -> 4 * (nr + 1) <= Z.of_nat (length w) ->
  exists w', openssl_key_expansion key w nr (2 * n) = Some w' /\
    portable_key_expansion key (map bswap w) nr (2 * n) = Some (map bswap w') /\
    Forall (in_width 32) w' /\ length w' = length w.
Proof.
  intros Hn Hr Hk Hkb Hw Hl; unfold openssl_key_expansion, portable_key_expansion.
  rewrite copy_out_Some by lia; cbn [mbind option_bind].
  set (bs := slice key 0 (2 * n * 4)); set (m := Z.to_nat (2 * n)).
  assert (Forall byte_ok bs) as Hbs by (by apply Forall_take, Forall_drop).
  assert (length bs = (4 * m)%nat) as Hbl.
  { pose proof (slice_length key 0 (2 * n * 4)); unfold bs, m; lia. }
  destruct (le_words_ok m bs Hbl Hbs) as [Hwl Hww].
  rewrite copy_in_Some by (rewrite ?Hwl; lia); cbn [mbind option_bind].
  assert (blit w 0 (le_words bs) = le_words bs ++ drop m w) as ->.
  { unfold blit; rewrite Hwl; reflexivity. }
  set (w1 := le_words bs ++ drop m w).
  assert (for_up (load_word key) m 0 (map bswap w) = Some (map bswap w1)) as ->.
  { assert (key = [] ++ bs ++ drop (4 * m) key) as ->.
    { unfold bs, slice; replace (Z.to_nat (2 * n * 4)) with (4 * m)%nat by (unfold m; lia).
      symmetry; apply take_drop. }
    rewrite <- (take_drop m w) at 1; rewrite map_app; unfold w1; rewrite map_app.
    apply (load_loop m [] bs _ []); [done|done| |done|done].
    rewrite length_map, length_take; lia. }
  assert (Forall (in_width 32) w1) as Hw1 by (apply Forall_app; split; [done|by apply Forall_drop]).
  assert (length w1 = length w) as Hl1.
  { unfold w1; rewrite length_app, length_drop; lia. }
  cbn [mbind option_bind]; replace (2 * n / 2) with n by (rewrite Z.mul_comm, Z.div_mul; lia).
  pose proof (rd_word w1 Hw1) as Hrd.
  destruct (Hrd (2 * (n - 1)) ltac:(lia)) as (p0 & E0 & P0),
    (Hrd (2 * (n - 1) + 1) ltac:(lia)) as (p1 & E1 & P1).
  unfold rd64; rewrite E0, E1; cbn [mbind option_bind].
  destruct (expand_loop n Hn (Z.to_nat ((nr + 1) * 2 - n)) n w1 p0 p1) as (w2 & s & D1 & D2 & Hw2 & Hl2);
    [done..|by replace (2 * n - 1) with (2 * (n - 1) + 1) by lia|lia|lia|lia|].
  rewrite Z.div_small in D1 by lia; change (of_le [1; 0; 0; 0]) with (rc (Z.to_nat 0)); rewrite D1.
  exists w2; split; [done|]; split; [|split; [done|lia]].
  rewrite <- D2; f_equal; lia.
Qed.

(** The three key sizes. *)
Lemma key_rounds_cases bits nr : key_rounds bits = Some nr ->
  exists n, bits / 32 = 2 * n /\ 2 <= n <= 4 /\ n <= 2 * (nr + 1) <= 11 * n /\
    bits / 8 = 8 * n /\ rounds_valid nr = true /\ nr <= 14.
Proof.
  unfold key_rounds; destruct (Z.eqb_spec bits 128) as [->|]; [intros [= <-]; by exists 2|].
  destruct (Z.eqb_spec bits 192) as [->|]; [intros [= <-]; by exists 3|].
  destruct (Z.eqb_spec bits 256) as [->|]; [intros [= <-]; by exists 4|done].
Qed.

(** An array for the schedule: [uint32_t rd_key[60]]. *)
Definition room_ok (sk : muggle_aes_subkeys) : Prop :=
  length (rd_key sk) = 60%nat /\ Forall (in_width 32) (rd_key sk).

Lemma set_key_sim key bits nr sk0 :
  key_rounds bits = Some nr -> bits / 8 <= Z.of_nat (length key) -> Forall byte_ok key -> room_ok sk0 ->
  exists sk, muggle_openssl_aes_set_key key bits sk0 = Some (0, sk) /\ keys_ok sk /\ rounds sk = nr /\
    portable_key_expansion key (map bswap (rd_key sk0)) nr (bits / 32)
    = Some (rd_key (portable_keys sk)).
Proof.
  intros Hb Hk Hf [Hl Hw]; unfold muggle_openssl_aes_set_key; rewrite Hb.
  destruct (key_rounds_cases bits nr Hb) as (n & Hn & Hr & Hm & H8 & Hv & H14); rewrite Hn.
  destruct (key_expansion_sim n nr key (rd_key sk0)) as (w & E & D & Hw' & Hl'); [done..|lia|done|done|lia|].
  rewrite E; exists (ASK w nr); split; [done|]; split; [|done].
  split; [done|]; split; [done|simpl; lia].
Qed.

(** The contexts of the default build. *)
Lemma set_key_context key bits ctx0 k op mode :
  muggle_openssl_aes_set_key key bits (sk ctx0) = Some (0, k) -> op_valid op = true ->
  0 <= mode < MAX_MUGGLE_BLOCK_CIPHER_MODE ->
  muggle_aes_set_key op mode (Some key) bits (Some ctx0) = Some (0, Some (ACTX op mode k)).
Proof.
  intros E Hop Hm; unfold muggle_aes_set_key; rewrite Hop; cbn [negb].
  replace (mode >=? MUGGLE_BLOCK_CIPHER_MODE_ECB) with true by (unfold MUGGLE_BLOCK_CIPHER_MODE_ECB; lia).
  replace (mode <? MAX_MUGGLE_BLOCK_CIPHER_MODE) with true by lia; cbn [negb andb].
  rewrite E; reflexivity.
Qed.

(** ** FIPS-197, through the default build *)

Definition fips_cipher_key : list Z :=
  [43; 126; 21; 22; 40; 174; 210; 166; 171; 247; 21; 136; 9; 207; 79; 60].

Definition fresh_context : muggle_aes_context := ACTX 0 0 (ASK (replicate 60 0) 0).

Example fips_set_key :
  muggle_aes_set_key MUGGLE_ENCRYPT MUGGLE_BLOCK_CIPHER_MODE_ECB (Some fips_cipher_key) 128
    (Some fresh_context)
  = Some (0, Some (ACTX MUGGLE_ENCRYPT MUGGLE_BLOCK_CIPHER_MODE_ECB
                     (ASK (map bswap (rd_key fips_key)) 10))).
Proof. vm_compute; reflexivity. Qed.

Example fips_ecb :
  muggle_aes_ecb muggle_aes_crypt_opt
    (Some (ACTX MUGGLE_ENCRYPT MUGGLE_BLOCK_CIPHER_MODE_ECB (ASK (map bswap (rd_key fips_key)) 10)))
    (Some fips_input) 16 true
  = Some (inr [57; 37; 132; 29; 2; 220; 9; 251; 220; 17; 133; 151; 25; 106; 11; 50]).
Proof. vm_compute; reflexivity. Qed.

(** ** Properties *)

(** The constant-time substitution is the table: on every 64-bit word,
    each byte that [openssl_sub_u64] and [openssl_inv_sub_u64] compute with
    bit operations on the whole word is the entry of the S-box, or of the
    inverse S-box, for that byte, and the same holds of [openssl_sub_u32];
    [openssl_xtime_u64] multiplies each byte by x in the field. *)
Theorem openssl_sub_is_sbox (d w : Z) (Hd : in_width 64 d) (Hw : in_width 32 w) :
  mapM (rd s_muggle_aes_sbox) (le_bytes 8 d) = Some (le_bytes 8 (openssl_sub_u64 d)) /\
  mapM (rd s_muggle_aes_inv_sbox) (le_bytes 8 d) = Some (le_bytes 8 (openssl_inv_sub_u64 d)) /\
  mapM (rd s_muggle_aes_sbox) (le_bytes 4 w) = Some (le_bytes 4 (openssl_sub_u32 w)) /\
  map (galois_mul 2) (le_bytes 8 d) = le_bytes 8 (openssl_xtime_u64 d).
Proof.
  split; [exact (mapM_Some_2 _ _ _ (sub_u64_table d Hd))|].
  split; [exact (mapM_Some_2 _ _ _ (inv_sub_u64_table d Hd))|].
  split; [exact (mapM_Some_2 _ _ _ (proj2 (sub_u32_table w Hw)))|exact (xtime_u64_bytes d Hd)].
Qed.

(** C34: the optimised AES of the default build is the portable AES: for every
    schedule of 10, 12 or 14 rounds, every block and both operations,
    [muggle_aes_crypt] built with the OpenSSL code returns 0 and writes the
    same 16 bytes as the portable [muggle_aes_crypt] does with the same
    schedule (the portable code keeps the words in the other byte order). *)
Theorem openssl_aes_is_portable_aes (op : Z) (sk : muggle_aes_subkeys) (b : list Z)
    (Hop : op_valid op = true) (Hsk : keys_ok sk) (Hb : is_block 16 b) :
  exists c, muggle_aes_crypt_opt op sk b = Some (0, c) /\ is_block 16 c /\
    muggle_aes_crypt op (portable_keys sk) b = Some (0, c).
Proof.
  destruct (crypt_opt_portable op sk b Hop Hsk Hb) as (c & E1 & E2 & Hc); by exists c.
Qed.

(** Key setup: for 128, 192 and 256 bits [muggle_openssl_aes_set_key]
    stays inside the key and the array of 60 words, returns 0, and the
    schedule it leaves, with its two words per turn and its doubled round
    constant, is the one of the key expansion of FIPS-197 that the portable
    build has; any other size is rejected and the subkeys are unchanged. *)
Theorem openssl_key_schedule (key : list Z) (bits : Z) (sk0 : muggle_aes_subkeys)
    (Hkey : Forall byte_ok key) (Hlen : bits / 8 <= Z.of_nat (length key)) (Hroom : room_ok sk0) :
  match key_rounds bits with
  | Some nr => exists sk,
      muggle_openssl_aes_set_key key bits sk0 = Some (0, sk) /\ keys_ok sk /\ rounds sk = nr /\
      portable_key_expansion key (map bswap (rd_key sk0)) nr (bits / 32)
      = Some (rd_key (portable_keys sk))
  | None => muggle_openssl_aes_set_key key bits sk0 = Some (MUGGLE_ERR_CRYPT_KEY_SIZE, sk0)
  end.
Proof.
  destruct (key_rounds bits) as [nr|] eqn:E; [by apply set_key_sim|].
  unfold muggle_openssl_aes_set_key; by rewrite E.
Qed.

(** C35: the default build end to end: for a key of 128, 192 or 256 bits,
    [muggle_aes_set_key] succeeds for every operation and mode with one and
    the same schedule, and with the contexts it leaves every message (a whole
    number of blocks for ECB and CBC) that is encrypted decrypts to itself in
    each of the five modes, with the same chaining state on both sides. *)
Theorem aes_set_key_modes_roundtrip (key : list Z) (bits : Z) (ctx0 : muggle_aes_context)
    (m iv stream : list Z) (off : Z) (nonce : Z * Z)
    (Hbits : key_rounds bits <> None) (Hkey : Forall byte_ok key)
    (Hlen : bits / 8 <= Z.of_nat (length key)) (Hroom : room_ok (sk ctx0))
    (Hm : Forall byte_ok m) (Hsize : Z.of_nat (length m) < 2 ^ 32)
    (Hiv : is_block 16 iv) (Hst : is_block 16 stream) (Ho : 0 <= off < 16) :
  exists sk,
  let n := Z.of_nat (length m) in
  let ctx op mode := Some (ACTX op mode sk) in
  let enc := ctx MUGGLE_ENCRYPT in let dec := ctx MUGGLE_DECRYPT in
  let f := muggle_aes_crypt_opt in
  let ECB := MUGGLE_BLOCK_CIPHER_MODE_ECB in let CBC := MUGGLE_BLOCK_CIPHER_MODE_CBC in
  let CFB := MUGGLE_BLOCK_CIPHER_MODE_CFB in let OFB := MUGGLE_BLOCK_CIPHER_MODE_OFB in
  let CTR := MUGGLE_BLOCK_CIPHER_MODE_CTR in
  (forall op mode, op_valid op = true -> 0 <= mode < MAX_MUGGLE_BLOCK_CIPHER_MODE ->
     muggle_aes_set_key op mode (Some key) bits (Some ctx0) = Some (0, ctx op mode)) /\
  ((16 | n) -> exists c, muggle_aes_ecb f (enc ECB) (Some m) n true = Some (inr c) /\
     length c = length m /\ Forall byte_ok c /\ muggle_aes_ecb f (dec ECB) (Some c) n true = Some (inr m)) /\
  ((16 | n) -> exists iv' c,
     muggle_aes_cbc f (enc CBC) (Some m) n (Some iv) true = Some (inr (iv', c)) /\
     length c = length m /\ Forall byte_ok c /\
     muggle_aes_cbc f (dec CBC) (Some c) n (Some iv) true = Some (inr (iv', m))) /\
  (exists iv' off' c,
     muggle_aes_cfb128 f (enc CFB) (Some m) n (Some iv) off true = Some (inr (iv', off', c)) /\
     length c = length m /\ Forall byte_ok c /\
     muggle_aes_cfb128 f (dec CFB) (Some c) n (Some iv) off true = Some (inr (iv', off', m))) /\
  (exists iv' off' c,
     muggle_aes_ofb128 f (enc OFB) (Some m) n (Some iv) off true = Some (inr (iv', off', c)) /\
     length c = length m /\ Forall byte_ok c /\
     muggle_aes_ofb128 f (dec OFB) (Some c) n (Some iv) off true = Some (inr (iv', off', m))) /\
  (exists nonce' off' st' c,
     muggle_aes_ctr f (enc CTR) (Some m) n nonce (Some off) (Some stream) true
     = Some (inr (nonce', off', st', c)) /\ length c = length m /\ Forall byte_ok c /\
     muggle_aes_ctr f (dec CTR) (Some c) n nonce (Some off) (Some stream) true
     = Some (inr (nonce', off', st', m))).
Proof.
  destruct (key_rounds bits) as [nr|] eqn:Eb; [|done].
  destruct (set_key_sim key bits nr (Aes.sk ctx0) Eb Hlen Hkey Hroom) as (sk & E & Hk & _ & _).
  pose proof (openssl_block_cipher sk Hk) as HBC; exists sk; cbv zeta.
  split; [intros op mode Hop Hmode; by apply (set_key_context key bits ctx0 sk)|].
  split; [intros H; by apply aes_ecb_roundtrip|].
  split; [intros H; by apply aes_cbc_roundtrip|].
  split; [by apply aes_cfb_roundtrip|].
  split; [by apply aes_ofb_roundtrip|by apply aes_ctr_roundtrip].
Qed.

(** ** Witnesses *)

Lemma openssl_sub_is_sbox_witness :
  mapM (rd s_muggle_aes_sbox) (le_bytes 8 0x0123456789ABCDEF)
  = Some (le_bytes 8 (openssl_sub_u64 0x0123456789ABCDEF)) /\
  openssl_sub_u64 0x0123456789ABCDEF = 0x7C266E85A762BDDF.
Proof.
  split; [|vm_compute; reflexivity].
  exact (proj1 (openssl_sub_is_sbox 0x0123456789ABCDEF 0 ltac:(unfold in_width; lia)
                  ltac:(unfold in_width; lia))).
Defined.

Lemma fips_openssl_keys_ok : keys_ok (ASK (map bswap (rd_key fips_key)) 10).
Proof.
  split; [reflexivity|]; split; [|cbn [rd_key rounds]; rewrite length_map; simpl; lia].
  cbn [rd_key]; apply Forall_map, Forall_true; intros x; apply bswap_width.
Qed.

Lemma fips_input_block : is_block 16 fips_input.
Proof. split; [reflexivity|]; repeat (constructor; [unfold byte_ok; lia|]); constructor. Qed.

Lemma fips_cipher_key_bytes : Forall byte_ok fips_cipher_key.
Proof. repeat (constructor; [unfold byte_ok; lia|]); constructor. Qed.

Lemma fresh_context_room : room_ok (sk fresh_context).
Proof. split; [reflexivity|]; apply (Forall_replicate (in_width 32)); unfold in_width; lia. Qed.

Lemma openssl_aes_is_portable_aes_witness :
  exists c, muggle_aes_crypt_opt MUGGLE_ENCRYPT (ASK (map bswap (rd_key fips_key)) 10) fips_input
    = Some (0, c) /\ is_block 16 c /\
    muggle_aes_crypt MUGGLE_ENCRYPT (portable_keys (ASK (map bswap (rd_key fips_key)) 10)) fips_input
    = Some (0, c).
Proof.
  exact (openssl_aes_is_portable_aes MUGGLE_ENCRYPT _ fips_input eq_refl fips_openssl_keys_ok
           fips_input_block).
Defined.

Lemma openssl_key_schedule_witness :
  exists sk, muggle_openssl_aes_set_key fips_cipher_key 128 (ASK (replicate 60 0) 0) = Some (0, sk) /\
    keys_ok sk /\ rounds sk = 10 /\
    portable_key_expansion fips_cipher_key (map bswap (replicate 60 0)) 10 4
    = Some (rd_key (portable_keys sk)).
Proof.
  exact (openssl_key_schedule fips_cipher_key 128 (ASK (replicate 60 0) 0) fips_cipher_key_bytes
           ltac:(vm_compute; done) fresh_context_room).
Defined.

Lemma aes_set_key_modes_roundtrip_witness :
  exists sk,
    muggle_aes_set_key MUGGLE_ENCRYPT MUGGLE_BLOCK_CIPHER_MODE_CBC (Some fips_cipher_key) 128
      (Some fresh_context) = Some (0, Some (ACTX MUGGLE_ENCRYPT MUGGLE_BLOCK_CIPHER_MODE_CBC sk)).
Proof.
  destruct (aes_set_key_modes_roundtrip fips_cipher_key 128 fresh_context fips_input fips_input
    fips_input 3 (0, 0) ltac:(discriminate) fips_cipher_key_bytes ltac:(vm_compute; done)
    fresh_context_room (proj2 fips_input_block) ltac:(vm_compute; done) fips_input_block fips_input_block
    ltac:(lia)) as (sk & H & _).
  exists sk; apply H; [reflexivity|unfold MUGGLE_BLOCK_CIPHER_MODE_CBC, MAX_MUGGLE_BLOCK_CIPHER_MODE; lia].
Defined.
