(* ===== verification/Parity.v ===== *)
(** * Parity bits: [crypt/parity.c]

    The bit 0 of a byte is its parity bit (the convention of DES keys).  The
    tables are those of the source; [parity_gen] is the generator that
    [muggle_parity_gen] prints.  An index outside a table is [None]. *)
From S2P Require Import Prelude Modes.

Definition s_odd_parity : list Z :=
  [1; 1; 2; 2; 4; 4; 7; 7; 8; 8; 11; 11; 13; 13; 14; 14;
   16; 16; 19; 19; 21; 21; 22; 22; 25; 25; 26; 26; 28; 28; 31; 31;
   32; 32; 35; 35; 37; 37; 38; 38; 41; 41; 42; 42; 44; 44; 47; 47;
   49; 49; 50; 50; 52; 52; 55; 55; 56; 56; 59; 59; 61; 61; 62; 62;
   64; 64; 67; 67; 69; 69; 70; 70; 73; 73; 74; 74; 76; 76; 79; 79;
   81; 81; 82; 82; 84; 84; 87; 87; 88; 88; 91; 91; 93; 93; 94; 94;
   97; 97; 98; 98; 100; 100; 103; 103; 104; 104; 107; 107; 109; 109; 110; 110;
   112; 112; 115; 115; 117; 117; 118; 118; 121; 121; 122; 122; 124; 124; 127; 127;
   128; 128; 131; 131; 133; 133; 134; 134; 137; 137; 138; 138; 140; 140; 143; 143;
   145; 145; 146; 146; 148; 148; 151; 151; 152; 152; 155; 155; 157; 157; 158; 158;
   161; 161; 162; 162; 164; 164; 167; 167; 168; 168; 171; 171; 173; 173; 174; 174;
   176; 176; 179; 179; 181; 181; 182; 182; 185; 185; 186; 186; 188; 188; 191; 191;
   193; 193; 194; 194; 196; 196; 199; 199; 200; 200; 203; 203; 205; 205; 206; 206;
   208; 208; 211; 211; 213; 213; 214; 214; 217; 217; 218; 218; 220; 220; 223; 223;
   224; 224; 227; 227; 229; 229; 230; 230; 233; 233; 234; 234; 236; 236; 239; 239;
   241; 241; 242; 242; 244; 244; 247; 247; 248; 248; 251; 251; 253; 253; 254; 254].

Definition s_even_parity : list Z :=
  [0; 0; 3; 3; 5; 5; 6; 6; 9; 9; 10; 10; 12; 12; 15; 15;
   17; 17; 18; 18; 20; 20; 23; 23; 24; 24; 27; 27; 29; 29; 30; 30;
   33; 33; 34; 34; 36; 36; 39; 39; 40; 40; 43; 43; 45; 45; 46; 46;
   48; 48; 51; 51; 53; 53; 54; 54; 57; 57; 58; 58; 60; 60; 63; 63;
   65; 65; 66; 66; 68; 68; 71; 71; 72; 72; 75; 75; 77; 77; 78; 78;
   80; 80; 83; 83; 85; 85; 86; 86; 89; 89; 90; 90; 92; 92; 95; 95;
   96; 96; 99; 99; 101; 101; 102; 102; 105; 105; 106; 106; 108; 108; 111; 111;
   113; 113; 114; 114; 116; 116; 119; 119; 120; 120; 123; 123; 125; 125; 126; 126;
   129; 129; 130; 130; 132; 132; 135; 135; 136; 136; 139; 139; 141; 141; 142; 142;
   144; 144; 147; 147; 149; 149; 150; 150; 153; 153; 154; 154; 156; 156; 159; 159;
   160; 160; 163; 163; 165; 165; 166; 166; 169; 169; 170; 170; 172; 172; 175; 175;
   177; 177; 178; 178; 180; 180; 183; 183; 184; 184; 187; 187; 189; 189; 190; 190;
   192; 192; 195; 195; 197; 197; 198; 198; 201; 201; 202; 202; 204; 204; 207; 207;
   209; 209; 210; 210; 212; 212; 215; 215; 216; 216; 219; 219; 221; 221; 222; 222;
   225; 225; 226; 226; 228; 228; 231; 231; 232; 232; 235; 235; 237; 237; 238; 238;
   240; 240; 243; 243; 245; 245; 246; 246; 249; 249; 250; 250; 252; 252; 255; 255].

(** The loop over the bits [j] of [c], in [muggle_parity_gen]. *)
Definition parity_bit (odd c : Z) : Z :=
  foldl (fun parity j => if Z.land (Z.shiftl 1 j) c =? 0 then parity else Z.lxor parity 1)
    odd (seqZ 0 7).

(** The byte printed for [i]. *)
Definition parity_byte (odd i : Z) : Z :=
  let c := Z.shiftr i 1 in u8 (Z.lor (Z.shiftl c 1) (parity_bit odd c)).

Definition muggle_parity_gen (odd : Z) : list Z := map (parity_byte odd) (seqZ 0 256).

Definition muggle_parity_check_odd (b : Z) : option Z :=
  x ← rd s_odd_parity b; Some (if b =? x then 1 else 0).
Definition muggle_parity_check_even (b : Z) : option Z :=
  x ← rd s_even_parity b; Some (if b =? x then 1 else 0).

Definition muggle_parity_set_odd (b : Z) : option Z := rd s_odd_parity b.
Definition muggle_parity_set_even (b : Z) : option Z := rd s_even_parity b.

(** ** Specification: the number of bits set *)

Definition bits_set (b : Z) : Z :=
  foldr (fun i n => (if Z.testbit b i then 1 else 0) + n) 0 (seqZ 0 8).

(** What [set] must give for [b]: a byte with the same upper seven bits and
    the wanted parity, which [check] accepts, and [check] accepts [b] itself
    exactly when it has the parity. *)
Definition parity_ok (set check : Z -> option Z) (odd : bool) (b : Z) : bool :=
  match set b, check b with
  | Some y, Some r =>
      (0 <=? y) && (y <? 256) && (Z.shiftr y 1 =? Z.shiftr b 1) &&
      Bool.eqb (Z.odd (bits_set y)) odd &&
      match check y with Some r => r =? 1 | None => false end &&
      match set y with Some z => z =? y | None => false end &&
      (r =? if Bool.eqb (Z.odd (bits_set b)) odd then 1 else 0)
  | _, _ => false
  end.

Lemma parity_all b : byte_ok b ->
  parity_ok muggle_parity_set_odd muggle_parity_check_odd true b = true /\
  parity_ok muggle_parity_set_even muggle_parity_check_even false b = true.
Proof.
  intros Hb; apply andb_true_iff.
  assert (forallb (fun b => parity_ok muggle_parity_set_odd muggle_parity_check_odd true b &&
    parity_ok muggle_parity_set_even muggle_parity_check_even false b) (seqZ 0 256) = true) as Ha
    by (vm_compute; reflexivity).
  rewrite forallb_forall in Ha; apply Ha, list_elem_of_In, elem_of_seqZ; unfold byte_ok in Hb; lia.
Qed.

Lemma parity_ok_spec set check odd b :
  parity_ok set check odd b = true ->
  (exists y, set b = Some y /\ byte_ok y /\ Z.shiftr y 1 = Z.shiftr b 1 /\
     Z.odd (bits_set y) = odd /\ check y = Some 1 /\ set y = Some y) /\
  check b = Some (if Bool.eqb (Z.odd (bits_set b)) odd then 1 else 0).
Proof.
  unfold parity_ok, byte_ok; destruct (set b) as [y|] eqn:Es, (check b) as [r|] eqn:Ec; try done.
  rewrite !andb_true_iff, Bool.eqb_true_iff; intros ((((((H1 & H2) & H3) & H4) & H5) & H6) & H7).
  destruct (check y) as [r'|] eqn:Ey; [|done]; destruct (set y) as [z|] eqn:Ez; [|done].
  split; [|f_equal; lia]; exists y.
  repeat split; try done; try lia; rewrite ?Ey, ?Ez; f_equal; lia.
Qed.

(** ** Properties *)

(** The parity functions.  Both tables are what the generator computes;
    for every byte, setting the parity keeps the upper seven bits, gives the
    wanted parity of the number of bits set, changes nothing when repeated
    and is accepted by the check; and the check accepts exactly the bytes
    with that parity. *)
Theorem parity_functions_correct :
  s_odd_parity = muggle_parity_gen 1 /\ s_even_parity = muggle_parity_gen 0 /\
  forall b, 0 <= b < 256 ->
    ((exists y, muggle_parity_set_odd b = Some y /\ byte_ok y /\ Z.shiftr y 1 = Z.shiftr b 1 /\
        Z.odd (bits_set y) = true /\ muggle_parity_check_odd y = Some 1 /\
        muggle_parity_set_odd y = Some y) /\
     muggle_parity_check_odd b = Some (if Bool.eqb (Z.odd (bits_set b)) true then 1 else 0)) /\
    ((exists y, muggle_parity_set_even b = Some y /\ byte_ok y /\ Z.shiftr y 1 = Z.shiftr b 1 /\
        Z.odd (bits_set y) = false /\ muggle_parity_check_even y = Some 1 /\
        muggle_parity_set_even y = Some y) /\
     muggle_parity_check_even b = Some (if Bool.eqb (Z.odd (bits_set b)) false then 1 else 0)).
Proof.
  split; [vm_compute; reflexivity|]; split; [vm_compute; reflexivity|].
  intros b Hb; destruct (parity_all b Hb) as [Ho He]; by split; apply parity_ok_spec.
Qed.

Lemma parity_functions_correct_witness :
  exists y, muggle_parity_set_odd 6 = Some y /\ Z.odd (bits_set y) = true.
Proof.
  destruct (proj1 (proj2 (proj2 parity_functions_correct) 6 ltac:(lia))) as [(y & H1 & _ & _ & H2 & _) _].
  by exists y.
Defined.
