(* ===== verification/XorLinear.v ===== *)
(** * Xor-linear functions on words

    A function of an [n]-bit word is linear when it commutes with the bitwise
    exclusive or.  The bit permutations, masks, shifts, rotations and
    additive table lookups of the optimised DES are all linear, and two linear
    functions that agree on the [n] powers of two agree everywhere: an
    equality of two such functions on 2^64 words is decided by 64
    evaluations.  [Lin n m f] also records a mask [m] of the bits the results
    may have, which tells when [|] and [+] are exclusive or. *)
From S2P Require Import Prelude Utils Modes Lanes.

(** The bits of [x] are among those of the mask. *)
Definition under (m x : Z) : Prop := Z.land x m = x.

Lemma under_bits m x i : under m x -> Z.testbit x i = true -> Z.testbit m i = true.
Proof.
  intros Hu Hb; assert (Z.testbit (Z.land x m) i = true) as H by (by rewrite Hu).
  rewrite Z.land_spec in H; by apply andb_true_iff in H as [_ H].
Qed.

Lemma under_intro m x : (forall i, 0 <= i -> Z.testbit x i = true -> Z.testbit m i = true) -> under m x.
Proof.
  intros H; apply Z.bits_inj'; intros i Hi; rewrite Z.land_spec.
  destruct (Z.testbit x i) eqn:E; [|done]; by rewrite (H i Hi E).
Qed.

Lemma under_width w x : 0 <= w -> under (Z.ones w) x <-> in_width w x.
Proof.
  intros Hw; unfold under, in_width; rewrite Z.land_ones by done; split.
  - intros <-; apply Z.mod_pos_bound; lia.
  - apply Z.mod_small.
Qed.

Lemma under_disjoint m1 m2 x y :
  under m1 x -> under m2 y -> Z.land m1 m2 = 0 -> Z.land x y = 0.
Proof.
  intros Hx Hy Hm; apply Z.bits_inj'; intros i Hi; rewrite Z.land_spec, Z.testbit_0_l.
  destruct (Z.testbit x i) eqn:Ex, (Z.testbit y i) eqn:Ey; try done.
  assert (Z.testbit (Z.land m1 m2) i = true) as H
    by (rewrite Z.land_spec, (under_bits m1 x), (under_bits m2 y); done).
  by rewrite Hm, Z.testbit_0_l in H.
Qed.

(** Without common bits, [|], [+] and [^] are the same. *)
Lemma lor_disjoint m1 m2 x y :
  under m1 x -> under m2 y -> Z.land m1 m2 = 0 -> Z.lor x y = Z.lxor x y.
Proof. intros Hx Hy Hm; symmetry; apply Z.lxor_lor; by apply (under_disjoint m1 m2). Qed.

Lemma add_disjoint m1 m2 x y :
  under m1 x -> under m2 y -> Z.land m1 m2 = 0 -> x + y = Z.lxor x y.
Proof. intros Hx Hy Hm; apply Z.add_nocarry_lxor; by apply (under_disjoint m1 m2). Qed.

Record Lin (n m : Z) (f : Z -> Z) : Prop := {
  lin_xor x y : in_width n x -> in_width n y -> f (Z.lxor x y) = Z.lxor (f x) (f y);
  lin_under x : in_width n x -> under m (f x)
}.

Ltac lin_bits :=
  apply under_intro; intros i Hi;
  rewrite ?Z.lxor_spec, ?Z.lor_spec, ?Z.land_spec, ?Z.shiftr_spec, ?Z.shiftl_spec by lia.

(** ** Closure *)
Section Lin.
Variable n : Z.
Implicit Types f g : Z -> Z.

Lemma lin_id : 0 <= n -> Lin n (Z.ones n) (fun x => x).
Proof. intros Hn; split; [done|]; intros x; by apply under_width. Qed.

Lemma lin_const0 : Lin n 0 (fun _ => 0).
Proof. by split. Qed.

Lemma lin_lxor m1 m2 f g : Lin n m1 f -> Lin n m2 g -> Lin n (Z.lor m1 m2) (fun x => Z.lxor (f x) (g x)).
Proof.
  intros [Lf Uf] [Lg Ug]; split.
  - intros x y Hx Hy; rewrite Lf, Lg, !Z.lxor_assoc by done; f_equal.
    rewrite <- !Z.lxor_assoc; f_equal; apply Z.lxor_comm.
  - intros x Hx; lin_bits.
    destruct (Z.testbit (f x) i) eqn:E; [by rewrite (under_bits m1 (f x)) by auto|].
    intros H; rewrite (under_bits m2 (g x)) by auto; apply orb_true_r.
Qed.

Lemma lin_lor m1 m2 f g : Lin n m1 f -> Lin n m2 g -> Z.land m1 m2 = 0 ->
  Lin n (Z.lor m1 m2) (fun x => Z.lor (f x) (g x)).
Proof.
  intros Hf Hg Hd; destruct (lin_lxor m1 m2 f g Hf Hg) as [L U].
  destruct Hf as [Lf Uf], Hg as [Lg Ug].
  assert (forall x, in_width n x -> Z.lor (f x) (g x) = Z.lxor (f x) (g x)) as E
    by (intros x Hx; apply (lor_disjoint m1 m2); auto).
  split.
  - intros x y Hx Hy.
    rewrite (lor_disjoint m1 m2 (f (Z.lxor x y))), L, !E; try done; rewrite ?Lf, ?Lg by done.
    + specialize (Uf x Hx) as U1; specialize (Uf y Hy) as U2; lin_bits.
      destruct (Z.testbit (f x) i) eqn:E1; [intros _; exact (under_bits _ _ _ U1 E1)|].
      destruct (Z.testbit (f y) i) eqn:E2; [intros _; exact (under_bits _ _ _ U2 E2)|done].
    + specialize (Ug x Hx) as U1; specialize (Ug y Hy) as U2; lin_bits.
      destruct (Z.testbit (g x) i) eqn:E1; [intros _; exact (under_bits _ _ _ U1 E1)|].
      destruct (Z.testbit (g y) i) eqn:E2; [intros _; exact (under_bits _ _ _ U2 E2)|done].
  - intros x Hx; rewrite E by done; auto.
Qed.

Lemma lin_land m c f : Lin n m f -> Lin n (Z.land m c) (fun x => Z.land (f x) c).
Proof.
  intros [L U]; split.
  - intros x y Hx Hy; rewrite L by done; apply Z.bits_inj'; intros i Hi.
    rewrite !Z.land_spec, !Z.lxor_spec, !Z.land_spec.
    by destruct (Z.testbit (f x) i), (Z.testbit (f y) i), (Z.testbit c i).
  - intros x Hx; lin_bits; intros [H1 H2]%andb_true_iff.
    by rewrite (under_bits m (f x)) by auto.
Qed.

Lemma lin_shiftr m k f : 0 <= k -> Lin n m f -> Lin n (Z.shiftr m k) (fun x => Z.shiftr (f x) k).
Proof.
  intros Hk [L U]; split.
  - intros x y Hx Hy; by rewrite L, Z.shiftr_lxor by done.
  - intros x Hx; lin_bits; apply under_bits; auto.
Qed.

Lemma lin_shiftl m k f : 0 <= k -> Lin n m f -> Lin n (Z.shiftl m k) (fun x => Z.shiftl (f x) k).
Proof.
  intros Hk [L U]; split.
  - intros x y Hx Hy; by rewrite L, Z.shiftl_lxor by done.
  - intros x Hx; lin_bits; apply under_bits; auto.
Qed.

Lemma lin_wrap m w f : 0 <= w -> Lin n m f -> Lin n (wrap w m) (fun x => wrap w (f x)).
Proof.
  intros Hw H; assert (forall y, wrap w y = Z.land y (Z.ones w)) as E
    by (intros y; unfold wrap; by rewrite Z.land_ones).
  destruct (lin_land m (Z.ones w) f H) as [L U].
  split; [intros x y Hx Hy; rewrite !E; auto|intros x Hx; rewrite !E; auto].
Qed.

(** A larger mask, or the same function written differently. *)
Lemma lin_weaken m m' f : Lin n m f -> Z.land m m' = m -> Lin n m' f.
Proof.
  intros [L U] Hm; split; [done|]; intros x Hx; apply under_intro; intros i Hi Hb.
  apply (under_bits m' m); [done|]; by apply (under_bits m (f x)); auto.
Qed.

Lemma lin_ext m f g : 0 <= n -> Lin n m f -> (forall x, in_width n x -> g x = f x) -> Lin n m g.
Proof.
  intros Hn [L U] E; split; [|intros x Hx; rewrite E by done; auto].
  intros x y Hx Hy; rewrite !E; auto; by apply in_width_lxor.
Qed.

(** ** A linear function is known from its values on the powers of two *)

(** The exclusive or of the values at the bits of [x] below [k]. *)
Fixpoint spread (f : Z -> Z) (k : nat) (x : Z) : Z :=
  match k with
  | O => 0
  | S k => Z.lxor (if Z.testbit x (Z.of_nat k) then f (2 ^ Z.of_nat k) else 0) (spread f k x)
  end.

Lemma lin_zero m f : 0 <= n -> Lin n m f -> f 0 = 0.
Proof.
  intros Hn [L _]; assert (in_width n 0) as H0 by (unfold in_width; lia).
  specialize (L 0 0 H0 H0); by rewrite Z.lxor_0_l, Z.lxor_nilpotent in L.
Qed.

Lemma in_width_S (k : nat) x : in_width (Z.of_nat (S k)) x ->
  in_width (Z.of_nat k) (x mod 2 ^ Z.of_nat k) /\
  x = Z.lxor (if Z.testbit x (Z.of_nat k) then 2 ^ Z.of_nat k else 0) (x mod 2 ^ Z.of_nat k).
Proof.
  intros Hx; split; [unfold in_width; apply Z.mod_pos_bound; lia|].
  apply Z.bits_inj'; intros i Hi; rewrite Z.lxor_spec.
  destruct (Z.lt_trichotomy i (Z.of_nat k)) as [Hlt|[-> |Hgt]].
  - rewrite Z.mod_pow2_bits_low by lia.
    destruct (Z.testbit x (Z.of_nat k)); rewrite ?Z.pow2_bits_false, ?Z.testbit_0_l by lia; by destruct (Z.testbit x i).
  - rewrite Z.mod_pow2_bits_high by lia.
    destruct (Z.testbit x (Z.of_nat k)); by rewrite ?Z.pow2_bits_true, ?Z.testbit_0_l by lia.
  - rewrite Z.mod_pow2_bits_high, (bits_above x (Z.of_nat (S k)) i) by (unfold in_width in Hx; lia).
    destruct (Z.testbit x (Z.of_nat k)); by rewrite ?Z.pow2_bits_false, ?Z.testbit_0_l by lia.
Qed.

Lemma spread_mod f (k : nat) x : spread f k x = spread f k (x mod 2 ^ Z.of_nat k).
Proof.
  enough (forall j, (j <= k)%nat -> spread f j x = spread f j (x mod 2 ^ Z.of_nat k)) as H by auto.
  induction j as [|j IH]; intros Hj; cbn [spread]; [done|].
  by rewrite IH, Z.mod_pow2_bits_low by lia.
Qed.

Lemma lin_spread m f (k : nat) x : Lin n m f -> Z.of_nat k <= n -> in_width (Z.of_nat k) x ->
  f x = spread f k x.
Proof.
  intros HL Hk; assert (forall j y, Z.of_nat j <= n -> in_width (Z.of_nat j) y -> in_width n y) as W.
  { unfold in_width; intros j y Hj Hy; pose proof (Z.pow_le_mono_r 2 (Z.of_nat j) n); lia. }
  revert x Hk; induction k as [|k IH]; intros x Hk Hx.
  - assert (x = 0) as -> by (unfold in_width in Hx; simpl in Hx; lia).
    apply (lin_zero m); [lia|done].
  - destruct (in_width_S k x Hx) as [Hm Ex]; cbn [spread].
    rewrite spread_mod, <- (IH _ ltac:(lia) Hm); rewrite Ex at 1.
    destruct (Z.testbit x (Z.of_nat k)); [|by rewrite !Z.lxor_0_l].
    apply HL; [|by apply (W k); [lia|]].
    apply (W (S k)); [done|]; unfold in_width; split; [lia|apply Z.pow_lt_mono_r; lia].
Qed.

Definition basis (k : nat) : list Z := map (fun i => 2 ^ Z.of_nat i) (seq 0 k).

Lemma spread_ext f g k x : Forall (fun b => f b = g b) (basis k) -> spread f k x = spread g k x.
Proof.
  unfold basis; rewrite Forall_forall; intros H.
  assert (forall i, (i < k)%nat -> f (2 ^ Z.of_nat i) = g (2 ^ Z.of_nat i)) as Hi.
  { intros i Hi; apply H, list_elem_of_In, in_map_iff; exists i; split; [done|apply in_seq; lia]. }
  clear H; induction k as [|k IH]; cbn [spread]; [done|].
  rewrite IH by (intros i Hk; apply Hi; lia); by rewrite Hi by lia.
Qed.

(** The decision. *)
Lemma lin_decide m1 m2 f g : 0 <= n -> Lin n m1 f -> Lin n m2 g ->
  forallb (fun b => f b =? g b) (basis (Z.to_nat n)) = true ->
  forall x, in_width n x -> f x = g x.
Proof.
  intros Hn Hf Hg Hb x Hx.
  rewrite (lin_spread m1 f (Z.to_nat n)), (lin_spread m2 g (Z.to_nat n))
    by (done || rewrite ?Z2Nat.id by done; done || lia).
  apply spread_ext, Forall_forall; intros b Hin; apply Z.eqb_eq.
  rewrite forallb_forall in Hb; by apply Hb, list_elem_of_In.
Qed.

(** ** Additive tables *)

(** A table of [2 ^ k] words in which the entry at an exclusive or is the
    exclusive or of the entries, within the mask. *)
Definition additive (k m : Z) (tbl : Z -> Z) : bool :=
  forallb (fun a => (Z.land (tbl a) m =? tbl a) &&
    forallb (fun b => tbl (Z.lxor a b) =? Z.lxor (tbl a) (tbl b)) (seqZ 0 (2 ^ k))) (seqZ 0 (2 ^ k)).

Lemma lin_table k m mi tbl f : Lin n mi f -> 0 <= k -> Z.land mi (Z.ones k) = mi ->
  additive k m tbl = true -> Lin n m (fun x => tbl (f x)).
Proof.
  intros Hf Hk Hm Ha; destruct (lin_weaken mi (Z.ones k) f Hf Hm) as [L U].
  assert (forall x, in_width n x -> f x ∈ seqZ 0 (2 ^ k)) as Hin.
  { intros x Hx; apply elem_of_seqZ; specialize (U x Hx); apply under_width in U; [|done].
    unfold in_width in U; lia. }
  unfold additive in Ha; rewrite forallb_forall in Ha.
  assert (forall x, in_width n x -> under m (tbl (f x)) /\
    forallb (fun b => tbl (Z.lxor (f x) b) =? Z.lxor (tbl (f x)) (tbl b)) (seqZ 0 (2 ^ k)) = true) as H.
  { intros x Hx; specialize (Ha (f x) ltac:(by apply list_elem_of_In, Hin)).
    apply andb_true_iff in Ha as [H1 H2]; split; [by apply Z.eqb_eq|done]. }
  split; [|intros x Hx; by apply H]; intros x y Hx Hy; rewrite L by done.
  destruct (H x Hx) as [_ Hb]; rewrite forallb_forall in Hb.
  by apply Z.eqb_eq, Hb, list_elem_of_In, Hin.
Qed.

Lemma lin_comp k m mi f g : 0 <= k -> Lin n mi f -> Z.land mi (Z.ones k) = mi -> Lin k m g ->
  Lin n m (fun x => g (f x)).
Proof.
  intros Hk Hf Hm [Lg Ug]; destruct (lin_weaken mi (Z.ones k) f Hf Hm) as [L U].
  assert (forall x, in_width n x -> in_width k (f x)) as W
    by (intros x Hx; apply under_width; auto).
  split; [intros x y Hx Hy; rewrite L by done; apply Lg; auto|auto].
Qed.

(** The bit at position [p], as the word [0] or [1]. *)
Lemma lin_bit p : 0 <= p -> Lin n 1 (fun x => Z.b2z (Z.testbit x p)).
Proof.
  intros Hp; split; [|intros x _; by destruct (Z.testbit x p)].
  intros x y _ _; rewrite Z.lxor_spec; by destruct (Z.testbit x p), (Z.testbit y p).
Qed.
End Lin.
