(* ===== verification/Des.v ===== *)
(** * The portable DES: [crypt/internal/internal_des.c] and [crypt/des.c]

    The bit permutations, the round function and, from [crypt/des.c], the
    branches of key schedule and block function that are compiled without
    [MUGGLE_CRYPT_OPTIMIZATION].  A [muggle_64bit_block_t] is a 64-bit word,
    whose [u32.l] and [u32.h] are its low and high halves and whose [bytes]
    are its little-endian bytes (the layout of the supported hosts); a
    [muggle_des_subkey_t] is a list of 8 bytes.  The bit permutations are
    the lists of the [MUGGLE_MOVE_BIT(in, from, to)] terms of the source, as
    pairs [(from, to)].  Debug output is not modelled. *)
From S2P Require Import Prelude Utils Modes.

Open Scope check_scope.

Definition MUGGLE_DES_BLOCK_SIZE : Z := 8.

(** ** Tables *)

Definition s_muggle_des_sbox_table : list (list Z) :=
  [[14; 4; 13; 1; 2; 15; 11; 8; 3; 10; 6; 12; 5; 9; 0; 7;
    0; 15; 7; 4; 14; 2; 13; 1; 10; 6; 12; 11; 9; 5; 3; 8;
    4; 1; 14; 8; 13; 6; 2; 11; 15; 12; 9; 7; 3; 10; 5; 0;
    15; 12; 8; 2; 4; 9; 1; 7; 5; 11; 3; 14; 10; 0; 6; 13];
   [15; 1; 8; 14; 6; 11; 3; 4; 9; 7; 2; 13; 12; 0; 5; 10;
    3; 13; 4; 7; 15; 2; 8; 14; 12; 0; 1; 10; 6; 9; 11; 5;
    0; 14; 7; 11; 10; 4; 13; 1; 5; 8; 12; 6; 9; 3; 2; 15;
    13; 8; 10; 1; 3; 15; 4; 2; 11; 6; 7; 12; 0; 5; 14; 9];
   [10; 0; 9; 14; 6; 3; 15; 5; 1; 13; 12; 7; 11; 4; 2; 8;
    13; 7; 0; 9; 3; 4; 6; 10; 2; 8; 5; 14; 12; 11; 15; 1;
    13; 6; 4; 9; 8; 15; 3; 0; 11; 1; 2; 12; 5; 10; 14; 7;
    1; 10; 13; 0; 6; 9; 8; 7; 4; 15; 14; 3; 11; 5; 2; 12];
   [7; 13; 14; 3; 0; 6; 9; 10; 1; 2; 8; 5; 11; 12; 4; 15;
    13; 8; 11; 5; 6; 15; 0; 3; 4; 7; 2; 12; 1; 10; 14; 9;
    10; 6; 9; 0; 12; 11; 7; 13; 15; 1; 3; 14; 5; 2; 8; 4;
    3; 15; 0; 6; 10; 1; 13; 8; 9; 4; 5; 11; 12; 7; 2; 14];
   [2; 12; 4; 1; 7; 10; 11; 6; 8; 5; 3; 15; 13; 0; 14; 9;
    14; 11; 2; 12; 4; 7; 13; 1; 5; 0; 15; 10; 3; 9; 8; 6;
    4; 2; 1; 11; 10; 13; 7; 8; 15; 9; 12; 5; 6; 3; 0; 14;
    11; 8; 12; 7; 1; 14; 2; 13; 6; 15; 0; 9; 10; 4; 5; 3];
   [12; 1; 10; 15; 9; 2; 6; 8; 0; 13; 3; 4; 14; 7; 5; 11;
    10; 15; 4; 2; 7; 12; 9; 5; 6; 1; 13; 14; 0; 11; 3; 8;
    9; 14; 15; 5; 2; 8; 12; 3; 7; 0; 4; 10; 1; 13; 11; 6;
    4; 3; 2; 12; 9; 5; 15; 10; 11; 14; 1; 7; 6; 0; 8; 13];
   [4; 11; 2; 14; 15; 0; 8; 13; 3; 12; 9; 7; 5; 10; 6; 1;
    13; 0; 11; 7; 4; 9; 1; 10; 14; 3; 5; 12; 2; 15; 8; 6;
    1; 4; 11; 13; 12; 3; 7; 14; 10; 15; 6; 8; 0; 5; 9; 2;
    6; 11; 13; 8; 1; 4; 10; 7; 9; 5; 0; 15; 14; 2; 3; 12];
   [13; 2; 8; 4; 6; 15; 11; 1; 10; 9; 3; 14; 5; 0; 12; 7;
    1; 15; 13; 8; 10; 3; 7; 4; 12; 5; 6; 11; 0; 14; 9; 2;
    7; 11; 4; 1; 9; 12; 14; 2; 0; 6; 10; 13; 15; 3; 5; 8;
    2; 1; 14; 7; 4; 10; 8; 13; 15; 12; 9; 0; 3; 5; 6; 11]].

Definition ip_l : list (Z * Z) :=
  [(57, 0); (49, 1); (41, 2); (33, 3); (25, 4); (17, 5); (9, 6); (1, 7);
   (59, 8); (51, 9); (43, 10); (35, 11); (27, 12); (19, 13); (11, 14); (3, 15);
   (61, 16); (53, 17); (45, 18); (37, 19); (29, 20); (21, 21); (13, 22); (5, 23);
   (63, 24); (55, 25); (47, 26); (39, 27); (31, 28); (23, 29); (15, 30); (7, 31)].

Definition ip_h : list (Z * Z) :=
  [(56, 0); (48, 1); (40, 2); (32, 3); (24, 4); (16, 5); (8, 6); (0, 7);
   (58, 8); (50, 9); (42, 10); (34, 11); (26, 12); (18, 13); (10, 14); (2, 15);
   (60, 16); (52, 17); (44, 18); (36, 19); (28, 20); (20, 21); (12, 22); (4, 23);
   (62, 24); (54, 25); (46, 26); (38, 27); (30, 28); (22, 29); (14, 30); (6, 31)].

Definition fp_l : list (Z * Z) :=
  [(39, 0); (7, 1); (47, 2); (15, 3); (55, 4); (23, 5); (63, 6); (31, 7);
   (38, 8); (6, 9); (46, 10); (14, 11); (54, 12); (22, 13); (62, 14); (30, 15);
   (37, 16); (5, 17); (45, 18); (13, 19); (53, 20); (21, 21); (61, 22); (29, 23);
   (36, 24); (4, 25); (44, 26); (12, 27); (52, 28); (20, 29); (60, 30); (28, 31)].

Definition fp_h : list (Z * Z) :=
  [(35, 0); (3, 1); (43, 2); (11, 3); (51, 4); (19, 5); (59, 6); (27, 7);
   (34, 8); (2, 9); (42, 10); (10, 11); (50, 12); (18, 13); (58, 14); (26, 15);
   (33, 16); (1, 17); (41, 18); (9, 19); (49, 20); (17, 21); (57, 22); (25, 23);
   (32, 24); (0, 25); (40, 26); (8, 27); (48, 28); (16, 29); (56, 30); (24, 31)].

Definition pc1_l : list (Z * Z) :=
  [(56, 0); (48, 1); (40, 2); (32, 3); (24, 4); (16, 5); (8, 6); (0, 7);
   (57, 8); (49, 9); (41, 10); (33, 11); (25, 12); (17, 13); (9, 14); (1, 15);
   (58, 16); (50, 17); (42, 18); (34, 19); (26, 20); (18, 21); (10, 22); (2, 23);
   (59, 24); (51, 25); (43, 26); (35, 27)].

Definition pc1_h : list (Z * Z) :=
  [(62, 0); (54, 1); (46, 2); (38, 3); (30, 4); (22, 5); (14, 6); (6, 7);
   (61, 8); (53, 9); (45, 10); (37, 11); (29, 12); (21, 13); (13, 14); (5, 15);
   (60, 16); (52, 17); (44, 18); (36, 19); (28, 20); (20, 21); (12, 22); (4, 23);
   (27, 24); (19, 25); (11, 26); (3, 27)].

Definition p_bits : list (Z * Z) :=
  [(15, 0); (6, 1); (19, 2); (20, 3); (28, 4); (11, 5); (27, 6); (16, 7);
   (0, 8); (14, 9); (22, 10); (25, 11); (4, 12); (17, 13); (30, 14); (9, 15);
   (1, 16); (7, 17); (23, 18); (13, 19); (31, 20); (26, 21); (2, 22); (8, 23);
   (18, 24); (12, 25); (29, 26); (5, 27); (21, 28); (10, 29); (3, 30); (24, 31)].

(** ** The bit permutations *)

(** [MUGGLE_MOVE_BIT(in, from, to)]. *)
Definition MUGGLE_MOVE_BIT (x from to : Z) : Z :=
  Z.shiftl (Z.land (Z.shiftr x from) 1) to.

(** The or of the terms. *)
Definition move_bits (x : Z) (bits : list (Z * Z)) : Z :=
  foldr (fun '(from, to) acc => Z.lor (MUGGLE_MOVE_BIT x from to) acc) 0 bits.

(** The union: a 64-bit word from its halves. *)
Definition join (l h : Z) : Z := Z.lor l (Z.shiftl h 32).
Definition lo (x : Z) : Z := u32 x.
Definition hi (x : Z) : Z := Z.shiftr x 32.

Definition muggle_des_ip (x : Z) : Z := join (u32 (move_bits x ip_l)) (u32 (move_bits x ip_h)).
Definition muggle_des_fp (x : Z) : Z := join (u32 (move_bits x fp_l)) (u32 (move_bits x fp_h)).

(** [muggle_des_pc1] gives [u32.l] and [u32.h]. *)
Definition muggle_des_pc1 (x : Z) : Z * Z := (u32 (move_bits x pc1_l), u32 (move_bits x pc1_h)).

Definition muggle_des_p (x : Z) : Z := u32 (move_bits x p_bits).

Definition muggle_des_pc2 (k : Z * Z) : list Z :=
  let '(c, d) := k in
  [u8 (move_bits c [(13, 0); (16, 1); (10, 2); (23, 3); (0, 4); (4, 5)]);
   u8 (move_bits c [(2, 0); (27, 1); (14, 2); (5, 3); (20, 4); (9, 5)]);
   u8 (move_bits c [(22, 0); (18, 1); (11, 2); (3, 3); (25, 4); (7, 5)]);
   u8 (move_bits c [(15, 0); (6, 1); (26, 2); (19, 3); (12, 4); (1, 5)]);
   u8 (move_bits d [(12, 0); (23, 1); (2, 2); (8, 3); (18, 4); (26, 4)]);
   u8 (move_bits d [(1, 0); (11, 1); (22, 2); (16, 3); (4, 4); (19, 4)]);
   u8 (move_bits d [(15, 0); (20, 1); (10, 2); (27, 3); (5, 4); (24, 4)]);
   u8 (move_bits d [(17, 0); (13, 1); (21, 2); (7, 3); (0, 4); (3, 4)])].

(** ** The round function *)

Definition muggle_des_expand (x : Z) : list Z :=
  [u8 (Z.lor (Z.land (Z.shiftr x 31) 1) (u32 (Z.shiftl x 1)));
   u8 (Z.shiftr x 3); u8 (Z.shiftr x 7); u8 (Z.shiftr x 11);
   u8 (Z.shiftr x 15); u8 (Z.shiftr x 19); u8 (Z.shiftr x 23);
   u8 (Z.lor (Z.land (Z.shiftr x 27) 31) (u32 (Z.shiftl x 5)))].

Definition sbox_idx (b : Z) : Z :=
  Z.lor (Z.lor (Z.land b 32) (Z.shiftl (Z.land b 1) 4)) (Z.land (Z.shiftr b 1) 15).

(** [muggle_des_sbox], called with [in] and [out] the same block. *)
Definition muggle_des_sbox (p : list Z) : option (list Z) :=
  for_up (fun i p =>
    b ← rd p i;
    box ← rd s_muggle_des_sbox_table i;
    v ← rd box (sbox_idx b);
    wr p i v) 8 0 p.

(** The xor with the subkey. *)
Definition xor_subkey (p sk : list Z) : option (list Z) :=
  for_up (fun i p => a ← rd p i; b ← rd sk i; wr p i (Z.lxor a b)) 8 0 p.

(** [u32_block.bytes[j]]. *)
Definition pack2 (p : list Z) (j : Z) : option Z :=
  a ← rd p (2 * j); b ← rd p (2 * j + 1);
  Some (Z.lor (Z.land a 15) (Z.land (Z.shiftl b 4) 240)).

Definition muggle_des_f (x : Z) (sk : list Z) : option Z :=
  let p := muggle_des_expand x in
  p ← xor_subkey p sk;
  p ← muggle_des_sbox p;
  b0 ← pack2 p 0; b1 ← pack2 p 1; b2 ← pack2 p 2; b3 ← pack2 p 3;
  Some (muggle_des_p (of_le [b0; b1; b2; b3])).

(** ** The key schedule *)

(** [MUGGLE_DES_KEY_SHIFT(in, shift, mask)] at [uint32_t]. *)
Definition MUGGLE_DES_KEY_SHIFT (x shift mask : Z) : Z :=
  Z.lor (u32 (Z.shiftl x shift)) (Z.land (Z.shiftr x (28 - shift)) mask).

Definition key_round_shift : list Z := [1; 1; 2; 2; 2; 2; 2; 2; 1; 2; 2; 2; 2; 2; 2; 1].
Definition key_round_mask : list Z := [1; 1; 3; 3; 3; 3; 3; 3; 1; 3; 3; 3; 3; 3; 3; 1].

(** One round: the halves are shifted and the subkey stored. *)
Definition set_key_body (op i : Z) (s : Z * Z * list (list Z)) : option (Z * Z * list (list Z)) :=
  let '(l, h, sk) := s in
  shift ← rd key_round_shift i;
  mask ← rd key_round_mask i;
  let l := MUGGLE_DES_KEY_SHIFT l shift mask in
  let h := MUGGLE_DES_KEY_SHIFT h shift mask in
  let idx := if op =? MUGGLE_DECRYPT then 15 - i else i in
  sk ← wr sk idx (muggle_des_pc2 (l, h));
  Some (l, h, sk).

(** The branch of [muggle_des_set_key_inner] without optimisation; [sk] is
    the content of [subkeys->sk] before the call. *)
Definition set_key_portable (op : Z) (key_bytes : list Z) (sk : list (list Z))
  : option (list (list Z)) :=
  let '(l, h) := muggle_des_pc1 (of_le key_bytes) in
  '(_, _, sk) ← for_up (set_key_body op) 16 0 (l, h, sk);
  Some sk.

(** ** The block function *)

(** One Feistel round, on [u32.l] and [u32.h]. *)
Definition feistel_body (ks : list (list Z)) (i : Z) (b64 : Z * Z) : option (Z * Z) :=
  let '(l, h) := b64 in
  k ← rd ks i;
  b32 ← muggle_des_f h k;
  let tmp := Z.lxor l b32 in
  Some (h, tmp).

Definition feistel (ks : list (list Z)) (b64 : Z * Z) : option (Z * Z) :=
  for_up (feistel_body ks) 16 0 b64.

(** The branch of [muggle_des_crypt] without optimisation. *)
Definition crypt_portable (ks : list (list Z)) (input : Z) : option Z :=
  let b64 := muggle_des_ip input in
  '(l, h) ← feistel ks (lo b64, hi b64);
  Some (muggle_des_fp (join h l)).

(** The portable block function on 8 bytes in memory. *)
Definition portable_block (ks : list (list Z)) (b : list Z) : option (list Z) :=
  y ← crypt_portable ks (of_le b); Some (le_bytes 8 y).

(** ** Bits of the permutations *)

Lemma move_bit_spec x from to n :
  0 <= from -> 0 <= to -> 0 <= n ->
  Z.testbit (MUGGLE_MOVE_BIT x from to) n = (n =? to) && Z.testbit x from.
Proof.
  intros Hf Ht Hn; unfold MUGGLE_MOVE_BIT.
  rewrite Z.shiftl_spec, Z.land_spec by done.
  destruct (Z.eqb_spec n to) as [->|Hne].
  - rewrite Z.sub_diag, Z.shiftr_spec, Z.add_0_l by lia.
    change (Z.testbit 1 0) with true; by rewrite andb_true_r.
  - destruct (Z.lt_ge_cases n to).
    + by rewrite Z.testbit_neg_r, ?Z.testbit_neg_r by lia.
    + rewrite (Z.bits_above_log2 1) by (simpl; lia); apply andb_false_r.
Qed.

(** A table whose [to] positions are consecutive from [base]. *)
Fixpoint froms_ok (base : Z) (bits : list (Z * Z)) : bool :=
  match bits with
  | [] => true
  | (from, to) :: bits => (to =? base) && (0 <=? from) && froms_ok (base + 1) bits
  end.

Lemma move_bits_spec x bits base n :
  froms_ok base bits = true -> 0 <= base -> 0 <= n ->
  Z.testbit (move_bits x bits) n =
  match (if decide (base <= n) then bits.*1 !! Z.to_nat (n - base) else None) with
  | Some from => Z.testbit x from
  | None => false
  end.
Proof.
  revert base; induction bits as [|[from to] bits IH]; intros base Hok Hb Hn; simpl.
  { rewrite Z.testbit_0_l; by destruct (decide _). }
  simpl in Hok; apply andb_true_iff in Hok as [[Hto Hfr]%andb_true_iff Hok].
  assert (to = base) as -> by lia.
  rewrite Z.lor_spec, move_bit_spec, (IH (base + 1)) by (done || lia).
  destruct (Z.eqb_spec n base) as [->|Hne]; simpl.
  - rewrite decide_False, decide_True, Z.sub_diag by lia; simpl; apply orb_false_r.
  - destruct (decide (base + 1 <= n)), (decide (base <= n)); try done; try lia.
    replace (Z.to_nat (n - base)) with (S (Z.to_nat (n - (base + 1)))) by lia; done.
Qed.

Lemma join_spec l h n :
  in_width 32 l -> 0 <= h -> 0 <= n ->
  Z.testbit (join l h) n = if n <? 32 then Z.testbit l n else Z.testbit h (n - 32).
Proof.
  intros Hl Hh Hn; unfold join; rewrite Z.lor_spec, Z.shiftl_spec by lia.
  destruct (Z.ltb_spec n 32).
  - rewrite (Z.testbit_neg_r h) by lia; apply orb_false_r.
  - by rewrite (bits_above l 32 n) by (unfold in_width in Hl; lia).
Qed.

Lemma u32_bits x n : 0 <= n -> Z.testbit (u32 x) n = (n <? 32) && Z.testbit x n.
Proof.
  intros Hn; unfold wrap; destruct (Z.ltb_spec n 32).
  - by rewrite Z.mod_pow2_bits_low by lia.
  - by rewrite Z.mod_pow2_bits_high by lia.
Qed.

Lemma u32_width x : in_width 32 (u32 x).
Proof. unfold in_width, wrap; apply Z.mod_pos_bound; lia. Qed.

(** A permutation given by two tables of 32 bits. *)
Lemma permutation_bits tl th x n :
  froms_ok 0 tl = true -> froms_ok 0 th = true ->
  length tl = 32%nat -> length th = 32%nat -> 0 <= n < 64 ->
  Z.testbit (join (u32 (move_bits x tl)) (u32 (move_bits x th))) n
  = match (tl ++ th).*1 !! Z.to_nat n with Some from => Z.testbit x from | None => false end.
Proof.
  intros H1 H2 L1 L2 Hn; rewrite join_spec by (try apply u32_width; lia).
  rewrite fmap_app; destruct (Z.ltb_spec n 32) as [Hlt|Hge].
  - rewrite u32_bits, (move_bits_spec x tl 0) by (done || lia).
    rewrite lookup_app_l by (rewrite length_fmap; lia).
    rewrite decide_True, Z.sub_0_r by lia; replace (n <? 32) with true by lia; done.
  - rewrite u32_bits, (move_bits_spec x th 0) by (done || lia).
    rewrite lookup_app_r by (rewrite length_fmap; lia).
    rewrite decide_True, Z.sub_0_r, length_fmap by lia; replace (n - 32 <? 32) with true by lia.
    replace (Z.to_nat n - length tl)%nat with (Z.to_nat (n - 32)) by lia; done.
Qed.

(** Position by position, [fp] reads where [ip] put the bit, and conversely. *)
Definition inverse_at (t1 t2 : list (Z * Z)) (n : Z) : bool :=
  match t1.*1 !! Z.to_nat n with
  | Some k =>
      (0 <=? k) && (k <? 64) &&
      match t2.*1 !! Z.to_nat k with Some j => j =? n | None => false end
  | None => false
  end.

Lemma inverse_check n :
  0 <= n < 64 ->
  inverse_at (fp_l ++ fp_h) (ip_l ++ ip_h) n = true /\
  inverse_at (ip_l ++ ip_h) (fp_l ++ fp_h) n = true.
Proof.
  intros Hn.
  assert (forallb (fun n => inverse_at (fp_l ++ fp_h) (ip_l ++ ip_h) n &&
    inverse_at (ip_l ++ ip_h) (fp_l ++ fp_h) n) (seqZ 0 64) = true) as Ha by (vm_compute; reflexivity).
  rewrite forallb_forall in Ha; apply andb_true_iff, Ha, list_elem_of_In, elem_of_seqZ; lia.
Qed.

Lemma inverse_tables t1 t2 t3 t4 x :
  froms_ok 0 t1 = true -> froms_ok 0 t2 = true -> froms_ok 0 t3 = true -> froms_ok 0 t4 = true ->
  length t1 = 32%nat -> length t2 = 32%nat -> length t3 = 32%nat -> length t4 = 32%nat ->
  (forall n, 0 <= n < 64 -> inverse_at (t3 ++ t4) (t1 ++ t2) n = true) ->
  in_width 64 x ->
  let y := join (u32 (move_bits x t1)) (u32 (move_bits x t2)) in
  join (u32 (move_bits y t3)) (u32 (move_bits y t4)) = x.
Proof.
  intros O1 O2 O3 O4 L1 L2 L3 L4 Hinv Hx y; apply Z.bits_inj'; intros n Hn.
  destruct (Z.lt_ge_cases n 64) as [Hlt|Hge].
  - rewrite permutation_bits by (done || lia).
    specialize (Hinv n ltac:(lia)); unfold inverse_at in Hinv.
    destruct ((t3 ++ t4).*1 !! Z.to_nat n) as [k|]; [|done].
    apply andb_true_iff in Hinv as [[Hk1 Hk2]%andb_true_iff Hj].
    unfold y; rewrite permutation_bits by (done || lia).
    destruct ((t1 ++ t2).*1 !! Z.to_nat k) as [j|]; [|done]; by replace j with n by lia.
  - rewrite join_spec by (try apply u32_width; lia); replace (n <? 32) with false by lia.
    rewrite u32_bits by lia; replace (n - 32 <? 32) with false by lia.
    by rewrite (bits_above x 64 n) by (unfold in_width in Hx; lia).
Qed.

Lemma fp_ip x : in_width 64 x -> muggle_des_fp (muggle_des_ip x) = x.
Proof. intros Hx; apply inverse_tables; try done; intros n Hn; by apply inverse_check. Qed.

Lemma ip_fp x : in_width 64 x -> muggle_des_ip (muggle_des_fp x) = x.
Proof. intros Hx; apply inverse_tables; try done; intros n Hn; by apply inverse_check. Qed.

Lemma join_add l h : in_width 32 l -> 0 <= h -> join l h = l + h * 2 ^ 32.
Proof.
  unfold in_width, join; intros Hl Hh.
  assert (Z.land l (Z.shiftl h 32) = 0) as Hd.
  { apply Z.bits_inj'; intros n Hn; rewrite Z.land_spec, Z.shiftl_spec, Z.testbit_0_l by lia.
    destruct (Z.lt_ge_cases n 32); [by rewrite (Z.testbit_neg_r h), andb_false_r by lia|].
    by rewrite (bits_above l 32 n) by lia. }
  by rewrite <- Z.lxor_lor, <- Z.add_nocarry_lxor, Z.shiftl_mul_pow2 by done.
Qed.

Lemma join_width l h : in_width 32 l -> in_width 32 h -> in_width 64 (join l h).
Proof.
  intros Hl Hh; rewrite join_add by (unfold in_width in *; lia); unfold in_width in *; lia.
Qed.

Lemma lo_join l h : in_width 32 l -> in_width 32 h -> lo (join l h) = l.
Proof.
  intros Hl Hh; rewrite join_add by (unfold in_width in *; lia); unfold lo, wrap.
  rewrite Z.mod_add by lia; apply Z.mod_small; unfold in_width in *; lia.
Qed.

Lemma hi_join l h : in_width 32 l -> in_width 32 h -> hi (join l h) = h.
Proof.
  intros Hl Hh; rewrite join_add by (unfold in_width in *; lia); unfold hi, in_width in *.
  rewrite Z.shiftr_div_pow2, Z.div_add, Z.div_small by lia; lia.
Qed.

Lemma join_lo_hi x : in_width 64 x ->
  join (lo x) (hi x) = x /\ in_width 32 (lo x) /\ in_width 32 (hi x).
Proof.
  intros Hx; unfold in_width in Hx.
  assert (in_width 32 (lo x)) as Hl by apply u32_width.
  assert (in_width 32 (hi x)) as Hh.
  { unfold in_width, hi; rewrite Z.shiftr_div_pow2 by lia.
    split; [apply Z.div_pos; lia|apply Z.div_lt_upper_bound; lia]. }
  split; [|done]; rewrite join_add by (unfold in_width in *; lia).
  unfold lo, hi, wrap; rewrite Z.shiftr_div_pow2 by lia.
  pose proof (Z.div_mod x (2 ^ 32) ltac:(lia)); lia.
Qed.

Lemma ip_width x : in_width 64 (muggle_des_ip x).
Proof. apply join_width; apply u32_width. Qed.

Lemma fp_width x : in_width 64 (muggle_des_fp x).
Proof. apply join_width; apply u32_width. Qed.

(** ** The round function is total *)

Definition subkey_ok (k : list Z) : Prop := length k = 8%nat.
Definition schedule_ok (ks : list (list Z)) : Prop := length ks = 16%nat /\ Forall subkey_ok ks.

Lemma lor_bound k a b : 0 <= k -> 0 <= a < 2 ^ k -> 0 <= b < 2 ^ k -> 0 <= Z.lor a b < 2 ^ k.
Proof.
  intros Hk Ha Hb; assert (0 <= Z.lor a b) by (apply Z.lor_nonneg; lia).
  split; [done|]; apply lt_pow2_of_bits; [done..|].
  intros i Hi; by rewrite Z.lor_spec, !(bits_above _ k i) by lia.
Qed.

Lemma land_bound x m k : 0 <= m < 2 ^ k -> 0 <= k -> 0 <= Z.land x m < 2 ^ k.
Proof.
  intros Hm Hk; assert (0 <= Z.land x m) by (apply Z.land_nonneg; lia).
  split; [done|]; apply lt_pow2_of_bits; [done..|].
  intros i Hi; by rewrite Z.land_spec, (bits_above m k i), andb_false_r by lia.
Qed.

Lemma sbox_idx_bound b : 0 <= sbox_idx b < 64.
Proof.
  unfold sbox_idx; apply (lor_bound 6); [lia|apply lor_bound; [lia| |]|].
  - apply land_bound; lia.
  - pose proof (land_bound b 1 1 ltac:(lia) ltac:(lia)).
    rewrite Z.shiftl_mul_pow2 by lia; lia.
  - pose proof (land_bound (Z.shiftr b 1) 15 4 ltac:(lia) ltac:(lia)); lia.
Qed.

Lemma sbox_lookup i b : 0 <= i < 8 ->
  exists box v, rd s_muggle_des_sbox_table i = Some box /\ rd box (sbox_idx b) = Some v.
Proof.
  intros Hi; pose proof (sbox_idx_bound b) as Hb.
  assert (forallb (fun i => match rd s_muggle_des_sbox_table i with
    | Some box => length box =? 64 | None => false end)%nat (seqZ 0 8) = true) as Ha
    by (vm_compute; reflexivity).
  rewrite forallb_forall in Ha; specialize (Ha i).
  destruct (rd s_muggle_des_sbox_table i) as [box|].
  - assert (length box = 64%nat) as Hl by (apply Nat.eqb_eq, Ha, list_elem_of_In, elem_of_seqZ; lia).
    destruct (rd_is_Some box (sbox_idx b)) as [v Hv]; [lia|]; eauto.
  - discriminate Ha; apply list_elem_of_In, elem_of_seqZ; lia.
Qed.

(** A loop that rewrites every cell keeps the length. *)
Lemma for_up_cells (f : Z -> list Z -> option (list Z)) (n : nat) p :
  (forall i p, 0 <= i < Z.of_nat n -> length p = n -> exists p', f i p = Some p' /\ length p' = n) ->
  length p = n -> exists p', for_up f n 0 p = Some p' /\ length p' = n.
Proof.
  intros Hf Hp.
  enough (forall m i p, length p = n -> 0 <= i -> i + Z.of_nat m <= Z.of_nat n ->
    exists p', for_up f m i p = Some p' /\ length p' = n) as H by (apply H; lia).
  clear p Hp; induction m as [|m IH]; intros i p Hp Hi Hm; simpl; [eauto|].
  destruct (Hf i p ltac:(lia) Hp) as (p' & -> & Hp'); simpl; apply IH; lia.
Qed.

Lemma xor_subkey_total p k : length p = 8%nat -> subkey_ok k ->
  exists p', xor_subkey p k = Some p' /\ length p' = 8%nat.
Proof.
  intros Hp Hk; apply for_up_cells; [|done]; intros i q Hi Hq.
  destruct (rd_is_Some q i) as [a ->]; [lia|]; destruct (rd_is_Some k i) as [b ->];
    [unfold subkey_ok in Hk; lia|]; simpl.
  unfold wr; rewrite decide_True by lia; eexists; split; [done|by rewrite length_insert].
Qed.

Lemma des_sbox_total p : length p = 8%nat ->
  exists p', muggle_des_sbox p = Some p' /\ length p' = 8%nat.
Proof.
  intros Hp; apply for_up_cells; [|done]; intros i q Hi Hq.
  destruct (rd_is_Some q i) as [a ->]; [lia|]; simpl.
  destruct (sbox_lookup i a ltac:(lia)) as (box & v & -> & E); simpl; rewrite E; simpl.
  unfold wr; rewrite decide_True by lia; eexists; split; [done|by rewrite length_insert].
Qed.

Lemma des_f_total x k : subkey_ok k -> exists y, muggle_des_f x k = Some y /\ in_width 32 y.
Proof.
  intros Hk; unfold muggle_des_f.
  destruct (xor_subkey_total (muggle_des_expand x) k eq_refl Hk) as (p & -> & Hp).
  cbn [mbind option_bind]; destruct (des_sbox_total p Hp) as (q & -> & Hq).
  cbn [mbind option_bind].
  assert (forall j, 0 <= j < 4 -> exists b, pack2 q j = Some b) as Hpack.
  { intros j Hj; unfold pack2; destruct (rd_is_Some q (2 * j)) as [a ->]; [lia|].
    destruct (rd_is_Some q (2 * j + 1)) as [b ->]; [lia|]; simpl; eauto. }
  destruct (Hpack 0 ltac:(lia)) as [b0 ->], (Hpack 1 ltac:(lia)) as [b1 ->],
    (Hpack 2 ltac:(lia)) as [b2 ->], (Hpack 3 ltac:(lia)) as [b3 ->].
  eexists; split; [reflexivity|apply u32_width].
Qed.

(** ** The Feistel network is undone by the reversed schedule *)

Definition halves_ok (b : Z * Z) : Prop := in_width 32 b.1 /\ in_width 32 b.2.
Definition swap_halves (b : Z * Z) : Z * Z := (b.2, b.1).

Lemma lxor_width x y : in_width 32 x -> in_width 32 y -> in_width 32 (Z.lxor x y).
Proof.
  unfold in_width; intros Hx Hy; assert (0 <= Z.lxor x y) by (apply Z.lxor_nonneg; lia).
  split; [done|]; apply lt_pow2_of_bits; [done..|].
  intros i Hi; by rewrite Z.lxor_spec, !(bits_above _ 32 i) by lia.
Qed.

(** The rounds as a walk over the schedule. *)
Fixpoint rounds (ks : list (list Z)) (b : Z * Z) : option (Z * Z) :=
  match ks with
  | [] => Some b
  | k :: ks => y ← muggle_des_f b.2 k; rounds ks (b.2, Z.lxor b.1 y)
  end.

Lemma feistel_rounds ks b : length ks = 16%nat -> feistel ks b = rounds ks b.
Proof.
  intros Hl; unfold feistel; rewrite <- Hl.
  enough (forall pre ks b,
    for_up (feistel_body (pre ++ ks)) (length ks) (Z.of_nat (length pre)) b = rounds ks b) as H
    by apply (H [] ks b).
  clear; intros pre ks; revert pre; induction ks as [|k ks IH]; intros pre [l h];
    cbn [for_up length rounds]; [done|].
  assert (feistel_body (pre ++ k :: ks) (Z.of_nat (length pre)) (l, h)
          = (y ← muggle_des_f h k; Some (h, Z.lxor l y))) as ->
    by (unfold feistel_body; by rewrite rd_mid).
  cbn [mbind option_bind fst snd].
  destruct (muggle_des_f h k) as [y|]; cbn [mbind option_bind]; [|done].
  specialize (IH (pre ++ [k]) (h, Z.lxor l y)); rewrite length_app, <- app_assoc in IH.
  cbn [length app] in IH; rewrite <- IH; f_equal; lia.
Qed.

Lemma rounds_app ks1 ks2 b : rounds (ks1 ++ ks2) b = (rounds ks1 b ≫= rounds ks2).
Proof.
  revert b; induction ks1 as [|k ks1 IH]; intros b; cbn [app rounds]; [done|].
  destruct (muggle_des_f b.2 k); cbn [mbind option_bind]; [apply IH|done].
Qed.

Lemma rounds_undone ks b :
  Forall subkey_ok ks -> halves_ok b ->
  exists c, rounds ks b = Some c /\ halves_ok c /\
    rounds (rev ks) (swap_halves c) = Some (swap_halves b).
Proof.
  intros Hks; revert b; induction Hks as [|k ks Hk _ IH]; intros b Hb.
  { by exists b. }
  destruct b as [l h], Hb as [Hl Hh]; cbn [rounds fst snd] in *.
  destruct (des_f_total h k Hk) as (y & Ey & Hy); rewrite Ey; cbn [mbind option_bind].
  destruct (IH (h, Z.lxor l y)) as (c & E & Hc & D).
  { split; [done|by apply lxor_width]. }
  exists c; split; [done|]; split; [done|]; cbn [rev]; rewrite rounds_app, D.
  cbn [mbind option_bind rounds swap_halves fst snd]; rewrite Ey; cbn [mbind option_bind].
  by rewrite lxor_cancel.
Qed.

Lemma feistel_undone ks b :
  schedule_ok ks -> halves_ok b ->
  exists c, feistel ks b = Some c /\ halves_ok c /\
    feistel (rev ks) (swap_halves c) = Some (swap_halves b).
Proof.
  intros [Hl Hk] Hb; destruct (rounds_undone ks b Hk Hb) as (c & E & Hc & D).
  exists c; rewrite !feistel_rounds by (rewrite ?length_rev; done); done.
Qed.

Lemma des_crypt_undone ks x :
  schedule_ok ks -> in_width 64 x ->
  exists y, crypt_portable ks x = Some y /\ in_width 64 y /\ crypt_portable (rev ks) y = Some x.
Proof.
  intros Hks Hx; destruct (join_lo_hi _ (ip_width x)) as (Ej & Hl & Hh).
  destruct (feistel_undone ks (lo (muggle_des_ip x), hi (muggle_des_ip x)) Hks)
    as ([l h] & E & [Hcl Hch] & D); [done|]; simpl in Hcl, Hch.
  exists (muggle_des_fp (join h l)); unfold crypt_portable; rewrite E; cbn [mbind option_bind].
  split; [done|]; split; [apply fp_width|].
  rewrite ip_fp by (by apply join_width); rewrite lo_join, hi_join by done.
  unfold swap_halves in D; cbn [fst snd] in D; rewrite D; cbn [mbind option_bind].
  by rewrite Ej, fp_ip.
Qed.

(** ** The key schedules *)

(** The halves after each round. *)
Fixpoint key_halves (rs : list (Z * Z)) (b : Z * Z) : list (Z * Z) :=
  match rs with
  | [] => []
  | (shift, mask) :: rs =>
      let b := (MUGGLE_DES_KEY_SHIFT b.1 shift mask, MUGGLE_DES_KEY_SHIFT b.2 shift mask) in
      b :: key_halves rs b
  end.

(** The subkeys for encryption; decryption has them in the opposite order. *)
Definition portable_schedule (key : list Z) : list (list Z) :=
  map muggle_des_pc2 (key_halves (zip key_round_shift key_round_mask) (muggle_des_pc1 (of_le key))).

Lemma list16 {A} (l : list A) : length l = 16%nat ->
  exists a0 a1 a2 a3 a4 a5 a6 a7 a8 a9 a10 a11 a12 a13 a14 a15,
    l = [a0; a1; a2; a3; a4; a5; a6; a7; a8; a9; a10; a11; a12; a13; a14; a15].
Proof.
  intros Hl; do 16 (destruct l as [|? l]; [discriminate Hl|]).
  destruct l; [|discriminate Hl]; by repeat eexists.
Qed.

(** Whatever the context held before the call. *)
Lemma set_key_portable_spec key sk :
  length sk = 16%nat ->
  set_key_portable MUGGLE_ENCRYPT key sk = Some (portable_schedule key) /\
  set_key_portable MUGGLE_DECRYPT key sk = Some (rev (portable_schedule key)).
Proof.
  intros Hl; destruct (list16 sk Hl) as
    (?&?&?&?&?&?&?&?&?&?&?&?&?&?&?&?& ->).
  unfold set_key_portable, portable_schedule; destruct (muggle_des_pc1 (of_le key)) as [l h].
  split; lazy -[muggle_des_pc2 MUGGLE_DES_KEY_SHIFT]; reflexivity.
Qed.

Lemma portable_schedule_ok key : schedule_ok (portable_schedule key).
Proof.
  unfold portable_schedule; destruct (muggle_des_pc1 (of_le key)) as [l h].
  split; [reflexivity|]; apply Forall_forall; intros k Hk.
  apply list_elem_of_In, in_map_iff in Hk as ([c d] & <- & _); reflexivity.
Qed.

Lemma rev_schedule_ok ks : schedule_ok ks -> schedule_ok (rev ks).
Proof.
  intros [Hl Hf]; split; [by rewrite length_rev|].
  rewrite Forall_forall in *; intros k Hk; apply Hf; by apply list_elem_of_In, in_rev, list_elem_of_In.
Qed.

(** ** DES is a block cipher *)

Lemma le_word b : is_block 8 b -> in_width 64 (of_le b) /\ le_bytes 8 (of_le b) = b.
Proof.
  intros [Hl Hf]; pose proof (of_le_bound b Hf); rewrite Hl in *; split.
  - unfold in_width; change (256 ^ Z.of_nat 8) with (2 ^ 64) in *; lia.
  - rewrite <- Hl; by apply le_bytes_of.
Qed.

Lemma le_word_back x : in_width 64 x -> of_le (le_bytes 8 x) = x.
Proof. intros [H1 H2]; apply of_le_bytes; change (256 ^ Z.of_nat 8) with (2 ^ 64); lia. Qed.

#[global] Instance portable_block_cipher ks :
  schedule_ok ks -> BlockCipher 8 (portable_block ks) (portable_block (rev ks)).
Proof.
  intros Hks; split; [lia|]; intros b Hb; destruct (le_word b Hb) as [Hw Eb].
  destruct (des_crypt_undone ks (of_le b) Hks Hw) as (y & E & Hy & D).
  exists (le_bytes 8 y); unfold portable_block; rewrite E; cbn [mbind option_bind].
  split; [done|]; split; [apply le_bytes_block|].
  rewrite le_word_back, D by done; cbn [mbind option_bind]; by rewrite Eb.
Qed.
