(* ===== verification/OpensslDes.v ===== *)
(** * The optimised DES: [crypt/openssl/openssl_des.c]

    The key schedule and block functions that [crypt/des.c] and
    [crypt/tdes.c] use when [MUGGLE_CRYPT_OPTIMIZATION] is set, as it is by
    default.  The permutations are sequences of masked exchanges on two
    32-bit words, the S-boxes and the permutation P are merged into eight
    tables, and the subkeys are stored so that a round needs no expansion.
    The macros that assign to their arguments are functions to the values
    assigned; every word is kept below 2^32 as [uint32_t] keeps it.  A table
    access is [rd], which is [None] out of range. *)
From S2P Require Import Prelude Utils Modes Lanes Parity XorLinear Des.

(** ** Macros *)

(** [MUGGLE_OPENSSL_DES_PERM_OP(a,b,t,n,m)]: the new [a] and [b]. *)
Definition MUGGLE_OPENSSL_DES_PERM_OP (a b n m : Z) : Z * Z :=
  let t := Z.land (Z.lxor (Z.shiftr a n) b) m in
  let b := Z.lxor b t in
  let a := Z.lxor a (u32 (Z.shiftl t n)) in
  (a, b).

(** [MUGGLE_OPENSSL_DES_HPERM_OP(a,t,n,m)]: the new [a]. *)
Definition MUGGLE_OPENSSL_DES_HPERM_OP (a n m : Z) : Z :=
  let t := Z.land (Z.lxor (u32 (Z.shiftl a (16 - n))) a) m in
  Z.lxor (Z.lxor a t) (Z.shiftr t (16 - n)).

Definition MUGGLE_OPENSSL_DES_ROTATE (v n : Z) : Z :=
  u32 (Z.shiftr v n + u32 (Z.shiftl v (32 - n))).

(** [MUGGLE_OPENSSL_DES_IP(l,r)] and [MUGGLE_OPENSSL_DES_FP(l,r)]: the new
    [l] and [r]. *)
Definition MUGGLE_OPENSSL_DES_IP (l r : Z) : Z * Z :=
  let '(r, l) := MUGGLE_OPENSSL_DES_PERM_OP r l 4 0x0f0f0f0f in
  let '(l, r) := MUGGLE_OPENSSL_DES_PERM_OP l r 16 0x0000ffff in
  let '(r, l) := MUGGLE_OPENSSL_DES_PERM_OP r l 2 0x33333333 in
  let '(l, r) := MUGGLE_OPENSSL_DES_PERM_OP l r 8 0x00ff00ff in
  let '(r, l) := MUGGLE_OPENSSL_DES_PERM_OP r l 1 0x55555555 in
  (l, r).

Definition MUGGLE_OPENSSL_DES_FP (l r : Z) : Z * Z :=
  let '(l, r) := MUGGLE_OPENSSL_DES_PERM_OP l r 1 0x55555555 in
  let '(r, l) := MUGGLE_OPENSSL_DES_PERM_OP r l 8 0x00ff00ff in
  let '(l, r) := MUGGLE_OPENSSL_DES_PERM_OP l r 2 0x33333333 in
  let '(r, l) := MUGGLE_OPENSSL_DES_PERM_OP r l 16 0x0000ffff in
  let '(l, r) := MUGGLE_OPENSSL_DES_PERM_OP l r 4 0x0f0f0f0f in
  (l, r).

(** [MUGGLE_OPENSSL_C2L(c, l)] at the bytes of [c] from [off]. *)
Definition MUGGLE_OPENSSL_C2L (c : list Z) (off : Z) : option Z :=
  c0 ← rd c (off + 0); c1 ← rd c (off + 1); c2 ← rd c (off + 2); c3 ← rd c (off + 3);
  Some (Z.lor (Z.lor (Z.lor
    (Z.land (u32 (Z.shiftl c0 0)) 0x000000ff)
    (Z.land (u32 (Z.shiftl c1 8)) 0x0000ff00))
    (Z.land (u32 (Z.shiftl c2 16)) 0x00ff0000))
    (Z.land (u32 (Z.shiftl c3 24)) 0xff000000)).

(** ** Tables *)

Definition openssl_des_skb : list (list Z) :=
  [[0x00000000; 0x00000010; 0x20000000; 0x20000010;
    0x00010000; 0x00010010; 0x20010000; 0x20010010;
    0x00000800; 0x00000810; 0x20000800; 0x20000810;
    0x00010800; 0x00010810; 0x20010800; 0x20010810;
    0x00000020; 0x00000030; 0x20000020; 0x20000030;
    0x00010020; 0x00010030; 0x20010020; 0x20010030;
    0x00000820; 0x00000830; 0x20000820; 0x20000830;
    0x00010820; 0x00010830; 0x20010820; 0x20010830;
    0x00080000; 0x00080010; 0x20080000; 0x20080010;
    0x00090000; 0x00090010; 0x20090000; 0x20090010;
    0x00080800; 0x00080810; 0x20080800; 0x20080810;
    0x00090800; 0x00090810; 0x20090800; 0x20090810;
    0x00080020; 0x00080030; 0x20080020; 0x20080030;
    0x00090020; 0x00090030; 0x20090020; 0x20090030;
    0x00080820; 0x00080830; 0x20080820; 0x20080830;
    0x00090820; 0x00090830; 0x20090820; 0x20090830];
   [0x00000000; 0x02000000; 0x00002000; 0x02002000;
    0x00200000; 0x02200000; 0x00202000; 0x02202000;
    0x00000004; 0x02000004; 0x00002004; 0x02002004;
    0x00200004; 0x02200004; 0x00202004; 0x02202004;
    0x00000400; 0x02000400; 0x00002400; 0x02002400;
    0x00200400; 0x02200400; 0x00202400; 0x02202400;
    0x00000404; 0x02000404; 0x00002404; 0x02002404;
    0x00200404; 0x02200404; 0x00202404; 0x02202404;
    0x10000000; 0x12000000; 0x10002000; 0x12002000;
    0x10200000; 0x12200000; 0x10202000; 0x12202000;
    0x10000004; 0x12000004; 0x10002004; 0x12002004;
    0x10200004; 0x12200004; 0x10202004; 0x12202004;
    0x10000400; 0x12000400; 0x10002400; 0x12002400;
    0x10200400; 0x12200400; 0x10202400; 0x12202400;
    0x10000404; 0x12000404; 0x10002404; 0x12002404;
    0x10200404; 0x12200404; 0x10202404; 0x12202404];
   [0x00000000; 0x00000001; 0x00040000; 0x00040001;
    0x01000000; 0x01000001; 0x01040000; 0x01040001;
    0x00000002; 0x00000003; 0x00040002; 0x00040003;
    0x01000002; 0x01000003; 0x01040002; 0x01040003;
    0x00000200; 0x00000201; 0x00040200; 0x00040201;
    0x01000200; 0x01000201; 0x01040200; 0x01040201;
    0x00000202; 0x00000203; 0x00040202; 0x00040203;
    0x01000202; 0x01000203; 0x01040202; 0x01040203;
    0x08000000; 0x08000001; 0x08040000; 0x08040001;
    0x09000000; 0x09000001; 0x09040000; 0x09040001;
    0x08000002; 0x08000003; 0x08040002; 0x08040003;
    0x09000002; 0x09000003; 0x09040002; 0x09040003;
    0x08000200; 0x08000201; 0x08040200; 0x08040201;
    0x09000200; 0x09000201; 0x09040200; 0x09040201;
    0x08000202; 0x08000203; 0x08040202; 0x08040203;
    0x09000202; 0x09000203; 0x09040202; 0x09040203];
   [0x00000000; 0x00100000; 0x00000100; 0x00100100;
    0x00000008; 0x00100008; 0x00000108; 0x00100108;
    0x00001000; 0x00101000; 0x00001100; 0x00101100;
    0x00001008; 0x00101008; 0x00001108; 0x00101108;
    0x04000000; 0x04100000; 0x04000100; 0x04100100;
    0x04000008; 0x04100008; 0x04000108; 0x04100108;
    0x04001000; 0x04101000; 0x04001100; 0x04101100;
    0x04001008; 0x04101008; 0x04001108; 0x04101108;
    0x00020000; 0x00120000; 0x00020100; 0x00120100;
    0x00020008; 0x00120008; 0x00020108; 0x00120108;
    0x00021000; 0x00121000; 0x00021100; 0x00121100;
    0x00021008; 0x00121008; 0x00021108; 0x00121108;
    0x04020000; 0x04120000; 0x04020100; 0x04120100;
    0x04020008; 0x04120008; 0x04020108; 0x04120108;
    0x04021000; 0x04121000; 0x04021100; 0x04121100;
    0x04021008; 0x04121008; 0x04021108; 0x04121108];
   [0x00000000; 0x10000000; 0x00010000; 0x10010000;
    0x00000004; 0x10000004; 0x00010004; 0x10010004;
    0x20000000; 0x30000000; 0x20010000; 0x30010000;
    0x20000004; 0x30000004; 0x20010004; 0x30010004;
    0x00100000; 0x10100000; 0x00110000; 0x10110000;
    0x00100004; 0x10100004; 0x00110004; 0x10110004;
    0x20100000; 0x30100000; 0x20110000; 0x30110000;
    0x20100004; 0x30100004; 0x20110004; 0x30110004;
    0x00001000; 0x10001000; 0x00011000; 0x10011000;
    0x00001004; 0x10001004; 0x00011004; 0x10011004;
    0x20001000; 0x30001000; 0x20011000; 0x30011000;
    0x20001004; 0x30001004; 0x20011004; 0x30011004;
    0x00101000; 0x10101000; 0x00111000; 0x10111000;
    0x00101004; 0x10101004; 0x00111004; 0x10111004;
    0x20101000; 0x30101000; 0x20111000; 0x30111000;
    0x20101004; 0x30101004; 0x20111004; 0x30111004];
   [0x00000000; 0x08000000; 0x00000008; 0x08000008;
    0x00000400; 0x08000400; 0x00000408; 0x08000408;
    0x00020000; 0x08020000; 0x00020008; 0x08020008;
    0x00020400; 0x08020400; 0x00020408; 0x08020408;
    0x00000001; 0x08000001; 0x00000009; 0x08000009;
    0x00000401; 0x08000401; 0x00000409; 0x08000409;
    0x00020001; 0x08020001; 0x00020009; 0x08020009;
    0x00020401; 0x08020401; 0x00020409; 0x08020409;
    0x02000000; 0x0a000000; 0x02000008; 0x0a000008;
    0x02000400; 0x0a000400; 0x02000408; 0x0a000408;
    0x02020000; 0x0a020000; 0x02020008; 0x0a020008;
    0x02020400; 0x0a020400; 0x02020408; 0x0a020408;
    0x02000001; 0x0a000001; 0x02000009; 0x0a000009;
    0x02000401; 0x0a000401; 0x02000409; 0x0a000409;
    0x02020001; 0x0a020001; 0x02020009; 0x0a020009;
    0x02020401; 0x0a020401; 0x02020409; 0x0a020409];
   [0x00000000; 0x00000100; 0x00080000; 0x00080100;
    0x01000000; 0x01000100; 0x01080000; 0x01080100;
    0x00000010; 0x00000110; 0x00080010; 0x00080110;
    0x01000010; 0x01000110; 0x01080010; 0x01080110;
    0x00200000; 0x00200100; 0x00280000; 0x00280100;
    0x01200000; 0x01200100; 0x01280000; 0x01280100;
    0x00200010; 0x00200110; 0x00280010; 0x00280110;
    0x01200010; 0x01200110; 0x01280010; 0x01280110;
    0x00000200; 0x00000300; 0x00080200; 0x00080300;
    0x01000200; 0x01000300; 0x01080200; 0x01080300;
    0x00000210; 0x00000310; 0x00080210; 0x00080310;
    0x01000210; 0x01000310; 0x01080210; 0x01080310;
    0x00200200; 0x00200300; 0x00280200; 0x00280300;
    0x01200200; 0x01200300; 0x01280200; 0x01280300;
    0x00200210; 0x00200310; 0x00280210; 0x00280310;
    0x01200210; 0x01200310; 0x01280210; 0x01280310];
   [0x00000000; 0x04000000; 0x00040000; 0x04040000;
    0x00000002; 0x04000002; 0x00040002; 0x04040002;
    0x00002000; 0x04002000; 0x00042000; 0x04042000;
    0x00002002; 0x04002002; 0x00042002; 0x04042002;
    0x00000020; 0x04000020; 0x00040020; 0x04040020;
    0x00000022; 0x04000022; 0x00040022; 0x04040022;
    0x00002020; 0x04002020; 0x00042020; 0x04042020;
    0x00002022; 0x04002022; 0x00042022; 0x04042022;
    0x00000800; 0x04000800; 0x00040800; 0x04040800;
    0x00000802; 0x04000802; 0x00040802; 0x04040802;
    0x00002800; 0x04002800; 0x00042800; 0x04042800;
    0x00002802; 0x04002802; 0x00042802; 0x04042802;
    0x00000820; 0x04000820; 0x00040820; 0x04040820;
    0x00000822; 0x04000822; 0x00040822; 0x04040822;
    0x00002820; 0x04002820; 0x00042820; 0x04042820;
    0x00002822; 0x04002822; 0x00042822; 0x04042822]].

Definition NUM_WEAK_KEY : Z := 16.

Definition openssl_weak_keys : list (list Z) :=
  [[0x01; 0x01; 0x01; 0x01; 0x01; 0x01; 0x01; 0x01];
   [0xfe; 0xfe; 0xfe; 0xfe; 0xfe; 0xfe; 0xfe; 0xfe];
   [0x1f; 0x1f; 0x1f; 0x1f; 0x0e; 0x0e; 0x0e; 0x0e];
   [0xe0; 0xe0; 0xe0; 0xe0; 0xf1; 0xf1; 0xf1; 0xf1];
   [0x01; 0xfe; 0x01; 0xfe; 0x01; 0xfe; 0x01; 0xfe];
   [0xfe; 0x01; 0xfe; 0x01; 0xfe; 0x01; 0xfe; 0x01];
   [0x1f; 0xe0; 0x1f; 0xe0; 0x0e; 0xf1; 0x0e; 0xf1];
   [0xe0; 0x1f; 0xe0; 0x1f; 0xf1; 0x0e; 0xf1; 0x0e];
   [0x01; 0xe0; 0x01; 0xe0; 0x01; 0xf1; 0x01; 0xf1];
   [0xe0; 0x01; 0xe0; 0x01; 0xf1; 0x01; 0xf1; 0x01];
   [0x1f; 0xfe; 0x1f; 0xfe; 0x0e; 0xfe; 0x0e; 0xfe];
   [0xfe; 0x1f; 0xfe; 0x1f; 0xfe; 0x0e; 0xfe; 0x0e];
   [0x01; 0x1f; 0x01; 0x1f; 0x01; 0x0e; 0x01; 0x0e];
   [0x1f; 0x01; 0x1f; 0x01; 0x0e; 0x01; 0x0e; 0x01];
   [0xe0; 0xfe; 0xe0; 0xfe; 0xf1; 0xfe; 0xf1; 0xfe];
   [0xfe; 0xe0; 0xfe; 0xe0; 0xfe; 0xf1; 0xfe; 0xf1]].

Definition openssl_des_sptrans : list (list Z) :=
  [[0x02080800; 0x00080000; 0x02000002; 0x02080802;
    0x02000000; 0x00080802; 0x00080002; 0x02000002;
    0x00080802; 0x02080800; 0x02080000; 0x00000802;
    0x02000802; 0x02000000; 0x00000000; 0x00080002;
    0x00080000; 0x00000002; 0x02000800; 0x00080800;
    0x02080802; 0x02080000; 0x00000802; 0x02000800;
    0x00000002; 0x00000800; 0x00080800; 0x02080002;
    0x00000800; 0x02000802; 0x02080002; 0x00000000;
    0x00000000; 0x02080802; 0x02000800; 0x00080002;
    0x02080800; 0x00080000; 0x00000802; 0x02000800;
    0x02080002; 0x00000800; 0x00080800; 0x02000002;
    0x00080802; 0x00000002; 0x02000002; 0x02080000;
    0x02080802; 0x00080800; 0x02080000; 0x02000802;
    0x02000000; 0x00000802; 0x00080002; 0x00000000;
    0x00080000; 0x02000000; 0x02000802; 0x02080800;
    0x00000002; 0x02080002; 0x00000800; 0x00080802];
   [0x40108010; 0x00000000; 0x00108000; 0x40100000;
    0x40000010; 0x00008010; 0x40008000; 0x00108000;
    0x00008000; 0x40100010; 0x00000010; 0x40008000;
    0x00100010; 0x40108000; 0x40100000; 0x00000010;
    0x00100000; 0x40008010; 0x40100010; 0x00008000;
    0x00108010; 0x40000000; 0x00000000; 0x00100010;
    0x40008010; 0x00108010; 0x40108000; 0x40000010;
    0x40000000; 0x00100000; 0x00008010; 0x40108010;
    0x00100010; 0x40108000; 0x40008000; 0x00108010;
    0x40108010; 0x00100010; 0x40000010; 0x00000000;
    0x40000000; 0x00008010; 0x00100000; 0x40100010;
    0x00008000; 0x40000000; 0x00108010; 0x40008010;
    0x40108000; 0x00008000; 0x00000000; 0x40000010;
    0x00000010; 0x40108010; 0x00108000; 0x40100000;
    0x40100010; 0x00100000; 0x00008010; 0x40008000;
    0x40008010; 0x00000010; 0x40100000; 0x00108000];
   [0x04000001; 0x04040100; 0x00000100; 0x04000101;
    0x00040001; 0x04000000; 0x04000101; 0x00040100;
    0x04000100; 0x00040000; 0x04040000; 0x00000001;
    0x04040101; 0x00000101; 0x00000001; 0x04040001;
    0x00000000; 0x00040001; 0x04040100; 0x00000100;
    0x00000101; 0x04040101; 0x00040000; 0x04000001;
    0x04040001; 0x04000100; 0x00040101; 0x04040000;
    0x00040100; 0x00000000; 0x04000000; 0x00040101;
    0x04040100; 0x00000100; 0x00000001; 0x00040000;
    0x00000101; 0x00040001; 0x04040000; 0x04000101;
    0x00000000; 0x04040100; 0x00040100; 0x04040001;
    0x00040001; 0x04000000; 0x04040101; 0x00000001;
    0x00040101; 0x04000001; 0x04000000; 0x04040101;
    0x00040000; 0x04000100; 0x04000101; 0x00040100;
    0x04000100; 0x00000000; 0x04040001; 0x00000101;
    0x04000001; 0x00040101; 0x00000100; 0x04040000];
   [0x00401008; 0x10001000; 0x00000008; 0x10401008;
    0x00000000; 0x10400000; 0x10001008; 0x00400008;
    0x10401000; 0x10000008; 0x10000000; 0x00001008;
    0x10000008; 0x00401008; 0x00400000; 0x10000000;
    0x10400008; 0x00401000; 0x00001000; 0x00000008;
    0x00401000; 0x10001008; 0x10400000; 0x00001000;
    0x00001008; 0x00000000; 0x00400008; 0x10401000;
    0x10001000; 0x10400008; 0x10401008; 0x00400000;
    0x10400008; 0x00001008; 0x00400000; 0x10000008;
    0x00401000; 0x10001000; 0x00000008; 0x10400000;
    0x10001008; 0x00000000; 0x00001000; 0x00400008;
    0x00000000; 0x10400008; 0x10401000; 0x00001000;
    0x10000000; 0x10401008; 0x00401008; 0x00400000;
    0x10401008; 0x00000008; 0x10001000; 0x00401008;
    0x00400008; 0x00401000; 0x10400000; 0x10001008;
    0x00001008; 0x10000000; 0x10000008; 0x10401000];
   [0x08000000; 0x00010000; 0x00000400; 0x08010420;
    0x08010020; 0x08000400; 0x00010420; 0x08010000;
    0x00010000; 0x00000020; 0x08000020; 0x00010400;
    0x08000420; 0x08010020; 0x08010400; 0x00000000;
    0x00010400; 0x08000000; 0x00010020; 0x00000420;
    0x08000400; 0x00010420; 0x00000000; 0x08000020;
    0x00000020; 0x08000420; 0x08010420; 0x00010020;
    0x08010000; 0x00000400; 0x00000420; 0x08010400;
    0x08010400; 0x08000420; 0x00010020; 0x08010000;
    0x00010000; 0x00000020; 0x08000020; 0x08000400;
    0x08000000; 0x00010400; 0x08010420; 0x00000000;
    0x00010420; 0x08000000; 0x00000400; 0x00010020;
    0x08000420; 0x00000400; 0x00000000; 0x08010420;
    0x08010020; 0x08010400; 0x00000420; 0x00010000;
    0x00010400; 0x08010020; 0x08000400; 0x00000420;
    0x00000020; 0x00010420; 0x08010000; 0x08000020];
   [0x80000040; 0x00200040; 0x00000000; 0x80202000;
    0x00200040; 0x00002000; 0x80002040; 0x00200000;
    0x00002040; 0x80202040; 0x00202000; 0x80000000;
    0x80002000; 0x80000040; 0x80200000; 0x00202040;
    0x00200000; 0x80002040; 0x80200040; 0x00000000;
    0x00002000; 0x00000040; 0x80202000; 0x80200040;
    0x80202040; 0x80200000; 0x80000000; 0x00002040;
    0x00000040; 0x00202000; 0x00202040; 0x80002000;
    0x00002040; 0x80000000; 0x80002000; 0x00202040;
    0x80202000; 0x00200040; 0x00000000; 0x80002000;
    0x80000000; 0x00002000; 0x80200040; 0x00200000;
    0x00200040; 0x80202040; 0x00202000; 0x00000040;
    0x80202040; 0x00202000; 0x00200000; 0x80002040;
    0x80000040; 0x80200000; 0x00202040; 0x00000000;
    0x00002000; 0x80000040; 0x80002040; 0x80202000;
    0x80200000; 0x00002040; 0x00000040; 0x80200040];
   [0x00004000; 0x00000200; 0x01000200; 0x01000004;
    0x01004204; 0x00004004; 0x00004200; 0x00000000;
    0x01000000; 0x01000204; 0x00000204; 0x01004000;
    0x00000004; 0x01004200; 0x01004000; 0x00000204;
    0x01000204; 0x00004000; 0x00004004; 0x01004204;
    0x00000000; 0x01000200; 0x01000004; 0x00004200;
    0x01004004; 0x00004204; 0x01004200; 0x00000004;
    0x00004204; 0x01004004; 0x00000200; 0x01000000;
    0x00004204; 0x01004000; 0x01004004; 0x00000204;
    0x00004000; 0x00000200; 0x01000000; 0x01004004;
    0x01000204; 0x00004204; 0x00004200; 0x00000000;
    0x00000200; 0x01000004; 0x00000004; 0x01000200;
    0x00000000; 0x01000204; 0x01000200; 0x00004200;
    0x00000204; 0x00004000; 0x01004204; 0x01000000;
    0x01004200; 0x00000004; 0x00004004; 0x01004204;
    0x01000004; 0x01004200; 0x01004000; 0x00004004];
   [0x20800080; 0x20820000; 0x00020080; 0x00000000;
    0x20020000; 0x00800080; 0x20800000; 0x20820080;
    0x00000080; 0x20000000; 0x00820000; 0x00020080;
    0x00820080; 0x20020080; 0x20000080; 0x20800000;
    0x00020000; 0x00820080; 0x00800080; 0x20020000;
    0x20820080; 0x20000080; 0x00000000; 0x00820000;
    0x20000000; 0x00800000; 0x20020080; 0x20800080;
    0x00800000; 0x00020000; 0x20820000; 0x00000080;
    0x00800000; 0x00020000; 0x20000080; 0x20820080;
    0x00020080; 0x20000000; 0x00000000; 0x00820000;
    0x20800080; 0x20020080; 0x20020000; 0x00800080;
    0x20820000; 0x00000080; 0x00800080; 0x20020000;
    0x20820080; 0x00800000; 0x20800000; 0x20000080;
    0x00820000; 0x00020080; 0x20020080; 0x20800000;
    0x00000080; 0x20820000; 0x00820080; 0x00000000;
    0x20000000; 0x20800080; 0x00020000; 0x00820080]].

(** [t[i][j]]. *)
Definition rd2 (t : list (list Z)) (i j : Z) : option Z := row ← rd t i; rd row j.

(** ** Checking a key *)

Fixpoint check_key_parity (key : list Z) (n : nat) (i : Z) : option Z :=
  match n with
  | O => Some 1
  | S n =>
      b ← rd key i;
      r ← muggle_parity_check_odd b;
      if r =? 0 then Some 0 else check_key_parity key n (i + 1)
  end.

Definition openssl_des_check_key_parity (key : list Z) : option Z := check_key_parity key 8 0.

(** [memcmp] of 8 bytes being 0. *)
Definition same_block (a b : list Z) : bool := bool_decide (take 8 a = take 8 b).

Fixpoint is_weak_key (key : list Z) (n : nat) (i : Z) : option Z :=
  match n with
  | O => Some 0
  | S n =>
      w ← rd openssl_weak_keys i;
      if same_block w key then Some 1 else is_weak_key key n (i + 1)
  end.

Definition openssl_des_is_weak_key (key : list Z) : option Z :=
  is_weak_key key (Z.to_nat NUM_WEAK_KEY) 0.

(** ** The key schedule *)

Definition shifts1 : list Z := [1; 1; 2; 2; 2; 2; 2; 2; 1; 2; 2; 2; 2; 2; 2; 1].
Definition shifts2 : list Z := [27; 27; 26; 26; 26; 26; 26; 26; 27; 26; 26; 26; 26; 26; 26; 27].

(** PC-1, from the two words of the key to the two halves. *)
Definition openssl_pc1 (c d : Z) : Z * Z :=
  let '(d, c) := MUGGLE_OPENSSL_DES_PERM_OP d c 4 0x0f0f0f0f in
  let c := MUGGLE_OPENSSL_DES_HPERM_OP c (-2) 0xcccc0000 in
  let d := MUGGLE_OPENSSL_DES_HPERM_OP d (-2) 0xcccc0000 in
  let '(d, c) := MUGGLE_OPENSSL_DES_PERM_OP d c 1 0x55555555 in
  let '(c, d) := MUGGLE_OPENSSL_DES_PERM_OP c d 8 0x00ff00ff in
  let '(d, c) := MUGGLE_OPENSSL_DES_PERM_OP d c 1 0x55555555 in
  let d := Z.lor (Z.lor (Z.lor
    (u32 (Z.shiftl (Z.land d 0x000000ff) 16)) (Z.land d 0x0000ff00))
    (Z.shiftr (Z.land d 0x00ff0000) 16)) (Z.shiftr (Z.land c 0xf0000000) 4) in
  let c := Z.land c 0x0fffffff in
  (c, d).

(** The shift of one half in round [i]. *)
Definition openssl_key_shift (c s1 s2 : Z) : Z :=
  Z.land (Z.lor (Z.shiftr c s1) (u32 (Z.shiftl c s2))) 0x0fffffff.

(** The indices of the PC-2 lookups. *)
Definition skb_c (c : Z) : list Z :=
  [Z.land c 0x3f;
   Z.lor (Z.land (Z.shiftr c 6) 0x03) (Z.land (Z.shiftr c 7) 0x3c);
   Z.lor (Z.land (Z.shiftr c 13) 0x0f) (Z.land (Z.shiftr c 14) 0x30);
   Z.lor (Z.lor (Z.land (Z.shiftr c 20) 0x01) (Z.land (Z.shiftr c 21) 0x06))
     (Z.land (Z.shiftr c 22) 0x38)].

Definition skb_d (d : Z) : list Z :=
  [Z.land d 0x3f;
   Z.lor (Z.land (Z.shiftr d 7) 0x03) (Z.land (Z.shiftr d 8) 0x3c);
   Z.land (Z.shiftr d 15) 0x3f;
   Z.lor (Z.land (Z.shiftr d 21) 0x0f) (Z.land (Z.shiftr d 22) 0x30)].

(** The or of the lookups in four consecutive tables. *)
Definition skb_or (first : Z) (idx : list Z) : option Z :=
  i0 ← rd idx 0; i1 ← rd idx 1; i2 ← rd idx 2; i3 ← rd idx 3;
  v0 ← rd2 openssl_des_skb first i0; v1 ← rd2 openssl_des_skb (first + 1) i1;
  v2 ← rd2 openssl_des_skb (first + 2) i2; v3 ← rd2 openssl_des_skb (first + 3) i3;
  Some (Z.lor (Z.lor (Z.lor v0 v1) v2) v3).

(** The two words of a subkey from the results of PC-2. *)
Definition subkey_word0 (s t : Z) : Z :=
  MUGGLE_OPENSSL_DES_ROTATE (Z.lor (u32 (Z.shiftl t 16)) (Z.land s 0x0000ffff)) 30.
Definition subkey_word1 (s t : Z) : Z :=
  MUGGLE_OPENSSL_DES_ROTATE (Z.lor (Z.shiftr s 16) (Z.land t 0xffff0000)) 26.

Definition set_key_round (i : Z) (st : Z * Z * list (list Z)) : option (Z * Z * list (list Z)) :=
  let '(c, d, sk) := st in
  s1 ← rd shifts1 i;
  s2 ← rd shifts2 i;
  let c := openssl_key_shift c s1 s2 in
  let d := openssl_key_shift d s1 s2 in
  s ← skb_or 0 (skb_c c);
  t ← skb_or 4 (skb_d d);
  sk ← wr sk i (le_bytes 4 (subkey_word0 s t) ++ le_bytes 4 (subkey_word1 s t));
  Some (c, d, sk).

(** [sk] is what [ks->sk] holds; every byte of it is overwritten. *)
Definition muggle_openssl_des_set_key_unchecked (key : list Z) (sk : list (list Z))
  : option (list (list Z)) :=
  c ← MUGGLE_OPENSSL_C2L key 0;
  d ← MUGGLE_OPENSSL_C2L key 4;
  let '(c, d) := openssl_pc1 c d in
  '(_, _, sk) ← for_up set_key_round 16 0 (c, d, sk);
  Some sk.

Definition muggle_openssl_des_set_key_checked (key : list Z) (sk : list (list Z))
  : option (Z * list (list Z)) :=
  p ← openssl_des_check_key_parity key;
  if p =? 0 then Some (-1, sk)
  else
    w ← openssl_des_is_weak_key key;
    if negb (w =? 0) then Some (-2, sk)
    else
      sk ← muggle_openssl_des_set_key_unchecked key sk;
      Some (0, sk).

(** The exchange of the subkeys [i] and [15 - i]. *)
Definition swap_subkeys (i : Z) (sk : list (list Z)) : option (list (list Z)) :=
  bytes ← rd sk i;
  other ← rd sk (15 - i);
  sk ← wr sk i other;
  wr sk (15 - i) bytes.

Definition muggle_openssl_des_gen_subkeys (op : Z) (key : list Z) (sk : list (list Z))
  : option (list (list Z)) :=
  sk ← muggle_openssl_des_set_key_unchecked key sk;
  if op =? MUGGLE_DECRYPT then for_up swap_subkeys 8 0 sk else Some sk.

(** ** The block functions *)

(** [ks_u32[j]]: the subkeys as an array of 32-bit words. *)
Definition ks_u32 (sk : list (list Z)) (j : Z) : option Z :=
  k ← rd sk (j / 2);
  bs ← copy_out k (4 * (j mod 2)) 4;
  Some (of_le bs).

(** [MUGGLE_OPENSSL_D_ENCRYPT(l, r, ks_u32, idx)]: the new [l]. *)
Definition MUGGLE_OPENSSL_D_ENCRYPT (l r : Z) (sk : list (list Z)) (idx : Z) : option Z :=
  k0 ← ks_u32 sk idx;
  k1 ← ks_u32 sk (idx + 1);
  let u := Z.lxor r k0 in
  let t := Z.lxor r k1 in
  let t := MUGGLE_OPENSSL_DES_ROTATE t 4 in
  a0 ← rd2 openssl_des_sptrans 0 (Z.land (Z.shiftr u 2) 0x3f);
  a2 ← rd2 openssl_des_sptrans 2 (Z.land (Z.shiftr u 10) 0x3f);
  a4 ← rd2 openssl_des_sptrans 4 (Z.land (Z.shiftr u 18) 0x3f);
  a6 ← rd2 openssl_des_sptrans 6 (Z.land (Z.shiftr u 26) 0x3f);
  a1 ← rd2 openssl_des_sptrans 1 (Z.land (Z.shiftr t 2) 0x3f);
  a3 ← rd2 openssl_des_sptrans 3 (Z.land (Z.shiftr t 10) 0x3f);
  a5 ← rd2 openssl_des_sptrans 5 (Z.land (Z.shiftr t 18) 0x3f);
  a7 ← rd2 openssl_des_sptrans 7 (Z.land (Z.shiftr t 26) 0x3f);
  Some (Z.lxor l (Z.lxor (Z.lxor (Z.lxor (Z.lxor (Z.lxor (Z.lxor (Z.lxor a0 a2) a4) a6) a1) a3) a5) a7)).

(** The 16 rounds of [muggle_openssl_encrypt1] and [muggle_openssl_encrypt2]. *)
Definition openssl_rounds (sk : list (list Z)) (l r : Z) : option (Z * Z) :=
  l ← MUGGLE_OPENSSL_D_ENCRYPT l r sk 0;
  r ← MUGGLE_OPENSSL_D_ENCRYPT r l sk 2;
  l ← MUGGLE_OPENSSL_D_ENCRYPT l r sk 4;
  r ← MUGGLE_OPENSSL_D_ENCRYPT r l sk 6;
  l ← MUGGLE_OPENSSL_D_ENCRYPT l r sk 8;
  r ← MUGGLE_OPENSSL_D_ENCRYPT r l sk 10;
  l ← MUGGLE_OPENSSL_D_ENCRYPT l r sk 12;
  r ← MUGGLE_OPENSSL_D_ENCRYPT r l sk 14;
  l ← MUGGLE_OPENSSL_D_ENCRYPT l r sk 16;
  r ← MUGGLE_OPENSSL_D_ENCRYPT r l sk 18;
  l ← MUGGLE_OPENSSL_D_ENCRYPT l r sk 20;
  r ← MUGGLE_OPENSSL_D_ENCRYPT r l sk 22;
  l ← MUGGLE_OPENSSL_D_ENCRYPT l r sk 24;
  r ← MUGGLE_OPENSSL_D_ENCRYPT r l sk 26;
  l ← MUGGLE_OPENSSL_D_ENCRYPT l r sk 28;
  r ← MUGGLE_OPENSSL_D_ENCRYPT r l sk 30;
  Some (l, r).

Definition muggle_openssl_encrypt1 (input : Z) (ks : list (list Z)) : option Z :=
  let r := lo input in
  let l := hi input in
  let '(r, l) := MUGGLE_OPENSSL_DES_IP r l in
  let r := MUGGLE_OPENSSL_DES_ROTATE r 29 in
  let l := MUGGLE_OPENSSL_DES_ROTATE l 29 in
  '(l, r) ← openssl_rounds ks l r;
  let l := MUGGLE_OPENSSL_DES_ROTATE l 3 in
  let r := MUGGLE_OPENSSL_DES_ROTATE r 3 in
  let '(r, l) := MUGGLE_OPENSSL_DES_FP r l in
  Some (join l r).

Definition muggle_openssl_encrypt2 (input : Z) (ks : list (list Z)) : option Z :=
  let r := lo input in
  let l := hi input in
  let r := MUGGLE_OPENSSL_DES_ROTATE r 29 in
  let l := MUGGLE_OPENSSL_DES_ROTATE l 29 in
  '(l, r) ← openssl_rounds ks l r;
  let l := MUGGLE_OPENSSL_DES_ROTATE l 3 in
  let r := MUGGLE_OPENSSL_DES_ROTATE r 3 in
  Some (join l r).

Definition muggle_openssl_des_crypt (input : Z) (ks : list (list Z)) : option Z :=
  muggle_openssl_encrypt1 input ks.

(** The two words read by [MUGGLE_OPENSSL_C2L] are overwritten before use. *)
Definition muggle_openssl_tdes_crypt (input : Z) (ks1 ks2 ks3 : list (list Z)) : option Z :=
  let l := lo input in
  let r := hi input in
  let '(l, r) := MUGGLE_OPENSSL_DES_IP l r in
  let input_block := join l r in
  output ← muggle_openssl_encrypt2 input_block ks1;
  output ← muggle_openssl_encrypt2 output ks2;
  output ← muggle_openssl_encrypt2 output ks3;
  let l := lo output in
  let r := hi output in
  let '(r, l) := MUGGLE_OPENSSL_DES_FP r l in
  Some (join l r).
