(* ===== verification/DesSpec.v ===== *)
(** * The Data Encryption Standard, and the optimised DES as an implementation of it

    FIPS 46-3 as executable definitions on words whose bits are numbered from
    1 at the most significant end, with the tables as the standard prints
    them; then the proof that key schedule and block functions of
    [OpensslDes] compute it for every key and every block.  The words of the
    optimised code are linear images of the words of the standard
    ([half_word], [key_word0], [key_word1]); the linear parts are compared on
    the powers of two, the merged tables on their 64 entries. *)
From Stdlib Require Import Btauto.
From S2P Require Import Prelude Utils Modes Lanes Parity XorLinear Des OpensslDes.

(** ** The standard *)
Module Fips.

(** The word of the bits of [x], a word of [w] bits, selected by the table. *)
Definition perm (w : Z) (tbl : list Z) (x : Z) : Z :=
  fold_left (fun acc p => Z.lor (Z.shiftl acc 1) (Z.b2z (Z.testbit x (w - p)))) tbl 0.

Definition IP : list Z :=
  [58; 50; 42; 34; 26; 18; 10; 2; 60; 52; 44; 36; 28; 20; 12; 4;
   62; 54; 46; 38; 30; 22; 14; 6; 64; 56; 48; 40; 32; 24; 16; 8;
   57; 49; 41; 33; 25; 17; 9; 1; 59; 51; 43; 35; 27; 19; 11; 3;
   61; 53; 45; 37; 29; 21; 13; 5; 63; 55; 47; 39; 31; 23; 15; 7].

Definition IP_inv : list Z :=
  [40; 8; 48; 16; 56; 24; 64; 32; 39; 7; 47; 15; 55; 23; 63; 31;
   38; 6; 46; 14; 54; 22; 62; 30; 37; 5; 45; 13; 53; 21; 61; 29;
   36; 4; 44; 12; 52; 20; 60; 28; 35; 3; 43; 11; 51; 19; 59; 27;
   34; 2; 42; 10; 50; 18; 58; 26; 33; 1; 41; 9; 49; 17; 57; 25].

Definition E : list Z :=
  [32; 1; 2; 3; 4; 5; 4; 5; 6; 7; 8; 9; 8; 9; 10; 11; 12; 13; 12; 13; 14; 15; 16; 17;
   16; 17; 18; 19; 20; 21; 20; 21; 22; 23; 24; 25; 24; 25; 26; 27; 28; 29; 28; 29; 30; 31; 32; 1].

Definition P : list Z :=
  [16; 7; 20; 21; 29; 12; 28; 17; 1; 15; 23; 26; 5; 18; 31; 10;
   2; 8; 24; 14; 32; 27; 3; 9; 19; 13; 30; 6; 22; 11; 4; 25].

Definition PC1_C : list Z :=
  [57; 49; 41; 33; 25; 17; 9; 1; 58; 50; 42; 34; 26; 18;
   10; 2; 59; 51; 43; 35; 27; 19; 11; 3; 60; 52; 44; 36].

Definition PC1_D : list Z :=
  [63; 55; 47; 39; 31; 23; 15; 7; 62; 54; 46; 38; 30; 22;
   14; 6; 61; 53; 45; 37; 29; 21; 13; 5; 28; 20; 12; 4].

Definition PC2 : list Z :=
  [14; 17; 11; 24; 1; 5; 3; 28; 15; 6; 21; 10; 23; 19; 12; 4; 26; 8; 16; 7; 27; 20; 13; 2;
   41; 52; 31; 37; 47; 55; 30; 40; 51; 45; 33; 48; 44; 49; 39; 56; 34; 53; 46; 42; 50; 36; 29; 32].

Definition left_shifts : list Z := [1; 1; 2; 2; 2; 2; 2; 2; 1; 2; 2; 2; 2; 2; 2; 1].

(** The S-boxes, four rows of 16 each. *)
Definition S : list (list Z) :=
  [[14; 4; 13; 1; 2; 15; 11; 8; 3; 10; 6; 12; 5; 9; 0; 7;
    0; 15; 7; 4; 14; 2; 13; 1; 10; 6; 12; 11; 9; 5; 3; 8;
    4; 1; 14; 8; 13; 6; 2; 11; 15; 12; 9; 7; 3; 10; 5; 0;
    15; 12; 8; 2; 4; 9; 1; 7; 5; 11; 3; 14; 10; 0; 6; 13];
   [15; 1; 8; 14; 6; 11; 3; 4; 9; 7; 2; 13; 12; 0; 5; 10;
    3; 13; 4; 7; 15; 2; 8; 14; 12; 0; 1; 10; 6; 9; 11; 5;
    0; 14; 7; 11; 10; 4; 13; 1; 5; 8; 12; 6; 9; 3; 2; 15;
    13; 8; 10; 1; 3; 15; 4; 2; 11; 6; 7; 12; 0; 5; 14; 9];
   [10; 0; 9; 14; 6; 3; 15; 5; 1; 13; 12; 7; 11; 4; 2; 8;
    13; 7; 0; 9; 3; 4; 6; 10; 2; 8; 5; 14; 12; 11; 15; 1;
    13; 6; 4; 9; 8; 15; 3; 0; 11; 1; 2; 12; 5; 10; 14; 7;
    1; 10; 13; 0; 6; 9; 8; 7; 4; 15; 14; 3; 11; 5; 2; 12];
   [7; 13; 14; 3; 0; 6; 9; 10; 1; 2; 8; 5; 11; 12; 4; 15;
    13; 8; 11; 5; 6; 15; 0; 3; 4; 7; 2; 12; 1; 10; 14; 9;
    10; 6; 9; 0; 12; 11; 7; 13; 15; 1; 3; 14; 5; 2; 8; 4;
    3; 15; 0; 6; 10; 1; 13; 8; 9; 4; 5; 11; 12; 7; 2; 14];
   [2; 12; 4; 1; 7; 10; 11; 6; 8; 5; 3; 15; 13; 0; 14; 9;
    14; 11; 2; 12; 4; 7; 13; 1; 5; 0; 15; 10; 3; 9; 8; 6;
    4; 2; 1; 11; 10; 13; 7; 8; 15; 9; 12; 5; 6; 3; 0; 14;
    11; 8; 12; 7; 1; 14; 2; 13; 6; 15; 0; 9; 10; 4; 5; 3];
   [12; 1; 10; 15; 9; 2; 6; 8; 0; 13; 3; 4; 14; 7; 5; 11;
    10; 15; 4; 2; 7; 12; 9; 5; 6; 1; 13; 14; 0; 11; 3; 8;
    9; 14; 15; 5; 2; 8; 12; 3; 7; 0; 4; 10; 1; 13; 11; 6;
    4; 3; 2; 12; 9; 5; 15; 10; 11; 14; 1; 7; 6; 0; 8; 13];
   [4; 11; 2; 14; 15; 0; 8; 13; 3; 12; 9; 7; 5; 10; 6; 1;
    13; 0; 11; 7; 4; 9; 1; 10; 14; 3; 5; 12; 2; 15; 8; 6;
    1; 4; 11; 13; 12; 3; 7; 14; 10; 15; 6; 8; 0; 5; 9; 2;
    6; 11; 13; 8; 1; 4; 10; 7; 9; 5; 0; 15; 14; 2; 3; 12];
   [13; 2; 8; 4; 6; 15; 11; 1; 10; 9; 3; 14; 5; 0; 12; 7;
    1; 15; 13; 8; 10; 3; 7; 4; 12; 5; 6; 11; 0; 14; 9; 2;
    7; 11; 4; 1; 9; 12; 14; 2; 0; 6; 10; 13; 15; 3; 5; 8;
    2; 1; 14; 7; 4; 10; 8; 13; 15; 12; 9; 0; 3; 5; 6; 11]].

(** The 6 bits of S-box [j] (from 0), and its output for them: the row is
    given by the outer two bits, the column by the inner four. *)
Definition chunk (j : Z) (x : Z) : Z := Z.land (Z.shiftr x (42 - 6 * j)) 63.

Definition sbox (j v : Z) : Z :=
  let row := Z.lor (Z.shiftl (Z.shiftr v 5) 1) (Z.land v 1) in
  let col := Z.land (Z.shiftr v 1) 15 in
  nth (Z.to_nat (16 * row + col)) (nth (Z.to_nat j) S []) 0.

(** The output of the S-boxes [j], ..., 7 in its place in the 32-bit word. *)
Definition sbox_out (j x : Z) : Z := Z.shiftl (sbox j (chunk j x)) (28 - 4 * j).

Definition sboxes (x : Z) : Z := foldr (fun j acc => Z.lor (sbox_out j x) acc) 0 (seqZ 0 8).

(** The cipher function. *)
Definition f (R K : Z) : Z := perm 32 P (sboxes (Z.lxor (perm 32 E R) K)).

(** The key schedule: both halves of 28 bits are rotated to the left. *)
Definition rotl28 (x n : Z) : Z := Z.land (Z.lor (Z.shiftl x n) (Z.shiftr x (28 - n))) (Z.ones 28).

Fixpoint schedule (shifts : list Z) (C D : Z) : list Z :=
  match shifts with
  | [] => []
  | n :: shifts =>
      let C := rotl28 C n in
      let D := rotl28 D n in
      perm 56 PC2 (Z.lor (Z.shiftl C 28) D) :: schedule shifts C D
  end.

Definition subkeys (key : Z) : list Z := schedule left_shifts (perm 64 PC1_C key) (perm 64 PC1_D key).

(** The rounds, and the block functions. *)
Fixpoint rounds (ks : list Z) (L R : Z) : Z * Z :=
  match ks with
  | [] => (L, R)
  | K :: ks => rounds ks R (Z.lxor L (f R K))
  end.

Definition crypt (ks : list Z) (x : Z) : Z :=
  let y := perm 64 IP x in
  let '(L, R) := rounds ks (Z.shiftr y 32) (Z.land y (Z.ones 32)) in
  perm 64 IP_inv (Z.lor (Z.shiftl R 32) L).

Definition encrypt (key x : Z) : Z := crypt (subkeys key) x.
Definition decrypt (key x : Z) : Z := crypt (rev (subkeys key)) x.

(** Triple DES (TDEA): encrypt, decrypt, encrypt. *)
Definition tdea_encrypt (key1 key2 key3 x : Z) : Z := encrypt key3 (decrypt key2 (encrypt key1 x)).
Definition tdea_decrypt (key1 key2 key3 x : Z) : Z := decrypt key1 (encrypt key2 (decrypt key3 x)).
End Fips.

(** ** Linearity *)

Lemma perm_xor_acc w tbl x y a b :
  fold_left (fun acc p => Z.lor (Z.shiftl acc 1) (Z.b2z (Z.testbit (Z.lxor x y) (w - p)))) tbl (Z.lxor a b)
  = Z.lxor (fold_left (fun acc p => Z.lor (Z.shiftl acc 1) (Z.b2z (Z.testbit x (w - p)))) tbl a)
      (fold_left (fun acc p => Z.lor (Z.shiftl acc 1) (Z.b2z (Z.testbit y (w - p)))) tbl b).
Proof.
  revert a b; induction tbl as [|p tbl IH]; intros a b; cbn [fold_left]; [done|].
  rewrite <- IH; f_equal; apply Z.bits_inj'; intros i Hi.
  rewrite !Z.lxor_spec, !Z.lor_spec, !Z.shiftl_spec, !Z.lxor_spec by done.
  destruct (Z.eq_dec i 0) as [->|Hne].
  - rewrite !Z.b2z_bit0, ?(Z.testbit_neg_r a), ?(Z.testbit_neg_r b) by lia.
    by destruct (Z.testbit x (w - p)), (Z.testbit y (w - p)).
  - assert (forall c : bool, Z.testbit (Z.b2z c) i = false) as E
      by (intros []; [apply Z.bits_above_log2; simpl; lia|apply Z.testbit_0_l]).
    rewrite !E, !orb_false_r; done.
Qed.

Lemma perm_xor w tbl x y : Fips.perm w tbl (Z.lxor x y) = Z.lxor (Fips.perm w tbl x) (Fips.perm w tbl y).
Proof. apply (perm_xor_acc w tbl x y 0 0). Qed.

Lemma perm_width w tbl x : in_width (Z.of_nat (length tbl)) (Fips.perm w tbl x).
Proof.
  unfold Fips.perm.
  enough (forall k a, 0 <= k -> in_width k a -> in_width (k + Z.of_nat (length tbl))
    (fold_left (fun acc p => Z.lor (Z.shiftl acc 1) (Z.b2z (Z.testbit x (w - p)))) tbl a)) as H
    by (apply (H 0 0); unfold in_width; lia).
  induction tbl as [|p tbl IH]; intros k a Hk Ha; cbn [fold_left length].
  - by replace (k + Z.of_nat 0) with k by lia.
  - replace (k + Z.of_nat (S (length tbl))) with ((k + 1) + Z.of_nat (length tbl)) by lia.
    apply IH; [lia|]; unfold in_width in *; apply lor_bound; [lia| |].
    + rewrite Z.shiftl_mul_pow2, Z.pow_add_r by lia; lia.
    + assert (0 <= Z.b2z (Z.testbit x (w - p)) <= 1) by (by destruct (Z.testbit x (w - p))).
      pose proof (Z.pow_le_mono_r 2 1 (k + 1)); lia.
Qed.

Section Closure.
Variable n : Z.

Lemma lin_perm m w tbl f : Lin n m f ->
  Lin n (Z.ones (Z.of_nat (length tbl))) (fun x => Fips.perm w tbl (f x)).
Proof.
  intros [L U]; split; [intros x y Hx Hy; by rewrite L, perm_xor by done|].
  intros x Hx; apply under_width; [lia|apply perm_width].
Qed.

Lemma lin_rotate m k f : 0 <= k <= 32 -> Lin n m f ->
  Z.land (Z.shiftr m k) (u32 (Z.shiftl m (32 - k))) = 0 ->
  Lin n (u32 (Z.lor (Z.shiftr m k) (u32 (Z.shiftl m (32 - k)))))
    (fun x => MUGGLE_OPENSSL_DES_ROTATE (f x) k).
Proof.
  intros Hk Hf Hd.
  assert (Lin n (Z.shiftr m k) (fun x => Z.shiftr (f x) k)) as H1 by (apply lin_shiftr; [lia|done]).
  assert (Lin n (u32 (Z.shiftl m (32 - k))) (fun x => u32 (Z.shiftl (f x) (32 - k)))) as H2
    by (apply lin_wrap; [lia|]; apply lin_shiftl; [lia|done]).
  assert (forall x, in_width n x -> Z.shiftr (f x) k + u32 (Z.shiftl (f x) (32 - k))
    = Z.lor (Z.shiftr (f x) k) (u32 (Z.shiftl (f x) (32 - k)))) as E.
  { intros x Hx; rewrite (lor_disjoint _ _ _ _ (lin_under _ _ _ H1 x Hx) (lin_under _ _ _ H2 x Hx) Hd).
    apply (add_disjoint _ _ _ _ (lin_under _ _ _ H1 x Hx) (lin_under _ _ _ H2 x Hx) Hd). }
  destruct (lin_wrap n _ 32 _ ltac:(lia) (lin_lor n _ _ _ _ H1 H2 Hd)) as [L U].
  destruct (Z_lt_le_dec n 0) as [Hn|Hn].
  { split; intros x; intros; unfold in_width in *; rewrite Z.pow_neg_r in * by done; lia. }
  split; unfold MUGGLE_OPENSSL_DES_ROTATE.
  - intros x y Hx Hy; rewrite !E by (done || by apply in_width_lxor); by apply L.
  - intros x Hx; rewrite E by done; by apply U.
Qed.
End Closure.

(** [tbl[j][v]], and the bits of the entries of row [j]. *)
Definition entry (tbl : list (list Z)) (j v : Z) : Z := nth (Z.to_nat v) (nth (Z.to_nat j) tbl []) 0.

Definition row_mask (tbl : list (list Z)) (j : Z) : Z := foldr Z.lor 0 (nth (Z.to_nat j) tbl []).

(** Linearity of an expression, with the mask computed alongside. *)
Ltac lin :=
  lazymatch goal with
  | |- Lin _ _ (fun x => x) => apply lin_id; lia
  | |- Lin _ _ (fun x => Z.lxor (@?f x) (@?g x)) => eapply lin_lxor; lin
  | |- Lin _ _ (fun x => Z.lor (@?f x) (@?g x)) => eapply lin_lor; [lin|lin|vm_compute; reflexivity]
  | |- Lin _ _ (fun x => Z.land (@?f x) _) => eapply lin_land; lin
  | |- Lin _ _ (fun x => Z.shiftr (@?f x) _) => eapply lin_shiftr; [lia|lin]
  | |- Lin _ _ (fun x => Z.shiftl (@?f x) _) => eapply lin_shiftl; [lia|lin]
  | |- Lin _ _ (fun x => wrap _ (@?f x)) => eapply lin_wrap; [lia|lin]
  | |- Lin _ _ (fun x => Fips.perm _ _ (@?f x)) => eapply lin_perm; lin
  | |- Lin ?n ?m (Fips.perm ?w ?tbl) => change (Lin n m (fun x => Fips.perm w tbl x)); lin
  | |- Lin _ _ (fun x => MUGGLE_OPENSSL_DES_ROTATE (@?f x) _) =>
      eapply lin_rotate; [lia|lin|vm_compute; reflexivity]
  | |- Lin _ _ (fun x => entry ?tbl ?j (@?f x)) =>
      let m := eval vm_compute in (row_mask tbl j) in
      eapply (lin_table _ 6 m); [lin|lia|vm_compute; reflexivity|vm_compute; reflexivity]
  | _ => eassumption
  end.

(** An equality of linear expressions. *)
Ltac by_basis x Hx :=
  lazymatch type of Hx with
  | in_width ?n x =>
      pattern x;
      lazymatch goal with
      | |- (fun y => @?f y = @?g y) _ =>
          refine (lin_decide n _ _ f g _ _ _ _ x Hx); [lia|lin|lin|vm_compute; reflexivity]
      end
  end.

(** ** Words of the optimised code *)

(** A half of the block: the bits in the opposite order, rotated by 3. *)
Definition rev32 (h : Z) : Z := Fips.perm 32 (rev (seqZ 1 32)) h.
Definition half_word (h : Z) : Z := Fips.perm 32 (rev (seqZ 1 29) ++ [32; 31; 30]) h.

(** A half of the key. *)
Definition rev28 (h : Z) : Z := Fips.perm 28 (rev (seqZ 1 28)) h.

(** The two words of a subkey; 0 stands for a clear bit. *)
Definition key_word0 (K : Z) : Z :=
  Fips.perm 48 [42; 41; 40; 39; 38; 37; 0; 0; 30; 29; 28; 27; 26; 25; 0; 0;
                18; 17; 16; 15; 14; 13; 0; 0; 6; 5; 4; 3; 2; 1; 0; 0] K.
Definition key_word1 (K : Z) : Z :=
  Fips.perm 48 [44; 43; 0; 0; 36; 35; 34; 33; 32; 31; 0; 0; 24; 23; 22; 21;
                20; 19; 0; 0; 12; 11; 10; 9; 8; 7; 0; 0; 48; 47; 46; 45] K.
Definition subkey_bytes (K : Z) : list Z := le_bytes 4 (key_word0 K) ++ le_bytes 4 (key_word1 K).

Lemma rotate_29 h : in_width 32 h -> MUGGLE_OPENSSL_DES_ROTATE (rev32 h) 29 = half_word h.
Proof. intros Hh; unfold rev32, half_word; by_basis h Hh. Qed.

Lemma rotate_3 h : in_width 32 h -> MUGGLE_OPENSSL_DES_ROTATE (half_word h) 3 = rev32 h.
Proof. intros Hh; unfold rev32, half_word; by_basis h Hh. Qed.

(** ** The masked exchanges *)

(** Both components of a pair of 32-bit words. *)
Definition LinP (n : Z) (f : Z -> Z * Z) : Prop :=
  Lin n (Z.ones 32) (fun x => (f x).1) /\ Lin n (Z.ones 32) (fun x => (f x).2).

Definition exchange (p : Z * Z) : Z * Z := (p.2, p.1).
Definition perm_op (n m : Z) (p : Z * Z) : Z * Z := MUGGLE_OPENSSL_DES_PERM_OP p.1 p.2 n m.

Lemma lin32_weaken n m f : in_width 32 m -> Lin n m f -> Lin n (Z.ones 32) f.
Proof. intros Hm Hf; apply (lin_weaken n m); [done|by apply under_width]. Qed.

Lemma ones32_width : in_width 32 (Z.ones 32).
Proof. change (Z.ones 32) with 4294967295; unfold in_width; lia. Qed.

Lemma lin_exchange n f : LinP n f -> LinP n (fun x => exchange (f x)).
Proof. intros [H1 H2]; by split. Qed.

Lemma lin_perm_op n k m f : 0 <= k -> in_width 32 m -> LinP n f -> LinP n (fun x => perm_op k m (f x)).
Proof.
  intros Hk Hm [H1 H2]; pose proof ones32_width as HM.
  assert (Lin n (Z.ones 32) (fun x => Z.land (Z.lxor (Z.shiftr (f x).1 k) (f x).2) m)) as Ht.
  { eapply lin32_weaken; [|apply lin_land, lin_lxor; [by apply lin_shiftr|done]].
    apply in_width_land; [lia|apply in_width_lor; [lia|by apply in_width_shiftr|done]|done]. }
  split; cbn [perm_op MUGGLE_OPENSSL_DES_PERM_OP fst snd].
  - eapply lin32_weaken; [|apply lin_lxor; [done|apply lin_wrap; [lia|by apply lin_shiftl]]].
    apply in_width_lor; [lia|done|apply u32_width].
  - eapply lin32_weaken; [|by apply lin_lxor]; by apply in_width_lor.
Qed.

Lemma lin_hperm_op n m f : in_width 32 m -> Lin n (Z.ones 32) f ->
  Lin n (Z.ones 32) (fun x => MUGGLE_OPENSSL_DES_HPERM_OP (f x) (-2) m).
Proof.
  intros Hm Hf; pose proof ones32_width as HM.
  assert (Lin n (Z.ones 32) (fun x => Z.land (Z.lxor (u32 (Z.shiftl (f x) (16 - -2))) (f x)) m)) as Ht.
  { eapply lin32_weaken; [|apply lin_land, lin_lxor; [apply lin_wrap; [lia|]; apply lin_shiftl; [lia|done]|done]].
    apply in_width_land; [lia|apply in_width_lor; [lia|apply u32_width|done]|done]. }
  eapply lin32_weaken; [|apply lin_lxor; [by apply lin_lxor|apply lin_shiftr; [lia|done]]].
  apply in_width_lor; [lia|by apply in_width_lor|apply in_width_shiftr; [lia|done]].
Qed.

Lemma lin_ip n f : LinP n f -> LinP n (fun x => MUGGLE_OPENSSL_DES_IP (f x).1 (f x).2).
Proof.
  intros H.
  change (LinP n (fun x => exchange (perm_op 1 0x55555555 (exchange (perm_op 8 0x00ff00ff
    (exchange (perm_op 2 0x33333333 (exchange (perm_op 16 0x0000ffff (exchange (perm_op 4 0x0f0f0f0f
    (exchange (f x))))))))))))).
  repeat first [apply lin_exchange | apply lin_perm_op; [lia|unfold in_width; lia|]]; done.
Qed.

Lemma lin_fp n f : LinP n f -> LinP n (fun x => MUGGLE_OPENSSL_DES_FP (f x).1 (f x).2).
Proof.
  intros H.
  change (LinP n (fun x => perm_op 4 0x0f0f0f0f (exchange (perm_op 16 0x0000ffff
    (exchange (perm_op 2 0x33333333 (exchange (perm_op 8 0x00ff00ff (exchange (perm_op 1 0x55555555
    (f x))))))))))).
  repeat first [apply lin_exchange | apply lin_perm_op; [lia|unfold in_width; lia|]]; done.
Qed.

(** ** Blocks in memory *)

Definition of_be (bs : list Z) : Z := of_le (rev bs).
Definition be_bytes (n : nat) (x : Z) : list Z := rev (le_bytes n x).

(** The little-endian word of a block as the big-endian word of the standard. *)
Definition bswap (x : Z) : Z := of_be (le_bytes 8 x).

Lemma of_le_xor n xs ys : is_block n xs -> is_block n ys ->
  of_le (xor_bytes xs ys) = Z.lxor (of_le xs) (of_le ys).
Proof.
  intros Hx Hy; assert (forall zs, is_block n zs -> in_width (8 * Z.of_nat n) (of_le zs)) as W.
  { intros zs [Hl Hz]; pose proof (of_le_bound zs Hz) as H; rewrite Hl in H; unfold in_width.
    by rewrite Z.pow_mul_r by lia. }
  assert (forall zs, is_block n zs -> le_bytes n (of_le zs) = zs) as B
    by (intros zs [Hl Hz]; rewrite <- Hl; by apply le_bytes_of).
  rewrite <- (B xs Hx), <- (B ys Hy) at 1; rewrite <- le_bytes_lxor; apply of_le_bytes.
  rewrite <- (Z.pow_mul_r 2 8) by lia; apply in_width_lxor; [lia|by apply W..].
Qed.

Lemma rev_zip_with {A B C} (f : A -> B -> C) xs ys : length xs = length ys ->
  rev (zip_with f xs ys) = zip_with f (rev xs) (rev ys).
Proof.
  revert ys; induction xs as [|x xs IH]; intros [|y ys] Hl; try done; simpl in *.
  rewrite IH, zip_with_app by (rewrite ?length_rev; lia); done.
Qed.

Lemma rev_block n b : is_block n b -> is_block n (rev b).
Proof.
  intros [Hl Hb]; split; [by rewrite length_rev|].
  rewrite Forall_forall in *; intros x Hx; apply Hb; by apply list_elem_of_In, in_rev, list_elem_of_In.
Qed.

Lemma bswap64_width x : in_width 64 (bswap x).
Proof.
  unfold bswap, of_be; pose proof (of_le_bound (rev (le_bytes 8 x))) as H.
  destruct (rev_block 8 _ (le_bytes_block 8 x)) as [Hl Hb]; rewrite Hl in H.
  unfold in_width; change (2 ^ 64) with (256 ^ Z.of_nat 8); auto.
Qed.

Lemma lin_bswap : Lin 64 (Z.ones 64) bswap.
Proof.
  split; [|intros x _; apply under_width; [lia|apply bswap64_width]].
  intros x y _ _; unfold bswap, of_be; rewrite le_bytes_lxor.
  unfold xor_bytes; rewrite rev_zip_with by (by rewrite !(proj1 (le_bytes_block _ _))).
  apply (of_le_xor 8); apply rev_block, le_bytes_block.
Qed.

Lemma bswap_block b : is_block 8 b -> bswap (of_le b) = of_be b.
Proof. intros Hb; unfold bswap; by rewrite (proj2 (le_word b Hb)). Qed.

Lemma be_bytes_bswap x : in_width 64 x -> be_bytes 8 (bswap x) = le_bytes 8 x.
Proof.
  intros Hx; unfold be_bytes, bswap, of_be.
  destruct (rev_block 8 _ (le_bytes_block 8 x)) as [Hl Hb].
  rewrite <- Hl at 1; rewrite le_bytes_of by done; apply rev_involutive.
Qed.

Lemma lin_lohi : LinP 64 (fun x => (lo x, hi x)).
Proof.
  unfold lo, hi; split; cbn [fst snd].
  - eapply lin32_weaken; [|lin]; apply u32_width.
  - eapply lin32_weaken; [|lin]; split; reflexivity || done.
Qed.

#[local] Opaque MUGGLE_OPENSSL_DES_IP MUGGLE_OPENSSL_DES_FP bswap Fips.perm.

(** The halves of a block of the standard. *)
Definition left (y : Z) : Z := Z.shiftr y 32.
Definition right (y : Z) : Z := Z.land y (Z.ones 32).

Lemma ip_words x : in_width 64 x ->
  MUGGLE_OPENSSL_DES_IP (lo x) (hi x) =
  (rev32 (right (Fips.perm 64 Fips.IP (bswap x))), rev32 (left (Fips.perm 64 Fips.IP (bswap x)))).
Proof.
  intros Hx; rewrite (surjective_pairing (MUGGLE_OPENSSL_DES_IP (lo x) (hi x))).
  destruct (lin_ip 64 _ lin_lohi) as [H1 H2]; cbn [fst snd] in H1, H2; pose proof lin_bswap as Hb.
  unfold rev32, left, right; f_equal; by_basis x Hx.
Qed.

Lemma fp_words z : in_width 64 z ->
  let '(r, l) := MUGGLE_OPENSSL_DES_FP (rev32 (left z)) (rev32 (right z)) in
  join l r = bswap (Fips.perm 64 Fips.IP_inv z).
Proof.
  intros Hz; rewrite (surjective_pairing (MUGGLE_OPENSSL_DES_FP _ _)).
  assert (LinP 64 (fun z => (rev32 (left z), rev32 (right z)))) as HP.
  { unfold rev32, left, right; split; cbn [fst snd]; (eapply lin32_weaken; [|lin]); by split. }
  destruct (lin_fp 64 _ HP) as [H1 H2]; cbn [fst snd] in H1, H2; unfold join.
  assert (Lin 64 (Z.ones 64) (fun z => bswap (Fips.perm 64 Fips.IP_inv z))) as Hb.
  { eapply (lin_comp 64 64); [lia|lin|reflexivity|apply lin_bswap]. }
  by_basis z Hz.
Qed.

(** ** A round *)

Definition eight_by_64 (tbl : list (list Z)) : bool :=
  (length tbl =? 8)%nat && forallb (fun row => length row =? 64)%nat tbl.

Lemma rd_nth {A} (l : list A) d i : 0 <= i < Z.of_nat (length l) -> rd l i = Some (nth (Z.to_nat i) l d).
Proof.
  intros Hi; destruct (rd_is_Some l i) as [x Hx]; [done|]; rewrite Hx; f_equal.
  unfold rd in Hx; destruct (decide _); [|done]; by rewrite (nth_lookup_Some _ _ d x Hx).
Qed.

Lemma rd2_entry tbl j v : eight_by_64 tbl = true -> 0 <= j < 8 -> 0 <= v < 64 ->
  rd2 tbl j v = Some (entry tbl j v).
Proof.
  unfold eight_by_64, rd2, entry; intros [Hl Hr]%andb_true_iff Hj Hv; apply Nat.eqb_eq in Hl.
  rewrite (rd_nth tbl [] j) by lia; cbn [mbind option_bind]; apply rd_nth.
  assert (In (nth (Z.to_nat j) tbl []) tbl) as Hin by (apply nth_In; lia).
  rewrite forallb_forall in Hr; apply Hr, Nat.eqb_eq in Hin; lia.
Qed.

Definition rev6 (v : Z) : Z := Fips.perm 6 [6; 5; 4; 3; 2; 1] v.

(** The index of S-box [j], as found in the words of the optimised round. *)
Definition idx_u (s u : Z) : Z := Z.land (Z.shiftr u s) 63.
Definition idx_t (s t : Z) : Z := Z.land (Z.shiftr (MUGGLE_OPENSSL_DES_ROTATE t 4) s) 63.

Lemma half_word_width h : in_width 32 (half_word h).
Proof. apply (perm_width 32 (rev (seqZ 1 29) ++ [32; 31; 30])). Qed.

Lemma key_word0_width K : in_width 32 (key_word0 K).
Proof. eapply (perm_width 48 [_;_;_;_;_;_;_;_;_;_;_;_;_;_;_;_;_;_;_;_;_;_;_;_;_;_;_;_;_;_;_;_]). Qed.

Lemma key_word1_width K : in_width 32 (key_word1 K).
Proof. eapply (perm_width 48 [_;_;_;_;_;_;_;_;_;_;_;_;_;_;_;_;_;_;_;_;_;_;_;_;_;_;_;_;_;_;_;_]). Qed.

(** An index function that agrees with S-box [j] on halves and on subkeys
    agrees on their exclusive or. *)
Lemma idx_split mi (idx kw : Z -> Z) j R K :
  Lin 32 mi idx -> in_width 32 (kw K) ->
  idx (half_word R) = rev6 (Fips.chunk j (Fips.perm 32 Fips.E R)) ->
  idx (kw K) = rev6 (Fips.chunk j K) ->
  idx (Z.lxor (half_word R) (kw K)) = rev6 (Fips.chunk j (Z.lxor (Fips.perm 32 Fips.E R) K)).
Proof.
  intros Hi Hk H1 H2; rewrite (lin_xor _ _ _ Hi), H1, H2 by (done || apply half_word_width).
  unfold rev6, Fips.chunk; rewrite <- perm_xor; f_equal; apply Z.bits_inj'; intros i Hi'.
  rewrite !Z.lxor_spec, !Z.land_spec, !Z.shiftr_spec, Z.lxor_spec by done; btauto.
Qed.

Ltac index x Hx := unfold idx_u, idx_t, rev6, Fips.chunk, half_word, key_word0, key_word1; by_basis x Hx.

Lemma idx_u_spec j s R K : In (j, s) [(0, 2); (2, 10); (4, 18); (6, 26)] ->
  in_width 32 R -> in_width 48 K ->
  idx_u s (Z.lxor (half_word R) (key_word0 K)) = rev6 (Fips.chunk j (Z.lxor (Fips.perm 32 Fips.E R) K)).
Proof.
  intros Hj HR HK.
  repeat (destruct Hj as [Hj|Hj]; [injection Hj as <- <-; eapply idx_split;
    [unfold idx_u; lin|apply key_word0_width|index R HR|index K HK]|]); done.
Qed.

Lemma idx_t_spec j s R K : In (j, s) [(1, 2); (3, 10); (5, 18); (7, 26)] ->
  in_width 32 R -> in_width 48 K ->
  idx_t s (Z.lxor (half_word R) (key_word1 K)) = rev6 (Fips.chunk j (Z.lxor (Fips.perm 32 Fips.E R) K)).
Proof.
  intros Hj HR HK.
  repeat (destruct Hj as [Hj|Hj]; [injection Hj as <- <-; eapply idx_split;
    [unfold idx_t; lin|apply key_word1_width|index R HR|index K HK]|]); done.
Qed.

Lemma chunk_bound j x : 0 <= Fips.chunk j x < 64.
Proof. apply (land_bound _ 63 6); lia. Qed.

(** The merged tables: S-box and permutation P of one nibble, and the bounds
    of the S-boxes. *)
Definition merged (j v : Z) : bool :=
  (entry openssl_des_sptrans j (rev6 v) =?
   half_word (Fips.perm 32 Fips.P (Z.shiftl (Fips.sbox j v) (28 - 4 * j)))) &&
  (0 <=? rev6 v) && (rev6 v <? 64) && (0 <=? Fips.sbox j v) && (Fips.sbox j v <? 16).

Lemma merged_all j v : 0 <= j < 8 -> 0 <= v < 64 -> merged j v = true.
Proof.
  intros Hj Hv.
  assert (forallb (fun j => forallb (merged j) (seqZ 0 64)) (seqZ 0 8) = true) as H
    by (vm_compute; reflexivity).
  rewrite forallb_forall in H; specialize (H j ltac:(apply list_elem_of_In, elem_of_seqZ; lia)).
  rewrite forallb_forall in H; apply H, list_elem_of_In, elem_of_seqZ; lia.
Qed.

Lemma sptrans_lookup j x : 0 <= j < 8 ->
  rd2 openssl_des_sptrans j (rev6 (Fips.chunk j x)) =
    Some (half_word (Fips.perm 32 Fips.P (Fips.sbox_out j x))).
Proof.
  intros Hj; pose proof (merged_all j _ Hj (chunk_bound j x)) as H; unfold merged in H.
  apply andb_true_iff in H as [[[[H1 H2]%andb_true_iff H3]%andb_true_iff _]%andb_true_iff _].
  rewrite rd2_entry by (try reflexivity; lia); apply Z.eqb_eq in H1; by rewrite H1.
Qed.

(** The outputs of the S-boxes do not overlap. *)
Lemma sboxes_xor x : Fips.sboxes x = foldr (fun j acc => Z.lxor (Fips.sbox_out j x) acc) 0 (seqZ 0 8).
Proof.
  enough (forall k : nat, (k <= 8)%nat ->
    let js := seqZ (8 - Z.of_nat k) (Z.of_nat k) in
    in_width (4 * Z.of_nat k) (foldr (fun j acc => Z.lor (Fips.sbox_out j x) acc) 0 js) /\
    foldr (fun j acc => Z.lor (Fips.sbox_out j x) acc) 0 js
    = foldr (fun j acc => Z.lxor (Fips.sbox_out j x) acc) 0 js) as H by exact (proj2 (H 8%nat ltac:(lia))).
  induction k as [|k IH]; intros Hk js; [by split; [unfold in_width|]|].
  unfold js; rewrite Nat2Z.inj_succ, seqZ_cons by lia; cbn [foldr].
  replace (Z.succ (8 - Z.succ (Z.of_nat k))) with (8 - Z.of_nat k) by lia.
  replace (Z.pred (Z.succ (Z.of_nat k))) with (Z.of_nat k) by lia.
  destruct (IH ltac:(lia)) as [Hw He]; rewrite <- He; clear IH He.
  set (acc := foldr _ _ _) in *; set (j := 8 - Z.succ (Z.of_nat k)).
  pose proof (merged_all j _ ltac:(lia) (chunk_bound j x)) as H; unfold merged in H.
  apply andb_true_iff in H as [[_ H1]%andb_true_iff H2]; unfold Fips.sbox_out.
  set (v := Fips.sbox j (Fips.chunk j x)) in *; replace (28 - 4 * j) with (4 * Z.of_nat k) by lia.
  split.
  - unfold in_width in *; apply lor_bound; [lia| |].
    + rewrite Z.shiftl_mul_pow2 by lia.
      replace (4 * Z.succ (Z.of_nat k)) with (4 + 4 * Z.of_nat k) by lia; rewrite Z.pow_add_r by lia; nia.
    + pose proof (Z.pow_le_mono_r 2 (4 * Z.of_nat k) (4 * Z.succ (Z.of_nat k))); lia.
  - symmetry; apply Z.lxor_lor; apply Z.bits_inj'; intros i Hi.
    rewrite Z.land_spec, Z.shiftl_spec, Z.testbit_0_l by done.
    destruct (Z.lt_ge_cases i (4 * Z.of_nat k)); [by rewrite (Z.testbit_neg_r v) by lia|].
    by rewrite (bits_above acc (4 * Z.of_nat k) i), andb_false_r by (unfold in_width in Hw; lia).
Qed.

Lemma half_word_xor a b : half_word (Z.lxor a b) = Z.lxor (half_word a) (half_word b).
Proof. apply perm_xor. Qed.

Lemma half_word_f R K :
  let o j := half_word (Fips.perm 32 Fips.P (Fips.sbox_out j (Z.lxor (Fips.perm 32 Fips.E R) K))) in
  half_word (Fips.f R K) =
  Z.lxor (Z.lxor (Z.lxor (Z.lxor (Z.lxor (Z.lxor (Z.lxor (o 0) (o 2)) (o 4)) (o 6)) (o 1)) (o 3)) (o 5)) (o 7).
Proof.
  intros o; unfold Fips.f; rewrite sboxes_xor.
  change (seqZ 0 8) with [0; 1; 2; 3; 4; 5; 6; 7]; cbn [foldr].
  rewrite Z.lxor_0_r, !perm_xor, !half_word_xor; unfold o.
  apply Z.bits_inj'; intros i Hi; rewrite !Z.lxor_spec; btauto.
Qed.

Lemma ks_u32_word ks i K : ks !! i = Some K ->
  ks_u32 (map subkey_bytes ks) (2 * Z.of_nat i) = Some (key_word0 K) /\
  ks_u32 (map subkey_bytes ks) (2 * Z.of_nat i + 1) = Some (key_word1 K).
Proof.
  intros HK; unfold ks_u32.
  replace ((2 * Z.of_nat i) / 2) with (Z.of_nat i) by (Z.div_mod_to_equations; lia).
  replace ((2 * Z.of_nat i) mod 2) with 0 by (Z.div_mod_to_equations; lia).
  replace ((2 * Z.of_nat i + 1) / 2) with (Z.of_nat i) by (Z.div_mod_to_equations; lia).
  replace ((2 * Z.of_nat i + 1) mod 2) with 1 by (Z.div_mod_to_equations; lia).
  assert (rd (map subkey_bytes ks) (Z.of_nat i) = Some (subkey_bytes K)) as ->
    by (rewrite rd_nat; change (map subkey_bytes ks) with (subkey_bytes <$> ks); by rewrite list_lookup_fmap, HK).
  cbn [mbind option_bind]; pose proof (key_word0_width K); pose proof (key_word1_width K).
  unfold copy_out, subkey_bytes; rewrite length_app, !(proj1 (le_bytes_block _ _)).
  rewrite !decide_True by lia; unfold slice; cbn [mbind option_bind].
  change (take (Z.to_nat 4) (drop (Z.to_nat (4 * 0)) (le_bytes 4 (key_word0 K) ++ le_bytes 4 (key_word1 K))))
    with (le_bytes 4 (key_word0 K)).
  change (take (Z.to_nat 4) (drop (Z.to_nat (4 * 1)) (le_bytes 4 (key_word0 K) ++ le_bytes 4 (key_word1 K))))
    with (le_bytes 4 (key_word1 K)).
  by rewrite !of_le_bytes by done.
Qed.

(** The round, from the values of its lookups. *)
Lemma d_encrypt_lookups l r sk idx k0 k1 a0 a1 a2 a3 a4 a5 a6 a7 :
  ks_u32 sk idx = Some k0 -> ks_u32 sk (idx + 1) = Some k1 ->
  rd2 openssl_des_sptrans 0 (idx_u 2 (Z.lxor r k0)) = Some a0 ->
  rd2 openssl_des_sptrans 2 (idx_u 10 (Z.lxor r k0)) = Some a2 ->
  rd2 openssl_des_sptrans 4 (idx_u 18 (Z.lxor r k0)) = Some a4 ->
  rd2 openssl_des_sptrans 6 (idx_u 26 (Z.lxor r k0)) = Some a6 ->
  rd2 openssl_des_sptrans 1 (idx_t 2 (Z.lxor r k1)) = Some a1 ->
  rd2 openssl_des_sptrans 3 (idx_t 10 (Z.lxor r k1)) = Some a3 ->
  rd2 openssl_des_sptrans 5 (idx_t 18 (Z.lxor r k1)) = Some a5 ->
  rd2 openssl_des_sptrans 7 (idx_t 26 (Z.lxor r k1)) = Some a7 ->
  MUGGLE_OPENSSL_D_ENCRYPT l r sk idx = Some (Z.lxor l
    (Z.lxor (Z.lxor (Z.lxor (Z.lxor (Z.lxor (Z.lxor (Z.lxor a0 a2) a4) a6) a1) a3) a5) a7)).
Proof.
  unfold MUGGLE_OPENSSL_D_ENCRYPT, idx_u, idx_t; intros -> ->; cbn [mbind option_bind].
  intros -> -> -> -> -> -> -> ->; reflexivity.
Qed.

Lemma d_encrypt_round ks i K L R :
  ks !! i = Some K -> in_width 32 R -> in_width 48 K ->
  MUGGLE_OPENSSL_D_ENCRYPT (half_word L) (half_word R) (map subkey_bytes ks) (2 * Z.of_nat i)
  = Some (half_word (Z.lxor L (Fips.f R K))).
Proof.
  intros HK HR HKw; destruct (ks_u32_word ks i K HK) as [E0 E1]; rewrite half_word_xor, half_word_f.
  apply (d_encrypt_lookups _ _ _ _ _ _ _ _ _ _ _ _ _ _ E0 E1);
    (erewrite idx_u_spec || erewrite idx_t_spec); try apply sptrans_lookup; (lia || done || simpl; tauto).
Qed.

(** ** The sixteen rounds *)

(** The unrolled rounds as a walk that exchanges the halves after each. *)
Fixpoint walk (sk : list (list Z)) (n : nat) (idx l r : Z) : option (Z * Z) :=
  match n with
  | O => Some (l, r)
  | S n => l ← MUGGLE_OPENSSL_D_ENCRYPT l r sk idx; walk sk n (idx + 2) r l
  end.

Lemma openssl_rounds_walk sk l r : openssl_rounds sk l r = walk sk 16 0 l r.
Proof. cbn [walk Z.add]; reflexivity. Qed.

Lemma f_width R K : in_width 32 (Fips.f R K).
Proof. apply (perm_width 32 Fips.P). Qed.

Lemma walk_rounds pre ks L R :
  Forall (in_width 48) ks -> in_width 32 L -> in_width 32 R ->
  let '(L', R') := Fips.rounds ks L R in
  walk (map subkey_bytes (pre ++ ks)) (length ks) (2 * Z.of_nat (length pre)) (half_word L) (half_word R)
  = Some (half_word L', half_word R') /\ in_width 32 L' /\ in_width 32 R'.
Proof.
  intros Hks; revert pre L R; induction Hks as [|K ks HK _ IH]; intros pre L R HL HR; cbn [Fips.rounds]; [done|].
  cbn [length walk]; rewrite (d_encrypt_round _ _ K) by (done || by rewrite list_lookup_middle).
  cbn [mbind option_bind].
  specialize (IH (pre ++ [K]) R (Z.lxor L (Fips.f R K)) HR (in_width_lxor 32 _ _ ltac:(lia) HL (f_width R K))).
  rewrite <- app_assoc in IH; cbn [app] in IH; rewrite length_app in IH; cbn [length] in IH.
  replace (2 * Z.of_nat (length pre + 1)) with (2 * Z.of_nat (length pre) + 2) in IH by lia.
  exact IH.
Qed.

Definition fips_schedule (ks : list Z) : Prop := length ks = 16%nat /\ Forall (in_width 48) ks.

Lemma openssl_rounds_spec ks L R :
  fips_schedule ks -> in_width 32 L -> in_width 32 R ->
  let '(L', R') := Fips.rounds ks L R in
  openssl_rounds (map subkey_bytes ks) (half_word L) (half_word R) = Some (half_word L', half_word R') /\
  in_width 32 L' /\ in_width 32 R'.
Proof.
  intros [Hl Hk] HL HR; pose proof (walk_rounds [] ks L R Hk HL HR) as H.
  rewrite openssl_rounds_walk, <- Hl; exact H.
Qed.

(** ** The block functions *)

Lemma left_width y : in_width 64 y -> in_width 32 (left y).
Proof.
  unfold in_width, left; intros Hy; rewrite Z.shiftr_div_pow2 by lia.
  split; [apply Z.div_pos; lia|apply Z.div_lt_upper_bound; lia].
Qed.

Lemma right_width y : in_width 32 (right y).
Proof. apply (land_bound _ (Z.ones 32) 32); [apply ones32_width|lia]. Qed.

(** A block of the standard from its halves. *)
Definition halves (L R : Z) : Z := Z.lor (Z.shiftl L 32) R.

Lemma halves_spec L R : in_width 32 L -> in_width 32 R ->
  in_width 64 (halves L R) /\ left (halves L R) = L /\ right (halves L R) = R.
Proof.
  intros HL HR; unfold halves; rewrite Z.lor_comm; fold (join R L).
  split; [by apply join_width|]; split; [by apply hi_join|].
  unfold right; rewrite Z.land_ones by lia; by apply lo_join.
Qed.

Lemma rev32_width h : in_width 32 (rev32 h).
Proof. apply (perm_width 32 (rev (seqZ 1 32))). Qed.

Lemma crypt_spec ks x :
  fips_schedule ks -> in_width 64 x ->
  muggle_openssl_des_crypt x (map subkey_bytes ks) = Some (bswap (Fips.crypt ks (bswap x))).
Proof.
  intros Hks Hx; unfold muggle_openssl_des_crypt, muggle_openssl_encrypt1; rewrite ip_words by done.
  set (y := Fips.perm 64 Fips.IP (bswap x)).
  assert (in_width 64 y) as Hy by apply (perm_width 64 Fips.IP).
  rewrite !rotate_29 by (apply left_width || apply right_width; done).
  pose proof (openssl_rounds_spec ks (left y) (right y) Hks (left_width y Hy) (right_width y)) as H.
  unfold Fips.crypt; fold y; fold (left y) (right y).
  destruct (Fips.rounds ks (left y) (right y)) as [L R], H as (-> & HL & HR); cbn [mbind option_bind].
  rewrite !rotate_3 by done; destruct (halves_spec R L HR HL) as (Hw & El & Er).
  pose proof (fp_words (halves R L) Hw) as HF; rewrite El, Er in HF.
  destruct (MUGGLE_OPENSSL_DES_FP (rev32 R) (rev32 L)) as [r l]; by rewrite HF.
Qed.

Lemma encrypt2_spec ks L R :
  fips_schedule ks -> in_width 32 L -> in_width 32 R ->
  let '(L', R') := Fips.rounds ks L R in
  muggle_openssl_encrypt2 (join (rev32 R) (rev32 L)) (map subkey_bytes ks)
  = Some (join (rev32 L') (rev32 R')) /\ in_width 32 L' /\ in_width 32 R'.
Proof.
  intros Hks HL HR; unfold muggle_openssl_encrypt2.
  rewrite lo_join, hi_join, !rotate_29 by (done || apply rev32_width).
  pose proof (openssl_rounds_spec ks L R Hks HL HR) as H.
  destruct (Fips.rounds ks L R) as [L' R'], H as (-> & HL' & HR'); cbn [mbind option_bind].
  by rewrite !rotate_3 by done.
Qed.

Lemma ip_ip_inv z : in_width 64 z -> Fips.perm 64 Fips.IP (Fips.perm 64 Fips.IP_inv z) = z.
Proof. intros Hz; by_basis z Hz. Qed.

Lemma ip_inv_ip z : in_width 64 z -> Fips.perm 64 Fips.IP_inv (Fips.perm 64 Fips.IP z) = z.
Proof. intros Hz; by_basis z Hz. Qed.

Lemma bswap_involutive x : in_width 64 x -> bswap (bswap x) = x.
Proof. intros Hx; unfold bswap at 1, of_be; fold (be_bytes 8 (bswap x)); rewrite be_bytes_bswap by done; by apply le_word_back. Qed.

Lemma tdes_crypt_spec ks1 ks2 ks3 x :
  fips_schedule ks1 -> fips_schedule ks2 -> fips_schedule ks3 -> in_width 64 x ->
  muggle_openssl_tdes_crypt x (map subkey_bytes ks1) (map subkey_bytes ks2) (map subkey_bytes ks3)
  = Some (bswap (Fips.crypt ks3 (Fips.crypt ks2 (Fips.crypt ks1 (bswap x))))).
Proof.
  intros H1 H2 H3 Hx; unfold muggle_openssl_tdes_crypt; rewrite ip_words by done.
  unfold Fips.crypt; set (y := Fips.perm 64 Fips.IP (bswap x)); fold (left y) (right y).
  assert (in_width 64 y) as Hy by apply (perm_width 64 Fips.IP).
  pose proof (encrypt2_spec ks1 (left y) (right y) H1 (left_width y Hy) (right_width y)) as E1.
  destruct (Fips.rounds ks1 (left y) (right y)) as [L1 R1], E1 as (-> & HL1 & HR1).
  cbn [mbind option_bind]; destruct (halves_spec R1 L1 HR1 HL1) as (W1 & El1 & Er1).
  fold (halves R1 L1); rewrite (ip_ip_inv _ W1).
  fold (left (halves R1 L1)) (right (halves R1 L1)); rewrite El1, Er1.
  pose proof (encrypt2_spec ks2 R1 L1 H2 HR1 HL1) as E2.
  destruct (Fips.rounds ks2 R1 L1) as [L2 R2], E2 as (-> & HL2 & HR2).
  cbn [mbind option_bind]; destruct (halves_spec R2 L2 HR2 HL2) as (W2 & El2 & Er2).
  fold (halves R2 L2); rewrite (ip_ip_inv _ W2).
  fold (left (halves R2 L2)) (right (halves R2 L2)); rewrite El2, Er2.
  pose proof (encrypt2_spec ks3 R2 L2 H3 HR2 HL2) as E3.
  destruct (Fips.rounds ks3 R2 L2) as [L3 R3], E3 as (-> & HL3 & HR3).
  cbn [mbind option_bind]; destruct (halves_spec R3 L3 HR3 HL3) as (W3 & El3 & Er3).
  rewrite lo_join, hi_join by apply rev32_width.
  pose proof (fp_words (halves R3 L3) W3) as HF; rewrite El3, Er3 in HF.
  destruct (MUGGLE_OPENSSL_DES_FP (rev32 R3) (rev32 L3)) as [r l]; by rewrite HF.
Qed.

(** ** The key schedule *)

Lemma c2l_byte b k : byte_ok b -> 0 <= k <= 24 ->
  Z.land (u32 (Z.shiftl b k)) (Z.shiftl 255 k) = Z.shiftl b k /\ under (Z.shiftl 255 k) (Z.shiftl b k).
Proof.
  intros Hb Hk; assert (under (Z.shiftl 255 k) (Z.shiftl b k)) as Hu.
  { unfold under; rewrite <- Z.shiftl_land; f_equal; by apply (under_width 8 b). }
  split; [|done]; rewrite wrap_small; [done|].
  unfold in_width, byte_ok in *; rewrite Z.shiftl_mul_pow2 by lia.
  pose proof (Z.pow_le_mono_r 2 k 24); nia.
Qed.

Lemma c2l_word key off b0 b1 b2 b3 :
  rd key (off + 0) = Some b0 -> rd key (off + 1) = Some b1 -> rd key (off + 2) = Some b2 ->
  rd key (off + 3) = Some b3 -> Forall byte_ok [b0; b1; b2; b3] ->
  MUGGLE_OPENSSL_C2L key off = Some (of_le [b0; b1; b2; b3]).
Proof.
  unfold MUGGLE_OPENSSL_C2L; intros -> -> -> -> Hb; cbn [mbind option_bind]; f_equal.
  rewrite !Forall_cons in Hb; destruct Hb as (H0 & H1 & H2 & H3 & _).
  destruct (c2l_byte b0 0 H0 ltac:(lia)) as [E0 U0], (c2l_byte b1 8 H1 ltac:(lia)) as [E1 U1],
    (c2l_byte b2 16 H2 ltac:(lia)) as [E2 U2], (c2l_byte b3 24 H3 ltac:(lia)) as [E3 U3].
  change (Z.shiftl 255 0) with 0x000000ff in *; change (Z.shiftl 255 8) with 0x0000ff00 in *.
  change (Z.shiftl 255 16) with 0x00ff0000 in *; change (Z.shiftl 255 24) with 0xff000000 in *.
  rewrite E0, E1, E2, E3.
  assert (forall m1 m2 x y, under m1 x -> under m2 y -> Z.land m1 m2 = 0 ->
    Z.lor x y = x + y /\ under (Z.lor m1 m2) (Z.lor x y)) as A.
  { intros m1 m2 x y Hx Hy Hd; split.
    - rewrite (lor_disjoint m1 m2), (add_disjoint m1 m2); done.
    - apply under_intro; intros i Hi; rewrite !Z.lor_spec, !orb_true_iff.
      intros [H|H]; [left; by apply (under_bits m1 x)|right; by apply (under_bits m2 y)]. }
  destruct (A _ _ _ _ U0 U1 eq_refl) as [A1 U01]; destruct (A _ _ _ _ U01 U2 eq_refl) as [A2 U02].
  destruct (A _ _ _ _ U02 U3 eq_refl) as [A3 _]; rewrite A3, A2, A1; cbn [of_le].
  rewrite !Z.shiftl_mul_pow2 by lia; lia.
Qed.

Lemma key_words key : is_block 8 key ->
  MUGGLE_OPENSSL_C2L key 0 = Some (lo (of_le key)) /\ MUGGLE_OPENSSL_C2L key 4 = Some (hi (of_le key)).
Proof.
  intros [Hl Hb]; do 8 (destruct key as [|? key]; [discriminate Hl|]); destruct key; [|discriminate Hl].
  rewrite !Forall_cons in Hb; destruct Hb as (H0 & H1 & H2 & H3 & H4 & H5 & H6 & H7 & _).
  assert (of_le [z; z0; z1; z2; z3; z4; z5; z6] = join (of_le [z; z0; z1; z2]) (of_le [z3; z4; z5; z6])) as E.
  { rewrite join_add; [cbn [of_le]; lia| |]; unfold byte_ok, in_width in *; cbn [of_le]; lia. }
  rewrite E, lo_join, hi_join by (unfold byte_ok, in_width in *; cbn [of_le]; lia).
  split; apply c2l_word; try reflexivity; repeat (constructor; [done|]); constructor.
Qed.

Definition hperm_op (p : Z * Z) : Z * Z :=
  (MUGGLE_OPENSSL_DES_HPERM_OP p.1 (-2) 0xcccc0000, MUGGLE_OPENSSL_DES_HPERM_OP p.2 (-2) 0xcccc0000).

(** The exchanges of PC-1, to [(d, c)]. *)
Definition pc1_exchanges (p : Z * Z) : Z * Z :=
  perm_op 1 0x55555555 (exchange (perm_op 8 0x00ff00ff (exchange (perm_op 1 0x55555555
    (hperm_op (perm_op 4 0x0f0f0f0f (exchange p))))))).

Lemma lin_pc1_exchanges n f : LinP n f -> LinP n (fun x => pc1_exchanges (f x)).
Proof.
  intros H; unfold pc1_exchanges.
  do 5 first [apply lin_exchange | apply lin_perm_op; [lia|unfold in_width; lia|]].
  assert (LinP n (fun x => perm_op 4 0x0f0f0f0f (exchange (f x)))) as [H1 H2]
    by (apply lin_perm_op; [lia|unfold in_width; lia|by apply lin_exchange]).
  split; cbn [hperm_op fst snd]; apply lin_hperm_op; done || (unfold in_width; lia).
Qed.

Lemma pc1_exchanges_eq c d :
  openssl_pc1 c d =
    (let '(d, c) := pc1_exchanges (c, d) in
     (Z.land c 0x0fffffff,
      Z.lor (Z.lor (Z.lor (u32 (Z.shiftl (Z.land d 0x000000ff) 16)) (Z.land d 0x0000ff00))
        (Z.shiftr (Z.land d 0x00ff0000) 16)) (Z.shiftr (Z.land c 0xf0000000) 4))).
Proof.
  unfold openssl_pc1, pc1_exchanges, perm_op, hperm_op, exchange; cbn [fst snd].
  repeat match goal with
  | |- context [MUGGLE_OPENSSL_DES_PERM_OP ?a ?b ?n ?m] =>
      is_var a; is_var b; destruct (MUGGLE_OPENSSL_DES_PERM_OP a b n m) as [? ?]; cbn [fst snd]
  | |- context [MUGGLE_OPENSSL_DES_HPERM_OP ?a ?n ?m] =>
      generalize (MUGGLE_OPENSSL_DES_HPERM_OP a n m); intros ?
  end; reflexivity.
Qed.

#[local] Opaque pc1_exchanges.

Lemma pc1_words x : in_width 64 x ->
  openssl_pc1 (lo x) (hi x) =
  (rev28 (Fips.perm 64 Fips.PC1_C (bswap x)), rev28 (Fips.perm 64 Fips.PC1_D (bswap x))).
Proof.
  intros Hx; destruct (lin_pc1_exchanges 64 _ lin_lohi) as [H1 H2]; pose proof lin_bswap as Hb.
  rewrite pc1_exchanges_eq, (surjective_pairing (pc1_exchanges _)).
  unfold rev28; f_equal; by_basis x Hx.
Qed.

Lemma rev28_width h : in_width 28 (rev28 h).
Proof. apply (perm_width 28 (rev (seqZ 1 28))). Qed.

Lemma key_shift_word C s : In s [1; 2] -> in_width 28 C ->
  openssl_key_shift (rev28 C) s (28 - s) = rev28 (Fips.rotl28 C s).
Proof.
  intros Hs HC; unfold openssl_key_shift, rev28, Fips.rotl28.
  destruct Hs as [<-|[<-|[]]]; by_basis C HC.
Qed.

(** PC-2 on the halves of the key, as in the four lookups. *)
Definition skb_word (first i0 i1 i2 i3 : Z) : Z :=
  Z.lor (Z.lor (Z.lor (entry openssl_des_skb first i0) (entry openssl_des_skb (first + 1) i1))
    (entry openssl_des_skb (first + 2) i2)) (entry openssl_des_skb (first + 3) i3).

Lemma skb_or_word first i0 i1 i2 i3 : 0 <= first <= 4 ->
  in_width 6 i0 -> in_width 6 i1 -> in_width 6 i2 -> in_width 6 i3 ->
  skb_or first [i0; i1; i2; i3] = Some (skb_word first i0 i1 i2 i3).
Proof.
  unfold in_width; intros Hf H0 H1 H2 H3; unfold skb_or, skb_word.
  change (rd [i0; i1; i2; i3] 0) with (Some i0); change (rd [i0; i1; i2; i3] 1) with (Some i1).
  change (rd [i0; i1; i2; i3] 2) with (Some i2); change (rd [i0; i1; i2; i3] 3) with (Some i3).
  cbn [mbind option_bind]; by rewrite !rd2_entry by (reflexivity || lia).
Qed.

Lemma lor_width6 a b : in_width 6 a -> in_width 6 b -> in_width 6 (Z.lor a b).
Proof. apply in_width_lor; lia. Qed.

Lemma land_width6 a m : in_width 6 m -> in_width 6 (Z.land a m).
Proof. intros Hm; apply land_bound; [exact Hm|lia]. Qed.

Ltac width6 := repeat first [apply lor_width6 | apply land_width6]; unfold in_width; lia.

Definition skb_s (c : Z) : Z := skb_word 0 (Z.land c 0x3f)
  (Z.lor (Z.land (Z.shiftr c 6) 0x03) (Z.land (Z.shiftr c 7) 0x3c))
  (Z.lor (Z.land (Z.shiftr c 13) 0x0f) (Z.land (Z.shiftr c 14) 0x30))
  (Z.lor (Z.lor (Z.land (Z.shiftr c 20) 0x01) (Z.land (Z.shiftr c 21) 0x06)) (Z.land (Z.shiftr c 22) 0x38)).

Definition skb_t (d : Z) : Z := skb_word 4 (Z.land d 0x3f)
  (Z.lor (Z.land (Z.shiftr d 7) 0x03) (Z.land (Z.shiftr d 8) 0x3c))
  (Z.land (Z.shiftr d 15) 0x3f)
  (Z.lor (Z.land (Z.shiftr d 21) 0x0f) (Z.land (Z.shiftr d 22) 0x30)).

Lemma skb_lookups c d : skb_or 0 (skb_c c) = Some (skb_s c) /\ skb_or 4 (skb_d d) = Some (skb_t d).
Proof. split; apply skb_or_word; first [lia | width6]. Qed.

(** The two halves of the key as one word of 56 bits. *)
Lemma subkey_words z : in_width 56 z ->
  let c := rev28 (Z.shiftr z 28) in
  let d := rev28 (Z.land z (Z.ones 28)) in
  subkey_word0 (skb_s c) (skb_t d) = key_word0 (Fips.perm 56 Fips.PC2 z) /\
  subkey_word1 (skb_s c) (skb_t d) = key_word1 (Fips.perm 56 Fips.PC2 z).
Proof.
  intros Hz; cbv zeta.
  unfold subkey_word0, subkey_word1, skb_s, skb_t, skb_word, rev28, key_word0, key_word1.
  split; by_basis z Hz.
Qed.

Lemma rotl28_width C s : in_width 28 (Fips.rotl28 C s).
Proof. apply (land_bound _ (Z.ones 28) 28); [|lia]; change (Z.ones 28) with 268435455; lia. Qed.

Lemma key_halves_spec C D : in_width 28 C -> in_width 28 D ->
  let z := Z.lor (Z.shiftl C 28) D in
  in_width 56 z /\ Z.shiftr z 28 = C /\ Z.land z (Z.ones 28) = D.
Proof.
  intros HC HD z.
  assert (under (Z.ones 28) D) as U1 by (by apply under_width).
  assert (under (Z.shiftl (Z.ones 28) 28) (Z.shiftl C 28)) as U2
    by (unfold under; rewrite <- Z.shiftl_land; f_equal; by apply under_width).
  assert (z = C * 2 ^ 28 + D) as ->.
  { unfold z; rewrite Z.lor_comm, (lor_disjoint _ _ _ _ U1 U2), <- (add_disjoint _ _ _ _ U1 U2) by done.
    rewrite Z.shiftl_mul_pow2 by lia; lia. }
  unfold in_width in *.
  rewrite Z.shiftr_div_pow2, Z.land_ones by lia; split; [lia|]; split.
  - rewrite Z.div_add_l, Z.div_small by lia; lia.
  - rewrite Z.add_comm, Z.mod_add by lia; apply Z.mod_small; lia.
Qed.

Lemma set_key_round_spec i s C D pre k0 rest :
  i = Z.of_nat (length pre) -> rd shifts1 i = Some s -> rd shifts2 i = Some (28 - s) -> In s [1; 2] ->
  in_width 28 C -> in_width 28 D ->
  let C' := Fips.rotl28 C s in
  let D' := Fips.rotl28 D s in
  set_key_round i (rev28 C, rev28 D, pre ++ k0 :: rest) =
  Some (rev28 C', rev28 D',
    pre ++ subkey_bytes (Fips.perm 56 Fips.PC2 (Z.lor (Z.shiftl C' 28) D')) :: rest).
Proof.
  intros Hi H1 H2 Hs HC HD C' D'; unfold set_key_round; rewrite H1, H2; cbn [mbind option_bind].
  rewrite !key_shift_word by done; fold C' D'.
  destruct (skb_lookups (rev28 C') (rev28 D')) as [-> ->]; cbn [mbind option_bind].
  rewrite (wr_mid pre) by done; cbn [mbind option_bind].
  destruct (key_halves_spec C' D' (rotl28_width _ _) (rotl28_width _ _)) as (Hw & Ec & Ed).
  destruct (subkey_words _ Hw) as [E0 E1]; rewrite Ec, Ed in E0, E1; by rewrite E0, E1.
Qed.

(** The sixteen rounds fill the whole array, whatever it held. *)
Lemma set_key_loop done shifts C D pre junk :
  Fips.left_shifts = done ++ shifts -> length pre = length done -> length junk = length shifts ->
  in_width 28 C -> in_width 28 D ->
  exists c d, for_up set_key_round (length shifts) (Z.of_nat (length done)) (rev28 C, rev28 D, pre ++ junk)
  = Some (c, d, pre ++ map subkey_bytes (Fips.schedule shifts C D)).
Proof.
  revert done C D pre junk; induction shifts as [|s shifts IH]; intros done C D pre junk Hs Hp Hj HC HD.
  { destruct junk; [|done]; cbn [for_up length Fips.schedule map]; eauto. }
  destruct junk as [|k0 junk]; [done|]; cbn [for_up length Fips.schedule map].
  assert (rd Fips.left_shifts (Z.of_nat (length done)) = Some s) as H1 by (rewrite Hs; by apply rd_mid).
  assert (rd (map (Z.sub 28) Fips.left_shifts) (Z.of_nat (length done)) = Some (28 - s)) as H2
    by (rewrite Hs, map_app; cbn [map]; apply rd_mid; by rewrite length_map).
  assert (In s [1; 2]) as Hin.
  { assert (forallb (fun s => (s =? 1) || (s =? 2)) Fips.left_shifts = true) as Hall by reflexivity.
    rewrite forallb_forall in Hall; specialize (Hall s); rewrite Hs in Hall.
    specialize (Hall ltac:(apply in_app_iff; right; by left)); simpl; lia. }
  rewrite (set_key_round_spec _ s C D pre k0 junk) by (done || by rewrite Hp); cbn [mbind option_bind].
  destruct (IH (done ++ [s]) (Fips.rotl28 C s) (Fips.rotl28 D s)
    (pre ++ [subkey_bytes (Fips.perm 56 Fips.PC2 (Z.lor (Z.shiftl (Fips.rotl28 C s) 28) (Fips.rotl28 D s)))]) junk)
    as (c & d & E); try apply rotl28_width; try (rewrite ?Hs, <- ?app_assoc, ?length_app; cbn [length] in *; lia || done).
  exists c, d; rewrite length_app in E; cbn [length] in E; rewrite <- !app_assoc in E; cbn [app] in E.
  replace (Z.of_nat (length done) + 1) with (Z.of_nat (length done + 1)) by lia; exact E.
Qed.

Lemma set_key_unchecked_spec key sk : is_block 8 key -> length sk = 16%nat ->
  muggle_openssl_des_set_key_unchecked key sk = Some (map subkey_bytes (Fips.subkeys (of_be key))).
Proof.
  intros Hk Hl; unfold muggle_openssl_des_set_key_unchecked.
  destruct (key_words key Hk) as [-> ->]; cbn [mbind option_bind].
  rewrite pc1_words, bswap_block by (done || by apply le_word).
  destruct (set_key_loop [] Fips.left_shifts (Fips.perm 64 Fips.PC1_C (of_be key))
    (Fips.perm 64 Fips.PC1_D (of_be key)) [] sk) as (c & d & E); try done.
  - apply (perm_width 64 Fips.PC1_C).
  - apply (perm_width 64 Fips.PC1_D).
  - cbn [length app] in E; change (length Fips.left_shifts) with 16%nat in E.
    change (Z.of_nat 0) with 0 in E; by rewrite E.
Qed.

Lemma swap_loop_rev sk : length sk = 16%nat -> for_up swap_subkeys 8 0 sk = Some (rev sk).
Proof. intros Hl; destruct (list16 sk Hl) as (?&?&?&?&?&?&?&?&?&?&?&?&?&?&?&?& ->); reflexivity. Qed.

Lemma subkeys_ok key : fips_schedule (Fips.subkeys key).
Proof.
  split; [reflexivity|]; unfold Fips.subkeys; generalize (Fips.perm 64 Fips.PC1_C key), (Fips.perm 64 Fips.PC1_D key).
  induction Fips.left_shifts as [|s shifts IH]; intros C D; cbn [Fips.schedule]; constructor; [|auto].
  apply (perm_width 56 Fips.PC2).
Qed.

Lemma gen_subkeys_spec op key sk : is_block 8 key -> length sk = 16%nat ->
  muggle_openssl_des_gen_subkeys op key sk =
  Some (map subkey_bytes (if op =? MUGGLE_DECRYPT then rev (Fips.subkeys (of_be key)) else Fips.subkeys (of_be key))).
Proof.
  intros Hk Hl; unfold muggle_openssl_des_gen_subkeys.
  rewrite set_key_unchecked_spec by done; cbn [mbind option_bind].
  destruct (op =? MUGGLE_DECRYPT); [|done].
  rewrite swap_loop_rev by (rewrite length_map; apply subkeys_ok); by rewrite map_rev.
Qed.

(** ** Decryption undoes encryption *)

Lemma fips_rounds_undone ks L R : let '(L', R') := Fips.rounds ks L R in Fips.rounds (rev ks) R' L' = (R, L).
Proof.
  assert (forall ks1 ks2 L R, Fips.rounds (ks1 ++ ks2) L R
    = (let '(L', R') := Fips.rounds ks1 L R in Fips.rounds ks2 L' R')) as App
    by (induction ks1 as [|K ks1 IH]; intros; cbn [app Fips.rounds]; [done|apply IH]).
  revert L R; induction ks as [|K ks IH]; intros L R; cbn [Fips.rounds rev]; [done|].
  specialize (IH R (Z.lxor L (Fips.f R K))).
  destruct (Fips.rounds ks R (Z.lxor L (Fips.f R K))) as [L' R'].
  rewrite App, IH; cbn [Fips.rounds]; by rewrite lxor_cancel.
Qed.

Lemma fips_rounds_width ks L R : in_width 32 L -> in_width 32 R ->
  in_width 32 (Fips.rounds ks L R).1 /\ in_width 32 (Fips.rounds ks L R).2.
Proof.
  revert L R; induction ks as [|K ks IH]; intros L R HL HR; cbn [Fips.rounds fst snd]; [done|].
  apply IH; [done|]; apply in_width_lxor; [lia|done|apply f_width].
Qed.

Lemma halves_eta y : in_width 64 y -> halves (left y) (right y) = y.
Proof.
  intros Hy; unfold halves, right; rewrite Z.lor_comm, Z.land_ones by lia.
  exact (proj1 (join_lo_hi y Hy)).
Qed.

Lemma fips_crypt_undone ks x : in_width 64 x -> Fips.crypt (rev ks) (Fips.crypt ks x) = x.
Proof.
  intros Hx; unfold Fips.crypt; set (y := Fips.perm 64 Fips.IP x); fold (left y) (right y).
  assert (in_width 64 y) as Hy by apply (perm_width 64 Fips.IP).
  pose proof (fips_rounds_width ks _ _ (left_width y Hy) (right_width y)) as [HL HR].
  pose proof (fips_rounds_undone ks (left y) (right y)) as Hr.
  destruct (Fips.rounds ks (left y) (right y)) as [L R]; cbn [fst snd] in *.
  destruct (halves_spec R L HR HL) as (Hw & El & Er).
  fold (halves R L); rewrite (ip_ip_inv _ Hw); fold (left (halves R L)) (right (halves R L)).
  rewrite El, Er, Hr; fold (halves (left y) (right y)); rewrite halves_eta by done.
  by apply ip_inv_ip.
Qed.

Lemma fips_crypt_width ks x : in_width 64 (Fips.crypt ks x).
Proof. unfold Fips.crypt; destruct (Fips.rounds _ _ _); apply (perm_width 64 Fips.IP_inv). Qed.

Lemma rev_fips_schedule ks : fips_schedule ks -> fips_schedule (rev ks).
Proof.
  intros [Hl Hf]; split; [by rewrite length_rev|].
  rewrite Forall_forall in *; intros K HK; apply Hf; by apply list_elem_of_In, in_rev, list_elem_of_In.
Qed.

Lemma openssl_crypt_undone ks x : fips_schedule ks -> in_width 64 x ->
  exists y, muggle_openssl_des_crypt x (map subkey_bytes ks) = Some y /\
    muggle_openssl_des_crypt y (map subkey_bytes (rev ks)) = Some x.
Proof.
  intros Hks Hx; eexists; split; [by apply crypt_spec|].
  rewrite (crypt_spec _ _ (rev_fips_schedule ks Hks) (bswap64_width _)).
  rewrite (bswap_involutive _ (fips_crypt_width _ _)), (fips_crypt_undone _ _ (bswap64_width _)).
  by rewrite bswap_involutive.
Qed.

(** ** The checked key schedule and the weak keys *)

(** The key whose schedule is the reverse of the one of weak key [i]: the
    four weak keys are their own partners, the others come in pairs. *)
Definition partner (i : nat) : nat :=
  if (i <? 4)%nat then i else if Nat.even i then (i + 1)%nat else (i - 1)%nat.

Definition weak (i : nat) : list Z := nth i openssl_weak_keys [].

Lemma weak_schedules i : (i < 16)%nat ->
  Fips.subkeys (of_be (weak (partner i))) = rev (Fips.subkeys (of_be (weak i))) /\ is_block 8 (weak i).
Proof.
  intros Hi.
  assert (forallb (fun i => bool_decide (Fips.subkeys (of_be (weak (partner i)))
      = rev (Fips.subkeys (of_be (weak i)))) && (length (weak i) =? 8)%nat &&
      forallb (fun b => (0 <=? b) && (b <? 256)) (weak i)) (seq 0 16) = true) as H by (vm_compute; reflexivity).
  rewrite forallb_forall in H; specialize (H i ltac:(apply in_seq; lia)).
  apply andb_true_iff in H as [[H1%bool_decide_eq_true H2%Nat.eqb_eq]%andb_true_iff H3].
  split; [done|]; split; [done|]; apply Forall_forall; intros b Hb.
  rewrite forallb_forall in H3; specialize (H3 b ltac:(by apply list_elem_of_In)).
  unfold byte_ok; lia.
Qed.

Definition odd_parity (key : list Z) : bool := forallb (fun b => Z.odd (bits_set b)) key.

Lemma check_key_parity_spec pre key :
  Forall byte_ok key ->
  check_key_parity (pre ++ key) (length key) (Z.of_nat (length pre)) = Some (if odd_parity key then 1 else 0).
Proof.
  intros Hk; revert pre; induction Hk as [|b key Hb _ IH]; intros pre; cbn [check_key_parity length]; [done|].
  rewrite rd_mid by done; cbn [mbind option_bind].
  destruct (parity_all b Hb) as [Ho _]; apply parity_ok_spec in Ho as [_ ->].
  cbn [mbind option_bind odd_parity forallb]; fold (odd_parity key).
  destruct (Z.odd (bits_set b)); cbn [Bool.eqb Z.eqb andb]; [|done].
  specialize (IH (pre ++ [b])); rewrite <- app_assoc, length_app in IH; cbn [app length] in IH.
  rewrite <- IH; f_equal; lia.
Qed.

Lemma is_weak_key_spec pre ws key :
  openssl_weak_keys = pre ++ ws -> Forall (fun w => length w = 8%nat) ws -> length key = 8%nat ->
  is_weak_key key (length ws) (Z.of_nat (length pre)) = Some (if bool_decide (key ∈ ws) then 1 else 0).
Proof.
  intros Hp Hw Hk; revert pre Hp; induction Hw as [|w ws Hw _ IH]; intros pre Hp; cbn [is_weak_key length].
  { rewrite bool_decide_false by apply not_elem_of_nil; done. }
  rewrite Hp, rd_mid by done; cbn [mbind option_bind]; unfold same_block.
  rewrite !take_ge by lia; destruct (decide (w = key)) as [->|Hc].
  - by rewrite !bool_decide_true by (done || apply list_elem_of_here).
  - specialize (IH (pre ++ [w])); rewrite <- app_assoc, length_app in IH; specialize (IH Hp).
    cbn [length] in IH; replace (Z.of_nat (length pre) + 1) with (Z.of_nat (length pre + 1)) by lia.
    rewrite (bool_decide_false (w = key)), IH by done; f_equal.
    repeat case_bool_decide; try done; rewrite elem_of_cons in *; naive_solver.
Qed.

Lemma set_key_checked_cases key sk : is_block 8 key -> length sk = 16%nat ->
  muggle_openssl_des_set_key_checked key sk =
  Some (if negb (odd_parity key) then (-1, sk)
        else if bool_decide (key ∈ openssl_weak_keys) then (-2, sk)
        else (0, map subkey_bytes (Fips.subkeys (of_be key)))).
Proof.
  intros Hk Hl; unfold muggle_openssl_des_set_key_checked, openssl_des_check_key_parity.
  pose proof (check_key_parity_spec [] key (proj2 Hk)) as Hp; rewrite (proj1 Hk) in Hp.
  cbn [app length] in Hp; change (Z.of_nat 0) with 0 in Hp; rewrite Hp; cbn [mbind option_bind].
  destruct (odd_parity key); cbn [negb Z.eqb]; [|done].
  pose proof (is_weak_key_spec [] openssl_weak_keys key eq_refl) as Hw.
  assert (Forall (fun w => length w = 8%nat) openssl_weak_keys) as Hf by (repeat constructor).
  specialize (Hw Hf (proj1 Hk)); change (openssl_des_is_weak_key key) with
    (is_weak_key key (length openssl_weak_keys) (Z.of_nat (@length (list Z) []))); rewrite Hw.
  cbn [mbind option_bind]; destruct (bool_decide _); cbn [negb Z.eqb]; [done|].
  by rewrite set_key_unchecked_spec by done.
Qed.

(** ** Properties *)

(** C38: the checked key schedule.  A key with a byte of even parity is
    refused with -1, otherwise one of the sixteen weak and semi-weak keys
    with -2, and in both cases the schedule is untouched; every other key
    gets the schedule of the standard.  The refused weak keys are weak:
    encrypting any block with one and then with its partner in the list (the
    four weak keys are their own partners) gives the block back. *)
Theorem openssl_set_key_checked_correct (sk : list (list Z)) (Hsk : length sk = 16%nat) :
  (forall key, is_block 8 key ->
     muggle_openssl_des_set_key_checked key sk =
     Some (if negb (odd_parity key) then (-1, sk)
           else if bool_decide (key ∈ openssl_weak_keys) then (-2, sk)
           else (0, map subkey_bytes (Fips.subkeys (of_be key))))) /\
  (forall i, (i < 16)%nat -> odd_parity (weak i) = true /\
     exists ks ks',
       muggle_openssl_des_set_key_unchecked (weak i) sk = Some ks /\
       muggle_openssl_des_set_key_unchecked (weak (partner i)) sk = Some ks' /\
       forall x, in_width 64 x ->
         exists y, muggle_openssl_des_crypt x ks = Some y /\ muggle_openssl_des_crypt y ks' = Some x).
Proof.
  split; [intros key Hk; by apply set_key_checked_cases|]; intros i Hi.
  assert (partner i < 16)%nat as Hp by (do 16 (destruct i; [cbn; lia|]); lia).
  split; [do 16 (destruct i; [reflexivity|]); lia|].
  destruct (weak_schedules i Hi) as [E Hb], (weak_schedules _ Hp) as [_ Hb'].
  do 2 eexists; split; [by apply set_key_unchecked_spec|]; split; [by apply set_key_unchecked_spec|].
  intros x Hx; rewrite E; apply openssl_crypt_undone; [apply subkeys_ok|done].
Qed.

Lemma openssl_set_key_checked_correct_witness :
  muggle_openssl_des_set_key_checked (weak 2) (replicate 16 []) = Some (-2, replicate 16 []).
Proof.
  rewrite (proj1 (openssl_set_key_checked_correct (replicate 16 []) eq_refl)); [reflexivity|].
  split; [reflexivity|]; repeat (constructor; [unfold byte_ok; lia|]); constructor.
Defined.
