(* ===== verification/DesModes.v ===== *)
(** * DES, the public functions: [crypt/des.c]

    Setting a key and the five modes, for both builds:
    [MUGGLE_CRYPT_OPTIMIZATION] is the compile-time switch between the code
    of [OpensslDes] (the default) and the portable code of [Des].  The modes
    are written over any block function. *)
From S2P Require Import Prelude Utils Modes Lanes XorLinear Des OpensslDes DesSpec.

Open Scope check_scope.

Section Build.
Variable MUGGLE_CRYPT_OPTIMIZATION : bool.

(** The return value and [subkeys->sk] after the call. *)
Definition muggle_des_set_key_inner (op : Z) (key_bytes : list Z) (sk : list (list Z))
  : option (Z * list (list Z)) :=
  sk ← (if MUGGLE_CRYPT_OPTIMIZATION then muggle_openssl_des_gen_subkeys op key_bytes sk
        else set_key_portable op key_bytes sk);
  Some (0, sk).

Definition muggle_des_crypt (ks : list (list Z)) (input : Z) : option Z :=
  if MUGGLE_CRYPT_OPTIMIZATION then muggle_openssl_des_crypt input ks else crypt_portable ks input.

Record muggle_des_context := DCTX { op : Z; mode : Z; sk : list (list Z) }.

(** The return value, and the context after the call. *)
Definition muggle_des_set_key (op mode : Z) (key : option (list Z)) (ctx : option muggle_des_context)
  : option (Z * option muggle_des_context) :=
  if negb (op_valid op) then Some (MUGGLE_ERR_INVALID_PARAM, ctx)
  else match key, ctx with
  | None, _ | _, None => Some (MUGGLE_ERR_NULL_PARAM, ctx)
  | Some key, Some ctx =>
      if (mode =? MUGGLE_BLOCK_CIPHER_MODE_ECB) || (mode =? MUGGLE_BLOCK_CIPHER_MODE_CBC) then
        '(ret, sk) ← muggle_des_set_key_inner op key (sk ctx); Some (ret, Some (DCTX op mode sk))
      else if (mode =? MUGGLE_BLOCK_CIPHER_MODE_CFB) || (mode =? MUGGLE_BLOCK_CIPHER_MODE_OFB) ||
              (mode =? MUGGLE_BLOCK_CIPHER_MODE_CTR) then
        '(ret, sk) ← muggle_des_set_key_inner MUGGLE_ENCRYPT key (sk ctx);
        Some (ret, Some (DCTX op mode sk))
      else Some (MUGGLE_ERR_INVALID_PARAM, Some (DCTX op mode (sk ctx)))
  end.

(** The block function on 8 bytes in memory. *)
Definition des_block (ks : list (list Z)) (b : list Z) : option (list Z) :=
  y ← muggle_des_crypt ks (of_le b); Some (le_bytes 8 y).

(** ** What both builds promise *)

(** The subkeys for encryption; decryption has them in the opposite order. *)
Definition des_schedule (key : list Z) : list (list Z) :=
  if MUGGLE_CRYPT_OPTIMIZATION then map subkey_bytes (Fips.subkeys (of_be key)) else portable_schedule key.

Lemma set_key_inner_spec op key sk : is_block 8 key -> length sk = 16%nat -> op_valid op = true ->
  muggle_des_set_key_inner op key sk =
  Some (0, if op =? MUGGLE_DECRYPT then rev (des_schedule key) else des_schedule key).
Proof.
  intros Hk Hl Hop; unfold muggle_des_set_key_inner, des_schedule; destruct MUGGLE_CRYPT_OPTIMIZATION.
  - rewrite gen_subkeys_spec by done; destruct (op =? MUGGLE_DECRYPT); by rewrite ?map_rev.
  - destruct (set_key_portable_spec key sk Hl) as [He Hd]; unfold op_valid, MUGGLE_ENCRYPT, MUGGLE_DECRYPT in *.
    destruct (Z.eqb_spec op 0) as [->|]; [by rewrite Hd|]; assert (op = 1) as -> by lia; by rewrite He.
Qed.

End Build.

Lemma des_block_portable ks : des_block false ks = portable_block ks.
Proof. reflexivity. Qed.

Lemma des_schedule_portable key : des_schedule false key = portable_schedule key.
Proof. unfold des_schedule; reflexivity. Qed.

#[local] Opaque Fips.subkeys Fips.crypt portable_schedule.

Lemma openssl_block_cipher key :
  BlockCipher 8 (des_block true (des_schedule true key)) (des_block true (rev (des_schedule true key))).
Proof.
  split; [lia|]; intros b Hb; destruct (le_word b Hb) as [Hw Eb]; unfold des_block, muggle_des_crypt, des_schedule.
  rewrite <- map_rev, crypt_spec by (apply subkeys_ok || done); cbn [mbind option_bind].
  eexists; split; [reflexivity|]; split; [apply le_bytes_block|].
  rewrite le_word_back by apply bswap64_width.
  rewrite crypt_spec by (apply rev_fips_schedule, subkeys_ok || apply bswap64_width).
  rewrite (bswap_involutive _ (fips_crypt_width _ _)), (fips_crypt_undone _ _ (bswap64_width _)).
  cbn [mbind option_bind]; by rewrite bswap_involutive, Eb.
Qed.

#[export] Instance des_block_cipher opt key :
  BlockCipher 8 (des_block opt (des_schedule opt key)) (des_block opt (rev (des_schedule opt key))).
Proof.
  destruct opt; [apply openssl_block_cipher|]; rewrite !des_block_portable, des_schedule_portable.
  exact (portable_block_cipher _ (portable_schedule_ok key)).
Qed.

(** ** The modes

    [crypt] is [muggle_des_crypt] on a block of 8 bytes in memory. *)
Section Modes.
Variable crypt : list (list Z) -> list Z -> option (list Z).

Definition muggle_des_ecb (ctx : option muggle_des_context) (input : option (list Z))
    (num_bytes : Z) (output : bool) : result (list Z) :=
  PTR ctx := ctx ELSE MUGGLE_ERR_NULL_PARAM;
  CHECK mode ctx =? MUGGLE_BLOCK_CIPHER_MODE_ECB ELSE MUGGLE_ERR_INVALID_PARAM;
  PTR input := input ELSE MUGGLE_ERR_NULL_PARAM;
  CHECK whole_blocks MUGGLE_DES_BLOCK_SIZE num_bytes ELSE MUGGLE_ERR_INVALID_PARAM;
  CHECK output ELSE MUGGLE_ERR_NULL_PARAM;
  out ← ecb_loop MUGGLE_DES_BLOCK_SIZE (crypt (sk ctx)) input (num_bytes / MUGGLE_DES_BLOCK_SIZE);
  Some (inr out).

Definition muggle_des_cbc (ctx : option muggle_des_context) (input : option (list Z))
    (num_bytes : Z) (iv_bytes : option (list Z)) (output : bool) : result (list Z * list Z) :=
  PTR ctx := ctx ELSE MUGGLE_ERR_NULL_PARAM;
  CHECK mode ctx =? MUGGLE_BLOCK_CIPHER_MODE_CBC ELSE MUGGLE_ERR_INVALID_PARAM;
  PTR input := input ELSE MUGGLE_ERR_NULL_PARAM;
  CHECK whole_blocks MUGGLE_DES_BLOCK_SIZE num_bytes ELSE MUGGLE_ERR_INVALID_PARAM;
  PTR iv_bytes := iv_bytes ELSE MUGGLE_ERR_NULL_PARAM;
  CHECK output ELSE MUGGLE_ERR_NULL_PARAM;
  CHECK op_valid (op ctx) ELSE MUGGLE_ERR_INVALID_PARAM;
  r ← cbc_loop MUGGLE_DES_BLOCK_SIZE (crypt (sk ctx)) (op ctx =? MUGGLE_ENCRYPT)
        input (num_bytes / MUGGLE_DES_BLOCK_SIZE) iv_bytes;
  Some (inr r).

Definition muggle_des_cfb64 (ctx : option muggle_des_context) (input : option (list Z))
    (num_bytes : Z) (iv : option (list Z)) (iv_offset : option Z) (output : bool)
    : result (list Z * Z * list Z) :=
  PTR ctx := ctx ELSE MUGGLE_ERR_NULL_PARAM;
  CHECK mode ctx =? MUGGLE_BLOCK_CIPHER_MODE_CFB ELSE MUGGLE_ERR_INVALID_PARAM;
  PTR input := input ELSE MUGGLE_ERR_NULL_PARAM;
  PTR iv := iv ELSE MUGGLE_ERR_NULL_PARAM;
  PTR iv_offset := iv_offset ELSE MUGGLE_ERR_NULL_PARAM;
  CHECK iv_offset <? MUGGLE_DES_BLOCK_SIZE ELSE MUGGLE_ERR_INVALID_PARAM;
  CHECK output ELSE MUGGLE_ERR_NULL_PARAM;
  CHECK op_valid (op ctx) ELSE MUGGLE_ERR_INVALID_PARAM;
  r ← stream_loop (cfb_step MUGGLE_DES_BLOCK_SIZE (crypt (sk ctx)) (op ctx =? MUGGLE_ENCRYPT))
        input num_bytes (iv, iv_offset);
  Some (inr r).

Definition muggle_des_ofb64 (ctx : option muggle_des_context) (input : option (list Z))
    (num_bytes : Z) (iv : option (list Z)) (iv_offset : option Z) (output : bool)
    : result (list Z * Z * list Z) :=
  PTR ctx := ctx ELSE MUGGLE_ERR_NULL_PARAM;
  CHECK mode ctx =? MUGGLE_BLOCK_CIPHER_MODE_OFB ELSE MUGGLE_ERR_INVALID_PARAM;
  PTR input := input ELSE MUGGLE_ERR_NULL_PARAM;
  PTR iv := iv ELSE MUGGLE_ERR_NULL_PARAM;
  PTR iv_offset := iv_offset ELSE MUGGLE_ERR_NULL_PARAM;
  CHECK iv_offset <? MUGGLE_DES_BLOCK_SIZE ELSE MUGGLE_ERR_INVALID_PARAM;
  CHECK output ELSE MUGGLE_ERR_NULL_PARAM;
  r ← stream_loop (ofb_step MUGGLE_DES_BLOCK_SIZE (crypt (sk ctx))) input num_bytes (iv, iv_offset);
  Some (inr r).

Definition muggle_des_ctr (ctx : option muggle_des_context) (input : option (list Z))
    (num_bytes : Z) (nonce nonce_offset : option Z) (stream_block : option (list Z))
    (output : bool) : result (Z * Z * list Z * list Z) :=
  PTR ctx := ctx ELSE MUGGLE_ERR_NULL_PARAM;
  CHECK mode ctx =? MUGGLE_BLOCK_CIPHER_MODE_CTR ELSE MUGGLE_ERR_INVALID_PARAM;
  PTR input := input ELSE MUGGLE_ERR_NULL_PARAM;
  PTR nonce := nonce ELSE MUGGLE_ERR_NULL_PARAM;
  PTR nonce_offset := nonce_offset ELSE MUGGLE_ERR_NULL_PARAM;
  CHECK nonce_offset <? MUGGLE_DES_BLOCK_SIZE ELSE MUGGLE_ERR_INVALID_PARAM;
  PTR stream_block := stream_block ELSE MUGGLE_ERR_NULL_PARAM;
  CHECK output ELSE MUGGLE_ERR_NULL_PARAM;
  r ← stream_loop (ctr_step MUGGLE_DES_BLOCK_SIZE (crypt (sk ctx)) (fun nonce => u64 (nonce + 1))
                     (le_bytes 8)) input num_bytes (nonce, nonce_offset, stream_block);
  Some (inr r).
End Modes.

(** ** The modes over any block cipher *)

#[local] Arguments le_bytes : simpl never.

Ltac block8 E D :=
  change MUGGLE_DES_BLOCK_SIZE with 8; change (Z.of_nat 8) with 8 in E, D.

Section ModesCorrect.
Variable crypt : list (list Z) -> list Z -> option (list Z).
Variables ks ks' : list (list Z).
Context `{!BlockCipher 8 (crypt ks) (crypt ks')}.

Variable m : list Z.
Hypothesis m_bytes : Forall byte_ok m.
Hypothesis m_size : Z.of_nat (length m) < 2 ^ 32.
Let n := Z.of_nat (length m).

Let enc (mode : Z) := Some (DCTX MUGGLE_ENCRYPT mode ks).
Let dec (mode : Z) (ks : list (list Z)) := Some (DCTX MUGGLE_DECRYPT mode ks).

Lemma whole_8 : (8 | n) ->
  whole_blocks MUGGLE_DES_BLOCK_SIZE n = true /\
  exists q : nat, length m = (q * 8)%nat /\ n / MUGGLE_DES_BLOCK_SIZE = Z.of_nat q.
Proof.
  intros H; split; [apply (whole_blocks_spec 3); [lia|unfold in_width; lia|done]|].
  destruct H as [q Hq]; exists (Z.to_nat q); unfold MUGGLE_DES_BLOCK_SIZE.
  rewrite Hq, Z.div_mul by lia; lia.
Qed.

Lemma des_ecb_roundtrip : (8 | n) -> exists c,
  muggle_des_ecb crypt (enc MUGGLE_BLOCK_CIPHER_MODE_ECB) (Some m) n true = Some (inr c) /\
  length c = length m /\ Forall byte_ok c /\
  muggle_des_ecb crypt (dec MUGGLE_BLOCK_CIPHER_MODE_ECB ks') (Some c) n true = Some (inr m).
Proof.
  intros H8; destruct (whole_8 H8) as (Hw & q & Hq & Hdiv).
  destruct (ecb_roundtrip 8 (crypt ks) (crypt ks') q m Hq m_bytes) as (c & E & Hl & Hf & D); [lia|].
  exists c; unfold muggle_des_ecb; simpl; rewrite Hw, Hdiv.
  block8 E D; by rewrite E, D.
Qed.

Lemma des_cbc_roundtrip iv : (8 | n) -> is_block 8 iv -> exists iv' c,
  muggle_des_cbc crypt (enc MUGGLE_BLOCK_CIPHER_MODE_CBC) (Some m) n (Some iv) true
  = Some (inr (iv', c)) /\ length c = length m /\ Forall byte_ok c /\
  muggle_des_cbc crypt (dec MUGGLE_BLOCK_CIPHER_MODE_CBC ks') (Some c) n (Some iv) true
  = Some (inr (iv', m)).
Proof.
  intros H8 Hiv; destruct (whole_8 H8) as (Hw & q & Hq & Hdiv).
  destruct (cbc_roundtrip 8 (crypt ks) (crypt ks') q m iv Hq m_bytes Hiv)
    as (iv' & c & E & _ & Hl & Hf & D); [lia|].
  exists iv', c; unfold muggle_des_cbc; simpl; rewrite Hw, Hdiv.
  block8 E D; by rewrite E, D.
Qed.

Lemma des_total b : is_block 8 b -> exists c, crypt ks b = Some c /\ is_block 8 c.
Proof. intros Hb; destruct (bc_inverse b Hb) as (c & E & Hc & _); eauto. Qed.

Lemma des_cfb_roundtrip iv off : is_block 8 iv -> 0 <= off < 8 -> exists iv' off' c,
  muggle_des_cfb64 crypt (enc MUGGLE_BLOCK_CIPHER_MODE_CFB) (Some m) n (Some iv) (Some off) true
  = Some (inr (iv', off', c)) /\ length c = length m /\ Forall byte_ok c /\
  muggle_des_cfb64 crypt (dec MUGGLE_BLOCK_CIPHER_MODE_CFB ks) (Some c) n (Some iv) (Some off) true
  = Some (inr (iv', off', m)).
Proof.
  intros Hiv Ho.
  destruct (stream_roundtrip (iv_ok 8) _ _ (iv, off) m
    (cfb_step_inverse 8 3 _ ltac:(lia) eq_refl des_total)) as ([iv' off'] & c & E & Hl & Hf & _ & D);
    [by split|done|].
  exists iv', off', c; unfold muggle_des_cfb64; simpl.
  replace (off <? MUGGLE_DES_BLOCK_SIZE) with true by (unfold MUGGLE_DES_BLOCK_SIZE; lia).
  block8 E D; unfold n; by rewrite E, D.
Qed.

Lemma des_ofb_roundtrip iv off : is_block 8 iv -> 0 <= off < 8 -> exists iv' off' c,
  muggle_des_ofb64 crypt (enc MUGGLE_BLOCK_CIPHER_MODE_OFB) (Some m) n (Some iv) (Some off) true
  = Some (inr (iv', off', c)) /\ length c = length m /\ Forall byte_ok c /\
  muggle_des_ofb64 crypt (dec MUGGLE_BLOCK_CIPHER_MODE_OFB ks) (Some c) n (Some iv) (Some off) true
  = Some (inr (iv', off', m)).
Proof.
  intros Hiv Ho.
  destruct (stream_roundtrip (iv_ok 8) _ _ (iv, off) m
    (ofb_step_inverse 8 3 _ ltac:(lia) eq_refl des_total)) as ([iv' off'] & c & E & Hl & Hf & _ & D);
    [by split|done|].
  exists iv', off', c; unfold muggle_des_ofb64; simpl.
  replace (off <? MUGGLE_DES_BLOCK_SIZE) with true by (unfold MUGGLE_DES_BLOCK_SIZE; lia).
  block8 E D; unfold n; by rewrite E, D.
Qed.

Lemma des_ctr_roundtrip nonce off stream :
  0 <= off < 8 -> is_block 8 stream -> exists nonce' off' stream' c,
  muggle_des_ctr crypt (enc MUGGLE_BLOCK_CIPHER_MODE_CTR) (Some m) n (Some nonce) (Some off)
    (Some stream) true = Some (inr (nonce', off', stream', c)) /\
  length c = length m /\ Forall byte_ok c /\
  muggle_des_ctr crypt (dec MUGGLE_BLOCK_CIPHER_MODE_CTR ks) (Some c) n (Some nonce) (Some off)
    (Some stream) true = Some (inr (nonce', off', stream', m)).
Proof.
  intros Ho Hst.
  destruct (stream_roundtrip (ctr_ok 8) _ _ (nonce, off, stream) m
    (ctr_step_inverse 8 3 _ ltac:(lia) eq_refl des_total (fun nonce => u64 (nonce + 1)) (le_bytes 8)
      (le_bytes_block 8)))
    as ([[nonce' off'] st'] & c & E & Hl & Hf & _ & D); [by split|done|].
  exists nonce', off', st', c; unfold muggle_des_ctr; simpl.
  replace (off <? MUGGLE_DES_BLOCK_SIZE) with true by (unfold MUGGLE_DES_BLOCK_SIZE; lia).
  block8 E D; unfold n; by rewrite E, D.
Qed.
End ModesCorrect.

(** ** Setting the key *)
Section SetKey.
Variable opt : bool.

Lemma des_set_key_ecb_cbc op' mode' key ctx :
  is_block 8 key -> length (sk ctx) = 16%nat -> op_valid op' = true ->
  mode' = MUGGLE_BLOCK_CIPHER_MODE_ECB \/ mode' = MUGGLE_BLOCK_CIPHER_MODE_CBC ->
  muggle_des_set_key opt op' mode' (Some key) (Some ctx) =
  Some (0, Some (DCTX op' mode'
    (if op' =? MUGGLE_DECRYPT then rev (des_schedule opt key) else des_schedule opt key))).
Proof.
  intros Hk Hl Hop Hm; unfold muggle_des_set_key; rewrite Hop; cbn [negb].
  replace ((mode' =? MUGGLE_BLOCK_CIPHER_MODE_ECB) || (mode' =? MUGGLE_BLOCK_CIPHER_MODE_CBC))
    with true by (destruct Hm as [-> | ->]; reflexivity).
  by rewrite set_key_inner_spec.
Qed.

Lemma des_set_key_stream op' mode' key ctx :
  is_block 8 key -> length (sk ctx) = 16%nat -> op_valid op' = true ->
  mode' = MUGGLE_BLOCK_CIPHER_MODE_CFB \/ mode' = MUGGLE_BLOCK_CIPHER_MODE_OFB \/
  mode' = MUGGLE_BLOCK_CIPHER_MODE_CTR ->
  muggle_des_set_key opt op' mode' (Some key) (Some ctx) =
  Some (0, Some (DCTX op' mode' (des_schedule opt key))).
Proof.
  intros Hk Hl Hop Hm; unfold muggle_des_set_key; rewrite Hop; cbn [negb].
  replace ((mode' =? MUGGLE_BLOCK_CIPHER_MODE_ECB) || (mode' =? MUGGLE_BLOCK_CIPHER_MODE_CBC))
    with false by (destruct Hm as [->|[-> | ->]]; reflexivity).
  replace ((mode' =? MUGGLE_BLOCK_CIPHER_MODE_CFB) || (mode' =? MUGGLE_BLOCK_CIPHER_MODE_OFB) ||
    (mode' =? MUGGLE_BLOCK_CIPHER_MODE_CTR)) with true by (destruct Hm as [->|[-> | ->]]; reflexivity).
  by rewrite set_key_inner_spec.
Qed.
End SetKey.

(** ** Properties *)

(** DES round-trips through its public functions.  For every key, message
    (a whole number of blocks for ECB and CBC), IV, offset, nonce and stream
    block, in both builds and whatever the two contexts held before: setting the key for
    encryption and for decryption succeeds, encryption gives as many bytes as
    the message has, and decryption gives the message back, with the same
    chaining state.  This covers the inverse permutations, the Feistel
    networks and the reversed key schedules of the portable and of the
    optimised implementation. *)
Theorem des_modes_roundtrip (opt : bool) (key m iv stream : list Z) (off nonce : Z)
    (c1 c2 : muggle_des_context) (Hk : is_block 8 key) (Hc1 : length (sk c1) = 16%nat) (Hc2 : length (sk c2) = 16%nat) (Hm : Forall byte_ok m)
    (Hsize : Z.of_nat (length m) < 2 ^ 32) (Hiv : is_block 8 iv) (Hst : is_block 8 stream)
    (Ho : 0 <= off < 8) :
  let n := Z.of_nat (length m) in
  let keyed mode e d := muggle_des_set_key opt MUGGLE_ENCRYPT mode (Some key) (Some c1) = Some (0, Some e) /\
    muggle_des_set_key opt MUGGLE_DECRYPT mode (Some key) (Some c2) = Some (0, Some d) in
  ((8 | n) -> exists e d c, keyed MUGGLE_BLOCK_CIPHER_MODE_ECB e d /\
     muggle_des_ecb (des_block opt) (Some e) (Some m) n true = Some (inr c) /\ length c = length m /\
     muggle_des_ecb (des_block opt) (Some d) (Some c) n true = Some (inr m)) /\
  ((8 | n) -> exists e d iv' c, keyed MUGGLE_BLOCK_CIPHER_MODE_CBC e d /\
     muggle_des_cbc (des_block opt) (Some e) (Some m) n (Some iv) true = Some (inr (iv', c)) /\
     length c = length m /\
     muggle_des_cbc (des_block opt) (Some d) (Some c) n (Some iv) true = Some (inr (iv', m))) /\
  (exists e d iv' off' c, keyed MUGGLE_BLOCK_CIPHER_MODE_CFB e d /\
     muggle_des_cfb64 (des_block opt) (Some e) (Some m) n (Some iv) (Some off) true
     = Some (inr (iv', off', c)) /\ length c = length m /\
     muggle_des_cfb64 (des_block opt) (Some d) (Some c) n (Some iv) (Some off) true
     = Some (inr (iv', off', m))) /\
  (exists e d iv' off' c, keyed MUGGLE_BLOCK_CIPHER_MODE_OFB e d /\
     muggle_des_ofb64 (des_block opt) (Some e) (Some m) n (Some iv) (Some off) true
     = Some (inr (iv', off', c)) /\ length c = length m /\
     muggle_des_ofb64 (des_block opt) (Some d) (Some c) n (Some iv) (Some off) true
     = Some (inr (iv', off', m))) /\
  (exists e d nonce' off' st' c, keyed MUGGLE_BLOCK_CIPHER_MODE_CTR e d /\
     muggle_des_ctr (des_block opt) (Some e) (Some m) n (Some nonce) (Some off) (Some stream) true
     = Some (inr (nonce', off', st', c)) /\ length c = length m /\
     muggle_des_ctr (des_block opt) (Some d) (Some c) n (Some nonce) (Some off) (Some stream) true
     = Some (inr (nonce', off', st', m))).
Proof.
  pose proof (des_block_cipher opt key) as HBC.
  intros n keyed; unfold keyed.
  split; [intros H8|split; [intros H8|split; [|split]]].
  - destruct (des_ecb_roundtrip (des_block opt) (des_schedule opt key) (rev (des_schedule opt key)) m Hm Hsize H8)
      as (c & E & Hl & _ & D); do 2 eexists; exists c.
    rewrite !des_set_key_ecb_cbc by auto; by split.
  - destruct (des_cbc_roundtrip (des_block opt) (des_schedule opt key) (rev (des_schedule opt key)) m Hm Hsize iv H8 Hiv)
      as (iv' & c & E & Hl & _ & D); do 2 eexists; exists iv', c.
    rewrite !des_set_key_ecb_cbc by auto; by split.
  - destruct (des_cfb_roundtrip (des_block opt) (des_schedule opt key) (rev (des_schedule opt key)) m Hm iv off Hiv Ho)
      as (iv' & off' & c & E & Hl & _ & D); do 2 eexists; exists iv', off', c.
    rewrite !des_set_key_stream by auto; by split.
  - destruct (des_ofb_roundtrip (des_block opt) (des_schedule opt key) (rev (des_schedule opt key)) m Hm iv off Hiv Ho)
      as (iv' & off' & c & E & Hl & _ & D); do 2 eexists; exists iv', off', c.
    rewrite !des_set_key_stream by auto; by split.
  - destruct (des_ctr_roundtrip (des_block opt) (des_schedule opt key) (rev (des_schedule opt key)) m Hm nonce off stream Ho Hst)
      as (nonce' & off' & st' & c & E & Hl & _ & D); do 2 eexists; exists nonce', off', st', c.
    rewrite !des_set_key_stream by auto; by split.
Qed.

(** The second key and plaintext of the unit test, in CBC. *)
Definition test_key : list Z := [19; 52; 87; 121; 155; 188; 223; 241].
Definition test_plaintext : list Z := [1; 35; 69; 103; 137; 171; 205; 239].
Definition blank : muggle_des_context := DCTX 0 0 (replicate 16 []).

Lemma test_blocks : is_block 8 test_key /\ is_block 8 test_plaintext.
Proof. split; (split; [reflexivity|]; repeat (constructor; [unfold byte_ok; lia|]); constructor). Qed.

Lemma des_modes_roundtrip_witness :
  exists e d iv' c,
    (muggle_des_set_key true MUGGLE_ENCRYPT MUGGLE_BLOCK_CIPHER_MODE_CBC (Some test_key) (Some blank)
     = Some (0, Some e) /\
     muggle_des_set_key true MUGGLE_DECRYPT MUGGLE_BLOCK_CIPHER_MODE_CBC (Some test_key) (Some blank)
     = Some (0, Some d)) /\
    muggle_des_cbc (des_block true) (Some e) (Some test_plaintext) 8 (Some test_key) true
    = Some (inr (iv', c)) /\ length c = 8%nat /\
    muggle_des_cbc (des_block true) (Some d) (Some c) 8 (Some test_key) true
    = Some (inr (iv', test_plaintext)).
Proof.
  destruct test_blocks as [Hk Hp].
  apply (des_modes_roundtrip true test_key test_plaintext test_key test_key 0 0 blank blank);
    [exact Hk|reflexivity|reflexivity|exact (proj2 Hp)|simpl; lia|exact Hk|exact Hk|lia|by exists 1].
Defined.

(** ** The default build is the standard *)

Lemma des_block_fips key b : is_block 8 b ->
  des_block true (des_schedule true key) b = Some (be_bytes 8 (Fips.encrypt (of_be key) (of_be b))) /\
  des_block true (rev (des_schedule true key)) b = Some (be_bytes 8 (Fips.decrypt (of_be key) (of_be b))).
Proof.
  intros Hb; destruct (le_word b Hb) as [Hw _].
  unfold des_block, muggle_des_crypt, des_schedule, Fips.encrypt, Fips.decrypt; rewrite <- map_rev.
  rewrite (crypt_spec _ _ (subkeys_ok _) Hw), (crypt_spec _ _ (rev_fips_schedule _ (subkeys_ok _)) Hw).
  cbn [mbind option_bind]; rewrite bswap_block by done.
  rewrite <- !be_bytes_bswap by apply bswap64_width.
  by rewrite !(bswap_involutive _ (fips_crypt_width _ _)).
Qed.

(** ECB over a block function that is total on blocks. *)
Lemma des_ecb_blocks crypt ks f op' bs :
  (forall b, is_block 8 b -> crypt ks b = Some (f b)) ->
  Forall (is_block 8) bs -> 8 * Z.of_nat (length bs) < 2 ^ 32 ->
  muggle_des_ecb crypt (Some (DCTX op' MUGGLE_BLOCK_CIPHER_MODE_ECB ks)) (Some (concat bs))
    (8 * Z.of_nat (length bs)) true = Some (inr (concat (map f bs))).
Proof.
  intros Hf Hbs Hn; unfold muggle_des_ecb; cbn [mode sk]; rewrite Z.eqb_refl.
  assert (whole_blocks MUGGLE_DES_BLOCK_SIZE (8 * Z.of_nat (length bs)) = true) as ->
    by (apply (whole_blocks_spec 3); [lia|unfold in_width; lia|exists (Z.of_nat (length bs)); lia]).
  replace (8 * Z.of_nat (length bs) / MUGGLE_DES_BLOCK_SIZE) with (Z.of_nat (length bs))
    by (unfold MUGGLE_DES_BLOCK_SIZE; rewrite Z.mul_comm, Z.div_mul; lia).
  change MUGGLE_DES_BLOCK_SIZE with (Z.of_nat 8).
  rewrite (ecb_loop_blocks 8 (crypt ks) bs (map f bs)); [done|done| |lia].
  clear Hn; induction Hbs as [|b bs Hb _ IH]; cbn [map]; constructor; auto.
Qed.

(** C36: the default build computes the Data Encryption Standard.  For every
    8-byte key and every sequence of blocks, and whatever the contexts held,
    [muggle_des_set_key] and [muggle_des_ecb] of the optimised build give,
    block by block, the encryption and the decryption of FIPS 46-3. *)
Theorem des_is_fips (key : list Z) (bs : list (list Z)) (ctx : muggle_des_context)
    (Hk : is_block 8 key) (Hbs : Forall (is_block 8) bs) (Hctx : length (sk ctx) = 16%nat)
    (Hsize : 8 * Z.of_nat (length bs) < 2 ^ 32) :
  let n := 8 * Z.of_nat (length bs) in
  exists e d,
    muggle_des_set_key true MUGGLE_ENCRYPT MUGGLE_BLOCK_CIPHER_MODE_ECB (Some key) (Some ctx)
    = Some (0, Some e) /\
    muggle_des_set_key true MUGGLE_DECRYPT MUGGLE_BLOCK_CIPHER_MODE_ECB (Some key) (Some ctx)
    = Some (0, Some d) /\
    muggle_des_ecb (des_block true) (Some e) (Some (concat bs)) n true
    = Some (inr (concat (map (fun b => be_bytes 8 (Fips.encrypt (of_be key) (of_be b))) bs))) /\
    muggle_des_ecb (des_block true) (Some d) (Some (concat bs)) n true
    = Some (inr (concat (map (fun b => be_bytes 8 (Fips.decrypt (of_be key) (of_be b))) bs))).
Proof.
  intros n; rewrite (des_set_key_ecb_cbc true MUGGLE_ENCRYPT _ key ctx Hk Hctx eq_refl (or_introl eq_refl)).
  rewrite (des_set_key_ecb_cbc true MUGGLE_DECRYPT _ key ctx Hk Hctx eq_refl (or_introl eq_refl)).
  change (MUGGLE_ENCRYPT =? MUGGLE_DECRYPT) with false; change (MUGGLE_DECRYPT =? MUGGLE_DECRYPT) with true.
  do 2 eexists; split; [reflexivity|]; split; [reflexivity|].
  split; (apply des_ecb_blocks; [|exact Hbs|exact Hsize]); intros b Hb.
  - exact (proj1 (des_block_fips key b Hb)).
  - exact (proj2 (des_block_fips key b Hb)).
Qed.

Lemma des_is_fips_witness :
  exists e d,
    muggle_des_set_key true MUGGLE_ENCRYPT MUGGLE_BLOCK_CIPHER_MODE_ECB (Some test_key) (Some blank)
    = Some (0, Some e) /\
    muggle_des_set_key true MUGGLE_DECRYPT MUGGLE_BLOCK_CIPHER_MODE_ECB (Some test_key) (Some blank)
    = Some (0, Some d) /\
    muggle_des_ecb (des_block true) (Some e) (Some test_plaintext) 8 true
    = Some (inr [133; 232; 19; 84; 15; 10; 180; 5]) /\
    muggle_des_ecb (des_block true) (Some d) (Some test_plaintext) 8 true
    = Some (inr (be_bytes 8 (Fips.decrypt (of_be test_key) (of_be test_plaintext)))).
Proof.
  destruct test_blocks as [Hk Hp].
  destruct (des_is_fips test_key [test_plaintext] blank Hk (Forall_cons_2 _ _ _ Hp (Forall_nil_2 _)) eq_refl
    ltac:(simpl; lia)) as (e & d & He & Hd & E & D); exists e, d.
  split; [exact He|]; split; [exact Hd|]; split; [exact E|exact D].
Defined.

#[local] Transparent portable_schedule.

(** The portable DES is not the standard DES.  [muggle_des_pc2] moves the
    last bit of each subkey byte 4 to 7 to position 4 instead of 5, so bit 5
    of those bytes is clear in every subkey of every key; and on a key and
    plaintext of the unit test, whose standard ciphertext is
    85E813540F0AB405, encryption succeeds with another ciphertext. *)
Theorem des_not_standard :
  (forall key k b i, k ∈ des_schedule false key -> (4 <= i < 8)%nat -> k !! i = Some b ->
     Z.testbit b 5 = false) /\
  exists e c,
    muggle_des_set_key false MUGGLE_ENCRYPT MUGGLE_BLOCK_CIPHER_MODE_ECB (Some test_key) (Some blank)
    = Some (0, Some e) /\
    muggle_des_ecb (des_block false) (Some e) (Some test_plaintext) 8 true = Some (inr c) /\
    c <> [133; 232; 19; 84; 15; 10; 180; 5].
Proof.
  split.
  - intros key k b i Hk Hi Hb; rewrite des_schedule_portable in Hk; apply list_elem_of_In, in_map_iff in Hk as ([c d] & <- & _).
    assert (forall x bits, forallb (fun '(from, to) => (0 <=? from) && (0 <=? to) && negb (to =? 5)) bits = true ->
      Z.testbit (u8 (move_bits x bits)) 5 = false) as Hbit.
    { clear; intros x bits Hbits; unfold wrap; rewrite Z.mod_pow2_bits_low by lia.
      induction bits as [|[from to] bits IH]; [done|]; cbn [forallb] in Hbits.
      cbn [move_bits foldr]; fold (move_bits x bits).
      apply andb_true_iff in Hbits as [[[H1 H2]%andb_true_iff H3]%andb_true_iff Hbits].
      rewrite Z.lor_spec, IH, move_bit_spec by (done || lia).
      replace (5 =? to) with false by lia; done. }
    assert (Forall (fun b => Z.testbit b 5 = false) (drop 4 (muggle_des_pc2 (c, d)))) as Hall.
    { cbn [muggle_des_pc2 drop]; repeat (constructor; [by apply Hbit|]); constructor. }
    apply (Forall_lookup_1 _ _ (i - 4) b Hall).
    rewrite lookup_drop, <- Hb; f_equal; lia.
  - rewrite des_set_key_ecb_cbc by (done || apply test_blocks || by left).
    do 2 eexists; split; [reflexivity|]; split; [vm_compute; reflexivity|done].
Qed.
