(* ===== verification/Tdes.v ===== *)
(** * Triple DES: [crypt/tdes.c]

    Both builds: three block operations between one initial and one final
    permutation, on the code of [OpensslDes] when [MUGGLE_CRYPT_OPTIMIZATION]
    is set, and otherwise three Feistel networks on the round function of
    [Des].  Offsets into the buffers stay below the 32-bit length, so the
    [size_t] offset of [muggle_tdes_ecb] and the 32-bit one of the shared loop
    agree. *)
From S2P Require Import Prelude Utils Modes XorLinear Des OpensslDes DesSpec DesModes.

Open Scope check_scope.

Record muggle_tdes_context := TCTX {
  t_op : Z; t_mode : Z;
  ctx1 : muggle_des_context; ctx2 : muggle_des_context; ctx3 : muggle_des_context
}.

(** The branch of [muggle_tdes_crypt] without optimisation. *)
Definition tdes_crypt_portable (ks1 ks2 ks3 : list (list Z)) (input : Z) : option Z :=
  let b64 := muggle_des_ip input in
  b64 ← feistel ks1 (lo b64, hi b64);
  b64 ← feistel ks2 b64;
  '(l, h) ← feistel ks3 b64;
  Some (muggle_des_fp (join h l)).

Section Build.
Variable MUGGLE_CRYPT_OPTIMIZATION : bool.

Definition muggle_tdes_crypt (ks1 ks2 ks3 : list (list Z)) (input : Z) : option Z :=
  if MUGGLE_CRYPT_OPTIMIZATION then muggle_openssl_tdes_crypt input ks1 ks2 ks3
  else tdes_crypt_portable ks1 ks2 ks3 input.

(** The three calls of [muggle_des_set_key], each with its check; the context
    holds what was written when one fails. *)
Definition set_keys (a1 a2 a3 : Z * list Z) (ctx : muggle_tdes_context)
  : option (Z * option muggle_tdes_context) :=
  let set a c := muggle_des_set_key MUGGLE_CRYPT_OPTIMIZATION a.1 MUGGLE_BLOCK_CIPHER_MODE_ECB (Some a.2) (Some c) in
  '(ret, c) ← set a1 (ctx1 ctx); c ← c;
  let ctx := TCTX (t_op ctx) (t_mode ctx) c (ctx2 ctx) (ctx3 ctx) in
  if negb (ret =? 0) then Some (ret, Some ctx)
  else
    '(ret, c) ← set a2 (ctx2 ctx); c ← c;
    let ctx := TCTX (t_op ctx) (t_mode ctx) (ctx1 ctx) c (ctx3 ctx) in
    if negb (ret =? 0) then Some (ret, Some ctx)
    else
      '(ret, c) ← set a3 (ctx3 ctx); c ← c;
      Some (ret, Some (TCTX (t_op ctx) (t_mode ctx) (ctx1 ctx) (ctx2 ctx) c)).

Definition muggle_tdes_set_key (op mode : Z) (key1 key2 key3 : option (list Z))
    (ctx : option muggle_tdes_context) : option (Z * option muggle_tdes_context) :=
  if negb (op_valid op) then Some (MUGGLE_ERR_INVALID_PARAM, ctx)
  else match key1, key2, key3, ctx with
  | Some key1, Some key2, Some key3, Some ctx =>
      let inv_op := if op =? MUGGLE_ENCRYPT then MUGGLE_DECRYPT else MUGGLE_ENCRYPT in
      let ctx := TCTX op mode (ctx1 ctx) (ctx2 ctx) (ctx3 ctx) in
      if (mode =? MUGGLE_BLOCK_CIPHER_MODE_ECB) || (mode =? MUGGLE_BLOCK_CIPHER_MODE_CBC) then
        if op =? MUGGLE_ENCRYPT then set_keys (op, key1) (inv_op, key2) (op, key3) ctx
        else set_keys (op, key3) (inv_op, key2) (op, key1) ctx
      else if (mode =? MUGGLE_BLOCK_CIPHER_MODE_CFB) || (mode =? MUGGLE_BLOCK_CIPHER_MODE_OFB) ||
              (mode =? MUGGLE_BLOCK_CIPHER_MODE_CTR) then
        set_keys (MUGGLE_ENCRYPT, key1) (MUGGLE_DECRYPT, key2) (MUGGLE_ENCRYPT, key3) ctx
      else Some (MUGGLE_ERR_INVALID_PARAM, Some ctx)
  | _, _, _, _ => Some (MUGGLE_ERR_NULL_PARAM, ctx)
  end.

(** The block function on 8 bytes in memory. *)
Definition tdes_block (ks1 ks2 ks3 : list (list Z)) (b : list Z) : option (list Z) :=
  y ← muggle_tdes_crypt ks1 ks2 ks3 (of_le b); Some (le_bytes 8 y).
End Build.

(** ** The modes

    [crypt] is [muggle_tdes_crypt] on a block of 8 bytes in memory. *)
Section Modes.
Variable crypt : list (list Z) -> list (list Z) -> list (list Z) -> list Z -> option (list Z).

Definition ctx_crypt (ctx : muggle_tdes_context) : list Z -> option (list Z) :=
  crypt (sk (ctx1 ctx)) (sk (ctx2 ctx)) (sk (ctx3 ctx)).

Definition muggle_tdes_ecb (ctx : option muggle_tdes_context) (input : option (list Z))
    (num_bytes : Z) (output : bool) : result (list Z) :=
  PTR ctx := ctx ELSE MUGGLE_ERR_NULL_PARAM;
  CHECK t_mode ctx =? MUGGLE_BLOCK_CIPHER_MODE_ECB ELSE MUGGLE_ERR_INVALID_PARAM;
  PTR input := input ELSE MUGGLE_ERR_NULL_PARAM;
  CHECK whole_blocks MUGGLE_DES_BLOCK_SIZE num_bytes ELSE MUGGLE_ERR_INVALID_PARAM;
  CHECK output ELSE MUGGLE_ERR_NULL_PARAM;
  out ← ecb_loop 8 (ctx_crypt ctx) input (num_bytes / 8);
  Some (inr out).

Definition muggle_tdes_cbc (ctx : option muggle_tdes_context) (input : option (list Z))
    (num_bytes : Z) (iv_bytes : option (list Z)) (output : bool) : result (list Z * list Z) :=
  PTR ctx := ctx ELSE MUGGLE_ERR_NULL_PARAM;
  CHECK t_mode ctx =? MUGGLE_BLOCK_CIPHER_MODE_CBC ELSE MUGGLE_ERR_INVALID_PARAM;
  PTR input := input ELSE MUGGLE_ERR_NULL_PARAM;
  CHECK whole_blocks MUGGLE_DES_BLOCK_SIZE num_bytes ELSE MUGGLE_ERR_INVALID_PARAM;
  PTR iv_bytes := iv_bytes ELSE MUGGLE_ERR_NULL_PARAM;
  CHECK output ELSE MUGGLE_ERR_NULL_PARAM;
  CHECK op_valid (t_op ctx) ELSE MUGGLE_ERR_INVALID_PARAM;
  r ← cbc_loop 8 (ctx_crypt ctx) (t_op ctx =? MUGGLE_ENCRYPT) input (num_bytes / 8) iv_bytes;
  Some (inr r).

Definition muggle_tdes_cfb64 (ctx : option muggle_tdes_context) (input : option (list Z))
    (num_bytes : Z) (iv : option (list Z)) (iv_offset : option Z) (output : bool)
    : result (list Z * Z * list Z) :=
  PTR ctx := ctx ELSE MUGGLE_ERR_NULL_PARAM;
  CHECK t_mode ctx =? MUGGLE_BLOCK_CIPHER_MODE_CFB ELSE MUGGLE_ERR_INVALID_PARAM;
  PTR input := input ELSE MUGGLE_ERR_NULL_PARAM;
  PTR iv := iv ELSE MUGGLE_ERR_NULL_PARAM;
  PTR iv_offset := iv_offset ELSE MUGGLE_ERR_NULL_PARAM;
  CHECK iv_offset <? MUGGLE_DES_BLOCK_SIZE ELSE MUGGLE_ERR_INVALID_PARAM;
  CHECK output ELSE MUGGLE_ERR_NULL_PARAM;
  CHECK op_valid (t_op ctx) ELSE MUGGLE_ERR_INVALID_PARAM;
  r ← stream_loop (cfb_step 8 (ctx_crypt ctx) (t_op ctx =? MUGGLE_ENCRYPT)) input num_bytes
        (iv, iv_offset);
  Some (inr r).

Definition muggle_tdes_ofb64 (ctx : option muggle_tdes_context) (input : option (list Z))
    (num_bytes : Z) (iv : option (list Z)) (iv_offset : option Z) (output : bool)
    : result (list Z * Z * list Z) :=
  PTR ctx := ctx ELSE MUGGLE_ERR_NULL_PARAM;
  CHECK t_mode ctx =? MUGGLE_BLOCK_CIPHER_MODE_OFB ELSE MUGGLE_ERR_INVALID_PARAM;
  PTR input := input ELSE MUGGLE_ERR_NULL_PARAM;
  PTR iv := iv ELSE MUGGLE_ERR_NULL_PARAM;
  PTR iv_offset := iv_offset ELSE MUGGLE_ERR_NULL_PARAM;
  CHECK iv_offset <? MUGGLE_DES_BLOCK_SIZE ELSE MUGGLE_ERR_INVALID_PARAM;
  CHECK output ELSE MUGGLE_ERR_NULL_PARAM;
  r ← stream_loop (ofb_step 8 (ctx_crypt ctx)) input num_bytes (iv, iv_offset);
  Some (inr r).

Definition muggle_tdes_ctr (ctx : option muggle_tdes_context) (input : option (list Z))
    (num_bytes : Z) (nonce nonce_offset : option Z) (stream_block : option (list Z))
    (output : bool) : result (Z * Z * list Z * list Z) :=
  PTR ctx := ctx ELSE MUGGLE_ERR_NULL_PARAM;
  CHECK t_mode ctx =? MUGGLE_BLOCK_CIPHER_MODE_CTR ELSE MUGGLE_ERR_INVALID_PARAM;
  PTR input := input ELSE MUGGLE_ERR_NULL_PARAM;
  PTR nonce := nonce ELSE MUGGLE_ERR_NULL_PARAM;
  PTR nonce_offset := nonce_offset ELSE MUGGLE_ERR_NULL_PARAM;
  CHECK nonce_offset <? MUGGLE_DES_BLOCK_SIZE ELSE MUGGLE_ERR_INVALID_PARAM;
  PTR stream_block := stream_block ELSE MUGGLE_ERR_NULL_PARAM;
  CHECK output ELSE MUGGLE_ERR_NULL_PARAM;
  r ← stream_loop (ctr_step 8 (ctx_crypt ctx) (fun nonce => u64 (nonce + 1)) (le_bytes 8))
        input num_bytes (nonce, nonce_offset, stream_block);
  Some (inr r).
End Modes.

#[local] Opaque Fips.subkeys Fips.crypt portable_schedule.

(** ** Triple DES is a block cipher *)

Lemma tdes_crypt_undone ks1 ks2 ks3 x :
  schedule_ok ks1 -> schedule_ok ks2 -> schedule_ok ks3 -> in_width 64 x ->
  exists y, tdes_crypt_portable ks1 ks2 ks3 x = Some y /\ in_width 64 y /\
    tdes_crypt_portable (rev ks3) (rev ks2) (rev ks1) y = Some x.
Proof.
  intros H1 H2 H3 Hx; destruct (join_lo_hi _ (ip_width x)) as (Ej & Hl & Hh).
  destruct (feistel_undone ks1 (lo (muggle_des_ip x), hi (muggle_des_ip x)) H1)
    as (b1 & E1 & B1 & D1); [done|].
  destruct (feistel_undone ks2 b1 H2 B1) as (b2 & E2 & B2 & D2).
  destruct (feistel_undone ks3 b2 H3 B2) as ([l h] & E3 & [Hcl Hch] & D3); simpl in Hcl, Hch.
  exists (muggle_des_fp (join h l)); unfold tdes_crypt_portable.
  rewrite E1; cbn [mbind option_bind]; rewrite E2; cbn [mbind option_bind].
  rewrite E3; cbn [mbind option_bind].
  split; [done|]; split; [apply fp_width|].
  rewrite ip_fp by (by apply join_width); rewrite lo_join, hi_join by done.
  unfold swap_halves at 1 in D3; cbn [fst snd] in D3; rewrite D3; cbn [mbind option_bind].
  rewrite D2; cbn [mbind option_bind]; rewrite D1.
  unfold swap_halves; cbn [mbind option_bind fst snd]; by rewrite Ej, fp_ip.
Qed.

Lemma portable_tdes_cipher ks1 ks2 ks3 :
  schedule_ok ks1 -> schedule_ok ks2 -> schedule_ok ks3 ->
  BlockCipher 8 (tdes_block false ks1 ks2 ks3) (tdes_block false (rev ks3) (rev ks2) (rev ks1)).
Proof.
  intros H1 H2 H3; split; [lia|]; intros b Hb; destruct (le_word b Hb) as [Hw Eb].
  destruct (tdes_crypt_undone ks1 ks2 ks3 (of_le b) H1 H2 H3 Hw) as (y & E & Hy & D).
  exists (le_bytes 8 y); unfold tdes_block, muggle_tdes_crypt; rewrite E; cbn [mbind option_bind].
  split; [done|]; split; [apply le_bytes_block|].
  rewrite le_word_back, D by done; cbn [mbind option_bind]; by rewrite Eb.
Qed.

Lemma tdes_block_fips ks1 ks2 ks3 b :
  fips_schedule ks1 -> fips_schedule ks2 -> fips_schedule ks3 -> is_block 8 b ->
  tdes_block true (map subkey_bytes ks1) (map subkey_bytes ks2) (map subkey_bytes ks3) b =
  Some (be_bytes 8 (Fips.crypt ks3 (Fips.crypt ks2 (Fips.crypt ks1 (of_be b))))).
Proof.
  intros H1 H2 H3 Hb; destruct (le_word b Hb) as [Hw _]; unfold tdes_block, muggle_tdes_crypt.
  rewrite (tdes_crypt_spec _ _ _ _ H1 H2 H3 Hw); cbn [mbind option_bind]; rewrite (bswap_block b Hb).
  rewrite <- (be_bytes_bswap _ (bswap64_width _)); by rewrite (bswap_involutive _ (fips_crypt_width _ _)).
Qed.

Lemma of_be_block b : is_block 8 b -> in_width 64 (of_be b) /\ be_bytes 8 (of_be b) = b.
Proof.
  intros Hb; destruct (le_word b Hb) as [Hw Eb]; rewrite <- bswap_block by done.
  split; [apply bswap64_width|]; by rewrite be_bytes_bswap.
Qed.

Lemma be_bytes_block x : in_width 64 x -> is_block 8 (be_bytes 8 x) /\ of_be (be_bytes 8 x) = x.
Proof.
  intros Hx; split; [apply rev_block, le_bytes_block|].
  unfold of_be, be_bytes; rewrite rev_involutive; by apply le_word_back.
Qed.

Lemma openssl_tdes_cipher ks1 ks2 ks3 :
  fips_schedule ks1 -> fips_schedule ks2 -> fips_schedule ks3 ->
  BlockCipher 8 (tdes_block true (map subkey_bytes ks1) (map subkey_bytes ks2) (map subkey_bytes ks3))
    (tdes_block true (map subkey_bytes (rev ks3)) (map subkey_bytes (rev ks2)) (map subkey_bytes (rev ks1))).
Proof.
  intros H1 H2 H3; split; [lia|]; intros b Hb; eexists.
  split; [exact (tdes_block_fips ks1 ks2 ks3 b H1 H2 H3 Hb)|].
  destruct (be_bytes_block _ (fips_crypt_width ks3 (Fips.crypt ks2 (Fips.crypt ks1 (of_be b))))) as [Hc Ec].
  split; [exact Hc|]; destruct (of_be_block b Hb) as [Hw Eb].
  rewrite (tdes_block_fips _ _ _ _ (rev_fips_schedule _ H3) (rev_fips_schedule _ H2) (rev_fips_schedule _ H1) Hc), Ec.
  rewrite (fips_crypt_undone ks3 _ (fips_crypt_width _ _)), (fips_crypt_undone ks2 _ (fips_crypt_width _ _)).
  by rewrite (fips_crypt_undone ks1 _ Hw), Eb.
Qed.

(** ** The modes are those of DES over another block function *)
Section AsDes.
Variable crypt : list (list Z) -> list (list Z) -> list (list Z) -> list Z -> option (list Z).
Variables e d : muggle_tdes_context.
Variable dec : list Z -> option (list Z).

(** The block function of [e] and its inverse, told apart by a dummy schedule. *)
Definition either (ks : list (list Z)) : list Z -> option (list Z) :=
  match ks with [] => ctx_crypt crypt e | _ => dec end.

Context `{!BlockCipher 8 (ctx_crypt crypt e) dec}.

#[local] Instance either_cipher : BlockCipher 8 (either []) (either [[]]) :=
  {| bc_size := bc_size; bc_inverse := bc_inverse |}.

Variables (m : list Z).
Hypothesis m_bytes : Forall byte_ok m.
Hypothesis m_size : Z.of_nat (length m) < 2 ^ 32.
Hypothesis e_op : t_op e = MUGGLE_ENCRYPT.
Hypothesis d_op : t_op d = MUGGLE_DECRYPT.
Let n := Z.of_nat (length m).

Lemma tdes_ecb_roundtrip :
  dec = ctx_crypt crypt d ->
  t_mode e = MUGGLE_BLOCK_CIPHER_MODE_ECB -> t_mode d = MUGGLE_BLOCK_CIPHER_MODE_ECB -> (8 | n) ->
  exists c, muggle_tdes_ecb crypt (Some e) (Some m) n true = Some (inr c) /\ length c = length m /\
    muggle_tdes_ecb crypt (Some d) (Some c) n true = Some (inr m).
Proof.
  intros Hdec He Hd H8; destruct (des_ecb_roundtrip either [] [[]] m m_bytes m_size H8)
    as (c & E & Hl & _ & D); exists c.
  unfold muggle_tdes_ecb; rewrite He, Hd, <- Hdec; split; [exact E|]; by split.
Qed.

Lemma tdes_cbc_roundtrip iv :
  dec = ctx_crypt crypt d ->
  t_mode e = MUGGLE_BLOCK_CIPHER_MODE_CBC -> t_mode d = MUGGLE_BLOCK_CIPHER_MODE_CBC ->
  (8 | n) -> is_block 8 iv ->
  exists iv' c, muggle_tdes_cbc crypt (Some e) (Some m) n (Some iv) true = Some (inr (iv', c)) /\
    length c = length m /\
    muggle_tdes_cbc crypt (Some d) (Some c) n (Some iv) true = Some (inr (iv', m)).
Proof.
  intros Hdec He Hd H8 Hiv; destruct (des_cbc_roundtrip either [] [[]] m m_bytes m_size iv H8 Hiv)
    as (iv' & c & E & Hl & _ & D); exists iv', c.
  unfold muggle_tdes_cbc; rewrite He, Hd, e_op, d_op, <- Hdec; split; [exact E|]; by split.
Qed.

(** The byte-wise modes use the same block function in both directions. *)
Hypothesis same : ctx_crypt crypt d = ctx_crypt crypt e.

Lemma tdes_cfb_roundtrip iv off :
  t_mode e = MUGGLE_BLOCK_CIPHER_MODE_CFB -> t_mode d = MUGGLE_BLOCK_CIPHER_MODE_CFB ->
  is_block 8 iv -> 0 <= off < 8 ->
  exists iv' off' c,
    muggle_tdes_cfb64 crypt (Some e) (Some m) n (Some iv) (Some off) true = Some (inr (iv', off', c)) /\
    length c = length m /\
    muggle_tdes_cfb64 crypt (Some d) (Some c) n (Some iv) (Some off) true = Some (inr (iv', off', m)).
Proof.
  intros He Hd Hiv Ho; destruct (des_cfb_roundtrip either [] [[]] m m_bytes iv off Hiv Ho)
    as (iv' & off' & c & E & Hl & _ & D); exists iv', off', c.
  unfold muggle_tdes_cfb64; rewrite He, Hd, e_op, d_op, same; split; [exact E|]; by split.
Qed.

Lemma tdes_ofb_roundtrip iv off :
  t_mode e = MUGGLE_BLOCK_CIPHER_MODE_OFB -> t_mode d = MUGGLE_BLOCK_CIPHER_MODE_OFB ->
  is_block 8 iv -> 0 <= off < 8 ->
  exists iv' off' c,
    muggle_tdes_ofb64 crypt (Some e) (Some m) n (Some iv) (Some off) true = Some (inr (iv', off', c)) /\
    length c = length m /\
    muggle_tdes_ofb64 crypt (Some d) (Some c) n (Some iv) (Some off) true = Some (inr (iv', off', m)).
Proof.
  intros He Hd Hiv Ho; destruct (des_ofb_roundtrip either [] [[]] m m_bytes iv off Hiv Ho)
    as (iv' & off' & c & E & Hl & _ & D); exists iv', off', c.
  unfold muggle_tdes_ofb64; rewrite He, Hd, same; split; [exact E|]; by split.
Qed.

Lemma tdes_ctr_roundtrip nonce off stream :
  t_mode e = MUGGLE_BLOCK_CIPHER_MODE_CTR -> t_mode d = MUGGLE_BLOCK_CIPHER_MODE_CTR ->
  0 <= off < 8 -> is_block 8 stream ->
  exists nonce' off' st' c,
    muggle_tdes_ctr crypt (Some e) (Some m) n (Some nonce) (Some off) (Some stream) true
    = Some (inr (nonce', off', st', c)) /\ length c = length m /\
    muggle_tdes_ctr crypt (Some d) (Some c) n (Some nonce) (Some off) (Some stream) true
    = Some (inr (nonce', off', st', m)).
Proof.
  intros He Hd Ho Hst; destruct (des_ctr_roundtrip either [] [[]] m m_bytes nonce off stream Ho Hst)
    as (nonce' & off' & st' & c & E & Hl & _ & D); exists nonce', off', st', c.
  unfold muggle_tdes_ctr; rewrite He, Hd, same; split; [exact E|]; by split.
Qed.
End AsDes.

(** ** Setting the keys *)
Section SetKeys.
Variable opt : bool.

Definition fresh_ctx (c : muggle_tdes_context) : Prop :=
  length (sk (ctx1 c)) = 16%nat /\ length (sk (ctx2 c)) = 16%nat /\ length (sk (ctx3 c)) = 16%nat.

Definition des_ecb_ctx (a : Z * list Z) : muggle_des_context :=
  DCTX a.1 MUGGLE_BLOCK_CIPHER_MODE_ECB
    (if a.1 =? MUGGLE_DECRYPT then rev (des_schedule opt a.2) else des_schedule opt a.2).

Lemma set_keys_spec a1 a2 a3 ctx :
  op_valid a1.1 = true -> op_valid a2.1 = true -> op_valid a3.1 = true ->
  is_block 8 a1.2 -> is_block 8 a2.2 -> is_block 8 a3.2 -> fresh_ctx ctx ->
  set_keys opt a1 a2 a3 ctx = Some (0, Some (TCTX (t_op ctx) (t_mode ctx)
    (des_ecb_ctx a1) (des_ecb_ctx a2) (des_ecb_ctx a3))).
Proof.
  intros O1 O2 O3 K1 K2 K3 (L1 & L2 & L3); unfold set_keys.
  rewrite des_set_key_ecb_cbc by auto; cbn [mbind option_bind negb Z.eqb ctx1 ctx2 ctx3 t_op t_mode].
  rewrite des_set_key_ecb_cbc by auto; cbn [mbind option_bind negb Z.eqb ctx1 ctx2 ctx3 t_op t_mode].
  by rewrite des_set_key_ecb_cbc by auto.
Qed.

Definition enc_ctx (key1 key2 key3 : list Z) (op mode : Z) : muggle_tdes_context :=
  TCTX op mode (des_ecb_ctx (MUGGLE_ENCRYPT, key1)) (des_ecb_ctx (MUGGLE_DECRYPT, key2))
    (des_ecb_ctx (MUGGLE_ENCRYPT, key3)).

Definition dec_ctx (key1 key2 key3 : list Z) (mode : Z) : muggle_tdes_context :=
  TCTX MUGGLE_DECRYPT mode (des_ecb_ctx (MUGGLE_DECRYPT, key3)) (des_ecb_ctx (MUGGLE_ENCRYPT, key2))
    (des_ecb_ctx (MUGGLE_DECRYPT, key1)).

Variables key1 key2 key3 : list Z.
Hypothesis Hkey1 : is_block 8 key1.
Hypothesis Hkey2 : is_block 8 key2.
Hypothesis Hkey3 : is_block 8 key3.

Lemma tdes_set_key_spec mode c :
  fresh_ctx c ->
  mode = MUGGLE_BLOCK_CIPHER_MODE_ECB \/ mode = MUGGLE_BLOCK_CIPHER_MODE_CBC ->
  muggle_tdes_set_key opt MUGGLE_ENCRYPT mode (Some key1) (Some key2) (Some key3) (Some c)
  = Some (0, Some (enc_ctx key1 key2 key3 MUGGLE_ENCRYPT mode)) /\
  muggle_tdes_set_key opt MUGGLE_DECRYPT mode (Some key1) (Some key2) (Some key3) (Some c)
  = Some (0, Some (dec_ctx key1 key2 key3 mode)).
Proof.
  intros Hc Hm; unfold muggle_tdes_set_key.
  replace ((mode =? MUGGLE_BLOCK_CIPHER_MODE_ECB) || (mode =? MUGGLE_BLOCK_CIPHER_MODE_CBC))
    with true by (destruct Hm as [-> | ->]; reflexivity).
  split; (etransitivity; [by apply set_keys_spec|reflexivity]).
Qed.

Lemma tdes_set_key_stream op mode c :
  fresh_ctx c -> op_valid op = true ->
  mode = MUGGLE_BLOCK_CIPHER_MODE_CFB \/ mode = MUGGLE_BLOCK_CIPHER_MODE_OFB \/
  mode = MUGGLE_BLOCK_CIPHER_MODE_CTR ->
  muggle_tdes_set_key opt op mode (Some key1) (Some key2) (Some key3) (Some c)
  = Some (0, Some (enc_ctx key1 key2 key3 op mode)).
Proof.
  intros Hc Hop Hm; unfold muggle_tdes_set_key; rewrite Hop; cbn [negb].
  replace ((mode =? MUGGLE_BLOCK_CIPHER_MODE_ECB) || (mode =? MUGGLE_BLOCK_CIPHER_MODE_CBC))
    with false by (destruct Hm as [->|[-> | ->]]; reflexivity).
  replace ((mode =? MUGGLE_BLOCK_CIPHER_MODE_CFB) || (mode =? MUGGLE_BLOCK_CIPHER_MODE_OFB) ||
    (mode =? MUGGLE_BLOCK_CIPHER_MODE_CTR)) with true by (destruct Hm as [->|[-> | ->]]; reflexivity).
  etransitivity; [by apply set_keys_spec|reflexivity].
Qed.

(** The block function of a key, and its inverse. *)
Lemma tdes_keys_cipher op mode mode' :
  BlockCipher 8 (ctx_crypt (tdes_block opt) (enc_ctx key1 key2 key3 op mode))
    (ctx_crypt (tdes_block opt) (dec_ctx key1 key2 key3 mode')).
Proof using Type.
  unfold ctx_crypt, enc_ctx, dec_ctx, des_ecb_ctx; cbn [ctx1 ctx2 ctx3 sk fst snd].
  change (MUGGLE_ENCRYPT =? MUGGLE_DECRYPT) with false; change (MUGGLE_DECRYPT =? MUGGLE_DECRYPT) with true.
  cbv iota; unfold des_schedule; destruct opt.
  - pose proof (openssl_tdes_cipher (Fips.subkeys (of_be key1)) (rev (Fips.subkeys (of_be key2)))
      (Fips.subkeys (of_be key3)) (subkeys_ok _) (rev_fips_schedule _ (subkeys_ok _)) (subkeys_ok _)) as H.
    rewrite !map_rev, rev_involutive in H; exact H.
  - pose proof (portable_tdes_cipher (portable_schedule key1) (rev (portable_schedule key2)) (portable_schedule key3)
      (portable_schedule_ok _) (rev_schedule_ok _ (portable_schedule_ok _)) (portable_schedule_ok _)) as H.
    rewrite rev_involutive in H; exact H.
Qed.

Lemma enc_ctx_same op op' mode mode' :
  ctx_crypt (tdes_block opt) (enc_ctx key1 key2 key3 op mode) =
  ctx_crypt (tdes_block opt) (enc_ctx key1 key2 key3 op' mode').
Proof using Type. unfold ctx_crypt, enc_ctx; cbn [ctx1 ctx2 ctx3]; reflexivity. Qed.
End SetKeys.

(** ** The block function of the default build *)

Lemma tdes_keys_fips key1 key2 key3 b mode : is_block 8 b ->
  ctx_crypt (tdes_block true) (enc_ctx true key1 key2 key3 MUGGLE_ENCRYPT mode) b
  = Some (be_bytes 8 (Fips.tdea_encrypt (of_be key1) (of_be key2) (of_be key3) (of_be b))) /\
  ctx_crypt (tdes_block true) (dec_ctx true key1 key2 key3 mode) b
  = Some (be_bytes 8 (Fips.tdea_decrypt (of_be key1) (of_be key2) (of_be key3) (of_be b))).
Proof.
  intros Hb; unfold ctx_crypt, enc_ctx, dec_ctx, des_ecb_ctx; cbn [ctx1 ctx2 ctx3 sk fst snd].
  change (MUGGLE_ENCRYPT =? MUGGLE_DECRYPT) with false; change (MUGGLE_DECRYPT =? MUGGLE_DECRYPT) with true.
  cbv iota; unfold des_schedule; rewrite <- !map_rev.
  rewrite (tdes_block_fips _ _ _ b (subkeys_ok _) (rev_fips_schedule _ (subkeys_ok _)) (subkeys_ok _) Hb).
  rewrite (tdes_block_fips _ _ _ b (rev_fips_schedule _ (subkeys_ok _)) (subkeys_ok _)
    (rev_fips_schedule _ (subkeys_ok _)) Hb); split; reflexivity.
Qed.

Lemma tdes_ecb_block crypt ctx b c : is_block 8 b -> t_mode ctx = MUGGLE_BLOCK_CIPHER_MODE_ECB ->
  ctx_crypt crypt ctx b = Some c ->
  muggle_tdes_ecb crypt (Some ctx) (Some b) 8 true = Some (inr c).
Proof.
  intros Hb Hm Hc; unfold muggle_tdes_ecb; rewrite Hm, Z.eqb_refl.
  change (whole_blocks MUGGLE_DES_BLOCK_SIZE 8) with true; cbv iota; change (8 / 8) with (Z.of_nat 1).
  pose proof (ecb_loop_blocks 8 (ctx_crypt crypt ctx) [b] [c]) as E; cbn [concat] in E; rewrite !app_nil_r in E.
  specialize (E (Forall_cons_2 _ _ _ Hb (Forall_nil_2 _)) ltac:(by repeat constructor) eq_refl).
  change (Z.of_nat 8) with 8 in E; cbn [length] in E; by rewrite E.
Qed.

#[local] Opaque tdes_block ctx_crypt.

(** ** Properties *)

(** Triple DES round-trips through its public functions.  For any three
    keys, any message (a whole number of blocks for ECB and CBC), IV, offset,
    nonce and stream block, in both builds and whatever the contexts held: setting the keys
    succeeds in both directions and decryption gives the encrypted message
    back with the same chaining state.  The schedules are used in opposite
    order and each reversed, the middle one included. *)
Theorem tdes_modes_roundtrip (opt : bool) (key1 key2 key3 m iv stream : list Z) (off nonce : Z)
    (c1 c2 : muggle_tdes_context) (Hk1 : is_block 8 key1) (Hk2 : is_block 8 key2)
    (Hk3 : is_block 8 key3) (Hc1 : fresh_ctx c1) (Hc2 : fresh_ctx c2) (Hm : Forall byte_ok m)
    (Hsize : Z.of_nat (length m) < 2 ^ 32) (Hiv : is_block 8 iv) (Hst : is_block 8 stream)
    (Ho : 0 <= off < 8) :
  let n := Z.of_nat (length m) in
  let keyed mode e d :=
    muggle_tdes_set_key opt MUGGLE_ENCRYPT mode (Some key1) (Some key2) (Some key3) (Some c1)
    = Some (0, Some e) /\
    muggle_tdes_set_key opt MUGGLE_DECRYPT mode (Some key1) (Some key2) (Some key3) (Some c2)
    = Some (0, Some d) in
  ((8 | n) -> exists e d c, keyed MUGGLE_BLOCK_CIPHER_MODE_ECB e d /\
     muggle_tdes_ecb (tdes_block opt) (Some e) (Some m) n true = Some (inr c) /\ length c = length m /\
     muggle_tdes_ecb (tdes_block opt) (Some d) (Some c) n true = Some (inr m)) /\
  ((8 | n) -> exists e d iv' c, keyed MUGGLE_BLOCK_CIPHER_MODE_CBC e d /\
     muggle_tdes_cbc (tdes_block opt) (Some e) (Some m) n (Some iv) true = Some (inr (iv', c)) /\
     length c = length m /\
     muggle_tdes_cbc (tdes_block opt) (Some d) (Some c) n (Some iv) true = Some (inr (iv', m))) /\
  (exists e d iv' off' c, keyed MUGGLE_BLOCK_CIPHER_MODE_CFB e d /\
     muggle_tdes_cfb64 (tdes_block opt) (Some e) (Some m) n (Some iv) (Some off) true
     = Some (inr (iv', off', c)) /\ length c = length m /\
     muggle_tdes_cfb64 (tdes_block opt) (Some d) (Some c) n (Some iv) (Some off) true
     = Some (inr (iv', off', m))) /\
  (exists e d iv' off' c, keyed MUGGLE_BLOCK_CIPHER_MODE_OFB e d /\
     muggle_tdes_ofb64 (tdes_block opt) (Some e) (Some m) n (Some iv) (Some off) true
     = Some (inr (iv', off', c)) /\ length c = length m /\
     muggle_tdes_ofb64 (tdes_block opt) (Some d) (Some c) n (Some iv) (Some off) true
     = Some (inr (iv', off', m))) /\
  (exists e d nonce' off' st' c, keyed MUGGLE_BLOCK_CIPHER_MODE_CTR e d /\
     muggle_tdes_ctr (tdes_block opt) (Some e) (Some m) n (Some nonce) (Some off) (Some stream) true
     = Some (inr (nonce', off', st', c)) /\ length c = length m /\
     muggle_tdes_ctr (tdes_block opt) (Some d) (Some c) n (Some nonce) (Some off) (Some stream) true
     = Some (inr (nonce', off', st', m))).
Proof.
  intros n keyed; unfold keyed.
  set (E mode := enc_ctx opt key1 key2 key3 MUGGLE_ENCRYPT mode).
  set (S mode := enc_ctx opt key1 key2 key3 MUGGLE_DECRYPT mode).
  set (D mode := dec_ctx opt key1 key2 key3 mode).
  assert (forall mode, BlockCipher 8 (ctx_crypt (tdes_block opt) (E mode)) (ctx_crypt (tdes_block opt) (D mode)))
    as HB by (intros mode; apply tdes_keys_cipher).
  split; [intros H8|split; [intros H8|split; [|split]]].
  - exists (E MUGGLE_BLOCK_CIPHER_MODE_ECB), (D MUGGLE_BLOCK_CIPHER_MODE_ECB).
    destruct (tdes_ecb_roundtrip (tdes_block opt) (E MUGGLE_BLOCK_CIPHER_MODE_ECB)
      (D MUGGLE_BLOCK_CIPHER_MODE_ECB) _ m Hm Hsize eq_refl eq_refl eq_refl H8) as (c & H).
    exists c; split; [|exact H]; split;
      [exact (proj1 (tdes_set_key_spec opt key1 key2 key3 Hk1 Hk2 Hk3 _ c1 Hc1 ltac:(by left)))
      |exact (proj2 (tdes_set_key_spec opt key1 key2 key3 Hk1 Hk2 Hk3 _ c2 Hc2 ltac:(by left)))].
  - exists (E MUGGLE_BLOCK_CIPHER_MODE_CBC), (D MUGGLE_BLOCK_CIPHER_MODE_CBC).
    destruct (tdes_cbc_roundtrip (tdes_block opt) (E MUGGLE_BLOCK_CIPHER_MODE_CBC)
      (D MUGGLE_BLOCK_CIPHER_MODE_CBC) _ m Hm Hsize eq_refl eq_refl iv eq_refl eq_refl eq_refl H8 Hiv)
      as (iv' & c & H).
    exists iv', c; split; [|exact H]; split;
      [exact (proj1 (tdes_set_key_spec opt key1 key2 key3 Hk1 Hk2 Hk3 _ c1 Hc1 ltac:(by right)))
      |exact (proj2 (tdes_set_key_spec opt key1 key2 key3 Hk1 Hk2 Hk3 _ c2 Hc2 ltac:(by right)))].
  - exists (E MUGGLE_BLOCK_CIPHER_MODE_CFB), (S MUGGLE_BLOCK_CIPHER_MODE_CFB).
    destruct (tdes_cfb_roundtrip (tdes_block opt) (E MUGGLE_BLOCK_CIPHER_MODE_CFB)
      (S MUGGLE_BLOCK_CIPHER_MODE_CFB) _ m Hm eq_refl eq_refl (enc_ctx_same opt key1 key2 key3 _ _ _ _) iv off eq_refl eq_refl Hiv Ho)
      as (iv' & off' & c & H).
    exists iv', off', c; split; [|exact H]; split;
      [exact (tdes_set_key_stream opt key1 key2 key3 Hk1 Hk2 Hk3 MUGGLE_ENCRYPT _ c1 Hc1 eq_refl ltac:(by left))
      |exact (tdes_set_key_stream opt key1 key2 key3 Hk1 Hk2 Hk3 MUGGLE_DECRYPT _ c2 Hc2 eq_refl ltac:(by left))].
  - exists (E MUGGLE_BLOCK_CIPHER_MODE_OFB), (S MUGGLE_BLOCK_CIPHER_MODE_OFB).
    destruct (tdes_ofb_roundtrip (tdes_block opt) (E MUGGLE_BLOCK_CIPHER_MODE_OFB)
      (S MUGGLE_BLOCK_CIPHER_MODE_OFB) _ m Hm (enc_ctx_same opt key1 key2 key3 _ _ _ _) iv off eq_refl eq_refl Hiv Ho)
      as (iv' & off' & c & H).
    exists iv', off', c; split; [|exact H]; split;
      [exact (tdes_set_key_stream opt key1 key2 key3 Hk1 Hk2 Hk3 MUGGLE_ENCRYPT _ c1 Hc1 eq_refl ltac:(by right; left))
      |exact (tdes_set_key_stream opt key1 key2 key3 Hk1 Hk2 Hk3 MUGGLE_DECRYPT _ c2 Hc2 eq_refl ltac:(by right; left))].
  - exists (E MUGGLE_BLOCK_CIPHER_MODE_CTR), (S MUGGLE_BLOCK_CIPHER_MODE_CTR).
    destruct (tdes_ctr_roundtrip (tdes_block opt) (E MUGGLE_BLOCK_CIPHER_MODE_CTR)
      (S MUGGLE_BLOCK_CIPHER_MODE_CTR) _ m Hm (enc_ctx_same opt key1 key2 key3 _ _ _ _) nonce off stream eq_refl eq_refl Ho Hst)
      as (nonce' & off' & st' & c & H).
    exists nonce', off', st', c; split; [|exact H]; split;
      [exact (tdes_set_key_stream opt key1 key2 key3 Hk1 Hk2 Hk3 MUGGLE_ENCRYPT _ c1 Hc1 eq_refl ltac:(by right; right))
      |exact (tdes_set_key_stream opt key1 key2 key3 Hk1 Hk2 Hk3 MUGGLE_DECRYPT _ c2 Hc2 eq_refl ltac:(by right; right))].
Qed.

Definition blank3 : muggle_tdes_context := TCTX 0 0 blank blank blank.

Lemma tdes_modes_roundtrip_witness :
  exists e d c,
    (muggle_tdes_set_key true MUGGLE_ENCRYPT MUGGLE_BLOCK_CIPHER_MODE_ECB
       (Some test_key) (Some test_plaintext) (Some test_key) (Some blank3) = Some (0, Some e) /\
     muggle_tdes_set_key true MUGGLE_DECRYPT MUGGLE_BLOCK_CIPHER_MODE_ECB
       (Some test_key) (Some test_plaintext) (Some test_key) (Some blank3) = Some (0, Some d)) /\
    muggle_tdes_ecb (tdes_block true) (Some e) (Some test_plaintext) 8 true = Some (inr c) /\
    length c = 8%nat /\
    muggle_tdes_ecb (tdes_block true) (Some d) (Some c) 8 true = Some (inr test_plaintext).
Proof.
  destruct test_blocks as [Hk Hp].
  apply (tdes_modes_roundtrip true test_key test_plaintext test_key test_plaintext test_key test_key 0 0
    blank3 blank3); [exact Hk|exact Hp|exact Hk|repeat split|repeat split|exact (proj2 Hp)|simpl; lia|
    exact Hk|exact Hk|lia|by exists 1].
Defined.

(** C37: the default build computes triple DES as it is specified.  For any
    three keys and every block, with the contexts as [muggle_tdes_set_key]
    sets them, [muggle_tdes_ecb] of the optimised build is
    encrypt-decrypt-encrypt of the Data Encryption Standard, and its
    decryption is decrypt-encrypt-decrypt with the keys in opposite order;
    with three equal keys it is single DES. *)
Theorem tdes_is_tdea (key1 key2 key3 b : list Z) (ctx : muggle_tdes_context)
    (Hk1 : is_block 8 key1) (Hk2 : is_block 8 key2) (Hk3 : is_block 8 key3) (Hb : is_block 8 b)
    (Hctx : fresh_ctx ctx) :
  exists e d,
    muggle_tdes_set_key true MUGGLE_ENCRYPT MUGGLE_BLOCK_CIPHER_MODE_ECB
      (Some key1) (Some key2) (Some key3) (Some ctx) = Some (0, Some e) /\
    muggle_tdes_set_key true MUGGLE_DECRYPT MUGGLE_BLOCK_CIPHER_MODE_ECB
      (Some key1) (Some key2) (Some key3) (Some ctx) = Some (0, Some d) /\
    muggle_tdes_ecb (tdes_block true) (Some e) (Some b) 8 true
    = Some (inr (be_bytes 8 (Fips.tdea_encrypt (of_be key1) (of_be key2) (of_be key3) (of_be b)))) /\
    muggle_tdes_ecb (tdes_block true) (Some d) (Some b) 8 true
    = Some (inr (be_bytes 8 (Fips.tdea_decrypt (of_be key1) (of_be key2) (of_be key3) (of_be b)))) /\
    Fips.tdea_encrypt (of_be key1) (of_be key1) (of_be key1) (of_be b) = Fips.encrypt (of_be key1) (of_be b).
Proof.
  destruct (tdes_set_key_spec true key1 key2 key3 Hk1 Hk2 Hk3 MUGGLE_BLOCK_CIPHER_MODE_ECB ctx Hctx
    (or_introl eq_refl)) as [He Hd].
  do 2 eexists; split; [exact He|]; split; [exact Hd|].
  destruct (tdes_keys_fips key1 key2 key3 b MUGGLE_BLOCK_CIPHER_MODE_ECB Hb) as [Ee Ed].
  split; [|split].
  - exact (tdes_ecb_block (tdes_block true) (enc_ctx true key1 key2 key3 _ _) b _ Hb eq_refl Ee).
  - exact (tdes_ecb_block (tdes_block true) (dec_ctx true key1 key2 key3 _) b _ Hb eq_refl Ed).
  - unfold Fips.tdea_encrypt, Fips.decrypt, Fips.encrypt.
    rewrite (fips_crypt_undone _ _ (proj1 (of_be_block b Hb))); reflexivity.
Qed.

Lemma tdes_is_tdea_witness :
  exists e d,
    muggle_tdes_set_key true MUGGLE_ENCRYPT MUGGLE_BLOCK_CIPHER_MODE_ECB
      (Some test_key) (Some test_key) (Some test_key) (Some blank3) = Some (0, Some e) /\
    muggle_tdes_set_key true MUGGLE_DECRYPT MUGGLE_BLOCK_CIPHER_MODE_ECB
      (Some test_key) (Some test_key) (Some test_key) (Some blank3) = Some (0, Some d) /\
    muggle_tdes_ecb (tdes_block true) (Some e) (Some test_plaintext) 8 true
    = Some (inr [133; 232; 19; 84; 15; 10; 180; 5]).
Proof.
  destruct test_blocks as [Hk Hp].
  destruct (tdes_is_tdea test_key test_key test_key test_plaintext blank3 Hk Hk Hk Hp ltac:(repeat split))
    as (e & d & He & Hd & E & _); exists e, d.
  split; [exact He|]; split; [exact Hd|exact E].
Defined.

(** The portable triple DES does not reduce to DES.  The three Feistel
    networks are chained without exchanging the halves between them, so with
    three equal keys the middle decryption does not undo the first
    encryption, and the ciphertext differs from the one of single DES, which
    encrypt-decrypt-encrypt triple DES is specified to give. *)
Theorem tdes_equal_keys_not_des :
  exists e e1 c c1,
    muggle_tdes_set_key false MUGGLE_ENCRYPT MUGGLE_BLOCK_CIPHER_MODE_ECB
      (Some test_key) (Some test_key) (Some test_key) (Some blank3) = Some (0, Some e) /\
    muggle_des_set_key false MUGGLE_ENCRYPT MUGGLE_BLOCK_CIPHER_MODE_ECB (Some test_key) (Some blank)
      = Some (0, Some e1) /\
    muggle_tdes_ecb (tdes_block false) (Some e) (Some test_plaintext) 8 true = Some (inr c) /\
    muggle_des_ecb (des_block false) (Some e1) (Some test_plaintext) 8 true = Some (inr c1) /\ c <> c1.
Proof.
  do 4 eexists; split; [vm_compute; reflexivity|]; split; [vm_compute; reflexivity|].
  split; [vm_compute; reflexivity|]; split; [vm_compute; reflexivity|done].
Qed.
