(* ===== verification/Hex.v ===== *)
(** * Hexadecimal strings: [encoding/hex.c]

    A [char *] is the list of its character codes (signed), a [uint8_t *] the
    list of bytes of the buffer; [None] is an access outside of a buffer. *)
From S2P Require Import Prelude Utils Modes.

(** [muggle_hex_to_byte]; [(uint8_t)(-1)] is 255. *)
Definition muggle_hex_to_byte (c : Z) : Z :=
  if (48 <=? c) && (c <=? 57) then u8 (c - 48)
  else if (65 <=? c) && (c <=? 70) then u8 (c - 65 + 10)
  else if (97 <=? c) && (c <=? 102) then u8 (c - 97 + 10)
  else 255.

(** The loop of [muggle_hex_to_bytes] from [i], [n] iterations left. *)
Fixpoint hex_loop (hex : list Z) (n : nat) (i : Z) (bytes : list Z) : option (Z * list Z) :=
  match n with
  | O => Some (0, bytes)
  | S n =>
      ch ← rd hex (u32 (i * 2 + 0)); cl ← rd hex (u32 (i * 2 + 1));
      let h := muggle_hex_to_byte ch in
      let l := muggle_hex_to_byte cl in
      if (h =? 255) || (l =? 255) then Some (-1, bytes)
      else bytes ← wr bytes i (u8 (Z.lor (Z.shiftl h 4) l)); hex_loop hex n (i + 1) bytes
  end.

(** Returns the code and the content of [bytes]. *)
Definition muggle_hex_to_bytes (hex bytes : list Z) (hex_len : Z) : option (Z * list Z) :=
  hex_loop hex (Z.to_nat (hex_len / 2)) 0 bytes.

(** "0123456789ABCDEF" and its terminator. *)
Definition s_hex : list Z :=
  [48; 49; 50; 51; 52; 53; 54; 55; 56; 57; 65; 66; 67; 68; 69; 70; 0].

Definition from_body (bytes : list Z) (i : Z) (hex : list Z) : option (list Z) :=
  b ← rd bytes i;
  ch ← rd s_hex (Z.land (Z.shiftr b 4) 15);
  hex ← wr hex (u32 (i * 2 + 0)) ch;
  cl ← rd s_hex (Z.land b 15);
  wr hex (u32 (i * 2 + 1)) cl.

(** Returns the content of [hex]. *)
Definition muggle_hex_from_bytes (bytes hex : list Z) (bytes_len : Z) : option (list Z) :=
  for_up (from_body bytes) (Z.to_nat bytes_len) 0 hex.

(** ** Specification *)

Definition hex_digit (c : Z) : bool := negb (muggle_hex_to_byte c =? 255).

(** The upper-case digit of a value. *)
Definition digit (v : Z) : Z := if v <? 10 then 48 + v else 55 + v.

Fixpoint encode (bytes : list Z) : list Z :=
  match bytes with [] => [] | b :: bytes => digit (b / 16) :: digit (b mod 16) :: encode bytes end.

(** The bytes of the pairs of digits, if they are digits. *)
Fixpoint decode (hex : list Z) : option (list Z) :=
  match hex with
  | h :: l :: hex =>
      if hex_digit h && hex_digit l then
        bs ← decode hex; Some (muggle_hex_to_byte h * 16 + muggle_hex_to_byte l :: bs)
      else None
  | _ => Some []
  end.

Definition upper (c : Z) : Z := if (97 <=? c) && (c <=? 102) then c - 32 else c.

(** ** Digits *)

Definition nibble_ok (v : Z) : bool :=
  match rd s_hex v with
  | Some c => (c =? digit v) && (muggle_hex_to_byte c =? v)
  | None => false
  end.

Lemma s_hex_digit v : 0 <= v < 16 ->
  rd s_hex v = Some (digit v) /\ muggle_hex_to_byte (digit v) = v /\ hex_digit (digit v) = true.
Proof.
  intros Hv; assert (forallb nibble_ok (seqZ 0 16) = true) as Ha by (vm_compute; reflexivity).
  rewrite forallb_forall in Ha; specialize (Ha v ltac:(apply list_elem_of_In, elem_of_seqZ; lia)).
  unfold nibble_ok in Ha; destruct (rd s_hex v) as [c|]; [|done].
  apply andb_true_iff in Ha as [H1 H2]; assert (c = digit v) as -> by lia.
  split; [done|]; unfold hex_digit; split; lia.
Qed.

Lemma hex_digit_value c : hex_digit c = true ->
  0 <= muggle_hex_to_byte c < 16 /\ digit (muggle_hex_to_byte c) = upper c.
Proof.
  unfold hex_digit, muggle_hex_to_byte, upper, digit.
  destruct (Z.leb_spec 48 c), (Z.leb_spec c 57), (Z.leb_spec 65 c), (Z.leb_spec c 70),
    (Z.leb_spec 97 c), (Z.leb_spec c 102); simpl; try lia; try done; intros _;
    rewrite wrap_small by (unfold in_width; lia); split; try lia; match goal with |- context [?a <? 10] => destruct (Z.ltb_spec a 10) end; lia.
Qed.

Lemma join_nibbles h l : 0 <= h < 16 -> 0 <= l < 16 -> u8 (Z.lor (Z.shiftl h 4) l) = h * 16 + l.
Proof.
  intros Hh Hl; assert (Z.land (Z.shiftl h 4) l = 0) as Hd.
  { apply Z.bits_inj'; intros n Hn; rewrite Z.land_spec, Z.shiftl_spec, Z.testbit_0_l by lia.
    destruct (Z.lt_ge_cases n 4); [by rewrite (Z.testbit_neg_r h) by lia|].
    destruct (Z.eq_dec l 0) as [->|]; [by rewrite Z.testbit_0_l, andb_false_r|].
    rewrite (Z.bits_above_log2 l n), andb_false_r; [done|lia|].
    apply Z.log2_lt_pow2; [lia|]; apply Z.lt_le_trans with (2 ^ 4); [lia|apply Z.pow_le_mono_r; lia]. }
  rewrite <- Z.lxor_lor, <- Z.add_nocarry_lxor, Z.shiftl_mul_pow2 by done.
  apply wrap_small; unfold in_width; lia.
Qed.

(** ** The loops *)

Lemma encode_length bs : length (encode bs) = (2 * length bs)%nat.
Proof. induction bs; simpl; lia. Qed.

Lemma nibbles b : byte_ok b ->
  Z.land (Z.shiftr b 4) 15 = b / 16 /\ Z.land b 15 = b mod 16 /\
  0 <= b / 16 < 16 /\ 0 <= b mod 16 < 16.
Proof.
  unfold byte_ok; intros Hb; change 15 with (2 ^ 4 - 1); rewrite !land_pow2_pred by lia.
  rewrite Z.shiftr_div_pow2 by lia; change (2 ^ 4) with 16.
  assert (0 <= b / 16 < 16) by (split; [apply Z.div_pos; lia|apply Z.div_lt_upper_bound; lia]).
  split; [by apply Z.mod_small|]; split; [done|]; split; [done|apply Z.mod_pos_bound; lia].
Qed.

(** The two writes of one iteration, [hex[i*2]] being [x]. *)
Lemma from_body_step bytes i b done_ x y rest :
  byte_ok b -> rd bytes i = Some b -> i * 2 = Z.of_nat (length done_) -> i * 2 + 1 < 2 ^ 32 ->
  from_body bytes i (done_ ++ x :: y :: rest)
  = Some (done_ ++ digit (b / 16) :: digit (b mod 16) :: rest).
Proof.
  intros Hb Hr Hi Hw; destruct (nibbles b Hb) as (E1 & E2 & N1 & N2).
  unfold from_body; rewrite Hr; cbn [mbind option_bind]; rewrite E1, E2.
  destruct (s_hex_digit _ N1) as (-> & _), (s_hex_digit _ N2) as (-> & _).
  rewrite !wrap_small by (unfold in_width; lia); cbn [mbind option_bind].
  rewrite wr_mid by lia; cbn [mbind option_bind].
  change (done_ ++ digit (b / 16) :: y :: rest) with (done_ ++ [digit (b / 16)] ++ y :: rest).
  rewrite app_assoc, wr_mid by (rewrite length_app; simpl; lia); by rewrite <- app_assoc.
Qed.

Lemma encode_app xs ys : encode (xs ++ ys) = encode xs ++ encode ys.
Proof. induction xs as [|x xs IH]; simpl; [done|]; by rewrite IH. Qed.

Lemma from_loop bs pre hex rest :
  Forall byte_ok bs -> length hex = (2 * length bs)%nat ->
  2 * Z.of_nat (length pre + length bs) < 2 ^ 32 ->
  for_up (from_body (pre ++ bs)) (length bs) (Z.of_nat (length pre)) (encode pre ++ hex ++ rest)
  = Some (encode (pre ++ bs) ++ rest).
Proof.
  intros Hb; revert pre hex; induction Hb as [|b bs Hb _ IH]; intros pre hex Hl Hw.
  { destruct hex; [|simpl in Hl; lia]; by rewrite app_nil_r. }
  destruct hex as [|x [|y hex]]; [simpl in Hl; lia..|]; cbn [length for_up app] in *.
  rewrite (from_body_step _ _ b) by (rewrite ?encode_length; first [done|lia|by apply rd_mid]).
  cbn [mbind option_bind]; specialize (IH (pre ++ [b]) hex).
  rewrite encode_app, length_app, <- !app_assoc in IH; cbn [length encode app] in IH.
  replace (Z.of_nat (length pre) + 1) with (Z.of_nat (length pre + 1)) by lia; apply IH; lia.
Qed.

Lemma hex_from_bytes_spec bs hex :
  Forall byte_ok bs -> (2 * length bs <= length hex)%nat -> 2 * Z.of_nat (length bs) < 2 ^ 32 ->
  muggle_hex_from_bytes bs hex (Z.of_nat (length bs))
  = Some (encode bs ++ drop (2 * length bs) hex).
Proof.
  intros Hb Hl Hw; unfold muggle_hex_from_bytes; rewrite Nat2Z.id.
  rewrite <- (take_drop (2 * length bs) hex) at 1.
  apply (from_loop bs [] (take (2 * length bs) hex)); [done|rewrite length_take; lia|simpl; lia].
Qed.

Lemma decode_pairs_ind (P : list Z -> Prop) :
  P [] -> (forall c, P [c]) -> (forall h l hex, P hex -> P (h :: l :: hex)) -> forall hex, P hex.
Proof.
  intros P0 P1 P2; enough (forall hex, P hex /\ forall c, P (c :: hex)) by naive_solver.
  induction hex as [|x hex [IH1 IH2]]; split; auto.
Qed.

(** A run over all the pairs from a common prefix. *)
Lemma hex_loop_spec hex hp bp buf rest :
  length hp = (2 * length bp)%nat -> length hex = (2 * length buf)%nat ->
  Z.of_nat (length hp + length hex) < 2 ^ 32 ->
  match decode hex with
  | Some bs => hex_loop (hp ++ hex) (length buf) (Z.of_nat (length bp)) (bp ++ buf ++ rest)
               = Some (0, bp ++ bs ++ rest)
  | None => exists out, hex_loop (hp ++ hex) (length buf) (Z.of_nat (length bp)) (bp ++ buf ++ rest)
                        = Some (-1, out)
  end.
Proof.
  revert hp bp buf; induction hex as [|c|h l hex IH] using decode_pairs_ind;
    intros hp bp buf Hhp Hbuf Hw; cbn [decode length] in *.
  - destruct buf; [done|simpl in Hbuf; lia].
  - lia.
  - destruct buf as [|b buf]; [simpl in Hbuf; lia|]; cbn [length hex_loop app] in *.
    rewrite !wrap_small by (unfold in_width; lia).
    rewrite (rd_mid hp h _ (_ + 0)) by lia; cbn [mbind option_bind].
    change (hp ++ h :: l :: hex) with (hp ++ [h] ++ l :: hex).
    rewrite (app_assoc hp), rd_mid by (rewrite length_app; simpl; lia); cbn [mbind option_bind].
    rewrite <- app_assoc; cbn [app]; unfold hex_digit at 1 2.
    destruct (muggle_hex_to_byte h =? 255) eqn:Eh; cbn [negb andb orb]; [by eexists|].
    destruct (muggle_hex_to_byte l =? 255) eqn:El; cbn [negb andb orb]; [by eexists|].
    destruct (hex_digit_value h) as [Bh _]; [unfold hex_digit; by rewrite Eh|].
    destruct (hex_digit_value l) as [Bl _]; [unfold hex_digit; by rewrite El|].
    rewrite wr_mid, join_nibbles by done; cbn [mbind option_bind].
    set (v := _ * 16 + _); specialize (IH (hp ++ [h; l]) (bp ++ [v]) buf).
    rewrite !length_app, <- !app_assoc in IH; cbn [length app] in IH.
    replace (Z.of_nat (length bp) + 1) with (Z.of_nat (length bp + 1)) by lia.
    specialize (IH ltac:(lia) ltac:(lia) ltac:(lia)).
    destruct (decode hex) as [bs|]; cbn [mbind option_bind app] in *; [|exact IH].
    by rewrite IH, <- app_assoc.
Qed.

Lemma hex_to_bytes_spec hex bytes n :
  length hex = (2 * n)%nat -> (n <= length bytes)%nat -> Z.of_nat (length hex) < 2 ^ 32 ->
  match decode hex with
  | Some bs => muggle_hex_to_bytes hex bytes (Z.of_nat (length hex)) = Some (0, bs ++ drop n bytes)
  | None => exists out, muggle_hex_to_bytes hex bytes (Z.of_nat (length hex)) = Some (-1, out)
  end.
Proof.
  intros Hl Hn Hw; unfold muggle_hex_to_bytes.
  replace (Z.to_nat (Z.of_nat (length hex) / 2)) with (length (take n bytes)).
  - pose proof (hex_loop_spec hex [] [] (take n bytes) (drop n bytes)) as H.
    cbn [app] in H; rewrite take_drop in H.
    apply H; [done|rewrite length_take; lia|simpl; lia].
  - rewrite length_take, Hl; replace (Z.of_nat (2 * n)) with (Z.of_nat n * 2) by lia.
    rewrite Z.div_mul by lia; lia.
Qed.

(** ** Encoding and decoding *)

Lemma decode_encode bs : Forall byte_ok bs -> decode (encode bs) = Some bs.
Proof.
  induction 1 as [|b bs Hb _ IH]; simpl; [done|]; destruct (nibbles b Hb) as (_ & _ & N1 & N2).
  destruct (s_hex_digit _ N1) as (_ & -> & ->), (s_hex_digit _ N2) as (_ & -> & ->).
  rewrite IH; simpl; do 2 f_equal; pose proof (Z.div_mod b 16 ltac:(lia)); lia.
Qed.

Lemma decode_bytes hex : 
  forallb hex_digit hex = true -> Nat.even (length hex) = true ->
  exists bs, decode hex = Some bs /\ Forall byte_ok bs /\ length hex = (2 * length bs)%nat /\
    encode bs = map upper hex.
Proof.
  induction hex as [|c|h l hex IH] using decode_pairs_ind; [by exists []|done|].
  cbn [forallb length Nat.even decode]; rewrite !andb_true_iff; intros (Hh & Hl & Hd) He.
  destruct (IH Hd He) as (bs & -> & Hf & Hn & E); rewrite Hh, Hl; cbn [andb mbind option_bind].
  destruct (hex_digit_value h Hh) as [Bh Uh], (hex_digit_value l Hl) as [Bl Ul].
  eexists; split; [done|]; split; [constructor; [unfold byte_ok; lia|done]|]; split; [simpl; lia|].
  cbn [encode map]; rewrite E, Z.div_add_l, Z.div_small, Z.add_0_r by lia.
  by rewrite (Z.add_comm (_ * 16)), Z.mod_add, Z.mod_small, Uh, Ul by lia.
Qed.

Lemma decode_fails hex :
  forallb hex_digit hex = false -> Nat.even (length hex) = true -> decode hex = None.
Proof.
  induction hex as [|c|h l hex IH] using decode_pairs_ind; [done|done|].
  cbn [forallb length Nat.even decode]; intros Hd He.
  destruct (hex_digit h), (hex_digit l); cbn [andb] in *; try done; by rewrite IH.
Qed.

(** ** Properties *)

(** Encoding bytes and decoding the text gives the bytes back: for every
    buffer of fewer than 2^31 bytes and large enough output buffers,
    [muggle_hex_from_bytes] writes two upper-case digits per byte,
    [muggle_hex_to_bytes] of them returns 0 and writes the bytes, and neither
    writes beyond them. *)
Theorem hex_roundtrip (bs hex bytes : list Z) (Hb : Forall byte_ok bs)
    (Hhex : (2 * length bs <= length hex)%nat) (Hbytes : (length bs <= length bytes)%nat)
    (Hsize : Z.of_nat (length bs) < 2 ^ 31) :
  exists text,
    muggle_hex_from_bytes bs hex (Z.of_nat (length bs)) = Some (text ++ drop (2 * length bs) hex) /\
    length text = (2 * length bs)%nat /\
    muggle_hex_to_bytes text bytes (Z.of_nat (length text))
    = Some (0, bs ++ drop (length bs) bytes).
Proof.
  exists (encode bs); split; [apply hex_from_bytes_spec; [done|done|lia]|].
  split; [apply encode_length|].
  pose proof (hex_to_bytes_spec (encode bs) bytes (length bs)) as H.
  rewrite decode_encode in H by done; apply H; rewrite ?encode_length; lia.
Qed.

Lemma hex_roundtrip_witness :
  exists text,
    muggle_hex_from_bytes [18; 171] [0; 0; 0; 0; 7] 2 = Some (text ++ [7]) /\ length text = 4%nat /\
    muggle_hex_to_bytes text [9; 9; 9] (Z.of_nat (length text)) = Some (0, [18; 171; 9]).
Proof.
  apply (hex_roundtrip [18; 171] [0; 0; 0; 0; 7] [9; 9; 9]); simpl; try lia.
  repeat (constructor; [unfold byte_ok; lia|]); constructor.
Defined.

(** Decoding a text of even length.  [muggle_hex_to_bytes] returns 0
    exactly when every character is a hexadecimal digit of either case, and
    -1 otherwise; when it succeeds, encoding the bytes gives the text back
    with its letters in upper case. *)
Theorem hex_decode_correct (hex bytes : list Z) (He : Nat.even (length hex) = true)
    (Hn : (length hex <= 2 * length bytes)%nat) (Hsize : Z.of_nat (length hex) < 2 ^ 32) :
  if forallb hex_digit hex then
    exists bs, muggle_hex_to_bytes hex bytes (Z.of_nat (length hex))
               = Some (0, bs ++ drop (length bs) bytes) /\
      length hex = (2 * length bs)%nat /\ Forall byte_ok bs /\
      muggle_hex_from_bytes bs hex (Z.of_nat (length bs)) = Some (map upper hex)
  else exists out, muggle_hex_to_bytes hex bytes (Z.of_nat (length hex)) = Some (-1, out).
Proof.
  destruct (forallb hex_digit hex) eqn:Hd.
  - destruct (decode_bytes hex Hd He) as (bs & E & Hf & Hl & Hu); exists bs.
    pose proof (hex_to_bytes_spec hex bytes (length bs)) as H; rewrite E in H.
    split; [apply H; lia|]; split; [done|]; split; [done|].
    rewrite hex_from_bytes_spec, Hu, drop_ge, app_nil_r by (done || lia); done.
  - apply Nat.even_spec in He as [n Hn']; pose proof (hex_to_bytes_spec hex bytes n) as H.
    rewrite decode_fails in H; [apply H; lia|done|apply Nat.even_spec; by exists n].
Qed.

Lemma hex_decode_correct_witness :
  exists bs, muggle_hex_to_bytes [49; 97] [0] 2 = Some (0, bs ++ drop (length bs) [0]) /\
    2%nat = (2 * length bs)%nat /\ Forall byte_ok bs /\
    muggle_hex_from_bytes bs [49; 97] (Z.of_nat (length bs)) = Some [49; 65].
Proof. apply (hex_decode_correct [49; 97] [0]); [reflexivity|simpl; lia|simpl; lia]. Defined.
